(* ===== verification/_CoqProject ===== *)
-Q . S2P
Prelude.v
Global.v
Helper.v
Alloc.v
Arrays.v
DList.v
Index.v
IndexPerfect.v
IndexInit.v
IndexChain.v
IndexHash.v
TxnIndex.v
RowLock.v
Plock.v
Mvcc.v
RowTs.v
DlDetect.v
Manager.v
Thread.v
Storage.v
SchemaFile.v
TpccKeys.v
TpccQuery.v
TpccTxn.v
TpccRep.v
TpccSpec.v
TpccConsistency.v
TpccLoad.v
TpccLoadLog.v
TpccLoaded.v
TpccRecords.v
TpccSize.v
Vll.v
BTree.v
BTreeInv.v
BTreeSplit.v
BTreeInsert.v
BTreeIndex.v
BTreeLatch.v
Sort.v
Serial.v
History.v
TwoPL.v
Occ.v
Words.v
Silo.v
Hekaton.v
HekatonTxn.v
TicToc.v
TicTocTxn.v
Zipf.v
YcsbQuery.v
YcsbLoad.v
YcsbTxn.v
YcsbTwoPL.v
YcsbProgress.v
