(* ===== verification/Prelude.v ===== *)
(** * DBx1000: a verification development

    DBx1000 is a main-memory database for measuring concurrency control.  Worker
    threads take queries of a workload (YCSB, TPC-C), run them as transactions over
    rows found through an index, and finish them with the concurrency control that
    [CC_ALG] selects at compile time.  This library models the program in the
    order in which a transaction meets it; a C++ function is a Rocq function of the
    same name on an explicit state, a failed assertion, a null pointer that is
    followed or an access outside an array is [None], and threads are step
    relations whose steps are the atomic actions of the code.

    ** Files

    - Prelude.v: machine integers ([u64], [u32], [s32], [s64]), the option monad
      with assertions ([do!], [assert!]), the tactics [b2p], [case_step] and
      [inv_assert], and lemmas on lists.  Global.v: the enumerations of
      system/global.h.  Helper.v: system/helper.cpp (index keys, partitions,
      random numbers, back-off).
    - DList.v: the [LIST_*] macros of system/helper.h on [next] and [prev]
      pointers, and the lists they implement.  Later files use lists for the
      queues that the code builds with these macros.
    - Storage.v: [Catalog] (storage/catalog.cpp) and the bytes of [row_t]
      (storage/row.h).  SchemaFile.v: [workload::init_schema] (system/wl.cpp).
    - Index.v: the interface of the indexes towards the loaders and transactions,
      a class whose laws IndexHash.v (storage/index_hash.h) and IndexPerfect.v
      (storage/index_hash_perfect.h) prove.  IndexInit.v: the first insertions of
      several threads into a partition of the latter; IndexChain.v: its buckets
      without back pointers.  TxnIndex.v: the buffers of inserted
      rows and index operations of [txn_man] (system/txn.cpp) on top of it.
    - Arrays.v, BTree.v, BTreeInv.v, BTreeSplit.v, BTreeInsert.v, BTreeIndex.v:
      the B+-tree (storage/index_btree.cpp), from the loops over the arrays of a
      node to the whole index.  BTreeLatch.v: the latches of its nodes.
    - RowLock.v: two-phase locking per row (row_lock.cpp).  TwoPL.v: transactions
      on top of it ([get_row], [finish], [cleanup] of txn.cpp and row.cpp).
      DlDetect.v: the deadlock detector (dl_detect/).
    - Plock.v: the partition locks of HSTORE (plock.cpp).  Vll.v: VLL (row_vll.cpp,
      vll/).
    - RowTs.v: basic timestamp ordering (row_ts.cpp).  Mvcc.v: multi-version
      timestamp ordering (row_mvcc.cpp).  Hekaton.v: the versions of a row under
      HEKATON (row_hekaton.cpp); HekatonTxn.v: the transactions on them
      (hekaton/hekaton.cpp).
    - Occ.v: OCC, per row and central (row_occ.cpp, occ/).  Words.v: words with a
      lock bit.  Silo.v: Silo (row_silo.cpp, silo/).  TicToc.v: TicToc
      (row_tictoc.cpp, tictoc/); TicTocTxn.v: its serializability.  Sort.v: the
      bubble sorts of the validations.
      Serial.v: serial replay of committed transactions, the specification that
      TwoPL.v, Occ.v, Silo.v, HekatonTxn.v and TicTocTxn.v refine; History.v: the
      versions of the rows that a log makes, for the last two.
    - Manager.v: timestamps, the oldest active timestamp and the epoch
      (manager.cpp, [thread_t::get_next_ts]).  Thread.v: the loop of a worker with
      its abort buffer and query queue (thread.cpp, query.cpp).
    - Alloc.v: the arenas of system/utils/mem_alloc.cpp and the bump allocator of
      hawk_alloc.h.
    - TPC-C (benchmarks/tpcc/): TpccKeys.v the index keys and random parameters
      (tpcc_helper.h), TpccQuery.v the generator of queries (tpcc_query.cpp),
      TpccTxn.v the five transactions (tpcc_txn.cpp), one at a time on rows,
      indexes and the buffers of TxnIndex.v; TpccRep.v the relation between a
      database and the numbers that describe it, TpccSpec.v the effect of every
      transaction on them, TpccConsistency.v the theorems.  TpccLoad.v the loader
      (tpcc_wl.cpp), TpccLoadLog.v the rows that it makes, TpccLoaded.v that they
      are consistent.  TpccRecords.v the records, the catalogs that the schema
      files describe and that they agree (tpcc_const.h, TPCC_*.txt), TpccSize.v the
      size of the database (tpcc_wl_size.cpp).
    - YCSB (benchmarks/ycsb/): YcsbQuery.v the generator of queries
      (ycsb_query.cpp) and Zipf.v the real numbers of its distribution, YcsbLoad.v the parallel loader (ycsb_wl.cpp), YcsbTxn.v
      [run_txn] (ycsb_txn.cpp) as a program of calls; YcsbTwoPL.v many workers that run
      such programs on the transactions of TwoPL.v, YcsbProgress.v that they do not
      deadlock.

    ** What the theorems show

    - Serializability: in every interleaving of any number of threads the committed
      transactions of two-phase locking, OCC and Silo read exactly what a serial
      execution of them gives; so do those of TicToc as long as no compare-and-swap
      shortens a lease (when one does, [tictoc_lease_shrinks] is a run that is not
      serializable), and those of Hekaton but for the reads that validation let
      pass on speculation ([hekaton_write_skew] is a run with two of them); under MVCC and basic timestamp ordering a row's reads
      return what the timestamp order asks for; transactions that VLL runs together
      do not conflict.
    - Locks: mutual exclusion, absence of deadlock under WAIT_DIE and for HSTORE, no
      lost wake-up, the deadlock detector finds exactly the cycles it should.
    - Data structures refine abstract ones: index buckets are queues or maps, the
      B+-tree is a sorted map, the partition locks an owner and a queue, the macros
      lists, the words of TicToc pairs of timestamps.
    - The rest of the system: timestamps are unique, the minimum is safe, a worker
      loses no query, catalogs lay out columns without overlap, values and schema
      files read back, full buffers throw and change nothing.
    - Workloads: generated queries are valid; the loaders end in a database in which
      every key is found; every sequence of TPC-C transactions, whatever commits,
      keeps the consistency conditions of TPC-C; the queries of YCSB, interleaved under
      two-phase locking, have the effect of running them one after the other, and
      some worker can always go on.
    - Memory: the arenas never hand out the same bytes twice.
    - Where the code fails its purpose, a theorem shows the failing run on a
      concrete input (for instance [Vll.vll_blocked_never_runs],
      [Silo.silo_waiting_lost_update], [Mvcc.mvcc_recycle_overwrites_reader]).

    ** Assumptions and bounds

    Memory is sequentially consistent, and a section under a latch or mutex of the
    code is one step.  Timestamps and counters that the code would wrap after 2^64
    steps are not wrapped; where a narrower integer matters ([uint32_t] in
    row_mvcc.cpp, [UInt32] in index_btree.cpp, the delta of TicToc) it is kept at
    its width.  Loops without a structural measure take fuel: the length of the list,
    line or queue they walk, or the height of the tree; each file proves that this
    is enough, or returns [None] when the fuel ends and proves that it does not.
    Clocks, random numbers and scheduling choices are arguments.
    row_hekaton.cpp does not compile ([compare_exchange_weak] on the constant
    [false], [cur_row] as a function, calls with a wrong number of arguments); these
    places are taken for the acquisition of the latch, the store and the calls
    that they stand for.  Hekaton's timestamps are handed out in order, that is,
    without [g_ts_batch_alloc].

    ** Not modelled

    - system/main.cpp, parser.cpp, stats.cpp, config.cpp: the command line, the
      numa files, printing of statistics, process set-up.
    - latch.hpp, utils/mm_malloc.h and HubStats.hpp: wrappers of mutexes, of aligned
      allocation and of hardware counters.
    - TPC-C: the variants of the transactions and of the loader under
      REPLICATE_ITEM, REPLICATE_INTERNALS and BATCHED_ACCESS.  YCSB: [init_table],
      which nothing calls.
    - libs/pcm: the vendored performance counter monitor.  variant_config/: macro
      settings, which appear here as parameters.  src/test/, benchmarks/test_*: test
      programs.
*)

From Stdlib Require Import ZArith Lia ZifyBool Bool Sorted.
From stdpp Require Export base tactics numbers list gmap sets relations sorting.

#[export] Set Default Goal Selector "!".

Declare Scope dbx_scope.
Delimit Scope dbx_scope with dbx.
Global Open Scope dbx_scope.
Global Open Scope Z_scope.

(** ** Machine integers

    A value of a [w]-bit unsigned C type is a [Z]; the arithmetic of the code
    wraps with the functions below. *)

Definition u64 (z : Z) : Z := z mod 2 ^ 64.
Definition u32 (z : Z) : Z := z mod 2 ^ 32.
Definition UINT64_MAX : Z := 2 ^ 64 - 1.

(** Reinterpretation as a signed 32-bit / 64-bit integer, as the casts
    [(SInt32)] and [(SInt64)] do. *)
Definition s32 (z : Z) : Z := (z + 2 ^ 31) mod 2 ^ 32 - 2 ^ 31.
Definition s64 (z : Z) : Z := (z + 2 ^ 63) mod 2 ^ 64 - 2 ^ 63.

Definition is_u64 (z : Z) : Prop := 0 <= z < 2 ^ 64.
Definition is_u32 (z : Z) : Prop := 0 <= z < 2 ^ 32.

Lemma u64_small z : is_u64 z -> u64 z = z.
Proof. intros H. apply Z.mod_small, H. Qed.

Lemma u32_small z : is_u32 z -> u32 z = z.
Proof. intros H. apply Z.mod_small, H. Qed.

Lemma u64_range z : is_u64 (u64 z).
Proof. apply Z.mod_pos_bound. lia. Qed.

Lemma u32_range z : is_u32 (u32 z).
Proof. apply Z.mod_pos_bound. lia. Qed.

Lemma s64_small z : - 2 ^ 63 <= z < 2 ^ 63 -> s64 z = z.
Proof. intros H. unfold s64. rewrite Z.mod_small; lia. Qed.

Lemma s32_small z : - 2 ^ 31 <= z < 2 ^ 31 -> s32 z = z.
Proof. intros H. unfold s32. rewrite Z.mod_small; lia. Qed.

(** ** Assertions

    [assert(e)] and [M_ASSERT(e, ...)] stop the program when [e] is false; a
    function that contains one returns an [option], [None] being the stopped
    program. *)

Definition c_assert {A} (b : bool) (k : option A) : option A :=
  if b then k else None.

Notation "'assert!' b ';;' k" := (c_assert b k)
  (at level 100, b at next level, k at level 200, right associativity,
   format "'[v' 'assert!'  b  ';;' '/' k ']'") : dbx_scope.

(** Sequencing of steps that can stop the program. *)
Notation "'do!' x <- e ;; k" := (match e with Some x => k | None => None end)
  (at level 100, x name, e at next level, k at level 200, right associativity)
  : dbx_scope.

Lemma c_assert_true {A} (b : bool) (k : option A) : b = true -> c_assert b k = k.
Proof. by intros ->. Qed.

Lemma c_assert_Some {A} (b : bool) (k : option A) x :
  c_assert b k = Some x <-> b = true /\ k = Some x.
Proof. destruct b; simpl; [tauto|]. split; [done|]. by intros [? _]. Qed.

(** ** Tactics *)

(** Turns boolean comparisons into propositions, everywhere. *)
Ltac b2p :=
  repeat match goal with
  | H : (_ && _)%bool = true |- _ => apply andb_prop in H as [? ?]
  | H : (_ || _)%bool = false |- _ => apply orb_false_elim in H as [? ?]
  | H : negb _ = true |- _ => apply negb_true_iff in H
  | H : negb _ = false |- _ => apply negb_false_iff in H
  | H : (_ <? _) = true |- _ => apply Z.ltb_lt in H
  | H : (_ <? _) = false |- _ => apply Z.ltb_ge in H
  | H : (_ <=? _) = true |- _ => apply Z.leb_le in H
  | H : (_ <=? _) = false |- _ => apply Z.leb_gt in H
  | H : (_ =? _) = true |- _ => apply Z.eqb_eq in H
  | H : (_ =? _) = false |- _ => apply Z.eqb_neq in H
  | H : bool_decide _ = true |- _ => apply bool_decide_eq_true in H
  | H : bool_decide _ = false |- _ => apply bool_decide_eq_false in H
  end.

(** Case analysis on the [if]s and [match]es of the goal, from the outside,
    with the conditions turned into propositions. *)
Ltac case_step := case_match; b2p; simplify_eq/=.

(** Inverts the assertions of a hypothesis. *)
Ltac inv_assert :=
  repeat match goal with
  | H : c_assert _ _ = Some _ |- _ => apply c_assert_Some in H as [? H]
  end; b2p.

(** ** Lists shared by the components *)

Section list_lemmas.
Context {A : Type}.
Implicit Types (l : list A) (f : A -> bool).

(** The loop [while (en && !p(en)) { prev = en; en = en->next; }] followed by
    the unlinking of [en]: removes the first element that satisfies [p]. *)
Fixpoint remove_first f l : option (A * list A) :=
  match l with
  | [] => None
  | x :: l' =>
      if f x then Some (x, l')
      else match remove_first f l' with
           | Some (y, r) => Some (y, x :: r)
           | None => None
           end
  end.

Lemma remove_first_Some f l x r :
  remove_first f l = Some (x, r) <->
  exists l1 l2, l = l1 ++ x :: l2 /\ r = l1 ++ l2 /\ f x = true /\
                Forall (fun y => f y = false) l1.
Proof.
  revert x r. induction l as [|a l IH]; intros x r; simpl.
  - split; [done|]. intros ([|??] & ? & ? & _); done.
  - destruct (f a) eqn:Ha.
    + split.
      * intros [= <- <-]. exists [], l. auto.
      * intros ([|b l1] & l2 & Hl & Hr & Hf & HF); simplify_eq/=; [done|].
        apply Forall_cons in HF as [? _]. congruence.
    + destruct (remove_first f l) as [[y r']|] eqn:Hr.
      * split.
        -- intros [= <- <-].
           destruct (proj1 (IH y r') eq_refl) as (l1 & l2 & -> & -> & Hy & HF).
           exists (a :: l1), l2. repeat split; auto.
        -- intros ([|b l1] & l2 & Hl & -> & Hf & HF); simplify_eq/=; [congruence|].
           apply Forall_cons in HF as [? HF].
           assert (Some (y, r') = Some (x, l1 ++ l2)) as [= -> ->]; [|done].
           apply IH. eauto 10.
      * split; [done|].
        intros ([|b l1] & l2 & Hl & -> & Hf & HF); simplify_eq/=; [congruence|].
        apply Forall_cons in HF as [? HF].
        assert (None = Some (x, l1 ++ l2)); [|done]. apply IH. eauto 10.
Qed.

Lemma remove_first_None f l :
  remove_first f l = None <-> Forall (fun y => f y = false) l.
Proof.
  induction l as [|a l IH]; simpl; [by split|].
  rewrite Forall_cons, <- IH. destruct (f a); [naive_solver|].
  destruct (remove_first f l) as [[??]|]; naive_solver.
Qed.

Lemma remove_first_Permutation f l x r :
  remove_first f l = Some (x, r) -> l ≡ₚ x :: r.
Proof.
  intros (l1 & l2 & -> & -> & _)%remove_first_Some.
  by rewrite Permutation_middle.
Qed.

Lemma remove_first_sublist f l x r :
  remove_first f l = Some (x, r) -> r `sublist_of` l.
Proof.
  intros (l1 & l2 & -> & -> & _)%remove_first_Some.
  apply sublist_app; [done|]. by apply sublist_cons.
Qed.

Lemma remove_first_is_Some f l x :
  x ∈ l -> f x = true -> is_Some (remove_first f l).
Proof.
  intros Hx Hf. destruct (remove_first f l) as [?|] eqn:E; [eauto|].
  rewrite remove_first_None, Forall_forall in E.
  specialize (E x Hx). congruence.
Qed.
End list_lemmas.

Lemma Forall2_impl_in {A B} (P Q : A -> B -> Prop) l k :
  Forall2 P l k -> (forall x y, x ∈ l -> P x y -> Q x y) -> Forall2 Q l k.
Proof.
  induction 1 as [|x y l k Hxy Hl IH]; intros HPQ; constructor.
  - apply HPQ; [left|done].
  - apply IH. intros x' y' Hx'. apply HPQ. by right.
Qed.

Lemma filter_none {A} (f : A -> bool) (l : list A) :
  (forall x, x ∈ l -> f x = false) -> List.filter f l = [].
Proof.
  induction l as [|a l IH]; intros Hf; simpl; [done|].
  rewrite Hf by left. apply IH. intros x Hx. apply Hf. by right.
Qed.

Lemma lookup_map {A B} (f : A -> B) (l : list A) (i : nat) :
  map f l !! i = f <$> l !! i.
Proof. revert i. induction l; intros [|i]; simpl; auto. Qed.

(** A duplicate-free list of naturals below [n] has at most [n] elements. *)
Lemma NoDup_lt_length (l : list nat) (n : nat) :
  NoDup l -> Forall (fun x => (x < n)%nat) l -> (length l <= n)%nat.
Proof.
  intros Hnd Hlt. rewrite <- (length_seq n 0).
  apply submseteq_length, NoDup_submseteq; [done|].
  intros x Hx. rewrite Forall_forall in Hlt. specialize (Hlt x Hx).
  apply elem_of_seq. lia.
Qed.

Lemma StronglySorted_sublist {A} (R : A -> A -> Prop) l1 l2 :
  l1 `sublist_of` l2 -> StronglySorted R l2 -> StronglySorted R l1.
Proof.
  induction 1 as [|x l1 l2 Hs IH|x l1 l2 Hs IH]; [done| |].
  - intros [HS HF]%StronglySorted_inv. constructor; [auto|].
    rewrite Forall_forall in HF |- *. intros y Hy.
    apply HF. eapply sublist_submseteq, elem_of_submseteq in Hs; done.
  - intros [HS HF]%StronglySorted_inv. auto.
Qed.
