(* ===== verification/Global.v ===== *)
(** The enumerations of system/global.h, with decidable equality. *)

From S2P Require Import Prelude.

(** ** Enumerations (system/global.h) *)

Inductive RC := RCOK | Commit | Abort | WAIT | ERROR | FINISH.
Inductive access_t := RD | WR | XP | SCAN | RO.
Inductive lock_t := LOCK_EX | LOCK_SH | LOCK_NONE.
Inductive TsType := R_REQ | W_REQ | P_REQ | XP_REQ.
Inductive latch_t := LATCH_EX | LATCH_SH | LATCH_NONE.

#[export] Instance RC_eq_dec : EqDecision RC.
Proof. solve_decision. Defined.
#[export] Instance access_t_eq_dec : EqDecision access_t.
Proof. solve_decision. Defined.
#[export] Instance lock_t_eq_dec : EqDecision lock_t.
Proof. solve_decision. Defined.
#[export] Instance TsType_eq_dec : EqDecision TsType.
Proof. solve_decision. Defined.
#[export] Instance latch_t_eq_dec : EqDecision latch_t.
Proof. solve_decision. Defined.
