(* ===== verification/Helper.v ===== *)
(** * Helpers of the system

    src/system/helper.h and helper.cpp: the merging of index keys, the mapping of
    keys and addresses to partitions, the random number generator and the two
    back-off counters. *)

From S2P Require Import Prelude Global.

(** ** Index keys *)

Definition merge_idx_key2 (key1 key2 : Z) : option Z :=
  assert! (key1 <? 2 ^ 32) && (key2 <? 2 ^ 32);;
  Some (Z.lor (u64 (Z.shiftl key1 32)) key2).

Definition merge_idx_key3 (key1 key2 key3 : Z) : option Z :=
  assert! (key1 <? 2 ^ 21) && (key2 <? 2 ^ 21) && (key3 <? 2 ^ 21);;
  Some (Z.lor (Z.lor (u64 (Z.shiftl key1 42)) (u64 (Z.shiftl key2 21))) key3).

(** The variant for an array of keys: the loop runs [len = 64 / key_cnt] times, one
    key per turn; [None] is a failed assertion or a read behind the array.  A shift
    by 64 has no meaning in C++. *)
Fixpoint merge_loop (len : Z) (n : nat) (keys : list Z) (key : Z) : option Z :=
  match n with
  | O => Some key
  | S n =>
      match keys with
      | [] => None
      | k :: keys =>
          assert! (len <? 64) && (k <? 2 ^ len);;
          merge_loop len n keys (Z.lor (u64 (Z.shiftl key len)) k)
      end
  end.

Definition merge_idx_key (key_cnt : Z) (keys : list Z) : option Z :=
  if key_cnt =? 0 then None
  else let len := 64 / key_cnt in merge_loop len (Z.to_nat len) keys 0.

(** ** Partitions *)

Definition key_to_part (g_part_alloc : bool) (g_part_cnt : Z) (key : Z) : Z :=
  if g_part_alloc then key mod g_part_cnt else 0.

Definition get_part_id (PAGE_SIZE g_part_cnt : Z) (addr : Z) : Z := addr / PAGE_SIZE mod g_part_cnt.

(** ** Random numbers *)

Definition myrand_next (RAND_MAX seed : Z) : Z * Z :=
  let seed := u64 (u64 (seed * 1103515247) + 12345) mod 2 ^ 63 in
  (seed / 65537 mod RAND_MAX, seed).

(** ** Back-off

    The new [count_] of [bounded_backoff_function], or [None] when it returns false
    without waiting; the loop of [PAUSE]s runs [count_] times. *)
Definition bounded_backoff (CYCLES count : Z) : option Z :=
  if CYCLES <=? count then None
  else Some (Z.land (Z.lor (u32 (Z.shiftl count 1)) 1) CYCLES).

(** [backoff_function]: the counter with [SPIN_WAIT_BACKOFF]. *)
Definition backoff (MAX count : Z) : Z := Z.land (Z.lor (u32 (Z.shiftl count 1)) 1) MAX.

(** The number of calls until false, within [fuel] calls. *)
Fixpoint backoff_calls (fuel : nat) (CYCLES count : Z) : option nat :=
  match fuel with
  | O => None
  | S fuel =>
      match bounded_backoff CYCLES count with
      | None => Some 0%nat
      | Some count => do! n <- backoff_calls fuel CYCLES count;; Some (S n)
      end
  end.

(** ** Lemmas *)

Lemma lor_add (n a b : Z) : 0 <= n -> 0 <= a -> 0 <= b < 2 ^ n -> Z.lor (a * 2 ^ n) b = a * 2 ^ n + b.
Proof.
  intros Hn Ha Hb. rewrite <- Z.shiftl_mul_pow2 by done.
  rewrite <- Z.lxor_lor; [rewrite <- Z.add_nocarry_lxor; [done|]|];
    (apply Z.bits_inj'; intros i Hi; rewrite Z.land_spec, Z.bits_0, Z.shiftl_spec by done;
     destruct (decide (i < n));
     [by rewrite Z.testbit_neg_r by lia
     |rewrite andb_false_iff; right; destruct (decide (b = 0)) as [->|]; [apply Z.bits_0|];
      apply Z.bits_above_log2; [lia|]; assert (Z.log2 b < n); [apply Z.log2_lt_pow2; lia|lia]]).
Qed.

Lemma merge2_value k1 k2 : 0 <= k1 -> 0 <= k2 < 2 ^ 32 -> merge_idx_key2 k1 k2 =
  if k1 <? 2 ^ 32 then Some (k1 * 2 ^ 32 + k2) else None.
Proof.
  intros H1 H2. unfold merge_idx_key2. rewrite (proj2 (Z.ltb_lt k2 _)) by lia. rewrite andb_true_r.
  destruct (k1 <? 2 ^ 32) eqn:E; [|done]. b2p. simpl. f_equal.
  rewrite Z.shiftl_mul_pow2, u64_small by (unfold is_u64; lia). apply lor_add; lia.
Qed.

Lemma merge3_value k1 k2 k3 : 0 <= k1 < 2 ^ 21 -> 0 <= k2 < 2 ^ 21 -> 0 <= k3 < 2 ^ 21 ->
  merge_idx_key3 k1 k2 k3 = Some (k1 * 2 ^ 42 + k2 * 2 ^ 21 + k3).
Proof.
  intros H1 H2 H3. unfold merge_idx_key3. rewrite c_assert_true by lia. f_equal.
  rewrite !Z.shiftl_mul_pow2 by lia. rewrite !u64_small by (unfold is_u64; lia).
  rewrite (lor_add 42 k1) by lia.
  replace (k1 * 2 ^ 42 + k2 * 2 ^ 21) with ((k1 * 2 ^ 21 + k2) * 2 ^ 21) by lia.
  rewrite lor_add by lia. lia.
Qed.

Lemma merge_loop_value len n keys key :
  0 < len < 64 -> (n <= length keys)%nat -> Forall (fun k => 0 <= k < 2 ^ len) keys -> 0 <= key ->
  key * 2 ^ (len * Z.of_nat n) + 2 ^ (len * Z.of_nat n) <= 2 ^ 64 ->
  merge_loop len n keys key = Some (fold_left (fun a k => a * 2 ^ len + k) (take n keys) key).
Proof.
  intros Hlen. revert keys key. induction n as [|n IH]; intros keys key Hn HF Hk Hb; [done|].
  destruct keys as [|k keys]; simpl in Hn; [lia|]. apply Forall_cons in HF as [Hk' HF]. simpl.
  rewrite c_assert_true by lia.
  rewrite Nat2Z.inj_succ, Z.mul_succ_r, Z.pow_add_r in Hb by lia.
  assert (0 < 2 ^ (len * Z.of_nat n)) by (apply Z.pow_pos_nonneg; lia).
  assert (0 < 2 ^ len) by (apply Z.pow_pos_nonneg; lia).
  rewrite Z.shiftl_mul_pow2 by lia. rewrite u64_small by (unfold is_u64; nia).
  rewrite lor_add by lia. apply IH; [lia|done|nia|nia].
Qed.

(** With a mask of ones the counter runs through 1, 3, 7, ... *)
Lemma land_ones_step k c : 0 <= c -> 2 * c + 1 < 2 ^ 32 -> 0 <= k ->
  Z.land (Z.lor (u32 (Z.shiftl c 1)) 1) (2 ^ k - 1) = (2 * c + 1) mod 2 ^ k.
Proof.
  intros Hc Hw Hk. rewrite Z.shiftl_mul_pow2 by lia. rewrite u32_small by (unfold is_u32; lia).
  rewrite lor_add by lia. replace (2 ^ k - 1) with (Z.ones k) by (rewrite Z.ones_equiv; lia).
  rewrite Z.land_ones by lia. f_equal. lia.
Qed.

Lemma backoff_calls_from k i :
  (k < 32)%nat -> (i <= k)%nat ->
  backoff_calls (S (k - i)) (2 ^ Z.of_nat k - 1) (2 ^ Z.of_nat i - 1) = Some (k - i)%nat.
Proof.
  intros Hk. remember (k - i)%nat as d eqn:Ed. revert i Ed. induction d as [|d IH]; intros i Ed Hi.
  - assert (i = k) as -> by lia. simpl. unfold bounded_backoff. by rewrite Z.leb_refl.
  - assert (0 < 2 ^ Z.of_nat i) by (apply Z.pow_pos_nonneg; lia).
    assert (2 ^ Z.of_nat (S i) = 2 * 2 ^ Z.of_nat i) as Hs by (rewrite Nat2Z.inj_succ, Z.pow_succ_r; lia).
    assert (2 ^ Z.of_nat (S i) <= 2 ^ Z.of_nat k) as Hle by (apply Z.pow_le_mono_r; lia).
    assert (2 ^ Z.of_nat k < 2 ^ 32) by (apply Z.pow_lt_mono_r; lia).
    change (backoff_calls (S (S d)) ?C ?c) with
      (match bounded_backoff C c with None => Some 0%nat
       | Some count => do! n <- backoff_calls (S d) C count;; Some (S n) end).
    unfold bounded_backoff. rewrite (proj2 (Z.leb_gt _ _)) by lia.
    rewrite land_ones_step by lia.
    replace ((2 * (2 ^ Z.of_nat i - 1) + 1) mod 2 ^ Z.of_nat k) with (2 ^ Z.of_nat (S i) - 1)
      by (rewrite Z.mod_small; lia).
    by rewrite (IH (S i)) by lia.
Qed.

Lemma fold_keys_mod B keys a k : 0 <= k < B -> (fold_left (fun a k => a * B + k) (keys ++ [k]) a) mod B = k /\
  (fold_left (fun a k => a * B + k) (keys ++ [k]) a) / B = fold_left (fun a k => a * B + k) keys a.
Proof.
  intros Hk. rewrite fold_left_app. simpl. set (x := fold_left _ keys a). split.
  - rewrite Z.add_comm, Z.mod_add by lia. by apply Z.mod_small.
  - symmetry. apply Z.div_unique with k; lia.
Qed.

(** ** What the helpers guarantee *)

(** Merged index keys can be taken apart: two keys below 2^32 or three below
    2^21 are merged into a 64-bit key of which they are the fields, so that
    different keys never collide; a first key that does not fit fails the
    assertion; and the variant for arrays does it for exactly eight keys below
    2^8, while with fewer than eight keys its loop, which runs [64 / key_cnt] times
    instead of [key_cnt], reads behind the array. *)
Theorem merge_idx_key_roundtrip :
  (forall k1 k2, 0 <= k1 < 2 ^ 32 -> 0 <= k2 < 2 ^ 32 ->
     exists key, merge_idx_key2 k1 k2 = Some key /\ is_u64 key /\ key / 2 ^ 32 = k1 /\ key mod 2 ^ 32 = k2) /\
  (forall k1 k2, 2 ^ 32 <= k1 -> merge_idx_key2 k1 k2 = None) /\
  (forall k1 k2 k3, 0 <= k1 < 2 ^ 21 -> 0 <= k2 < 2 ^ 21 -> 0 <= k3 < 2 ^ 21 ->
     exists key, merge_idx_key3 k1 k2 k3 = Some key /\ is_u64 key /\
       key / 2 ^ 42 = k1 /\ key / 2 ^ 21 mod 2 ^ 21 = k2 /\ key mod 2 ^ 21 = k3) /\
  (forall keys keys', length keys = 8%nat -> length keys' = 8%nat ->
     Forall (fun k => 0 <= k < 2 ^ 8) keys -> Forall (fun k => 0 <= k < 2 ^ 8) keys' ->
     is_Some (merge_idx_key 8 keys) /\ (merge_idx_key 8 keys = merge_idx_key 8 keys' -> keys = keys')) /\
  (forall key_cnt keys, 0 < key_cnt < 8 -> Z.of_nat (length keys) = key_cnt -> merge_idx_key key_cnt keys = None).
Proof.
  split_and!.
  - intros k1 k2 H1 H2. rewrite merge2_value by lia. rewrite (proj2 (Z.ltb_lt _ _)) by lia.
    eexists. split; [done|]. split_and!; [unfold is_u64; lia| |].
    + symmetry. apply Z.div_unique with k2; lia.
    + rewrite Z.add_comm, Z.mod_add by lia. apply Z.mod_small. lia.
  - intros k1 k2 H. unfold merge_idx_key2. rewrite (proj2 (Z.ltb_ge k1 _)) by lia. done.
  - intros k1 k2 k3 H1 H2 H3. rewrite merge3_value by lia. eexists. split; [done|].
    assert ((k1 * 2 ^ 42 + k2 * 2 ^ 21 + k3) / 2 ^ 21 = k1 * 2 ^ 21 + k2) as Hd
      by (symmetry; apply Z.div_unique with k3; lia).
    split_and!; [unfold is_u64; lia| | |].
    + symmetry. apply Z.div_unique with (k2 * 2 ^ 21 + k3); lia.
    + rewrite Hd, Z.add_comm, Z.mod_add by lia. apply Z.mod_small. lia.
    + replace (k1 * 2 ^ 42 + k2 * 2 ^ 21 + k3) with (k3 + (k1 * 2 ^ 21 + k2) * 2 ^ 21) by lia.
      rewrite Z.mod_add by lia. apply Z.mod_small. lia.
  - intros keys keys' Hl Hl' HF HF'.
    assert (forall ks, length ks = 8%nat -> Forall (fun k => 0 <= k < 2 ^ 8) ks ->
      merge_idx_key 8 ks = Some (fold_left (fun a k => a * 2 ^ 8 + k) ks 0)) as Hv.
    { intros ks Hks HFk. change (merge_idx_key 8 ks) with (merge_loop 8 8 ks 0).
      rewrite merge_loop_value by (done || lia). by rewrite take_ge by lia. }
    rewrite !Hv by done. split; [eauto|]. intros [= Heq]. clear Hv.
    revert keys' Hl Hl' HF HF' Heq. generalize 8%nat. intros n Hn. revert n Hn.
    induction keys as [|k keys IH] using rev_ind; intros n keys' Hl Hl' HF HF' Heq.
    { simpl in Hl. subst n. by destruct keys'. }
    destruct keys' as [|k' keys' _] using rev_ind; [rewrite length_app in Hl; simpl in *; lia|].
    apply Forall_app in HF as [HF [Hk _]%Forall_cons], HF' as [HF' [Hk' _]%Forall_cons].
    destruct (fold_keys_mod (2 ^ 8) keys 0 k Hk) as [Hm Hd].
    destruct (fold_keys_mod (2 ^ 8) keys' 0 k' Hk') as [Hm' Hd'].
    rewrite Heq in Hm, Hd. rewrite length_app in Hl, Hl'. simpl in Hl, Hl'.
    assert (k = k') as <- by lia. f_equal. eapply (IH (pred n)); [lia|lia|done|done|congruence].
  - intros key_cnt keys Hk Hl.
    assert (forall len n ks key, (length ks < n)%nat -> merge_loop len n ks key = None) as Hloop.
    { intros len n. induction n as [|n IH]; intros ks key Hlt; [lia|].
      destruct ks as [|k ks]; simpl in *; [done|]. destruct (_ && _); simpl; [|done]. apply IH. lia. }
    unfold merge_idx_key. rewrite (proj2 (Z.eqb_neq _ _)) by lia. apply Hloop.
    assert (key_cnt < 64 / key_cnt); [|lia].
    assert (key_cnt + 1 <= 64 / key_cnt); [|lia]. apply Z.div_le_lower_bound; nia.
Qed.

(** The bounded back-off ends: with BOUNDED_SPINNING_CYCLES = 2^k - 1 (the
    configurations set 15) the k+1-st call returns false, after waits of 1, 3, 7,
    ... turns.  With an even value the counter stays 0, and the calls never
    return false. *)
Theorem bounded_backoff_ends :
  (forall k, (k < 32)%nat -> backoff_calls (S k) (2 ^ Z.of_nat k - 1) 0 = Some k) /\
  (forall cycles fuel, 0 < cycles -> cycles mod 2 = 0 -> backoff_calls fuel cycles 0 = None).
Proof.
  split.
  - intros k Hk. pose proof (backoff_calls_from k 0 Hk ltac:(lia)) as H. rewrite Nat.sub_0_r in H. exact H.
  - intros cycles fuel Hc Hm. induction fuel as [|fuel IH]; [done|]. simpl. unfold bounded_backoff.
    rewrite (proj2 (Z.leb_gt _ _)) by lia. change (u32 (Z.shiftl 0 1)) with 0. rewrite Z.lor_0_l.
    assert (Z.land 1 cycles = 0) as ->; [|by rewrite IH].
    rewrite Z.land_comm. change 1 with (Z.ones 1). rewrite Z.land_ones by lia. exact Hm.
Qed.

(** The random numbers are below RAND_MAX. *)
Lemma myrand_range RAND_MAX seed : 0 < RAND_MAX -> 0 <= fst (myrand_next RAND_MAX seed) < RAND_MAX.
Proof. intros H. apply Z.mod_pos_bound, H. Qed.
