(* ===== verification/Alloc.v ===== *)
(** * The allocators

    src/system/utils/mem_alloc.cpp: the arenas of the threads, the table that maps
    a thread to its arenas, and [mem_alloc] on top of them; and the bump allocator
    of hawk_alloc.h.  An address is a [Z]; of the memory only the headers
    [FreeBlock] are kept, by address.  The pointer that [malloc] returns is an
    argument of the operations, which report how many bytes they asked for. *)

From stdpp Require Import list gmap.
From S2P Require Import Prelude Global.

(** ** Arenas *)

(** [next] is not initialised in a block that was never freed. *)
Record FreeBlock := mkFreeBlock { fb_size : Z; fb_next : option Z }.
Definition sizeof_FreeBlock : Z := 16.

Definition SizeNum : nat := 4.
Definition BlockSizes : list Z := [32; 64; 256; 1024].

Record Arena := mkArena {
  _buffer : Z;
  _size_in_buffer : Z;
  _arena_id : Z;
  _block_size : Z;
  _head : Z }.

Definition Arena_init (arena_id size : Z) : Arena := mkArena 0 0 arena_id size 0.

Notation headers := (gmap Z FreeBlock).

Section alloc.
Context (MEM_ALLIGN : Z).

(** The space of a block with its header, aligned. *)
Definition block_bytes (block_size : Z) : Z :=
  Z.land (block_size + sizeof_FreeBlock + (MEM_ALLIGN - 1)) (Z.lnot (MEM_ALLIGN - 1)).

Definition buffer_bytes (block_size : Z) : Z := block_size * 40960.

(** The pointer, the bytes asked from [malloc], the arena and the headers; [buf] is
    what [malloc] returns. *)
Definition Arena_alloc (buf : Z) (a : Arena) (h : headers) : option (Z * option Z * Arena * headers) :=
  if _head a =? 0 then
    let size := block_bytes (_block_size a) in
    let new := _size_in_buffer a <? size in
    let a := if new
             then mkArena buf (buffer_bytes (_block_size a)) (_arena_id a) (_block_size a) (_head a)
             else a in
    let block := _buffer a in
    let h := <[block := mkFreeBlock (_block_size a) (h !! block ≫= fb_next)]> h in
    Some (block + sizeof_FreeBlock,
          if new then Some (buffer_bytes (_block_size a)) else None,
          mkArena (_buffer a + size) (_size_in_buffer a - size) (_arena_id a) (_block_size a) (_head a), h)
  else
    let block := _head a in
    do! b <- h !! block;;
    do! next <- fb_next b;;
    Some (block + sizeof_FreeBlock, None,
          mkArena (_buffer a) (_size_in_buffer a) (_arena_id a) (_block_size a) next, h).

(** A pointer without a header in front of it is a corruption of memory. *)
Definition Arena_free (ptr : Z) (a : Arena) (h : headers) : option (Arena * headers) :=
  let block := ptr - sizeof_FreeBlock in
  do! b <- h !! block;;
  Some (mkArena (_buffer a) (_size_in_buffer a) (_arena_id a) (_block_size a) block,
        <[block := mkFreeBlock (fb_size b) (Some (_head a))]> h).

(** ** [mem_alloc] *)

Fixpoint find_size (size : Z) (i : nat) (sizes : list Z) : option nat :=
  match sizes with
  | [] => None
  | b :: sizes => if size <=? b then Some i else find_size size (S i) sizes
  end.
Definition get_size_id (size : Z) : option nat := find_size size 0 BlockSizes.

(** The arenas of every thread by size, and the headers in memory. *)
Record mem_alloc := mkMem {
  _arenas : nat -> nat -> Arena;
  _headers : headers }.

Definition init_thread_arena : mem_alloc :=
  mkMem (fun i n => Arena_init (Z.of_nat i) (nth n BlockSizes 0)) ∅.

Definition set_arena (i n : nat) (a : Arena) (f : nat -> nat -> Arena) : nat -> nat -> Arena :=
  fun i' n' => if decide (i' = i /\ n' = n) then a else f i' n'.

Context (THREAD_ALLOC NO_FREE : bool).

(** [pool] is [warmup_finish || enable_thread_mem_pool]; [arena_id] comes from
    [get_arena_id]. *)
Definition alloc (pool : bool) (buf size : Z) (arena_id : nat) (s : mem_alloc) :
    option (Z * option Z * mem_alloc) :=
  if nth (SizeNum - 1) BlockSizes 0 <? size then Some (buf, Some size, s)
  else if THREAD_ALLOC && pool then
    do! size_id <- get_size_id size;;
    do! r <- Arena_alloc buf (_arenas s arena_id size_id) (_headers s);;
    let '(ptr, asked, a, h) := r in
    Some (ptr, asked, mkMem (set_arena arena_id size_id a (_arenas s)) h)
  else Some (buf, Some size, s).

Definition free (ptr : Z) (arena_id : nat) (s : mem_alloc) : option mem_alloc :=
  if NO_FREE then Some s
  else if THREAD_ALLOC then
    do! b <- _headers s !! (ptr - sizeof_FreeBlock);;
    do! size_id <- get_size_id (fb_size b);;
    do! r <- Arena_free ptr (_arenas s arena_id size_id) (_headers s);;
    let '(a, h) := r in Some (mkMem (set_arena arena_id size_id a (_arenas s)) h)
  else Some s.
End alloc.

(** ** The table of threads

    [pid_arena]: open addressing with linear probing; a pid is never 0.  The loops
    take the size of the table as fuel; [None] is a loop that does not end. *)

Notation pid_table := (list (Z * Z)).

Definition bucket_count (g_thread_cnt g_init_parallelism : Z) : Z :=
  if g_thread_cnt <? g_init_parallelism then g_init_parallelism * 4 + 1 else g_thread_cnt * 4 + 1.

Definition table_init (bucket_cnt : Z) : pid_table := replicate (Z.to_nat bucket_cnt) (0, 0).

Definition next_entry (t : pid_table) (entry : nat) : nat := (entry + 1) mod length t.
Definition home (t : pid_table) (pid : Z) : nat := Z.to_nat (pid mod Z.of_nat (length t)).

Fixpoint register_loop (fuel : nat) (t : pid_table) (pid thd_id : Z) (entry : nat) : option pid_table :=
  match fuel with
  | O => None
  | S fuel =>
      do! e <- t !! entry;;
      if e.1 =? 0 then Some (<[entry := (pid, thd_id)]> t)
      else register_loop fuel t pid thd_id (next_entry t entry)
  end.
Definition register_thread (pid thd_id : Z) (t : pid_table) : option pid_table :=
  register_loop (length t) t pid thd_id (home t pid).

Fixpoint arena_loop (fuel : nat) (t : pid_table) (pid : Z) (entry : nat) : option Z :=
  match fuel with
  | O => None
  | S fuel =>
      do! e <- t !! entry;;
      if e.1 =? pid then Some e.2
      else if e.1 =? 0 then Some e.2
      else arena_loop fuel t pid (next_entry t entry)
  end.
Definition get_arena_id (pid : Z) (t : pid_table) : option Z := arena_loop (length t) t pid (home t pid).

Definition unregister (t : pid_table) : pid_table := map (fun _ => (0, 0)) t.

(** ** The bump allocator of hawk_alloc.h *)

Record HawkAllocator := mkHawk { memoryBegin : Z; memoryEnd : Z }.
Definition alignment : Z := 64.

(** [None]: out of memory, the program aborts. *)
Definition hawk_malloc (size : Z) (a : HawkAllocator) : option (Z * HawkAllocator) :=
  let memoryNextBegin := Z.land (u64 (memoryBegin a + size + alignment - 1)) (u64 (Z.lnot (alignment - 1))) in
  if memoryNextBegin <? memoryEnd a
  then Some (memoryBegin a, mkHawk memoryNextBegin (memoryEnd a)) else None.

(** A sequence of requests. *)
Fixpoint hawk_run (sizes : list Z) (a : HawkAllocator) : option (list Z * HawkAllocator) :=
  match sizes with
  | [] => Some ([], a)
  | size :: sizes =>
      do! r <- hawk_malloc size a;;
      do! q <- hawk_run sizes r.2;;
      Some (r.1 :: q.1, q.2)
  end.

(** ** Alignment *)

Lemma land_align k x : 0 <= k -> Z.land x (Z.lnot (2 ^ k - 1)) = x / 2 ^ k * 2 ^ k.
Proof.
  intros Hk. change (Z.land x (Z.lnot ?y)) with (Z.land x (Z.lnot y)).
  rewrite <- Z.ldiff_land. replace (2 ^ k - 1) with (Z.ones k) by (rewrite Z.ones_equiv; lia).
  by rewrite Z.ldiff_ones_r, Z.shiftl_mul_pow2, Z.shiftr_div_pow2 by done.
Qed.

Lemma div_mul_bounds x a : 0 < a -> x - a < x / a * a <= x.
Proof. intros Ha. pose proof (Z.div_mod x a). pose proof (Z.mod_pos_bound x a). lia. Qed.

(** ** The bump allocator *)

(** What a request takes. *)
Definition round64 (size : Z) : Z := (size + 63) / 64 * 64.
Definition sum_rounded (sizes : list Z) : Z := foldr (fun n s => round64 n + s) 0 sizes.

Lemma round64_bounds n : n <= round64 n < n + 64.
Proof. unfold round64. pose proof (div_mul_bounds (n + 63) 64). lia. Qed.

Lemma hawk_malloc_spec size a :
  0 <= memoryBegin a -> memoryBegin a mod 64 = 0 -> 0 <= size -> memoryBegin a + size + 63 < 2 ^ 64 ->
  hawk_malloc size a =
    if memoryBegin a + round64 size <? memoryEnd a
    then Some (memoryBegin a, mkHawk (memoryBegin a + round64 size) (memoryEnd a)) else None.
Proof.
  intros H0 Ha Hs Hb. unfold hawk_malloc, alignment.
  rewrite u64_small by (unfold is_u64; lia).
  change (u64 (Z.lnot (64 - 1))) with (Z.land (Z.ones 64) (Z.lnot (2 ^ 6 - 1))).
  rewrite Z.land_assoc, Z.land_ones, (Z.mod_small _ (2 ^ 64)), land_align by lia.
  change (2 ^ 6) with 64. unfold round64.
  replace (memoryBegin a + size + 64 - 1) with (size + 63 + memoryBegin a / 64 * 64).
  { rewrite Z.div_add, Z.mul_add_distr_r by lia. pose proof (Z.div_mod (memoryBegin a) 64).
    replace ((size + 63) / 64 * 64 + memoryBegin a / 64 * 64) with (memoryBegin a + (size + 63) / 64 * 64) by lia.
    done. }
  pose proof (Z.div_mod (memoryBegin a) 64). lia.
Qed.

Lemma round64_aligned b n : b mod 64 = 0 -> (b + round64 n) mod 64 = 0.
Proof. intros H. unfold round64. by rewrite Z.mod_add. Qed.

(** The bump allocator: requests of any sizes get consecutive regions, each
    aligned to a cache line and inside the mapped memory, that do not overlap; and
    it gives up only when the sizes, rounded up to cache lines, fill the whole
    region. *)
Theorem hawk_alloc_bounds sizes a
  (Ha : 0 <= memoryBegin a /\ memoryBegin a mod 64 = 0)
  (Hs : Forall (fun n => 0 <= n /\ memoryEnd a + n + 63 < 2 ^ 64) sizes) :
  memoryBegin a <= memoryEnd a ->
  match hawk_run sizes a with
  | Some (ptrs, a') =>
      length ptrs = length sizes /\ memoryBegin a' = memoryBegin a + sum_rounded sizes /\
      (forall i p n, ptrs !! i = Some p -> sizes !! i = Some n ->
         p mod 64 = 0 /\ memoryBegin a <= p /\ p + n < memoryEnd a /\
         forall j q, (i < j)%nat -> ptrs !! j = Some q -> p + n <= q)
  | None => memoryEnd a <= memoryBegin a + sum_rounded sizes
  end.
Proof.
  revert a Ha Hs. induction sizes as [|n sizes IH]; intros a [H0 Ha] Hs Hle; simpl; [split_and!; [done|lia|done]|].
  apply Forall_cons in Hs as [[Hn Hn'] Hs]. rewrite hawk_malloc_spec by (done || lia).
  pose proof (round64_bounds n). assert (0 <= sum_rounded sizes).
  { clear -Hs. induction Hs as [|m l [Hm _] _ IH]; simpl; [lia|]. pose proof (round64_bounds m). lia. }
  destruct (_ <? _) eqn:E; b2p; [|lia]. cbn [fst snd].
  specialize (IH (mkHawk (memoryBegin a + round64 n) (memoryEnd a))). simpl in IH.
  destruct (hawk_run sizes _) as [[ptrs a']|]; cbn [fst snd].
  - destruct IH as (Hl & Hb & Hp); [split; [lia|by apply round64_aligned]|done|lia|].
    split_and!; [simpl; lia|lia|]. intros [|i] p m Hpi Hmi; simpl in Hpi, Hmi.
    + simplify_eq. split_and!; [done|lia|lia|]. intros [|j] q Hj Hq; [lia|]. simpl in Hq.
      destruct (lookup_lt_is_Some_2 sizes j) as [m' Hm']; [rewrite <- Hl; by eapply lookup_lt_Some|].
      destruct (Hp j q m' Hq Hm') as (_ & ? & _). lia.
    + destruct (Hp i p m Hpi Hmi) as (? & ? & ? & Hj). split_and!; [done|lia|lia|].
      intros [|j] q Hij Hq; [lia|]. eapply Hj; [|done]. lia.
  - lapply IH; [intros IH'|split; [lia|by apply round64_aligned]]. specialize (IH' Hs ltac:(lia)). lia.
Qed.

Lemma hawk_alloc_bounds_witness : exists ptrs a',
  hawk_run [100; 1; 64] (mkHawk 4096 8192) = Some (ptrs, a') /\ ptrs = [4096; 4224; 4288] /\
  memoryBegin a' = 4096 + sum_rounded [100; 1; 64].
Proof.
  pose proof (hawk_alloc_bounds [100; 1; 64] (mkHawk 4096 8192)) as H.
  assert (hawk_run [100; 1; 64] (mkHawk 4096 8192) = Some ([4096; 4224; 4288], mkHawk 4352 8192)) as E
    by (vm_compute; reflexivity).
  exists [4096; 4224; 4288], (mkHawk 4352 8192). rewrite E in *. split; [reflexivity|]. split; [reflexivity|].
  apply H.
  - split; [vm_compute; discriminate|reflexivity].
  - repeat constructor; vm_compute; discriminate.
  - vm_compute. discriminate.
Defined.

(** ** Probing *)

(** The [k]-th slot that a search from [h] looks at. *)
Definition slot (t : pid_table) (h k : nat) : nat := (h + k) mod length t.

Lemma slot_next t h k : next_entry t (slot t h k) = slot t h (S k).
Proof. unfold next_entry, slot. rewrite Nat.Div0.add_mod_idemp_l. f_equal. lia. Qed.

Lemma slot_home t pid : (0 < length t)%nat -> home t pid = slot t (home t pid) 0.
Proof.
  intros H. unfold slot, home. rewrite Nat.add_0_r, Nat.mod_small; [done|].
  pose proof (Z.mod_pos_bound pid (Z.of_nat (length t))). lia.
Qed.

Lemma slot_insert t i x h k : slot (<[i := x]> t) h k = slot t h k.
Proof. unfold slot. by rewrite length_insert. Qed.

Lemma home_insert t i x pid : home (<[i := x]> t) pid = home t pid.
Proof. unfold home. by rewrite length_insert. Qed.

Lemma slot_lt t h k : (0 < length t)%nat -> (slot t h k < length t)%nat.
Proof. intros H. apply Nat.mod_upper_bound. lia. Qed.

Lemma slot_inj t h j k : (j < length t)%nat -> (k < length t)%nat -> slot t h j = slot t h k -> j = k.
Proof.
  unfold slot. intros Hj Hk Heq. pose proof (Nat.div_mod_eq (h + j) (length t)) as H1.
  pose proof (Nat.div_mod_eq (h + k) (length t)) as H2. rewrite Heq in H1.
  assert ((h + j) / length t = (h + k) / length t)%nat; [nia|congruence || lia].
Qed.

(** Every slot is looked at. *)
Lemma slot_reaches t h i : (i < length t)%nat -> exists k, (k < length t)%nat /\ slot t h k = i.
Proof.
  intros Hi. exists ((i + (length t - h mod length t)) mod length t)%nat.
  split; [apply Nat.mod_upper_bound; lia|]. unfold slot. rewrite Nat.Div0.add_mod_idemp_r.
  assert (h mod length t < length t)%nat by (apply Nat.mod_upper_bound; lia).
  replace (h + (i + (length t - h mod length t)))%nat
    with (i + (1 + h / length t) * length t)%nat by (pose proof (Nat.div_mod_eq h (length t)); lia).
  rewrite Nat.Div0.mod_add. by apply Nat.mod_small.
Qed.

Lemma first_such (P : nat -> bool) k : P k = true -> exists j, (j <= k)%nat /\ P j = true /\ forall i, (i < j)%nat -> P i = false.
Proof.
  induction k as [k IH] using lt_wf_ind. intros Hk.
  destruct (existsb P (seq 0 k)) eqn:E.
  - apply existsb_exists in E as (i & Hi & Hp). apply in_seq in Hi.
    destruct (IH i) as (j & ? & ? & ?); [lia|done|]. exists j. split_and!; [lia|done|done].
  - exists k. split_and!; [done|done|]. intros i Hi. destruct (P i) eqn:Ei; [|done].
    rewrite (proj2 (existsb_exists P (seq 0 k))) in E; [done|]. exists i. split; [apply in_seq; lia|done].
Qed.

(** What the two loops do when the search stops at slot [k]. *)
Lemma arena_loop_found t h pid k e : forall i fuel,
  (k - i < fuel)%nat -> (i <= k)%nat ->
  (forall j, (i <= j < k)%nat -> exists e', t !! slot t h j = Some e' /\ e'.1 <> 0 /\ e'.1 <> pid) ->
  t !! slot t h k = Some e -> e.1 = pid \/ e.1 = 0 ->
  arena_loop fuel t pid (slot t h i) = Some e.2.
Proof.
  intros i fuel. revert i. induction fuel as [|fuel IH]; intros i Hf Hi Hj He Hs; [lia|]. simpl.
  destruct (decide (i = k)) as [->|].
  - rewrite He. destruct (e.1 =? pid) eqn:E; [done|]. b2p. by destruct Hs as [?| ->].
  - destruct (Hj i) as (e' & -> & H1 & H2); [lia|].
    rewrite (proj2 (Z.eqb_neq _ _) H2), (proj2 (Z.eqb_neq _ _) H1), slot_next.
    apply IH; [lia|lia| |done|done]. intros j ?. apply Hj. lia.
Qed.

Lemma register_loop_found t h pid thd k e : forall i fuel,
  (k - i < fuel)%nat -> (i <= k)%nat ->
  (forall j, (i <= j < k)%nat -> exists e', t !! slot t h j = Some e' /\ e'.1 <> 0) ->
  t !! slot t h k = Some e -> e.1 = 0 ->
  register_loop fuel t pid thd (slot t h i) = Some (<[slot t h k := (pid, thd)]> t).
Proof.
  intros i fuel. revert i. induction fuel as [|fuel IH]; intros i Hf Hi Hj He Hs; [lia|]. simpl.
  destruct (decide (i = k)) as [->|].
  - by rewrite He, Hs.
  - destruct (Hj i) as (e' & -> & H1); [lia|]. rewrite (proj2 (Z.eqb_neq _ _) H1), slot_next.
    apply IH; [lia|lia| |done|done]. intros j ?. apply Hj. lia.
Qed.

(** The table holds exactly the threads of [m], each in the first free slot that its
    search found. *)
Record table_inv (t : pid_table) (m : gmap Z Z) : Prop := {
  ti_room : (size m < length t)%nat;
  ti_entry i e : t !! i = Some e -> if decide (e.1 = 0) then e.2 = 0 else m !! e.1 = Some e.2;
  ti_uniq i j e e' : t !! i = Some e -> t !! j = Some e' -> e.1 = e'.1 -> e.1 <> 0 -> i = j;
  ti_found pid thd : m !! pid = Some thd -> pid <> 0 /\ exists k, (k < length t)%nat /\
    t !! slot t (home t pid) k = Some (pid, thd) /\
    forall j, (j < k)%nat -> exists e, t !! slot t (home t pid) j = Some e /\ e.1 <> 0 }.

Lemma table_free t m : table_inv t m -> exists i e, t !! i = Some e /\ e.1 = 0.
Proof.
  intros I. destruct (decide (Exists (fun e => e.1 = 0) t)) as [He|Hn].
  { apply Exists_exists in He as (e & He & ?). apply list_elem_of_lookup in He as [i ?]. by exists i, e. }
  exfalso. rewrite <- Forall_Exists_neg, Forall_forall in Hn.
  assert (forall i e, t !! i = Some e -> e.1 <> 0) as Hnz.
  { intros i e Hi. apply Hn. by eapply list_elem_of_lookup_2. }
  assert (NoDup (map fst t)) as Hnd.
  { apply NoDup_alt. intros i j x Hi Hj. rewrite list_lookup_fmap in Hi, Hj.
    destruct (t !! i) as [e|] eqn:Ei, (t !! j) as [e'|] eqn:Ej; simplify_eq/=.
    eapply (ti_uniq _ _ I i j); eauto. }
  assert (list_to_set (map fst t) ⊆ dom m) as Hsub.
  { intros x. rewrite elem_of_list_to_set. intros Hx. apply list_elem_of_fmap in Hx as (e & -> & He).
    apply list_elem_of_lookup in He as [i Hi]. pose proof (ti_entry _ _ I i e Hi) as Hm.
    destruct (decide _) as [H0|]; [by destruct (Hnz i e Hi)|]. apply elem_of_dom. eauto. }
  apply subseteq_size in Hsub. rewrite size_list_to_set, size_dom, length_map in Hsub by done.
  pose proof (ti_room _ _ I). lia.
Qed.

(** From any slot, a search for a free slot or a thread [pid] ends. *)
Lemma search_stops t m pid (f : Z * Z -> bool) :
  table_inv t m -> (forall e, e.1 = 0 -> f e = true) ->
  exists k e, (k < length t)%nat /\ t !! slot t (home t pid) k = Some e /\ f e = true /\
    forall j, (j < k)%nat -> exists e', t !! slot t (home t pid) j = Some e' /\ f e' = false.
Proof.
  intros I Hf. pose proof (ti_room _ _ I). destruct (table_free t m I) as (i & e0 & Hi & H0).
  destruct (slot_reaches t (home t pid) i) as (k0 & Hk0 & Hs); [by eapply lookup_lt_Some|].
  set (P k := default true (f <$> t !! slot t (home t pid) k)).
  destruct (first_such P k0) as (k & Hk & HP & Hj).
  { unfold P. rewrite Hs, Hi. by apply Hf. }
  destruct (lookup_lt_is_Some_2 t (slot t (home t pid) k)) as [e He]; [apply slot_lt; lia|].
  exists k, e. split_and!; [lia|done|by unfold P in HP; rewrite He in HP|].
  intros j Hjk. destruct (lookup_lt_is_Some_2 t (slot t (home t pid) j)) as [e' He']; [apply slot_lt; lia|].
  exists e'. split; [done|]. specialize (Hj j Hjk). unfold P in Hj. by rewrite He' in Hj.
Qed.

Lemma register_inv t m pid thd :
  table_inv t m -> pid <> 0 -> m !! pid = None -> (S (size m) < length t)%nat ->
  exists t', register_thread pid thd t = Some t' /\ length t' = length t /\ table_inv t' (<[pid := thd]> m).
Proof.
  intros I H0 Hm Hroom.
  destruct (search_stops t m pid (fun e => e.1 =? 0) I) as (k & e & Hk & He & Hf & Hj); [by intros e ->|].
  b2p. exists (<[slot t (home t pid) k := (pid, thd)]> t). rewrite length_insert. split_and!; [|done|].
  { unfold register_thread. rewrite (slot_home t pid) at 1 by lia.
    rewrite (register_loop_found t (home t pid) pid thd k e 0); [done|lia|lia| |done|done].
    intros j ?. destruct (Hj j) as (e' & ? & ?); [lia|]. b2p. eauto. }
  assert (forall j e', t !! j = Some e' -> e'.1 <> pid) as Hnp.
  { intros j e' Hj' Hp. pose proof (ti_entry _ _ I j e' Hj') as Hx. rewrite Hp in Hx.
    by destruct (decide _); simplify_eq. }
  split.
  - rewrite map_size_insert_None, length_insert by done. lia.
  - intros i e' Hi. apply list_lookup_insert_Some in Hi as [(<- & <- & _)|[Hne Hi]]; simpl.
    + destruct (decide _); [done|]. by rewrite lookup_insert_eq.
    + pose proof (ti_entry _ _ I i e' Hi) as Hx. destruct (decide _); [done|].
      rewrite lookup_insert_ne; [done|]. by apply not_eq_sym, (Hnp i).
  - intros i j e1 e2 Hi Hj' Heq Hne.
    apply list_lookup_insert_Some in Hi as [(<- & <- & _)|[Hni Hi]];
      apply list_lookup_insert_Some in Hj' as [(<- & <- & _)|[Hnj Hj']]; simpl in *; [done| | |].
    + by destruct (Hnp j e2 Hj').
    + by destruct (Hnp i e1 Hi).
    + eapply (ti_uniq _ _ I); eauto.
  - intros p th Hp. rewrite length_insert, home_insert. setoid_rewrite slot_insert.
    apply lookup_insert_Some in Hp as [[<- <-]|[Hne Hp]].
    + split; [done|]. exists k. split_and!; [done| |].
      * apply list_lookup_insert_eq. apply slot_lt. lia.
      * intros j Hjk. destruct (Hj j Hjk) as (e' & He' & Hz). b2p. exists e'. split; [|done].
        rewrite list_lookup_insert_ne; [done|]. intros Heq. congruence.
    + destruct (ti_found _ _ I p th Hp) as (? & k' & Hk' & He' & Hj'). split; [done|]. exists k'.
      split_and!; [done| |].
      * rewrite list_lookup_insert_ne; [done|]. intros Heq. rewrite <- Heq in He'.
        rewrite He in He'. simplify_eq/=.
      * intros j Hjk. destruct (Hj' j Hjk) as (e' & He'' & Hz). exists e'. split; [|done].
        rewrite list_lookup_insert_ne; [done|]. intros Heq. rewrite <- Heq in He''. congruence.
Qed.

Lemma get_arena_id_spec t m pid :
  table_inv t m -> pid <> 0 -> get_arena_id pid t = Some (default 0 (m !! pid)).
Proof.
  intros I H0. pose proof (ti_room _ _ I). unfold get_arena_id. rewrite (slot_home t pid) by lia.
  destruct (m !! pid) as [thd|] eqn:Hm; simpl.
  - destruct (ti_found _ _ I pid thd Hm) as (_ & k & Hk & He & Hj).
    rewrite (arena_loop_found t (home t pid) pid k (pid, thd) 0); [done|lia|lia| |done|by left].
    intros j Hjk. destruct (Hj j) as (e & Hje & ?); [lia|]. exists e. split_and!; [done|done|].
    intros Hp. assert (slot t (home t pid) j = slot t (home t pid) k) as Heq
      by (eapply (ti_uniq _ _ I); eauto).
    apply slot_inj in Heq; lia.
  - destruct (search_stops t m pid (fun e => e.1 =? 0) I) as (k & e & Hk & He & Hf & Hj); [by intros e ->|].
    b2p. pose proof (ti_entry _ _ I _ _ He) as H2. rewrite decide_True in H2 by done.
    rewrite (arena_loop_found t (home t pid) pid k e 0); [by rewrite H2|lia|lia| |done|by right].
    intros j Hjk. destruct (Hj j) as (e' & Hje & ?); [lia|]. b2p. exists e'. split_and!; [done|done|].
    intros Hp. pose proof (ti_entry _ _ I _ _ Hje) as Hx. rewrite decide_False in Hx by done. congruence.
Qed.

Lemma table_init_inv B : 0 < B -> table_inv (table_init B) ∅.
Proof.
  intros HB. unfold table_init. split.
  - rewrite map_size_empty, length_replicate. lia.
  - intros i e Hi. apply lookup_replicate in Hi as [-> _]. done.
  - intros i j e e' Hi _ _ H. apply lookup_replicate in Hi as [-> _]. done.
  - intros pid thd Hp. by rewrite lookup_empty in Hp.
Qed.

Fixpoint register_all (regs : list (Z * Z)) (t : pid_table) : option pid_table :=
  match regs with
  | [] => Some t
  | (pid, thd) :: regs => do! t' <- register_thread pid thd t;; register_all regs t'
  end.

Lemma register_all_inv regs t m :
  table_inv t m -> NoDup (map fst regs) -> Forall (fun r => r.1 <> 0 /\ m !! r.1 = None) regs ->
  (size m + length regs < length t)%nat ->
  exists t', register_all regs t = Some t' /\ table_inv t' (list_to_map (reverse regs) ∪ m).
Proof.
  revert t m. induction regs as [|[pid thd] regs IH]; intros t m I Hnd HF Hl; simpl.
  { exists t. split; [done|]. by rewrite (left_id_L _ _). }
  apply NoDup_cons in Hnd as [Hnin Hnd]. apply Forall_cons in HF as [[H0 Hm] HF]. simpl in *.
  destruct (register_inv t m pid thd I H0 Hm) as (t1 & -> & Hlen & I1); [lia|].
  destruct (IH t1 (<[pid := thd]> m) I1 Hnd) as (t' & -> & I').
  - rewrite Forall_forall in HF |- *. intros [p th] Hp. destruct (HF _ Hp) as [? Hmp]. split; [done|].
    rewrite lookup_insert_ne; [done|]. intros ->. apply Hnin. apply list_elem_of_fmap. by exists (p, th).
  - rewrite map_size_insert_None by done. lia.
  - exists t'. split; [done|]. rewrite reverse_cons, list_to_map_app. simpl.
    rewrite <- (map_union_assoc (list_to_map (reverse regs)) _ m).
    by rewrite insert_union_singleton_l in I'.
Qed.

(** The threads find their arenas: when at most as many threads as the larger of
    the two thread counts register, with different pids, every registration ends,
    a registered thread then looks up the id it registered with, and any other
    thread id 0, both after finitely many probes. *)
Theorem arena_lookup_correct g_thread_cnt g_init_parallelism regs
  (Hg : 0 <= g_thread_cnt)
  (Hn : Z.of_nat (length regs) <= Z.max g_thread_cnt g_init_parallelism)
  (Hnd : NoDup (map fst regs))
  (Hpid : Forall (fun r => r.1 <> 0) regs) :
  exists t, register_all regs (table_init (bucket_count g_thread_cnt g_init_parallelism)) = Some t /\
    (forall pid thd, (pid, thd) ∈ regs -> get_arena_id pid t = Some thd) /\
    (forall pid, pid <> 0 -> pid ∉ map fst regs -> get_arena_id pid t = Some 0).
Proof.
  set (B := bucket_count g_thread_cnt g_init_parallelism).
  assert (Z.of_nat (length regs) < B) as HB.
  { unfold B, bucket_count. destruct (_ <? _) eqn:E; b2p; lia. }
  destruct (register_all_inv regs (table_init B) ∅) as (t & Ht & I).
  - apply table_init_inv. lia.
  - done.
  - rewrite Forall_forall in Hpid |- *. intros r Hr. split; [by apply Hpid|apply lookup_empty].
  - unfold table_init. rewrite map_size_empty, length_replicate. lia.
  - rewrite (right_id_L _ _) in I. exists t. split; [done|].
    assert (NoDup (reverse regs).*1) as Hnd'.
    { rewrite fmap_reverse, reverse_Permutation. done. }
    split.
    + intros pid thd Hin. rewrite (get_arena_id_spec t _ pid I).
      * rewrite (proj1 (elem_of_list_to_map _ pid thd Hnd')); [done|]. by apply elem_of_reverse.
      * rewrite Forall_forall in Hpid. by apply (Hpid _ Hin).
    + intros pid H0 Hnin. rewrite (get_arena_id_spec t _ pid I) by done.
      rewrite (proj1 (not_elem_of_list_to_map _ pid)); [done|].
      rewrite fmap_reverse, elem_of_reverse. done.
Qed.

Lemma arena_lookup_correct_witness : exists t,
  register_all [(14, 0); (5, 1); (23, 2)] (table_init (bucket_count 3 2)) = Some t /\
  get_arena_id 23 t = Some 2 /\ get_arena_id 1 t = Some 0.
Proof.
  destruct (arena_lookup_correct 3 2 [(14, 0); (5, 1); (23, 2)]) as (t & Ht & H1 & H2).
  - discriminate.
  - vm_compute. discriminate.
  - apply (bool_decide_unpack _). reflexivity.
  - repeat constructor; discriminate.
  - exists t. split; [exact Ht|]. split.
    + apply H1. right. right. left.
    + apply H2; [discriminate|]. apply (bool_decide_unpack _). reflexivity.
Defined.

(** ** The arenas and the blocks in use

    A system state: the allocator, the blocks in use (pointer to requested size, and
    whether it comes from an arena), and the chunks that [malloc] returned.  Any
    thread takes any step with its own arenas. *)

Section system.
Context (k : Z).
Notation MEM_ALLIGN := (2 ^ k).
Context (Hk : 0 <= k <= 12).

Record sys := mkSys {
  s_mem : mem_alloc;
  s_live : gmap Z (Z * bool);
  s_chunks : list (Z * Z) }.

Definition sys_init : sys := mkSys init_thread_arena ∅ [].

(** What [malloc] promises: memory that is not in use. *)
Definition fresh (chunks : list (Z * Z)) (buf n : Z) : Prop :=
  0 < buf /\ Forall (fun c => buf + n <= c.1 \/ c.1 + c.2 <= buf) chunks.
Definition asked_fresh (chunks : list (Z * Z)) (buf : Z) (asked : option Z) : Prop :=
  match asked with Some n => fresh chunks buf n | None => True end.
Definition asked_chunk (buf : Z) (asked : option Z) : list (Z * Z) :=
  match asked with Some n => [(buf, n)] | None => [] end.

Definition pooled (pool : bool) (size : Z) : bool := (size <=? 1024) && pool.

(** With [THREAD_ALLOC]; only blocks of the arenas are freed. *)
Inductive step : sys -> sys -> Prop :=
  | step_alloc s thd pool size buf ptr asked m :
      0 < size ->
      alloc MEM_ALLIGN true pool buf size thd (s_mem s) = Some (ptr, asked, m) ->
      asked_fresh (s_chunks s) buf asked ->
      step s (mkSys m (<[ptr := (size, pooled pool size)]> (s_live s)) (asked_chunk buf asked ++ s_chunks s))
  | step_free s thd ptr size m :
      s_live s !! ptr = Some (size, true) ->
      free true false ptr thd (s_mem s) = Some m ->
      step s (mkSys m (delete ptr (s_live s)) (s_chunks s)).

Definition bs (n : nat) : Z := nth n BlockSizes 0.
Definition bytes (n : nat) : Z := block_bytes MEM_ALLIGN (bs n).

Lemma bytes_bounds n : (n < 4)%nat -> bs n + 16 <= bytes n <= buffer_bytes (bs n) /\ 32 <= bs n <= 1024.
Proof using Hk.
  intros Hn. unfold bytes, block_bytes, sizeof_FreeBlock, buffer_bytes.
  assert (32 <= bs n <= 1024) as Hb.
  { unfold bs, BlockSizes. destruct n as [|[|[|[|n]]]]; simpl; lia. }
  assert (1 <= 2 ^ k <= 4096).
  { split; [pose proof (Z.pow_pos_nonneg 2 k); lia|]. change 4096 with (2 ^ 12). apply Z.pow_le_mono_r; lia. }
  rewrite land_align by lia. pose proof (div_mul_bounds (bs n + 16 + (2 ^ k - 1)) (2 ^ k)). lia.
Qed.

Lemma get_size_id_spec size : size <= 1024 ->
  exists n, get_size_id size = Some n /\ (n < 4)%nat /\ size <= bs n.
Proof using Type.
  intros H. unfold get_size_id, BlockSizes. simpl.
  destruct (size <=? 32) eqn:E1; [exists 0%nat; b2p; split_and!; [done|lia|done]|].
  destruct (size <=? 64) eqn:E2; [exists 1%nat; b2p; split_and!; [done|lia|done]|].
  destruct (size <=? 256) eqn:E3; [exists 2%nat; b2p; split_and!; [done|lia|done]|].
  rewrite (proj2 (Z.leb_le _ _)) by done. exists 3%nat. split_and!; [done|lia|done].
Qed.

Lemma get_size_id_bs n : (n < 4)%nat -> get_size_id (bs n) = Some n.
Proof using Type. intros H. by destruct n as [|[|[|[|n]]]]; [| | | |lia]. Qed.

(** *** Ownership

    A ghost map gives every byte at most one owner: a block in use, a free block of
    an arena or the unused part of its buffer. *)
Inductive owner := OLive (ptr : Z) | OFree (thd n : nat) (block : Z) | OBuf (thd n : nat).

Definition owns (O : Z -> option owner) (lo len : Z) (o : owner) : Prop :=
  forall x, lo <= x < lo + len -> O x = Some o.
Definition own_set (lo len : Z) (o : owner) (O : Z -> option owner) : Z -> option owner :=
  fun x => if (lo <=? x) && (x <? lo + len) then Some o else O x.

(** A range is given from one owner (or nobody) to another. *)
Definition gives (O : Z -> option owner) (lo len : Z) (o : option owner) : Prop :=
  forall x, lo <= x < lo + len -> O x = o.

Lemma owns_keep O lo len o o1 lo' len' o' :
  gives O lo len o -> owns O lo' len' o' -> o <> Some o' -> owns (own_set lo len o1 O) lo' len' o'.
Proof using Type.
  intros Hg Ho Hne x Hx. unfold own_set. destruct (_ && _) eqn:E; [|by apply Ho]. b2p.
  destruct Hne. rewrite <- (Hg x) by lia. by apply Ho.
Qed.

Lemma owns_new O lo len o : owns (own_set lo len o O) lo len o.
Proof using Type. intros x Hx. unfold own_set. by rewrite (proj2 (andb_true_iff _ _)) by lia. Qed.

(** The free list of an arena from its head. *)
Fixpoint chain (h : headers) (head : Z) (l : list Z) : Prop :=
  match l with
  | [] => head = 0
  | b :: l => head = b /\ b <> 0 /\ exists size next, h !! b = Some (mkFreeBlock size (Some next)) /\ chain h next l
  end.

Definition free_ok (h : headers) (O : Z -> option owner) (thd n : nat) (head : Z) (l : list Z) : Prop :=
  chain h head l /\ NoDup l /\
  forall b, b ∈ l -> fb_size <$> h !! b = Some (bs n) /\ owns O b (bytes n) (OFree thd n b).

Definition arena_ok (O : Z -> option owner) (thd n : nat) (a : Arena) : Prop :=
  _block_size a = bs n /\ owns O (_buffer a) (_size_in_buffer a) (OBuf thd n).

Definition live_ok (h : headers) (O : Z -> option owner) (ptr : Z) (e : Z * bool) : Prop :=
  0 < e.1 /\
  if e.2 then exists n, (n < 4)%nat /\ e.1 <= bs n /\ fb_size <$> h !! (ptr - 16) = Some (bs n) /\
                        owns O (ptr - 16) (bytes n) (OLive ptr)
  else owns O ptr e.1 (OLive ptr).

Record inv (s : sys) (O : Z -> option owner) : Prop := {
  in_pos x : O x <> None -> 0 < x;
  in_chunk x : O x <> None -> exists c, c ∈ s_chunks s /\ c.1 <= x < c.1 + c.2;
  in_arena thd n : (n < 4)%nat -> arena_ok O thd n (_arenas (s_mem s) thd n);
  in_free thd n : (n < 4)%nat ->
    exists l, free_ok (_headers (s_mem s)) O thd n (_head (_arenas (s_mem s) thd n)) l;
  in_live ptr e : s_live s !! ptr = Some e -> live_ok (_headers (s_mem s)) O ptr e }.

Lemma chain_insert h head l b x : b ∉ l -> chain h head l -> chain (<[b := x]> h) head l.
Proof using Type.
  revert head. induction l as [|a l IH]; intros head Hb; simpl; [done|].
  apply not_elem_of_cons in Hb as [Hba Hb]. intros (-> & H0 & size & next & Hh & Hc).
  split_and!; [done|done|]. exists size, next. rewrite lookup_insert_ne by done. eauto.
Qed.

(** What a transfer of a range leaves alone; [b0] is a header inside the range. *)
Section transfer.
Context (h : headers) (O : Z -> option owner) (lo len b0 : Z) (fb : FreeBlock) (o : option owner) (o1 : owner).
Context (Hg : gives O lo len o) (Hb0 : lo <= b0 < lo + len).

Lemma tr_arena thd n a :
  arena_ok O thd n a -> o <> Some (OBuf thd n) -> arena_ok (own_set lo len o1 O) thd n a.
Proof using Hg. intros [H1 H2] Hne. split; [done|]. by eapply owns_keep. Qed.

Lemma tr_free thd n head l :
  (n < 4)%nat -> free_ok h O thd n head l -> (forall b, b ∈ l -> o <> Some (OFree thd n b)) ->
  free_ok (<[b0 := fb]> h) (own_set lo len o1 O) thd n head l.
Proof using Hg Hb0 Hk.
  intros Hn (Hc & Hnd & Hf) Hne. pose proof (bytes_bounds n Hn).
  assert (b0 ∉ l) as Hnin.
  { intros Hin. destruct (Hf _ Hin) as [_ Ho]. apply (Hne _ Hin). rewrite <- (Hg b0) by lia. apply Ho. lia. }
  split_and!; [by apply chain_insert|done|]. intros b Hb. destruct (Hf b Hb) as [Hs Ho].
  split; [|by eapply owns_keep; eauto]. rewrite lookup_insert_ne; [done|]. by intros ->.
Qed.

Lemma tr_live ptr e :
  live_ok h O ptr e -> o <> Some (OLive ptr) -> live_ok (<[b0 := fb]> h) (own_set lo len o1 O) ptr e.
Proof using Hg Hb0 Hk.
  intros [H0 Hl] Hne. split; [done|]. destruct e.2; [|by eapply owns_keep].
  destruct Hl as (n & Hn & Hs & Hh & Ho). pose proof (bytes_bounds n Hn). exists n. split_and!; [done|done| |by eapply owns_keep].
  rewrite lookup_insert_ne; [done|]. intros Heq. apply Hne. rewrite <- (Hg b0) by lia. apply Ho. lia.
Qed.

Lemma tr_pos : (forall x, O x <> None -> 0 < x) -> o <> None \/ 0 < lo ->
  forall x, own_set lo len o1 O x <> None -> 0 < x.
Proof using Hg.
  intros Hp Ho x. unfold own_set. destruct (_ && _) eqn:E; [|by apply Hp]. b2p. intros _.
  destruct Ho as [Ho|]; [|lia]. apply Hp. by rewrite (Hg x) by lia.
Qed.

Lemma tr_chunk (cs cs' : list (Z * Z)) :
  (forall x, O x <> None -> exists c, c ∈ cs /\ c.1 <= x < c.1 + c.2) -> cs ⊆ cs' ->
  o <> None \/ (lo, len) ∈ cs' ->
  forall x, own_set lo len o1 O x <> None -> exists c, c ∈ cs' /\ c.1 <= x < c.1 + c.2.
Proof using Hg.
  intros Hc Hsub Ho x. unfold own_set. destruct (_ && _) eqn:E.
  - b2p. intros _. destruct Ho as [Ho|Ho]; [|exists (lo, len); simpl; split; [done|lia]].
    destruct (Hc x) as (c & ? & ?); [by rewrite (Hg x) by lia|]. exists c. split; [by apply Hsub|done].
  - intros Hx. destruct (Hc x Hx) as (c & ? & ?). exists c. split; [by apply Hsub|done].
Qed.
End transfer.

(** Memory that [malloc] returns has no owner. *)
Lemma fresh_gives s O buf n : inv s O -> fresh (s_chunks s) buf n -> gives O buf n None.
Proof using Type.
  intros I [H0 Hf] x Hx. destruct (O x) eqn:E; [|done]. destruct (in_chunk _ _ I x) as (c & Hc & ?); [by rewrite E|].
  rewrite Forall_forall in Hf. apply Hf in Hc. lia.
Qed.

(** A new buffer for an arena; the rest of the old one is lost. *)
Lemma refill_inv s O thd n buf a :
  inv s O -> (n < 4)%nat -> _arenas (s_mem s) thd n = a -> fresh (s_chunks s) buf (buffer_bytes (bs n)) ->
  inv (mkSys (mkMem (set_arena thd n (mkArena buf (buffer_bytes (bs n)) (_arena_id a) (_block_size a) (_head a))
                       (_arenas (s_mem s))) (_headers (s_mem s)))
         (s_live s) ((buf, buffer_bytes (bs n)) :: s_chunks s))
      (own_set buf (buffer_bytes (bs n)) (OBuf thd n) O).
Proof using Hk.
  intros I Hn <- Hf. pose proof (fresh_gives _ _ _ _ I Hf) as Hg. destruct Hf as [H0 _].
  pose proof (bytes_bounds n Hn). split; simpl.
  - eapply tr_pos; [done|apply I|by right].
  - eapply tr_chunk; [done|apply I|by intros c Hc; right|right; left].
  - intros t' n' Hn'. unfold set_arena. destruct (decide _) as [[-> ->]|].
    + split; simpl; [by apply (in_arena _ _ I)|apply owns_new].
    + by eapply tr_arena; [|apply (in_arena _ _ I)|].
  - intros t' n' Hn'. destruct (in_free _ _ I t' n' Hn') as (l & Hc & Hnd & Hl). exists l.
    unfold set_arena. destruct (decide _) as [[-> ->]|]; simpl;
      (split_and!; [done|done|]; intros b Hb; destruct (Hl b Hb); split; [done|by eapply owns_keep]).
  - intros ptr e He. destruct (in_live _ _ I ptr e He) as [Hp Hl]. split; [done|].
    destruct e.2; [|by eapply owns_keep]. destruct Hl as (m & ? & ? & ? & ?). exists m.
    split_and!; [done|done|done|by eapply owns_keep].
Qed.

(** The head of a free list is handed out. *)
Lemma pop_inv s O thd n b l next a size :
  inv s O -> (n < 4)%nat -> _arenas (s_mem s) thd n = a -> _head a = b ->
  free_ok (_headers (s_mem s)) O thd n b (b :: l) -> 0 < size <= bs n ->
  (exists sz, _headers (s_mem s) !! b = Some (mkFreeBlock sz (Some next))) ->
  inv (mkSys (mkMem (set_arena thd n (mkArena (_buffer a) (_size_in_buffer a) (_arena_id a) (_block_size a) next)
                       (_arenas (s_mem s))) (_headers (s_mem s)))
         (<[b + 16 := (size, true)]> (s_live s)) (s_chunks s))
      (own_set b (bytes n) (OLive (b + 16)) O).
Proof using Hk.
  intros I Hn <- Hhd (Hc & Hnd & Hl) Hsz [sz Hb]. pose proof (bytes_bounds n Hn).
  destruct (Hl b) as [Hs Ho]; [by left|]. apply NoDup_cons in Hnd as [Hnin Hnd].
  assert (gives O b (bytes n) (Some (OFree thd n b))) as Hg by (intros x Hx; by apply Ho).
  pose proof (insert_id _ _ _ Hb) as Hid. split; simpl.
  - eapply tr_pos; [done|apply I|by left].
  - eapply tr_chunk; [done|apply I|done|by left].
  - intros t' n' Hn'. assert (arena_ok (own_set b (bytes n) (OLive (b + 16)) O) t' n' (_arenas (s_mem s) t' n')) as Ha
      by (by eapply tr_arena; [|apply (in_arena _ _ I)|]).
    unfold set_arena. destruct (decide _) as [[-> ->]|]; done.
  - intros t' n' Hn'. unfold set_arena. destruct (decide _) as [[-> ->]|Hne]; simpl.
    + exists l. rewrite <- Hid. eapply tr_free; [done|lia|done| |].
      * simpl in Hc. destruct Hc as (_ & _ & sz' & nx & Hb' & Hc). rewrite Hb in Hb'. simplify_eq.
        split_and!; [done|done|]. intros b' Hb''. apply Hl. by right.
      * intros b' Hb'. by intros [= <-].
    + destruct (in_free _ _ I t' n' Hn') as (l' & Hl'). exists l'. rewrite <- Hid.
      eapply tr_free; [done|lia|done|done|]. intros b' _ [= -> -> _]. by destruct Hne.
  - intros ptr e He. rewrite <- Hid. apply lookup_insert_Some in He as [[<- <-]|[Hne He]].
    + split; [simpl; lia|]. exists n. simpl. replace (b + 16 - 16) with b by lia.
      split_and!; [done|lia|by rewrite Hid|apply owns_new].
    + eapply tr_live; [done|lia|by apply (in_live _ _ I)|done].
Qed.

(** A new block is cut off the buffer. *)
Lemma carve_inv s O thd n a size next :
  inv s O -> (n < 4)%nat -> _arenas (s_mem s) thd n = a -> bytes n <= _size_in_buffer a -> 0 < size <= bs n ->
  inv (mkSys (mkMem (set_arena thd n (mkArena (_buffer a + bytes n) (_size_in_buffer a - bytes n) (_arena_id a)
                       (_block_size a) (_head a)) (_arenas (s_mem s)))
                    (<[_buffer a := mkFreeBlock (bs n) next]> (_headers (s_mem s))))
         (<[_buffer a + 16 := (size, true)]> (s_live s)) (s_chunks s))
      (own_set (_buffer a) (bytes n) (OLive (_buffer a + 16)) O).
Proof using Hk.
  intros I Hn <- Hroom Hsz. pose proof (bytes_bounds n Hn).
  destruct (in_arena _ _ I thd n Hn) as [Hbs Hbuf].
  set (b := _buffer (_arenas (s_mem s) thd n)) in *.
  assert (gives O b (bytes n) (Some (OBuf thd n))) as Hg by (intros x Hx; apply Hbuf; lia).
  split; simpl.
  - eapply tr_pos; [done|apply I|by left].
  - eapply tr_chunk; [done|apply I|done|by left].
  - intros t' n' Hn'. unfold set_arena. destruct (decide _) as [[-> ->]|Hne].
    + split; simpl; [done|]. intros x Hx. unfold own_set. destruct (_ && _) eqn:E; [b2p; lia|]. apply Hbuf. lia.
    + eapply tr_arena; [done|by apply (in_arena _ _ I)|]. intros [= -> ->]. by destruct Hne.
  - intros t' n' Hn'. destruct (in_free _ _ I t' n' Hn') as (l' & Hl'). exists l'.
    assert (_head (set_arena thd n (mkArena (b + bytes n) (_size_in_buffer (_arenas (s_mem s) thd n) - bytes n)
      (_arena_id (_arenas (s_mem s) thd n)) (_block_size (_arenas (s_mem s) thd n))
      (_head (_arenas (s_mem s) thd n))) (_arenas (s_mem s)) t' n') = _head (_arenas (s_mem s) t' n')) as ->.
    { unfold set_arena. by destruct (decide _) as [[-> ->]|]. }
    eapply tr_free; [done|lia|done|done|]. by intros.
  - intros ptr e He. apply lookup_insert_Some in He as [[<- <-]|[Hne He]].
    + split; [simpl; lia|]. exists n. simpl. replace (b + 16 - 16) with b by lia.
      split_and!; [done|lia|by rewrite lookup_insert_eq|apply owns_new].
    + eapply tr_live; [done|lia|by apply (in_live _ _ I)|done].
Qed.

(** A block in use is put on a free list. *)
Lemma push_inv s O thd n a ptr size next :
  inv s O -> (n < 4)%nat -> _arenas (s_mem s) thd n = a -> s_live s !! ptr = Some (size, true) ->
  _headers (s_mem s) !! (ptr - 16) = Some (mkFreeBlock (bs n) next) ->
  inv (mkSys (mkMem (set_arena thd n (mkArena (_buffer a) (_size_in_buffer a) (_arena_id a) (_block_size a) (ptr - 16))
                       (_arenas (s_mem s)))
                    (<[ptr - 16 := mkFreeBlock (bs n) (Some (_head a))]> (_headers (s_mem s))))
         (delete ptr (s_live s)) (s_chunks s))
      (own_set (ptr - 16) (bytes n) (OFree thd n (ptr - 16)) O).
Proof using Hk.
  intros I Hn <- Hlive Hh. pose proof (bytes_bounds n Hn).
  destruct (in_live _ _ I ptr _ Hlive) as [Hsz (n0 & Hn0 & Hle & Hh' & Ho)]. rewrite Hh in Hh'.
  assert (n0 = n) as -> by (apply (f_equal (fmap get_size_id)) in Hh'; simpl in Hh';
    rewrite !get_size_id_bs in Hh' by done; congruence).
  assert (gives O (ptr - 16) (bytes n) (Some (OLive ptr))) as Hg by (intros x Hx; by apply Ho).
  split; simpl.
  - eapply tr_pos; [done|apply I|by left].
  - eapply tr_chunk; [done|apply I|done|by left].
  - intros t' n' Hn'. assert (arena_ok (own_set (ptr - 16) (bytes n) (OFree thd n (ptr - 16)) O) t' n'
      (_arenas (s_mem s) t' n')) as Ha by (by eapply tr_arena; [|apply (in_arena _ _ I)|]).
    unfold set_arena. destruct (decide _) as [[-> ->]|]; done.
  - intros t' n' Hn'. destruct (in_free _ _ I t' n' Hn') as (l & Hl).
    assert (free_ok (<[ptr - 16 := mkFreeBlock (bs n) (Some (_head (_arenas (s_mem s) thd n)))]> (_headers (s_mem s)))
      (own_set (ptr - 16) (bytes n) (OFree thd n (ptr - 16)) O) t' n' (_head (_arenas (s_mem s) t' n')) l) as Hl1.
    { eapply tr_free; [done|lia|done|done|]. by intros. }
    unfold set_arena. destruct (decide _) as [[-> ->]|Hne]; simpl; [|by exists l].
    exists (ptr - 16 :: l). destruct Hl1 as (Hc & Hnd & Hf). split_and!.
    + simpl. split_and!; [done| |]; [|eexists _, _; by rewrite lookup_insert_eq].
      assert (0 < ptr - 16); [|lia]. apply (in_pos _ _ I). by rewrite (Ho (ptr - 16)) by lia.
    + constructor; [|done]. intros Hin. destruct Hl as (_ & _ & Hl). destruct (Hl _ Hin) as [_ Hx].
      specialize (Hx (ptr - 16) ltac:(lia)). rewrite (Ho (ptr - 16)) in Hx by lia. done.
    + intros b Hb. apply elem_of_cons in Hb as [->|Hb]; [|by apply Hf].
      rewrite lookup_insert_eq. split; [done|apply owns_new].
  - intros p e He. apply lookup_delete_Some in He as [Hne He].
    eapply tr_live; [done|lia|by apply (in_live _ _ I)|]. by intros [= ->].
Qed.

(** Memory straight from [malloc]. *)
Lemma direct_inv s O buf size :
  inv s O -> 0 < size -> fresh (s_chunks s) buf size ->
  inv (mkSys (s_mem s) (<[buf := (size, false)]> (s_live s)) ((buf, size) :: s_chunks s))
      (own_set buf size (OLive buf) O).
Proof using Hk.
  intros I H0 Hf. pose proof (fresh_gives _ _ _ _ I Hf) as Hg. destruct Hf as [Hb _]. split; simpl.
  - eapply tr_pos; [done|apply I|by right].
  - eapply tr_chunk; [done|apply I|by intros c Hc; right|right; left].
  - intros t' n' Hn'. by eapply tr_arena; [|apply (in_arena _ _ I)|].
  - intros t' n' Hn'. destruct (in_free _ _ I t' n' Hn') as (l & Hc & Hnd & Hl). exists l.
    split_and!; [done|done|]. intros b Hbl. destruct (Hl b Hbl). split; [done|by eapply owns_keep].
  - intros ptr e He. apply lookup_insert_Some in He as [[<- <-]|[Hne He]]; [split; [done|apply owns_new]|].
    destruct (in_live _ _ I ptr e He) as [Hp Hl]. split; [done|].
    destruct e.2; [|by eapply owns_keep]. destruct Hl as (m & ? & ? & ? & ?). exists m.
    split_and!; [done|done|done|by eapply owns_keep].
Qed.

Lemma arena_alloc_inv s O thd n size buf ptr asked a h :
  inv s O -> (n < 4)%nat -> 0 < size <= bs n ->
  Arena_alloc MEM_ALLIGN buf (_arenas (s_mem s) thd n) (_headers (s_mem s)) = Some (ptr, asked, a, h) ->
  asked_fresh (s_chunks s) buf asked ->
  exists O', inv (mkSys (mkMem (set_arena thd n a (_arenas (s_mem s))) h) (<[ptr := (size, true)]> (s_live s))
                    (asked_chunk buf asked ++ s_chunks s)) O'.
Proof using Hk.
  intros I Hn Hsz Ha Hf. pose proof (bytes_bounds n Hn). destruct (in_arena _ _ I thd n Hn) as [Hbs _].
  unfold Arena_alloc in Ha. destruct (_head _ =? 0) eqn:E0.
  - rewrite Hbs in Ha. fold (bytes n) in Ha.
    destruct (_size_in_buffer _ <? _) eqn:E1; injection Ha as <- <- <- <-; simpl in *; b2p.
    + set (a0 := _arenas (s_mem s) thd n) in *.
      set (a1 := mkArena buf (buffer_bytes (bs n)) (_arena_id a0) (_block_size a0) (_head a0)).
      pose proof (refill_inv s O thd n buf a0 I Hn eq_refl Hf) as I1.
      eexists. pose proof (carve_inv _ _ thd n a1 size ((_headers (s_mem s) !! buf) ≫= fb_next) I1 Hn) as I2.
      simpl in I2. unfold set_arena at 1 in I2. rewrite decide_True in I2 by done.
      specialize (I2 eq_refl ltac:(lia) Hsz). unfold a1 in I2. rewrite Hbs in I2.
      destruct I2 as [p1 p2 p3 p4 p5]. simpl in *. split; simpl; [exact p1|exact p2| |  |exact p5].
      * intros t' n' Hn'. specialize (p3 t' n' Hn'). unfold set_arena in *. by destruct (decide _).
      * intros t' n' Hn'. specialize (p4 t' n' Hn'). unfold set_arena in *. by destruct (decide _).
    + pose proof (carve_inv s O thd n _ size
        ((_headers (s_mem s) !! _buffer (_arenas (s_mem s) thd n)) ≫= fb_next) I Hn eq_refl ltac:(lia) Hsz) as I2.
      rewrite Hbs in *. eexists. exact I2.
  - b2p. destruct (_headers (s_mem s) !! _) as [fb|] eqn:Eh; [|done].
    destruct (fb_next fb) as [next|] eqn:En; [|done]. injection Ha as <- <- <- <-. simpl.
    destruct (in_free _ _ I thd n Hn) as ([|b l] & Hl); [by destruct Hl as [? _]|].
    assert (b = _head (_arenas (s_mem s) thd n)) as -> by (by destruct Hl as [[-> _] _]).
    eexists. eapply pop_inv; [done|done|done|done|done|done|]. exists (fb_size fb). rewrite Eh. by destruct fb; simplify_eq/=.
Qed.

Lemma step_inv s s' O : step s s' -> inv s O -> exists O', inv s' O'.
Proof using Hk.
  intros [s0 thd pool size buf ptr asked m Hsz Ha Hf|s0 thd ptr size m Hl Hfr] I.
  - unfold alloc in Ha. simpl in Ha. unfold pooled. destruct (1024 <? size) eqn:E; b2p.
    { injection Ha as <- <- <-. rewrite (proj2 (Z.leb_gt _ _)) by lia. simpl. eexists. by apply direct_inv. }
    rewrite (proj2 (Z.leb_le _ _)) by lia. destruct pool; simpl in *.
    + destruct (get_size_id_spec size) as (n & Hn & Hlt & Hle); [lia|]. rewrite Hn in Ha.
      destruct (Arena_alloc _ _ _ _) as [[[[p q] a] h]|] eqn:Ea; [|done]. injection Ha as <- <- <-.
      by eapply arena_alloc_inv.
    + injection Ha as <- <- <-. eexists. by apply direct_inv.
  - unfold free in Hfr. destruct (in_live _ _ I ptr _ Hl) as [Hsz (n & Hn & Hle & Hh & _)]. simpl in *.
    unfold Arena_free, sizeof_FreeBlock in Hfr.
    destruct (_headers (s_mem s0) !! (ptr - 16)) as [[sz next]|] eqn:Eh; [|done]. simpl in *. simplify_eq.
    rewrite get_size_id_bs in Hfr by done. simpl in Hfr. injection Hfr as <-. eexists.
    by eapply push_inv.
Qed.

Lemma init_inv : inv sys_init (fun _ => None).
Proof using Type.
  split; simpl; try done.
  - intros thd n Hn. split; [done|]. intros x Hx. simpl in Hx. lia.
  - intros thd n Hn. exists []. split_and!; [done|constructor|]. intros b Hb. by apply elem_of_nil in Hb.
Qed.

Definition reachable : sys -> Prop := rtc step sys_init.

Lemma reachable_inv s : reachable s -> exists O, inv s O.
Proof using Hk.
  intros Hr. refine (rtc_ind_r (R := step) (fun s => exists O, inv s O) sys_init _ _ s Hr).
  - eexists. apply init_inv.
  - intros s1 s2 _ Hs [O I]. by eapply step_inv.
Qed.

(** A block in use with its header. *)
Definition block_start (ptr : Z) (e : Z * bool) : Z := if e.2 then ptr - 16 else ptr.

Lemma live_owned s O ptr e :
  inv s O -> s_live s !! ptr = Some e ->
  0 < e.1 /\ block_start ptr e <= ptr /\ owns O (block_start ptr e) (ptr + e.1 - block_start ptr e) (OLive ptr).
Proof using Hk.
  intros I He. destruct (in_live _ _ I ptr e He) as [H0 Hl]. unfold block_start. destruct e.2.
  - destruct Hl as (n & Hn & Hle & _ & Ho). pose proof (bytes_bounds n Hn).
    split_and!; [done|lia|]. intros x Hx. apply Ho. lia.
  - split_and!; [done|lia|]. intros x Hx. apply Hl. lia.
Qed.

Lemma blocks_disjoint s O p q e e' :
  inv s O -> s_live s !! p = Some e -> s_live s !! q = Some e' -> p <> q ->
  p + e.1 <= block_start q e' \/ q + e'.1 <= block_start p e.
Proof using Hk.
  intros I Hp Hq Hne.
  destruct (live_owned s O p e I Hp) as (? & ? & Hop). destruct (live_owned s O q e' I Hq) as (? & ? & Hoq).
  destruct (decide (p + e.1 <= block_start q e')) as [|Hn1]; [by left|right].
  destruct (decide (q + e'.1 <= block_start p e)) as [|Hn2]; [done|exfalso]. apply Hne.
  assert (Some (OLive p) = Some (OLive q)) as [= ->]; [|done].
  rewrite <- (Hop (Z.max (block_start p e) (block_start q e'))) by lia. apply Hoq. lia.
Qed.

(** An arena hands out a block that is not in use. *)
Lemma arena_alloc_unused s O thd n buf ptr asked a h :
  inv s O -> (n < 4)%nat ->
  Arena_alloc MEM_ALLIGN buf (_arenas (s_mem s) thd n) (_headers (s_mem s)) = Some (ptr, asked, a, h) ->
  asked_fresh (s_chunks s) buf asked -> O ptr <> Some (OLive ptr).
Proof using Hk.
  intros I Hn Ha Hf. pose proof (bytes_bounds n Hn). destruct (in_arena _ _ I thd n Hn) as [Hbs Hbuf].
  unfold Arena_alloc in Ha. destruct (_head _ =? 0) eqn:E0.
  - rewrite Hbs in Ha. fold (bytes n) in Ha.
    destruct (_size_in_buffer _ <? _) eqn:E1; injection Ha as <- <- <- <-; simpl in *; b2p.
    + rewrite (fresh_gives _ _ _ _ I Hf) by (unfold sizeof_FreeBlock; lia). done.
    + rewrite Hbuf by (unfold sizeof_FreeBlock; lia). done.
  - b2p. destruct (_headers (s_mem s) !! _) as [fb|] eqn:Eh; [|done].
    destruct (fb_next fb) as [next|] eqn:En; [|done]. injection Ha as <- <- <- <-.
    destruct (in_free _ _ I thd n Hn) as ([|b l] & Hc & _ & Hl); [done|].
    assert (b = _head (_arenas (s_mem s) thd n)) as <- by (by destruct Hc).
    destruct (Hl b) as [_ Ho]; [by left|]. rewrite Ho by (unfold sizeof_FreeBlock; lia). done.
Qed.

Lemma alloc_unused s O thd pool size buf ptr asked m :
  inv s O -> 0 < size -> alloc MEM_ALLIGN true pool buf size thd (s_mem s) = Some (ptr, asked, m) ->
  asked_fresh (s_chunks s) buf asked -> s_live s !! ptr = None.
Proof using Hk.
  intros I Hsz Ha Hf. destruct (s_live s !! ptr) as [e|] eqn:He; [|done]. exfalso.
  destruct (live_owned s O ptr e I He) as (H0 & Hb & Ho). assert (O ptr = Some (OLive ptr)) as Hp by (apply Ho; lia).
  unfold alloc in Ha. simpl in Ha.
  assert (ptr = buf -> asked = Some size -> False) as Hdirect.
  { intros -> ->. rewrite (fresh_gives _ _ _ _ I Hf) in Hp by lia. done. }
  destruct (1024 <? size) eqn:E; [injection Ha as <- <- <-; by apply Hdirect|]. b2p.
  destruct pool; [|injection Ha as <- <- <-; by apply Hdirect].
  destruct (get_size_id_spec size) as (n & Hn & Hlt & _); [lia|]. rewrite Hn in Ha. simpl in Ha.
  destruct (Arena_alloc _ _ _ _) as [[[[p q] a] h]|] eqn:Ea; [|done]. injection Ha as <- <- <-.
  by eapply (arena_alloc_unused s O thd n buf p q a h I Hlt Ea Hf).
Qed.

Lemma arena_alloc_total s O thd n buf :
  inv s O -> (n < 4)%nat ->
  is_Some (Arena_alloc MEM_ALLIGN buf (_arenas (s_mem s) thd n) (_headers (s_mem s))).
Proof using Type.
  intros I Hn. unfold Arena_alloc. destruct (_ =? 0) eqn:E0; [done|]. b2p.
  destruct (in_free _ _ I thd n Hn) as ([|b l] & Hc & _); [by simpl in Hc|].
  destruct Hc as (-> & _ & sz & next & -> & _). done.
Qed.
End system.

(** C37. The arenas never give out memory twice.  In every sequence of allocations and
    frees of any threads, each with its own arenas, blocks freed by other threads
    than the one that allocated them included: (1) two blocks in use do not overlap,
    the headers in front of them included, so that no thread's data reach another
    block or a header; (2) the next block that any thread is given is not in use and
    overlaps no block in use, as long as [malloc] does not hand out memory twice;
    (3) an allocation never fails, whatever the size, and (4) a block from an arena
    can be freed by any thread. *)
Theorem arenas_disjoint k s (Hk : 0 <= k <= 12) (Hr : reachable k s) :
  (forall p q e e', s_live s !! p = Some e -> s_live s !! q = Some e' -> p <> q ->
     p + e.1 <= block_start q e' \/ q + e'.1 <= block_start p e) /\
  (forall thd pool size buf ptr asked m, 0 < size ->
     alloc (2 ^ k) true pool buf size thd (s_mem s) = Some (ptr, asked, m) -> asked_fresh (s_chunks s) buf asked ->
     s_live s !! ptr = None /\
     forall q e, s_live s !! q = Some e ->
       ptr + size <= block_start q e \/ q + e.1 <= block_start ptr (size, pooled pool size)) /\
  (forall thd pool buf size, is_Some (alloc (2 ^ k) true pool buf size thd (s_mem s))) /\
  (forall thd p size, s_live s !! p = Some (size, true) -> is_Some (free true false p thd (s_mem s))).
Proof.
  destruct (reachable_inv k Hk s Hr) as [O I]. split_and!.
  - intros p q e e'. by apply (blocks_disjoint k Hk s O).
  - intros thd pool size buf ptr asked m Hsz Ha Hf. pose proof (alloc_unused k Hk s O _ _ _ _ _ _ _ I Hsz Ha Hf) as Hno.
    split; [done|]. intros q e Hq. destruct (step_inv k Hk _ _ O (step_alloc k s _ _ _ _ _ _ _ Hsz Ha Hf) I) as [O' I'].
    assert (ptr <> q) as Hne by congruence.
    apply (blocks_disjoint k Hk _ O' ptr q (size, pooled pool size) e I'); simpl.
    + apply lookup_insert_eq.
    + by rewrite lookup_insert_ne.
    + done.
  - intros thd pool buf size. unfold alloc. simpl. destruct (1024 <? size) eqn:E; [done|]. b2p.
    destruct pool; [|done]. destruct (get_size_id_spec size E) as (n & -> & Hn & _). simpl.
    destruct (arena_alloc_total k s O thd n buf I Hn) as [[[[? ?] ?] ?] ->]. done.
  - intros thd p size Hl. destruct (in_live _ _ _ I p _ Hl) as [_ (n & Hn & _ & Hh & _)]. simpl in Hh.
    unfold free, Arena_free, sizeof_FreeBlock. destruct (_headers (s_mem s) !! (p - 16)) as [fb|] eqn:E; [|done].
    injection Hh as Hh. rewrite Hh, get_size_id_bs by done. done.
Qed.

(** Thread 0 allocates two blocks, thread 1 frees the first, and its next block is
    that one. *)
Definition ex_alloc (buf size : Z) (thd : nat) (m : mem_alloc) : mem_alloc :=
  match alloc 8 true true buf size thd m with Some r => r.2 | None => m end.
Definition ex1 := ex_alloc 65536 100 0 init_thread_arena.
Definition ex2 := ex_alloc 0 150 0 ex1.
Definition ex3 := match free true false 65552 1 ex2 with Some m => m | None => ex2 end.
Definition ex4 := ex_alloc 0 200 1 ex3.
Definition ex_live : gmap Z (Z * bool) :=
  <[65552 := (200, true)]> (delete 65552 (<[65824 := (150, true)]> (<[65552 := (100, true)]> ∅))).

Lemma ex_reachable : reachable 3 (mkSys ex4 ex_live [(65536, 10485760)]).
Proof.
  unfold reachable, sys_init.
  eapply rtc_l; [apply (step_alloc 3 _ 0 true 100 65536 65552 (Some 10485760) ex1)|].
  { done. } { vm_compute. reflexivity. } { split; [done|constructor]. }
  eapply rtc_l; [apply (step_alloc 3 _ 0 true 150 0 65824 None ex2)|].
  { done. } { vm_compute. reflexivity. } { exact I. }
  eapply rtc_l; [apply (step_free 3 _ 1 65552 100 ex3)|].
  { vm_compute. reflexivity. } { vm_compute. reflexivity. }
  eapply rtc_l; [apply (step_alloc 3 _ 1 true 200 0 65552 None ex4)|].
  { done. } { vm_compute. reflexivity. } { exact I. }
  apply rtc_refl.
Qed.

Lemma arenas_disjoint_witness : reachable 3 (mkSys ex4 ex_live [(65536, 10485760)]) /\
  (65552 + 200 <= block_start 65824 (150, true) \/ 65824 + 150 <= block_start 65552 (200, true)) /\
  is_Some (free true false 65824 1 ex4).
Proof.
  destruct (arenas_disjoint 3 (mkSys ex4 ex_live [(65536, 10485760)])) as (Hd & _ & _ & Hf).
  - split; discriminate.
  - exact ex_reachable.
  - split; [exact ex_reachable|]. split.
    + apply (Hd 65552 65824 (200, true) (150, true)); [vm_compute; reflexivity|vm_compute; reflexivity|discriminate].
    + apply (Hf 1%nat 65824 150). vm_compute. reflexivity.
Defined.
