(* ===== verification/Arrays.v ===== *)
(** * C arrays and the loops over them

    An array is the list of its cells.  [rd] is a read, which gives [junk]
    outside the array; [wr] is a write, which stops the program there.  The loops
    that storage/index_btree.cpp runs over the arrays of a node are defined here,
    with what they compute. *)

From S2P Require Import Prelude.

Section arrays.
Context {A : Type} (junk : A).
Implicit Types (l dst src : list A).

Definition rd l (i : nat) : A := default junk (l !! i).

Definition wr l (i : nat) (x : A) : option (list A) :=
  assert! (i <? length l)%nat;; Some (<[i := x]> l).

(** [while (i < n && p(l[i])) i++;], with [n - i] iterations left. *)
Fixpoint scan_from (p : A -> bool) l (i k : nat) : nat :=
  match k with
  | O => i
  | S k => if p (rd l i) then scan_from p l (S i) k else i
  end.

Definition scan (p : A -> bool) l (n : nat) : nat := scan_from p l 0 n.

(** [for (i = n; i > ip; i--) l[i] = l[i - 1];] *)
Fixpoint shift_up l (ip i : nat) : option (list A) :=
  match i with
  | O => Some l
  | S i' =>
      if (ip <? i)%nat then do! l <- wr l i (rd l i');; shift_up l ip i' else Some l
  end.

(** [for (i, j; i < n; i++, j++) { if (j == ix) j++; dst[j] = src[i]; }], with
    [k] iterations left. *)
Fixpoint spread (ix : nat) src (i j k : nat) dst : option (list A) :=
  match k with
  | O => Some dst
  | S k =>
      let j := if (j =? ix)%nat then S j else j in
      do! dst <- wr dst j (rd src i);; spread ix src (S i) (S j) k dst
  end.

(** [for (i, j; ...; i++, j++) dst[j] = src[i];], [k] iterations. *)
Fixpoint copy_cells src (i j k : nat) dst : option (list A) :=
  match k with
  | O => Some dst
  | S k => do! dst <- wr dst j (rd src i);; copy_cells src (S i) (S j) k dst
  end.

(** ** What the loops compute *)

Definition insert_at (i : nat) (x : A) l : list A := take i l ++ x :: drop i l.

Lemma rd_lookup l i x : l !! i = Some x -> rd l i = x.
Proof using. unfold rd. by intros ->. Qed.

Lemma lookup_rd l i : (i < length l)%nat -> l !! i = Some (rd l i).
Proof using. intros Hi. unfold rd. by destruct (lookup_lt_is_Some_2 l i Hi) as [x ->]. Qed.

Lemma wr_spec l i x : (i < length l)%nat -> wr l i x = Some (<[i := x]> l).
Proof using. intros Hi. unfold wr. by rewrite c_assert_true by by apply Nat.ltb_lt. Qed.

Lemma wr_inv l i x l' : wr l i x = Some l' -> (i < length l)%nat /\ l' = <[i := x]> l.
Proof using.
  unfold wr. intros [Hi%Nat.ltb_lt Heq]%c_assert_Some. by injection Heq as <-.
Qed.

Lemma length_insert_at i x l : length (insert_at i x l) = S (length l).
Proof using.
  unfold insert_at. rewrite length_app, length_take, length_cons, length_drop. lia.
Qed.

Lemma lookup_insert_at i x l j :
  (i <= length l)%nat ->
  insert_at i x l !! j =
    if (j <? i)%nat then l !! j else if (j =? i)%nat then Some x else l !! pred j.
Proof using.
  intros Hi. unfold insert_at.
  destruct (Nat.ltb_spec j i) as [Hj|Hj].
  - rewrite lookup_app_l by (rewrite length_take; lia). by apply lookup_take_lt.
  - rewrite lookup_app_r by (rewrite length_take; lia).
    rewrite length_take, Nat.min_l by lia.
    destruct (Nat.eqb_spec j i) as [->|Hne]; [by rewrite Nat.sub_diag|].
    replace (j - i)%nat with (S (j - i - 1)) by lia. simpl. rewrite lookup_drop. f_equal. lia.
Qed.

Lemma insert_at_perm i x l : insert_at i x l ≡ₚ x :: l.
Proof using. unfold insert_at. rewrite <- Permutation_middle. by rewrite take_drop. Qed.

Lemma elem_of_insert_at i x l y : y ∈ insert_at i x l <-> y = x \/ y ∈ l.
Proof using. by rewrite insert_at_perm, elem_of_cons. Qed.

Lemma scan_from_spec p l i k :
  let r := scan_from p l i k in
  (i <= r <= i + k)%nat /\ (forall j, (i <= j < r)%nat -> p (rd l j) = true) /\
  ((r < i + k)%nat -> p (rd l r) = false).
Proof using.
  revert i. induction k as [|k IH]; intros i; simpl; [split; [lia|]; split; intros; lia|].
  destruct (p (rd l i)) eqn:Hp; simpl.
  - destruct (IH (S i)) as (H1 & H2 & H3). split; [lia|]. split.
    + intros j Hj. destruct (decide (j = i)) as [->|]; [done|]. apply H2. lia.
    + intros Hr. apply H3. lia.
  - split; [lia|]. split; [intros; lia|done].
Qed.

(** The scan stops at the first of the [n] cells that does not satisfy [p]. *)
Lemma scan_spec p l n :
  (scan p l n <= n)%nat /\ (forall j, (j < scan p l n)%nat -> p (rd l j) = true) /\
  ((scan p l n < n)%nat -> p (rd l (scan p l n)) = false).
Proof using.
  destruct (scan_from_spec p l 0 n) as (H1 & H2 & H3). unfold scan.
  split; [lia|]. split; [|auto]. intros j Hj. apply H2. lia.
Qed.

Lemma shift_up_spec l ip n :
  (ip <= n)%nat -> (n < length l)%nat ->
  exists l', shift_up l ip n = Some l' /\ length l' = length l /\
    forall j, l' !! j = if (ip <? j)%nat && (j <=? n)%nat then l !! pred j else l !! j.
Proof using.
  revert l. induction n as [|n IH]; intros l Hip Hn; simpl.
  - exists l. split_and!; [done|done|]. intros j. destruct (Nat.ltb_spec ip j); [|done].
    destruct (Nat.leb_spec j 0); [lia|done].
  - destruct (Nat.ltb_spec ip (S n)) as [Hlt|Hge].
    + rewrite wr_spec by lia. destruct (IH (<[S n := rd l n]> l)) as (l' & -> & Hlen & Hl').
      { lia. } { rewrite length_insert. lia. }
      exists l'. split; [done|]. split; [by rewrite Hlen, length_insert|].
      intros j. rewrite Hl'.
      destruct (Nat.ltb_spec ip j); simpl.
      * destruct (Nat.leb_spec j n), (Nat.leb_spec j (S n)); try lia.
        -- by rewrite list_lookup_insert_ne by lia.
        -- replace j with (S n) by lia. rewrite list_lookup_insert_eq by lia.
           simpl. symmetry. apply lookup_rd. lia.
        -- by rewrite list_lookup_insert_ne by lia.
      * by rewrite list_lookup_insert_ne by lia.
    + exists l. split_and!; [done|done|]. intros j. destruct (Nat.ltb_spec ip j); [|done].
      destruct (Nat.leb_spec j (S n)); [lia|done].
Qed.

(** Shifting and writing the free cell is an insertion into the cells in use. *)
Lemma shift_up_insert l ip n x :
  (ip <= n)%nat -> (n < length l)%nat ->
  exists l' l'', shift_up l ip n = Some l' /\ wr l' ip x = Some l'' /\ length l'' = length l /\
    take (S n) l'' = insert_at ip x (take n l).
Proof using.
  intros Hip Hn. destruct (shift_up_spec l ip n Hip Hn) as (l' & -> & Hlen & Hl').
  exists l', (<[ip := x]> l'). rewrite wr_spec by lia. split_and!; [done..|by rewrite length_insert|].
  apply list_eq. intros j. rewrite lookup_insert_at by (rewrite length_take; lia).
  destruct (decide (j < S n)%nat) as [Hj|Hj].
  - rewrite lookup_take_lt by done. destruct (decide (j = ip)) as [->|Hne].
    + rewrite list_lookup_insert_eq by lia. by rewrite Nat.ltb_irrefl, Nat.eqb_refl.
    + rewrite list_lookup_insert_ne, Hl' by done.
      destruct (Nat.ltb_spec ip j), (Nat.ltb_spec j ip), (Nat.leb_spec j n); try lia; simpl.
      * destruct (Nat.eqb_spec j ip); [lia|]. by rewrite lookup_take_lt by lia.
      * by rewrite lookup_take_lt by lia.
  - rewrite lookup_take_ge by lia. destruct (Nat.ltb_spec j ip), (Nat.eqb_spec j ip); try lia.
    by rewrite lookup_take_ge by lia.
Qed.

Lemma copy_cells_spec src i j k dst :
  (j + k <= length dst)%nat ->
  exists dst', copy_cells src i j k dst = Some dst' /\ length dst' = length dst /\
    forall m, dst' !! m =
      if (j <=? m)%nat && (m <? j + k)%nat then Some (rd src (i + (m - j))%nat) else dst !! m.
Proof using.
  revert i j dst. induction k as [|k IH]; intros i j dst Hk; simpl.
  - exists dst. split_and!; [done|done|]. intros m.
    destruct (Nat.leb_spec j m), (Nat.ltb_spec m (j + 0)); try lia; done.
  - rewrite wr_spec by lia. destruct (IH (S i) (S j) (<[j := rd src i]> dst)) as (dst' & -> & Hlen & Hd).
    { rewrite length_insert. lia. }
    exists dst'. split_and!; [done|by rewrite Hlen, length_insert|]. intros m. rewrite Hd.
    destruct (Nat.leb_spec j m), (Nat.leb_spec (S j) m); simpl; try lia.
    + destruct (Nat.ltb_spec m (S (j + k))), (Nat.ltb_spec m (j + S k)); try lia.
      * do 2 f_equal. lia.
      * by rewrite list_lookup_insert_ne by lia.
    + replace m with j by lia. rewrite list_lookup_insert_eq by lia.
      destruct (Nat.ltb_spec j (j + S k)); [|lia]. do 2 f_equal. lia.
    + by rewrite list_lookup_insert_ne by lia.
Qed.

Lemma spread_no_skip ix src i j k dst :
  (ix < j \/ j + k <= ix)%nat -> spread ix src i j k dst = copy_cells src i j k dst.
Proof using.
  revert i j dst. induction k as [|k IH]; intros i j dst Hk; simpl; [done|].
  destruct (Nat.eqb_spec j ix); [lia|]. destruct (wr dst j (rd src i)); [|done]. apply IH. lia.
Qed.

Lemma spread_app ix src i j k1 k2 dst :
  (j + k1 <= ix)%nat ->
  spread ix src i j (k1 + k2) dst =
    do! dst <- copy_cells src i j k1 dst;; spread ix src (i + k1) (j + k1) k2 dst.
Proof using.
  revert i j dst. induction k1 as [|k1 IH]; intros i j dst Hk; simpl.
  - by rewrite !Nat.add_0_r.
  - destruct (Nat.eqb_spec j ix); [lia|]. destruct (wr dst j (rd src i)); [|done].
    rewrite IH by lia. by rewrite !Nat.add_succ_comm.
Qed.

(** Spreading [n] cells around the cell [ix] and writing that cell is an
    insertion. *)
Lemma spread_insert ix src n dst x :
  (ix <= n)%nat -> (n <= length src)%nat -> (n < length dst)%nat ->
  exists dst' dst'', spread ix src 0 0 n dst = Some dst' /\ wr dst' ix x = Some dst'' /\
    length dst'' = length dst /\ take (S n) dst'' = insert_at ix x (take n src).
Proof using.
  intros Hix Hn Hlen.
  assert (exists dst', spread ix src 0 0 n dst = Some dst' /\ length dst' = length dst /\
    forall m, (m < S n)%nat -> m <> ix ->
      dst' !! m = Some (rd src (if (m <? ix)%nat then m else pred m))) as (dst' & Hrun & Hlen' & Hd).
  { replace n with (ix + (n - ix))%nat by lia. rewrite spread_app by lia.
    destruct (copy_cells_spec src 0 0 ix dst) as (d1 & -> & Hl1 & Hd1); [lia|]. simpl.
    assert (spread ix src ix ix (n - ix) d1 = copy_cells src ix (S ix) (n - ix) d1) as ->.
    { destruct (n - ix)%nat as [|k] eqn:Hk; [done|]. simpl. rewrite Nat.eqb_refl.
      destruct (wr d1 (S ix) (rd src ix)); [|done]. by rewrite spread_no_skip by lia. }
    destruct (copy_cells_spec src ix (S ix) (n - ix) d1) as (d2 & -> & Hl2 & Hd2); [lia|].
    exists d2. split_and!; [done|lia|]. intros m Hm Hne. rewrite Hd2.
    destruct (Nat.leb_spec (S ix) m), (Nat.ltb_spec m ix); simpl; try lia.
    - destruct (Nat.ltb_spec m (S (ix + (n - ix)))); [|lia]. do 2 f_equal. lia.
    - rewrite Hd1. simpl. destruct (Nat.ltb_spec m ix); [|lia]. do 2 f_equal. lia. }
  exists dst', (<[ix := x]> dst'). rewrite wr_spec by lia.
  split_and!; [done|done|by rewrite length_insert|].
  apply list_eq. intros j. rewrite lookup_insert_at by (rewrite length_take; lia).
  destruct (decide (j < S n)%nat) as [Hj|Hj].
  - rewrite lookup_take_lt by done. destruct (decide (j = ix)) as [->|Hne].
    + rewrite list_lookup_insert_eq by lia. by rewrite Nat.ltb_irrefl, Nat.eqb_refl.
    + rewrite list_lookup_insert_ne, Hd by done. destruct (Nat.ltb_spec j ix).
      * rewrite lookup_take_lt by lia. symmetry. apply lookup_rd. lia.
      * destruct (Nat.eqb_spec j ix); [lia|]. rewrite lookup_take_lt by lia.
        symmetry. apply lookup_rd. lia.
  - rewrite lookup_take_ge by lia. destruct (Nat.ltb_spec j ix), (Nat.eqb_spec j ix); try lia.
    by rewrite lookup_take_ge by (rewrite ?length_take; lia).
Qed.

(** Copying [k] cells to the front of an array. *)
Lemma copy_cells_take src i k dst :
  (k <= length dst)%nat -> (i + k <= length src)%nat ->
  exists dst', copy_cells src i 0 k dst = Some dst' /\ length dst' = length dst /\
    take k dst' = take k (drop i src) /\ (forall m, (k <= m)%nat -> dst' !! m = dst !! m).
Proof using.
  intros Hk Hi. destruct (copy_cells_spec src i 0 k dst) as (dst' & -> & Hlen & Hd); [lia|].
  exists dst'. split_and!; [done|done| |].
  - apply list_eq. intros j. destruct (decide (j < k)%nat) as [Hj|Hj].
    + rewrite !lookup_take_lt, Hd, lookup_drop by done. simpl.
      destruct (Nat.ltb_spec j k); [|lia]. rewrite Nat.sub_0_r. symmetry. apply lookup_rd. lia.
    + by rewrite !lookup_take_ge by lia.
  - intros m Hm. rewrite Hd. simpl. by destruct (Nat.ltb_spec m k); [lia|].
Qed.
End arrays.
