(* ===== verification/DList.v ===== *)
(** * The intrusive lists of the code

    The [LIST_*] and [STACK_*] macros of src/system/helper.h on the [next] and
    [prev] pointers of the entries, and the lists they represent. The lock
    manager keeps its owners and waiters with these macros; the chains of the
    perfect hash index have the same shape. *)

From S2P Require Import Prelude.

(** ** Doubly linked segments

    [dseg mem p l q]: the nodes [l] are linked in this order, the first one's
    [prev] is [p] and the last one's [next] is [q]. *)

Section dseg.
Context {A N : Type} `{Countable A} (nx pv : N -> option A).
Implicit Types (mem : gmap A N) (l : list A).

Definition hd_or l (q : option A) : option A :=
  match l with [] => q | a :: _ => Some a end.
Definition last_or (p : option A) l : option A :=
  match last l with Some a => Some a | None => p end.

Fixpoint dseg mem (p : option A) l (q : option A) : Prop :=
  match l with
  | [] => True
  | a :: l' =>
      (exists n, mem !! a = Some n /\ pv n = p /\ nx n = hd_or l' q) /\
      dseg mem (Some a) l' q
  end.

Lemma last_or_cons p a l : last_or p (a :: l) = last_or (Some a) l.
Proof.
  unfold last_or. destruct l as [|b l]; [done|]. rewrite last_cons_cons.
  destruct (last (b :: l)) eqn:E; [done|]. by apply last_None in E.
Qed.

Lemma last_or_snoc p l a : last_or p (l ++ [a]) = Some a.
Proof. unfold last_or. by rewrite last_snoc. Qed.

Lemma dseg_app mem p l1 l2 q :
  dseg mem p (l1 ++ l2) q <->
  dseg mem p l1 (hd_or l2 q) /\ dseg mem (last_or p l1) l2 q.
Proof.
  revert p. induction l1 as [|a l1 IH]; intros p; simpl; [unfold last_or; simpl; tauto|].
  rewrite IH, last_or_cons.
  replace (hd_or (l1 ++ l2) q) with (hd_or l1 (hd_or l2 q)) by (by destruct l1).
  tauto.
Qed.

(** Nodes outside the segment do not matter. *)
Lemma dseg_ext mem mem' p l q :
  (forall a, a ∈ l -> mem' !! a = mem !! a) -> dseg mem p l q -> dseg mem' p l q.
Proof.
  revert p. induction l as [|a l IH]; intros p Heq; simpl; [done|].
  intros [(n & Hn & ? & ?) Hl]. split.
  - exists n. rewrite Heq by left. done.
  - apply IH; [|done]. intros b Hb. apply Heq. by right.
Qed.

Lemma dseg_insert mem p l q a n : a ∉ l -> dseg mem p l q -> dseg (<[a := n]> mem) p l q.
Proof.
  intros Ha. apply dseg_ext. intros b Hb. apply lookup_insert_ne. by intros ->.
Qed.

Lemma dseg_live mem p l q a : dseg mem p l q -> a ∈ l -> is_Some (mem !! a).
Proof.
  revert p. induction l as [|b l IH]; intros p; [by intros _ ?%not_elem_of_nil|].
  intros [(n & Hn & _) Hl]. intros [->|?]%elem_of_cons; eauto.
Qed.
End dseg.

(** ** Nodes and the macros

    A statement that follows a null or dangling pointer stops the program. *)

Record lnode := mkLnode { ln_next : option nat; ln_prev : option nat }.

Notation mem_t := (gmap nat lnode).

Record llist := mkLlist { ll_mem : mem_t; ll_head : option nat; ll_tail : option nat }.

Definition get (p : option nat) (mem : mem_t) : option lnode :=
  match p with Some a => mem !! a | None => None end.

(** [p->next = q] and [p->prev = q]. *)
Definition set_next (p q : option nat) (mem : mem_t) : option mem_t :=
  match p with
  | Some a => match mem !! a with
              | Some n => Some (<[a := mkLnode q (ln_prev n)]> mem)
              | None => None
              end
  | None => None
  end.
Definition set_prev (p q : option nat) (mem : mem_t) : option mem_t :=
  match p with
  | Some a => match mem !! a with
              | Some n => Some (<[a := mkLnode (ln_next n) q]> mem)
              | None => None
              end
  | None => None
  end.

Definition is_null (p : option nat) : bool :=
  match p with None => true | Some _ => false end.

Definition LIST_GET_HEAD (s : llist) : option (option nat * llist) :=
  let en := ll_head s in
  do! n <- get en (ll_mem s);;
  let lhead := ln_next n in
  do! mem <- (if is_null lhead then Some (ll_mem s)
              else set_prev lhead None (ll_mem s));;
  let ltail := if is_null lhead then None else ll_tail s in
  do! mem <- set_next en None mem;;
  Some (en, mkLlist mem lhead ltail).

Definition LIST_PUT_TAIL (en : nat) (s : llist) : option llist :=
  do! mem <- set_next (Some en) None (ll_mem s);;
  do! mem <- set_prev (Some en) None mem;;
  if is_null (ll_tail s) then Some (mkLlist mem (Some en) (Some en))
  else
    do! mem <- set_prev (Some en) (ll_tail s) mem;;
    do! mem <- set_next (ll_tail s) (Some en) mem;;
    Some (mkLlist mem (ll_head s) (Some en)).

(** [LIST_INSERT_BEFORE] and, as its callers do, the update of the head. *)
Definition LIST_INSERT_BEFORE (entry newentry : nat) (mem : mem_t) : option mem_t :=
  do! mem <- set_next (Some newentry) (Some entry) mem;;
  do! n <- get (Some entry) mem;;
  do! mem <- set_prev (Some newentry) (ln_prev n) mem;;
  do! mem <- (if is_null (ln_prev n) then Some mem
              else set_next (ln_prev n) (Some newentry) mem);;
  set_prev (Some entry) (Some newentry) mem.

Definition insert_before (entry newentry : nat) (s : llist) : option llist :=
  do! mem <- LIST_INSERT_BEFORE entry newentry (ll_mem s);;
  Some (mkLlist mem (if bool_decide (ll_head s = Some entry) then Some newentry
                     else ll_head s) (ll_tail s)).

Definition LIST_REMOVE_HT (entry : nat) (s : llist) : option llist :=
  do! n <- get (Some entry) (ll_mem s);;
  do! mt <- (if is_null (ln_next n)
             then assert! bool_decide (ll_tail s = Some entry);;
                  Some (ll_mem s, ln_prev n)
             else do! mem <- set_prev (ln_next n) (ln_prev n) (ll_mem s);;
                  Some (mem, ll_tail s));;
  do! n <- get (Some entry) (fst mt);;
  do! mh <- (if is_null (ln_prev n)
             then assert! bool_decide (ll_head s = Some entry);;
                  Some (fst mt, ln_next n)
             else do! mem <- set_next (ln_prev n) (ln_next n) (fst mt);;
                  Some (mem, ll_head s));;
  Some (mkLlist (fst mh) (snd mh) (snd mt)).

(** The representation: [s] holds the entries [l], from head to tail. *)
Definition dl (s : llist) (l : list nat) : Prop :=
  NoDup l /\ ll_head s = head l /\ ll_tail s = last l /\
  dseg ln_next ln_prev (ll_mem s) None l None.

#[local] Arguments set_next : simpl never.
#[local] Arguments set_prev : simpl never.

Lemma set_next_eq mem a n q : mem !! a = Some n ->
  set_next (Some a) q mem = Some (<[a := mkLnode q (ln_prev n)]> mem).
Proof. unfold set_next. by intros ->. Qed.
Lemma set_prev_eq mem a n q : mem !! a = Some n ->
  set_prev (Some a) q mem = Some (<[a := mkLnode (ln_next n) q]> mem).
Proof. unfold set_prev. by intros ->. Qed.

Lemma dl_nil mem : dl (mkLlist mem None None) [].
Proof. split_and!; [constructor|done..]. Qed.

Lemma hd_or_None (l : list nat) : hd_or l None = head l.
Proof. by destruct l. Qed.
Lemma last_or_None (l : list nat) : last_or None l = last l.
Proof. unfold last_or. by destruct (last l). Qed.

(** Rewriting the pointers at the two ends of a segment. *)
Lemma set_next_seg mem p l a q q' :
  NoDup (l ++ [a]) -> dseg ln_next ln_prev mem p (l ++ [a]) q ->
  exists mem', set_next (Some a) q' mem = Some mem' /\
    dseg ln_next ln_prev mem' p (l ++ [a]) q' /\ (forall b, b <> a -> mem' !! b = mem !! b).
Proof.
  intros (_ & Hna & _)%NoDup_app [Hl [(n & Hn & Hp & Hq) _]]%dseg_app.
  erewrite set_next_eq by done. eexists. split; [done|]. split.
  - apply dseg_app. simpl. split.
    + apply dseg_insert; [|done]. intros Ha. apply (Hna a Ha). by left.
    + split; [|done]. eexists. rewrite lookup_insert_eq. done.
  - intros b Hb. by rewrite lookup_insert_ne.
Qed.

Lemma set_prev_seg mem p l a q p' :
  NoDup (a :: l) -> dseg ln_next ln_prev mem p (a :: l) q ->
  exists mem', set_prev (Some a) p' mem = Some mem' /\
    dseg ln_next ln_prev mem' p' (a :: l) q /\ (forall b, b <> a -> mem' !! b = mem !! b).
Proof.
  intros [Hna _]%NoDup_cons [(n & Hn & Hp & Hq) Hl].
  erewrite set_prev_eq by done. eexists. split; [done|]. split.
  - split; [|by apply dseg_insert]. eexists. rewrite lookup_insert_eq. done.
  - intros b Hb. by rewrite lookup_insert_ne.
Qed.

Lemma put_tail_dl s l en : dl s l -> en ∉ l -> is_Some (ll_mem s !! en) ->
  exists s', LIST_PUT_TAIL en s = Some s' /\ dl s' (l ++ [en]).
Proof.
  destruct s as [mem h t]. intros (Hnd & Hh & Ht & Hl) Hen [n Hn]. simpl in *.
  unfold LIST_PUT_TAIL. simpl. erewrite set_next_eq by done.
  erewrite set_prev_eq by apply lookup_insert_eq. rewrite insert_insert_eq. simpl.
  assert (NoDup (l ++ [en])) as Hnd'.
  { apply NoDup_app. split_and!; [done| |apply NoDup_singleton].
    intros x Hx ->%list_elem_of_singleton. done. }
  set (mem1 := <[en := mkLnode None None]> mem).
  assert (dseg ln_next ln_prev mem1 None l None) as Hl1 by (by apply dseg_insert).
  destruct l as [|a l'] using rev_ind.
  { rewrite Ht. simpl. eexists. split; [done|]. split_and!; try done.
    simpl. split; [|done]. eexists. unfold mem1. by rewrite lookup_insert_eq. }
  clear IHl'. rewrite last_snoc in Ht. subst t. cbn [is_null]. unfold mem1.
  erewrite set_prev_eq by apply lookup_insert_eq. rewrite insert_insert_eq. cbn [ln_next].
  assert (en <> a) as Hne by (intros ->; apply Hen; set_solver).
  assert (dseg ln_next ln_prev (<[en := mkLnode None (Some a)]> mem) None (l' ++ [a]) None) as Hl2
    by (by apply dseg_insert).
  destruct (set_next_seg _ _ _ _ _ (Some en) Hnd Hl2) as (mem3 & Hs & Hl3 & Hfr).
  rewrite Hs. eexists. split; [done|]. split_and!; simpl; [done| |by rewrite last_snoc|].
  - rewrite Hh. by destruct l'.
  - apply dseg_app. split; [done|]. rewrite last_or_snoc. simpl. split; [|done].
    eexists. rewrite Hfr, lookup_insert_eq by done. done.
Qed.

Lemma get_head_dl s a l : dl s (a :: l) ->
  exists s', LIST_GET_HEAD s = Some (Some a, s') /\ dl s' l /\ is_Some (ll_mem s' !! a).
Proof.
  destruct s as [mem h t]. intros (Hnd & Hh & Ht & Hl). simpl in *. subst h t.
  destruct Hl as [(n & Hn & Hp & Hq) Hl]. unfold LIST_GET_HEAD. simpl. rewrite Hn, Hq.
  apply NoDup_cons in Hnd as [Hna Hnd]. rewrite hd_or_None.
  destruct l as [|b l]; simpl.
  - erewrite set_next_eq by done. eexists. split; [done|]. split; [apply dl_nil|]. simpl.
    rewrite lookup_insert_eq. eauto.
  - destruct (set_prev_seg _ _ _ _ _ None Hnd Hl) as (mem1 & Hs & Hl1 & Hfr).
    rewrite Hs. assert (a <> b) by (intros ->; set_solver).
    erewrite set_next_eq by (by rewrite Hfr). eexists. split; [done|]. simpl. split.
    + split_and!; simpl; [done..|].
      apply (dseg_insert ln_next ln_prev mem1 None (b :: l)); done.
    + rewrite lookup_insert_eq. eauto.
Qed.

(** A node of the list and its neighbours. *)
Lemma dl_middle s l1 a l2 : dl s (l1 ++ a :: l2) ->
  NoDup (l1 ++ a :: l2) /\ NoDup l1 /\ NoDup l2 /\ a ∉ l1 /\ a ∉ l2 /\
  (forall x, x ∈ l1 -> x ∉ l2) /\
  dseg ln_next ln_prev (ll_mem s) None l1 (Some a) /\
  dseg ln_next ln_prev (ll_mem s) (Some a) l2 None /\
  ll_mem s !! a = Some (mkLnode (head l2) (last l1)) /\
  ll_head s = hd_or l1 (Some a) /\ ll_tail s = last_or (Some a) l2.
Proof.
  intros (Hnd & Hh & Ht & [Hl1 [(n & Hn & Hp & Hq) Hl2]]%dseg_app).
  pose proof Hnd as (Hnd1 & Hd & [Ha Hnd2]%NoDup_cons)%NoDup_app.
  rewrite last_or_None in Hp. rewrite hd_or_None in Hq. destruct n as [nn np]. simpl in *. subst.
  split_and!; try done.
  - intros ?. eapply Hd; [done|]. by left.
  - intros x Hx Hx2. eapply Hd; [done|]. by right.
  - rewrite Hh. by destruct l1.
  - rewrite Ht, last_app, last_cons. unfold last_or. by destruct (last l2).
Qed.

Lemma remove_dl s l1 a l2 : dl s (l1 ++ a :: l2) ->
  exists s', LIST_REMOVE_HT a s = Some s' /\ dl s' (l1 ++ l2) /\ is_Some (ll_mem s' !! a).
Proof.
  intros Hdl. destruct (dl_middle _ _ _ _ Hdl)
    as (Hnd & Hnd1 & Hnd2 & Ha1 & Ha2 & Hd & Hl1 & Hl2 & Hn & Hh & Ht).
  destruct s as [mem h t]. simpl in *. unfold LIST_REMOVE_HT. simpl. rewrite Hn. simpl.
  (* the successor *)
  assert (exists mem1 t1, (if is_null (head l2)
      then assert! bool_decide (t = Some a);; Some (mem, last l1)
      else do! mem <- set_prev (head l2) (last l1) mem;; Some (mem, t)) = Some (mem1, t1) /\
    t1 = last (l1 ++ l2) /\ dseg ln_next ln_prev mem1 (last l1) l2 None /\
    (forall b, b ∉ l2 -> mem1 !! b = mem !! b)) as (mem1 & t1 & -> & -> & Hl2' & Hf1).
  { destruct l2 as [|b l2]; simpl.
    - rewrite c_assert_true by (by apply bool_decide_eq_true). rewrite app_nil_r.
      exists mem, (last l1). done.
    - destruct (set_prev_seg _ _ _ _ _ (last l1) Hnd2 Hl2) as (mem1 & -> & Hs & Hf).
      eexists _, _. split; [done|]. split; [|split; [exact Hs|]].
      + rewrite Ht, last_app, last_or_cons. unfold last_or. rewrite last_cons.
        by destruct (last l2).
      + intros x Hx. apply Hf. intros ->. set_solver. }
  simpl. rewrite Hf1, Hn by done. simpl.
  assert (dseg ln_next ln_prev mem1 None l1 (Some a)) as Hl1'.
  { eapply dseg_ext; [|done]. intros x Hx. apply Hf1. by apply Hd. }
  (* the predecessor *)
  assert (exists mem2 h2, (if is_null (last l1)
      then assert! bool_decide (h = Some a);; Some (mem1, head l2)
      else do! mem <- set_next (last l1) (head l2) mem1;; Some (mem, h)) = Some (mem2, h2) /\
    h2 = head (l1 ++ l2) /\ dseg ln_next ln_prev mem2 None l1 (head l2) /\
    (forall b, b ∉ l1 -> mem2 !! b = mem1 !! b)) as (mem2 & h2 & -> & -> & Hl1'' & Hf2).
  { destruct l1 as [|b l1 _] using rev_ind; simpl.
    - rewrite c_assert_true by (by apply bool_decide_eq_true). exists mem1, (head l2). done.
    - rewrite last_snoc. simpl.
      destruct (set_next_seg _ _ _ _ _ (head l2) Hnd1 Hl1') as (mem2 & -> & Hs & Hf).
      eexists _, _. split; [done|]. split; [|split; [exact Hs|]].
      + rewrite Hh. by destruct l1.
      + intros x Hx. apply Hf. intros ->. set_solver. }
  eexists. split; [done|]. split.
  - split_and!; simpl; [|done..|].
    + apply NoDup_app. done.
    + apply dseg_app. rewrite hd_or_None, last_or_None. split; [done|].
      eapply dseg_ext; [|done]. intros x Hx. apply Hf2. intros Hx1. by apply (Hd x).
  - simpl. rewrite Hf2, Hf1, Hn by done. eauto.
Qed.

Lemma insert_before_dl s l1 a l2 en : dl s (l1 ++ a :: l2) -> en ∉ l1 ++ a :: l2 ->
  is_Some (ll_mem s !! en) ->
  exists s', insert_before a en s = Some s' /\ dl s' (l1 ++ en :: a :: l2).
Proof.
  intros Hdl Hen [n0 Hn0]. destruct (dl_middle _ _ _ _ Hdl)
    as (Hnd & Hnd1 & Hnd2 & Ha1 & Ha2 & Hd & Hl1 & Hl2 & Hn & Hh & Ht).
  destruct s as [mem h t]. simpl in *. unfold insert_before, LIST_INSERT_BEFORE. simpl.
  erewrite set_next_eq by done.
  assert (en <> a /\ en ∉ l1 /\ en ∉ l2) as (Hea & He1 & He2) by set_solver.
  rewrite lookup_insert_ne, Hn by done. simpl.
  erewrite set_prev_eq by apply lookup_insert_eq. rewrite insert_insert_eq. simpl.
  set (mem1 := <[en := mkLnode (Some a) (last l1)]> mem).
  assert (dseg ln_next ln_prev mem1 None l1 (Some a)) as Hl1' by (by apply dseg_insert).
  assert (exists mem2, (if is_null (last l1) then Some mem1
      else set_next (last l1) (Some en) mem1) = Some mem2 /\
    dseg ln_next ln_prev mem2 None l1 (Some en) /\
    (forall b, b ∉ l1 -> mem2 !! b = mem1 !! b)) as (mem2 & -> & Hl1'' & Hf).
  { destruct l1 as [|b l1 _] using rev_ind; [by exists mem1|].
    rewrite last_snoc. simpl.
    destruct (set_next_seg _ _ _ _ _ (Some en) Hnd1 Hl1') as (mem2 & -> & Hs & Hf).
    exists mem2. split; [done|]. split; [exact Hs|]. intros x Hx. apply Hf. intros ->. set_solver. }
  assert (mem2 !! a = Some (mkLnode (head l2) (last l1))) as Ha.
  { rewrite Hf by done. unfold mem1. by rewrite lookup_insert_ne. }
  erewrite set_prev_eq by done. simpl. eexists. split; [done|]. split_and!; simpl.
  - apply NoDup_app. split_and!; [done| |apply NoDup_cons; split; [set_solver|]].
    + intros x Hx. specialize (Hd x Hx). set_solver.
    + by apply NoDup_cons.
  - rewrite Hh. destruct l1 as [|b l1]; simpl; [by rewrite bool_decide_eq_true_2|].
    rewrite bool_decide_eq_false_2; [done|]. intros [= ->]. set_solver.
  - rewrite Ht, last_app, !last_cons. unfold last_or. by destruct (last l2).
  - apply dseg_app. simpl. rewrite last_or_None. split_and!.
    + by apply dseg_insert.
    + eexists. rewrite lookup_insert_ne, Hf by done. unfold mem1.
      rewrite lookup_insert_eq. done.
    + eexists. rewrite lookup_insert_eq. simpl. rewrite hd_or_None. done.
    + apply dseg_insert; [done|]. eapply dseg_ext; [|done]. intros x Hx.
      rewrite Hf by (intros ?; by apply (Hd x)). unfold mem1.
      rewrite lookup_insert_ne; [done|]. by intros ->.
Qed.

(** C32. The list macros implement operations on lists: on a well-formed list of
    distinct entries, empty or not, none of them follows a null or dangling pointer
    or fails its assertion, but [LIST_GET_HEAD] of the empty list, which follows
    the null head; [LIST_PUT_TAIL] appends, [LIST_GET_HEAD] takes the first entry,
    [LIST_REMOVE_HT] removes the given entry wherever it is, and
    [LIST_INSERT_BEFORE] inserts in front of the given entry; each leaves a
    well-formed list, and what was taken or removed can be appended again. *)
Theorem list_macros_refine (s : llist) (l : list nat) :
  dl s l ->
  (forall en, en ∉ l -> is_Some (ll_mem s !! en) ->
     exists s', LIST_PUT_TAIL en s = Some s' /\ dl s' (l ++ [en])) /\
  (match l with
   | [] => LIST_GET_HEAD s = None
   | a :: l => exists s', LIST_GET_HEAD s = Some (Some a, s') /\ dl s' l /\ a ∉ l /\ is_Some (ll_mem s' !! a)
   end) /\
  (forall l1 a l2, l = l1 ++ a :: l2 ->
     (exists s', LIST_REMOVE_HT a s = Some s' /\ dl s' (l1 ++ l2) /\ a ∉ l1 ++ l2 /\ is_Some (ll_mem s' !! a)) /\
     (forall en, en ∉ l -> is_Some (ll_mem s !! en) ->
        exists s', insert_before a en s = Some s' /\ dl s' (l1 ++ en :: a :: l2))).
Proof.
  intros Hdl. pose proof Hdl as (Hnd & Hh & _). split_and!.
  - intros en Hen Hlive. by apply put_tail_dl.
  - destruct l as [|a l]; [unfold LIST_GET_HEAD; by rewrite Hh|].
    destruct (get_head_dl _ _ _ Hdl) as (s' & ? & ? & ?). apply NoDup_cons in Hnd as [? _]. eauto 10.
  - intros l1 a l2 ->. split; [|intros en Hen Hlive; by apply insert_before_dl].
    destruct (remove_dl _ _ _ _ Hdl) as (s' & ? & ? & ?). exists s'. split_and!; try done.
    apply NoDup_app in Hnd as (_ & Hd & [Ha _]%NoDup_cons). intros [Hin|Hin]%elem_of_app; [|done].
    apply (Hd a Hin). by left.
Qed.

Lemma list_macros_refine_witness :
  let nil := mkLlist {[ 3%nat := mkLnode None None ]} None None in
  let s := mkLlist {[ 1%nat := mkLnode (Some 2%nat) None;
                      2%nat := mkLnode None (Some 1%nat);
                      3%nat := mkLnode None None ]} (Some 1%nat) (Some 2%nat) in
  (exists s', LIST_PUT_TAIL 3 nil = Some s' /\ dl s' [3]%nat) /\
  dl s [1; 2]%nat /\ exists s', LIST_REMOVE_HT 2 s = Some s' /\ dl s' [1]%nat.
Proof.
  assert (dl (mkLlist {[ 1%nat := mkLnode (Some 2%nat) None;
                      2%nat := mkLnode None (Some 1%nat);
                      3%nat := mkLnode None None ]} (Some 1%nat) (Some 2%nat)) [1; 2]%nat)
    as Hdl.
  { split_and!; [by apply (bool_decide_unpack _); vm_compute|reflexivity..|].
    simpl. split_and!; [| |done]; eexists; split_and!; reflexivity. }
  split; [|split; [exact Hdl|]].
  - apply (list_macros_refine (mkLlist {[ 3%nat := mkLnode None None ]} None None) [] (dl_nil _)).
    + apply not_elem_of_nil.
    + eexists. reflexivity.
  - destruct (list_macros_refine _ _ Hdl) as (_ & _ & Hr). destruct (Hr [1]%nat 2%nat [] eq_refl) as [(s' & Hs & Hd & _) _].
    exists s'. split; [exact Hs|exact Hd].
Defined.
