(* ===== verification/Index.v ===== *)
(** * What the workloads rely on from an index

    The interface between the index structures and their clients: loading rows
    with [workload::index_insert] (src/system/wl.cpp) and finding them with
    [index_read]. The hash index and the perfect hash index implement it, each
    with its own notion of which keys share a slot. *)

From stdpp Require Import functions.
From S2P Require Import Prelude Global.

(** The operations a client uses: [ix_insert key row part_id no_collision] is
    [workload::index_insert]; [ix_first key part_id] the location of the item
    [index_read] returns. A slot is named by a partition and a key. *)
Class IndexOps (St : Type) := {
  ix_insert : Z -> nat -> nat -> bool -> St -> option St;
  ix_first : Z -> nat -> St -> option (option nat) }.

(** The laws. [ix_rep s C]: the slot [sl] of [s] holds the rows [C sl], the
    latest one first. *)
Class IndexLaws (St : Type) `{IndexOps St} := {
  ix_rep : St -> (nat * Z -> list nat) -> Prop;
  ix_slot : St -> nat -> Z -> nat * Z;
  ix_part : St -> nat -> Prop;
  ix_insert_law s C key row part nc :
    ix_rep s C -> ix_part s part -> (C (ix_slot s part key) <> [] -> nc = false) ->
    exists s', ix_insert key row part nc s = Some s' /\
      ix_rep s' (<[ix_slot s part key := row :: C (ix_slot s part key)]> C) /\
      (forall p k, ix_slot s' p k = ix_slot s p k) /\
      (forall p, ix_part s' p <-> ix_part s p);
  ix_first_law s C key part row ls :
    ix_rep s C -> ix_part s part -> C (ix_slot s part key) = row :: ls ->
    ix_first key part s = Some (Some row) }.

Section client.
Context {St : Type} `{IndexLaws St}.

(** The loops of the loaders: rows are inserted under their keys. *)
Definition entry := (Z * nat * nat)%type.  (* key, row, part *)
Fixpoint load (nc : bool) (es : list entry) (s : St) : option St :=
  match es with
  | [] => Some s
  | (key, row, part) :: es =>
      do! s <- ix_insert key row part nc s;;
      load nc es s
  end.

Definition slot_e (s : St) (e : entry) : nat * Z := ix_slot s e.2 e.1.1.

Lemma load_rep nc es s C :
  ix_rep s C -> Forall (fun e => ix_part s e.2) es ->
  (nc = true -> NoDup (map (slot_e s) es) /\ Forall (fun e => C (slot_e s e) = []) es) ->
  exists s' C', load nc es s = Some s' /\ ix_rep s' C' /\
    (forall p k, ix_slot s' p k = ix_slot s p k) /\
    (forall p, ix_part s' p <-> ix_part s p) /\
    (forall sl, C' sl = rev (map (fun e => e.1.2)
                    (List.filter (fun e => bool_decide (slot_e s e = sl)) es)) ++ C sl).
Proof.
  revert s C. induction es as [|[[key row] part] es IH]; intros s C Hrep Hpart Hnc; simpl.
  { exists s, C. done. }
  apply Forall_cons in Hpart as [Hp Hpart]. simpl in Hp.
  destruct (ix_insert_law s C key row part nc Hrep Hp) as (s1 & -> & Hrep1 & Hsl1 & Hpt1).
  { intros Hne. destruct nc; [|done]. destruct (Hnc eq_refl) as [_ HF].
    apply Forall_cons in HF as [HF _]. done. }
  assert (forall e, slot_e s1 e = slot_e s e) as Hse by (intros [[??]?]; apply Hsl1).
  destruct (IH s1 _ Hrep1) as (s' & C' & -> & Hrep' & Hsl' & Hpt' & HC').
  - eapply Forall_impl; [exact Hpart|]. intros e ?. by apply Hpt1.
  - intros Hnct. destruct (Hnc Hnct) as [[Hni Hnd]%NoDup_cons [_ HF]%Forall_cons].
    split.
    + by rewrite (map_ext _ _ Hse).
    + apply Forall_forall. intros e He. rewrite Hse, fn_lookup_insert_ne.
      * rewrite Forall_forall in HF. by apply HF.
      * intros Heq. apply Hni. apply list_elem_of_In, in_map_iff. exists e.
        split; [done|by apply list_elem_of_In].
  - exists s', C'. split_and!; [done|done| | |].
    + intros p k. by rewrite Hsl', Hsl1.
    + intros p. by rewrite Hpt', Hpt1.
    + intros sl. rewrite HC'.
      assert (List.filter (fun e => bool_decide (slot_e s1 e = sl)) es =
              List.filter (fun e => bool_decide (slot_e s e = sl)) es) as ->.
      { apply filter_ext. intros e. by rewrite Hse. }
      destruct (decide (slot_e s (key, row, part) = sl)) as [<-|Hne].
      * rewrite bool_decide_eq_true_2 by done. simpl. rewrite <- app_assoc. simpl.
        unfold slot_e at 2. simpl. by rewrite fn_lookup_insert.
      * rewrite bool_decide_eq_false_2 by done. rewrite fn_lookup_insert_ne by done. done.
Qed.

(** Loading an index and reading it back, against the interface: rows
    loaded into an empty index under keys of distinct slots are all inserted
    ([no_collision] holds), and afterwards [index_read] of each key returns the
    row loaded under it. *)
Theorem load_index_reads_back es s s' key row part :
  ix_rep s (fun _ => []) -> Forall (fun e => ix_part s e.2) es ->
  NoDup (map (slot_e s) es) -> (key, row, part) ∈ es ->
  load true es s = Some s' -> ix_first key part s' = Some (Some row).
Proof.
  intros Hrep Hpart Hnd Hin Hload.
  destruct (load_rep true es s _ Hrep Hpart) as (s1 & C' & Hl & Hrep' & Hsl & Hpt & HC').
  { intros _. split; [done|]. by apply Forall_forall. }
  assert (s1 = s') as -> by congruence.
  assert (List.filter (fun e => bool_decide (slot_e s e = slot_e s (key, row, part))) es
          = [(key, row, part)]) as Hfil.
  { clear -Hnd Hin. induction es as [|e es IH]; [by apply not_elem_of_nil in Hin|].
    apply NoDup_cons in Hnd as [Hni Hnd]. simpl. apply elem_of_cons in Hin as [<-|Hin].
    - rewrite bool_decide_eq_true_2 by done. f_equal.
      apply filter_none. intros e He.
      apply bool_decide_eq_false. intros Heq. apply Hni. apply list_elem_of_In, in_map_iff.
      exists e. split; [done|by apply list_elem_of_In].
    - rewrite bool_decide_eq_false_2; [by apply IH|]. intros Heq. apply Hni. rewrite Heq.
      apply list_elem_of_In, in_map, list_elem_of_In, Hin. }
  eapply (ix_first_law s' C' key part row []); [done|apply Hpt; by eapply (Forall_forall _ es) in Hpart; [|exact Hin]|].
  rewrite Hsl, HC'. change (ix_slot s part key) with (slot_e s (key, row, part)).
  rewrite Hfil. done.
Qed.
End client.
