(* ===== verification/IndexPerfect.v ===== *)
(** * The perfect hash index

    [IndexHashPerfect] of src/storage/index_hash_perfect.h: an array of bucket
    heads per partition, allocated at the first insertion into the partition; a
    bucket's items are a doubly linked chain whose first node lives in the array
    ([TPCC_ALL_TXN]), with a pointer to the tail. The chain is the memory of the
    model, and the refinement theorems show that a bucket is a queue of row
    locations: insertion at the front, reading at either end, deletion at the
    back. The latch of a bucket makes each operation on it atomic. *)

From stdpp Require Import functions.
From S2P Require Import Prelude Global DList Index.

(** The cell [i] of the bucket array of partition [p], or an allocated node. *)
Notation addr := (nat * nat + nat)%type.
Notation bkt := (nat * nat)%type.

Inductive Data_type := DT_table | DT_page | DT_row.

Record itemid_t := mkItemid {
  it_location : nat;
  it_next : option addr;
  it_prev : option addr;
  it_type : Data_type;
  it_valid : bool }.

(** [itemid_t::init] leaves [type] alone. *)
Definition itemid_init (it : itemid_t) : itemid_t :=
  mkItemid 0 None None (it_type it) false.

Notation imem := (gmap addr itemid_t).

(** [p->next = q] and [p->prev = q]. *)
Definition it_set_next (p q : option addr) (mem : imem) : option imem :=
  do! a <- p;;
  do! it <- mem !! a;;
  Some (<[a := mkItemid (it_location it) q (it_prev it) (it_type it) (it_valid it)]> mem).
Definition it_set_prev (p q : option addr) (mem : imem) : option imem :=
  do! a <- p;;
  do! it <- mem !! a;;
  Some (<[a := mkItemid (it_location it) (it_next it) q (it_type it) (it_valid it)]> mem).

(** [_latch[p]], [_buckets[p]] and [_bucket_tails[p]] are allocated together:
    [ip_parts] are the partitions that have them. *)
Record IndexHashPerfect := mkIndexHashPerfect {
  part_cnt : nat;
  bucket_cnt_per_part : nat;
  ip_parts : gset nat;
  ip_mem : imem;
  ip_tails : gmap bkt (option addr) }.

Definition IndexHashPerfect_init (bucket_cnt parts : nat) : IndexHashPerfect :=
  mkIndexHashPerfect parts (bucket_cnt / parts) ∅ ∅ ∅.

Definition hash (s : IndexHashPerfect) (key : Z) : nat :=
  Z.to_nat (key mod Z.of_nat (bucket_cnt_per_part s)).

(** The cells of the array, from [new itemid_t[n]] and [init()] on each; the
    type of a cell is unset. *)
Definition new_cell : itemid_t := mkItemid 0 None None DT_table false.
Fixpoint alloc_cells (p n : nat) (mem : imem) : imem :=
  match n with
  | O => mem
  | S n => <[inl (p, n) := new_cell]> (alloc_cells p n mem)
  end.
Fixpoint alloc_tails (p n : nat) (tl : gmap bkt (option addr)) : gmap bkt (option addr) :=
  match n with
  | O => tl
  | S n => <[(p, n) := None]> (alloc_tails p n tl)
  end.

(** [if (_latch[part_id] == nullptr) ...]. *)
Definition ensure_part (p : nat) (s : IndexHashPerfect) : IndexHashPerfect :=
  if decide (p ∈ ip_parts s) then s
  else mkIndexHashPerfect (part_cnt s) (bucket_cnt_per_part s)
         ({[p]} ∪ ip_parts s)
         (alloc_cells p (bucket_cnt_per_part s) (ip_mem s))
         (alloc_tails p (bucket_cnt_per_part s) (ip_tails s)).

Definition with_mem (s : IndexHashPerfect) (mem : imem) (tl : gmap bkt (option addr)) :=
  mkIndexHashPerfect (part_cnt s) (bucket_cnt_per_part s) (ip_parts s) mem tl.

(** A node of [mem_allocator.alloc]: no node in use. *)
Definition fresh_node (mem : imem) : addr :=
  inr (fresh (omap (fun a => match a with inr n => Some n | inl _ => None end)
                (elements (dom mem)))).

(** The insertion into a bucket; [item] is the caller's item. *)
Definition bucket_insert (b : bkt) (item : itemid_t) (no_collision : bool)
    (s : IndexHashPerfect) : option IndexHashPerfect :=
  let mem := ip_mem s in
  let head := inl b : addr in
  do! h <- mem !! head;;
  if it_valid h then
    assert! negb no_collision;;
    let next := fresh_node mem in
    let mem := <[next := h]> mem in
    let mem := <[head := mkItemid (it_location item) (Some next) (it_prev item)
                           (it_type item) (it_valid item)]> mem in
    do! mem <- it_set_prev (Some next) (Some head) mem;;
    do! n <- mem !! next;;
    match it_next n with
    | None => Some (with_mem s mem (<[b := Some next]> (ip_tails s)))
    | Some _ =>
        do! mem <- it_set_prev (it_next n) (Some next) mem;;
        Some (with_mem s mem (ip_tails s))
    end
  else Some (with_mem s (<[head := item]> mem) (<[b := Some head]> (ip_tails s))).

(** [index_insert], and [index_insert_safe], which has the same statements
    under the bucket's latch. *)
Definition index_insert (key : Z) (item : itemid_t) (part_id : nat) (no_collision : bool)
    (s : IndexHashPerfect) : option (RC * IndexHashPerfect) :=
  let bkt_idx := hash s key in
  assert! (bkt_idx <? bucket_cnt_per_part s)%nat;;
  assert! (part_id <? part_cnt s)%nat;;  (* array bounds *)
  do! s <- bucket_insert (part_id, bkt_idx) item no_collision (ensure_part part_id s);;
  Some (RCOK, s).

(** [index_read]: a pointer to an item of the bucket. *)
Definition index_read (key : Z) (part_id : nat) (back : bool) (s : IndexHashPerfect)
    : option (RC * option addr) :=
  let bkt_idx := hash s key in
  assert! (bkt_idx <? bucket_cnt_per_part s)%nat;;
  assert! (part_id <? part_cnt s)%nat;;
  if negb back then
    if decide (part_id ∈ ip_parts s) then
      do! h <- ip_mem s !! inl (part_id, bkt_idx);;
      Some (RCOK, if it_valid h then Some (inl (part_id, bkt_idx)) else None)
    else Some (RCOK, None)
  else
    do! tl <- ip_tails s !! (part_id, bkt_idx);;
    Some (RCOK, tl).

(** [index_read_safe]: a copy of an item; [back] reads the tail. *)
Definition index_read_safe (key : Z) (part_id : nat) (back : bool) (s : IndexHashPerfect)
    : option (RC * option itemid_t) :=
  let bkt_idx := hash s key in
  assert! (bkt_idx <? bucket_cnt_per_part s)%nat;;
  assert! (part_id <? part_cnt s)%nat;;
  if decide (part_id ∈ ip_parts s) then
    if negb back then
      do! h <- ip_mem s !! inl (part_id, bkt_idx);;
      Some (if it_valid h then (RCOK, Some h) else (ERROR, None))
    else
      do! tl <- ip_tails s !! (part_id, bkt_idx);;
      do! a <- tl;;
      do! it <- ip_mem s !! a;;
      Some (if it_valid it then (RCOK, Some it) else (ERROR, None))
  else Some (ERROR, None).

(** The deletion of the item at [item] from bucket [b]; [hawk]: whether freed
    nodes stay allocated ([MALLOC_TYPE == HAWK_ALLOC]). *)
Definition bucket_delete (hawk : bool) (b : bkt) (item : addr) (s : IndexHashPerfect)
    : option IndexHashPerfect :=
  let mem := ip_mem s in
  let tails := ip_tails s in
  do! it <- mem !! item;;
  let prev := it_prev it in
  let next := it_next it in
  match prev with
  | Some _ =>
      do! mem <- it_set_next prev next mem;;
      do! mt <- match next with
                | Some _ => do! mem <- it_set_prev next prev mem;; Some (mem, tails)
                | None => Some (mem, <[b := prev]> tails)
                end;;
      Some (with_mem s (if hawk then fst mt else delete item (fst mt)) (snd mt))
  | None =>
      match next with
      | Some n =>
          do! nit <- mem !! n;;
          Some (with_mem s (<[item := nit]> mem)
                  (if decide (it_next nit = None) then <[b := Some item]> tails else tails))
      | None =>
          Some (with_mem s (<[item := itemid_init it]> mem) (<[b := Some item]> tails))
      end
  end.

(** [index_delete]: the caller gives the item. *)
Definition index_delete (hawk : bool) (key : Z) (item : addr) (part_id : nat)
    (s : IndexHashPerfect) : option (RC * IndexHashPerfect) :=
  do! s <- bucket_delete hawk (part_id, hash s key) item s;;
  Some (RCOK, s).

(** [index_delete_safe]: whatever the caller gives, the tail is deleted. *)
Definition index_delete_safe (hawk : bool) (key : Z) (part_id : nat)
    (s : IndexHashPerfect) : option (RC * IndexHashPerfect) :=
  do! tl <- ip_tails s !! (part_id, hash s key);;
  do! item <- tl;;
  do! s <- bucket_delete hawk (part_id, hash s key) item s;;
  Some (RCOK, s).

(** ** What a bucket represents

    [ns] are the allocated nodes of the chain behind the head, [ls] the row
    locations from head to tail. *)

Definition holds (mem : imem) (a : addr) (x : nat) : Prop :=
  exists it, mem !! a = Some it /\ it_location it = x /\ it_valid it = true.

Definition cells (b : bkt) (ns : list nat) : list addr := inl b :: map inr ns.

Definition bucket_rep (mem : imem) (tl : option addr) (b : bkt) (ns ls : list nat) : Prop :=
  (ns = [] /\ ls = [] /\ (tl = None \/ tl = Some (inl b)) /\
   exists h, mem !! inl b = Some h /\ it_valid h = false /\ it_next h = None /\
     it_prev h = None) \/
  (dseg it_next it_prev mem None (cells b ns) None /\ NoDup ns /\
   Forall2 (holds mem) (cells b ns) ls /\ tl = last (cells b ns)).

(** The whole index, with the nodes and the contents of every bucket. *)
Record rep (s : IndexHashPerfect) (N C : bkt -> list nat) : Prop := mkRep {
  rep_pos : (0 < bucket_cnt_per_part s)%nat;
  rep_bkt : forall p i, p ∈ ip_parts s -> (i < bucket_cnt_per_part s)%nat ->
    exists tl, ip_tails s !! (p, i) = Some tl /\
      bucket_rep (ip_mem s) tl (p, i) (N (p, i)) (C (p, i));
  rep_out : forall b, b.1 ∉ ip_parts s \/ (bucket_cnt_per_part s <= b.2)%nat ->
    N b = [] /\ C b = [];
  rep_disj : forall b b' n, n ∈ N b -> n ∈ N b' -> b = b' }.

Lemma holds_ext mem mem' a x : mem' !! a = mem !! a -> holds mem a x -> holds mem' a x.
Proof. intros Heq (it & ? & ?). exists it. by rewrite Heq. Qed.

Lemma bucket_rep_frame mem mem' tl b ns ls :
  (forall a, a ∈ cells b ns -> mem' !! a = mem !! a) ->
  bucket_rep mem tl b ns ls -> bucket_rep mem' tl b ns ls.
Proof.
  intros Heq [(-> & -> & Htl & h & Hh & ?)|(Hd & Hnd & Hl & ->)].
  - left. split_and!; try done. exists h. rewrite Heq by left. done.
  - right. split_and!; [by eapply dseg_ext|done| |done].
    eapply Forall2_impl_in; [done|]. intros a x Ha. apply holds_ext, Heq, Ha.
Qed.

Lemma fresh_node_spec mem : exists n, fresh_node mem = inr n /\ mem !! (inr n : addr) = None.
Proof.
  unfold fresh_node. eexists. split; [done|]. apply not_elem_of_dom. intros Hin.
  match type of Hin with context [fresh ?l] => apply (infinite_is_fresh l) end.
  apply list_elem_of_omap. eexists. split; [by apply elem_of_elements|done].
Qed.

(** *** Pointer updates on a chain *)

#[local] Arguments it_set_prev : simpl never.
#[local] Arguments it_set_next : simpl never.

Lemma it_set_prev_eq mem a it q : mem !! a = Some it ->
  it_set_prev (Some a) q mem = Some (<[a := mkItemid (it_location it) (it_next it) q
    (it_type it) (it_valid it)]> mem).
Proof. unfold it_set_prev. by intros ->. Qed.

Lemma it_set_prev_seg mem p l a q p' :
  NoDup (a :: l) -> dseg it_next it_prev mem p (a :: l) q ->
  exists mem', it_set_prev (Some a) p' mem = Some mem' /\
    dseg it_next it_prev mem' p' (a :: l) q /\
    (forall b, b <> a -> mem' !! b = mem !! b) /\
    (forall b x, holds mem b x -> holds mem' b x).
Proof.
  intros [Hna _]%NoDup_cons [(n & Hn & Hp & Hq) Hl].
  unfold it_set_prev. rewrite Hn. eexists. split; [done|]. split; [|split].
  - split; [|by apply dseg_insert]. eexists. by rewrite lookup_insert_eq.
  - intros b Hb. by rewrite lookup_insert_ne.
  - intros b x (it & Hit & ? & ?). destruct (decide (b = a)) as [->|Hne].
    + eexists. rewrite lookup_insert_eq. split; [done|]. simplify_eq/=. done.
    + eexists. by rewrite lookup_insert_ne.
Qed.

Lemma it_set_next_seg mem p l a q q' :
  NoDup (l ++ [a]) -> dseg it_next it_prev mem p (l ++ [a]) q ->
  exists mem', it_set_next (Some a) q' mem = Some mem' /\
    dseg it_next it_prev mem' p (l ++ [a]) q' /\
    (forall b, b <> a -> mem' !! b = mem !! b) /\
    (forall b x, holds mem b x -> holds mem' b x).
Proof.
  intros (_ & Hna & _)%NoDup_app [Hl [(n & Hn & Hp & Hq) _]]%dseg_app.
  unfold it_set_next. rewrite Hn. eexists. split; [done|]. split_and!.
  - apply dseg_app. simpl. split.
    + apply dseg_insert; [|done]. intros Ha. apply (Hna a Ha). by left.
    + split; [|done]. eexists. by rewrite lookup_insert_eq.
  - intros b Hb. by rewrite lookup_insert_ne.
  - intros b x (it & Hit & ? & ?). destruct (decide (b = a)) as [->|Hne].
    + eexists. rewrite lookup_insert_eq. split; [done|]. simplify_eq/=. done.
    + eexists. by rewrite lookup_insert_ne.
Qed.

Lemma inr_map (ns : list nat) (n : nat) : (inr n : addr) ∈ (map inr ns : list addr) <-> n ∈ ns.
Proof.
  rewrite !list_elem_of_In, in_map_iff. split; [by intros (m & [= ->] & ?)|eauto].
Qed.

Lemma inl_map (ns : list nat) (b : bkt) : (inl b : addr) ∉ (map inr ns : list addr).
Proof. rewrite list_elem_of_In, in_map_iff. by intros (m & ? & _). Qed.

Lemma inr_NoDup (ns : list nat) : NoDup ns -> NoDup (map inr ns : list addr).
Proof.
  intros Hnd. exact (NoDup_fmap_2 (inr : nat -> addr) ns Hnd).
Qed.

Lemma cells_NoDup b ns : NoDup ns -> NoDup (cells b ns).
Proof. intros Hnd. apply NoDup_cons. split; [apply inl_map|by apply inr_NoDup]. Qed.

Lemma inr_cells b ns (n : nat) : (inr n : addr) ∈ cells b ns <-> n ∈ ns.
Proof. unfold cells. rewrite elem_of_cons, inr_map. naive_solver. Qed.

Lemma inl_cells b b' ns : (inl b' : addr) ∈ cells b ns <-> b' = b.
Proof.
  unfold cells. rewrite elem_of_cons. split; [|intros ->; by left].
  intros [[= ->]|Hin]; [done|]. by apply inl_map in Hin.
Qed.

(** *** Insertion *)

(** The item of a caller: one row, linked to nothing. *)
Definition single (item : itemid_t) : Prop :=
  it_valid item = true /\ it_next item = None /\ it_prev item = None.

Lemma bucket_insert_rep s b ns ls tl item nc :
  bucket_rep (ip_mem s) tl b ns ls -> ip_tails s !! b = Some tl ->
  single item -> (ls <> [] -> nc = false) ->
  exists mem' tl' tls ns', bucket_insert b item nc s = Some (with_mem s mem' tls) /\
    tls !! b = Some tl' /\ (forall b', b' <> b -> tls !! b' = ip_tails s !! b') /\
    bucket_rep mem' tl' b ns' (it_location item :: ls) /\
    (forall n, n ∈ ns' -> n ∈ ns \/ ip_mem s !! (inr n : addr) = None) /\
    (forall a, ip_mem s !! a <> None -> a ∉ cells b ns -> mem' !! a = ip_mem s !! a).
Proof.
  intros Hrep Htl (Hv & Hn & Hp) Hnc. unfold bucket_insert.
  destruct Hrep as [(-> & -> & _ & h & Hh & Hhv & _)|(Hd & Hnd & Hl & ->)].
  - (* into an empty bucket *)
    rewrite Hh, Hhv. eexists _, (Some (inl b)), _, []. split; [done|].
    rewrite lookup_insert_eq. split_and!; [done| | | |].
    + intros b' Hne. by rewrite lookup_insert_ne.
    + right. split_and!; [|constructor| |done].
      * simpl. split; [|done]. eexists. by rewrite lookup_insert_eq.
      * repeat constructor. eexists. by rewrite lookup_insert_eq.
    + intros n ?%not_elem_of_nil. done.
    + intros a _ Ha. rewrite lookup_insert_ne; [done|]. intros <-. apply Ha. by left.
  - (* in front of a chain *)
    set (mem := ip_mem s) in *. pose proof Hl as Hl0.
    destruct ls as [|x ls]; [by inversion Hl|].
    apply Forall2_cons in Hl as [(h & Hh & Hx & Hhv) Hl].
    destruct Hd as [(h' & Hh' & Hprev & Hnext) Hd]. assert (h' = h) as -> by congruence.
    change (ip_mem s) with mem. rewrite Hh, Hhv. rewrite Hnc by done. simpl.
    destruct (fresh_node_spec mem) as (nn & Hnn & Hfresh). rewrite Hnn.
    assert (nn ∉ ns) as Hnew.
    { intros Hin. assert (is_Some (mem !! (inr nn : addr))) as [? ?]; [|congruence].
      eapply dseg_live; [exact Hd|]. by apply inr_map. }
    erewrite it_set_prev_eq by (rewrite lookup_insert_ne by done; apply lookup_insert_eq).
    rewrite lookup_insert_eq. simpl.
    set (mem3 := <[inr nn := _]> (<[inl b := _]> _)).
    assert (forall a, a <> inl b -> a <> inr nn -> mem3 !! a = mem !! a) as Hm3.
    { intros a H1 H2. unfold mem3. by rewrite !lookup_insert_ne. }
    assert (mem3 !! inl b = Some (mkItemid (it_location item) (Some (inr nn))
        (it_prev item) (it_type item) (it_valid item))) as Hm3h.
    { unfold mem3. by rewrite lookup_insert_ne, lookup_insert_eq. }
    assert (mem3 !! inr nn = Some (mkItemid (it_location h) (it_next h) (Some (inl b))
        (it_type h) (it_valid h))) as Hm3n.
    { unfold mem3. by rewrite lookup_insert_eq. }
    assert (dseg it_next it_prev mem3 (Some (inl b)) (map inr ns) None) as Hd3.
    { eapply dseg_ext; [|done]. intros a Ha. apply Hm3; intros ->.
      - by apply inl_map in Ha.
      - by apply Hnew, inr_map. }
    assert (forall a y, a ∈ map inr ns -> holds mem a y -> holds mem3 a y) as Hh3.
    { intros a y Ha. apply holds_ext, Hm3; intros ->.
      - by apply inl_map in Ha.
      - by apply Hnew, inr_map. }
    assert (exists mem4 tls, (match it_next h with
        | Some _ => do! mem <- it_set_prev (it_next h) (Some (inr nn)) mem3;;
                    Some (with_mem s mem (ip_tails s))
        | None => Some (with_mem s mem3 (<[b := Some (inr nn)]> (ip_tails s)))
        end) = Some (with_mem s mem4 tls) /\
      tls !! b = Some (last (cells b (nn :: ns))) /\
      (forall b', b' <> b -> tls !! b' = ip_tails s !! b') /\
      dseg it_next it_prev mem4 (Some (inr nn)) (map inr ns) None /\
      (forall a, a ∉ (map inr ns : list addr) -> mem4 !! a = mem3 !! a) /\
      (forall a y, holds mem3 a y -> holds mem4 a y)) as (mem4 & tls & -> & Ht & Ht' & Hd4 & Hf4 & Hh4).
    { rewrite Hnext. destruct ns as [|m ns]; simpl.
      - eexists _, _. split; [done|]. rewrite lookup_insert_eq. split_and!; try done.
        intros b' ?. by rewrite lookup_insert_ne.
      - assert (NoDup (inr m :: map inr ns : list addr)) as Hnd'.
        { by apply (inr_NoDup (m :: ns)). }
        destruct (it_set_prev_seg mem3 _ _ _ _ (Some (inr nn)) Hnd' Hd3)
          as (mem4 & -> & Hd4 & Hf4 & Hh4).
        eexists _, _. split; [done|]. split; [by rewrite Htl|]. split; [done|].
        split; [exact Hd4|]. split; [|done]. intros a Ha. apply Hf4. intros ->. apply Ha. by left. }
    eexists mem4, _, tls, (nn :: ns). split; [done|]. split; [done|]. split; [done|].
    pose proof (inl_map ns b) as Hb.
    assert ((inr nn : addr) ∉ (map inr ns : list addr)) as Hn'.
    { intros Ha%inr_map. done. }
    split_and!.
    + right. split_and!; [| |constructor; [|constructor]|done].
      * simpl. split; [|split; [|done]].
        -- eexists. rewrite Hf4, Hm3h by done. done.
        -- eexists. rewrite Hf4, Hm3n by done. done.
      * by constructor.
      * eexists. rewrite Hf4, Hm3h by done. done.
      * eexists. rewrite Hf4, Hm3n by done. done.
      * eapply Forall2_impl_in; [done|]. intros a y Ha Hy. by apply Hh4, Hh3.
    + intros n [->|?]%elem_of_cons; [by right|by left].
    + intros a Hne Ha. rewrite Hf4, Hm3; [done|..].
      * intros ->. apply Ha. by left.
      * intros ->. done.
      * intros Hin. apply Ha. by right.
Qed.

(** *** Deletion at the tail *)

Lemma bucket_delete_rep hawk s b ns ls item :
  bucket_rep (ip_mem s) (Some item) b ns ls -> ip_tails s !! b = Some (Some item) ->
  exists mem' tl' tls ns', bucket_delete hawk b item s = Some (with_mem s mem' tls) /\
    tls !! b = Some tl' /\ (forall b', b' <> b -> tls !! b' = ip_tails s !! b') /\
    bucket_rep mem' tl' b ns' (removelast ls) /\
    (forall n, n ∈ ns' -> n ∈ ns) /\
    (forall a, a ∉ cells b ns -> mem' !! a = ip_mem s !! a).
Proof.
  intros Hrep Htl. unfold bucket_delete.
  assert (forall h, item = inl b -> ip_mem s !! inl b = Some h -> it_next h = None ->
    it_prev h = None -> exists mem' tl' tls,
      (do! it <- ip_mem s !! item;;
       match it_prev it with
       | Some _ => None
       | None => match it_next it with
         | Some n => None
         | None => Some (with_mem s (<[item := itemid_init it]> (ip_mem s))
                           (<[b := Some item]> (ip_tails s)))
         end
       end) = Some (with_mem s mem' tls) /\
    tls !! b = Some tl' /\ (forall b', b' <> b -> tls !! b' = ip_tails s !! b') /\
    bucket_rep mem' tl' b [] [] /\
    (forall a, a ∉ cells b ns -> mem' !! a = ip_mem s !! a)) as Hempty.
  { intros h -> Hh Hnx Hpv. rewrite Hh, Hpv, Hnx. eexists _, (Some (inl b)), _.
    split; [done|]. rewrite lookup_insert_eq. split_and!; [done| | |].
    - intros b' ?. by rewrite lookup_insert_ne.
    - left. split_and!; [done|done|by right|]. eexists. by rewrite lookup_insert_eq.
    - intros a Ha. rewrite lookup_insert_ne; [done|]. intros <-. apply Ha. by left. }
  destruct Hrep as [(-> & -> & [?|[= ->]] & h & Hh & Hhv & Hnx & Hpv)|(Hd & Hnd & Hl & Hit)];
    [done| |].
  { destruct (Hempty h eq_refl Hh Hnx Hpv) as (mem' & tl' & tls & Heq & ? & ? & ? & ?).
    rewrite Hh, Hpv, Hnx in *. exists mem', tl', tls, []. split_and!; try done. }
  destruct ns as [|n ns _] using rev_ind.
  { simpl in Hit. injection Hit as ->. destruct Hd as [(h & Hh & Hpv & Hnx) _]. simpl in Hnx.
    destruct (Hempty h eq_refl Hh Hnx Hpv) as (mem' & tl' & tls & Heq & ? & ? & ? & ?).
    rewrite Hh, Hpv, Hnx in *. exists mem', tl', tls, [].
    apply Forall2_cons_inv_l in Hl as (x & ls' & _ & Hl & ->).
    apply Forall2_nil_inv_l in Hl as ->. split_and!; try done. }
  clear Hempty.
  assert (cells b (ns ++ [n]) = cells b ns ++ [inr n]) as Hcells.
  { unfold cells. by rewrite map_app. }
  assert (exists l a, cells b ns = l ++ [a]) as (l & a & Hla).
  { exists (removelast (cells b ns)), (List.last (cells b ns) (inl b)).
    by apply app_removelast_last. }
  assert (NoDup (l ++ [a])) as Hndl.
  { rewrite <- Hla. apply cells_NoDup. by apply NoDup_app in Hnd as [? _]. }
  assert ((inr n : addr) ∉ l ++ [a]) as Hnl.
  { rewrite <- Hla, inr_cells. apply NoDup_app in Hnd as (_ & Hd' & _).
    intros Hn. apply (Hd' n Hn). by left. }
  rewrite Hcells, Hla in Hd, Hl, Hit. rewrite last_snoc in Hit. injection Hit as ->.
  apply dseg_app in Hd as [Hd [(it & Hn & Hpv & Hnx) _]].
  rewrite last_or_snoc in Hpv. simpl in Hnx, Hd. rewrite Hn, Hpv, Hnx.
  destruct (it_set_next_seg _ _ _ _ _ None Hndl Hd) as (mem1 & -> & Hd1 & Hf1 & Hh1).
  apply Forall2_app_inv_l in Hl as (ls0 & ls1 & Hl & Hy & ->).
  apply Forall2_cons_inv_l in Hy as (y & ls' & _ & Hy & ->).
  apply Forall2_nil_inv_l in Hy as ->. rewrite removelast_last. simpl.
  set (mem2 := if hawk then mem1 else delete (inr n) mem1).
  assert (forall c, c <> inr n -> mem2 !! c = mem1 !! c) as Hf2.
  { intros c Hc. unfold mem2. destruct hawk; [done|]. by rewrite lookup_delete_ne. }
  exists mem2. eexists _, _, ns. split; [done|]. rewrite lookup_insert_eq. split_and!.
  - done.
  - intros b' ?. by rewrite lookup_insert_ne.
  - right. rewrite Hla, last_snoc. split_and!; [| |  |done].
    + eapply dseg_ext; [|done]. intros c Hc. apply Hf2. by intros ->.
    + by apply NoDup_app in Hnd as [? _].
    + eapply Forall2_impl_in; [done|]. intros c x Hc Hx.
      apply (holds_ext mem1); [|by apply Hh1]. apply Hf2. by intros ->.
  - intros m Hm. apply elem_of_app. by left.
  - intros c Hc. rewrite Hcells, Hla in Hc. rewrite Hf2 by (intros ->; apply Hc; set_solver).
    apply Hf1. intros ->. apply Hc. set_solver.
Qed.

(** *** The whole index *)

Lemma alloc_cells_lookup p n mem a :
  alloc_cells p n mem !! a =
  match a with
  | inl (q, i) => if decide (q = p /\ (i < n)%nat) then Some new_cell else mem !! a
  | inr _ => mem !! a
  end.
Proof.
  induction n as [|n IH]; simpl.
  - destruct a as [[q i]|?]; [|done]. destruct (decide _) as [[_ ?]|]; [lia|done].
  - destruct (decide (a = inl (p, n))) as [->|Hne].
    + rewrite lookup_insert_eq, decide_True by lia. done.
    + rewrite lookup_insert_ne, IH by done. destruct a as [[q i]|?]; [|done].
      destruct (decide (q = p /\ (i < n)%nat)) as [[-> ?]|Hn].
      * rewrite decide_True by lia. done.
      * rewrite decide_False; [done|]. intros [-> ?]. apply Hn. split; [done|].
        assert (i <> n) by congruence. lia.
Qed.

Lemma alloc_tails_lookup p n tl q i :
  alloc_tails p n tl !! (q, i) =
  if decide (q = p /\ (i < n)%nat) then Some None else tl !! (q, i).
Proof.
  induction n as [|n IH]; simpl.
  - destruct (decide _) as [[_ ?]|]; [lia|done].
  - destruct (decide ((q, i) = (p, n))) as [[= -> ->]|Hne].
    + rewrite lookup_insert_eq, decide_True by lia. done.
    + rewrite lookup_insert_ne, IH by done.
      destruct (decide (q = p /\ (i < n)%nat)) as [[-> ?]|Hn].
      * rewrite decide_True by lia. done.
      * rewrite decide_False; [done|]. intros [-> ?]. apply Hn. split; [done|].
        assert (i <> n) by congruence. lia.
Qed.

Lemma ensure_part_rep p s N C : rep s N C ->
  rep (ensure_part p s) N C /\ p ∈ ip_parts (ensure_part p s) /\
  bucket_cnt_per_part (ensure_part p s) = bucket_cnt_per_part s /\
  part_cnt (ensure_part p s) = part_cnt s.
Proof.
  intros [Hpos Hb Hout Hdisj]. unfold ensure_part.
  destruct (decide (p ∈ ip_parts s)) as [Hp|Hp]; [done|].
  split; [|simpl; set_solver]. constructor; simpl; [done| | |done].
  - intros q i Hq Hi. rewrite alloc_tails_lookup.
    destruct (decide (q = p /\ (i < bucket_cnt_per_part s)%nat)) as [[-> _]|Hne].
    + eexists. split; [done|]. destruct (Hout (p, i)) as [-> ->]; [by left|].
      left. split_and!; [done|done|by left|]. exists new_cell.
      rewrite alloc_cells_lookup, decide_True by done. done.
    + destruct (Hb q i) as (tl & ? & Hrep); [set_solver|done|]. exists tl. split; [done|].
      eapply bucket_rep_frame; [|done]. intros a Ha. rewrite alloc_cells_lookup.
      destruct a as [[q' i']|m]; [|done]. apply inl_cells in Ha. simplify_eq.
      by rewrite decide_False.
  - intros b Hbo. apply Hout. set_solver.
Qed.

Lemma hash_lt s key : (0 < bucket_cnt_per_part s)%nat -> (hash s key < bucket_cnt_per_part s)%nat.
Proof.
  intros Hpos. unfold hash.
  pose proof (Z.mod_pos_bound key (Z.of_nat (bucket_cnt_per_part s))). lia.
Qed.

(** Replacing one bucket: its nodes are old ones or unused ones. *)
Lemma rep_update s N C b mem' tl' tls ns' ls' :
  rep s N C -> b.1 ∈ ip_parts s -> (b.2 < bucket_cnt_per_part s)%nat ->
  tls !! b = Some tl' -> (forall b', b' <> b -> tls !! b' = ip_tails s !! b') ->
  bucket_rep mem' tl' b ns' ls' ->
  (forall n, n ∈ ns' -> n ∈ N b \/ ip_mem s !! (inr n : addr) = None) ->
  (forall a, ip_mem s !! a <> None -> a ∉ cells b (N b) -> mem' !! a = ip_mem s !! a) ->
  rep (with_mem s mem' tls) (<[b := ns']> N) (<[b := ls']> C).
Proof.
  intros [Hpos Hb Hout Hdisj] Hp Hi Htl Htl' Hrep Hns Hmem.
  assert (forall b' n, n ∈ N b' -> ip_mem s !! (inr n : addr) <> None) as Hlive.
  { intros b' n Hn. destruct (decide (b'.1 ∈ ip_parts s)) as [Hp'|Hp'].
    2: { destruct (Hout b') as [Hx _]; [by left|]. rewrite Hx in Hn. by apply not_elem_of_nil in Hn. }
    destruct (Nat.lt_ge_cases b'.2 (bucket_cnt_per_part s)) as [Hi'|Hi'].
    2: { destruct (Hout b') as [Hx _]; [by right|]. rewrite Hx in Hn. by apply not_elem_of_nil in Hn. }
    destruct b' as [p' i']. destruct (Hb p' i' Hp' Hi') as (tl & _ & [(Hx & _)|(Hd & _)]).
    - rewrite Hx in Hn. by apply not_elem_of_nil in Hn.
    - eapply not_eq_None_Some, dseg_live; [exact Hd|]. by apply inr_cells. }
  constructor; simpl; [done| | |].
  - intros p i Hp' Hi'. destruct (decide ((p, i) = b)) as [<-|Hne].
    + exists tl'. rewrite !fn_lookup_insert. done.
    + rewrite !fn_lookup_insert_ne by done. destruct (Hb p i Hp' Hi') as (tl & Ht & Hr).
      exists tl. rewrite Htl' by done. split; [done|].
      eapply bucket_rep_frame; [|done]. intros a Ha. apply Hmem.
      * destruct a as [b'|n].
        -- apply inl_cells in Ha as ->. destruct Hr as [(_ & _ & _ & h & -> & _)|(Hd & _)]; [done|].
           eapply not_eq_None_Some, dseg_live; [exact Hd|]. by apply inl_cells.
        -- apply inr_cells in Ha. eauto.
      * destruct a as [b'|n].
        -- apply inl_cells in Ha as ->. by rewrite inl_cells.
        -- apply inr_cells in Ha. rewrite inr_cells. intros Hn. apply Hne. eauto.
  - intros b' Hb'. rewrite !fn_lookup_insert_ne; [by apply Hout|..]; intros ->;
      destruct Hb' as [?|?]; [done|lia|done|lia].
  - assert (forall b' n, b' <> b -> n ∈ ns' -> n ∈ N b' -> False) as Hno.
    { intros b' n Hne Hn Hn'. destruct (Hns n Hn) as [?|Hf]; [by apply Hne; eauto|].
      by apply (Hlive b' n). }
    intros b1 b2 n. destruct (decide (b1 = b)) as [->|H1], (decide (b2 = b)) as [->|H2];
      [done|..]; rewrite ?fn_lookup_insert, ?fn_lookup_insert_ne by done; intros; [..|eauto];
      exfalso; eapply Hno; eauto.
Qed.

Lemma index_insert_rep s N C key item part nc :
  rep s N C -> (part < part_cnt s)%nat -> single item ->
  (C (part, hash s key) <> [] -> nc = false) ->
  exists s' N', index_insert key item part nc s = Some (RCOK, s') /\
    rep s' N' (<[(part, hash s key) := it_location item :: C (part, hash s key)]> C) /\
    bucket_cnt_per_part s' = bucket_cnt_per_part s /\ part_cnt s' = part_cnt s.
Proof.
  intros Hrep Hpart Hitem Hnc. unfold index_insert.
  pose proof (hash_lt s key (rep_pos _ _ _ Hrep)) as Hlt.
  rewrite !c_assert_true by (by apply Nat.ltb_lt).
  destruct (ensure_part_rep part s N C Hrep) as (Hrep1 & Hp1 & Hcnt & Hpc).
  rewrite <- Hcnt in Hlt.
  destruct (rep_bkt _ _ _ Hrep1 part _ Hp1 Hlt) as (tl & Htl & Hbr).
  destruct (bucket_insert_rep _ _ _ _ _ item nc Hbr Htl Hitem Hnc)
    as (mem' & tl' & tls & ns' & -> & Ht' & Hoth & Hbr' & Hns & Hmem).
  eexists _, _. split; [done|]. split; [by eapply rep_update|]. done.
Qed.

Lemma index_delete_safe_rep hawk s N C key part tl :
  rep s N C -> part ∈ ip_parts s -> ip_tails s !! (part, hash s key) = Some (Some tl) ->
  exists s' N', index_delete_safe hawk key part s = Some (RCOK, s') /\
    rep s' N' (<[(part, hash s key) := removelast (C (part, hash s key))]> C) /\
    bucket_cnt_per_part s' = bucket_cnt_per_part s /\ part_cnt s' = part_cnt s /\
    ip_parts s' = ip_parts s.
Proof.
  intros Hrep Hp Htl. unfold index_delete_safe. rewrite Htl.
  pose proof (hash_lt s key (rep_pos _ _ _ Hrep)) as Hlt.
  destruct (rep_bkt _ _ _ Hrep part _ Hp Hlt) as (tl0 & Htl0 & Hbr). simplify_eq.
  destruct (bucket_delete_rep hawk _ _ _ _ _ Hbr Htl)
    as (mem' & tl' & tls & ns' & -> & Ht' & Hoth & Hbr' & Hns & Hmem).
  eexists _, _. split; [done|]. split; [|done].
  eapply rep_update; try done; [intros n ?; left; auto|intros a _ ?; auto].
Qed.

(** A bucket with an item has been allocated, and its tail is set. *)
Lemma rep_nonempty s N C part i : rep s N C -> C (part, i) <> [] ->
  part ∈ ip_parts s /\ (i < bucket_cnt_per_part s)%nat /\
  dseg it_next it_prev (ip_mem s) None (cells (part, i) (N (part, i))) None /\
  Forall2 (holds (ip_mem s)) (cells (part, i) (N (part, i))) (C (part, i)) /\
  ip_tails s !! (part, i) = Some (last (cells (part, i) (N (part, i)))).
Proof.
  intros Hrep Hne. destruct (decide (part ∈ ip_parts s)) as [Hp|Hp].
  2: { destruct (rep_out _ _ _ Hrep (part, i)) as [_ ?]; [by left|]. done. }
  destruct (Nat.lt_ge_cases i (bucket_cnt_per_part s)) as [Hi|Hi].
  2: { destruct (rep_out _ _ _ Hrep (part, i)) as [_ ?]; [by right|]. done. }
  destruct (rep_bkt _ _ _ Hrep part i Hp Hi) as (tl & Htl & [(_ & ? & _)|(? & _ & ? & ->)]);
    [done|]. done.
Qed.

Lemma index_read_front s N C key part x ls :
  rep s N C -> (part < part_cnt s)%nat -> C (part, hash s key) = x :: ls ->
  exists it, index_read key part false s = Some (RCOK, Some (inl (part, hash s key))) /\
    ip_mem s !! inl (part, hash s key) = Some it /\ it_location it = x /\
    index_read_safe key part false s = Some (RCOK, Some it).
Proof.
  intros Hrep Hpart HC.
  destruct (rep_nonempty s N C part (hash s key) Hrep) as (Hp & Hlt & _ & Hl & _); [by rewrite HC|].
  rewrite HC in Hl. apply Forall2_cons in Hl as [(it & Hit & Hx & Hv) _].
  unfold index_read, index_read_safe.
  rewrite !c_assert_true by (by apply Nat.ltb_lt). simpl. rewrite !decide_True by done.
  exists it. by rewrite Hit, Hv.
Qed.

Lemma index_read_back s N C key part x ls :
  rep s N C -> (part < part_cnt s)%nat -> C (part, hash s key) = ls ++ [x] ->
  exists a it, index_read key part true s = Some (RCOK, Some a) /\
    ip_mem s !! a = Some it /\ it_location it = x /\
    index_read_safe key part true s = Some (RCOK, Some it).
Proof.
  intros Hrep Hpart HC.
  destruct (rep_nonempty s N C part (hash s key) Hrep) as (Hp & Hlt & _ & Hl & Ht).
  { rewrite HC. by destruct ls. }
  rewrite HC in Hl. apply Forall2_app_inv_r in Hl as (as1 & as2 & _ & Hl & Hc).
  apply Forall2_cons_inv_r in Hl as (a & as3 & (it & Hit & Hx & Hv) & Hl & ->).
  apply Forall2_nil_inv_r in Hl as ->. rewrite Hc, last_snoc in Ht.
  unfold index_read, index_read_safe.
  rewrite !c_assert_true by (by apply Nat.ltb_lt). simpl. rewrite !decide_True by done.
  exists a, it. by rewrite Ht, Hit, Hv.
Qed.

(** ** The interface of the clients *)

(** [workload::index_insert] (src/system/wl.cpp): [m_item] is initialised, filled,
    inserted, and [assert(rc_value == RCOK)]. *)
Definition row_item (row : nat) : itemid_t := mkItemid row None None DT_row true.
Definition workload_insert (key : Z) (row part_id : nat) (no_collision : bool)
    (s : IndexHashPerfect) : option IndexHashPerfect :=
  do! r <- index_insert key (row_item row) part_id no_collision s;;
  assert! bool_decide (fst r = RCOK);;
  Some (snd r).

(** [index_read] and the location of the item. *)
Definition first_row (key : Z) (part_id : nat) (s : IndexHashPerfect)
    : option (option nat) :=
  do! r <- index_read key part_id false s;;
  match snd r with
  | None => Some None
  | Some a => do! it <- ip_mem s !! a;; Some (Some (it_location it))
  end.

#[export] Instance perfect_ops : IndexOps IndexHashPerfect :=
  { ix_insert := workload_insert; ix_first := first_row }.

#[export, refine] Instance perfect_laws : IndexLaws IndexHashPerfect := {
  ix_rep s C := exists N C0, rep s N C0 /\ forall p i, C (p, Z.of_nat i) = C0 (p, i);
  ix_slot s p k := (p, Z.of_nat (hash s k));
  ix_part s p := (p < part_cnt s)%nat }.
Proof.
  - intros s C key row part nc (N & C0 & Hrep & HC) Hp Hnc. simpl. unfold workload_insert.
    rewrite HC in *.
    destruct (index_insert_rep s N C0 key (row_item row) part nc Hrep Hp) as
      (s' & N' & -> & Hrep' & Hcnt & Hpc); [done..|].
    simpl. eexists. split; [done|]. split_and!.
    + exists N', (<[(part, hash s key) := row :: C0 (part, hash s key)]> C0). split; [done|].
      intros p i. destruct (decide ((p, i) = (part, hash s key))) as [[= -> ->]|Hne].
      * by rewrite !fn_lookup_insert.
      * rewrite !fn_lookup_insert_ne; [apply HC|congruence|].
        intros [= -> Hh%Nat2Z.inj]. congruence.
    + intros p k. unfold hash. by rewrite Hcnt.
    + intros p. by rewrite Hpc.
  - intros s C key part row ls (N & C0 & Hrep & HC) Hp Hls. rewrite HC in Hls. simpl.
    destruct (index_read_front s N C0 key part row ls Hrep Hp Hls) as (it & Hr & Hit & <- & _).
    unfold first_row. rewrite Hr. simpl. by rewrite Hit.
Defined.

(** ** Properties *)

(** C33. A bucket of the perfect hash index is a queue: an insertion (which may
    allocate the partition) puts the row at the front, [index_delete_safe]
    removes the last one whatever its arguments are, no other bucket changes,
    no assertion fails and no null or dangling pointer is followed, as long as
    a collision is announced. *)
Theorem index_perfect_queue hawk s N C key item part nc :
  rep s N C -> (part < part_cnt s)%nat -> single item ->
  (C (part, hash s key) <> [] -> nc = false) ->
  (exists s' N', index_insert key item part nc s = Some (RCOK, s') /\
     rep s' N' (<[(part, hash s key) := it_location item :: C (part, hash s key)]> C)) /\
  (C (part, hash s key) <> [] ->
   exists s' N', index_delete_safe hawk key part s = Some (RCOK, s') /\
     rep s' N' (<[(part, hash s key) := removelast (C (part, hash s key))]> C)).
Proof.
  intros Hrep Hp Hitem Hnc. split.
  - destruct (index_insert_rep s N C key item part nc Hrep Hp Hitem Hnc)
      as (s' & N' & ? & ? & _). eauto.
  - intros Hne. destruct (rep_nonempty _ _ _ _ _ Hrep Hne) as (Hpt & _ & _ & _ & Ht).
    destruct (last (cells _ _)) as [tl|] eqn:Hl.
    + destruct (index_delete_safe_rep hawk s N C key part tl Hrep Hpt Ht)
        as (s' & N' & ? & ? & _). eauto.
    + apply last_None in Hl. done.
Qed.

(** Reading the perfect hash index: from the front the newest row of the
    bucket, from the back the oldest one, by pointer and by copy; an empty
    bucket gives [NULL] and [ERROR] from the front. *)
Theorem index_perfect_read s N C key part :
  rep s N C -> (part < part_cnt s)%nat ->
  (forall x ls, C (part, hash s key) = x :: ls ->
     first_row key part s = Some (Some x) /\
     exists it, index_read_safe key part false s = Some (RCOK, Some it) /\
       it_location it = x) /\
  (forall x ls, C (part, hash s key) = ls ++ [x] ->
     exists a it, index_read key part true s = Some (RCOK, Some a) /\
       ip_mem s !! a = Some it /\ it_location it = x /\
       index_read_safe key part true s = Some (RCOK, Some it)) /\
  (C (part, hash s key) = [] ->
     first_row key part s = Some None /\
     index_read_safe key part false s = Some (ERROR, None)).
Proof.
  intros Hrep Hp. split_and!.
  - intros x ls HC. destruct (index_read_front s N C key part x ls Hrep Hp HC)
      as (it & Hr & Hit & Hx & Hs). unfold first_row. rewrite Hr. simpl. rewrite Hit.
    subst x. eauto.
  - intros x ls HC. exact (index_read_back s N C key part x ls Hrep Hp HC).
  - intros HC. unfold first_row, index_read, index_read_safe.
    pose proof (hash_lt s key (rep_pos _ _ _ Hrep)) as Hlt.
    rewrite !c_assert_true by (by apply Nat.ltb_lt). simpl.
    destruct (decide (part ∈ ip_parts s)) as [Hpt|]; [|done].
    destruct (rep_bkt _ _ _ Hrep part _ Hpt Hlt)
      as (tl & Htl & [(_ & _ & _ & h & -> & -> & _)|(_ & _ & Hl & _)]); [done|].
    rewrite HC in Hl. by inversion Hl.
Qed.

(** [index_delete] of the first item of a chain breaks the chain: the item
    behind it is copied into the head with its [prev] pointer, which is the
    head itself. After two insertions and the deletion of the head the head's
    [prev] is the head, and a second deletion of the head unlinks nothing. *)
Theorem index_delete_head_corrupts :
  let head := inl (0, 0)%nat : addr in
  (do! s <- workload_insert 0 11 0 false (IndexHashPerfect_init 2 1);;
   do! s <- workload_insert 0 12 0 false s;;
   do! r1 <- index_delete false 0 head 0 s;;
   do! it <- ip_mem (snd r1) !! head;;
   do! r2 <- index_delete true 0 head 0 (snd r1);;
   do! row <- first_row 0 0 (snd r2);;
   Some (it_location it, it_prev it, row)) = Some (11%nat, Some head, Some 11%nat).
Proof. vm_compute. reflexivity. Qed.

Lemma init_rep bc pc : (0 < bc / pc)%nat ->
  rep (IndexHashPerfect_init bc pc) (fun _ => []) (fun _ => []).
Proof.
  intros Hpos. constructor; simpl; [done| |done|].
  - intros p i Hp. by apply not_elem_of_empty in Hp.
  - intros b b' n Hn. by apply not_elem_of_nil in Hn.
Qed.

Lemma index_perfect_queue_witness :
  exists s' N', index_insert 7 (row_item 5) 0 true (IndexHashPerfect_init 4 2) = Some (RCOK, s') /\
    rep s' N' (<[(0, 1)%nat := [5%nat]]> (fun _ => [])).
Proof.
  apply (index_perfect_queue false (IndexHashPerfect_init 4 2) (fun _ => []) (fun _ => []) 7
           (row_item 5) 0 true).
  - apply init_rep. vm_compute. lia.
  - vm_compute. lia.
  - split_and!; reflexivity.
  - intros Hne. destruct (Hne eq_refl).
Defined.

Lemma index_perfect_read_witness :
  first_row 7 0 (IndexHashPerfect_init 4 2) = Some None /\
  index_read_safe 7 0 false (IndexHashPerfect_init 4 2) = Some (ERROR, None).
Proof.
  apply (index_perfect_read (IndexHashPerfect_init 4 2) (fun _ => []) (fun _ => []) 7 0).
  - apply init_rep. vm_compute. lia.
  - vm_compute. lia.
  - reflexivity.
Defined.

(** The interface's theorem at this implementation. *)
Definition example_entries : list entry := [(3, 33%nat, 0%nat); (8, 88%nat, 1%nat); (5, 55%nat, 0%nat)].

Lemma load_index_reads_back_witness :
  exists s', load true example_entries (IndexHashPerfect_init 16 2) = Some s' /\
    ix_first 5 0 s' = Some (Some 55%nat).
Proof.
  destruct (load true example_entries (IndexHashPerfect_init 16 2)) as [s'|] eqn:Hl;
    [|exfalso; revert Hl; vm_compute; discriminate].
  exists s'. split; [reflexivity|].
  apply (load_index_reads_back example_entries (IndexHashPerfect_init 16 2) s' 5 55 0).
  - exists (fun _ => []), (fun _ => []). split; [|done]. apply init_rep. vm_compute. lia.
  - repeat constructor.
  - apply (bool_decide_unpack _). vm_compute. exact I.
  - right. right. left.
  - exact Hl.
Defined.
