(* ===== verification/IndexInit.v ===== *)
(** * The first insertions into a partition of the perfect hash index

    [index_insert_safe] of src/storage/index_hash_perfect.h when several threads insert into a
    partition whose arrays have not been allocated: who allocates them, who waits, and who
    does not. What an insertion does to its bucket is in IndexPerfect.v. *)

From stdpp Require Import functions.
From S2P Require Import Prelude.

(** The array of latches that thread [t] allocates has the name [t]. [Init k]: in the loop that initialises the
    cells. [Lose]: the compare-and-swap has failed; [Head]: after the block of line 145.
    [Failed]: the partition has no array of buckets; [Garbage]: the bucket has not been initialised. *)
Inductive pc :=
  | Start
  | Alloc
  | Cas
  | Buckets
  | Tails
  | Init (k : nat)
  | Lose
  | Acquire
  | Unlock
  | Head
  | Latch
  | Insert
  | Unlatch
  | Done
  | Failed
  | Garbage.

Section index_init.
(** [SCOPED_LATCH], [_bucket_cnt_per_part], and the bucket of the key of each thread. *)
Context (scoped : bool) (n : nat) (bkt_idx : nat -> nat).

(** [safe] is ghost state: the thread found [_latch] null, or the arrays initialised. *)
Record thread := mkThread { at_pc : pc; safe : bool }.

(** [latch]: [_latch[part_id]]; [cells]: [_buckets[part_id]] with the number of cells
    that are initialised; [owner]: who holds latch [i] of array [a]; [inserted]: the insertions. *)
Record state := mkState {
  latch : option nat;
  cells : option nat;
  tails : bool;
  owner : nat * nat -> option nat;
  inserted : list nat;
  threads : nat -> thread }.

Definition enter (t : nat) (p : pc) (b : bool) (s : state) : state :=
  mkState (latch s) (cells s) (tails s) (owner s) (inserted s) (<[t := mkThread p b]> (threads s)).
Definition goto (t : nat) (p : pc) (s : state) : state := enter t p (safe (threads s t)) s.
Definition set_owner (a : nat * nat) (o : option nat) (s : state) : state :=
  mkState (latch s) (cells s) (tails s) (<[a := o]> (owner s)) (inserted s) (threads s).
Definition publish_latch (o : option nat) (s : state) : state :=
  mkState o (cells s) (tails s) (owner s) (inserted s) (threads s).
Definition set_cells (c : option nat) (s : state) : state :=
  mkState (latch s) c (tails s) (owner s) (inserted s) (threads s).
Definition set_tails (s : state) : state :=
  mkState (latch s) (cells s) true (owner s) (inserted s) (threads s).
Definition log_insert (t : nat) (s : state) : state :=
  mkState (latch s) (cells s) (tails s) (owner s) (inserted s ++ [t]) (threads s).
Definition initialised (s : state) : bool :=
  match cells s with Some k => (n <=? k)%nat && tails s | None => false end.

(** The next step of thread [t]; [None]: it waits for a latch, or has ended. *)
Definition step (t : nat) (s : state) : option state :=
  match at_pc (threads s t) with
  | Start =>
      match latch s with
      | None => Some (enter t Alloc true s)
      | Some _ => Some (enter t Head (initialised s) s)
      end
  | Alloc => Some (goto t Cas (set_owner (t, 0%nat) (Some t) s))
  | Cas =>
      match latch s with
      | None => Some (goto t Buckets (publish_latch (Some t) s))
      | Some _ => Some (goto t Lose s)
      end
  | Buckets => Some (goto t Tails (set_cells (Some 0%nat) s))
  | Tails => Some (goto t (Init 0) (set_tails s))
  | Init k =>
      if (k <? n)%nat then Some (goto t (Init (S k)) (set_cells (Some (S k)) s)) else Some (goto t Unlock s)
  | Lose =>
      (* [delete[] latch], and [lock.release()] of the scoped lock *)
      Some (goto t Acquire (if scoped then set_owner (t, 0%nat) None s else s))
  | Acquire =>
      do! a <- latch s;;
      match owner s (a, 0%nat) with
      | None => Some (goto t Unlock (set_owner (a, 0%nat) (Some t) s))
      | Some _ => None
      end
  | Unlock =>
      (* the scoped lock releases what it holds; else [bkt_latch] of line 149 is unlocked *)
      do! a <- latch s;;
      Some (goto t Head (set_owner (if scoped then (a, 0%nat) else (t, 0%nat)) None s))
  | Head => Some (goto t (match cells s with Some _ => Latch | None => Failed end) s)
  | Latch =>
      do! a <- latch s;;
      match owner s (a, bkt_idx t) with
      | None => Some (goto t Insert (set_owner (a, bkt_idx t) (Some t) s))
      | Some _ => None
      end
  | Insert =>
      Some (goto t (match cells s with Some k => if (bkt_idx t <? k)%nat then Unlatch else Garbage | None => Garbage end) (log_insert t s))
  | Unlatch =>
      do! a <- latch s;;
      Some (goto t Done (set_owner (a, bkt_idx t) None s))
  | Done | Failed | Garbage => None
  end.

Definition steps (s s' : state) : Prop := exists t, step t s = Some s'.

Fixpoint run (ts : list nat) (s : state) : option state :=
  match ts with
  | [] => Some s
  | t :: ts => do! s' <- step t s;; run ts s'
  end.

(** The partition has no arrays, and no thread has started. *)
Definition start : state := mkState None None false (fun _ => None) [] (fun _ => mkThread Start false).

(** ** The invariant *)

Context (Hbkt : forall t, (bkt_idx t < n)%nat) (Hscoped : scoped = true).

Notation pc_of s t := (at_pc (threads s t)).

Definition winning (p : pc) : bool := match p with Buckets | Tails | Init _ => true | _ => false end.
Definition early (p : pc) : bool := match p with Start | Alloc | Cas | Lose | Acquire => true | _ => false end.
Definition late (p : pc) : bool := match p with Unlock | Head | Latch | Insert | Unlatch | Done => true | _ => false end.

Definition failed (p : pc) : bool := match p with Failed | Garbage => true | _ => false end.
Definition slow (p : pc) : bool :=
  match p with Alloc | Cas | Buckets | Tails | Init _ | Lose | Acquire | Unlock => true | _ => false end.

(** The latch that thread [t] holds in array [a]. *)
Definition holding (s : state) (t : nat) (a i : nat) : Prop :=
  match pc_of s t with
  | Cas | Buckets | Tails | Init _ | Lose => a = t /\ i = 0%nat
  | Unlock => latch s = Some a /\ i = 0%nat
  | Insert | Unlatch | Garbage => latch s = Some a /\ i = bkt_idx t
  | _ => False
  end.

Definition winner_ok (s : state) (p : pc) : Prop :=
  match p with
  | Buckets => cells s = None /\ tails s = false
  | Tails => cells s = Some 0%nat /\ tails s = false
  | Init k => cells s = Some k /\ tails s = true
  | _ => True
  end.

Record inv (s : state) : Prop := {
  v_own : forall t a i, owner s (a, i) = Some t <-> holding s t a i;
  v_win : forall t, winning (pc_of s t) = true -> latch s = Some t /\ winner_ok s (pc_of s t);
  v_latch : forall a, latch s = Some a -> early (pc_of s a) = false /\ (winning (pc_of s a) = true \/ initialised s = true);
  v_none : latch s = None -> cells s = None /\ tails s = false /\ forall t, pc_of s t = Start \/ pc_of s t = Alloc \/ pc_of s t = Cas;
  v_safe : forall t, safe (threads s t) = true -> failed (pc_of s t) = false /\ (late (pc_of s t) = true -> initialised s = true);
  v_slow : forall t, slow (pc_of s t) = true -> safe (threads s t) = true }.

Lemma start_ok : inv start.
Proof using Type. split; cbn; try naive_solver. Qed.

Lemma holding_goto t p b s' s : threads s' = <[t := mkThread p b]> (threads s) -> latch s' = latch s ->
  forall t' a i, t' <> t -> holding s' t' a i <-> holding s t' a i.
Proof using Type. intros E El t' a i Hne. unfold holding. rewrite E, El, fn_lookup_insert_ne by done. done. Qed.

(** A step of thread [t] to [p] that leaves [_latch] as it is. *)
Lemma thread_step_inv s s' t p b : inv s -> threads s' = <[t := mkThread p b]> (threads s) -> latch s' = latch s ->
  (initialised s = true -> initialised s' = true) ->
  (forall t' a i, owner s' (a, i) = Some t' <-> if decide (t' = t) then holding s' t a i else holding s t' a i) ->
  (forall t', t' <> t -> winner_ok s' (pc_of s t') \/ winning (pc_of s t') = false) ->
  (winning p = true -> latch s = Some t /\ winner_ok s' p) ->
  (latch s = Some t -> early p = false /\ (winning p = true \/ initialised s' = true)) ->
  (latch s = None -> cells s' = None /\ tails s' = false /\ (p = Start \/ p = Alloc \/ p = Cas)) ->
  (b = true -> failed p = false /\ (late p = true -> initialised s' = true)) -> (slow p = true -> b = true) -> inv s'.
Proof using Type.
  intros I E El Hi Ho Hw Hwp Hl Hn Hs Hsl.
  assert (forall t', threads s' t' = if decide (t' = t) then mkThread p b else threads s t') as Et.
  { intros t'. rewrite E. case_decide; [subst; by rewrite fn_lookup_insert|by rewrite fn_lookup_insert_ne]. }
  split.
  - intros t' a i. rewrite Ho. case_decide; [by subst|]. symmetry. by eapply holding_goto.
  - intros t'. rewrite El, Et. case_decide as Hd; [subst; by apply Hwp|]. intros Hwin. destruct (v_win _ I t' Hwin).
    split; [done|]. destruct (Hw t' Hd); [done|congruence].
  - intros a. rewrite El, Et. case_decide; [subst; apply Hl|]. intros Ha. destruct (v_latch _ I a Ha) as [? [?|?]]; auto.
  - rewrite El. intros Hno. destruct (Hn Hno) as (? & ? & Hp). split_and!; try done. intros t'. rewrite Et. case_decide; [done|].
    by apply (v_none _ I Hno).
  - intros t'. rewrite Et. case_decide; [apply Hs|]. intros Hsf. destruct (v_safe _ I t' Hsf). auto.
  - intros t'. rewrite Et. case_decide; [apply Hsl|]. apply (v_slow _ I).
Qed.

(** A step that changes no owner, between program counters that hold the same. *)
Lemma owner_same s s' t p b : inv s -> threads s' = <[t := mkThread p b]> (threads s) -> latch s' = latch s -> owner s' = owner s ->
  (forall a i, holding s t a i <-> holding s' t a i) ->
  forall t' a i, owner s' (a, i) = Some t' <-> if decide (t' = t) then holding s' t a i else holding s t' a i.
Proof using Type. intros I E El Eo Hh t' a i. rewrite Eo, (v_own _ I). case_decide; [subst; apply Hh|done]. Qed.

(** A latch is taken, or released. *)
Lemma owner_take s s' t p b a0 i0 : inv s -> threads s' = <[t := mkThread p b]> (threads s) -> latch s' = latch s ->
  owner s' = <[(a0, i0) := Some t]> (owner s) -> (forall t', ~ holding s t' a0 i0) ->
  (forall a i, holding s' t a i <-> a = a0 /\ i = i0) -> (forall a i, ~ holding s t a i) ->
  forall t' a i, owner s' (a, i) = Some t' <-> if decide (t' = t) then holding s' t a i else holding s t' a i.
Proof using Type.
  intros I E El Eo Hfree Hh Hno t' a i. rewrite Eo. destruct (decide ((a, i) = (a0, i0))) as [[= -> ->]|Hne].
  - rewrite fn_lookup_insert. case_decide as Hd; [subst; rewrite Hh; naive_solver|]. split; [congruence|]. intros H. by apply Hfree in H.
  - rewrite fn_lookup_insert_ne by congruence. rewrite (v_own _ I). case_decide as Hd; [|done]. subst. rewrite Hh.
    split; [intros H; by apply Hno in H|intros [-> ->]; done].
Qed.

Lemma owner_release s s' t p b a0 i0 : inv s -> threads s' = <[t := mkThread p b]> (threads s) -> latch s' = latch s ->
  owner s' = <[(a0, i0) := None]> (owner s) -> (forall a i, holding s t a i <-> a = a0 /\ i = i0) -> (forall a i, ~ holding s' t a i) ->
  forall t' a i, owner s' (a, i) = Some t' <-> if decide (t' = t) then holding s' t a i else holding s t' a i.
Proof using Type.
  intros I E El Eo Hh Hno t' a i. rewrite Eo. destruct (decide ((a, i) = (a0, i0))) as [[= -> ->]|Hne].
  - rewrite fn_lookup_insert. split; [done|]. case_decide as Hd; [intros H; by apply Hno in H|]. intros H.
    assert (owner s (a0, i0) = Some t') as H1 by (by apply (v_own _ I)).
    assert (owner s (a0, i0) = Some t) as H2 by (apply (v_own _ I); by apply Hh). congruence.
  - rewrite fn_lookup_insert_ne by congruence. rewrite (v_own _ I). case_decide as Hd; [|done]. subst. rewrite Hh.
    split; [intros [-> ->]; done|intros H; by apply Hno in H].
Qed.

Lemma initialised_cells s s' : cells s' = cells s -> tails s' = tails s -> initialised s' = initialised s.
Proof using Type. unfold initialised. by intros -> ->. Qed.

Lemma winner_same s s' p : cells s' = cells s -> tails s' = tails s -> winner_ok s' p <-> winner_ok s p.
Proof using Type. unfold winner_ok. intros -> ->. by destruct p. Qed.

(** A step that leaves the arrays and [_latch] as they are. *)
Lemma plain_inv s s' t p b : inv s -> threads s' = <[t := mkThread p b]> (threads s) -> latch s' = latch s ->
  cells s' = cells s -> tails s' = tails s ->
  (forall t' a i, owner s' (a, i) = Some t' <-> if decide (t' = t) then holding s' t a i else holding s t' a i) ->
  winning p = false -> (latch s = Some t -> early p = false /\ initialised s = true) ->
  (latch s = None -> p = Start \/ p = Alloc \/ p = Cas) ->
  (b = true -> failed p = false /\ (late p = true -> initialised s = true)) -> (slow p = true -> b = true) -> inv s'.
Proof using Type.
  intros I E El Ec Et Ho Hw Hl Hn Hs Hsl. pose proof (initialised_cells s s' Ec Et) as Hi.
  apply (thread_step_inv s s' t p b I E El); rewrite ?Hi; try done.
  - intros t' _. destruct (winning (pc_of s t')) eqn:Hwt; [|by right]. left. apply (winner_same s s' _ Ec Et). by apply (v_win _ I).
  - by rewrite Hw.
  - intros H. destruct (Hl H). auto.
  - intros H. rewrite Ec, Et. destruct (v_none _ I H) as (? & ? & _). auto.
Qed.

(** A thread that has been in the block of line 145 and is past the compare-and-swap. *)
Lemma latch_mine s t : inv s -> latch s = Some t -> winning (pc_of s t) = false -> initialised s = true.
Proof using Type. intros I H Hw. destruct (v_latch _ I t H) as [_ [?|?]]; [congruence|done]. Qed.

Lemma latch_set s t : inv s -> pc_of s t <> Start -> pc_of s t <> Alloc -> pc_of s t <> Cas -> latch s <> None.
Proof using Type. intros I H1 H2 H3 H. destruct (v_none _ I H) as (_ & _ & Hp). destruct (Hp t) as [?|[?|?]]; done. Qed.

Lemma start_step s t : inv s -> pc_of s t = Start -> match latch s with
  | None => inv (enter t Alloc true s) | Some _ => inv (enter t Head (initialised s) s) end.
Proof using Type.
  intros I Hp. destruct (latch s) as [a|] eqn:Hl.
  - apply (plain_inv s _ t Head (initialised s)); try done.
    + apply (owner_same s _ t Head (initialised s) I); try done. intros a0 i. unfold holding. cbn. by rewrite Hp, fn_lookup_insert.
    + intros Hm. split; [done|]. apply (latch_mine s t I Hm). by rewrite Hp.
    + congruence.
  - apply (plain_inv s _ t Alloc true); try done.
    + apply (owner_same s _ t Alloc true I); try done. intros a0 i. unfold holding. cbn. by rewrite Hp, fn_lookup_insert.
    + congruence.
    + auto.
Qed.

Lemma alloc_step s t : inv s -> pc_of s t = Alloc -> inv (goto t Cas (set_owner (t, 0%nat) (Some t) s)).
Proof using Type.
  intros I Hp. assert (safe (threads s t) = true) as Hsf by (apply (v_slow _ I); by rewrite Hp).
  apply (plain_inv s _ t Cas (safe (threads s t))); try done.
  - apply (owner_take s _ t Cas (safe (threads s t)) t 0 I); try done.
    + intros t' Ht'. apply (v_own _ I) in Ht' as Ho. unfold holding in Ht'.
      assert (t' = t -> False) as Hne by (intros ->; by rewrite Hp in Ht').
      assert (latch s = Some t -> False) as Hlt by (intros H; destruct (v_latch _ I t H) as [He _]; by rewrite Hp in He).
      destruct (pc_of s t'); try contradiction; destruct Ht' as [H0 _]; (apply Hlt, H0) || (apply Hne; by rewrite H0).
    + intros a i. unfold holding. cbn. by rewrite fn_lookup_insert.
    + intros a i. unfold holding. rewrite Hp; tauto.
  - intros Hm. destruct (v_latch _ I t Hm) as [He _]. by rewrite Hp in He.
  - auto.
Qed.

Lemma cas_lose_step s t : inv s -> pc_of s t = Cas -> latch s <> None -> inv (goto t Lose s).
Proof using Type.
  intros I Hp Hl. assert (safe (threads s t) = true) as Hsf by (apply (v_slow _ I); by rewrite Hp).
  apply (plain_inv s _ t Lose (safe (threads s t))); try done.
  - apply (owner_same s _ t Lose (safe (threads s t)) I); try done. intros a i. unfold holding. cbn. by rewrite Hp, fn_lookup_insert.
  - intros Hm. destruct (v_latch _ I t Hm) as [He _]. by rewrite Hp in He.
Qed.

Lemma cas_win_step s t : inv s -> pc_of s t = Cas -> latch s = None -> inv (goto t Buckets (publish_latch (Some t) s)).
Proof using Type.
  intros I Hp Hl. assert (safe (threads s t) = true) as Hsf by (apply (v_slow _ I); by rewrite Hp).
  destruct (v_none _ I Hl) as (Hc & Htl & Hpc).
  assert (forall t', threads (goto t Buckets (publish_latch (Some t) s)) t' = if decide (t' = t) then mkThread Buckets true else threads s t') as Et.
  { intros t'. cbn. rewrite Hsf. case_decide; [subst; by rewrite fn_lookup_insert|by rewrite fn_lookup_insert_ne]. }
  split; [intros t' a i|intros t'|intros a|done|intros t'|intros t']; try rewrite Et.
  - change (owner (goto _ _ _)) with (owner s). rewrite (v_own _ I). unfold holding. rewrite Et. change (latch (goto _ _ _)) with (Some t). rewrite Hl.
    case_decide; [subst; by rewrite Hp|]. destruct (Hpc t') as [->|[->| ->]]; done.
  - case_decide; [subst; done|]. destruct (Hpc t') as [->|[->| ->]]; done.
  - intros [= <-]. rewrite decide_True by done. cbn. auto.
  - case_decide; [done|]. intros Hst. destruct (v_safe _ I t' Hst). auto.
  - case_decide; [done|]. apply (v_slow _ I).
Qed.

(** The winner's allocations, and its loop. *)
Lemma winner_step s s' t p : inv s -> winning (pc_of s t) = true -> threads s' = <[t := mkThread p true]> (threads s) ->
  latch s' = latch s -> owner s' = owner s -> winning p = true -> winner_ok s' p ->
  (initialised s = true -> initialised s' = true) -> inv s'.
Proof using Type.
  intros I Hw E El Eo Hwp Hok Hi. destruct (v_win _ I t Hw) as [Hl _].
  apply (thread_step_inv s s' t p true I E El Hi); try done.
  - apply (owner_same s s' t p true I E El Eo). intros a i. unfold holding. rewrite E, fn_lookup_insert. cbn.
    destruct (pc_of s t); try discriminate Hw; destruct p; try discriminate Hwp; done.
  - intros t' Hne. right. destruct (winning (pc_of s t')) eqn:Hw'; [|done]. destruct (v_win _ I t' Hw'). congruence.
  - intros _. split; [by destruct p|by left].
  - congruence.
  - intros _. split; [by destruct p|by destruct p].
Qed.

Lemma init_end_step s t k : inv s -> pc_of s t = Init k -> (n <= k)%nat -> inv (goto t Unlock s).
Proof using Type.
  intros I Hp Hk. assert (winning (pc_of s t) = true) as Hw by (by rewrite Hp).
  destruct (v_win _ I t Hw) as [Hl Hok]. rewrite Hp in Hok. destruct Hok as [Hc Htl].
  assert (initialised s = true) as Hin by (unfold initialised; rewrite Hc, Htl, (proj2 (Nat.leb_le n k) Hk); done).
  assert (safe (threads s t) = true) as Hsf by (apply (v_slow _ I); by rewrite Hp).
  apply (plain_inv s _ t Unlock (safe (threads s t))); try done.
  - apply (owner_same s _ t Unlock (safe (threads s t)) I); try done. intros a i. unfold holding. cbn. rewrite Hp, fn_lookup_insert, Hl. cbn.
    split; intros [? ?]; split; congruence.
  - congruence.
Qed.

Lemma lose_step s t : inv s -> pc_of s t = Lose -> inv (goto t Acquire (set_owner (t, 0%nat) None s)).
Proof using Type.
  intros I Hp. assert (safe (threads s t) = true) as Hsf by (apply (v_slow _ I); by rewrite Hp).
  assert (latch s <> None) as Hl by (apply (latch_set s t I); by rewrite Hp).
  apply (plain_inv s _ t Acquire (safe (threads s t))); try done.
  - apply (owner_release s _ t Acquire (safe (threads s t)) t 0 I); try done; intros a i; unfold holding; cbn.
    + by rewrite Hp.
    + rewrite fn_lookup_insert. cbn. tauto.
  - intros Hm. destruct (v_latch _ I t Hm) as [He _]. by rewrite Hp in He.
Qed.

(** Who waits for latch 0 of the array in the loser's branch leaves with the arrays initialised, since
    the winner holds it until then. *)
Lemma latch_free s a : inv s -> latch s = Some a -> owner s (a, 0%nat) = None -> initialised s = true.
Proof using Type.
  intros I Hl Ho. destruct (v_latch _ I a Hl) as [_ [Hw|?]]; [|done].
  assert (owner s (a, 0%nat) = Some a) as Ho'; [|congruence].
  apply (v_own _ I). unfold holding. by destruct (pc_of s a).
Qed.

Lemma acquire_step s t a : inv s -> pc_of s t = Acquire -> latch s = Some a -> owner s (a, 0%nat) = None ->
  inv (goto t Unlock (set_owner (a, 0%nat) (Some t) s)).
Proof using Type.
  intros I Hp Hl Ho. pose proof (latch_free s a I Hl Ho) as Hin.
  assert (safe (threads s t) = true) as Hsf by (apply (v_slow _ I); by rewrite Hp).
  apply (plain_inv s _ t Unlock (safe (threads s t))); try done.
  - apply (owner_take s _ t Unlock (safe (threads s t)) a 0 I); try done.
    + intros t' Ht'. apply (v_own _ I) in Ht'. congruence.
    + intros a' i. unfold holding. cbn. rewrite fn_lookup_insert, Hl. cbn. split; intros [? ?]; split; congruence.
    + intros a' i. unfold holding. rewrite Hp. tauto.
  - congruence.
Qed.

(** A latch of the partition is given back. *)
Lemma unlock_step s t a i p : inv s -> latch s = Some a -> (pc_of s t = Unlock /\ i = 0%nat /\ p = Head \/ pc_of s t = Unlatch /\ i = bkt_idx t /\ p = Done) ->
  inv (goto t p (set_owner (a, i) None s)).
Proof using Type.
  intros I Hl Hp. apply (plain_inv s _ t p (safe (threads s t))); try done.
  - apply (owner_release s _ t p (safe (threads s t)) a i I); try done; intros a' i'; unfold holding; cbn.
    + destruct Hp as [(-> & -> & _)|(-> & -> & _)]; rewrite Hl; split; intros [? ?]; split; congruence.
    + rewrite fn_lookup_insert. cbn. destruct Hp as [(_ & _ & ->)|(_ & _ & ->)]; tauto.
  - by destruct Hp as [(_ & _ & ->)|(_ & _ & ->)].
  - intros Hm. split; [by destruct Hp as [(_ & _ & ->)|(_ & _ & ->)]|].
    apply (latch_mine s t I Hm). by destruct Hp as [(-> & _)|(-> & _)].
  - congruence.
  - intros Hsf. destruct (v_safe _ I t Hsf) as [_ Hin]. split; [by destruct Hp as [(_ & _ & ->)|(_ & _ & ->)]|].
    intros _. apply Hin. by destruct Hp as [(-> & _)|(-> & _)].
  - by destruct Hp as [(_ & _ & ->)|(_ & _ & ->)].
Qed.
Lemma head_step s t : inv s -> pc_of s t = Head -> inv (goto t (match cells s with Some _ => Latch | None => Failed end) s).
Proof using Type.
  intros I Hp. set (p := match cells s with Some _ => Latch | None => Failed end).
  assert (p = Latch \/ p = Failed /\ cells s = None) as Hpp by (subst p; destruct (cells s); auto).
  assert (latch s = Some t -> initialised s = true) as Hm by (intros Hm; apply (latch_mine s t I Hm); by rewrite Hp).
  apply (plain_inv s _ t p (safe (threads s t))); try done.
  - apply (owner_same s _ t p (safe (threads s t)) I); try done. intros a i. unfold holding. cbn. rewrite Hp, fn_lookup_insert. cbn.
    by destruct Hpp as [->|[-> _]].
  - by destruct Hpp as [->|[-> _]].
  - intros Hml. split; [by destruct Hpp as [->|[-> _]]|auto].
  - intros Hno. destruct (latch_set s t I); by rewrite ?Hp.
  - intros Hsf. destruct (v_safe _ I t Hsf) as [_ Hin]. rewrite Hp in Hin. specialize (Hin eq_refl). split; [|done].
    destruct Hpp as [->|[_ Hc]]; [done|]. unfold initialised in Hin. by rewrite Hc in Hin.
  - by destruct Hpp as [->|[-> _]].
Qed.

Lemma latch_step s t a : inv s -> pc_of s t = Latch -> latch s = Some a -> owner s (a, bkt_idx t) = None ->
  inv (goto t Insert (set_owner (a, bkt_idx t) (Some t) s)).
Proof using Type.
  intros I Hp Hl Ho. apply (plain_inv s _ t Insert (safe (threads s t))); try done.
  - apply (owner_take s _ t Insert (safe (threads s t)) a (bkt_idx t) I); try done.
    + intros t' Ht'. apply (v_own _ I) in Ht'. congruence.
    + intros a' i. unfold holding. cbn. rewrite fn_lookup_insert, Hl. cbn. split; intros [? ?]; split; congruence.
    + intros a' i. unfold holding. rewrite Hp. tauto.
  - intros Hm. split; [done|]. apply (latch_mine s t I Hm). by rewrite Hp.
  - congruence.
  - intros Hsf. destruct (v_safe _ I t Hsf) as [_ Hin]. rewrite Hp in Hin. auto.
Qed.

Lemma insert_ok s t k : inv s -> pc_of s t = Insert -> cells s = Some k -> (bkt_idx t < k)%nat -> inv (goto t Unlatch (log_insert t s)).
Proof using Type.
  intros I Hp Hc Hk. apply (plain_inv s _ t Unlatch (safe (threads s t))); try done.
  - apply (owner_same s _ t Unlatch (safe (threads s t)) I); try done. intros a i. unfold holding. cbn. by rewrite Hp, fn_lookup_insert.
  - intros Hm. split; [done|]. apply (latch_mine s t I Hm). by rewrite Hp.
  - intros Hno. destruct (latch_set s t I); by rewrite ?Hp.
  - intros Hsf. destruct (v_safe _ I t Hsf) as [_ Hin]. rewrite Hp in Hin. auto.
Qed.
Lemma insert_garbage s t : inv s -> pc_of s t = Insert -> initialised s = false -> inv (goto t Garbage (log_insert t s)).
Proof using Type.
  intros I Hp Hni. apply (plain_inv s _ t Garbage (safe (threads s t))); try done.
  - apply (owner_same s _ t Garbage (safe (threads s t)) I); try done. intros a i. unfold holding. cbn. by rewrite Hp, fn_lookup_insert.
  - intros Hm. rewrite (latch_mine s t I Hm) in Hni; [done|]. by rewrite Hp.
  - intros Hno. destruct (latch_set s t I); by rewrite ?Hp.
  - intros Hsf. destruct (v_safe _ I t Hsf) as [_ Hin]. rewrite Hp in Hin. specialize (Hin eq_refl). congruence.
Qed.

Lemma not_initialised s t : inv s -> match cells s with Some k => (k <= bkt_idx t)%nat | None => True end -> initialised s = false.
Proof using Hbkt.
  clear Hscoped. intros I Hk. unfold initialised. destruct (cells s) as [k|]; [|done]. specialize (Hbkt t).
  replace (n <=? k)%nat with false; [done|]. symmetry. apply Nat.leb_gt. lia.
Qed.

Lemma step_ok t s s' : inv s -> step t s = Some s' -> inv s'.
Proof using All.
  intros I H. unfold step in H. destruct (pc_of s t) as [| | | | |k| | | | | | | | | |] eqn:Hp.
  - pose proof (start_step s t I Hp) as Hs. destruct (latch s); by injection H as <-.
  - injection H as <-. by apply alloc_step.
  - destruct (latch s) as [a|] eqn:Hl; injection H as <-; [apply cas_lose_step|apply cas_win_step]; congruence.
  - injection H as <-. assert (winning (pc_of s t) = true) as Hw by (by rewrite Hp).
    destruct (v_win _ I t Hw) as [_ Hok]. rewrite Hp in Hok. destruct Hok as [Hc Htl].
    pose proof (v_slow _ I t) as Hsf. rewrite Hp in Hsf. specialize (Hsf eq_refl).
    apply (winner_step s _ t Tails I Hw); unfold goto, initialised; cbn; by rewrite ?Hsf, ?Hc.
  - injection H as <-. assert (winning (pc_of s t) = true) as Hw by (by rewrite Hp).
    destruct (v_win _ I t Hw) as [_ Hok]. rewrite Hp in Hok. destruct Hok as [Hc Htl].
    pose proof (v_slow _ I t) as Hsf. rewrite Hp in Hsf. specialize (Hsf eq_refl).
    apply (winner_step s _ t (Init 0) I Hw); unfold goto, initialised; cbn; rewrite ?Hsf, ?Hc, ?Htl; try done.
    by rewrite andb_false_r.
  - assert (winning (pc_of s t) = true) as Hw by (by rewrite Hp).
    destruct (v_win _ I t Hw) as [_ Hok]. rewrite Hp in Hok. destruct Hok as [Hc Htl].
    pose proof (v_slow _ I t) as Hsf. rewrite Hp in Hsf. specialize (Hsf eq_refl).
    destruct (Nat.ltb_spec k n) as [Hk|Hk]; injection H as <-; [|by apply (init_end_step s t k)].
    apply (winner_step s _ t (Init (S k)) I Hw); unfold goto, initialised; cbn; rewrite ?Hsf, ?Hc, ?Htl; try done.
    intros Hin. replace (n <=? k)%nat with false in Hin; [done|]. symmetry. by apply Nat.leb_gt.
  - rewrite Hscoped in H. injection H as <-. by apply lose_step.
  - destruct (latch s) as [a|] eqn:Hl; [|done]. cbn in H. destruct (owner s (a, 0%nat)) eqn:Ho; [done|].
    injection H as <-. by apply acquire_step.
  - destruct (latch s) as [a|] eqn:Hl; [|done]. cbn in H. rewrite Hscoped in H. injection H as <-. apply unlock_step; auto.
  - injection H as <-. by apply head_step.
  - destruct (latch s) as [a|] eqn:Hl; [|done]. cbn in H. destruct (owner s (a, bkt_idx t)) eqn:Ho; [done|].
    injection H as <-. by apply latch_step.
  - injection H as <-. pose proof (not_initialised s t I) as Hni. destruct (cells s) as [k|] eqn:Hc; [|apply insert_garbage; auto].
    destruct (Nat.ltb_spec (bkt_idx t) k); [by eapply insert_ok|apply insert_garbage; auto].
  - destruct (latch s) as [a|] eqn:Hl; [|done]. injection H as <-. apply unlock_step; auto.
  - done.
  - done.
  - done.
Qed.
Lemma run_ok ts s s' : inv s -> run ts s = Some s' -> inv s'.
Proof using All.
  revert s. induction ts as [|t ts IH]; cbn; intros s I H; [by injection H as <-|].
  destruct (step t s) as [s1|] eqn:Hs; [|done]. eapply IH; [|done]. by eapply step_ok.
Qed.

(** ** What the protocol gives *)

Definition ended (p : pc) : bool := match p with Done | Failed | Garbage => true | _ => false end.

(** Two threads that insert in the same bucket hold the same latch. *)
Lemma insert_exclusive s t1 t2 : inv s -> pc_of s t1 = Insert -> pc_of s t2 = Insert -> bkt_idx t1 = bkt_idx t2 -> t1 = t2.
Proof using Type.
  intros I H1 H2 Hb. destruct (latch s) as [a|] eqn:Hl; [|destruct (latch_set s t1 I); by rewrite ?H1].
  assert (owner s (a, bkt_idx t1) = Some t1) as Ho1 by (apply (v_own _ I); unfold holding; rewrite H1; done).
  assert (owner s (a, bkt_idx t1) = Some t2) as Ho2 by (apply (v_own _ I); unfold holding; rewrite H2; done).
  congruence.
Qed.

(** The holder of a latch can take its next step. *)
Lemma holder_steps s t a i : inv s -> holding s t a i -> pc_of s t = Garbage \/ is_Some (step t s).
Proof using Type.
  intros I Hh. assert (pc_of s t = Unlock \/ pc_of s t = Unlatch -> latch s <> None) as Hset.
  { intros Hp. apply (latch_set s t I); destruct Hp as [-> | ->]; done. }
  unfold holding in Hh. unfold step. destruct (pc_of s t) as [| | | | |k| | | | | | | | | |] eqn:Hp; try contradiction; try (right; eexists; reflexivity); try (by left).
  - right. destruct (latch s); by eexists.
  - right. case_match; by eexists.
  - right. destruct (latch s); [by eexists|]. destruct Hset; auto.
  - right. destruct (latch s); [by eexists|]. destruct Hset; auto.
Qed.

Lemma init_progress s t : inv s -> ended (pc_of s t) = false -> exists t', pc_of s t' = Garbage \/ is_Some (step t' s).
Proof using Type.
  intros I He. destruct (decide (is_Some (step t s))) as [|Hst]; [by exists t; right|].
  assert (pc_of s t <> Start -> pc_of s t <> Alloc -> pc_of s t <> Cas -> latch s <> None) as Hset by apply (latch_set s t I).
  unfold step in Hst. destruct (pc_of s t) as [| | | | |k| | | | | | | | | |] eqn:Hp; try discriminate He; try (destruct Hst; eexists; reflexivity).
  - destruct Hst. destruct (latch s); by eexists.
  - destruct Hst. destruct (latch s); by eexists.
  - destruct Hst. case_match; by eexists.
  - destruct (latch s) as [a|] eqn:Hl; [|destruct Hset; done]. cbn in Hst. destruct (owner s (a, 0%nat)) as [t'|] eqn:Ho; [|destruct Hst; by eexists].
    exists t'. apply (holder_steps s t' a 0 I). by apply (v_own _ I).
  - destruct (latch s) as [a|] eqn:Hl; [|destruct Hset; done]. destruct Hst. by eexists.
  - destruct (latch s) as [a|] eqn:Hl; [|destruct Hset; done]. cbn in Hst. destruct (owner s (a, bkt_idx t)) as [t'|] eqn:Ho; [|destruct Hst; by eexists].
    exists t'. apply (holder_steps s t' a (bkt_idx t) I). by apply (v_own _ I).
  - destruct (latch s) as [a|] eqn:Hl; [|destruct Hset; done]. destruct Hst. by eexists.
Qed.

(** The first insertions, under scoped latches: a thread that found [_latch] null, or the arrays initialised, does
    not fail; two threads are never in the same bucket; and if no thread reads an uninitialised bucket, some thread that has
    not ended can go on. *)
Theorem index_init_race ts s : run ts start = Some s ->
  (forall t, safe (threads s t) = true -> failed (pc_of s t) = false) /\
  (forall t1 t2, pc_of s t1 = Insert -> pc_of s t2 = Insert -> bkt_idx t1 = bkt_idx t2 -> t1 = t2) /\
  ((forall t, pc_of s t <> Garbage) -> forall t, ended (pc_of s t) = false -> exists t', is_Some (step t' s)).
Proof using All.
  intros H. assert (inv s) as I by (eapply run_ok; [apply start_ok|done]). split_and!.
  - intros t Hsf. by destruct (v_safe _ I t Hsf).
  - intros t1 t2. by apply insert_exclusive.
  - intros Hg t He. destruct (init_progress s t I He) as [t' [Hg'|?]]; [by apply Hg in Hg'|by exists t'].
Qed.
End index_init.

(** ** Runs with two threads, two buckets each *)

(** Thread 1 finds [_latch] set while thread 0 has not allocated the buckets: it fails. *)
Example early_thread : match run true 2%nat (fun t => t) [0; 0; 0; 1; 1]%nat start with
  | Some s => at_pc (threads s 1%nat) = Failed /\ safe (threads s 1%nat) = false | None => False end.
Proof. vm_compute. split; reflexivity. Qed.

(** Thread 1 finds the buckets allocated and not initialised: it reads [valid] of such a bucket. *)
Example early_bucket : match run true 2%nat (fun t => t) [0; 0; 0; 0; 1; 1; 1; 1]%nat start with
  | Some s => at_pc (threads s 1%nat) = Garbage | None => False end.
Proof. vm_compute. reflexivity. Qed.

(** Without scoped latches the loser unlocks the latch of the array it has deleted: latch 0 of the partition stays
    locked, and a thread with a key of bucket 0 waits for ever. *)
Example unscoped_loser : match run false 2%nat (fun _ => 0%nat) [0; 1; 0; 1; 0; 1; 0; 0; 0; 0; 0; 0; 1; 1; 1; 1]%nat start with
  | Some s => at_pc (threads s 1%nat) = Latch /\ owner s (0%nat, 0%nat) = Some 1%nat /\ step false 2%nat (fun _ => 0%nat) 1%nat s = None
  | None => False end.
Proof. vm_compute. repeat split. Qed.
