(* ===== verification/IndexChain.v ===== *)
(** * The perfect hash index without back pointers

    [IndexHashPerfect] of src/storage/index_hash_perfect.h when [TPCC_ALL_TXN] is off: an item has no [prev] and a bucket
    no tail, so that [index_delete] searches the chain for the predecessor of the item, or is given it as [hint].
    IndexPerfect.v has the doubly linked variant. *)

From S2P Require Import Prelude Global IndexPerfect.

(** [itemid_t] has no [prev] here. *)
Record item_t := mkItem { location : nat; next : option addr; valid : bool }.
Definition item_init (it : item_t) : item_t := mkItem 0 None false.

Notation cmem := (gmap addr item_t).

Definition fresh_item (mem : cmem) : addr :=
  inr (fresh (omap (fun a => match a with inr n => Some n | inl _ => None end) (elements (dom mem)))).

(** [index_insert] in a bucket whose array exists. *)
Definition chain_insert (b : bkt) (item : item_t) (no_collision : bool) (mem : cmem) : option cmem :=
  do! head <- mem !! inl b;;
  if valid head then
    assert! negb no_collision;;
    let next := fresh_item mem in
    Some (<[inl b := mkItem (location item) (Some next) (valid item)]> (<[next := head]> mem))
  else Some (<[inl b := item]> mem).

Definition chain_read (b : bkt) (mem : cmem) : option (option addr) :=
  do! head <- mem !! inl b;;
  Some (if valid head then Some (inl b) else None).

(** [while(prev->next != item && prev->next != NULL) prev = prev->next]. *)
Fixpoint chain_search (fuel : nat) (prev : addr) (item : option addr) (mem : cmem) : option addr :=
  match fuel with
  | O => None
  | S fuel =>
      do! p <- mem !! prev;;
      if decide (next p = item) then Some prev
      else match next p with
           | Some a => chain_search fuel a item mem
           | None => Some prev
           end
  end.

(** What [prev] is when it is used, from the caller's [hint]. *)
Definition chain_prev (fuel : nat) (b : bkt) (item hint : option addr) (mem : cmem) : option (option addr) :=
  match hint with
  | Some p => Some (Some p)
  | None =>
      do! prev <- chain_read b mem;;
      if decide (prev = item) then Some prev
      else
        do! p <- prev;;  (* [prev->next] *)
        do! p <- chain_search fuel p item mem;;
        Some (Some p)
  end.

(** [index_delete], and [index_delete_safe] under the latch of the bucket. *)
Definition chain_delete (hawk : bool) (fuel : nat) (b : bkt) (item hint : option addr) (mem : cmem) : option cmem :=
  do! prev <- chain_prev fuel b item hint mem;;
  match prev with
  | None => Some mem
  | Some p =>
      do! a <- item;;
      do! it <- mem !! a;;
      do! pit <- mem !! p;;
      if decide (p = a) then
        match next it with
        | Some n => do! nit <- mem !! n;; Some (<[p := nit]> mem)
        | None => Some (<[p := item_init pit]> mem)
        end
      else
        let mem := <[p := mkItem (location pit) (next it) (valid pit)]> mem in
        Some (if hawk then mem else delete a mem)
  end.

(** ** What a chain represents *)

Fixpoint chain (mem : cmem) (l : list addr) (ls : list nat) : Prop :=
  match l, ls with
  | [], [] => True
  | a :: l, x :: ls => mem !! a = Some (mkItem x (head l) true) /\ chain mem l ls
  | _, _ => False
  end.

(** [ns]: the nodes behind the head, [ls]: the rows from the head on. *)
Definition chain_rep (mem : cmem) (b : bkt) (ns ls : list nat) : Prop :=
  NoDup ns /\
  (ns = [] /\ ls = [] /\ (exists x, mem !! inl b = Some (mkItem x None false)) \/ chain mem (cells b ns) ls).

Lemma chain_ext mem mem' l ls : (forall a, a ∈ l -> mem' !! a = mem !! a) -> chain mem l ls -> chain mem' l ls.
Proof.
  revert ls. induction l as [|a l IH]; intros [|x ls] H; cbn; try done.
  intros [Ha Hl]. split; [by rewrite H by left|]. apply IH; [|done]. intros a' Ha'. apply H. by right.
Qed.

Lemma chain_app mem l1 l2 ls : chain mem (l1 ++ l2) ls -> exists ls1 ls2, ls = ls1 ++ ls2 /\ length ls1 = length l1 /\ chain mem l2 ls2.
Proof.
  revert ls. induction l1 as [|a l1 IH]; intros ls; cbn; [by exists [], ls|]. destruct ls as [|x ls]; [done|].
  intros [_ H]. destruct (IH ls H) as (ls1 & ls2 & -> & <- & ?). by exists (x :: ls1), ls2.
Qed.

Lemma fresh_item_new mem : exists n, fresh_item mem = inr n /\ mem !! (inr n : addr) = None.
Proof.
  unfold fresh_item. set (l := omap _ (elements (dom mem))). exists (fresh l). split; [done|].
  apply not_elem_of_dom. intros H. apply (infinite_is_fresh l). unfold l at 2. apply list_elem_of_omap.
  exists (inr (fresh l)). split; [by apply elem_of_elements|done].
Qed.

(** ** Insertion *)

Lemma chain_insert_rep mem b ns ls x nc : chain_rep mem b ns ls -> (ls <> [] -> nc = false) ->
  exists mem' ns', chain_insert b (mkItem x None true) nc mem = Some mem' /\ chain_rep mem' b ns' (x :: ls).
Proof.
  intros [Hnd [(-> & -> & [y Hh])|Hc]] Hnc; unfold chain_insert.
  - rewrite Hh. cbn. eexists _, []. split; [done|]. split; [done|]. right. cbn. by rewrite lookup_insert_eq.
  - destruct ls as [|y ls]; [done|]. pose proof Hc as [Hh Ht]. rewrite Hh. cbn. rewrite Hnc by done. cbn.
    destruct (fresh_item_new mem) as (n & -> & Hn).
    assert (n ∉ ns) as Hni.
    { intros Hin. assert (exists it, mem !! (inr n : addr) = Some it) as [it Hit]; [|congruence].
      assert ((inr n : addr) ∈ map inr ns) as Hin' by (by apply inr_map). revert Ht Hin'. clear. revert ls.
      induction (map inr ns : list addr) as [|a l IH]; intros [|z ls]; cbn; rewrite ?elem_of_nil; try done.
      intros [Ha Hl] [<-|?]%elem_of_cons; eauto. }
    eexists _, (n :: ns). split; [done|]. split; [by constructor|]. right. cbn. split_and!.
    + by rewrite lookup_insert_eq.
    + rewrite lookup_insert_ne, lookup_insert_eq by done. done.
    + eapply chain_ext; [|done]. intros a Ha. rewrite !lookup_insert_ne; [done| |].
      * intros <-. by apply inr_map in Ha.
      * intros <-. by apply inl_map in Ha.
Qed.

(** ** Deletion *)

(** The search ends at the predecessor. *)
Lemma search_ok mem l1 p a l2 ls fuel : chain mem (l1 ++ p :: a :: l2) ls -> NoDup (l1 ++ p :: a :: l2) -> (length l1 < fuel)%nat ->
  forall q, head (l1 ++ [p]) = Some q -> chain_search fuel q (Some a) mem = Some p.
Proof.
  revert ls fuel. induction l1 as [|c l1 IH]; intros ls [|fuel] Hc Hnd Hf q Hq; cbn in *; try lia; injection Hq as <-; (destruct ls as [|x ls]; [done|]); destruct Hc as [Hm Hc]; rewrite Hm; cbn.
  - by rewrite decide_True.
  - apply NoDup_cons in Hnd as [_ Hnd]. assert (exists d, head (l1 ++ p :: a :: l2) = Some d /\ head (l1 ++ [p]) = Some d /\ d <> a) as (d & Hd & Hd' & Hne).
    { apply NoDup_app in Hnd as (_ & Hx & Hnd). apply NoDup_cons in Hnd as [Hpa _]. destruct l1 as [|d l1]; cbn.
      - exists p. split_and!; [done|done|]. intros ->. apply Hpa. by left.
      - exists d. split_and!; [done|done|]. intros ->. apply (Hx a); [by left|]. right. by left. }
    rewrite Hd, decide_False by congruence. eapply (IH ls); try done. lia.
Qed.

(** [prev->next = item->next]. *)
Lemma chain_cut mem l1 p a l2 ls : chain mem (l1 ++ p :: a :: l2) ls -> NoDup (l1 ++ p :: a :: l2) ->
  exists ls1 x y ls2, ls = ls1 ++ x :: y :: ls2 /\ length ls1 = length l1 /\
    mem !! p = Some (mkItem x (Some a) true) /\ mem !! a = Some (mkItem y (head l2) true) /\
    forall mem', mem' !! p = Some (mkItem x (head l2) true) -> (forall c, c <> p -> c <> a -> mem' !! c = mem !! c) ->
      chain mem' (l1 ++ p :: l2) (ls1 ++ x :: ls2).
Proof.
  revert ls. induction l1 as [|c l1 IH]; intros ls Hc Hnd; cbn in *.
  - destruct ls as [|x [|y ls2]]; try tauto. destruct Hc as (Hp & Ha & Hc). exists [], x, y, ls2. split_and!; try done.
    intros mem' Hp' Hf. split; [done|]. eapply chain_ext; [|done]. intros d Hd. apply NoDup_cons in Hnd as [Hnp Hnd].
    apply NoDup_cons in Hnd as [Hna _]. apply Hf; intros ->; [apply Hnp; by right|done].
  - destruct ls as [|z ls]; [done|]. destruct Hc as [Hm Hc]. apply NoDup_cons in Hnd as [Hnc Hnd].
    destruct (IH ls Hc Hnd) as (ls1 & x & y & ls2 & -> & Hl & Hp & Ha & Hf). exists (z :: ls1), x, y, ls2. cbn.
    split_and!; try done; [by f_equal|]. intros mem' Hp' Hf'. split; [|by apply Hf].
    assert (head (l1 ++ p :: l2) = head (l1 ++ p :: a :: l2)) as -> by (by destruct l1).
    rewrite Hf'; [done| |]; intros ->; apply Hnc, elem_of_app; right; [by left|right; by left].
Qed.

Lemma cells_split b ns i a : cells b ns !! i = Some a -> (0 < i)%nat ->
  exists l1 p ns1 n ns2, a = inr n /\ ns = ns1 ++ n :: ns2 /\ cells b ns = l1 ++ p :: a :: map inr ns2 /\
    cells b (ns1 ++ ns2) = l1 ++ p :: map inr ns2 /\ length l1 = pred i /\ cells b ns !! pred i = Some p.
Proof.
  intros Ha Hi. destruct i as [|i]; [lia|]. cbn in Ha. apply (list_lookup_fmap_Some (inr : nat -> addr)) in Ha as (n & -> & Hn).
  apply list_elem_of_split_length in Hn as (ns1 & ns2 & -> & ->).
  assert (cells b ns1 <> []) as Hne by done. destruct (exists_last Hne) as (l1 & p & Hl).
  assert (length l1 = length ns1) as Hlen.
  { assert (length (cells b ns1) = length (l1 ++ [p])) as H by (by f_equal). cbn in H. rewrite length_map, length_app in H. cbn in H. lia. }
  assert (cells b (ns1 ++ n :: ns2) = l1 ++ p :: inr n :: map inr ns2) as E.
  { unfold cells in *. rewrite map_app, app_comm_cons, Hl. cbn. by rewrite <- app_assoc. }
  exists l1, p, ns1, n, ns2. split_and!; try done.
  - unfold cells in *. by rewrite map_app, app_comm_cons, Hl, <- app_assoc.
  - rewrite E. cbn. rewrite list_lookup_middle; done.
Qed.

Lemma delete_middle {A} (l1 l2 : list A) x : delete (length l1) (l1 ++ x :: l2) = l1 ++ l2.
Proof. induction l1 as [|y l1 IH]; cbn; [done|]. f_equal. exact IH. Qed.

(** The deletion of the [i]th item of a bucket. *)
Lemma chain_delete_node hawk mem b ns ls i a : chain mem (cells b ns) ls -> NoDup ns -> cells b ns !! i = Some a -> (0 < i)%nat ->
  exists p, cells b ns !! pred i = Some p /\ p <> a /\
    (forall fuel, (i <= fuel)%nat -> chain_search fuel (inl b) (Some a) mem = Some p) /\
    exists pit it, mem !! p = Some pit /\ mem !! a = Some it /\
      (let mem1 := <[p := mkItem (location pit) (next it) (valid pit)]> mem in
       exists ns', chain_rep (if hawk : bool then mem1 else delete a mem1) b ns' (delete i ls)).
Proof.
  intros Hc Hnd Ha Hi. destruct (cells_split b ns i a Ha Hi) as (l1 & p & ns1 & n & ns2 & -> & Hns & E & E' & Hl & Hp).
  assert (NoDup (cells b ns)) as Hndc by (by apply cells_NoDup). rewrite E in Hc, Hndc.
  exists p. split; [done|]. pose proof Hndc as (_ & _ & Hnp)%NoDup_app. apply NoDup_cons in Hnp as [Hnp _].
  split; [intros ->; apply Hnp; by left|]. split.
  { intros fuel Hf. eapply search_ok; [done|done|lia|]. destruct l1; cbn in E |- *; by injection E as <- ?. }
  destruct (chain_cut mem l1 p (inr n) _ ls Hc Hndc) as (ls1 & x & y & ls2 & -> & Hl1 & Hmp & Hma & Hf).
  eexists _, _. split; [done|]. split; [done|]. cbn. exists (ns1 ++ ns2). split.
  { rewrite Hns in Hnd. apply NoDup_app in Hnd as (H1 & H2 & H3). apply NoDup_cons in H3 as [_ H3]. apply NoDup_app. split_and!; [done| |done].
    intros m Hm Hm2. apply (H2 m Hm). by right. }
  right. rewrite E'. assert (delete i (ls1 ++ x :: y :: ls2) = ls1 ++ x :: ls2) as ->.
  { pose proof (delete_middle (ls1 ++ [x]) ls2 y) as Hd. rewrite <- !app_assoc, length_app in Hd. cbn in Hd.
    by replace i with (length ls1 + 1)%nat by lia. }
  assert (p <> inr n) as Hpn by (intros ->; apply Hnp; by left).
  destruct hawk; apply Hf.
  - by rewrite lookup_insert_eq.
  - intros c ? ?. by rewrite lookup_insert_ne.
  - by rewrite lookup_delete_ne, lookup_insert_eq.
  - intros c ? ?. by rewrite lookup_delete_ne, lookup_insert_ne.
Qed.

(** Without [TPCC_ALL_TXN]: given its predecessor or nothing, the item's row leaves the bucket and the others
    keep their order; other buckets are untouched. *)
Theorem chain_delete_correct hawk fuel mem b ns ls i a hint : chain_rep mem b ns ls -> ls <> [] -> cells b ns !! i = Some a ->
  hint = None \/ hint = cells b ns !! pred i -> (length ns <= fuel)%nat ->
  exists mem' ns', chain_delete hawk fuel b (Some a) hint mem = Some mem' /\ chain_rep mem' b ns' (delete i ls) /\
    forall c, c ∉ cells b ns -> mem' !! c = mem !! c.
Proof.
  intros [Hnd [(-> & -> & _)|Hc]] Hls Ha Hh Hf; [done|]. destruct ls as [|x ls]; [done|]. clear Hls.
  assert (chain_read b mem = Some (Some (inl b))) as Hr by (unfold chain_read; destruct Hc as [-> _]; done).
  destruct (decide (i = 0%nat)) as [->|Hi].
  - injection Ha as <-. assert (chain_prev fuel b (Some (inl b)) hint mem = Some (Some (inl b))) as Hp.
    { destruct Hh as [-> | ->]; [|done]. cbn. rewrite Hr. cbn. by rewrite decide_True. }
    pose proof Hc as [Hm Hc']. unfold chain_delete. rewrite Hp. cbn. rewrite Hm. cbn. rewrite decide_True by done.
    destruct ns as [|n ns]; cbn in *.
    + exists (<[inl b := mkItem 0 None false]> mem), []. destruct ls; [|done]. split_and!; [done| |].
      * split; [done|]. left. split_and!; try done. exists 0%nat. by rewrite lookup_insert_eq.
      * intros c Hcn. rewrite lookup_insert_ne; [done|]. intros <-. apply Hcn. by left.
    + destruct ls as [|y ls]; [done|]. destruct Hc' as [Hn Hc']. rewrite Hn. cbn. eexists _, ns. split; [done|].
      apply NoDup_cons in Hnd as [_ Hnd]. split; [split; [done|]; right; cbn; split; [by rewrite lookup_insert_eq|]|].
      * eapply chain_ext; [|done]. intros c Hcn. rewrite lookup_insert_ne; [done|]. intros <-. by apply inl_map in Hcn.
      * intros c Hcn. rewrite lookup_insert_ne; [done|]. intros <-. apply Hcn. by left.
  - destruct (chain_delete_node hawk mem b ns (x :: ls) i a Hc Hnd Ha) as (p & Hp & Hpa & Hs & pit & it & Hmp & Hma & ns' & Hrep); [lia|].
    assert (i <= fuel)%nat as Hif by (apply lookup_lt_Some in Ha; cbn in Ha; rewrite length_map in Ha; lia).
    assert (chain_prev fuel b (Some a) hint mem = Some (Some p)) as Hpr.
    { destruct Hh as [-> | ->]; cbn; [|by rewrite Hp]. rewrite Hr. cbn. rewrite decide_False; [cbn; by rewrite Hs|].
      intros [= <-]. apply Hi. eapply NoDup_lookup; [by apply cells_NoDup|done|done]. }
    unfold chain_delete. rewrite Hpr. cbn. rewrite Hma. cbn. rewrite Hmp. cbn. rewrite decide_False by done.
    eexists _, ns'. split; [done|]. split; [done|]. intros c Hcn.
    assert (c <> p /\ c <> a) as [? ?] by (split; intros ->; apply Hcn; by eapply list_elem_of_lookup_2).
    destruct hawk; rewrite ?lookup_delete_ne, lookup_insert_ne by done; done.
Qed.

(** A [hint] that is not the predecessor loses the items between: deleting the third item with the head as hint. *)
Example chain_wrong_hint :
  let b := (0, 0)%nat in
  let ins x mem := chain_insert b (mkItem x None true) false mem in
  match (do! m <- ins 1%nat {[ inl b := mkItem 0 None false ]};; do! m <- ins 2%nat m;; do! m <- ins 3%nat m;;
         let third := do! h <- m !! inl b;; do! s <- next h;; do! it <- m !! s;; next it in
         do! m <- chain_delete false 9 b third (Some (inl b)) m;; m !! inl b) with
  | Some h => location h = 3%nat /\ next h = None
  | None => False
  end.
Proof. vm_compute. split; reflexivity. Qed.
