(* ===== verification/IndexHash.v ===== *)
(** * The hash index

    [BucketNode], [BucketHeader] and [IndexHash] of src/storage/index_hash.h:
    buckets of nodes, one node per key, each with the items inserted under the
    key linked through [next]. Keys that share a bucket are told apart, and the
    index implements the interface of its clients with one slot per key. *)

From stdpp Require Import functions.
From S2P Require Import Prelude Global Index.

(** The [location] and [next] of an item, which the caller allocates. *)
Record hitem := mkHitem { hi_location : nat; hi_next : option nat }.

Record BucketNode := mkBucketNode { bn_key : Z; bn_items : option nat }.

(** [first_node] and the nodes behind it; [node_cnt] is never used, and
    [locked] makes an insertion atomic. *)
Notation BucketHeader := (list BucketNode).

Record IndexHash := mkIndexHash {
  ih_part_cnt : nat;
  ih_bucket_cnt_per_part : nat;
  ih_buckets : gmap (nat * nat) BucketHeader;
  ih_items : gmap nat hitem }.

(** [BucketHeader::insert_item]: the node of the key gets the item in front of
    its items; a new node is put behind the last one. *)
Fixpoint insert_item (key : Z) (item : nat) (nodes : BucketHeader) (items : gmap nat hitem)
    : option (BucketHeader * gmap nat hitem) :=
  match nodes with
  | [] => Some ([mkBucketNode key (Some item)], items)
  | n :: nodes' =>
      if bn_key n =? key then
        do! it <- items !! item;;
        Some (mkBucketNode (bn_key n) (Some item) :: nodes',
              <[item := mkHitem (hi_location it) (bn_items n)]> items)
      else
        do! r <- insert_item key item nodes' items;;
        Some (n :: fst r, snd r)
  end.

(** [BucketHeader::read_item]: a missing key follows the null [cur_node]. *)
Fixpoint read_item (key : Z) (nodes : BucketHeader) : option (option nat) :=
  match nodes with
  | [] => None
  | n :: nodes' => if bn_key n =? key then Some (bn_items n) else read_item key nodes'
  end.

Fixpoint init_buckets (parts cnt : nat) : gmap (nat * nat) BucketHeader :=
  match parts with
  | O => ∅
  | S p => foldr (fun n m => <[(p, n) := []]> m) (init_buckets p cnt) (seq 0 cnt)
  end.

(** [IndexHash::init]. *)
Definition IndexHash_init (bucket_cnt part_cnt : nat) : IndexHash :=
  mkIndexHash part_cnt (bucket_cnt / part_cnt)
    (init_buckets part_cnt (bucket_cnt / part_cnt)) ∅.

Definition ih_hash (s : IndexHash) (key : Z) : nat :=
  Z.to_nat (key mod Z.of_nat (ih_bucket_cnt_per_part s)).

Definition ih_index_insert (key : Z) (item part_id : nat) (s : IndexHash)
    : option (RC * IndexHash) :=
  let bkt_idx := ih_hash s key in
  assert! (bkt_idx <? ih_bucket_cnt_per_part s)%nat;;
  do! cur_bkt <- ih_buckets s !! (part_id, bkt_idx);;
  do! r <- insert_item key item cur_bkt (ih_items s);;
  Some (RCOK, mkIndexHash (ih_part_cnt s) (ih_bucket_cnt_per_part s)
                (<[(part_id, bkt_idx) := fst r]> (ih_buckets s)) (snd r)).

Definition ih_index_read (key : Z) (part_id : nat) (s : IndexHash)
    : option (RC * option nat) :=
  let bkt_idx := ih_hash s key in
  assert! (bkt_idx <? ih_bucket_cnt_per_part s)%nat;;
  do! cur_bkt <- ih_buckets s !! (part_id, bkt_idx);;
  do! item <- read_item key cur_bkt;;
  Some (RCOK, item).

(** ** What the index represents *)

Fixpoint items_rep (items : gmap nat hitem) (ptr : option nat) (ps ls : list nat) : Prop :=
  match ps, ls with
  | [], [] => ptr = None
  | p :: ps, l :: ls => ptr = Some p /\
      exists nxt, items !! p = Some (mkHitem l nxt) /\ items_rep items nxt ps ls
  | _, _ => False
  end.

(** The items of a key of the bucket [nodes]. *)
Definition node_rep (items : gmap nat hitem) (nodes : BucketHeader) (key : Z)
    (ps ls : list nat) : Prop :=
  match read_item key nodes with
  | Some ptr => items_rep items ptr ps ls /\ ps <> []
  | None => ps = [] /\ ls = []
  end.

Record ih_rep (s : IndexHash) (P C : nat * Z -> list nat) : Prop := mkIhRep {
  ir_pos : (0 < ih_bucket_cnt_per_part s)%nat;
  ir_bkt : forall p i, (p < ih_part_cnt s)%nat -> (i < ih_bucket_cnt_per_part s)%nat ->
    is_Some (ih_buckets s !! (p, i));
  ir_node : forall p k nodes, ih_buckets s !! (p, ih_hash s k) = Some nodes ->
    node_rep (ih_items s) nodes k (P (p, k)) (C (p, k));
  ir_out : forall p k, ih_buckets s !! (p, ih_hash s k) = None -> P (p, k) = [];
  ir_disj : forall a b n, n ∈ P a -> n ∈ P b -> a = b }.

Lemma items_rep_frame items items' ptr ps ls :
  (forall p, p ∈ ps -> items' !! p = items !! p) ->
  items_rep items ptr ps ls -> items_rep items' ptr ps ls.
Proof.
  revert ptr ls. induction ps as [|p ps IH]; intros ptr [|l ls] Heq; simpl; try done.
  intros (-> & nxt & Hp & Hr). split; [done|]. exists nxt. rewrite Heq by left.
  split; [done|]. apply IH; [|done]. intros q Hq. apply Heq. by right.
Qed.

Lemma items_rep_live items ptr ps ls p : items_rep items ptr ps ls -> p ∈ ps ->
  is_Some (items !! p).
Proof.
  revert ptr ls. induction ps as [|q ps IH]; intros ptr [|l ls]; simpl; try done;
    [intros _ ?%not_elem_of_nil; done|].
  intros (-> & nxt & Hq & Hr) [->|?]%elem_of_cons; [eauto|]. by eapply IH.
Qed.

(** [insert_item] changes what is read under its key only. *)
Lemma insert_item_spec key item loc nodes items :
  items !! item = Some (mkHitem loc None) ->
  exists nodes' items', insert_item key item nodes items = Some (nodes', items') /\
    (forall k, read_item k nodes' = if k =? key then Some (Some item) else read_item k nodes) /\
    items' = <[item := mkHitem loc (from_option id None (read_item key nodes))]> items.
Proof.
  intros Hit. induction nodes as [|n nodes IH]; simpl.
  - eexists _, _. split; [done|]. split; [|by rewrite insert_id].
    intros k. simpl. by rewrite (Z.eqb_sym key k).
  - destruct (bn_key n =? key) eqn:Hk; b2p.
    + rewrite Hit. simpl. eexists _, _. split; [done|]. split; [|done].
      intros k. simpl. rewrite Hk, (Z.eqb_sym key k). by destruct (k =? key).
    + destruct IH as (nodes' & items' & -> & Hr & ->). eexists _, _. split; [done|].
      split; [|done]. intros k. simpl. rewrite Hr. destruct (bn_key n =? k) eqn:Hnk; [|done].
      b2p. subst k. by replace (bn_key n =? key) with false by lia.
Qed.

(** The insertion of a fresh item. *)
Lemma ih_insert_rep s P C key item loc part :
  ih_rep s P C -> (part < ih_part_cnt s)%nat ->
  ih_items s !! item = Some (mkHitem loc None) -> (forall a, item ∉ P a) ->
  exists s', ih_index_insert key item part s = Some (RCOK, s') /\
    ih_rep s' (<[(part, key) := item :: P (part, key)]> P)
      (<[(part, key) := loc :: C (part, key)]> C) /\
    ih_part_cnt s' = ih_part_cnt s /\
    ih_bucket_cnt_per_part s' = ih_bucket_cnt_per_part s.
Proof.
  intros [Hpos Hbkt Hnode Hout Hdisj] Hpart Hit Hfresh. unfold ih_index_insert.
  assert (ih_hash s key < ih_bucket_cnt_per_part s)%nat as Hlt.
  { unfold ih_hash. pose proof (Z.mod_pos_bound key (Z.of_nat (ih_bucket_cnt_per_part s))). lia. }
  rewrite c_assert_true by (by apply Nat.ltb_lt).
  destruct (Hbkt part _ Hpart Hlt) as [nodes Hn]. rewrite Hn.
  destruct (insert_item_spec key item loc nodes _ Hit) as (nodes' & items' & -> & Hr & ->).
  simpl. eexists. split; [done|]. split; [|done].
  set (items' := <[item := _]> _).
  assert (forall ptr ps ls, item ∉ ps -> items_rep (ih_items s) ptr ps ls ->
    items_rep items' ptr ps ls) as Hfr.
  { intros ptr ps ls Hni. apply items_rep_frame. intros p Hp.
    unfold items'. rewrite lookup_insert_ne; [done|]. by intros ->. }
  constructor; simpl; [done| | | |].
  - intros p i Hp Hi. destruct (decide ((p, i) = (part, ih_hash s key))) as [->|?].
    + rewrite lookup_insert_eq. eauto.
    + rewrite lookup_insert_ne by done. auto.
  - intros p k nd. change (ih_hash _ k) with (ih_hash s k).
    destruct (decide ((p, ih_hash s k) = (part, ih_hash s key))) as [[= -> Hh]|Hne].
    + rewrite Hh, lookup_insert_eq. intros [= <-]. unfold node_rep. rewrite Hr.
      specialize (Hnode part k nodes). rewrite Hh in Hnode. specialize (Hnode Hn).
      destruct (k =? key) eqn:Hk; b2p.
      * subst k. rewrite !fn_lookup_insert. split; [|done]. simpl. split; [done|].
        eexists. unfold items' at 1. rewrite lookup_insert_eq. split; [done|].
        apply Hfr; [apply Hfresh|]. unfold node_rep in Hnode.
        destruct (read_item key nodes) as [ptr|]; simpl; [apply Hnode|].
        destruct Hnode as [-> ->]. done.
      * rewrite !fn_lookup_insert_ne by congruence. unfold node_rep in Hnode.
        destruct (read_item k nodes) as [ptr|]; [|done]. destruct Hnode.
        split; [|done]. apply Hfr; [apply Hfresh|done].
    + rewrite lookup_insert_ne by done. intros Hnd.
      rewrite !fn_lookup_insert_ne by congruence.
      specialize (Hnode p k nd Hnd). unfold node_rep in *.
      destruct (read_item k nd) as [ptr|]; [|done]. destruct Hnode.
      split; [|done]. apply Hfr; [apply Hfresh|done].
  - intros p k. change (ih_hash _ k) with (ih_hash s k).
    destruct (decide ((p, ih_hash s k) = (part, ih_hash s key))) as [->|Hne];
      [by rewrite lookup_insert_eq|].
    rewrite lookup_insert_ne by done. intros ?.
    rewrite fn_lookup_insert_ne by congruence. by apply Hout.
  - intros a b n. destruct (decide (a = (part, key))) as [->|Ha],
      (decide (b = (part, key))) as [->|Hb]; [done|..];
      rewrite ?fn_lookup_insert, ?fn_lookup_insert_ne by done; rewrite ?elem_of_cons.
    + intros [->|?] Hb'; [by destruct (Hfresh b)|eauto].
    + intros Ha' [->|?]; [by destruct (Hfresh a)|eauto].
    + eauto.
Qed.

Lemma ih_read_rep s P C key part l ls :
  ih_rep s P C -> (part < ih_part_cnt s)%nat -> C (part, key) = l :: ls ->
  exists p nxt, ih_index_read key part s = Some (RCOK, Some p) /\
    ih_items s !! p = Some (mkHitem l nxt).
Proof.
  intros [Hpos Hbkt Hnode Hout Hdisj] Hpart HC. unfold ih_index_read.
  assert (ih_hash s key < ih_bucket_cnt_per_part s)%nat as Hlt.
  { unfold ih_hash. pose proof (Z.mod_pos_bound key (Z.of_nat (ih_bucket_cnt_per_part s))). lia. }
  rewrite c_assert_true by (by apply Nat.ltb_lt).
  destruct (Hbkt part _ Hpart Hlt) as [nodes Hn]. rewrite Hn.
  specialize (Hnode part key nodes Hn). unfold node_rep in Hnode. rewrite HC in Hnode.
  destruct (read_item key nodes) as [ptr|]; [|by destruct Hnode].
  destruct Hnode as [Hi Hne]. destruct (P (part, key)) as [|p ps]; [done|].
  destruct Hi as (-> & nxt & ? & _). eauto.
Qed.

(** ** The interface of the clients *)

(** [workload::index_insert(IndexHash*, ...)]: the item is allocated, filled and
    inserted. *)
Definition ih_workload_insert (key : Z) (row part_id : nat) (no_collision : bool)
    (s : IndexHash) : option IndexHash :=
  let item := fresh (dom (ih_items s)) in
  do! r <- ih_index_insert key item part_id
             (mkIndexHash (ih_part_cnt s) (ih_bucket_cnt_per_part s) (ih_buckets s)
                (<[item := mkHitem row None]> (ih_items s)));;
  assert! bool_decide (fst r = RCOK);;
  Some (snd r).

Definition ih_first_row (key : Z) (part_id : nat) (s : IndexHash) : option (option nat) :=
  do! r <- ih_index_read key part_id s;;
  match snd r with
  | None => Some None
  | Some p => do! it <- ih_items s !! p;; Some (Some (hi_location it))
  end.

#[export] Instance hash_ops : IndexOps IndexHash :=
  { ix_insert := ih_workload_insert; ix_first := ih_first_row }.

#[export, refine] Instance hash_laws : IndexLaws IndexHash := {
  ix_rep s C := exists P, ih_rep s P C;
  ix_slot s p k := (p, k);
  ix_part s p := (p < ih_part_cnt s)%nat }.
Proof.
  - intros s C key row part nc (P & Hrep) Hp _. simpl. unfold ih_workload_insert.
    set (item := fresh (dom (ih_items s))).
    assert (ih_items s !! item = None) as Hnone by apply not_elem_of_dom, is_fresh.
    assert (forall a, item ∉ P a) as Hfresh.
    { intros [p k] Hin. destruct Hrep as [_ _ Hnode Hout _].
      destruct (ih_buckets s !! (p, ih_hash s k)) as [nodes|] eqn:Hn.
      - specialize (Hnode p k nodes Hn). unfold node_rep in Hnode.
        destruct (read_item k nodes); destruct Hnode as [Hi Hne].
        + destruct (items_rep_live _ _ _ _ _ Hi Hin). congruence.
        + rewrite Hi in Hin. by apply not_elem_of_nil in Hin.
      - rewrite (Hout _ _ Hn) in Hin. by apply not_elem_of_nil in Hin. }
    set (s1 := mkIndexHash _ _ _ _).
    assert (ih_rep s1 P C) as Hrep1.
    { destruct Hrep as [Hpos Hbkt Hnode Hout Hdisj]. constructor; try done.
      intros p k nodes Hn. specialize (Hnode p k nodes Hn). unfold node_rep in *.
      destruct (read_item k nodes) as [ptr|]; [|done]. destruct Hnode as [Hi ?].
      split; [|done]. eapply items_rep_frame; [|done]. intros q Hq. simpl.
      rewrite lookup_insert_ne; [done|]. intros ->. by apply (Hfresh (p, k)). }
    destruct (ih_insert_rep s1 P C key item row part Hrep1 Hp) as (s' & -> & Hrep' & Hpc & Hbc);
      [simpl; by rewrite lookup_insert_eq|done|].
    simpl. eexists. split; [done|]. split; [by eexists|]. split; [done|].
    intros p. by rewrite Hpc.
  - intros s C key part row ls (P & Hrep) Hp HC. simpl. unfold ih_first_row.
    destruct (ih_read_rep s P C key part row ls Hrep Hp HC) as (p & nxt & -> & Hit).
    simpl. by rewrite Hit.
Defined.

(** ** Properties *)

(** The hash index keeps one list of rows per key of a partition:
    an insertion puts the item in front of the items of its key and changes no
    other key, whether or not the keys share a bucket, and [index_read] returns
    the latest item of the key; no null pointer is followed when the key
    exists. *)
Theorem index_hash_refines s P C key item loc part :
  ih_rep s P C -> (part < ih_part_cnt s)%nat ->
  ih_items s !! item = Some (mkHitem loc None) -> (forall a, item ∉ P a) ->
  exists s', ih_index_insert key item part s = Some (RCOK, s') /\
    ih_rep s' (<[(part, key) := item :: P (part, key)]> P)
      (<[(part, key) := loc :: C (part, key)]> C) /\
    (forall k q l ls, (q < ih_part_cnt s)%nat ->
       (<[(part, key) := loc :: C (part, key)]> C : nat * Z -> list nat) (q, k) = l :: ls ->
       ih_first_row k q s' = Some (Some l)).
Proof.
  intros Hrep Hp Hit Hf.
  destruct (ih_insert_rep s P C key item loc part Hrep Hp Hit Hf) as (s' & ? & Hrep' & Hpc & _).
  exists s'. split_and!; [done..|]. intros k q l ls Hq HC. rewrite <- Hpc in Hq.
  destruct (ih_read_rep _ _ _ _ _ _ _ Hrep' Hq HC) as (p & nxt & Hr & Hl).
  unfold ih_first_row. rewrite Hr. simpl. by rewrite Hl.
Qed.

Lemma init_buckets_lookup parts cnt p i :
  init_buckets parts cnt !! (p, i) =
  if decide ((p < parts)%nat /\ (i < cnt)%nat) then Some [] else None.
Proof.
  induction parts as [|n IH]; cbn [init_buckets].
  { rewrite lookup_empty. destruct (decide _) as [[? _]|]; [lia|done]. }
  assert (forall l, foldr (fun j m => <[(n, j) := []]> m) (init_buckets n cnt) l !! (p, i) =
    if decide (p = n /\ i ∈ l) then Some [] else init_buckets n cnt !! (p, i)) as Hf.
  { induction l as [|j l IHl]; simpl.
    - rewrite decide_False; [done|]. intros [_ ?%not_elem_of_nil]. done.
    - destruct (decide ((n, j) = (p, i))) as [[= -> ->]|Hne].
      + rewrite lookup_insert_eq, decide_True; [done|]. split; [done|left].
      + rewrite lookup_insert_ne, IHl by done.
        destruct (decide (p = n /\ i ∈ l)) as [[-> ?]|Hn].
        * rewrite decide_True; [done|]. split; [done|by right].
        * rewrite decide_False; [done|]. intros [-> [->|?]%elem_of_cons]; tauto. }
  rewrite Hf, IH.
  destruct (decide (p = n /\ i ∈ seq 0 cnt)) as [[-> Hi%elem_of_seq]|Hn].
  { rewrite decide_True; [done|lia]. }
  destruct (decide ((p < n)%nat /\ (i < cnt)%nat)) as [[? ?]|Hn'].
  - rewrite decide_True; [done|lia].
  - rewrite decide_False; [done|]. intros [? ?].
    destruct (decide (p = n)) as [->|]; [|apply Hn'; lia].
    apply Hn. split; [done|]. apply elem_of_seq. lia.
Qed.

Lemma ih_init_rep bc pc : (0 < bc / pc)%nat ->
  ih_rep (IndexHash_init bc pc) (fun _ => []) (fun _ => []).
Proof.
  intros Hpos. constructor; simpl; [done| | |done|].
  - intros p i Hp Hi. rewrite init_buckets_lookup, decide_True by done. eauto.
  - intros p k nodes. rewrite init_buckets_lookup.
    destruct (decide _) as [_|_]; [|done]. intros [= <-]. done.
  - intros a b n Hn. by apply not_elem_of_nil in Hn.
Qed.

Lemma index_hash_refines_witness :
  let s := mkIndexHash 2 2 (init_buckets 2 2) {[ 4%nat := mkHitem 44 None ]} in
  exists s', ih_index_insert 6 4 1 s = Some (RCOK, s') /\ ih_first_row 6 1 s' = Some (Some 44%nat).
Proof.
  intros s.
  destruct (index_hash_refines s (fun _ => []) (fun _ => []) 6 4 44 1) as (s' & Hi & _ & Hr).
  - constructor; unfold s; cbn [ih_part_cnt ih_bucket_cnt_per_part ih_buckets ih_items];
      [lia| | |done|].
    + intros p i Hp Hi. rewrite init_buckets_lookup, decide_True by done. eauto.
    + intros p k nodes. rewrite init_buckets_lookup.
      destruct (decide _) as [_|_]; [|done]. intros [= <-]. done.
    + intros a b n Hn. by apply not_elem_of_nil in Hn.
  - simpl. lia.
  - reflexivity.
  - intros a Ha. by apply not_elem_of_nil in Ha.
  - exists s'. split; [exact Hi|]. apply (Hr 6 1%nat 44%nat []); [simpl; lia|].
    reflexivity.
Defined.
