(* ===== verification/TxnIndex.v ===== *)
(** * The rows and index entries of a transaction

    The buffers of [txn_man] (src/system/txn.h, txn.cpp) in which a transaction
    collects the rows it inserts and its index operations, with the exceptions of a
    full buffer, and [maintain_indexes], which applies them to the perfect hash
    index of IndexPerfect.v at the end of the transaction.  A buffer is the list of
    the array's elements up to its counter. *)

From stdpp Require Import functions list.
From S2P Require Import Prelude Global IndexPerfect.

Record IndexInsert := mkInsert {
  ii_index : nat; ii_key : Z; ii_row : nat; ii_pid : nat; ii_no_collision : bool }.
Record IndexDelete := mkDelete {
  id_index : nat; id_key : Z; id_item : addr; id_hint : addr; id_pid : nat }.

Record Buffers := mkBuffers {
  insert_rows : list nat;
  insert_index_ops : list IndexInsert;
  delete_index_ops : list IndexDelete }.

Definition empty_buffers : Buffers := mkBuffers [] [] [].

(** [std::runtime_error]; its text is left out. *)
Inductive Result (A : Type) := Ok (a : A) | Throw.
Arguments Ok {A} a.
Arguments Throw {A}.

(** The values of [CC_ALG]. *)
Inductive cc_alg := NO_WAIT | WAIT_DIE | DL_DETECT | TIMESTAMP | MVCC | HSTORE_ | OCC | TICTOC | SILO | VLL | HEKATON.
#[export] Instance cc_alg_eq_dec : EqDecision cc_alg.
Proof. solve_decision. Defined.

Section buffers.
Context (MAX_WRITE_SET : nat) (HSTORE : bool).
(** [CC_ALG], [g_part_alloc], whether freed memory stays in place ([MALLOC_TYPE] is [HAWK_ALLOC]), and [THREAD_ALLOC_HAWK_INSERT]. *)
Context (CC_ALG : cc_alg) (g_part_alloc hawk hawk_insert : bool).

Definition insert_row (row : nat) (b : Buffers) : Result Buffers :=
  if HSTORE then Ok b
  else if (MAX_WRITE_SET <=? length (insert_rows b))%nat then Throw
  else Ok (mkBuffers (insert_rows b ++ [row]) (insert_index_ops b) (delete_index_ops b)).

Definition insert_index (e : IndexInsert) (b : Buffers) : Result Buffers :=
  if (MAX_WRITE_SET <=? length (insert_index_ops b))%nat then Throw
  else Ok (mkBuffers (insert_rows b) (insert_index_ops b ++ [e]) (delete_index_ops b)).

Definition delete_index (e : IndexDelete) (b : Buffers) : Result Buffers :=
  if (MAX_WRITE_SET <=? length (delete_index_ops b))%nat then Throw
  else Ok (mkBuffers (insert_rows b) (insert_index_ops b) (delete_index_ops b ++ [e])).

(** The indexes by number. *)
Notation indexes := (nat -> IndexHashPerfect).

Definition apply_delete (e : IndexDelete) (ix : indexes) : option indexes :=
  do! r <- index_delete_safe hawk (id_key e) (id_pid e) (ix (id_index e));;
  Some (<[id_index e := snd r]> ix).

(** [m_item] is initialised on the stack and copied into the index. *)
Definition apply_insert (e : IndexInsert) (ix : indexes) : option indexes :=
  do! r <- index_insert (ii_key e) (row_item (ii_row e)) (ii_pid e) (ii_no_collision e) (ix (ii_index e));;
  Some (<[ii_index e := snd r]> ix).

Fixpoint apply_all {A} (f : A -> indexes -> option indexes) (es : list A) (ix : indexes) : option indexes :=
  match es with
  | [] => Some ix
  | e :: es => do! ix' <- f e ix;; apply_all f es ix'
  end.

Definition maintain_indexes (rc : RC) (b : Buffers) (ix : indexes) : option (Buffers * indexes) :=
  if bool_decide (rc = RCOK) then
    do! ix <- apply_all apply_delete (delete_index_ops b) ix;;
    do! ix <- apply_all apply_insert (insert_index_ops b) ix;;
    Some (mkBuffers (insert_rows b) [] [], ix)
  else Some (mkBuffers (insert_rows b) [] [], ix).

(** The part of [cleanup] after the accesses: the managers and the rows that an
    aborted transaction frees, of those that it inserted. *)
Definition drop_rows (rc : RC) (b : Buffers) : option (list nat * list nat * Buffers) :=
  let b' := mkBuffers [] (insert_index_ops b) (delete_index_ops b) in
  if bool_decide (rc = Abort) && negb (bool_decide (CC_ALG = HEKATON \/ CC_ALG = HSTORE_)) then
    assert! bool_decide (insert_rows b = []) || negb g_part_alloc;;
    Some (if hawk || bool_decide (CC_ALG = OCC) then [] else insert_rows b,
          if hawk || hawk_insert then [] else insert_rows b, b')
  else Some ([], [], b').

(** [cleanup] with [TPCC_ALL_TXN]; the accesses are left out. *)
Definition cleanup_buffers (rc : RC) (b : Buffers) (ix : indexes) :
    option (list nat * list nat * Buffers * indexes) :=
  do! r <- (if bool_decide (CC_ALG = SILO \/ CC_ALG = TICTOC) then Some (b, ix) else maintain_indexes rc b ix);;
  do! d <- drop_rows rc (fst r);;
  Some (d, snd r).

(** [finish]; [valid] is the outcome of the validation, if there is one. *)
Definition finish_buffers (rc : RC) (valid : bool) (b : Buffers) (ix : indexes) :
    option (RC * (list nat * list nat * Buffers * indexes)) :=
  let validated := if valid then rc else Abort in
  match CC_ALG with
  | OCC =>
      let rc := if bool_decide (rc = RCOK) then validated else rc in
      do! r <- cleanup_buffers rc b ix;; Some (rc, r)
  | SILO | TICTOC =>
      if bool_decide (rc = RCOK) then
        do! m <- maintain_indexes validated b ix;;
        do! r <- cleanup_buffers validated (fst m) (snd m);; Some (validated, r)
      else do! r <- cleanup_buffers rc b ix;; Some (rc, r)
  | HEKATON =>
      let rc := if bool_decide (rc = RCOK) then validated else rc in
      do! r <- cleanup_buffers rc b ix;; Some (rc, r)
  | _ => do! r <- cleanup_buffers rc b ix;; Some (rc, r)
  end.

(** ** Sequences of calls *)

Inductive Call := CRow (row : nat) | CInsert (e : IndexInsert) | CDelete (e : IndexDelete).

Definition call (c : Call) (b : Buffers) : Result Buffers :=
  match c with
  | CRow row => insert_row row b
  | CInsert e => insert_index e b
  | CDelete e => delete_index e b
  end.

(** The calls of a transaction: an exception is caught by the transaction, which
    goes on with the buffers as they are. *)
Fixpoint calls (cs : list Call) (b : Buffers) : list bool * Buffers :=
  match cs with
  | [] => ([], b)
  | c :: cs =>
      match call c b with
      | Ok b' => let '(l, b'') := calls cs b' in (true :: l, b'')
      | Throw => let '(l, b'') := calls cs b in (false :: l, b'')
      end
  end.

Definition rows_of (cs : list Call) : list nat :=
  omap (fun c => match c with CRow r => Some r | _ => None end) cs.
Definition inserts_of (cs : list Call) : list IndexInsert :=
  omap (fun c => match c with CInsert e => Some e | _ => None end) cs.
Definition deletes_of (cs : list Call) : list IndexDelete :=
  omap (fun c => match c with CDelete e => Some e | _ => None end) cs.

(** ** The contents of the indexes *)

Notation contents := (nat -> bkt -> list nat).

Definition reps (ix : indexes) (C : contents) : Prop := forall i, exists N, rep (ix i) N (C i).

Definition slot_at (ix : indexes) (i : nat) (pid : nat) (key : Z) : bkt := (pid, hash (ix i) key).

(** What the buffered operations are to do to the contents. *)
Definition del_spec (ix : indexes) (C : contents) (e : IndexDelete) : contents :=
  let b := slot_at ix (id_index e) (id_pid e) (id_key e) in
  <[id_index e := <[b := removelast (C (id_index e) b)]> (C (id_index e))]> C.
Definition ins_spec (ix : indexes) (C : contents) (e : IndexInsert) : contents :=
  let b := slot_at ix (ii_index e) (ii_pid e) (ii_key e) in
  <[ii_index e := <[b := ii_row e :: C (ii_index e) b]> (C (ii_index e))]> C.

(** Every entry to delete is there, every partition exists, and a collision is
    announced. *)
Fixpoint dels_ok (ix : indexes) (C : contents) (es : list IndexDelete) : Prop :=
  match es with
  | [] => True
  | e :: es => C (id_index e) (slot_at ix (id_index e) (id_pid e) (id_key e)) <> [] /\
               dels_ok ix (del_spec ix C e) es
  end.
Fixpoint inss_ok (ix : indexes) (C : contents) (es : list IndexInsert) : Prop :=
  match es with
  | [] => True
  | e :: es => (ii_pid e < part_cnt (ix (ii_index e)))%nat /\
               (C (ii_index e) (slot_at ix (ii_index e) (ii_pid e) (ii_key e)) <> [] -> ii_no_collision e = false) /\
               inss_ok ix (ins_spec ix C e) es
  end.

(** Two states of the indexes with the same geometry. *)
Definition same_shape (ix ix' : indexes) : Prop :=
  forall i, bucket_cnt_per_part (ix' i) = bucket_cnt_per_part (ix i) /\ part_cnt (ix' i) = part_cnt (ix i).

Lemma same_slot ix ix' i pid key : same_shape ix ix' -> slot_at ix' i pid key = slot_at ix i pid key.
Proof using Type. intros H. unfold slot_at, hash. by destruct (H i) as [-> _]. Qed.

Lemma reps_insert ix C i s c :
  reps ix C -> (exists N, rep s N c) -> reps (<[i := s]> ix) (<[i := c]> C).
Proof using Type.
  intros Hr Hs j. destruct (decide (j = i)) as [->|]; [by rewrite !fn_lookup_insert|].
  rewrite !fn_lookup_insert_ne by done. apply Hr.
Qed.

Lemma shape_insert ix ix' i s :
  same_shape ix ix' -> bucket_cnt_per_part s = bucket_cnt_per_part (ix' i) -> part_cnt s = part_cnt (ix' i) ->
  same_shape ix (<[i := s]> ix').
Proof using Type.
  intros Hs H1 H2 j. destruct (decide (j = i)) as [->|]; [|rewrite fn_lookup_insert_ne by done; apply Hs].
  rewrite fn_lookup_insert, H1, H2. apply Hs.
Qed.

Lemma apply_deletes_ok ix ix' C es :
  reps ix' C -> same_shape ix ix' -> dels_ok ix C es ->
  exists ix'', apply_all apply_delete es ix' = Some ix'' /\ same_shape ix ix'' /\
    reps ix'' (fold_left (del_spec ix) es C).
Proof using Type.
  revert ix' C. induction es as [|e es IH]; intros ix' C Hr Hs Hok; simpl; [by exists ix'|].
  destruct Hok as [Hne Hok]. rewrite <- (same_slot ix ix') in Hne by done.
  destruct (Hr (id_index e)) as [N HN]. unfold slot_at in Hne.
  destruct (rep_nonempty _ _ _ _ _ HN Hne) as (Hp & _ & _ & _ & Htl).
  destruct (last (cells _ _)) as [tl|] eqn:Hl; [|by apply last_None in Hl].
  destruct (index_delete_safe_rep hawk _ _ _ (id_key e) (id_pid e) tl HN Hp Htl)
    as (s' & N' & Hd & Hrep' & Hb & Hpc & _).
  unfold apply_delete at 1. rewrite Hd. simpl. apply IH.
  - unfold del_spec. rewrite <- (same_slot ix ix') by done. by apply reps_insert; eauto.
  - by apply shape_insert.
  - done.
Qed.

Lemma apply_inserts_ok ix ix' C es :
  reps ix' C -> same_shape ix ix' -> inss_ok ix C es ->
  exists ix'', apply_all apply_insert es ix' = Some ix'' /\ same_shape ix ix'' /\
    reps ix'' (fold_left (ins_spec ix) es C).
Proof using Type.
  revert ix' C. induction es as [|e es IH]; intros ix' C Hr Hs Hok; simpl; [by exists ix'|].
  destruct Hok as (Hp & Hnc & Hok). rewrite <- (same_slot ix ix') in Hnc by done.
  destruct (Hs (ii_index e)) as [_ Hpart]. rewrite <- Hpart in Hp.
  destruct (Hr (ii_index e)) as [N HN].
  destruct (index_insert_rep _ _ _ (ii_key e) (row_item (ii_row e)) (ii_pid e) (ii_no_collision e) HN Hp)
    as (s' & N' & Hi & Hrep' & Hb & Hpc); [done|done|].
  unfold apply_insert at 1. rewrite Hi. simpl. apply IH.
  - unfold ins_spec. rewrite <- (same_slot ix ix') by done. by apply reps_insert; eauto.
  - by apply shape_insert.
  - done.
Qed.

Lemma calls_spec cs b :
  let '(oks, b') := calls cs b in
  length oks = length cs /\
  (HSTORE = false -> insert_rows b' = take (MAX_WRITE_SET `max` length (insert_rows b)) (insert_rows b ++ rows_of cs)) /\
  (HSTORE = true -> insert_rows b' = insert_rows b) /\
  insert_index_ops b' = take (MAX_WRITE_SET `max` length (insert_index_ops b)) (insert_index_ops b ++ inserts_of cs) /\
  delete_index_ops b' = take (MAX_WRITE_SET `max` length (delete_index_ops b)) (delete_index_ops b ++ deletes_of cs).
Proof using Type.
  assert (forall A (l l' : list A), take (MAX_WRITE_SET `max` length l) (l ++ []) = l) as Hnil.
  { intros A l _. rewrite app_nil_r. apply take_ge. lia. }
  assert (forall A (l : list A) x l', (MAX_WRITE_SET <= length l)%nat ->
    take (MAX_WRITE_SET `max` length l) (l ++ l') = take (MAX_WRITE_SET `max` length l) (l ++ x :: l')) as Hfull.
  { intros A l x l' Hl. rewrite Nat.max_r by done. by rewrite !take_app_length. }
  assert (forall A (l : list A) x l', (length l < MAX_WRITE_SET)%nat ->
    take (MAX_WRITE_SET `max` length (l ++ [x])) ((l ++ [x]) ++ l') = take (MAX_WRITE_SET `max` length l) (l ++ x :: l'))
    as Hroom.
  { intros A l x l' Hl. rewrite <- (assoc_L (++)). simpl. f_equal. rewrite length_app. simpl. lia. }
  revert b. induction cs as [|c cs IH]; intros b; simpl; [by rewrite !Hnil by exact []|].
  destruct c as [row|e|e]; simpl; unfold insert_row, insert_index, delete_index.
  - destruct HSTORE eqn:Eh.
    + specialize (IH b). destruct (calls cs b) as [l b']. destruct IH as (? & _ & ? & ? & ?).
      split_and!; simpl; auto; done.
    + destruct (_ <=? _)%nat eqn:E; [apply Nat.leb_le in E|apply Nat.leb_gt in E].
      * specialize (IH b). destruct (calls cs b) as [l b']. destruct IH as (? & Hr & _ & ? & ?).
        split_and!; simpl; auto; [|done]. intros _. rewrite Hr by done. by apply Hfull.
      * specialize (IH (mkBuffers (insert_rows b ++ [row]) (insert_index_ops b) (delete_index_ops b))).
        destruct (calls cs _) as [l b']. simpl in IH. destruct IH as (? & Hr & _ & ? & ?).
        split_and!; simpl; auto; [|done]. intros _. rewrite Hr by done. by apply Hroom.
  - destruct (_ <=? _)%nat eqn:E; [apply Nat.leb_le in E|apply Nat.leb_gt in E].
    + specialize (IH b). destruct (calls cs b) as [l b']. destruct IH as (? & ? & ? & Hr & ?).
      split_and!; simpl; auto. rewrite Hr. by apply Hfull.
    + specialize (IH (mkBuffers (insert_rows b) (insert_index_ops b ++ [e]) (delete_index_ops b))).
      destruct (calls cs _) as [l b']. simpl in IH. destruct IH as (? & ? & ? & Hr & ?).
      split_and!; simpl; auto. rewrite Hr. by apply Hroom.
  - destruct (_ <=? _)%nat eqn:E; [apply Nat.leb_le in E|apply Nat.leb_gt in E].
    + specialize (IH b). destruct (calls cs b) as [l b']. destruct IH as (? & ? & ? & ? & Hr).
      split_and!; simpl; auto. rewrite Hr. by apply Hfull.
    + specialize (IH (mkBuffers (insert_rows b) (insert_index_ops b) (delete_index_ops b ++ [e]))).
      destruct (calls cs _) as [l b']. simpl in IH. destruct IH as (? & ? & ? & ? & Hr).
      split_and!; simpl; auto. rewrite Hr. by apply Hroom.
Qed.
End buffers.

(** ** What the buffers guarantee *)

Lemma calls_app MAX HSTORE cs cs' b :
  calls MAX HSTORE (cs ++ cs') b =
  let '(l, b1) := calls MAX HSTORE cs b in
  let '(l', b2) := calls MAX HSTORE cs' b1 in (l ++ l', b2).
Proof.
  revert b. induction cs as [|c cs IH]; intros b; simpl; [by destruct (calls _ _ cs' b)|].
  destruct (call _ _ c b) as [b1|]; rewrite IH; destruct (calls _ _ cs _) as [l b2];
    by destruct (calls _ _ cs' b2).
Qed.

Definition accepted (MAX : nat) (HSTORE : bool) (before : list Call) (c : Call) : bool :=
  match c with
  | CRow _ => HSTORE || (length (rows_of before) <? MAX)%nat
  | CInsert _ => (length (inserts_of before) <? MAX)%nat
  | CDelete _ => (length (deletes_of before) <? MAX)%nat
  end.

(** C25. Full buffers: of any sequence of calls of a transaction that starts with
    empty buffers, a call throws exactly when MAX_WRITE_SET calls of its kind came
    before (an HSTORE transaction inserts rows without the buffer), a call that
    throws changes nothing, and the buffers hold the accepted requests in order,
    never more than fit. *)
Theorem txn_buffers_errors MAX HSTORE cs :
  let '(oks, b) := calls MAX HSTORE cs empty_buffers in
  (forall i c, cs !! i = Some c -> oks !! i = Some (accepted MAX HSTORE (take i cs) c)) /\
  insert_rows b = (if HSTORE then [] else take MAX (rows_of cs)) /\
  insert_index_ops b = take MAX (inserts_of cs) /\
  delete_index_ops b = take MAX (deletes_of cs).
Proof.
  assert (forall cs b, snd (calls MAX HSTORE cs empty_buffers) = b ->
    insert_rows b = (if HSTORE then [] else take MAX (rows_of cs)) /\
    insert_index_ops b = take MAX (inserts_of cs) /\ delete_index_ops b = take MAX (deletes_of cs)) as Hb.
  { intros cs' b. pose proof (calls_spec MAX HSTORE cs' empty_buffers) as Hs.
    destruct (calls MAX HSTORE cs' empty_buffers) as [oks b']. simpl in *. intros <-.
    rewrite Nat.max_0_r in Hs. destruct Hs as (_ & Hf & Ht & ? & ?). split_and!; [|done|done].
    destruct HSTORE; auto. }
  destruct (calls MAX HSTORE cs empty_buffers) as [oks b] eqn:E.
  split; [|apply Hb; by rewrite E].
  intros i c Hc. rewrite <- (take_drop_middle cs i c Hc), calls_app in E.
  pose proof (calls_spec MAX HSTORE (take i cs) empty_buffers) as Hlen.
  specialize (Hb (take i cs) _ eq_refl).
  destruct (calls MAX HSTORE (take i cs) empty_buffers) as [l b1]. simpl in Hb. destruct Hlen as [Hlen _].
  assert (length l = i) as Hl.
  { rewrite Hlen, length_take. apply lookup_lt_Some in Hc. lia. }
  destruct Hb as (Hr & Hi & Hd). simpl in E.
  assert (forall A (k : list A), (MAX <=? length (take MAX k))%nat = negb (length k <? MAX)%nat) as Hle.
  { intros A k. rewrite length_take. destruct (length k <? MAX)%nat eqn:E'; simpl;
      [apply Nat.ltb_lt in E'; apply Nat.leb_gt|apply Nat.ltb_ge in E'; apply Nat.leb_le]; lia. }
  assert (call MAX HSTORE c b1 = Throw <-> accepted MAX HSTORE (take i cs) c = false) as Hth.
  { destruct c; simpl; unfold insert_row, insert_index, delete_index; rewrite ?Hr, ?Hi, ?Hd.
    - destruct HSTORE; simpl; [done|]. rewrite Hle. by destruct (_ <? _)%nat.
    - rewrite Hle. by destruct (_ <? _)%nat.
    - rewrite Hle. by destruct (_ <? _)%nat. }
  destruct (call MAX HSTORE c b1) as [b2|].
  - destruct (calls MAX HSTORE (drop (S i) cs) b2) as [l' b3]. injection E as <- <-.
    rewrite list_lookup_middle by done. f_equal.
    destruct (accepted _ _ _ _); [done|]. discriminate (proj2 Hth eq_refl).
  - destruct (calls MAX HSTORE (drop (S i) cs) b1) as [l' b3]. injection E as <- <-.
    rewrite list_lookup_middle by done. f_equal. symmetry. by apply Hth.
Qed.

(** The index operations that are left in the buffers: SILO and TICTOC leave them at an abort before the validation. *)
Definition left_over (CC_ALG : cc_alg) (rc : RC) (b : Buffers) : Buffers :=
  if bool_decide ((CC_ALG = SILO \/ CC_ALG = TICTOC) /\ rc = Abort)
  then mkBuffers [] (insert_index_ops b) (delete_index_ops b) else empty_buffers.

(** Whether the transaction commits. *)
Definition commits (CC_ALG : cc_alg) (rc : RC) (valid : bool) : bool :=
  bool_decide (rc = RCOK) && (valid || negb (bool_decide (CC_ALG = OCC \/ CC_ALG = SILO \/ CC_ALG = TICTOC \/ CC_ALG = HEKATON))).

(** C24. The index operations of a transaction are applied at its end or not at all,
    for every concurrency control algorithm.  After a commit, when every entry to
    delete is there and collisions are announced, no assertion fails and no null
    pointer is followed, the indexes hold what the deletions, in order, and then
    the insertions, in order, make of them, nothing is freed and the buffers are
    empty.  After an abort the indexes are unchanged and the inserted rows with
    their managers are freed, except for the rows under HEKATON, HSTORE and the HAWK
    allocators and the managers also under OCC; the buffers are empty unless SILO or
    TICTOC aborts before its validation: then the index operations stay in the
    buffers of the next transaction. *)
Theorem maintain_indexes_refines CC_ALG hawk hawk_insert rc valid b ix C
  (Hrc : rc = RCOK \/ rc = Abort)
  (Hr : reps ix C)
  (Hd : dels_ok ix C (delete_index_ops b))
  (Hi : inss_ok ix (fold_left (del_spec ix) (delete_index_ops b) C) (insert_index_ops b)) :
  if commits CC_ALG rc valid then
    exists ix', finish_buffers CC_ALG false hawk hawk_insert rc valid b ix = Some (RCOK, ([], [], empty_buffers, ix')) /\
      reps ix' (fold_left (ins_spec ix) (insert_index_ops b) (fold_left (del_spec ix) (delete_index_ops b) C)) /\
      same_shape ix ix'
  else
    let none := bool_decide (CC_ALG = HEKATON \/ CC_ALG = HSTORE_) || hawk in
    finish_buffers CC_ALG false hawk hawk_insert rc valid b ix =
      Some (Abort, (if none || bool_decide (CC_ALG = OCC) then [] else insert_rows b,
                    if none || hawk_insert then [] else insert_rows b, left_over CC_ALG rc b, ix)).
Proof.
  destruct (apply_deletes_ok hawk ix ix C (delete_index_ops b) Hr) as (ix1 & H1 & Hs1 & Hr1); [by intros i|done|].
  destruct (apply_inserts_ok ix ix1 _ (insert_index_ops b) Hr1 Hs1 Hi) as (ix2 & H2 & Hs2 & Hr2).
  assert (maintain_indexes hawk RCOK b ix = Some (mkBuffers (insert_rows b) [] [], ix2)) as Hm.
  { unfold maintain_indexes. simpl. by rewrite H1, H2. }
  destruct (commits CC_ALG rc valid) eqn:Hc.
  - exists ix2. split; [|done]. unfold commits in Hc. apply andb_prop in Hc as [->%bool_decide_eq_true Hv].
    destruct CC_ALG, valid; try discriminate Hv; unfold finish_buffers, cleanup_buffers, drop_rows; simpl; rewrite Hm; done.
  - unfold commits in Hc. destruct Hrc as [-> | ->].
    + destruct CC_ALG, valid; try discriminate Hc; unfold finish_buffers, cleanup_buffers, drop_rows, maintain_indexes, left_over;
        simpl; rewrite ?orb_true_r, ?orb_false_r; done.
    + destruct CC_ALG; unfold finish_buffers, cleanup_buffers, drop_rows, maintain_indexes, left_over;
        simpl; rewrite ?orb_true_r, ?orb_false_r; done.
Qed.

Definition bufs_ex : Buffers :=
  mkBuffers [5; 6]%nat [mkInsert 0 7 5 0 true; mkInsert 0 11 6 0 false] [].

Lemma maintain_indexes_refines_witness : exists ix',
  finish_buffers SILO false true false RCOK true bufs_ex (fun _ => IndexHashPerfect_init 4 1) = Some (RCOK, ([], [], empty_buffers, ix')) /\
  first_row 7 0 (ix' 0%nat) = Some (Some 6%nat).
Proof.
  assert (forall i : nat, hash (IndexHashPerfect_init 4 1) 7 = 3%nat /\ hash (IndexHashPerfect_init 4 1) 11 = 3%nat)
    as Hh by (intros; by vm_compute).
  destruct (maintain_indexes_refines SILO true false RCOK true bufs_ex (fun _ => IndexHashPerfect_init 4 1) (fun _ _ => []))
    as (ix' & Hc & _).
  - left. reflexivity.
  - intros i. exists (fun _ => []). apply init_rep. vm_compute. lia.
  - exact I.
  - simpl. split_and!; [vm_compute; lia|done|vm_compute; lia|done|done].
  - exists ix'. split; [exact Hc|].
    assert ((fun r => first_row 7 0 (snd (snd r) 0%nat)) <$> finish_buffers SILO false true false RCOK true bufs_ex
      (fun _ => IndexHashPerfect_init 4 1) = Some (Some (Some 6%nat))) as Hf by (vm_compute; reflexivity).
    rewrite Hc in Hf. simpl in Hf. by injection Hf.
Defined.

(** Under SILO the entries of a transaction that aborted in its body are made by the next one. *)
Example silo_left_over : match finish_buffers SILO false false false Abort true bufs_ex (fun _ => IndexHashPerfect_init 4 1) with
  | Some (_, (freed, _, b, ix)) => freed = [5; 6]%nat /\
      match finish_buffers SILO false false false RCOK true b ix with
      | Some (_, (_, _, _, ix)) => first_row 7 0 (ix 0%nat) = Some (Some 6%nat)
      | None => False
      end
  | None => False
  end.
Proof. vm_compute. split; reflexivity. Qed.
