(* ===== verification/RowLock.v ===== *)
(** The per-row two-phase-locking manager of concurrency_control/row_lock.cpp:
    the owner and waiter lists of one row, [lock_get] and [lock_release] for
    DL_DETECT, NO_WAIT and WAIT_DIE, and the system of all rows with the
    waits-for relation. *)

From S2P Require Import Prelude Global.

(** ** Data *)

(** The values of [CC_ALG] for which [Row_lock] is compiled. *)
Inductive lock_alg := DL_DETECT | NO_WAIT | WAIT_DIE.

#[export] Instance lock_alg_eq_dec : EqDecision lock_alg.
Proof. solve_decision. Defined.

(** Each worker thread has one [txn_man]; the pointer to it is modelled by the
    id of the thread. *)
Record LockEntry := mkLockEntry { le_type : lock_t; le_txn : nat }.

(** [owners] is a singly linked list used as a stack (its head first);
    [waiters] is the doubly linked list from [waiters_head] to
    [waiters_tail]. *)
Record Row_lock := mkRow_lock {
  lock_type : lock_t;
  owner_cnt : Z;
  waiter_cnt : Z;
  owners : list LockEntry;
  waiters : list LockEntry }.

Definition Row_lock_init : Row_lock := mkRow_lock LOCK_NONE 0 0 [] [].

Definition conflict_lock (l1 l2 : lock_t) : bool :=
  if bool_decide (l1 = LOCK_NONE) || bool_decide (l2 = LOCK_NONE) then false
  else if bool_decide (l1 = LOCK_EX) || bool_decide (l2 = LOCK_EX) then true
  else false.

Section row_lock.
(** [g_thread_cnt], and the fields of [txn_man] the lock manager reads: the
    timestamp [get_ts()] and the id [get_txn_id()]. They do not change while
    the transaction holds or waits for locks. *)
Context (g_thread_cnt : nat) (get_ts : nat -> Z) (get_txn_id : nat -> Z).
Context (CC_ALG : lock_alg).

(** *** lock_get *)

(** The loop over the owners: can the transaction wait (WAIT_DIE)? *)
Fixpoint can_wait (txn : nat) (en : list LockEntry) : bool :=
  match en with
  | [] => true
  | e :: en' => if get_ts (le_txn e) <? get_ts txn then false
                else can_wait txn en'
  end.

(** The search for the position of a new waiter, and its insertion
    ([LIST_INSERT_BEFORE], or [LIST_PUT_TAIL] at the end). *)
Fixpoint insert_waiter (entry : LockEntry) (en : list LockEntry)
    : list LockEntry :=
  match en with
  | [] => [entry]
  | e :: en' => if get_ts (le_txn entry) <? get_ts (le_txn e)
                then e :: insert_waiter entry en'
                else entry :: e :: en'
  end.

(** The transactions the new waiter at the tail depends on (DL_DETECT): the
    conflicting waiters in front of it, from the tail to the head, then the
    owners when they conflict. *)
Definition dep_txnids (type lt : lock_t) (front own : list LockEntry)
    : list Z :=
  map (fun en => get_txn_id (le_txn en))
      (List.filter (fun en => conflict_lock type (le_type en)) (rev front) ++
       (if conflict_lock type lt then own else [])).

Definition lg_conflict (type : lock_t) (txn : nat) (s : Row_lock) : bool :=
  let conflict := conflict_lock (lock_type s) type in
  let conflict :=
    if bool_decide (CC_ALG = WAIT_DIE) && negb conflict then
      match waiters s with
      | h :: _ => if get_ts txn <? get_ts (le_txn h) then true else conflict
      | [] => conflict
      end
    else conflict in
  if bool_decide (CC_ALG = DL_DETECT) && negb (bool_decide (waiters s = []))
  then true else conflict.

(** The result: the return code, the [txnids] array (DL_DETECT), the lock
    and the [lock_ready] flags of the transactions. *)
Definition lock_get (type : lock_t) (txn : nat)
    (s : Row_lock) (lock_ready : gmap nat bool)
    : option (RC * list Z * Row_lock * gmap nat bool) :=
  assert! owner_cnt s <=? Z.of_nat g_thread_cnt;;
  assert! waiter_cnt s <? Z.of_nat g_thread_cnt;;
  let entry := mkLockEntry type txn in
  if lg_conflict type txn s then
    match CC_ALG with
    | NO_WAIT => Some (Abort, [], s, lock_ready)
    | DL_DETECT =>
        let txnids := dep_txnids type (lock_type s) (waiters s) (owners s) in
        assert! negb (bool_decide (txnids = []));;
        Some (WAIT, txnids,
              mkRow_lock (lock_type s) (owner_cnt s) (u32 (waiter_cnt s + 1))
                (owners s) (waiters s ++ [entry]),
              <[txn := false]> lock_ready)
    | WAIT_DIE =>
        if can_wait txn (owners s) then
          Some (WAIT, [],
                mkRow_lock (lock_type s) (owner_cnt s)
                  (u32 (waiter_cnt s + 1)) (owners s)
                  (insert_waiter entry (waiters s)),
                <[txn := false]> lock_ready)
        else Some (Abort, [], s, lock_ready)
    end
  else
    assert! negb (bool_decide (CC_ALG = DL_DETECT))
            || bool_decide (waiters s = []);;
    Some (RCOK, [],
          mkRow_lock type (u32 (owner_cnt s + 1)) (waiter_cnt s)
            (entry :: owners s) (waiters s), lock_ready).

(** *** lock_release *)

(** [while (waiters_head && !conflict_lock(lock_type, waiters_head->type))]:
    moves waiters to the owners. *)
Fixpoint promote (lt : lock_t) (ocnt wcnt : Z) (own w : list LockEntry)
    (lock_ready : gmap nat bool) : option (Row_lock * gmap nat bool) :=
  match w with
  | [] => Some (mkRow_lock lt ocnt wcnt own [], lock_ready)
  | e :: w' =>
      if conflict_lock lt (le_type e)
      then Some (mkRow_lock lt ocnt wcnt own w, lock_ready)
      else
        assert! bool_decide (lock_ready !! le_txn e = Some false);;
        promote (le_type e) (u32 (ocnt + 1)) (u32 (wcnt - 1)) (e :: own) w'
          (<[le_txn e := true]> lock_ready)
  end.

Definition is_txn (txn : nat) (en : LockEntry) : bool :=
  bool_decide (le_txn en = txn).

(** The first half of [lock_release]: unlink the entry of [txn] from the
    owners, or from the waiters when it is not an owner. *)
Definition unlink (txn : nat) (s : Row_lock) : option Row_lock :=
  match remove_first (is_txn txn) (owners s) with
  | Some (_, own) =>
      let oc := u32 (owner_cnt s - 1) in
      Some (mkRow_lock (if oc =? 0 then LOCK_NONE else lock_type s) oc
              (waiter_cnt s) own (waiters s))
  | None =>
      match remove_first (is_txn txn) (waiters s) with
      | Some (_, w) =>
          Some (mkRow_lock (lock_type s) (owner_cnt s)
                  (u32 (waiter_cnt s - 1)) (owners s) w)
      | None => None (* ASSERT(en) *)
      end
  end.

Definition lock_release (txn : nat) (s : Row_lock)
    (lock_ready : gmap nat bool) : option (RC * Row_lock * gmap nat bool) :=
  match unlink txn s with
  | None => None
  | Some s1 =>
      assert! negb (owner_cnt s1 =? 0)
              || bool_decide (lock_type s1 = LOCK_NONE);;
      match promote (lock_type s1) (owner_cnt s1) (waiter_cnt s1)
              (owners s1) (waiters s1) lock_ready with
      | None => None
      | Some (s2, lock_ready2) =>
          assert! Bool.eqb (bool_decide (owners s2 = [])) (owner_cnt s2 =? 0);;
          Some (RCOK, s2, lock_ready2)
      end
  end.

(** ** The invariant of one row lock *)

Definition entries (s : Row_lock) : list LockEntry := owners s ++ waiters s.
Definition txns (l : list LockEntry) : list nat := map le_txn l.

(** The owners agree with [lock_type]: all share, or one has the row alone. *)
Definition owners_ok (lt : lock_t) (own : list LockEntry) : Prop :=
  match own with
  | [] => lt = LOCK_NONE
  | _ => lt <> LOCK_NONE /\ Forall (fun e => le_type e = lt) own /\
         (lt = LOCK_EX -> length own = 1%nat)
  end.

(** No waiter could be an owner: the first one conflicts with the lock. *)
Definition head_blocked (lt : lock_t) (w : list LockEntry) : Prop :=
  match w with [] => True | e :: _ => conflict_lock lt (le_type e) = true end.

(** Every part of the invariant but [head_blocked], which does not hold
    between the two halves of [lock_release]. *)
Record row_pre_ok (s : Row_lock) (lock_ready : gmap nat bool) : Prop := {
  ok_owner_cnt : owner_cnt s = Z.of_nat (length (owners s));
  ok_waiter_cnt : waiter_cnt s = Z.of_nat (length (waiters s));
  ok_nodup : NoDup (txns (entries s));
  ok_threads : Forall (fun t => (t < g_thread_cnt)%nat) (txns (entries s));
  ok_owners : owners_ok (lock_type s) (owners s);
  ok_types : Forall (fun e => le_type e <> LOCK_NONE) (waiters s);
  ok_ready : Forall (fun e => lock_ready !! le_txn e = Some false) (waiters s) }.

Definition row_ok (s : Row_lock) (lock_ready : gmap nat bool) : Prop :=
  row_pre_ok s lock_ready /\ head_blocked (lock_type s) (waiters s).

(** The order of WAIT_DIE: every waiter is at least as old as every owner,
    and the waiters are in descending timestamp order. *)
Definition wd_ge (a b : LockEntry) : Prop :=
  get_ts (le_txn b) <= get_ts (le_txn a).

Definition wait_die_ok (s : Row_lock) : Prop :=
  StronglySorted wd_ge (waiters s) /\
  Forall (fun o => Forall (wd_ge o) (waiters s)) (owners s).

(** ** Lemmas *)

Lemma conflict_lock_sym l1 l2 : conflict_lock l1 l2 = conflict_lock l2 l1.
Proof. by destruct l1, l2. Qed.

(** Two locks are compatible exactly when both are shared, [LOCK_NONE]
    being compatible with all. *)
Lemma conflict_lock_false l1 l2 :
  conflict_lock l1 l2 = false <->
  l1 = LOCK_NONE \/ l2 = LOCK_NONE \/ (l1 = LOCK_SH /\ l2 = LOCK_SH).
Proof. destruct l1, l2; simpl; naive_solver. Qed.

Lemma insert_waiter_Permutation e w : insert_waiter e w ≡ₚ e :: w.
Proof.
  induction w as [|a w IH]; simpl; [done|].
  case_match; [|done]. rewrite IH. constructor.
Qed.

Lemma insert_waiter_sorted e w :
  StronglySorted wd_ge w -> StronglySorted wd_ge (insert_waiter e w).
Proof.
  induction 1 as [|a w Hs IH Ha]; simpl; [repeat constructor|].
  case_step.
  - constructor; [done|]. rewrite insert_waiter_Permutation.
    constructor; [|done]. unfold wd_ge. lia.
  - constructor; [by constructor|]. constructor; [unfold wd_ge; lia|].
    eapply Forall_impl; [exact Ha|]. unfold wd_ge. intros x ?. lia.
Qed.

(** A new waiter that does not become the head leaves the head in place. *)
Lemma insert_waiter_head lt e w :
  head_blocked lt w -> conflict_lock lt (le_type e) = true \/
    (exists h w', w = h :: w' /\ get_ts (le_txn e) < get_ts (le_txn h)) ->
  head_blocked lt (insert_waiter e w).
Proof.
  intros Hh [Hc|(h & w' & -> & Hlt)].
  - destruct w as [|h w]; simpl in *; [done|]. by case_match.
  - simpl in *. apply Z.ltb_lt in Hlt. by rewrite Hlt.
Qed.

Lemma can_wait_true txn own :
  can_wait txn own = true <->
  Forall (fun o => get_ts txn <= get_ts (le_txn o)) own.
Proof.
  induction own as [|o own IH]; simpl; [by split|].
  rewrite Forall_cons. case_step; rewrite ?IH; split; try tauto; [done|lia].
Qed.

Lemma txns_app l1 l2 : txns (l1 ++ l2) = txns l1 ++ txns l2.
Proof. apply map_app. Qed.

Lemma elem_of_txns t l : t ∈ txns l <-> exists e, e ∈ l /\ le_txn e = t.
Proof.
  unfold txns. rewrite list_elem_of_fmap. split; intros (e & ? & ?); eauto.
Qed.

#[local] Instance txns_Permutation : Proper ((≡ₚ) ==> (≡ₚ)) txns.
Proof. intros ???. by apply Permutation_map. Qed.

(** The number of entries is at most the number of threads. *)
Lemma entries_length s fl :
  row_pre_ok s fl ->
  (length (owners s) + length (waiters s) <= g_thread_cnt)%nat.
Proof.
  intros H. rewrite <- length_app.
  rewrite <- (length_map le_txn). apply NoDup_lt_length; apply H.
Qed.

Lemma entries_length_fresh s fl txn :
  row_pre_ok s fl -> (txn < g_thread_cnt)%nat -> txn ∉ txns (entries s) ->
  (length (owners s) + length (waiters s) < g_thread_cnt)%nat.
Proof.
  intros H Hlt Hni. rewrite <- length_app, <- (length_map le_txn).
  apply (NoDup_lt_length (txn :: txns (entries s))).
  - constructor; [done|]. apply H.
  - constructor; [done|]. apply H.
Qed.

Lemma Forall_ready_insert (fl : gmap nat bool) txn b (l : list LockEntry) :
  txn ∉ txns l ->
  Forall (fun e => fl !! le_txn e = Some false) l ->
  Forall (fun e => <[txn := b]> fl !! le_txn e = Some false) l.
Proof.
  rewrite !Forall_forall. intros Hni HF e He.
  rewrite lookup_insert_ne; [auto|]. intros ->.
  apply Hni, elem_of_txns. eauto.
Qed.

(** [row_pre_ok] only depends on the lists up to permutation. *)
Lemma owners_ok_cons lt own type :
  owners_ok lt own -> type <> LOCK_NONE -> conflict_lock lt type = false ->
  forall txn, owners_ok type (mkLockEntry type txn :: own).
Proof.
  intros Ho Ht Hc txn. destruct own as [|o own]; simpl in *.
  - subst. repeat split; auto.
  - destruct Ho as (? & HF & ?).
    apply conflict_lock_false in Hc as [|[|[-> ->]]]; try done.
    repeat split; auto. done.
Qed.

Lemma add_owner_ok type txn s fl :
  row_pre_ok s fl -> Z.of_nat g_thread_cnt < 2 ^ 32 ->
  type <> LOCK_NONE -> (txn < g_thread_cnt)%nat -> txn ∉ txns (entries s) ->
  conflict_lock (lock_type s) type = false ->
  row_pre_ok (mkRow_lock type (u32 (owner_cnt s + 1)) (waiter_cnt s)
                (mkLockEntry type txn :: owners s) (waiters s)) fl.
Proof.
  intros H Hg Ht Hlt Hni Hc.
  pose proof (entries_length_fresh _ _ _ H Hlt Hni) as Hlen.
  destruct H as [Hoc Hwc Hnd Hth Ho Hty Hre].
  constructor; simpl; try done.
  - rewrite Hoc, u32_small; unfold is_u32; lia.
  - by constructor.
  - by constructor.
  - eapply (owners_ok_cons _ _ _ Ho Ht Hc).
Qed.

Lemma add_waiter_ok type txn s fl w :
  row_pre_ok s fl -> Z.of_nat g_thread_cnt < 2 ^ 32 ->
  type <> LOCK_NONE -> (txn < g_thread_cnt)%nat -> txn ∉ txns (entries s) ->
  w ≡ₚ mkLockEntry type txn :: waiters s ->
  row_pre_ok (mkRow_lock (lock_type s) (owner_cnt s) (u32 (waiter_cnt s + 1))
                (owners s) w) (<[txn := false]> fl).
Proof.
  intros H Hg Ht Hlt Hni Hw.
  pose proof (entries_length_fresh _ _ _ H Hlt Hni) as Hlen.
  destruct H as [Hoc Hwc Hnd Hth Ho Hty Hre].
  assert (txns (owners s ++ w) ≡ₚ txn :: txns (entries s)) as HP.
  { rewrite Hw. unfold entries. by rewrite <- Permutation_middle. }
  constructor; simpl; try done.
  - rewrite Hw, Hwc, u32_small; unfold is_u32; simpl; lia.
  - unfold entries; simpl. rewrite HP. by constructor.
  - unfold entries; simpl. rewrite HP. by constructor.
  - rewrite Hw. by constructor.
  - rewrite Hw. constructor; simpl; [by rewrite lookup_insert_eq|].
    apply Forall_ready_insert; [|done].
    unfold entries in Hni. rewrite txns_app in Hni. set_solver.
Qed.

(** The ASSERT of DL_DETECT: a transaction that has to wait depends on some
    transaction. *)
Lemma dep_txnids_ne type s fl :
  row_ok s fl -> type <> LOCK_NONE ->
  conflict_lock (lock_type s) type = true \/ waiters s <> [] ->
  dep_txnids type (lock_type s) (waiters s) (owners s) <> [].
Proof.
  intros [Hp Hh] Ht Hc. unfold dep_txnids. intros E.
  apply fmap_nil_inv, app_eq_nil in E as [E1 E2].
  rewrite conflict_lock_sym in E2.
  pose proof (ok_owners _ _ Hp) as Ho.
  destruct (conflict_lock (lock_type s) type) eqn:Ec.
  - rewrite E2 in Ho. simpl in Ho. by rewrite Ho in Ec.
  - destruct Hc as [|Hw]; [done|].
    destruct (waiters s) as [|h w] eqn:Ew; [done|]. simpl in Hh, E1.
    assert (h ∈ List.filter (fun en => conflict_lock type (le_type en)) (rev w ++ [h]))
      as Hin; [|rewrite E1 in Hin; by apply elem_of_nil in Hin].
    apply list_elem_of_In, filter_In. split; [apply in_or_app; right; by left|].
    apply conflict_lock_false in Ec as [El|[?|[El ->]]]; [|done|].
    + by rewrite El in Hh.
    + by rewrite El in Hh.
Qed.

Lemma lg_conflict_false type txn s :
  lg_conflict type txn s = false ->
  conflict_lock (lock_type s) type = false /\
  (CC_ALG = DL_DETECT -> waiters s = []) /\
  (CC_ALG = WAIT_DIE ->
     match waiters s with [] => True | h :: _ => get_ts (le_txn h) <= get_ts txn end).
Proof.
  unfold lg_conflict. intros H.
  destruct (conflict_lock (lock_type s) type) eqn:Ec, CC_ALG eqn:Ea,
    (waiters s) as [|h w] eqn:Ew; simpl in H; try done;
    (split; [done|]; split; [done|]; intros); try done.
  case_step. done.
Qed.

Lemma lg_conflict_true type txn s :
  lg_conflict type txn s = true ->
  conflict_lock (lock_type s) type = true \/
  exists h w, waiters s = h :: w /\
    (CC_ALG = DL_DETECT \/ CC_ALG = WAIT_DIE /\ get_ts txn < get_ts (le_txn h)).
Proof.
  unfold lg_conflict. intros H.
  destruct (conflict_lock (lock_type s) type) eqn:Ec; [by left|right].
  destruct CC_ALG eqn:Ea, (waiters s) as [|h w] eqn:Ew; simpl in H; try done;
    exists h, w; split; auto.
  right. split; [done|]. by case_step.
Qed.

Lemma lock_get_grant type txn s fl :
  row_ok s fl -> Z.of_nat g_thread_cnt < 2 ^ 32 ->
  type <> LOCK_NONE -> (txn < g_thread_cnt)%nat -> txn ∉ txns (entries s) ->
  lg_conflict type txn s = false ->
  row_ok (mkRow_lock type (u32 (owner_cnt s + 1)) (waiter_cnt s)
            (mkLockEntry type txn :: owners s) (waiters s)) fl.
Proof.
  intros [Hp Hh] Hg Ht Hlt Hni Hc.
  apply lg_conflict_false in Hc as (Hc & _ & _).
  split; [by eapply add_owner_ok|]. simpl.
  destruct (waiters s) as [|h w] eqn:Ew; [done|]. simpl in *.
  apply conflict_lock_false in Hc as [El|[?|[El ->]]]; [|done|];
    by rewrite El in Hh.
Qed.

(** What a call of [lock_get] does, by return code. *)
Definition lock_get_post (type : lock_t) (txn : nat) (s : Row_lock)
    (fl : gmap nat bool) (rc : RC) (ids : list Z) (s' : Row_lock)
    (fl' : gmap nat bool) : Prop :=
  let entry := mkLockEntry type txn in
  match rc with
  | RCOK => conflict_lock (lock_type s) type = false /\ fl' = fl /\
            owners s' = entry :: owners s /\ waiters s' = waiters s /\
            (CC_ALG = DL_DETECT -> waiters s = []) /\
            (CC_ALG = WAIT_DIE ->
               match waiters s with
               | [] => True
               | h :: _ => get_ts (le_txn h) <= get_ts txn
               end)
  | WAIT => fl' = <[txn := false]> fl /\
            owners s' = owners s /\ lock_type s' = lock_type s /\
            match CC_ALG with
            | NO_WAIT => False
            | DL_DETECT => waiters s' = waiters s ++ [entry] /\ ids <> [] /\
                ids = dep_txnids type (lock_type s) (waiters s) (owners s)
            | WAIT_DIE => waiters s' = insert_waiter entry (waiters s) /\
                Forall (fun o => get_ts txn <= get_ts (le_txn o)) (owners s)
            end
  | Abort => s' = s /\ fl' = fl /\
            match CC_ALG with
            | NO_WAIT => conflict_lock (lock_type s) type = true
            | DL_DETECT => False
            | WAIT_DIE =>
                Exists (fun o => get_ts (le_txn o) < get_ts txn) (owners s)
            end
  | _ => False
  end.

Lemma can_wait_false txn own :
  can_wait txn own = false ->
  Exists (fun o => get_ts (le_txn o) < get_ts txn) own.
Proof.
  induction own as [|o own IH]; simpl; [done|]. case_step; [|by right; auto].
  by left.
Qed.

Lemma lock_get_post_waiters type txn s fl ids s' fl' :
  lock_get_post type txn s fl WAIT ids s' fl' ->
  waiters s' ≡ₚ mkLockEntry type txn :: waiters s.
Proof.
  unfold lock_get_post. intros (_ & _ & _ & H). destruct CC_ALG.
  - destruct H as [-> _]. by rewrite Permutation_app_comm.
  - done.
  - destruct H as [-> _]. apply insert_waiter_Permutation.
Qed.

Lemma lock_get_total type txn s fl :
  row_ok s fl -> Z.of_nat g_thread_cnt < 2 ^ 32 ->
  type <> LOCK_NONE -> (txn < g_thread_cnt)%nat -> txn ∉ txns (entries s) ->
  exists rc ids s' fl',
    lock_get type txn s fl = Some (rc, ids, s', fl') /\
    row_ok s' fl' /\ lock_get_post type txn s fl rc ids s' fl'.
Proof.
  intros Hok Hg Ht Hlt Hni. pose proof Hok as [Hp Hh].
  pose proof (entries_length_fresh _ _ _ Hp Hlt Hni) as Hlen.
  unfold lock_get. rewrite (ok_owner_cnt _ _ Hp), (ok_waiter_cnt _ _ Hp).
  rewrite !c_assert_true by lia.
  rewrite <- (ok_owner_cnt _ _ Hp), <- (ok_waiter_cnt _ _ Hp).
  destruct (lg_conflict type txn s) eqn:Hc.
  - apply lg_conflict_true in Hc as Hc'. destruct CC_ALG eqn:Ea.
    + rewrite c_assert_true.
      2:{ apply negb_true_iff, bool_decide_eq_false.
          eapply dep_txnids_ne; eauto.
          destruct Hc' as [|(h & w & -> & _)]; eauto. }
      do 4 eexists. split; [reflexivity|]. split.
      * split; [eapply add_waiter_ok; eauto; simpl; by rewrite Permutation_app_comm|].
        simpl. destruct (waiters s) as [|h w] eqn:Ew; simpl; [|done].
        destruct Hc' as [|(?&?&?&_)]; [done|]. done.
      * unfold lock_get_post. rewrite Ea. repeat split; auto. eapply dep_txnids_ne; eauto.
        destruct Hc' as [|(h & w & -> & _)]; eauto.
    + do 4 eexists. split; [reflexivity|]. split; [done|].
      unfold lock_get_post. rewrite Ea. repeat split. destruct Hc' as [|(h & w & _ & [?|[? _]])]; congruence.
    + destruct (can_wait txn (owners s)) eqn:Ecw.
      * do 4 eexists. split; [reflexivity|]. split.
        -- split; [eapply add_waiter_ok; eauto; apply insert_waiter_Permutation|].
           apply insert_waiter_head; [done|].
           destruct Hc' as [|(h & w & -> & [?|[_ ?]])]; eauto; congruence.
        -- unfold lock_get_post. rewrite Ea. repeat split; auto. by apply can_wait_true.
      * do 4 eexists. split; [reflexivity|]. split; [done|].
        unfold lock_get_post. rewrite Ea. repeat split; auto. by apply can_wait_false.
  - rewrite c_assert_true.
    2:{ apply lg_conflict_false in Hc as (_ & Hd & _).
        destruct CC_ALG; simpl; try done. by rewrite Hd. }
    do 4 eexists. split; [reflexivity|]. split; [by apply lock_get_grant|].
    apply lg_conflict_false in Hc as (? & ? & ?). unfold lock_get_post. auto 10.
Qed.

(** *** lock_release *)

Lemma owners_ok_sublist lt own own' :
  own' `sublist_of` own -> own' <> [] -> owners_ok lt own -> owners_ok lt own'.
Proof.
  intros Hs Hne Ho. destruct own' as [|o' own']; [done|].
  destruct own as [|o own]; [by apply sublist_nil_r in Hs|].
  destruct Ho as (? & HF & Hx). split; [done|]. split.
  - rewrite Forall_forall in HF |- *. intros e He. apply HF.
    eapply elem_of_submseteq; [done|]. by apply sublist_submseteq.
  - intros ->. apply sublist_length in Hs. specialize (Hx eq_refl). simpl in *. lia.
Qed.

Lemma unlink_ok txn s fl :
  row_pre_ok s fl -> Z.of_nat g_thread_cnt < 2 ^ 32 ->
  txn ∈ txns (entries s) ->
  exists s1 e, unlink txn s = Some s1 /\ row_pre_ok s1 fl /\
    le_txn e = txn /\ entries s ≡ₚ e :: entries s1 /\
    owners s1 `sublist_of` owners s /\ waiters s1 `sublist_of` waiters s.
Proof.
  intros H Hg Hin. pose proof (entries_length _ _ H) as Hlen.
  destruct H as [Hoc Hwc Hnd Hth Ho Hty Hre]. unfold unlink.
  destruct (remove_first (is_txn txn) (owners s)) as [[e own]|] eqn:Er.
  - pose proof (remove_first_sublist _ _ _ _ Er) as Hsub.
    pose proof (remove_first_Permutation _ _ _ _ Er) as HP.
    apply remove_first_Some in Er as (l1 & l2 & El & El' & Hf & _).
    apply bool_decide_eq_true in Hf.
    assert (entries s ≡ₚ e :: own ++ waiters s) as HPe.
    { unfold entries. by rewrite HP. }
    pose proof (Permutation_length HP) as HL. simpl in HL.
    rewrite HPe in Hnd, Hth. apply NoDup_cons in Hnd as [_ Hnd].
    apply Forall_cons in Hth as [_ Hth].
    assert (u32 (owner_cnt s - 1) = Z.of_nat (length own)) as Hc.
    { rewrite Hoc. rewrite u32_small; unfold is_u32; lia. }
    eexists _, e. split; [done|]. simpl. split_and!; try done. rewrite Hc.
    constructor; simpl; try done.
    destruct own as [|o own]; [done|].
    destruct (Z.of_nat (length (o :: own)) =? 0) eqn:E0; [simpl in E0; lia|].
    by eapply (owners_ok_sublist _ (owners s)).
  - rewrite remove_first_None in Er.
    assert (txn ∉ txns (owners s)) as Hno.
    { rewrite elem_of_txns. intros (e & He & Het). rewrite Forall_forall in Er.
      specialize (Er e He). apply bool_decide_eq_false in Er. done. }
    unfold entries in Hin. rewrite txns_app, elem_of_app in Hin.
    destruct Hin as [|Hin]; [done|]. apply elem_of_txns in Hin as (e0 & He0 & Het0).
    destruct (remove_first_is_Some (is_txn txn) (waiters s) e0) as [[e w] Ew];
      [done|by apply bool_decide_eq_true|].
    rewrite Ew. pose proof (remove_first_sublist _ _ _ _ Ew) as Hsub.
    pose proof (remove_first_Permutation _ _ _ _ Ew) as HP.
    apply remove_first_Some in Ew as (l1 & l2 & El & El' & Hf & _).
    apply bool_decide_eq_true in Hf.
    assert (entries s ≡ₚ e :: owners s ++ w) as HPe.
    { unfold entries. rewrite HP. by rewrite Permutation_middle. }
    pose proof (Permutation_length HP) as HL. simpl in HL.
    rewrite HPe in Hnd, Hth. apply NoDup_cons in Hnd as [_ Hnd].
    apply Forall_cons in Hth as [_ Hth]. rewrite HP in Hty, Hre.
    apply Forall_cons in Hty as [_ Hty]. apply Forall_cons in Hre as [_ Hre].
    eexists _, e. split; [done|]. simpl. split_and!; try done.
    constructor; simpl; try done. rewrite Hwc, u32_small; unfold is_u32; lia.
Qed.

(** The flags after the waiters [g] have been granted. *)
Definition grant_flags (g : list LockEntry) (fl : gmap nat bool) : gmap nat bool :=
  foldl (fun m e => <[le_txn e := true]> m) fl g.

Lemma promote_ok w lt oc wc own fl :
  row_pre_ok (mkRow_lock lt oc wc own w) fl -> Z.of_nat g_thread_cnt < 2 ^ 32 ->
  exists s' g, promote lt oc wc own w fl = Some (s', grant_flags g fl) /\
    row_ok s' (grant_flags g fl) /\
    w = g ++ waiters s' /\ owners s' = rev g ++ own.
Proof.
  revert lt oc wc own fl. induction w as [|e w IH]; intros lt oc wc own fl H Hg; simpl.
  { eexists _, []. split; [done|]. split; [|done]. by split. }
  destruct (conflict_lock lt (le_type e)) eqn:Hc.
  { eexists _, []. split; [done|]. split; [|done]. by split. }
  pose proof (entries_length _ _ H) as Hlen. simpl in Hlen.
  destruct H as [Hoc Hwc Hnd Hth Ho Hty Hre]; simpl in *.
  apply Forall_cons in Hty as [Ht Hty]. apply Forall_cons in Hre as [Hr Hre].
  rewrite c_assert_true by by apply bool_decide_eq_true.
  assert (entries (mkRow_lock lt oc wc own (e :: w)) ≡ₚ (e :: own) ++ w) as HP.
  { unfold entries; simpl. by rewrite Permutation_middle. }
  rewrite HP in Hnd, Hth.
  destruct (IH (le_type e) (u32 (oc + 1)) (u32 (wc - 1)) (e :: own)
              (<[le_txn e := true]> fl)) as (s' & g & -> & Hok & -> & Hown); [|done|].
  - constructor; simpl; try done.
    + rewrite Hoc, u32_small; unfold is_u32; lia.
    + rewrite Hwc, u32_small; unfold is_u32; lia.
    + destruct e. eapply owners_ok_cons; eauto.
    + apply Forall_ready_insert; [|done].
      apply NoDup_cons in Hnd as [Hni _]. rewrite txns_app in Hni. set_solver.
  - exists s', (e :: g). split; [done|]. split; [done|]. split; [done|].
    rewrite Hown. simpl. by rewrite <- app_assoc.
Qed.

Lemma lock_release_total txn s fl :
  row_ok s fl -> Z.of_nat g_thread_cnt < 2 ^ 32 -> txn ∈ txns (entries s) ->
  exists s1 e g s' fl',
    lock_release txn s fl = Some (RCOK, s', fl') /\ row_ok s' fl' /\
    (* the entry of [txn] is removed ... *)
    le_txn e = txn /\ entries s ≡ₚ e :: entries s1 /\
    owners s1 `sublist_of` owners s /\ waiters s1 `sublist_of` waiters s /\
    (* ... and a prefix of the waiters is granted *)
    waiters s1 = g ++ waiters s' /\ owners s' = rev g ++ owners s1 /\
    fl' = grant_flags g fl.
Proof.
  intros [Hp Hh] Hg Hin.
  destruct (unlink_ok _ _ _ Hp Hg Hin) as (s1 & e & Hu & Hp1 & He & HP & Hs1 & Hs2).
  unfold lock_release. rewrite Hu.
  destruct (promote_ok (waiters s1) (lock_type s1) (owner_cnt s1) (waiter_cnt s1)
              (owners s1) fl) as (s' & g & -> & Hok & Hw & Ho); [by destruct s1|done|].
  rewrite c_assert_true.
  2:{ destruct (owner_cnt s1 =? 0) eqn:E0; [|done]. simpl.
      rewrite (ok_owner_cnt _ _ Hp1) in E0. b2p.
      pose proof (ok_owners _ _ Hp1) as Hoo.
      destruct (owners s1); [|simpl in *; lia]. by rewrite Hoo. }
  rewrite c_assert_true.
  2:{ rewrite (ok_owner_cnt _ _ (proj1 Hok)).
      destruct (owners s'); [done|]. simpl. done. }
  exists s1, e, g, s', (grant_flags g fl). by repeat split; try done; apply Hok.
Qed.

(** *** The order of WAIT_DIE *)

Lemma lock_get_wait_die type txn s fl rc ids s' fl' :
  CC_ALG = WAIT_DIE -> lock_get_post type txn s fl rc ids s' fl' ->
  wait_die_ok s -> wait_die_ok s'.
Proof.
  unfold lock_get_post, wait_die_ok. intros Ha Hpost [Hs HF]. rewrite Ha in Hpost.
  destruct rc; try done.
  - destruct Hpost as (_ & _ & -> & -> & _ & Hts). split; [done|].
    constructor; [|done]. specialize (Hts eq_refl).
    destruct (waiters s) as [|h w]; [done|].
    apply StronglySorted_inv in Hs as [_ Hh].
    constructor; [done|]. eapply Forall_impl; [exact Hh|].
    unfold wd_ge. simpl. intros x ?. lia.
  - by destruct Hpost as (-> & _).
  - destruct Hpost as (_ & -> & _ & -> & Ho). split; [by apply insert_waiter_sorted|].
    rewrite Forall_forall in HF |- *. rewrite Forall_forall in Ho.
    intros o Hin. rewrite insert_waiter_Permutation.
    constructor; [|by apply HF]. by apply Ho.
Qed.

Lemma release_wait_die s s1 s' g :
  owners s1 `sublist_of` owners s -> waiters s1 `sublist_of` waiters s ->
  waiters s1 = g ++ waiters s' -> owners s' = rev g ++ owners s1 ->
  wait_die_ok s -> wait_die_ok s'.
Proof.
  unfold wait_die_ok. intros Hso Hsw Hw Ho [Hs HF].
  pose proof (StronglySorted_sublist _ _ _ Hsw Hs) as Hs1.
  rewrite Hw in Hs1. apply StronglySorted_app in Hs1 as (Hc & _ & Hs').
  split; [done|]. rewrite Ho. apply Forall_app. split.
  - rewrite Forall_forall. intros o Hin%list_elem_of_In%in_rev%list_elem_of_In.
    rewrite Forall_forall. auto.
  - rewrite Forall_forall in HF |- *. intros o Hin.
    assert (Forall (wd_ge o) (waiters s)) as HF'.
    { apply HF. eapply elem_of_submseteq; [done|]. by apply sublist_submseteq. }
    rewrite Forall_forall in HF' |- *. intros x Hx. apply HF'.
    eapply elem_of_submseteq; [|by apply sublist_submseteq].
    rewrite Hw. by apply elem_of_app; right.
Qed.
End row_lock.

(** ** The system of all rows

    One latch protects each row lock, so calls of [lock_get] and
    [lock_release] are atomic steps. A transaction that waits does nothing
    until it is granted the lock (or released by an abort). A thread gets a new
    timestamp only while its transaction has no entry at any row. *)

Record lock_sys := mkLockSys {
  sys_rows : gmap nat Row_lock;
  sys_ready : gmap nat bool;
  sys_ts : nat -> Z }.

Section lock_system.
Context (g_thread_cnt : nat) (get_txn_id : nat -> Z) (CC_ALG : lock_alg).

Definition holds_at (sys : lock_sys) (r t : nat) : Prop :=
  exists s, sys_rows sys !! r = Some s /\ t ∈ txns (entries s).
Definition waits_at (sys : lock_sys) (r t : nat) : Prop :=
  exists s, sys_rows sys !! r = Some s /\ t ∈ txns (waiters s).

Definition set_ts (f : nat -> Z) (t : nat) (v : Z) : nat -> Z :=
  fun t' => if decide (t' = t) then v else f t'.

Inductive lock_step : lock_sys -> lock_sys -> Prop :=
| step_get r s type txn rc ids s' fl' sys :
    sys_rows sys !! r = Some s ->
    type <> LOCK_NONE -> (txn < g_thread_cnt)%nat ->
    (forall r', ~ waits_at sys r' txn) -> ~ holds_at sys r txn ->
    lock_get g_thread_cnt (sys_ts sys) get_txn_id CC_ALG type txn s
      (sys_ready sys) = Some (rc, ids, s', fl') ->
    lock_step sys (mkLockSys (<[r := s']> (sys_rows sys)) fl' (sys_ts sys))
| step_release r s txn rc s' fl' sys :
    sys_rows sys !! r = Some s -> holds_at sys r txn ->
    lock_release txn s (sys_ready sys) = Some (rc, s', fl') ->
    lock_step sys (mkLockSys (<[r := s']> (sys_rows sys)) fl' (sys_ts sys))
| step_set_ts txn v sys :
    (forall r, ~ holds_at sys r txn) -> (forall t, sys_ts sys t <> v) ->
    lock_step sys
      (mkLockSys (sys_rows sys) (sys_ready sys) (set_ts (sys_ts sys) txn v)).

(** No lock is held, and the timestamps are distinct. *)
Definition lock_init (sys : lock_sys) : Prop :=
  (forall r s, sys_rows sys !! r = Some s -> s = Row_lock_init) /\
  (forall t t', sys_ts sys t = sys_ts sys t' -> t = t').

(** [t] cannot proceed before [t'] does: [t] waits for a row that [t'] owns,
    or for which [t'] waits in front of [t]. *)
Definition waits_for (sys : lock_sys) (t t' : nat) : Prop :=
  exists r s, sys_rows sys !! r = Some s /\
    ((t ∈ txns (waiters s) /\ t' ∈ txns (owners s)) \/
     exists e e' w1 w2 w3,
       waiters s = w1 ++ e' :: w2 ++ e :: w3 /\ le_txn e = t /\ le_txn e' = t').

Record sys_ok (sys : lock_sys) : Prop := {
  sys_row_ok r s : sys_rows sys !! r = Some s ->
    row_ok g_thread_cnt s (sys_ready sys);
  sys_one_wait r r' t : waits_at sys r t -> waits_at sys r' t -> r = r';
  sys_ts_inj t t' : sys_ts sys t = sys_ts sys t' -> t = t';
  sys_wait_die r s : CC_ALG = WAIT_DIE -> sys_rows sys !! r = Some s ->
    wait_die_ok (sys_ts sys) s }.

Lemma row_ok_flags s (fl fl' : gmap nat bool) :
  (forall t, t ∈ txns (waiters s) -> fl' !! t = fl !! t) ->
  row_ok g_thread_cnt s fl -> row_ok g_thread_cnt s fl'.
Proof.
  intros Hfl [[] Hh]. split; [|done]. constructor; try done.
  rewrite Forall_forall in *. intros e He. rewrite Hfl; [auto|].
  apply elem_of_txns. eauto.
Qed.

Lemma wait_die_ok_ext (f f' : nat -> Z) s :
  (forall t, t ∈ txns (entries s) -> f' t = f t) ->
  wait_die_ok f s -> wait_die_ok f' s.
Proof.
  intros Hf. assert (forall e, e ∈ entries s -> f' (le_txn e) = f (le_txn e)) as He.
  { intros e Hin. apply Hf, elem_of_txns. eauto. }
  unfold entries in He. unfold wait_die_ok, wd_ge. intros [Hs HF]. split.
  - assert (forall e, e ∈ waiters s -> f' (le_txn e) = f (le_txn e)) as Hw
      by (intros; apply He; set_solver).
    clear He HF Hf. induction Hs as [|a w Hs IH Ha]; constructor.
    + apply IH. set_solver.
    + rewrite Forall_forall in *. intros x Hx. rewrite !Hw by set_solver. auto.
  - rewrite Forall_forall in *. intros o Ho. specialize (HF o Ho).
    rewrite Forall_forall in *. intros x Hx. rewrite !He by set_solver. auto.
Qed.

Lemma grant_flags_other g (fl : gmap nat bool) t :
  t ∉ txns g -> grant_flags g fl !! t = fl !! t.
Proof.
  revert fl. induction g as [|e g IH]; intros fl Hni; simpl; [done|].
  rewrite IH by set_solver. apply lookup_insert_ne. set_solver.
Qed.

(** A step at row [r] changes only the flags of transactions that wait at no
    other row. *)
Lemma sys_ok_update sys r s s' fl' :
  sys_ok sys -> sys_rows sys !! r = Some s -> row_ok g_thread_cnt s' fl' ->
  (forall t, t ∈ txns (waiters s') ->
     t ∈ txns (waiters s) \/ forall r', ~ waits_at sys r' t) ->
  (forall r' t, r' <> r -> waits_at sys r' t -> fl' !! t = sys_ready sys !! t) ->
  (CC_ALG = WAIT_DIE -> wait_die_ok (sys_ts sys) s') ->
  sys_ok (mkLockSys (<[r := s']> (sys_rows sys)) fl' (sys_ts sys)).
Proof.
  intros [Hrow Hone Hts Hwd] Hr Hok Hw Hfl Hwd'.
  assert (forall r' t, waits_at (mkLockSys (<[r:=s']> (sys_rows sys)) fl' (sys_ts sys)) r' t ->
            waits_at sys r' t \/ r' = r /\ forall r2, ~ waits_at sys r2 t) as Hwa.
  { intros r' t (s2 & Hs2 & Ht). simpl in Hs2. destruct (decide (r' = r)) as [->|Hne].
    - rewrite lookup_insert_eq in Hs2. simplify_eq.
      destruct (Hw t Ht); [left; by exists s|by right].
    - rewrite lookup_insert_ne in Hs2 by done. left. by exists s2. }
  constructor; simpl; try done.
  - intros r' s2 Hs2. destruct (decide (r' = r)) as [->|Hne].
    + rewrite lookup_insert_eq in Hs2. by simplify_eq.
    + rewrite lookup_insert_ne in Hs2 by done.
      eapply row_ok_flags; [|by eapply Hrow].
      intros t Ht. apply (Hfl r'); [done|]. by exists s2.
  - intros r1 r2 t H1 H2. apply Hwa in H1, H2.
    destruct H1 as [H1|[-> H1] ], H2 as [H2|[-> H2] ]; [eauto| | |done].
    + by destruct (H2 _ H1).
    + by destruct (H1 _ H2).
  - intros r' s2 Ha Hs2. destruct (decide (r' = r)) as [->|Hne].
    + rewrite lookup_insert_eq in Hs2. simplify_eq. auto.
    + rewrite lookup_insert_ne in Hs2 by done. eauto.
Qed.

Lemma lock_step_ok sys sys' :
  Z.of_nat g_thread_cnt < 2 ^ 32 ->
  sys_ok sys -> lock_step sys sys' -> sys_ok sys'.
Proof.
  intros Hg Hok Hstep.
  destruct Hstep as [r s type txn rc ids s' fl' sys Hr Hty Hlt Hnw Hnh Hget
                    |r s txn rc s' fl' sys Hr (s0 & Hr0 & Hin) Hrel
                    |txn v sys Hnh Hv].
  - assert (txn ∉ txns (entries s)) as Hni.
    { intros ?. apply Hnh. by exists s. }
    destruct (lock_get_total g_thread_cnt (sys_ts sys) get_txn_id CC_ALG type txn s
                (sys_ready sys)) as (rc' & ids' & s'' & fl'' & Hget' & Hrow & Hpost);
      try done; [by eapply sys_row_ok|].
    rewrite Hget in Hget'. simplify_eq.
    assert (forall t, fl'' !! t = sys_ready sys !! t \/ t = txn) as Hfl.
    { unfold lock_get_post in Hpost. intros t.
      destruct rc'; try done.
      - left. by destruct Hpost as (_ & -> & _).
      - left. by destruct Hpost as (_ & -> & _).
      - destruct Hpost as (-> & _). destruct (decide (t = txn)); [by right|left].
        by rewrite lookup_insert_ne. }
    eapply sys_ok_update; try done.
    + intros t Ht. destruct rc'; try done.
      * destruct Hpost as (_ & _ & _ & Hw & _). rewrite Hw in Ht. by left.
      * destruct Hpost as (-> & _). by left.
      * apply lock_get_post_waiters in Hpost. apply elem_of_txns in Ht as (e & He & <-).
        rewrite Hpost in He. apply elem_of_cons in He as [->|He]; [by right|left].
        apply elem_of_txns. eauto.
    + intros r' t Hne Hwt. destruct (Hfl t) as [ | -> ]; [done|]. by destruct (Hnw r').
    + intros Ha. eapply lock_get_wait_die; eauto. by eapply sys_wait_die.
  - simplify_eq.
    destruct (lock_release_total g_thread_cnt (sys_ts sys) get_txn_id txn s (sys_ready sys))
      as (s1 & e & g & s2 & fl2 & Hrel' & Hrow & _ & _ & Hso & Hsw & Hw & Ho & Hfl);
      try done; [by eapply sys_row_ok|].
    rewrite Hrel in Hrel'. simplify_eq.
    assert (txns (waiters s1) ⊆ txns (waiters s)) as Hsub.
    { intros t (e' & He & <-)%elem_of_txns. apply elem_of_txns. exists e'. split; [|done].
      eapply elem_of_submseteq; [done|]. by apply sublist_submseteq. }
    rewrite Hw, txns_app in Hsub.
    eapply sys_ok_update; try done.
    + intros t Ht. left. apply Hsub. set_solver.
    + intros r' t Hne Hwt. apply grant_flags_other. intros Hg'. apply Hne.
      eapply sys_one_wait; [done|done|]. exists s. split; [done|]. apply Hsub. set_solver.
    + intros Ha. eapply release_wait_die; eauto. by eapply sys_wait_die.
  - assert (forall r s, sys_rows sys !! r = Some s -> txn ∉ txns (entries s)) as Hni.
    { intros r s Hr Hin. apply (Hnh r). by exists s. }
    destruct Hok as [Hrow Hone Hts Hwd]. constructor; simpl; try done.
    + unfold set_ts. intros t t'. repeat case_decide; intros; subst; try done; [| |eauto].
      * by destruct (Hv t').
      * by destruct (Hv t).
    + intros r s Ha Hr. eapply wait_die_ok_ext; [|by eapply Hwd].
      intros t Ht. unfold set_ts. case_decide; [|done]. subst. by destruct (Hni _ _ Hr).
Qed.

Lemma lock_init_ok sys : lock_init sys -> sys_ok sys.
Proof.
  intros [Hrow Hts].
  assert (forall r t, ~ waits_at sys r t) as Hnw.
  { intros r t (s & Hs & Ht). rewrite (Hrow r s Hs) in Ht. by apply elem_of_nil in Ht. }
  constructor; try done.
  - intros r s Hs. rewrite (Hrow r s Hs). repeat constructor.
  - intros r r' t Hw. by destruct (Hnw r t).
  - intros r s _ Hs. rewrite (Hrow r s Hs). repeat constructor.
Qed.

Lemma lock_reachable_ok sys sys' :
  Z.of_nat g_thread_cnt < 2 ^ 32 -> lock_init sys -> rtc lock_step sys sys' ->
  sys_ok sys'.
Proof.
  intros Hg Hi Hr. apply lock_init_ok in Hi.
  induction Hr as [|x y z Hxy _ IH]; [done|]. apply IH. by eapply lock_step_ok.
Qed.

(** Under WAIT_DIE the older transaction waits for the younger one. *)
Lemma waits_for_older sys t t' :
  CC_ALG = WAIT_DIE -> sys_ok sys -> waits_for sys t t' -> sys_ts sys t < sys_ts sys t'.
Proof.
  intros Ha Hok (r & s & Hs & Hw). pose proof (sys_row_ok _ Hok _ _ Hs) as [Hp _].
  pose proof (sys_wait_die _ Hok _ _ Ha Hs) as [Hsort HF].
  pose proof (ok_nodup _ _ _ Hp) as Hnd. unfold entries in Hnd. rewrite txns_app in Hnd.
  assert (sys_ts sys t <= sys_ts sys t' /\ t <> t') as [Hle Hne].
  { destruct Hw as [[Hw Ho]|(e & e' & w1 & w2 & w3 & Ew & <- & <-)].
    - apply NoDup_app in Hnd as (_ & Hd & _).
      split; [|intros ->; by apply (Hd t')].
      apply elem_of_txns in Hw as (ew & Hew & <-), Ho as (eo & Heo & <-).
      rewrite Forall_forall in HF. specialize (HF eo Heo).
      rewrite Forall_forall in HF. by apply HF.
    - rewrite Ew in Hsort, Hnd. apply NoDup_app in Hnd as (_ & _ & Hnd).
      apply StronglySorted_app in Hsort as (_ & _ & Hsort).
      apply StronglySorted_inv in Hsort as [_ HFe].
      rewrite txns_app in Hnd. apply NoDup_app in Hnd as (_ & _ & Hnd).
      apply (NoDup_cons (le_txn e') (txns (w2 ++ e :: w3))) in Hnd as [Hni _].
      rewrite Forall_forall in HFe. split; [apply HFe; set_solver|].
      intros E. apply Hni, elem_of_txns. exists e. set_solver. }
  destruct (Z.eq_dec (sys_ts sys t) (sys_ts sys t')) as [E|]; [|lia].
  by destruct Hne; apply (sys_ts_inj _ Hok).
Qed.

(** ** Properties *)

(** C18. Mutual exclusion. In every reachable state of the locks of all rows,
    for each of DL_DETECT, NO_WAIT and WAIT_DIE, when two different
    transactions own the same row both own it in shared mode, and the row's
    [lock_type] is the mode of every owner. *)
Theorem row_lock_mutual_exclusion sys sys' r s e1 e2 :
  Z.of_nat g_thread_cnt < 2 ^ 32 -> lock_init sys -> rtc lock_step sys sys' ->
  sys_rows sys' !! r = Some s -> e1 ∈ owners s -> e2 ∈ owners s ->
  le_type e1 = lock_type s /\
  (le_txn e1 <> le_txn e2 -> le_type e1 = LOCK_SH /\ le_type e2 = LOCK_SH).
Proof.
  intros Hg Hi Hr Hs He1 He2.
  pose proof (sys_row_ok _ (lock_reachable_ok _ _ Hg Hi Hr) _ _ Hs) as [Hp _].
  pose proof (ok_owners _ _ _ Hp) as Ho.
  destruct (owners s) as [|o own] eqn:Eo; [by apply elem_of_nil in He1|].
  rewrite <- Eo in *. unfold owners_ok in Ho. rewrite Eo in Ho.
  destruct Ho as (Hn & HF & Hex). rewrite <- Eo in HF, Hex.
  rewrite Forall_forall in HF. rewrite (HF e1 He1), (HF e2 He2).
  split; [done|]. intros Hne. destruct (lock_type s); [|done|done].
  rewrite Eo in Hex. specialize (Hex eq_refl). destruct own; [|done].
  rewrite Eo in He1, He2. set_solver.
Qed.

(** C19. Deadlock freedom of WAIT_DIE. In every reachable state no chain of
    waits leads from a transaction back to itself, counting both the waits
    for the owners of a row and the waits for the transactions queued in
    front. *)
Theorem wait_die_deadlock_free sys sys' t :
  CC_ALG = WAIT_DIE -> Z.of_nat g_thread_cnt < 2 ^ 32 -> lock_init sys ->
  rtc lock_step sys sys' -> ~ tc (waits_for sys') t t.
Proof.
  intros Ha Hg Hi Hr Ht. pose proof (lock_reachable_ok _ _ Hg Hi Hr) as Hok.
  assert (forall t1 t2, tc (waits_for sys') t1 t2 -> sys_ts sys' t1 < sys_ts sys' t2)
    as Hlt.
  { clear Ht. intros t1 t2 Htc. induction Htc as [x y H|x y z H _ IH];
      apply waits_for_older in H; auto. lia. }
  specialize (Hlt t t Ht). lia.
Qed.

(** C26. No lost wake-up. In every reachable state a row with waiters has
    owners, the first waiter conflicts with the mode they hold, and every
    waiter's [lock_ready] flag is false: a transaction is never left waiting
    for a row it could have been granted. *)
Theorem row_lock_no_lost_wakeup sys sys' r s e w :
  Z.of_nat g_thread_cnt < 2 ^ 32 -> lock_init sys -> rtc lock_step sys sys' ->
  sys_rows sys' !! r = Some s -> waiters s = e :: w ->
  owners s <> [] /\ conflict_lock (lock_type s) (le_type e) = true /\
  Forall (fun e' => sys_ready sys' !! le_txn e' = Some false) (waiters s).
Proof.
  intros Hg Hi Hr Hs Hw.
  pose proof (sys_row_ok _ (lock_reachable_ok _ _ Hg Hi Hr) _ _ Hs) as [Hp Hh].
  rewrite Hw in Hh. simpl in Hh. split; [|split; [done|apply Hp]].
  pose proof (ok_owners _ _ _ Hp) as Ho. intros Eo. rewrite Eo in Ho.
  simpl in Ho. by rewrite Ho in Hh.
Qed.

(** The order of the waiters under WAIT_DIE: in every reachable state the
    waiters of a row are in descending timestamp order from [waiters_head] to
    [waiters_tail] (the head is the youngest, where the comment of
    row_lock.h calls it the oldest), and no waiter is younger than an
    owner. *)
Theorem wait_die_waiters_order sys sys' r s :
  CC_ALG = WAIT_DIE -> Z.of_nat g_thread_cnt < 2 ^ 32 -> lock_init sys ->
  rtc lock_step sys sys' -> sys_rows sys' !! r = Some s ->
  StronglySorted (fun a b => sys_ts sys' (le_txn b) < sys_ts sys' (le_txn a))
    (waiters s) /\
  (forall o w, o ∈ owners s -> w ∈ waiters s ->
     sys_ts sys' (le_txn w) < sys_ts sys' (le_txn o)).
Proof.
  intros Ha Hg Hi Hr Hs. pose proof (lock_reachable_ok _ _ Hg Hi Hr) as Hok.
  split.
  - assert (forall w1 e' w2, waiters s = w1 ++ e' :: w2 ->
      Forall (fun e => sys_ts sys' (le_txn e) < sys_ts sys' (le_txn e')) w2) as Hall.
    { intros w1 e' w2 E. rewrite Forall_forall. intros e He.
      apply list_elem_of_split in He as (w3 & w4 & ->).
      apply (waits_for_older _ _ _ Ha Hok). exists r, s. split; [done|right].
      by exists e, e', w1, w3, w4. }
    assert (forall w1 w2, waiters s = w1 ++ w2 ->
      StronglySorted (fun a b => sys_ts sys' (le_txn b) < sys_ts sys' (le_txn a)) w2)
      as Hw; [|by apply (Hw [])].
    intros w1 w2. revert w1. induction w2 as [|e' w2 IH]; intros w1 E; constructor.
    + apply (IH (w1 ++ [e'])). by rewrite <- app_assoc.
    + by eapply Hall.
  - intros o w Ho Hw. apply (waits_for_older _ _ _ Ha Hok). exists r, s.
    split; [done|left]. split; apply elem_of_txns; eauto.
Qed.
End lock_system.

Section row_lock_properties.
Context (g_thread_cnt : nat) (get_ts : nat -> Z) (get_txn_id : nat -> Z).
Context (CC_ALG : lock_alg).

(** C27. [lock_get] on a well-formed row lock, for a transaction with no entry
    at the row: no assertion fails, the lock stays well-formed, and the
    return code says what happened: [RCOK] pushes the transaction on the
    compatible owners, [WAIT] queues it (at the tail for DL_DETECT, with the
    transactions it depends on; at its timestamp's place for WAIT_DIE, only
    when it is older than every owner), [Abort] leaves the row as it was. *)
Theorem lock_get_correct type txn s fl :
  row_ok g_thread_cnt s fl -> Z.of_nat g_thread_cnt < 2 ^ 32 ->
  type <> LOCK_NONE -> (txn < g_thread_cnt)%nat -> txn ∉ txns (entries s) ->
  exists rc ids s' fl',
    lock_get g_thread_cnt get_ts get_txn_id CC_ALG type txn s fl
      = Some (rc, ids, s', fl') /\
    row_ok g_thread_cnt s' fl' /\
    lock_get_post get_ts get_txn_id CC_ALG type txn s fl rc ids s' fl'.
Proof. apply lock_get_total. Qed.

(** C28. [lock_release] by an owner or a waiter: no assertion fails, the entry
    of the transaction disappears, the waiters granted are a prefix of the
    queue, pushed on the owners in order with their [lock_ready] flag set,
    and the lock stays well-formed, so that the first waiter left conflicts
    with the new owners. *)
Theorem lock_release_correct txn s fl :
  row_ok g_thread_cnt s fl -> Z.of_nat g_thread_cnt < 2 ^ 32 ->
  txn ∈ txns (entries s) ->
  exists s1 e g s' fl',
    lock_release txn s fl = Some (RCOK, s', fl') /\ row_ok g_thread_cnt s' fl' /\
    le_txn e = txn /\ entries s ≡ₚ e :: entries s1 /\
    owners s1 `sublist_of` owners s /\ waiters s1 `sublist_of` waiters s /\
    waiters s1 = g ++ waiters s' /\ owners s' = rev g ++ owners s1 /\
    fl' = grant_flags g fl.
Proof. apply (lock_release_total g_thread_cnt get_ts get_txn_id). Qed.
End row_lock_properties.

(** ** Witnesses: two threads, one row. Thread 1 takes the row exclusively,
    thread 0, which is older, asks for it and waits. *)

Module RowLockExample.
Definition sys0 : lock_sys := mkLockSys {[ 0%nat := Row_lock_init ]} ∅ Z.of_nat.
Definition row1 : Row_lock := mkRow_lock LOCK_EX 1 0 [mkLockEntry LOCK_EX 1] [].
Definition row2 : Row_lock :=
  mkRow_lock LOCK_EX 1 1 [mkLockEntry LOCK_EX 1] [mkLockEntry LOCK_SH 0].
Definition sys1 : lock_sys := mkLockSys (<[ 0%nat := row1 ]> (sys_rows sys0)) ∅ Z.of_nat.
Definition sys2 : lock_sys :=
  mkLockSys (<[ 0%nat := row2 ]> (sys_rows sys1)) (<[ 0%nat := false ]> ∅) Z.of_nat.

Lemma sys0_row r s : sys_rows sys0 !! r = Some s -> s = Row_lock_init.
Proof. unfold sys0, sys_rows. by intros [_ ?]%lookup_singleton_Some. Qed.
Lemma sys1_row r s : sys_rows sys1 !! r = Some s -> s = row1.
Proof.
  unfold sys1, sys0, sys_rows. rewrite insert_singleton_eq.
  by intros [_ ?]%lookup_singleton_Some.
Qed.

Lemma sys0_init : lock_init sys0.
Proof.
  split; [|simpl; lia]. intros r s Hs. by eapply sys0_row.
Qed.

Lemma step1 : lock_step 2 Z.of_nat WAIT_DIE sys0 sys1.
Proof.
  apply (step_get 2 Z.of_nat WAIT_DIE 0 Row_lock_init LOCK_EX 1 RCOK [] row1 ∅ sys0);
    try done; try lia.
  - intros r' (s & ->%sys0_row & Hin). by apply elem_of_nil in Hin.
  - intros (s & ->%sys0_row & Hin). by apply elem_of_nil in Hin.
Qed.

Lemma step2 : lock_step 2 Z.of_nat WAIT_DIE sys1 sys2.
Proof.
  apply (step_get 2 Z.of_nat WAIT_DIE 0 row1 LOCK_SH 0 WAIT [] row2
           (<[ 0%nat := false ]> ∅) sys1); try done; try lia.
  - intros r' (s & ->%sys1_row & Hin). by apply elem_of_nil in Hin.
  - intros (s & ->%sys1_row & Hin). unfold entries, txns in Hin. simpl in Hin. set_solver.
Qed.

Lemma reach : rtc (lock_step 2 Z.of_nat WAIT_DIE) sys0 sys2.
Proof. eapply rtc_l; [apply step1|]. apply rtc_once, step2. Qed.

Lemma row1_ok : row_ok 2 row1 ∅.
Proof.
  split; [|done]. constructor; simpl; try done; repeat constructor;
    try lia; try done; set_solver.
Qed.
End RowLockExample.

Lemma row_lock_mutual_exclusion_witness :
  le_type (mkLockEntry LOCK_EX 1) = LOCK_EX.
Proof.
  apply (row_lock_mutual_exclusion 2 Z.of_nat WAIT_DIE RowLockExample.sys0
           RowLockExample.sys2 0 RowLockExample.row2 (mkLockEntry LOCK_EX 1)
           (mkLockEntry LOCK_EX 1)).
  - reflexivity.
  - apply RowLockExample.sys0_init.
  - apply RowLockExample.reach.
  - reflexivity.
  - constructor.
  - constructor.
Defined.

Lemma wait_die_deadlock_free_witness :
  ~ tc (waits_for RowLockExample.sys2) 0%nat 0%nat.
Proof.
  apply (wait_die_deadlock_free 2 Z.of_nat WAIT_DIE RowLockExample.sys0
           RowLockExample.sys2 0).
  - reflexivity.
  - reflexivity.
  - apply RowLockExample.sys0_init.
  - apply RowLockExample.reach.
Defined.

Lemma row_lock_no_lost_wakeup_witness :
  owners RowLockExample.row2 <> [] /\ conflict_lock LOCK_EX LOCK_SH = true /\
  Forall (fun e' => sys_ready RowLockExample.sys2 !! le_txn e' = Some false)
    (waiters RowLockExample.row2).
Proof.
  apply (row_lock_no_lost_wakeup 2 Z.of_nat WAIT_DIE RowLockExample.sys0
           RowLockExample.sys2 0 RowLockExample.row2 (mkLockEntry LOCK_SH 0) []).
  - reflexivity.
  - apply RowLockExample.sys0_init.
  - apply RowLockExample.reach.
  - reflexivity.
  - reflexivity.
Defined.

Lemma wait_die_waiters_order_witness :
  StronglySorted (fun a b => sys_ts RowLockExample.sys2 (le_txn b)
                             < sys_ts RowLockExample.sys2 (le_txn a))
    (waiters RowLockExample.row2) /\
  sys_ts RowLockExample.sys2 0%nat < sys_ts RowLockExample.sys2 1%nat.
Proof.
  destruct (wait_die_waiters_order 2 Z.of_nat WAIT_DIE RowLockExample.sys0
           RowLockExample.sys2 0 RowLockExample.row2) as [HS Hlt].
  - reflexivity.
  - reflexivity.
  - apply RowLockExample.sys0_init.
  - apply RowLockExample.reach.
  - reflexivity.
  - split; [exact HS|].
    apply (Hlt (mkLockEntry LOCK_EX 1) (mkLockEntry LOCK_SH 0)); left.
Defined.

Lemma lock_get_correct_witness :
  exists rc ids s' fl',
    lock_get 2 Z.of_nat Z.of_nat WAIT_DIE LOCK_SH 0 RowLockExample.row1 ∅
      = Some (rc, ids, s', fl') /\
    row_ok 2 s' fl' /\
    lock_get_post Z.of_nat Z.of_nat WAIT_DIE LOCK_SH 0 RowLockExample.row1 ∅ rc ids s' fl'.
Proof.
  apply (lock_get_correct 2 Z.of_nat Z.of_nat WAIT_DIE LOCK_SH 0 RowLockExample.row1 ∅).
  - apply RowLockExample.row1_ok.
  - reflexivity.
  - discriminate.
  - lia.
  - unfold entries, txns. simpl. set_solver.
Defined.

Lemma lock_release_correct_witness :
  exists s1 e g s' fl',
    lock_release 1 RowLockExample.row1 ∅ = Some (RCOK, s', fl') /\ row_ok 2 s' fl' /\
    le_txn e = 1%nat /\ entries RowLockExample.row1 ≡ₚ e :: entries s1 /\
    owners s1 `sublist_of` owners RowLockExample.row1 /\
    waiters s1 `sublist_of` waiters RowLockExample.row1 /\
    waiters s1 = g ++ waiters s' /\ owners s' = rev g ++ owners s1 /\
    fl' = grant_flags g ∅.
Proof.
  apply (lock_release_correct 2 Z.of_nat Z.of_nat 1 RowLockExample.row1 ∅).
  - apply RowLockExample.row1_ok.
  - reflexivity.
  - unfold entries, txns. simpl. set_solver.
Defined.
