(* ===== verification/Plock.v ===== *)
(** The partition locks of HSTORE, concurrency_control/plock.cpp: one [PartMan]
    per partition with its owner and its array of waiters, and [Plock], which
    takes the partitions a transaction needs. *)

From S2P Require Import Prelude Global.

(** ** One partition *)

(** [waiters] is the array of [g_thread_cnt] pointers; its first [waiter_cnt]
    slots are in use. A [txn_man] pointer is the id of its thread. *)
Record PartMan := mkPartMan {
  pm_owner : option nat;
  pm_waiters : list nat;
  pm_waiter_cnt : nat }.

Section part_man.
Context (g_thread_cnt : nat) (get_ts : nat -> Z).

(** The array is not initialised by the code; its slots hold some value. *)
Definition PartMan_init (garbage : nat) : PartMan :=
  mkPartMan None (replicate g_thread_cnt garbage) 0.

(** [for (i = waiter_cnt; i > 0; i--)] with the [if (i == 0)] after it. *)
Fixpoint insert_loop (txn : nat) (w : list nat) (i : nat) : list nat :=
  match i with
  | O => <[0%nat := txn]> w
  | S j =>
      match w !! j with
      | Some wj => if get_ts wj <? get_ts txn
                   then <[S j := txn]> w
                   else insert_loop txn (<[S j := wj]> w) j
      | None => w
      end
  end.

(** [ready_part] of each transaction is an [atomic_int]. *)
Definition add_ready (ready : nat -> Z) (t : nat) (d : Z) : nat -> Z :=
  fun t' => if decide (t' = t) then ready t' + d else ready t'.

Definition PartMan_lock (txn : nat) (p : PartMan) (ready : nat -> Z)
    : option (RC * PartMan * (nat -> Z)) :=
  match pm_owner p with
  | None => Some (RCOK, mkPartMan (Some txn) (pm_waiters p) (pm_waiter_cnt p), ready)
  | Some owner =>
      if get_ts owner <? get_ts txn then
        assert! (pm_waiter_cnt p <? g_thread_cnt)%nat;;
        Some (WAIT,
              mkPartMan (Some owner) (insert_loop txn (pm_waiters p) (pm_waiter_cnt p))
                (S (pm_waiter_cnt p)),
              add_ready ready txn 1)
      else Some (Abort, p, ready)
  end.

(** [for (i = 0; i < waiter_cnt - 1; i++)] of the owner's [unlock]: [n]
    iterations are left. *)
Fixpoint shift_loop (w : list nat) (i n : nat) : option (list nat) :=
  match n with
  | O => Some w
  | S n' =>
      match w !! i, w !! S i with
      | Some a, Some b =>
          assert! get_ts a <? get_ts b;;
          shift_loop (<[i := b]> w) (S i) n'
      | _, _ => None
      end
  end.

(** The loop of the waiter's [unlock], which also computes [find]. *)
Fixpoint find_loop (txn : nat) (w : list nat) (cnt i n : nat) (find : bool)
    : bool * list nat :=
  match n with
  | O => (find, w)
  | S n' =>
      let find := if bool_decide (w !! i = Some txn) then true else find in
      let w := if find && (i <? cnt - 1)%nat
               then match w !! S i with Some b => <[i := b]> w | None => w end
               else w in
      find_loop txn w cnt (S i) n' find
  end.

Definition PartMan_unlock (txn : nat) (p : PartMan) (ready : nat -> Z)
    : option (PartMan * (nat -> Z)) :=
  if bool_decide (pm_owner p = Some txn) then
    match pm_waiter_cnt p with
    | O => Some (mkPartMan None (pm_waiters p) 0, ready)
    | S n =>
        match pm_waiters p !! 0%nat with
        | None => None
        | Some o =>
            match shift_loop (pm_waiters p) 0 n with
            | None => None
            | Some w =>
                let ready := add_ready ready o (-1) in
                assert! 0 <=? ready o;;
                Some (mkPartMan (Some o) w n, ready)
            end
        end
    end
  else
    let '(find, w) :=
      find_loop txn (pm_waiters p) (pm_waiter_cnt p) 0 (pm_waiter_cnt p) false in
    let ready := add_ready ready txn (-1) in
    assert! find;;
    match pm_owner p with
    | None => None (* owner->ready_part *)
    | Some o =>
        assert! 0 <=? ready o;;
        Some (mkPartMan (Some o) w (pm_waiter_cnt p - 1), ready)
    end.

(** ** The abstract partition lock: an owner and a queue ordered by age *)

Record part_spec := mkPart { ps_owner : option nat; ps_queue : list nat }.

Fixpoint queue_insert (txn : nat) (q : list nat) : list nat :=
  match q with
  | [] => [txn]
  | a :: q' => if get_ts a <? get_ts txn then a :: queue_insert txn q'
               else txn :: q
  end.

Definition spec_lock (txn : nat) (s : part_spec) : RC * part_spec :=
  match ps_owner s with
  | None => (RCOK, mkPart (Some txn) (ps_queue s))
  | Some o => if get_ts o <? get_ts txn
              then (WAIT, mkPart (Some o) (queue_insert txn (ps_queue s)))
              else (Abort, s)
  end.

Definition spec_unlock (txn : nat) (s : part_spec) : part_spec :=
  if bool_decide (ps_owner s = Some txn)
  then mkPart (head (ps_queue s)) (tail (ps_queue s))
  else mkPart (ps_owner s) (filter (fun t => t <> txn) (ps_queue s)).

Definition part_abs (p : PartMan) : part_spec :=
  mkPart (pm_owner p) (take (pm_waiter_cnt p) (pm_waiters p)).

Definition younger (a b : nat) : Prop := get_ts a < get_ts b.

(** Who holds or waits for the partition. *)
Definition spec_txns (s : part_spec) : list nat :=
  option_list (ps_owner s) ++ ps_queue s.

(** The owner is older than every waiter and the queue is in timestamp
    order. *)
Record spec_ok (s : part_spec) : Prop := {
  so_sorted : StronglySorted younger (spec_txns s);
  so_threads : Forall (fun t => (t < g_thread_cnt)%nat) (spec_txns s);
  so_owner : ps_owner s = None -> ps_queue s = [] }.

Definition part_ok (p : PartMan) : Prop :=
  (pm_waiter_cnt p <= length (pm_waiters p))%nat /\
  length (pm_waiters p) = g_thread_cnt /\ spec_ok (part_abs p).

(** ** The array loops compute the queue operations *)

Lemma queue_insert_snoc_ge txn q a :
  get_ts txn <= get_ts a -> queue_insert txn (q ++ [a]) = queue_insert txn q ++ [a].
Proof.
  intros Ha. induction q as [|b q IH]; simpl.
  - by replace (get_ts a <? get_ts txn) with false by lia.
  - case_match; simpl; by rewrite ?IH.
Qed.

Lemma queue_insert_all_lt txn q :
  Forall (fun a => get_ts a < get_ts txn) q -> queue_insert txn q = q ++ [txn].
Proof.
  induction 1 as [|a q Ha _ IH]; simpl; [done|].
  apply Z.ltb_lt in Ha. by rewrite Ha, IH.
Qed.

Lemma queue_insert_Permutation txn q : queue_insert txn q ≡ₚ txn :: q.
Proof.
  induction q as [|a q IH]; simpl; [done|]. case_match; [|done].
  rewrite IH. constructor.
Qed.

Lemma queue_insert_sorted txn q :
  Forall (fun a => get_ts a <> get_ts txn) q ->
  StronglySorted younger q -> StronglySorted younger (queue_insert txn q).
Proof.
  intros Hne Hs. revert Hne. unfold younger.
  induction Hs as [|a q Hs IH Ha]; simpl; intros Hne; [repeat constructor|].
  apply Forall_cons in Hne as [? Hne]. case_step.
  - constructor; [auto|]. rewrite queue_insert_Permutation. by constructor.
  - constructor; [by constructor|]. constructor; [lia|].
    eapply Forall_impl; [exact Ha|]. unfold younger. intros x ?. lia.
Qed.

Lemma insert_loop_length txn w i : length (insert_loop txn w i) = length w.
Proof.
  revert w. induction i as [|j IH]; intros w; simpl; [apply length_insert|].
  destruct (w !! j); [|done]. case_match; rewrite ?IH; apply length_insert.
Qed.

Lemma insert_loop_above txn w i j :
  (i < j)%nat -> insert_loop txn w i !! j = w !! j.
Proof.
  revert w. induction i as [|i IH]; intros w Hij; simpl.
  - apply list_lookup_insert_ne. lia.
  - destruct (w !! i); [|done]. case_match.
    + apply list_lookup_insert_ne. lia.
    + rewrite IH by lia. apply list_lookup_insert_ne. lia.
Qed.

Lemma insert_loop_queue txn w i :
  (i < length w)%nat -> StronglySorted younger (take i w) ->
  take (S i) (insert_loop txn w i) = queue_insert txn (take i w).
Proof.
  revert w. induction i as [|j IH]; intros w Hi Hs; simpl insert_loop.
  - destruct w; [simpl in Hi; lia|done].
  - destruct (lookup_lt_is_Some_2 w j) as [wj Hj]; [lia|]. rewrite Hj.
    rewrite (take_S_r _ _ _ Hj) in Hs |- *.
    apply StronglySorted_app in Hs as (Hlt & Hs & _).
    case_step.
    + rewrite queue_insert_all_lt.
      * rewrite (take_S_r _ (S j) txn) by (apply list_lookup_insert_eq; lia).
        rewrite take_insert_ge by lia. by rewrite (take_S_r _ _ _ Hj).
      * apply Forall_app. split; [|by repeat constructor].
        rewrite Forall_forall. intros x Hx. specialize (Hlt x wj Hx).
        unfold younger in Hlt. assert (wj ∈ [wj]) as Hw by set_solver.
        specialize (Hlt Hw). lia.
    + rewrite queue_insert_snoc_ge by lia.
      rewrite (take_S_r _ (S j) wj).
      * rewrite IH; [|rewrite length_insert; lia|by rewrite take_insert_ge by lia].
        by rewrite take_insert_ge by lia.
      * rewrite insert_loop_above by lia. apply list_lookup_insert_eq. lia.
Qed.

Lemma lookup_middle' {A} (l1 l2 : list A) x : (l1 ++ x :: l2) !! length l1 = Some x.
Proof. by apply list_lookup_middle. Qed.

Lemma insert_middle {A} (l1 l2 : list A) x y :
  <[length l1 := y]> (l1 ++ x :: l2) = l1 ++ y :: l2.
Proof. rewrite insert_app_r_alt, Nat.sub_diag by lia. done. Qed.

Lemma lookup_middle_S {A} (l1 l2 : list A) x y :
  (l1 ++ x :: y :: l2) !! S (length l1) = Some y.
Proof.
  rewrite lookup_app_r by lia. by replace (S (length l1) - length l1)%nat with 1%nat by lia.
Qed.

Lemma shift_loop_spec pre a l post :
  StronglySorted younger (a :: l) ->
  exists x, shift_loop (pre ++ a :: l ++ post) (length pre) (length l)
            = Some (pre ++ l ++ x :: post).
Proof.
  revert pre a. induction l as [|b l IH]; intros pre a Hs; simpl; [by exists a|].
  rewrite lookup_middle', lookup_middle_S.
  apply StronglySorted_inv in Hs as [Hs Ha]. apply Forall_cons in Ha as [Ha _].
  apply Z.ltb_lt in Ha. rewrite Ha. simpl. rewrite insert_middle.
  destruct (IH (pre ++ [b]) b Hs) as [x Hx]. exists x.
  rewrite <- !app_assoc, length_app in Hx. simpl in Hx.
  by rewrite Nat.add_1_r in Hx.
Qed.

Lemma find_loop_shift txn pre a l post :
  exists x, find_loop txn (pre ++ a :: l ++ post) (length pre + S (length l))
              (length pre) (S (length l)) true
            = (true, pre ++ l ++ x :: post).
Proof.
  revert pre a. induction l as [|b l IH]; intros pre a; simpl.
  - exists a. replace (length pre <? length pre + 1 - 1)%nat with false by lia.
    by case_match.
  - replace (length pre <? length pre + S (S (length l)) - 1)%nat with true by lia.
    destruct (IH (pre ++ [b]) b) as [x Hx]. exists x.
    rewrite <- !app_assoc, length_app in Hx. simpl in Hx.
    rewrite lookup_middle_S, insert_middle.
    replace (length pre + 1 + S (length l))%nat
      with (length pre + S (S (length l)))%nat in Hx by lia.
    rewrite Nat.add_1_r in Hx.
    destruct (bool_decide ((pre ++ a :: b :: l ++ post) !! length pre = Some txn));
      simpl; exact Hx.
Qed.

Lemma find_loop_find txn pre l1 l2 post :
  txn ∉ l1 ->
  exists x, find_loop txn (pre ++ l1 ++ txn :: l2 ++ post)
              (length pre + length (l1 ++ txn :: l2)) (length pre)
              (length (l1 ++ txn :: l2)) false
            = (true, pre ++ l1 ++ l2 ++ x :: post).
Proof.
  revert pre. induction l1 as [|b l1 IH]; intros pre Hni.
  - destruct (find_loop_shift txn pre txn l2 post) as [x Hx]. exists x.
    cbn [app length]. rewrite <- Hx. cbn [find_loop].
    rewrite lookup_middle'. by rewrite bool_decide_true by done.
  - apply not_elem_of_cons in Hni as [Hne Hni].
    destruct (IH (pre ++ [b]) Hni) as [x Hx]. exists x.
    rewrite <- !app_assoc, length_app in Hx. simpl in Hx |- *.
    rewrite lookup_middle', bool_decide_false by congruence. simpl.
    rewrite Nat.add_1_r in Hx.
    by replace (length pre + S (length (l1 ++ txn :: l2)))%nat
      with (S (length pre) + length (l1 ++ txn :: l2))%nat by lia.
Qed.

(** ** [PartMan] implements the abstract partition lock *)

Lemma spec_ok_nodup s : spec_ok s -> NoDup (spec_txns s).
Proof.
  intros [Hs _ _]. induction Hs as [|a l Hs IH Ha]; constructor; [|done].
  intros Hin. rewrite Forall_forall in Ha. specialize (Ha a Hin).
  unfold younger in Ha. lia.
Qed.

Lemma spec_lock_ok txn s :
  spec_ok s -> (txn < g_thread_cnt)%nat ->
  Forall (fun t => get_ts t <> get_ts txn) (spec_txns s) ->
  spec_ok (spec_lock txn s).2.
Proof.
  intros Hok Hlt Hne. pose proof Hok as [Hs Hth Ho].
  unfold spec_lock, spec_txns in *. destruct (ps_owner s) as [o|] eqn:Eo; simpl in *.
  - apply StronglySorted_inv in Hs as [Hs Hao]. apply Forall_cons in Hne as [Hneo Hne].
    apply Forall_cons in Hth as [Htho Hth].
    case_step; [|exact Hok].
    constructor; unfold spec_txns; simpl; [| |done].
    + constructor; [by apply queue_insert_sorted|].
      rewrite queue_insert_Permutation. by constructor.
    + rewrite queue_insert_Permutation. by repeat constructor.
  - rewrite (Ho eq_refl) in *. constructor; unfold spec_txns; simpl;
      rewrite ?(Ho eq_refl); repeat constructor; done.
Qed.

(** The bounds check of [PartMan::lock] never fails: the waiters and the owner
    are different threads. *)
Lemma waiter_cnt_lt txn p :
  part_ok p -> (txn < g_thread_cnt)%nat -> txn ∉ spec_txns (part_abs p) ->
  (pm_waiter_cnt p < g_thread_cnt)%nat.
Proof.
  intros (Hc & Hl & Hok) Hlt Hni.
  pose proof (spec_ok_nodup _ Hok) as Hnd. pose proof (so_threads _ Hok) as Hth.
  assert (length (txn :: spec_txns (part_abs p)) <= g_thread_cnt)%nat as Hlen.
  { apply NoDup_lt_length; by constructor. }
  unfold spec_txns in Hlen. simpl in Hlen. rewrite length_app, length_take in Hlen. lia.
Qed.

Lemma fresh_not_in txn s :
  Forall (fun t => get_ts t <> get_ts txn) (spec_txns s) -> txn ∉ spec_txns s.
Proof. rewrite Forall_forall. intros H Hin. by apply (H txn Hin). Qed.

Lemma PartMan_lock_spec txn p ready :
  part_ok p -> (txn < g_thread_cnt)%nat ->
  Forall (fun t => get_ts t <> get_ts txn) (spec_txns (part_abs p)) ->
  exists rc p',
    PartMan_lock txn p ready =
      Some (rc, p', if decide (rc = WAIT) then add_ready ready txn 1 else ready) /\
    spec_lock txn (part_abs p) = (rc, part_abs p') /\ part_ok p'.
Proof.
  intros Hp Hlt Hne. pose proof (waiter_cnt_lt _ _ Hp Hlt (fresh_not_in _ _ Hne)) as Hcnt.
  destruct Hp as (Hc & Hl & Hok).
  pose proof (spec_lock_ok _ _ Hok Hlt Hne) as Hok'.
  destruct p as [[o|] w cnt]; unfold PartMan_lock, part_ok; simpl in *;
    unfold spec_lock in *; simpl in *.
  - destruct (get_ts o <? get_ts txn).
    + rewrite c_assert_true by lia.
      assert (take (S cnt) (insert_loop txn w cnt) = queue_insert txn (take cnt w)) as E.
      { apply insert_loop_queue; [lia|].
        pose proof (so_sorted _ Hok) as Hs. by apply StronglySorted_inv in Hs as [Hs _]. }
      exists WAIT. eexists. split; [reflexivity|]. unfold part_abs; simpl.
      rewrite insert_loop_length, E. split; [done|]. split_and!; [lia|done|exact Hok'].
    + exists Abort. eexists. split; [reflexivity|]. split; [done|]. by split_and!.
  - exists RCOK. eexists. split; [reflexivity|]. split; [done|]. split_and!; try done.
Qed.

Lemma filter_ne_not_in (txn : nat) (q : list nat) :
  txn ∉ q -> filter (fun t => t <> txn) q = q.
Proof.
  induction q as [|a q IH]; intros Hni; [done|].
  apply not_elem_of_cons in Hni as [? ?].
  rewrite filter_cons_True by congruence. by rewrite IH.
Qed.

Lemma filter_ne_split (txn : nat) (l1 l2 : list nat) :
  NoDup (l1 ++ txn :: l2) -> filter (fun t => t <> txn) (l1 ++ txn :: l2) = l1 ++ l2.
Proof.
  intros (Hnd1 & Hd & Hnd2)%NoDup_app. apply NoDup_cons in Hnd2 as [Hni Hnd2].
  rewrite filter_app, filter_cons_False by tauto.
  rewrite !filter_ne_not_in; [done|done|]. intros Hin. apply (Hd txn Hin). set_solver.
Qed.

Lemma spec_unlock_ok txn s : spec_ok s -> spec_ok (spec_unlock txn s).
Proof.
  intros Hok. pose proof Hok as [Hs Hth Ho]. unfold spec_unlock.
  case_bool_decide as Eo.
  - unfold spec_txns in *. rewrite Eo in *. simpl in *.
    apply StronglySorted_inv in Hs as [Hs _]. apply Forall_cons in Hth as [_ Hth].
    destruct (ps_queue s) as [|a q]; simpl in *; constructor; unfold spec_txns; simpl;
      try done; constructor.
  - constructor; unfold spec_txns in *; simpl; [| |intros E; by rewrite (Ho E)].
    + eapply StronglySorted_sublist; [|exact Hs]. apply sublist_app; [done|].
      apply sublist_filter.
    + rewrite Forall_app in Hth |- *. destruct Hth as [? Hth]. split; [done|].
      rewrite Forall_forall in Hth |- *. intros t [_ Ht]%list_elem_of_filter. auto.
Qed.

(** The waiter that gets the partition, if any. *)
Definition granted (txn : nat) (s : part_spec) : option nat :=
  if bool_decide (ps_owner s = Some txn) then head (ps_queue s) else None.

(** The change of [ready_part]: the new owner waits for one partition less,
    and so does a waiter that leaves the queue. *)
Definition unlock_ready (txn : nat) (s : part_spec) (ready : nat -> Z) : nat -> Z :=
  if bool_decide (ps_owner s = Some txn) then
    match ps_queue s with [] => ready | o :: _ => add_ready ready o (-1) end
  else add_ready ready txn (-1).

Lemma PartMan_unlock_spec txn p ready :
  part_ok p -> txn ∈ spec_txns (part_abs p) ->
  (forall t, 0 <= ready t) -> (forall t, t ∈ ps_queue (part_abs p) -> 1 <= ready t) ->
  exists p',
    PartMan_unlock txn p ready = Some (p', unlock_ready txn (part_abs p) ready) /\
    part_abs p' = spec_unlock txn (part_abs p) /\ part_ok p'.
Proof.
  intros (Hc & Hl & Hok) Hin Hr Hq.
  pose proof (spec_unlock_ok txn _ Hok) as Hok'. pose proof (spec_ok_nodup _ Hok) as Hnd.
  destruct p as [own w cnt]. simpl in Hc, Hl.
  assert (exists q post, w = q ++ post /\ cnt = length q) as (q & post & -> & ->).
  { exists (take cnt w), (drop cnt w). by rewrite take_drop, length_take_le. }
  unfold PartMan_unlock, unlock_ready, spec_unlock, part_ok, part_abs in *. simpl in *.
  rewrite take_app_length in *.
  case_bool_decide as Eo.
  - destruct q as [|a q]; simpl.
    + eexists. split; [reflexivity|]. split; [done|]. simpl in *. by split_and!; [lia| |].
    + pose proof (so_sorted _ Hok) as Hs. unfold spec_txns in Hs. rewrite Eo in Hs.
      simpl in Hs. apply StronglySorted_inv in Hs as [Hs _].
      destruct (shift_loop_spec [] a q post Hs) as [x Hx]. simpl in Hx. rewrite Hx.
      rewrite c_assert_true.
      2:{ unfold add_ready. rewrite decide_True by done.
          specialize (Hq a). assert (1 <= ready a) by (apply Hq; set_solver). lia. }
      eexists. split; [reflexivity|]. simpl in *. rewrite take_app_length.
      split; [done|]. rewrite length_app in *. simpl in *. by split_and!; [lia|lia|].
  - assert (txn ∈ q) as Hq'.
    { unfold spec_txns in Hin. simpl in Hin. destruct own; simpl in Hin; [|done].
      apply elem_of_cons in Hin as [->|]; [congruence|done]. }
    apply list_elem_of_split_l in Hq' as (l1 & l2 & -> & Hni).
    destruct (find_loop_find txn [] l1 l2 post Hni) as [x Hx]. simpl in Hx.
    rewrite <- app_assoc. simpl. rewrite Hx. simpl.
    destruct own as [o|]; [|by specialize (so_owner _ Hok eq_refl); destruct l1].
    rewrite c_assert_true.
    2:{ unfold add_ready. rewrite decide_False by congruence. specialize (Hr o). lia. }
    assert (filter (fun t => t <> txn) (l1 ++ txn :: l2) = l1 ++ l2) as Ef.
    { apply filter_ne_split. unfold spec_txns in Hnd. simpl in Hnd.
      by apply NoDup_cons in Hnd as [_ Hnd]. }
    rewrite Ef in *. eexists. split; [reflexivity|]. simpl.
    rewrite length_app. simpl. rewrite Nat.add_succ_r, Nat.sub_succ, Nat.sub_0_r.
    replace (take (length l1 + length l2) (l1 ++ l2 ++ x :: post)) with (l1 ++ l2)
      by (rewrite (app_assoc l1 l2), take_app_length'; [done|by rewrite length_app]).
    split; [done|].
    rewrite !length_app in *. simpl in *.
    by split_and!; [lia|lia|].
Qed.

(** *** The number of partitions a transaction waits for *)

Definition waits_in (t : nat) (p : PartMan) : Z :=
  if bool_decide (t ∈ ps_queue (part_abs p)) then 1 else 0.

Fixpoint wait_count (t : nat) (mans : list PartMan) : Z :=
  match mans with [] => 0 | p :: mans' => waits_in t p + wait_count t mans' end.

Lemma waits_in_range t p : 0 <= waits_in t p <= 1.
Proof. unfold waits_in. case_match; lia. Qed.

Lemma wait_count_nonneg t mans : 0 <= wait_count t mans.
Proof.
  induction mans as [|p mans IH]; simpl; [lia|]. pose proof (waits_in_range t p). lia.
Qed.

Lemma wait_count_lookup t mans i p :
  mans !! i = Some p -> waits_in t p <= wait_count t mans.
Proof.
  revert i. induction mans as [|q mans IH]; intros i Hi; [done|].
  pose proof (wait_count_nonneg t mans). pose proof (waits_in_range t q).
  destruct i as [|i]; simplify_eq/=; [lia|]. specialize (IH i Hi). lia.
Qed.

Lemma wait_count_insert t mans i p p' :
  mans !! i = Some p ->
  wait_count t (<[i := p']> mans) = wait_count t mans - waits_in t p + waits_in t p'.
Proof.
  revert i. induction mans as [|q mans IH]; intros i Hi; [done|].
  destruct i as [|i]; simplify_eq/=; [lia|]. rewrite (IH i Hi). lia.
Qed.

Lemma lock_waits_in t txn p p' rc :
  txn ∉ spec_txns (part_abs p) -> spec_lock txn (part_abs p) = (rc, part_abs p') ->
  waits_in t p' =
    waits_in t p + (if decide (rc = WAIT) then if decide (t = txn) then 1 else 0 else 0).
Proof.
  intros Hni Hs. unfold spec_lock, waits_in in *.
  replace (ps_queue (part_abs p')) with (ps_queue (spec_lock txn (part_abs p)).2)
    by (unfold spec_lock; by rewrite Hs).
  unfold spec_lock. destruct (part_abs p) as [[o|] q]; simpl in *;
    [destruct (get_ts o <? get_ts txn)|]; simpl; injection Hs as <- _; simpl.
  - unfold spec_txns in Hni. simpl in Hni.
    rewrite (bool_decide_ext (t ∈ queue_insert txn q) (t = txn \/ t ∈ q))
      by (rewrite queue_insert_Permutation; apply elem_of_cons).
    repeat case_bool_decide; repeat case_decide; subst; try lia; set_solver.
  - lia.
  - lia.
Qed.

Lemma unlock_waits_in t txn p p' ready :
  spec_ok (part_abs p) -> txn ∈ spec_txns (part_abs p) ->
  part_abs p' = spec_unlock txn (part_abs p) ->
  unlock_ready txn (part_abs p) ready t = ready t - waits_in t p + waits_in t p'.
Proof.
  intros Hok Hin Hs. pose proof (spec_ok_nodup _ Hok) as Hnd.
  unfold waits_in. rewrite Hs. unfold unlock_ready, spec_unlock, add_ready, spec_txns in *.
  destruct (part_abs p) as [own q]; simpl in *. case_bool_decide as Eo; simpl.
  - subst own. simpl in *. apply NoDup_cons in Hnd as [_ Hnd].
    destruct q as [|a q]; simpl; [lia|]. apply NoDup_cons in Hnd as [Hna Hnd].
    repeat case_bool_decide; repeat case_decide; subst; try lia; try done; set_solver.
  - assert (txn ∈ q) as Hq.
    { destruct own; simpl in Hin; [|done]. set_solver. }
    repeat case_bool_decide; repeat case_decide; subst; try lia; try done.
    all: rewrite list_elem_of_filter in *; tauto.
Qed.

(** ** All partitions: [Plock] *)

(** [for (i = 0; i < part_cnt; i++)] of [Plock::lock]: the return code, and
    the number of partitions locked before the loop was left. *)
Fixpoint lock_parts (txn : nat) (parts : list nat) (mans : list PartMan)
    (ready : nat -> Z) : option (RC * nat * list PartMan * (nat -> Z)) :=
  match parts with
  | [] => Some (RCOK, 0%nat, mans, ready)
  | part_id :: parts' =>
      match mans !! part_id with
      | None => None
      | Some p =>
          match PartMan_lock txn p ready with
          | None => None
          | Some (rc, p', ready') =>
              let mans' := <[part_id := p']> mans in
              if bool_decide (rc = Abort) then Some (Abort, 0%nat, mans', ready')
              else match lock_parts txn parts' mans' ready' with
                   | None => None
                   | Some (rc', i, mans'', ready'') => Some (rc', S i, mans'', ready'')
                   end
          end
      end
  end.

(** [Plock::unlock]. *)
Fixpoint Plock_unlock (txn : nat) (parts : list nat) (mans : list PartMan)
    (ready : nat -> Z) : option (list PartMan * (nat -> Z)) :=
  match parts with
  | [] => Some (mans, ready)
  | part_id :: parts' =>
      match mans !! part_id with
      | None => None
      | Some p =>
          match PartMan_unlock txn p ready with
          | None => None
          | Some (p', ready') => Plock_unlock txn parts' (<[part_id := p']> mans) ready'
          end
      end
  end.

(** [Plock::lock] up to the spin on [ready_part]: [Abort] with the partitions
    given back, [RCOK] when the transaction owns every partition, and [WAIT]
    when it enters the loop [while (txn->ready_part > 0)], which it leaves
    with [RCOK] when other transactions have granted it the rest. *)
Definition Plock_lock (txn : nat) (parts : list nat) (mans : list PartMan)
    (ready : nat -> Z) : option (RC * list PartMan * (nat -> Z)) :=
  match lock_parts txn parts mans ready with
  | None => None
  | Some (rc, i, mans', ready') =>
      if bool_decide (rc = Abort) then
        match Plock_unlock txn (take i parts) mans' ready' with
        | None => None
        | Some (mans'', ready'') =>
            assert! ready'' txn =? 0;;
            Some (Abort, mans'', ready'')
        end
      else if 0 <? ready' txn then Some (WAIT, mans', ready')
      else Some (RCOK, mans', ready')
  end.

(** *** [Plock::lock] and [Plock::unlock] *)

(** All partitions are well-formed and [ready_part] counts the waits. *)
Definition mans_ok (mans : list PartMan) (ready : nat -> Z) : Prop :=
  Forall part_ok mans /\ forall t, ready t = wait_count t mans.

(** [get_ts txn] is a timestamp no other transaction has. *)
Definition fresh_ts (txn : nat) (s : part_spec) : Prop :=
  Forall (fun t => get_ts t <> get_ts txn) (spec_txns s).

Definition abs_at (mans : list PartMan) (k : nat) : option part_spec :=
  part_abs <$> mans !! k.

Lemma abs_at_insert_ne mans i p k :
  k <> i -> abs_at (<[i := p]> mans) k = abs_at mans k.
Proof. intros. unfold abs_at. by rewrite list_lookup_insert_ne. Qed.

Lemma abs_at_insert_eq mans i p :
  (i < length mans)%nat -> abs_at (<[i := p]> mans) i = Some (part_abs p).
Proof. intros. unfold abs_at. by rewrite list_lookup_insert_eq. Qed.

Lemma spec_lock_unlock txn s rc s' :
  spec_ok s -> fresh_ts txn s -> spec_lock txn s = (rc, s') -> rc <> Abort ->
  txn ∈ spec_txns s' /\ spec_unlock txn s' = s /\
  (rc = RCOK -> ps_owner s' = Some txn).
Proof.
  intros Hok Hf%fresh_not_in Hs Hrc. pose proof (so_owner _ Hok) as Ho.
  unfold spec_lock, spec_unlock, spec_txns in *.
  destruct s as [[o|] q]; simpl in *; [destruct (get_ts o <? get_ts txn)|]; simplify_eq/=.
  - rewrite bool_decide_false by set_solver.
    split; [rewrite queue_insert_Permutation; set_solver|]. split; [|done]. f_equal.
    assert (txn ∉ q) as Hni by set_solver. clear -Hni.
    induction q as [|a q IH]; simpl; [by rewrite filter_cons_False by tauto|].
    apply not_elem_of_cons in Hni as [? Hni]. case_match.
    + rewrite filter_cons_True by congruence. by rewrite IH.
    + rewrite filter_cons_False by tauto. rewrite filter_cons_True by congruence.
      by rewrite filter_ne_not_in.
  - rewrite (Ho eq_refl), bool_decide_true by done. by split; [set_solver|].
Qed.

Lemma mans_ok_lock txn mans ready k p :
  mans_ok mans ready -> (txn < g_thread_cnt)%nat -> mans !! k = Some p ->
  fresh_ts txn (part_abs p) ->
  exists rc p' ready', PartMan_lock txn p ready = Some (rc, p', ready') /\
    mans_ok (<[k := p']> mans) ready' /\ spec_lock txn (part_abs p) = (rc, part_abs p').
Proof.
  intros [Hok Hr] Hlt Hk Hf. pose proof (Forall_lookup_1 _ _ _ _ Hok Hk) as Hp.
  destruct (PartMan_lock_spec txn p ready Hp Hlt Hf) as (rc & p' & Hl & Hs & Hp').
  do 3 eexists. split; [exact Hl|]. split; [|done]. split; [by apply Forall_insert|].
  intros t. rewrite (wait_count_insert _ _ _ _ _ Hk).
  rewrite (lock_waits_in t txn p p' rc (fresh_not_in _ _ Hf) Hs), <- Hr.
  case_decide; [|lia]. unfold add_ready. case_decide; lia.
Qed.

Lemma mans_ok_unlock txn mans ready k p :
  mans_ok mans ready -> mans !! k = Some p -> txn ∈ spec_txns (part_abs p) ->
  exists p' ready', PartMan_unlock txn p ready = Some (p', ready') /\
    mans_ok (<[k := p']> mans) ready' /\ part_abs p' = spec_unlock txn (part_abs p).
Proof.
  intros [Hok Hr] Hk Hin. pose proof (Forall_lookup_1 _ _ _ _ Hok Hk) as Hp.
  destruct (PartMan_unlock_spec txn p ready Hp Hin) as (p' & Hu & Hs & Hp').
  - intros t. rewrite Hr. apply wait_count_nonneg.
  - intros t Ht. rewrite Hr. pose proof (wait_count_lookup t _ _ _ Hk) as Hw.
    unfold waits_in in Hw. by rewrite bool_decide_true in Hw.
  - do 2 eexists. split; [exact Hu|]. split; [|done]. split; [by apply Forall_insert|].
    intros t. rewrite (wait_count_insert _ _ _ _ _ Hk).
    rewrite (unlock_waits_in t txn p p' ready (proj2 (proj2 Hp)) Hin Hs). by rewrite Hr.
Qed.

Lemma Plock_unlock_spec txn parts mans ready :
  mans_ok mans ready -> NoDup parts ->
  (forall k, k ∈ parts -> exists s, abs_at mans k = Some s /\ txn ∈ spec_txns s) ->
  exists mans' ready', Plock_unlock txn parts mans ready = Some (mans', ready') /\
    mans_ok mans' ready' /\ length mans' = length mans /\
    forall k, abs_at mans' k =
      if decide (k ∈ parts) then spec_unlock txn <$> abs_at mans k else abs_at mans k.
Proof.
  revert mans ready. induction parts as [|i parts IH]; intros mans ready Hm Hnd Hin;
    cbn [Plock_unlock].
  { eexists _, _. split; [done|]. split; [done|]. split; [done|]. intros k.
    by rewrite decide_False by apply not_elem_of_nil. }
  apply NoDup_cons in Hnd as [Hni Hnd].
  destruct (Hin i) as (s & Hs & Ht); [set_solver|]. unfold abs_at in Hs.
  destruct (mans !! i) as [p|] eqn:Ei; [|done]. simplify_eq/=.
  destruct (mans_ok_unlock _ _ _ _ _ Hm Ei Ht) as (p' & r' & -> & Hm' & Hp').
  destruct (IH _ _ Hm' Hnd) as (m2 & r2 & H2 & Hm2 & Hl2 & Hk2).
  { intros k Hk. rewrite abs_at_insert_ne by set_solver. apply Hin. set_solver. }
  exists m2, r2. split; [done|]. split; [done|].
  rewrite length_insert in Hl2. split; [done|]. intros k. rewrite Hk2.
  destruct (decide (k = i)) as [->|Hne].
  - destruct (decide (i ∈ parts)); [done|].
    destruct (decide (i ∈ i :: parts)); [|set_solver].
    rewrite abs_at_insert_eq by by eapply lookup_lt_Some.
    unfold abs_at. rewrite Ei. simpl. by rewrite Hp'.
  - rewrite abs_at_insert_ne by done. repeat case_decide; set_solver.
Qed.

(** What [lock_parts] has done when it returns with [i] partitions locked. *)
Lemma lock_parts_spec txn parts mans ready :
  mans_ok mans ready -> (txn < g_thread_cnt)%nat -> NoDup parts ->
  Forall (fun k => k < length mans)%nat parts ->
  (forall k s, k ∈ parts -> abs_at mans k = Some s -> fresh_ts txn s) ->
  exists rc i mans' ready', lock_parts txn parts mans ready = Some (rc, i, mans', ready') /\
    mans_ok mans' ready' /\ length mans' = length mans /\
    (rc <> Abort -> i = length parts) /\
    (forall k, k ∉ take i parts -> abs_at mans' k = abs_at mans k) /\
    (forall k, k ∈ take i parts -> exists s', abs_at mans' k = Some s' /\
       txn ∈ spec_txns s' /\ abs_at mans k = Some (spec_unlock txn s')).
Proof.
  revert mans ready. induction parts as [|part_id parts IH];
    intros mans ready Hm Hlt Hnd Hrange Hf; cbn [lock_parts].
  { exists RCOK, 0%nat. do 2 eexists. split; [done|]. split_and!; try done.
    intros k Hk. by apply elem_of_nil in Hk. }
  apply NoDup_cons in Hnd as [Hni Hnd]. apply Forall_cons in Hrange as [Hi Hrange].
  destruct (lookup_lt_is_Some_2 mans part_id Hi) as [p Ep]. rewrite Ep.
  assert (abs_at mans part_id = Some (part_abs p)) as Ha by (unfold abs_at; by rewrite Ep).
  assert (fresh_ts txn (part_abs p)) as Hfp by (apply (Hf part_id); [set_solver|done]).
  destruct (mans_ok_lock _ _ _ _ _ Hm Hlt Ep Hfp) as (rc & p' & r' & -> & Hm' & Hs).
  pose proof (Forall_lookup_1 _ _ _ _ (proj1 Hm) Ep) as (_ & _ & Hokp).
  case_bool_decide as Hrc.
  - subst rc. exists Abort, 0%nat. do 2 eexists. split; [done|]. split; [done|].
    split; [by rewrite length_insert|]. split; [done|]. split.
    + intros k _. destruct (decide (k = part_id)) as [->|]; [|by apply abs_at_insert_ne].
      rewrite abs_at_insert_eq, Ha by done. unfold spec_lock in Hs.
      destruct (ps_owner (part_abs p)); [|done]. case_match; congruence.
    + intros k Hk. by apply elem_of_nil in Hk.
  - destruct (spec_lock_unlock _ _ _ _ Hokp Hfp Hs Hrc) as (Hin & Hun & _).
    destruct (IH _ r' Hm' Hlt Hnd) as (rc2 & i & m2 & r2 & -> & Hm2 & Hl2 & Hi2 & Hout & Hins).
    { by rewrite length_insert. }
    { intros k s Hk Hks. rewrite abs_at_insert_ne in Hks by set_solver.
      apply (Hf k); [set_solver|done]. }
    assert (part_id ∉ take i parts) as Hni'.
    { intros H. apply Hni. eapply elem_of_submseteq; [exact H|]. apply sublist_submseteq, sublist_take. }
    exists rc2, (S i), m2, r2. split; [done|]. split; [done|].
    rewrite length_insert in Hl2. split; [done|].
    split; [intros H; by rewrite (Hi2 H)|]. cbn [take]. split.
    + intros k [Hne Hk]%not_elem_of_cons. rewrite Hout by done. by apply abs_at_insert_ne.
    + intros k [->|Hk]%elem_of_cons.
      * exists (part_abs p'). rewrite Hout by done. rewrite abs_at_insert_eq by done.
        by rewrite Hun.
      * destruct (Hins k Hk) as (s' & H1 & H2 & H3). exists s'. split; [done|].
        split; [done|]. by rewrite abs_at_insert_ne in H3 by set_solver.
Qed.

Lemma Plock_lock_spec txn parts mans ready :
  mans_ok mans ready -> (txn < g_thread_cnt)%nat -> NoDup parts ->
  Forall (fun k => k < length mans)%nat parts ->
  (forall k s, abs_at mans k = Some s -> fresh_ts txn s) ->
  exists rc mans' ready', Plock_lock txn parts mans ready = Some (rc, mans', ready') /\
    mans_ok mans' ready' /\
    match rc with
    | Abort => forall k, abs_at mans' k = abs_at mans k
    | RCOK => forall k, k ∈ parts -> exists s, abs_at mans' k = Some s /\ ps_owner s = Some txn
    | WAIT => 0 < ready' txn /\
        forall k, k ∈ parts -> exists s, abs_at mans' k = Some s /\ txn ∈ spec_txns s
    | _ => False
    end.
Proof.
  intros Hm Hlt Hnd Hr Hf. unfold Plock_lock.
  destruct (lock_parts_spec txn parts mans ready Hm Hlt Hnd Hr) as
    (rc & i & m2 & r2 & -> & Hm2 & Hl2 & Hi & Hout & Hins); [by eauto|].
  case_bool_decide as Hrc.
  - destruct (Plock_unlock_spec txn (take i parts) m2 r2 Hm2) as (m3 & r3 & -> & Hm3 & Hl3 & Hk3).
    { eapply sublist_NoDup; [exact Hnd|]. apply sublist_take. }
    { intros k Hk. destruct (Hins k Hk) as (s' & ? & ? & _). eauto. }
    assert (forall k, abs_at m3 k = abs_at mans k) as Habs.
    { intros k. rewrite Hk3. case_decide as Hk; [|by apply Hout].
      destruct (Hins k Hk) as (s' & H1 & _ & H2). by rewrite H1, H2. }
    rewrite c_assert_true.
    2:{ destruct Hm3 as [_ Hr3]. rewrite Hr3. apply Z.eqb_eq.
        assert (forall k p, m3 !! k = Some p -> waits_in txn p = 0) as Hz.
        { intros k p Hk. unfold waits_in. rewrite bool_decide_false; [done|].
          assert (abs_at m3 k = Some (part_abs p)) as Ha by (unfold abs_at; by rewrite Hk).
          rewrite Habs in Ha. apply Hf, fresh_not_in in Ha. unfold spec_txns in Ha. set_solver. }
        clear -Hz. induction m3 as [|p m3 IH]; simpl; [done|].
        rewrite (Hz 0%nat p eq_refl), IH; [done|]. intros k q Hk. by apply (Hz (S k) q). }
    do 3 eexists. split; [done|]. split; [done|]. done.
  - rewrite (Hi Hrc), firstn_all in Hins.
    destruct (0 <? r2 txn) eqn:E0; b2p.
    + do 3 eexists. split; [done|]. split; [done|]. simpl. split; [done|].
      intros k Hk. destruct (Hins k Hk) as (s' & ? & ? & _). eauto.
    + do 3 eexists. split; [done|]. split; [done|]. simpl.
      intros k Hk. destruct (Hins k Hk) as (s' & H1 & H2 & _). exists s'. split; [done|].
      unfold abs_at in H1. destruct (m2 !! k) as [p|] eqn:Ek; [|done]. simplify_eq/=.
      pose proof (wait_count_lookup txn _ _ _ Ek) as Hw.
      destruct Hm2 as [_ Hr2]. rewrite <- Hr2 in Hw. unfold waits_in in Hw.
      case_bool_decide; [lia|]. unfold spec_txns, part_abs in *; simpl in *.
      destruct (pm_owner p); simpl in *; set_solver.
Qed.
End part_man.

(** ** The system of partitions *)

Record plock_sys := mkPlockSys {
  pl_mans : list PartMan;
  pl_ready : nat -> Z;
  pl_ts : nat -> Z }.

Section plock_system.
Context (g_thread_cnt : nat).

Definition in_part (sys : plock_sys) (t k : nat) : Prop :=
  exists p, pl_mans sys !! k = Some p /\ t ∈ spec_txns (part_abs p).

(** Each partition is latched, so the calls are atomic; a thread takes a new
    timestamp between transactions. *)
Inductive plock_step : plock_sys -> plock_sys -> Prop :=
| pl_step_lock k p txn rc p' ready' sys :
    pl_mans sys !! k = Some p -> (txn < g_thread_cnt)%nat -> ~ in_part sys txn k ->
    PartMan_lock g_thread_cnt (pl_ts sys) txn p (pl_ready sys) = Some (rc, p', ready') ->
    plock_step sys (mkPlockSys (<[k := p']> (pl_mans sys)) ready' (pl_ts sys))
| pl_step_unlock k p txn p' ready' sys :
    pl_mans sys !! k = Some p -> in_part sys txn k ->
    PartMan_unlock (pl_ts sys) txn p (pl_ready sys) = Some (p', ready') ->
    plock_step sys (mkPlockSys (<[k := p']> (pl_mans sys)) ready' (pl_ts sys))
| pl_step_set_ts txn v sys :
    (forall k, ~ in_part sys txn k) -> (forall t, pl_ts sys t <> v) ->
    plock_step sys (mkPlockSys (pl_mans sys) (pl_ready sys)
      (fun t => if decide (t = txn) then v else pl_ts sys t)).

Definition plock_init (sys : plock_sys) : Prop :=
  Forall (fun p => exists g, p = PartMan_init g_thread_cnt g) (pl_mans sys) /\
  (forall t, pl_ready sys t = 0) /\
  (forall t t', pl_ts sys t = pl_ts sys t' -> t = t').

(** [t] waits for a partition that [t'] owns or will own first. *)
Definition part_waits_for (sys : plock_sys) (t t' : nat) : Prop :=
  exists k p, pl_mans sys !! k = Some p /\
    exists l1 l2 l3, spec_txns (part_abs p) = l1 ++ t' :: l2 ++ t :: l3.

Definition plock_ok (sys : plock_sys) : Prop :=
  mans_ok g_thread_cnt (pl_ts sys) (pl_mans sys) (pl_ready sys) /\
  (forall t t', pl_ts sys t = pl_ts sys t' -> t = t').

Lemma part_ok_ext (f f' : nat -> Z) p :
  (forall t, t ∈ spec_txns (part_abs p) -> f' t = f t) ->
  part_ok g_thread_cnt f p -> part_ok g_thread_cnt f' p.
Proof.
  intros Hf (Hc & Hl & [Hs Hth Ho]). split_and!; try done. constructor; try done.
  clear Ho Hth. induction Hs as [|a l Hs IH Ha]; constructor.
  - apply IH. set_solver.
  - rewrite Forall_forall in *. intros x Hx. unfold younger.
    rewrite !Hf by set_solver. by apply Ha.
Qed.

Lemma plock_step_ok sys sys' : plock_ok sys -> plock_step sys sys' -> plock_ok sys'.
Proof.
  intros [Hm Hts] Hstep.
  destruct Hstep as [k p txn rc p' ready' sys Hk Hlt Hni Hl
    |k p txn p' ready' sys Hk (p0 & Hk0 & Hin) Hu|txn v sys Hni Hv].
  - destruct (mans_ok_lock g_thread_cnt (pl_ts sys) txn _ _ k p Hm Hlt Hk)
      as (rc2 & p2 & r2 & Hl2 & Hm2 & _); [|by simplify_eq].
    unfold fresh_ts. rewrite Forall_forall. intros t Ht E. apply Hts in E as ->.
    apply Hni. by exists p.
  - simplify_eq. destruct (mans_ok_unlock g_thread_cnt (pl_ts sys) txn _ _ k p Hm Hk Hin)
      as (p2 & r2 & Hu2 & Hm2 & _). by simplify_eq.
  - split; simpl.
    + destruct Hm as [Hok Hr]. split; [|done]. rewrite Forall_lookup in Hok |- *.
      intros k p Hk. eapply part_ok_ext; [|by eapply Hok]. intros t Ht. simpl.
      case_decide as E; [|done]. subst. by destruct (Hni k); exists p.
    + intros t t'. repeat case_decide; intros; subst; try done; [| |eauto].
      * by destruct (Hv t').
      * by destruct (Hv t).
Qed.

Lemma plock_reachable_ok sys sys' :
  plock_init sys -> rtc plock_step sys sys' -> plock_ok sys'.
Proof.
  intros (Hi & Hr & Hts) Hrtc.
  assert (plock_ok sys) as Hok.
  { split; [|done]. split.
    - eapply Forall_impl; [exact Hi|]. intros p (g & ->). split; [simpl; lia|].
      split; [apply length_replicate|]. by repeat constructor.
    - intros t. rewrite Hr. clear -Hi. induction Hi as [|p l (g & ->) _ IH]; [done|].
      simpl. by rewrite <- IH. }
  clear Hi Hr Hts. induction Hrtc as [|x y z Hxy _ IH]; [done|].
  apply IH. by eapply plock_step_ok.
Qed.

(** ** Properties *)

(** C29. Deadlock freedom of the HSTORE partition locks. In every reachable
    state no chain of waits for partitions leads from a transaction back to
    itself; and [ready_part] of each transaction is the number of partitions
    it waits for, so that the spin of [Plock::lock] ends exactly when the
    transaction waits for none. *)
Theorem plock_deadlock_free sys sys' :
  plock_init sys -> rtc plock_step sys sys' ->
  (forall t, ~ tc (part_waits_for sys') t t) /\
  (forall t, pl_ready sys' t = wait_count t (pl_mans sys')).
Proof.
  intros Hi Hr. destruct (plock_reachable_ok _ _ Hi Hr) as [[Hok Hrd] Hts].
  split; [|done].
  assert (forall t1 t2, tc (part_waits_for sys') t1 t2 -> pl_ts sys' t2 < pl_ts sys' t1)
    as Hlt; [|intros t Ht; specialize (Hlt t t Ht); lia].
  assert (forall t1 t2, part_waits_for sys' t1 t2 -> pl_ts sys' t2 < pl_ts sys' t1) as H1.
  { intros t1 t2 (k & p & Hk & l1 & l2 & l3 & E).
    pose proof (Forall_lookup_1 _ _ _ _ Hok Hk) as (_ & _ & [Hs _ _]). rewrite E in Hs.
    apply StronglySorted_app in Hs as (_ & _ & Hs).
    apply StronglySorted_inv in Hs as [_ Hs]. rewrite Forall_forall in Hs.
    apply Hs. set_solver. }
  intros t1 t2 Htc. induction Htc as [x y H|x y z H _ IH]; apply H1 in H; lia.
Qed.
End plock_system.

Section plock_properties.
Context (g_thread_cnt : nat) (get_ts : nat -> Z).

(** [PartMan::lock] implements the abstract partition lock: it never
    fails its bounds check, returns the abstract return code, its array holds
    the abstract queue (the owner older than every waiter, the waiters in
    timestamp order), and it counts the wait in [ready_part]. *)
Theorem PartMan_lock_refines txn p ready :
  part_ok g_thread_cnt get_ts p -> (txn < g_thread_cnt)%nat ->
  fresh_ts get_ts txn (part_abs p) ->
  exists rc p',
    PartMan_lock g_thread_cnt get_ts txn p ready =
      Some (rc, p', if decide (rc = WAIT) then add_ready ready txn 1 else ready) /\
    spec_lock get_ts txn (part_abs p) = (rc, part_abs p') /\
    part_ok g_thread_cnt get_ts p'.
Proof. apply PartMan_lock_spec. Qed.

(** [PartMan::unlock] by the owner or by a waiter implements the abstract
    release: no assertion fails, the owner is replaced by the first of the
    queue, or the waiter leaves the queue, and [ready_part] of the
    transaction that stops waiting is decremented. *)
Theorem PartMan_unlock_refines txn p ready :
  part_ok g_thread_cnt get_ts p -> txn ∈ spec_txns (part_abs p) ->
  (forall t, 0 <= ready t) -> (forall t, t ∈ ps_queue (part_abs p) -> 1 <= ready t) ->
  exists p',
    PartMan_unlock get_ts txn p ready = Some (p', unlock_ready txn (part_abs p) ready) /\
    part_abs p' = spec_unlock txn (part_abs p) /\ part_ok g_thread_cnt get_ts p'.
Proof. apply PartMan_unlock_spec. Qed.

(** [Plock::lock] is all or nothing: when one of the partitions aborts
    the transaction, every partition is given back as it was; otherwise the
    transaction owns every partition ([RCOK]) or owns or waits for each of
    them ([WAIT], the spin on [ready_part]). *)
Theorem Plock_lock_all_or_nothing txn parts mans ready :
  mans_ok g_thread_cnt get_ts mans ready -> (txn < g_thread_cnt)%nat -> NoDup parts ->
  Forall (fun k => k < length mans)%nat parts ->
  (forall k s, abs_at mans k = Some s -> fresh_ts get_ts txn s) ->
  exists rc mans' ready',
    Plock_lock g_thread_cnt get_ts txn parts mans ready = Some (rc, mans', ready') /\
    mans_ok g_thread_cnt get_ts mans' ready' /\
    match rc with
    | Abort => forall k, abs_at mans' k = abs_at mans k
    | RCOK => forall k, k ∈ parts -> exists s, abs_at mans' k = Some s /\ ps_owner s = Some txn
    | WAIT => 0 < ready' txn /\
        forall k, k ∈ parts -> exists s, abs_at mans' k = Some s /\ txn ∈ spec_txns s
    | _ => False
    end.
Proof. apply Plock_lock_spec. Qed.
End plock_properties.

(** ** Witnesses: three threads, two partitions *)

Module PlockExample.
Definition man0 : PartMan := mkPartMan (Some 1%nat) [0; 0; 0]%nat 0.
Definition man1 : PartMan := mkPartMan None [0; 0; 0]%nat 0.
Definition man2 : PartMan := mkPartMan (Some 0%nat) [1; 2; 0]%nat 2.

Lemma man0_ok : part_ok 3 Z.of_nat man0.
Proof. split_and!; [simpl; lia|done|]. repeat constructor; simpl; try lia; done. Qed.
Lemma man1_ok : part_ok 3 Z.of_nat man1.
Proof. split_and!; [simpl; lia|done|]. repeat constructor; simpl; try lia; done. Qed.
Lemma man2_ok : part_ok 3 Z.of_nat man2.
Proof.
  split_and!; [simpl; lia|done|]. repeat constructor; unfold younger; simpl; try lia; done.
Qed.
End PlockExample.

Lemma PartMan_lock_refines_witness :
  exists rc p',
    PartMan_lock 3 Z.of_nat 2 PlockExample.man0 (fun _ => 0) =
      Some (rc, p', if decide (rc = WAIT) then add_ready (fun _ => 0) 2 1 else fun _ => 0) /\
    spec_lock Z.of_nat 2 (part_abs PlockExample.man0) = (rc, part_abs p') /\
    part_ok 3 Z.of_nat p'.
Proof.
  apply (PartMan_lock_refines 3 Z.of_nat 2 PlockExample.man0 (fun _ => 0)).
  - apply PlockExample.man0_ok.
  - lia.
  - unfold fresh_ts. repeat constructor; simpl; lia.
Defined.

Lemma PartMan_unlock_refines_witness :
  exists p',
    PartMan_unlock Z.of_nat 1 PlockExample.man2 (fun _ => 1) =
      Some (p', unlock_ready 1 (part_abs PlockExample.man2) (fun _ => 1)) /\
    part_abs p' = spec_unlock 1 (part_abs PlockExample.man2) /\ part_ok 3 Z.of_nat p'.
Proof.
  apply (PartMan_unlock_refines 3 Z.of_nat 1 PlockExample.man2 (fun _ => 1)).
  - apply PlockExample.man2_ok.
  - unfold spec_txns. simpl. set_solver.
  - lia.
  - lia.
Defined.

Lemma Plock_lock_all_or_nothing_witness :
  exists rc mans' ready',
    Plock_lock 3 Z.of_nat 0 [1; 0]%nat [PlockExample.man0; PlockExample.man1] (fun _ => 0)
      = Some (rc, mans', ready') /\
    mans_ok 3 Z.of_nat mans' ready' /\
    match rc with
    | Abort => forall k, abs_at mans' k = abs_at [PlockExample.man0; PlockExample.man1] k
    | RCOK => forall k, k ∈ [1; 0]%nat ->
        exists s, abs_at mans' k = Some s /\ ps_owner s = Some 0%nat
    | WAIT => 0 < ready' 0%nat /\
        forall k, k ∈ [1; 0]%nat -> exists s, abs_at mans' k = Some s /\ 0%nat ∈ spec_txns s
    | _ => False
    end.
Proof.
  apply (Plock_lock_all_or_nothing 3 Z.of_nat 0 [1; 0]%nat
           [PlockExample.man0; PlockExample.man1] (fun _ => 0)).
  - split; [|done]. repeat constructor; apply PlockExample.man0_ok || apply PlockExample.man1_ok.
  - lia.
  - repeat constructor; set_solver.
  - repeat constructor; simpl; lia.
  - intros [|[|k]] s Hs; simpl in Hs; [| |done]; injection Hs as <-; unfold fresh_ts;
      repeat constructor; simpl; lia.
Defined.

Lemma plock_deadlock_free_witness :
  let sys0 := mkPlockSys [PartMan_init 3 0] (fun _ => 0) Z.of_nat in
  let sys1 := mkPlockSys [mkPartMan (Some 1%nat) [0; 0; 0]%nat 0] (fun _ => 0) Z.of_nat in
  plock_step 3 sys0 sys1 /\
  (forall t, ~ tc (part_waits_for sys1) t t) /\
  (forall t, pl_ready sys1 t = wait_count t (pl_mans sys1)).
Proof.
  intros sys0 sys1.
  assert (plock_step 3 sys0 sys1) as Hs.
  { apply (pl_step_lock 3 0 (PartMan_init 3 0) 1 RCOK
             (mkPartMan (Some 1%nat) [0; 0; 0]%nat 0) (fun _ => 0) sys0); try done; [lia|].
    intros (p & Hp & Hin). simpl in Hp. injection Hp as <-. by apply elem_of_nil in Hin. }
  split; [exact Hs|]. apply (plock_deadlock_free 3 sys0 sys1).
  - split_and!; [|done|simpl; lia]. repeat constructor. by exists 0%nat.
  - apply rtc_once. exact Hs.
Defined.
