(* ===== verification/Mvcc.v ===== *)
(** * Multi-version timestamp ordering of one row

    [Row_mvcc] of src/concurrency_control/row_mvcc.h and row_mvcc.cpp: the
    version array, the pending requests, [access] for the four request types,
    the reservation and recycling of version slots, and the wake-up of pending
    requests. Versions are rows of a heap, so that the recycling of a slot,
    which reuses a row in place, is modelled with its aliasing. *)

From S2P Require Import Prelude Global.

(** ** Data *)

(** A [row_t*] is [Some p], [NULL] is [None]. *)
Record WriteHisEntry := mkWriteHisEntry {
  wh_valid : bool;
  wh_reserved : bool;
  wh_ts : Z;
  wh_row : option nat }.

(** [time] is only written, and is left out. *)
Record ReqEntry := mkReqEntry {
  rq_valid : bool;
  rq_type : TsType;
  rq_ts : Z;
  rq_txn : nat }.

(** [_his_len] and [_req_len] are the lengths of the two arrays. *)
Record Row_mvcc := mkRow_mvcc {
  _row : nat;
  _latest_row : nat;
  _latest_wts : Z;
  _oldest_wts : Z;
  _write_history : list WriteHisEntry;
  _exists_prewrite : bool;
  _prewrite_ts : Z;
  _prewrite_his_id : nat;
  _max_served_rts : Z;
  _requests : list ReqEntry;
  _num_versions : Z }.

Definition _his_len (m : Row_mvcc) : nat := length (_write_history m).
Definition _req_len (m : Row_mvcc) : nat := length (_requests m).

#[global] Instance WriteHisEntry_eq_dec : EqDecision WriteHisEntry.
Proof. solve_decision. Defined.
#[global] Instance ReqEntry_eq_dec : EqDecision ReqEntry.
Proof. solve_decision. Defined.

(** Field updates. *)
Definition set_history (h : list WriteHisEntry) (m : Row_mvcc) : Row_mvcc :=
  mkRow_mvcc (_row m) (_latest_row m) (_latest_wts m) (_oldest_wts m) h
    (_exists_prewrite m) (_prewrite_ts m) (_prewrite_his_id m)
    (_max_served_rts m) (_requests m) (_num_versions m).
Definition set_requests (r : list ReqEntry) (m : Row_mvcc) : Row_mvcc :=
  mkRow_mvcc (_row m) (_latest_row m) (_latest_wts m) (_oldest_wts m)
    (_write_history m) (_exists_prewrite m) (_prewrite_ts m)
    (_prewrite_his_id m) (_max_served_rts m) r (_num_versions m).
Definition set_max_served (t : Z) (m : Row_mvcc) : Row_mvcc :=
  mkRow_mvcc (_row m) (_latest_row m) (_latest_wts m) (_oldest_wts m)
    (_write_history m) (_exists_prewrite m) (_prewrite_ts m)
    (_prewrite_his_id m) t (_requests m) (_num_versions m).
Definition set_prewrite (b : bool) (ts : Z) (id : nat) (m : Row_mvcc) : Row_mvcc :=
  mkRow_mvcc (_row m) (_latest_row m) (_latest_wts m) (_oldest_wts m)
    (_write_history m) b ts id (_max_served_rts m) (_requests m)
    (_num_versions m).
(** The fields a recycling changes. *)
Definition set_oldest (row : nat) (ts : Z) (h : list WriteHisEntry) (n : Z)
    (m : Row_mvcc) : Row_mvcc :=
  mkRow_mvcc row (_latest_row m) (_latest_wts m) ts h (_exists_prewrite m)
    (_prewrite_ts m) (_prewrite_his_id m) (_max_served_rts m) (_requests m) n.
(** The fields a committed write changes. *)
Definition set_latest (row : nat) (ts : Z) (h : list WriteHisEntry) (n : Z)
    (m : Row_mvcc) : Row_mvcc :=
  mkRow_mvcc (_row m) row ts (_oldest_wts m) h false (_prewrite_ts m)
    (_prewrite_his_id m) (_max_served_rts m) (_requests m) n.

(** A slot and a request of freshly allocated memory; [_mm_malloc] leaves [ts]
    (and [type], [txn]) unset. *)
Definition new_slot : WriteHisEntry := mkWriteHisEntry false false 0 None.
Definition new_req : ReqEntry := mkReqEntry false R_REQ 0 0.

Definition Row_mvcc_init (row : nat) : Row_mvcc :=
  mkRow_mvcc row row 0 0 (replicate 4 new_slot) false 0 0 0
    (replicate 4 new_req) 0.

Definition double_history (m : Row_mvcc) : Row_mvcc :=
  set_history (_write_history m ++ replicate (_his_len m) new_slot) m.
Definition double_requests (m : Row_mvcc) : Row_mvcc :=
  set_requests (_requests m ++ replicate (_req_len m) new_req) m.

(** [double_list(list)]. *)
Definition double_list (list : nat) (m : Row_mvcc) : option Row_mvcc :=
  if (list =? 0)%nat then Some (double_history m)
  else assert! (list =? 1)%nat;; Some (double_requests m).

(** ** The loops over the version array *)

(** The search of a read for the version: the array from index [i] on. The
    running maximum [the_ts] is a [uint32_t]. *)
Fixpoint find_version (ts the_ts : Z) (the_i i : nat) (h : list WriteHisEntry)
    : nat :=
  match h with
  | [] => the_i
  | e :: h' =>
      if wh_valid e && (wh_ts e <? ts) && (the_ts <? wh_ts e)
      then find_version ts (u32 (wh_ts e)) i (S i) h'
      else find_version ts the_ts the_i (S i) h'
  end.

(** The newest version older than [min_ts]: its timestamp and its index. *)
Fixpoint find_recycle (min_ts max_recycle_ts : Z) (idx i : nat)
    (h : list WriteHisEntry) : Z * nat :=
  match h with
  | [] => (max_recycle_ts, idx)
  | e :: h' =>
      if wh_valid e && (wh_ts e <? min_ts) && (max_recycle_ts <? wh_ts e)
      then find_recycle min_ts (wh_ts e) i (S i) h'
      else find_recycle min_ts max_recycle_ts idx (S i) h'
  end.

(** Invalidates the versions up to [max_recycle_ts]. *)
Fixpoint recycle_loop (max_recycle_ts : Z) (num : Z) (h : list WriteHisEntry)
    : option (list WriteHisEntry * Z) :=
  match h with
  | [] => Some ([], num)
  | e :: h' =>
      if wh_valid e && (wh_ts e <=? max_recycle_ts) then
        assert! negb (bool_decide (wh_row e = None));;
        match recycle_loop max_recycle_ts (u32 (num - 1)) h' with
        | Some (r, n) =>
            Some (mkWriteHisEntry false false (wh_ts e) (wh_row e) :: r, n)
        | None => None
        end
      else match recycle_loop max_recycle_ts num h' with
           | Some (r, n) => Some (e :: r, n)
           | None => None
           end
  end.

(** An unused slot: the first one that already has a row, else the last one. *)
Fixpoint find_free (idx i : nat) (h : list WriteHisEntry) : nat :=
  match h with
  | [] => idx
  | e :: h' =>
      if negb (wh_valid e) && negb (wh_reserved e)
         && negb (bool_decide (wh_row e = None)) then i
      else if negb (wh_valid e) && negb (wh_reserved e)
      then find_free i (S i) h' else find_free idx (S i) h'
  end.

(** The oldest version: its timestamp and its index. *)
Fixpoint find_min (min_ts : Z) (idx i : nat) (h : list WriteHisEntry) : Z * nat :=
  match h with
  | [] => (min_ts, idx)
  | e :: h' =>
      if wh_valid e && (wh_ts e <? min_ts)
      then find_min (wh_ts e) i (S i) h'
      else find_min min_ts idx (S i) h'
  end.

(** The counters of the [DEBUG_CC] checks in [reserveRow]. *)
Fixpoint his_stats (his_size max_ts : Z) (h : list WriteHisEntry) : Z * Z :=
  match h with
  | [] => (his_size, max_ts)
  | e :: h' =>
      if wh_valid e
      then his_stats (his_size + 1)
             (if max_ts <? wh_ts e then wh_ts e else max_ts) h'
      else his_stats his_size max_ts h'
  end.

Section row_mvcc.
(** The contents of a row; [garbage] is what a freshly allocated row holds. *)
Context {V : Type} (garbage : V).
(** [g_thread_cnt], and [get_ts()] of the transactions: an instance of a
    transaction keeps its timestamp. *)
Context (g_thread_cnt : nat) (get_ts : nat -> Z).

(** What [access] reads and writes: the manager of the row, the heap of rows,
    and the fields [cur_row] and [ts_ready] of the transactions. *)
Record world := mkWorld {
  w_mvcc : Row_mvcc;
  w_heap : gmap nat V;
  w_cur : gmap nat nat;
  w_ready : gmap nat bool }.

Definition set_mvcc (m : Row_mvcc) (w : world) : world :=
  mkWorld m (w_heap w) (w_cur w) (w_ready w).
Definition set_heap (h : gmap nat V) (w : world) : world :=
  mkWorld (w_mvcc w) h (w_cur w) (w_ready w).
Definition set_cur (txn row : nat) (w : world) : world :=
  mkWorld (w_mvcc w) (w_heap w) (<[txn := row]> (w_cur w)) (w_ready w).
Definition set_ready (txn : nat) (b : bool) (w : world) : world :=
  mkWorld (w_mvcc w) (w_heap w) (w_cur w) (<[txn := b]> (w_ready w)).

(** [dst->copy(src, tuple_size)], with the size of the table's tuples. *)
Definition copy (dst src : nat) (w : world) : option world :=
  match w_heap w !! src with
  | Some v => Some (set_heap (<[dst := v]> (w_heap w)) w)
  | None => None
  end.

(** [_mm_malloc(sizeof(row_t), 64)] and [init(MAX_TUPLE_SIZE)]. *)
Definition alloc_row (w : world) : nat * world :=
  let p := fresh (dom (w_heap w)) in
  (p, set_heap (<[p := garbage]> (w_heap w)) w).

(** *** buffer_req *)

(** The [for] loop of [buffer_req]: the first free entry is used. *)
Fixpoint buffer_loop (type : TsType) (txn : nat) (r : list ReqEntry)
    : option (list ReqEntry) :=
  match r with
  | [] => None
  | q :: r' =>
      if rq_valid q
      then match buffer_loop type txn r' with
           | Some r'' => Some (q :: r'')
           | None => None
           end
      else Some (mkReqEntry true type (get_ts txn) txn :: r')
  end.

(** The array is doubled at most once: [assert(access_num == 1)]. *)
Definition buffer_req (type : TsType) (txn : nat) (m : Row_mvcc)
    : option Row_mvcc :=
  match buffer_loop type txn (_requests m) with
  | Some r => Some (set_requests r m)
  | None =>
      match double_list 1 m with
      | None => None
      | Some m =>
          match buffer_loop type txn (_requests m) with
          | Some r => Some (set_requests r m)
          | None => None
          end
      end
  end.

(** *** reserveRow *)

(** Garbage collection at the start of [reserveRow]: the newest version older
    than [min_ts] becomes [_row], and everything up to it is freed. *)
Definition collect (min_ts : Z) (m : Row_mvcc) : option Row_mvcc :=
  if (_oldest_wts m <? min_ts) && (_num_versions m =? Z.of_nat (_his_len m)) then
    let '(max_recycle_ts, idx) :=
      find_recycle min_ts 0 (_his_len m) 0 (_write_history m) in
    match _write_history m !! idx with
    | None => Some m (* idx == _his_len *)
    | Some e =>
        match wh_row e with
        | None => None
        | Some r =>
            let h := <[idx := mkWriteHisEntry (wh_valid e) (wh_reserved e)
                                (wh_ts e) (Some (_row m))]> (_write_history m) in
            match recycle_loop max_recycle_ts (_num_versions m) h with
            | Some (h, num) => Some (set_oldest r max_recycle_ts h num m)
            | None => None
            end
        end
    end
  else Some m.

(** The [DEBUG_CC] checks after the garbage collection. *)
Definition debug_versions (m : Row_mvcc) : bool :=
  let '(his_size, max_ts) := his_stats 0 0 (_write_history m) in
  (his_size =? _num_versions m) &&
  (if 0 <? _num_versions m then max_ts =? _latest_wts m else true).

(** The slot for the new version, [idx], with the recycling of the oldest
    version or the doubling of the array when there is none. *)
Definition pick_slot (ts : Z) (m : Row_mvcc) : option (nat * Row_mvcc) :=
  let idx := if _num_versions m <? Z.of_nat (_his_len m)
             then find_free (_his_len m) 0 (_write_history m)
             else _his_len m in
  assert! negb (_num_versions m <? Z.of_nat (_his_len m))
          || (idx <? _his_len m)%nat;;
  if (idx =? _his_len m)%nat then
    if (g_thread_cnt <=? _his_len m)%nat then
      let '(min_ts, idx) :=
        find_min UINT64_MAX (_his_len m) 0 (_write_history m) in
      assert! _oldest_wts m <? min_ts;;
      match _write_history m !! idx with
      | None => None
      | Some e =>
          match wh_row e with
          | None => None
          | Some r =>
              let h := <[idx := mkWriteHisEntry (wh_valid e) (wh_reserved e)
                                  (wh_ts e) (Some (_row m))]>
                         (_write_history m) in
              Some (idx, set_oldest r min_ts h (u32 (_num_versions m - 1)) m)
          end
      end
    else
      match double_list 0 m with
      | None => None
      | Some m =>
          let m := set_prewrite (_exists_prewrite m) ts (_prewrite_his_id m) m in
          let half := (_his_len m / 2)%nat in
          (* DEBUG_CC *)
          assert! forallb wh_valid (take half (_write_history m));;
          assert! negb (from_option wh_valid true (_write_history m !! half));;
          Some (half, m)
      end
  else Some (idx, m).

(** [reserveRow(ts, txn)]; [min_ts] is the result of
    [glob_manager->get_min_ts]. *)
Definition reserveRow (min_ts ts : Z) (w : world) : option (nat * world) :=
  assert! negb (_exists_prewrite (w_mvcc w));;
  match collect min_ts (w_mvcc w) with
  | None => None
  | Some m =>
      assert! debug_versions m;;
      match pick_slot ts m with
      | None => None
      | Some (idx, m) =>
          assert! negb (idx =? _his_len m)%nat;;
          match _write_history m !! idx with
          | None => None
          | Some e =>
              let '(row, w) :=
                match wh_row e with
                | Some r => (r, w)
                | None => alloc_row w
                end in
              let h := <[idx := mkWriteHisEntry false true ts (Some row)]>
                         (_write_history m) in
              Some (row, set_mvcc (set_prewrite true ts idx (set_history h m)) w)
          end
      end
  end.

(** *** update_buffer *)

(** The timestamp of the next pending prewrite. *)
Fixpoint next_prewrite (ts next_pre_ts : Z) (r : list ReqEntry) : Z :=
  match r with
  | [] => next_pre_ts
  | q :: r' =>
      if rq_valid q && bool_decide (rq_type q = P_REQ) && (ts <? rq_ts q)
         && (rq_ts q <? next_pre_ts)
      then next_prewrite ts (rq_ts q) r'
      else next_prewrite ts next_pre_ts r'
  end.

(** [_requests[i].valid = false]. *)
Definition invalidate_req (i : nat) (m : Row_mvcc) : Row_mvcc :=
  set_requests
    (alter (fun q => mkReqEntry false (rq_type q) (rq_ts q) (rq_txn q)) i
       (_requests m)) m.

(** The body of the second loop of [update_buffer], at index [i]. *)
Definition serve_req (min_ts ts next_pre_ts : Z) (i : nat) (w : world)
    : option world :=
  match _requests (w_mvcc w) !! i with
  | None => None
  | Some q =>
      assert! negb (rq_valid q) || (ts <? rq_ts q);;
      if rq_valid q && bool_decide (rq_type q = R_REQ) && (rq_ts q <? next_pre_ts)
      then
        let m := w_mvcc w in
        let m := if _max_served_rts m <? rq_ts q
                 then set_max_served (rq_ts q) m else m in
        let m := invalidate_req i m in
        Some (set_ready (rq_txn q) true
                (set_cur (rq_txn q) (_latest_row m) (set_mvcc m w)))
      else if rq_valid q && (rq_ts q =? next_pre_ts) then
        assert! bool_decide (rq_type q = P_REQ);;
        match reserveRow min_ts (rq_ts q) w with
        | None => None
        | Some (res_row, w) =>
            match copy res_row (_latest_row (w_mvcc w)) w with
            | None => None
            | Some w =>
                Some (set_ready (rq_txn q) true
                        (set_cur (rq_txn q) res_row
                           (set_mvcc (invalidate_req i (w_mvcc w)) w)))
            end
        end
      else Some w
  end.

(** The loop from index [i], [n] iterations. *)
Fixpoint serve_loop (min_ts ts next_pre_ts : Z) (i n : nat) (w : world)
    : option world :=
  match n with
  | O => Some w
  | S n =>
      match serve_req min_ts ts next_pre_ts i w with
      | Some w => serve_loop min_ts ts next_pre_ts (S i) n w
      | None => None
      end
  end.

Definition update_buffer (min_ts : Z) (txn : nat) (w : world) : option world :=
  let r := _requests (w_mvcc w) in
  serve_loop min_ts (get_ts txn) (next_prewrite (get_ts txn) UINT64_MAX r) 0
    (length r) w.

(** *** access *)

(** The [DEBUG_CC] checks at the start of [access]. *)
Definition debug_requests (m : Row_mvcc) : bool :=
  forallb (fun q => negb (rq_valid q) ||
             ((_latest_wts m <? rq_ts q) &&
              (negb (_exists_prewrite m) || (_prewrite_ts m <? rq_ts q))))
    (_requests m).

Definition access_read (txn : nat) (w : world) : option (RC * world) :=
  let ts := get_ts txn in
  let m := w_mvcc w in
  if ts <? _oldest_wts m then Some (Abort, w)
  else if _latest_wts m <? ts then
    if _exists_prewrite m && (_prewrite_ts m <? ts) then
      match buffer_req R_REQ txn m with
      | Some m => Some (WAIT, set_ready txn false (set_mvcc m w))
      | None => None
      end
    else
      let w := set_cur txn (_latest_row m) w in
      Some (RCOK, if _max_served_rts m <? ts
                  then set_mvcc (set_max_served ts m) w else w)
  else
    let the_i := find_version ts 0 (_his_len m) 0 (_write_history m) in
    if (the_i =? _his_len m)%nat then Some (RCOK, set_cur txn (_row m) w)
    else match _write_history m !! the_i with
         | Some (mkWriteHisEntry _ _ _ (Some r)) => Some (RCOK, set_cur txn r w)
         | _ => None
         end.

Definition access_prewrite (min_ts : Z) (txn : nat) (w : world)
    : option (RC * world) :=
  let ts := get_ts txn in
  let m := w_mvcc w in
  if (ts <? _latest_wts m) || (ts <? _max_served_rts m)
     || (_exists_prewrite m && (ts <? _prewrite_ts m)) then Some (Abort, w)
  else if _exists_prewrite m then
    match buffer_req P_REQ txn m with
    | Some m => Some (WAIT, set_ready txn false (set_mvcc m w))
    | None => None
    end
  else
    match reserveRow min_ts ts w with
    | None => None
    | Some (res_row, w) =>
        match copy res_row (_latest_row (w_mvcc w)) w with
        | Some w => Some (RCOK, set_cur txn res_row w)
        | None => None
        end
    end.

Definition access_write (min_ts : Z) (txn row : nat) (w : world)
    : option (RC * world) :=
  let ts := get_ts txn in
  let m := w_mvcc w in
  let id := _prewrite_his_id m in
  assert! _latest_wts m <? ts;;
  match _write_history m !! id with
  | None => None
  | Some e =>
      assert! bool_decide (wh_row e = Some row);;
      let h := <[id := mkWriteHisEntry true (wh_reserved e) ts (wh_row e)]>
                 (_write_history m) in
      match update_buffer min_ts txn
              (set_mvcc (set_latest row ts h (u32 (_num_versions m + 1)) m) w) with
      | Some w => Some (RCOK, w)
      | None => None
      end
  end.

Definition access_abort (min_ts : Z) (txn row : nat) (w : world)
    : option (RC * world) :=
  let m := w_mvcc w in
  let id := _prewrite_his_id m in
  match _write_history m !! id with
  | None => None
  | Some e =>
      assert! bool_decide (wh_row e = Some row);;
      let h := <[id := mkWriteHisEntry false false (wh_ts e) (wh_row e)]>
                 (_write_history m) in
      let m := set_prewrite false (_prewrite_ts m) id (set_history h m) in
      match update_buffer min_ts txn (set_mvcc m w) with
      | Some w => Some (RCOK, w)
      | None => None
      end
  end.

(** [access(txn, type, row, tuple_size)]; the latch makes it atomic. *)
Definition access (min_ts : Z) (txn : nat) (type : TsType) (row : nat)
    (w : world) : option (RC * world) :=
  assert! debug_requests (w_mvcc w);;
  match type with
  | R_REQ => access_read txn w
  | P_REQ => access_prewrite min_ts txn w
  | W_REQ => access_write min_ts txn row w
  | XP_REQ => access_abort min_ts txn row w
  end.

End row_mvcc.

(** ** The loops *)

Fixpoint n_valid (h : list WriteHisEntry) : nat :=
  match h with
  | [] => 0
  | e :: h' => (if wh_valid e then 1 else 0) + n_valid h'
  end.

Lemma n_valid_app h1 h2 : n_valid (h1 ++ h2) = (n_valid h1 + n_valid h2)%nat.
Proof. induction h1; simpl; lia. Qed.

Lemma n_valid_le h : (n_valid h <= length h)%nat.
Proof. induction h as [|e h IH]; simpl; [done|]. destruct (wh_valid e); lia. Qed.

Lemma n_valid_insert h i e e' :
  h !! i = Some e ->
  (n_valid (<[i := e']> h) + (if wh_valid e then 1 else 0) =
   n_valid h + (if wh_valid e' then 1 else 0))%nat.
Proof.
  revert i. induction h as [|a h IH]; intros [|i]; simpl; [done..| |].
  - intros [= ->]. lia.
  - intros Hi. specialize (IH i Hi). lia.
Qed.

Lemma n_valid_lt h :
  (n_valid h < length h)%nat -> exists i e, h !! i = Some e /\ wh_valid e = false.
Proof.
  induction h as [|e h IH]; simpl; [lia|]. destruct (wh_valid e) eqn:He; intros Hlt.
  - destruct IH as (i & e' & ? & ?); [lia|]. by exists (S i), e'.
  - by exists 0%nat, e.
Qed.

Lemma n_valid_all h i e :
  n_valid h = length h -> h !! i = Some e -> wh_valid e = true.
Proof.
  intros Hn Hi. destruct (wh_valid e) eqn:He; [done|].
  pose proof (n_valid_insert h i e (mkWriteHisEntry true false 0 None) Hi) as Hc.
  rewrite He in Hc. simpl in Hc.
  pose proof (n_valid_le (<[i:=mkWriteHisEntry true false 0 None]> h)) as Hle.
  rewrite length_insert in Hle. lia.
Qed.

Lemma n_valid_replicate n : n_valid (replicate n new_slot) = 0%nat.
Proof. by induction n. Qed.

Lemma find_recycle_spec min_ts m0 idx i h m r :
  find_recycle min_ts m0 idx i h = (m, r) ->
  (r = idx /\ m = m0 /\
   (forall k e, h !! k = Some e -> wh_valid e = true -> wh_ts e < min_ts ->
      wh_ts e <= m0)) \/
  (exists k e, r = (i + k)%nat /\ h !! k = Some e /\ wh_valid e = true /\
     wh_ts e = m /\ m0 < m < min_ts /\
     forall k' e', h !! k' = Some e' -> wh_valid e' = true ->
       wh_ts e' < min_ts -> wh_ts e' <= m).
Proof.
  revert m0 idx i. induction h as [|a h IH]; intros m0 idx i; simpl.
  { intros [= <- <-]. left. done. }
  destruct (wh_valid a && (wh_ts a <? min_ts) && (m0 <? wh_ts a)) eqn:C;
    intros Hf; apply IH in Hf; clear IH.
  - b2p. right. destruct Hf as [(-> & -> & Hall)|(k & e & -> & Hk & Hv & Hm & Hlt & Hall)].
    + exists 0%nat, a. repeat split; [lia|done..|lia|lia|].
      intros [|k'] e'; simpl; [intros [= ->]; lia|eauto].
    + exists (S k), e. repeat split; [lia|done..|lia|lia|].
      intros [|k'] e'; simpl; [intros [= ->]; lia|eauto].
  - destruct Hf as [(-> & -> & Hall)|(k & e & -> & Hk & Hv & Hm & Hlt & Hall)].
    + left. repeat split. intros [|k'] e'; simpl; [|eauto].
      intros [= ->] Hv Hlt. rewrite Hv in C. lia.
    + right. exists (S k), e. repeat split; [lia|done..|lia|lia|].
      intros [|k'] e'; simpl; [|eauto]. intros [= ->] Hv' Hlt'.
      rewrite Hv' in C. lia.
Qed.

(** With timestamps below 2^32 the search of a read is the search of the
    newest version before [ts]. *)
Lemma find_version_recycle ts m0 idx i h :
  (forall k e, h !! k = Some e -> wh_valid e = true -> is_u32 (wh_ts e)) ->
  find_version ts m0 idx i h = (find_recycle ts m0 idx i h).2.
Proof.
  revert m0 idx i. induction h as [|a h IH]; intros m0 idx i Hb; simpl; [done|].
  assert (forall k e, h !! k = Some e -> wh_valid e = true -> is_u32 (wh_ts e)) as Hb'
    by (intros k e; apply (Hb (S k))).
  destruct (wh_valid a && (wh_ts a <? ts) && (m0 <? wh_ts a)) eqn:C; [|by apply IH].
  b2p. rewrite u32_small by (by apply (Hb 0%nat)). by apply IH.
Qed.

Lemma find_free_spec idx i h :
  (find_free idx i h = idx /\
   forall k e, h !! k = Some e -> wh_valid e = false -> wh_reserved e = true) \/
  (exists k e, find_free idx i h = (i + k)%nat /\ h !! k = Some e /\
     wh_valid e = false /\ wh_reserved e = false).
Proof.
  revert idx i. induction h as [|a h IH]; intros idx i; simpl; [by left|].
  destruct (negb (wh_valid a) && negb (wh_reserved a)) eqn:C; simpl.
  - b2p. right. destruct (negb (bool_decide (wh_row a = None))).
    { exists 0%nat, a. split; [lia|done]. }
    destruct (IH i (S i)) as [[-> _]|(k & e & -> & ? & ?)].
    + exists 0%nat, a. split; [lia|done].
    + exists (S k), e. split; [lia|done].
  - destruct (IH idx (S i)) as [[-> Hall]|(k & e & -> & ? & ?)].
    + left. split; [done|]. intros [|k] e; simpl; [|eauto].
      intros [= ->] Hv. rewrite Hv in C. by destruct (wh_reserved e).
    + right. exists (S k), e. split; [lia|done].
Qed.

Lemma find_min_spec m0 idx i h m r :
  find_min m0 idx i h = (m, r) ->
  (r = idx /\ m = m0 /\
   (forall k e, h !! k = Some e -> wh_valid e = true -> m0 <= wh_ts e)) \/
  (exists k e, r = (i + k)%nat /\ h !! k = Some e /\ wh_valid e = true /\
     wh_ts e = m /\ m < m0 /\
     forall k' e', h !! k' = Some e' -> wh_valid e' = true -> m <= wh_ts e').
Proof.
  revert m0 idx i. induction h as [|a h IH]; intros m0 idx i; simpl.
  { intros [= <- <-]. left. done. }
  destruct (wh_valid a && (wh_ts a <? m0)) eqn:C;
    intros Hf; apply IH in Hf; clear IH.
  - b2p. right. destruct Hf as [(-> & -> & Hall)|(k & e & -> & Hk & Hv & Hm & Hlt & Hall)].
    + exists 0%nat, a. repeat split; [lia|done..|].
      intros [|k'] e'; simpl; [intros [= ->]; lia|eauto].
    + exists (S k), e. repeat split; [lia|done..|lia|].
      intros [|k'] e'; simpl; [intros [= ->]; lia|eauto].
  - destruct Hf as [(-> & -> & Hall)|(k & e & -> & Hk & Hv & Hm & Hlt & Hall)].
    + left. repeat split. intros [|k'] e'; simpl; [|eauto].
      intros [= ->] Hv. rewrite Hv in C. lia.
    + right. exists (S k), e. repeat split; [lia|done..|].
      intros [|k'] e'; simpl; [|eauto]. intros [= ->] Hv'. rewrite Hv' in C. lia.
Qed.

Lemma his_stats_spec n mx h s m :
  his_stats n mx h = (s, m) ->
  s = n + Z.of_nat (n_valid h) /\ mx <= m /\
  (m = mx \/ exists k e, h !! k = Some e /\ wh_valid e = true /\ wh_ts e = m) /\
  (forall k e, h !! k = Some e -> wh_valid e = true -> wh_ts e <= m).
Proof.
  revert n mx. induction h as [|a h IH]; intros n mx; simpl.
  { intros [= <- <-]. repeat split; [lia|lia|auto|done]. }
  destruct (wh_valid a) eqn:Ha; intros Hf; apply IH in Hf as (-> & Hle & Hm & Hall).
  - split_and!; [lia|destruct (mx <? wh_ts a) eqn:?; lia| |].
    + destruct Hm as [->|(k & e & ? & ?)]; [|right; by exists (S k), e].
      destruct (mx <? wh_ts a); [right; by exists 0%nat, a|by left].
    + intros [|k] e; simpl; [|eauto]. intros [= ->] _.
      destruct (mx <? wh_ts e) eqn:?; lia.
  - split_and!; [lia|lia| |].
    + destruct Hm as [->|(k & e & ? & ?)]; [by left|right; by exists (S k), e].
    + intros [|k] e; simpl; [|eauto]. intros [= ->]. congruence.
Qed.

Definition recycle1 (max_recycle_ts : Z) (e : WriteHisEntry) : WriteHisEntry :=
  if wh_valid e && (wh_ts e <=? max_recycle_ts)
  then mkWriteHisEntry false false (wh_ts e) (wh_row e) else e.

Lemma recycle_loop_spec mx n h :
  (forall k e, h !! k = Some e -> wh_valid e = true -> wh_row e <> None) ->
  0 <= n -> n + Z.of_nat (n_valid h) < 2 ^ 32 ->
  recycle_loop mx (n + Z.of_nat (n_valid h)) h =
    Some (map (recycle1 mx) h, n + Z.of_nat (n_valid (map (recycle1 mx) h))).
Proof.
  revert n. induction h as [|a h IH]; intros n Hrow Hn Hb; simpl; [done|].
  assert (forall k e, h !! k = Some e -> wh_valid e = true -> wh_row e <> None) as Hrow'
    by (intros k e; apply (Hrow (S k))).
  unfold recycle1 at 1 3. simpl in Hb. destruct (wh_valid a) eqn:Ha; simpl.
  - destruct (wh_ts a <=? mx); simpl.
    + rewrite c_assert_true
        by (apply negb_true_iff, bool_decide_eq_false, (Hrow 0%nat); done).
      replace (n + Z.of_nat (S (n_valid h)) - 1) with (n + Z.of_nat (n_valid h)) by lia.
      rewrite u32_small by (unfold is_u32; lia). rewrite IH by (done || lia). done.
    + replace (n + Z.of_nat (S (n_valid h))) with ((n + 1) + Z.of_nat (n_valid h)) by lia.
      rewrite IH by (done || lia). rewrite Ha. do 2 f_equal. lia.
  - rewrite IH by (done || lia). rewrite Ha. done.
Qed.

Lemma next_prewrite_spec ts m0 r :
  let n := next_prewrite ts m0 r in
  n <= m0 /\
  (forall i q, r !! i = Some q -> rq_valid q = true -> rq_type q = P_REQ ->
     ts < rq_ts q -> n <= rq_ts q) /\
  (n = m0 \/ exists i q, r !! i = Some q /\ rq_valid q = true /\
     rq_type q = P_REQ /\ ts < rq_ts q /\ rq_ts q = n).
Proof.
  revert m0. induction r as [|a r IH]; intros m0; simpl; [cbv zeta; split_and!; [lia|done|by left]|].
  destruct (rq_valid a && bool_decide (rq_type a = P_REQ) && (ts <? rq_ts a)
            && (rq_ts a <? m0)) eqn:C; b2p.
  - destruct (IH (rq_ts a)) as (Hn1 & Hn2 & Hn3). cbv zeta. split_and!; [lia| |].
    + intros [|i] q; simpl; [intros [= ->]; lia|eauto].
    + right. destruct Hn3 as [->|(i & q & ? & ?)]; [by exists 0%nat, a|by exists (S i), q].
  - destruct (IH m0) as (Hn1 & Hn2 & Hn3). cbv zeta. split_and!; [lia| |].
    + intros [|i] q; simpl; [|eauto]. intros [= ->] Hv Hp Hlt.
      rewrite Hv, bool_decide_eq_true_2 in C by done. lia.
    + destruct Hn3 as [->|(i & q & ? & ?)]; [by left|right; by exists (S i), q].
Qed.

(** ** The invariant of the version array

    [H] is the history of the committed versions, timestamp and contents, in
    commit order; it starts with the initial row at timestamp 0. *)

Section invariant.
Context {V : Type}.
Implicit Types (H : list (Z * V)) (heap : gmap nat V) (m : Row_mvcc).

(** The contents a read at [ts] has to return: the last version before it. *)
Fixpoint read_from (acc : option V) H (ts : Z) : option V :=
  match H with
  | [] => acc
  | (w, v) :: H' => read_from (if w <? ts then Some v else acc) H' ts
  end.
Definition read_value H (ts : Z) : option V := read_from None H ts.

Definition slot m (i : nat) (e : WriteHisEntry) : Prop :=
  _write_history m !! i = Some e.
Definition version m (i : nat) (ts : Z) (p : nat) : Prop :=
  exists rs, slot m i (mkWriteHisEntry true rs ts (Some p)).

Record his_ok H m heap : Prop := mkHisOk {
  ho_len : (4 <= _his_len m)%nat;
  ho_num : _num_versions m = Z.of_nat (n_valid (_write_history m));
  ho_small : Z.of_nat (_his_len m) < 2 ^ 32;
  ho_rows : forall i j e e' p, slot m i e -> slot m j e' ->
    wh_row e = Some p -> wh_row e' = Some p -> i = j;
  ho_row : forall i e, slot m i e -> wh_row e <> Some (_row m);
  ho_live : forall i e p, slot m i e -> wh_row e = Some p -> is_Some (heap !! p);
  ho_oldest : exists v, heap !! _row m = Some v /\ (_oldest_wts m, v) ∈ H;
  ho_valid : forall i e, slot m i e -> wh_valid e = true ->
    exists p v, wh_row e = Some p /\ heap !! p = Some v /\ (wh_ts e, v) ∈ H /\
      _oldest_wts m < wh_ts e <= _latest_wts m;
  ho_inj : forall i j e e', slot m i e -> slot m j e' -> wh_valid e = true ->
    wh_valid e' = true -> wh_ts e = wh_ts e' -> i = j;
  ho_complete : forall w v, (w, v) ∈ H -> _oldest_wts m < w ->
    exists i e, slot m i e /\ wh_valid e = true /\ wh_ts e = w;
  ho_latest : (_latest_wts m = _oldest_wts m /\ _latest_row m = _row m) \/
    exists i, version m i (_latest_wts m) (_latest_row m);
  ho_sorted : StronglySorted Z.lt H.*1;
  ho_range : Forall (fun w => 0 <= w <= _latest_wts m) H.*1;
  ho_bound : _latest_wts m < 2 ^ 32 }.

(** No slot is reserved, one excepted. *)
Definition free_but m (k : nat) : Prop :=
  forall i e, slot m i e -> i <> k -> wh_valid e = false -> wh_reserved e = false.
Definition all_free m : Prop :=
  forall i e, slot m i e -> wh_valid e = false -> wh_reserved e = false.

(** What recycling leaves alone. *)
Definition same_head m m' : Prop :=
  _latest_row m' = _latest_row m /\ _latest_wts m' = _latest_wts m /\
  _exists_prewrite m' = _exists_prewrite m /\
  _max_served_rts m' = _max_served_rts m /\ _requests m' = _requests m.

Lemma same_head_refl m : same_head m m.
Proof. done. Qed.

Lemma sorted_inj H w v v' :
  StronglySorted Z.lt H.*1 -> (w, v) ∈ H -> (w, v') ∈ H -> v = v'.
Proof.
  induction H as [|[a b] H IH]; intros HS; [by intros ?%not_elem_of_nil|].
  apply StronglySorted_inv in HS as [HS HF]. rewrite Forall_forall in HF.
  rewrite !elem_of_cons.
  assert (forall u, (a, u) ∈ H -> False) as Hno.
  { intros u Hu%(list_elem_of_fmap_2 fst). simpl in Hu. specialize (HF a Hu). simpl in HF. lia. }
  intros [[= -> ->]|Hin] [[= ->]|Hin']; auto; subst; by destruct (Hno _ Hin) || by destruct (Hno _ Hin').
Qed.

Lemma read_from_app acc H1 H2 ts :
  read_from acc (H1 ++ H2) ts = read_from (read_from acc H1 ts) H2 ts.
Proof. revert acc. induction H1 as [|[??] H1 IH]; intros acc; simpl; auto. Qed.

(** A committed version at or after the reader does not change what it reads. *)
Lemma read_value_later H w v ts :
  ts <= w -> read_value (H ++ [(w, v)]) ts = read_value H ts.
Proof.
  intros Hle. unfold read_value. rewrite read_from_app. simpl.
  by replace (w <? ts) with false by lia.
Qed.

Lemma read_from_old acc H ts :
  (forall w v, (w, v) ∈ H -> ts <= w) -> read_from acc H ts = acc.
Proof.
  revert acc. induction H as [|[w v] H IH]; intros acc Hall; simpl; [done|].
  assert (ts <= w) by (apply (Hall w v); left).
  replace (w <? ts) with false by lia.
  apply IH. intros w' v' Hin. apply (Hall w' v'). by right.
Qed.

Lemma read_value_intro H w v ts :
  StronglySorted Z.lt H.*1 -> (w, v) ∈ H -> w < ts ->
  (forall w' v', (w', v') ∈ H -> w' < ts -> w' <= w) ->
  read_value H ts = Some v.
Proof.
  intros HS Hin Hlt Hmax. apply list_elem_of_split in Hin as (H1 & H2 & ->).
  unfold read_value. rewrite read_from_app. simpl.
  replace (w <? ts) with true by lia. apply read_from_old.
  intros w' v' Hin. destruct (Z.le_gt_cases ts w') as [|Hw']; [done|].
  exfalso. assert (w' <= w) by (apply (Hmax w' v'); [set_solver|lia]).
  rewrite fmap_app in HS. apply StronglySorted_app in HS as (_ & _ & HS).
  apply StronglySorted_inv in HS as [_ HF]. rewrite Forall_forall in HF.
  assert (w < w'); [|lia]. apply HF.
  by apply (list_elem_of_fmap_2 fst) in Hin.
Qed.

Section facts.
Context {H m heap} (Hok : his_ok H m heap).

Lemma version_ts i e : slot m i e -> wh_valid e = true -> is_u32 (wh_ts e).
Proof.
  intros Hs Hv. destruct (ho_valid _ _ _ Hok i e Hs Hv) as (p & v & _ & _ & Hin & Hlt).
  pose proof (ho_bound _ _ _ Hok). pose proof (ho_range _ _ _ Hok) as Hr.
  rewrite Forall_forall in Hr. apply (list_elem_of_fmap_2 fst), Hr in Hin.
  simpl in Hin. unfold is_u32. lia.
Qed.

Lemma oldest_le : 0 <= _oldest_wts m <= _latest_wts m.
Proof.
  destruct (ho_oldest _ _ _ Hok) as (v & _ & Hin).
  pose proof (ho_range _ _ _ Hok) as Hr. rewrite Forall_forall in Hr.
  by apply (list_elem_of_fmap_2 fst), Hr in Hin.
Qed.

Lemma latest_value :
  exists v, heap !! _latest_row m = Some v /\ (_latest_wts m, v) ∈ H.
Proof.
  destruct (ho_latest _ _ _ Hok) as [[-> ->]|(i & rs & Hs)].
  - apply (ho_oldest _ _ _ Hok).
  - destruct (ho_valid _ _ _ Hok _ _ Hs eq_refl) as (p & v & Hp & Hv & Hin & _).
    simpl in *. simplify_eq. eauto.
Qed.

Lemma hist_le w v : (w, v) ∈ H -> 0 <= w <= _latest_wts m.
Proof.
  intros Hin. pose proof (ho_range _ _ _ Hok) as Hr. rewrite Forall_forall in Hr.
  by apply (list_elem_of_fmap_2 fst), Hr in Hin.
Qed.

(** The row of an unused slot is no version's row. *)
Lemma unused_row i e p : slot m i e -> wh_valid e = false -> wh_row e = Some p ->
  p <> _row m /\ p <> _latest_row m /\
  (forall j e', slot m j e' -> wh_valid e' = true -> wh_row e' <> Some p).
Proof.
  intros Hs Hv Hp.
  assert (forall j e', slot m j e' -> wh_valid e' = true -> wh_row e' <> Some p) as Hne.
  { intros j e' Hj Hv' Hp'. assert (i = j) as -> by eauto using ho_rows.
    unfold slot in *. simplify_eq. congruence. }
  assert (p <> _row m) as Hr.
  { intros ->. by apply (ho_row _ _ _ Hok i e Hs). }
  split_and!; [done| |done]. intros ->.
  destruct (ho_latest _ _ _ Hok) as [[? ?]|(j & rs & Hj)]; [congruence|].
  by apply (Hne _ _ Hj).
Qed.

(** So it may be overwritten. *)
Lemma his_ok_write i e p v : slot m i e -> wh_valid e = false -> wh_row e = Some p ->
  his_ok H m (<[p := v]> heap).
Proof.
  intros Hs Hv Hp. destruct (unused_row i e p Hs Hv Hp) as (Hr & _ & Hne).
  destruct Hok as [Hlen Hnum Hsm Hrows Hrow Hlive (v0 & Hv0 & Hin) Hval Hinj Hcompl Hlat
    Hsort Hrange Hbd].
  constructor; try done.
  - intros j e' q Hj Hq. destruct (decide (p = q)) as [->|?].
    + rewrite lookup_insert_eq. eauto.
    + rewrite lookup_insert_ne by done. eauto.
  - exists v0. by rewrite lookup_insert_ne.
  - intros j e' Hj Hv'. destruct (Hval j e' Hj Hv') as (q & u & Hq & Hu & ?).
    exists q, u. split; [done|]. rewrite lookup_insert_ne; [done|].
    intros ->. by apply (Hne _ _ Hj Hv').
Qed.

(** Changing an unused slot, its row kept. *)
Lemma his_ok_slot i e e' : slot m i e -> wh_valid e = false ->
  wh_valid e' = false -> wh_row e' = wh_row e ->
  his_ok H (set_history (<[i := e']> (_write_history m)) m) heap.
Proof.
  intros Hs Hv Hv' Hr.
  destruct Hok as [Hlen Hnum Hsm Hrows Hrow Hlive Hold Hval Hinj Hcompl Hlat
    Hsort Hrange Hbd].
  assert (forall j x, slot (set_history (<[i := e']> (_write_history m)) m) j x ->
    exists y, slot m j y /\ wh_row x = wh_row y /\ wh_valid x = wh_valid y /\
      (wh_valid x = true -> x = y)) as Hsl.
  { intros j x Hj. unfold slot in Hj. simpl in Hj.
    apply list_lookup_insert_Some in Hj as [(<- & <- & _)|[? ?]].
    - exists e. split_and!; [done|done|congruence|congruence].
    - exists x. done. }
  assert (forall j y, slot m j y -> wh_valid y = true ->
    slot (set_history (<[i := e']> (_write_history m)) m) j y) as Hsl'.
  { intros j y Hj Hy. unfold slot. simpl. rewrite list_lookup_insert_ne; [done|].
    intros ->. unfold slot in *. congruence. }
  constructor; try done.
  - unfold _his_len. simpl. by rewrite length_insert.
  - simpl. pose proof (n_valid_insert _ _ _ e' Hs) as Hn. rewrite Hv, Hv' in Hn.
    rewrite Hnum. f_equal. lia.
  - unfold _his_len. simpl. by rewrite length_insert.
  - intros j k x x' p (y & Hy & -> & _)%Hsl (y' & Hy' & -> & _)%Hsl. eauto.
  - intros j x (y & Hy & -> & _)%Hsl. eauto.
  - intros j x p (y & Hy & -> & _)%Hsl. eauto.
  - intros j x (y & Hy & _ & Hv1 & He)%Hsl Hx. assert (x = y) as -> by (apply He; congruence). eauto.
  - intros j k x x' (y & Hy & _ & _ & He)%Hsl (y' & Hy' & _ & _ & He')%Hsl Hx Hx'.
    rewrite (He Hx), (He' Hx'). rewrite (He Hx) in Hx. rewrite (He' Hx') in Hx'. eauto.
  - intros w v Hin Hlt. destruct (Hcompl w v Hin Hlt) as (j & y & ? & ? & ?). eauto 10.
  - destruct Hlat as [?|(j & rs & Hj)]; [by left|right]. exists j, rs. auto.
Qed.

(** Giving a row to a slot without one. *)
Lemma his_ok_new_row i e p v rs ts : slot m i e -> wh_valid e = false ->
  heap !! p = None ->
  his_ok H (set_history (<[i := mkWriteHisEntry false rs ts (Some p)]>
              (_write_history m)) m) (<[p := v]> heap).
Proof.
  intros Hs Hv Hp.
  destruct Hok as [Hlen Hnum Hsm Hrows Hrow Hlive (v0 & Hv0 & Hin0) Hval Hinj Hcompl Hlat
    Hsort Hrange Hbd].
  set (e' := mkWriteHisEntry false rs ts (Some p)).
  set (m' := set_history _ m).
  assert (forall j y, slot m j y -> wh_row y <> Some p) as Hnp.
  { intros j y Hy Hyp. destruct (Hlive j y p Hy Hyp). congruence. }
  assert (forall j x, slot m' j x -> (j = i /\ x = e') \/ (j <> i /\ slot m j x)) as Hsl.
  { intros j x Hj. unfold slot in Hj. simpl in Hj.
    apply list_lookup_insert_Some in Hj as [(<- & <- & _)|[? ?]]; auto. }
  assert (forall j y, slot m j y -> wh_valid y = true -> slot m' j y) as Hsl'.
  { intros j y Hj Hy. unfold slot. simpl. rewrite list_lookup_insert_ne; [done|].
    intros ->. unfold slot in *. congruence. }
  constructor; try done.
  - unfold _his_len. simpl. by rewrite length_insert.
  - simpl. pose proof (n_valid_insert _ _ _ e' Hs) as Hn. rewrite Hv in Hn. simpl in Hn.
    rewrite Hnum. f_equal. lia.
  - unfold _his_len. simpl. by rewrite length_insert.
  - intros j k x x' q [[-> ->]|[? Hx]]%Hsl [[-> ->]|[? Hx']]%Hsl; simpl; try done.
    + intros [= <-] Hq. by destruct (Hnp _ _ Hx' Hq).
    + intros Hq [= <-]. by destruct (Hnp _ _ Hx Hq).
    + eauto.
  - intros j x [[-> ->]|[? Hx]]%Hsl; simpl; [congruence|eauto].
  - intros j x q [[-> ->]|[? Hx]]%Hsl; simpl.
    + intros [= <-]. rewrite lookup_insert_eq. eauto.
    + intros Hq. rewrite lookup_insert_ne; [eauto|]. intros ->. by destruct (Hnp _ _ Hx Hq).
  - exists v0. change (_row m') with (_row m).
    rewrite lookup_insert_ne by congruence. done.
  - intros j x [[-> ->]|[? Hx]]%Hsl Hxv; simpl in *; [done|].
    destruct (Hval j x Hx Hxv) as (q & u & Hq & Hu & ?). exists q, u.
    rewrite lookup_insert_ne; [done|]. congruence.
  - intros j k x x' [[-> ->]|[? Hx]]%Hsl [[-> ->]|[? Hx']]%Hsl; simpl; try done. eauto.
  - intros w u Hin Hlt. destruct (Hcompl w u Hin Hlt) as (j & y & ? & ? & ?). eauto 10.
  - destruct Hlat as [?|(j & rs' & Hj)]; [by left|right]. exists j, rs'. auto.
Qed.
End facts.

(** The fields the invariant reads. *)
Lemma his_ok_ext H m m' heap : his_ok H m heap ->
  _row m' = _row m -> _latest_row m' = _latest_row m ->
  _latest_wts m' = _latest_wts m -> _oldest_wts m' = _oldest_wts m ->
  _write_history m' = _write_history m -> _num_versions m' = _num_versions m ->
  his_ok H m' heap.
Proof.
  destruct m, m'. simpl. intros [] -> -> -> -> -> ->. by constructor.
Qed.

(** *** Recycling

    Version [k] becomes the oldest version [_row], its slot gets the old [_row],
    and the slots of the versions up to it become unused. *)
Definition recycled m (k : nat) (mx : Z) (h2 : list WriteHisEntry) : Prop :=
  length h2 = _his_len m /\
  forall j y, slot m j y -> exists x, h2 !! j = Some x /\ wh_ts x = wh_ts y /\
    wh_row x = (if decide (j = k) then Some (_row m) else wh_row y) /\
    wh_valid x = wh_valid y && (mx <? wh_ts y).

Lemma recycle_ok H m heap k e r h2 n :
  his_ok H m heap -> slot m k e -> wh_valid e = true -> wh_row e = Some r ->
  recycled m k (wh_ts e) h2 -> n = Z.of_nat (n_valid h2) ->
  his_ok H (set_oldest r (wh_ts e) h2 n m) heap.
Proof.
  intros Hok Hk Hv Hr [Hl2 Hrec] ->.
  destruct (ho_valid _ _ _ Hok k e Hk Hv) as (r' & v & Hr' & Hrv & HrH & Hets).
  simplify_eq.
  destruct Hok as [Hlen Hnum Hsm Hrows Hrow Hlive (v0 & Hv0 & Hin0) Hval Hinj Hcompl Hlat
    Hsort Hrange Hbd].
  set (m' := set_oldest _ _ _ _ m).
  assert (forall j x, slot m' j x -> exists y, slot m j y /\ wh_ts x = wh_ts y /\
    wh_row x = (if decide (j = k) then Some (_row m) else wh_row y) /\
    wh_valid x = wh_valid y && (wh_ts e <? wh_ts y)) as Hsl.
  { intros j x Hj. unfold slot in Hj. simpl in Hj.
    assert (j < _his_len m)%nat as Hjl by (rewrite <- Hl2; by eapply lookup_lt_Some).
    destruct (lookup_lt_is_Some_2 _ _ Hjl) as [y Hy].
    destruct (Hrec j y Hy) as (x' & Hx' & ?). simplify_eq. eauto. }
  assert (forall j x, slot m' j x -> wh_valid x = true -> exists y, slot m j y /\
    wh_valid y = true /\ wh_ts x = wh_ts y /\ wh_row x = wh_row y /\
    wh_ts e < wh_ts y) as Hslv.
  { intros j x (y & Hy & Hts & Hrow' & Hvx)%Hsl Hx. rewrite Hx in Hvx.
    symmetry in Hvx. b2p. exists y. split_and!; [done..| |done].
    rewrite Hrow'. destruct (decide (j = k)) as [->|]; [|done].
    unfold slot in *. simplify_eq. lia. }
  assert (forall j y, slot m j y -> wh_valid y = true -> wh_ts e < wh_ts y ->
    exists x, slot m' j x /\ wh_valid x = true /\ wh_ts x = wh_ts y /\
      wh_row x = wh_row y) as Hslv'.
  { intros j y Hy Hyv Hlt. destruct (Hrec j y Hy) as (x & Hx & Hts & Hrx & Hvx).
    exists x. split_and!; [done| |done|].
    - rewrite Hvx, Hyv. simpl. lia.
    - rewrite Hrx. destruct (decide (j = k)) as [->|]; [|done].
      unfold slot in *. simplify_eq. lia. }
  constructor; try done.
  - unfold _his_len. simpl. by rewrite Hl2.
  - unfold _his_len. simpl. by rewrite Hl2.
  - intros i j x x' p (y & Hy & _ & -> & _)%Hsl (y' & Hy' & _ & -> & _)%Hsl.
    destruct (decide (i = k)) as [->|], (decide (j = k)) as [->|]; [done|..| eauto].
    + intros [= <-] Hp. by destruct (Hrow _ _ Hy').
    + intros Hp [= <-]. by destruct (Hrow _ _ Hy).
  - intros i x (y & Hy & _ & -> & _)%Hsl. simpl. destruct (decide (i = k)) as [->|Hne].
    + intros [= Hrr]. destruct (Hrow _ _ Hk). congruence.
    + intros Hp. apply Hne. eauto.
  - intros i x p (y & Hy & _ & -> & _)%Hsl. destruct (decide (i = k)) as [->|]; [|eauto].
    intros [= <-]. eauto.
  - exists v. done.
  - intros i x Hx Hxv. destruct (Hslv i x Hx Hxv) as (y & Hy & Hyv & -> & -> & Hlt).
    destruct (Hval i y Hy Hyv) as (p & u & ? & ? & ? & ?). exists p, u.
    split_and!; [done..|simpl; lia].
  - intros i j x x' Hx Hx' Hxv Hxv'.
    destruct (Hslv i x Hx Hxv) as (y & Hy & Hyv & -> & _ & _).
    destruct (Hslv j x' Hx' Hxv') as (y' & Hy' & Hyv' & -> & _ & _). eauto.
  - intros w u Hin Hlt. simpl in Hlt.
    destruct (Hcompl w u Hin) as (i & y & Hy & Hyv & <-); [lia|].
    destruct (Hslv' i y Hy Hyv Hlt) as (x & ? & ? & ? & _). eauto.
  - destruct Hlat as [[? _]|(i & rs & Hi)]; [lia|].
    destruct (Z.lt_ge_cases (wh_ts e) (_latest_wts m)) as [Hlt|Hge].
    + right. destruct (Hslv' i _ Hi eq_refl Hlt) as ([xv xr xt xp] & Hx & ? & ? & ?).
      simpl in *. simplify_eq. exists i, xr. done.
    + left. simpl. assert (wh_ts e = _latest_wts m) as Heq by lia. split; [done|].
      assert (k = i) as -> by (by apply (Hinj k i _ _ Hk Hi)).
      unfold slot in *. simplify_eq/=. done.
Qed.

Lemma recycled_insert m k e : slot m k e ->
  let h := <[k := mkWriteHisEntry (wh_valid e) (wh_reserved e) (wh_ts e)
                    (Some (_row m))]> (_write_history m) in
  n_valid h = n_valid (_write_history m) /\
  (forall i x, h !! i = Some x -> wh_valid x = true -> wh_row x <> None \/
     exists y, slot m i y /\ wh_valid y = true /\ wh_row y = wh_row x) /\
  recycled m k (wh_ts e) (map (recycle1 (wh_ts e)) h).
Proof.
  intros Hk h. split_and!.
  - pose proof (n_valid_insert _ _ _ (mkWriteHisEntry (wh_valid e) (wh_reserved e)
      (wh_ts e) (Some (_row m))) Hk) as Hn. simpl in Hn. unfold h. lia.
  - intros i x Hx Hv. unfold h in Hx.
    apply list_lookup_insert_Some in Hx as [(<- & <- & _)|[? Hx]]; [by left|right; eauto].
  - split.
    { rewrite length_map. unfold h. by rewrite length_insert. }
    intros j y Hj.
    assert (exists x0, h !! j = Some x0 /\ wh_ts x0 = wh_ts y /\
      wh_valid x0 = wh_valid y /\
      wh_row x0 = (if decide (j = k) then Some (_row m) else wh_row y))
      as (x0 & Hx0 & Hts & Hv & Hr).
    { unfold h. destruct (decide (j = k)) as [->|].
      - rewrite list_lookup_insert_eq by (by eapply lookup_lt_Some).
        unfold slot in *. simplify_eq. eauto.
      - rewrite list_lookup_insert_ne by done. eauto. }
    exists (recycle1 (wh_ts e) x0).
    split; [by rewrite lookup_map, Hx0|].
    unfold recycle1. destruct (wh_valid x0) eqn:Hv0; simpl.
    + destruct (wh_ts x0 <=? wh_ts e) eqn:Hle; simpl; split_and!; try done;
        rewrite <- Hv, <- Hts; [|rewrite Hv0]; simpl; lia.
    + split_and!; try done. by rewrite Hv0, <- Hv.
Qed.

Lemma collect_ok H m heap min_ts : his_ok H m heap -> all_free m ->
  exists m', collect min_ts m = Some m' /\ his_ok H m' heap /\ all_free m' /\
    same_head m m'.
Proof.
  intros Hok Hfree. unfold collect.
  destruct ((_oldest_wts m <? min_ts) && _); [|eauto using same_head_refl].
  destruct (find_recycle _ _ _ _ _) as [mx idx] eqn:Hf.
  apply find_recycle_spec in Hf as [(-> & -> & _)|(k & e & -> & Hk & Hv & <- & _ & _)].
  { unfold _his_len. rewrite lookup_ge_None_2 by done. eauto using same_head_refl. }
  simpl. rewrite Hk.
  destruct (ho_valid _ _ _ Hok k e Hk Hv) as (r & v & Hr & _). rewrite Hr.
  destruct (recycled_insert m k e Hk) as (Hn & Hrows & Hrec).
  pose proof (recycle_loop_spec (wh_ts e) 0
    (<[k := mkWriteHisEntry (wh_valid e) (wh_reserved e) (wh_ts e) (Some (_row m))]>
       (_write_history m))) as Hl.
  rewrite !Z.add_0_l, Hn, <- (ho_num _ _ _ Hok) in Hl. rewrite Hl; clear Hl; [| |done|].
  - eexists. split_and!; [done|by eapply recycle_ok| |done].
    intros j x Hj Hxv. unfold slot in Hj. simpl in Hj.
    rewrite lookup_map in Hj. apply fmap_Some in Hj as (x0 & Hj & ->).
    unfold recycle1 in Hxv |- *. destruct (wh_valid x0) eqn:Hx0; simpl in *.
    + destruct (wh_ts x0 <=? wh_ts e); [done|congruence].
    + apply list_lookup_insert_Some in Hj as [(<- & <- & _)|[? Hj]]; [|by eapply Hfree].
      simpl in *. congruence.
  - intros i x Hx Hxv. destruct (Hrows i x Hx Hxv) as [|(y & Hy & Hyv & <-)]; [done|].
    by destruct (ho_valid _ _ _ Hok i y Hy Hyv) as (p & u & -> & _).
  - rewrite (ho_num _ _ _ Hok). pose proof (ho_small _ _ _ Hok).
    pose proof (n_valid_le (_write_history m)). unfold _his_len in *. lia.
Qed.

Lemma debug_versions_ok H m heap : his_ok H m heap -> debug_versions m = true.
Proof.
  intros Hok. unfold debug_versions. destruct (his_stats _ _ _) as [s mx] eqn:Hs.
  apply his_stats_spec in Hs as (-> & _ & Hmx & Hall).
  rewrite (ho_num _ _ _ Hok), Z.add_0_l, Z.eqb_refl. simpl.
  destruct (0 <? Z.of_nat (n_valid (_write_history m))) eqn:Hn; [|done].
  pose proof (oldest_le Hok) as Hold.
  assert (forall k e, _write_history m !! k = Some e -> wh_valid e = true ->
    0 < wh_ts e <= _latest_wts m) as Hrng.
  { intros k e Hk Hv. destruct (ho_valid _ _ _ Hok k e Hk Hv) as (? & ? & _ & _ & _ & ?). lia. }
  destruct (ho_latest _ _ _ Hok) as [[Hl _]|(i & rs & Hi)].
  - exfalso.
    assert (exists k e, _write_history m !! k = Some e /\ wh_valid e = true)
      as (k & e & Hk & Hv).
    { clear -Hn. induction (_write_history m) as [|a h IH]; simpl in *; [lia|].
      destruct (wh_valid a) eqn:Ha; [by exists 0%nat, a|].
      destruct IH as (k & e & ? & ?); [lia|]. by exists (S k), e. }
    destruct (ho_valid _ _ _ Hok k e Hk Hv) as (? & ? & _ & _ & _ & ?). lia.
  - specialize (Hall _ _ Hi eq_refl). specialize (Hrng _ _ Hi eq_refl) as Hr0. simpl in *.
    destruct Hmx as [->|(k & e & Hk & Hv & <-)]; [lia|]. specialize (Hrng _ _ Hk Hv). lia.
Qed.
End invariant.

(** *** The reservation of a slot *)

Section reserve.
#[local] Arguments Nat.div : simpl never.
Context {V : Type} (garbage : V) (g_thread_cnt : nat).
Context (Hthr : 2 * Z.of_nat g_thread_cnt < 2 ^ 32).
Implicit Types (H : list (Z * V)) (heap : gmap nat V) (m : Row_mvcc).

Lemma double_ok H m heap : his_ok H m heap -> (_his_len m < g_thread_cnt)%nat ->
  his_ok H (double_history m) heap.
Proof using Hthr.
  intros [Hlen Hnum Hsm Hrows Hrow Hlive Hold Hval Hinj Hcompl Hlat
    Hsort Hrange Hbd] Hlt.
  assert (forall i e, slot (double_history m) i e -> slot m i e \/ e = new_slot) as Hsl.
  { intros i e [Hi|[_ Hi]]%lookup_app_Some; [by left|right].
    by apply lookup_replicate in Hi as [-> _]. }
  assert (forall i e, slot m i e -> slot (double_history m) i e) as Hsl'.
  { intros i e Hi. unfold slot. simpl. by apply lookup_app_l_Some. }
  assert (_his_len (double_history m) = 2 * _his_len m)%nat as Hl2.
  { unfold _his_len. simpl. rewrite length_app, length_replicate.
    unfold _his_len. lia. }
  constructor; try done.
  - rewrite Hl2. lia.
  - simpl. rewrite n_valid_app, n_valid_replicate, Nat.add_0_r. done.
  - rewrite Hl2. lia.
  - intros i j e e' p [Hi| ->]%Hsl [Hj| ->]%Hsl ??; try done. eauto.
  - intros i e [Hi| ->]%Hsl; [eauto|done].
  - intros i e p [Hi| ->]%Hsl; [eauto|done].
  - intros i e [Hi| ->]%Hsl ?; [eauto|done].
  - intros i j e e' [Hi| ->]%Hsl [Hj| ->]%Hsl ???; try done. eauto.
  - intros w v Hin Hw. destruct (Hcompl w v Hin Hw) as (i & e & ? & ?). eauto.
  - destruct Hlat as [?|(i & rs & ?)]; [by left|right]. exists i, rs. auto.
Qed.

(** The slot [idx] is not a version's, once [e] is out of it. *)
Definition slot_taken H heap m (idx : nat) (e : WriteHisEntry) : Prop :=
  slot m idx e /\
  his_ok H (set_history (<[idx := mkWriteHisEntry false false (wh_ts e) (wh_row e)]>
              (_write_history m)) m) heap /\
  free_but m idx.

Lemma pick_slot_ok H m heap ts : his_ok H m heap -> all_free m ->
  exists idx m' e, pick_slot g_thread_cnt ts m = Some (idx, m') /\
    idx <> _his_len m' /\ slot_taken H heap m' idx e /\ same_head m m'.
Proof using Hthr.
  intros Hok Hfree. unfold pick_slot.
  pose proof (n_valid_le (_write_history m)) as Hle. fold (_his_len m) in Hle.
  rewrite (ho_num _ _ _ Hok).
  destruct (Z.of_nat (n_valid (_write_history m)) <? Z.of_nat (_his_len m)) eqn:Hn; simpl.
  - (* a free slot *)
    destruct (n_valid_lt (_write_history m)) as (i0 & e0 & Hi0 & Hv0).
    { fold (_his_len m). lia. }
    destruct (find_free_spec (_his_len m) 0 (_write_history m))
      as [[_ Hall]|(k & e & -> & Hk & Hv & Hres)].
    { specialize (Hall _ _ Hi0 Hv0). rewrite (Hfree _ _ Hi0 Hv0) in Hall. done. }
    simpl. assert (k < _his_len m)%nat as Hkl by (by eapply lookup_lt_Some).
    rewrite c_assert_true by (by apply Nat.ltb_lt).
    rewrite (proj2 (Nat.eqb_neq _ _)) by lia.
    exists k, m, e. split_and!; [done|lia|split_and!|apply same_head_refl]; [done| |].
    + by eapply his_ok_slot.
    + intros i x Hi _. exact (Hfree i x Hi).
  - rewrite Nat.eqb_refl. assert (n_valid (_write_history m) = _his_len m) as Hfull by lia.
    destruct (g_thread_cnt <=? _his_len m)%nat eqn:Hg.
    + (* the oldest version is recycled *)
      destruct (find_min _ _ _ _) as [mn k] eqn:Hf. pose proof (ho_len _ _ _ Hok) as Hlen.
      apply find_min_spec in Hf as [(-> & -> & Hall)|(k' & e & -> & Hk & Hv & <- & _ & Hall)].
      { exfalso. destruct (lookup_lt_is_Some_2 (_write_history m) 0) as [e He].
        { fold (_his_len m). lia. }
        pose proof (n_valid_all _ _ _ Hfull He) as Hv.
        specialize (Hall _ _ He Hv). pose proof (version_ts Hok _ _ He Hv) as Hts.
        unfold is_u32, UINT64_MAX in *. lia. }
      simpl. destruct (ho_valid _ _ _ Hok _ _ Hk Hv) as (r & v & Hr & _ & _ & Hts).
      rewrite c_assert_true by lia. rewrite Hk, Hr.
      destruct (recycled_insert m k' e Hk) as (_ & _ & Hrec).
      assert (k' < _his_len m)%nat as Hkl by (by eapply lookup_lt_Some).
      set (e1 := mkWriteHisEntry (wh_valid e) (wh_reserved e) (wh_ts e) (Some (_row m))).
      eexists k', _, e1. split; [done|]. split.
      { unfold _his_len. simpl. rewrite length_insert. fold (_his_len m). lia. }
      split; [|done]. split_and!.
      * unfold slot. simpl. by rewrite list_lookup_insert_eq.
      * set (e2 := mkWriteHisEntry false false (wh_ts e) (Some (_row m))).
        assert (recycled m k' (wh_ts e) (<[k' := e2]> (_write_history m))) as Hrec2.
        { split; [by rewrite length_insert|]. intros j y Hj.
          destruct (decide (j = k')) as [->|Hne].
          - rewrite list_lookup_insert_eq by done. unfold slot in *. simplify_eq.
            exists e2. split_and!; [done..|]. simpl. symmetry. apply andb_false_iff. lia.
          - rewrite list_lookup_insert_ne by done. exists y. split_and!; [done..|].
            pose proof (n_valid_all _ _ _ Hfull Hj) as Hyv. rewrite Hyv. simpl.
            specialize (Hall _ _ Hj Hyv).
            destruct (Z.eq_dec (wh_ts e) (wh_ts y)) as [Heq|]; [|lia].
            destruct Hne. by apply (ho_inj _ _ _ Hok j k' y e). }
        pose proof (recycle_ok H m heap k' e r _ _ Hok Hk Hv Hr Hrec2 eq_refl) as Hok2.
        eapply his_ok_ext; [exact Hok2|done..| |]; simpl.
        -- rewrite list_insert_insert_eq. done.
        -- pose proof (n_valid_insert _ _ _ e2 Hk) as Hc. rewrite Hv in Hc. simpl in Hc.
           pose proof (ho_small _ _ _ Hok).
           rewrite u32_small; [|unfold is_u32]; lia.
      * intros i x Hi Hne Hxv. unfold slot in Hi. simpl in Hi.
        rewrite list_lookup_insert_ne in Hi by done. by eapply Hfree.
    + (* the array is doubled *)
      apply Nat.leb_gt in Hg. pose proof (double_ok H m heap Hok Hg) as Hok2.
      change (double_list 0 m) with (Some (double_history m)). cbv beta iota zeta.
      assert (_his_len (double_history m) = 2 * _his_len m)%nat as Hl2.
      { unfold _his_len. simpl. rewrite length_app, length_replicate.
        unfold _his_len. lia. }
      assert (forall a b, _his_len (set_prewrite a ts b (double_history m))
        = 2 * _his_len m)%nat as Hl2' by (intros; exact Hl2).
      rewrite Hl2'. replace (2 * _his_len m / 2)%nat with (_his_len m)
        by (rewrite Nat.mul_comm, Nat.div_mul; lia).
      change (_write_history (set_prewrite (_exists_prewrite (double_history m)) ts
        (_prewrite_his_id (double_history m)) (double_history m)))
        with (_write_history m ++ replicate (_his_len m) new_slot).
      rewrite (take_app_length' (_write_history m) _ (_his_len m)) by done.
      assert ((_write_history m ++ replicate (_his_len m) new_slot) !! _his_len m
              = Some new_slot) as Hnew.
      { rewrite lookup_app_r by done. fold (_his_len m). rewrite Nat.sub_diag.
        apply lookup_replicate_2. pose proof (ho_len _ _ _ Hok). lia. }
      rewrite Hnew. rewrite !c_assert_true; [|done|].
      * eexists _, _, new_slot. split; [done|].
        pose proof (ho_len _ _ _ Hok).
        split; [unfold _his_len in *; simpl in *; lia|]. split; [|done].
        split_and!; [done| |].
        -- eapply his_ok_ext; [eapply (his_ok_slot Hok2 (_his_len m) new_slot new_slot)|..];
             try done. 
        -- intros i x [Hi|[_ Hi]]%lookup_app_Some _; [exact (Hfree i x Hi)|].
           by apply lookup_replicate in Hi as [-> _].
      * apply forallb_forall. intros x Hx. apply list_elem_of_In in Hx.
        apply list_elem_of_lookup in Hx as [i Hi]. by eapply n_valid_all.
Qed.
End reserve.

(** ** The invariant of a row with its requests *)

(** Slot [_prewrite_his_id] is reserved for the row [p], the others are not. *)
Definition pre_slot (m : Row_mvcc) (p : nat) : Prop :=
  (exists e, slot m (_prewrite_his_id m) e /\ wh_valid e = false /\
     wh_row e = Some p) /\
  free_but m (_prewrite_his_id m).

Definition pending (m : Row_mvcc) (i : nat) (q : ReqEntry) : Prop :=
  _requests m !! i = Some q /\ rq_valid q = true.

Section requests.
#[local] Arguments Nat.div : simpl never.
Context {V : Type} (garbage : V) (g_thread_cnt : nat) (get_ts : nat -> Z).
Context (Hthr : 2 * Z.of_nat g_thread_cnt < 2 ^ 32).
Context (Hinj : forall t t', get_ts t = get_ts t' -> t = t').
(** Requests are made by transactions with a timestamp below [ts_limit]. *)
Context (ts_limit : Z) (Hlim : ts_limit <= 2 ^ 32).
Implicit Types (H : list (Z * V)) (m : Row_mvcc) (w : @world V).

Record mv_inv H w : Prop := mkMvInv {
  mi_his : his_ok H (w_mvcc w) (w_heap w);
  mi_pre : if _exists_prewrite (w_mvcc w) then
      exists t p, _prewrite_ts (w_mvcc w) = get_ts t /\ w_cur w !! t = Some p /\
        pre_slot (w_mvcc w) p /\
        _latest_wts (w_mvcc w) < get_ts t < 2 ^ 32 /\
        _max_served_rts (w_mvcc w) <= get_ts t
    else all_free (w_mvcc w);
  mi_req : forall i q, pending (w_mvcc w) i q ->
    _exists_prewrite (w_mvcc w) = true /\ _prewrite_ts (w_mvcc w) < rq_ts q < 2 ^ 32 /\
    rq_ts q = get_ts (rq_txn q) /\ (rq_type q = R_REQ \/ rq_type q = P_REQ) /\
    w_ready w !! rq_txn q = Some false;
  mi_inj : forall i j q q', pending (w_mvcc w) i q -> pending (w_mvcc w) j q' ->
    rq_txn q = rq_txn q' -> i = j;
  mi_len : (1 <= _req_len (w_mvcc w))%nat }.

(** *** reserveRow *)

Lemma reserve_ok H w min_ts ts :
  his_ok H (w_mvcc w) (w_heap w) -> all_free (w_mvcc w) ->
  _exists_prewrite (w_mvcc w) = false ->
  exists p w1 w', reserveRow garbage g_thread_cnt min_ts ts w = Some (p, w1) /\
    copy p (_latest_row (w_mvcc w1)) w1 = Some w' /\
    his_ok H (w_mvcc w') (w_heap w') /\
    (exists v, (_latest_wts (w_mvcc w), v) ∈ H /\ w_heap w' !! p = Some v) /\
    pre_slot (w_mvcc w') p /\
    _exists_prewrite (w_mvcc w') = true /\ _prewrite_ts (w_mvcc w') = ts /\
    _latest_row (w_mvcc w') = _latest_row (w_mvcc w) /\
    _latest_wts (w_mvcc w') = _latest_wts (w_mvcc w) /\
    _max_served_rts (w_mvcc w') = _max_served_rts (w_mvcc w) /\
    _requests (w_mvcc w') = _requests (w_mvcc w) /\
    w_cur w' = w_cur w /\ w_ready w' = w_ready w.
Proof using Hthr.
  intros Hok Hfree Hex. unfold reserveRow. rewrite Hex. simpl.
  destruct (collect_ok _ _ _ min_ts Hok Hfree) as (m1 & -> & Hok1 & Hfree1 & Hs1).
  rewrite (debug_versions_ok _ _ _ Hok1). simpl.
  destruct (pick_slot_ok g_thread_cnt Hthr _ _ _ ts Hok1 Hfree1)
    as (idx & m2 & e & -> & Hne & (Hsl & Hok2 & Hfree2) & Hs2).
  rewrite (proj2 (Nat.eqb_neq _ _) Hne). simpl. rewrite Hsl.
  destruct Hs1 as (Hl1 & Hw1 & Hx1 & Hm1 & Hr1). destruct Hs2 as (Hl2 & Hw2 & Hx2 & Hm2 & Hr2).
  assert (idx < _his_len m2)%nat as Hlt by (by eapply lookup_lt_Some).
  (* the slot with its row [p] and the heap [hp] *)
  set (e2 := mkWriteHisEntry false false (wh_ts e) (wh_row e)) in Hok2.
  assert (slot (set_history (<[idx := e2]> (_write_history m2)) m2) idx e2) as Hsl2.
  { unfold slot. simpl. by rewrite list_lookup_insert_eq. }
  assert (exists p hp, (match wh_row e with
      | Some r => (r, w)
      | None => alloc_row garbage w
      end) = (p, mkWorld (w_mvcc w) hp (w_cur w) (w_ready w)) /\
    his_ok H (set_prewrite true ts idx (set_history
      (<[idx := mkWriteHisEntry false true ts (Some p)]> (_write_history m2)) m2)) hp)
    as (p & hp & -> & Hok3).
  { destruct (wh_row e) as [r|] eqn:Hr.
    - exists r, (w_heap w). split; [by destruct w|].
      eapply his_ok_ext;
        [eapply (his_ok_slot Hok2 idx _ (mkWriteHisEntry false true ts (Some r)) Hsl2)|..];
        try done. simpl. by rewrite list_insert_insert_eq.
    - exists (fresh (dom (w_heap w))). eexists. split; [reflexivity|].
      eapply his_ok_ext;
        [eapply (his_ok_new_row Hok2 idx _ (fresh (dom (w_heap w))) garbage true ts Hsl2)|..];
        try done.
      + apply not_elem_of_dom, is_fresh.
      + simpl. by rewrite list_insert_insert_eq. }
  simpl. clear Hok2 Hsl2 e2. set (m3 := set_prewrite _ _ _ _) in *.
  set (e3 := mkWriteHisEntry false true ts (Some p)) in *.
  assert (slot m3 idx e3) as Hsl3.
  { unfold slot. simpl. by rewrite list_lookup_insert_eq. }
  destruct (latest_value Hok3) as (v & Hv & HvH).
  eexists p, _, _. split; [reflexivity|]. unfold copy. simpl.
  change (_latest_row m2) with (_latest_row m3). rewrite Hv.
  split; [reflexivity|]. simpl. split_and!; try done; try congruence.
  - by eapply his_ok_write.
  - exists v. rewrite lookup_insert_eq. split; [|done].
    replace (_latest_wts (w_mvcc w)) with (_latest_wts m3); [done|]. simpl. congruence.
  - split; [by exists e3|]. intros i x Hi Hne'. apply (Hfree2 i); [|done].
    unfold slot in *. simpl in Hi. by rewrite list_lookup_insert_ne in Hi.
Qed.

(** *** The second loop of update_buffer *)

(** What serving requests does, from [w] to [w']. *)
Record served w w' : Prop := mkServed {
  sv_row : _latest_row (w_mvcc w') = _latest_row (w_mvcc w);
  sv_wts : _latest_wts (w_mvcc w') = _latest_wts (w_mvcc w);
  sv_max : _max_served_rts (w_mvcc w) <= _max_served_rts (w_mvcc w');
  sv_len : _req_len (w_mvcc w') = _req_len (w_mvcc w);
  sv_req : forall j q, _requests (w_mvcc w) !! j = Some q ->
    exists q', _requests (w_mvcc w') !! j = Some q' /\
      (q' = q \/
       rq_valid q = true /\
       q' = mkReqEntry false (rq_type q) (rq_ts q) (rq_txn q) /\
       w_ready w' !! rq_txn q = Some true /\
       (rq_type q = R_REQ -> w_cur w' !! rq_txn q = Some (_latest_row (w_mvcc w)) /\
          rq_ts q <= _max_served_rts (w_mvcc w')));
  sv_frame : forall t, (forall j q, pending (w_mvcc w) j q -> rq_txn q <> t) ->
    w_cur w' !! t = w_cur w !! t /\ w_ready w' !! t = w_ready w !! t }.

Definition reqs_inj m : Prop := forall i j q q',
  pending m i q -> pending m j q' -> rq_txn q = rq_txn q' -> i = j.

Lemma served_refl w : served w w.
Proof. constructor; try done. intros j q Hj. exists q. auto. Qed.

Lemma served_pending w w' j q : served w w' -> pending (w_mvcc w') j q ->
  pending (w_mvcc w) j q.
Proof.
  intros Hs [Hj Hv]. assert (j < _req_len (w_mvcc w))%nat as Hl.
  { rewrite <- (sv_len _ _ Hs). by eapply lookup_lt_Some. }
  destruct (lookup_lt_is_Some_2 _ _ Hl) as [q0 Hq0].
  destruct (sv_req _ _ Hs _ _ Hq0) as (q' & Hq' & [->|(_ & -> & _)]);
    rewrite Hq' in Hj; simplify_eq/=. done.
Qed.

Lemma served_trans w1 w2 w3 : reqs_inj (w_mvcc w1) ->
  served w1 w2 -> served w2 w3 -> served w1 w3.
Proof.
  intros Hi H12 H23. pose proof H12 as [Hr1 Hw1 Hm1 Hl1 Hq1 Hf1].
  pose proof H23 as [Hr2 Hw2 Hm2 Hl2 Hq2 Hf2].
  constructor; [congruence|congruence|lia|congruence| |].
  - intros j q Hj. destruct (Hq1 j q Hj) as (q' & Hj' & [->|(Hv & -> & Hrd & Hcur)]).
    + destruct (Hq2 j q Hj') as (q'' & Hj'' & [->|(Hv & -> & Hrd & Hcur)]).
      * exists q. auto.
      * eexists. split; [done|]. right. rewrite Hr1 in Hcur. done.
    + destruct (Hq2 j _ Hj') as (q'' & Hj'' & [->|(Hv' & _)]); [|done].
      eexists. split; [done|]. right. split_and!; [done..| |].
      * rewrite <- Hrd. apply Hf2. intros k q0 Hk Heq.
        assert (k = j) as ->.
        { eapply Hi; [by eapply served_pending|by split|done]. }
        destruct Hk as [Hk Hkv]. rewrite Hj' in Hk. by simplify_eq.
      * intros HR. destruct (Hcur HR) as [Hc Hm]. split; [|lia].
        rewrite <- Hc. apply Hf2. intros k q0 Hk Heq.
        assert (k = j) as ->.
        { eapply Hi; [by eapply served_pending|by split|done]. }
        destruct Hk as [Hk Hkv]. rewrite Hj' in Hk. by simplify_eq.
  - intros t Ht. destruct (Hf1 t Ht) as [<- <-]. apply Hf2.
    intros j q Hj. apply (Ht j). by eapply served_pending.
Qed.
(** The loop at index [i], for the writer's timestamp [L] and the next pending
    prewrite [nxt]. *)
Record loop_inv H (L nxt : Z) (i : nat) w : Prop := mkLoopInv {
  li_his : his_ok H (w_mvcc w) (w_heap w);
  li_wts : _latest_wts (w_mvcc w) <= L;
  li_max : _max_served_rts (w_mvcc w) <= nxt;
  li_req : forall j q, pending (w_mvcc w) j q ->
    L < rq_ts q < 2 ^ 32 /\ rq_ts q = get_ts (rq_txn q) /\
    (rq_type q = R_REQ \/ rq_type q = P_REQ /\ nxt <= rq_ts q) /\
    w_ready w !! rq_txn q = Some false /\ ((j < i)%nat -> nxt < rq_ts q);
  li_inj : reqs_inj (w_mvcc w);
  li_pre : if _exists_prewrite (w_mvcc w) then
      _prewrite_ts (w_mvcc w) = nxt /\ nxt < 2 ^ 32 /\
      exists t p, nxt = get_ts t /\ w_cur w !! t = Some p /\
        pre_slot (w_mvcc w) p /\
        forall j q, pending (w_mvcc w) j q -> rq_txn q <> t
    else all_free (w_mvcc w) /\
      (nxt = UINT64_MAX \/ exists j q, (i <= j)%nat /\ pending (w_mvcc w) j q /\
         rq_type q = P_REQ /\ rq_ts q = nxt) }.

Lemma pending_invalidate m i j q :
  pending (invalidate_req i m) j q <-> j <> i /\ pending m j q.
Proof.
  unfold pending, invalidate_req. simpl. destruct (decide (j = i)) as [->|Hne].
  - rewrite list_lookup_alter_eq. split; [|tauto].
    intros [Hj Hv]. apply fmap_Some in Hj as (q0 & _ & ->). done.
  - rewrite list_lookup_alter_ne by done. tauto.
Qed.

Lemma invalidate_lookup m i j q : _requests m !! j = Some q ->
  _requests (invalidate_req i m) !! j =
    Some (if decide (j = i) then mkReqEntry false (rq_type q) (rq_ts q) (rq_txn q) else q).
Proof.
  intros Hj. unfold invalidate_req. simpl. destruct (decide (j = i)) as [->|Hne].
  - by rewrite list_lookup_alter_eq, Hj.
  - by rewrite list_lookup_alter_ne.
Qed.

(** Serving the request [q] of index [i]: [w1] is the world before, up to the
    fields the reservation changes. *)
Lemma served_one w w1 i q p mx : pending (w_mvcc w) i q -> reqs_inj (w_mvcc w) ->
  _latest_row (w_mvcc w1) = _latest_row (w_mvcc w) ->
  _latest_wts (w_mvcc w1) = _latest_wts (w_mvcc w) ->
  _requests (w_mvcc w1) = _requests (w_mvcc w) ->
  w_cur w1 = w_cur w -> w_ready w1 = w_ready w ->
  mx = _max_served_rts (w_mvcc w1) -> _max_served_rts (w_mvcc w) <= mx ->
  (rq_type q = R_REQ -> p = _latest_row (w_mvcc w) /\ rq_ts q <= mx) ->
  served w (set_ready (rq_txn q) true (set_cur (rq_txn q) p
              (set_mvcc (invalidate_req i (w_mvcc w1)) w1))).
Proof.
  intros Hq Hi Hr Hw Hreq Hc Hrd -> Hmx HR. constructor; try done.
  - unfold _req_len, invalidate_req. simpl. by rewrite length_alter, Hreq.
  - intros j q' Hj. rewrite <- Hreq in Hj.
    eexists. split; [by apply invalidate_lookup|].
    destruct (decide (j = i)) as [->|]; [right|by left].
    destruct Hq as [Hq Hv]. rewrite Hreq, Hq in Hj. simplify_eq.
    split_and!; [done|done|by simpl; rewrite lookup_insert_eq|].
    intros HR'. destruct (HR HR') as [-> ?]. simpl. by rewrite lookup_insert_eq.
  - intros t Ht. specialize (Ht i q Hq). simpl.
    rewrite !lookup_insert_ne by done. by rewrite Hc, Hrd.
Qed.

Lemma serve_req_ok H L nxt i w min_ts : L < nxt ->
  loop_inv H L nxt i w -> (i < _req_len (w_mvcc w))%nat ->
  exists w', serve_req garbage g_thread_cnt min_ts L nxt i w = Some w' /\
    loop_inv H L nxt (S i) w' /\ served w w'.
Proof using Hthr Hinj.
  intros HL Hinv Hi. pose proof Hinv as [Hok Hwts Hmax Hreq Hri Hpre].
  destruct (lookup_lt_is_Some_2 _ _ Hi) as [q Hq].
  unfold serve_req. rewrite Hq.
  destruct (rq_valid q) eqn:Hv; simpl.
  2: { eexists. split; [done|]. split; [|apply served_refl]. constructor; try done.
    - intros j q' Hj. destruct (Hreq j q' Hj) as (? & ? & ? & ? & Hlt).
      split_and!; try done; try lia. intros Hji. apply Hlt. destruct (decide (j = i)) as [->|]; [|lia].
      destruct Hj as [Hj Hjv]. congruence.
    - destruct (_exists_prewrite (w_mvcc w)); [done|].
      destruct Hpre as [? [?|(j & q' & Hij & Hj & ?)]]; split; auto.
      right. exists j, q'. split; [|done]. destruct (decide (j = i)) as [->|]; [|lia].
      destruct Hj as [Hj Hjv]. congruence. }
  assert (pending (w_mvcc w) i q) as Hp by done.
  destruct (Hreq i q Hp) as (HLq & Hqts & Htype & Hrd & _).
  rewrite c_assert_true by lia.
  assert (forall j q', pending (w_mvcc w) j q' -> j <> i -> rq_txn q' <> rq_txn q) as Hother.
  { intros j q' Hj Hne Heq. apply Hne. by eapply Hri. }
  assert (forall j q', j <> i /\ pending (w_mvcc w) j q' ->
    L < rq_ts q' < 2 ^ 32 /\ rq_ts q' = get_ts (rq_txn q') /\
    (rq_type q' = R_REQ \/ rq_type q' = P_REQ /\ nxt <= rq_ts q') /\
    <[rq_txn q := true]> (w_ready w) !! rq_txn q' = Some false /\
    ((j < S i)%nat -> nxt < rq_ts q')) as Hrest.
  { intros j q' [Hne Hj]. destruct (Hreq j q' Hj) as ([? ?] & ? & ? & Hrd' & Hlt').
    split_and!; [done..| |intros; apply Hlt'; lia].
    rewrite lookup_insert_ne; [done|]. intros ?. by eapply Hother. }
  destruct (bool_decide (rq_type q = R_REQ) && (rq_ts q <? nxt)) eqn:HR; b2p.
  - (* a read is served *)
    set (m1 := if _max_served_rts (w_mvcc w) <? rq_ts q
               then set_max_served (rq_ts q) (w_mvcc w) else w_mvcc w).
    assert (_max_served_rts (w_mvcc w) <= _max_served_rts m1 /\
      rq_ts q <= _max_served_rts m1 /\ _max_served_rts m1 <= nxt /\
      _latest_row m1 = _latest_row (w_mvcc w) /\ _requests m1 = _requests (w_mvcc w) /\
      _write_history m1 = _write_history (w_mvcc w) /\
      _exists_prewrite m1 = _exists_prewrite (w_mvcc w) /\
      _prewrite_ts m1 = _prewrite_ts (w_mvcc w) /\
      _prewrite_his_id m1 = _prewrite_his_id (w_mvcc w) /\
      _latest_wts m1 = _latest_wts (w_mvcc w) /\ his_ok H m1 (w_heap w))
      as (Hm1 & Hm2 & Hm3 & Hlr & Hrq & Hwh & Hex & Hpt & Hpi & Hlw & Hok1).
    { unfold m1. destruct (_max_served_rts (w_mvcc w) <? rq_ts q) eqn:?; simpl;
        split_and!; try done; try lia. by eapply his_ok_ext. }
    clearbody m1. eexists. split; [reflexivity|]. split.
    + constructor; simpl.
      * by eapply his_ok_ext.
      * lia.
      * done.
      * intros j q' Hj. apply (Hrest j q').
        apply pending_invalidate in Hj as [? Hj]. unfold pending in *. by rewrite Hrq in Hj.
      * intros j k q1 q2 [_ Hj]%pending_invalidate [_ Hk]%pending_invalidate.
        unfold pending in Hj, Hk. rewrite Hrq in Hj, Hk. by eapply Hri.
      * rewrite Hex. destruct (_exists_prewrite (w_mvcc w)).
        -- destruct Hpre as (Hp1 & Hp2 & t & p & Ht & Hc & [(e & He & Hev & Her) Hfb] & Hno).
           split; [congruence|]. split; [done|]. exists t, p. split_and!; [done| | |].
           ++ rewrite lookup_insert_ne; [done|]. by apply (Hno i).
           ++ unfold pre_slot, free_but, slot in *. simpl. rewrite Hwh, Hpi. split; [by exists e|done].
           ++ intros j q' [_ Hj]%pending_invalidate. unfold pending in Hj.
              rewrite Hrq in Hj. by apply (Hno j).
        -- unfold all_free, slot. simpl. rewrite Hwh. destruct Hpre as [Hf Hn].
           split; [done|]. destruct Hn as [?|(j & q' & Hij & Hj & Ht' & Hn)]; [by left|right].
           assert (j <> i). { intros ->. destruct Hj as [Hj _]. simplify_eq. congruence. }
           exists j, q'. split_and!; [lia| |done|done]. apply pending_invalidate.
           unfold pending. by rewrite Hrq.
    + by eapply (served_one w (set_mvcc m1 w)).
  - destruct (rq_ts q =? nxt) eqn:Hn; b2p.
    + (* the next prewrite is served *)
      assert (_exists_prewrite (w_mvcc w) = false /\ rq_type q = P_REQ) as [Hex HP].
      { destruct (_exists_prewrite (w_mvcc w)).
        - destruct Hpre as (_ & _ & t & p & Ht & _ & _ & Hno). exfalso. apply (Hno i q Hp).
          apply Hinj. congruence.
        - split; [done|]. destruct Hpre as [_ [Hm|(j & q' & _ & Hj & HP & Hjn)]].
          + exfalso. unfold UINT64_MAX in Hm. lia.
          + assert (i = j) as <-.
            { eapply Hri; [done..|]. apply Hinj. destruct (Hreq j q' Hj) as (_ & <- & _). congruence. }
            destruct Hj as [Hj _]. by simplify_eq. }
      rewrite Hex in Hpre. destruct Hpre as [Hfree _].
      rewrite c_assert_true by (by apply bool_decide_eq_true).
      destruct (reserve_ok H w min_ts (rq_ts q) Hok Hfree Hex)
        as (p & w1 & w2 & -> & Hcopy & Hok2 & (v & HvH & Hv2) & Hps & Hex2 & Hpt2 & Hlr2 &
            Hlw2 & Hms2 & Hrq2 & Hc2 & Hrd2).
      rewrite Hcopy. eexists. split; [reflexivity|].
      assert (forall j q', pending (invalidate_req i (w_mvcc w2)) j q' <->
        j <> i /\ pending (w_mvcc w) j q') as Hpd.
      { intros j q'. rewrite pending_invalidate. unfold pending. by rewrite Hrq2. }
      split.
      * constructor; simpl.
        -- by eapply his_ok_ext.
        -- lia.
        -- lia.
        -- intros j q' Hj. rewrite Hrd2. apply (Hrest j q'), Hpd, Hj.
        -- intros j k q1 q2 [_ Hj]%Hpd [_ Hk]%Hpd. by eapply Hri.
        -- rewrite Hex2. split; [congruence|]. split; [lia|]. exists (rq_txn q), p.
           split_and!; [congruence|by rewrite lookup_insert_eq|done|].
           intros j q' [? Hj]%Hpd. by apply (Hother j).
      * eapply served_one; try done; try lia; congruence.
    + eexists. split; [reflexivity|]. split; [|apply served_refl].
      constructor; try done.
      * intros j q' Hj. destruct (Hreq j q' Hj) as ([? ?] & ? & Ht' & ? & Hlt).
        split_and!; [done..|]. intros Hji.
        destruct (decide (j = i)) as [->|]; [|apply Hlt; lia].
        destruct Hj as [Hj Hjv]. simplify_eq. destruct Htype as [Htype|[? ?]]; [|lia].
        rewrite bool_decide_eq_true_2 in HR by done. simpl in HR. lia.
      * destruct (_exists_prewrite (w_mvcc w)); [done|].
        destruct Hpre as [? [?|(j & q' & Hij & Hj & ? & Hjn)]]; split; auto.
        right. exists j, q'. split; [|done]. destruct (decide (j = i)) as [->|]; [|lia].
        destruct Hj as [Hj Hjv]. congruence.
Qed.

Lemma serve_loop_ok H L nxt min_ts n : L < nxt -> forall i w,
  loop_inv H L nxt i w -> (i + n = _req_len (w_mvcc w))%nat ->
  exists w', serve_loop garbage g_thread_cnt min_ts L nxt i n w = Some w' /\
    loop_inv H L nxt (i + n) w' /\ served w w'.
Proof using Hthr Hinj.
  intros HL. induction n as [|n IH]; intros i w Hinv Hlen; simpl.
  { exists w. rewrite Nat.add_0_r. split_and!; [done..|apply served_refl]. }
  destruct (serve_req_ok H L nxt i w min_ts HL Hinv) as (w1 & -> & Hinv1 & Hs1); [lia|].
  destruct (IH (S i) w1 Hinv1) as (w2 & -> & Hinv2 & Hs2).
  { rewrite (sv_len _ _ Hs1). lia. }
  exists w2. split; [done|]. rewrite Nat.add_succ_r. split; [done|].
  eapply served_trans; [apply (li_inj _ _ _ _ _ Hinv)|done..].
Qed.

(** [update_buffer] after the prewrite of [txn] is gone. *)
Lemma update_buffer_ok H min_ts txn w :
  his_ok H (w_mvcc w) (w_heap w) -> all_free (w_mvcc w) ->
  _exists_prewrite (w_mvcc w) = false ->
  get_ts txn < 2 ^ 32 ->
  _latest_wts (w_mvcc w) <= get_ts txn -> _max_served_rts (w_mvcc w) <= get_ts txn ->
  reqs_inj (w_mvcc w) -> (1 <= _req_len (w_mvcc w))%nat ->
  (forall i q, pending (w_mvcc w) i q -> get_ts txn < rq_ts q < 2 ^ 32 /\
     rq_ts q = get_ts (rq_txn q) /\ (rq_type q = R_REQ \/ rq_type q = P_REQ) /\
     w_ready w !! rq_txn q = Some false) ->
  exists w', update_buffer garbage g_thread_cnt get_ts min_ts txn w = Some w' /\
    mv_inv H w' /\ served w w'.
Proof using Hthr Hinj.
  intros Hok Hfree Hex Hbd Hwts Hmax Hri Hlen1 Hreq. unfold update_buffer.
  pose proof (next_prewrite_spec (get_ts txn) UINT64_MAX (_requests (w_mvcc w)))
    as (Hle & Hmin & Hn). set (nxt := next_prewrite _ _ _) in *.
  assert (get_ts txn < nxt) as HL.
  { destruct Hn as [->|(i & q & _ & _ & _ & ? & <-)]; [|done].
    unfold UINT64_MAX. lia. }
  destruct (serve_loop_ok H (get_ts txn) nxt min_ts (_req_len (w_mvcc w)) HL 0 w)
    as (w' & Hw' & Hinv & Hs); [|done|].
  { constructor; try done; [lia| |].
    - intros j q Hj. destruct (Hreq j q Hj) as ([? ?] & ? & Ht & ?). split_and!; [done..| |done|lia].
      destruct Ht as [?|HP]; [by left|right]. split; [done|]. by apply (Hmin j q); [apply Hj..| |].
    - rewrite Hex. split; [done|]. destruct Hn as [?|(i & q & ? & ? & ? & ? & ?)]; [by left|right].
      exists i, q. split_and!; [lia|done..]. }
  exists w'. split; [done|]. split; [|done].
  destruct Hinv as [Hok' Hwts' Hmax' Hreq' Hri' Hpre'].
  assert (forall i q, pending (w_mvcc w') i q -> nxt < rq_ts q) as Hlt.
  { intros i q Hi. destruct (Hreq' i q Hi) as (_ & _ & _ & _ & Hlt). apply Hlt.
    rewrite <- (sv_len _ _ Hs). destruct Hi as [Hi _]. by eapply lookup_lt_Some. }
  constructor; [done| | |done|by rewrite (sv_len _ _ Hs)].
  - destruct (_exists_prewrite (w_mvcc w')); [|apply Hpre'].
    destruct Hpre' as (Hp & ? & t & p & -> & ? & ? & ?). exists t, p. split_and!; try done; lia.
  - intros i q Hi. destruct (Hreq' i q Hi) as ([? ?] & Hqts & Ht & ? & _).
    specialize (Hlt i q Hi).
    destruct (_exists_prewrite (w_mvcc w')).
    + destruct Hpre' as (-> & _). split_and!; [done..| |done]. destruct Ht as [?|[? ?]]; auto.
    + exfalso. destruct Hpre' as [_ [Hm|(j & q' & Hij & [Hj _] & _)]].
      * unfold UINT64_MAX in Hm. lia.
      * apply lookup_lt_Some in Hj. pose proof (sv_len _ _ Hs) as Hl. unfold _req_len in *. lia.
Qed.

(** *** buffer_req *)

Lemma buffer_loop_spec type txn r :
  match buffer_loop get_ts type txn r with
  | Some r' => length r' = length r /\ exists i q, r !! i = Some q /\ rq_valid q = false /\
      r' = <[i := mkReqEntry true type (get_ts txn) txn]> r
  | None => forall i q, r !! i = Some q -> rq_valid q = true
  end.
Proof.
  induction r as [|a r IH]; simpl; [done|]. destruct (rq_valid a) eqn:Ha.
  - destruct (buffer_loop get_ts type txn r) as [r'|].
    + destruct IH as (Hl & i & q & Hi & Hv & ->). split; [simpl; congruence|].
      by exists (S i), q.
    + intros [|i] q; simpl; [by intros [= ->]|eauto].
  - split; [done|]. by exists 0%nat, a.
Qed.

(** The pending requests are the old ones and the new one. *)
Lemma buffer_req_ok type txn m : (1 <= _req_len m)%nat ->
  exists r i, buffer_req get_ts type txn m = Some (set_requests r m) /\
    (forall q, ~ pending m i q) /\ (length r >= _req_len m)%nat /\
    forall j q, pending (set_requests r m) j q <->
      (j = i /\ q = mkReqEntry true type (get_ts txn) txn) \/ pending m j q.
Proof.
  intros Hlen. unfold buffer_req.
  assert (forall r0 i q, _requests m = r0 \/ _requests m ++ replicate (_req_len m) new_req = r0 ->
    r0 !! i = Some q -> rq_valid q = false ->
    (forall q, ~ pending m i q) /\
    forall j q, pending (set_requests (<[i := mkReqEntry true type (get_ts txn) txn]> r0) m) j q <->
      (j = i /\ q = mkReqEntry true type (get_ts txn) txn) \/ pending m j q) as Hgen.
  { intros r0 i q Hr0 Hi Hv.
    assert (forall j q', (r0 !! j = Some q' /\ rq_valid q' = true) <-> pending m j q') as Heq.
    { intros j q'. unfold pending. destruct Hr0 as [->| <-]; [done|].
      rewrite lookup_app_Some. split; [|tauto].
      intros [[?|[_ Hn]] ?]; [done|]. by apply lookup_replicate in Hn as [-> _]. }
    split. { intros q' Hq'. apply Heq in Hq'. destruct Hq'. congruence. }
    intros j q'. unfold pending at 1. simpl. rewrite list_lookup_insert_Some, <- Heq.
    split.
    - intros [[(-> & <- & _)|[? ?]] ?]; auto.
    - intros [[-> ->]|[? ?]].
      + split; [left|done]. split_and!; try done. by eapply lookup_lt_Some.
      + split; [right|done]. split; [|done]. intros ->. congruence. }
  pose proof (buffer_loop_spec type txn (_requests m)) as H1.
  destruct (buffer_loop get_ts type txn (_requests m)) as [r|].
  - destruct H1 as (Hl & i & q & Hi & Hv & ->).
    destruct (Hgen _ _ _ (or_introl eq_refl) Hi Hv) as [? ?].
    eexists _, i. split; [done|]. split_and!; [done|unfold _req_len; lia|done].
  - simpl. pose proof (buffer_loop_spec type txn
      (_requests m ++ replicate (_req_len m) new_req)) as H2.
    destruct (buffer_loop get_ts type txn _) as [r|].
    + destruct H2 as (Hl & i & q & Hi & Hv & ->).
      destruct (Hgen _ _ _ (or_intror eq_refl) Hi Hv) as [? ?].
      eexists _, i. split; [done|]. split_and!; [done| |done].
      rewrite Hl, length_app. unfold _req_len. lia.
    + exfalso. specialize (H2 (_req_len m) new_req).
      rewrite lookup_app_r in H2 by done. unfold _req_len in *. rewrite Nat.sub_diag in H2.
      discriminate H2. apply lookup_replicate_2. lia.
Qed.

(** *** Commit of a version *)

Lemma commit_ok H m (heap : gmap nat V) i e p v ts rs :
  his_ok H m heap -> slot m i e -> wh_valid e = false -> wh_row e = Some p ->
  heap !! p = Some v -> _latest_wts m < ts < 2 ^ 32 ->
  his_ok (H ++ [(ts, v)])
    (set_latest p ts (<[i := mkWriteHisEntry true rs ts (Some p)]> (_write_history m))
       (u32 (_num_versions m + 1)) m) heap.
Proof.
  intros Hok Hs Hv Hp Hhp Hltts. pose proof (hist_le Hok) as Hhist.
  pose proof (oldest_le Hok) as Hold.
  destruct Hok as [Hlen Hnum Hsm Hrows Hrow Hlive (v0 & Hv0 & Hin0) Hval Hi Hcompl Hlat
    Hsort Hrange Hbd].
  set (e' := mkWriteHisEntry true rs ts (Some p)). set (m' := set_latest _ _ _ _ _).
  assert (i < _his_len m)%nat as Hil by (by eapply lookup_lt_Some).
  assert (forall j x, slot m' j x -> (j = i /\ x = e') \/ (j <> i /\ slot m j x)) as Hsl.
  { intros j x Hj. unfold slot in Hj. simpl in Hj.
    apply list_lookup_insert_Some in Hj as [(<- & <- & _)|[? ?]]; auto. }
  assert (forall j y, slot m j y -> j <> i -> slot m' j y) as Hsl'.
  { intros j y Hj Hne. unfold slot. simpl. by rewrite list_lookup_insert_ne. }
  assert (slot m' i e') as Hsi.
  { unfold slot. simpl. by rewrite list_lookup_insert_eq. }
  constructor; try done.
  - unfold _his_len. simpl. by rewrite length_insert.
  - simpl. pose proof (n_valid_insert _ _ _ e' Hs) as Hn. rewrite Hv in Hn. simpl in Hn.
    pose proof (n_valid_le (<[i:=e']> (_write_history m))) as Hle.
    rewrite length_insert in Hle. fold (_his_len m) in Hle.
    rewrite Hnum, u32_small; [|unfold is_u32]; lia.
  - unfold _his_len. simpl. by rewrite length_insert.
  - intros j k x x' q [[-> ->]|[? Hx]]%Hsl [[-> ->]|[? Hx']]%Hsl; simpl; try done.
    + intros [= <-] Hq. symmetry. eauto.
    + intros Hq [= <-]. eauto.
    + eauto.
  - intros j x [[-> ->]|[? Hx]]%Hsl; simpl; [|eauto]. rewrite <- Hp. eauto.
  - intros j x q [[-> ->]|[? Hx]]%Hsl; simpl; [|eauto]. intros [= <-]. eauto.
  - exists v0. split; [done|]. apply elem_of_app. by left.
  - intros j x [[-> ->]|[? Hx]]%Hsl Hxv; simpl in *.
    + exists p, v. split_and!; [done..| |lia|lia]. apply elem_of_app. right. by left.
    + destruct (Hval j x Hx Hxv) as (q & u & ? & ? & ? & ?). exists q, u.
      split_and!; [done..| |lia|lia]. apply elem_of_app. by left.
  - intros j k x x' [[-> ->]|[? Hx]]%Hsl [[-> ->]|[? Hx']]%Hsl Hxv Hxv'; simpl; [done| | |eauto];
      intros Heq; exfalso.
    + destruct (Hval _ _ Hx' Hxv') as (? & ? & _ & _ & _ & ?). lia.
    + destruct (Hval _ _ Hx Hxv) as (? & ? & _ & _ & _ & ?). lia.
  - intros w0 u [Hin|Hin]%elem_of_app Hlt.
    + destruct (Hcompl w0 u Hin Hlt) as (j & y & Hj & ? & ?). exists j, y.
      split_and!; [|done..]. apply Hsl'; [done|]. intros ->. unfold slot in *. congruence.
    + apply list_elem_of_singleton in Hin. simplify_eq. by exists i, e'.
  - right. exists i, rs. done.
  - rewrite fmap_app. apply StronglySorted_app. split_and!; [|done|by repeat constructor].
    intros x y Hx Hy. simpl in Hy. apply list_elem_of_singleton in Hy as ->.
    apply list_elem_of_fmap in Hx as ([x' u] & -> & Hx). apply Hhist in Hx. simpl. lia.
  - rewrite fmap_app. apply Forall_app. split.
    + eapply Forall_impl; [done|]. simpl. lia.
    + simpl. constructor; [lia|done].
  - simpl. lia.
Qed.

(** The debug checks of [access] hold. *)
Lemma debug_requests_ok H w : mv_inv H w -> debug_requests (w_mvcc w) = true.
Proof.
  intros [Hok Hpre Hreq _ _]. apply forallb_forall. intros q Hq.
  apply list_elem_of_In, list_elem_of_lookup in Hq as [i Hi].
  destruct (rq_valid q) eqn:Hv; [|done]. simpl.
  destruct (Hreq i q (conj Hi Hv)) as (Hex & Hlt & _). rewrite Hex in Hpre |- *.
  destruct Hpre as (t & p & Hp & _ & _ & Hl & _). simpl. lia.
Qed.

(** *** Reads *)

(** [t] waits for no request of this row, has not committed a version of it,
    and holds no reservation of it. *)
Definition idle w (t : nat) : Prop :=
  forall i q, pending (w_mvcc w) i q -> rq_txn q <> t.
Definition holds_prewrite w (t : nat) : Prop :=
  _exists_prewrite (w_mvcc w) = true /\ _prewrite_ts (w_mvcc w) = get_ts t.
Definition may_request H w (t : nat) : Prop :=
  idle w t /\ get_ts t ∉ H.*1 /\ ~ holds_prewrite w t /\ get_ts t < ts_limit.

(** Setting [cur_row] of an idle transaction without a reservation. *)
Lemma mv_inv_cur H w t p : mv_inv H w -> ~ holds_prewrite w t -> mv_inv H (set_cur t p w).
Proof using Hinj.
  intros [Hok Hpre Hreq Hri Hl] Hnp. constructor; try done.
  simpl. destruct (_exists_prewrite (w_mvcc w)) eqn:Hex; [|done].
  destruct Hpre as (t' & q & Ht & Hc & ?). exists t', q. split; [done|]. split; [|done].
  rewrite lookup_insert_ne; [done|]. intros <-. by apply Hnp.
Qed.

Lemma mv_inv_max H w ts : mv_inv H w ->
  (_exists_prewrite (w_mvcc w) = true -> ts <= _prewrite_ts (w_mvcc w)) ->
  mv_inv H (set_mvcc (set_max_served ts (w_mvcc w)) w).
Proof.
  intros [Hok Hpre Hreq Hri Hl] Hle. constructor; try done.
  - by eapply his_ok_ext.
  - simpl. destruct (_exists_prewrite (w_mvcc w)) eqn:Hex; [|done].
    destruct Hpre as (t' & q & Ht & Hc & Hp & Hw & _). exists t', q.
    split_and!; try done; lia.
Qed.

(** Buffering the request of an idle transaction behind the reservation. *)
Lemma mv_inv_buffer H w t type : mv_inv H w -> idle w t ->
  _exists_prewrite (w_mvcc w) = true -> _prewrite_ts (w_mvcc w) < get_ts t < 2 ^ 32 ->
  type = R_REQ \/ type = P_REQ ->
  exists m', buffer_req get_ts type t (w_mvcc w) = Some m' /\
    (exists r, m' = set_requests r (w_mvcc w)) /\
    (exists i, pending m' i (mkReqEntry true type (get_ts t) t)) /\
    (forall j q, pending (w_mvcc w) j q -> pending m' j q) /\
    mv_inv H (set_ready t false (set_mvcc m' w)).
Proof.
  intros [Hok Hpre Hreq Hri Hl] Hidle Hex Hlt Htype.
  destruct (buffer_req_ok type t (w_mvcc w) Hl) as (r & i & -> & Hi & Hlr & Hp).
  eexists. split; [done|]. split; [by eexists|].
  split. { exists i. apply Hp. by left. }
  split. { intros j q Hj. apply Hp. by right. }
  constructor.
  - by eapply his_ok_ext.
  - simpl. rewrite Hex in Hpre |- *. destruct Hpre as (t' & p & ? & ? & ? & ? & ?).
    by exists t', p.
  - intros j q [[-> ->]|Hj]%Hp; simpl.
    + by rewrite lookup_insert_eq.
    + destruct (Hreq j q Hj) as (? & ? & ? & ? & ?). split_and!; try done; try lia.
      rewrite lookup_insert_ne; [done|]. intros ->. by eapply Hidle.
  - intros j k q q' [[-> ->]|Hj]%Hp [[-> ->]|Hk]%Hp Heq; simpl in *; [done|..|eauto].
    + symmetry in Heq. by eapply Hidle in Heq.
    + by eapply Hidle in Heq.
  - unfold _req_len in *. simpl in *. lia.
Qed.

(** The result of [access_read], by return code. *)
Definition read_post H w (t : nat) (rc : RC) w' : Prop :=
  match rc with
  | Abort => get_ts t < _oldest_wts (w_mvcc w) /\ w' = w
  | WAIT => _exists_prewrite (w_mvcc w) = true /\
      _prewrite_ts (w_mvcc w) < get_ts t /\
      w_ready w' !! t = Some false /\
      (exists i, pending (w_mvcc w') i (mkReqEntry true R_REQ (get_ts t) t)) /\
      _max_served_rts (w_mvcc w') = _max_served_rts (w_mvcc w)
  | RCOK => w_heap w' = w_heap w /\
      _max_served_rts (w_mvcc w) <= _max_served_rts (w_mvcc w') /\
      (get_ts t <= _max_served_rts (w_mvcc w') \/ get_ts t <= _latest_wts (w_mvcc w')) /\
      exists p v, w_cur w' !! t = Some p /\ w_heap w' !! p = Some v /\
        read_value H (get_ts t) = Some v
  | _ => False
  end.

Lemma access_read_ok H w t : mv_inv H w -> may_request H w t ->
  exists rc w', access_read get_ts t w = Some (rc, w') /\ mv_inv H w' /\
    _latest_wts (w_mvcc w') = _latest_wts (w_mvcc w) /\ read_post H w t rc w'.
Proof using Hinj Hthr Hlim.
  intros Hinv (Hidle & Hnh & Hnp & Htl). pose proof Hinv as [Hok Hpre Hreq Hri Hl].
  unfold access_read. destruct (get_ts t <? _oldest_wts (w_mvcc w)) eqn:Ho; b2p.
  { exists Abort, w. done. }
  assert (forall x v0, (x, v0) ∈ H -> x <> get_ts t) as Hne.
  { intros x v0 Hin ->. apply Hnh. by apply (list_elem_of_fmap_2 fst) in Hin. }
  destruct (_latest_wts (w_mvcc w) <? get_ts t) eqn:Hlw; b2p.
  - destruct (_exists_prewrite (w_mvcc w) && (_prewrite_ts (w_mvcc w) <? get_ts t)) eqn:Hpw; b2p.
    + destruct (mv_inv_buffer H w t R_REQ Hinv Hidle) as (m' & -> & [r ->] & ? & _ & Hinv');
        [done|lia|by left|].
      eexists WAIT, _. split_and!; [done..|]. simpl. by rewrite lookup_insert_eq.
    + set (w1 := set_cur t _ w).
      assert (mv_inv H w1) as Hinv1 by (by apply mv_inv_cur).
      destruct (latest_value Hok) as (v & Hv & HvH).
      assert (read_value H (get_ts t) = Some v) as Hrv.
      { eapply read_value_intro; [apply Hok|done..|].
        intros x v' Hin _. apply (hist_le Hok) in Hin. lia. }
      eexists RCOK, _. split; [done|].
      destruct (_max_served_rts (w_mvcc w) <? get_ts t) eqn:Hms; b2p.
      * split_and!; [|done..|].
        { apply (mv_inv_max H w1); [done|]. intros Hex. simpl in *. rewrite Hex in Hpw.
          simpl in Hpw. lia. }
        simpl. split_and!; [done|lia|lia|]. exists (_latest_row (w_mvcc w)), v.
        by rewrite lookup_insert_eq.
      * split_and!; [done..|]. simpl. split_and!; [done|lia|lia|].
        exists (_latest_row (w_mvcc w)), v. by rewrite lookup_insert_eq.
  - pose proof (version_ts Hok) as Hvt. unfold slot in Hvt.
    rewrite (find_version_recycle _ _ _ _ _ Hvt).
    destruct (find_recycle _ _ _ _ _) as [mx idx] eqn:Hf. simpl.
    assert (exists p v, (if (idx =? _his_len (w_mvcc w))%nat
        then Some (RCOK, set_cur t (_row (w_mvcc w)) w)
        else match _write_history (w_mvcc w) !! idx with
             | Some (mkWriteHisEntry _ _ _ (Some r)) => Some (RCOK, set_cur t r w)
             | _ => None
             end) = Some (RCOK, set_cur t p w) /\ w_heap w !! p = Some v /\
        read_value H (get_ts t) = Some v) as (p & v & -> & Hv & Hrv).
    { apply find_recycle_spec in Hf
        as [(-> & -> & Hall)|(k & [ev er et ep] & -> & Hk & Hev & <- & Hlt & Hall)].
      - rewrite Nat.eqb_refl. destruct (ho_oldest _ _ _ Hok) as (v & Hv & HvH).
        exists (_row (w_mvcc w)), v. split_and!; [done..|].
        eapply read_value_intro; [apply Hok|done|specialize (Hne _ _ HvH); lia|].
        intros x v' Hin Hlt'. destruct (Z.le_gt_cases x (_oldest_wts (w_mvcc w))); [done|].
        destruct (ho_complete _ _ _ Hok x v' Hin) as (i & e & Hi & Hev & <-); [lia|].
        specialize (Hall i e Hi Hev Hlt'). pose proof (oldest_le Hok). lia.
      - simpl in *. subst ev.
        assert (k < _his_len (w_mvcc w))%nat by (by eapply lookup_lt_Some).
        rewrite (proj2 (Nat.eqb_neq _ _)) by lia. rewrite Hk.
        destruct (ho_valid _ _ _ Hok _ _ Hk eq_refl) as (p & v & Hp & Hv & HvH & Hr).
        simpl in *. subst ep. exists p, v. split_and!; [done..|].
        eapply read_value_intro; [apply Hok|done|lia|].
        intros x v' Hin Hlt'. destruct (Z.le_gt_cases x (_oldest_wts (w_mvcc w))); [lia|].
        destruct (ho_complete _ _ _ Hok x v' Hin) as (i & e & Hi & Hev & <-); [lia|].
        by eapply Hall. }
    eexists RCOK, _. split; [done|]. split; [by apply mv_inv_cur|]. split; [done|].
    simpl. split_and!; [done|lia|lia|]. exists p, v. by rewrite lookup_insert_eq.
Qed.

(** *** Prewrites *)

Definition prewrite_post H w (t : nat) (rc : RC) w' : Prop :=
  match rc with
  | Abort => w' = w /\
      (get_ts t < _latest_wts (w_mvcc w) \/ get_ts t < _max_served_rts (w_mvcc w) \/
       _exists_prewrite (w_mvcc w) = true /\ get_ts t < _prewrite_ts (w_mvcc w))
  | WAIT => _exists_prewrite (w_mvcc w) = true /\
      _prewrite_ts (w_mvcc w) < get_ts t /\
      w_ready w' !! t = Some false /\
      exists i, pending (w_mvcc w') i (mkReqEntry true P_REQ (get_ts t) t)
  | RCOK => _exists_prewrite (w_mvcc w) = false /\ holds_prewrite w' t /\
      exists p v, w_cur w' !! t = Some p /\ w_heap w' !! p = Some v /\
        (_latest_wts (w_mvcc w), v) ∈ H /\ _latest_wts (w_mvcc w) < get_ts t
  | _ => False
  end.

Lemma access_prewrite_ok H w t min_ts : mv_inv H w -> may_request H w t ->
  exists rc w', access_prewrite garbage g_thread_cnt get_ts min_ts t w = Some (rc, w') /\
    mv_inv H w' /\ _latest_wts (w_mvcc w') = _latest_wts (w_mvcc w) /\
    _max_served_rts (w_mvcc w') = _max_served_rts (w_mvcc w) /\
    prewrite_post H w t rc w'.
Proof using Hinj Hthr Hlim.
  intros Hinv (Hidle & Hnh & Hnp & Htl). pose proof Hinv as [Hok Hpre Hreq Hri Hl].
  unfold access_prewrite. destruct ((get_ts t <? _latest_wts (w_mvcc w)) || _ || _) eqn:Ha.
  { exists Abort, w. split_and!; try done. simpl. split; [done|lia]. }
  b2p. destruct (latest_value Hok) as (v0 & _ & HvH).
  assert (_latest_wts (w_mvcc w) <> get_ts t) as Hne.
  { intros Heq. apply Hnh. rewrite <- Heq. by apply (list_elem_of_fmap_2 fst) in HvH. }
  destruct (_exists_prewrite (w_mvcc w)) eqn:Hex.
  - assert (_prewrite_ts (w_mvcc w) <> get_ts t) as Hne'.
    { intros Heq. by apply Hnp. }
    simpl in *. destruct (mv_inv_buffer H w t P_REQ Hinv Hidle)
      as (m' & -> & [r ->] & ? & _ & Hinv'); [done|lia|by right|].
    eexists WAIT, _. split_and!; [done..|]. simpl. split_and!; [done|lia| |done].
    by rewrite lookup_insert_eq.
  - destruct (reserve_ok H w min_ts (get_ts t) Hok Hpre Hex)
      as (p & w1 & w2 & -> & Hcopy & Hok2 & (v & HvH2 & Hv2) & Hps & Hex2 & Hpt2 & Hlr2 &
          Hlw2 & Hms2 & Hrq2 & Hc2 & Hrd2).
    rewrite Hcopy. eexists RCOK, _. split; [done|].
    assert (forall i q, ~ pending (w_mvcc w2) i q) as Hnone.
    { intros i q Hq. unfold pending in Hq. rewrite Hrq2 in Hq.
      destruct (Hreq i q Hq) as (? & _). congruence. }
    split; [|split_and!; [done..|]].
    + constructor; simpl; [done| |..].
      * rewrite Hex2. exists t, p. rewrite lookup_insert_eq. split_and!; try done; lia.
      * intros i q Hq. by destruct (Hnone i q).
      * intros i j q q' Hq. by destruct (Hnone i q).
      * unfold _req_len. rewrite Hrq2. done.
    + simpl. split_and!; [done..|]. exists p, v. rewrite lookup_insert_eq.
      split_and!; [done..|lia].
Qed.

(** *** The end of a prewrite *)

Lemma pre_slot_holder H w t : mv_inv H w -> holds_prewrite w t ->
  exists p, w_cur w !! t = Some p /\ pre_slot (w_mvcc w) p /\
    _latest_wts (w_mvcc w) < get_ts t < 2 ^ 32 /\ _max_served_rts (w_mvcc w) <= get_ts t.
Proof using Hinj.
  intros [Hok Hpre _ _ _] [Hex Hp]. rewrite Hex in Hpre.
  destruct Hpre as (t' & p & Ht & Hc & ?).
  assert (t' = t) as -> by (apply Hinj; congruence). eauto.
Qed.

(** From [w], the prewrite is taken back or committed, which makes [row] the
    latest row, and then requests are served, which gives [w']. *)
Definition ended w (row : nat) w' : Prop :=
  exists w1, (_requests (w_mvcc w1) = _requests (w_mvcc w) /\ w_ready w1 = w_ready w) /\
    _latest_row (w_mvcc w1) = row /\
    _max_served_rts (w_mvcc w1) = _max_served_rts (w_mvcc w) /\ served w1 w'.

Lemma access_write_ok H w t min_ts p v : mv_inv H w -> holds_prewrite w t ->
  w_cur w !! t = Some p -> w_heap w !! p = Some v ->
  exists w', access_write garbage g_thread_cnt get_ts min_ts t p w = Some (RCOK, w') /\
    mv_inv (H ++ [(get_ts t, v)]) w' /\
    _latest_row (w_mvcc w') = p /\ _latest_wts (w_mvcc w') = get_ts t /\
    ended w p w'.
Proof using Hinj Hthr Hlim.
  intros Hinv Hh Hc Hv. pose proof Hinv as [Hok Hpre Hreq Hri Hl].
  destruct (pre_slot_holder _ _ _ Hinv Hh) as (p' & Hc' & [(e & He & Hev & Her) Hfb] & [Hlw Htl] & Hms).
  assert (p' = p) as -> by congruence. destruct Hh as [Hex Hp].
  unfold access_write. rewrite c_assert_true by lia. rewrite He.
  rewrite c_assert_true by (by apply bool_decide_eq_true). rewrite Her.
  set (m1 := set_latest _ _ _ _ _). set (w1 := set_mvcc m1 w).
  destruct (update_buffer_ok (H ++ [(get_ts t, v)]) min_ts t w1)
    as (w' & -> & Hinv' & Hs); try done.
  - eapply commit_ok; try done.
  - intros i x Hi. unfold slot in Hi. simpl in Hi.
    apply list_lookup_insert_Some in Hi as [(<- & <- & _)|[? Hi]]; [done|]. by apply (Hfb i).
  - intros i q Hq. destruct (Hreq i q Hq) as (_ & ? & ? & ? & ?). split_and!; try done; lia.
  - exists w'. split; [done|]. split; [done|]. split; [by rewrite (sv_row _ _ Hs)|].
    split; [by rewrite (sv_wts _ _ Hs)|]. exists w1. done.
Qed.

Lemma access_abort_ok H w t min_ts p : mv_inv H w -> holds_prewrite w t ->
  w_cur w !! t = Some p ->
  exists w', access_abort garbage g_thread_cnt get_ts min_ts t p w = Some (RCOK, w') /\
    mv_inv H w' /\
    _latest_row (w_mvcc w') = _latest_row (w_mvcc w) /\
    _latest_wts (w_mvcc w') = _latest_wts (w_mvcc w) /\
    ended w (_latest_row (w_mvcc w)) w'.
Proof using Hinj Hthr Hlim.
  intros Hinv Hh Hc. pose proof Hinv as [Hok Hpre Hreq Hri Hl].
  destruct (pre_slot_holder _ _ _ Hinv Hh) as (p' & Hc' & [(e & He & Hev & Her) Hfb] & [Hlw Htl] & Hms).
  assert (p' = p) as -> by congruence. destruct Hh as [Hex Hp].
  unfold access_abort. rewrite He.
  rewrite c_assert_true by (by apply bool_decide_eq_true).
  set (m1 := set_prewrite _ _ _ _). set (w1 := set_mvcc m1 w).
  destruct (update_buffer_ok H min_ts t w1) as (w' & -> & Hinv' & Hs); try done.
  - eapply his_ok_ext; [by eapply (his_ok_slot Hok _ e
      (mkWriteHisEntry false false (wh_ts e) (wh_row e)) He)|done..].
  - intros i x Hi. unfold slot in Hi. simpl in Hi.
    apply list_lookup_insert_Some in Hi as [(<- & <- & _)|[? Hi]]; [done|]. by apply (Hfb i).
  - simpl. lia.
  - intros i q Hq. destruct (Hreq i q Hq) as (_ & ? & ? & ? & ?). split_and!; try done; lia.
  - exists w'. split; [done|]. split; [done|]. split; [by rewrite (sv_row _ _ Hs)|].
    split; [by rewrite (sv_wts _ _ Hs)|]. exists w1. done.
Qed.

(** ** The row and its transactions

    [ms_hist] and [ms_reads] are ghost state: the committed versions in commit
    order, and every read that was served, with the reader's timestamp and the
    contents of the row it was given. *)
Record mv_sys := mkMvSys {
  ms_world : @world V;
  ms_hist : list (Z * V);
  ms_reads : list (Z * V) }.

Definition handed w (q : ReqEntry) : option (Z * V) :=
  match w_cur w !! rq_txn q with
  | Some p => match w_heap w !! p with
              | Some v => Some (rq_ts q, v)
              | None => None
              end
  | None => None
  end.

(** The reads that were pending in [w] and are served in [w']. *)
Definition woken w w' : list (Z * V) :=
  omap (fun qq => if rq_valid qq.1 && bool_decide (rq_type qq.1 = R_REQ)
                     && negb (rq_valid qq.2)
                  then handed w' qq.1 else None)
    (zip (_requests (w_mvcc w)) (_requests (w_mvcc w'))).

Definition read_now (rc : RC) w (t : nat) : list (Z * V) :=
  if bool_decide (rc = RCOK)
  then from_option (fun x => [x]) [] (handed w (mkReqEntry true R_REQ (get_ts t) t))
  else [].

(** A transaction reads, asks for a new version, changes the contents of the
    row it was given for it, commits it, or gives it up. [min_ts], the minimum
    active timestamp, is arbitrary. *)
Inductive mv_step : mv_sys -> mv_sys -> Prop :=
| mv_read w H rd t row min_ts rc w' :
    may_request H w t ->
    access garbage g_thread_cnt get_ts min_ts t R_REQ row w = Some (rc, w') ->
    mv_step (mkMvSys w H rd) (mkMvSys w' H (rd ++ read_now rc w' t))
| mv_prewrite w H rd t row min_ts rc w' :
    may_request H w t ->
    access garbage g_thread_cnt get_ts min_ts t P_REQ row w = Some (rc, w') ->
    mv_step (mkMvSys w H rd) (mkMvSys w' H rd)
| mv_modify w H rd t row v :
    holds_prewrite w t -> w_cur w !! t = Some row ->
    mv_step (mkMvSys w H rd)
      (mkMvSys (set_heap (<[row := v]> (w_heap w)) w) H rd)
| mv_write w H rd t row v min_ts rc w' :
    holds_prewrite w t -> w_cur w !! t = Some row -> w_heap w !! row = Some v ->
    access garbage g_thread_cnt get_ts min_ts t W_REQ row w = Some (rc, w') ->
    mv_step (mkMvSys w H rd)
      (mkMvSys w' (H ++ [(get_ts t, v)]) (rd ++ woken w w'))
| mv_abort w H rd t row min_ts rc w' :
    holds_prewrite w t -> w_cur w !! t = Some row ->
    access garbage g_thread_cnt get_ts min_ts t XP_REQ row w = Some (rc, w') ->
    mv_step (mkMvSys w H rd) (mkMvSys w' H (rd ++ woken w w')).

Definition mv_init (s : mv_sys) : Prop :=
  exists row v, s = mkMvSys (mkWorld (Row_mvcc_init row) {[ row := v ]} ∅ ∅) [(0, v)] [].

(** *** The invariant of the system *)

Definition reads_ok (s : mv_sys) : Prop := forall rts v, (rts, v) ∈ ms_reads s ->
  read_value (ms_hist s) rts = Some v /\
  (rts <= _max_served_rts (w_mvcc (ms_world s)) \/
   rts <= _latest_wts (w_mvcc (ms_world s))).

Definition sys_inv (s : mv_sys) : Prop := mv_inv (ms_hist s) (ms_world s) /\ reads_ok s.

Lemma woken_ok H' w row w' : ended w row w' -> mv_inv H' w' ->
  row = _latest_row (w_mvcc w') ->
  (forall i q, pending (w_mvcc w) i q -> _latest_wts (w_mvcc w') < rq_ts q) ->
  forall rts v, (rts, v) ∈ woken w w' ->
    read_value H' rts = Some v /\ rts <= _max_served_rts (w_mvcc w').
Proof.
  intros (w1 & [Hreq _] & Hrow & _ & Hs) Hinv -> Hlt rts v Hin.
  apply list_elem_of_omap in Hin as ([q q'] & Hz & Hq).
  apply list_elem_of_lookup in Hz as [i Hz].
  apply lookup_zip_Some in Hz as [Hi Hi']. simpl in *.
  destruct (rq_valid q && bool_decide (rq_type q = R_REQ) && negb (rq_valid q')) eqn:Hb;
    [|done]. b2p.
  rewrite <- Hreq in Hi. destruct (sv_req _ _ Hs i q Hi) as (q2 & Hi2 & Hc).
  simplify_eq. destruct Hc as [->|(_ & -> & _ & Hc)]; [congruence|].
  destruct Hc as [Hcur Hm]; [done|].
  unfold handed in Hq. rewrite Hcur, Hrow in Hq.
  destruct (latest_value (mi_his _ _ Hinv)) as (u & Hu & HuH). rewrite Hu in Hq.
  simplify_eq. split; [|done].
  eapply read_value_intro; [apply (mi_his _ _ Hinv)|done| |].
  - apply (Hlt i). split; [by rewrite <- Hreq|done].
  - intros x y Hin' _. apply (hist_le (mi_his _ _ Hinv)) in Hin'. lia.
Qed.

Lemma sys_inv_init s : mv_init s -> sys_inv s.
Proof.
  intros (row & v & ->). split; [|by intros ?? ?%not_elem_of_nil].
  assert (forall i e, slot (Row_mvcc_init row) i e -> e = new_slot) as Hsl.
  { intros i e Hi. unfold slot, Row_mvcc_init in Hi. simpl _write_history in Hi.
    by apply (lookup_replicate 4) in Hi as [-> _]. }
  constructor; simpl.
  - constructor; try done.
    + intros i j e e' p Hi%Hsl. by subst.
    + intros i e ->%Hsl. done.
    + intros i e p ->%Hsl. done.
    + exists v. simpl. rewrite lookup_singleton_eq. split; [done|by left].
    + intros i e ->%Hsl. done.
    + intros i j e e' ->%Hsl. done.
    + intros x u Hin Hx. apply list_elem_of_singleton in Hin. simplify_eq/=. lia.
    + by left.
    + repeat constructor.
    + simpl. constructor; [lia|done].
  - intros i e ->%Hsl. done.
  - intros i q [Hi Hv]. apply (lookup_replicate 4) in Hi as [-> _]. done.
  - intros i j q q' [Hi Hv]. apply (lookup_replicate 4) in Hi as [-> _]. done.
  - unfold _req_len. simpl. lia.
Qed.

Lemma sys_inv_step s s' : mv_step s s' -> sys_inv s -> sys_inv s'.
Proof using Hinj Hthr Hlim.
  intros Hstep [Hinv Hrd]. unfold reads_ok in *.
  destruct Hstep as [w H rd t row min_ts rc w' Hmay Hac|w H rd t row min_ts rc w' Hmay Hac
    |w H rd t row v Hh Hc|w H rd t row v min_ts rc w' Hh Hc Hv Hac
    |w H rd t row min_ts rc w' Hh Hc Hac]; simpl in *;
    try (unfold access in Hac; rewrite (debug_requests_ok _ _ Hinv) in Hac; simpl in Hac).
  - destruct (access_read_ok H w t Hinv Hmay) as (rc' & w2 & Hac' & Hinv' & Hlw & Hpost).
    rewrite Hac in Hac'. injection Hac' as <- <-. split; [done|]. intros rts v. simpl. rewrite elem_of_app.
    intros [Hin|Hin].
    + destruct (Hrd rts v Hin) as [? Hb]. split; [done|].
      destruct rc; simpl in Hpost; try done; [|naive_solver|].
      * destruct Hpost as (_ & ? & _). lia.
      * destruct Hpost as (_ & _ & _ & _ & ->). rewrite Hlw. done.
    + unfold read_now in Hin. destruct (bool_decide (rc = RCOK)) eqn:Hrc; b2p;
        [|by apply not_elem_of_nil in Hin]. subst rc.
      destruct Hpost as (_ & _ & Hb & p & u & Hcp & Hhp & Hval). unfold handed in Hin.
      simpl in Hin. rewrite Hcp, Hhp in Hin. apply list_elem_of_singleton in Hin.
      by simplify_eq.
  - destruct (access_prewrite_ok H w t min_ts Hinv Hmay)
      as (rc' & w2 & Hac' & Hinv' & Hlw & Hms & Hpost).
    rewrite Hac in Hac'. injection Hac' as <- <-. split; [done|]. intros rts v Hin. simpl. rewrite Hlw, Hms. by apply Hrd.
  - split; [|done]. pose proof Hinv as [Hok Hpre Hreq Hri Hl]. constructor; simpl; try done.
    destruct (pre_slot_holder _ _ _ Hinv Hh) as (p' & Hc' & [(e & He & Hev & Her) Hfb] & _).
    assert (p' = row) as -> by congruence. by eapply his_ok_write.
  - destruct (access_write_ok H w t min_ts row v Hinv Hh Hc Hv)
      as (w2 & Hac' & Hinv' & Hlr & Hlw & Hend).
    rewrite Hac in Hac'. injection Hac' as -> <-. split; [done|].
    assert (_max_served_rts (w_mvcc w) <= _max_served_rts (w_mvcc w')) as Hmx.
    { destruct Hend as (w1 & _ & _ & <- & Hs). apply (sv_max _ _ Hs). }
    intros rts u. simpl. rewrite elem_of_app. intros [Hin|Hin].
    + destruct (Hrd rts u Hin) as [<- Hb]. rewrite Hlw.
      destruct (pre_slot_holder _ _ _ Hinv Hh) as (_ & _ & _ & ? & ?).
      split; [|lia]. apply read_value_later. lia.
    + eapply woken_ok in Hin as [? ?]; [by split; [|left]|done..|].
      intros i q Hq. destruct (mi_req _ _ Hinv i q Hq) as (_ & Hlt & _).
      destruct Hh as [_ Hp]. lia.
  - destruct (access_abort_ok H w t min_ts row Hinv Hh Hc)
      as (w2 & Hac' & Hinv' & Hlr & Hlw & Hend).
    rewrite Hac in Hac'. injection Hac' as -> <-. split; [done|].
    assert (_max_served_rts (w_mvcc w) <= _max_served_rts (w_mvcc w')) as Hmx.
    { destruct Hend as (w1 & _ & _ & <- & Hs). apply (sv_max _ _ Hs). }
    destruct (pre_slot_holder _ _ _ Hinv Hh) as (_ & _ & _ & ? & ?).
    intros rts u. simpl. rewrite elem_of_app. intros [Hin|Hin].
    + destruct (Hrd rts u Hin) as [? Hb]. rewrite Hlw. split; [done|lia].
    + eapply woken_ok in Hin as [? ?]; [by split; [|left]|done..|].
      intros i q Hq. destruct (mi_req _ _ Hinv i q Hq) as (_ & Hlt & _).
      destruct Hh as [_ Hp]. lia.
Qed.

Lemma sys_reachable s s' : mv_init s -> rtc mv_step s s' -> sys_inv s'.
Proof using Hinj Hthr Hlim.
  intros Hi%sys_inv_init Hr. induction Hr; eauto using sys_inv_step.
Qed.

(** *** Who waits

    A transaction is told to wait exactly while it has a pending request. *)

Definition waits_pending w : Prop := forall t, w_ready w !! t = Some false ->
  exists i q, pending (w_mvcc w) i q /\ rq_txn q = t.

(** A request of [access] that changes no other request: it is answered, or it is buffered and waits. *)
Definition kept w w' : Prop :=
  (forall i q, pending (w_mvcc w) i q -> pending (w_mvcc w') i q) /\
  (w_ready w' = w_ready w \/
   exists t i q, w_ready w' = <[t := false]> (w_ready w) /\ pending (w_mvcc w') i q /\ rq_txn q = t).

Lemma kept_waits w w' : kept w w' -> waits_pending w -> waits_pending w'.
Proof.
  intros [Hp Hr] Hw t Ht. destruct Hr as [Hr|(t' & i & q & Hr & Hq & Hqt)]; rewrite Hr in Ht.
  - destruct (Hw t Ht) as (i & q & Hq & Hqt). eauto.
  - apply lookup_insert_Some in Ht as [[-> _]|[_ Ht]]; [by exists i, q|].
    destruct (Hw t Ht) as (j & q' & Hq' & Hqt'). eauto.
Qed.

Lemma kept_same w w' : _requests (w_mvcc w') = _requests (w_mvcc w) -> w_ready w' = w_ready w -> kept w w'.
Proof. intros Hq Hr. split; [|by left]. intros i q. unfold pending. by rewrite Hq. Qed.

Lemma kept_buffer H w t type m : mv_inv H w -> buffer_req get_ts type t (w_mvcc w) = Some m ->
  kept w (set_ready t false (set_mvcc m w)).
Proof.
  intros Hinv Hb. destruct (buffer_req_ok type t (w_mvcc w) (mi_len _ _ Hinv)) as (r & i & Hb' & _ & _ & Hp).
  rewrite Hb in Hb'. injection Hb' as ->. split; simpl.
  - intros j q Hj. apply Hp. by right.
  - right. exists t, i, (mkReqEntry true type (get_ts t) t). split; [done|]. split; [|done]. apply Hp. by left.
Qed.

Lemma access_read_kept H w t rc w' : mv_inv H w -> access_read get_ts t w = Some (rc, w') -> kept w w'.
Proof.
  intros Hinv Hac. unfold access_read in Hac.
  destruct (get_ts t <? _oldest_wts (w_mvcc w)); [injection Hac as _ <-; by apply kept_same|].
  destruct (_latest_wts (w_mvcc w) <? get_ts t).
  - destruct (_exists_prewrite (w_mvcc w) && _).
    + destruct (buffer_req _ _ _ _) as [m|] eqn:Hb; [|done]. injection Hac as _ <-. by eapply kept_buffer.
    + injection Hac as _ <-. destruct (_ <? _); by apply kept_same.
  - cbv zeta in Hac. destruct (_ =? _)%nat; [injection Hac as _ <-; by apply kept_same|].
    destruct (_write_history (w_mvcc w) !! _) as [[? ? ? [r|]]|]; [|done..]. injection Hac as _ <-. by apply kept_same.
Qed.

Lemma access_prewrite_kept H w t min_ts rc w' : mv_inv H w ->
  access_prewrite garbage g_thread_cnt get_ts min_ts t w = Some (rc, w') -> kept w w'.
Proof using Hinj Hthr.
  intros Hinv Hac. pose proof Hinv as [Hok Hpre _ _ _]. unfold access_prewrite in Hac.
  destruct (_ || _ || _); [injection Hac as _ <-; by apply kept_same|].
  destruct (_exists_prewrite (w_mvcc w)) eqn:Hex.
  - destruct (buffer_req _ _ _ _) as [m|] eqn:Hb; [|done]. injection Hac as _ <-. by eapply kept_buffer.
  - destruct (reserve_ok H w min_ts (get_ts t) Hok Hpre Hex)
      as (p & w1 & w2 & Hr & Hcopy & _ & _ & _ & _ & _ & _ & _ & _ & Hrq & _ & Hrd).
    rewrite Hr, Hcopy in Hac. injection Hac as _ <-. by apply kept_same.
Qed.

(** Serving: whoever is served is told so. *)
Lemma ended_pending w row w' i q : ended w row w' -> pending (w_mvcc w) i q ->
  pending (w_mvcc w') i q \/ w_ready w' !! rq_txn q = Some true.
Proof.
  intros (w1 & [Hreq _] & _ & _ & Hs) [Hi Hv]. rewrite <- Hreq in Hi.
  destruct (sv_req _ _ Hs i q Hi) as (q' & Hi' & [->|(_ & _ & Hr & _)]); [by left|by right].
Qed.

Lemma ended_waits w row w' : ended w row w' -> waits_pending w -> waits_pending w'.
Proof.
  intros He Hw t Ht. pose proof He as (w1 & [Hreq Hrd] & _ & _ & Hs).
  destruct (decide (Exists (fun q => rq_valid q = true /\ rq_txn q = t) (_requests (w_mvcc w)))) as [Hx|Hx].
  - apply Exists_exists in Hx as (q & Hq & Hv & <-). apply list_elem_of_lookup in Hq as [i Hi].
    destruct (ended_pending _ _ _ i q He (conj Hi Hv)) as [Hp|Hr]; [by exists i, q|congruence].
  - assert (forall j q, pending (w_mvcc w) j q -> rq_txn q <> t) as Hno.
    { intros j q [Hj Hv] Hqt. apply Hx, Exists_exists. exists q. split; [by eapply list_elem_of_lookup_2|done]. }
    destruct (sv_frame _ _ Hs t) as [_ Hr].
    { intros j q [Hj Hv]. rewrite Hreq in Hj. by apply (Hno j). }
    rewrite Hr, Hrd in Ht. destruct (Hw t Ht) as (i & q & Hq & Hqt). by destruct (Hno i q Hq).
Qed.

Definition world_step w w' : Prop := kept w w' \/ exists row, ended w row w'.

Lemma mv_step_world s s' : mv_step s s' -> sys_inv s -> world_step (ms_world s) (ms_world s').
Proof using Hinj Hthr Hlim.
  intros Hstep [Hinv _].
  destruct Hstep as [w H rd t row min_ts rc w' Hmay Hac|w H rd t row min_ts rc w' Hmay Hac
    |w H rd t row v Hh Hc|w H rd t row v min_ts rc w' Hh Hc Hv Hac
    |w H rd t row min_ts rc w' Hh Hc Hac]; simpl in *;
    try (unfold access in Hac; rewrite (debug_requests_ok _ _ Hinv) in Hac; simpl in Hac).
  - left. by eapply access_read_kept.
  - left. by eapply access_prewrite_kept.
  - left. by apply kept_same.
  - right. destruct (access_write_ok H w t min_ts row v Hinv Hh Hc Hv) as (w2 & Hac' & _ & _ & _ & Hend).
    rewrite Hac in Hac'. injection Hac' as _ <-. eauto.
  - right. destruct (access_abort_ok H w t min_ts row Hinv Hh Hc) as (w2 & Hac' & _ & _ & _ & Hend).
    rewrite Hac in Hac'. injection Hac' as _ <-. eauto.
Qed.

Lemma world_step_pending w w' i q : world_step w w' -> pending (w_mvcc w) i q ->
  pending (w_mvcc w') i q \/ w_ready w' !! rq_txn q = Some true.
Proof. intros [[Hk _]|[row He]] Hq; [left; by apply Hk|by eapply ended_pending]. Qed.

Lemma waits_reachable s s' : mv_init s -> rtc mv_step s s' -> waits_pending (ms_world s').
Proof using Hinj Hthr Hlim.
  intros Hi Hr. assert (waits_pending (ms_world s)) as Hw by (destruct Hi as (row & v & ->); intros t Ht; done).
  apply sys_inv_init in Hi. revert Hi Hw. induction Hr as [|s1 s2 s3 Hs _ IH]; intros Hi Hw; [done|].
  apply IH; [by eapply sys_inv_step|].
  destruct (mv_step_world _ _ Hs Hi) as [Hk|[row He]]; [by eapply kept_waits|by eapply ended_waits].
Qed.

(** ** Properties *)

(** C6. One-copy serializability of a row in timestamp order: every read that
    was ever served was given the contents of the last version committed before
    its timestamp, in the whole history, including the versions committed after
    the read; and versions are committed in timestamp order. *)
Theorem mvcc_reads_serializable s s' rts v :
  mv_init s -> rtc mv_step s s' -> (rts, v) ∈ ms_reads s' ->
  read_value (ms_hist s') rts = Some v /\ StronglySorted Z.lt (ms_hist s').*1.
Proof using Hinj Hthr Hlim.
  intros Hi Hr Hin. destruct (sys_reachable _ _ Hi Hr) as [Hinv Hrd].
  split; [by apply Hrd|]. apply (mi_his _ _ Hinv).
Qed.

(** C30. In every reachable state every request that a transaction may make
    returns: no assertion of [access], [reserveRow] or [update_buffer] fails,
    the [DEBUG_CC] ones included. A read is served with the last version before
    it, waits for an older reservation, or aborts when its version is
    recycled; a prewrite is granted a row with the contents of the latest
    version, waits for an older reservation or aborts when it comes too late;
    a commit and a rollback succeed. *)
Theorem mvcc_access_correct s s' t min_ts row :
  mv_init s -> rtc mv_step s s' ->
  let w := ms_world s' in
  let H := ms_hist s' in
  let ac := access garbage g_thread_cnt get_ts min_ts t in
  (may_request H w t ->
     (exists rc w', ac R_REQ row w = Some (rc, w') /\ read_post H w t rc w') /\
     (exists rc w', ac P_REQ row w = Some (rc, w') /\ prewrite_post H w t rc w')) /\
  (holds_prewrite w t -> w_cur w !! t = Some row ->
     (exists w', ac W_REQ row w = Some (RCOK, w') /\
        _latest_row (w_mvcc w') = row /\ _latest_wts (w_mvcc w') = get_ts t) /\
     (exists w', ac XP_REQ row w = Some (RCOK, w') /\
        _latest_row (w_mvcc w') = _latest_row (w_mvcc w) /\
        _latest_wts (w_mvcc w') = _latest_wts (w_mvcc w))).
Proof using Hinj Hthr Hlim.
  intros Hi Hr. destruct (sys_reachable _ _ Hi Hr) as [Hinv _]. cbv zeta. unfold access.
  rewrite (debug_requests_ok _ _ Hinv). simpl. split.
  - intros Hmay. split.
    + destruct (access_read_ok _ _ _ Hinv Hmay) as (rc & w' & ? & _ & _ & ?). eauto.
    + destruct (access_prewrite_ok _ _ _ min_ts Hinv Hmay) as (rc & w' & ? & _ & _ & _ & ?).
      eauto.
  - intros Hh Hc. destruct (pre_slot_holder _ _ _ Hinv Hh) as (p & Hc' & [(e & He & _ & Her) _] & _).
    assert (p = row) as -> by congruence.
    destruct (ho_live _ _ _ (mi_his _ _ Hinv) _ _ _ He Her) as [v Hv].
    destruct (access_write_ok _ _ _ min_ts _ _ Hinv Hh Hc Hv) as (w1 & ? & _ & ? & ? & _).
    destruct (access_abort_ok _ _ _ min_ts _ Hinv Hh Hc) as (w2 & ? & _ & ? & ? & _). eauto 10.
Qed.

(** C31. No request waits in vain.  In every reachable state (1) a pending request
    waits for a reservation of an older transaction, so that waiting is free of
    deadlocks; (2) the transactions whose [ts_ready] is false are exactly those with
    a pending request: whoever is told to wait is in the buffer and will be looked
    at by the next commit or rollback; (3) a step that takes a request off the buffer
    sets the [ts_ready] of its transaction; (4) without a reservation nobody waits. *)
Theorem mvcc_no_lost_wakeup s s' :
  mv_init s -> rtc mv_step s s' ->
  (forall i q, pending (w_mvcc (ms_world s')) i q ->
     exists t, holds_prewrite (ms_world s') t /\ get_ts t < get_ts (rq_txn q)) /\
  (forall t, w_ready (ms_world s') !! t = Some false <->
     exists i q, pending (w_mvcc (ms_world s')) i q /\ rq_txn q = t) /\
  (forall s2 i q, mv_step s' s2 -> pending (w_mvcc (ms_world s')) i q ->
     pending (w_mvcc (ms_world s2)) i q \/ w_ready (ms_world s2) !! rq_txn q = Some true) /\
  ((forall t, ~ holds_prewrite (ms_world s') t) -> forall t, w_ready (ms_world s') !! t <> Some false).
Proof using Hinj Hthr Hlim.
  intros Hi Hr. pose proof (waits_reachable _ _ Hi Hr) as Hw. pose proof (sys_reachable _ _ Hi Hr) as Hsys.
  pose proof Hsys as [[Hok Hpre Hreq _ _] _].
  assert (forall i q, pending (w_mvcc (ms_world s')) i q ->
     exists t, holds_prewrite (ms_world s') t /\ get_ts t < get_ts (rq_txn q)) as Hold.
  { intros i q Hq. destruct (Hreq i q Hq) as (Hex & Hlt & Hqt & _).
    rewrite Hex in Hpre. destruct Hpre as (t & p & Ht & _). exists t. split; [by split|lia]. }
  split_and!.
  - exact Hold.
  - intros t. split; [apply Hw|]. intros (i & q & Hq & <-). by destruct (Hreq i q Hq) as (_ & _ & _ & _ & ?).
  - intros s2 i q Hs Hq. eapply world_step_pending; [by apply mv_step_world|done].
  - intros Hno t Ht. destruct (Hw t Ht) as (i & q & Hq & _). destruct (Hold i q Hq) as (t' & Ht' & _). by apply (Hno t').
Qed.
End requests.

(** ** Executions

    Steps as an interpreter, to run the system on concrete inputs. *)

Inductive mv_op (V : Type) :=
| ORead (t : nat)
| OPrewrite (t : nat)
| OModify (t : nat) (v : V)
| OWrite (t : nat)
| OAbort (t : nat).
Arguments ORead {V} t.
Arguments OPrewrite {V} t.
Arguments OModify {V} t v.
Arguments OWrite {V} t.
Arguments OAbort {V} t.

Section run.
Context {V : Type} (garbage : V) (g_thread_cnt : nat) (get_ts : nat -> Z) (min_ts ts_limit : Z).

Definition holdsb (w : @world V) (t : nat) : bool :=
  _exists_prewrite (w_mvcc w) && (_prewrite_ts (w_mvcc w) =? get_ts t).

Definition mayb (H : list (Z * V)) (w : world) (t : nat) : bool :=
  forallb (fun q => negb (rq_valid q) || negb (rq_txn q =? t)%nat)
    (_requests (w_mvcc w)) &&
  forallb (fun x => negb (x.1 =? get_ts t)) H && negb (holdsb w t) &&
  (get_ts t <? ts_limit).

Definition run_op (o : mv_op V) (s : mv_sys) : option mv_sys :=
  let w := ms_world s in
  let H := ms_hist s in
  let ac := access garbage g_thread_cnt get_ts min_ts in
  match o with
  | ORead t =>
      if mayb H w t then
        match ac t R_REQ 0%nat w with
        | Some (rc, w') => Some (mkMvSys w' H (ms_reads s ++ read_now get_ts rc w' t))
        | None => None
        end
      else None
  | OPrewrite t =>
      if mayb H w t then
        match ac t P_REQ 0%nat w with
        | Some (rc, w') => Some (mkMvSys w' H (ms_reads s))
        | None => None
        end
      else None
  | OModify t v =>
      if holdsb w t then
        match w_cur w !! t with
        | Some row => Some (mkMvSys (set_heap (<[row := v]> (w_heap w)) w) H (ms_reads s))
        | None => None
        end
      else None
  | OWrite t =>
      if holdsb w t then
        match w_cur w !! t with
        | Some row =>
            match w_heap w !! row, ac t W_REQ row w with
            | Some v, Some (rc, w') =>
                Some (mkMvSys w' (H ++ [(get_ts t, v)]) (ms_reads s ++ woken w w'))
            | _, _ => None
            end
        | None => None
        end
      else None
  | OAbort t =>
      if holdsb w t then
        match w_cur w !! t with
        | Some row =>
            match ac t XP_REQ row w with
            | Some (rc, w') => Some (mkMvSys w' H (ms_reads s ++ woken w w'))
            | None => None
            end
        | None => None
        end
      else None
  end.

Fixpoint run (os : list (mv_op V)) (s : mv_sys) : option mv_sys :=
  match os with
  | [] => Some s
  | o :: os => match run_op o s with Some s => run os s | None => None end
  end.

Lemma holdsb_ok w t : holdsb w t = true -> holds_prewrite get_ts w t.
Proof. unfold holdsb. intros ?. b2p. by split. Qed.

Lemma mayb_ok H w t : mayb H w t = true -> may_request get_ts ts_limit H w t.
Proof.
  unfold mayb. intros [[[Hr Hh]%andb_prop Hn]%andb_prop Hl]%andb_prop.
  rewrite forallb_forall in Hr, Hh. split_and!.
  - intros i q [Hi Hv] <-. apply list_elem_of_lookup_2, list_elem_of_In, Hr in Hi.
    rewrite Hv, Nat.eqb_refl in Hi. done.
  - intros Hin. apply list_elem_of_fmap in Hin as ([x v] & Hx & Hin).
    apply list_elem_of_In, Hh in Hin. simpl in *. lia.
  - intros [Hex Hp]. unfold holdsb in Hn. rewrite Hex, Hp, Z.eqb_refl in Hn. done.
  - lia.
Qed.

Lemma run_op_step o s s' : run_op o s = Some s' ->
  mv_step garbage g_thread_cnt get_ts ts_limit s s'.
Proof.
  destruct s as [w H rd], o as [t|t|t v|t|t]; simpl.
  - destruct (mayb H w t) eqn:Hm; [|done].
    destruct (access _ _ _ _ _ _ _ _) as [[rc w']|] eqn:Ha; [|done]. intros [= <-].
    eapply mv_read; [by apply mayb_ok|done].
  - destruct (mayb H w t) eqn:Hm; [|done].
    destruct (access _ _ _ _ _ _ _ _) as [[rc w']|] eqn:Ha; [|done]. intros [= <-].
    eapply mv_prewrite; [by apply mayb_ok|done].
  - destruct (holdsb w t) eqn:Hh; [|done].
    destruct (w_cur w !! t) as [row|] eqn:Hc; [|done]. intros [= <-].
    eapply mv_modify; [by apply holdsb_ok|done].
  - destruct (holdsb w t) eqn:Hh; [|done].
    destruct (w_cur w !! t) as [row|] eqn:Hc; [|done].
    destruct (w_heap w !! row) as [v|] eqn:Hv; [|done].
    destruct (access _ _ _ _ _ _ _ _) as [[rc w']|] eqn:Ha; [|done]. intros [= <-].
    eapply mv_write; [by apply holdsb_ok|done..].
  - destruct (holdsb w t) eqn:Hh; [|done].
    destruct (w_cur w !! t) as [row|] eqn:Hc; [|done].
    destruct (access _ _ _ _ _ _ _ _) as [[rc w']|] eqn:Ha; [|done]. intros [= <-].
    eapply mv_abort; [by apply holdsb_ok|done..].
Qed.

Lemma run_steps os s s' : run os s = Some s' ->
  rtc (mv_step garbage g_thread_cnt get_ts ts_limit) s s'.
Proof.
  revert s. induction os as [|o os IH]; intros s; simpl; [by intros [= ->]|].
  destruct (run_op o s) as [s1|] eqn:Ho; [|done]. intros Hr.
  eapply rtc_l; [by eapply run_op_step|by apply IH].
Qed.
End run.

(** *** Two behaviours past the reads' invariant

    The row a reader was given is a version in place, and a version that is
    recycled is overwritten in place. *)

Module MvccRun.
Definition sys0 : @mv_sys Z :=
  mkMvSys (mkWorld (Row_mvcc_init 0) {[ 0%nat := 7 ]} ∅ ∅) [(0, 7)] [].
Definition write (t : nat) (v : Z) : list (mv_op Z) :=
  [OPrewrite t; OModify t v; OWrite t].

Lemma mv_sys0_init : mv_init sys0.
Proof. by exists 0%nat, 7. Qed.

(** Transaction [t] has timestamp [t + 1]. *)
Definition ts1 (t : nat) : Z := Z.of_nat t + 1.
Lemma ts1_inj t t' : ts1 t = ts1 t' -> t = t'.
Proof. unfold ts1. lia. Qed.

(** Reader 0 is served, writers 1 to 4 fill the four slots, and writer 5 takes
    the row the reader still holds; the minimum active timestamp is the
    reader's. *)
Definition recycle_ops : list (mv_op Z) :=
  [ORead 0] ++ write 1 11 ++ write 2 12 ++ write 3 13 ++ write 4 14 ++
  [OPrewrite 5; OModify 5 15].

(** A reader, a prewriter and a second reader that has to wait for it. *)
Definition wait_ops : list (mv_op Z) := [ORead 0; OPrewrite 1; ORead 2].

(** Timestamps past 2^32: 2^32 + t + 1. *)
Definition ts2 (t : nat) : Z := 2 ^ 32 + Z.of_nat t + 1.
Definition stale_ops : list (mv_op Z) :=
  write 0 10 ++ write 1 11 ++ write 2 12 ++ write 4 14 ++ [ORead 3].
End MvccRun.

(** A slot that is recycled because the version array is full is given away
    while a reader may still hold its row: there is an execution in which a
    transaction that is still active was served a row and the contents of that
    very row are then overwritten by the uncommitted write of a younger one,
    with the minimum active timestamp at the reader's. *)
Theorem mvcc_recycle_overwrites_reader :
  exists s row v v',
    rtc (mv_step 0 2 MvccRun.ts1 (2 ^ 32)) MvccRun.sys0 s /\
    ms_reads s = [(MvccRun.ts1 0, v)] /\
    w_cur (ms_world s) !! 0%nat = Some row /\
    w_heap (ms_world s) !! row = Some v' /\ v' <> v /\
    (forall w, (w, v') ∉ ms_hist s).
Proof.
  destruct (run 0 2 MvccRun.ts1 1 (2 ^ 32) MvccRun.recycle_ops MvccRun.sys0) as [s|] eqn:Hr;
    [|exfalso; revert Hr; vm_compute; discriminate].
  exists s, 0%nat, 7, 15. split; [by eapply run_steps|].
  revert Hr. vm_compute. intros [= <-]. simpl.
  split; [done|]. split; [done|]. split; [done|]. split; [done|].
  intros w Hw. repeat (apply elem_of_cons in Hw as [Hw|Hw]; [by simplify_eq|]).
  by apply not_elem_of_nil in Hw.
Qed.

(** The search of a read keeps its running maximum in a [uint32_t], so past
    timestamp 2^32 a read can be served with a version that is older than the
    last one before it. *)
Theorem mvcc_stale_read_past_32_bits :
  exists s rts v,
    rtc (mv_step 0 2 MvccRun.ts2 (2 ^ 33)) MvccRun.sys0 s /\ (rts, v) ∈ ms_reads s /\
    read_value (ms_hist s) rts <> Some v.
Proof.
  destruct (run 0 2 MvccRun.ts2 1 (2 ^ 33) MvccRun.stale_ops MvccRun.sys0) as [s|] eqn:Hr;
    [|exfalso; revert Hr; vm_compute; discriminate].
  exists s, (MvccRun.ts2 3), 10. split; [by eapply run_steps|].
  revert Hr. vm_compute. intros [= <-]. simpl. split; [by left|discriminate].
Qed.

Lemma mvcc_reads_serializable_witness :
  exists s : @mv_sys Z, ms_reads s = [(1, 7); (3, 11)] /\ read_value (ms_hist s) 3 = Some 11 /\
    StronglySorted Z.lt (ms_hist s).*1.
Proof.
  destruct (run 0 2 MvccRun.ts1 1 (2 ^ 32)
    (MvccRun.wait_ops ++ [OModify 1 11; OWrite 1]) MvccRun.sys0) as [s|] eqn:Hr;
    [|exfalso; revert Hr; vm_compute; discriminate].
  exists s. split.
  { revert Hr. vm_compute. intros [= <-]. reflexivity. }
  apply (mvcc_reads_serializable 0 2 MvccRun.ts1 ltac:(lia) MvccRun.ts1_inj (2 ^ 32)
           ltac:(lia) MvccRun.sys0 s).
  - apply MvccRun.mv_sys0_init.
  - exact (run_steps _ _ _ _ _ _ _ _ Hr).
  - revert Hr. vm_compute. intros [= <-]. simpl. right. left.
Defined.

Lemma mvcc_access_correct_witness :
  exists w', access 0 2 MvccRun.ts1 1 0 P_REQ 0 (ms_world MvccRun.sys0) = Some (RCOK, w') /\
    holds_prewrite MvccRun.ts1 w' 0.
Proof.
  destruct (proj1 (mvcc_access_correct 0 2 MvccRun.ts1 ltac:(lia) MvccRun.ts1_inj (2 ^ 32)
    ltac:(lia) MvccRun.sys0 MvccRun.sys0 0%nat 1 0%nat MvccRun.mv_sys0_init (rtc_refl _ _)))
    as [_ (rc & w' & Hac & Hpost)].
  - apply (mayb_ok MvccRun.ts1 (2 ^ 32)). vm_compute. reflexivity.
  - assert (rc = RCOK) as ->.
    { apply (f_equal (option_map fst)) in Hac. vm_compute in Hac. by injection Hac. }
    exists w'. split; [exact Hac|]. apply Hpost.
Defined.

Lemma mvcc_no_lost_wakeup_witness :
  exists s : @mv_sys Z, w_ready (ms_world s) !! 2%nat = Some false /\
    exists t, holds_prewrite MvccRun.ts1 (ms_world s) t /\ MvccRun.ts1 t < MvccRun.ts1 2.
Proof.
  destruct (run 0 2 MvccRun.ts1 1 (2 ^ 32) MvccRun.wait_ops MvccRun.sys0) as [s|] eqn:Hr;
    [|exfalso; revert Hr; vm_compute; discriminate].
  exists s.
  destruct (mvcc_no_lost_wakeup 0 2 MvccRun.ts1 ltac:(lia) MvccRun.ts1_inj (2 ^ 32)
           ltac:(lia) MvccRun.sys0 s) as (Hold & Hw & _).
  - apply MvccRun.mv_sys0_init.
  - exact (run_steps _ _ _ _ _ _ _ _ Hr).
  - assert (pending (w_mvcc (ms_world s)) 0 (mkReqEntry true R_REQ 3 2)) as Hp
      by (revert Hr; clear; vm_compute; intros [= <-]; split; reflexivity).
    split; [|exact (Hold 0%nat _ Hp)]. apply Hw. exists 0%nat, (mkReqEntry true R_REQ 3 2). split; [exact Hp|reflexivity].
Defined.
