(* ===== verification/RowTs.v ===== *)
(** * Basic timestamp ordering

    [Row_ts] of src/concurrency_control/row_ts.cpp: the reads, writes and
    prewrites of one row, under its latch.  A linked list of requests is a list
    from its head; the completion of a buffered read and the writing of the row
    are events, in the order in which the code performs them. *)

From S2P Require Import Prelude Global.

Section row_ts.
Context {V : Type} (get_ts : nat -> Z) (TS_TWR : bool).

Record TsReqEntry := mkTsReq {
  rq_txn : nat;
  rq_row : option V;
  rq_ts : Z }.

Record Row_ts := mkRow_ts {
  rts_row : V;
  rts_wts : Z;
  rts_rts : Z;
  min_wts : Z;
  min_rts : Z;
  min_pts : Z;
  readreq : list TsReqEntry;
  writereq : list TsReqEntry;
  prereq : list TsReqEntry;
  preq_len : Z }.

Definition Row_ts_init (v : V) : Row_ts :=
  mkRow_ts v 0 0 UINT64_MAX UINT64_MAX UINT64_MAX [] [] [] 0.

(** The copy of the row to a reader, and the copy of a write to the row. *)
Inductive event :=
| EvRead (txn : nat) (ts : Z) (v : V)
| EvWrite (txn : nat) (ts : Z) (v : V).

Definition queue (type : TsType) (s : Row_ts) : list TsReqEntry :=
  match type with
  | R_REQ => readreq s
  | P_REQ => prereq s
  | _ => writereq s
  end.

Definition set_queue (type : TsType) (q : list TsReqEntry) (s : Row_ts) : Row_ts :=
  match type with
  | R_REQ => mkRow_ts (rts_row s) (rts_wts s) (rts_rts s) (min_wts s) (min_rts s) (min_pts s)
               q (writereq s) (prereq s) (preq_len s)
  | P_REQ => mkRow_ts (rts_row s) (rts_wts s) (rts_rts s) (min_wts s) (min_rts s) (min_pts s)
               (readreq s) (writereq s) q (preq_len s)
  | _ => mkRow_ts (rts_row s) (rts_wts s) (rts_rts s) (min_wts s) (min_rts s) (min_pts s)
               (readreq s) q (prereq s) (preq_len s)
  end.

Definition set_mins (w r p : Z) (s : Row_ts) : Row_ts :=
  mkRow_ts (rts_row s) (rts_wts s) (rts_rts s) w r p
    (readreq s) (writereq s) (prereq s) (preq_len s).

Definition set_preq_len (n : Z) (s : Row_ts) : Row_ts :=
  mkRow_ts (rts_row s) (rts_wts s) (rts_rts s) (min_wts s) (min_rts s) (min_pts s)
    (readreq s) (writereq s) (prereq s) n.

Definition set_rts (ts : Z) (s : Row_ts) : Row_ts :=
  mkRow_ts (rts_row s) (rts_wts s) ts (min_wts s) (min_rts s) (min_pts s)
    (readreq s) (writereq s) (prereq s) (preq_len s).

(** [_row->copy(row)] and the advance of [wts]. *)
Definition perform_write (v : V) (ts : Z) (s : Row_ts) : Row_ts :=
  mkRow_ts v (if rts_wts s <? ts then ts else rts_wts s) (rts_rts s)
    (min_wts s) (min_rts s) (min_pts s) (readreq s) (writereq s) (prereq s) (preq_len s).

Definition buffer_req (type : TsType) (txn : nat) (row : option V) (s : Row_ts) : option Row_ts :=
  let ts := get_ts txn in
  let req_entry := mkTsReq txn row ts in
  match type with
  | R_REQ =>
      Some (set_mins (min_wts s) (if ts <? min_rts s then ts else min_rts s) (min_pts s)
              (set_queue R_REQ (req_entry :: readreq s) s))
  | W_REQ =>
      assert! bool_decide (row <> None);;
      Some (set_mins (if ts <? min_wts s then ts else min_wts s) (min_rts s) (min_pts s)
              (set_queue W_REQ (req_entry :: writereq s) s))
  | P_REQ =>
      Some (set_mins (min_wts s) (min_rts s) (if ts <? min_pts s then ts else min_pts s)
              (set_queue P_REQ (req_entry :: prereq s) (set_preq_len (u64 (preq_len s + 1)) s)))
  | XP_REQ => Some s
  end.

(** [debuffer_req(type, txn)]: the first entry of [txn]. *)
Fixpoint remove_txn (txn : nat) (q : list TsReqEntry) : option (TsReqEntry * list TsReqEntry) :=
  match q with
  | [] => None
  | req :: q' =>
      if (rq_txn req =? txn)%nat then Some (req, q')
      else do! p <- remove_txn txn q';; Some (p.1, req :: p.2)
  end.

Definition debuffer_txn (type : TsType) (txn : nat) (s : Row_ts) : option (TsReqEntry * Row_ts) :=
  do! p <- remove_txn txn (queue type s);;
  Some (p.1, set_preq_len (u64 (preq_len s - 1)) (set_queue type p.2 s)).

(** [debuffer_req(type, ts)]: the entries up to [ts], the last one first. *)
Fixpoint split_ts (ts : Z) (q return_queue : list TsReqEntry) : list TsReqEntry * list TsReqEntry :=
  match q with
  | [] => (return_queue, [])
  | req :: q' =>
      if rq_ts req <=? ts then split_ts ts q' (req :: return_queue)
      else let '(ret, rest) := split_ts ts q' return_queue in (ret, req :: rest)
  end.

Definition debuffer_ts (type : TsType) (ts : Z) (s : Row_ts) : list TsReqEntry * Row_ts :=
  let '(ret, rest) := split_ts ts (queue type s) [] in (ret, set_queue type rest s).

Definition min_ts_of (q : list TsReqEntry) : Z :=
  fold_left (fun m req => if rq_ts req <? m then rq_ts req else m) q UINT64_MAX.

Definition cal_min (type : TsType) (s : Row_ts) : Z := min_ts_of (queue type s).

(** The loop over [ready_read]. *)
Fixpoint serve_reads (reqs : list TsReqEntry) (s : Row_ts) : list event * Row_ts :=
  match reqs with
  | [] => ([], s)
  | req :: reqs =>
      let s := if rts_rts s <? rq_ts req then set_rts (rq_ts req) s else s in
      let '(evs, s') := serve_reads reqs s in
      (EvRead (rq_txn req) (rq_ts req) (rts_row s) :: evs, s')
  end.

(** The loop over [ready_write]: the prewrites are dropped, and the request with
    the smallest timestamp is kept as [young_req]. *)
Fixpoint drop_prewrites (reqs : list TsReqEntry) (young_ts : Z) (young_req : option TsReqEntry)
    (s : Row_ts) : option (option TsReqEntry * Row_ts) :=
  match reqs with
  | [] => Some (young_req, s)
  | req :: reqs =>
      do! p <- debuffer_txn P_REQ (rq_txn req) s;;
      if rq_ts req <? young_ts then drop_prewrites reqs (rq_ts req) (Some req) p.2
      else drop_prewrites reqs young_ts young_req p.2
  end.

(** One turn of [update_buffer]: [None] is a failed assertion, the boolean says
    whether the loop goes on. *)
Definition update_turn (s : Row_ts) : option (bool * list event * Row_ts) :=
  let new_min_pts := cal_min P_REQ s in
  assert! min_pts s <=? new_min_pts;;
  if min_pts s <? new_min_pts then
    let s := set_mins (min_wts s) (min_rts s) new_min_pts s in
    let '(ready_read, s) := debuffer_ts R_REQ (min_pts s) s in
    match ready_read with
    | [] => Some (false, [], s)
    | _ =>
        let '(evs, s) := serve_reads ready_read s in
        let new_min_rts := cal_min R_REQ s in
        if min_rts s <? new_min_rts then
          let s := set_mins (min_wts s) new_min_rts (min_pts s) s in
          let '(ready_write, s) := debuffer_ts W_REQ (min_rts s) s in
          match ready_write with
          | [] => Some (false, evs, s)
          | _ =>
              do! p <- drop_prewrites ready_write UINT64_MAX None s;;
              match p.1 with
              | Some (mkTsReq txn (Some v) ts) =>
                  Some (true, evs ++ [EvWrite txn ts v], perform_write v ts p.2)
              | _ => None
              end
          end
        else Some (false, evs, s)
    end
  else Some (false, [], s).

Fixpoint update_buffer (fuel : nat) (s : Row_ts) : option (list event * Row_ts) :=
  match fuel with
  | O => None
  | S fuel =>
      do! q <- update_turn s;;
      let '(again, evs, s) := q in
      if again then do! r <- update_buffer fuel s;; Some (evs ++ r.1, r.2) else Some (evs, s)
  end.

(** Every turn but the last serves a read. *)
Definition update_fuel (s : Row_ts) : nat := S (length (readreq s)).

(** Dropping the prewrite of [txn] and what it makes possible. *)
Definition finish_prewrite (txn : nat) (s : Row_ts) : option (list event * Row_ts) :=
  do! p <- debuffer_txn P_REQ txn s;; update_buffer (update_fuel p.2) p.2.

Definition access (txn : nat) (type : TsType) (row : option V) (s : Row_ts)
    : option (RC * list event * Row_ts) :=
  let ts := get_ts txn in
  match type with
  | R_REQ =>
      if ts <? rts_wts s then Some (Abort, [], s)
      else if min_pts s <? ts then do! s' <- buffer_req R_REQ txn None s;; Some (WAIT, [], s')
      else Some (RCOK, [EvRead txn ts (rts_row s)], if rts_rts s <? ts then set_rts ts s else s)
  | P_REQ =>
      if ts <? rts_rts s then Some (Abort, [], s)
      else if negb TS_TWR && (ts <? rts_wts s) then Some (Abort, [], s)
      else do! s' <- buffer_req P_REQ txn None s;; Some (RCOK, [], s')
  | W_REQ =>
      if TS_TWR && (ts <? rts_wts s) then
        do! p <- finish_prewrite txn s;; Some (RCOK, p.1, p.2)
      else if negb TS_TWR && (min_pts s <? ts) then
        do! s' <- buffer_req W_REQ txn row s;; Some (RCOK, [], s')
      else if min_rts s <? ts then
        do! s' <- buffer_req W_REQ txn row s;; Some (RCOK, [], s')
      else
        do! v <- row;;
        do! p <- finish_prewrite txn (perform_write v ts s);;
        Some (RCOK, EvWrite txn ts v :: p.1, p.2)
  | XP_REQ => do! p <- finish_prewrite txn s;; Some (RCOK, p.1, p.2)
  end.

(** A sequence of calls, with the return codes and the events. *)
Fixpoint accesses (s : Row_ts) (l : list (nat * TsType * option V))
    : option (list RC * list event * Row_ts) :=
  match l with
  | [] => Some ([], [], s)
  | (txn, type, row) :: l =>
      do! p <- access txn type row s;;
      do! q <- accesses p.2 l;;
      Some (p.1.1 :: q.1.1, p.1.2 ++ q.1.2, q.2)
  end.
End row_ts.

(** ** Queues *)

Section queues.
Context {V : Type}.
Implicit Types (q : list (@TsReqEntry V)) (r : @TsReqEntry V).

Lemma fold_min_le x q m :
  x <= fold_left (fun m r => if rq_ts r <? m then rq_ts r else m) q m <->
  x <= m /\ Forall (fun r => x <= rq_ts r) q.
Proof.
  revert m. induction q as [|r q IH]; intros m; simpl; [split; [by split|tauto]|].
  rewrite IH, Forall_cons. case_match; b2p; intuition lia.
Qed.

Lemma min_ts_le x q :
  x <= min_ts_of q <-> x <= UINT64_MAX /\ Forall (fun r => x <= rq_ts r) q.
Proof. apply fold_min_le. Qed.

Lemma min_ts_lb q r : r ∈ q -> min_ts_of q <= rq_ts r.
Proof.
  intros Hr. destruct (proj1 (min_ts_le (min_ts_of q) q) ltac:(lia)) as [_ HF].
  rewrite Forall_forall in HF. auto.
Qed.

Lemma min_ts_cons r q :
  min_ts_of (r :: q) = if rq_ts r <? min_ts_of q then rq_ts r else min_ts_of q.
Proof.
  assert (forall x, x <= min_ts_of (r :: q) <-> x <= rq_ts r /\ x <= min_ts_of q) as H.
  { intros x. rewrite !min_ts_le, Forall_cons. tauto. }
  pose proof (H (min_ts_of (r :: q))). pose proof (H (rq_ts r)). pose proof (H (min_ts_of q)).
  case_match; b2p; lia.
Qed.

Lemma min_ts_incl q q' : (forall r, r ∈ q' -> r ∈ q) -> min_ts_of q <= min_ts_of q'.
Proof.
  intros Hq. apply min_ts_le. split.
  - apply (min_ts_le (min_ts_of q) q). lia.
  - apply Forall_forall. intros r Hr. by apply min_ts_lb, Hq.
Qed.

Lemma split_ts_eq ts q acc :
  split_ts ts q acc =
    (rev (List.filter (fun r => rq_ts r <=? ts) q) ++ acc,
     List.filter (fun r => negb (rq_ts r <=? ts)) q).
Proof.
  revert acc. induction q as [|r q IH]; intros acc; simpl; [done|].
  destruct (rq_ts r <=? ts); simpl; rewrite IH; [|done].
  by rewrite <- app_assoc.
Qed.

Lemma elem_of_lfilter {A} (f : A -> bool) l x : x ∈ List.filter f l <-> x ∈ l /\ f x = true.
Proof. rewrite !list_elem_of_In. apply filter_In. Qed.

Lemma split_ts_ready ts q r : r ∈ (split_ts ts q []).1 <-> r ∈ q /\ rq_ts r <= ts.
Proof.
  rewrite split_ts_eq. simpl.
  by rewrite app_nil_r, !list_elem_of_In, <- in_rev, filter_In, Z.leb_le.
Qed.

Lemma split_ts_rest ts q r : r ∈ (split_ts ts q []).2 <-> r ∈ q /\ ts < rq_ts r.
Proof.
  rewrite split_ts_eq. simpl. rewrite elem_of_lfilter, negb_true_iff. by rewrite Z.leb_gt.
Qed.

Lemma lfilter_perm {A} (f : A -> bool) l :
  l ≡ₚ List.filter f l ++ List.filter (fun x => negb (f x)) l.
Proof.
  induction l as [|x l IH]; simpl; [done|]. destruct (f x); simpl.
  - by constructor.
  - rewrite <- Permutation_middle. by constructor.
Qed.

Lemma split_ts_perm ts q : q ≡ₚ (split_ts ts q []).1 ++ (split_ts ts q []).2.
Proof.
  rewrite split_ts_eq. simpl. rewrite app_nil_r.
  rewrite <- (Permutation_rev (List.filter _ q)). apply lfilter_perm.
Qed.

Lemma remove_txn_Some txn q r q' :
  remove_txn txn q = Some (r, q') -> rq_txn r = txn /\ q ≡ₚ r :: q'.
Proof.
  revert r q'. induction q as [|x q IH]; intros r q'; simpl; [done|].
  destruct (Nat.eqb_spec (rq_txn x) txn) as [Hx|Hx]; [by intros [= <- <-]|].
  destruct (remove_txn txn q) as [[y l]|]; [|done]. simpl. intros [= <- <-].
  destruct (IH y l eq_refl) as [? HP]. split; [done|]. rewrite HP. constructor.
Qed.

Lemma remove_txn_is_Some txn q :
  txn ∈ map rq_txn q -> exists r q', remove_txn txn q = Some (r, q').
Proof.
  induction q as [|x q IH]; simpl; [by intros ?%not_elem_of_nil|].
  intros Hin. destruct (Nat.eqb_spec (rq_txn x) txn) as [Hx|Hx]; [eauto|].
  apply elem_of_cons in Hin as [?|Hin]; [congruence|].
  destruct (IH Hin) as (r & q' & ->). eauto.
Qed.
End queues.

(** ** Histories of the row

    [history v r w evs v' r' w']: from the value [v], a largest read timestamp
    [r] and a largest write timestamp [w], the events lead to [v'], [r'], [w'];
    a read returns the current value, no read is below an earlier write and no
    write below an earlier read. *)

Section histories.
Context {V : Type}.

Inductive history : V -> Z -> Z -> list (@event V) -> V -> Z -> Z -> Prop :=
| history_nil v r w : history v r w [] v r w
| history_read v r w txn ts evs v' r' w' :
    w <= ts -> history v (Z.max r ts) w evs v' r' w' ->
    history v r w (EvRead txn ts v :: evs) v' r' w'
| history_write v r w txn ts x evs v' r' w' :
    r <= ts -> history x r (Z.max w ts) evs v' r' w' ->
    history v r w (EvWrite txn ts x :: evs) v' r' w'.

Lemma history_app v1 r1 w1 e1 v2 r2 w2 e2 v3 r3 w3 :
  history v1 r1 w1 e1 v2 r2 w2 -> history v2 r2 w2 e2 v3 r3 w3 ->
  history v1 r1 w1 (e1 ++ e2) v3 r3 w3.
Proof. induction 1; intros Hh; simpl; [done| |]; constructor; auto. Qed.

Lemma history_mono v r w evs v' r' w' :
  history v r w evs v' r' w' -> r <= r' /\ w <= w'.
Proof. induction 1; lia. Qed.

(** The history of the states of a row. *)
Definition row_history (s : @Row_ts V) (evs : list event) (s' : @Row_ts V) : Prop :=
  history (rts_row s) (rts_rts s) (rts_wts s) evs (rts_row s') (rts_rts s') (rts_wts s').

Lemma row_history_app s1 e1 s2 e2 s3 :
  row_history s1 e1 s2 -> row_history s2 e2 s3 -> row_history s1 (e1 ++ e2) s3.
Proof. apply history_app. Qed.

Lemma row_history_nil s s' :
  rts_row s' = rts_row s -> rts_rts s' = rts_rts s -> rts_wts s' = rts_wts s ->
  row_history s [] s'.
Proof. unfold row_history. intros -> -> ->. constructor. Qed.

Lemma row_history_write (s : @Row_ts V) txn ts v :
  rts_rts s <= ts -> row_history s [EvWrite txn ts v] (perform_write v ts s).
Proof.
  intros Hle. constructor; [done|]. simpl.
  replace (if rts_wts s <? ts then ts else rts_wts s) with (Z.max (rts_wts s) ts)
    by (case_match; b2p; lia).
  constructor.
Qed.

(** The reads that become ready are served in one pass. *)
Lemma serve_reads_spec reqs (s : @Row_ts V) evs s' :
  serve_reads reqs s = (evs, s') ->
  (forall r, r ∈ reqs -> rts_wts s <= rq_ts r) ->
  row_history s evs s' /\ s' = set_rts (rts_rts s') s /\
  (forall b, rts_rts s <= b -> (forall r, r ∈ reqs -> rq_ts r <= b) -> rts_rts s' <= b).
Proof.
  revert s evs s'. induction reqs as [|r reqs IH]; intros s evs s'; simpl.
  - intros [= <- <-] _. split_and!; [by apply row_history_nil|by destruct s|auto].
  - set (s1 := if rts_rts s <? rq_ts r then set_rts (rq_ts r) s else s).
    assert (s1 = set_rts (Z.max (rts_rts s) (rq_ts r)) s) as Hs1.
    { unfold s1. case_match; b2p; [by rewrite Z.max_r by lia|].
      rewrite Z.max_l by lia. by destruct s. }
    clearbody s1. subst s1.
    destruct (serve_reads reqs _) as [evs' s2] eqn:Hrun. intros [= <- <-] Hw.
    destruct (IH _ _ _ Hrun) as (Hh & Hs2 & Hb).
    { intros r' Hr'. apply Hw. by right. }
    split_and!.
    + constructor; [apply Hw; by left|]. apply Hh.
    + rewrite Hs2. done.
    + intros b Hle Hall. apply Hb; simpl.
      * pose proof (Hall r ltac:(left)). lia.
      * intros r' Hr'. apply Hall. by right.
Qed.

(** Dropping the prewrites of a list of writes of distinct transactions. *)
Lemma drop_prewrites_spec reqs young_ts young_req (s : @Row_ts V) :
  NoDup (map rq_txn reqs) -> NoDup (map rq_txn (prereq s)) ->
  (forall r, r ∈ reqs -> rq_txn r ∈ map rq_txn (prereq s)) ->
  exists res P n,
    drop_prewrites reqs young_ts young_req s =
      Some (res, set_preq_len n (set_queue P_REQ P s)) /\
    NoDup (map rq_txn P) /\ (forall p, p ∈ P -> p ∈ prereq s) /\
    (forall t, t ∈ map rq_txn (prereq s) -> t ∉ map rq_txn reqs -> t ∈ map rq_txn P) /\
    (res = young_req \/ exists r, res = Some r /\ r ∈ reqs) /\
    ((exists r, r ∈ reqs /\ rq_ts r < young_ts) -> is_Some res).
Proof.
  revert young_ts young_req s. induction reqs as [|r reqs IH]; intros young_ts young_req s.
  - intros _ HP _. exists young_req, (prereq s), (preq_len s). simpl.
    split_and!; [by destruct s|done|done|done|by left|].
    intros (r & Hr & _). by apply not_elem_of_nil in Hr.
  - simpl. intros [Hr Hnd]%NoDup_cons HP Hin.
    destruct (remove_txn_is_Some (rq_txn r) (prereq s)) as (p & P1 & HP1).
    { apply Hin. by left. }
    destruct (remove_txn_Some _ _ _ _ HP1) as [Hpt Hperm].
    pose proof (Permutation_map rq_txn Hperm) as Hpm. simpl in Hpm.
    assert (NoDup (rq_txn p :: map rq_txn P1)) as [Hp1 HP1nd]%NoDup_cons by by rewrite <- Hpm.
    unfold debuffer_txn. simpl queue. rewrite HP1. simpl.
    set (s1 := set_preq_len _ _).
    assert (forall yt yr, exists res P n,
      drop_prewrites reqs yt yr s1 = Some (res, set_preq_len n (set_queue P_REQ P s)) /\
      NoDup (map rq_txn P) /\ (forall p, p ∈ P -> p ∈ P1) /\
      (forall t, t ∈ map rq_txn P1 -> t ∉ map rq_txn reqs -> t ∈ map rq_txn P) /\
      (res = yr \/ exists r, res = Some r /\ r ∈ reqs) /\
      ((exists r, r ∈ reqs /\ rq_ts r < yt) -> is_Some res)) as Hrec.
    { intros yt yr. destruct (IH yt yr s1) as (res & P & n & Hrun & Hrest); [done|done| |].
      - intros r' Hr'. assert (rq_txn r' ∈ map rq_txn (prereq s)) as H0 by (apply Hin; by right).
        rewrite Hpm in H0. apply elem_of_cons in H0 as [H0|H0]; [|done].
        contradict Hr. rewrite <- Hpt, <- H0. by apply list_elem_of_fmap_2.
      - exists res, P, n. split; [|done]. rewrite Hrun. by destruct s. }
    assert (forall t, t ∈ map rq_txn (prereq s) -> t ∉ rq_txn r :: map rq_txn reqs ->
              t ∈ map rq_txn P1 /\ t ∉ map rq_txn reqs) as Htr.
    { intros t Ht Hnt. apply not_elem_of_cons in Hnt as [Hne Hnt]. split; [|done].
      rewrite Hpm in Ht. apply elem_of_cons in Ht as [->|?]; [congruence|done]. }
    assert (forall P : list (@TsReqEntry V), (forall p, p ∈ P -> p ∈ P1) -> forall p, p ∈ P -> p ∈ prereq s) as Hsub.
    { intros P HP' q Hq. rewrite Hperm. right. auto. }
    destruct (rq_ts r <? young_ts) eqn:Hy; b2p.
    + destruct (Hrec (rq_ts r) (Some r)) as (res & P & n & Hrun & Hnd' & Hs & Ht & Hres & Hsome).
      exists res, P, n. split_and!; [done|done|eauto| | |].
      * intros t Hti Hnt. destruct (Htr t Hti Hnt). auto.
      * destruct Hres as [->|(r' & -> & Hr')]; right; eexists; (split; [done|]); [left|by right].
      * intros _. destruct Hres as [->|(r' & -> & Hr')]; eauto.
    + destruct (Hrec young_ts young_req) as (res & P & n & Hrun & Hnd' & Hs & Ht & Hres & Hsome).
      exists res, P, n. split_and!; [done|done|eauto| | |].
      * intros t Hti Hnt. destruct (Htr t Hti Hnt). auto.
      * destruct Hres as [->|(r' & -> & Hr')]; [by left|right]. exists r'. split; [done|by right].
      * intros (r' & Hr' & Hlt). apply elem_of_cons in Hr' as [->|Hr']; [lia|]. eauto.
Qed.
End histories.

(** ** The protocol of the transactions and the invariant of the row *)

Section protocol.
Context {V : Type} (get_ts : nat -> Z) (TS_TWR : bool).
Hypothesis get_ts_range : forall txn, 0 <= get_ts txn < UINT64_MAX.

(** What txn.cpp and row.cpp do: one prewrite at a time per transaction, ended
    by a write that has a row, or by an undo. *)
Definition allowed (txn : nat) (type : TsType) (row : option V) (s : @Row_ts V) : Prop :=
  match type with
  | R_REQ => True
  | P_REQ => txn ∉ map rq_txn (prereq s)
  | W_REQ => txn ∈ map rq_txn (prereq s) /\ txn ∉ map rq_txn (writereq s) /\ is_Some row
  | XP_REQ => txn ∈ map rq_txn (prereq s) /\ txn ∉ map rq_txn (writereq s)
  end.

Fixpoint follows (s : @Row_ts V) (l : list (nat * TsType * option V)) : Prop :=
  match l with
  | [] => True
  | (txn, type, row) :: l =>
      allowed txn type row s /\
      match access get_ts TS_TWR txn type row s with
      | Some p => follows p.2 l
      | None => True
      end
  end.

#[export] Instance allowed_dec txn type row s : Decision (allowed txn type row s).
Proof. destruct type; apply _. Defined.

#[export] Instance follows_dec s l : Decision (follows s l).
Proof.
  revert s. induction l as [|[[txn type] row] l IH]; intros s; simpl; [apply _|].
  apply and_dec; [apply _|]. destruct (access _ _ _ _ _ _); [apply IH|apply _].
Defined.

Record ts_inv (s : @Row_ts V) : Prop := {
  ti_rts_max : rts_rts s <= UINT64_MAX;
  ti_min_rts : min_rts s = min_ts_of (readreq s);
  ti_read : forall r, r ∈ readreq s -> min_pts s < rq_ts r /\ rts_wts s <= rq_ts r;
  ti_pre : forall p, p ∈ prereq s -> rts_rts s <= rq_ts p /\ rq_ts p = get_ts (rq_txn p);
  ti_write : forall w, w ∈ writereq s ->
    rq_txn w ∈ map rq_txn (prereq s) /\ rq_ts w = get_ts (rq_txn w) /\ is_Some (rq_row w);
  ti_pre_nd : NoDup (map rq_txn (prereq s));
  ti_write_nd : NoDup (map rq_txn (writereq s)) }.

Definition loop_inv (s : @Row_ts V) : Prop := ts_inv s /\ min_pts s <= min_ts_of (prereq s).
Definition quiet (s : @Row_ts V) : Prop := ts_inv s /\ min_pts s = min_ts_of (prereq s).

Lemma pre_of_txn (s : @Row_ts V) txn :
  ts_inv s -> txn ∈ map rq_txn (prereq s) ->
  rts_rts s <= get_ts txn /\ min_ts_of (prereq s) <= get_ts txn.
Proof using.
  intros Hinv (p & -> & Hp)%list_elem_of_fmap.
  destruct (ti_pre s Hinv p Hp) as [? <-]. split; [done|]. by apply min_ts_lb.
Qed.

Lemma NoDup_map_part {A B} (f : A -> B) l l1 l2 :
  l ≡ₚ l1 ++ l2 -> NoDup (map f l) ->
  NoDup (map f l1) /\ NoDup (map f l2) /\ (forall x, x ∈ map f l1 -> x ∉ map f l2).
Proof using.
  intros HP Hnd. rewrite HP, map_app in Hnd. apply NoDup_app in Hnd as (? & ? & ?). auto.
Qed.

(** The requests up to a timestamp leave their queue, the others stay. *)
Lemma debuffer_ts_spec type ts (s : @Row_ts V) ready s' :
  debuffer_ts type ts s = (ready, s') ->
  exists Q, s' = set_queue type Q s /\ queue type s ≡ₚ ready ++ Q /\
    (forall r, r ∈ ready -> r ∈ queue type s /\ rq_ts r <= ts) /\
    (forall r, r ∈ Q -> r ∈ queue type s /\ ts < rq_ts r).
Proof using.
  unfold debuffer_ts. pose proof (split_ts_perm ts (queue type s)) as HP.
  pose proof (fun r => split_ts_ready ts (queue type s) r) as H1.
  pose proof (fun r => split_ts_rest ts (queue type s) r) as H2.
  destruct (split_ts _ _ _) as [ready' Q]. simpl in HP, H1, H2.
  intros Heq. pose proof (f_equal fst Heq) as Hr. pose proof (f_equal snd Heq) as Hs.
  clear Heq. cbn [fst snd] in Hr, Hs. subst. exists Q. split_and!; [done|done| |].
  - intros r. by rewrite H1.
  - intros r. by rewrite H2.
Qed.

(** The writes that a larger [min_rts] frees: their prewrites are dropped and
    one of them reaches the row. *)
Lemma free_writes (s : @Row_ts V) ready s1 :
  loop_inv s -> debuffer_ts W_REQ (min_rts s) s = (ready, s1) -> ready <> [] ->
  exists txn v ts s2,
    drop_prewrites ready UINT64_MAX None s1 = Some (Some (mkTsReq txn (Some v) ts), s2) /\
    row_history s [EvWrite txn ts v] (perform_write v ts s2) /\
    loop_inv (perform_write v ts s2) /\ readreq s2 = readreq s.
Proof using get_ts_range.
  intros [Hinv Hmin] (W & -> & HP & H1 & _)%debuffer_ts_spec Hne. simpl in HP, H1.
  destruct (NoDup_map_part rq_txn _ _ _ HP (ti_write_nd s Hinv)) as (Hnd1 & Hnd2 & Hdisj).
  assert (forall r, r ∈ ready \/ r ∈ W -> r ∈ writereq s) as Hsub.
  { intros r Hr. rewrite HP. by apply elem_of_app. }
  destruct (drop_prewrites_spec ready UINT64_MAX None (set_queue W_REQ W s))
    as (res & P & n & -> & HndP & HsubP & Hkeep & Hres & Hsome); [done|apply Hinv| |].
  { intros r Hr. apply (ti_write s Hinv). auto. }
  destruct Hsome as [w ->].
  { destruct ready as [|r0 ?]; [done|]. exists r0. split; [left|].
    destruct (ti_write s Hinv r0) as (_ & -> & _); [apply Hsub; do 2 left|].
    destruct (get_ts_range (rq_txn r0)). lia. }
  destruct Hres as [?|(w' & [= <-] & Hw)]; [done|].
  destruct (ti_write s Hinv w) as (Hwp & Hwt & [v Hrow]); [auto|].
  destruct (pre_of_txn s _ Hinv Hwp) as [Hr _].
  assert (rq_ts w <= min_rts s) as Hle by (by apply H1).
  destruct w as [txn row ts]. simpl in *. subst.
  exists txn, v, (get_ts txn), (set_preq_len n (set_queue P_REQ P (set_queue W_REQ W s))).
  split_and!; [done|exact (row_history_write s txn _ v Hr)| |done].
  split; [constructor; simpl; [apply Hinv|apply Hinv| | | |done|done]|].
  - intros r Hr'. destruct (ti_read s Hinv r Hr') as [? ?]. split; [done|].
    rewrite (ti_min_rts s Hinv) in Hle. pose proof (min_ts_lb _ _ Hr'). case_match; lia.
  - intros p Hp. apply (ti_pre s Hinv). auto.
  - intros r Hr'. destruct (ti_write s Hinv r) as (Hin & ? & ?); [auto|]. split_and!; [|done|done].
    apply Hkeep; [done|]. intros Hx. apply (Hdisj _ Hx). by apply list_elem_of_fmap_2.
  - simpl. etrans; [apply Hmin|]. by apply min_ts_incl.
Qed.

Lemma quiet_set_writes (s : @Row_ts V) W :
  quiet s -> writereq s ≡ₚ W -> quiet (set_queue W_REQ W s).
Proof using.
  intros [Hinv Hmin] HP. split; [|done]. constructor; simpl; try apply Hinv.
  - intros w Hw. apply (ti_write s Hinv). by rewrite HP.
  - rewrite <- HP. apply Hinv.
Qed.

Lemma quiet_loop (s : @Row_ts V) : quiet s -> loop_inv s.
Proof using. intros [? Hmin]. split; [done|lia]. Qed.

(** The first half of a turn: [min_pts] is recomputed, the reads it frees are
    served, and [min_rts] is recomputed. *)
Lemma serve_ready (s : @Row_ts V) ready s1 evs s2 :
  let m := min_ts_of (prereq s) in
  let s3 := set_mins (min_wts s2) (min_ts_of (readreq s2)) (min_pts s2) s2 in
  ts_inv s ->
  debuffer_ts R_REQ m (set_mins (min_wts s) (min_rts s) m s) = (ready, s1) ->
  serve_reads ready s1 = (evs, s2) ->
  row_history s evs s3 /\ quiet s3 /\ min_rts s2 = min_rts s /\
  min_rts s2 <= min_ts_of (readreq s2) /\ readreq s ≡ₚ ready ++ readreq s2.
Proof using.
  intros m s3 Hinv (R & -> & HP & H1 & H2)%debuffer_ts_spec Hserve. simpl in HP, H1, H2.
  destruct (serve_reads_spec _ _ _ _ Hserve) as (Hh & Hs2 & Hb).
  { simpl. intros r Hr. apply (ti_read s Hinv), H1, Hr. }
  clear Hserve. remember (rts_rts s2) as k eqn:Hk. clear Hk. subst s2. simpl in Hb |- *.
  assert (k <= m) as Hkp.
  { apply Hb; [|intros r Hr; apply H1, Hr]. apply min_ts_le. split; [apply Hinv|].
    apply Forall_forall. intros q Hq. by apply (ti_pre s Hinv). }
  split_and!; [exact Hh| |done| |done].
  - split; [|done]. constructor; simpl; try apply Hinv; [|done| |].
    + etrans; [apply Hkp|]. by apply (min_ts_le m (prereq s)).
    + intros r Hr. split; [apply H2, Hr|]. apply (ti_read s Hinv), H2, Hr.
    + intros p Hp. split; [|by apply (ti_pre s Hinv)].
      etrans; [apply Hkp|]. by apply min_ts_lb.
  - rewrite (ti_min_rts s Hinv). apply min_ts_incl. intros r Hr. apply H2, Hr.
Qed.

Lemma set_mins_id (s : @Row_ts V) : set_mins (min_wts s) (min_rts s) (min_pts s) s = s.
Proof using. by destruct s. Qed.

Lemma update_turn_spec (s : @Row_ts V) :
  loop_inv s ->
  exists again evs s',
    update_turn s = Some (again, evs, s') /\ row_history s evs s' /\ loop_inv s' /\
    (again = false -> quiet s') /\
    (again = true -> (length (readreq s') < length (readreq s))%nat).
Proof using get_ts_range.
  intros [Hinv Hmin]. unfold update_turn, cal_min. cbn [queue].
  rewrite c_assert_true by (by apply Z.leb_le).
  case_match; b2p; cycle 1.
  { eexists _, _, _. split_and!; [done|by apply row_history_nil|done|split; [done|lia]|done]. }
  cbv zeta. cbn [min_pts set_mins].
  destruct (debuffer_ts R_REQ _ _) as [ready s1] eqn:Hdeb.
  destruct (serve_reads ready s1) as [evs s2] eqn:Hserve.
  destruct (serve_ready s ready s1 evs s2 Hinv Hdeb Hserve) as (Hh & Hq & Hmr & Hle & HR).
  set (s3 := set_mins _ _ _ s2) in *.
  destruct ready as [|r0 ready0] eqn:Hready.
  { assert (s3 = s1) as <-.
    { simpl in Hserve, HR. injection Hserve as <- <-. unfold s3.
      replace (min_ts_of (readreq s1)) with (min_rts s1); [apply set_mins_id|].
      rewrite Hmr, (ti_min_rts s Hinv). apply Z.le_antisymm; apply min_ts_incl; intros r; by rewrite HR. }
    simpl in Hserve. injection Hserve as <- _.
    eexists _, _, _. split_and!; [done|done|by apply quiet_loop|done|done]. }
  case_match; b2p; cycle 1.
  { assert (s3 = s2) as Hs3.
    { unfold s3. rewrite <- (Z.le_antisymm _ _ Hle) by done. apply set_mins_id. }
    clearbody s3. subst s3.
    eexists _, _, _. split_and!; [done|done|by apply quiet_loop|done|done]. }
  destruct (debuffer_ts W_REQ _ _) as [ready_write s4] eqn:Hwr.
  destruct (decide (ready_write = [])) as [->|Hnw].
  - apply debuffer_ts_spec in Hwr as (W & -> & HPW & _).
    pose proof (quiet_set_writes s3 W Hq HPW) as Hq4.
    eexists _, _, _. split_and!; [done|exact Hh|by apply quiet_loop|done|done].
  - destruct (free_writes s3 ready_write s4 (quiet_loop _ Hq) Hwr Hnw)
      as (txn & v & ts & s5 & Hdrop & Hhw & Hl5 & HR5).
    destruct ready_write as [|w0 ws]; [done|]. rewrite Hdrop.
    eexists _, _, _. split_and!; [done|by eapply row_history_app|done|done|].
    intros _. change (length (readreq s5) < length (readreq s))%nat.
    rewrite HR5, HR. simpl. rewrite length_app. lia.
Qed.

(** [update_fuel] is enough for the loop of [update_buffer]. *)
Lemma update_buffer_spec fuel (s : @Row_ts V) :
  loop_inv s -> (length (readreq s) < fuel)%nat ->
  exists evs s', update_buffer fuel s = Some (evs, s') /\ row_history s evs s' /\ quiet s'.
Proof using get_ts_range.
  revert s. induction fuel as [|fuel IH]; intros s Hs Hlt; [lia|]. simpl.
  destruct (update_turn_spec s Hs) as (again & evs & s' & -> & Hh & Hl & Hq & Hdec).
  destruct again; [|exists evs, s'; auto].
  destruct (IH s' Hl) as (evs' & s'' & -> & Hh' & Hq'); [specialize (Hdec eq_refl); lia|].
  eexists _, _. split_and!; [done|by eapply row_history_app|done].
Qed.

Lemma finish_prewrite_spec txn (s : @Row_ts V) :
  loop_inv s -> txn ∈ map rq_txn (prereq s) -> txn ∉ map rq_txn (writereq s) ->
  exists evs s', finish_prewrite txn s = Some (evs, s') /\ row_history s evs s' /\ quiet s'.
Proof using get_ts_range.
  intros [Hinv Hmin] HP HW. unfold finish_prewrite, debuffer_txn. cbn [queue].
  destruct (remove_txn_is_Some txn (prereq s) HP) as (p & P1 & Hrm). rewrite Hrm. cbn [fst snd].
  apply remove_txn_Some in Hrm as [Hpt Hperm].
  pose proof (Permutation_map rq_txn Hperm) as Hpm. simpl in Hpm. rewrite Hpt in Hpm.
  set (s1 := set_preq_len _ _).
  destruct (update_buffer_spec (update_fuel s1) s1) as (evs & s' & Hrun & Hh & Hq).
  - split.
    + constructor; simpl; try apply Hinv.
      * intros q Hq. apply (ti_pre s Hinv). rewrite Hperm. by right.
      * intros w Hw. destruct (ti_write s Hinv w Hw) as (Hin & ? & ?). split_and!; [|done..].
        rewrite Hpm in Hin. apply elem_of_cons in Hin as [Heq|?]; [|done].
        contradict HW. rewrite <- Heq. by apply list_elem_of_fmap_2.
      * pose proof (ti_pre_nd s Hinv) as Hnd. rewrite Hpm in Hnd. by apply NoDup_cons in Hnd as [_ ?].
    + simpl. etrans; [apply Hmin|]. apply min_ts_incl. intros q Hq. rewrite Hperm. by right.
  - unfold update_fuel. lia.
  - exists evs, s'. split_and!; [done|exact Hh|done].
Qed.

(** The three buffered requests keep the invariant. *)
Lemma buffer_read_quiet txn (s : @Row_ts V) :
  quiet s -> rts_wts s <= get_ts txn -> min_pts s < get_ts txn ->
  exists s', buffer_req get_ts R_REQ txn None s = Some s' /\ row_history s [] s' /\ quiet s'.
Proof using.
  intros [Hinv Hmin] Hw Hp. eexists. split_and!; [done|by apply row_history_nil|].
  split; [|done]. constructor; simpl; try apply Hinv.
  - by rewrite min_ts_cons, <- (ti_min_rts s Hinv).
  - intros r [->|Hr]%elem_of_cons; [done|]. by apply (ti_read s Hinv).
Qed.

Lemma buffer_pre_quiet txn (s : @Row_ts V) :
  quiet s -> rts_rts s <= get_ts txn -> txn ∉ map rq_txn (prereq s) ->
  exists s', buffer_req get_ts P_REQ txn None s = Some s' /\ row_history s [] s' /\ quiet s'.
Proof using.
  intros [Hinv Hmin] Hr Hp. eexists. split_and!; [done|by apply row_history_nil|].
  split; [constructor; simpl; try apply Hinv|].
  - intros r Hin. destruct (ti_read s Hinv r Hin). split; [|done]. case_match; b2p; lia.
  - intros p [->|Hin]%elem_of_cons; [done|]. by apply (ti_pre s Hinv).
  - intros w Hin. destruct (ti_write s Hinv w Hin) as (? & ? & ?).
    split_and!; [by right|done..].
  - apply NoDup_cons. split; [done|apply Hinv].
  - simpl. rewrite min_ts_cons, <- Hmin. done.
Qed.

Lemma buffer_write_quiet txn row (s : @Row_ts V) :
  quiet s -> allowed txn W_REQ row s ->
  exists s', buffer_req get_ts W_REQ txn row s = Some s' /\ row_history s [] s' /\ quiet s'.
Proof using.
  intros [Hinv Hmin] (Hp & Hw & [v ->]). simpl.
  eexists. split_and!; [done|by apply row_history_nil|].
  split; [constructor; simpl; try apply Hinv|done].
  - intros w [->|Hin]%elem_of_cons; [eauto|]. by apply (ti_write s Hinv).
  - apply NoDup_cons. split; [done|apply Hinv].
Qed.

(** A call that follows the protocol ends, and keeps the invariant. *)
Lemma access_spec txn type row (s : @Row_ts V) :
  quiet s -> allowed txn type row s ->
  exists rc evs s', access get_ts TS_TWR txn type row s = Some (rc, evs, s') /\
    row_history s evs s' /\ quiet s'.
Proof using get_ts_range.
  intros Hq Hall. pose proof (quiet_loop s Hq) as Hl. pose proof Hq as [Hinv Hmin].
  pose proof (row_history_nil s s eq_refl eq_refl eq_refl) as Hnil.
  unfold access. destruct type; cbv zeta.
  - case_match; b2p; [by eauto 10|]. case_match; b2p.
    + destruct (buffer_read_quiet txn s) as (s' & -> & ? & ?); [done..|eauto 10].
    + eexists _, _, _. split_and!; [done| |].
      * constructor; [done|]. replace (Z.max _ _) with
          (rts_rts (if rts_rts s <? get_ts txn then set_rts (get_ts txn) s else s)).
        -- case_match; constructor.
        -- case_match; b2p; simpl; lia.
      * case_match; b2p; [|done]. split; [|done]. constructor; simpl; try apply Hinv.
        -- destruct (get_ts_range txn). lia.
        -- intros p Hp. split; [|by apply (ti_pre s Hinv)].
           pose proof (min_ts_lb _ _ Hp). lia.
  - pose proof Hall as (Hp & Hw & [v Hrow]).
    destruct (buffer_write_quiet txn row s Hq Hall) as (sb & Hb & Hhb & Hqb). rewrite Hb.
    case_match; [destruct (finish_prewrite_spec txn s) as (? & ? & -> & ? & ?); [done..|eauto 10]|].
    case_match; [by eauto 10|]. case_match; b2p; [by eauto 10|]. subst row.
    destruct (pre_of_txn s txn Hinv Hp) as [Hr Hpm].
    destruct (finish_prewrite_spec txn (perform_write v (get_ts txn) s))
      as (evs & s' & -> & Hh & Hq'); [|done..|].
    + split; [|simpl; lia]. constructor; simpl; try apply Hinv.
      intros r Hin. destruct (ti_read s Hinv r Hin) as [? ?]. split; [done|].
      pose proof (min_ts_lb _ _ Hin). rewrite (ti_min_rts s Hinv) in *. case_match; b2p; lia.
    + eexists _, (_ :: evs), s'. split_and!; [done| |done].
      eapply (row_history_app s [_]); [|done]. by apply row_history_write.
  - case_match; b2p; [by eauto 10|]. case_match; b2p; [by eauto 10|].
    destruct (buffer_pre_quiet txn s) as (s' & -> & ? & ?); [done..|eauto 10].
  - destruct Hall as [? ?].
    destruct (finish_prewrite_spec txn s) as (? & ? & -> & ? & ?); [done..|eauto 10].
Qed.

Lemma accesses_spec l (s : @Row_ts V) :
  quiet s -> follows s l ->
  exists rcs evs s', accesses get_ts TS_TWR s l = Some (rcs, evs, s') /\
    row_history s evs s' /\ quiet s'.
Proof using get_ts_range.
  revert s. induction l as [|[[txn type] row] l IH]; intros s Hq; simpl.
  - intros _. eexists _, _, _. split_and!; [done|by apply row_history_nil|done].
  - intros [Hall Hf]. destruct (access_spec txn type row s Hq Hall) as (rc & evs & s' & Hrun & Hh & Hq').
    rewrite Hrun in *. simpl in Hf |- *. destruct (IH s' Hq' Hf) as (rcs & evs' & s'' & -> & Hh' & Hq'').
    eexists _, _, _. split_and!; [done|by eapply row_history_app|done].
Qed.

Lemma Row_ts_init_quiet v : quiet (@Row_ts_init V v).
Proof using.
  split; [|done]. constructor; simpl; try done; try apply NoDup_nil; try done; by intros ? ?%not_elem_of_nil.
Qed.
End protocol.

(** ** Properties *)

(** C7. Timestamp ordering between reads and writes: from [Row_ts::init], any
    calls that follow the protocol end without a failed assertion and with the
    loop of [update_buffer] finished, every read returns the value of the last
    write performed, no read is performed below the timestamp of an earlier
    write, and no write below that of an earlier read. *)
Theorem row_ts_read_write_order {V : Type} (get_ts : nat -> Z) (TS_TWR : bool) (v : V) l
  (get_ts_range : forall txn, 0 <= get_ts txn < UINT64_MAX)
  (Hl : follows get_ts TS_TWR (Row_ts_init v) l) :
  exists rcs evs s',
    accesses get_ts TS_TWR (Row_ts_init v) l = Some (rcs, evs, s') /\
    history v 0 0 evs (rts_row s') (rts_rts s') (rts_wts s').
Proof.
  destruct (accesses_spec get_ts TS_TWR get_ts_range l (Row_ts_init v))
    as (rcs & evs & s' & Hrun & Hh & _); [apply Row_ts_init_quiet|done|].
  eauto.
Qed.

(** Transaction [n] has the timestamp [n], for [n < 1000]. *)
Definition ts_ex (txn : nat) : Z := Z.of_nat (txn mod 1000).

Lemma ts_ex_range txn : 0 <= ts_ex txn < UINT64_MAX.
Proof.
  unfold ts_ex, UINT64_MAX. pose proof (Nat.mod_upper_bound txn 1000). lia.
Qed.

Definition ts_calls_ex : list (nat * TsType * option Z) :=
  [(10%nat, P_REQ, None); (5%nat, R_REQ, None); (12%nat, R_REQ, None); (10%nat, W_REQ, Some 7);
   (11%nat, R_REQ, None)].

Lemma row_ts_read_write_order_witness :
  follows ts_ex false (Row_ts_init 0) ts_calls_ex /\
  exists rcs evs s',
    accesses ts_ex false (Row_ts_init 0) ts_calls_ex = Some (rcs, evs, s') /\
    history 0 0 0 evs (rts_row s') (rts_rts s') (rts_wts s').
Proof.
  assert (follows ts_ex false (Row_ts_init 0) ts_calls_ex) as Hf.
  { apply (bool_decide_eq_true_1 _). vm_compute. reflexivity. }
  split; [exact Hf|]. by apply (row_ts_read_write_order ts_ex false 0 ts_calls_ex ts_ex_range).
Defined.

(** What goes wrong between writes when [TS_TWR] is false.
    (1) Of the writes that become ready together only the one with the smallest
    timestamp reaches the row: the accepted write of 20 is dropped, although no
    operation is left.
    (2) A buffered write is performed when no read waits below it, even if a
    smaller prewrite is outstanding: the write of 15 then replaces the value of
    20 and a later transaction reads it.
    (3) When no read waits, [update_buffer] stops before it looks at the
    buffered writes: 20 stays buffered with no operation outstanding, and the
    read of 30 waits. *)
Theorem row_ts_write_anomalies :
  (exists evs s,
     accesses ts_ex false (Row_ts_init 0)
       [(3%nat, P_REQ, None); (10%nat, P_REQ, None); (20%nat, P_REQ, None); (5%nat, R_REQ, None);
        (20%nat, W_REQ, Some 20); (10%nat, W_REQ, Some 10); (3%nat, XP_REQ, None)] =
       Some ([RCOK; RCOK; RCOK; WAIT; RCOK; RCOK; RCOK], evs, s) /\
     evs = [EvRead 5 5 0; EvWrite 10 10 10] /\ rts_row s = 10 /\
     readreq s = [] /\ writereq s = [] /\ prereq s = []) /\
  (exists evs s,
     accesses ts_ex false (Row_ts_init 0)
       [(10%nat, P_REQ, None); (15%nat, P_REQ, None); (20%nat, P_REQ, None); (12%nat, R_REQ, None);
        (20%nat, W_REQ, Some 20); (10%nat, XP_REQ, None); (15%nat, W_REQ, Some 15);
        (30%nat, R_REQ, None)] =
       Some ([RCOK; RCOK; RCOK; WAIT; RCOK; RCOK; RCOK; RCOK], evs, s) /\
     evs = [EvRead 12 12 0; EvWrite 20 20 20; EvWrite 15 15 15; EvRead 30 30 15]) /\
  (exists s,
     accesses ts_ex false (Row_ts_init 0)
       [(10%nat, P_REQ, None); (20%nat, P_REQ, None); (20%nat, W_REQ, Some 20);
        (10%nat, W_REQ, Some 10); (30%nat, R_REQ, None)] =
       Some ([RCOK; RCOK; RCOK; RCOK; WAIT], [EvWrite 10 10 10], s) /\
     map rq_txn (writereq s) = [20%nat] /\ map rq_txn (readreq s) = [30%nat]).
Proof.
  split_and!.
  - eexists _, _. split; [vm_compute; reflexivity|]. vm_compute. by split_and!.
  - eexists _, _. by split; [vm_compute; reflexivity|].
  - eexists. split; [vm_compute; reflexivity|]. by split.
Qed.
