(* ===== verification/DlDetect.v ===== *)
(** * The deadlock detector

    [DL_detect] of src/concurrency_control/dl_detect/: the dependencies of the
    transaction that each worker thread runs, and the depth-first search for a
    cycle.  The search is modelled between two changes of the dependencies; the
    fields of [DetectData] that [detect_cycle] leaves uninitialised are
    arguments. *)

From stdpp Require Import list.
From S2P Require Import Prelude Global.

(** The dependency of a thread; [txnid] is a signed 64-bit integer, -1 when the
    thread waits for nothing. *)
Record DepThd := mkDep {
  adj : list Z;
  dep_txnid : Z;
  num_locks : Z }.

#[export] Instance DepThd_inhabited : Inhabited DepThd := populate (mkDep [] (-1) 0).

Record DetectData := mkDD {
  visited : list bool;
  recStack : list bool;
  loop : bool;
  onloop : bool;
  loopstart : nat;
  min_lock_num : Z;
  min_txnid : Z }.

Definition set_visited (thd : nat) (dd : DetectData) : DetectData :=
  mkDD (<[thd := true]> (visited dd)) (recStack dd) (loop dd) (onloop dd) (loopstart dd)
    (min_lock_num dd) (min_txnid dd).

Definition set_rec (thd : nat) (b : bool) (dd : DetectData) : DetectData :=
  mkDD (visited dd) (<[thd := b]> (recStack dd)) (loop dd) (onloop dd) (loopstart dd)
    (min_lock_num dd) (min_txnid dd).

Definition set_loop (start : nat) (dd : DetectData) : DetectData :=
  mkDD (visited dd) (recStack dd) true true start (min_lock_num dd) (min_txnid dd).

Definition set_min (locks txnid : Z) (dd : DetectData) : DetectData :=
  mkDD (visited dd) (recStack dd) (loop dd) (onloop dd) (loopstart dd) locks txnid.

Definition clear_onloop (dd : DetectData) : DetectData :=
  mkDD (visited dd) (recStack dd) (loop dd) false (loopstart dd) (min_lock_num dd) (min_txnid dd).

(** [get_thdid_from_txnid] of system/helper.cpp. *)
Definition get_thdid_from_txnid (g_thread_cnt : nat) (txnid : Z) : nat :=
  Z.to_nat (txnid mod Z.of_nat g_thread_cnt).

Section dl_detect.
Context (g_no_dl : bool).
Implicit Types (dependency : list DepThd) (dd : DetectData).

Definition V dependency : nat := length dependency.
Definition thd_of dependency (txnid : Z) : nat := get_thdid_from_txnid (V dependency) txnid.

Definition add_dep (txnid1 : Z) (txnids : list Z) (locks : Z) dependency : list DepThd :=
  if g_no_dl then dependency
  else
    let thd1 := thd_of dependency txnid1 in
    <[thd1 := mkDep (adj (dependency !!! thd1) ++ txnids) (s64 txnid1) locks]> dependency.

Definition clear_dep (txnid : Z) dependency : list DepThd :=
  if g_no_dl then dependency
  else <[thd_of dependency txnid := mkDep [] (-1) 0]> dependency.

(** The loop over the copied adjacency list; [rec] is the recursive call, whose
    result [true] ends the loop. *)
Fixpoint visit_all (rec : Z -> DetectData -> option (bool * DetectData)) dependency
    (txnids : list Z) dd : option DetectData :=
  match txnids with
  | [] => Some dd
  | txnid :: txnids =>
      let nextthd := thd_of dependency txnid in
      if recStack dd !!! nextthd && (s32 txnid =? dep_txnid (dependency !!! nextthd)) then
        Some (set_loop nextthd dd)
      else if negb (visited dd !!! nextthd) &&
              (dep_txnid (dependency !!! nextthd) =? s64 txnid) then
        do! r <- rec txnid dd;;
        if r.1 : bool then Some r.2 else visit_all rec dependency txnids r.2
      else visit_all rec dependency txnids dd
  end.

(** What follows the loop: the thread leaves the stack, and is the new victim if
    it is on the loop and holds fewer locks. *)
Definition leave_node (thd : nat) (txnid lock_num : Z) dd : DetectData :=
  let dd := set_rec thd false dd in
  let dd :=
    if loop dd && onloop dd && (lock_num <? min_lock_num dd) then set_min lock_num txnid dd
    else dd in
  if (thd =? loopstart dd)%nat then clear_onloop dd else dd.

Fixpoint nextNode (fuel : nat) dependency (txnid : Z) dd : option (bool * DetectData) :=
  match fuel with
  | O => None
  | S fuel =>
      let thd := thd_of dependency txnid in
      assert! negb (visited dd !!! thd);;
      let dd := set_rec thd true (set_visited thd dd) in
      let lock_num := num_locks (dependency !!! thd) in
      let txnids := adj (dependency !!! thd) in
      if negb (dep_txnid (dependency !!! thd) =? s64 txnid) then
        Some (false, set_rec thd false dd)
      else
        do! dd <- visit_all (nextNode fuel dependency) dependency txnids dd;;
        let dd := leave_node thd txnid lock_num dd in
        Some (loop dd, dd)
  end.

Definition isCyclic dependency (txnid : Z) dd : option (bool * DetectData) :=
  nextNode (S (V dependency)) dependency txnid dd.

Definition new_detect_data (n : nat) (onloop0 : bool) (loopstart0 : nat) : DetectData :=
  mkDD (replicate n false) (replicate n false) false onloop0 loopstart0 1000 UINT64_MAX.

(** The result, and the thread whose transaction gets [lock_abort]. *)
Definition detect_cycle dependency (onloop0 : bool) (loopstart0 : nat) (txnid : Z)
    : option (Z * option nat) :=
  if g_no_dl then Some (0, None)
  else
    do! r <- isCyclic dependency txnid (new_detect_data (V dependency) onloop0 loopstart0);;
    if r.1 : bool then
      let thd_to_abort := thd_of dependency (min_txnid r.2) in
      Some (1, if dep_txnid (dependency !!! thd_to_abort) =? s64 (min_txnid r.2)
               then Some thd_to_abort else None)
    else Some (0, None).
End dl_detect.

(** ** The waits-for graph *)

Section graph.
Context (dependency : list DepThd).
Notation thd_of := (thd_of dependency).

(** Thread [x] waits for the transaction that thread [y] runs. *)
Definition waits_for (x y : nat) : Prop :=
  exists txnid, txnid ∈ adj (dependency !!! x) /\ thd_of txnid = y /\
    dep_txnid (dependency !!! y) = txnid.

(** A path, as the list of its nodes. *)
Fixpoint path (x : nat) (l : list nat) (y : nat) : Prop :=
  match l with
  | [] => x = y
  | z :: l => waits_for x z /\ path z l y
  end.

(** [c] is the list of the nodes of a cycle. *)
Definition cycle (c : list nat) : Prop :=
  exists x l y, c = x :: l /\ path x l y /\ waits_for y x.

Definition locks_of (x : nat) : Z := num_locks (dependency !!! x).

Lemma path_rtc x l y : path x l y -> rtc waits_for x y.
Proof.
  revert x. induction l as [|z l IH]; intros x; simpl; [by intros ->|].
  intros [? ?]. eapply rtc_l; [done|auto].
Qed.

Lemma path_snoc x l y z : path x l y -> waits_for y z -> path x (l ++ [z]) z.
Proof.
  revert x. induction l as [|w l IH]; intros x; simpl; [by intros -> ?|].
  intros [? ?] ?. auto.
Qed.

Lemma cycle_tc c x : cycle c -> x ∈ c -> tc waits_for x x.
Proof.
  intros (x0 & l & y & -> & Hp & Hyx) Hx.
  assert (rtc waits_for x0 x /\ rtc waits_for x y) as [H1 H2].
  { clear Hyx. revert x0 Hp Hx. induction l as [|z l IH]; intros x0; simpl.
    - intros -> ->%list_elem_of_singleton. done.
    - intros [Hxz Hp] [->|Hx]%elem_of_cons.
      + split; [done|]. eapply rtc_l; [done|]. by eapply path_rtc.
      + destruct (IH z Hp Hx). split; [by eapply rtc_l|done]. }
  eapply tc_rtc_l; [exact H2|]. eapply tc_rtc_r; [by apply tc_once|done].
Qed.

(** The finished nodes, the last one first: the successors of a node are finished
    before it. *)
Inductive topo : list nat -> Prop :=
| topo_nil : topo []
| topo_cons x F : topo F -> (forall y, waits_for x y -> y ∈ F) -> topo (x :: F).

Lemma topo_succ F x y : topo F -> x ∈ F -> waits_for x y -> y ∈ F.
Proof.
  induction 1 as [|z F HF IH Hz]; [by intros ?%not_elem_of_nil|].
  intros [->|Hx]%elem_of_cons Hw; right; auto.
Qed.

Lemma topo_rtc F x y : topo F -> rtc waits_for x y -> x ∈ F -> y ∈ F.
Proof. intros HF. induction 1; [done|]. eauto using topo_succ. Qed.

Lemma topo_acyclic F x : topo F -> x ∈ F -> ~ tc waits_for x x.
Proof.
  induction 1 as [|z F HF IH Hz]; [by intros ?%not_elem_of_nil|].
  intros Hx Hc. destruct (decide (x ∈ F)) as [|Hn]; [by apply IH|].
  apply elem_of_cons in Hx as [->|]; [|done].
  apply tc_rtc in Hc as Hc'. apply Hn.
  inversion Hc as [? ? Hw|? w ? Hw Hr]; subst; [by apply Hz|].
  eapply topo_rtc; [done|by apply tc_rtc|by apply Hz].
Qed.
End graph.

(** ** The depth-first search *)

Lemma small_ids t : 0 <= t < 2 ^ 31 -> s32 t = t /\ s64 t = t.
Proof. intros Ht. split; [apply s32_small|apply s64_small]; lia. Qed.

Section dfs.
Context (dependency : list DepThd).
Notation thd_of := (thd_of dependency).
Notation waits_for := (waits_for dependency).
Notation path := (path dependency).
Notation cycle := (cycle dependency).
Notation topo := (topo dependency).
Notation locks_of := (locks_of dependency).
Notation V := (V dependency).
Hypothesis Hpos : (0 < V)%nat.
Hypothesis Hids : forall x t, t ∈ adj (dependency !!! x) -> 0 <= t < 2 ^ 31.

(** The thread of [t] runs [t]. *)
Definition live (t : Z) : Prop := dep_txnid (dependency !!! thd_of t) = t.

(** Without a loop so far: the stack, and the finished nodes. *)
Record dfs_inv (stk F : list nat) (dd : DetectData) : Prop := {
  di_vlen : length (visited dd) = V;
  di_rlen : length (recStack dd) = V;
  di_rec : forall x, (x < V)%nat -> recStack dd !!! x = true <-> x ∈ stk;
  di_vis : forall x, (x < V)%nat -> visited dd !!! x = true <-> x ∈ stk ++ F;
  di_nd : NoDup (stk ++ F);
  di_lt : forall x, x ∈ stk ++ F -> (x < V)%nat;
  di_topo : topo F;
  di_loop : loop dd = false;
  di_min : min_lock_num dd = 1000 /\ min_txnid dd = UINT64_MAX }.

(** The victim so far among the nodes [l]; none when they all hold at least 1000
    locks. *)
Definition is_min (dd : DetectData) (l : list nat) : Prop :=
  min_lock_num dd <= 1000 /\ (forall y, y ∈ l -> min_lock_num dd <= locks_of y) /\
  ((min_lock_num dd = 1000 /\ min_txnid dd = UINT64_MAX) \/
   exists y, y ∈ l /\ locks_of y = min_lock_num dd /\ min_lock_num dd < 1000 /\
     thd_of (min_txnid dd) = y /\ live (min_txnid dd) /\ 0 <= min_txnid dd < 2 ^ 31).

(** A loop is found from [x]: it ends on the stack, with [l] the nodes on it so
    far, or it is complete. *)
Definition found (x : nat) (l stk : list nat) (u : nat) (dd : DetectData) : Prop :=
  loop dd = true /\
  ((onloop dd = true /\ loopstart dd ∈ stk /\ waits_for u (loopstart dd) /\ is_min dd l) \/
   (onloop dd = false /\ exists c z, cycle c /\ rtc waits_for x z /\ z ∈ c /\ is_min dd c)).

Lemma thd_of_lt t : (thd_of t < V)%nat.
Proof using Hpos.
  unfold thd_of, get_thdid_from_txnid. pose proof (Z.mod_pos_bound t (Z.of_nat V) ltac:(lia)). lia.
Qed.

Lemma live_waits x t : t ∈ adj (dependency !!! x) -> live t -> waits_for x (thd_of t).
Proof using. intros Ht Hl. by exists t. Qed.

Lemma dfs_inv_push stk F dd x :
  dfs_inv stk F dd -> (x < V)%nat -> x ∉ stk ++ F ->
  dfs_inv (x :: stk) F (set_rec x true (set_visited x dd)).
Proof using.
  intros Hi Hx Hn. constructor; simpl; try apply Hi.
  - rewrite length_insert. apply Hi.
  - rewrite length_insert. apply Hi.
  - intros y Hy. rewrite elem_of_cons. destruct (decide (y = x)) as [->|Hne].
    + rewrite list_lookup_total_insert_eq by (by rewrite (di_rlen _ _ _ Hi)). tauto.
    + rewrite list_lookup_total_insert_ne by done. rewrite (di_rec _ _ _ Hi y Hy). tauto.
  - intros y Hy. rewrite elem_of_cons. destruct (decide (y = x)) as [->|Hne].
    + rewrite list_lookup_total_insert_eq by (by rewrite (di_vlen _ _ _ Hi)). tauto.
    + rewrite list_lookup_total_insert_ne by done. rewrite (di_vis _ _ _ Hi y Hy). tauto.
  - apply NoDup_cons. split; [done|apply Hi].
  - intros y [->|Hy]%elem_of_cons; [done|]. by apply (di_lt _ _ _ Hi).
Qed.

Lemma dfs_inv_leave stk F dd x t locks :
  dfs_inv (x :: stk) F dd -> topo (x :: F) -> dfs_inv stk (x :: F) (leave_node x t locks dd).
Proof using.
  intros Hi Htopo.
  assert (dfs_inv stk (x :: F) (set_rec x false dd)) as Hi'.
  { pose proof (di_lt _ _ _ Hi x ltac:(left)) as Hx.
    pose proof (di_nd _ _ _ Hi) as [Hn Hnd]%NoDup_cons.
    assert (forall y, y ∈ stk ++ x :: F <-> y ∈ x :: stk ++ F) as Hperm.
    { intros y. rewrite elem_of_app, !elem_of_cons, elem_of_app. tauto. }
    constructor; simpl; try apply Hi; try done.
    - rewrite length_insert. apply Hi.
    - intros y Hy. destruct (decide (y = x)) as [->|Hne].
      + rewrite list_lookup_total_insert_eq by (by rewrite (di_rlen _ _ _ Hi)).
        split; [done|]. intros ?. contradict Hn. apply elem_of_app. by left.
      + rewrite list_lookup_total_insert_ne by done. rewrite (di_rec _ _ _ Hi y Hy), elem_of_cons. tauto.
    - intros y Hy. rewrite (di_vis _ _ _ Hi y Hy). by rewrite Hperm.
    - by rewrite <- Permutation_middle; apply NoDup_cons.
    - intros y Hy. apply (di_lt _ _ _ Hi). by apply Hperm. }
  unfold leave_node. rewrite (di_loop _ _ _ Hi'). simpl.
  case_match; [|done]. constructor; apply Hi'.
Qed.

(** The node [x] joins the nodes that the loop was found from. *)
Lemma found_leave x l stk u dd t :
  found x l (x :: stk) u dd -> path x l u -> thd_of t = x -> live t -> 0 <= t < 2 ^ 31 ->
  found x (x :: l) stk u (leave_node x t (locks_of x) dd).
Proof using Hpos.
  intros [Hl Hf] Hp Ht Hlive Hr. unfold leave_node. cbn [loop onloop min_lock_num set_rec]. rewrite Hl.
  destruct Hf as [(Hon & Hs & Hu & H1000 & Hmin & Hv)|(Hon & c & z & Hc & Hxz & Hzc & Hmin)];
    rewrite Hon; simpl.
  2: { destruct (x =? loopstart dd)%nat; (split; [done|right; split; [done|exists c, z; done]]). }
  set (dd1 := if _ <? _ then _ else _).
  assert (loop dd1 = true /\ onloop dd1 = true /\ loopstart dd1 = loopstart dd /\ is_min dd1 (x :: l))
    as (H1 & H2 & H3 & H4).
  { unfold dd1. case_match; b2p; (split; [done|split; [done|split; [done|]]]).
    - split; [simpl; lia|]. split.
      + simpl. intros y [->|Hy]%elem_of_cons; [done|]. specialize (Hmin y Hy). lia.
      + right. exists x. split_and!; simpl; [by left|done|lia|done|done|lia|lia].
    - split; [done|]. split.
      + simpl. intros y [->|Hy]%elem_of_cons; [lia|]. auto.
      + destruct Hv as [?|(y & Hy & Hrest)]; [by left|]. right. exists y. split; [by right|done]. }
  clearbody dd1. rewrite H3. destruct (Nat.eqb_spec x (loopstart dd)) as [Heq|Hne].
  - split; [done|]. right. split; [done|]. exists (x :: l), x.
    split_and!; [|done|by left|done]. exists x, l, u. split_and!; [done..|]. by rewrite Heq.
  - split; [done|]. left. rewrite H3. split_and!; [done| |done|done].
    by apply elem_of_cons in Hs as [?|?].
Qed.

(** What a call of [nextNode] on a live transaction does. *)
Definition node_result (stk F : list nat) (x : nat) (b : bool) (dd' : DetectData) : Prop :=
  (b = false /\ exists F', dfs_inv stk F' dd' /\ x ∈ F' /\ F ⊆ F') \/
  (b = true /\ exists l u, path x l u /\ found x (x :: l) stk u dd').

Lemma visit_all_spec (rec : Z -> DetectData -> option (bool * DetectData)) stk x n ts F dd :
  (forall F dd t, dfs_inv (x :: stk) F dd -> live t -> 0 <= t < 2 ^ 31 ->
     thd_of t ∉ (x :: stk) ++ F -> (n <= length F)%nat ->
     exists b dd', rec t dd = Some (b, dd') /\ node_result (x :: stk) F (thd_of t) b dd') ->
  dfs_inv (x :: stk) F dd -> (n <= length F)%nat ->
  (forall t, t ∈ ts -> t ∈ adj (dependency !!! x)) ->
  exists dd', visit_all rec dependency ts dd = Some dd' /\
    ((exists F', dfs_inv (x :: stk) F' dd' /\ F ⊆ F' /\
        forall t, t ∈ ts -> live t -> thd_of t ∈ F') \/
     (exists l u, path x l u /\ found x l (x :: stk) u dd')).
Proof using Hpos Hids.
  intros Hrec. revert F dd. induction ts as [|t ts IH]; intros F dd Hi Hn Hts; simpl.
  - exists dd. split; [done|]. left. exists F. split_and!; [done|done|]. by intros ? ?%not_elem_of_nil.
  - assert (t ∈ adj (dependency !!! x)) as Ht by (apply Hts; by left).
    destruct (small_ids t (Hids x t Ht)) as [-> ->]. pose proof (thd_of_lt t) as Hlt.
    assert (forall t', t' ∈ ts -> t' ∈ adj (dependency !!! x)) as Hts' by (intros; apply Hts; by right).
    (* the rest of the list, after this element *)
    assert (forall F1 dd1, dfs_inv (x :: stk) F1 dd1 -> F ⊆ F1 -> (length F <= length F1)%nat ->
      (live t -> thd_of t ∈ F1) ->
      exists dd', visit_all rec dependency ts dd1 = Some dd' /\
        ((exists F', dfs_inv (x :: stk) F' dd' /\ F ⊆ F' /\
            forall t0, t0 ∈ t :: ts -> live t0 -> thd_of t0 ∈ F') \/
         (exists l u, path x l u /\ found x l (x :: stk) u dd'))) as Hnext.
    { intros F1 dd1 Hi1 Hsub Hlen Ht1. destruct (IH F1 dd1 Hi1 ltac:(lia) Hts')
        as (dd' & Hrun & [(F' & HiF & HF1 & Hall)|Hfound]); exists dd'; split; [done| |done|by right].
      left. exists F'. split_and!; [done|by etrans|].
      intros t0 [->|Ht0]%elem_of_cons Hl; [apply HF1, Ht1, Hl|auto]. }
    destruct (recStack dd !!! thd_of t && _) eqn:Hstk; b2p.
    + (* the loop is found *)
      exists (set_loop (thd_of t) dd). split; [done|]. right. exists [], x. split; [done|].
      destruct (di_min _ _ _ Hi) as [Hm1 Hm2].
      split; [done|]. left. split_and!; [done|by apply (di_rec _ _ _ Hi)|by apply live_waits|].
      unfold is_min. simpl. rewrite Hm1, Hm2. split_and!; [done|by intros ? ?%not_elem_of_nil|by left].
    + destruct (negb _ && _) eqn:Hnew; b2p.
      * (* a new node *)
        destruct (Hrec F dd t Hi ltac:(done) (Hids x t Ht)) as (b & dd1 & -> & Hres); [|done|].
        { rewrite <- (di_vis _ _ _ Hi) by done. by rewrite H. }
        destruct Hres as [(-> & F1 & Hi1 & Hx1 & Hsub)|(-> & l & u & Hp & Hf)]; simpl.
        -- apply (Hnext F1); [done|done| |done]. 
           apply NoDup_submseteq in Hsub; [by apply submseteq_length|].
           pose proof (di_nd _ _ _ Hi) as Hnd. by apply NoDup_app in Hnd as (_ & _ & ?).
        -- exists dd1. split; [done|]. right. exists (thd_of t :: l), u.
           assert (waits_for x (thd_of t)) as Hw by by apply live_waits.
           split; [by split|]. destruct Hf as [Hl [Hf|(? & c & z & ? & ? & ? & ?)]]; (split; [done|]).
           ++ by left.
           ++ right. split; [done|]. exists c, z. split_and!; [done|by eapply rtc_l|done|done].
      * (* a finished node, or a transaction that has ended *)
        apply (Hnext F dd); [done|done|done|]. intros Hl.
        destruct (visited dd !!! thd_of t) eqn:Hv; [|by rewrite Hl, Z.eqb_refl in Hnew].
        apply (di_vis _ _ _ Hi) in Hv; [|done]. apply elem_of_app in Hv as [Hv|?]; [|done].
        apply (di_rec _ _ _ Hi) in Hv; [|done]. rewrite Hv in Hstk. simpl in Hstk.
        b2p. congruence.
Qed.

Lemma nextNode_spec fuel stk F dd t :
  dfs_inv stk F dd -> live t -> 0 <= t < 2 ^ 31 -> thd_of t ∉ stk ++ F ->
  (V < fuel + length (stk ++ F))%nat ->
  exists b dd', nextNode fuel dependency t dd = Some (b, dd') /\
    node_result stk F (thd_of t) b dd'.
Proof using Hpos Hids.
  revert stk F dd t. induction fuel as [|fuel IH]; intros stk F dd t Hi Hl Ht Hnew Hfuel.
  - pose proof (NoDup_lt_length (stk ++ F) V (di_nd _ _ _ Hi)) as Hle.
    rewrite Forall_forall in Hle. specialize (Hle (di_lt _ _ _ Hi)). lia.
  - pose proof (thd_of_lt t) as Hlt. simpl. rewrite c_assert_true.
    2: { apply negb_true_iff. apply not_true_iff_false. by rewrite (di_vis _ _ _ Hi). }
    destruct (small_ids t Ht) as [_ ->]. rewrite Hl, Z.eqb_refl. simpl.
    set (x := thd_of t) in *. set (dd1 := set_rec _ _ _).
    destruct (visit_all_spec (nextNode fuel dependency) stk x (length F)
      (adj (dependency !!! x)) F dd1) as (dd2 & -> & Hres); [|by apply dfs_inv_push|done|done|].
    { intros F1 d1 t1 Hi1 Hl1 Ht1 Hn1 Hlen. apply IH; [done..|].
      simpl. rewrite length_app in Hfuel |- *. lia. }
    eexists _, _. split; [done|].
    destruct Hres as [(F' & Hi' & Hsub & Hall)|(l & u & Hp & Hf)].
    + left. assert (dfs_inv stk (x :: F') (leave_node x t (num_locks (dependency !!! x)) dd2)) as Hd.
      { apply dfs_inv_leave; [done|]. constructor; [apply Hi'|].
        intros y (t' & Ht' & <- & Hy). apply Hall; done. }
      split; [apply Hd|]. exists (x :: F'). split_and!; [done|by left|]. set_solver.
    + right. pose proof (found_leave x l stk u dd2 t Hf Hp ltac:(done) Hl Ht) as Hf'.
      split; [apply Hf'|]. by exists l, u.
Qed.

Lemma dfs_inv_init onloop0 loopstart0 : dfs_inv [] [] (new_detect_data V onloop0 loopstart0).
Proof using.
  constructor; simpl; try done; try apply length_replicate; try apply NoDup_nil_2;
    try apply topo_nil.
  - intros x Hx. rewrite lookup_total_replicate_2 by done. by split; [|intros ?%not_elem_of_nil].
  - intros x Hx. rewrite lookup_total_replicate_2 by done. by split; [|intros ?%not_elem_of_nil].
  - by intros x ?%not_elem_of_nil.
Qed.
End dfs.

(** ** Properties *)

(** C23. [detect_cycle], called for a waiting transaction [txnid] (as row.cpp does
    after [add_dep]) while all transaction ids are below 2^31, returns 1 exactly
    when a cycle of the waits-for graph can be reached from it, whatever the uninitialised fields hold; the search always
    ends.  The victim is then a thread on the cycle that holds the fewest locks,
    unless all of them hold at least 1000. *)
Theorem detect_cycle_correct dependency onloop0 loopstart0 txnid
  (Hpos : (0 < V dependency)%nat)
  (Hids : forall x t, t ∈ adj (dependency !!! x) -> 0 <= t < 2 ^ 31)
  (Ht : 0 <= txnid < 2 ^ 31)
  (Hlive : live dependency txnid) :
  exists r victim,
    detect_cycle false dependency onloop0 loopstart0 txnid = Some (r, victim) /\
    let x := thd_of dependency txnid in
    ((r = 0 /\ victim = None /\
      ~ exists y, rtc (waits_for dependency) x y /\ tc (waits_for dependency) y y) \/
     (r = 1 /\ exists c z, cycle dependency c /\ z ∈ c /\ rtc (waits_for dependency) x z /\
      ((forall y, y ∈ c -> 1000 <= locks_of dependency y) \/
       exists y, victim = Some y /\ y ∈ c /\
         forall y', y' ∈ c -> locks_of dependency y <= locks_of dependency y'))).
Proof.
  unfold detect_cycle, isCyclic.
  destruct (nextNode_spec dependency Hpos Hids (S (V dependency)) [] []
    (new_detect_data (V dependency) onloop0 loopstart0) txnid) as (b & dd & -> & Hres);
    [apply dfs_inv_init|done|done|apply not_elem_of_nil|simpl; lia|].
  destruct Hres as [(-> & F & Hi & Hx & _)|(-> & l & u & _ & Hl & [(_ & Hs & _)|Hf])].
  - exists 0, None. split; [done|]. left. split_and!; [done|done|].
    intros (y & Hxy & Hyy). pose proof (di_topo _ _ _ _ Hi) as Htopo.
    eapply topo_acyclic; [exact Htopo|by eapply topo_rtc|exact Hyy].
  - by apply not_elem_of_nil in Hs.
  - destruct Hf as (_ & c & z & Hc & Hxz & Hz & _ & Hmin & Hv). simpl.
    eexists 1, _. split; [done|]. right. split; [done|]. exists c, z. split_and!; [done..|].
    destruct Hv as [[Hm _]|(y & Hy & Hly & _ & Hty & Hlm & Hmr)].
    + left. intros y Hy. rewrite <- Hm. auto.
    + right. exists y. destruct (small_ids _ Hmr) as [_ ->]. rewrite Hlm, Z.eqb_refl, Hty.
      split_and!; [done|done|]. intros y' Hy'. rewrite Hly. auto.
Qed.

(** Three threads: transaction 3 of thread 0 waits for 4, 4 and 5 wait for each
    other, and 5 holds fewer locks. *)
Definition deps_ex : list DepThd :=
  add_dep false 5 [4] 1 (add_dep false 4 [5] 2 (add_dep false 3 [4] 0
    (replicate 3 (mkDep [] (-1) 0)))).

Lemma detect_cycle_correct_witness :
  detect_cycle false deps_ex true 7 3 = Some (1, Some 2%nat) /\
  exists r victim, detect_cycle false deps_ex true 7 3 = Some (r, victim) /\
    ((r = 0 /\ victim = None /\
      ~ exists y, rtc (waits_for deps_ex) (thd_of deps_ex 3) y /\ tc (waits_for deps_ex) y y) \/
     (r = 1 /\ exists c z, cycle deps_ex c /\ z ∈ c /\ rtc (waits_for deps_ex) (thd_of deps_ex 3) z /\
      ((forall y, y ∈ c -> 1000 <= locks_of deps_ex y) \/
       exists y, victim = Some y /\ y ∈ c /\
         forall y', y' ∈ c -> locks_of deps_ex y <= locks_of deps_ex y'))).
Proof.
  split; [vm_compute; reflexivity|].
  apply (detect_cycle_correct deps_ex true 7 3).
  - vm_compute. lia.
  - intros x t. change deps_ex with [mkDep [4] 3 0; mkDep [5] 4 2; mkDep [4] 5 1].
    destruct x as [|[|[|x]]]; cbn; rewrite ?list_elem_of_singleton, ?elem_of_nil; lia.
  - lia.
  - vm_compute. reflexivity.
Defined.

(** Limits of the detector.
    (1) The transaction ids of a loop are compared through a 32-bit cast: with
    ids from [2 ^ 31] on a deadlock of two transactions is not found.
    (2) When every transaction of the cycle holds at least 1000 locks, the victim
    is taken from [min_txnid = -1]: a thread that is not waiting is told to
    abort. *)
Theorem detect_cycle_limits :
  (let d := add_dep false (2 ^ 31) [2 ^ 31 + 1] 1
              (add_dep false (2 ^ 31 + 1) [2 ^ 31] 1 (replicate 2 (mkDep [] (-1) 0))) in
   tc (waits_for d) 0%nat 0%nat /\ detect_cycle false d false 0 (2 ^ 31) = Some (0, None)) /\
  (let d := add_dep false 0 [1] 1000
              (add_dep false 1 [0] 1000 (replicate 4 (mkDep [] (-1) 0))) in
   detect_cycle false d false 0 0 = Some (1, Some 3%nat) /\
   adj (d !!! 3%nat) = [] /\ forall x, ~ waits_for d x 3%nat).
Proof.
  split_and!; intros d; split.
  - eapply tc_l; [|apply tc_once]; [exists (2 ^ 31 + 1)|exists (2 ^ 31)];
      (split; [by left|by vm_compute]).
  - vm_compute. reflexivity.
  - vm_compute. reflexivity.
  - split; [done|]. intros x (t & Ht & _ & Ht'). change (-1 = t) in Ht'. subst t.
    change d with [mkDep [1] 0 1000; mkDep [0] 1 1000; mkDep [] (-1) 0; mkDep [] (-1) 0] in Ht.
    destruct x as [|[|[|[|x]]]]; cbn in Ht;
      by rewrite ?list_elem_of_singleton, ?elem_of_nil in Ht.
Qed.
