(* ===== verification/Manager.v ===== *)
(** * The global manager: timestamps and the oldest active timestamp

    [Manager] of src/system/manager.cpp and [thread_t::get_next_ts] of
    src/system/thread.cpp.  One record holds the manager's fields; a reading of
    [get_sys_clock] is an argument of the operations that take one.  The last
    Section runs the threads of an MVCC system: each allocates a timestamp,
    registers it with [add_ts], and thread 0 recomputes the minimum in
    [get_min_ts], one load of [all_ts] per step. *)

From stdpp Require Import list gmap.
From S2P Require Import Prelude Global.

Inductive TsAlloc := TS_MUTEX | TS_CAS | TS_HW | TS_CLOCK.

Record TsCfg := mkTsCfg {
  g_ts_alloc : TsAlloc;
  g_ts_batch_alloc : bool;
  g_ts_batch_num : Z;
  g_thread_cnt : nat;
  MIN_TS_INTVL : Z;
  BUCKET_CNT : Z;
  MEM_ALLIGN : Z;
  LOG_BATCH_TIME : Z }.

(** The pointers [_epoch] and [_last_epoch_update_time] are [None] when null;
    an entry of [all_txns] is the transaction manager of a thread. *)
Record Manager := mkMan {
  timestamp : Z;
  last_min_ts_time : Z;
  min_ts : Z;
  epoch : option Z;
  last_epoch_update_time : option Z;
  all_ts : list Z;
  all_txns : list (option nat) }.

Definition set_timestamp (t : Z) (m : Manager) : Manager :=
  mkMan t (last_min_ts_time m) (min_ts m) (epoch m) (last_epoch_update_time m)
    (all_ts m) (all_txns m).
Definition set_min_ts (t : Z) (m : Manager) : Manager :=
  mkMan (timestamp m) (last_min_ts_time m) t (epoch m) (last_epoch_update_time m)
    (all_ts m) (all_txns m).
Definition set_all_ts (l : list Z) (m : Manager) : Manager :=
  mkMan (timestamp m) (last_min_ts_time m) (min_ts m) (epoch m) (last_epoch_update_time m)
    l (all_txns m).

Section manager.
Context (cfg : TsCfg).

(** [Manager::init]; the two pointers to the epoch are set to 0 after their
    targets have been allocated. *)
Definition init : Manager :=
  mkMan 1 0 0 None None (replicate (g_thread_cnt cfg) UINT64_MAX)
    (replicate (g_thread_cnt cfg) None).

(** [clock] is what [get_sys_clock] returns; [None] is a failed assertion
    ([TS_HW] needs the Graphite simulator, which the build switches off). *)
Definition get_ts (thread_id : nat) (clock : Z) (m : Manager) : option (Z * Manager) :=
  assert! negb (g_ts_batch_alloc cfg) || (match g_ts_alloc cfg with TS_CAS => true | _ => false end);;
  match g_ts_alloc cfg with
  | TS_MUTEX =>
      let time := u64 (timestamp m + 1) in Some (time, set_timestamp time m)
  | TS_CAS =>
      let n := if g_ts_batch_alloc cfg then g_ts_batch_num cfg else 1 in
      Some (timestamp m, set_timestamp (u64 (timestamp m + n)) m)
  | TS_HW => None
  | TS_CLOCK => Some (u64 (clock * Z.of_nat (g_thread_cnt cfg) + Z.of_nat thread_id), m)
  end.

(** The body of the loop of [get_min_ts], and its condition. *)
Definition min_load (ts min : Z) : Z := if ts <? min then ts else min.

Definition min_ts_due (tid : nat) (now : Z) (m : Manager) : bool :=
  (tid =? 0)%nat && (MIN_TS_INTVL cfg <? u64 (now - last_min_ts_time m)).

Definition raise_min_ts (min : Z) (m : Manager) : Manager :=
  if min_ts m <? min then set_min_ts min m else m.

Definition get_min_ts (tid : nat) (now : Z) (m : Manager) : Z * Manager :=
  let m := if min_ts_due tid now m
           then raise_min_ts (fold_left (fun min ts => min_load ts min) (all_ts m) UINT64_MAX) m
           else m in
  (min_ts m, m).

Definition add_ts (thd_id : nat) (ts : Z) (m : Manager) : option Manager :=
  let old := all_ts m !!! thd_id in
  assert! (old <=? ts) || (old =? UINT64_MAX);;
  Some (set_all_ts (<[thd_id := ts]> (all_ts m)) m).

Definition set_txn_man (thd_id txn : nat) (m : Manager) : Manager :=
  mkMan (timestamp m) (last_min_ts_time m) (min_ts m) (epoch m) (last_epoch_update_time m)
    (all_ts m) (<[thd_id := Some txn]> (all_txns m)).

(** [row] is the address of the row. *)
Definition hash (row : Z) : Z :=
  let addr := row / MEM_ALLIGN cfg in
  u64 (addr * 1103515247 + 12345) mod BUCKET_CNT cfg.

(** [None] is the dereference of a null pointer. *)
Definition get_epoch (m : Manager) : option Z := epoch m.

Definition update_epoch (time : Z) (m : Manager) : option Manager :=
  do! last <- last_epoch_update_time m;;
  if LOG_BATCH_TIME cfg * 1000 * 1000 <? u64 (time - last) then
    do! e <- epoch m;;
    Some (mkMan (timestamp m) (last_min_ts_time m) (min_ts m) (Some (u64 (e + 1))) (Some time)
            (all_ts m) (all_txns m))
  else Some m.

(** [thread_t::get_next_ts]; [curr] is the thread's [_curr_ts]. *)
Definition get_next_ts (thd : nat) (clock curr : Z) (m : Manager) : option (Z * Z * Manager) :=
  if g_ts_batch_alloc cfg then
    if curr mod g_ts_batch_num cfg =? 0 then
      do! r <- get_ts thd clock m;;
      let curr := u64 (fst r + 1) in Some (u64 (curr - 1), curr, snd r)
    else
      let curr := u64 (curr + 1) in Some (u64 (curr - 1), curr, m)
  else
    do! r <- get_ts thd clock m;; Some (fst r, fst r, snd r).

Lemma hash_range row : 0 < BUCKET_CNT cfg -> 0 <= hash row < BUCKET_CNT cfg.
Proof. intros H. apply Z.mod_pos_bound, H. Qed.

Lemma get_min_ts_due now m :
  min_ts_due 0 now m = true ->
  fst (get_min_ts 0 now m) = Z.max (min_ts m) (foldr Z.min UINT64_MAX (all_ts m)).
Proof.
  intros Hd. unfold get_min_ts. rewrite Hd.
  assert (forall l z, fold_left (fun min ts => min_load ts min) l z = Z.min z (foldr Z.min UINT64_MAX l)
    \/ UINT64_MAX < z) as Hf.
  { induction l as [|a l IH]; intros z; simpl; [lia|].
    destruct (IH (min_load a z)) as [-> | Hz]; unfold min_load in *; destruct (a <? z) eqn:E; b2p; lia. }
  destruct (Hf (all_ts m) UINT64_MAX) as [-> | ?]; [|lia].
  assert (forall l, foldr Z.min UINT64_MAX l <= UINT64_MAX) as Hle by (induction l; simpl; lia).
  specialize (Hle (all_ts m)). rewrite Z.min_r by done.
  unfold raise_min_ts. destruct (min_ts m <? _) eqn:E; b2p; simpl; lia.
Qed.
End manager.

(** ** Batches *)

Lemma div_pred B c : 0 < B -> c mod B <> 0 -> (c - 1) / B = c / B.
Proof.
  intros HB Hc. pose proof (Z.div_mod c B ltac:(lia)). pose proof (Z.mod_pos_bound c B HB).
  symmetry. apply Z.div_unique with (c mod B - 1); lia.
Qed.

Lemma mod_lt_mul B c K : 0 < B -> c mod B <> 0 -> c < 1 + K * B -> c < K * B.
Proof.
  intros HB Hc Hlt. destruct (decide (c = K * B)) as [->|]; [|lia].
  by rewrite Z.mod_mul in Hc by lia.
Qed.

Lemma div_first B K r : 0 <= r < B -> (r + K * B) / B = K.
Proof. intros Hr. symmetry. apply Z.div_unique with r; lia. Qed.

Lemma mod_two B K : 0 < B -> (2 + K * B) mod B <> 0 -> 2 < B \/ B = 1 /\ False.
Proof.
  intros HB. rewrite Z.mod_add by lia. intros Hm.
  destruct (decide (B = 1)) as [->|]; [by rewrite Z.mod_1_r in Hm|].
  destruct (decide (B = 2)) as [->|]; [done|]. lia.
Qed.

(** ** Threads that allocate and register timestamps

    [pend] holds the timestamp a thread was given and has not registered yet
    ([m_txn->get_ts()] between lines 112 and 124 of thread.cpp), [scan] the index
    and the minimum of a running loop of [get_min_ts].  Ghost state: [issued],
    the timestamps given out, oldest first, with their threads; [clk], the last
    clock reading of each thread; [missed], the threads of which the loop loaded
    the initial value because they had not registered a timestamp yet. *)
Record State := mkState {
  man : Manager;
  curr : list Z;
  pend : list (option Z);
  scan : option (nat * Z);
  issued : list (nat * Z);
  clk : list Z;
  missed : gset nat }.

Section threads.
Context (cfg : TsCfg).
Notation cnt := (g_thread_cnt cfg).

(** The [_curr_ts] of the threads is [curr0]: [thread_t::init] does not set it. *)
Definition init_state (curr0 : list Z) : State :=
  mkState (init cfg) curr0 (replicate cnt None) None [] (replicate cnt (-1)) ∅.

(** The counter and the products of the clock stay below [UINT64_MAX], and a
    thread never reads the same clock value twice. *)
Definition no_wrap (s : State) (i : nat) (clock : Z) : Prop :=
  timestamp (man s) + Z.max 1 (g_ts_batch_num cfg) < UINT64_MAX /\
  clk s !!! i < clock /\ (clock + 1) * Z.of_nat cnt < UINT64_MAX.

Inductive step : State -> State -> Prop :=
  | step_next s i clock ts c m :
      (i < cnt)%nat -> pend s !!! i = None -> no_wrap s i clock ->
      get_next_ts cfg i clock (curr s !!! i) (man s) = Some (ts, c, m) ->
      step s (mkState m (<[i := c]> (curr s)) (<[i := Some ts]> (pend s)) (scan s)
                (issued s ++ [(i, ts)]) (<[i := clock]> (clk s)) (missed s))
  | step_add s i ts m :
      (i < cnt)%nat -> pend s !!! i = Some ts -> add_ts i ts (man s) = Some m ->
      step s (mkState m (curr s) (<[i := None]> (pend s)) (scan s) (issued s) (clk s) (missed s))
  | step_scan s now :
      scan s = None -> pend s !!! 0%nat = None -> all_ts (man s) !!! 0%nat <> UINT64_MAX ->
      min_ts_due cfg 0 now (man s) = true ->
      step s (mkState (man s) (curr s) (pend s) (Some (0%nat, UINT64_MAX)) (issued s) (clk s)
                (missed s))
  | step_load s j min :
      scan s = Some (j, min) -> (j < cnt)%nat ->
      let ts := all_ts (man s) !!! j in
      step s (mkState (man s) (curr s) (pend s) (Some (S j, min_load ts min)) (issued s) (clk s)
                (if ts =? UINT64_MAX then {[j]} ∪ missed s else missed s))
  | step_min s min :
      scan s = Some (cnt, min) ->
      step s (mkState (raise_min_ts min (man s)) (curr s) (pend s) None (issued s) (clk s)
                (missed s)).

Definition reachable (curr0 : list Z) : State -> Prop := rtc step (init_state curr0).

(** What the allocation keeps, per mode: the timestamps given out are behind the
    counter, or are products of clock values already read; with batches a thread
    in the middle of a batch is ahead of everything given out from it. *)
Definition batch_of (t : Z) : Z := (t - 1) / g_ts_batch_num cfg.

Definition batch_inv (time : Z) (curr : list Z) (issued : list (nat * Z)) : Prop :=
  let B := g_ts_batch_num cfg in
  (exists K, 0 <= K /\ time = 1 + K * B) /\
  (forall i t, (i, t) ∈ issued -> 0 < t < time /\ t < curr !!! i) /\
  (forall i, (i < cnt)%nat -> curr !!! i mod B <> 0 ->
    1 < curr !!! i < time /\
    forall j t, (j, t) ∈ issued -> batch_of t = batch_of (curr !!! i) -> j = i) /\
  (forall i j, (i < cnt)%nat -> (j < cnt)%nat -> i <> j -> curr !!! i mod B <> 0 ->
    curr !!! j mod B <> 0 -> batch_of (curr !!! i) <> batch_of (curr !!! j)).

Definition alloc_inv (time : Z) (curr clk : list Z) (issued : list (nat * Z)) : Prop :=
  (forall i t, (i, t) ∈ issued -> (i < cnt)%nat /\ 0 <= t) /\
  match g_ts_alloc cfg with
  | TS_MUTEX => 1 <= time /\ forall i t, (i, t) ∈ issued -> t <= time
  | TS_CAS =>
      if g_ts_batch_alloc cfg then
        batch_inv time curr issued
      else 1 <= time /\ forall i t, (i, t) ∈ issued -> t < time
  | TS_CLOCK =>
      forall i t, (i, t) ∈ issued ->
        exists k, 0 <= k <= clk !!! i /\ t = k * Z.of_nat cnt + Z.of_nat i
  | TS_HW => False
  end.

(** [TS_HW] is out, and batches need [TS_CAS], as [get_ts] asserts. *)
Definition cfg_ok : Prop :=
  g_ts_alloc cfg <> TS_HW /\
  (g_ts_batch_alloc cfg = true -> g_ts_alloc cfg = TS_CAS /\ 0 < g_ts_batch_num cfg).

(** What [get_next_ts] promises of the timestamp [ts] for thread [i]. *)
Definition fresh_for (i : nat) (ts : Z) (issued : list (nat * Z)) : Prop :=
  0 <= ts < UINT64_MAX /\ forall j t, (j, t) ∈ issued -> t <> ts /\ (j = i -> t < ts).

Lemma elem_of_snoc i t (l : list (nat * Z)) x : x ∈ l ++ [(i, t)] <-> x ∈ l \/ x = (i, t).
Proof. by rewrite elem_of_app, list_elem_of_singleton. Qed.

Lemma mul_cnt_inj k k' (i j : nat) :
  (i < cnt)%nat -> (j < cnt)%nat ->
  k * Z.of_nat cnt + Z.of_nat i = k' * Z.of_nat cnt + Z.of_nat j -> k = k' /\ i = j.
Proof. intros. assert (k = k') as -> by nia. lia. Qed.

(** A thread at a batch boundary takes the next batch, and later one number
    after the other. *)
Lemma batch_refill time curr issued i :
  0 < g_ts_batch_num cfg -> (i < cnt)%nat -> length curr = cnt ->
  batch_inv time curr issued ->
  batch_inv (time + g_ts_batch_num cfg) (<[i := time + 1]> curr) (issued ++ [(i, time)]).
Proof.
  unfold batch_inv, batch_of. set (B := g_ts_batch_num cfg).
  intros HB Hi Hlc ((K & HK & ->) & Hiss & Hact & Hdis).
  assert (forall j, j <> i -> <[i := 1 + K * B + 1]> curr !!! j = curr !!! j) as Hne
    by (intros; by rewrite list_lookup_total_insert_ne).
  assert (<[i := 1 + K * B + 1]> curr !!! i = 2 + K * B) as Hii
    by (rewrite list_lookup_total_insert_eq; lia).
  assert ((2 + K * B) mod B <> 0 -> (2 + K * B - 1) / B = K /\ 2 + K * B < 1 + K * B + B) as Hnew.
  { intros [?|[? []]]%mod_two; [|done]. split; [|lia]. rewrite <- (div_first B K 1) at 2; [f_equal; lia|lia]. }
  assert (forall t, t < 1 + K * B -> (t - 1) / B <> K) as Hold.
  { intros t Ht. assert ((t - 1) / B < K); [|lia]. apply Z.div_lt_upper_bound; lia. }
  split_and!.
  - exists (K + 1). lia.
  - intros j t [[? ?]%Hiss|[= -> ->]]%elem_of_snoc; [|lia].
    destruct (decide (j = i)) as [->|]; [lia|]. rewrite Hne by done. lia.
  - intros j Hj Hm. destruct (decide (j = i)) as [->|].
    + rewrite Hii in *. destruct (Hnew Hm) as [-> ?]. split; [lia|].
      intros j t [Hjt|[= -> ->]]%elem_of_snoc; [|done]. destruct (Hiss _ _ Hjt).
      intros Hb. exfalso. apply (Hold t); [lia|done].
    + rewrite Hne in * by done. destruct (Hact j Hj Hm) as [? Ha]. split; [lia|].
      intros j' t [Hjt|[= -> ->]]%elem_of_snoc; [by eauto|].
      replace (1 + K * B - 1) with (0 + K * B) by lia. rewrite div_first by lia.
      intros Hb. exfalso. eapply Hold; [|by symmetry]. lia.
  - intros j j' Hj Hj' Hjj. destruct (decide (j = i)) as [->|], (decide (j' = i)) as [->|]; [done|..];
      rewrite ?Hii, ?Hne by done; [| |by apply Hdis].
    + intros Hm Hm'. destruct (Hnew Hm) as [-> ?]. destruct (Hact j' Hj' Hm') as [? ?].
      intros Hb. eapply Hold; [|by symmetry]. lia.
    + intros Hm Hm'. destruct (Hnew Hm') as [-> ?]. destruct (Hact j Hj Hm) as [? ?].
      apply Hold. lia.
Qed.

Lemma batch_next time curr issued i :
  0 < g_ts_batch_num cfg -> (i < cnt)%nat -> length curr = cnt ->
  curr !!! i mod g_ts_batch_num cfg <> 0 ->
  batch_inv time curr issued ->
  batch_inv time (<[i := curr !!! i + 1]> curr) (issued ++ [(i, curr !!! i)]).
Proof.
  unfold batch_inv, batch_of. set (B := g_ts_batch_num cfg).
  intros HB Hi Hlc Hci ((K & HK & ->) & Hiss & Hact & Hdis).
  destruct (Hact i Hi Hci) as [Hlt Hown].
  assert (curr !!! i < K * B) by (apply mod_lt_mul; [done|done|lia]).
  assert (forall j, j <> i -> <[i := curr !!! i + 1]> curr !!! j = curr !!! j) as Hne
    by (intros; by rewrite list_lookup_total_insert_ne).
  assert (<[i := curr !!! i + 1]> curr !!! i = curr !!! i + 1) as Hii
    by (rewrite list_lookup_total_insert_eq; [done|lia]).
  assert ((curr !!! i + 1 - 1) / B = (curr !!! i - 1) / B) as Hb.
  { rewrite (div_pred _ (curr !!! i)) by done. f_equal. lia. }
  split_and!.
  - by exists K.
  - intros j t [[? ?]%Hiss|[= -> ->]]%elem_of_snoc; [|rewrite Hii; lia].
    split; [lia|]. destruct (decide (j = i)) as [->|]; [lia|]. by rewrite Hne.
  - intros j Hj Hm. destruct (decide (j = i)) as [->|].
    + rewrite Hii, Hb in *. split; [lia|]. intros j t [Hjt|[= -> ->]]%elem_of_snoc; by eauto.
    + rewrite Hne in * by done. destruct (Hact j Hj Hm) as [? Ha]. split; [lia|].
      intros j' t [Hjt|[= -> ->]]%elem_of_snoc; [by eauto|].
      intros Hbb. by destruct (Hdis i j).
  - intros j j' Hj Hj' Hjj. destruct (decide (j = i)) as [->|], (decide (j' = i)) as [->|]; [done|..];
      rewrite ?Hii, ?Hne, ?Hb by done; auto.
Qed.

Lemma get_next_ts_fresh i clock m curr clk issued :
  cfg_ok -> (i < cnt)%nat -> length curr = cnt -> length clk = cnt -> -1 <= clk !!! i ->
  alloc_inv (timestamp m) curr clk issued ->
  timestamp m + Z.max 1 (g_ts_batch_num cfg) < UINT64_MAX ->
  clk !!! i < clock -> (clock + 1) * Z.of_nat cnt < UINT64_MAX ->
  exists ts c m', get_next_ts cfg i clock (curr !!! i) m = Some (ts, c, m') /\
    fresh_for i ts issued /\ m' = set_timestamp (timestamp m') m /\
    alloc_inv (timestamp m') (<[i := c]> curr) (<[i := clock]> clk) (issued ++ [(i, ts)]).
Proof.
  intros [Hhw Hb] Hi Hlc Hlk Hk [Hids Hinv] Ht Hclk Hcw.
  assert (forall ts, fresh_for i ts issued ->
    forall j t, (j, t) ∈ issued ++ [(i, ts)] -> (j < cnt)%nat /\ 0 <= t) as Hids'.
  { intros ts [? _] j t [?|[= -> ->]]%elem_of_snoc; [eauto|]. split; [done|lia]. }
  assert (forall z, 0 <= z < UINT64_MAX -> u64 z = z) as Hu
    by (intros; apply u64_small; unfold is_u64, UINT64_MAX in *; lia).
  unfold get_next_ts, get_ts, alloc_inv in *.
  destruct (g_ts_batch_alloc cfg) eqn:Eb.
  - destruct (Hb eq_refl) as [Ec HB]. rewrite Ec in *. simpl.
    set (B := g_ts_batch_num cfg) in *.
    pose proof Hinv as ((K & HK & HtK) & Hiss & Hact & Hdis). fold B in HtK, Hact, Hdis.
    assert (1 <= timestamp m) by nia.
    destruct (curr !!! i mod B =? 0) eqn:Em; b2p; simpl.
    + rewrite (Hu (timestamp m + 1)), (Hu (timestamp m + B)), (Hu (timestamp m + 1 - 1)) by lia.
      replace (timestamp m + 1 - 1) with (timestamp m) by lia.
      assert (fresh_for i (timestamp m) issued) as Hf
        by (split; [lia|]; intros j t [? ?]%Hiss; lia).
      eexists _, _, _. split; [done|]. split; [done|]. split; [done|]. split; [by apply Hids'|].
      by apply batch_refill.
    + destruct (Hact i Hi Em) as [? ?].
      rewrite (Hu (curr !!! i + 1)), (Hu (curr !!! i + 1 - 1)) by lia.
      replace (curr !!! i + 1 - 1) with (curr !!! i) by lia.
      assert (fresh_for i (curr !!! i) issued) as Hf.
      { split; [lia|]. intros j t Ht'. destruct (Hiss _ _ Ht').
        split; [|by intros ->]. intros ->. 
        assert (j = i) as -> by eauto. lia. }
      eexists _, _, _. split; [done|]. split; [done|]. split; [by destruct m|]. split; [by apply Hids'|].
      by apply batch_next.
  - simpl. destruct (g_ts_alloc cfg) eqn:Ea; [| |done|]; simpl.
    + destruct Hinv as [? Hiss]. rewrite !Hu by lia.
      assert (fresh_for i (timestamp m + 1) issued) as Hf
        by (split; [lia|]; intros j t ?%Hiss; lia).
      eexists _, _, _. split; [done|]. split; [done|]. split; [done|]. split; [by apply Hids'|].
      simpl. split; [lia|]. intros j t [?%Hiss|[= -> ->]]%elem_of_snoc; lia.
    + destruct Hinv as [? Hiss]. rewrite !Hu by lia.
      assert (fresh_for i (timestamp m) issued) as Hf
        by (split; [lia|]; intros j t ?%Hiss; lia).
      eexists _, _, _. split; [done|]. split; [done|]. split; [done|]. split; [by apply Hids'|].
      simpl. split; [lia|]. intros j t [?%Hiss|[= -> ->]]%elem_of_snoc; lia.
    + rewrite !Hu by nia.
      assert (fresh_for i (clock * Z.of_nat cnt + Z.of_nat i) issued) as Hf.
      { split; [nia|]. intros j t Hjt. destruct (Hinv _ _ Hjt) as (k & Hk' & ->).
        destruct (Hids _ _ Hjt). split; [|intros ->; nia].
        intros [? ?]%mul_cnt_inj; [|lia..]. subst. lia. }
      eexists _, _, _. split; [done|]. split; [done|]. split; [by destruct m|]. split; [by apply Hids'|].
      intros j t [Hjt|[= -> ->]]%elem_of_snoc.
      * destruct (Hinv _ _ Hjt) as (k & Hk' & ->). exists k. split; [|done].
        destruct (decide (j = i)) as [->|].
        -- rewrite list_lookup_total_insert_eq by lia. lia.
        -- by rewrite list_lookup_total_insert_ne.
      * exists clock. rewrite list_lookup_total_insert_eq by lia. lia.
Qed.

(** ** The invariant of the threads *)

Definition before (a b : nat * Z) : Prop := a.2 <> b.2 /\ (a.1 = b.1 -> a.2 < b.2).

Record inv (s : State) : Prop := {
  inv_curr : length (curr s) = cnt;
  inv_pend_len : length (pend s) = cnt;
  inv_clk_len : length (clk s) = cnt;
  inv_all_len : length (all_ts (man s)) = cnt;
  inv_clk : forall i, (i < cnt)%nat -> -1 <= clk s !!! i;
  inv_alloc : alloc_inv (timestamp (man s)) (curr s) (clk s) (issued s);
  inv_sorted : StronglySorted before (issued s);
  inv_lt : forall i t, (i, t) ∈ issued s -> 0 <= t < UINT64_MAX;
  inv_reg : forall i, (i < cnt)%nat ->
    all_ts (man s) !!! i = UINT64_MAX \/ (i, all_ts (man s) !!! i) ∈ issued s;
  inv_pend : forall i ts, (i < cnt)%nat -> pend s !!! i = Some ts ->
    (i, ts) ∈ issued s /\ forall t, (i, t) ∈ issued s -> t <= ts;
  inv_min : forall i, (i < cnt)%nat -> i ∉ missed s -> min_ts (man s) <= all_ts (man s) !!! i;
  inv_unloaded : forall i, (i < cnt)%nat -> i ∉ missed s -> all_ts (man s) !!! i = UINT64_MAX ->
    min_ts (man s) = 0;
  inv_scan : forall j mn, scan s = Some (j, mn) -> (j <= cnt)%nat /\
    forall i, (i < j)%nat -> i ∉ missed s ->
      mn <= all_ts (man s) !!! i /\ all_ts (man s) !!! i <> UINT64_MAX }.

Lemma StronglySorted_app_one (R : nat * Z -> nat * Z -> Prop) l x :
  StronglySorted R l -> (forall y, y ∈ l -> R y x) -> StronglySorted R (l ++ [x]).
Proof.
  intros Hl. induction Hl as [|a l Hl IH Ha]; intros HR; simpl; [by repeat constructor|].
  constructor; [apply IH; intros y Hy; apply HR; by right|].
  rewrite Forall_app. split; [done|]. constructor; [apply HR; by left|done].
Qed.

Context (Hcfg : cfg_ok).

Lemma mgr_next s i clock ts c m :
  (i < cnt)%nat -> pend s !!! i = None -> no_wrap s i clock ->
  get_next_ts cfg i clock (curr s !!! i) (man s) = Some (ts, c, m) -> inv s ->
  inv (mkState m (<[i := c]> (curr s)) (<[i := Some ts]> (pend s)) (scan s)
         (issued s ++ [(i, ts)]) (<[i := clock]> (clk s)) (missed s)).
Proof using Hcfg.
  intros Hi Hp (Hw1 & Hw2 & Hw3) Hg I.
  destruct (get_next_ts_fresh i clock (man s) (curr s) (clk s) (issued s)) as
    (ts' & c' & m' & Hg' & [Hts Hf] & Hm & Ha); try (by eauto using inv_curr, inv_clk_len, inv_clk, inv_alloc).
  rewrite Hg in Hg'. injection Hg' as <- <- <-.
  destruct I as [? ? ? ? Hclk ? ? Hlt Hreg Hpend Hmin ? Hscan].
  assert (all_ts m = all_ts (man s) /\ min_ts m = min_ts (man s)) as [Ea Em] by (rewrite Hm; done).
  constructor; simpl; rewrite ?Ea, ?Em, ?length_insert; try done.
  - intros j Hj. specialize (Hclk j Hj).
    destruct (decide (j = i)) as [->|].
    + rewrite list_lookup_total_insert_eq; lia.
    + by rewrite list_lookup_total_insert_ne.
  - apply StronglySorted_app_one; [done|]. intros [j t] Hjt. by apply Hf.
  - intros j t [?|[= -> ->]]%elem_of_snoc; [eauto|done].
  - intros j Hj. destruct (Hreg j Hj); [by left|right]. apply elem_of_snoc. by left.
  - intros j t Hj. destruct (decide (j = i)) as [->|].
    + rewrite list_lookup_total_insert_eq by lia. intros [= <-].
      split; [apply elem_of_snoc; by right|].
      intros t [Ht|[= ->]]%elem_of_snoc; [|lia]. destruct (Hf i t Ht) as [_ Hlt']. specialize (Hlt' eq_refl). lia.
    + rewrite list_lookup_total_insert_ne by done. intros [? Ht]%Hpend; [|done].
      split; [apply elem_of_snoc; by left|]. intros t' [?|[= -> ->]]%elem_of_snoc; [auto|done].
Qed.

(** The assertion of [add_ts] never fails. *)
Lemma add_ts_ok s i ts :
  inv s -> (i < cnt)%nat -> pend s !!! i = Some ts ->
  add_ts i ts (man s) = Some (set_all_ts (<[i := ts]> (all_ts (man s))) (man s)) /\
  (all_ts (man s) !!! i <= ts \/ all_ts (man s) !!! i = UINT64_MAX).
Proof using Type.
  intros I Hi Hp. destruct (inv_pend _ I i ts Hi Hp) as [_ Hle].
  assert (all_ts (man s) !!! i <= ts \/ all_ts (man s) !!! i = UINT64_MAX) as Hor.
  { destruct (inv_reg _ I i Hi) as [?|?]; auto. }
  split; [|done]. unfold add_ts. apply c_assert_true. lia.
Qed.

Lemma mgr_add s i ts m :
  (i < cnt)%nat -> pend s !!! i = Some ts -> add_ts i ts (man s) = Some m -> inv s ->
  inv (mkState m (curr s) (<[i := None]> (pend s)) (scan s) (issued s) (clk s) (missed s)).
Proof using Type.
  intros Hi Hp Hadd I. destruct (add_ts_ok s i ts I Hi Hp) as [Ha Hor].
  rewrite Ha in Hadd. injection Hadd as <-. destruct (inv_pend _ I i ts Hi Hp) as [Hin _].
  pose proof (inv_lt _ I _ _ Hin) as Hlt.
  destruct I as [? ? ? Hla ? ? ? ? Hreg Hpend Hmin Hun Hscan].
  assert (forall j, j <> i -> <[i := ts]> (all_ts (man s)) !!! j = all_ts (man s) !!! j) as Hne
    by (intros; by rewrite list_lookup_total_insert_ne).
  assert (<[i := ts]> (all_ts (man s)) !!! i = ts) as Hii
    by (rewrite list_lookup_total_insert_eq; [done|lia]).
  constructor; simpl; rewrite ?length_insert; try done.
  - intros j Hj. destruct (decide (j = i)) as [->|]; [rewrite Hii; by right|].
    rewrite Hne by done. auto.
  - intros j t Hj. destruct (decide (j = i)) as [->|].
    + rewrite list_lookup_total_insert_eq by lia. done.
    + rewrite list_lookup_total_insert_ne by done. auto.
  - intros j Hj Hm. destruct (decide (j = i)) as [->|]; [|rewrite Hne by done; auto].
    rewrite Hii. destruct Hor as [?|Hmax]; [specialize (Hmin i Hj Hm); lia|].
    rewrite (Hun i Hj Hm Hmax). lia.
  - intros j Hj Hm. destruct (decide (j = i)) as [->|]; [rewrite Hii; lia|rewrite Hne by done; eauto].
  - intros j mn Hs. destruct (Hscan j mn Hs) as [? Hs']. split; [done|]. intros k Hk Hm.
    destruct (Hs' k Hk Hm) as [? ?]. destruct (decide (k = i)) as [->|]; [|by rewrite Hne].
    rewrite Hii. lia.
Qed.

Lemma mgr_load s j mn :
  scan s = Some (j, mn) -> (j < cnt)%nat -> inv s ->
  let ts := all_ts (man s) !!! j in
  inv (mkState (man s) (curr s) (pend s) (Some (S j, min_load ts mn)) (issued s) (clk s)
         (if ts =? UINT64_MAX then {[j]} ∪ missed s else missed s)).
Proof using Type.
  clear Hcfg.
  intros Hs Hj I ts. destruct I as [? ? ? Hla ? ? ? ? Hreg Hpend Hmin Hun Hscan].
  assert (forall i, i ∉ (if ts =? UINT64_MAX then {[j]} ∪ missed s else missed s) -> i ∉ missed s) as Hsub
    by (intros i; destruct (ts =? _); set_solver).
  constructor; simpl; try done; [by eauto..|].
  intros j' mn' [= <- <-]. split; [lia|]. intros i Hi Hm.
  destruct (Hscan j mn Hs) as [_ Hs']. unfold min_load.
  destruct (decide (i = j)) as [->|].
  - fold ts. assert (ts <> UINT64_MAX).
    { intros E. apply Z.eqb_eq in E. rewrite E in Hm. set_solver. }
    split; [|done]. destruct (ts <? mn) eqn:E; b2p; lia.
  - destruct (Hs' i ltac:(lia) (Hsub i Hm)) as [? ?]. split; [|done].
    destruct (ts <? mn) eqn:E; b2p; lia.
Qed.

Lemma mgr_step s s' : step s s' -> inv s -> inv s'.
Proof using Hcfg.
  intros [ ]; [by eapply mgr_next|by eapply mgr_add| |by apply mgr_load|]; intros I.
  - destruct I. constructor; simpl; try done. intros j mn [= <- <-]. split; [lia|]. lia.
  - destruct I as [? ? ? Hla ? ? ? ? Hreg Hpend Hmin Hun Hscan].
    destruct (Hscan _ _ H) as [_ Hs]. unfold raise_min_ts.
    destruct (min_ts (man s0) <? min) eqn:E; constructor; simpl; try done.
    + intros i Hi Hm. by apply Hs.
    + intros i Hi Hm Hmax. by destruct (Hs i Hi Hm).
Qed.

Context (curr0 : list Z) (Hcurr0 : length curr0 = cnt).
Context (Hbatch0 : g_ts_batch_alloc cfg = true ->
  forall i, (i < cnt)%nat -> curr0 !!! i mod g_ts_batch_num cfg = 0).

Lemma mgr_init : inv (init_state curr0).
Proof using All.
  assert (forall i t, (i, t) ∉ @nil (nat * Z)) as Hnil by (intros; apply not_elem_of_nil).
  destruct Hcfg as [Hhw Hb].
  constructor; simpl; rewrite ?length_replicate; try done; try (by intros ??; try intros ?%Hnil).
  - intros i Hi. rewrite lookup_total_replicate_2 by done. done.
  - split; [by intros i t ?%Hnil|]. destruct (g_ts_alloc cfg); try done.
    + split; [done|]. by intros i t ?%Hnil.
    + destruct (g_ts_batch_alloc cfg); [|split; [done|]; by intros i t ?%Hnil].
      split_and!; [by exists 0|by intros i t ?%Hnil|intros i Hi Hm|intros i j Hi Hj Hij Hm];
        by rewrite Hbatch0 in Hm.
    + by intros i t ?%Hnil.
  - constructor.
  - intros i Hi. left. by rewrite lookup_total_replicate_2.
  - intros i ts Hi. by rewrite lookup_total_replicate_2.
  - intros i Hi _. by rewrite lookup_total_replicate_2.
Qed.

Lemma mgr_reachable s : reachable curr0 s -> inv s.
Proof using All.
  apply (rtc_ind_r inv); [apply mgr_init|]. intros s1 s2 _ Hs. by apply mgr_step.
Qed.
End threads.

(** ** Schedules

    An executable schedule of the steps, for concrete runs. *)
Inductive Ev := ENext (i : nat) (clock : Z) | EAdd (i : nat) | EScan (now : Z) | ELoad | EMin.

Definition exec (cfg : TsCfg) (e : Ev) (s : State) : option State :=
  match e with
  | ENext i clock =>
      assert! bool_decide (i < g_thread_cnt cfg)%nat && bool_decide (pend s !!! i = None) &&
        bool_decide (timestamp (man s) + Z.max 1 (g_ts_batch_num cfg) < UINT64_MAX) &&
        bool_decide (clk s !!! i < clock) &&
        bool_decide ((clock + 1) * Z.of_nat (g_thread_cnt cfg) < UINT64_MAX);;
      do! r <- get_next_ts cfg i clock (curr s !!! i) (man s);;
      let '(ts, c, m) := r in
      Some (mkState m (<[i := c]> (curr s)) (<[i := Some ts]> (pend s)) (scan s)
              (issued s ++ [(i, ts)]) (<[i := clock]> (clk s)) (missed s))
  | EAdd i =>
      assert! bool_decide (i < g_thread_cnt cfg)%nat;;
      do! ts <- pend s !!! i;; do! m <- add_ts i ts (man s);;
      Some (mkState m (curr s) (<[i := None]> (pend s)) (scan s) (issued s) (clk s) (missed s))
  | EScan now =>
      assert! bool_decide (scan s = None) && bool_decide (pend s !!! 0%nat = None) &&
        bool_decide (all_ts (man s) !!! 0%nat <> UINT64_MAX) && min_ts_due cfg 0 now (man s);;
      Some (mkState (man s) (curr s) (pend s) (Some (0%nat, UINT64_MAX)) (issued s) (clk s) (missed s))
  | ELoad =>
      match scan s with
      | Some (j, min) =>
          assert! bool_decide (j < g_thread_cnt cfg)%nat;;
          let ts := all_ts (man s) !!! j in
          Some (mkState (man s) (curr s) (pend s) (Some (S j, min_load ts min)) (issued s) (clk s)
                  (if ts =? UINT64_MAX then {[j]} ∪ missed s else missed s))
      | None => None
      end
  | EMin =>
      match scan s with
      | Some (j, min) =>
          assert! bool_decide (j = g_thread_cnt cfg);;
          Some (mkState (raise_min_ts min (man s)) (curr s) (pend s) None (issued s) (clk s) (missed s))
      | None => None
      end
  end.

Fixpoint exec_all (cfg : TsCfg) (es : list Ev) (s : State) : option State :=
  match es with
  | [] => Some s
  | e :: es => do! s' <- exec cfg e s;; exec_all cfg es s'
  end.

Lemma exec_step cfg e s s' : exec cfg e s = Some s' -> step cfg s s'.
Proof.
  destruct e as [i clock|i|now| |]; simpl; intros H.
  - inv_assert. destruct (get_next_ts _ _ _ _ _) as [[[ts c] m]|] eqn:Eg; [|done].
    injection H as <-. by apply step_next.
  - inv_assert. destruct (pend s !!! i) as [ts|] eqn:Ep; [|done].
    destruct (add_ts _ _ _) as [m|] eqn:Ea; [|done]. injection H as <-. by eapply step_add.
  - inv_assert. injection H as <-. by eapply step_scan.
  - destruct (scan s) as [[j min]|] eqn:Es; [|done]. inv_assert. injection H as <-. by apply step_load.
  - destruct (scan s) as [[j min]|] eqn:Es; [|done]. inv_assert. subst j. injection H as <-. by apply step_min.
Qed.

Lemma exec_reachable cfg es curr0 s :
  exec_all cfg es (init_state cfg curr0) = Some s -> reachable cfg curr0 s.
Proof.
  unfold reachable. generalize (init_state cfg curr0). induction es as [|e es IH]; simpl.
  - intros s0 [= ->]. apply rtc_refl.
  - intros s0 H. destruct (exec cfg e s0) as [s1|] eqn:E; [|done].
    eapply rtc_l; [by eapply exec_step|]. by apply IH.
Qed.

(** Two threads, with batches of four timestamps and without batches. *)
Definition cfg_batch : TsCfg := mkTsCfg TS_CAS true 4 2 5000000 31 8 10.
Definition cfg_plain : TsCfg := mkTsCfg TS_CAS false 1 2 5000000 31 8 10.

(** ** What the manager guarantees *)



(** The minimum is safe: in every interleaving [get_min_ts] never exceeds the
    registered timestamp of a thread that had registered one when the loop
    loaded its slot: no version that such a transaction may read is older than
    the minimum. *)
Theorem get_min_ts_safe cfg curr0 s i
  (Hcfg : cfg_ok cfg)
  (Hlen : length curr0 = g_thread_cnt cfg)
  (Hbatch : g_ts_batch_alloc cfg = true ->
     forall i, (i < g_thread_cnt cfg)%nat -> curr0 !!! i mod g_ts_batch_num cfg = 0)
  (Hr : reachable cfg curr0 s)
  (Hi : (i < g_thread_cnt cfg)%nat) (Hm : i ∉ missed s) :
  min_ts (man s) <= all_ts (man s) !!! i /\
  forall ts, pend s !!! i = Some ts -> min_ts (man s) <= ts.
Proof.
  pose proof (mgr_reachable cfg Hcfg curr0 Hlen Hbatch s Hr) as I.
  pose proof (inv_min _ _ I i Hi Hm) as Hle. split; [done|]. intros ts Hp.
  destruct (inv_pend _ _ I i ts Hi Hp) as [Hin Hmax].
  destruct (inv_reg _ _ I i Hi) as [E|?]; [|specialize (Hmax _ H); lia].
  rewrite (inv_unloaded _ _ I i Hi Hm E). apply (inv_lt _ _ I _ _ Hin).
Qed.

Lemma get_min_ts_safe_witness : exists s,
  reachable cfg_plain [0; 0] s /\ 1%nat ∉ missed s /\ min_ts (man s) = 1 /\
  all_ts (man s) !!! 1%nat = 2 /\ min_ts (man s) <= all_ts (man s) !!! 1%nat.
Proof.
  destruct (exec_all cfg_plain [ENext 0 1; ENext 1 1; EAdd 0; EAdd 1; EScan 6000000; ELoad; ELoad; EMin]
    (init_state cfg_plain [0; 0])) as [s|] eqn:E; [|by vm_compute in E].
  exists s. assert (reachable cfg_plain [0; 0] s) as Hr by (by eapply exec_reachable).
  assert (1%nat ∉ missed s /\ min_ts (man s) = 1 /\ all_ts (man s) !!! 1%nat = 2) as (Hm & ? & ?).
  { vm_compute in E. injection E as <-. split_and!; [|done|done]. apply not_elem_of_empty. }
  split_and!; [done..|].
  clear E.
  refine (proj1 (get_min_ts_safe cfg_plain [0; 0] s 1 _ eq_refl _ Hr _ Hm)); [by split|done|simpl; lia].
Defined.

(** Gaps of the manager.
    (1) A thread registers its first timestamp after it has allocated it: thread 1
    gets 1, thread 0 gets 2, registers it and computes the minimum while the slot
    of thread 1 holds the initial value; thread 1 then runs with timestamp 1 below
    the minimum 2.
    (2) [_curr_ts] is not initialised: with batches, two threads that find the
    same value there in the middle of a batch use the same timestamp.
    (3) [init] clears the pointers to the epoch instead of the epoch:
    [get_epoch] and [update_epoch] follow a null pointer. *)
Theorem manager_gaps :
  (exists s, reachable cfg_plain [0; 0] s /\ issued s = [(1%nat, 1); (0%nat, 2)] /\
     pend s !!! 1%nat = None /\ all_ts (man s) !!! 1%nat = 1 /\ min_ts (man s) = 2) /\
  (exists s, reachable cfg_batch [6; 6] s /\ issued s = [(0%nat, 6); (1%nat, 6)]) /\
  (forall cfg time, get_epoch (init cfg) = None /\ update_epoch cfg time (init cfg) = None).
Proof.
  split_and!; [| |done].
  - destruct (exec_all cfg_plain [ENext 1 1; ENext 0 1; EAdd 0; EScan 6000000; ELoad; ELoad; EMin; EAdd 1]
      (init_state cfg_plain [0; 0])) as [s|] eqn:E; [|by vm_compute in E].
    exists s. split; [by eapply exec_reachable|]. vm_compute in E. by injection E as <-.
  - destruct (exec_all cfg_batch [ENext 0 1; ENext 1 1] (init_state cfg_batch [6; 6])) as [s|] eqn:E;
      [|by vm_compute in E].
    exists s. split; [by eapply exec_reachable|]. vm_compute in E. by injection E as <-.
Qed.
