(* ===== verification/Thread.v ===== *)
(** * The worker threads

    [thread_t::init] and [thread_t::run] of src/system/thread.cpp with the query
    queue of src/system/query.cpp: the choice of the next query, the buffer of
    aborted queries, the transaction ids, the end of a run.  One iteration of the
    loop takes from its environment the clock readings, the timestamp of
    [get_next_ts] (modelled in Manager.v), the outcome of the transaction, the
    random penalty and the flags that other threads set.  Statistics and the
    time spent in [usleep] are left out. *)

From stdpp Require Import list.
From S2P Require Import Prelude Global.

Record ThreadCfg := mkThreadCfg {
  ABORT_BUFFER_SIZE : nat;
  ABORT_BUFFER_ENABLE : bool;
  abort_buffer_enable : bool;
  WAIT_DIE : bool;
  ts_per_attempt : bool;
  WARMUP : nat;
  MAX_TXN_PER_PART : nat;
  thread_cnt : nat }.

(** A null query pointer is [None]; a query is its index in [queries]. *)
Record AbortBufferEntry := mkEntry { ready_time : Z; query : option nat }.

#[export] Instance AbortBufferEntry_inhabited : Inhabited AbortBufferEntry :=
  populate (mkEntry 0 None).

(** [committed] is ghost state: the queries that ended with [RCOK]. *)
Record Thread := mkThread {
  thd_id : nat;
  abort_buffer : list AbortBufferEntry;
  empty_slots : Z;
  q_idx : nat;
  rc : RC;
  m_query : option nat;
  thd_txn_id : Z;
  txn_cnt : nat;
  txn_id : Z;
  m_ts : Z;
  abort_cnt : Z;
  committed : list nat }.

Definition set_buffer (buf : list AbortBufferEntry) (slots : Z) (q : option nat) (th : Thread) :=
  mkThread (thd_id th) buf slots (q_idx th) (rc th) q (thd_txn_id th) (txn_cnt th) (txn_id th)
    (m_ts th) (abort_cnt th) (committed th).
Definition set_query (idx : nat) (q : nat) (th : Thread) :=
  mkThread (thd_id th) (abort_buffer th) (empty_slots th) idx (rc th) (Some q) (thd_txn_id th)
    (txn_cnt th) (txn_id th) (m_ts th) (abort_cnt th) (committed th).
Definition set_ts (ts : Z) (th : Thread) :=
  mkThread (thd_id th) (abort_buffer th) (empty_slots th) (q_idx th) (rc th) (m_query th)
    (thd_txn_id th) (txn_cnt th) (txn_id th) ts (abort_cnt th) (committed th).

(** What one iteration reads from outside. *)
Record Env := mkEnv {
  clocks : list Z;
  next_ts : Z;
  outcome : RC;
  penalty : Z;
  now : Z;
  warmup_finish : bool;
  sim_done : bool }.

(** How a step ends: the program stopped on an assertion or an access outside an
    array, the clock readings ended before a query was ready, or a result. *)
Inductive Res (A : Type) := Stopped | Waiting | Done (a : A).
Arguments Stopped {A}.
Arguments Waiting {A}.
Arguments Done {A} a.

Notation "'let?' x <- e ;; k" :=
  (match e with Done x => k | Stopped => Stopped | Waiting => Waiting end)
  (at level 100, x name, e at next level, k at level 200, right associativity) : dbx_scope.

Section thread.
Context (cfg : ThreadCfg).
Implicit Types (th : Thread) (e : Env).

Definition init (thd : nat) : Thread :=
  mkThread thd (replicate (ABORT_BUFFER_SIZE cfg) (mkEntry 0 None))
    (Z.of_nat (ABORT_BUFFER_SIZE cfg)) 0 RCOK None 0 0 0 0 0 [].

(** The number of queries that [Query_thd::init] generates. *)
Definition request_cnt : nat :=
  (WARMUP cfg / thread_cnt cfg + MAX_TXN_PER_PART cfg + 4 +
   (if ABORT_BUFFER_ENABLE cfg then ABORT_BUFFER_SIZE cfg else 0))%nat.

Definition get_next_query th : Res Thread :=
  if (q_idx th <? request_cnt)%nat then Done (set_query (S (q_idx th)) (q_idx th) th) else Stopped.

(** The loop over the buffer: the query taken, the buffer without it, and
    [min_ready_time]. *)
Fixpoint scan_buffer (curr_time : Z) (full : bool) (min : Z) (buf : list AbortBufferEntry) :
    option nat * list AbortBufferEntry * Z :=
  match buf with
  | [] => (None, [], min)
  | en :: buf =>
      if bool_decide (query en <> None) && (ready_time en <? curr_time) then
        (query en, mkEntry (ready_time en) None :: buf, min)
      else
        let min := if full && (ready_time en <? min) then ready_time en else min in
        let '(q, buf, min) := scan_buffer curr_time full min buf in
        (q, en :: buf, min)
  end.

(** One pass of the loop [while (trial < 2)]; [trial] stays 0.  [None] is another
    pass after [usleep]. *)
Definition attempt (curr_time ts : Z) th : Res (option Thread) :=
  let full := empty_slots th =? 0 in
  let '(q, buf, min) :=
    if empty_slots th <? Z.of_nat (ABORT_BUFFER_SIZE cfg)
    then scan_buffer curr_time full UINT64_MAX (abort_buffer th)
    else (None, abort_buffer th, UINT64_MAX) in
  match q with
  | Some q => Done (Some (set_buffer buf (empty_slots th + 1) (Some q) th))
  | None =>
      if full then (if curr_time <=? min then Done None else Stopped)
      else
        let? th <- get_next_query th;;
        Done (Some (if WAIT_DIE cfg then set_ts ts th else th))
  end.

Fixpoint choose_query (clocks : list Z) (ts : Z) th : Res Thread :=
  match clocks with
  | [] => Waiting
  | curr_time :: clocks =>
      let? r <- attempt curr_time ts th;;
      match r with Some th => Done th | None => choose_query clocks ts th end
  end.

Definition next_query e th : Res Thread :=
  if abort_buffer_enable cfg then choose_query (clocks e) (next_ts e) th
  else if bool_decide (rc th = RCOK) then get_next_query th else Done th.

(** The identification of the transaction, and [rc = RCOK]. *)
Definition start_txn e th : Thread :=
  mkThread (thd_id th) (abort_buffer th) (empty_slots th) (q_idx th) RCOK (m_query th)
    (u64 (thd_txn_id th + 1)) (txn_cnt th)
    (u64 (Z.of_nat (thd_id th) + thd_txn_id th * Z.of_nat (thread_cnt cfg)))
    (if ts_per_attempt cfg then next_ts e else m_ts th) 0 (committed th).

Fixpoint put_buffer (en : AbortBufferEntry) (buf : list AbortBufferEntry) :
    option (list AbortBufferEntry) :=
  match buf with
  | [] => None
  | en' :: buf =>
      match query en' with
      | None => Some (en :: buf)
      | Some _ => do! buf' <- put_buffer en buf;; Some (en' :: buf')
      end
  end.

(** The abort of a transaction: the query goes to the first free slot. *)
Definition buffer_aborted e th : Res Thread :=
  if abort_buffer_enable cfg then
    if 0 <? empty_slots th then
      match put_buffer (mkEntry (u64 (now e + penalty e)) (m_query th)) (abort_buffer th) with
      | Some buf => Done (set_buffer buf (empty_slots th - 1) (m_query th) th)
      | None => Done th
      end
    else Stopped
  else Done th.

(** The outcome [rc] and the counters. *)
Definition count_txn (r : RC) th : Thread :=
  mkThread (thd_id th) (abort_buffer th) (empty_slots th) (q_idx th) r (m_query th)
    (thd_txn_id th) (if bool_decide (r = RCOK) then S (txn_cnt th) else txn_cnt th) (txn_id th)
    (m_ts th) (if bool_decide (r = Abort) then abort_cnt th + 1 else abort_cnt th)
    (if bool_decide (r = RCOK) then committed th ++ option_list (m_query th) else committed th).

(** The tests at the end of the loop: whether [run] returns. *)
Definition end_loop e th : Res bool :=
  if bool_decide (rc th = FINISH) then Done true
  else if negb (warmup_finish e) && (WARMUP cfg / thread_cnt cfg <=? txn_cnt th)%nat then Done true
  else if warmup_finish e && (MAX_TXN_PER_PART cfg <=? txn_cnt th)%nat then
    if (txn_cnt th =? MAX_TXN_PER_PART cfg)%nat then Done true else Stopped
  else Done (sim_done e).

(** One iteration: the state after it, and whether [run] returns. *)
Definition iterate e th : Res (bool * Thread) :=
  let? th <- next_query e th;;
  let th := start_txn e th in
  let? th <- (if bool_decide (outcome e = Abort) then buffer_aborted e th else Done th);;
  let th := count_txn (outcome e) th in
  let? fin <- end_loop e th;;
  Done (fin, th).

Fixpoint run_loop (es : list Env) th : Res (bool * Thread) :=
  match es with
  | [] => Done (false, th)
  | e :: es =>
      let? r <- iterate e th;;
      if fst r then Done r else run_loop es (snd r)
  end.

(** The locals of [run]; the transaction manager is a new one, its timestamp [ts0]
    is what the allocation left there. *)
Definition start_run (ts0 : Z) th : Thread :=
  mkThread (thd_id th) (abort_buffer th) (empty_slots th) (q_idx th) RCOK None 0 0 0 ts0 0
    (committed th).

Definition run (ts0 : Z) (es : list Env) th : Res (bool * Thread) := run_loop es (start_run ts0 th).
End thread.

(** ** The buffer of aborted queries *)

Definition buffered (buf : list AbortBufferEntry) : list nat := omap query buf.

Lemma scan_buffer_spec c full min buf q buf' min' :
  scan_buffer c full min buf = (q, buf', min') ->
  (q = None /\ buf' = buf /\ (forall en, en ∈ buf -> query en <> None -> c <= ready_time en) /\
   (c <= min -> (full = true -> forall en, en ∈ buf -> query en <> None) -> c <= min')) \/
  (exists x en l1 l2, q = Some x /\ query en = Some x /\ ready_time en < c /\
     buf = l1 ++ en :: l2 /\ buf' = l1 ++ mkEntry (ready_time en) None :: l2).
Proof.
  revert min q buf' min'. induction buf as [|en buf IH]; intros min q buf' min'; simpl.
  { intros [= <- <- <-]. left. split_and!; [done|done| |done]. by intros en ?%not_elem_of_nil. }
  destruct (bool_decide _ && _) eqn:Et; b2p.
  - intros [= <- <- <-]. destruct (query en) as [x|] eqn:Eq; [|done].
    right. by exists x, en, [], buf.
  - destruct (scan_buffer _ _ _ buf) as [[q0 buf0] min0] eqn:Es. intros [= <- <- <-].
    destruct (IH _ _ _ _ Es) as [(-> & -> & Hr & Hm)|(x & en' & l1 & l2 & -> & Hq & Hr & -> & ->)].
    + left. split_and!; [done|done| |].
      * intros en' [->|?]%elem_of_cons Hq; [|by apply Hr].
        apply andb_false_iff in Et as [Et|Et]; b2p; [done|lia].
      * intros Hc Hf. apply Hm; [|intros Hfu en' ?; apply Hf; [done|by right]].
        destruct full; simpl; [|done].
        destruct (ready_time en <? min) eqn:E; b2p; [|done].
        assert (query en <> None) as Hq by (apply Hf; [done|by left]).
        apply andb_false_iff in Et as [Et|Et]; b2p; [done|lia].
    + right. by exists x, en', (en :: l1), l2.
Qed.

Lemma put_buffer_spec en buf :
  match put_buffer en buf with
  | Some buf' => exists e l1 l2, query e = None /\ buf = l1 ++ e :: l2 /\ buf' = l1 ++ en :: l2
  | None => length (buffered buf) = length buf
  end.
Proof.
  induction buf as [|e buf IH]; simpl; [done|]. destruct (query e) as [x|] eqn:Eq.
  - destruct (put_buffer en buf) as [buf'|]; simpl.
    + destruct IH as (e' & l1 & l2 & ? & -> & ->). by exists e', (e :: l1), l2.
    + by rewrite IH.
  - by exists e, [], buf.
Qed.

Lemma buffered_app l1 l2 : buffered (l1 ++ l2) = buffered l1 ++ buffered l2.
Proof. apply omap_app. Qed.

Lemma buffered_take x en l1 l2 :
  query en = Some x ->
  buffered (l1 ++ en :: l2) ≡ₚ x :: buffered (l1 ++ mkEntry (ready_time en) None :: l2).
Proof. intros Hq. rewrite !buffered_app. simpl. rewrite Hq. by rewrite Permutation_middle. Qed.

Lemma buffered_put x r e l1 l2 :
  query e = None ->
  buffered (l1 ++ mkEntry r (Some x) :: l2) ≡ₚ x :: buffered (l1 ++ e :: l2).
Proof. intros Hq. rewrite !buffered_app. simpl. rewrite Hq. by rewrite Permutation_middle. Qed.

Lemma buffered_length buf : (length (buffered buf) <= length buf)%nat.
Proof. induction buf as [|e buf IH]; simpl; [done|]. unfold buffered in *. destruct (query e); simpl; lia. Qed.

Lemma buffered_full buf :
  length (buffered buf) = length buf -> forall en, en ∈ buf -> query en <> None.
Proof.
  induction buf as [|e buf IH]; simpl; intros Hl en Hen; [by apply not_elem_of_nil in Hen|].
  pose proof (buffered_length buf).
  unfold buffered in *. destruct (query e) as [x|] eqn:Eq; simpl in Hl; [|lia].
  apply elem_of_cons in Hen as [->|?]; [by rewrite Eq|]. apply IH; [lia|done].
Qed.

(** ** The invariant of a worker

    [n_lost] counts the queries that a worker without a buffer gives up when the
    warm-up ends with an aborted query. *)
Section invariant.
Context (cfg : ThreadCfg).
Notation SIZE := (ABORT_BUFFER_SIZE cfg).

Definition buffer_ok (th : Thread) : Prop :=
  length (abort_buffer th) = SIZE /\
  empty_slots th = Z.of_nat SIZE - Z.of_nat (length (buffered (abort_buffer th))).

(** The queries issued so far are those committed, those in the buffer and those
    in [held]. *)
Definition accounted (held : list nat) (th : Thread) : Prop :=
  seq 0 (q_idx th) ≡ₚ held ++ committed th ++ buffered (abort_buffer th).

Definition pending (th : Thread) : nat := if bool_decide (rc th = RCOK) then 0 else 1.

Definition worker_ok (n_lost : nat) (th : Thread) : Prop :=
  buffer_ok th /\
  if abort_buffer_enable cfg then accounted [] th
  else (rc th <> RCOK -> m_query th <> None) /\ (q_idx th <= length (committed th) + n_lost + pending th)%nat.

Definition env_ok (warm : bool) (e : Env) : Prop :=
  warmup_finish e = negb warm /\ (outcome e = RCOK \/ outcome e = Abort) /\
  Forall (fun c => c <= UINT64_MAX) (clocks e).

(** Enough queries are left when the worker asks for one. *)
Definition room (n_lost : nat) (th : Thread) : Prop :=
  (length (committed th) + n_lost + (if abort_buffer_enable cfg then SIZE else 1) <= request_cnt cfg)%nat.

Lemma buffer_room th : buffer_ok th -> (length (buffered (abort_buffer th)) <= SIZE)%nat.
Proof. intros [<- _]. apply buffered_length. Qed.

Lemma accounted_q_idx held th :
  accounted held th ->
  q_idx th = (length held + length (committed th) + length (buffered (abort_buffer th)))%nat.
Proof. intros H%Permutation_length. rewrite length_seq, !length_app in H. lia. Qed.

(** One pass of the choice: it never stops; another pass is taken only when the
    buffer is full and nothing in it is ready. *)
Lemma attempt_spec c ts th :
  buffer_ok th -> accounted [] th -> c <= UINT64_MAX ->
  (length (committed th) + SIZE <= request_cnt cfg)%nat ->
  match attempt cfg c ts th with
  | Done None => empty_slots th = 0 /\ forall en, en ∈ abort_buffer th -> c <= ready_time en
  | Done (Some th') =>
      buffer_ok th' /\ 0 < empty_slots th' /\ committed th' = committed th /\
      txn_cnt th' = txn_cnt th /\ exists q, m_query th' = Some q /\ accounted [q] th' /\
      (((exists en, en ∈ abort_buffer th /\ query en = Some q /\ ready_time en < c) /\
        m_ts th' = m_ts th) \/
       (q = q_idx th /\ m_ts th' = if WAIT_DIE cfg then ts else m_ts th))
  | _ => False
  end.
Proof.
  intros [Hl Hs] Ha Hc Hroom. unfold attempt.
  pose proof (buffered_length (abort_buffer th)) as Hle.
  pose proof (accounted_q_idx _ _ Ha) as Hq. simpl in Hq.
  set (r := if empty_slots th <? Z.of_nat SIZE then _ else _).
  assert (exists q buf min, r = (q, buf, min) /\
    ((q = None /\ buf = abort_buffer th /\
      (forall en, en ∈ abort_buffer th -> query en <> None -> c <= ready_time en) /\
      (empty_slots th = 0 -> c <= min)) \/
     (exists x en l1 l2, q = Some x /\ query en = Some x /\ ready_time en < c /\
        abort_buffer th = l1 ++ en :: l2 /\ buf = l1 ++ mkEntry (ready_time en) None :: l2)))
    as (q & buf & min & -> & Hr).
  { subst r. destruct (empty_slots th <? Z.of_nat SIZE) eqn:Et; b2p.
    - destruct (scan_buffer _ _ _ _) as [[q buf] min] eqn:Es. exists q, buf, min. split; [done|].
      destruct (scan_buffer_spec _ _ _ _ _ _ _ Es) as [(-> & -> & Hr & Hm)|Hx]; [left|by right].
      split_and!; [done..|]. intros H0. apply Hm; [done|]. intros _.
      apply buffered_full. lia.
    - eexists None, _, _. split; [done|]. left. split_and!; [done|done| |done].
      intros en Hen Hq'. exfalso.
      assert (length (buffered (abort_buffer th)) = 0)%nat as Hb by lia.
      apply nil_length_inv in Hb. apply list_elem_of_split in Hen as (l1 & l2 & E).
      rewrite E, buffered_app in Hb. simpl in Hb. destruct (query en); [|done].
      by destruct (buffered l1). }
  destruct Hr as [(-> & -> & Hr & Hm)|(x & en & l1 & l2 & -> & Hqe & Hre & El & ->)].
  - destruct (empty_slots th =? 0) eqn:E0; b2p.
    + rewrite (proj2 (Z.leb_le c min)) by auto. split; [done|]. intros en Hen.
      apply Hr; [done|]. apply (buffered_full (abort_buffer th)); [lia|done].
    + unfold get_next_query. rewrite (proj2 (Nat.ltb_lt _ _)) by lia.
      assert (seq 0 (S (q_idx th)) ≡ₚ [q_idx th] ++ committed th ++ buffered (abort_buffer th)) as Hacc.
      { rewrite seq_S. simpl. rewrite Permutation_app_comm. simpl. by constructor. }
      destruct (WAIT_DIE cfg); unfold buffer_ok, accounted; simpl; (split_and!; [done|done|lia|done|done|]);
        eexists; (split_and!; [done|done|]); by right.
  - unfold buffer_ok, accounted. simpl.
    pose proof (buffered_take x en l1 l2 Hqe) as Hp. rewrite <- El in Hp.
    pose proof (Permutation_length Hp) as Hpl. simpl in Hpl.
    assert (length l1 + S (length l2) = SIZE)%nat as Hl2 by (by rewrite <- Hl, El, length_app).
    split_and!; [rewrite length_app; simpl; lia|lia|lia|done|done|].
    exists x. split_and!; [done| |].
    + unfold accounted in Ha. rewrite Ha. simpl. rewrite Hp. by rewrite <- Permutation_middle.
    + left. split; [|done]. exists en. split_and!; [|done|done]. rewrite El. set_solver.
Qed.

(** What the choice of a query gives: the query [q], from the buffer or new. *)
Definition chosen (clocks : list Z) (ts : Z) (th th' : Thread) (q : nat) : Prop :=
  (buffer_ok th' /\ 0 < empty_slots th' /\ committed th' = committed th /\
   txn_cnt th' = txn_cnt th) /\
  m_query th' = Some q /\ accounted [q] th' /\
  (((exists en, en ∈ abort_buffer th /\ query en = Some q /\ exists c, c ∈ clocks /\ ready_time en < c) /\
    m_ts th' = m_ts th) \/
   (q = q_idx th /\ m_ts th' = if WAIT_DIE cfg then ts else m_ts th)).

Lemma choose_query_spec clocks ts th :
  buffer_ok th -> accounted [] th -> Forall (fun c => c <= UINT64_MAX) clocks ->
  (length (committed th) + SIZE <= request_cnt cfg)%nat ->
  match choose_query cfg clocks ts th with
  | Done th' => exists q, chosen clocks ts th th' q
  | Waiting => clocks <> [] -> empty_slots th = 0 /\
      forall c en, c ∈ clocks -> en ∈ abort_buffer th -> c <= ready_time en
  | Stopped => False
  end.
Proof.
  intros Hb Ha Hc Hroom. induction clocks as [|c clocks IH]; simpl; [done|].
  apply Forall_cons in Hc as [Hc Hcs].
  pose proof (attempt_spec c ts th Hb Ha Hc Hroom) as Hat.
  destruct (attempt cfg c ts th) as [| |[th'|]]; [done|done| |].
  - destruct Hat as (? & ? & ? & ? & q & Hq & Hacc & Hsrc). exists q. split; [done|].
    split; [done|]. split; [done|]. destruct Hsrc as [((en & ? & ? & ?) & ?)|?]; [left|by right].
    split; [|done]. exists en. split_and!; [done|done|]. exists c. split; [by left|done].
  - destruct Hat as [H0 Hr]. specialize (IH Hcs).
    destruct (choose_query cfg clocks ts th) as [| |th'].
    + done.
    + intros _. split; [done|]. intros c' en [->|Hc']%elem_of_cons Hen; [by apply Hr|].
      destruct IH as [_ IH]; [by intros ->; apply not_elem_of_nil in Hc'|by apply IH].
    + destruct IH as (q & ? & ? & ? & Hsrc). exists q. split; [done|]. split; [done|]. split; [done|].
      destruct Hsrc as [((en & ? & ? & c' & ? & ?) & ?)|?]; [left|by right].
      split; [|done]. exists en. split_and!; [done|done|]. exists c'. split; [by right|done].
Qed.

(** The state between the choice of the query and the end of the transaction. *)
Definition running (n_lost : nat) (th : Thread) : Prop :=
  buffer_ok th /\ exists q, m_query th = Some q /\
  if abort_buffer_enable cfg then 0 < empty_slots th /\ accounted [q] th
  else (q_idx th <= length (committed th) + n_lost + 1)%nat.

Lemma next_query_spec n warm e th :
  worker_ok n th -> room n th -> env_ok warm e ->
  match next_query cfg e th with
  | Done th' => running n th' /\ committed th' = committed th /\ txn_cnt th' = txn_cnt th
  | Waiting => True
  | Stopped => False
  end.
Proof.
  unfold worker_ok, room, running, next_query. intros [Hb Hw] Hroom (_ & _ & Hc).
  destruct (abort_buffer_enable cfg).
  - pose proof (choose_query_spec (clocks e) (next_ts e) th Hb Hw Hc ltac:(lia)) as Hs.
    destruct (choose_query _ _ _ _) as [| |th']; [done|done|].
    destruct Hs as (q & (? & ? & ? & ?) & ? & ? & _). split; [|done]. split; [done|].
    exists q. done.
  - destruct Hw as [Hq Hw]. unfold pending in Hw. destruct (decide (rc th = RCOK)) as [Hr|Hr].
    + rewrite bool_decide_true by done. rewrite bool_decide_true in Hw by done.
      unfold get_next_query. rewrite (proj2 (Nat.ltb_lt _ _)) by lia.
      simpl. split; [|done]. split; [done|]. eexists. split; [done|]. lia.
    + rewrite bool_decide_false by done. rewrite bool_decide_false in Hw by done.
      split; [|done]. split; [done|]. destruct (m_query th) as [q|]; [|by destruct Hq].
      exists q. split; [done|lia].
Qed.

Lemma buffer_aborted_spec n e th :
  running n th ->
  exists th', buffer_aborted cfg e th = Done th' /\ buffer_ok th' /\
    q_idx th' = q_idx th /\ committed th' = committed th /\ txn_cnt th' = txn_cnt th /\
    m_query th' = m_query th /\
    if abort_buffer_enable cfg then accounted [] th' else True.
Proof.
  intros [[Hl Hs] (q & Hq & Hr)]. unfold buffer_aborted. destruct (abort_buffer_enable cfg).
  - destruct Hr as [H0 Ha]. rewrite (proj2 (Z.ltb_lt _ _)) by done.
    pose proof (put_buffer_spec (mkEntry (u64 (now e + penalty e)) (m_query th)) (abort_buffer th)) as Hp.
    destruct (put_buffer _ _) as [buf|]; [|lia].
    destruct Hp as (en & l1 & l2 & Hen & El & ->). rewrite Hq.
    pose proof (buffered_put q (u64 (now e + penalty e)) en l1 l2 Hen) as Hp. rewrite <- El in Hp.
    pose proof (Permutation_length Hp) as Hpl. simpl in Hpl.
    eexists. split; [done|]. unfold buffer_ok, accounted in *. simpl.
    split_and!; [|lia|done..|].
    + rewrite <- Hl, El, !length_app. done.
    + rewrite Ha. simpl. rewrite Hp. by rewrite <- Permutation_middle.
  - exists th. by rewrite Hq.
Qed.

(** The number of transactions after which [run] returns. *)
Definition limit (warm : bool) : nat :=
  if warm then Nat.max 1 (WARMUP cfg / thread_cnt cfg) else MAX_TXN_PER_PART cfg.

Lemma iterate_spec n warm e th :
  worker_ok n th -> room n th -> env_ok warm e -> (txn_cnt th < limit warm)%nat ->
  match iterate cfg e th with
  | Done (fin, th') =>
      worker_ok n th' /\ (txn_cnt th <= txn_cnt th' <= limit warm)%nat /\
      length (committed th') = (length (committed th) + (txn_cnt th' - txn_cnt th))%nat /\
      (fin = false -> (txn_cnt th' < limit warm)%nat)
  | Waiting => True
  | Stopped => False
  end.
Proof.
  intros Hw Hroom Henv Hlim. unfold iterate.
  pose proof (next_query_spec n warm e th Hw Hroom Henv) as Hn.
  destruct (next_query cfg e th) as [| |th1]; [done|done|].
  destruct Hn as (Hrun & Hc1 & Ht1). destruct Henv as (Hwf & Hout & _).
  assert (running n (start_txn cfg e th1)) as Hrun2 by done.
  set (th2 := start_txn cfg e th1) in *.
  assert (committed th2 = committed th /\ txn_cnt th2 = txn_cnt th) as [Hc2 Ht2] by done.
  clearbody th2. clear th1 Hrun Hc1 Ht1.
  assert (exists th3, (if bool_decide (outcome e = Abort) then buffer_aborted cfg e th2 else Done th2) = Done th3 /\
    worker_ok n (count_txn (outcome e) th3) /\
    txn_cnt (count_txn (outcome e) th3) = (txn_cnt th + (if bool_decide (outcome e = RCOK) then 1 else 0))%nat /\
    length (committed (count_txn (outcome e) th3)) =
      (length (committed th) + (if bool_decide (outcome e = RCOK) then 1 else 0))%nat)
    as (th3 & -> & Hw3 & Ht3 & Hc3).
  { destruct Hout as [-> | ->].
    - rewrite bool_decide_false by done. exists th2. rewrite !bool_decide_true by done.
      destruct Hrun2 as [[? ?] (q & Hq & Hr)]. split; [done|].
      unfold worker_ok, accounted, pending, count_txn, buffer_ok; simpl. rewrite Hq. simpl.
      split_and!; [done|done| |lia|rewrite length_app, Hc2; done].
      destruct (abort_buffer_enable cfg).
      + destruct Hr as [_ Ha]. unfold accounted in Ha. rewrite Ha. simpl.
        rewrite <- (assoc_L (++)). simpl. by rewrite Permutation_middle.
      + split; [done|]. rewrite length_app. simpl. lia.
    - rewrite bool_decide_true by done. destruct (buffer_aborted_spec n e th2 Hrun2) as
        (th3 & -> & Hb & Hq3 & Hc3 & Ht3 & Hm3 & Ha). exists th3. split; [done|].
      destruct Hrun2 as [_ (q & Hq & Hr)].
      unfold worker_ok, accounted, pending, count_txn; simpl.
      rewrite Hc3, Hc2, Ht3, Ht2. split_and!; [exact Hb| |lia|lia].
      destruct (abort_buffer_enable cfg); [by unfold accounted in Ha; rewrite Hc3, Hc2 in Ha|].
      rewrite Hm3, Hq, Hq3. split; [done|]. rewrite Hc2 in Hr. lia. }
  simpl. unfold end_loop. set (th4 := count_txn (outcome e) th3) in *.
  assert (rc th4 <> FINISH) as Hrc by (by destruct Hout as [E|E]; subst th4; rewrite E).
  clearbody th4. rewrite bool_decide_false by done. rewrite Hwf.
  assert (txn_cnt th4 <= S (txn_cnt th))%nat as Hle by (rewrite Ht3; case_bool_decide; lia).
  assert (length (committed th4) = length (committed th) + (txn_cnt th4 - txn_cnt th))%nat as Hcc by lia.
  unfold limit in *. destruct warm; simpl.
  - destruct (WARMUP cfg / thread_cnt cfg <=? txn_cnt th4)%nat eqn:E.
    + split_and!; [done|lia|lia|done|done].
    + apply Nat.leb_gt in E. split_and!; [done|lia|lia|done|lia].
  - destruct (MAX_TXN_PER_PART cfg <=? txn_cnt th4)%nat eqn:E.
    + apply Nat.leb_le in E. rewrite (proj2 (Nat.eqb_eq _ _)) by lia.
      split_and!; [done|lia|lia|done|done].
    + apply Nat.leb_gt in E. split_and!; [done|lia|lia|done|lia].
Qed.

Lemma run_loop_spec n warm base es th :
  Forall (env_ok warm) es -> worker_ok n th -> (txn_cnt th < limit warm)%nat ->
  length (committed th) = (base + txn_cnt th)%nat ->
  (base + limit warm + n + (if abort_buffer_enable cfg then SIZE else 1) <= S (request_cnt cfg))%nat ->
  match run_loop cfg es th with
  | Done (_, th') => worker_ok n th' /\ (txn_cnt th' <= limit warm)%nat /\
      length (committed th') = (base + txn_cnt th')%nat
  | Waiting => True
  | Stopped => False
  end.
Proof.
  intros Hes. revert th. induction Hes as [|e es He Hes IH]; intros th Hw Hlim Hc Hroom; simpl.
  { split_and!; [done|lia|done]. }
  pose proof (iterate_spec n warm e th Hw ltac:(unfold room; lia) He Hlim) as Hi.
  destruct (iterate cfg e th) as [| |[fin th']]; [done|done|].
  destruct Hi as (Hw' & Ht' & Hc' & Hfin). destruct fin; simpl.
  - split_and!; [done|lia|lia].
  - apply IH; [done|by apply Hfin|lia|done].
Qed.
End invariant.

(** ** What a worker guarantees *)

Lemma worker_init_ok cfg thd : worker_ok cfg 0 (init cfg thd).
Proof.
  assert (forall n, buffered (replicate n (mkEntry 0 None)) = []) as Hb by (induction n; done).
  unfold worker_ok, buffer_ok, accounted. simpl. rewrite Hb, length_replicate.
  destruct (abort_buffer_enable cfg); (split; [split; [done|]|]); simpl; try done; lia.
Qed.

Lemma start_run_ok cfg n ts0 th : worker_ok cfg n th -> worker_ok cfg (S n) (start_run ts0 th).
Proof.
  unfold worker_ok, buffer_ok, accounted, pending. intros [? Hw]. split; [done|]. simpl.
  destruct (abort_buffer_enable cfg); [done|]. destruct Hw as [_ Hw]. split; [done|].
  destruct (bool_decide (rc th = RCOK)); lia.
Qed.

(** C21. A worker never stops the program: through a warm-up run and a measured
    run, for any outcomes, clock readings and penalties, no assertion of the
    loop fails ([trial], [min_ready_time], the free slot on an abort, the final
    transaction count) and [get_next_query] stays inside the generated queries.
    The count of empty slots is right, and with the abort buffer every query
    issued is committed or still in the buffer, exactly once. *)
Theorem worker_run_correct cfg thd ts0 ts1 es0 es1
  (Hmax : (0 < MAX_TXN_PER_PART cfg)%nat)
  (Hen : abort_buffer_enable cfg = true -> ABORT_BUFFER_ENABLE cfg = true)
  (Hes0 : Forall (env_ok true) es0) (Hes1 : Forall (env_ok false) es1) :
  run cfg ts0 es0 (init cfg thd) <> Stopped /\
  forall th, th = init cfg thd \/ (exists fin, run cfg ts0 es0 (init cfg thd) = Done (fin, th)) ->
    run cfg ts1 es1 th <> Stopped /\
    forall fin th', run cfg ts1 es1 th = Done (fin, th') ->
      (q_idx th' <= request_cnt cfg)%nat /\
      empty_slots th' = Z.of_nat (ABORT_BUFFER_SIZE cfg) - Z.of_nat (length (buffered (abort_buffer th'))) /\
      (abort_buffer_enable cfg = true ->
         seq 0 (q_idx th') ≡ₚ committed th' ++ buffered (abort_buffer th')).
Proof.
  assert (request_cnt cfg = WARMUP cfg / thread_cnt cfg + MAX_TXN_PER_PART cfg + 4 +
    (if ABORT_BUFFER_ENABLE cfg then ABORT_BUFFER_SIZE cfg else 0))%nat as Hreq by done.
  assert ((if abort_buffer_enable cfg then ABORT_BUFFER_SIZE cfg else 1) <=
    S (if ABORT_BUFFER_ENABLE cfg then ABORT_BUFFER_SIZE cfg else 0))%nat as Hsz.
  { destruct (abort_buffer_enable cfg); [rewrite Hen by done|]; lia. }
  pose proof (run_loop_spec cfg 1 true 0 es0 (start_run ts0 (init cfg thd)) Hes0
    (start_run_ok _ _ _ _ (worker_init_ok cfg thd)) ltac:(simpl; lia) eq_refl ltac:(simpl; lia)) as H0.
  split; [intros E; unfold run in E; by rewrite E in H0|].
  intros th Hth.
  assert (exists n, worker_ok cfg n th /\ (n <= 1)%nat /\
    (length (committed th) <= limit cfg true)%nat) as (n & Hw & Hn & Hc).
  { destruct Hth as [-> | [fin E]].
    - exists 0%nat. split_and!; [apply worker_init_ok|lia|simpl; lia].
    - exists 1%nat. unfold run in E. rewrite E in H0. destruct H0 as (? & ? & ?).
      split_and!; [done|lia|lia]. }
  pose proof (run_loop_spec cfg (S n) false (length (committed th)) es1 (start_run ts1 th) Hes1
    (start_run_ok _ _ _ _ Hw) Hmax ltac:(simpl; lia)) as H1.
  specialize (H1 ltac:(simpl in *; lia)).
  split; [intros E; unfold run in E; by rewrite E in H1|].
  intros fin th' E. unfold run in E. rewrite E in H1. destruct H1 as ((Hb & Hw') & Ht' & Hc').
  simpl in Ht', Hc. pose proof (buffer_room _ _ Hb).
  split_and!; [|apply Hb|intros He; by rewrite He in Hw'].
  destruct (abort_buffer_enable cfg).
  - pose proof (accounted_q_idx _ _ Hw') as Hq. simpl in Hq. lia.
  - destruct Hw' as [_ Hw']. unfold pending in Hw'. destruct (bool_decide _); lia.
Qed.

(** One worker, a buffer of one slot, up to three transactions. *)
Definition cfg_ex : ThreadCfg := mkThreadCfg 1 true true true false 0 3 2.
Definition envs_ex : list Env :=
  [mkEnv [1] 10 Abort 5 2 true false; mkEnv [3; 4; 8] 11 RCOK 0 9 true false;
   mkEnv [10] 12 RCOK 0 11 true false].

Lemma worker_run_correct_witness : exists th,
  run cfg_ex 0 envs_ex (init cfg_ex 1) = Done (false, th) /\
  committed th = [0; 1]%nat /\ m_ts th = 12 /\ empty_slots th = 1 /\
  seq 0 (q_idx th) ≡ₚ committed th ++ buffered (abort_buffer th).
Proof.
  destruct (run cfg_ex 0 envs_ex (init cfg_ex 1)) as [| |[fin th]] eqn:E; [by vm_compute in E..|].
  exists th.
  assert (fin = false /\ committed th = [0; 1]%nat /\ m_ts th = 12 /\ empty_slots th = 1)
    as (-> & ? & ? & ?) by (vm_compute in E; by injection E as <- <-).
  split_and!; [done..|].
  refine (proj2 (proj2 (proj2 (proj2 (worker_run_correct cfg_ex 1 0 0 [] envs_ex _ _ _ _) (init cfg_ex 1)
    (or_introl eq_refl)) false th E)) eq_refl).
  - simpl. lia.
  - done.
  - constructor.
  - repeat (constructor; [split_and!; [done|simpl; auto|repeat constructor; vm_compute; done]|]).
    constructor.
Defined.

(** The choice of the next query ends: with a buffer of at least one slot it
    returns in the first pass unless the buffer is full, and then as soon as a
    clock reading is later than the ready time of some buffered query.  The query
    is one of the buffer whose ready time has passed, or the next new one. *)
Theorem choose_query_returns cfg clocks ts th
  (Hb : buffer_ok cfg th) (Ha : accounted [] th)
  (Hroom : (length (committed th) + ABORT_BUFFER_SIZE cfg <= request_cnt cfg)%nat)
  (Hc : Forall (fun c => c <= UINT64_MAX) clocks) (Hne : clocks <> [])
  (Hready : empty_slots th = 0 ->
     exists c en, c ∈ clocks /\ en ∈ abort_buffer th /\ ready_time en < c) :
  exists th' q, choose_query cfg clocks ts th = Done th' /\ m_query th' = Some q /\
    ((exists en c, en ∈ abort_buffer th /\ query en = Some q /\ c ∈ clocks /\ ready_time en < c) \/
     q = q_idx th).
Proof.
  pose proof (choose_query_spec cfg clocks ts th Hb Ha Hc Hroom) as Hs.
  destruct (choose_query cfg clocks ts th) as [| |th']; [done| |].
  - exfalso. destruct (Hs Hne) as [H0 Hle]. destruct (Hready H0) as (c & en & Hcc & Hen & Hlt).
    specialize (Hle c en Hcc Hen). lia.
  - destruct Hs as (q & _ & Hq & _ & Hsrc). exists th', q. split_and!; [done..|].
    destruct Hsrc as [((en & ? & ? & c & ? & ?) & _)|[? _]]; [left; eauto 10|by right].
Qed.

(** The worker of [cfg_ex] after its first query was aborted. *)
Definition th_full : Thread :=
  mkThread 1 [mkEntry 7 (Some 0%nat)] 0 1 Abort (Some 0%nat) 1 0 1 10 1 [].

Lemma choose_query_returns_witness : exists th' q,
  choose_query cfg_ex [3; 4; 8] 11 th_full = Done th' /\ m_query th' = Some q /\
  ((exists en c, en ∈ abort_buffer th_full /\ query en = Some q /\ c ∈ [3; 4; 8] /\
      ready_time en < c) \/ q = q_idx th_full).
Proof.
  apply (choose_query_returns cfg_ex).
  - by split.
  - unfold accounted. simpl. done.
  - vm_compute. lia.
  - repeat constructor; vm_compute; done.
  - done.
  - intros _. exists 8, (mkEntry 7 (Some 0%nat)). split_and!; [set_solver|by left|done].
Defined.

(** WAIT_DIE and restarts.  (1) A transaction that is restarted from the
    buffer runs with the timestamp of the newest query, not with its own: query 0
    starts with timestamp 10, is aborted, query 1 starts with timestamp 11, and
    query 0 runs again with 11.  (2) Without the abort buffer no transaction ever
    gets a timestamp: all run with what the allocation of the transaction manager
    left there. *)
Theorem wait_die_restart_timestamps :
  (let cfg := mkThreadCfg 2 true true true false 0 3 2 in
   let e1 := mkEnv [1] 10 Abort 5 2 true false in
   let e2 := mkEnv [3] 11 RCOK 0 4 true false in
   let e3 := mkEnv [8] 12 RCOK 0 9 true false in
   (exists th, run cfg 0 [e1] (init cfg 1) = Done (false, th) /\ m_query th = Some 0%nat /\ m_ts th = 10) /\
   (exists th, run cfg 0 [e1; e2] (init cfg 1) = Done (false, th) /\ m_query th = Some 1%nat /\ m_ts th = 11) /\
   (exists th, run cfg 0 [e1; e2; e3] (init cfg 1) = Done (false, th) /\ m_query th = Some 0%nat /\ m_ts th = 11)) /\
  (forall cfg ts0 es th fin th', abort_buffer_enable cfg = false -> ts_per_attempt cfg = false ->
     run cfg ts0 es th = Done (fin, th') -> m_ts th' = ts0).
Proof.
  split.
  - intros cfg e1 e2 e3. split_and!; (eexists; split; [by vm_compute|done]).
  - intros cfg ts0 es th fin th' Hen Hts. unfold run.
    assert (m_ts (start_run ts0 th) = ts0) as H0 by done. revert H0.
    generalize (start_run ts0 th). induction es as [|e es IH]; intros th0 H0; simpl.
    { by intros [= _ <-]. }
    destruct (iterate cfg e th0) as [| |[f th1]] eqn:Ei; [done|done|]. simpl.
    assert (m_ts th1 = ts0) as H1; [|destruct f; [by intros [= _ <-]|by apply IH]].
    revert Ei. unfold iterate, next_query, buffer_aborted, get_next_query, end_loop. rewrite Hen.
    repeat case_match; simplify_eq/=; intros; simplify_eq/=; rewrite ?Hts; done.
Qed.

(** The transaction id of thread [thd] leads back to the thread. *)
Lemma txn_id_thread cfg e th :
  (thd_id th < thread_cnt cfg)%nat ->
  Z.of_nat (thd_id th) + thd_txn_id th * Z.of_nat (thread_cnt cfg) < 2 ^ 64 -> 0 <= thd_txn_id th ->
  txn_id (start_txn cfg e th) mod Z.of_nat (thread_cnt cfg) = Z.of_nat (thd_id th).
Proof.
  intros Ht Hw H0. simpl. rewrite u64_small by (unfold is_u64; nia).
  rewrite Z.mod_add by lia. apply Z.mod_small. lia.
Qed.
