(* ===== verification/Storage.v ===== *)
(** * Catalogs and the contents of rows

    [Catalog] of src/storage/catalog.h and catalog.cpp: the columns of a table and
    their offsets; and the part of [row_t] (src/storage/row.h) that reads and
    writes the bytes of a tuple.  A byte is a [Z]; a character string is a list of
    characters.  [None] is a failed assertion or an access outside an array. *)

From Stdlib Require Import Ascii.
From stdpp Require Import list.
From S2P Require Import Prelude Global.

Notation str := (list ascii).

Record Column := mkColumn {
  col_id : Z;
  col_size : Z;
  col_index : Z;
  col_type : str;
  col_name : str }.

(** [_columns] up to [field_cnt]; the fields behind it are not initialised. *)
Record Catalog := mkCatalog {
  table_name : str;
  max_field_cnt : nat;
  tuple_size : Z;
  columns : list Column }.

Definition field_cnt (c : Catalog) : nat := length (columns c).

Module Schema.
Definition init (table_name : str) (field_cnt : nat) : Catalog := mkCatalog table_name field_cnt 0 [].

(** The arrays for the name and the type of a column have 80 characters. *)
Definition strcpy_fits (s : str) : bool := (length s <? 80)%nat.

Definition add_col (name : str) (size : Z) (type : str) (c : Catalog) : option Catalog :=
  assert! (field_cnt c <? max_field_cnt c)%nat;;
  assert! strcpy_fits type && strcpy_fits name;;
  Some (mkCatalog (table_name c) (max_field_cnt c) (u32 (tuple_size c + size))
          (columns c ++ [mkColumn (Z.of_nat (field_cnt c)) (u32 size) (tuple_size c) type name])).

Fixpoint find_col (name : str) (i : nat) (cols : list Column) : nat :=
  match cols with
  | [] => i
  | c :: cols => if bool_decide (name = col_name c) then i else find_col name (S i) cols
  end.

Definition get_field_id (name : str) (c : Catalog) : option nat :=
  let i := find_col name 0 (columns c) in
  assert! (i <? field_cnt c)%nat;; Some i.

Definition get_field_size (id : nat) (c : Catalog) : option Z := col_size <$> columns c !! id.
Definition get_field_index (id : nat) (c : Catalog) : option Z := col_index <$> columns c !! id.
Definition get_field_type (id : nat) (c : Catalog) : option str := col_type <$> columns c !! id.
Definition get_field_name (id : nat) (c : Catalog) : option str := col_name <$> columns c !! id.
Definition get_field_index_of (name : str) (c : Catalog) : option Z :=
  do! id <- get_field_id name c;; get_field_index id c.

(** The columns added one after the other. *)
Fixpoint add_cols (cols : list (str * Z * str)) (c : Catalog) : option Catalog :=
  match cols with
  | [] => Some c
  | (name, size, type) :: cols => do! c' <- add_col name size type c;; add_cols cols c'
  end.
End Schema.

(** ** The bytes of a tuple *)

Module Row.
(** [memcpy (data + pos, src, n)] and the read of [n] bytes. *)
Definition read (pos n : nat) (data : list Z) : option (list Z) :=
  if (pos + n <=? length data)%nat then Some (take n (drop pos data)) else None.

Definition memcpy (pos : nat) (src : list Z) (n : nat) (data : list Z) : option (list Z) :=
  do! bytes <- read 0 n src;;
  if (pos + n <=? length data)%nat
  then Some (take pos data ++ bytes ++ drop (pos + n) data) else None.

Section row.
(** [BYPASS_CATALOG] takes position and size from the caller. *)
Context (BYPASS_CATALOG : bool) (schema : Catalog).

Definition set_value (id : nat) (ptr : list Z) (pos datasize : Z) (data : list Z) : option (list Z) :=
  if BYPASS_CATALOG then memcpy (Z.to_nat pos) ptr (Z.to_nat datasize) data
  else
    do! datasize <- Schema.get_field_size id schema;;
    do! pos <- Schema.get_field_index id schema;;
    memcpy (Z.to_nat pos) ptr (Z.to_nat datasize) data.

(** [get_value<type>]; [n] is the size of [type]. *)
Definition get_value (id : nat) (n : nat) (pos : Z) (data : list Z) : option (list Z) :=
  if BYPASS_CATALOG then read (Z.to_nat pos) n data
  else do! pos <- Schema.get_field_index id schema;; read (Z.to_nat pos) n data.

Definition set_value_name (name : str) (ptr : list Z) (pos datasize : Z) (data : list Z) :
    option (list Z) :=
  if BYPASS_CATALOG then set_value 0 ptr pos datasize data
  else do! id <- Schema.get_field_id name schema;; set_value id ptr pos datasize data.

(** [row_t::copy]: [set_data] with the size of the source's schema or the
    caller's. *)
Definition copy (src : list Z) (size : Z) (data : list Z) : option (list Z) :=
  let size := if BYPASS_CATALOG then size else tuple_size schema in
  memcpy 0 src (Z.to_nat size) data.
End row.

(** A 64-bit value in memory, least significant byte first. *)
Fixpoint le_bytes (n : nat) (v : Z) : list Z :=
  match n with
  | O => []
  | S n => v mod 256 :: le_bytes n (v / 256)
  end.

Fixpoint of_le_bytes (l : list Z) : Z :=
  match l with
  | [] => 0
  | b :: l => b + 256 * of_le_bytes l
  end.

Lemma le_bytes_length n v : length (le_bytes n v) = n.
Proof. revert v. induction n as [|n IH]; intros v; simpl; [done|by rewrite IH]. Qed.

Lemma of_le_bytes_le_bytes n v : 0 <= v < 256 ^ Z.of_nat n -> of_le_bytes (le_bytes n v) = v.
Proof.
  revert v. induction n as [|n IH]; intros v Hv; [simpl in *; lia|].
  rewrite Nat2Z.inj_succ, Z.pow_succ_r in Hv by lia. cbn [le_bytes of_le_bytes].
  rewrite IH; [|split; [apply Z.div_pos; lia|apply Z.div_lt_upper_bound; lia]].
  pose proof (Z.div_mod v 256). lia.
Qed.

Lemma read_full src : read 0 (length src) src = Some src.
Proof. unfold read. rewrite (proj2 (Nat.leb_le _ _)) by lia. by rewrite drop_0, take_ge. Qed.

Lemma memcpy_ok pos src data :
  (pos + length src <= length data)%nat ->
  memcpy pos src (length src) data = Some (take pos data ++ src ++ drop (pos + length src) data).
Proof. intros H. unfold memcpy. rewrite read_full. by rewrite (proj2 (Nat.leb_le _ _)). Qed.

Lemma memcpy_length pos src n data data' :
  memcpy pos src n data = Some data' -> length data' = length data.
Proof.
  unfold memcpy, read. destruct (0 + n <=? length src)%nat eqn:E1; [|done].
  destruct (pos + n <=? length data)%nat eqn:E2; [|done]. intros [= <-].
  apply Nat.leb_le in E1, E2. rewrite !length_app, !length_take, !length_drop. simpl. lia.
Qed.

Lemma read_memcpy_same pos src data data' :
  memcpy pos src (length src) data = Some data' -> read pos (length src) data' = Some src.
Proof.
  intros H. pose proof (memcpy_length _ _ _ _ _ H) as Hl. unfold memcpy in H. rewrite read_full in H.
  destruct (pos + length src <=? length data)%nat eqn:E; [|done]. injection H as <-.
  apply Nat.leb_le in E. unfold read. rewrite (proj2 (Nat.leb_le _ _)) by lia. f_equal.
  rewrite drop_app_length' by (rewrite length_take; lia). by apply take_app_length'.
Qed.

(** A read before or behind the bytes written is not changed. *)
Lemma read_memcpy_other pos src n data data' pos' n' :
  memcpy pos src n data = Some data' -> (pos' + n' <= pos \/ pos + n <= pos')%nat ->
  read pos' n' data' = read pos' n' data.
Proof.
  intros H Hd. pose proof (memcpy_length _ _ _ _ _ H) as Hl. unfold memcpy in H.
  destruct (read 0 n src) as [b|] eqn:Eb; [|done].
  assert (length b = n) as Hb.
  { unfold read in Eb. destruct (0 + n <=? length src)%nat eqn:E; [|done]. injection Eb as <-.
    apply Nat.leb_le in E. rewrite length_take, length_drop. lia. }
  destruct (pos + n <=? length data)%nat eqn:E; [|done]. apply Nat.leb_le in E.
  unfold read. rewrite Hl. destruct (pos' + n' <=? length data)%nat eqn:E'; [|done].
  apply Nat.leb_le in E'. injection H as <-. f_equal. destruct Hd.
  - rewrite drop_app_le by (rewrite length_take; lia).
    rewrite take_app_le by (rewrite length_drop, length_take; lia).
    rewrite skipn_firstn_comm. rewrite take_take. f_equal. lia.
  - rewrite (assoc_L (++)). rewrite drop_app_ge by (rewrite length_app, length_take; lia).
    rewrite drop_drop. do 2 f_equal. rewrite length_app, length_take. lia.
Qed.
End Row.

(** ** The layout of a table *)

(** The columns from number [i] and offset [pos] on lie one behind the other up to
    [fin]. *)
Fixpoint layout (i : nat) (pos : Z) (cols : list Column) (fin : Z) : Prop :=
  match cols with
  | [] => pos = fin
  | c :: cols =>
      col_id c = Z.of_nat i /\ col_index c = pos /\ 0 <= col_size c /\
      layout (S i) (pos + col_size c) cols fin
  end.

Definition catalog_ok (c : Catalog) : Prop :=
  layout 0 0 (columns c) (tuple_size c) /\ tuple_size c < 2 ^ 32 /\
  (field_cnt c <= max_field_cnt c)%nat.

Lemma layout_le i pos cols fin : layout i pos cols fin -> pos <= fin.
Proof.
  revert i pos. induction cols as [|c cols IH]; simpl; intros i pos; [lia|].
  intros (_ & _ & ? & Hl%IH). lia.
Qed.

Lemma layout_snoc i pos cols c fin :
  layout i pos cols (col_index c) -> col_id c = Z.of_nat (i + length cols) -> 0 <= col_size c ->
  fin = col_index c + col_size c -> layout i pos (cols ++ [c]) fin.
Proof.
  revert i pos. induction cols as [|c' cols IH]; simpl; intros i pos.
  - intros -> Hid ? ->. split_and!; [|done|done|done]. rewrite Hid. f_equal. lia.
  - intros (? & ? & ? & ?) Hid ? ?. split_and!; [done..|]. apply IH; [done| |done|done].
    rewrite Hid. f_equal. lia.
Qed.

Lemma layout_lookup i pos cols fin k c :
  layout i pos cols fin -> cols !! k = Some c ->
  col_id c = Z.of_nat (i + k) /\ pos <= col_index c /\ 0 <= col_size c /\
  col_index c + col_size c <= fin.
Proof.
  revert i pos k. induction cols as [|c' cols IH]; intros i pos [|k]; simpl; try done.
  - intros (? & ? & ? & Hl%layout_le) [= ->]. split_and!; [rewrite Nat.add_0_r; done|lia|done|lia].
  - intros (_ & _ & ? & Hl) Hk. destruct (IH _ _ _ Hl Hk) as (-> & ? & ? & ?).
    split_and!; [f_equal; lia|lia|done|done].
Qed.

(** Two columns never overlap. *)
Lemma layout_disjoint i pos cols fin k k' c c' :
  layout i pos cols fin -> cols !! k = Some c -> cols !! k' = Some c' -> (k < k')%nat ->
  col_index c + col_size c <= col_index c'.
Proof.
  revert i pos k k'. induction cols as [|c0 cols IH]; intros i pos [|k] [|k']; simpl; try done; try lia.
  - intros (_ & Hp & ? & Hl) [= ->] Hk' _. rewrite Hp.
    by destruct (layout_lookup _ _ _ _ _ _ Hl Hk') as (_ & ? & _).
  - intros (_ & _ & _ & Hl) Hk Hk' Hlt. eapply IH; [done..|lia].
Qed.

Lemma find_col_spec name i cols :
  (i <= Schema.find_col name i cols)%nat /\
  ((Schema.find_col name i cols < i + length cols)%nat ->
    exists c, cols !! (Schema.find_col name i cols - i)%nat = Some c /\ col_name c = name) /\
  forall k c, cols !! k = Some c -> col_name c = name -> (Schema.find_col name i cols <= i + k)%nat.
Proof.
  revert i. induction cols as [|c cols IH]; intros i; simpl; [split_and!; [lia|lia|done]|].
  case_bool_decide as Hn.
  - split_and!; [lia| |lia]. intros _. exists c. by rewrite Nat.sub_diag.
  - destruct (IH (S i)) as (Hle & Hin & Hfirst). split_and!; [lia| |].
    + intros Hlt. destruct Hin as (c' & Hc' & ?); [lia|]. exists c'. split; [|done].
      by replace (_ - i)%nat with (S (Schema.find_col name (S i) cols - S i)) by lia.
    + intros [|k] c'; simpl; [by intros [= ->] <-|]. intros Hk Hc'. specialize (Hfirst k c' Hk Hc'). lia.
Qed.

(** [get_field_id] is the first column of that name. *)
Lemma get_field_id_spec name c i :
  Schema.get_field_id name c = Some i ->
  (exists col, columns c !! i = Some col /\ col_name col = name) /\
  forall k col, columns c !! k = Some col -> col_name col = name -> (i <= k)%nat.
Proof.
  unfold Schema.get_field_id. intros H. inv_assert. injection H as <-.
  destruct (find_col_spec name 0 (columns c)) as (_ & Hin & Hfirst).
  apply Nat.ltb_lt in H0. rewrite Nat.sub_0_r in Hin. split; [by apply Hin|].
  intros k col Hk Hc. by apply (Hfirst k col).
Qed.

Lemma get_field_id_none name c : Schema.get_field_id name c = None <-> name ∉ map col_name (columns c).
Proof.
  unfold Schema.get_field_id. destruct (find_col_spec name 0 (columns c)) as (_ & Hin & Hfirst).
  rewrite Nat.sub_0_r in Hin. destruct (Nat.ltb_spec (Schema.find_col name 0 (columns c)) (field_cnt c)) as [Hlt|Hge]; simpl.
  - split; [done|]. intros Hn. destruct Hn. destruct (Hin Hlt) as (col & Hc & <-). apply list_elem_of_In, in_map, list_elem_of_In.
    by eapply list_elem_of_lookup_2.
  - split; [|done]. intros _ (col & <- & Hc)%list_elem_of_In%in_map_iff. apply list_elem_of_In, list_elem_of_lookup in Hc as [k Hk].
    pose proof (Hfirst k col Hk eq_refl). apply lookup_lt_Some in Hk. unfold field_cnt in Hge. lia.
Qed.

Lemma get_field_id_first name c i : Schema.get_field_id name c = Some i <->
  (exists col, columns c !! i = Some col /\ col_name col = name) /\
  forall k col, (k < i)%nat -> columns c !! k = Some col -> col_name col <> name.
Proof.
  split.
  - intros [H1 H2]%get_field_id_spec. split; [done|]. intros k col Hk Hc Hn. specialize (H2 k col Hc Hn). lia.
  - intros [(col & Hc & Hn) Hf]. destruct (Schema.get_field_id name c) as [j|] eqn:E.
    + apply get_field_id_spec in E as [(col' & Hc' & Hn') Hj]. f_equal. specialize (Hj i col Hc Hn).
      destruct (decide (j = i)); [done|]. exfalso. eapply (Hf j col'); [lia|done|done].
    + apply get_field_id_none in E. destruct E. rewrite <- Hn. apply list_elem_of_In, in_map, list_elem_of_In.
      by eapply list_elem_of_lookup_2.
Qed.

Lemma add_col_ok name size type c :
  catalog_ok c -> (field_cnt c < max_field_cnt c)%nat -> (length name < 80)%nat ->
  (length type < 80)%nat -> 0 <= size -> tuple_size c + size < 2 ^ 32 ->
  exists c', Schema.add_col name size type c = Some c' /\ catalog_ok c' /\
    tuple_size c' = tuple_size c + size /\ max_field_cnt c' = max_field_cnt c /\
    columns c' = columns c ++ [mkColumn (Z.of_nat (field_cnt c)) size (tuple_size c) type name].
Proof.
  intros (Hl & Ht & Hf) Hlt Hn Hty Hs Hsum. pose proof (layout_le _ _ _ _ Hl).
  unfold Schema.add_col, Schema.strcpy_fits.
  rewrite !(proj2 (Nat.ltb_lt _ _)) by done. cbn [c_assert andb].
  rewrite !u32_small by (unfold is_u32; lia). eexists. split; [done|].
  unfold catalog_ok, field_cnt in *. simpl. split_and!; try done.
  - by apply layout_snoc.
  - rewrite length_app. simpl. lia.
Qed.

(** ** What catalogs and rows guarantee *)

Definition sizes (cols : list (str * Z * str)) : Z := foldr (fun c s => snd (fst c) + s) 0 cols.

Lemma layout_index i pos cols fin k col : layout i pos cols fin -> cols !! k = Some col ->
  col_index col = pos + sizes (take k (map (fun col => (col_name col, col_size col, col_type col)) cols)).
Proof.
  revert i pos k. induction cols as [|c cols IH]; intros i pos [|k]; simpl; try done.
  - intros (_ & Hp & _) [= <-]. rewrite Hp. lia.
  - intros (_ & _ & _ & Hl) Hk. rewrite (IH _ _ _ Hl Hk). lia.
Qed.

Definition spec_ok (c : str * Z * str) : Prop :=
  (length (fst (fst c)) < 80)%nat /\ 0 <= snd (fst c) /\ (length (snd c) < 80)%nat.

Lemma add_cols_ok cols c :
  catalog_ok c -> Forall spec_ok cols -> (field_cnt c + length cols <= max_field_cnt c)%nat ->
  tuple_size c + sizes cols < 2 ^ 32 ->
  exists c', Schema.add_cols cols c = Some c' /\ catalog_ok c' /\
    tuple_size c' = tuple_size c + sizes cols /\
    map (fun col => (col_name col, col_size col, col_type col)) (columns c') =
      map (fun col => (col_name col, col_size col, col_type col)) (columns c) ++ cols.
Proof.
  intros Hc Hs. revert c Hc. induction Hs as [|[[name size] type] cols (Hn & H0 & Hty) Hs IH];
    intros c Hc Hf Hsum; simpl in *.
  - exists c. split_and!; [done|done|lia|by rewrite app_nil_r].
  - assert (0 <= sizes cols) as Hge.
    { clear -Hs. induction Hs as [|x l (_ & ? & _) Hs IH]; simpl; lia. }
    destruct (add_col_ok name size type c) as (c1 & -> & Hc1 & Ht1 & Hm1 & Hcol1);
      [done|lia|done|done|done|lia|].
    destruct (IH c1) as (c2 & -> & Hc2 & Ht2 & Hcol2); [done| |lia|].
    { unfold field_cnt in *. rewrite Hcol1, Hm1, length_app. simpl. lia. }
    exists c2. split_and!; [done|done|lia|]. rewrite Hcol2, Hcol1, map_app, <- (assoc_L (++)). done.
Qed.

(** C35. The layout of a table: adding columns whose names and types fit their
    arrays, as many as were reserved and with less than 2^32 bytes in total,
    fails no assertion; the columns have the given names, sizes and types in
    order, lie one behind the other without gap or overlap in [0, tuple_size), and
    [get_field_id] gives the index of the first column with a name, and fails only
    for a name that no column has. *)
Theorem catalog_layout name n cols
  (Hs : Forall spec_ok cols) (Hn : (length cols <= n)%nat) (Hsum : sizes cols < 2 ^ 32) :
  exists c, Schema.add_cols cols (Schema.init name n) = Some c /\
    map (fun col => (col_name col, col_size col, col_type col)) (columns c) = cols /\
    tuple_size c = sizes cols /\
    (forall k col, columns c !! k = Some col ->
       col_id col = Z.of_nat k /\ 0 <= col_index col /\ col_index col + col_size col <= tuple_size c /\
       col_index col = sizes (take k cols)) /\
    (forall k k' col col', columns c !! k = Some col -> columns c !! k' = Some col' -> k <> k' ->
       col_index col + col_size col <= col_index col' \/ col_index col' + col_size col' <= col_index col) /\
    (forall fname i, Schema.get_field_id fname c = Some i <->
       (exists col, columns c !! i = Some col /\ col_name col = fname) /\
       forall k col, (k < i)%nat -> columns c !! k = Some col -> col_name col <> fname) /\
    (forall fname, Schema.get_field_id fname c = None <-> fname ∉ map col_name (columns c)).
Proof.
  destruct (add_cols_ok cols (Schema.init name n)) as (c & Hc & (Hl & _) & Ht & Hcols); [|done|done|done|].
  { split_and!; [done|simpl; lia|unfold field_cnt; simpl; lia]. }
  exists c. split_and!; [done|done|done| | | |].
  - intros k col Hk. destruct (layout_lookup _ _ _ _ _ _ Hl Hk) as (? & ? & ? & ?). split_and!; [done|lia|lia|].
    simpl in Hcols. by rewrite (layout_index _ _ _ _ _ _ Hl Hk), Hcols.
  - intros k k' col col' Hk Hk' Hne. destruct (decide (k < k')%nat).
    + left. eapply layout_disjoint; done.
    + right. eapply layout_disjoint; [done..|lia].
  - intros fname i. apply get_field_id_first.
  - intros fname. apply get_field_id_none.
Qed.

Definition cols_ex : list (str * Z * str) :=
  [(["a"%char], 8, ["u"%char]); (["b"%char], 10, ["s"%char]); (["c"%char], 4, ["i"%char])].

Lemma catalog_layout_witness : exists c,
  Schema.add_cols cols_ex (Schema.init [] 3) = Some c /\ tuple_size c = 22 /\
  Schema.get_field_id ["c"%char] c = Some 2%nat /\ Schema.get_field_index 2 c = Some 18.
Proof.
  destruct (catalog_layout [] 3 cols_ex) as (c & Hc & Hcols & Ht & _).
  - repeat constructor; simpl; lia.
  - simpl. lia.
  - vm_compute. done.
  - exists c. split_and!; [done|by rewrite Ht| |]; vm_compute in Hc; by injection Hc as <-.
Defined.

(** Values of a row: writing a column whose size is the size of the value
    succeeds, reading the column gives the value back, every other column and the
    length of the tuple are unchanged; the variant that takes position and size
    from the caller does the same when they are those of the catalog; and a 64-bit
    integer is read back as it was written. *)
Theorem row_value_roundtrip c id col ptr data
  (Hc : catalog_ok c) (Hid : columns c !! id = Some col)
  (Hdata : Z.of_nat (length data) = tuple_size c)
  (Hptr : Z.of_nat (length ptr) = col_size col) :
  exists data', Row.set_value false c id ptr 0 0 data = Some data' /\
    length data' = length data /\
    Row.set_value true c id ptr (col_index col) (col_size col) data = Some data' /\
    Row.get_value false c id (length ptr) 0 data' = Some ptr /\
    Row.get_value true c id (length ptr) (col_index col) data' = Some ptr /\
    (forall k col', k <> id -> columns c !! k = Some col' ->
       Row.get_value false c k (Z.to_nat (col_size col')) 0 data' =
       Row.get_value false c k (Z.to_nat (col_size col')) 0 data) /\
    (forall v, 0 <= v < 2 ^ 64 -> ptr = Row.le_bytes 8 v ->
       Row.of_le_bytes <$> Row.get_value false c id 8 0 data' = Some v).
Proof.
  destruct Hc as (Hl & _ & _). destruct (layout_lookup _ _ _ _ _ _ Hl Hid) as (_ & ? & ? & ?).
  assert (Z.to_nat (col_size col) = length ptr) as Hsz by lia.
  pose proof (Row.memcpy_ok (Z.to_nat (col_index col)) ptr data ltac:(lia)) as Hm.
  pose proof (Row.read_memcpy_same _ _ _ _ Hm) as Hr.
  assert (forall n, Row.get_value false c id n 0 = Row.read (Z.to_nat (col_index col)) n) as Hg
    by (intros n; unfold Row.get_value, Schema.get_field_index; by rewrite Hid).
  eexists. split_and!.
  - unfold Row.set_value, Schema.get_field_size, Schema.get_field_index. rewrite Hid. simpl.
    by rewrite Hsz.
  - by eapply Row.memcpy_length.
  - simpl. by rewrite Hsz.
  - by rewrite Hg.
  - done.
  - intros k col' Hk Hcol'. unfold Row.get_value, Schema.get_field_index. rewrite Hcol'. simpl.
    destruct (layout_lookup _ _ _ _ _ _ Hl Hcol') as (_ & ? & ? & ?).
    apply (Row.read_memcpy_other _ _ _ _ _ _ _ Hm).
    destruct (decide (k < id)%nat).
    + pose proof (layout_disjoint _ _ _ _ _ _ _ _ Hl Hcol' Hid ltac:(done)). lia.
    + pose proof (layout_disjoint _ _ _ _ id k _ _ Hl Hid Hcol' ltac:(lia)). lia.
  - intros v Hv Hp. rewrite Hg. rewrite Hp in Hr |- *. rewrite Row.le_bytes_length in Hr.
    rewrite Row.le_bytes_length, Hr. cbn [fmap option_fmap option_map].
    by rewrite Row.of_le_bytes_le_bytes.
Qed.

Definition catalog_ex : Catalog := default (Schema.init [] 3) (Schema.add_cols cols_ex (Schema.init [] 3)).

Lemma row_value_roundtrip_witness : exists data',
  Row.set_value false catalog_ex 0 (Row.le_bytes 8 (2 ^ 40 + 7)) 0 0 (replicate 22 0) = Some data' /\
  Row.of_le_bytes <$> Row.get_value false catalog_ex 0 8 0 data' = Some (2 ^ 40 + 7).
Proof.
  destruct (row_value_roundtrip catalog_ex 0 (mkColumn 0 8 0 ["u"%char] ["a"%char])
    (Row.le_bytes 8 (2 ^ 40 + 7)) (replicate 22 0)) as (data' & Hset & _ & _ & _ & _ & _ & Hv).
  - vm_compute. split_and!; try done; lia.
  - reflexivity.
  - reflexivity.
  - reflexivity.
  - exists data'. split; [exact Hset|]. apply Hv; [lia|reflexivity].
Defined.
