(* ===== verification/SchemaFile.v ===== *)
(** * The schema file of a workload

    [workload::init_schema] of src/system/wl.cpp: the lines of a schema file are
    turned into the catalogs of the tables and the declarations of the indexes.
    [None] is a failed assertion, an exception or an access outside a vector; the
    search for the file is left out.  The file ends with a newline: a [getline]
    behind the last line gives an empty line. *)

From Stdlib Require Import Ascii String.
From stdpp Require Import list gmap strings.
From S2P Require Import Prelude Global Storage.

Definition text (s : string) : str := list_ascii_of_string s.
Definition comma : ascii := ","%char.

(** ** Splitting a line *)

(** [line.find(",")], [substr] and [erase]: the first token and what is behind its
    comma. *)
Fixpoint break_comma (line : str) : str * str :=
  match line with
  | [] => ([], [])
  | c :: line =>
      if bool_decide (c = comma) then ([], line)
      else let '(token, rest) := break_comma line in (c :: token, rest)
  end.

(** The loop [while (line.length() != 0)]; every turn shortens the line. *)
Fixpoint tokens_loop (fuel : nat) (line : str) : list str :=
  match fuel, line with
  | S fuel, _ :: _ => let '(token, rest) := break_comma line in token :: tokens_loop fuel rest
  | _, _ => []
  end.
Definition tokens (line : str) : list str := tokens_loop (length line) line.

(** ** Numbers *)

Definition isspace (c : ascii) : bool :=
  let n := Z.of_nat (nat_of_ascii c) in (n =? 32) || ((9 <=? n) && (n <=? 13)).
Definition digit (c : ascii) : option Z :=
  let n := Z.of_nat (nat_of_ascii c) in if (48 <=? n) && (n <=? 57) then Some (n - 48) else None.

Fixpoint skip_space (s : str) : str :=
  match s with
  | c :: s' => if isspace c then skip_space s' else s
  | [] => []
  end.
Fixpoint digits (acc : Z) (s : str) : Z :=
  match s with
  | c :: s => match digit c with Some d => digits (acc * 10 + d) s | None => acc end
  | [] => acc
  end.

Definition atoi (s : str) : Z :=
  match skip_space s with
  | "-"%char :: s => - digits 0 s
  | "+"%char :: s => digits 0 s
  | s => digits 0 s
  end.

(** [std::stoull]: an exception without digits or out of range. *)
Definition unsigned_digits (s : str) : option Z :=
  match s with
  | c :: _ =>
      do! _d <- digit c;;
      let n := digits 0 s in if n <? 2 ^ 64 then Some n else None
  | [] => None
  end.
Definition stoull (s : str) : option Z :=
  match skip_space s with
  | "-"%char :: s => do! n <- unsigned_digits s;; Some (u64 (- n))
  | "+"%char :: s => unsigned_digits s
  | s => unsigned_digits s
  end.

(** ** Tables and indexes *)

Inductive IndexStruct := IDX_HASH | IDX_HASH_PERFECT | IDX_BTREE.
#[export] Instance IndexStruct_eq_dec : EqDecision IndexStruct.
Proof. solve_decision. Defined.

Record IndexDecl := mkDecl {
  d_struct : IndexStruct; d_table : option Catalog; d_parts : Z; d_buckets : option Z }.

Record Workload := mkWorkload {
  tables : gmap str Catalog;
  indexes : gmap str IndexDecl }.

Section init_schema.
Context (INDEX_STRUCT : IndexStruct) (TPCC TPCC_ALL_TXN REPLICATE_ITEM CENTRAL_INDEX : bool).
Context (g_part_cnt DIST_PER_WARE MAX_SOCKETS g_synth_table_size : Z).

(** One line of a table: size, type and name. *)
Definition parse_col (line : str) : option (str * Z * str) :=
  match tokens line with
  | [size; type; name] => Some (name, u64 (atoi size), type)
  | _ => None
  end.

Fixpoint parse_cols (lines : list str) : option (list (str * Z * str)) :=
  match lines with
  | [] => Some []
  | line :: lines => do! c <- parse_col line;; do! cs <- parse_cols lines;; Some (c :: cs)
  end.

(** The loop [while (line.length() > 1)]: the lines of the table and what is behind
    the line that ends it. *)
Fixpoint table_lines (lines : list str) : list str * list str :=
  match lines with
  | [] => ([], [])
  | line :: lines =>
      if (length line <=? 1)%nat then ([], lines)
      else let '(cols, rest) := table_lines lines in (line :: cols, rest)
  end.

Definition part_cnt (iname tname : str) : Z :=
  let parts := if CENTRAL_INDEX then 1 else g_part_cnt in
  let parts := if bool_decide (iname = text "ORDER-LINE_IDX") || bool_decide (iname = text "ORDER_IDX")
               then parts * DIST_PER_WARE else parts in
  if bool_decide (tname = text "ITEM") then (if REPLICATE_ITEM then MAX_SOCKETS else 1) else parts.

(** The bucket count of a hash index, and the assertion that the table is there. *)
Definition bucket_cnt (table : option Catalog) (parts : Z) (items : list str) : option Z :=
  if TPCC then
    assert! bool_decide (is_Some table);;
    do! item <- items !! 1%nat;; do! n <- stoull item;; Some (u64 (n * parts))
  else Some (u64 (g_synth_table_size * 2)).

Definition declare_index (iname line : str) (w : Workload) : option IndexDecl :=
  let items := tokens line in
  do! tname <- items !! 0%nat;;
  let table := tables w !! tname in
  match INDEX_STRUCT with
  | IDX_BTREE => Some (mkDecl IDX_BTREE table (part_cnt iname tname) None)
  | _ =>
      if bool_decide (INDEX_STRUCT = IDX_HASH_PERFECT) && bool_decide (iname = text "CUSTOMER_LAST_IDX") then
        let parts := if CENTRAL_INDEX then 1 else g_part_cnt in
        let parts := if TPCC_ALL_TXN then parts * DIST_PER_WARE else parts in
        do! n <- bucket_cnt table parts items;; Some (mkDecl IDX_HASH table parts (Some n))
      else
        do! n <- bucket_cnt table (part_cnt iname tname) items;;
        Some (mkDecl INDEX_STRUCT table (part_cnt iname tname) (Some n))
  end.

(** [line.compare(0, 6, key)]. *)
Definition starts (key : string) (line : str) : bool := bool_decide (take 6 line = text key).

Fixpoint init_schema (fuel : nat) (lines : list str) (w : Workload) : option Workload :=
  match fuel, lines with
  | S fuel, line :: lines =>
      if starts "TABLE=" line then
        let tname := drop 6 line in
        let '(cols, rest) := table_lines lines in
        do! cs <- parse_cols cols;;
        do! schema <- Schema.add_cols cs (Schema.init tname (length cols));;
        init_schema fuel rest (mkWorkload (<[tname := schema]> (tables w)) (indexes w))
      else if starts "INDEX=" line then
        let iname := drop 6 line in
        match lines with
        | [] => None
        | line :: rest =>
            do! d <- declare_index iname line w;;
            init_schema fuel rest (mkWorkload (tables w) (<[iname := d]> (indexes w)))
        end
      else init_schema fuel lines w
  | _, _ => Some w
  end.

Definition load_schema (lines : list str) : option Workload :=
  init_schema (length lines) lines (mkWorkload ∅ ∅).

(** ** Schema files as data *)

(** A decimal number. *)
Fixpoint dec_loop (fuel : nat) (n : Z) (acc : str) : str :=
  match fuel with
  | O => acc
  | S fuel =>
      let acc := ascii_of_nat (Z.to_nat (48 + n mod 10)) :: acc in
      if n <? 10 then acc else dec_loop fuel (n / 10) acc
  end.
Definition dec (n : Z) : str := dec_loop 20 n [].

(** A line that is neither a table nor an index, a table with its columns, an index
    with its table and the size in the file. *)
Inductive Entry :=
  | Other (line : str)
  | Table (name : str) (cols : list (str * Z * str))
  | Idx (iname tname : str) (size : Z).

Definition print_col (c : str * Z * str) : str :=
  let '(name, size, type) := c in "009"%char :: dec size ++ comma :: type ++ comma :: name.

Definition print_entry (e : Entry) : list str :=
  match e with
  | Other line => [line]
  | Table name cols => (text "TABLE=" ++ name) :: map print_col cols ++ [[]]
  | Idx iname tname size => [text "INDEX=" ++ iname; tname ++ comma :: dec size]
  end.

Definition no_comma (s : str) : bool := bool_decide (comma ∉ s).
Definition col_ok (c : str * Z * str) : bool :=
  let '(name, size, type) := c in
  negb (bool_decide (name = [])) && no_comma name && no_comma type && (0 <=? size) && (size <? 2 ^ 31).
Definition entry_ok (e : Entry) : bool :=
  match e with
  | Other line => negb (starts "TABLE=" line) && negb (starts "INDEX=" line)
  | Table name cols => forallb col_ok cols
  | Idx iname tname size => no_comma tname && (0 <=? size) && (size <? 2 ^ 64)
  end.

(** What an index entry means: a hash index has [size] buckets per partition for
    TPCC and twice the size of the table for YCSB. *)
Definition idx_entry (iname tname : str) (size : Z) (w : Workload) : option IndexDecl :=
  let table := tables w !! tname in
  let perfect_last := bool_decide (INDEX_STRUCT = IDX_HASH_PERFECT) &&
    bool_decide (iname = text "CUSTOMER_LAST_IDX") in
  let parts :=
    if perfect_last then
      (if CENTRAL_INDEX then 1 else g_part_cnt) * (if TPCC_ALL_TXN then DIST_PER_WARE else 1)
    else part_cnt iname tname in
  let str := if perfect_last then IDX_HASH else INDEX_STRUCT in
  match str with
  | IDX_BTREE => Some (mkDecl str table parts None)
  | _ =>
      if TPCC then
        match table with
        | None => None
        | Some _ => Some (mkDecl str table parts (Some (u64 (size * parts))))
        end
      else Some (mkDecl str table parts (Some (u64 (g_synth_table_size * 2))))
  end.

Definition add_entry (e : Entry) (w : Workload) : option Workload :=
  match e with
  | Other _ => Some w
  | Table name cols =>
      do! c <- Schema.add_cols cols (Schema.init name (length cols));;
      Some (mkWorkload (<[name := c]> (tables w)) (indexes w))
  | Idx iname tname size =>
      do! d <- idx_entry iname tname size w;;
      Some (mkWorkload (tables w) (<[iname := d]> (indexes w)))
  end.

Fixpoint add_entries (es : list Entry) (w : Workload) : option Workload :=
  match es with
  | [] => Some w
  | e :: es => do! w' <- add_entry e w;; add_entries es w'
  end.
End init_schema.

(** ** Lemmas on tokens and numbers *)

Lemma break_comma_here rest : break_comma (comma :: rest) = ([], rest).
Proof. reflexivity. Qed.

Lemma break_comma_next c s :
  c <> comma -> break_comma (c :: s) = (c :: (break_comma s).1, (break_comma s).2).
Proof. intros H. cbn [break_comma]. rewrite bool_decide_false by done. by destruct (break_comma s). Qed.

Lemma break_comma_app s rest : comma ∉ s -> break_comma (s ++ comma :: rest) = (s, rest).
Proof.
  induction s as [|c s IH]; intros H; [apply break_comma_here|].
  apply not_elem_of_cons in H as [Hc H]. change ((c :: s) ++ comma :: rest) with (c :: (s ++ comma :: rest)).
  by rewrite break_comma_next, IH.
Qed.

Lemma break_comma_all s : comma ∉ s -> break_comma s = (s, []).
Proof.
  induction s as [|c s IH]; intros H; [done|].
  apply not_elem_of_cons in H as [Hc H]. by rewrite break_comma_next, IH.
Qed.

Lemma break_comma_length s : (length (break_comma s).2 <= length s - 1)%nat.
Proof.
  induction s as [|c s IH]; [simpl; lia|]. destruct (decide (c = comma)) as [->|H].
  - rewrite break_comma_here. simpl. lia.
  - rewrite break_comma_next by done. simpl in *. lia.
Qed.

(** Enough fuel is the length of the line. *)
Lemma tokens_loop_fuel fuel line :
  (length line <= fuel)%nat -> tokens_loop fuel line = tokens_loop (length line) line.
Proof.
  revert line. induction fuel as [fuel IH] using lt_wf_ind. intros line Hl.
  destruct line as [|c line]; [by destruct fuel|]. destruct fuel as [|fuel]; [simpl in Hl; lia|].
  cbn [tokens_loop length]. pose proof (break_comma_length (c :: line)) as Hb.
  destruct (break_comma (c :: line)) as [token rest]. simpl in Hl, Hb. f_equal.
  rewrite (IH fuel) by lia. destruct (decide (length line = fuel)) as [->|]; [|by rewrite (IH (length line)) by lia].
  by rewrite (IH fuel) by lia.
Qed.

Lemma tokens_cons token rest :
  comma ∉ token -> tokens (token ++ comma :: rest) = token :: tokens rest.
Proof.
  intros H. unfold tokens at 1. destruct (token ++ comma :: rest) as [|c l] eqn:E.
  { by destruct token. }
  cbn [length tokens_loop]. rewrite <- E, break_comma_app by done. f_equal.
  apply tokens_loop_fuel. apply (f_equal length) in E. rewrite length_app in E. simpl in E. lia.
Qed.

Lemma tokens_one token : comma ∉ token -> token <> [] -> tokens token = [token].
Proof.
  intros H Hn. unfold tokens. destruct token as [|c l] eqn:E; [done|].
  cbn [length tokens_loop]. rewrite <- E, break_comma_all by by subst. by destruct (length l).
Qed.


Definition is_digit (c : ascii) : bool := bool_decide (is_Some (digit c)).

Lemma digit_char d : 0 <= d < 10 -> digit (ascii_of_nat (Z.to_nat (48 + d))) = Some d.
Proof.
  intros H. unfold digit. rewrite nat_ascii_embedding by lia.
  replace (Z.of_nat (Z.to_nat (48 + d))) with (48 + d) by lia.
  rewrite (proj2 (Z.leb_le _ _)), (proj2 (Z.leb_le _ _)) by lia. simpl. f_equal. lia.
Qed.

Lemma is_digit_comma c : is_digit c = true -> c <> comma.
Proof. intros H ->. done. Qed.

Lemma atoi_digit c s : is_digit c = true -> atoi (c :: s) = digits 0 (c :: s).
Proof. intros H. by destruct c as [[] [] [] [] [] [] [] []]. Qed.

Lemma stoull_digit c s :
  is_digit c = true -> digits 0 (c :: s) < 2 ^ 64 -> stoull (c :: s) = Some (digits 0 (c :: s)).
Proof.
  intros H Hn. assert (stoull (c :: s) = unsigned_digits (c :: s)) as ->.
  { by destruct c as [[] [] [] [] [] [] [] []]. }
  unfold unsigned_digits. unfold is_digit in H. apply bool_decide_eq_true in H as [d ->]. simpl mbind.
  by rewrite (proj2 (Z.ltb_lt _ _)).
Qed.

Lemma dec_loop_digits fuel n acc :
  0 <= n -> n < 10 ^ Z.of_nat fuel -> digits 0 (dec_loop fuel n acc) = digits n acc.
Proof.
  revert n acc. induction fuel as [|fuel IH]; intros n acc H0 Hn.
  { simpl in Hn. by replace n with 0 by lia. }
  rewrite Nat2Z.inj_succ, Z.pow_succ_r in Hn by lia. cbn [dec_loop].
  pose proof (Z.mod_pos_bound n 10). pose proof (Z.div_mod n 10).
  destruct (n <? 10) eqn:E; [apply Z.ltb_lt in E|rewrite IH]; [| |apply Z.div_pos; lia|apply Z.div_lt_upper_bound; lia];
    cbn [digits]; rewrite digit_char by lia; f_equal; [rewrite Z.mod_small by lia; lia|lia].
Qed.

Lemma dec_loop_form fuel n acc :
  Forall (fun c => is_digit c = true) acc -> 0 <= n ->
  Forall (fun c => is_digit c = true) (dec_loop (S fuel) n acc) /\ dec_loop (S fuel) n acc <> [].
Proof.
  revert n acc. induction fuel as [|fuel IH]; intros n acc Ha H0; pose proof (Z.mod_pos_bound n 10).
  all: assert (Forall (fun c => is_digit c = true) (ascii_of_nat (Z.to_nat (48 + n mod 10)) :: acc)) as Ha'
    by (constructor; [unfold is_digit; rewrite digit_char by lia; done|done]).
  all: remember (S _) as k; cbn [dec_loop]; subst k; cbn [dec_loop]; fold dec_loop.
  - by destruct (n <? 10).
  - destruct (n <? 10); [done|]. apply IH; [done|]. apply Z.div_pos; lia.
Qed.

Lemma dec_form n : 0 <= n -> exists c s, dec n = c :: s /\ is_digit c = true /\ comma ∉ dec n.
Proof.
  intros H. destruct (dec_loop_form 19 n []) as [Hf Hn]; [constructor|done|]. fold (dec n) in *.
  destruct (dec n) as [|c s] eqn:E; [done|]. exists c, s. split_and!; [done|by inversion Hf|].
  intros Hc. rewrite Forall_forall in Hf. by apply Hf in Hc.
Qed.

Lemma digits_dec n : 0 <= n < 2 ^ 64 -> digits 0 (dec n) = n.
Proof. intros H. unfold dec. by rewrite dec_loop_digits by lia. Qed.

Lemma stoull_dec n : 0 <= n < 2 ^ 64 -> stoull (dec n) = Some n.
Proof.
  intros H. destruct (dec_form n) as (c & s & E & Hc & _); [lia|].
  pose proof (digits_dec n H) as Hd. rewrite E in *. rewrite stoull_digit, Hd; [done|done|lia].
Qed.

Lemma atoi_dec n : 0 <= n < 2 ^ 64 -> atoi ("009"%char :: dec n) = n.
Proof.
  intros H. destruct (dec_form n) as (c & s & E & Hc & _); [lia|].
  pose proof (digits_dec n H) as Hd. change (atoi ("009"%char :: dec n)) with (atoi (dec n)).
  rewrite E in *. by rewrite atoi_digit.
Qed.

(** ** Reading back what was printed *)

Lemma no_comma_spec s : no_comma s = true -> comma ∉ s.
Proof. unfold no_comma. by rewrite bool_decide_eq_true. Qed.

Lemma parse_print_col c : col_ok c = true -> parse_col (print_col c) = Some c.
Proof.
  destruct c as [[name size] type]. unfold col_ok, print_col, parse_col. intros H. b2p. destruct (dec_form size) as (d & s & _ & _ & Hc); [lia|].
  change ("009"%char :: dec size ++ comma :: type ++ comma :: name)
    with (("009"%char :: dec size) ++ comma :: type ++ comma :: name).
  rewrite tokens_cons; [|by apply not_elem_of_cons; split; [|done]].
  rewrite tokens_cons by by apply no_comma_spec. rewrite tokens_one; [|by apply no_comma_spec|done].
  rewrite atoi_dec by lia. by rewrite u64_small by (unfold is_u64; lia).
Qed.

Lemma parse_print_cols cols :
  forallb col_ok cols = true -> parse_cols (map print_col cols) = Some cols.
Proof.
  induction cols as [|c cols IH]; intros H; [done|]. simpl in H. b2p.
  cbn [map parse_cols]. rewrite parse_print_col by done. simpl mbind. by rewrite IH.
Qed.

Lemma table_lines_print cols rest :
  table_lines (map print_col cols ++ [] :: rest) = (map print_col cols, rest).
Proof.
  induction cols as [|[[name size] type] cols IH]; [done|]. cbn [map app table_lines].
  rewrite IH. assert (length (print_col (name, size, type)) <=? 1 = false)%nat as ->; [|done].
  apply Nat.leb_gt. unfold print_col. simpl. rewrite !length_app. simpl. rewrite length_app. simpl. lia.
Qed.

Lemma starts_text key s : length (text key) = 6%nat -> starts key (text key ++ s) = true.
Proof. intros H. unfold starts. rewrite <- H, take_app_length. by apply bool_decide_eq_true. Qed.

Section roundtrip.
Context (INDEX_STRUCT : IndexStruct) (TPCC TPCC_ALL_TXN REPLICATE_ITEM CENTRAL_INDEX : bool).
Context (g_part_cnt DIST_PER_WARE MAX_SOCKETS g_synth_table_size : Z).

Notation declare_index := (declare_index INDEX_STRUCT TPCC TPCC_ALL_TXN REPLICATE_ITEM CENTRAL_INDEX
  g_part_cnt DIST_PER_WARE MAX_SOCKETS g_synth_table_size).
Notation init_schema := (init_schema INDEX_STRUCT TPCC TPCC_ALL_TXN REPLICATE_ITEM CENTRAL_INDEX
  g_part_cnt DIST_PER_WARE MAX_SOCKETS g_synth_table_size).
Notation load_schema := (load_schema INDEX_STRUCT TPCC TPCC_ALL_TXN REPLICATE_ITEM CENTRAL_INDEX
  g_part_cnt DIST_PER_WARE MAX_SOCKETS g_synth_table_size).
Notation idx_entry := (idx_entry INDEX_STRUCT TPCC TPCC_ALL_TXN REPLICATE_ITEM CENTRAL_INDEX
  g_part_cnt DIST_PER_WARE MAX_SOCKETS g_synth_table_size).
Notation add_entries := (add_entries INDEX_STRUCT TPCC TPCC_ALL_TXN REPLICATE_ITEM CENTRAL_INDEX
  g_part_cnt DIST_PER_WARE MAX_SOCKETS g_synth_table_size).

Lemma declare_index_print iname tname size w :
  no_comma tname = true -> 0 <= size < 2 ^ 64 ->
  declare_index iname (tname ++ comma :: dec size) w = idx_entry iname tname size w.
Proof.
  intros Ht Hs. unfold SchemaFile.declare_index, SchemaFile.idx_entry, bucket_cnt.
  destruct (dec_form size) as (d & s & E & _ & Hc); [lia|].
  rewrite tokens_cons by by apply no_comma_spec. rewrite tokens_one by (done || by rewrite E).
  simpl. rewrite stoull_dec by done. simpl.
  destruct INDEX_STRUCT, (bool_decide (iname = text "CUSTOMER_LAST_IDX")), TPCC, TPCC_ALL_TXN, (tables w !! tname);
    simpl; try done; rewrite ?Z.mul_1_r; try done; try (by case_match).
Qed.

Lemma init_schema_print es fuel w :
  forallb entry_ok es = true -> (length (concat (map print_entry es)) <= fuel)%nat ->
  init_schema fuel (concat (map print_entry es)) w = add_entries es w.
Proof.
  revert fuel w. induction es as [|e es IH]; intros fuel w Hok Hf; [by destruct fuel|].
  simpl in Hok. apply andb_prop in Hok as [He Hok]. cbn [map concat] in *.
  rewrite length_app in Hf. cbn [SchemaFile.add_entries].
  destruct e as [line|name cols|iname tname size]; cbn [print_entry length app] in *;
    (destruct fuel as [|fuel]; [lia|]); cbn [SchemaFile.init_schema].
  - simpl in He. b2p. rewrite H, H0. simpl mbind. apply IH; [done|lia].
  - rewrite starts_text by done. rewrite <- app_assoc. cbn [app]. rewrite table_lines_print.
    rewrite parse_print_cols by done. simpl mbind. change (drop 6 (text "TABLE=" ++ name)) with name.
    rewrite length_map. unfold add_entry.
    destruct (Schema.add_cols cols _); simpl; [|done]. apply IH; [done|].
    rewrite length_app in Hf. simpl in Hf. lia.
  - rewrite starts_text by done. change (starts "TABLE=" (text "INDEX=" ++ iname)) with false. cbv iota.
    change (drop 6 (text "INDEX=" ++ iname)) with iname. simpl in He. b2p.
    rewrite declare_index_print by (done || lia). unfold add_entry.
    destruct (idx_entry iname tname size w); simpl; [|done]. apply IH; [done|lia].
Qed.
End roundtrip.

(** C36. The schema file reads back.  A file that lists tables with their columns,
    indexes with their table and size, and other lines between them, in the layout
    of the files under benchmarks/, is parsed to exactly these tables and indexes,
    in the order of the file: every column has the printed size, type and name,
    every index the table found so far under its name, its partition count and its
    bucket count.  Where adding the columns or declaring the index fails (too long
    a name, a TPCC index on a table that is not there) the parse fails, and only
    there.  Names and types contain no comma and sizes fit their integers. *)
Theorem schema_roundtrip INDEX_STRUCT TPCC TPCC_ALL_TXN REPLICATE_ITEM CENTRAL_INDEX
    g_part_cnt DIST_PER_WARE MAX_SOCKETS g_synth_table_size es :
  forallb entry_ok es = true ->
  load_schema INDEX_STRUCT TPCC TPCC_ALL_TXN REPLICATE_ITEM CENTRAL_INDEX
    g_part_cnt DIST_PER_WARE MAX_SOCKETS g_synth_table_size (concat (map print_entry es)) =
  add_entries INDEX_STRUCT TPCC TPCC_ALL_TXN REPLICATE_ITEM CENTRAL_INDEX
    g_part_cnt DIST_PER_WARE MAX_SOCKETS g_synth_table_size es (mkWorkload ∅ ∅).
Proof. intros H. by apply init_schema_print. Qed.

Definition ycsb_entries : list Entry :=
  [ Other (text "//size, type, name");
    Table (text "MAIN_TABLE") [(text "F0", 100, text "string"); (text "F1", 8, text "uint64_t")];
    Idx (text "MAIN_INDEX") (text "MAIN_TABLE") 0 ].

Definition load_ycsb := load_schema IDX_HASH false false false false 1 10 2 1000.

Lemma schema_roundtrip_witness :
  forallb entry_ok ycsb_entries = true /\
  load_ycsb (concat (map print_entry ycsb_entries)) =
    add_entries IDX_HASH false false false false 1 10 2 1000 ycsb_entries (mkWorkload ∅ ∅) /\
  (do! w <- load_ycsb (concat (map print_entry ycsb_entries));;
   do! t <- tables w !! text "MAIN_TABLE";;
   do! i <- indexes w !! text "MAIN_INDEX";; Some (tuple_size t, d_buckets i)) = Some (108, Some 2000).
Proof.
  split; [vm_compute; reflexivity|]. split; [apply schema_roundtrip; vm_compute; reflexivity|].
  vm_compute. reflexivity.
Defined.
