(* ===== verification/TpccKeys.v ===== *)
(** * The keys of TPC-C

    src/benchmarks/tpcc/tpcc_helper.h: the index keys of the tables, the partitions,
    the last names, and the random parameters, which draw from one stream of
    [lrand48_r] per buffer of [tpcc_buffer]. *)

From Stdlib Require Import Ascii String.
From stdpp Require Import list.
From S2P Require Import Prelude Global Storage.

(** The settings of the benchmark. *)
Class TpccConfig := {
  DIST_PER_WARE : Z;
  g_cust_per_dist : Z;
  g_max_items : Z;
  g_num_wh : Z;
  g_part_cnt : Z;
  ALLOW_READ_ONLY : bool }.

Section keys.
Context `{TpccConfig}.

Definition distKey (d_id d_w_id : Z) : Z := u64 (u64 (d_w_id * DIST_PER_WARE) + d_id).
Definition custKey (c_id c_d_id c_w_id : Z) : Z :=
  u64 (u64 (distKey c_d_id c_w_id * g_cust_per_dist) + c_id).
Definition orderlineKey (w_id d_id o_id : Z) : Z :=
  u64 (u64 (distKey d_id w_id * g_cust_per_dist) + o_id).
Definition orderPrimaryKey (w_id d_id o_id : Z) : Z := orderlineKey w_id d_id o_id.
Definition orderCustKey (d_id c_id : Z) : Z := u64 (u64 (d_id * g_cust_per_dist) + c_id).
Definition stockKey (s_i_id s_w_id : Z) : Z := u64 (u64 (s_w_id * g_max_items) + s_i_id).

Definition wh_to_part (wid : Z) : option Z := assert! g_part_cnt <=? g_num_wh;; Some (wid mod g_part_cnt).
Definition d_to_part (w_id d_id : Z) : Z := u64 (u64 (u64 (w_id - 1) * DIST_PER_WARE) + u64 (d_id - 1)).

(** The loop over the characters of a name; [char] arithmetic is signed. *)
Fixpoint name_loop (c_last : str) (key : Z) : Z :=
  match c_last with
  | [] => key
  | c :: c_last => name_loop c_last (u64 (u64 (Z.shiftl key 2) + (Z.of_nat (nat_of_ascii c) - 65)))
  end.
Definition custNPKey (c_last : str) (c_d_id c_w_id : Z) : Z :=
  u64 (u64 (Z.shiftl (name_loop c_last 0) 3) + u64 (u64 (c_w_id * DIST_PER_WARE) + c_d_id)).
End keys.

Definition syllables : list string :=
  ["BAR"; "OUGHT"; "ABLE"; "PRI"; "PRES"; "ESE"; "ANTI"; "CALLY"; "ATION"; "EING"]%string.
Definition syllable (i : Z) : option str := list_ascii_of_string <$> syllables !! Z.to_nat i.
Definition Lastname (num : Z) : option str :=
  do! a <- syllable (num / 100);;
  do! b <- syllable (num / 10 mod 10);;
  do! c <- syllable (num mod 10);;
  Some (a ++ b ++ c).

(** ** Random parameters *)

(** The position in every stream, and the constants of [NURand]. *)
Record rand_state := mkRand {
  r_pos : Z -> nat;
  C_255 : option Z;
  C_1023 : option Z;
  C_8191 : option Z }.

(** [None]: a failed assertion, a division by zero or a loop that does not end. *)
Definition Rand (A : Type) : Type := rand_state -> option (A * rand_state).
Definition rret {A} (a : A) : Rand A := fun r => Some (a, r).
Definition rbind {A B} (m : Rand A) (f : A -> Rand B) : Rand B :=
  fun r => match m r with Some (a, r') => f a r' | None => None end.
Notation "'let!' x <- m ;; k" := (rbind m (fun x => k))
  (at level 100, x name, m at next level, k at level 200, right associativity) : dbx_scope.

Section random.
(** [lrand48_r]: the [i]-th number of a buffer. *)
Context (lrand48 : Z -> nat -> Z).

Definition RAND (max thd_id : Z) : Rand Z := fun r =>
  assert! negb (max =? 0);;
  Some (u64 (lrand48 thd_id (r_pos r thd_id)) mod max,
        mkRand (fun b => if b =? thd_id then S (r_pos r b) else r_pos r b) (C_255 r) (C_1023 r) (C_8191 r)).

Definition URand (x y thd_id : Z) : Rand Z :=
  let! v <- RAND (u64 (y - x + 1)) thd_id;; rret (u64 (x + v)).

(** The constant for [A], drawn at the first use. *)
Definition nu_const (A thd_id : Z) : Rand Z := fun r =>
  match (if A =? 255 then C_255 r else if A =? 1023 then C_1023 r else C_8191 r) with
  | Some c => Some (c, r)
  | None =>
      match URand 0 A thd_id r with
      | Some (c, r) =>
          Some (c, if A =? 255 then mkRand (r_pos r) (Some c) (C_1023 r) (C_8191 r)
                   else if A =? 1023 then mkRand (r_pos r) (C_255 r) (Some c) (C_8191 r)
                   else mkRand (r_pos r) (C_255 r) (C_1023 r) (Some c))
      | None => None
      end
  end.

(** The operands of [|] are evaluated from the left. *)
Definition NURand (A x y thd_id : Z) : Rand Z :=
  if (A =? 255) || (A =? 1023) || (A =? 8191) then
    let! C <- nu_const A thd_id;;
    let! a <- URand 0 A thd_id;;
    let! b <- URand x y thd_id;;
    fun r => assert! negb (u64 (y - x + 1) =? 0);;
             Some (u64 (u64 (Z.lor a b + C) mod u64 (y - x + 1) + x), r)
  else fun _ => None.
End random.

(** ** Keys that do not collide *)

(** The settings fit the 64-bit keys. *)
Class TpccConfigOk `{TpccConfig} : Prop := {
  dist_ok : 1 <= DIST_PER_WARE <= 100;
  cust_ok : 1 <= g_cust_per_dist <= 2 ^ 20;
  items_ok : 1 <= g_max_items <= 2 ^ 20;
  wh_ok : 1 <= g_num_wh < 2 ^ 32;
  part_ok : 1 <= g_part_cnt <= g_num_wh }.

Section key_lemmas.
Context {tc : TpccConfig} {tok : TpccConfigOk}.

Definition is_wh (w : Z) : Prop := 1 <= w <= g_num_wh.
Definition is_dist (d : Z) : Prop := 1 <= d <= DIST_PER_WARE.
Definition is_cust (c : Z) : Prop := 1 <= c <= g_cust_per_dist.
Definition is_item (i : Z) : Prop := 1 <= i <= g_max_items.

#[local] Ltac bounds := pose proof dist_ok; pose proof cust_ok; pose proof items_ok; pose proof wh_ok; pose proof part_ok;
  unfold is_wh, is_dist, is_cust, is_item, is_u64 in *.

Lemma distKey_value d w : is_wh w -> is_dist d -> distKey d w = w * DIST_PER_WARE + d.
Proof using tok.
  bounds. intros Hw Hd. unfold distKey. assert (0 <= w * DIST_PER_WARE <= 2 ^ 32 * 100) by nia.
  rewrite (u64_small (_ * _)), u64_small by (unfold is_u64; lia). done.
Qed.

Lemma custKey_value c d w :
  is_wh w -> is_dist d -> is_cust c -> custKey c d w = (w * DIST_PER_WARE + d) * g_cust_per_dist + c.
Proof using tok.
  bounds. intros Hw Hd Hc. unfold custKey. rewrite distKey_value by done.
  assert (0 <= w * DIST_PER_WARE + d <= 2 ^ 32 * 100 + 100) by nia.
  assert (0 <= (w * DIST_PER_WARE + d) * g_cust_per_dist <= (2 ^ 32 * 100 + 100) * 2 ^ 20) by nia.
  rewrite (u64_small (_ * _)), u64_small by (unfold is_u64; lia). done.
Qed.

Lemma orderlineKey_value w d o :
  is_wh w -> is_dist d -> 0 <= o < 2 ^ 62 -> orderlineKey w d o = (w * DIST_PER_WARE + d) * g_cust_per_dist + o.
Proof using tok.
  bounds. intros Hw Hd Ho. unfold orderlineKey. rewrite distKey_value by done.
  assert (0 <= w * DIST_PER_WARE + d <= 2 ^ 32 * 100 + 100) by nia.
  assert (0 <= (w * DIST_PER_WARE + d) * g_cust_per_dist <= (2 ^ 32 * 100 + 100) * 2 ^ 20) by nia.
  rewrite (u64_small (_ * _)), u64_small by (unfold is_u64; lia). done.
Qed.

Lemma orderCustKey_value d c : is_dist d -> is_cust c -> orderCustKey d c = d * g_cust_per_dist + c.
Proof using tok. bounds. intros Hd Hc. unfold orderCustKey.
  assert (0 <= d * g_cust_per_dist <= 100 * 2 ^ 20) by nia. rewrite (u64_small (_ * _)), u64_small by (unfold is_u64; lia). done. Qed.

Lemma stockKey_value i w : is_wh w -> is_item i -> stockKey i w = w * g_max_items + i.
Proof using tok.
  bounds. intros Hw Hi. unfold stockKey. assert (0 <= w * g_max_items <= 2 ^ 32 * 2 ^ 20) by nia.
  rewrite (u64_small (_ * _)), u64_small by (unfold is_u64; lia). done.
Qed.

Lemma wh_to_part_value w : wh_to_part w = Some (w mod g_part_cnt).
Proof using tok. bounds. unfold wh_to_part. by rewrite (proj2 (Z.leb_le _ _)) by lia. Qed.

Lemma d_to_part_value w d : is_wh w -> is_dist d -> d_to_part w d = (w - 1) * DIST_PER_WARE + (d - 1).
Proof using tok.
  bounds. intros Hw Hd. unfold d_to_part. assert (0 <= (w - 1) * DIST_PER_WARE <= 2 ^ 32 * 100) by nia.
  rewrite (u64_small (w - 1)), (u64_small (d - 1)), (u64_small (_ * _)), u64_small by (unfold is_u64; lia). done.
Qed.

(** A pair of a high part and a digit between 1 and [b]. *)
Lemma digit_inj b x y x' y' : 1 <= y <= b -> 1 <= y' <= b -> x * b + y = x' * b + y' -> x = x' /\ y = y'.
Proof using Type. intros Hy Hy' Heq. assert (x = x') by nia. split; [done|nia]. Qed.

Lemma distKey_inj d w d' w' : is_wh w -> is_wh w' -> is_dist d -> is_dist d' ->
  distKey d w = distKey d' w' -> w = w' /\ d = d'.
Proof using tok. intros. rewrite !distKey_value in * by done. by eapply digit_inj. Qed.

Lemma custKey_inj c d w c' d' w' :
  is_wh w -> is_wh w' -> is_dist d -> is_dist d' -> is_cust c -> is_cust c' ->
  custKey c d w = custKey c' d' w' -> w = w' /\ d = d' /\ c = c'.
Proof using tok.
  intros. rewrite !custKey_value in * by done.
  destruct (digit_inj g_cust_per_dist (w * DIST_PER_WARE + d) c (w' * DIST_PER_WARE + d') c') as [Hx ?]; [done..|].
  destruct (digit_inj DIST_PER_WARE w d w' d'); done.
Qed.

Lemma stockKey_inj i w i' w' : is_wh w -> is_wh w' -> is_item i -> is_item i' ->
  stockKey i w = stockKey i' w' -> w = w' /\ i = i'.
Proof using tok. intros. rewrite !stockKey_value in * by done. by eapply digit_inj. Qed.

Lemma d_to_part_inj w d w' d' : is_wh w -> is_wh w' -> is_dist d -> is_dist d' ->
  d_to_part w d = d_to_part w' d' -> w = w' /\ d = d'.
Proof using tok.
  intros. rewrite !d_to_part_value in * by done.
  destruct (digit_inj DIST_PER_WARE (w - 1) d (w' - 1) d'); [done|done|lia|]. lia.
Qed.

Lemma orderlineKey_inj w d o w' d' o' :
  is_wh w -> is_wh w' -> is_dist d -> is_dist d' -> 0 <= o < 2 ^ 62 -> 0 <= o' < 2 ^ 62 ->
  orderlineKey w d o = orderlineKey w' d' o' -> d_to_part w d = d_to_part w' d' -> w = w' /\ d = d' /\ o = o'.
Proof using tok.
  intros Hw Hw' Hd Hd' Ho Ho' Hk Hp. destruct (d_to_part_inj w d w' d') as [<- <-]; [done..|].
  rewrite !orderlineKey_value in Hk by done. split_and!; [done|done|lia].
Qed.

Lemma orderCustKey_inj d c d' c' : is_dist d -> is_dist d' -> is_cust c -> is_cust c' ->
  orderCustKey d c = orderCustKey d' c' -> d = d' /\ c = c'.
Proof using tok. intros. rewrite !orderCustKey_value in * by done. by eapply digit_inj. Qed.
End key_lemmas.

(** All last names have different codes, and no two codes are neighbours. *)
Definition name_code (num : Z) : Z := match Lastname num with Some s => name_loop s 0 | None => -1 end.
Definition name_codes : list Z := map (fun i => name_code (Z.of_nat i)) (seq 0 1000).
Definition close (x y : Z) : bool := (x - 1 <=? y) && (y <=? x + 1).

Fixpoint apart (l : list Z) : bool :=
  match l with
  | [] => true
  | x :: l => forallb (fun y => negb (close x y)) l && apart l
  end.

Lemma name_codes_apart : apart name_codes && forallb (fun x => (0 <=? x) && (x <? 2 ^ 35)) name_codes = true.
Proof. vm_compute. reflexivity. Qed.

Lemma apart_spec l i j x y :
  apart l = true -> l !! i = Some x -> l !! j = Some y -> close x y = true -> i = j.
Proof.
  assert (forall x y, close x y = close y x) as Hsym.
  { intros a b. unfold close. apply eq_true_iff_eq. rewrite !andb_true_iff, !Z.leb_le. lia. }
  revert i j. induction l as [|z l IH]; intros [|i] [|j] Ha Hi Hj Hc; simplify_eq/=; b2p; try done.
  - rewrite forallb_forall in H. specialize (H y). rewrite <- list_elem_of_In in H.
    by rewrite Hc in H; specialize (H (list_elem_of_lookup_2 _ _ _ Hj)).
  - rewrite forallb_forall in H. specialize (H x). rewrite <- list_elem_of_In, Hsym in H.
    by rewrite Hc in H; specialize (H (list_elem_of_lookup_2 _ _ _ Hi)).
  - f_equal. by apply IH.
Qed.

Lemma name_codes_lookup num : 0 <= num < 1000 -> name_codes !! Z.to_nat num = Some (name_code num).
Proof.
  intros H. unfold name_codes. rewrite list_lookup_fmap, lookup_seq_lt by lia. simpl.
  by rewrite Z2Nat.id by lia.
Qed.

Lemma name_code_bounds num : 0 <= num < 1000 -> 0 <= name_code num < 2 ^ 35.
Proof.
  intros H. pose proof name_codes_apart as Ha. apply andb_prop in Ha as [_ Hf]. rewrite forallb_forall in Hf.
  specialize (Hf (name_code num)). rewrite <- list_elem_of_In in Hf.
  specialize (Hf (list_elem_of_lookup_2 _ _ _ (name_codes_lookup num H))). b2p. lia.
Qed.

(** The code of a name over the integers. *)
Definition name_value (name : str) : Z := foldl (fun key c => 4 * key + (Z.of_nat (nat_of_ascii c) - 65)) 0 name.

Lemma name_codes_value : forallb (fun i => match Lastname (Z.of_nat i) with Some name => name_value name =? name_code (Z.of_nat i) | None => true end) (seq 0 1000) = true.
Proof. vm_compute. reflexivity. Qed.

Lemma name_code_value num name : 0 <= num < 1000 -> Lastname num = Some name -> name_code num = name_value name.
Proof.
  intros Hn Hl. pose proof name_codes_value as H. rewrite forallb_forall in H.
  specialize (H (Z.to_nat num)). rewrite Z2Nat.id, Hl in H by lia. symmetry. apply Z.eqb_eq, H, in_seq. lia.
Qed.

Section name_keys.
Context {tc : TpccConfig} {tok : TpccConfigOk}.

Lemma custNPKey_value num name d w :
  0 <= num < 1000 -> Lastname num = Some name -> is_wh w -> is_dist d ->
  custNPKey name d w = 8 * name_code num + (w * DIST_PER_WARE + d).
Proof using tok.
  intros Hn Hl Hw Hd. pose proof (name_code_bounds num Hn) as Hb. unfold custNPKey.
  assert (name_loop name 0 = name_code num) as -> by (unfold name_code; by rewrite Hl).
  pose proof dist_ok. pose proof wh_ok. unfold is_wh, is_dist in *.
  assert (0 <= w * DIST_PER_WARE <= 2 ^ 32 * 100) by nia.
  rewrite Z.shiftl_mul_pow2 by lia.
  rewrite (u64_small (w * _)), (u64_small (_ * 2 ^ 3)), (u64_small (_ + d)), u64_small by (unfold is_u64; lia). lia.
Qed.

Lemma custNPKey_inj num num' name name' d d' w :
  DIST_PER_WARE <= 15 -> 0 <= num < 1000 -> 0 <= num' < 1000 ->
  Lastname num = Some name -> Lastname num' = Some name' -> is_wh w -> is_dist d -> is_dist d' ->
  custNPKey name d w = custNPKey name' d' w -> num = num' /\ d = d'.
Proof using tok.
  intros HD Hn Hn' Hl Hl' Hw Hd Hd' Heq.
  rewrite (custNPKey_value num), (custNPKey_value num') in Heq by done. unfold is_dist in *.
  assert (num = num') as <-; [|split; [done|lia]].
  assert (Z.to_nat num = Z.to_nat num') as ?; [|lia].
  pose proof name_codes_apart as Ha. apply andb_prop in Ha as [Ha _].
  eapply apart_spec; [done|by apply name_codes_lookup|by apply name_codes_lookup|].
  unfold close. rewrite andb_true_iff, !Z.leb_le. lia.
Qed.

(** The keys over the integers. *)
Lemma keys_exact w d : is_wh w -> is_dist d ->
  (distKey d w = w * DIST_PER_WARE + d /\ is_u64 (w * DIST_PER_WARE + d)) /\
  (forall c, is_cust c -> custKey c d w = (w * DIST_PER_WARE + d) * g_cust_per_dist + c /\ is_u64 (custKey c d w)) /\
  (forall c, is_cust c -> orderCustKey d c = d * g_cust_per_dist + c) /\
  (forall o, 0 <= o < 2 ^ 62 -> orderPrimaryKey w d o = (w * DIST_PER_WARE + d) * g_cust_per_dist + o) /\
  (forall i, is_item i -> stockKey i w = w * g_max_items + i) /\
  (forall num name, 0 <= num < 1000 -> Lastname num = Some name ->
     custNPKey name d w = 8 * name_value name + (w * DIST_PER_WARE + d)).
Proof using tok.
  intros Hw Hd. pose proof (distKey_value d w Hw Hd) as E. split_and!.
  - done.
  - rewrite <- E. apply u64_range.
  - intros c Hc. split; [by apply custKey_value|apply u64_range].
  - intros c Hc. by apply orderCustKey_value.
  - intros o Ho. by apply orderlineKey_value.
  - intros i Hi. by apply stockKey_value.
  - intros num name Hn Hl. rewrite (custNPKey_value num) by done. by rewrite (name_code_value num name).
Qed.

Lemma own_partition w w' : g_part_cnt = g_num_wh -> is_wh w -> is_wh w' -> wh_to_part w = wh_to_part w' -> w = w'.
Proof using tok.
  intros Hp Hw Hw'. rewrite !wh_to_part_value, Hp. intros [= Heq]. unfold is_wh in *.
  destruct (decide (w = g_num_wh)) as [->|], (decide (w' = g_num_wh)) as [->|]; [done| | |];
    rewrite ?Z_mod_same_full in Heq; rewrite ?Z.mod_small in Heq by lia; lia.
Qed.
End name_keys.

(** C40. The index keys of TPC-C.  With settings that fit 64 bits no key wraps around:
    each is the number that its formula gives over the integers, and fits 64 bits.
    The rows of a table that share an index partition have different keys: the
    districts, customers, stocks and, for every order id below 2^62, the orders of
    a district; and, when every warehouse has a partition of its own, the orders of
    a customer and the customers of a district with the same last name.  (Without a
    partition per warehouse the key of a customer's orders is shared by the
    warehouses of the partition.  The order ids of a district run into the next
    district's keys, which is harmless because the partition is the district's.) *)
Theorem tpcc_keys_injective `{tc : TpccConfig} (tok : TpccConfigOk) (HD : DIST_PER_WARE <= 15) :
  (forall w d, is_wh w -> is_dist d ->
     (distKey d w = w * DIST_PER_WARE + d /\ is_u64 (w * DIST_PER_WARE + d)) /\
     (forall c, is_cust c -> custKey c d w = (w * DIST_PER_WARE + d) * g_cust_per_dist + c /\ is_u64 (custKey c d w)) /\
     (forall c, is_cust c -> orderCustKey d c = d * g_cust_per_dist + c) /\
     (forall o, 0 <= o < 2 ^ 62 -> orderPrimaryKey w d o = (w * DIST_PER_WARE + d) * g_cust_per_dist + o) /\
     (forall i, is_item i -> stockKey i w = w * g_max_items + i) /\
     (forall num name, 0 <= num < 1000 -> Lastname num = Some name ->
        custNPKey name d w = 8 * name_value name + (w * DIST_PER_WARE + d))) /\
  (forall w w' d d', is_wh w -> is_wh w' -> is_dist d -> is_dist d' ->
     distKey d w = distKey d' w' -> w = w' /\ d = d') /\
  (forall w w' d d' c c', is_wh w -> is_wh w' -> is_dist d -> is_dist d' -> is_cust c -> is_cust c' ->
     custKey c d w = custKey c' d' w' -> w = w' /\ d = d' /\ c = c') /\
  (forall w w' i i', is_wh w -> is_wh w' -> is_item i -> is_item i' ->
     stockKey i w = stockKey i' w' -> w = w' /\ i = i') /\
  (forall w w' d d' o o', is_wh w -> is_wh w' -> is_dist d -> is_dist d' -> 0 <= o < 2 ^ 62 -> 0 <= o' < 2 ^ 62 ->
     orderPrimaryKey w d o = orderPrimaryKey w' d' o' -> d_to_part w d = d_to_part w' d' ->
     w = w' /\ d = d' /\ o = o') /\
  (g_part_cnt = g_num_wh ->
   (forall w w' d d' c c', is_wh w -> is_wh w' -> is_dist d -> is_dist d' -> is_cust c -> is_cust c' ->
      orderCustKey d c = orderCustKey d' c' -> wh_to_part w = wh_to_part w' -> w = w' /\ d = d' /\ c = c') /\
   (forall w w' d d' num num' name name', is_wh w -> is_wh w' -> is_dist d -> is_dist d' ->
      0 <= num < 1000 -> 0 <= num' < 1000 -> Lastname num = Some name -> Lastname num' = Some name' ->
      custNPKey name d w = custNPKey name' d' w' -> wh_to_part w = wh_to_part w' ->
      w = w' /\ d = d' /\ name = name')).
Proof.
  split_and!; [by apply keys_exact|intros; by apply distKey_inj|intros; by apply custKey_inj|intros; by apply stockKey_inj
    |intros; by apply orderlineKey_inj|].
  intros Hp. split.
  - intros w w' d d' c c' Hw Hw' Hd Hd' Hc Hc' Hk Hpw. split; [by apply own_partition|by apply orderCustKey_inj].
  - intros w w' d d' num num' name name' Hw Hw' Hd Hd' Hn Hn' Hl Hl' Hk Hpw.
    apply own_partition in Hpw as <-; [|done..]. destruct (custNPKey_inj num num' name name' d d' w) as [<- <-]; [done..|].
    split_and!; [done|done|congruence].
Qed.

(** Ten warehouses in ten partitions. *)
Definition tpcc_example : TpccConfig := {|
  DIST_PER_WARE := 10; g_cust_per_dist := 3000; g_max_items := 100000; g_num_wh := 10; g_part_cnt := 10;
  ALLOW_READ_ONLY := false |}.

Lemma tpcc_example_ok : @TpccConfigOk tpcc_example.
Proof. split; simpl; lia. Qed.

Lemma tpcc_keys_injective_witness :
  @custNPKey tpcc_example (list_ascii_of_string "PRICALLYOUGHT") 3 7 = 2657033409 /\
  @custNPKey tpcc_example (list_ascii_of_string "PRICALLYOUGHT") 4 7 <>
    @custNPKey tpcc_example (list_ascii_of_string "PRICALLYOUGHT") 3 7.
Proof.
  split; [vm_compute; reflexivity|]. intros Heq.
  destruct (@tpcc_keys_injective tpcc_example tpcc_example_ok) as (_ & _ & _ & _ & _ & H); [vm_compute; discriminate|].
  destruct (H eq_refl) as [_ Hn].
  destruct (Hn 7 7 4 3 371 371 (list_ascii_of_string "PRICALLYOUGHT") (list_ascii_of_string "PRICALLYOUGHT"))
    as (_ & Hd & _); try (split; vm_compute; discriminate || reflexivity); try (vm_compute; reflexivity).
  - exact Heq.
  - discriminate Hd.
Defined.
