(* ===== verification/TpccQuery.v ===== *)
(** * The queries of TPC-C

    src/benchmarks/tpcc/tpcc_query.cpp and tpcc_query.h: the generation of the
    parameters of the five transactions.  Every array is the list of its elements up
    to its counter; fields that a generator does not set keep their value. *)

From Stdlib Require Import Ascii.
From stdpp Require Import list.
From S2P Require Import Prelude Global Storage TpccKeys.

Inductive TPCCTxnType := TPCC_ALL | TPCC_PAYMENT | TPCC_NEW_ORDER | TPCC_ORDER_STATUS | TPCC_DELIVERY | TPCC_STOCK_LEVEL.

Record Item_no := mkItem { ol_i_id : Z; ol_supply_w_id : Z; ol_quantity : Z }.

Record tpcc_query := mkQuery {
  q_type : TPCCTxnType;
  w_id : Z; d_id : Z; c_id : Z;
  d_w_id : Z; c_w_id : Z; c_d_id : Z;
  c_last : str; h_amount : Z; by_last_name : bool;
  items : list Item_no; rbk : bool; remote : bool; ol_cnt : Z; o_entry_d : Z;
  o_carrier_id : Z; ol_delivery_d : Z; threshold : Z;
  part_to_access : list Z }.

(** ** Duplicate items

    The loops over [i] and [j]; the shift of the items behind [i] is [delete i]. *)
Fixpoint dedup_inner (fuel i j : nat) (l : list Item_no) : option (nat * list Item_no) :=
  if (j <? i)%nat then
    match fuel with
    | O => None
    | S fuel =>
        do! a <- l !! i;;
        do! b <- l !! j;;
        if ol_i_id a =? ol_i_id b then dedup_inner fuel (i - 1) (S j) (delete i l)
        else dedup_inner fuel i (S j) l
    end
  else Some (i, l).

Fixpoint dedup_outer (fuel i : nat) (l : list Item_no) : option (list Item_no) :=
  if (i <? length l)%nat then
    match fuel with
    | O => None
    | S fuel => do! r <- dedup_inner i i 0 l;; dedup_outer fuel (S r.1) r.2
    end
  else Some l.

Definition dedup (l : list Item_no) : option (list Item_no) := dedup_outer (length l) 0 l.

(** The assertion that follows. *)
Fixpoint all_different (l : list Item_no) : bool :=
  match l with
  | [] => true
  | a :: l => forallb (fun b => negb (ol_i_id a =? ol_i_id b)) l && all_different l
  end.

(** ** Partitions *)

Definition add_part (p : Z) (parts : list Z) : list Z := if bool_decide (p ∈ parts) then parts else parts ++ [p].

Section query.
Context {tc : TpccConfig}.
Context (lrand48 : Z -> nat -> Z).
Context (FIRST_PART_LOCAL TPCC_ALL_TXN g_enforce_numa_distance_remote_only : bool).
Context (g_perc_remote_payment g_perc_remote_neworder : Z).
(** The warehouses at the distance [g_numa_distance] of the node, when
    [g_enforce_numa_distance] is set. *)
Context (numa : option (Z * Z)).
(** [x / 100.0 < perc_payment]. *)
Context (below_payment : Z -> bool).
(** Turns of a [do]-loop before it counts as endless. *)
Context (turns : nat).

(** [wh_of_socket]: the first and last warehouse of a socket. *)
Definition wh_of_socket (g_threads_per_socket omp_num_threads socket_id : Z) : option (Z * Z) :=
  assert! negb (g_threads_per_socket =? 0);;
  let wh_per_thread := g_num_wh / omp_num_threads in
  let wh_rest := g_num_wh - wh_per_thread * omp_num_threads in
  let thread_num_begin := socket_id * g_threads_per_socket in
  let thread_num_end := (socket_id + 1) * g_threads_per_socket in
  let wh_id_begin := 1 + wh_per_thread * thread_num_begin + Z.min thread_num_begin wh_rest in
  let wh_id_end := wh_per_thread * thread_num_end + Z.min thread_num_end wh_rest in
  assert! (wh_id_begin <=? g_num_wh) && (wh_id_end <=? g_num_wh);;
  Some (wh_id_begin, wh_id_end).

Definition wh_enforce_numa_dist (wh_id : Z) : Rand Z := fun r =>
  match numa with
  | None => Some (wh_id, r)
  | Some (b, e) =>
      let range := u64 (e - b + 1) in
      assert! negb (range =? 0);; Some (u64 (b + u64 (wh_id - 1) mod range), r)
  end.

Definition part_of (w : Z) : Rand Z := fun r => do! p <- wh_to_part w;; Some (p, r).

(** The home warehouse, before the NUMA distance. *)
Definition first_wh (thd_id : Z) : Rand Z :=
  if FIRST_PART_LOCAL then rret (thd_id mod g_num_wh + 1) else URand lrand48 1 g_num_wh (thd_id mod g_num_wh).
Definition home_wh (thd_id : Z) : Rand Z :=
  let! w <- first_wh thd_id;;
  if g_enforce_numa_distance_remote_only then rret w else wh_enforce_numa_dist w.

Fixpoint other_wh (turns : nat) (w thd_id : Z) : Rand Z :=
  match turns with
  | O => fun _ => None
  | S turns =>
      let! v <- URand lrand48 1 g_num_wh thd_id;;
      let! v <- wh_enforce_numa_dist v;;
      if v =? w then other_wh turns w thd_id else rret v
  end.

(** The customer of a payment or an order status: last name and customer id. *)
Definition gen_customer (y thd_id : Z) (q : tpcc_query) : Rand (str * Z * bool) :=
  if y <=? 60 then
    let! num <- NURand lrand48 255 0 999 thd_id;;
    fun r => do! name <- Lastname num;; Some ((name, c_id q, true), r)
  else
    let! c <- NURand lrand48 1023 1 g_cust_per_dist thd_id;;
    rret (c_last q, c, false).

Definition gen_payment (thd_id : Z) (q : tpcc_query) : Rand tpcc_query :=
  let! w <- home_wh thd_id;;
  let! part_id <- part_of w;;
  let! d <- URand lrand48 1 DIST_PER_WARE thd_id;;
  let! amount <- URand lrand48 1 5000 thd_id;;
  let! x <- URand lrand48 1 100 thd_id;;
  let! y <- URand lrand48 1 100 thd_id;;
  let! cust <- (if x <=? u32 (100 - g_perc_remote_payment) then rret (d, w, [part_id])
                else
                  let! c_d <- URand lrand48 1 DIST_PER_WARE thd_id;;
                  if 1 <? g_num_wh then
                    let! c_w <- other_wh turns w thd_id;;
                    let! p <- part_of w;;
                    let! p' <- part_of c_w;;
                    rret (c_d, c_w, if p =? p' then [part_id] else [part_id; p'])
                  else rret (c_d, w, [part_id]));;
  let! name <- gen_customer y thd_id q;;
  rret (mkQuery TPCC_PAYMENT w d name.1.2 w cust.1.2 cust.1.1 name.1.1 amount name.2
          (items q) (rbk q) (remote q) (ol_cnt q) (o_entry_d q) (o_carrier_id q) (ol_delivery_d q) (threshold q)
          cust.2).

(** One turn of the loop over the order lines; the flag is [remote]. *)
Definition gen_item (w thd_id : Z) : Rand (Item_no * bool) :=
  let! i <- NURand lrand48 8191 1 g_max_items thd_id;;
  let! x <- URand lrand48 1 100 thd_id;;
  let! s <- (if (g_perc_remote_neworder <? x) || (g_num_wh =? 1) then rret (w, false)
             else let! v <- other_wh turns w thd_id;; rret (v, true));;
  let! quantity <- URand lrand48 1 10 thd_id;;
  rret (mkItem i s.1 quantity, s.2).

Fixpoint gen_items (n : nat) (w thd_id : Z) : Rand (list Item_no * bool) :=
  match n with
  | O => rret ([], false)
  | S n =>
      let! a <- gen_item w thd_id;;
      let! l <- gen_items n w thd_id;;
      rret (a.1 :: l.1, a.2 || l.2)
  end.

Fixpoint add_parts (l : list Item_no) (parts : list Z) : Rand (list Z) :=
  match l with
  | [] => rret parts
  | a :: l => let! p <- part_of (ol_supply_w_id a);; add_parts l (add_part p parts)
  end.

Definition gen_new_order (thd_id : Z) (q : tpcc_query) : Rand tpcc_query :=
  let! w <- home_wh thd_id;;
  let! d <- URand lrand48 1 DIST_PER_WARE thd_id;;
  let! c <- NURand lrand48 1023 1 g_cust_per_dist thd_id;;
  let! roll <- URand lrand48 1 100 thd_id;;
  let! cnt <- URand lrand48 5 15 thd_id;;
  let! part_id <- part_of w;;
  let! l <- gen_items (Z.to_nat cnt) w thd_id;;
  let! its <- (fun r => do! l' <- dedup l.1;; assert! all_different l';; Some (l', r));;
  let! parts <- add_parts its [part_id];;
  rret (mkQuery TPCC_NEW_ORDER w d c (d_w_id q) (c_w_id q) (c_d_id q) (c_last q) (h_amount q) (by_last_name q)
          its (negb (roll =? 0)) l.2 (Z.of_nat (length its)) 2013
          (o_carrier_id q) (ol_delivery_d q) (threshold q) parts).

Definition gen_order_status (thd_id : Z) (q : tpcc_query) : Rand tpcc_query :=
  let! w <- home_wh thd_id;;
  let! part_id <- part_of w;;
  let! d <- URand lrand48 1 DIST_PER_WARE thd_id;;
  let! y <- URand lrand48 1 100 thd_id;;
  let! name <- gen_customer y thd_id q;;
  rret (mkQuery TPCC_ORDER_STATUS w d name.1.2 (d_w_id q) w d name.1.1 (h_amount q) name.2
          (items q) (rbk q) (remote q) (ol_cnt q) (o_entry_d q) (o_carrier_id q) (ol_delivery_d q) (threshold q)
          [part_id]).

Definition gen_delivery (thd_id : Z) (q : tpcc_query) : Rand tpcc_query :=
  let! w <- first_wh thd_id;;
  let! part_id <- part_of w;;
  let! carrier <- URand lrand48 1 10 thd_id;;
  rret (mkQuery TPCC_DELIVERY w (d_id q) (c_id q) (d_w_id q) (c_w_id q) (c_d_id q) (c_last q) (h_amount q)
          (by_last_name q) (items q) (rbk q) (remote q) (ol_cnt q) (o_entry_d q) carrier 2021 (threshold q)
          [part_id]).

Definition gen_stock (thd_id : Z) (q : tpcc_query) : Rand tpcc_query :=
  let! w <- first_wh thd_id;;
  let! part_id <- part_of w;;
  let! t <- URand lrand48 10 20 thd_id;;
  rret (mkQuery TPCC_STOCK_LEVEL w (thd_id mod DIST_PER_WARE + 1) (c_id q) (d_w_id q) (c_w_id q) (c_d_id q) (c_last q)
          (h_amount q) (by_last_name q) (items q) (rbk q) (remote q) (ol_cnt q) (o_entry_d q) (o_carrier_id q)
          (ol_delivery_d q) t [part_id]).

(** [tpcc_query::init]; the percentages 0.04, 0.08 and 0.12 are exact in the
    comparisons with [x / 100.0]. *)
Definition query_init (thd_id : Z) (q : tpcc_query) : Rand tpcc_query :=
  let! x <- RAND lrand48 100 thd_id;;
  if TPCC_ALL_TXN then
    if x <? 4 then gen_stock thd_id q
    else if x <? 8 then gen_delivery thd_id q
    else if x <? 12 then gen_order_status thd_id q
    else if below_payment x then gen_payment thd_id q
    else gen_new_order thd_id q
  else if below_payment x then gen_payment thd_id q else gen_new_order thd_id q.
End query.

(** ** What the removal of duplicates computes *)

(** The items whose id did not come before. *)
Fixpoint keep_first (seen : list Z) (l : list Item_no) : list Item_no :=
  match l with
  | [] => []
  | a :: l => if bool_decide (ol_i_id a ∈ seen) then keep_first seen l
              else a :: keep_first (seen ++ [ol_i_id a]) l
  end.

Notation ids l := (map ol_i_id l).

(** An item that differs from all before it stays. *)
Lemma inner_clean fuel i j l a :
  (i - j <= fuel)%nat -> l !! i = Some a ->
  (forall k b, (k < i)%nat -> l !! k = Some b -> ol_i_id a <> ol_i_id b) ->
  dedup_inner fuel i j l = Some (i, l).
Proof.
  revert j. induction fuel as [|fuel IH]; intros j Hf Ha Hne; simpl.
  { rewrite (proj2 (Nat.ltb_ge _ _)) by lia. done. }
  destruct (j <? i)%nat eqn:E; [|done]. apply Nat.ltb_lt in E. rewrite Ha.
  destruct (lookup_lt_is_Some_2 l j) as [b Hb]; [apply lookup_lt_Some in Ha; lia|]. rewrite Hb.
  rewrite (proj2 (Z.eqb_neq _ _) (Hne j b E Hb)). apply IH; [lia|done|done].
Qed.

Lemma inner_spec pre a post : NoDup (ids pre) ->
  dedup_inner (length pre) (length pre) 0 (pre ++ a :: post) =
    if bool_decide (ol_i_id a ∈ ids pre) then Some ((length pre - 1)%nat, pre ++ post)
    else Some (length pre, pre ++ a :: post).
Proof.
  intros Hnd. case_bool_decide as Hin.
  - assert (forall j fuel, (length pre - j <= fuel)%nat ->
      (forall k b, (k < j)%nat -> pre !! k = Some b -> ol_i_id a <> ol_i_id b) ->
      dedup_inner fuel (length pre) j (pre ++ a :: post) = Some ((length pre - 1)%nat, pre ++ post)) as Hloop;
      [|apply Hloop; [lia|intros; lia]].
    apply list_elem_of_fmap in Hin as (b0 & Heq & [k0 Hk0]%list_elem_of_lookup).
    pose proof (lookup_lt_Some _ _ _ Hk0) as Hlt.
    intros j fuel. revert j. induction fuel as [|fuel IH]; intros j Hf Hne.
    { exfalso. apply (Hne k0 b0); [lia|done|done]. }
    simpl. destruct (j <? length pre)%nat eqn:E; [|exfalso; apply Nat.ltb_ge in E; apply (Hne k0 b0); [lia|done|done]].
    apply Nat.ltb_lt in E. rewrite list_lookup_middle by done.
    destruct (lookup_lt_is_Some_2 pre j E) as [b Hb]. rewrite (lookup_app_l_Some _ _ _ _ Hb).
    destruct (ol_i_id a =? ol_i_id b) eqn:Eid; b2p.
    + rewrite delete_middle. destruct (lookup_lt_is_Some_2 pre (length pre - 1)) as [c Hc]; [lia|].
      eapply inner_clean; [lia|by apply lookup_app_l_Some|].
      intros k b' Hk Hb'. rewrite lookup_app_l in Hb' by lia. intros Hid.
      assert (length pre - 1 = k)%nat; [|lia]. eapply (proj1 (NoDup_alt (ids pre)) Hnd).
      { by rewrite list_lookup_fmap, Hc. } { rewrite list_lookup_fmap, Hb'. simpl. congruence. }
    + apply IH; [lia|]. intros k b' Hk Hb'. destruct (decide (k = j)) as [->|]; [congruence|].
      apply (Hne k b'); [lia|done].
  - eapply inner_clean; [lia|by apply list_lookup_middle|].
    intros k b Hk Hb. rewrite lookup_app_l in Hb by done. intros Hid. apply Hin.
    apply list_elem_of_fmap. exists b. split; [done|]. by eapply list_elem_of_lookup_2.
Qed.

Lemma outer_spec fuel pre l :
  (length l <= fuel)%nat -> NoDup (ids pre) ->
  dedup_outer fuel (length pre) (pre ++ l) = Some (pre ++ keep_first (ids pre) l).
Proof.
  revert pre l. induction fuel as [|fuel IH]; intros pre l Hf Hnd.
  { destruct l; simpl in Hf; [|lia]. simpl. by rewrite (proj2 (Nat.ltb_ge _ _)) by (rewrite length_app; simpl; lia). }
  destruct l as [|a l].
  { simpl. by rewrite (proj2 (Nat.ltb_ge _ _)) by (rewrite length_app; simpl; lia). }
  cbn [dedup_outer]. rewrite (proj2 (Nat.ltb_lt _ _)) by (rewrite length_app; simpl; lia).
  rewrite inner_spec by done. cbn [keep_first]. case_bool_decide as Hin; simpl.
  - assert (S (length pre - 1) = length pre) as ->.
    { destruct pre; [by apply elem_of_nil in Hin|simpl; lia]. }
    apply IH; [simpl in Hf; lia|done].
  - replace (pre ++ a :: l) with ((pre ++ [a]) ++ l) by (by rewrite <- (assoc_L (++))).
    replace (S (length pre)) with (length (pre ++ [a])) by (rewrite length_app; simpl; lia).
    rewrite IH; [|simpl in Hf; lia|].
    + rewrite map_app, <- (assoc_L (++)). done.
    + rewrite map_app. apply NoDup_app. split_and!; [done| |repeat constructor; by intros ?%elem_of_nil].
      intros x Hx Hx'. apply list_elem_of_singleton in Hx' as ->. done.
Qed.

Lemma keep_first_sub seen l a : a ∈ keep_first seen l -> a ∈ l.
Proof.
  revert seen. induction l as [|b l IH]; intros seen; simpl; [done|].
  case_bool_decide; [intros Ha; right; by eapply IH|].
  intros [->|Ha]%elem_of_cons; [by left|right; by eapply IH].
Qed.

Lemma keep_first_nodup seen l : NoDup seen -> NoDup (seen ++ ids (keep_first seen l)).
Proof.
  revert seen. induction l as [|a l IH]; intros seen Hs; simpl; [by rewrite app_nil_r|].
  case_bool_decide as Hin; [by apply IH|]. simpl.
  replace (seen ++ ol_i_id a :: ids (keep_first (seen ++ [ol_i_id a]) l))
    with ((seen ++ [ol_i_id a]) ++ ids (keep_first (seen ++ [ol_i_id a]) l)) by (by rewrite <- (assoc_L (++))).
  apply IH. apply NoDup_app. split_and!; [done| |repeat constructor; by intros ?%elem_of_nil].
  intros x Hx Hx'. apply list_elem_of_singleton in Hx' as ->. done.
Qed.

Lemma keep_first_ids seen l x : x ∈ ids l -> x ∈ seen \/ x ∈ ids (keep_first seen l).
Proof.
  revert seen. induction l as [|a l IH]; intros seen; simpl; [by intros ?%elem_of_nil|].
  intros [->|Hx]%elem_of_cons; case_bool_decide as Hin; simpl; [by left|right; left|by apply IH|].
  destruct (IH (seen ++ [ol_i_id a]) Hx) as [[?| ->%list_elem_of_singleton]%elem_of_app|]; [by left|right; left|right; by right].
Qed.

Lemma keep_first_length seen l : (length (keep_first seen l) <= length l)%nat.
Proof.
  revert seen. induction l as [|a l IH]; intros seen; simpl; [lia|].
  case_bool_decide; simpl; [pose proof (IH seen)|pose proof (IH (seen ++ [ol_i_id a]))]; lia.
Qed.

Lemma dedup_spec l : dedup l = Some (keep_first [] l).
Proof. apply (outer_spec (length l) [] l); [lia|constructor]. Qed.

Lemma all_different_spec l : all_different l = true <-> NoDup (ids l).
Proof.
  induction l as [|a l IH]; simpl; [split; [constructor|done]|].
  rewrite andb_true_iff, forallb_forall, IH, NoDup_cons. split; intros [H1 H2]; (split; [|done]).
  - intros (b & Heq & Hb)%list_elem_of_fmap. apply list_elem_of_In in Hb. specialize (H1 b Hb). b2p. congruence.
  - intros b Hb. apply list_elem_of_In in Hb. apply negb_true_iff, Z.eqb_neq. intros Heq. apply H1.
    apply list_elem_of_fmap. by exists b.
Qed.

(** ** Random parameters stay in their ranges

    [yields m P]: [m] ends with a result that satisfies [P], from every state of the
    generator whose constants are in range. *)

Definition in_range (lo hi : Z) (x : Z) : Prop := lo <= x <= hi.
Definition const_ok (A : Z) (c : option Z) : Prop := match c with Some c => in_range 0 A c | None => True end.
Definition rinv (r : rand_state) : Prop :=
  const_ok 255 (C_255 r) /\ const_ok 1023 (C_1023 r) /\ const_ok 8191 (C_8191 r).

Definition yields {A} (m : Rand A) (P : A -> Prop) : Prop :=
  forall r, rinv r -> exists a r', m r = Some (a, r') /\ P a /\ rinv r'.

Lemma yields_ret {A} (a : A) (P : A -> Prop) : P a -> yields (rret a) P.
Proof. intros H r Hr. by exists a, r. Qed.

Lemma yields_bind {A B} (m : Rand A) (f : A -> Rand B) P Q :
  yields m P -> (forall a, P a -> yields (f a) Q) -> yields (rbind m f) Q.
Proof.
  intros Hm Hf r Hr. destruct (Hm r Hr) as (a & r1 & E & Ha & Hr1). unfold rbind. rewrite E. by apply Hf.
Qed.

Lemma yields_weaken {A} (m : Rand A) (P Q : A -> Prop) : (forall a, P a -> Q a) -> yields m P -> yields m Q.
Proof. intros HPQ Hm r Hr. destruct (Hm r Hr) as (a & r1 & ? & ? & ?). exists a, r1. auto. Qed.

Lemma yields_some {A} (o : option A) (a : A) (P : A -> Prop) :
  o = Some a -> P a -> yields (fun r => do! x <- o;; Some (x, r)) P.
Proof. intros -> H r Hr. by exists a, r. Qed.

Section random_lemmas.
Context (lrand48 : Z -> nat -> Z) (Hrand : forall b i, 0 <= lrand48 b i < 2 ^ 31).

Lemma RAND_yields max thd : 0 < max -> yields (RAND lrand48 max thd) (in_range 0 (max - 1)).
Proof using Hrand.
  intros Hm r Hr. unfold RAND. rewrite (proj2 (Z.eqb_neq _ _)) by lia. simpl. eexists _, _. split; [done|].
  split; [|done]. unfold in_range. pose proof (Z.mod_pos_bound (u64 (lrand48 thd (r_pos r thd))) max). lia.
Qed.

Lemma URand_yields x y thd : 0 <= x -> x <= y -> y < 2 ^ 63 -> yields (URand lrand48 x y thd) (in_range x y).
Proof using Hrand.
  intros H0 Hle Hy. unfold URand. eapply yields_bind; [apply RAND_yields; rewrite u64_small by (unfold is_u64; lia); lia|].
  intros v Hv. apply yields_ret. rewrite u64_small in Hv by (unfold is_u64; lia). unfold in_range in *.
  rewrite u64_small by (unfold is_u64; lia). lia.
Qed.

Lemma nu_const_yields A thd : A = 255 \/ A = 1023 \/ A = 8191 -> yields (nu_const lrand48 A thd) (in_range 0 A).
Proof using Hrand.
  intros HA r Hr. destruct Hr as (H1 & H2 & H3). unfold nu_const.
  assert (forall c, const_ok A (Some c) -> in_range 0 A c) as Hc by done.
  destruct HA as [->|[-> | ->]]; cbn [Z.eqb Pos.eqb].
  1: destruct (C_255 r) as [c|] eqn:E. 3: destruct (C_1023 r) as [c|] eqn:E. 5: destruct (C_8191 r) as [c|] eqn:E.
  1, 3, 5: exists c, r; split; [done|]; split; [by apply Hc|]; split_and!; by rewrite ?E.
  all: match goal with |- context [URand _ 0 ?A _ _] =>
    destruct (URand_yields 0 A thd ltac:(lia) ltac:(lia) ltac:(lia) r) as (a & r1 & Er & Ha & H1' & H2' & H3');
      [by split_and!; rewrite ?E|rewrite Er]
  end; eexists _, _; split; [done|]; split; [done|]; by split_and!.
Qed.

Lemma NURand_yields A x y thd :
  A = 255 \/ A = 1023 \/ A = 8191 -> 0 <= x -> x <= y -> y < 2 ^ 32 ->
  yields (NURand lrand48 A x y thd) (in_range x y).
Proof using Hrand.
  intros HA H0 Hle Hy. unfold NURand.
  assert ((A =? 255) || (A =? 1023) || (A =? 8191) = true) as -> by (destruct HA as [->|[-> | ->]]; done).
  eapply yields_bind; [by apply nu_const_yields|]. intros C _.
  eapply yields_bind; [apply URand_yields; destruct HA as [->|[-> | ->]]; lia|]. intros a _.
  eapply yields_bind; [apply URand_yields; lia|]. intros b _ r Hr.
  rewrite u64_small by (unfold is_u64; lia). rewrite (proj2 (Z.eqb_neq _ _)) by lia. simpl.
  eexists _, _. split; [done|]. split; [|done]. unfold in_range.
  pose proof (Z.mod_pos_bound (u64 (Z.lor a b + C)) (y - x + 1)). rewrite u64_small by (unfold is_u64; lia). lia.
Qed.
End random_lemmas.

(** ** Valid queries *)

Section valid.
Context {tc : TpccConfig} {tok : TpccConfigOk}.

Definition wpart (w : Z) : Z := w mod g_part_cnt.

(** The partitions are those of the warehouses [ws], each once. *)
Definition parts_ok (ws : list Z) (parts : list Z) : Prop :=
  NoDup parts /\ forall p, p ∈ parts <-> exists w, w ∈ ws /\ p = wpart w.

Definition name_ok (by_name : bool) (name : str) (c : Z) : Prop :=
  if by_name then exists num, 0 <= num < 1000 /\ Lastname num = Some name else is_cust c.

Definition item_ok (w : Z) (rem : bool) (a : Item_no) : Prop :=
  is_item (ol_i_id a) /\ is_wh (ol_supply_w_id a) /\ in_range 1 10 (ol_quantity a) /\
  (rem = false -> ol_supply_w_id a = w).

Definition query_ok (q : tpcc_query) : Prop :=
  is_wh (w_id q) /\
  match q_type q with
  | TPCC_PAYMENT =>
      is_dist (d_id q) /\ d_w_id q = w_id q /\ is_wh (c_w_id q) /\ is_dist (c_d_id q) /\
      in_range 1 5000 (h_amount q) /\ name_ok (by_last_name q) (c_last q) (c_id q) /\
      parts_ok [w_id q; c_w_id q] (part_to_access q)
  | TPCC_NEW_ORDER =>
      is_dist (d_id q) /\ is_cust (c_id q) /\ ol_cnt q = Z.of_nat (length (items q)) /\ in_range 1 15 (ol_cnt q) /\
      NoDup (ids (items q)) /\ Forall (item_ok (w_id q) (remote q)) (items q) /\
      parts_ok (w_id q :: map ol_supply_w_id (items q)) (part_to_access q)
  | TPCC_ORDER_STATUS =>
      is_dist (d_id q) /\ c_w_id q = w_id q /\ c_d_id q = d_id q /\
      name_ok (by_last_name q) (c_last q) (c_id q) /\ parts_ok [w_id q] (part_to_access q)
  | TPCC_DELIVERY => in_range 1 10 (o_carrier_id q) /\ parts_ok [w_id q] (part_to_access q)
  | TPCC_STOCK_LEVEL =>
      is_dist (d_id q) /\ in_range 10 20 (threshold q) /\ parts_ok [w_id q] (part_to_access q)
  | TPCC_ALL => False
  end.

Lemma parts_one w : parts_ok [w] [wpart w].
Proof using Type.
  split; [apply NoDup_singleton|]. intros p. rewrite list_elem_of_singleton. split.
  - intros ->. exists w. split; [by left|done].
  - intros (w' & ->%list_elem_of_singleton & ->). done.
Qed.

Lemma add_part_ok ws parts w : parts_ok ws parts -> parts_ok (ws ++ [w]) (add_part (wpart w) parts).
Proof using Type.
  intros [Hnd Hp]. unfold add_part. case_bool_decide as Hin.
  - split; [done|]. intros p. rewrite Hp. setoid_rewrite elem_of_app. setoid_rewrite list_elem_of_singleton. split.
    + intros (w' & ? & ->). exists w'. auto.
    + intros (w' & [?| ->] & ->); [by exists w'|]. by apply Hp.
  - split.
    + apply NoDup_app. split_and!; [done| |apply NoDup_singleton]. intros p Hpp ->%list_elem_of_singleton. done.
    + intros p. rewrite elem_of_app, list_elem_of_singleton, Hp. setoid_rewrite elem_of_app.
      setoid_rewrite list_elem_of_singleton. split.
      * intros [(w' & ? & ->)| ->]; [exists w'|exists w]; auto.
      * intros (w' & [?| ->] & ->); [left; by exists w'|by right].
Qed.

(** Every partition fits the array of [g_part_cnt] elements. *)
Lemma parts_length ws parts : parts_ok ws parts -> Z.of_nat (length parts) <= g_part_cnt.
Proof using tok.
  intros [Hnd Hp]. pose proof part_ok.
  assert (length parts <= length (seqZ 0 g_part_cnt))%nat as Hl; [|rewrite length_seqZ in Hl; lia].
  apply submseteq_length, NoDup_submseteq; [done|]. intros p (w & _ & ->)%Hp. rewrite elem_of_seqZ.
  pose proof (Z.mod_pos_bound w g_part_cnt). unfold wpart. lia.
Qed.

Lemma part_of_yields w : yields (part_of w) (fun p => p = wpart w).
Proof using tok. unfold part_of. by eapply yields_some; [apply wh_to_part_value|]. Qed.

(** *** The generators *)

Context (lrand48 : Z -> nat -> Z) (Hrand : forall b i, 0 <= lrand48 b i < 2 ^ 31).
Context (FIRST_PART_LOCAL g_enforce_numa_distance_remote_only : bool).
Context (g_perc_remote_payment g_perc_remote_neworder : Z).
Context (numa : option (Z * Z)).
Definition enforced (w : Z) : Z := match numa with None => w | Some (b, e) => b + (w - 1) mod (e - b + 1) end.

Notation wh_enforce_numa_dist := (wh_enforce_numa_dist numa).
Notation other_wh := (other_wh lrand48 numa).
Notation home_wh := (home_wh lrand48 FIRST_PART_LOCAL g_enforce_numa_distance_remote_only numa).
Notation gen_customer := (gen_customer lrand48).
Lemma URand_value y thd r : 1 <= y < 2 ^ 32 -> exists r',
  URand lrand48 1 y thd r = Some (1 + lrand48 thd (r_pos r thd) mod y, r') /\ (rinv r -> rinv r') /\
  r_pos r' thd = S (r_pos r thd).
Proof using Hrand.
  intros Hy. unfold URand, rbind, RAND, rret. replace (y - 1 + 1) with y by lia.
  pose proof (Hrand thd (r_pos r thd)). pose proof (Z.mod_pos_bound (lrand48 thd (r_pos r thd)) y).
  rewrite (u64_small y), (proj2 (Z.eqb_neq _ _)) by (unfold is_u64; lia). simpl.
  rewrite (u64_small (lrand48 _ _)), u64_small by (unfold is_u64; lia).
  eexists. split; [done|]. split; [done|]. simpl. by rewrite Z.eqb_refl.
Qed.

Lemma first_wh_yields thd : yields (first_wh lrand48 FIRST_PART_LOCAL thd) is_wh.
Proof using tok Hrand.
  pose proof wh_ok. unfold first_wh, is_wh. destruct FIRST_PART_LOCAL.
  - apply yields_ret. pose proof (Z.mod_pos_bound thd g_num_wh). lia.
  - apply URand_yields; [done|lia..].
Qed.

Lemma Lastname_some num : 0 <= num < 1000 -> exists s, Lastname num = Some s.
Proof using Type.
  intros H. unfold Lastname. assert (forall i, 0 <= i < 10 -> exists s, syllable i = Some s) as Hs.
  { intros i Hi. unfold syllable. destruct (lookup_lt_is_Some_2 syllables (Z.to_nat i)) as [s ->]; [simpl; lia|].
    simpl. eauto. }
  destruct (Hs (num / 100)) as [a ->]; [split; [apply Z.div_pos; lia|apply Z.div_lt_upper_bound; lia]|].
  destruct (Hs (num / 10 mod 10)) as [b ->]; [apply Z.mod_pos_bound; lia|].
  destruct (Hs (num mod 10)) as [c ->]; [apply Z.mod_pos_bound; lia|]. eauto.
Qed.

Lemma gen_customer_yields y thd q :
  yields (gen_customer y thd q) (fun c => name_ok c.2 c.1.1 c.1.2).
Proof using tok Hrand.
  pose proof cust_ok. unfold TpccQuery.gen_customer. destruct (y <=? 60).
  - eapply yields_bind; [apply NURand_yields; [done|by left|lia..]|]. intros num Hn. unfold in_range in Hn.
    destruct (Lastname_some num) as [s Hs]; [lia|]. intros r Hr. rewrite Hs. exists (s, c_id q, true), r.
    split_and!; [done| |done]. exists num. split; [lia|done].
  - eapply yields_bind; [apply NURand_yields; [done|by right; left|lia..]|]. intros c Hc. by apply yields_ret.
Qed.

Context (Hnuma : match numa with Some (b, e) => 1 <= b /\ b <= e /\ e <= g_num_wh | None => True end).
Lemma enforce_value w r : is_wh w -> wh_enforce_numa_dist w r = Some (enforced w, r) /\ is_wh (enforced w).
Proof using tok Hnuma.
  intros Hw. pose proof wh_ok. unfold TpccQuery.wh_enforce_numa_dist, enforced, is_wh in *.
  destruct numa as [[b e]|]; [|done]. rewrite (u64_small (e - b + 1)) by (unfold is_u64; lia).
  pose proof (Z.mod_pos_bound (w - 1) (e - b + 1)). rewrite (proj2 (Z.eqb_neq _ _)) by lia. simpl.
  rewrite (u64_small (w - 1)), u64_small by (unfold is_u64; lia). split; [done|lia].
Qed.

Lemma enforce_yields w : is_wh w -> yields (wh_enforce_numa_dist w) is_wh.
Proof using tok Hnuma. intros Hw r Hr. destruct (enforce_value w r Hw) as [E ?]. by exists (enforced w), r. Qed.

Lemma home_wh_yields thd : yields (home_wh thd) is_wh.
Proof using tok Hrand Hnuma.
  unfold TpccQuery.home_wh. eapply yields_bind; [apply first_wh_yields|]. intros w Hw.
  destruct g_enforce_numa_distance_remote_only; [by apply yields_ret|by apply enforce_yields].
Qed.

Context (turns : nat).

(** A [do]-loop that looks for another warehouse finds one within [turns] draws. *)
Context (Hfair : forall b p w, 1 < g_num_wh ->
  exists i, (i < turns)%nat /\ enforced (1 + lrand48 b (p + i)%nat mod g_num_wh) <> w).

Notation gen_item := (gen_item lrand48 g_perc_remote_neworder numa turns).
Notation gen_items := (gen_items lrand48 g_perc_remote_neworder numa turns).

Lemma other_wh_yields w thd : 1 < g_num_wh -> yields (other_wh turns w thd) (fun v => is_wh v /\ v <> w).
Proof using tok Hrand Hnuma Hfair.
  intros Hn r Hr. pose proof wh_ok.
  assert (exists i, (i < turns)%nat /\ enforced (1 + lrand48 thd (r_pos r thd + i)%nat mod g_num_wh) <> w) as Hex
    by by apply Hfair.
  clear Hfair. revert r Hr Hex. induction turns as [|n IH]; intros r Hr (i & Hi & Hne); [lia|].
  cbn [TpccQuery.other_wh]. unfold rbind at 1.
  destruct (URand_value g_num_wh thd r) as (r1 & E & Hr1 & Hp); [lia|]. rewrite E.
  set (v := 1 + lrand48 thd (r_pos r thd) mod g_num_wh) in *.
  assert (is_wh v) as Hv.
  { unfold v, is_wh. pose proof (Z.mod_pos_bound (lrand48 thd (r_pos r thd)) g_num_wh). lia. }
  unfold rbind. destruct (enforce_value v r1 Hv) as [-> Hw].
  destruct (enforced v =? w) eqn:Ev; b2p; [|exists (enforced v), r1; auto].
  apply IH; [auto|]. destruct i as [|i].
  - rewrite Nat.add_0_r in Hne. done.
  - exists i. split; [lia|]. rewrite Hp. by replace (S (r_pos r thd) + i)%nat with (r_pos r thd + S i)%nat by lia.
Qed.

Lemma gen_item_yields w thd : is_wh w ->
  yields (gen_item w thd) (fun a => item_ok w a.2 a.1).
Proof using tok Hrand Hnuma Hfair.
  intros Hw. pose proof items_ok. pose proof wh_ok. unfold TpccQuery.gen_item, item_ok.
  eapply yields_bind; [apply NURand_yields; [done|by right; right|lia..]|]. intros i Hi.
  eapply yields_bind; [apply URand_yields; [done|lia..]|]. intros x _.
  eapply (yields_bind _ _ (fun s => is_wh s.1 /\ (s.2 = false -> s.1 = w))).
  - destruct ((_ <? x) || (g_num_wh =? 1)) eqn:E; [by apply yields_ret|]. b2p.
    eapply yields_bind; [apply other_wh_yields; lia|]. intros v [Hv _]. by apply yields_ret.
  - intros s [Hs Hs']. eapply yields_bind; [apply URand_yields; [done|lia..]|]. intros n Hn. by apply yields_ret.
Qed.

Lemma item_ok_weaken w rem rem' a : item_ok w rem a -> (rem' = false -> rem = false) -> item_ok w rem' a.
Proof using Type. intros (? & ? & ? & H) Hr. split_and!; auto. Qed.

Lemma gen_items_yields n w thd : is_wh w ->
  yields (gen_items n w thd) (fun l => length l.1 = n /\ Forall (item_ok w l.2) l.1).
Proof using tok Hrand Hnuma Hfair.
  intros Hw. induction n as [|n IH]; simpl; [by apply yields_ret|].
  eapply yields_bind; [by apply gen_item_yields|]. intros a Ha. eapply yields_bind; [apply IH|]. intros l [Hl HF].
  apply yields_ret. simpl. split; [by f_equal|]. constructor.
  - eapply item_ok_weaken; [exact Ha|]. by intros [? _]%orb_false_elim.
  - refine (Forall_impl _ _ _ HF _). intros b Hb. eapply item_ok_weaken; [exact Hb|]. by intros [_ ?]%orb_false_elim.
Qed.

Lemma add_parts_yields l ws parts : parts_ok ws parts ->
  yields (add_parts l parts) (parts_ok (ws ++ map ol_supply_w_id l)).
Proof using tok.
  revert ws parts. induction l as [|a l IH]; intros ws parts Hp; simpl.
  { apply yields_ret. by rewrite app_nil_r. }
  eapply yields_bind; [apply part_of_yields|]. intros p ->.
  eapply yields_weaken; [|apply (IH (ws ++ [ol_supply_w_id a])); by apply add_part_ok].
  intros ps. by rewrite <- (assoc_L (++)).
Qed.

Lemma gen_payment_yields thd q :
  yields (gen_payment lrand48 FIRST_PART_LOCAL g_enforce_numa_distance_remote_only g_perc_remote_payment numa turns
            thd q) query_ok.
Proof using tok Hrand Hnuma Hfair.
  pose proof dist_ok. unfold gen_payment.
  eapply yields_bind; [apply home_wh_yields|]. intros w Hw.
  eapply yields_bind; [apply part_of_yields|]. intros p ->.
  eapply yields_bind; [apply URand_yields; [done|lia..]|]. intros d Hd.
  eapply yields_bind; [apply URand_yields; [done|lia..]|]. intros amount Ha.
  eapply yields_bind; [apply URand_yields; [done|lia..]|]. intros x _.
  eapply yields_bind; [apply URand_yields; [done|lia..]|]. intros y _.
  eapply (yields_bind _ _ (fun c => is_dist c.1.1 /\ is_wh c.1.2 /\ parts_ok [w; c.1.2] c.2)).
  - assert (forall c_d, is_dist c_d -> is_dist c_d /\ is_wh w /\ parts_ok [w; w] [wpart w]) as Hhome.
    { intros c_d Hc. split_and!; [done|done|]. destruct (parts_one w) as [Hnd Hp]. split; [done|].
      intros p. rewrite Hp. split; intros (w' & Hw' & ->); exists w'; split; [|done| |done];
        rewrite !elem_of_cons in *; tauto. }
    destruct (x <=? _); [by apply yields_ret, Hhome|].
    eapply yields_bind; [apply URand_yields; [done|lia..]|]. intros c_d Hc.
    destruct (1 <? g_num_wh) eqn:E; [|by apply yields_ret, Hhome]. b2p.
    eapply yields_bind; [by apply other_wh_yields|]. intros c_w [Hcw _].
    eapply yields_bind; [apply part_of_yields|]. intros p ->.
    eapply yields_bind; [apply part_of_yields|]. intros p ->. apply yields_ret. split_and!; [done|done|].
    simpl. pose proof (add_part_ok [w] [wpart w] c_w (parts_one w)) as Hp. unfold add_part in Hp.
    case_bool_decide as Hin; rewrite list_elem_of_singleton in Hin.
    + by rewrite Hin, Z.eqb_refl.
    + by rewrite (proj2 (Z.eqb_neq _ _)) by congruence.
  - intros c (Hcd & Hcw & Hp). eapply yields_bind; [apply gen_customer_yields|]. intros name Hn.
    apply yields_ret. split_and!; done.
Qed.

Lemma gen_new_order_yields thd q :
  yields (gen_new_order lrand48 FIRST_PART_LOCAL g_enforce_numa_distance_remote_only g_perc_remote_neworder numa turns
            thd q) query_ok.
Proof using tok Hrand Hnuma Hfair.
  pose proof dist_ok. pose proof cust_ok. unfold gen_new_order.
  eapply yields_bind; [apply home_wh_yields|]. intros w Hw.
  eapply yields_bind; [apply URand_yields; [done|lia..]|]. intros d Hd.
  eapply yields_bind; [apply NURand_yields; [done|by right; left|lia..]|]. intros c Hc.
  eapply yields_bind; [apply URand_yields; [done|lia..]|]. intros roll _.
  eapply yields_bind; [apply URand_yields; [done|lia..]|]. intros cnt Hcnt. unfold in_range in Hcnt.
  eapply yields_bind; [apply part_of_yields|]. intros p ->.
  eapply yields_bind; [by apply gen_items_yields|]. intros l [Hl HF].
  eapply (yields_bind _ _ (fun its => its = keep_first [] l.1)).
  { intros r Hr. rewrite dedup_spec. rewrite (proj2 (all_different_spec _)).
    - simpl. eexists _, _. split; [done|]. split; done.
    - apply (keep_first_nodup [] l.1). constructor. }
  intros its ->. eapply yields_bind; [apply add_parts_yields, parts_one|]. intros parts Hp. apply yields_ret.
  assert (Forall (item_ok w l.2) (keep_first [] l.1)) as HF'.
  { rewrite Forall_forall in HF |- *. intros a Ha. apply HF. by eapply keep_first_sub. }
  split; [done|]. simpl. split_and!; try done; [|apply (keep_first_nodup [] l.1); constructor].
  pose proof (keep_first_length [] l.1). unfold in_range. split; [|lia].
  destruct l.1 as [|a l1]; [simpl in Hl; lia|].
  cbn [keep_first]. rewrite bool_decide_false by apply not_elem_of_nil. simpl. lia.
Qed.

Lemma gen_order_status_yields thd q :
  yields (gen_order_status lrand48 FIRST_PART_LOCAL g_enforce_numa_distance_remote_only numa thd q) query_ok.
Proof using tok Hrand Hnuma.
  clear Hfair. pose proof dist_ok. unfold gen_order_status.
  eapply yields_bind; [apply home_wh_yields|]. intros w Hw.
  eapply yields_bind; [apply part_of_yields|]. intros p ->.
  eapply yields_bind; [apply URand_yields; [done|lia..]|]. intros d Hd.
  eapply yields_bind; [apply URand_yields; [done|lia..]|]. intros y _.
  eapply yields_bind; [apply gen_customer_yields|]. intros name Hn.
  apply yields_ret. split; [done|]. simpl. split_and!; try done; apply parts_one.
Qed.

Lemma gen_delivery_yields thd q : yields (gen_delivery lrand48 FIRST_PART_LOCAL thd q) query_ok.
Proof using tok Hrand.
  clear Hfair. unfold gen_delivery. eapply yields_bind; [apply first_wh_yields|]. intros w Hw.
  eapply yields_bind; [apply part_of_yields|]. intros p ->.
  eapply yields_bind; [apply URand_yields; [done|lia..]|]. intros carrier Hc.
  apply yields_ret. split; [done|]. simpl. split_and!; try done; apply parts_one.
Qed.

Lemma gen_stock_yields thd q : yields (gen_stock lrand48 FIRST_PART_LOCAL thd q) query_ok.
Proof using tok Hrand.
  clear Hfair. pose proof dist_ok. unfold gen_stock. eapply yields_bind; [apply first_wh_yields|]. intros w Hw.
  eapply yields_bind; [apply part_of_yields|]. intros p ->.
  eapply yields_bind; [apply URand_yields; [done|lia..]|]. intros t Ht. apply yields_ret.
  pose proof (Z.mod_pos_bound thd DIST_PER_WARE).
  split; [done|]. simpl. split_and!; try done; try apply parts_one; unfold is_dist; lia.
Qed.
End valid.

(** C39. The generated queries are valid.  For every stream of random numbers the
    generation of a query ends without a failed assertion or division by zero, its
    parameters lie in the ranges of the benchmark, the items of a new order are
    pairwise different (at least one remains of the five to fifteen drawn), a new
    order that is not remote takes everything from its own warehouse, and the
    partitions to access are exactly those of the warehouses involved, each once, so
    that they fit the array of [g_part_cnt].  The only assumption on the random
    numbers is that a loop looking for another warehouse meets one within [turns]
    draws. *)
Theorem tpcc_queries_valid `{tc : TpccConfig} (tok : TpccConfigOk) lrand48
    FIRST_PART_LOCAL TPCC_ALL_TXN remote_only perc_payment perc_neworder numa below turns thd q r
  (Hrand : forall b i, 0 <= lrand48 b i < 2 ^ 31)
  (Hnuma : match numa with Some (b, e) => 1 <= b /\ b <= e /\ e <= g_num_wh | None => True end)
  (Hfair : forall b p w, 1 < g_num_wh ->
     exists i, (i < turns)%nat /\ enforced numa (1 + lrand48 b (p + i)%nat mod g_num_wh) <> w)
  (Hr : rinv r) :
  exists q' r',
    query_init lrand48 FIRST_PART_LOCAL TPCC_ALL_TXN remote_only perc_payment perc_neworder numa below turns
      thd q r = Some (q', r') /\
    query_ok q' /\ Z.of_nat (length (part_to_access q')) <= g_part_cnt /\ rinv r'.
Proof.
  assert (yields (query_init lrand48 FIRST_PART_LOCAL TPCC_ALL_TXN remote_only perc_payment perc_neworder numa
    below turns thd q) query_ok) as Hy.
  { unfold query_init. eapply yields_bind; [by apply RAND_yields|]. intros x _.
    destruct TPCC_ALL_TXN; [destruct (x <? 4); [by apply gen_stock_yields|];
      destruct (x <? 8); [by apply gen_delivery_yields|];
      destruct (x <? 12); [by apply gen_order_status_yields|]|];
      destruct (below x); (by apply gen_payment_yields) || by apply gen_new_order_yields. }
  destruct (Hy r Hr) as (q' & r' & E & Hq & Hr'). exists q', r'. split_and!; [done|done| |done].
  destruct Hq as [_ Hq]. destruct (q_type q'); try done; destruct_and!; by eapply parts_length.
Qed.

(** Alternating numbers: a new order whose items are drawn twice and more. *)
Definition alternating (b : Z) (i : nat) : Z := if Nat.even i then 4 else 7.
Definition rand_start : rand_state := mkRand (fun _ => 0%nat) None None None.
Definition query_zero : tpcc_query :=
  mkQuery TPCC_ALL 0 0 0 0 0 0 [] 0 false [] false false 0 0 0 0 0 [].

Lemma tpcc_queries_valid_witness : exists q' r',
  @query_init tpcc_example alternating true false false 15 1 None (fun _ => false) 2 3 query_zero rand_start
    = Some (q', r') /\
  @query_ok tpcc_example q' /\ w_id q' = 4 /\ 0 < Z.of_nat (length (part_to_access q')) <= 10.
Proof.
  destruct (@tpcc_queries_valid tpcc_example tpcc_example_ok alternating true false false 15 1 None (fun _ => false)
    2%nat 3 query_zero rand_start) as (q' & r' & E & Hq & Hl & _).
  - intros b i. unfold alternating. destruct (Nat.even i); split; (discriminate || reflexivity).
  - exact I.
  - intros b p w _. destruct (decide (enforced None (1 + alternating b (p + 0)%nat mod 10) = w)) as [<-|Hne].
    + exists 1%nat. split; [apply le_n|]. unfold alternating, enforced. rewrite Nat.add_0_r, Nat.add_1_r, Nat.even_succ.
      rewrite <- Nat.negb_even. destruct (Nat.even p); discriminate.
    + exists 0%nat. split; [apply le_S, le_n|exact Hne].
  - split; [exact I|]. split; exact I.
  - exists q', r'. split; [exact E|]. split; [exact Hq|].
    assert (exists q0, (do! x <- @query_init tpcc_example alternating true false false 15 1 None (fun _ => false) 2 3
      query_zero rand_start;; Some x.1) = Some q0 /\ w_id q0 = 4 /\ part_to_access q0 = [4]) as (q0 & E0 & H1 & H2).
    { eexists. split; [vm_compute; reflexivity|]. split; reflexivity. }
    rewrite E in E0. injection E0 as <-. split; [exact H1|]. rewrite H2. split; [reflexivity|discriminate].
Defined.
