(* ===== verification/TpccTxn.v ===== *)
(** * The transactions of TPC-C

    [run_payment], [run_new_order], [run_order_status], [run_delivery] and
    [run_stock_level] of src/benchmarks/tpcc/tpcc_txn.cpp, one transaction at a time
    on a database of rows and indexes: what the concurrency control makes of
    interleaved ones.  A row is its 8-byte columns, a [double] the bits of one, an
    index the rows under a key in a partition, the latest first (Index.v).  Whether
    a [get_row] is granted and whether [finish] commits are inputs; the rows and index
    entries that a transaction inserts wait in the buffers of TxnIndex.v, which are empty
    when it starts: so every scheme leaves them but SILO and TICTOC, where a body that
    aborts does not clear them ([silo_left_over] of TxnIndex.v). *)

From Stdlib Require Import Ascii.
From stdpp Require Import list functions sorting.
From S2P Require Import Prelude Global Storage IndexPerfect TxnIndex TpccKeys TpccQuery.

(** ** Columns (tpcc_const.h)

    The numbers of the full schema; the short one leaves columns out. *)

Definition W_YTD : Z := 8.
Definition D_YTD : Z := 9.
Definition D_NEXT_O_ID : Z := 10.
Definition C_ID : Z := 0.
Definition C_DISCOUNT : Z := 15.
Definition C_BALANCE : Z := 16.
Definition C_YTD_PAYMENT : Z := 17.
Definition C_PAYMENT_CNT : Z := 18.
Definition H_C_ID : Z := 0.
Definition H_C_D_ID : Z := 1.
Definition H_C_W_ID : Z := 2.
Definition H_D_ID : Z := 3.
Definition H_W_ID : Z := 4.
Definition H_DATE : Z := 5.
Definition H_AMOUNT : Z := 6.
Definition NO_O_ID : Z := 0.
Definition NO_D_ID : Z := 1.
Definition NO_W_ID : Z := 2.
Definition O_ID : Z := 0.
Definition O_C_ID : Z := 1.
Definition O_D_ID : Z := 2.
Definition O_W_ID : Z := 3.
Definition O_ENTRY_D : Z := 4.
Definition O_CARRIER_ID : Z := 5.
Definition O_OL_CNT : Z := 6.
Definition O_ALL_LOCAL : Z := 7.
Definition OL_O_ID : Z := 0.
Definition OL_D_ID : Z := 1.
Definition OL_W_ID : Z := 2.
Definition OL_NUMBER : Z := 3.
Definition OL_I_ID : Z := 4.
Definition OL_SUPPLY_W_ID : Z := 5.
Definition OL_DELIVERY_D : Z := 6.
Definition OL_QUANTITY : Z := 7.
Definition OL_AMOUNT : Z := 8.
Definition I_PRICE : Z := 3.
Definition S_QUANTITY : Z := 2.
Definition S_YTD : Z := 13.
Definition S_ORDER_CNT : Z := 14.
Definition S_REMOTE_CNT : Z := 15.

(** ** Doubles

    Addition and subtraction on the bits of a [double]; sums of integers up to 2^53
    are exact. *)
Class Doubles := {
  dadd : Z -> Z -> Z;
  dsub : Z -> Z -> Z;
  dbl : Z -> Z;
  dadd_exact a b : 0 <= a <= 2 ^ 53 -> 0 <= b <= 2 ^ 53 -> a + b <= 2 ^ 53 -> dadd (dbl a) (dbl b) = dbl (a + b) }.

(** ** The database *)

Definition I_ITEM : nat := 0.
Definition I_WAREHOUSE : nat := 1.
Definition I_DISTRICT : nat := 2.
Definition I_CUSTOMER_ID : nat := 3.
Definition I_CUSTOMER_LAST : nat := 4.
Definition I_STOCK : nat := 5.
Definition I_ORDER : nat := 6.
Definition I_ORDER_CUST : nat := 7.
Definition I_ORDERLINE : nat := 8.
Definition I_NEWORDER : nat := 9.

(** Rows under a key of an index in a partition. *)
Notation index_map := (nat -> nat * Z -> list nat).

Record db := mkDb {
  db_rows : nat -> Z -> Z;
  db_index : index_map;
  db_next : nat;
  delivering : Z -> bool }.

(** ** Running a transaction *)

(** The rows as the transaction sees them, the rows it accessed, the next new row and
    the buffers. *)
Record tstate := mkT {
  t_rows : nat -> Z -> Z;
  t_accesses : list (nat * access_t);
  t_next : nat;
  t_buf : Buffers }.

(** [Aborted]: the body returned [finish(Abort)]; [Stuck]: a failed assertion, a null
    pointer that is followed or an exception. *)
Inductive Res (A : Type) := Done (a : A) (s : tstate) | Aborted | Stuck.
Arguments Done {A} a s.
Arguments Aborted {A}.
Arguments Stuck {A}.

Definition M (A : Type) : Type := tstate -> Res A.
Definition mret {A} (a : A) : M A := fun s => Done a s.
Definition mbind {A B} (m : M A) (f : A -> M B) : M B :=
  fun s => match m s with Done a s' => f a s' | Aborted => Aborted | Stuck => Stuck end.
Definition mabort {A} : M A := fun _ => Aborted.
Definition mget {A} (o : option A) : M A := fun s => match o with Some a => Done a s | None => Stuck end.
Notation "'bind!' x <- m ;; k" := (mbind m (fun x => k))
  (at level 100, x name, m at next level, k at level 200, right associativity) : dbx_scope.
Notation "m ;;; k" := (mbind m (fun _ => k)) (at level 100, k at level 200, right associativity) : dbx_scope.

Section txn.
Context {tc : TpccConfig} {dd : Doubles}.
Context (g_wh_update TPCC_SMALL : bool) (MAX_WRITE_SET : nat).
(** The partition of the items: the node of the thread, or 0. *)
Context (item_part : Z).
(** The [n]-th [get_row] of the transaction is granted. *)
Context (granted : nat -> bool).
Context (index : index_map).

Definition get_row (r : nat) (type : access_t) : M nat := fun s =>
  if granted (length (t_accesses s))
  then Done r (mkT (t_rows s) (t_accesses s ++ [(r, type)]) (t_next s) (t_buf s))
  else Aborted.

Definition RD_RO : access_t := if ALLOW_READ_ONLY then RO else RD.

Definition get_value (r : nat) (col : Z) : M Z := fun s => Done (t_rows s r col) s.
Definition set_value (r : nat) (col v : Z) : M unit := fun s =>
  Done tt (mkT (<[r := <[col := v]> (t_rows s r)]> (t_rows s)) (t_accesses s) (t_next s) (t_buf s)).
Definition get_new_row : M nat := fun s =>
  Done (t_next s) (mkT (t_rows s) (t_accesses s) (S (t_next s)) (t_buf s)).

Definition buffered (f : Buffers -> Result Buffers) : M unit := fun s =>
  match f (t_buf s) with
  | Ok b => Done tt (mkT (t_rows s) (t_accesses s) (t_next s) b)
  | Throw => Stuck
  end.
Definition insert_row (r : nat) : M unit := buffered (TxnIndex.insert_row MAX_WRITE_SET false r).
Definition insert_index (i : nat) (key : Z) (r : nat) (part : Z) : M unit :=
  buffered (TxnIndex.insert_index MAX_WRITE_SET (mkInsert i key r (Z.to_nat part) false)).
Definition delete_index (i : nat) (key part : Z) : M unit :=
  buffered (TxnIndex.delete_index MAX_WRITE_SET (mkDelete i key (inr 0%nat) (inr 0%nat) (Z.to_nat part))).

(** The items under a key; [index_read] gives the first and [NULL] for none. *)
Definition index_items (i : nat) (key part : Z) : list nat := index i (Z.to_nat part, key).
Definition index_read (i : nat) (key part : Z) : M nat := mget (head (index_items i key part)).
Definition part (w : Z) : M Z := mget (wh_to_part w).

(** *** Payment *)

(** The middle of the list: [mid] moves at every second item. *)
Fixpoint mid_loop (it : list nat) (cnt : nat) (mid : list nat) : list nat :=
  match it with
  | [] => mid
  | _ :: it => mid_loop it (S cnt) (if Nat.even (S cnt) then tail mid else mid)
  end.

Definition find_customer (by_name : bool) (name : str) (c d w : Z) : M nat :=
  bind! p <- part w;;
  if by_name then
    let l := index_items I_CUSTOMER_LAST (custNPKey name d w) p in mget (head (mid_loop l 0 l))
  else index_read I_CUSTOMER_ID (custKey c d w) p.

Definition add_double (r : nat) (col v : Z) : M unit :=
  bind! x <- get_value r col;; set_value r col (dadd x v).
Definition sub_double (r : nat) (col v : Z) : M unit :=
  bind! x <- get_value r col;; set_value r col (dsub x v).

Definition new_history (q : tpcc_query) : M unit :=
  bind! r <- get_new_row;;
  set_value r H_C_ID (c_id q);;;
  set_value r H_C_D_ID (c_d_id q);;;
  set_value r H_C_W_ID (c_w_id q);;;
  set_value r H_D_ID (d_id q);;;
  set_value r H_W_ID (w_id q);;;
  set_value r H_DATE 2013;;;
  set_value r H_AMOUNT (dbl (h_amount q));;;
  insert_row r.

Definition payment (q : tpcc_query) : M unit :=
  bind! p <- part (w_id q);;
  bind! r_wh <- index_read I_WAREHOUSE (w_id q) p;;
  bind! r_wh <- get_row r_wh (if g_wh_update then WR else RD);;
  (if g_wh_update then add_double r_wh W_YTD (dbl (h_amount q)) else mret tt);;;
  bind! r_dist <- index_read I_DISTRICT (distKey (d_id q) (d_w_id q)) p;;
  bind! r_dist <- get_row r_dist WR;;
  add_double r_dist D_YTD (dbl (h_amount q));;;
  bind! r_cust <- find_customer (by_last_name q) (c_last q) (c_id q) (c_d_id q) (c_w_id q);;
  bind! r_cust <- get_row r_cust WR;;
  sub_double r_cust C_BALANCE (dbl (h_amount q));;;
  add_double r_cust C_YTD_PAYMENT (dbl (h_amount q));;;
  add_double r_cust C_PAYMENT_CNT (dbl 1);;;
  new_history q.

(** *** New order *)

Definition new_order_row (q : tpcc_query) (o_id : Z) : M unit :=
  bind! r <- get_new_row;;
  set_value r O_ID o_id;;;
  set_value r O_C_ID (c_id q);;;
  set_value r O_D_ID (d_id q);;;
  set_value r O_W_ID (w_id q);;;
  set_value r O_ENTRY_D (o_entry_d q);;;
  set_value r O_OL_CNT (ol_cnt q);;;
  set_value r O_ALL_LOCAL (if remote q then 0 else 1);;;
  insert_row r;;;
  insert_index I_ORDER (orderPrimaryKey (w_id q) (d_id q) o_id) r (d_to_part (w_id q) (d_id q));;;
  bind! p <- part (w_id q);;
  insert_index I_ORDER_CUST (orderCustKey (d_id q) (c_id q)) r p.

Definition new_neworder_row (q : tpcc_query) (o_id : Z) : M unit :=
  bind! r <- get_new_row;;
  set_value r NO_O_ID o_id;;;
  set_value r NO_D_ID (d_id q);;;
  set_value r NO_W_ID (w_id q);;;
  insert_row r;;;
  bind! p <- part (w_id q);;
  insert_index I_NEWORDER (distKey (d_id q) (w_id q)) r p.

(** The stock of an item. *)
Definition take_stock (r : nat) (rem : bool) (quantity : Z) : M unit :=
  bind! s_quantity <- get_value r S_QUANTITY;;
  (if TPCC_SMALL then mret tt else
     bind! s_ytd <- get_value r S_YTD;;
     set_value r S_YTD (u64 (s_ytd + quantity));;;
     bind! s_order_cnt <- get_value r S_ORDER_CNT;;
     set_value r S_ORDER_CNT (u64 (s_order_cnt + 1)));;;
  (if rem then
     bind! s_remote_cnt <- get_value r S_REMOTE_CNT;; set_value r S_REMOTE_CNT (u64 (s_remote_cnt + 1))
   else mret tt);;;
  set_value r S_QUANTITY
    (if u64 (quantity + 10) <? s_quantity then u64 (s_quantity - quantity) else u64 (s_quantity - quantity + 91)).

(** [ol_quantity * i_price * (1 + w_tax + d_tax) * (1 - c_discount)], unsigned. *)
Definition ol_amount (quantity i_price c_discount : Z) : Z :=
  u64 (u64 (u64 (quantity * i_price) * 3) * u64 (1 - c_discount)).

Definition new_orderline_row (q : tpcc_query) (o_id ol_number : Z) (a : Item_no) (i_price c_discount : Z) : M unit :=
  bind! r <- get_new_row;;
  set_value r OL_O_ID o_id;;;
  set_value r OL_D_ID (d_id q);;;
  set_value r OL_W_ID (w_id q);;;
  set_value r OL_NUMBER ol_number;;;
  set_value r OL_I_ID (ol_i_id a);;;
  (if TPCC_SMALL then mret tt else
     set_value r OL_SUPPLY_W_ID (ol_supply_w_id a);;;
     set_value r OL_QUANTITY (ol_quantity a);;;
     set_value r OL_AMOUNT (ol_amount (ol_quantity a) i_price c_discount));;;
  insert_row r;;;
  insert_index I_ORDERLINE (orderlineKey (w_id q) (d_id q) o_id) r (d_to_part (w_id q) (d_id q)).

Definition order_line (q : tpcc_query) (o_id c_discount ol_number : Z) (a : Item_no) : M unit :=
  bind! r_item <- index_read I_ITEM (ol_i_id a) item_part;;
  bind! r_item <- get_row r_item RD_RO;;
  bind! i_price <- get_value r_item I_PRICE;;
  bind! p <- part (ol_supply_w_id a);;
  bind! r_stock <- index_read I_STOCK (stockKey (ol_i_id a) (ol_supply_w_id a)) p;;
  bind! r_stock <- get_row r_stock WR;;
  take_stock r_stock (remote q) (ol_quantity a);;;
  new_orderline_row q o_id ol_number a i_price c_discount.

Fixpoint order_lines (q : tpcc_query) (o_id c_discount ol_number : Z) (l : list Item_no) : M unit :=
  match l with
  | [] => mret tt
  | a :: l => order_line q o_id c_discount ol_number a;;; order_lines q o_id c_discount (ol_number + 1) l
  end.

Definition new_order (q : tpcc_query) : M unit :=
  bind! p <- part (w_id q);;
  bind! r_wh <- index_read I_WAREHOUSE (w_id q) p;;
  bind! _r_wh <- get_row r_wh RD_RO;;
  bind! r_cust <- index_read I_CUSTOMER_ID (custKey (c_id q) (d_id q) (w_id q)) p;;
  bind! r_cust <- get_row r_cust RD_RO;;
  bind! c_discount <- get_value r_cust C_DISCOUNT;;
  bind! r_dist <- index_read I_DISTRICT (distKey (d_id q) (w_id q)) p;;
  bind! r_dist <- get_row r_dist WR;;
  bind! o_id <- get_value r_dist D_NEXT_O_ID;;
  set_value r_dist D_NEXT_O_ID (u64 (o_id + 1));;;
  new_order_row q o_id;;;
  new_neworder_row q o_id;;;
  order_lines q o_id c_discount 0 (items q).

(** *** Order status *)

Fixpoint read_rows (l : list nat) : M unit :=
  match l with
  | [] => mret tt
  | r :: l => bind! _r <- get_row r RD;; read_rows l
  end.

(** The customer id: the row's column, or the query's. *)
Definition order_status (q : tpcc_query) : M unit :=
  bind! c <- (if by_last_name q then
                bind! r <- find_customer true (c_last q) 0 (d_id q) (w_id q);;
                bind! r <- get_row r RD;;
                get_value r C_ID
              else
                bind! r <- find_customer false [] (c_id q) (c_d_id q) (c_w_id q);;
                bind! _r <- get_row r RD;; mret (c_id q));;
  bind! p <- part (c_w_id q);;
  bind! r_order <- index_read I_ORDER_CUST (orderCustKey (d_id q) c) p;;
  bind! r_order <- get_row r_order RD;;
  bind! o_id <- get_value r_order O_ID;;
  let l := index_items I_ORDERLINE (orderlineKey (w_id q) (d_id q) o_id) (d_to_part (w_id q) (d_id q)) in
  match l with
  | [] => mabort
  | _ => read_rows l
  end.

(** *** Delivery *)

(** The lines of an order: their amounts are summed up as doubles. *)
Fixpoint deliver_lines (q : tpcc_query) (l : list nat) (sum : Z) : M Z :=
  match l with
  | [] => mret sum
  | r :: l =>
      bind! r <- get_row r WR;;
      bind! amount <- (if TPCC_SMALL then mret (dbl 0) else
                         set_value r OL_DELIVERY_D (ol_delivery_d q);;; get_value r OL_AMOUNT);;
      deliver_lines q l (dadd sum amount)
  end.

(** One district: the oldest new order, if any. *)
Definition deliver_district (q : tpcc_query) (d : Z) : M unit :=
  bind! p <- part (w_id q);;
  let key := distKey d (w_id q) in
  match last (index_items I_NEWORDER key p) with
  | None => mret tt
  | Some r_no =>
      bind! r_no <- get_row r_no WR;;
      bind! o_id <- get_value r_no NO_O_ID;;
      delete_index I_NEWORDER key p;;;
      bind! r_order <- index_read I_ORDER (orderPrimaryKey (w_id q) d o_id) (d_to_part (w_id q) d);;
      bind! r_order <- get_row r_order WR;;
      bind! c <- get_value r_order O_C_ID;;
      set_value r_order O_CARRIER_ID (o_carrier_id q);;;
      bind! sum <- deliver_lines q
        (index_items I_ORDERLINE (orderlineKey (w_id q) d o_id) (d_to_part (w_id q) d)) (dbl 0);;
      bind! r_cust <- index_read I_CUSTOMER_ID (custKey c d (w_id q)) p;;
      bind! r_cust <- get_row r_cust WR;;
      sub_double r_cust C_BALANCE sum
  end.

Fixpoint deliver_districts (q : tpcc_query) (n : nat) (d : Z) : M unit :=
  match n with
  | O => mret tt
  | S n => deliver_district q d;;; deliver_districts q n (d + 1)
  end.

Definition delivery (q : tpcc_query) : M unit := deliver_districts q (Z.to_nat DIST_PER_WARE) 1.

(** *** Stock level *)

(** At most 15 lines of an order; the array [i_ids] has 300 elements. *)
Fixpoint read_ids (l : list nat) (found : nat) (i_ids : list Z) : M (list Z) :=
  match l, found with
  | r :: l, S found =>
      bind! r <- get_row r RD;;
      mget (assert! (length i_ids <? 300)%nat;; Some tt);;;
      bind! i <- get_value r OL_I_ID;;
      mget (assert! (0 <? i) && (i <=? 100000);; Some tt);;;
      read_ids l found (i_ids ++ [i])
  | _, _ => mret i_ids
  end.

Fixpoint recent_ids (q : tpcc_query) (n : nat) (o : Z) (i_ids : list Z) : M (list Z) :=
  match n with
  | O => mret i_ids
  | S n =>
      match index_items I_ORDERLINE (orderlineKey (w_id q) (d_id q) (u64 o)) (d_to_part (w_id q) (d_id q)) with
      | [] => mget None
      | l => bind! i_ids <- read_ids l 15 i_ids;; recent_ids q n (o + 1) i_ids
      end
  end.

Fixpoint count_low (q : tpcc_query) (l : list Z) (prev result : Z) : M Z :=
  match l with
  | [] => mret result
  | i :: l =>
      if i =? prev then count_low q l prev result
      else
        bind! p <- part (w_id q);;
        bind! r <- index_read I_STOCK (stockKey i (w_id q)) p;;
        bind! r <- get_row r RD;;
        bind! quantity <- get_value r S_QUANTITY;;
        count_low q l i (if quantity <? threshold q then result + 1 else result)
  end.

Definition stock_level (q : tpcc_query) : M Z :=
  bind! p <- part (w_id q);;
  bind! r_dist <- index_read I_DISTRICT (distKey (d_id q) (w_id q)) p;;
  bind! r_dist <- get_row r_dist RD;;
  bind! o_id <- get_value r_dist D_NEXT_O_ID;;
  bind! i_ids <- recent_ids q 20 (o_id - 20) [];;
  count_low q (merge_sort Z.le i_ids) (u64 (-1)) 0.
End txn.

(** ** Finishing *)

(** The index operations of a committed transaction, as [maintain_indexes] applies
    them: a deletion takes the oldest entry away. *)
Definition delete_entry (e : IndexDelete) (ix : index_map) : index_map :=
  <[id_index e := <[(id_pid e, id_key e) := removelast (ix (id_index e) (id_pid e, id_key e))]> (ix (id_index e))]> ix.
Definition insert_entry (e : IndexInsert) (ix : index_map) : index_map :=
  <[ii_index e := <[(ii_pid e, ii_key e) := ii_row e :: ix (ii_index e) (ii_pid e, ii_key e)]> (ix (ii_index e))]> ix.
Definition maintain (b : Buffers) (ix : index_map) : index_map :=
  fold_left (fun ix e => insert_entry e ix) (insert_index_ops b)
    (fold_left (fun ix e => delete_entry e ix) (delete_index_ops b) ix).

Definition start (d : db) : tstate := mkT (db_rows d) [] (db_next d) empty_buffers.

(** [finish]: [commit] is the outcome of the validation. *)
Definition finish {A} (commit : bool) (m : M A) (d : db) : option (RC * db) :=
  match m (start d) with
  | Done _ s =>
      Some (if commit then (RCOK, mkDb (t_rows s) (maintain (t_buf s) (db_index d)) (t_next s) (delivering d))
            else (Abort, d))
  | Aborted => Some (Abort, d)
  | Stuck => None
  end.

Definition set_delivering (w : Z) (b : bool) (d : db) : db :=
  mkDb (db_rows d) (db_index d) (db_next d) (<[w := b]> (delivering d)).

Section run.
Context {tc : TpccConfig} {dd : Doubles}.
Context (g_wh_update TPCC_SMALL : bool) (MAX_WRITE_SET : nat) (item_part : Z).
Context (granted : nat -> bool) (commit : bool).

(** The flag of the warehouse is cleared at the end only. *)
Definition run_delivery (q : tpcc_query) (d : db) : option (RC * db) :=
  if delivering d (w_id q) then finish commit (mret tt) d
  else
    let d := set_delivering (w_id q) true d in
    match delivery TPCC_SMALL MAX_WRITE_SET granted (db_index d) q (start d) with
    | Aborted => Some (Abort, d)
    | _ =>
        do! r <- finish commit (delivery TPCC_SMALL MAX_WRITE_SET granted (db_index d) q) d;;
        Some (r.1, set_delivering (w_id q) false r.2)
    end.

(** The result of [finish] is not returned. *)
Definition run_stock_level (q : tpcc_query) (d : db) : option (RC * db) :=
  match stock_level granted (db_index d) q (start d) with
  | Aborted => Some (Abort, d)
  | _ => do! r <- finish commit (stock_level granted (db_index d) q) d;; Some (RCOK, r.2)
  end.

Definition run_txn (q : tpcc_query) (d : db) : option (RC * db) :=
  match q_type q with
  | TPCC_PAYMENT => finish commit (payment g_wh_update MAX_WRITE_SET granted (db_index d) q) d
  | TPCC_NEW_ORDER => finish commit (new_order TPCC_SMALL MAX_WRITE_SET item_part granted (db_index d) q) d
  | TPCC_ORDER_STATUS => finish commit (order_status granted (db_index d) q) d
  | TPCC_DELIVERY => run_delivery q d
  | TPCC_STOCK_LEVEL => run_stock_level q d
  | TPCC_ALL => None
  end.
End run.
