(* ===== verification/TpccRep.v ===== *)
(** * TPC-C: reasoning about the transactions

    Rules for the bodies of TpccTxn.v, the effect of a commit on the indexes, and the
    relation [rep] between a database and the few numbers that describe it: the money
    that a warehouse and a district took in, the next order id of a district and its
    oldest order that is not delivered. *)

From Stdlib Require Import Ascii.
From stdpp Require Import list functions sorting.
From S2P Require Import Prelude Global Storage IndexPerfect TxnIndex TpccKeys TpccQuery TpccTxn.

(** ** Reasoning about bodies *)

Section wp.
Context (granted : nat -> bool).

(** [wp m Q s]: [m] does not get stuck; it ends in [Q], or aborts because a [get_row]
    is not granted. *)
Definition wp {A} (m : M A) (Q : A -> tstate -> Prop) (s : tstate) : Prop :=
  match m s with Done a s' => Q a s' | Aborted => exists n, granted n = false | Stuck => False end.

Lemma wp_bind {A B} (m : M A) (f : A -> M B) Q s :
  wp m (fun a s' => wp (f a) Q s') s -> wp (mbind m f) Q s.
Proof. unfold wp, mbind. by destruct (m s). Qed.

Lemma wp_mono {A} (m : M A) (P Q : A -> tstate -> Prop) s :
  wp m P s -> (forall a s', P a s' -> Q a s') -> wp m Q s.
Proof. unfold wp. intros H HPQ. destruct (m s); auto. Qed.

Lemma wp_ret {A} (a : A) Q s : Q a s -> wp (mret a) Q s.
Proof. done. Qed.

Lemma wp_get {A} (o : option A) a Q s : o = Some a -> Q a s -> wp (mget o) Q s.
Proof. by intros ->. Qed.

Lemma wp_get_row r type Q s :
  Q r (mkT (t_rows s) (t_accesses s ++ [(r, type)]) (t_next s) (t_buf s)) -> wp (get_row granted r type) Q s.
Proof. unfold wp, get_row. destruct (granted _) eqn:E; [done|]. intros _. by eexists. Qed.

Lemma wp_get_value r col Q s : Q (t_rows s r col) s -> wp (get_value r col) Q s.
Proof. done. Qed.

Lemma wp_set_value r col v Q s :
  Q tt (mkT (<[r := <[col := v]> (t_rows s r)]> (t_rows s)) (t_accesses s) (t_next s) (t_buf s)) ->
  wp (set_value r col v) Q s.
Proof. done. Qed.

Lemma wp_new_row Q s :
  Q (t_next s) (mkT (t_rows s) (t_accesses s) (S (t_next s)) (t_buf s)) -> wp get_new_row Q s.
Proof. done. Qed.

Lemma wp_insert_row MAX r Q s :
  (length (insert_rows (t_buf s)) < MAX)%nat ->
  Q tt (mkT (t_rows s) (t_accesses s) (t_next s)
          (mkBuffers (insert_rows (t_buf s) ++ [r]) (insert_index_ops (t_buf s)) (delete_index_ops (t_buf s)))) ->
  wp (insert_row MAX r) Q s.
Proof.
  intros H HQ. unfold wp, insert_row, buffered, TxnIndex.insert_row. by rewrite (proj2 (Nat.leb_gt _ _)) by done.
Qed.

Lemma wp_insert_index MAX i key r p Q s :
  (length (insert_index_ops (t_buf s)) < MAX)%nat ->
  Q tt (mkT (t_rows s) (t_accesses s) (t_next s)
          (mkBuffers (insert_rows (t_buf s)) (insert_index_ops (t_buf s) ++ [mkInsert i key r (Z.to_nat p) false])
             (delete_index_ops (t_buf s)))) ->
  wp (insert_index MAX i key r p) Q s.
Proof.
  intros H HQ. unfold wp, insert_index, buffered, TxnIndex.insert_index. by rewrite (proj2 (Nat.leb_gt _ _)) by done.
Qed.

Lemma wp_delete_index MAX i key p Q s :
  (length (delete_index_ops (t_buf s)) < MAX)%nat ->
  Q tt (mkT (t_rows s) (t_accesses s) (t_next s)
          (mkBuffers (insert_rows (t_buf s)) (insert_index_ops (t_buf s))
             (delete_index_ops (t_buf s) ++ [mkDelete i key (inr 0%nat) (inr 0%nat) (Z.to_nat p)]))) ->
  wp (delete_index MAX i key p) Q s.
Proof.
  intros H HQ. unfold wp, delete_index, buffered, TxnIndex.delete_index. by rewrite (proj2 (Nat.leb_gt _ _)) by done.
Qed.

Lemma wp_part `{tc : TpccConfig} (tok : TpccConfigOk) w Q s : Q (wpart w) s -> wp (part w) Q s.
Proof. intros H. unfold part. eapply wp_get; [apply wh_to_part_value|done]. Qed.

Lemma wp_index_read ix i key p r l Q s : index_items ix i key p = r :: l -> Q r s -> wp (index_read ix i key p) Q s.
Proof. intros E H. unfold index_read. rewrite E. by eapply wp_get. Qed.

End wp.

(** One step of straight-line code. *)
Ltac wp_step :=
  lazymatch goal with
  | |- wp _ (mbind _ _) _ _ => apply wp_bind
  | |- wp _ (mret _) _ _ => apply wp_ret
  | |- wp _ (get_row _ _ _) _ _ => apply wp_get_row
  | |- wp _ (get_value _ _) _ _ => apply wp_get_value
  | |- wp _ (set_value _ _ _) _ _ => apply wp_set_value
  | |- wp _ get_new_row _ _ => apply wp_new_row
  | |- wp _ (part _) _ _ => apply wp_part; [assumption|]
  end; cbn beta.
Ltac wp_steps := repeat wp_step.

(** ** Rows as a function *)

Notation upd rows r c v := (<[r := <[c := v]> (rows r)]> rows).

Lemma upd_same (rows : nat -> Z -> Z) r c v : upd rows r c v r c = v.
Proof. by rewrite !fn_lookup_insert. Qed.

Lemma upd_other (rows : nat -> Z -> Z) r c v r' c' : r' <> r \/ c' <> c -> upd rows r c v r' c' = rows r' c'.
Proof.
  intros H. destruct (decide (r' = r)) as [->|]; [|by rewrite fn_lookup_insert_ne].
  rewrite fn_lookup_insert. destruct H; [done|]. by rewrite fn_lookup_insert_ne.
Qed.

(** ** The index operations of a commit *)

Lemma insert_entry_lookup e ix i k :
  insert_entry e ix i k =
    if decide (ii_index e = i /\ (ii_pid e, ii_key e) = k) then ii_row e :: ix i k else ix i k.
Proof.
  unfold insert_entry. destruct (decide (ii_index e = i)) as [<-|Hne].
  - rewrite fn_lookup_insert. destruct (decide ((ii_pid e, ii_key e) = k)) as [<-|Hk].
    + by rewrite fn_lookup_insert, decide_True.
    + rewrite fn_lookup_insert_ne by done. rewrite decide_False; [done|]. by intros [_ ?].
  - rewrite fn_lookup_insert_ne by done. rewrite decide_False; [done|]. by intros [? _].
Qed.

Lemma delete_entry_lookup e ix i k :
  delete_entry e ix i k =
    if decide (id_index e = i /\ (id_pid e, id_key e) = k) then removelast (ix i k) else ix i k.
Proof.
  unfold delete_entry. destruct (decide (id_index e = i)) as [<-|Hne].
  - rewrite fn_lookup_insert. destruct (decide ((id_pid e, id_key e) = k)) as [<-|Hk].
    + by rewrite fn_lookup_insert, decide_True.
    + rewrite fn_lookup_insert_ne by done. rewrite decide_False; [done|]. by intros [_ ?].
  - rewrite fn_lookup_insert_ne by done. rewrite decide_False; [done|]. by intros [? _].
Qed.

(** The rows that [es] adds under a key. *)
Definition added (es : list IndexInsert) (i : nat) (k : nat * Z) : list nat :=
  omap (fun e => if decide (ii_index e = i /\ (ii_pid e, ii_key e) = k) then Some (ii_row e) else None) es.

Lemma inserts_lookup es ix i k :
  fold_left (fun ix e => insert_entry e ix) es ix i k = reverse (added es i k) ++ ix i k.
Proof.
  revert ix. induction es as [|e es IH]; intros ix; [done|]. cbn [fold_left]. rewrite IH, insert_entry_lookup.
  unfold added. cbn [omap list_omap]. case_decide; [|done]. rewrite reverse_cons, <- (assoc_L (++)). done.
Qed.

Definition deleted (e : IndexDelete) : nat * (nat * Z) := (id_index e, (id_pid e, id_key e)).

Lemma deletes_lookup es ix i k : NoDup (map deleted es) ->
  fold_left (fun ix e => delete_entry e ix) es ix i k =
    if decide ((i, k) ∈ map deleted es) then removelast (ix i k) else ix i k.
Proof.
  revert ix. induction es as [|e es IH]; intros ix Hnd; [by rewrite decide_False by apply not_elem_of_nil|].
  cbn [fold_left map] in *. apply NoDup_cons in Hnd as [Hnin Hnd]. rewrite IH, delete_entry_lookup by done.
  unfold deleted in Hnin at 1. destruct (decide (id_index e = i /\ (id_pid e, id_key e) = k)) as [[<- <-]|Hne].
  - rewrite decide_False by done. rewrite decide_True; [done|]. by left.
  - destruct (decide ((i, k) ∈ map deleted es)) as [Hin|Hin].
    + rewrite decide_True; [done|]. by right.
    + rewrite decide_False; [done|]. intros [Heq|?]%elem_of_cons; [|done]. unfold deleted in Heq.
      injection Heq as -> ->. by destruct Hne.
Qed.


(** ** The numbers that describe a database *)

Record abs := mkAbs {
  a_wytd : Z -> Z;
  a_dytd : Z -> Z -> Z;
  a_next : Z -> Z -> Z;
  a_first : Z -> Z -> Z }.

(** What a row is: warehouse, district, customer, stock, item, order, new order or
    order line. *)
Inductive kind :=
  | KW (w : Z) | KD (w d : Z) | KC (w d c : Z) | KS (w i : Z) | KI (i : Z)
  | KO (w d o : Z) | KN (w d o : Z) | KL (w d o : Z).

Notation kinds := (nat -> option kind).

(** Kinds of new rows. *)
Definition new_kind (k : kind) : Prop := match k with KO _ _ _ | KN _ _ _ | KL _ _ _ => True | _ => False end.

(** [K'] gives kinds to some rows that had none. *)
Definition ext (K K' : kinds) : Prop :=
  forall r, K' r = K r \/ K r = None /\ exists k, K' r = Some k /\ new_kind k.

Lemma ext_refl K : ext K K.
Proof. intros r. by left. Qed.

Lemma ext_trans K1 K2 K3 : ext K1 K2 -> ext K2 K3 -> ext K1 K3.
Proof.
  intros H12 H23 r. destruct (H23 r) as [->|[H2 H3]]; [apply H12|].
  right. destruct (H12 r) as [<-|[? (? & ? & ?)]]; [done|congruence].
Qed.

Lemma ext_insert K r k : K r = None -> new_kind k -> ext K (<[r := Some k]> K).
Proof.
  intros HK Hk r'. destruct (decide (r' = r)) as [->|]; [|left; by rewrite fn_lookup_insert_ne].
  right. rewrite fn_lookup_insert. eauto.
Qed.

Lemma ext_Some K K' r k : ext K K' -> K r = Some k -> K' r = Some k.
Proof. intros H HK. destruct (H r) as [->|[? _]]; congruence. Qed.

Lemma ext_old K K' r k : ext K K' -> ~ new_kind k -> K' r = Some k -> K r = Some k.
Proof. intros H Hk HK. destruct (H r) as [<-|(_ & k' & ? & ?)]; [done|].
  assert (k' = k) as -> by congruence. done.
Qed.

(** The rows [l] are of the kinds [ks]. *)
Definition rows_are (K : kinds) (l : list nat) (ks : list kind) : Prop := Forall2 (fun r k => K r = Some k) l ks.

Lemma rows_are_ext K K' l ks : ext K K' -> rows_are K l ks -> rows_are K' l ks.
Proof. intros HE H. eapply Forall2_impl; [exact H|]. cbn beta. intros ?? HK. by eapply ext_Some. Qed.

Section rep.
Context {tc : TpccConfig} {dd : Doubles}.
Context (item_part : Z).

(** *** Columns *)

(** What the columns of a row of a kind hold. *)
Definition row_ok (A : abs) (row : Z -> Z) (k : option kind) : Prop :=
  match k with
  | Some (KW w) => row W_YTD = dbl (a_wytd A w)
  | Some (KD w d) => row D_YTD = dbl (a_dytd A w d) /\ row D_NEXT_O_ID = a_next A w d
  | Some (KC w d c) => row C_ID = c
  | Some (KO w d o) => row O_ID = o /\ is_cust (row O_C_ID)
  | Some (KN w d o) => row NO_O_ID = o
  | Some (KL w d o) => is_item (row OL_I_ID)
  | _ => True
  end.

(** The columns that [row_ok] looks at. *)
Definition watched (k : option kind) (c : Z) : bool :=
  match k with
  | Some (KW _) => c =? W_YTD
  | Some (KD _ _) => (c =? D_YTD) || (c =? D_NEXT_O_ID)
  | Some (KC _ _ _) => c =? C_ID
  | Some (KO _ _ _) => (c =? O_ID) || (c =? O_C_ID)
  | Some (KN _ _ _) => c =? NO_O_ID
  | Some (KL _ _ _) => c =? OL_I_ID
  | _ => false
  end.

Lemma row_ok_cells A row row' k :
  row_ok A row k -> (forall c, watched k c = true -> row' c = row c) -> row_ok A row' k.
Proof using Type.
  intros H Hc. destruct k as [[| | | | | | |]|]; cbn [row_ok watched] in *; try done;
    repeat match goal with |- context [row' ?c] => rewrite (Hc c) by done end; done.
Qed.

Definition rows_ok (A : abs) (K : kinds) (rows : nat -> Z -> Z) : Prop := forall r, row_ok A (rows r) (K r).

Lemma rows_free A K rows r c v : rows_ok A K rows -> watched (K r) c = false -> rows_ok A K (upd rows r c v).
Proof using Type.
  intros H Hw r'. eapply row_ok_cells; [apply H|]. intros c' Hc'. apply upd_other.
  destruct (decide (r' = r)) as [->|]; [right|by left]. intros ->. congruence.
Qed.

(** A row gets a kind. *)
Lemma rows_kind A K rows r k : rows_ok A K rows -> row_ok A (rows r) (Some k) -> rows_ok A (<[r := Some k]> K) rows.
Proof using Type.
  intros H Hr r'. destruct (decide (r' = r)) as [->|]; [by rewrite fn_lookup_insert|]. by rewrite fn_lookup_insert_ne.
Qed.

(** *** Indexes *)

Definition wp_of (w : Z) : nat := Z.to_nat (wpart w).
Definition dp_of (w d : Z) : nat := Z.to_nat (d_to_part w d).

(** There is one row of a warehouse and of a district. *)
Definition single (k : kind) : Prop := match k with KW _ | KD _ _ => True | _ => False end.
Definition uniq (K : kinds) : Prop := forall r r' k, single k -> K r = Some k -> K r' = Some k -> r = r'.

(** The indexes that transactions do not change. *)
Record ix_static (ix : index_map) (K : kinds) : Prop := {
  st_uniq : uniq K;
  st_wh w : is_wh w -> exists r, ix I_WAREHOUSE (wp_of w, w) = [r] /\ K r = Some (KW w);
  st_dist w d : is_wh w -> is_dist d ->
    exists r, ix I_DISTRICT (wp_of w, distKey d w) = [r] /\ K r = Some (KD w d);
  st_cust w d c : is_wh w -> is_dist d -> is_cust c ->
    exists r, ix I_CUSTOMER_ID (wp_of w, custKey c d w) = [r] /\ K r = Some (KC w d c);
  st_last w d num name : is_wh w -> is_dist d -> 0 <= num < 1000 -> Lastname num = Some name ->
    ix I_CUSTOMER_LAST (wp_of w, custNPKey name d w) <> [] /\
    forall r, r ∈ ix I_CUSTOMER_LAST (wp_of w, custNPKey name d w) -> exists c, is_cust c /\ K r = Some (KC w d c);
  st_item i : is_item i -> exists r, ix I_ITEM (Z.to_nat item_part, i) = [r] /\ K r = Some (KI i);
  st_stock w i : is_wh w -> is_item i ->
    exists r, ix I_STOCK (wp_of w, stockKey i w) = [r] /\ K r = Some (KS w i) }.

(** The orders that are not delivered, the latest first. *)
Definition open_orders (A : abs) (w d : Z) : list Z :=
  reverse (seqZ (a_first A w d) (a_next A w d - a_first A w d)).

(** The indexes of orders: the orders of a district are those from 1 up to the next
    order id. *)
Record ix_orders (ix : index_map) (A : abs) (K : kinds) : Prop := {
  or_order w d o : is_wh w -> is_dist d -> 0 <= o < 2 ^ 62 ->
    rows_are K (ix I_ORDER (dp_of w d, orderPrimaryKey w d o))
      (if bool_decide (1 <= o < a_next A w d) then [KO w d o] else []);
  or_line w d o : is_wh w -> is_dist d -> 0 <= o < 2 ^ 62 ->
    let l := ix I_ORDERLINE (dp_of w d, orderlineKey w d o) in
    rows_are K l (replicate (length l) (KL w d o)) /\ (length l <= 15)%nat /\ (l <> [] <-> 1 <= o < a_next A w d);
  or_neworder w d : is_wh w -> is_dist d ->
    rows_are K (ix I_NEWORDER (wp_of w, distKey d w)) (map (KN w d) (open_orders A w d));
  or_cust w d c : is_wh w -> is_dist d -> is_cust c ->
    ix I_ORDER_CUST (wp_of w, orderCustKey d c) <> [] /\
    forall r, r ∈ ix I_ORDER_CUST (wp_of w, orderCustKey d c) ->
      exists o, 1 <= o < a_next A w d /\ K r = Some (KO w d o) }.

(** *** The relation *)

Record rep (d : db) (A : abs) (K : kinds) : Prop := {
  rp_fresh r : (db_next d <= r)%nat -> K r = None;
  rp_rows : rows_ok A K (db_rows d);
  rp_static : ix_static (db_index d) K;
  rp_orders : ix_orders (db_index d) A K;
  rp_money w dd : 0 <= a_wytd A w /\ 0 <= a_dytd A w dd;
  rp_counts w dd : is_wh w -> is_dist dd -> 1 <= a_first A w dd <= a_next A w dd /\ 20 < a_next A w dd }.

#[local] Ltac static H :=
  let r := fresh in destruct H as (r & ? & ?); exists r;
  match goal with Hone : forall i k r a, _ |- _ =>
    apply Hone; [unfold I_STOCK, I_WAREHOUSE, I_DISTRICT, I_CUSTOMER_ID, I_ITEM; lia|done|done] end.

Lemma static_ext ix ix' K K' :
  ix_static ix K -> ext K K' -> (forall i k, (i <= I_STOCK)%nat -> ix' i k = ix i k) -> ix_static ix' K'.
Proof using Type.
  intros S E Hix.
  assert (forall i k r a, (i <= I_STOCK)%nat -> ix i k = [r] -> K r = Some a -> ix' i k = [r] /\ K' r = Some a) as Hone.
  { intros i k r a Hi Hk Hr. rewrite Hix by done. split; [done|by eapply ext_Some]. }
  split.
  - intros r r' k Hk H1 H2. apply (st_uniq _ _ S r r' k Hk); eapply ext_old; try done; destruct k; cbn in *; tauto.
  - intros w Hw. static (st_wh _ _ S w Hw).
  - intros w d Hw Hd. static (st_dist _ _ S w d Hw Hd).
  - intros w d c Hw Hd Hc. static (st_cust _ _ S w d c Hw Hd Hc).
  - intros w d num name Hw Hd Hn Hl. destruct (st_last _ _ S w d num name Hw Hd Hn Hl) as [Hne Hall].
    rewrite Hix by (unfold I_STOCK, I_CUSTOMER_LAST; lia). split; [done|]. intros r Hr.
    destruct (Hall r Hr) as (c & ? & ?). exists c. split; [done|by eapply ext_Some].
  - intros i Hi. static (st_item _ _ S i Hi).
  - intros w i Hw Hi. static (st_stock _ _ S w i Hw Hi).
Qed.
End rep.
