(* ===== verification/TpccSpec.v ===== *)
(** * TPC-C: consistency of the database

    What the five transactions of TpccTxn.v do to the numbers of TpccRep.v: a payment
    adds to the money of a warehouse and a district, a new order takes the next order
    id, a delivery takes the oldest open order of every district away.  Every sequence
    of transactions, committed or aborted, keeps the consistency conditions of TPC-C. *)

From Stdlib Require Import Ascii.
From stdpp Require Import list functions sorting.
From S2P Require Import Prelude Global Storage IndexPerfect TxnIndex TpccKeys TpccQuery TpccTxn TpccRep.

(** ** The abstract transactions *)

Definition add_wytd (w h : Z) (A : abs) : abs :=
  mkAbs (<[w := a_wytd A w + h]> (a_wytd A)) (a_dytd A) (a_next A) (a_first A).
Definition add_dytd (w d h : Z) (A : abs) : abs :=
  mkAbs (a_wytd A) (<[w := <[d := a_dytd A w d + h]> (a_dytd A w)]> (a_dytd A)) (a_next A) (a_first A).
Definition take_order (w d : Z) (A : abs) : abs :=
  mkAbs (a_wytd A) (a_dytd A) (<[w := <[d := a_next A w d + 1]> (a_next A w)]> (a_next A)) (a_first A).
(** The open orders of the districts of a warehouse. *)
Definition deliver_first (w : Z) (A : abs) : abs :=
  mkAbs (a_wytd A) (a_dytd A) (a_next A)
    (<[w := fun d => if a_first A w d <? a_next A w d then a_first A w d + 1 else a_first A w d]> (a_first A)).

Section steps.
Context {tc : TpccConfig} {tok : TpccConfigOk} {dd : Doubles}.
Context (granted : nat -> bool) (item_part : Z).

Notation rows_ok := (rows_ok (dd := dd)).

Lemma rows_wytd A K rows r w h :
  rows_ok A K rows -> uniq K -> K r = Some (KW w) ->
  rows_ok (add_wytd w h A) K (upd rows r W_YTD (dbl (a_wytd A w + h))).
Proof using Type.
  intros H U HK r'. specialize (H r'). destruct (decide (r' = r)) as [->|Hne].
  - rewrite HK. cbn. by rewrite !fn_lookup_insert.
  - rewrite fn_lookup_insert_ne by done.
    destruct (K r') as [[w'| | | | | | |]|] eqn:HK'; try done. cbn in *.
    rewrite fn_lookup_insert_ne; [done|]. intros <-. apply Hne. by eapply (U _ _ (KW _)).
Qed.

Lemma rows_dytd A K rows r w d h :
  rows_ok A K rows -> uniq K -> K r = Some (KD w d) ->
  rows_ok (add_dytd w d h A) K (upd rows r D_YTD (dbl (a_dytd A w d + h))).
Proof using Type.
  intros H U HK r'. specialize (H r'). destruct (decide (r' = r)) as [->|Hne].
  - rewrite HK in *. destruct H as [_ H]. cbn. rewrite !fn_lookup_insert. split; [done|].
    by rewrite fn_lookup_insert_ne.
  - rewrite fn_lookup_insert_ne by done.
    destruct (K r') as [[|w' d'| | | | | |]|] eqn:HK'; try done. cbn in *.
    destruct (decide (w' = w)) as [->|]; [|by rewrite fn_lookup_insert_ne]. rewrite fn_lookup_insert.
    rewrite fn_lookup_insert_ne; [done|]. intros <-. apply Hne. by eapply (U _ _ (KD _ _)).
Qed.

Lemma rows_next A K rows r w d :
  rows_ok A K rows -> uniq K -> K r = Some (KD w d) ->
  rows_ok (take_order w d A) K (upd rows r D_NEXT_O_ID (a_next A w d + 1)).
Proof using Type.
  intros H U HK r'. specialize (H r'). destruct (decide (r' = r)) as [->|Hne].
  - rewrite HK in *. destruct H as [H _]. cbn. rewrite !fn_lookup_insert. split; [|done].
    by rewrite fn_lookup_insert_ne.
  - rewrite fn_lookup_insert_ne by done.
    destruct (K r') as [[|w' d'| | | | | |]|] eqn:HK'; try done. cbn in *.
    destruct (decide (w' = w)) as [->|]; [|by rewrite fn_lookup_insert_ne]. rewrite fn_lookup_insert.
    rewrite fn_lookup_insert_ne; [done|]. intros <-. apply Hne. by eapply (U _ _ (KD _ _)).
Qed.

(** ** Payment *)

Lemma mid_loop_spec it cnt mid :
  mid_loop it cnt mid = drop ((cnt + length it) / 2 - cnt / 2) mid.
Proof using Type.
  revert cnt mid. induction it as [|a it IH]; intros cnt mid; cbn [mid_loop length].
  { by rewrite Nat.add_0_r, Nat.sub_diag. }
  rewrite IH. replace (S cnt + length it)%nat with (cnt + S (length it))%nat by lia.
  assert (S cnt / 2 <= (cnt + S (length it)) / 2)%nat as Hle by (apply Nat.Div0.div_le_mono; lia).
  pose proof (Nat.div_mod_eq cnt 2) as H1. pose proof (Nat.div_mod_eq (S cnt) 2) as H2.
  assert (cnt mod 2 < 2)%nat by (apply Nat.mod_upper_bound; lia).
  assert (S cnt mod 2 < 2)%nat by (apply Nat.mod_upper_bound; lia).
  destruct (Nat.even (S cnt)) eqn:E.
  - apply Nat.even_spec in E as [m Hm].
    assert (S cnt / 2 = S (cnt / 2))%nat by lia.
    replace ((cnt + S (length it)) / 2 - cnt / 2)%nat with (S ((cnt + S (length it)) / 2 - S cnt / 2)) by lia.
    destruct mid; [cbn [tail]; by rewrite !drop_nil|done].
  - assert (Nat.odd (S cnt) = true) as Ho by (unfold Nat.odd; by rewrite E). apply Nat.odd_spec in Ho as [m Hm].
    assert (S cnt / 2 = cnt / 2)%nat as -> by lia. done.
Qed.

(** The middle row exists. *)
Lemma mid_loop_head l : l <> [] -> exists r, head (mid_loop l 0 l) = Some r /\ r ∈ l.
Proof using Type.
  intros H. rewrite mid_loop_spec. change (0 / 2)%nat with 0%nat. rewrite Nat.sub_0_r, Nat.add_0_l.
  destruct (lookup_lt_is_Some_2 l (length l / 2)) as [r Hr].
  { destruct l; [done|]. apply Nat.div_lt; cbn [length]; lia. }
  exists r. rewrite (drop_S _ _ _ Hr). split; [done|]. by eapply list_elem_of_lookup_2.
Qed.

Lemma find_customer_wp ix K by_name name c d w Q s :
  ix_static item_part ix K -> is_wh w -> is_dist d -> name_ok by_name name c ->
  (forall r c', is_cust c' -> K r = Some (KC w d c') -> Q r s) ->
  wp granted (find_customer ix by_name name c d w) Q s.
Proof using tok.
  intros I Hw Hd Hn HQ. unfold find_customer. wp_steps. destruct by_name.
  - destruct Hn as (num & Hnum & Hl). destruct (st_last _ _ _ I w d num name) as [Hne Hall]; [done..|].
    unfold index_items. fold (wp_of w). destruct (mid_loop_head _ Hne) as (r & Hr & Hin).
    eapply wp_get; [done|]. destruct (Hall r Hin) as (c' & ? & ?). by eapply HQ.
  - destruct (st_cust _ _ _ I w d c) as (r & Hr & HK); [done..|].
    eapply wp_index_read; [unfold index_items; fold (wp_of w); done|]. by eapply HQ.
Qed.

(** Reading the row of a warehouse, district or customer. *)
Lemma read_wh_wp ix K w Q s : ix_static item_part ix K -> is_wh w ->
  (forall r, K r = Some (KW w) -> Q r s) -> wp granted (index_read ix I_WAREHOUSE w (wpart w)) Q s.
Proof using Type.
  intros I Hw HQ. destruct (st_wh _ _ _ I w Hw) as (r & Hr & HK). eapply wp_index_read; [exact Hr|by apply HQ].
Qed.

Lemma read_dist_wp ix K w d Q s : ix_static item_part ix K -> is_wh w -> is_dist d ->
  (forall r, K r = Some (KD w d) -> Q r s) -> wp granted (index_read ix I_DISTRICT (distKey d w) (wpart w)) Q s.
Proof using Type.
  intros I Hw Hd HQ. destruct (st_dist _ _ _ I w d Hw Hd) as (r & Hr & HK).
  eapply wp_index_read; [exact Hr|by apply HQ].
Qed.

Lemma read_cust_wp ix K w d c Q s : ix_static item_part ix K -> is_wh w -> is_dist d -> is_cust c ->
  (forall r, K r = Some (KC w d c) -> Q r s) ->
  wp granted (index_read ix I_CUSTOMER_ID (custKey c d w) (wpart w)) Q s.
Proof using Type.
  intros I Hw Hd Hc HQ. destruct (st_cust _ _ _ I w d c Hw Hd Hc) as (r & Hr & HK).
  eapply wp_index_read; [exact Hr|by apply HQ].
Qed.

(** A step that writes a column nothing depends on. *)
Lemma wp_set_free A K r c v Q s :
  rows_ok A K (t_rows s) -> watched (K r) c = false ->
  (forall rows, rows_ok A K rows -> Q tt (mkT rows (t_accesses s) (t_next s) (t_buf s))) ->
  wp granted (set_value r c v) Q s.
Proof using Type. intros H Hw HQ. apply wp_set_value, HQ. by apply rows_free. Qed.

(** The outcome of a body that leaves the indexes alone. *)
Definition no_ops (s : tstate) : Prop := insert_index_ops (t_buf s) = [] /\ delete_index_ops (t_buf s) = [].

Lemma new_history_wp MAX q A K s (Q : unit -> tstate -> Prop) :
  (length (insert_rows (t_buf s)) < MAX)%nat ->
  rows_ok A K (t_rows s) -> K (t_next s) = None ->
  (forall s', rows_ok A K (t_rows s') -> t_next s' = S (t_next s) ->
     (no_ops s -> no_ops s') -> Q tt s') ->
  wp granted (new_history MAX q) Q s.
Proof using Type.
  intros Hlen HR HK HQ. unfold new_history. wp_step. wp_step.
  do 7 (apply wp_bind; eapply wp_set_free; [eassumption|cbn [t_rows]; by rewrite HK|clear HR; intros ? HR]).
  apply wp_insert_row; [done|]. apply HQ; done.
Qed.

(** The money that a payment adds. *)
Definition pay (upd_wh : bool) (q : tpcc_query) (A : abs) : abs :=
  add_dytd (w_id q) (d_id q) (h_amount q) (if upd_wh then add_wytd (w_id q) (h_amount q) A else A).

(** The sums stay exact. *)
Definition money_fits (A : abs) : Prop :=
  forall w d, 0 <= a_wytd A w /\ a_wytd A w + 5000 <= 2 ^ 53 /\ 0 <= a_dytd A w d /\ a_dytd A w d + 5000 <= 2 ^ 53.

Lemma add_double_wp r col x v Q s :
  t_rows s r col = dbl x -> 0 <= x -> 0 <= v -> x + v <= 2 ^ 53 ->
  Q tt (mkT (upd (t_rows s) r col (dbl (x + v))) (t_accesses s) (t_next s) (t_buf s)) ->
  wp granted (add_double r col (dbl v)) Q s.
Proof using Type.
  intros Hx ??? HQ. unfold add_double. wp_steps. rewrite Hx, dadd_exact by lia. done.
Qed.

Lemma payment_wp upd_wh MAX ix q A K s :
  (0 < MAX)%nat -> ix_static item_part ix K -> rows_ok A K (t_rows s) -> K (t_next s) = None ->
  money_fits A -> query_ok q -> q_type q = TPCC_PAYMENT ->
  insert_rows (t_buf s) = [] -> no_ops s ->
  wp granted (payment upd_wh MAX granted ix q)
    (fun _ s' => rows_ok (pay upd_wh q A) K (t_rows s') /\ t_next s' = S (t_next s) /\ no_ops s') s.
Proof using tok.
  intros HM I HR HK Hfit [Hw Hq] Ht Hrows Hops. rewrite Ht in Hq.
  destruct Hq as (Hd & Hdw & Hcw & Hcd & Hh & Hn & _). unfold in_range in Hh. unfold payment. wp_step. wp_step.
  wp_step. eapply read_wh_wp; [done..|]. intros r_wh Hwh. wp_step. wp_step. wp_step.
  set (A1 := if upd_wh then add_wytd (w_id q) (h_amount q) A else A).
  match goal with |- wp _ _ ?Q ?s => assert (forall rows, rows_ok A1 K rows ->
    Q tt (mkT rows (t_accesses s) (t_next s) (t_buf s))) as Hrest end; cycle 1.
  { destruct upd_wh; [|apply wp_ret, (Hrest _ HR)]. pose proof (HR r_wh) as Hv. rewrite Hwh in Hv.
    eapply add_double_wp; [exact Hv|apply Hfit; exact 0|lia|pose proof (Hfit (w_id q) 0); lia|].
    apply Hrest. apply rows_wytd; [done|apply I|done]. }
  clear HR. intros rows HR. cbn [t_accesses t_next t_buf].
  wp_step. rewrite Hdw. eapply read_dist_wp; [done..|]. intros r_dist Hdist. wp_step. wp_step. wp_step.
  pose proof (HR r_dist) as Hv. rewrite Hdist in Hv. destruct Hv as [Hv _].
  pose proof (Hfit (w_id q) (d_id q)) as Hm.
  assert (a_dytd A1 = a_dytd A) as E by (unfold A1; by destruct upd_wh). rewrite E in Hv.
  eapply add_double_wp; [exact Hv|lia..|]. rewrite <- E. cbn [t_rows t_accesses t_next t_buf].
  apply (rows_dytd _ _ _ r_dist (w_id q) (d_id q) (h_amount q)) in HR; [|apply I|exact Hdist].
  fold (pay upd_wh q A) in HR. revert HR.
  generalize (upd rows r_dist D_YTD (dbl (a_dytd A1 (w_id q) (d_id q) + h_amount q))). clear rows Hv. intros rows HR.
  wp_step. eapply find_customer_wp; [done..|]. intros r_cust c Hc Hcust. wp_step. wp_step.
  unfold sub_double, add_double.
  do 3 (do 3 wp_step; eapply wp_set_free; [eassumption|cbn [t_rows]; by rewrite Hcust|clear HR; intros ? HR]).
  eapply new_history_wp; [|exact HR|done|]; cbn [t_rows t_accesses t_next t_buf]; [by rewrite Hrows|].
  intros s' ? -> Hno. by auto.
Qed.
(** ** Order status *)

(** Only the accesses differ. *)
Definition same (s s' : tstate) : Prop := t_rows s' = t_rows s /\ t_next s' = t_next s /\ t_buf s' = t_buf s.

Lemma read_rows_wp l s (Q : unit -> tstate -> Prop) :
  (forall s', same s s' -> Q tt s') -> wp granted (read_rows granted l) Q s.
Proof using Type.
  revert s. induction l as [|r l IH]; intros s HQ; cbn [read_rows]; wp_steps; [by apply HQ|].
  apply IH. intros s' (? & ? & ?). by apply HQ.
Qed.

(** The lines of an existing order. *)
Lemma lines_of ix A K w d o : ix_orders ix A K -> is_wh w -> is_dist d -> 1 <= o < a_next A w d -> a_next A w d < 2 ^ 62 ->
  index_items ix I_ORDERLINE (orderlineKey w d o) (d_to_part w d) <> [].
Proof using Type.
  intros O Hw Hd Ho Hn. destruct (or_line _ _ _ O w d o) as (_ & _ & H); [done..|lia|]. by apply H.
Qed.

Lemma order_status_wp ix q A K s :
  ix_static item_part ix K -> ix_orders ix A K -> rows_ok A K (t_rows s) ->
  a_next A (w_id q) (d_id q) < 2 ^ 62 -> query_ok q -> q_type q = TPCC_ORDER_STATUS ->
  wp granted (order_status granted ix q) (fun _ s' => same s s') s.
Proof using tok.
  intros I O HR Hnext [Hw Hq] Ht. rewrite Ht in Hq. destruct Hq as (Hd & Hcw & Hcd & Hn & _). unfold order_status.
  wp_step. match goal with |- wp _ _ ?Q _ => set (QQ := Q) end.
  assert (forall c acc, is_cust c -> QQ c (mkT (t_rows s) acc (t_next s) (t_buf s))) as Hrest; cycle 1.
  { destruct (by_last_name q); wp_step; (eapply find_customer_wp; [done|by rewrite ?Hcw|by rewrite ?Hcd|done|]);
      intros r c Hc Hr; repeat wp_step; apply Hrest.
    - pose proof (HR r) as Hrow. rewrite Hr in Hrow. cbn in Hrow. cbn [t_rows]. by rewrite Hrow.
    - done. }
  intros c acc Hc. unfold QQ. wp_step. wp_step. wp_step. rewrite Hcw. destruct (or_cust _ _ _ O (w_id q) (d_id q) c) as [Hne Hall]; [done..|].
  fold (wp_of (w_id q)) in *. destruct (ix I_ORDER_CUST (wp_of (w_id q), orderCustKey (d_id q) c)) as [|r l] eqn:E; [done|].
  eapply wp_index_read; [exact E|]. destruct (Hall r ltac:(by left)) as (o & Ho & Hr). repeat wp_step.
  cbn [t_rows]. pose proof (HR r) as Hrow. rewrite Hr in Hrow. destruct Hrow as [-> _].
  pose proof (lines_of _ _ _ _ _ _ O Hw Hd Ho Hnext) as Hl.
  destruct (index_items _ _ _ _) as [|r' l']; [done|]. by apply read_rows_wp.
Qed.
(** ** Stock level *)

Lemma same_state_refl s : same s s.
Proof using Type. done. Qed.

Lemma same_state_trans s1 s2 s3 : same s1 s2 -> same s2 s3 -> same s1 s3.
Proof using Type. unfold same. intros (? & ? & ?) (? & ? & ?). split_and!; congruence. Qed.

Lemma read_ids_wp A K l found ids s (Q : list Z -> tstate -> Prop) :
  g_max_items <= 100000 -> rows_ok A K (t_rows s) ->
  (forall r, r ∈ l -> exists w d o, K r = Some (KL w d o)) -> Forall is_item ids -> (length ids + found <= 300)%nat ->
  (forall ids' s', same s s' -> Forall is_item ids' -> (length ids' <= length ids + found)%nat -> Q ids' s') ->
  wp granted (read_ids granted l found ids) Q s.
Proof using Type.
  intros Hmax. revert found ids s. induction l as [|r l IH]; intros found ids s HR Hl Hids Hlen HQ.
  { destruct found; cbn [read_ids]; apply wp_ret, HQ; (done || lia). }
  destruct found as [|found]; cbn [read_ids]; [apply wp_ret, HQ; (done || lia)|].
  wp_step. wp_step. wp_step. rewrite c_assert_true by (apply Nat.ltb_lt; lia). eapply wp_get; [done|].
  wp_step. wp_step. wp_step. cbn [t_rows].
  assert (is_item (t_rows s r OL_I_ID)) as Hi.
  { destruct (Hl r ltac:(by left)) as (w & d & o & Hr). pose proof (HR r) as Hrow. by rewrite Hr in Hrow. }
  rewrite c_assert_true by (unfold is_item in Hi; rewrite andb_true_iff, Z.ltb_lt, Z.leb_le; lia).
  eapply wp_get; [done|]. apply IH; cbn [t_rows]; [done| |apply Forall_app; split; [done|by apply Forall_singleton]| |].
  - intros r' ?. apply Hl. by right.
  - rewrite length_app. cbn. lia.
  - rewrite length_app. cbn [length]. intros ids' s' (? & ? & ?) Hids' ?. apply HQ; [done|done|lia].
Qed.

Lemma recent_ids_wp ix q A K n o ids s (Q : list Z -> tstate -> Prop) :
  g_max_items <= 100000 -> ix_orders ix A K -> is_wh (w_id q) -> is_dist (d_id q) ->
  rows_ok A K (t_rows s) -> Forall is_item ids -> (length ids + n * 15 <= 300)%nat ->
  1 <= o -> o + Z.of_nat n <= a_next A (w_id q) (d_id q) -> a_next A (w_id q) (d_id q) < 2 ^ 62 ->
  (forall ids' s', same s s' -> Forall is_item ids' -> Q ids' s') ->
  wp granted (recent_ids granted ix q n o ids) Q s.
Proof using Type.
  intros Hmax O Hw Hd. revert o ids s. induction n as [|n IH]; intros o ids s HR Hids Hlen Ho Hon Hn HQ; cbn [recent_ids].
  { by apply wp_ret, HQ. }
  rewrite u64_small by (unfold is_u64; lia).
  pose proof (lines_of _ _ _ _ _ o O Hw Hd ltac:(lia) Hn) as Hne.
  destruct (or_line _ _ _ O (w_id q) (d_id q) o Hw Hd ltac:(lia)) as (Hk & _ & _). unfold index_items in *.
  fold (dp_of (w_id q) (d_id q)) in *.
  destruct (ix I_ORDERLINE (dp_of (w_id q) (d_id q), orderlineKey (w_id q) (d_id q) o)) as [|r l]; [done|].
  wp_step. eapply read_ids_wp; [done|exact HR| |done|lia|].
  { intros r' [i Hi]%list_elem_of_lookup. destruct (Forall2_lookup_l _ _ _ _ _ Hk Hi) as (k & Hk' & HK).
    apply lookup_replicate in Hk' as [-> _]. eauto. }
  intros ids' s' Hs Hids' Hlen'. apply IH; [by rewrite (proj1 Hs)|done|lia..|]. intros ids'' s'' Hs' ?.
  apply HQ; [by eapply same_state_trans|done].
Qed.

Lemma count_low_wp ix K q l prev result s (Q : Z -> tstate -> Prop) :
  ix_static item_part ix K -> is_wh (w_id q) -> Forall is_item l ->
  (forall n s', same s s' -> Q n s') -> wp granted (count_low granted ix q l prev result) Q s.
Proof using tok.
  intros I Hw Hl. revert prev result s. induction Hl as [|i l Hi Hl IH]; intros prev result s HQ; cbn [count_low].
  { by apply wp_ret, HQ. }
  case_match; [by apply IH|]. wp_step. wp_step. wp_step.
  destruct (st_stock _ _ _ I (w_id q) i Hw Hi) as (r & Hr & _). eapply wp_index_read; [exact Hr|].
  repeat wp_step. apply IH. intros n s' (? & ? & ?). by apply HQ.
Qed.

Lemma stock_level_wp ix q A K s :
  g_max_items <= 100000 -> ix_static item_part ix K -> ix_orders ix A K -> rows_ok A K (t_rows s) ->
  20 < a_next A (w_id q) (d_id q) < 2 ^ 62 -> query_ok q -> q_type q = TPCC_STOCK_LEVEL ->
  wp granted (stock_level granted ix q) (fun _ s' => same s s') s.
Proof using tok.
  intros Hmax I O HR Hnext [Hw Hq] Ht. rewrite Ht in Hq. destruct Hq as (Hd & _). unfold stock_level.
  wp_step. wp_step. wp_step. eapply read_dist_wp; [done..|]. intros r Hr. do 4 wp_step. cbn [t_rows].
  pose proof (HR r) as Hrow. rewrite Hr in Hrow. destruct Hrow as [_ ->]. wp_step.
  eapply recent_ids_wp; [done|done|done|done|exact HR|done|cbn; lia..|]. intros ids s' Hs Hids.
  eapply count_low_wp; [done|done| |].
  - by rewrite merge_sort_Permutation.
  - intros n s'' (? & ? & ?). destruct Hs as (? & ? & ?). cbn in *. split_and!; congruence.
Qed.
(** ** Delivery *)

Context (TPCC_SMALL : bool) (MAX : nat).

Lemma deliver_lines_wp q A K l sum s (Q : Z -> tstate -> Prop) :
  rows_ok A K (t_rows s) -> (forall r, r ∈ l -> exists w d o, K r = Some (KL w d o)) ->
  (forall v rows acc, rows_ok A K rows -> Q v (mkT rows acc (t_next s) (t_buf s))) ->
  wp granted (deliver_lines TPCC_SMALL granted q l sum) Q s.
Proof using Type.
  revert sum s. induction l as [|r l IH]; intros sum s HR Hl HQ; cbn [deliver_lines].
  { destruct s. by apply wp_ret, HQ. }
  wp_step. wp_step. wp_step.
  match goal with |- wp _ _ ?Q _ => set (QQ := Q) end.
  assert (forall v rows acc, rows_ok A K rows -> QQ v (mkT rows acc (t_next s) (t_buf s))) as Hrest.
  { intros v rows acc HR'. apply IH; [done| |done]. intros r' ?. apply Hl. by right. }
  destruct TPCC_SMALL; wp_step; [by apply Hrest|]. destruct (Hl r ltac:(by left)) as (w & d & o & Hr).
  eapply wp_set_free; [exact HR|by rewrite Hr|]. intros rows HR'. wp_step. by apply Hrest.
Qed.

Definition has_open (A : abs) (w d : Z) : bool := a_first A w d <? a_next A w d.

Lemma open_orders_last A w d : last (open_orders A w d) = if has_open A w d then Some (a_first A w d) else None.
Proof using Type.
  unfold open_orders, has_open. rewrite last_reverse. case_match; b2p.
  - rewrite seqZ_cons by lia. done.
  - rewrite seqZ_nil by lia. done.
Qed.

Lemma rows_are_last K l ks : rows_are K l ks ->
  match last ks with Some k => exists r, last l = Some r /\ K r = Some k | None => last l = None end.
Proof using Type.
  intros H. rewrite !last_lookup, <- (Forall2_length _ _ _ H).
  destruct (ks !! pred (length l)) as [k|] eqn:E.
  - destruct (Forall2_lookup_r _ _ _ _ _ H E) as (r & ? & ?). eauto.
  - apply lookup_ge_None in E. rewrite <- (Forall2_length _ _ _ H) in E. by apply lookup_ge_None.
Qed.

(** The deletions of a delivery. *)
Definition del_op (w d : Z) : IndexDelete := mkDelete I_NEWORDER (distKey d w) (inr 0%nat) (inr 0%nat) (wp_of w).
Fixpoint dels (A : abs) (w : Z) (n : nat) (d : Z) : list IndexDelete :=
  match n with
  | O => []
  | S n => (if has_open A w d then [del_op w d] else []) ++ dels A w n (d + 1)
  end.

Definition add_dels (l : list IndexDelete) (b : Buffers) : Buffers :=
  mkBuffers (insert_rows b) (insert_index_ops b) (delete_index_ops b ++ l).

Lemma deliver_district_wp ix q A K d s (Q : unit -> tstate -> Prop) :
  ix_static item_part ix K -> ix_orders ix A K -> rows_ok A K (t_rows s) -> is_wh (w_id q) -> is_dist d ->
  1 <= a_first A (w_id q) d -> a_next A (w_id q) d < 2 ^ 62 ->
  (length (delete_index_ops (t_buf s)) < MAX)%nat ->
  (forall rows acc, rows_ok A K rows ->
     Q tt (mkT rows acc (t_next s) (add_dels (if has_open A (w_id q) d then [del_op (w_id q) d] else []) (t_buf s)))) ->
  wp granted (deliver_district TPCC_SMALL MAX granted ix q d) Q s.
Proof using tok.
  intros I O HR Hw Hd Hf Hn HM HQ. unfold deliver_district. wp_step. wp_step.
  pose proof (rows_are_last _ _ _ (or_neworder _ _ _ O (w_id q) d Hw Hd)) as Hlast.
  rewrite fmap_last, open_orders_last in Hlast. unfold index_items at 1. fold (wp_of (w_id q)).
  destruct (has_open A (w_id q) d) eqn:Ho; cbn [fmap option_fmap option_map] in Hlast; cycle 1.
  { rewrite Hlast. apply wp_ret. destruct s as [rows acc next [? ? ?]]. specialize (HQ rows acc HR).
    unfold add_dels in HQ. cbn in HQ. by rewrite app_nil_r in HQ. }
  destruct Hlast as (r & -> & Hr). apply Z.ltb_lt in Ho. wp_step. wp_step. do 2 wp_step. cbn [t_rows].
  pose proof (HR r) as Hrow. rewrite Hr in Hrow. cbn in Hrow. rewrite Hrow.
  wp_step. apply wp_delete_index; [done|]. cbn [t_rows t_accesses t_next t_buf].
  wp_step. pose proof (or_order _ _ _ O (w_id q) d (a_first A (w_id q) d) Hw Hd ltac:(lia)) as Hord.
  rewrite bool_decide_true in Hord by lia. apply Forall2_cons_inv_r in Hord as (r' & l' & Hr' & Hnil & E).
  apply Forall2_nil_inv_r in Hnil as ->. eapply wp_index_read; [exact E|].
  do 4 wp_step. cbn [t_rows]. pose proof (HR r') as Hrow'. rewrite Hr' in Hrow'. destruct Hrow' as [_ Hc].
  wp_step. eapply wp_set_free; [exact HR|by rewrite Hr'|]. intros rows HR'. wp_step.
  destruct (or_line _ _ _ O (w_id q) d (a_first A (w_id q) d) Hw Hd ltac:(lia)) as (Hl & _ & _).
  eapply deliver_lines_wp; [exact HR'| |].
  { intros x [i Hi]%list_elem_of_lookup. destruct (Forall2_lookup_l _ _ _ _ _ Hl Hi) as (k & Hk' & HK).
    apply lookup_replicate in Hk' as [-> _]. eauto. }
  intros sum rows2 acc HR2. wp_step. eapply read_cust_wp; [done..|]. intros r_cust Hcust.
  wp_step. wp_step. unfold sub_double. wp_step. wp_step. eapply wp_set_free; [exact HR2|by rewrite Hcust|].
  intros rows3 HR3. apply HQ. done.
Qed.
Lemma add_dels_app l l' b : add_dels l' (add_dels l b) = add_dels (l ++ l') b.
Proof using Type. unfold add_dels. cbn. by rewrite (assoc_L (++)). Qed.

Lemma deliver_districts_wp ix q A K n d s (Q : unit -> tstate -> Prop) :
  ix_static item_part ix K -> ix_orders ix A K -> rows_ok A K (t_rows s) -> is_wh (w_id q) ->
  1 <= d -> d + Z.of_nat n <= DIST_PER_WARE + 1 ->
  (forall d', is_dist d' -> 1 <= a_first A (w_id q) d' /\ a_next A (w_id q) d' < 2 ^ 62) ->
  (length (delete_index_ops (t_buf s)) + n <= MAX)%nat ->
  (forall rows acc, rows_ok A K rows ->
     Q tt (mkT rows acc (t_next s) (add_dels (dels A (w_id q) n d) (t_buf s)))) ->
  wp granted (deliver_districts TPCC_SMALL MAX granted ix q n d) Q s.
Proof using tok.
  intros I O. revert d s. induction n as [|n IH]; intros d s HR Hw Hd Hdn HA HM HQ; cbn [deliver_districts dels].
  { apply wp_ret. destruct s as [rows acc next [? ? ?]]. specialize (HQ rows acc HR).
    unfold add_dels in HQ. cbn in HQ. by rewrite app_nil_r in HQ. }
  assert (is_dist d) as Hdist by (unfold is_dist; lia). destruct (HA d Hdist).
  wp_step. eapply deliver_district_wp; [done|done|exact HR|done|done|done|done|lia|].
  intros rows acc HR'. apply IH; [done|done|lia|lia|done| |].
  - cbn. rewrite length_app. destruct (has_open _ _ _); cbn; lia.
  - intros rows' acc' HR''. cbn [t_next t_buf]. rewrite add_dels_app. by apply HQ.
Qed.

Lemma dels_deleted A w n d i k :
  (i, k) ∈ map deleted (dels A w n d) <->
  i = I_NEWORDER /\ exists d', d <= d' < d + Z.of_nat n /\ k = (wp_of w, distKey d' w) /\ has_open A w d' = true.
Proof using Type.
  revert d. induction n as [|n IH]; intros d; cbn [dels].
  { split; [by intros ?%not_elem_of_nil|]. intros (_ & d' & ? & _). lia. }
  rewrite map_app, elem_of_app, IH. split.
  - intros [Hd|(-> & d' & ? & Hk)].
    + destruct (has_open A w d) eqn:E; [|by apply not_elem_of_nil in Hd]. apply list_elem_of_singleton in Hd.
      injection Hd as -> ->. split; [done|]. exists d. split_and!; [lia|lia|done|done].
    + split; [done|]. exists d'. split; [lia|done].
  - intros (-> & d' & Hd' & -> & Hop). destruct (decide (d' = d)) as [->|].
    + left. rewrite Hop. by left.
    + right. split; [done|]. exists d'. split_and!; [lia|lia|done|done].
Qed.

Lemma dels_nodup A w n d : is_wh w -> 1 <= d -> d + Z.of_nat n <= DIST_PER_WARE + 1 ->
  NoDup (map deleted (dels A w n d)).
Proof using tok.
  intros Hw. revert d. induction n as [|n IH]; intros d Hd Hn; cbn [dels]; [by apply NoDup_nil|].
  rewrite map_app. destruct (has_open A w d); cbn [map app]; [|apply IH; lia].
  apply NoDup_cons. split; [|apply IH; lia]. unfold deleted at 1. cbn. rewrite dels_deleted.
  intros (_ & d' & Hd' & [= Hk] & _). apply distKey_inj in Hk as [_ ?]; [lia|done|done|unfold is_dist; lia..].
Qed.
Lemma removelast_take {A} (l : list A) : removelast l = take (pred (length l)) l.
Proof using Type. apply removelast_firstn_len. Qed.

Lemma open_orders_deliver A w d : has_open A w d = true ->
  open_orders (deliver_first w A) w d = removelast (open_orders A w d).
Proof using Type.
  unfold open_orders, deliver_first, has_open. cbn. intros Ho. rewrite fn_lookup_insert, Ho. apply Z.ltb_lt in Ho.
  rewrite (seqZ_cons (a_first A w d)) by lia. rewrite reverse_cons, removelast_last. do 2 f_equal; lia.
Qed.

Definition deliver_ops (A : abs) (w : Z) : list IndexDelete := dels A w (Z.to_nat DIST_PER_WARE) 1.

Lemma deliver_lookup A w ix i k b : is_wh w -> insert_index_ops b = [] -> delete_index_ops b = deliver_ops A w ->
  maintain b ix i k = if decide ((i, k) ∈ map deleted (deliver_ops A w)) then removelast (ix i k) else ix i k.
Proof using tok.
  intros Hw Hi Hd. unfold maintain. rewrite Hi, Hd. cbn [fold_left]. apply deletes_lookup, dels_nodup; [done|lia|].
  pose proof dist_ok. lia.
Qed.

Lemma deliver_other A w ix i k b : is_wh w -> insert_index_ops b = [] -> delete_index_ops b = deliver_ops A w ->
  i <> I_NEWORDER -> maintain b ix i k = ix i k.
Proof using tok.
  intros Hw Hi Hd Hne. rewrite (deliver_lookup A w) by done. rewrite decide_False; [done|].
  unfold deliver_ops. rewrite dels_deleted. by intros [? _].
Qed.

Lemma orders_deliver A w ix K b :
  is_wh w -> insert_index_ops b = [] -> delete_index_ops b = deliver_ops A w ->
  ix_orders ix A K -> ix_orders (maintain b ix) (deliver_first w A) K.
Proof using tok.
  intros Hw Hi Hdel O. split.
  - intros w' d o Hw' Hd Ho. rewrite (deliver_other A w) by done. by apply O.
  - intros w' d o Hw' Hd Ho. rewrite (deliver_other A w) by done. by apply O.
  - intros w' d Hw' Hd. rewrite (deliver_lookup A w) by done. pose proof (or_neworder _ _ _ O w' d Hw' Hd) as HO.
    pose proof dist_ok as Hdist. unfold is_dist in Hd. case_decide as Hin; unfold deliver_ops in Hin; rewrite dels_deleted in Hin.
    + destruct Hin as (_ & d' & Hd' & [= _ Hk] & Hop).
      apply distKey_inj in Hk as [-> ->]; [|done|done|unfold is_dist; lia..].
      rewrite open_orders_deliver by done. unfold rows_are. rewrite !removelast_take, <- firstn_map.
      rewrite <- (length_map (KN w d') (open_orders A w d')), <- (Forall2_length _ _ _ HO). by apply Forall2_take.
    + destruct (decide (w' = w)) as [->|Hne]; cycle 1.
      { unfold open_orders, deliver_first. cbn. by rewrite fn_lookup_insert_ne. }
      destruct (has_open A w d) eqn:E.
      { destruct Hin. split; [done|]. exists d. split_and!; [lia|lia|done|done]. }
      unfold open_orders, deliver_first. cbn. rewrite fn_lookup_insert. unfold has_open in E. by rewrite E.
  - intros w' d c Hw' Hd Hc. rewrite (deliver_other A w) by done. by apply O.
Qed.
(** ** New order *)

Definition fresh (K : kinds) (n : nat) : Prop := forall r, (n <= r)%nat -> K r = None.

Lemma fresh_insert K n k : fresh K n -> fresh (<[n := Some k]> K) (S n).
Proof using Type. intros H r Hr. rewrite fn_lookup_insert_ne by lia. apply H. lia. Qed.

(** A new row and its index operations. *)
Definition add_ins (r : nat) (es : list IndexInsert) (b : Buffers) : Buffers :=
  mkBuffers (insert_rows b ++ [r]) (insert_index_ops b ++ es) (delete_index_ops b).

Definition order_ins (w d o c : Z) (r : nat) : list IndexInsert :=
  [mkInsert I_ORDER (orderPrimaryKey w d o) r (dp_of w d) false;
   mkInsert I_ORDER_CUST (orderCustKey d c) r (wp_of w) false].
Definition neworder_ins (w d : Z) (r : nat) : list IndexInsert :=
  [mkInsert I_NEWORDER (distKey d w) r (wp_of w) false].
Definition line_ins (w d o : Z) (r : nat) : IndexInsert :=
  mkInsert I_ORDERLINE (orderlineKey w d o) r (dp_of w d) false.

Lemma new_order_row_wp q o A K s (Q : unit -> tstate -> Prop) :
  rows_ok A K (t_rows s) -> K (t_next s) = None -> is_cust (c_id q) ->
  (length (insert_rows (t_buf s)) < MAX)%nat -> (length (insert_index_ops (t_buf s)) + 1 < MAX)%nat ->
  (forall rows, rows_ok A (<[t_next s := Some (KO (w_id q) (d_id q) o)]> K) rows ->
     Q tt (mkT rows (t_accesses s) (S (t_next s))
             (add_ins (t_next s) (order_ins (w_id q) (d_id q) o (c_id q) (t_next s)) (t_buf s)))) ->
  wp granted (new_order_row MAX q o) Q s.
Proof using tok.
  intros HR HK Hc Hr Hi HQ. unfold new_order_row. do 6 wp_step. cbn [t_rows t_accesses t_next t_buf].
  set (rows := upd (upd (t_rows s) (t_next s) O_ID o) (t_next s) O_C_ID (c_id q)).
  assert (rows_ok A (<[t_next s := Some (KO (w_id q) (d_id q) o)]> K) rows) as HR'.
  { apply rows_kind.
    - unfold rows. apply rows_free; [apply rows_free; [done|by rewrite HK]|by rewrite HK].
    - cbn. unfold rows. split; [rewrite upd_other by (right; done); apply upd_same|by rewrite upd_same]. }
  clearbody rows. clear HR.
  do 5 (apply wp_bind; eapply wp_set_free; [eassumption|by rewrite fn_lookup_insert|clear HR'; intros ? HR']).
  wp_step. apply wp_insert_row; [done|]. wp_step. apply wp_insert_index; [cbn; lia|].
  wp_step. wp_step. apply wp_insert_index; [cbn; rewrite length_app; cbn; lia|]. cbn [t_rows t_accesses t_next t_buf].
  specialize (HQ _ HR'). unfold add_ins, order_ins in HQ. cbn in *. by rewrite <- (assoc_L (++)).
Qed.
Lemma new_neworder_row_wp q o A K s (Q : unit -> tstate -> Prop) :
  rows_ok A K (t_rows s) -> K (t_next s) = None ->
  (length (insert_rows (t_buf s)) < MAX)%nat -> (length (insert_index_ops (t_buf s)) < MAX)%nat ->
  (forall rows, rows_ok A (<[t_next s := Some (KN (w_id q) (d_id q) o)]> K) rows ->
     Q tt (mkT rows (t_accesses s) (S (t_next s))
             (add_ins (t_next s) (neworder_ins (w_id q) (d_id q) (t_next s)) (t_buf s)))) ->
  wp granted (new_neworder_row MAX q o) Q s.
Proof using tok.
  intros HR HK Hr Hi HQ. unfold new_neworder_row. do 4 wp_step. cbn [t_rows t_accesses t_next t_buf].
  assert (rows_ok A (<[t_next s := Some (KN (w_id q) (d_id q) o)]> K) (upd (t_rows s) (t_next s) NO_O_ID o)) as HR'.
  { apply rows_kind; [apply rows_free; [done|by rewrite HK]|cbn; by rewrite upd_same]. }
  revert HR'. generalize (upd (t_rows s) (t_next s) NO_O_ID o). clear HR. intros rows HR.
  do 2 (apply wp_bind; eapply wp_set_free; [eassumption|by rewrite fn_lookup_insert|clear HR; intros ? HR]).
  wp_step. apply wp_insert_row; [done|]. wp_step. wp_step. apply wp_insert_index; [done|]. by apply HQ.
Qed.

Lemma take_stock_wp A K r rem quantity s (Q : unit -> tstate -> Prop) w i :
  rows_ok A K (t_rows s) -> K r = Some (KS w i) ->
  (forall rows, rows_ok A K rows -> Q tt (mkT rows (t_accesses s) (t_next s) (t_buf s))) ->
  wp granted (take_stock TPCC_SMALL r rem quantity) Q s.
Proof using Type.
  intros HR Hr HQ. unfold take_stock. wp_step. wp_step. wp_step.
  match goal with |- wp _ _ ?Q _ => set (Q1 := Q) end.
  assert (forall rows, rows_ok A K rows -> Q1 tt (mkT rows (t_accesses s) (t_next s) (t_buf s))) as H1.
  { intros rows HR1. unfold Q1. wp_step. match goal with |- wp _ _ ?Q _ => set (Q2 := Q) end.
    assert (forall rows, rows_ok A K rows -> Q2 tt (mkT rows (t_accesses s) (t_next s) (t_buf s))) as H2.
    { intros rows2 HR2. eapply wp_set_free; [exact HR2|by rewrite Hr|]. intros rows3 HR3. by apply HQ. }
    destruct rem; [|by apply wp_ret, H2]. wp_step. wp_step.
    eapply wp_set_free; [exact HR1|by rewrite Hr|]. intros rows2 HR2. by apply H2. }
  destruct TPCC_SMALL; [destruct s; by apply wp_ret, H1|]. wp_step. wp_step. wp_step.
  eapply wp_set_free; [exact HR|by rewrite Hr|]. intros rows HR1. wp_step. wp_step.
  eapply wp_set_free; [exact HR1|by rewrite Hr|]. intros rows2 HR2. by apply H1.
Qed.

Lemma new_orderline_row_wp q o num a price disc A K s (Q : unit -> tstate -> Prop) :
  rows_ok A K (t_rows s) -> K (t_next s) = None -> is_item (ol_i_id a) ->
  (length (insert_rows (t_buf s)) < MAX)%nat -> (length (insert_index_ops (t_buf s)) < MAX)%nat ->
  (forall rows, rows_ok A (<[t_next s := Some (KL (w_id q) (d_id q) o)]> K) rows ->
     Q tt (mkT rows (t_accesses s) (S (t_next s))
             (add_ins (t_next s) [line_ins (w_id q) (d_id q) o (t_next s)] (t_buf s)))) ->
  wp granted (new_orderline_row TPCC_SMALL MAX q o num a price disc) Q s.
Proof using Type.
  intros HR HK Ha Hr Hi HQ. unfold new_orderline_row. do 2 wp_step.
  do 4 (apply wp_bind; eapply wp_set_free; [eassumption|cbn [t_rows]; by rewrite HK|clear HR; intros ? HR]).
  wp_step. wp_step. cbn [t_rows t_accesses t_next t_buf].
  match type of HR with rows_ok _ _ ?R => rename R into rw end.
  assert (rows_ok A (<[t_next s := Some (KL (w_id q) (d_id q) o)]> K) (upd rw (t_next s) OL_I_ID (ol_i_id a))) as HR'.
  { apply rows_kind; [apply rows_free; [done|by rewrite HK]|cbn; by rewrite upd_same]. }
  revert HR'. generalize (upd rw (t_next s) OL_I_ID (ol_i_id a)). clear HR. intros rw' HR. wp_step.
  match goal with |- wp _ _ ?Q _ => set (QQ := Q) end.
  assert (forall rows, rows_ok A (<[t_next s := Some (KL (w_id q) (d_id q) o)]> K) rows ->
    QQ tt (mkT rows (t_accesses s) (S (t_next s)) (t_buf s))) as Hrest.
  { clear HR. intros rows' HR. unfold QQ. wp_step. apply wp_insert_row; [done|]. apply wp_insert_index; [done|]. by apply HQ. }
  clearbody QQ. destruct TPCC_SMALL; [by apply wp_ret, Hrest|].
  do 2 (apply wp_bind; eapply wp_set_free; [eassumption|by rewrite fn_lookup_insert|clear HR; intros ? HR]).
  eapply wp_set_free; [eassumption|by rewrite fn_lookup_insert|]. intros ? HR3. by apply Hrest.
Qed.
(** The rows [rs] are the lines that the loop adds. *)
Definition lines_added (w d o : Z) (n : nat) (A : abs) (K : kinds) (s s' : tstate) : Prop :=
  exists rs K', length rs = n /\ ext K K' /\ rows_ok A K' (t_rows s') /\ fresh K' (t_next s') /\
    rows_are K' rs (replicate n (KL w d o)) /\
    insert_index_ops (t_buf s') = insert_index_ops (t_buf s) ++ map (line_ins w d o) rs /\
    delete_index_ops (t_buf s') = delete_index_ops (t_buf s).

Lemma order_lines_wp ix q o disc A l : forall num K s (Q : unit -> tstate -> Prop),
  ix_static item_part ix K -> rows_ok A K (t_rows s) -> fresh K (t_next s) ->
  Forall (item_ok (w_id q) (remote q)) l ->
  (length (insert_rows (t_buf s)) + length l <= MAX)%nat ->
  (length (insert_index_ops (t_buf s)) + length l <= MAX)%nat ->
  (forall s', lines_added (w_id q) (d_id q) o (length l) A K s s' -> Q tt s') ->
  wp granted (order_lines TPCC_SMALL MAX item_part granted ix q o disc num l) Q s.
Proof using tok.
  induction l as [|a l IH]; intros num K s Q I HR HF Hl Hr Hi HQ; cbn [order_lines length] in *.
  { apply wp_ret, HQ. exists [], K. split_and!; try done; [apply ext_refl|constructor|by rewrite app_nil_r]. }
  apply Forall_cons in Hl as [(Ha & Hs & _) Hl]. wp_step. unfold order_line.
  wp_step. destruct (st_item _ _ _ I _ Ha) as (ri & Hri & _). eapply wp_index_read; [exact Hri|].
  do 6 wp_step. destruct (st_stock _ _ _ I (ol_supply_w_id a) (ol_i_id a) Hs Ha) as (rs & Hrs & HKs).
  wp_step. eapply wp_index_read; [exact Hrs|]. wp_step. wp_step. wp_step. cbn [t_rows].
  eapply take_stock_wp; [exact HR|done|]. intros rows HR1. cbn [t_accesses t_next t_buf].
  eapply new_orderline_row_wp; [exact HR1|apply HF; cbn; lia|done|cbn; lia|cbn; lia|].
  intros rows2 HR2. cbn [t_accesses t_next t_buf] in *.
  set (K1 := <[t_next s := Some (KL (w_id q) (d_id q) o)]> K) in *.
  assert (ext K K1) as HE by (apply ext_insert; [apply HF; lia|done]).
  apply (IH _ K1); cbn [t_rows t_next t_buf insert_rows insert_index_ops add_ins]; try done.
  { eapply static_ext; [exact I|done|done]. }
  { by apply fresh_insert. }
  { rewrite length_app. cbn. lia. }
  { rewrite length_app. cbn. lia. }
  intros s' (rs' & K' & Hlen & HE' & HR' & HF' & Hrs' & Hins & Hdels). apply HQ.
  exists (t_next s :: rs'), K'. split_and!; [cbn; lia|by eapply ext_trans|done|done| |rewrite Hins; cbn; by rewrite <- (assoc_L (++))|done].
  constructor; [|done]. eapply ext_Some; [done|]. unfold K1. by rewrite fn_lookup_insert.
Qed.

(** All index operations of a new order. *)
Definition new_order_ops (w d o c : Z) (r : nat) (rs : list nat) : list IndexInsert :=
  order_ins w d o c r ++ neworder_ins w d (S r) ++ map (line_ins w d o) rs.

Definition order_added (q : tpcc_query) (A : abs) (K : kinds) (s s' : tstate) : Prop :=
  exists rs K', let w := w_id q in let d := d_id q in let o := a_next A w d in let r := t_next s in
    length rs = length (items q) /\ ext K K' /\ rows_ok (take_order w d A) K' (t_rows s') /\ fresh K' (t_next s') /\
    K' r = Some (KO w d o) /\ K' (S r) = Some (KN w d o) /\ rows_are K' rs (replicate (length (items q)) (KL w d o)) /\
    insert_index_ops (t_buf s') = new_order_ops w d o (c_id q) r rs /\ delete_index_ops (t_buf s') = [].

Lemma new_order_wp ix q A K s :
  (18 <= MAX)%nat -> ix_static item_part ix K -> rows_ok A K (t_rows s) -> fresh K (t_next s) ->
  0 <= a_next A (w_id q) (d_id q) < 2 ^ 62 - 1 -> query_ok q -> q_type q = TPCC_NEW_ORDER ->
  t_buf s = empty_buffers ->
  wp granted (new_order TPCC_SMALL MAX item_part granted ix q) (fun _ s' => order_added q A K s s') s.
Proof using tok.
  intros HM I HR HF Hn [Hw Hq] Ht Hb. rewrite Ht in Hq. destruct Hq as (Hd & Hc & Hcnt & H15 & _ & Hitems & _).
  unfold in_range in H15. unfold new_order. wp_step. wp_step.
  wp_step. eapply read_wh_wp; [done..|]. intros r_wh _. wp_step. wp_step.
  wp_step. eapply read_cust_wp; [done..|]. intros r_cust _. do 4 wp_step.
  wp_step. eapply read_dist_wp; [done..|]. intros r_dist Hr. do 4 wp_step. cbn [t_rows].
  pose proof (HR r_dist) as Hrow. rewrite Hr in Hrow. destruct Hrow as [_ ->].
  rewrite u64_small by (unfold is_u64; lia). wp_step. wp_step. cbn [t_rows t_accesses t_next t_buf].
  apply (rows_next _ _ _ r_dist (w_id q) (d_id q)) in HR; [|apply I|exact Hr].
  set (o := a_next A (w_id q) (d_id q)) in *. wp_step.
  eapply new_order_row_wp; [exact HR|apply HF; cbn; lia|done|cbn; rewrite Hb; cbn; lia..|].
  clear HR. intros rows HR. cbn [t_rows t_accesses t_next t_buf] in *. wp_step.
  eapply new_neworder_row_wp; [exact HR| |cbn; rewrite Hb; cbn; lia..|].
  { cbn. rewrite fn_lookup_insert_ne by lia. apply HF. lia. }
  clear HR. intros rows2 HR. cbn [t_rows t_accesses t_next t_buf] in *.
  match type of HR with TpccRep.rows_ok _ ?X _ => set (K1 := X) in * end.
  assert (ext K K1) as HE.
  { eapply ext_trans; apply ext_insert; [apply HF; lia|done| |done]. rewrite fn_lookup_insert_ne by lia. apply HF. lia. }
  eapply order_lines_wp; [|exact HR| |done| | |].
  { eapply static_ext; [exact I|done|done]. }
  { by apply fresh_insert, fresh_insert. }
  { cbn. rewrite Hb. cbn. lia. }
  { cbn. rewrite Hb. cbn. lia. }
  intros s' (rs & K' & Hlen & HE' & HR' & HF' & Hrs & Hins & Hdels). exists rs, K'. cbn [t_buf] in *.
  rewrite Hb in *. cbn in Hins, Hdels. fold o. split_and!; try done; [by eapply ext_trans| |]; (eapply ext_Some; [done|]).
  - unfold K1. rewrite fn_lookup_insert_ne by lia. by rewrite fn_lookup_insert.
  - unfold K1. by rewrite fn_lookup_insert.
Qed.
Lemma added_app es es' i k : added (es ++ es') i k = added es i k ++ added es' i k.
Proof using Type. apply omap_app. Qed.

Lemma added_one e i k :
  added [e] i k = if decide (ii_index e = i /\ (ii_pid e, ii_key e) = k) then [ii_row e] else [].
Proof using Type. unfold added. cbn. by case_decide. Qed.

Lemma added_lines w d o rs i k :
  added (map (line_ins w d o) rs) i k = if decide (I_ORDERLINE = i /\ (dp_of w d, orderlineKey w d o) = k) then rs else [].
Proof using Type.
  induction rs as [|r rs IH]; [by case_decide|]. change (map _ (r :: rs)) with ([line_ins w d o r] ++ map (line_ins w d o) rs).
  rewrite added_app, added_one, IH. cbn. by case_decide.
Qed.

Lemma new_order_lookup w d o c r rs ix i k b :
  insert_index_ops b = new_order_ops w d o c r rs -> delete_index_ops b = [] ->
  maintain b ix i k =
    reverse ((if decide (I_ORDER = i /\ (dp_of w d, orderPrimaryKey w d o) = k) then [r] else []) ++
             (if decide (I_ORDER_CUST = i /\ (wp_of w, orderCustKey d c) = k) then [r] else []) ++
             (if decide (I_NEWORDER = i /\ (wp_of w, distKey d w) = k) then [S r] else []) ++
             (if decide (I_ORDERLINE = i /\ (dp_of w d, orderlineKey w d o) = k) then rs else [])) ++ ix i k.
Proof using Type.
  intros Hi Hd. unfold maintain. rewrite Hi, Hd. cbn [fold_left]. rewrite inserts_lookup.
  unfold new_order_ops, order_ins, neworder_ins.
  change ([?a; ?b] ++ ?l) with ([a] ++ [b] ++ l). rewrite !added_app, !added_one, added_lines. done.
Qed.

End steps.

(** *** The indexes of orders after a new order *)

Section order_keys.
Context {tc : TpccConfig} {tok : TpccConfigOk}.

Lemma order_key_eq w d o w' d' o' :
  is_wh w -> is_dist d -> 0 <= o < 2 ^ 62 -> is_wh w' -> is_dist d' -> 0 <= o' < 2 ^ 62 ->
  (dp_of w d, orderlineKey w d o) = (dp_of w' d', orderlineKey w' d' o') -> w = w' /\ d = d' /\ o = o'.
Proof using tok.
  intros Hw Hd Ho Hw' Hd' Ho' [= Hp Hk]. apply orderlineKey_inj; try done. unfold dp_of in Hp.
  rewrite !d_to_part_value in * by done. unfold is_wh, is_dist in *. nia.
Qed.

Lemma wp_of_inj w w' : g_part_cnt = g_num_wh -> is_wh w -> is_wh w' -> wp_of w = wp_of w' -> w = w'.
Proof using tok.
  intros Hparts Hw Hw' Hp. unfold wp_of, wpart in Hp. rewrite Hparts in Hp. pose proof wh_ok. unfold is_wh in *.
  assert (0 < g_num_wh) as Hpos by lia. pose proof (Z.mod_pos_bound w _ Hpos). pose proof (Z.mod_pos_bound w' _ Hpos).
  apply Z2Nat.inj in Hp; [|lia..]. destruct (decide (w = g_num_wh)) as [->|]; destruct (decide (w' = g_num_wh)) as [->|];
    rewrite ?Z_mod_same_full, ?(Z.mod_small w), ?(Z.mod_small w') in Hp by lia; lia.
Qed.
End order_keys.

Lemma next_take A w d w' d' :
  a_next (take_order w d A) w' d' = if decide (w' = w /\ d' = d) then a_next A w d + 1 else a_next A w' d'.
Proof.
  cbn. destruct (decide (w' = w)) as [->|Hww]; cycle 1.
  { rewrite fn_lookup_insert_ne by done. rewrite decide_False; [done|by intros [? _]]. }
  rewrite fn_lookup_insert. destruct (decide (d' = d)) as [->|]; [by rewrite fn_lookup_insert, decide_True|].
  rewrite fn_lookup_insert_ne by done. rewrite decide_False; [done|by intros [_ ?]].
Qed.

Section orders_new.
Context {tc : TpccConfig} {tok : TpccConfigOk}.
Context (Hparts : g_part_cnt = g_num_wh).
Context (w d c o : Z) (A : abs) (K K' : kinds) (ix : index_map) (b : Buffers) (r : nat) (rs : list nat).
Context (Heq : a_next A w d = o) (Hw : is_wh w) (Hd : is_dist d) (Hc : is_cust c) (Ho : 1 <= o < 2 ^ 62 - 1).
Context (Hfo : a_first A w d <= o) (Hlen : (length rs <= 15)%nat) (Hne : rs <> []).
Context (Hins : insert_index_ops b = new_order_ops w d o c r rs) (Hdels : delete_index_ops b = []).
Context (HE : ext K K') (HO : K' r = Some (KO w d o)) (HN : K' (S r) = Some (KN w d o)).
Context (HL : rows_are K' rs (replicate (length rs) (KL w d o))) (O : ix_orders ix A K).

(** The entries of one index. *)
#[local] Ltac entries :=
  rewrite (new_order_lookup _ _ _ _ _ _ _ _ _ _ Hins Hdels);
  try rewrite (decide_False (P := I_ORDER = _ /\ _)) by (by intros [? _]);
  try rewrite (decide_False (P := I_ORDER_CUST = _ /\ _)) by (by intros [? _]);
  try rewrite (decide_False (P := I_NEWORDER = _ /\ _)) by (by intros [? _]);
  try rewrite (decide_False (P := I_ORDERLINE = _ /\ _)) by (by intros [? _]);
  rewrite ?app_nil_l, ?app_nil_r.

Lemma new_order_entry w' d' o' : is_wh w' -> is_dist d' -> 0 <= o' < 2 ^ 62 ->
  rows_are K' (maintain b ix I_ORDER (dp_of w' d', orderPrimaryKey w' d' o'))
    (if bool_decide (1 <= o' < a_next (take_order w d A) w' d') then [KO w' d' o'] else []).
Proof using All.
  intros Hw' Hd' Ho'. entries. rewrite next_take, Heq. pose proof (or_order _ _ _ O w' d' o' Hw' Hd' Ho') as Hold.
  destruct (decide (I_ORDER = I_ORDER /\ _ = _)) as [[_ Hin]|Hin].
  - destruct (order_key_eq w d o w' d' o' Hw Hd ltac:(lia) Hw' Hd' Ho' Hin) as (<- & <- & <-).
    rewrite bool_decide_false in Hold by lia. apply Forall2_nil_inv_r in Hold as ->.
    rewrite decide_True, bool_decide_true by (done || lia). by repeat constructor.
  - apply (rows_are_ext _ _ _ _ HE) in Hold. change (reverse [] ++ ?l) with l.
    destruct (decide (w' = w /\ d' = d)) as [[-> ->]|]; [|done]. rewrite Heq in Hold.
    destruct (decide (o' = o)) as [->|]; [destruct Hin; done|]. erewrite bool_decide_ext; [exact Hold|]. lia.
Qed.

Lemma new_order_line_entry w' d' o' : is_wh w' -> is_dist d' -> 0 <= o' < 2 ^ 62 ->
  let l := maintain b ix I_ORDERLINE (dp_of w' d', orderlineKey w' d' o') in
  rows_are K' l (replicate (length l) (KL w' d' o')) /\ (length l <= 15)%nat /\
  (l <> [] <-> 1 <= o' < a_next (take_order w d A) w' d').
Proof using All.
  intros Hw' Hd' Ho' l. subst l. entries. rewrite next_take, Heq.
  destruct (or_line _ _ _ O w' d' o' Hw' Hd' Ho') as (Hold & Hlen' & Hex).
  destruct (decide (I_ORDERLINE = I_ORDERLINE /\ _ = _)) as [[_ Hin]|Hin].
  - destruct (order_key_eq w d o w' d' o' Hw Hd ltac:(lia) Hw' Hd' Ho' Hin) as (<- & <- & <-).
    assert (ix I_ORDERLINE (dp_of w d, orderlineKey w d o) = []) as ->.
    { destruct (ix I_ORDERLINE _); [done|]. assert (1 <= o < a_next A w d) by (by apply Hex). lia. }
    rewrite app_nil_r, length_reverse, decide_True by done. split_and!; [|done|].
    + unfold rows_are in *. apply Forall2_reverse in HL. by rewrite reverse_replicate in HL.
    + split; [lia|]. intros _ Hnil. apply (f_equal reverse) in Hnil. by rewrite reverse_involutive in Hnil.
  - change (reverse [] ++ ?l) with l. split_and!; [by eapply rows_are_ext|done|]. rewrite Hex.
    destruct (decide (w' = w /\ d' = d)) as [[-> ->]|]; [|done]. rewrite Heq.
    destruct (decide (o' = o)) as [->|]; [by destruct Hin|]. lia.
Qed.

Lemma new_order_open_entry w' d' : is_wh w' -> is_dist d' ->
  rows_are K' (maintain b ix I_NEWORDER (wp_of w', distKey d' w')) (map (KN w' d') (open_orders (take_order w d A) w' d')).
Proof using All.
  intros Hw' Hd'. entries. pose proof (rows_are_ext _ _ _ _ HE (or_neworder _ _ _ O w' d' Hw' Hd')) as Hold.
  unfold open_orders. rewrite next_take, Heq. cbn [a_first take_order].
  destruct (decide (I_NEWORDER = I_NEWORDER /\ _ = _)) as [[_ Hin]|Hin].
  - injection Hin as _ Hk. apply distKey_inj in Hk as [<- <-]; [|done..]. rewrite decide_True by done.
    replace (o + 1 - a_first A w d) with (o - a_first A w d + 1) by lia.
    rewrite seqZ_app by lia. rewrite reverse_app, map_app. replace (a_first A w d + (o - a_first A w d)) with o by lia.
    apply Forall2_app; [by repeat constructor|]. unfold open_orders in Hold. by rewrite Heq in Hold.
  - rewrite decide_False; [exact Hold|]. intros [-> ->]. by destruct Hin.
Qed.

Lemma new_order_cust_entry w' d' c' : is_wh w' -> is_dist d' -> is_cust c' ->
  maintain b ix I_ORDER_CUST (wp_of w', orderCustKey d' c') <> [] /\
  forall x, x ∈ maintain b ix I_ORDER_CUST (wp_of w', orderCustKey d' c') ->
    exists o', 1 <= o' < a_next (take_order w d A) w' d' /\ K' x = Some (KO w' d' o').
Proof using All.
  intros Hw' Hd' Hc'. entries. destruct (or_cust _ _ _ O w' d' c' Hw' Hd' Hc') as [Hne' Hall]. split.
  { intros Hnil. by apply app_eq_nil in Hnil as [_ ?]. }
  intros x [Hx|Hx]%elem_of_app.
  - destruct (decide (I_ORDER_CUST = I_ORDER_CUST /\ _ = _)) as [[_ Hin]|Hin]; [|by apply not_elem_of_nil in Hx].
    apply list_elem_of_singleton in Hx as ->. injection Hin as Hp Hk.
    apply orderCustKey_inj in Hk as [<- <-]; [|done..]. apply wp_of_inj in Hp as <-; [|done..].
    exists o. split; [|done]. rewrite next_take, Heq, decide_True by done. lia.
  - destruct (Hall x Hx) as (o' & Ho' & HK). exists o'. split; [|by eapply ext_Some].
    rewrite next_take, Heq. destruct (decide (w' = w /\ d' = d)) as [[-> ->]|]; [|done]. lia.
Qed.

Lemma orders_new : ix_orders (maintain b ix) (take_order w d A) K'.
Proof using All.
  split; [exact new_order_entry|exact new_order_line_entry|exact new_order_open_entry|exact new_order_cust_entry].
Qed.
End orders_new.
