(* ===== verification/TpccConsistency.v ===== *)
(** * TPC-C: the theorems about the transactions

    A valid query on a consistent database never fails: it aborts and changes nothing,
    or has exactly its effect on the numbers of TpccRep.v ([tpcc_txn_refines]).  So
    every sequence of transactions, whatever is granted and committed, keeps the
    consistency conditions of TPC-C ([tpcc_consistent]).  A delivery that aborts
    switches the deliveries of its warehouse off ([aborted_delivery_sticks]). *)

From Stdlib Require Import Ascii.
From stdpp Require Import list functions sorting.
From S2P Require Import Prelude Global Storage IndexPerfect TxnIndex TpccKeys TpccQuery TpccTxn TpccRep TpccSpec.

(** The effect of a committed transaction; [skip]: the flag of the warehouse is set. *)
Definition effect (upd_wh skip : bool) (q : tpcc_query) (A : abs) : abs :=
  match q_type q with
  | TPCC_PAYMENT => pay upd_wh q A
  | TPCC_NEW_ORDER => take_order (w_id q) (d_id q) A
  | TPCC_DELIVERY => if skip then A else deliver_first (w_id q) A
  | _ => A
  end.

(** The database, but for the flags of the deliveries. *)
Definition unchanged (d d' : db) : Prop :=
  db_rows d' = db_rows d /\ db_index d' = db_index d /\ db_next d' = db_next d.

(** The counters do not overflow. *)
Definition orders_fit `{TpccConfig} (A : abs) : Prop :=
  forall w d, is_wh w -> is_dist d -> a_next A w d < 2 ^ 62 - 1.

Section refine.
Context {tc : TpccConfig} {tok : TpccConfigOk} {dd : Doubles}.
Context (g_wh_update TPCC_SMALL : bool) (MAX : nat) (item_part : Z).
Context (Hparts : g_part_cnt = g_num_wh) (Hitems : g_max_items <= 100000).
Context (HM18 : (18 <= MAX)%nat) (HMD : DIST_PER_WARE <= Z.of_nat MAX).

Notation rep := (rep item_part).

Lemma rep_unchanged d d' A K : rep d A K -> unchanged d d' -> rep d' A K.
Proof using Type. intros [] (E1 & E2 & E3). split; rewrite ?E1, ?E2, ?E3; done. Qed.

(** What a transaction may come to. *)
Definition outcome (granted : nat -> bool) (commit : bool) (d : db) (A : abs) (K : kinds)
    (r : option (RC * db)) : Prop :=
  exists rc d', r = Some (rc, d') /\
    (rc = Abort /\ unchanged d d' /\ (commit = false \/ exists n, granted n = false) \/
     rc = RCOK /\ exists K', ext K K' /\ rep d' A K').

Lemma finish_outcome granted commit {B} (m : M B) d A K (P : B -> tstate -> Prop) :
  wp granted m P (start d) ->
  (forall b s, P b s -> exists K', ext K K' /\
     rep (mkDb (t_rows s) (maintain (t_buf s) (db_index d)) (t_next s) (delivering d)) A K') ->
  outcome granted commit d A K (finish commit m d).
Proof using Type.
  unfold wp, finish, outcome. intros Hwp HP. destruct (m (start d)) as [b s| |]; [| |done].
  - destruct commit.
    + eexists _, _. split; [done|]. right. split; [done|]. by eapply HP.
    + eexists _, _. split; [done|]. left. split_and!; [done|done|by left].
  - eexists _, _. split; [done|]. left. split_and!; [done|done|by right].
Qed.

Lemma no_ops_maintain s ix : no_ops s -> maintain (t_buf s) ix = ix.
Proof using Type. intros [Hi Hd]. unfold maintain. by rewrite Hi, Hd. Qed.

Lemma same_rep d A K s : rep d A K -> same (start d) s ->
  rep (mkDb (t_rows s) (maintain (t_buf s) (db_index d)) (t_next s) (delivering d)) A K.
Proof using Type.
  intros HR (Er & En & Eb). cbn in *. rewrite no_ops_maintain by (unfold no_ops; rewrite Eb; done).
  eapply rep_unchanged; [exact HR|done].
Qed.

Lemma orders_same ix A A' K : a_next A' = a_next A -> a_first A' = a_first A -> ix_orders ix A K -> ix_orders ix A' K.
Proof using Type.
  intros En Ef []. split; unfold open_orders in *; rewrite ?En, ?Ef; done.
Qed.

Lemma payment_outcome granted commit q d A K :
  rep d A K -> query_ok q -> q_type q = TPCC_PAYMENT -> money_fits A ->
  outcome granted commit d (pay g_wh_update q A) K (finish commit (payment g_wh_update MAX granted (db_index d) q) d).
Proof using All.
  intros R Hq Ht Hfit. assert (in_range 1 5000 (h_amount q)) as Hh.
  { destruct Hq as [_ Hq]. rewrite Ht in Hq. apply Hq. }
  unfold in_range in Hh. eapply finish_outcome.
  - eapply payment_wp; [lia|apply R|apply R|by apply R|done|done|done|done|done].
  - intros _ s (HR & Hn & Hops). exists K. split; [apply ext_refl|]. rewrite no_ops_maintain by done. cbn in Hn.
    assert (a_next (pay g_wh_update q A) = a_next A /\ a_first (pay g_wh_update q A) = a_first A) as [En Ef]
      by (unfold pay; by destruct g_wh_update).
    split; cbn [db_rows db_index db_next]; rewrite ?Hn, ?En, ?Ef; [|done|apply R| | |apply R].
    + intros r Hr. apply R. lia.
    + eapply orders_same; [exact En|exact Ef|apply R].
    + intros w d'. pose proof (rp_money _ _ _ _ R) as HM. split.
      * pose proof (HM w d'). pose proof (HM (w_id q) d'). unfold pay. destruct g_wh_update; cbn; [|lia].
        destruct (decide (w = w_id q)) as [->|]; [rewrite fn_lookup_insert|rewrite fn_lookup_insert_ne by done]; lia.
      * pose proof (HM w d'). pose proof (HM (w_id q) (d_id q)). unfold pay. cbn.
        assert (a_dytd (if g_wh_update then add_wytd (w_id q) (h_amount q) A else A) = a_dytd A) as -> by by destruct g_wh_update.
        destruct (decide (w = w_id q)) as [->|]; [rewrite fn_lookup_insert|rewrite fn_lookup_insert_ne by done; lia].
        destruct (decide (d' = d_id q)) as [->|]; [rewrite fn_lookup_insert|rewrite fn_lookup_insert_ne by done]; lia.
Qed.

Lemma delivery_rep q d A K s :
  rep d A K -> is_wh (w_id q) -> rows_ok A K (t_rows s) -> t_next s = db_next d ->
  insert_index_ops (t_buf s) = [] -> delete_index_ops (t_buf s) = deliver_ops A (w_id q) ->
  rep (mkDb (t_rows s) (maintain (t_buf s) (db_index d)) (t_next s) (delivering d)) (deliver_first (w_id q) A) K.
Proof using All.
  intros R Hw HR Hn Hi Hd. split; cbn [db_rows db_index db_next]; [rewrite Hn; apply R|done| | |apply R|].
  - eapply static_ext; [apply R|apply ext_refl|]. intros i k Hle. rewrite (deliver_other A (w_id q)); try done.
    intros ->. unfold I_NEWORDER, I_STOCK in Hle. lia.
  - eapply orders_deliver; [done|done|done|apply R].
  - intros w d' Hw' Hd'. pose proof (rp_counts _ _ _ _ R w d' Hw' Hd'). cbn.
    destruct (decide (w = w_id q)) as [->|]; [rewrite fn_lookup_insert|by rewrite fn_lookup_insert_ne].
    case_match; b2p; lia.
Qed.

Lemma delivery_wp granted q d A K : rep d A K -> orders_fit A -> is_wh (w_id q) ->
  wp granted (delivery TPCC_SMALL MAX granted (db_index d) q)
    (fun _ s => rows_ok A K (t_rows s) /\ t_next s = db_next d /\ insert_index_ops (t_buf s) = [] /\
       delete_index_ops (t_buf s) = deliver_ops A (w_id q)) (start d).
Proof using All.
  intros R Hfit Hw. unfold delivery. pose proof dist_ok. eapply deliver_districts_wp; try apply R; [done|lia|lia| |cbn; lia|].
  - intros d' Hd'. pose proof (rp_counts _ _ _ _ R (w_id q) d' Hw Hd'). pose proof (Hfit (w_id q) d' Hw Hd'). lia.
  - intros rows acc HR'. done.
Qed.

Lemma new_order_outcome granted commit q d A K :
  rep d A K -> query_ok q -> q_type q = TPCC_NEW_ORDER -> orders_fit A ->
  outcome granted commit d (take_order (w_id q) (d_id q) A) K
    (finish commit (new_order TPCC_SMALL MAX item_part granted (db_index d) q) d).
Proof using All.
  intros R Hq Ht Hfit. pose proof Hq as [Hw Hq']. rewrite Ht in Hq'. destruct Hq' as (Hd & Hc & Hcnt & H15 & _).
  unfold in_range in H15. pose proof (rp_counts _ _ _ _ R _ _ Hw Hd) as Hcn. pose proof (Hfit _ _ Hw Hd) as Hn.
  eapply finish_outcome; [eapply new_order_wp; [lia|apply R|apply R|exact (rp_fresh _ _ _ _ R)|lia|done|done|done]|].
  intros _ s (rs & K' & Hlen & HE & HR & HF & HO & HN & HL & Hins & Hdels). exists K'. split; [done|].
  split; cbn [db_rows db_index db_next]; [exact HF|done| | |apply R|].
  - eapply static_ext; [apply R|exact HE|]. intros i k Hle. rewrite (new_order_lookup _ _ _ _ _ _ _ _ _ _ Hins Hdels).
    rewrite !decide_False by (intros [<- _]; unfold I_STOCK, I_ORDER, I_ORDER_CUST, I_ORDERLINE, I_NEWORDER in Hle; lia).
    done.
  - rewrite <- Hlen in HL.
    eapply (orders_new Hparts (w_id q) (d_id q) (c_id q)); try done; [lia|lia|lia| |apply R].
    intros ->. cbn in Hlen. lia.
  - intros w d' Hw' Hd'. pose proof (rp_counts _ _ _ _ R w d' Hw' Hd'). rewrite next_take. cbn [a_first take_order].
    case_decide as Hwd; [destruct Hwd as [-> ->]; lia|lia].
Qed.
Lemma delivery_outcome granted commit q d A K :
  rep d A K -> query_ok q -> q_type q = TPCC_DELIVERY -> orders_fit A ->
  outcome granted commit d (if delivering d (w_id q) then A else deliver_first (w_id q) A) K
    (run_delivery TPCC_SMALL MAX granted commit q d).
Proof using All.
  intros R Hq Ht Hfit. unfold run_delivery. destruct (delivering d (w_id q)).
  { eapply (finish_outcome granted _ _ _ _ _ (fun _ s => s = start d)); [done|]. intros _ s ->. exists K.
    split; [apply ext_refl|]. by apply same_rep. }
  set (d0 := set_delivering (w_id q) true d). assert (rep d0 A K) as R0 by (eapply rep_unchanged; [exact R|done]).
  pose proof (delivery_wp granted q d0 A K R0 Hfit (proj1 Hq)) as Hwp.
  assert (outcome granted commit d (deliver_first (w_id q) A) K
    (finish commit (delivery TPCC_SMALL MAX granted (db_index d0) q) d0)) as Ho.
  { eapply (finish_outcome granted commit _ d0); [exact Hwp|]. intros _ s (HR & Hn & Hi & Hd). exists K.
    split; [apply ext_refl|]. apply delivery_rep; try done. apply Hq. }
  unfold wp in Hwp. change (db_index d0) with (db_index d) in *.
  destruct (delivery _ _ _ _ _ (start d0)) eqn:E; [|eexists _, _; split; [done|left; split_and!; [done|done|by right]]|done].
  destruct Ho as (rc & d' & -> & Hcase). eexists _, _. split; [done|]. cbn [fst snd].
  destruct Hcase as [(-> & Hu & Hc)|(-> & K' & HE & HR)]; [left|right]; [done|]. split; [done|]. exists K'.
  split; [done|]. eapply rep_unchanged; [exact HR|done].
Qed.

Lemma stock_level_outcome granted commit q d A K :
  rep d A K -> query_ok q -> q_type q = TPCC_STOCK_LEVEL -> orders_fit A ->
  outcome granted commit d A K (run_stock_level granted commit q d).
Proof using All.
  intros R Hq Ht Hfit. pose proof Hq as [Hw Hq']. rewrite Ht in Hq'. destruct Hq' as (Hd & _).
  pose proof (rp_counts _ _ _ _ R _ _ Hw Hd). pose proof (Hfit _ _ Hw Hd).
  assert (wp granted (stock_level granted (db_index d) q) (fun _ s' => same (start d) s') (start d)) as Hwp.
  { eapply stock_level_wp; try apply R; try done; lia. }
  unfold run_stock_level, finish. unfold wp in Hwp.
  destruct (stock_level granted (db_index d) q (start d)) as [n s| |] eqn:E; [| |done].
  - destruct commit; eexists _, _; (split; [done|]; right; split; [done|]; exists K; split; [apply ext_refl|]);
      cbn [fst snd]; [by apply same_rep|done].
  - eexists _, _. split; [done|]. left. split_and!; [done|done|by right].
Qed.

Lemma txn_outcome granted commit q d A K :
  rep d A K -> query_ok q -> money_fits A -> orders_fit A ->
  outcome granted commit d (effect g_wh_update (delivering d (w_id q)) q A) K
    (run_txn g_wh_update TPCC_SMALL MAX item_part granted commit q d).
Proof using All.
  intros R Hq HfitM HfitO. unfold run_txn, effect. destruct (q_type q) eqn:Ht.
  - destruct Hq as [_ Hq]. by rewrite Ht in Hq.
  - by apply payment_outcome.
  - by apply new_order_outcome.
  - eapply finish_outcome; [eapply order_status_wp; try apply R; try done|].
    { destruct Hq as [Hw Hq]. rewrite Ht in Hq. destruct Hq as (Hd & _). pose proof (HfitO _ _ Hw Hd). lia. }
    intros ? s Hs. exists K. split; [apply ext_refl|]. by apply same_rep.
  - by apply delivery_outcome.
  - by apply stock_level_outcome.
Qed.
End refine.

(** ** Sequences of transactions *)

Record txn := mkTxn { x_query : tpcc_query; x_granted : nat -> bool; x_commit : bool }.

Section seq.
Context {tc : TpccConfig} {tok : TpccConfigOk} {dd : Doubles}.
Context (g_wh_update TPCC_SMALL : bool) (MAX : nat) (item_part : Z).

Fixpoint run_seq (ts : list txn) (d : db) : option (list RC * db) :=
  match ts with
  | [] => Some ([], d)
  | t :: ts =>
      do! r <- run_txn g_wh_update TPCC_SMALL MAX item_part (x_granted t) (x_commit t) (x_query t) d;;
      do! rs <- run_seq ts r.2;;
      Some (r.1 :: rs.1, rs.2)
  end.

Definition sum_dist (f : Z -> Z) : Z := foldr Z.add 0 (map f (seqZ 1 DIST_PER_WARE)).

Definition balanced (A : abs) : Prop := forall w, is_wh w -> a_wytd A w = sum_dist (a_dytd A w).

Lemma sum_map_insert (l : list Z) (f : Z -> Z) d h : NoDup l -> d ∈ l ->
  foldr Z.add 0 (map (<[d := f d + h]> f) l) = foldr Z.add 0 (map f l) + h.
Proof using Type.
  intros Hnd Hin. induction Hnd as [|x l Hx Hnd IH]; [by apply not_elem_of_nil in Hin|]. cbn.
  apply elem_of_cons in Hin as [->|Hin].
  - rewrite fn_lookup_insert. replace (map (<[x := f x + h]> f) l) with (map f l); [lia|].
    apply map_ext_in. intros y Hy. rewrite fn_lookup_insert_ne; [done|]. intros <-. by apply Hx, list_elem_of_In.
  - rewrite IH by done. rewrite fn_lookup_insert_ne; [lia|]. by intros ->.
Qed.

Lemma sum_dist_insert f d h : is_dist d -> sum_dist (<[d := f d + h]> f) = sum_dist f + h.
Proof using Type.
  intros Hd. apply sum_map_insert; [apply NoDup_seqZ|]. apply elem_of_seqZ. unfold is_dist in Hd. lia.
Qed.

Lemma effect_balanced skip q A : query_ok q -> balanced A -> balanced (effect true skip q A).
Proof using Type.
  intros [Hw Hq] HB w Hw'. unfold effect. destruct (q_type q); try by apply HB.
  - destruct Hq as (Hd & _). unfold pay. cbn. destruct (decide (w = w_id q)) as [->|].
    + rewrite !fn_lookup_insert, sum_dist_insert by done. by rewrite (HB _ Hw).
    + rewrite !fn_lookup_insert_ne by done. by apply HB.
  - destruct skip; by apply HB.
Qed.

(** The counters have room for [n] transactions. *)
Definition room (n : nat) (A : abs) : Prop :=
  (forall w d, 0 <= a_wytd A w /\ a_wytd A w + 5000 * Z.of_nat n <= 2 ^ 53 /\
     0 <= a_dytd A w d /\ a_dytd A w d + 5000 * Z.of_nat n <= 2 ^ 53) /\
  (forall w d, is_wh w -> is_dist d -> a_next A w d + Z.of_nat n < 2 ^ 62).

Lemma room_fits n A : room (S n) A -> money_fits A /\ orders_fit A.
Proof using Type.
  intros [HM HO]. split.
  - intros w d. pose proof (HM w d). lia.
  - intros w d Hw Hd. pose proof (HO w d Hw Hd). lia.
Qed.

Lemma room_less n A : room (S n) A -> room n A.
Proof using Type.
  intros [HM HO]. split; [intros w d; pose proof (HM w d); lia|]. intros w d Hw Hd. pose proof (HO w d Hw Hd). lia.
Qed.

Lemma effect_room n upd skip q A : query_ok q -> room (S n) A -> room n (effect upd skip q A).
Proof using Type.
  intros [Hw Hq] HR. pose proof (room_less _ _ HR) as [HM' HO']. destruct HR as [HM HO].
  unfold effect. destruct (q_type q); try done.
  - destruct Hq as (_ & _ & _ & _ & Hh & _). unfold in_range in Hh. split; [|by unfold pay; destruct upd].
    intros w d. pose proof (HM' w d). pose proof (HM w d). pose proof (HM (w_id q) (d_id q)). unfold pay. cbn.
    assert (a_dytd (if upd then add_wytd (w_id q) (h_amount q) A else A) = a_dytd A) as -> by by destruct upd.
    split_and!.
    4,3: (destruct (decide (w = w_id q)) as [->|]; [rewrite fn_lookup_insert|rewrite fn_lookup_insert_ne by done; lia];
      destruct (decide (d = d_id q)) as [->|]; [rewrite fn_lookup_insert|rewrite fn_lookup_insert_ne by done]; lia).
    1,2: destruct upd; cbn; [|lia];
      destruct (decide (w = w_id q)) as [->|]; [rewrite fn_lookup_insert|rewrite fn_lookup_insert_ne by done]; lia.
  - split; [done|]. intros w d Hw' Hd'. pose proof (HO w d Hw' Hd'). rewrite next_take.
    case_decide as E; [destruct E as [-> ->]|]; lia.
  - destruct skip; done.
Qed.

(** The consistency conditions: the money of a warehouse is that of its districts;
    the orders of a district have the ids below the next one, each once, with order
    lines; the open orders are the latest of them. *)
Definition consistent (d : db) : Prop := forall w, is_wh w -> exists r_wh ytd,
  db_index d I_WAREHOUSE (wp_of w, w) = [r_wh] /\ db_rows d r_wh W_YTD = dbl (sum_dist ytd) /\
  forall dist, is_dist dist -> exists r_dist first next,
    db_index d I_DISTRICT (wp_of w, distKey dist w) = [r_dist] /\
    db_rows d r_dist D_YTD = dbl (ytd dist) /\ db_rows d r_dist D_NEXT_O_ID = next /\ 1 <= first <= next /\
    map (fun r => db_rows d r NO_O_ID) (db_index d I_NEWORDER (wp_of w, distKey dist w)) =
      reverse (seqZ first (next - first)) /\
    forall o, 0 <= o < 2 ^ 62 ->
      map (fun r => db_rows d r O_ID) (db_index d I_ORDER (dp_of w dist, orderPrimaryKey w dist o)) =
        (if bool_decide (1 <= o < next) then [o] else []) /\
      (db_index d I_ORDERLINE (dp_of w dist, orderlineKey w dist o) <> [] <-> 1 <= o < next).

(** The value of a column of rows of known kinds. *)
Lemma rows_are_map A K rows l (kf : Z -> kind) col os :
  rows_ok A K rows -> rows_are K l (map kf os) ->
  (forall row o, row_ok A row (Some (kf o)) -> row col = o) -> map (fun r => rows r col) l = os.
Proof using Type.
  intros HR HL Hcol. revert l HL. induction os as [|o os IH]; intros l HL; cbn in HL.
  { by apply Forall2_nil_inv_r in HL as ->. }
  apply Forall2_cons_inv_r in HL as (r & l' & Hr & HL & ->). cbn. f_equal; [|by apply IH].
  apply Hcol. pose proof (HR r) as Hrow. by rewrite Hr in Hrow.
Qed.

Lemma rep_consistent d A K : rep item_part d A K -> balanced A -> consistent d.
Proof using Type.
  intros R HB w Hw. destruct (st_wh _ _ _ (rp_static _ _ _ _ R) w Hw) as (r_wh & Hr & HK).
  pose proof (rp_rows _ _ _ _ R) as HR. exists r_wh, (a_dytd A w). split_and!; [done| |].
  { pose proof (HR r_wh) as Hrow. rewrite HK in Hrow. cbn in Hrow. by rewrite Hrow, (HB w Hw). }
  intros dist Hd. destruct (st_dist _ _ _ (rp_static _ _ _ _ R) w dist Hw Hd) as (r_dist & Hrd & HKd).
  pose proof (HR r_dist) as Hrow. rewrite HKd in Hrow. destruct Hrow as [Hytd Hnext].
  pose proof (rp_orders _ _ _ _ R) as O. exists r_dist, (a_first A w dist), (a_next A w dist).
  split_and!; try done; [apply (rp_counts _ _ _ _ R w dist Hw Hd)..| |].
  { eapply rows_are_map; [exact HR|by apply O|]. intros row o H. exact H. }
  intros o Ho. split; [|by apply O].
  eapply (rows_are_map _ _ _ _ (KO w dist)); [exact HR| |].
  { pose proof (or_order _ _ _ O w dist o Hw Hd Ho) as Hold. by case_bool_decide. }
  intros row o' H. apply H.
Qed.
Context (Hparts : g_part_cnt = g_num_wh) (Hitems : g_max_items <= 100000).
Context (HM18 : (18 <= MAX)%nat) (HMD : DIST_PER_WARE <= Z.of_nat MAX).

Lemma run_seq_rep ts : g_wh_update = true -> forall d A K,
  rep item_part d A K -> balanced A -> room (length ts) A -> Forall (fun t => query_ok (x_query t)) ts ->
  exists rcs d' A' K', run_seq ts d = Some (rcs, d') /\ rep item_part d' A' K' /\ balanced A'.
Proof using All.
  intros Hupd. induction ts as [|t ts IH]; intros d A K R HB HR Hq; cbn [run_seq length] in *.
  { by eexists _, _, _, _. }
  apply Forall_cons in Hq as [Hq Hqs]. pose proof (room_fits _ _ HR) as [HfM HfO].
  destruct (txn_outcome g_wh_update TPCC_SMALL MAX item_part Hparts Hitems HM18 HMD (x_granted t) (x_commit t)
    (x_query t) d A K R Hq HfM HfO) as (rc & d' & -> & Hout). cbn [fst snd].
  assert (exists A1 K1, rep item_part d' A1 K1 /\ balanced A1 /\ room (length ts) A1) as (A1 & K1 & R1 & HB1 & HR1).
  { destruct Hout as [(_ & Hu & _)|(_ & K1 & _ & R1)].
    - exists A, K. split_and!; [by eapply rep_unchanged|done|].
      by apply room_less.
    - eexists _, K1. split; [exact R1|]. rewrite Hupd. split; [by apply effect_balanced|by apply effect_room]. }
  destruct (IH _ _ _ R1 HB1 HR1 Hqs) as (rcs & d2 & A2 & K2 & -> & R2 & HB2). by eexists _, _, _, _.
Qed.
End seq.

(** ** The flag of the deliveries *)

Section flag.
Context {tc : TpccConfig} {dd : Doubles}.
Context (g_wh_update TPCC_SMALL : bool) (MAX : nat) (item_part : Z).

Lemma finish_delivering {B} commit (m : M B) d rc d' : finish commit m d = Some (rc, d') -> delivering d' = delivering d.
Proof using Type. unfold finish. intros H. by repeat case_match; simplify_eq/=. Qed.

Lemma delivery_skipped granted commit q d :
  delivering d (w_id q) = true ->
  run_delivery TPCC_SMALL MAX granted commit q d = Some (if commit then RCOK else Abort, d).
Proof using Type. intros H. unfold run_delivery. rewrite H. destruct d. by destruct commit. Qed.

Lemma flag_kept w granted commit q d rc d' :
  delivering d w = true -> run_txn g_wh_update TPCC_SMALL MAX item_part granted commit q d = Some (rc, d') ->
  delivering d' w = true.
Proof using Type.
  intros Hw. unfold run_txn. destruct (q_type q); try (intros ->%finish_delivering; done); [done| |].
  - destruct (decide (w = w_id q)) as [->|Hne].
    { rewrite delivery_skipped by done. by intros [= _ <-]. }
    assert (forall b x, delivering x w = true -> delivering (set_delivering (w_id q) b x) w = true) as Hset.
    { intros b x Hx. cbn. by rewrite fn_lookup_insert_ne. }
    unfold run_delivery. destruct (delivering d (w_id q)); [by intros ->%finish_delivering|].
    set (d0 := set_delivering (w_id q) true d). assert (delivering d0 w = true) by by apply Hset.
    destruct (delivery _ _ _ _ _ _); [|by intros [= _ <-]|];
      (destruct (finish _ _ d0) as [[rc1 d1]|] eqn:E; [|done]; intros [= _ <-]; apply Hset;
       apply finish_delivering in E; by rewrite E).
  - unfold run_stock_level. destruct (stock_level _ _ _ _); [|by intros [= _ <-]|];
      (destruct (finish _ _ d) as [[rc1 d1]|] eqn:E; [|done]; intros [= _ <-];
       apply finish_delivering in E; cbn; by rewrite E).
Qed.

Lemma flag_kept_seq w ts : forall d rcs d',
  delivering d w = true -> run_seq g_wh_update TPCC_SMALL MAX item_part ts d = Some (rcs, d') -> delivering d' w = true.
Proof using Type.
  induction ts as [|t ts IH]; intros d rcs d' Hw; cbn [run_seq]; [by intros [= _ <-]|].
  destruct (run_txn _ _ _ _ _ _ _ d) as [[rc d1]|] eqn:E; [|done]. cbn [fst snd].
  destruct (run_seq _ _ _ _ ts d1) as [[rcs1 d2]|] eqn:E2; [|done]. intros [= _ <-].
  eapply IH; [|exact E2]. by eapply flag_kept.
Qed.
End flag.

(** ** The theorems *)

(** C10. A valid query on a consistent database never fails.  Either it aborts, since a
    row is not granted or the validation fails, and changes no row and no index; or it
    commits with exactly its effect on the counters: a payment adds its amount to the
    money of the warehouse and of the district, a new order takes the next order id of
    the district, a delivery takes the oldest open order of every district away, and
    an order status and a stock level change nothing. *)
Theorem tpcc_txn_refines `{tc : TpccConfig} {tok : TpccConfigOk} {dd : Doubles}
    (g_wh_update TPCC_SMALL : bool) (MAX_WRITE_SET : nat) (item_part : Z)
    (Hparts : g_part_cnt = g_num_wh) (Hitems : g_max_items <= 100000)
    (Hmax : (18 <= MAX_WRITE_SET)%nat) (Hdist : DIST_PER_WARE <= Z.of_nat MAX_WRITE_SET)
    granted commit q d A K :
  rep item_part d A K -> query_ok q -> money_fits A -> orders_fit A ->
  exists rc d', run_txn g_wh_update TPCC_SMALL MAX_WRITE_SET item_part granted commit q d = Some (rc, d') /\
    (rc = Abort /\ unchanged d d' /\ (commit = false \/ exists n, granted n = false) \/
     rc = RCOK /\ exists K', ext K K' /\ rep item_part d' (effect g_wh_update (delivering d (w_id q)) q A) K').
Proof. apply txn_outcome; done. Qed.

(** C9. A database that is consistent stays so under every sequence of valid queries,
    whatever rows are granted and whichever transactions commit, and no transaction
    fails: the money of every warehouse is the sum of that of its districts; the orders
    of a district have the ids below the next order id, each once and with order
    lines; the new orders of a district are the latest of its orders without a gap,
    and lie in their index in order. *)
Theorem tpcc_consistent `{tc : TpccConfig} {tok : TpccConfigOk} {dd : Doubles}
    (TPCC_SMALL : bool) (MAX_WRITE_SET : nat) (item_part : Z)
    (Hparts : g_part_cnt = g_num_wh) (Hitems : g_max_items <= 100000)
    (Hmax : (18 <= MAX_WRITE_SET)%nat) (Hdist : DIST_PER_WARE <= Z.of_nat MAX_WRITE_SET)
    ts d A K :
  rep item_part d A K -> balanced A -> room (length ts) A -> Forall (fun t => query_ok (x_query t)) ts ->
  exists rcs d', run_seq true TPCC_SMALL MAX_WRITE_SET item_part ts d = Some (rcs, d') /\ consistent d'.
Proof.
  intros R HB HR Hq. destruct (run_seq_rep true TPCC_SMALL MAX_WRITE_SET item_part Hparts Hitems Hmax Hdist ts eq_refl
    d A K R HB HR Hq) as (rcs & d' & A' & K' & Hrun & R' & HB').
  exists rcs, d'. split; [exact Hrun|]. by eapply rep_consistent.
Qed.

(** C38. When a row access of a delivery is not granted, the flag of its warehouse stays
    set; after any further transactions every delivery to this warehouse returns at
    once, as committed when [finish] commits, and delivers nothing. *)
Theorem aborted_delivery_sticks `{tc : TpccConfig} {dd : Doubles}
    (g_wh_update TPCC_SMALL : bool) (MAX_WRITE_SET : nat) (item_part : Z) granted commit q d :
  q_type q = TPCC_DELIVERY -> delivering d (w_id q) = false ->
  delivery TPCC_SMALL MAX_WRITE_SET granted (db_index d) q (start d) = Aborted ->
  exists d1, run_txn g_wh_update TPCC_SMALL MAX_WRITE_SET item_part granted commit q d = Some (Abort, d1) /\
    forall ts rcs d2, run_seq g_wh_update TPCC_SMALL MAX_WRITE_SET item_part ts d1 = Some (rcs, d2) ->
    forall granted' commit' q', q_type q' = TPCC_DELIVERY -> w_id q' = w_id q ->
      run_txn g_wh_update TPCC_SMALL MAX_WRITE_SET item_part granted' commit' q' d2 =
        Some (if commit' then RCOK else Abort, d2).
Proof.
  intros Ht Hf Hab. exists (set_delivering (w_id q) true d). split.
  { unfold run_txn, run_delivery. rewrite Ht, Hf. change (start (set_delivering _ _ d)) with (start d).
    change (db_index (set_delivering _ _ d)) with (db_index d). by rewrite Hab. }
  intros ts rcs d2 Hrun granted' commit' q' Ht' Hw'. unfold run_txn. rewrite Ht'. apply delivery_skipped.
  rewrite Hw'. eapply flag_kept_seq; [|exact Hrun]. cbn. by rewrite fn_lookup_insert.
Qed.

(** ** A small database

    One warehouse, district, customer and item; twenty orders of one line, the last one
    not delivered. *)

#[local] Instance int_doubles : Doubles.
Proof. refine {| dadd := Z.add; dsub := Z.sub; dbl := fun z => z |}. done. Defined.

Definition small_config : TpccConfig := {|
  DIST_PER_WARE := 1; g_cust_per_dist := 1; g_max_items := 1; g_num_wh := 1; g_part_cnt := 1;
  ALLOW_READ_ONLY := false |}.
#[local] Existing Instance small_config.

#[local] Instance small_config_ok : TpccConfigOk.
Proof. split; cbn; lia. Qed.

Definition small_kinds : kinds := fun r =>
  match r with
  | 0%nat => Some (KW 1) | 1%nat => Some (KD 1 1) | 2%nat => Some (KC 1 1 1) | 3%nat => Some (KI 1) | 4%nat => Some (KS 1 1)
  | _ => if (r <? 25)%nat then Some (KO 1 1 (Z.of_nat r - 4))
         else if (r <? 45)%nat then Some (KL 1 1 (Z.of_nat r - 24))
         else if (r =? 45)%nat then Some (KN 1 1 20) else None
  end.

Definition small_row (k : option kind) (c : Z) : Z :=
  match k with
  | Some (KD _ _) => if c =? D_NEXT_O_ID then 21 else 0
  | Some (KC _ _ _) => if c =? C_ID then 1 else 0
  | Some (KO _ _ o) => if c =? O_ID then o else 1
  | Some (KN _ _ o) => if c =? NO_O_ID then o else 0
  | Some (KL _ _ _) => 1
  | _ => 0
  end.

(** The key of an order is its id plus 2. *)
Definition small_order (base : nat) (k : Z) : list nat :=
  if (3 <=? k) && (k <=? 22) then [(base + Z.to_nat (k - 2))%nat] else [].

Definition small_index : index_map := fun i k =>
  match i with
  | 0%nat => [3%nat] | 1%nat => [0%nat] | 2%nat => [1%nat] | 3%nat => [2%nat] | 4%nat => [2%nat] | 5%nat => [4%nat]
  | 6%nat => small_order 4 k.2 | 7%nat => [24%nat] | 8%nat => small_order 24 k.2 | 9%nat => [45%nat]
  | _ => []
  end.

Definition small_db : db := mkDb (fun r => small_row (small_kinds r)) small_index 46 (fun _ => false).
Definition small_abs : abs := mkAbs (fun _ => 0) (fun _ _ => 0) (fun _ _ => 21) (fun _ _ => 20).

Lemma small_order_kind n : (1 <= n <= 20)%nat ->
  small_kinds (4 + n) = Some (KO 1 1 (Z.of_nat n)) /\ small_kinds (24 + n) = Some (KL 1 1 (Z.of_nat n)).
Proof. intros Hn. do 21 (destruct n as [|n]; [try lia; by vm_compute|]). lia. Qed.

Lemma small_order_are base kf o : 0 <= o < 2 ^ 62 ->
  (forall n, (1 <= n <= 20)%nat -> small_kinds (base + n) = Some (kf (Z.of_nat n))) ->
  rows_are small_kinds (small_order base (orderlineKey 1 1 o)) (if bool_decide (1 <= o < 21) then [kf o] else []).
Proof.
  intros Ho Hk. rewrite orderlineKey_value by (done || (unfold is_wh, is_dist; cbn; lia)).
  unfold small_order. replace ((1 * DIST_PER_WARE + 1) * g_cust_per_dist + o) with (2 + o) by (cbn; lia).
  case_bool_decide.
  - rewrite (proj2 (andb_true_iff _ _)) by (rewrite !Z.leb_le; lia). constructor; [|constructor].
    rewrite Hk by lia. rewrite Z2Nat.id by lia.
    do 2 f_equal. lia.
  - assert ((3 <=? 2 + o) && (2 + o <=? 22) = false) as ->; [|constructor].
    apply andb_false_iff. rewrite !Z.leb_gt. lia.
Qed.

Lemma small_single r k : single k -> small_kinds r = Some k -> r = match k with KW _ => 0%nat | _ => 1%nat end.
Proof.
  intros Hk. do 46 (destruct r as [|r]; [vm_compute; intros [= <-]; cbn in Hk; done|]). done.
Qed.

Lemma small_rep : rep 0 small_db small_abs small_kinds.
Proof.
  assert (forall w, is_wh w -> w = 1) as Hwh by (unfold is_wh; cbn; lia).
  assert (forall d, is_dist d -> d = 1) as Hdi by (unfold is_dist; cbn; lia).
  assert (forall c, is_cust c -> c = 1) as Hcu by (unfold is_cust; cbn; lia).
  assert (forall c, is_item c -> c = 1) as Hit by (unfold is_item; cbn; lia).
  split; cbn [db_next db_rows db_index small_db].
  - intros r Hr. do 46 (destruct r as [|r]; [lia|]). done.
  - intros r. do 46 (destruct r as [|r]; [by vm_compute|]). done.
  - split.
    + intros r r' k Hk H1 H2. by rewrite (small_single r k Hk H1), (small_single r' k Hk H2).
    + intros w ->%Hwh. by exists 0%nat.
    + intros w d ->%Hwh ->%Hdi. by exists 1%nat.
    + intros w d c ->%Hwh ->%Hdi ->%Hcu. by exists 2%nat.
    + intros w d num name ->%Hwh ->%Hdi _ _. split; [done|]. intros r ->%list_elem_of_singleton. by exists 1.
    + intros i ->%Hit. by exists 3%nat.
    + intros w i ->%Hwh ->%Hit. by exists 4%nat.
  - split.
    + intros w d o ->%Hwh ->%Hdi Ho. apply (small_order_are 4 (KO 1 1)); [done|apply small_order_kind].
    + intros w d o ->%Hwh ->%Hdi Ho l. subst l. cbn [small_index snd I_ORDERLINE].
      assert (rows_are small_kinds (small_order 24 (orderlineKey 1 1 o)) (if bool_decide (1 <= o < 21) then [KL 1 1 o] else []))
        as H by (apply (small_order_are 24 (KL 1 1)); [done|apply small_order_kind]).
      case_bool_decide; [apply Forall2_cons_inv_r in H as (r & l & Hr & ->%Forall2_nil_inv_r & ->)|apply Forall2_nil_inv_r in H as ->].
      * split_and!; [by repeat constructor|cbn; lia|done].
      * split_and!; [constructor|cbn; lia|]. split; [done|]. cbn. lia.
    + intros w d ->%Hwh ->%Hdi. by repeat constructor.
    + intros w d c ->%Hwh ->%Hdi ->%Hcu. split; [done|]. intros r ->%list_elem_of_singleton. by exists 20.
  - cbn. lia.
  - cbn. lia.
Qed.

Definition small_query (t : TPCCTxnType) : tpcc_query :=
  mkQuery t 1 1 1 1 1 1 [] 7 false [mkItem 1 1 5] false false 1 2013 3 2021 15 [0].

Lemma small_parts ws : Forall (fun w => w = 1) ws -> ws <> [] -> parts_ok ws [0].
Proof.
  intros Hws Hne. split; [apply NoDup_singleton|]. intros p. rewrite list_elem_of_singleton. split.
  - intros ->. destruct ws as [|w ws]; [done|]. apply Forall_cons in Hws as [-> _]. exists 1. split; [by left|done].
  - intros (w & Hw & ->). rewrite Forall_forall in Hws. by rewrite (Hws w Hw).
Qed.

Lemma small_query_ok t : t <> TPCC_ALL -> query_ok (small_query t).
Proof.
  intros Ht. unfold query_ok, is_wh, is_dist, is_cust, item_ok, in_range, small_query. split; [cbn; lia|].
  destruct t; try done; cbn; split_and!; try lia; try done; try (apply small_parts; [by repeat constructor|done]);
    try (apply NoDup_singleton).
  apply Forall_singleton. unfold is_item, is_wh. cbn. lia.
Qed.

Lemma tpcc_txn_refines_witness :
  exists rc d', run_txn true false 18 0 (fun _ => true) true (small_query TPCC_PAYMENT) small_db = Some (rc, d') /\
    (rc = Abort /\ unchanged small_db d' /\ (true = false \/ exists n : nat, true = false) \/
     rc = RCOK /\ exists K', ext small_kinds K' /\ rep 0 d' (effect true false (small_query TPCC_PAYMENT) small_abs) K').
Proof.
  apply (tpcc_txn_refines (tc := small_config) true false 18 0 eq_refl ltac:(cbn; lia) ltac:(lia) ltac:(cbn; lia)
    (fun _ => true) true (small_query TPCC_PAYMENT) small_db small_abs small_kinds).
  - exact small_rep.
  - by apply small_query_ok.
  - intros w d. cbn. lia.
  - intros w d _ _. cbn. lia.
Defined.

Lemma tpcc_consistent_witness :
  exists rcs d', run_seq true false 18 0
    (map (fun t => mkTxn (small_query t) (fun _ => true) true)
      [TPCC_NEW_ORDER; TPCC_PAYMENT; TPCC_DELIVERY; TPCC_ORDER_STATUS; TPCC_STOCK_LEVEL; TPCC_DELIVERY]) small_db =
      Some (rcs, d') /\ consistent d'.
Proof.
  apply (tpcc_consistent (tc := small_config) false 18 0 eq_refl ltac:(cbn; lia) ltac:(lia) ltac:(cbn; lia) _ small_db small_abs small_kinds).
  - exact small_rep.
  - intros w _. reflexivity.
  - split; [intros w d; cbn; lia|]. intros w d _ _. cbn. lia.
  - cbn [map]. repeat (apply Forall_cons_2; [by apply small_query_ok|]). constructor.
Defined.

Lemma aborted_delivery_sticks_witness :
  exists d1, run_txn true false 18 0 (fun _ => false) true (small_query TPCC_DELIVERY) small_db = Some (Abort, d1) /\
    forall ts rcs d2, run_seq true false 18 0 ts d1 = Some (rcs, d2) ->
    forall granted' commit' q', q_type q' = TPCC_DELIVERY -> w_id q' = 1 ->
      run_txn true false 18 0 granted' commit' q' d2 = Some (if commit' then RCOK else Abort, d2).
Proof.
  apply (aborted_delivery_sticks (tc := small_config) true false 18 0 (fun _ => false) true (small_query TPCC_DELIVERY) small_db);
    reflexivity.
Defined.

(** A run of all five: the results, the next order id and the money of the district. *)
Example small_run :
  match run_seq true false 18 0
    (map (fun t => mkTxn (small_query t) (fun _ => true) true)
      [TPCC_NEW_ORDER; TPCC_PAYMENT; TPCC_DELIVERY; TPCC_ORDER_STATUS; TPCC_STOCK_LEVEL; TPCC_DELIVERY]) small_db with
  | Some (rcs, d) => rcs = [RCOK; RCOK; RCOK; RCOK; RCOK; RCOK] /\ db_rows d 1%nat D_NEXT_O_ID = 22 /\
      db_rows d 0%nat W_YTD = 7 /\ db_index d I_NEWORDER (0%nat, 2) = []
  | None => False
  end.
Proof. vm_compute. done. Qed.
