(* ===== verification/TpccLoad.v ===== *)
(** * TPC-C: the loader

    [tpcc_wl::init] of src/benchmarks/tpcc/tpcc_wl.cpp with the functions that fill
    the tables.  The threads, each of which loads warehouses of its own in parallel
    with the others, run one after the other here; the items are in partition 0 (no
    REPLICATE_ITEM).  The random strings are drawn, since they move the random
    streams on, but not stored. *)

From Stdlib Require Import Ascii.
From stdpp Require Import list functions.
From S2P Require Import Prelude Global Storage TpccKeys TpccQuery TpccTxn.

(** ** Columns (tpcc_const.h) *)

Definition W_ID : Z := 0.
Definition W_TAX : Z := 7.
Definition D_ID : Z := 0.
Definition D_W_ID : Z := 1.
Definition D_TAX : Z := 8.
Definition C_D_ID : Z := 1.
Definition C_W_ID : Z := 2.
Definition C_SINCE : Z := 12.
Definition C_CREDIT_LIM : Z := 14.
Definition C_DELIVERY_CNT : Z := 19.
Definition I_ID : Z := 0.
Definition I_IM_ID : Z := 1.
Definition S_I_ID : Z := 0.
Definition S_W_ID : Z := 1.

(** ** Loading *)

Record lstate := mkL {
  l_rows : nat -> Z -> Z;
  l_index : index_map;
  l_next : nat;
  l_rand : rand_state }.

(** [None]: a failed assertion or a division by zero. *)
Definition L (A : Type) : Type := lstate -> option (A * lstate).
Definition lret {A} (a : A) : L A := fun s => Some (a, s).
Definition lbind {A B} (m : L A) (f : A -> L B) : L B :=
  fun s => match m s with Some (a, s') => f a s' | None => None end.
Notation "'run!' x <- m ;; k" := (lbind m (fun x => k))
  (at level 100, x name, m at next level, k at level 200, right associativity) : dbx_scope.
Notation "m ';>' k" := (lbind m (fun _ => k)) (at level 100, k at level 200, right associativity) : dbx_scope.

Definition draw {A} (m : Rand A) : L A := fun s =>
  match m (l_rand s) with Some (a, r) => Some (a, mkL (l_rows s) (l_index s) (l_next s) r) | None => None end.
Definition lget {A} (o : option A) : L A := fun s => match o with Some a => Some (a, s) | None => None end.

Definition new_row : L nat := fun s => Some (l_next s, mkL (l_rows s) (l_index s) (S (l_next s)) (l_rand s)).
Definition set_col (r : nat) (col v : Z) : L unit := fun s =>
  Some (tt, mkL (<[r := <[col := v]> (l_rows s r)]> (l_rows s)) (l_index s) (l_next s) (l_rand s)).
Definition add_index (i : nat) (key : Z) (r : nat) (part : Z) : L unit := fun s =>
  let k := (Z.to_nat part, key) in
  Some (tt, mkL (l_rows s) (<[i := <[k := r :: l_index s i k]> (l_index s i)]> (l_index s)) (l_next s) (l_rand s)).

(** [for (i = first; ...; i++)] with [n] turns. *)
Fixpoint loop (n : nat) (first : Z) (f : Z -> L unit) : L unit :=
  match n with
  | O => lret tt
  | S n => f first;> loop n (first + 1) f
  end.

Section load.
Context {tc : TpccConfig} {dd : Doubles}.
Context (lrand48 : Z -> nat -> Z).
Context (TPCC_SMALL TPCC_ALL_TXN : bool).
(** [(double) a / b]. *)
Context (dquot : Z -> Z -> Z).

Notation URand := (URand lrand48).
Notation RAND := (RAND lrand48).
Notation NURand := (NURand lrand48).

(** *** Random strings *)

Fixpoint draws (n : nat) (lo hi thd : Z) : Rand (list Z) :=
  match n with
  | O => rret []
  | S n => let! x <- URand lo hi thd;; let! l <- draws n lo hi thd;; rret (x :: l)
  end.

(** The positions of the characters in [char_list]. *)
Definition MakeAlphaString (min max thd : Z) : Rand (list Z) :=
  let! cnt <- URand min max thd;; draws (Z.to_nat cnt) 0 60 thd.
Definition MakeNumberString (min max thd : Z) : Rand (list Z) :=
  let! cnt <- URand min max thd;; draws (Z.to_nat cnt) 0 9 thd.

(** *** Items, warehouses, districts and stocks *)

Definition load_item (part_id i : Z) : L unit :=
  run! r <- new_row;;
  set_col r I_ID i;>
  run! im <- draw (URand 1 10000 0);;
  set_col r I_IM_ID im;>
  draw (MakeAlphaString 14 24 0);>
  run! price <- draw (URand 1 100 0);;
  set_col r I_PRICE price;>
  draw (MakeAlphaString 26 50 0);>
  draw (RAND 10 0);>
  add_index I_ITEM i r part_id.

Definition init_tab_item (part_id : Z) : L unit := loop (Z.to_nat g_max_items) 1 (load_item part_id).

(** Name, two streets, city, state and zip of a warehouse or district. *)
Definition draw_address (thd : Z) : L unit :=
  draw (MakeAlphaString 6 10 thd);>
  draw (MakeAlphaString 10 20 thd);>
  draw (MakeAlphaString 10 20 thd);>
  draw (MakeAlphaString 10 20 thd);>
  draw (MakeAlphaString 2 2 thd);>
  draw (MakeNumberString 9 9 thd);>
  lret tt.

Definition init_tab_wh (wid : Z) : L unit :=
  lget (assert! (1 <=? wid) && (wid <=? g_num_wh);; Some tt);>
  run! r <- new_row;;
  set_col r W_ID wid;>
  draw_address (wid - 1);>
  run! tax <- draw (URand 0 200 (wid - 1));;
  set_col r W_TAX (dquot tax 1000);>
  set_col r W_YTD (dbl 300000);>
  run! p <- lget (wh_to_part wid);;
  add_index I_WAREHOUSE wid r p.

Definition load_dist (wid did : Z) : L unit :=
  run! r <- new_row;;
  set_col r D_ID did;>
  set_col r D_W_ID wid;>
  draw_address (wid - 1);>
  run! tax <- draw (URand 0 200 (wid - 1));;
  set_col r D_TAX (dquot tax 1000);>
  set_col r D_YTD (dbl 30000);>
  set_col r D_NEXT_O_ID 3001;>
  run! p <- lget (wh_to_part wid);;
  add_index I_DISTRICT (distKey did wid) r p.

Definition init_tab_dist (wid : Z) : L unit := loop (Z.to_nat DIST_PER_WARE) 1 (load_dist wid).

(** The ten dist_info strings, the counters and the data of a stock. *)
Definition load_stock_full (r : nat) (thd : Z) : L unit :=
  loop 10 1 (fun _ => draw (MakeAlphaString 24 24 thd);> lret tt);>
  set_col r S_YTD 0;>
  set_col r S_ORDER_CNT 0;>
  run! s <- draw (MakeAlphaString 26 50 thd);;
  run! x <- draw (RAND 100 thd);;
  if x <? 10 then draw (URand 0 (Z.of_nat (length s) - 8) thd);> lret tt else lret tt.

Definition load_stock (wid sid : Z) : L unit :=
  run! r <- new_row;;
  set_col r S_I_ID sid;>
  set_col r S_W_ID wid;>
  run! q <- draw (URand 10 100 (wid - 1));;
  set_col r S_QUANTITY q;>
  set_col r S_REMOTE_CNT 0;>
  (if TPCC_SMALL then lret tt else load_stock_full r (wid - 1));>
  run! p <- lget (wh_to_part wid);;
  add_index I_STOCK (stockKey sid wid) r p.

Definition init_tab_stock (wid : Z) : L unit := loop (Z.to_nat g_max_items) 1 (load_stock wid).

(** *** Customers and their history *)

(** What only the full schema has; the length of [FIRSTNAME] is 8 to 16. *)
Definition load_cust_full (r : nat) (thd : Z) : L unit :=
  draw (MakeAlphaString 8 16 thd);>
  draw (MakeAlphaString 10 20 thd);>
  draw (MakeAlphaString 10 20 thd);>
  draw (MakeAlphaString 10 20 thd);>
  draw (MakeAlphaString 2 2 thd);>
  draw (MakeNumberString 9 9 thd);>
  draw (MakeNumberString 16 16 thd);>
  set_col r C_SINCE 0;>
  set_col r C_CREDIT_LIM 50000;>
  set_col r C_DELIVERY_CNT 0;>
  draw (MakeAlphaString 300 500 thd);>
  lret tt.

Definition load_cust (did wid cid : Z) : L unit :=
  run! r <- new_row;;
  set_col r C_ID cid;>
  set_col r C_D_ID did;>
  set_col r C_W_ID wid;>
  run! num <- (if cid <=? 1000 then lret (cid - 1) else draw (NURand 255 0 999 (wid - 1)));;
  run! c_last <- lget (Lastname num);;
  (if TPCC_SMALL then lret tt else load_cust_full r (wid - 1));>
  draw (RAND 10 (wid - 1));>
  run! discount <- draw (RAND 5000 (wid - 1));;
  set_col r C_DISCOUNT (dquot discount 10000);>
  set_col r C_BALANCE (dbl (-10));>
  set_col r C_YTD_PAYMENT (dbl 10);>
  set_col r C_PAYMENT_CNT 1;>
  run! p <- lget (wh_to_part wid);;
  add_index I_CUSTOMER_LAST (custNPKey c_last did wid) r p;>
  add_index I_CUSTOMER_ID (custKey cid did wid) r p.

Definition init_tab_cust (did wid : Z) : L unit :=
  lget (assert! 1000 <=? g_cust_per_dist;; Some tt);>
  loop (Z.to_nat g_cust_per_dist) 1 (load_cust did wid).

Definition init_tab_hist (c_id d_id w_id : Z) : L unit :=
  run! r <- new_row;;
  set_col r H_C_ID c_id;>
  set_col r H_C_D_ID d_id;>
  set_col r H_D_ID d_id;>
  set_col r H_C_W_ID w_id;>
  set_col r H_W_ID w_id;>
  set_col r H_DATE 0;>
  set_col r H_AMOUNT (dbl 10);>
  if TPCC_SMALL then lret tt else draw (MakeAlphaString 12 24 (w_id - 1));> lret tt.

(** *** Orders *)

Fixpoint shuffle (n : nat) (i wid : Z) (perm : list Z) : Rand (list Z) :=
  match n with
  | O => rret perm
  | S n =>
      let! j <- URand (i + 1) (g_cust_per_dist - 1) (wid - 1);;
      match perm !! Z.to_nat i, perm !! Z.to_nat j with
      | Some a, Some b => shuffle n (i + 1) wid (<[Z.to_nat j := a]> (<[Z.to_nat i := b]> perm))
      | _, _ => fun _ => None
      end
  end.

Definition init_permutation (wid : Z) : Rand (list Z) :=
  shuffle (Z.to_nat (g_cust_per_dist - 1)) 0 wid (seqZ 1 g_cust_per_dist).

Definition load_orderline (did wid oid ol : Z) : L unit :=
  run! r <- new_row;;
  set_col r OL_O_ID oid;>
  set_col r OL_D_ID did;>
  set_col r OL_W_ID wid;>
  set_col r OL_NUMBER ol;>
  run! i <- draw (URand 1 100000 (wid - 1));;
  set_col r OL_I_ID i;>
  set_col r OL_SUPPLY_W_ID wid;>
  (if oid <? 2101 then
     set_col r OL_DELIVERY_D 2013;> set_col r OL_AMOUNT 0
   else
     set_col r OL_DELIVERY_D 0;>
     run! x <- draw (URand 1 999999 (wid - 1));;
     set_col r OL_AMOUNT (dquot x 100));>
  set_col r OL_QUANTITY 5;>
  draw (MakeAlphaString 24 24 (wid - 1));>
  if TPCC_ALL_TXN then add_index I_ORDERLINE (orderlineKey wid did oid) r (d_to_part wid did) else lret tt.

Definition load_neworder (did wid oid : Z) : L unit :=
  run! r <- new_row;;
  set_col r NO_O_ID oid;>
  set_col r NO_D_ID did;>
  set_col r NO_W_ID wid;>
  if TPCC_ALL_TXN then run! p <- lget (wh_to_part wid);; add_index I_NEWORDER (distKey did wid) r p else lret tt.

Definition load_order (perm : list Z) (did wid oid : Z) : L unit :=
  run! r <- new_row;;
  run! cid <- lget (perm !! Z.to_nat (oid - 1));;
  set_col r O_ID oid;>
  set_col r O_C_ID cid;>
  set_col r O_D_ID did;>
  set_col r O_W_ID wid;>
  set_col r O_ENTRY_D 2013;>
  run! carrier <- (if oid <? 2101 then draw (URand 1 10 (wid - 1)) else lret 0);;
  set_col r O_CARRIER_ID carrier;>
  run! o_ol_cnt <- draw (URand 5 15 (wid - 1));;
  set_col r O_OL_CNT o_ol_cnt;>
  set_col r O_ALL_LOCAL 1;>
  (if TPCC_ALL_TXN then
     add_index I_ORDER (orderPrimaryKey wid did oid) r (d_to_part wid did);>
     run! p <- lget (wh_to_part wid);;
     add_index I_ORDER_CUST (orderCustKey did cid) r p
   else lret tt);>
  (if TPCC_SMALL then lret tt else loop (Z.to_nat o_ol_cnt) 1 (load_orderline did wid oid));>
  if 2100 <? oid then load_neworder did wid oid else lret tt.

Definition init_tab_order (did wid : Z) : L unit :=
  run! perm <- draw (init_permutation wid);;
  loop (Z.to_nat g_cust_per_dist) 1 (load_order perm did wid).

(** *** Everything *)

Definition load_district (wid did : Z) : L unit :=
  init_tab_cust did wid;>
  init_tab_order did wid;>
  loop (Z.to_nat g_cust_per_dist) 1 (fun cid => init_tab_hist cid did wid).

Definition threadInitWarehouse (tid : Z) : L unit :=
  let wid := tid + 1 in
  lget (assert! tid <? g_num_wh;; Some tt);>
  (if tid =? 0 then init_tab_item 0 else lret tt);>
  init_tab_wh wid;>
  init_tab_dist wid;>
  init_tab_stock wid;>
  loop (Z.to_nat DIST_PER_WARE) 1 (load_district wid).

(** The warehouses of an OpenMP thread: how many, and those before. *)
Definition thread_share (omp_num_threads thread_num : Z) : Z * Z :=
  let wh_per_thread := u32 (g_num_wh / omp_num_threads) in
  let wh_rest := u32 (g_num_wh - u32 (wh_per_thread * u32 omp_num_threads)) in
  (u32 (wh_per_thread + (if thread_num <? wh_rest then 1 else 0)),
   u32 (u32 (wh_per_thread * u32 thread_num) + Z.min thread_num wh_rest)).

Definition init_table (omp_num_threads : Z) : L unit :=
  loop (Z.to_nat omp_num_threads) 0 (fun t =>
    let share := thread_share omp_num_threads t in
    loop (Z.to_nat share.1) share.2 threadInitWarehouse).

(** [init]: no row and no entry before, no delivery running. *)
Definition init (omp_num_threads : Z) : option db :=
  match init_table omp_num_threads (mkL (fun _ _ => 0) (fun _ _ => []) 0 (mkRand (fun _ => 0%nat) None None None)) with
  | Some (_, s) => Some (mkDb (l_rows s) (l_index s) (l_next s) (fun _ => false))
  | None => None
  end.
End load.
