(* ===== verification/TpccLoadLog.v ===== *)
(** * TPC-C: what the loader loads

    The loader of TpccLoad.v never fails, and the database it leaves is described by
    the list of the rows in the order in which they were made, each with its kind and
    the index keys under which it was entered. *)

From Stdlib Require Import Ascii.
From stdpp Require Import list functions.
From S2P Require Import Prelude Global Storage TpccKeys TpccQuery TpccTxn TpccRep TpccLoad.

(** ** Positions *)

Section positions.
Context {A : Type} (P : A -> Prop) `{forall x, Decision (P x)}.

(** The positions of the elements that satisfy [P], counted from [n]. *)
Fixpoint positions (n : nat) (l : list A) : list nat :=
  match l with
  | [] => []
  | x :: l => if decide (P x) then n :: positions (S n) l else positions (S n) l
  end.

Lemma positions_app n l l' : positions n (l ++ l') = positions n l ++ positions (n + length l) l'.
Proof using Type.
  revert n. induction l as [|x l IH]; intros n; cbn [positions app length]; [by rewrite Nat.add_0_r|].
  rewrite IH. replace (S n + length l)%nat with (n + S (length l))%nat by lia. by case_decide.
Qed.

Lemma positions_filter n l k :
  Forall2 (fun r x => (l ++ k) !! (r - n)%nat = Some x /\ (n <= r)%nat) (positions n l) (filter P l).
Proof using Type.
  revert n. induction l as [|x l IH]; intros n; cbn [positions]; [constructor|].
  rewrite filter_cons. assert (Forall2 (fun r y => ((x :: l) ++ k) !! (r - n)%nat = Some y /\ (n <= r)%nat)
    (positions (S n) l) (filter P l)) as Htl.
  { eapply Forall2_impl; [apply IH|]. cbn beta. intros r y [Hr Hn]. split; [|lia].
    replace (r - n)%nat with (S (r - S n)) by lia. done. }
  case_decide; [|done]. constructor; [|done]. by rewrite Nat.sub_diag.
Qed.

Lemma positions_elem n l i x : l !! i = Some x -> P x -> (n + i)%nat ∈ positions n l.
Proof using Type.
  revert n i. induction l as [|y l IH]; intros n i Hi Hx; [done|]. cbn [positions]. destruct i as [|i]; cbn in Hi.
  - simplify_eq. rewrite decide_True, Nat.add_0_r by done. by left.
  - replace (n + S i)%nat with (S n + i)%nat by lia. case_decide; [right|]; by apply IH.
Qed.
End positions.

(** ** The log *)

Record entry := mkE { e_kind : option kind; e_ops : list (nat * (nat * Z)) }.

(** The entry is under a key of an index. *)
Notation under i k := (fun e : entry => (i, k) ∈ e_ops e).

Section log.
Context {tc : TpccConfig} {dd : Doubles} (A0 : abs).

(** The state after loading the entries [l]. *)
Record logged (s : lstate) (l : list entry) : Prop := {
  lg_next : l_next s = length l;
  lg_rows r e : l !! r = Some e -> row_ok A0 (l_rows s r) (e_kind e);
  lg_index i k : l_index s i k = reverse (positions (under i k) 0 l);
  lg_rand : rinv (l_rand s) }.

(** While the row after [l] is made: its columns and its keys so far. *)
Record building (l : list entry) (ops : list (nat * (nat * Z))) (row : Z -> Z) (s : lstate) : Prop := {
  bd_next : l_next s = S (length l);
  bd_row : l_rows s (length l) = row;
  bd_rows r e : l !! r = Some e -> row_ok A0 (l_rows s r) (e_kind e);
  bd_index i k : l_index s i k =
    (if decide ((i, k) ∈ ops) then [length l] else []) ++ reverse (positions (under i k) 0 l);
  bd_rand : rinv (l_rand s) }.

(** [lwp m Q s]: [m] does not fail and ends in [Q]. *)
Definition lwp {A} (m : L A) (Q : A -> lstate -> Prop) (s : lstate) : Prop :=
  match m s with Some (a, s') => Q a s' | None => False end.

Lemma lwp_bind {A B} (m : L A) (f : A -> L B) Q s :
  lwp m (fun a s' => lwp (f a) Q s') s -> lwp (lbind m f) Q s.
Proof using Type. unfold lwp, lbind. by destruct (m s) as [[a s']|]. Qed.

Lemma lwp_mono {A} (m : L A) (P Q : A -> lstate -> Prop) s :
  lwp m P s -> (forall a s', P a s' -> Q a s') -> lwp m Q s.
Proof using Type. unfold lwp. intros H HPQ. destruct (m s) as [[a s']|]; auto. Qed.

Lemma lwp_ret {A} (a : A) Q s : Q a s -> lwp (lret a) Q s.
Proof using Type. done. Qed.

Lemma lwp_get {A} (o : option A) a Q s : o = Some a -> Q a s -> lwp (lget o) Q s.
Proof using Type. by intros ->. Qed.

Lemma lwp_new_row l Q s : logged s l ->
  (forall s' row, building l [] row s' -> Q (length l) s') -> lwp new_row Q s.
Proof using Type.
  intros [] HQ. unfold lwp, new_row. rewrite lg_next0. eapply HQ. split; cbn; try done; by rewrite ?lg_next0.
Qed.

Lemma lwp_set l ops row r c v Q s : building l ops row s -> r = length l ->
  (forall s', building l ops (<[c := v]> row) s' -> Q tt s') -> lwp (set_col r c v) Q s.
Proof using Type.
  intros [] -> HQ. apply HQ. split; cbn; try done.
  - by rewrite fn_lookup_insert, bd_row0.
  - intros r e Hr. rewrite fn_lookup_insert_ne; [by eapply bd_rows0|]. apply lookup_lt_Some in Hr. lia.
Qed.

Lemma lwp_draw {A} (m : Rand A) (P : A -> Prop) l ops row Q s : building l ops row s -> yields m P ->
  (forall a s', P a -> building l ops row s' -> Q a s') -> lwp (draw m) Q s.
Proof using Type.
  intros [] Hm HQ. unfold lwp, draw. destruct (Hm _ bd_rand0) as (a & r' & -> & Ha & Hr). apply HQ; [done|]. by split.
Qed.

Lemma lwp_draw_logged {A} (m : Rand A) (P : A -> Prop) l Q s : logged s l -> yields m P ->
  (forall a s', P a -> logged s' l -> Q a s') -> lwp (draw m) Q s.
Proof using Type.
  intros [] Hm HQ. unfold lwp, draw. destruct (Hm _ lg_rand0) as (a & r' & -> & Ha & Hr). apply HQ; [done|]. by split.
Qed.

Lemma lwp_add l ops row i key r p Q s : building l ops row s -> r = length l -> (i, (Z.to_nat p, key)) ∉ ops ->
  (forall s', building l ((i, (Z.to_nat p, key)) :: ops) row s' -> Q tt s') -> lwp (add_index i key r p) Q s.
Proof using Type.
  intros [] -> Hni HQ. apply HQ. split; cbn; try done. intros j k.
  destruct (decide ((j, k) = (i, (Z.to_nat p, key)))) as [[= -> ->]|Hne].
  - rewrite !fn_lookup_insert, bd_index0, decide_False by done. rewrite decide_True; [done|by left].
  - rewrite (decide_ext _ ((j, k) ∈ ops)) by (rewrite elem_of_cons; tauto). rewrite <- bd_index0.
    destruct (decide (j = i)) as [->|]; [|by rewrite fn_lookup_insert_ne].
    rewrite fn_lookup_insert, fn_lookup_insert_ne; [done|]. by intros <-.
Qed.

Lemma building_logged l ops row s k : building l ops row s -> row_ok A0 row k -> logged s (l ++ [mkE k ops]).
Proof using Type.
  intros [] Hrow. split.
  - rewrite length_app. cbn. lia.
  - intros r e [Hr|[Hle Hr]]%lookup_app_Some; [by eapply bd_rows0|].
    apply list_lookup_singleton_Some in Hr as [Hr0 <-]. assert (r = length l) as -> by lia. cbn. by rewrite bd_row0.
  - intros i key. rewrite bd_index0, positions_app, reverse_app. cbn. by case_decide.
  - done.
Qed.

(** ** Sequences

    [loads m P]: [m] adds entries that satisfy [P]. *)
Definition loads (m : L unit) (P : list entry -> Prop) : Prop :=
  forall l s, logged s l -> lwp m (fun _ s' => exists es, P es /\ logged s' (l ++ es)) s.

Lemma loads_mono m (P Q : list entry -> Prop) : (forall es, P es -> Q es) -> loads m P -> loads m Q.
Proof using Type.
  intros HPQ H l s Hs. eapply lwp_mono; [by apply H|]. intros _ s' (es & ? & ?). eauto.
Qed.

Lemma loads_ret : loads (lret tt) (fun es => es = []).
Proof using Type. intros l s Hs. exists []. by rewrite app_nil_r. Qed.

Lemma loads_seq m k P Q : loads m P -> loads k Q ->
  loads (m;> k) (fun es => exists a b, es = a ++ b /\ P a /\ Q b).
Proof using Type.
  intros Hm Hk l s Hs. apply lwp_bind. eapply lwp_mono; [by apply Hm|]. intros _ s' (a & Ha & Hs').
  eapply lwp_mono; [by apply Hk|]. intros _ s'' (b & Hb & Hs''). exists (a ++ b). rewrite (assoc_L (++)). eauto 10.
Qed.

Lemma loads_assert (b : bool) k P : b = true -> loads k P -> loads (lget (c_assert b (Some tt));> k) P.
Proof using Type. intros -> Hk l s Hs. by apply Hk. Qed.

(** Parts for [first], [first + 1], ... *)
Definition parts {A} (P : Z -> list A -> Prop) (first n : Z) (es : list A) : Prop :=
  exists ess, es = concat ess /\ Forall2 P (seqZ first n) ess.

Lemma loads_loop (P : Z -> list entry -> Prop) f n first :
  (forall i, first <= i < first + Z.of_nat n -> loads (f i) (P i)) ->
  loads (loop n first f) (parts P first (Z.of_nat n)).
Proof using Type.
  revert first. induction n as [|n IH]; intros first Hf; cbn [loop].
  { eapply loads_mono; [|apply loads_ret]. intros es ->. by exists []. }
  eapply loads_mono; [|apply loads_seq; [apply Hf; lia|apply IH; intros i ?; apply Hf; lia]].
  intros es (a & b & -> & Ha & ess & -> & Hess). exists (a :: ess). split; [done|].
  rewrite seqZ_cons by lia. constructor; [done|]. by replace (Z.pred (Z.of_nat (S n))) with (Z.of_nat n) by lia.
Qed.

Lemma loads_one m ops k :
  (forall l s, logged s l -> lwp m (fun _ s' => logged s' (l ++ [mkE k ops])) s) -> loads m (fun es => es = [mkE k ops]).
Proof using Type. intros H l s Hs. eapply lwp_mono; [by apply H|]. intros ? s' ?. eauto. Qed.
End log.

(** One step of a function that makes a row. *)
Ltac lstep HB :=
  lazymatch goal with
  | |- lwp (lbind _ _) _ _ => apply lwp_bind
  | |- lwp (lret _) _ _ => apply lwp_ret
  | |- lwp (set_col _ _ _) _ _ => eapply lwp_set; [exact HB|reflexivity|clear HB; intros ? HB]
  end; cbn beta.

(** ** The entries *)

Section entries.
Context {tc : TpccConfig}.

Definition item_spec (i : Z) (es : list entry) : Prop := es = [mkE (Some (KI i)) [(I_ITEM, (0%nat, i))]].
Definition wh_spec (w : Z) (es : list entry) : Prop := es = [mkE (Some (KW w)) [(I_WAREHOUSE, (wp_of w, w))]].
Definition dist_spec (w d : Z) (es : list entry) : Prop :=
  es = [mkE (Some (KD w d)) [(I_DISTRICT, (wp_of w, distKey d w))]].
Definition stock_spec (w i : Z) (es : list entry) : Prop :=
  es = [mkE (Some (KS w i)) [(I_STOCK, (wp_of w, stockKey i w))]].

Definition cust_entry (w d c : Z) (name : str) : entry :=
  mkE (Some (KC w d c)) [(I_CUSTOMER_ID, (wp_of w, custKey c d w)); (I_CUSTOMER_LAST, (wp_of w, custNPKey name d w))].
Definition cust_spec (w d c : Z) (es : list entry) : Prop := exists num name,
  0 <= num < 1000 /\ Lastname num = Some name /\ (c <= 1000 -> num = c - 1) /\ es = [cust_entry w d c name].

Definition order_entry (w d o c : Z) : entry :=
  mkE (Some (KO w d o)) [(I_ORDER_CUST, (wp_of w, orderCustKey d c)); (I_ORDER, (dp_of w d, orderPrimaryKey w d o))].
Definition line_entry (w d o : Z) : entry := mkE (Some (KL w d o)) [(I_ORDERLINE, (dp_of w d, orderlineKey w d o))].
Definition new_entry (w d o : Z) : entry := mkE (Some (KN w d o)) [(I_NEWORDER, (wp_of w, distKey d w))].

Definition order_spec (perm : list Z) (w d o : Z) (es : list entry) : Prop := exists c n,
  perm !! Z.to_nat (o - 1) = Some c /\ (5 <= n <= 15)%nat /\
  es = order_entry w d o c :: replicate n (line_entry w d o) ++ (if 2100 <? o then [new_entry w d o] else []).
Definition orders_spec (w d : Z) (es : list entry) : Prop := exists perm,
  perm ≡ₚ seqZ 1 g_cust_per_dist /\ parts (order_spec perm w d) 1 g_cust_per_dist es.

Definition hist_spec (es : list entry) : Prop := Forall (fun e => e = mkE None []) es.

Definition district_spec (w d : Z) (es : list entry) : Prop := exists a b c, es = a ++ b ++ c /\
  parts (cust_spec w d) 1 g_cust_per_dist a /\ orders_spec w d b /\ hist_spec c.

Definition warehouse_spec (w : Z) (es : list entry) : Prop := exists i a b c ds, es = i ++ a ++ b ++ c ++ ds /\
  (if w =? 1 then parts item_spec 1 g_max_items i else i = []) /\ wh_spec w a /\
  parts (dist_spec w) 1 DIST_PER_WARE b /\ parts (stock_spec w) 1 g_max_items c /\
  parts (district_spec w) 1 DIST_PER_WARE ds.

Definition loaded (es : list entry) : Prop := parts (fun tid => warehouse_spec (tid + 1)) 0 g_num_wh es.
End entries.

(** The counters after loading. *)
Definition abs0 : abs := mkAbs (fun _ => 300000) (fun _ _ => 30000) (fun _ _ => 3001) (fun _ _ => 2101).

(** ** The functions of the loader *)

Section functions.
Context {tc : TpccConfig} {tok : TpccConfigOk} {dd : Doubles}.
Context (lrand48 : Z -> nat -> Z) (Hrand : forall b i, 0 <= lrand48 b i < 2 ^ 31).
Context (dquot : Z -> Z -> Z).

Notation loads := (loads abs0).
Notation building := (building abs0).
Notation logged := (logged abs0).

Lemma draws_yields n lo hi thd : 0 <= lo -> lo <= hi -> hi < 2 ^ 63 ->
  yields (draws lrand48 n lo hi thd) (fun l => length l = n).
Proof using Hrand.
  intros. induction n as [|n IH]; cbn [draws]; [by apply yields_ret|].
  eapply yields_bind; [by apply URand_yields|]. intros x _. eapply yields_bind; [exact IH|]. intros l Hl.
  apply yields_ret. cbn. by rewrite Hl.
Qed.

Lemma alpha_yields min max thd : 0 <= min -> min <= max -> max < 2 ^ 32 ->
  yields (MakeAlphaString lrand48 min max thd) (fun l => min <= Z.of_nat (length l) <= max).
Proof using Hrand.
  intros. unfold MakeAlphaString. eapply yields_bind; [apply URand_yields; [done|lia..]|]. intros cnt Hc.
  unfold in_range in Hc. eapply yields_weaken; [|apply draws_yields; lia]. cbn. intros l ->. lia.
Qed.

Lemma number_yields min max thd : 0 <= min -> min <= max -> max < 2 ^ 32 ->
  yields (MakeNumberString lrand48 min max thd) (fun l => min <= Z.of_nat (length l) <= max).
Proof using Hrand.
  intros. unfold MakeNumberString. eapply yields_bind; [apply URand_yields; [done|lia..]|]. intros cnt Hc.
  unfold in_range in Hc. eapply yields_weaken; [|apply draws_yields; lia]. cbn. intros l ->. lia.
Qed.

(** A random value; a random string. *)
#[local] Ltac lrandom HB x Hx :=
  eapply lwp_draw; [exact HB|first [apply URand_yields; [exact Hrand|lia..]|apply RAND_yields; [exact Hrand|lia]
    |apply alpha_yields; lia|apply number_yields; lia|apply NURand_yields; [exact Hrand|by left|lia..]]|clear HB; intros x ? Hx HB].
#[local] Ltac lstring HB :=
  let x := fresh in let Hx := fresh in lrandom HB x Hx; clear x Hx.
#[local] Ltac ladd HB :=
  eapply lwp_add; [exact HB|reflexivity|try by apply not_elem_of_nil|clear HB; intros ? HB].
#[local] Ltac lpart := lazymatch goal with |- lwp (lget (wh_to_part _)) _ _ =>
  eapply lwp_get; [apply wh_to_part_value|] end.

Lemma load_item_loads i : loads (load_item lrand48 0 i) (item_spec i).
Proof using Hrand.
  apply loads_one. intros l s Hs. unfold load_item. lstep HB. eapply lwp_new_row; [exact Hs|]. intros s1 row HB.
  do 2 lstep HB. lstep HB. lrandom HB im Him. do 2 lstep HB. lstep HB. lstring HB. lstep HB. lrandom HB price Hp.
  do 2 lstep HB. lstep HB. lstring HB. lstep HB. lstring HB. ladd HB.
  eapply building_logged; [exact HB|done].
Qed.

Lemma draw_address_building l ops row thd (Q : unit -> lstate -> Prop) s : building l ops row s ->
  (forall s', building l ops row s' -> Q tt s') -> lwp (draw_address lrand48 thd) Q s.
Proof using Hrand.
  intros HB HQ. unfold draw_address. do 6 (lstep HB; lstring HB). lstep HB. by apply HQ.
Qed.

Lemma init_tab_wh_loads w : is_wh w -> loads (init_tab_wh lrand48 dquot w) (wh_spec w).
Proof using tok Hrand.
  intros Hw. unfold init_tab_wh. apply loads_assert.
  { unfold is_wh in Hw. rewrite andb_true_iff, !Z.leb_le. lia. }
  apply loads_one. intros l s Hs. lstep HB. eapply lwp_new_row; [exact Hs|]. intros s1 row HB.
  do 3 lstep HB. eapply draw_address_building; [exact HB|]. clear HB. intros s2 HB.
  lstep HB. lrandom HB tax Ht. do 4 lstep HB. lstep HB. lpart. ladd HB. by eapply building_logged; [exact HB|].
Qed.

Lemma load_dist_loads w d : loads (load_dist lrand48 dquot w d) (dist_spec w d).
Proof using tok Hrand.
  apply loads_one. intros l s Hs. unfold load_dist. lstep HB. eapply lwp_new_row; [exact Hs|]. intros s1 row HB.
  do 5 lstep HB. eapply draw_address_building; [exact HB|]. clear HB. intros s2 HB.
  lstep HB. lrandom HB tax Ht. do 6 lstep HB. lstep HB. lpart. ladd HB. by eapply building_logged; [exact HB|].
Qed.
Lemma loop_building n first f l ops row s (Q : unit -> lstate -> Prop) :
  (forall i s' (R : unit -> lstate -> Prop), building l ops row s' ->
     (forall s'', building l ops row s'' -> R tt s'') -> lwp (f i) R s') ->
  building l ops row s -> (forall s', building l ops row s' -> Q tt s') -> lwp (loop n first f) Q s.
Proof using Type.
  intros Hf. revert first s. induction n as [|n IH]; intros first s HB HQ; cbn [loop]; [by apply HQ|].
  apply lwp_bind. eapply Hf; [exact HB|]. intros s' HB'. by apply IH.
Qed.

Lemma load_stock_loads w i : loads (load_stock lrand48 false w i) (stock_spec w i).
Proof using tok Hrand.
  apply loads_one. intros l s Hs. unfold load_stock, load_stock_full. lstep HB.
  eapply lwp_new_row; [exact Hs|]. intros s1 row HB.
  do 5 lstep HB. lrandom HB q Hq. do 4 lstep HB. do 2 lstep HB.
  eapply loop_building; [|exact HB|clear HB; intros s2 HB].
  { clear HB. intros j s3 R HB HR. lstep HB. lstring HB. lstep HB. by apply HR. }
  do 4 lstep HB. lstep HB. lrandom HB txt Htxt. lstep HB. lrandom HB x Hx. destruct (x <? 10).
  - lstep HB. cbn beta in Htxt. lrandom HB idx Hi. lstep HB. lstep HB. lpart. ladd HB. by eapply building_logged; [exact HB|].
  - lstep HB. lstep HB. lpart. ladd HB. by eapply building_logged; [exact HB|].
Qed.

Lemma load_cust_loads w d c : 1 <= c -> loads (load_cust lrand48 false dquot d w c) (cust_spec w d c).
Proof using tok Hrand.
  intros Hc l s Hs. unfold load_cust, load_cust_full. lstep HB.
  eapply lwp_new_row; [exact Hs|]. intros s1 row HB. do 6 lstep HB. lstep HB.
  match goal with |- lwp _ ?Q _ => set (QQ := Q) end.
  match type of HB with TpccLoadLog.building _ _ _ ?R _ => set (row1 := R) in HB end.
  assert (forall num s', 0 <= num < 1000 -> (c <= 1000 -> num = c - 1) -> building l [] row1 s' -> QQ num s') as Hrest.
  { clear s1 HB. intros num s1 Hnum Hsmall HB. unfold QQ. destruct (Lastname_some num Hnum) as [name Hname].
    lstep HB. eapply lwp_get; [exact Hname|]. lstep HB. do 7 (lstep HB; lstring HB). do 6 lstep HB. lstep HB.
    lstring HB. lstep HB. lstep HB. lstring HB. lstep HB. lrandom HB disc Hdisc. do 8 lstep HB. lstep HB. lpart.
    lstep HB. ladd HB. eapply lwp_add; [exact HB|reflexivity|by intros [[=]|?%not_elem_of_nil]%elem_of_cons|].
    clear HB. intros ? HB. eexists. split; [exists num, name; split_and!; [lia|lia|done|done|reflexivity]|].
    by eapply building_logged; [exact HB|]. }
  clearbody QQ. destruct (c <=? 1000) eqn:E; b2p.
  - apply lwp_ret, Hrest; [lia|done|done].
  - lrandom HB num Hnum. unfold in_range in Hnum. apply Hrest; [lia|lia|done].
Qed.

Lemma init_tab_hist_loads c d w : loads (init_tab_hist lrand48 false c d w) hist_spec.
Proof using Hrand.
  eapply loads_mono; [|apply (loads_one _ _ [] None)].
  { intros es ->. by apply Forall_singleton. }
  intros l s Hs. unfold init_tab_hist. lstep HB. eapply lwp_new_row; [exact Hs|]. intros s1 row HB.
  do 14 lstep HB. lstep HB. lstring HB. lstep HB. by eapply building_logged; [exact HB|].
Qed.
(** *** Orders *)

Lemma shuffle_yields n i w perm :
  0 <= i -> i + Z.of_nat n = g_cust_per_dist - 1 -> perm ≡ₚ seqZ 1 g_cust_per_dist ->
  yields (shuffle lrand48 n i w perm) (fun perm => perm ≡ₚ seqZ 1 g_cust_per_dist).
Proof using tok Hrand.
  revert i perm. induction n as [|n IH]; intros i perm Hi Hn Hperm; cbn [shuffle]; [by apply yields_ret|].
  pose proof cust_ok. eapply yields_bind; [apply URand_yields; [done|lia..]|]. intros j Hj. unfold in_range in Hj.
  pose proof (Permutation_length Hperm) as Hlen. rewrite length_seqZ in Hlen.
  destruct (lookup_lt_is_Some_2 perm (Z.to_nat i)) as [a Ha]; [lia|].
  destruct (lookup_lt_is_Some_2 perm (Z.to_nat j)) as [b Hb]; [lia|]. rewrite Ha, Hb.
  apply IH; [lia|lia|]. rewrite <- Hperm. by apply Permutation_insert_swap.
Qed.

Lemma init_permutation_yields w :
  yields (init_permutation lrand48 w) (fun perm => perm ≡ₚ seqZ 1 g_cust_per_dist).
Proof using tok Hrand. pose proof cust_ok. apply shuffle_yields; [lia|lia|done]. Qed.

Lemma load_orderline_loads d w o ol : 100000 <= g_max_items ->
  loads (load_orderline lrand48 true dquot d w o ol) (fun es => es = [line_entry w d o]).
Proof using Hrand.
  intros Hmax. apply loads_one. intros l s Hs. unfold load_orderline. lstep HB.
  eapply lwp_new_row; [exact Hs|]. intros s1 row HB.
  do 9 lstep HB. lrandom HB i Hi. unfold in_range in Hi. do 4 lstep HB. lstep HB.
  match goal with |- lwp _ ?Q _ => set (QQ := Q) end.
  assert (forall s' row', row' OL_I_ID = i -> building l [] row' s' -> QQ tt s') as Hrest.
  { clear s1 HB. intros s1 row' Hrow HB. unfold QQ. do 2 lstep HB. lstep HB. lstring HB. ladd HB.
    eapply building_logged; [exact HB|]. cbn. unfold is_item.
    rewrite fn_lookup_insert_ne by done. lia. }
  clearbody QQ. destruct (o <? 2101).
  - do 3 lstep HB. eapply Hrest; [|exact HB]. reflexivity.
  - do 2 lstep HB. lstep HB. lrandom HB x Hx. lstep HB. eapply Hrest; [|exact HB]. reflexivity.
Qed.

Lemma load_neworder_loads d w o : loads (load_neworder true d w o) (fun es => es = [new_entry w d o]).
Proof using tok.
  apply loads_one. intros l s Hs. unfold load_neworder. lstep HB. eapply lwp_new_row; [exact Hs|]. intros s1 row HB.
  do 6 lstep HB. lstep HB. lpart. ladd HB. by eapply building_logged; [exact HB|].
Qed.

Lemma parts_replicate (e : entry) first n es : parts (fun _ es => es = [e]) first (Z.of_nat n) es -> es = replicate n e.
Proof using Type.
  intros (ess & -> & H). revert first ess H. induction n as [|n IH]; intros first ess H.
  { by apply Forall2_nil_inv_l in H as ->. }
  rewrite seqZ_cons in H by lia. apply Forall2_cons_inv_l in H as (x & ess' & -> & H & ->). cbn. f_equal.
  apply (IH (Z.succ first)). by replace (Z.of_nat n) with (Z.pred (Z.of_nat (S n))) by lia.
Qed.

Lemma load_order_loads perm d w o :
  100000 <= g_max_items -> perm ≡ₚ seqZ 1 g_cust_per_dist -> 1 <= o <= g_cust_per_dist ->
  loads (load_order lrand48 false true dquot perm d w o) (order_spec perm w d o).
Proof using tok Hrand.
  intros Hmax Hperm Ho l s Hs. unfold load_order. pose proof (Permutation_length Hperm) as Hlen. rewrite length_seqZ in Hlen.
  destruct (lookup_lt_is_Some_2 perm (Z.to_nat (o - 1))) as [c Hc]; [lia|].
  assert (is_cust c) as Hcust.
  { apply list_elem_of_lookup_2 in Hc. rewrite Hperm, elem_of_seqZ in Hc. unfold is_cust. lia. }
  lstep HB. eapply lwp_new_row; [exact Hs|]. intros s1 row HB. lstep HB. eapply lwp_get; [exact Hc|].
  do 10 lstep HB. lstep HB. match goal with |- lwp _ ?Q _ => set (QQ := Q) end.
  match type of HB with TpccLoadLog.building _ _ _ ?R _ => set (row1 := R) in HB end.
  assert (forall v s', building l [] row1 s' -> QQ v s') as Hrest.
  { clear s1 HB. intros v s1 HB. unfold QQ. do 2 lstep HB. lstep HB. lrandom HB n Hn. unfold in_range in Hn.
    do 4 lstep HB. do 2 lstep HB. ladd HB. lstep HB. lpart.
    eapply lwp_add; [exact HB|reflexivity|by intros [[=]|?%not_elem_of_nil]%elem_of_cons|]. clear HB. intros s2 HB.
    apply (building_logged _ _ _ _ _ (Some (KO w d o))) in HB; [|by split].
    eapply lwp_mono.
    { eapply (loads_seq abs0 _ _ (fun es => es = replicate (Z.to_nat n) (line_entry w d o))
        (fun es => es = if 2100 <? o then [new_entry w d o] else [])); [| |exact HB].
      - eapply loads_mono; [apply parts_replicate|]. apply loads_loop. intros i _. by apply load_orderline_loads.
      - destruct (2100 <? o); [apply load_neworder_loads|apply loads_ret]. }
    intros ? s3 (es & (a & b & -> & -> & ->) & Hlog). rewrite <- (assoc_L (++)) in Hlog. eexists. split; [|exact Hlog].
    exists c, (Z.to_nat n). split_and!; [done|lia|lia|done]. }
  clearbody QQ. destruct (o <? 2101).
  - lrandom HB v Hv. by eapply Hrest.
  - apply lwp_ret. by eapply Hrest.
Qed.

Lemma init_tab_order_loads d w : 100000 <= g_max_items ->
  loads (init_tab_order lrand48 false true dquot d w) (orders_spec w d).
Proof using tok Hrand.
  intros Hmax l s Hs. pose proof cust_ok. unfold init_tab_order. apply lwp_bind.
  eapply lwp_draw_logged; [exact Hs|apply init_permutation_yields|]. intros perm s1 Hperm Hs1.
  eapply lwp_mono; [eapply (loads_loop abs0 (order_spec perm w d)); [|exact Hs1]|].
  { intros i Hi. apply load_order_loads; [done|done|lia]. }
  intros ? s2 (es & Hes & Hlog). exists es. split; [|done]. exists perm. split; [done|].
  by rewrite Z2Nat.id in Hes by lia.
Qed.

(** *** Everything *)

Lemma loads_parts (P : Z -> list entry -> Prop) f first n : 0 <= n ->
  (forall i, first <= i < first + n -> loads (f i) (P i)) -> loads (loop (Z.to_nat n) first f) (parts P first n).
Proof using Type.
  intros Hn Hf. rewrite <- (Z2Nat.id n) at 2 by done. apply loads_loop. by rewrite Z2Nat.id.
Qed.

Lemma load_district_loads d w : 1000 <= g_cust_per_dist -> 100000 <= g_max_items ->
  loads (load_district lrand48 false true dquot w d) (district_spec w d).
Proof using tok Hrand.
  intros Hc Hmax. unfold load_district, init_tab_cust.
  eapply loads_mono; [|apply loads_seq; [apply loads_assert, (loads_parts (cust_spec w d)); [lia|lia|]|
    apply loads_seq; [by apply init_tab_order_loads|apply (loads_parts (fun _ => hist_spec)); [lia|]]]].
  - intros es (a & b & -> & Ha & b' & c & -> & Hb & Hcs). exists a, b', c. split_and!; try done.
    destruct Hcs as (ess & -> & H). unfold hist_spec. rewrite Forall_concat.
    generalize dependent (seqZ 1 g_cust_per_dist). intros l H. by induction H; constructor.
  - intros i Hi. apply load_cust_loads. lia.
  - intros i _. apply init_tab_hist_loads.
Qed.

Lemma threadInitWarehouse_loads tid :
  1000 <= g_cust_per_dist -> 100000 <= g_max_items -> 0 <= tid < g_num_wh ->
  loads (threadInitWarehouse lrand48 false true dquot tid) (warehouse_spec (tid + 1)).
Proof using tok Hrand.
  intros Hc Hmax Ht. pose proof dist_ok. pose proof items_ok. unfold threadInitWarehouse. apply loads_assert; [apply Z.ltb_lt; lia|].
  eapply loads_mono; [|apply loads_seq; [|apply loads_seq; [apply init_tab_wh_loads; unfold is_wh; lia|
    apply loads_seq; [apply (loads_parts (dist_spec (tid + 1))); [lia|intros ? ?; apply load_dist_loads]|
    apply loads_seq; [apply (loads_parts (stock_spec (tid + 1))); [lia|intros ? ?; apply load_stock_loads]|
    apply (loads_parts (district_spec (tid + 1))); [lia|intros ? ?; by apply load_district_loads]]]]]].
  - intros es (i & x & -> & Hi & a & y & -> & Ha & b & z & -> & Hb & c & ds & -> & Hcs & Hds).
    exists i, a, b, c, ds. split_and!; try done. exact Hi.
  - replace (tid + 1 =? 1) with (tid =? 0) by (apply eq_true_iff_eq; rewrite !Z.eqb_eq; lia).
    destruct (tid =? 0); [|apply loads_ret]. apply (loads_parts item_spec); [lia|]. intros i _. apply load_item_loads.
Qed.

Lemma parts_snoc {A} (P : Z -> list A -> Prop) first n m a b : 0 <= n -> 0 <= m -> parts P first n a -> parts P (first + n) m b -> parts P first (n + m) (a ++ b).
Proof using Type.
  intros Hn Hm (xs & -> & Hx) (ys & -> & Hy). exists (xs ++ ys). rewrite concat_app. split; [done|].
  rewrite seqZ_app by done. by apply Forall2_app.
Qed.

Lemma share_value T t : 0 < T < 2 ^ 31 -> 0 <= t < T ->
  let q := g_num_wh / T in let rest := g_num_wh - q * T in
  thread_share T t = (q + (if t <? rest then 1 else 0), q * t + Z.min t rest) /\
  0 <= q /\ 0 <= rest < T /\ q * t + Z.min t rest + (q + (if t <? rest then 1 else 0)) <= g_num_wh.
Proof using tok.
  intros HT Ht q rest. pose proof wh_ok as Hwh.
  assert (0 <= q <= g_num_wh) as Hq by (split; [apply Z.div_pos; lia|apply Z.div_le_upper_bound; nia]).
  pose proof (Z.mul_div_le g_num_wh T ltac:(lia)) as Hle. pose proof (Z.mul_succ_div_gt g_num_wh T ltac:(lia)) as Hgt.
  fold q in Hle, Hgt. assert (0 <= rest < T) as Hrest by (unfold rest; nia).
  assert (0 <= q * t <= g_num_wh) by nia. assert (0 <= q * T <= g_num_wh) by nia.
  assert (q * t + Z.min t rest + (q + (if t <? rest then 1 else 0)) <= g_num_wh) as Hsum.
  { unfold rest in *. destruct (Z.ltb_spec t (g_num_wh - q * T)); nia. }
  split_and!; try lia. unfold thread_share. fold q.
  rewrite (u32_small q), (u32_small T), (u32_small t) by (unfold is_u32; lia).
  rewrite (u32_small (q * T)), (u32_small (q * t)) by (unfold is_u32; lia).
  fold rest. rewrite (u32_small rest) by (unfold is_u32; lia).
  rewrite (u32_small (q + _)), u32_small by (unfold is_u32; destruct (t <? rest); lia). done.
Qed.

(** The shares of the first [t] threads are the first warehouses, each once. *)
Lemma shares_parts {A} (P : Z -> list A -> Prop) T t es : 0 < T < 2 ^ 31 -> Z.of_nat t <= T ->
  parts (fun t => parts P (thread_share T t).2 (thread_share T t).1) 0 (Z.of_nat t) es ->
  parts P 0 (g_num_wh / T * Z.of_nat t + Z.min (Z.of_nat t) (g_num_wh - g_num_wh / T * T)) es.
Proof using tok.
  intros HT Ht (ess & -> & H). revert ess H. induction t as [|t IH]; intros ess H.
  { pose proof (share_value T 0 HT ltac:(lia)) as (_ & _ & ? & _).
    apply Forall2_nil_inv_l in H as ->. replace (g_num_wh / T * Z.of_nat 0 + _) with 0 by lia. by exists []. }
  pose proof (share_value T (Z.of_nat t) HT ltac:(lia)) as (E & Hq & Hrest & Hsum).
  replace (Z.of_nat (S t)) with (Z.of_nat t + 1) in H by lia. rewrite seqZ_app, Z.add_0_l in H by lia.
  rewrite (seqZ_cons (Z.of_nat t)), (seqZ_nil _ (Z.pred 1)) in H by lia.
  apply Forall2_app_inv_l in H as (xs & ys & Hx & Hy & ->). rewrite concat_app.
  apply Forall2_cons_inv_l in Hy as (y & ys' & Hy & ->%Forall2_nil_inv_l & ->). cbn [concat]. rewrite app_nil_r.
  rewrite E in Hy. cbn [fst snd] in Hy. set (q := g_num_wh / T) in *. set (rest := g_num_wh - q * T) in *.
  replace (q * Z.of_nat (S t) + Z.min (Z.of_nat (S t)) rest) with
    (q * Z.of_nat t + Z.min (Z.of_nat t) rest + (q + (if Z.of_nat t <? rest then 1 else 0)))
    by (destruct (Z.ltb_spec (Z.of_nat t) rest); lia).
  apply parts_snoc; [nia|destruct (_ <? _); lia|apply IH; [lia|done]|]. by rewrite Z.add_0_l.
Qed.

Lemma init_loads T : 1000 <= g_cust_per_dist -> 100000 <= g_max_items -> 0 < T < 2 ^ 31 ->
  exists s es, init lrand48 false true dquot T = Some (mkDb (l_rows s) (l_index s) (l_next s) (fun _ => false)) /\
    loaded es /\ logged s es.
Proof using tok Hrand.
  intros Hc Hmax HT. pose proof wh_ok. unfold init, init_table.
  match goal with |- context [loop _ _ _ ?s] => set (s0 := s) end.
  assert (logged s0 []) as H0 by (split; try done; by repeat split).
  match goal with |- context [loop ?n ?f ?m s0] => assert (loads (loop n f m) loaded) as HL end.
  { eapply loads_mono; [|apply (loads_parts
      (fun t => parts (fun tid => warehouse_spec (tid + 1)) (thread_share T t).2 (thread_share T t).1)); [lia|]].
    - intros es Hes. pose proof (shares_parts (fun tid => warehouse_spec (tid + 1)) T (Z.to_nat T) es HT ltac:(lia)) as Hs.
      rewrite Z2Nat.id in Hs by lia. specialize (Hs Hes). unfold loaded. clear Hes. rename Hs into Hes.
      replace (g_num_wh / T * T + _) with g_num_wh in Hes; [done|].
      pose proof (Z.mul_div_le g_num_wh T ltac:(lia)). pose proof (Z.mul_succ_div_gt g_num_wh T ltac:(lia)). nia.
    - intros t Ht. destruct (share_value T t HT ltac:(lia)) as (-> & Hq & Hrest & Hsum). cbn [fst snd].
      apply (loads_parts (fun tid => warehouse_spec (tid + 1))); [destruct (_ <? _); lia|].
      intros i Hi. apply threadInitWarehouse_loads; [done|done|nia]. }
  specialize (HL [] s0 H0). unfold lwp in HL. destruct (loop _ _ _ s0) as [[u s]|]; [|done].
  destruct HL as (es & Hes & Hlog). exists s, es. done.
Qed.
End functions.
