(* ===== verification/TpccLoaded.v ===== *)
(** * TPC-C: the loaded database is consistent

    With the standard sizes the database that the loader leaves satisfies [rep] of
    TpccRep.v.  So the consistency conditions of TpccConsistency.v hold from the load
    on ([tpcc_loaded_consistent]). *)

From Stdlib Require Import Ascii.
From stdpp Require Import list functions.
From S2P Require Import Prelude Global Storage TpccKeys TpccQuery TpccTxn TpccRep TpccSpec TpccConsistency TpccLoad TpccLoadLog.

(** ** Filters over the parts *)

Section filters.
Context (X : entry -> Prop) `{forall e, Decision (X e)}.

Lemma filter_nothing (es : list entry) : (forall e, e ∈ es -> ~ X e) -> filter X es = [].
Proof using Type.
  induction es as [|e es IH]; intros Hn; [done|]. rewrite filter_cons_False by (apply Hn; by left).
  apply IH. intros e' ?. apply Hn. by right.
Qed.

Lemma filter_parts_none P first n es : parts P first n es ->
  (forall i es', first <= i < first + n -> P i es' -> filter X es' = []) -> filter X es = [].
Proof using Type.
  intros (ess & -> & Hp) Hn.
  assert (forall i es', i ∈ seqZ first n -> P i es' -> filter X es' = []) as Hn'.
  { intros i es' Hi. apply Hn. by apply elem_of_seqZ in Hi. }
  clear Hn. induction Hp as [|i es js ess Hi Hp IH]; [done|]. cbn. rewrite filter_app, (Hn' i) by (done || by left).
  apply IH. intros j es' ?. apply Hn'. by right.
Qed.

Lemma filter_parts_one P first n es a : parts P first n es -> first <= a < first + n ->
  (forall i es', first <= i < first + n -> i <> a -> P i es' -> filter X es' = []) ->
  exists es', P a es' /\ filter X es = filter X es'.
Proof using Type.
  intros (ess & -> & Hp) Ha Hn.
  assert (forall i es', i ∈ seqZ first n -> i <> a -> P i es' -> filter X es' = []) as Hn'.
  { intros i es' Hi. apply Hn. by apply elem_of_seqZ in Hi. }
  assert (a ∈ seqZ first n) as Hin by by apply elem_of_seqZ. pose proof (NoDup_seqZ first n) as Hnd. clear Hn Ha.
  induction Hp as [|i es js ess Hi Hp IH]; [by apply not_elem_of_nil in Hin|]. cbn. rewrite filter_app.
  apply NoDup_cons in Hnd as [Hni Hnd]. apply elem_of_cons in Hin as [->|Hin].
  - exists es. split; [done|]. replace (filter X (concat ess)) with (@nil entry); [by rewrite app_nil_r|].
    assert (forall j es', j ∈ js -> P j es' -> filter X es' = []) as Hn2.
    { intros j es' Hj. apply Hn'; [by right|]. by intros ->. }
    clear -Hp Hn2. induction Hp as [|j es js ess Hj Hp IH]; [done|]. cbn. rewrite filter_app, (Hn2 j) by (done || by left).
    apply IH. intros k es' ?. apply Hn2. by right.
  - rewrite (Hn' i) by (done || (by left) || (by intros ->)). apply IH; [|done|done]. intros j es' ?. apply Hn'. by right.
Qed.
End filters.

Lemma parts_sub P first n (es : list entry) a : parts P first n es -> first <= a < first + n ->
  exists es', P a es' /\ forall e : entry, e ∈ es' -> e ∈ es.
Proof.
  intros (ess & -> & Hp) Ha. assert (a ∈ seqZ first n) as Hin by by apply elem_of_seqZ. clear Ha.
  induction Hp as [|i es js ess Hi Hp IH]; [by apply not_elem_of_nil in Hin|]. cbn. apply elem_of_cons in Hin as [->|Hin].
  - exists es. split; [done|]. intros e ?. apply elem_of_app. by left.
  - destruct (IH Hin) as (es' & ? & Hsub). exists es'. split; [done|]. intros e ?. apply elem_of_app. right. by apply Hsub.
Qed.

(** The members of the parts. *)
Lemma parts_elem P first n es (e : entry) : parts P first n es -> e ∈ es -> exists i es', first <= i < first + n /\ P i es' /\ e ∈ es'.
Proof.
  intros (ess & -> & Hp) He.
  assert (exists i es', i ∈ seqZ first n /\ P i es' /\ e ∈ es') as (i & es' & Hi & ? & ?).
  { induction Hp as [|i es js ess Hi Hp IH]; [by apply not_elem_of_nil in He|]. cbn in He.
    apply elem_of_app in He as [?|He]; [exists i, es; split; [by left|done]|].
    destruct (IH He) as (j & es' & ? & ?). exists j, es'. split; [by right|done]. }
  exists i, es'. split; [by apply elem_of_seqZ|done].
Qed.

Section loaded.
Context {tc : TpccConfig} {tok : TpccConfigOk}.

(** An entry of warehouse [w]; those of a district are marked with it. *)
Inductive ent (w : Z) : option Z -> entry -> Prop :=
  | ent_item i : w = 1 -> is_item i -> ent w None (mkE (Some (KI i)) [(I_ITEM, (0%nat, i))])
  | ent_wh : ent w None (mkE (Some (KW w)) [(I_WAREHOUSE, (wp_of w, w))])
  | ent_dist d : is_dist d -> ent w None (mkE (Some (KD w d)) [(I_DISTRICT, (wp_of w, distKey d w))])
  | ent_stock i : is_item i -> ent w None (mkE (Some (KS w i)) [(I_STOCK, (wp_of w, stockKey i w))])
  | ent_cust d c num name : is_dist d -> is_cust c -> 0 <= num < 1000 -> Lastname num = Some name ->
      ent w (Some d) (cust_entry w d c name)
  | ent_order d o c : is_dist d -> 1 <= o <= g_cust_per_dist -> is_cust c -> ent w (Some d) (order_entry w d o c)
  | ent_line d o : is_dist d -> 1 <= o <= g_cust_per_dist -> ent w (Some d) (line_entry w d o)
  | ent_new d o : is_dist d -> 1 <= o <= g_cust_per_dist -> ent w (Some d) (new_entry w d o)
  | ent_hist d : is_dist d -> ent w (Some d) (mkE None []).

Lemma order_ent perm w d o es e : perm ≡ₚ seqZ 1 g_cust_per_dist -> is_dist d -> 1 <= o <= g_cust_per_dist ->
  order_spec perm w d o es -> e ∈ es -> ent w (Some d) e.
Proof using Type.
  intros Hperm Hd Ho (c & n & Hc & _ & ->) [->|He]%elem_of_cons.
  { apply ent_order; [done|done|]. apply list_elem_of_lookup_2 in Hc. rewrite Hperm, elem_of_seqZ in Hc.
    unfold is_cust. lia. }
  apply elem_of_app in He as [He|He].
  - apply elem_of_replicate in He as [-> _]. by apply ent_line.
  - destruct (2100 <? o); [apply list_elem_of_singleton in He as ->; by apply ent_new|by apply not_elem_of_nil in He].
Qed.

Lemma district_ent w d es e : is_dist d -> district_spec w d es -> e ∈ es -> ent w (Some d) e.
Proof using Type.
  intros Hd (a & b & c & -> & Ha & (perm & Hperm & Hb) & Hc) [He|[He|He]%elem_of_app]%elem_of_app.
  - destruct (parts_elem _ _ _ _ _ Ha He) as (i & es' & Hi & (num & name & ? & ? & _ & ->) & ->%list_elem_of_singleton).
    eapply ent_cust; [done|unfold is_cust; lia|done|done].
  - destruct (parts_elem _ _ _ _ _ Hb He) as (o & es' & Ho & Hes & He'). eapply (order_ent perm w d o); [done|done|lia|done|done].
  - unfold hist_spec in Hc. rewrite Forall_forall in Hc. rewrite (Hc e He). by apply ent_hist.
Qed.

Lemma warehouse_ent w es e : warehouse_spec w es -> e ∈ es -> exists od, ent w od e.
Proof using Type.
  intros (i & a & b & c & ds & -> & Hi & -> & Hb & Hc & Hds). rewrite !elem_of_app, list_elem_of_singleton.
  intros [He|[->|[He|[He|He]]]].
  - destruct (w =? 1) eqn:E; [|subst i; by apply not_elem_of_nil in He]. b2p.
    destruct (parts_elem _ _ _ _ _ Hi He) as (j & es' & Hj & -> & ->%list_elem_of_singleton).
    exists None. apply ent_item; [done|unfold is_item; lia].
  - exists None. apply ent_wh.
  - destruct (parts_elem _ _ _ _ _ Hb He) as (d & es' & Hd & -> & ->%list_elem_of_singleton).
    exists None. apply ent_dist. unfold is_dist. lia.
  - destruct (parts_elem _ _ _ _ _ Hc He) as (j & es' & Hj & -> & ->%list_elem_of_singleton).
    exists None. apply ent_stock. unfold is_item. lia.
  - destruct (parts_elem _ _ _ _ _ Hds He) as (d & es' & Hd & Hes & He'). exists (Some d).
    eapply district_ent; [unfold is_dist; lia|done|done].
Qed.

Lemma loaded_ent es e : loaded es -> e ∈ es -> exists w od, is_wh w /\ ent w od e.
Proof using Type.
  intros Hl He. destruct (parts_elem _ _ _ _ _ Hl He) as (tid & es' & Ht & Hes & He').
  destruct (warehouse_ent _ _ _ Hes He') as [od Hod]. exists (tid + 1), od. split; [unfold is_wh; lia|done].
Qed.

(** The entries of one warehouse, and of one district. *)
Lemma filter_warehouse X `{forall e, Decision (X e)} es w : loaded es -> is_wh w ->
  (forall w' od e, w' <> w -> ent w' od e -> ~ X e) ->
  exists es', warehouse_spec w es' /\ filter X es = filter X es'.
Proof using Type.
  intros Hl Hw Hn. destruct (filter_parts_one X _ _ _ _ (w - 1) Hl) as (es' & Hes & E).
  { unfold is_wh in Hw. lia. }
  { intros tid es' _ Hne Hes. apply filter_nothing. intros e He. destruct (warehouse_ent _ _ _ Hes He) as [od Hod].
    eapply Hn; [|exact Hod]. lia. }
  exists es'. split; [|done]. by replace (w - 1 + 1) with w in Hes by lia.
Qed.

Lemma filter_district X `{forall e, Decision (X e)} es w d : warehouse_spec w es -> is_dist d ->
  (forall od e, od <> Some d -> ent w od e -> ~ X e) ->
  exists es', district_spec w d es' /\ filter X es = filter X es'.
Proof using Type.
  intros (i & a & b & c & ds & -> & Hi & -> & Hb & Hc & Hds) Hd Hn.
  destruct (filter_parts_one X _ _ _ _ d Hds) as (es' & Hes & E).
  { unfold is_dist in Hd. lia. }
  { intros d' es' Hd' Hne Hes. apply filter_nothing. intros e He. eapply (Hn (Some d')); [congruence|].
    eapply district_ent; [unfold is_dist; lia|done|done]. }
  exists es'. split; [done|]. rewrite !filter_app, E.
  assert (forall l, (forall e, e ∈ l -> ent w None e) -> filter X l = []) as Hnone.
  { intros l Hl. apply filter_nothing. intros e He. eapply (Hn None); [done|by apply Hl]. }
  rewrite (Hnone i), (Hnone [_]), (Hnone b), (Hnone c); [done| | | |].
  - intros e He. destruct (parts_elem _ _ _ _ _ Hc He) as (j & es2 & Hj & -> & ->%list_elem_of_singleton).
    apply ent_stock. unfold is_item. lia.
  - intros e He. destruct (parts_elem _ _ _ _ _ Hb He) as (j & es2 & Hj & -> & ->%list_elem_of_singleton).
    apply ent_dist. unfold is_dist. lia.
  - intros e ->%list_elem_of_singleton. apply ent_wh.
  - intros e He. destruct (w =? 1) eqn:Ew; [|subst i; by apply not_elem_of_nil in He]. b2p.
    destruct (parts_elem _ _ _ _ _ Hi He) as (j & es2 & Hj & -> & ->%list_elem_of_singleton).
    apply ent_item; [done|unfold is_item; lia].
Qed.
(** The parts of a warehouse and of a district. *)
Lemma warehouse_parts w es : warehouse_spec w es -> exists i b c ds,
  es = i ++ [mkE (Some (KW w)) [(I_WAREHOUSE, (wp_of w, w))]] ++ b ++ c ++ ds /\
  (forall e, e ∈ i -> exists j, e_kind e = Some (KI j)) /\ (forall e, e ∈ b -> exists d, e_kind e = Some (KD w d)) /\
  (forall e, e ∈ c -> exists j, e_kind e = Some (KS w j)) /\
  (forall e, e ∈ ds -> exists d, ent w (Some d) e) /\
  (if w =? 1 then parts item_spec 1 g_max_items i else i = []) /\
  parts (dist_spec w) 1 DIST_PER_WARE b /\ parts (stock_spec w) 1 g_max_items c.
Proof using Type.
  intros (i & a & b & c & ds & -> & Hi & -> & Hb & Hc & Hds). exists i, b, c, ds. split_and!; try done.
  - intros e He. destruct (w =? 1) eqn:E; [|subst i; by apply not_elem_of_nil in He].
    destruct (parts_elem _ _ _ _ _ Hi He) as (j & es' & Hj & -> & ->%list_elem_of_singleton). by exists j.
  - intros e He. destruct (parts_elem _ _ _ _ _ Hb He) as (d & es' & Hd & -> & ->%list_elem_of_singleton). by exists d.
  - intros e He. destruct (parts_elem _ _ _ _ _ Hc He) as (j & es' & Hj & -> & ->%list_elem_of_singleton). by exists j.
  - intros e He. destruct (parts_elem _ _ _ _ _ Hds He) as (d & es' & Hd & Hes & He'). exists d.
    eapply district_ent; [unfold is_dist; lia|done|done].
Qed.

Lemma district_parts w d es : district_spec w d es -> exists a b c,
  es = a ++ b ++ c /\ (forall e, e ∈ a -> exists c, e_kind e = Some (KC w d c)) /\
  (forall e, e ∈ b -> exists o, e_kind e = Some (KO w d o) \/ e_kind e = Some (KL w d o) \/ e_kind e = Some (KN w d o)) /\
  (forall e, e ∈ c -> e_kind e = None) /\ parts (cust_spec w d) 1 g_cust_per_dist a /\ orders_spec w d b.
Proof using Type.
  intros (a & b & c & -> & Ha & Hb & Hc). exists a, b, c. split_and!; try done.
  - intros e He. destruct (parts_elem _ _ _ _ _ Ha He) as (i & es' & Hi & (num & name & ? & ? & _ & ->) & ->%list_elem_of_singleton).
    by exists i.
  - intros e He. destruct Hb as (perm & Hperm & Hb). destruct (parts_elem _ _ _ _ _ Hb He) as (o & es' & Ho & Hes & He').
    destruct Hes as (k & n & _ & _ & ->). exists o. apply elem_of_cons in He' as [->|He']; [by left|].
    apply elem_of_app in He' as [[-> _]%elem_of_replicate|He']; [right; by left|].
    destruct (2100 <? o); [apply list_elem_of_singleton in He' as ->; right; by right|by apply not_elem_of_nil in He'].
  - intros e He. unfold hist_spec in Hc. rewrite Forall_forall in Hc. by rewrite (Hc e He).
Qed.

#[local] Instance kind_eq_dec : EqDecision kind.
Proof using Type. solve_decision. Defined.

(** The entries of a kind. *)
Notation of_kind k := (fun e : entry => e_kind e = Some k).

Lemma filter_only X `{forall e, Decision (X e)} (e : entry) : X e -> filter X [e] = [e].
Proof using Type. intros He. by rewrite filter_cons_True. Qed.

(** No entry of a part is of the kind. *)
#[local] Ltac no_kind :=
  let e := fresh in let He := fresh in let HX := fresh in
  intros e He HX;
  repeat match goal with H : forall e, e ∈ ?l -> _, He : e ∈ ?l |- _ => apply H in He end;
  destruct_and?; repeat match goal with H : exists _, _ |- _ => destruct H end;
  destruct_or?; try congruence;
  match goal with H : ent _ _ _ |- _ => inversion H; subst; cbn in HX; congruence end.

Lemma kind_wh es w : loaded es -> is_wh w ->
  filter (of_kind (KW w)) es = [mkE (Some (KW w)) [(I_WAREHOUSE, (wp_of w, w))]].
Proof using Type.
  intros Hl Hw. destruct (filter_warehouse (of_kind (KW w)) es w Hl Hw) as (es' & Hes & ->).
  { intros w' od e Hne He HX. destruct He; cbn in HX; congruence. }
  destruct (warehouse_parts _ _ Hes) as (i & b & c & ds & -> & Hi & Hb & Hc & Hds & _).
  rewrite !filter_app, (filter_nothing _ i), (filter_nothing _ b), (filter_nothing _ c), (filter_nothing _ ds) by no_kind.
  by rewrite filter_only.
Qed.
(** A kind of which every part has one entry at most. *)
Lemma filter_parts_kind (f : Z -> entry) k n a es : parts (fun i es => es = [f i]) 1 n es -> 1 <= a <= n ->
  (forall i, e_kind (f i) = Some k <-> i = a) -> filter (of_kind k) es = [f a].
Proof using Type.
  intros Hp Ha Hf. destruct (filter_parts_one (of_kind k) _ _ _ _ a Hp) as (es' & -> & ->); [lia| |].
  - intros i es' _ Hne ->. by rewrite filter_cons_False by (by rewrite Hf).
  - rewrite filter_only; [done|]. by apply Hf.
Qed.

Lemma kind_dist es w d : loaded es -> is_wh w -> is_dist d ->
  filter (of_kind (KD w d)) es = [mkE (Some (KD w d)) [(I_DISTRICT, (wp_of w, distKey d w))]].
Proof using Type.
  intros Hl Hw Hd. destruct (filter_warehouse (of_kind (KD w d)) es w Hl Hw) as (es' & Hes & ->).
  { intros w' od e Hne He HX. destruct He; cbn in HX; congruence. }
  destruct (warehouse_parts _ _ Hes) as (i & b & c & ds & -> & Hi & Hb & Hc & Hds & _ & Hpb & _).
  rewrite !filter_app, (filter_nothing _ i), (filter_nothing _ [_]), (filter_nothing _ c), (filter_nothing _ ds);
    [|no_kind|no_kind|by intros e ->%list_elem_of_singleton|no_kind].
  rewrite (filter_parts_kind (fun d => mkE (Some (KD w d)) [(I_DISTRICT, (wp_of w, distKey d w))]) _ _ d _ Hpb);
    [done|unfold is_dist in Hd; lia|]. intros j. cbn. split; congruence.
Qed.

Lemma kind_stock es w i : loaded es -> is_wh w -> is_item i ->
  filter (of_kind (KS w i)) es = [mkE (Some (KS w i)) [(I_STOCK, (wp_of w, stockKey i w))]].
Proof using Type.
  intros Hl Hw Hitem. destruct (filter_warehouse (of_kind (KS w i)) es w Hl Hw) as (es' & Hes & ->).
  { intros w' od e Hne He HX. destruct He; cbn in HX; congruence. }
  destruct (warehouse_parts _ _ Hes) as (l & b & c & ds & -> & Hi & Hb & Hc & Hds & _ & _ & Hpc).
  rewrite !filter_app, (filter_nothing _ l), (filter_nothing _ [_]), (filter_nothing _ b), (filter_nothing _ ds);
    [|no_kind|no_kind|by intros e ->%list_elem_of_singleton|no_kind].
  rewrite (filter_parts_kind (fun i => mkE (Some (KS w i)) [(I_STOCK, (wp_of w, stockKey i w))]) _ _ i _ Hpc);
    [done|unfold is_item in Hitem; lia|]. intros j. cbn. split; congruence.
Qed.

Lemma kind_item es i : loaded es -> is_item i ->
  filter (of_kind (KI i)) es = [mkE (Some (KI i)) [(I_ITEM, (0%nat, i))]].
Proof using tok.
  intros Hl Hitem. pose proof wh_ok. destruct (filter_warehouse (of_kind (KI i)) es 1 Hl) as (es' & Hes & ->).
  { unfold is_wh. lia. }
  { intros w' od e Hne He HX. destruct He; cbn in HX; congruence. }
  destruct (warehouse_parts _ _ Hes) as (l & b & c & ds & -> & Hi & Hb & Hc & Hds & Hpi & _).
  rewrite !filter_app, (filter_nothing _ c), (filter_nothing _ [_]), (filter_nothing _ b), (filter_nothing _ ds);
    [|no_kind|no_kind|by intros e ->%list_elem_of_singleton|no_kind].
  rewrite (filter_parts_kind (fun i => mkE (Some (KI i)) [(I_ITEM, (0%nat, i))]) _ _ i _ Hpi);
    [done|unfold is_item in Hitem; lia|]. intros j. cbn. split; congruence.
Qed.

(** The entries of a district. *)
Lemma filter_in_district X `{forall e, Decision (X e)} es w d : loaded es -> is_wh w -> is_dist d ->
  (forall w' od e, (w', od) <> (w, Some d) -> ent w' od e -> ~ X e) ->
  exists es', district_spec w d es' /\ filter X es = filter X es'.
Proof using Type.
  intros Hl Hw Hd Hn. destruct (filter_warehouse X es w Hl Hw) as (es1 & Hes1 & ->).
  { intros w' od e Hne. apply Hn. congruence. }
  destruct (filter_district X es1 w d Hes1 Hd) as (es2 & Hes2 & ->); [|eauto].
  intros od e Hne. apply Hn. congruence.
Qed.

Lemma kind_cust es w d c : loaded es -> is_wh w -> is_dist d -> is_cust c -> exists num name,
  0 <= num < 1000 /\ Lastname num = Some name /\ (c <= 1000 -> num = c - 1) /\
  filter (of_kind (KC w d c)) es = [cust_entry w d c name].
Proof using Type.
  intros Hl Hw Hd Hcust. destruct (filter_in_district (of_kind (KC w d c)) es w d Hl Hw Hd) as (es' & Hes & ->).
  { intros w' od e Hne He HX. destruct He; cbn in HX; congruence. }
  destruct (district_parts _ _ _ Hes) as (a & b & h & -> & Ha & Hb & Hh & Hpa & _).
  rewrite !filter_app, (filter_nothing _ b), (filter_nothing _ h) by no_kind. rewrite !app_nil_r.
  destruct (filter_parts_one (of_kind (KC w d c)) _ _ _ _ c Hpa) as (es' & (num & name & ? & ? & ? & ->) & ->).
  - unfold is_cust in Hcust. lia.
  - intros j es' _ Hne (num & name & _ & _ & _ & ->). rewrite filter_cons_False; [done|]. cbn. congruence.
  - exists num, name. split_and!; [lia|lia|done|done|by rewrite filter_only].
Qed.

(** What is left of an order. *)
Lemma filter_order X `{forall e, Decision (X e)} es w d o : loaded es -> is_wh w -> is_dist d -> 1 <= o <= g_cust_per_dist ->
  (forall w' od e, (w', od) <> (w, Some d) -> ent w' od e -> ~ X e) ->
  (forall e, X e -> e_kind e = Some (KO w d o) \/ e_kind e = Some (KL w d o)) ->
  exists c n, is_cust c /\ (5 <= n <= 15)%nat /\ filter X es = filter X (order_entry w d o c :: replicate n (line_entry w d o)).
Proof using Type.
  intros Hl Hw Hd Ho Hn HX. destruct (filter_in_district X es w d Hl Hw Hd Hn) as (es' & Hes & ->).
  destruct (district_parts _ _ _ Hes) as (a & b & h & -> & Ha & _ & Hh & _ & perm & Hperm & Hpb).
  rewrite !filter_app, (filter_nothing X a), (filter_nothing X h), app_nil_l, app_nil_r.
  2: intros e He [HK|HK]%HX; by rewrite Hh in HK.
  2: intros e [? HK']%Ha [HK|HK]%HX; congruence.
  assert (forall o' e c n, e ∈ order_entry w d o' c :: replicate n (line_entry w d o') ++
    (if 2100 <? o' then [new_entry w d o'] else []) -> X e -> o' = o /\ e <> new_entry w d o') as Honly.
  { intros o' e c n He HXe. apply HX in HXe. apply elem_of_cons in He as [->|He].
    { cbn in HXe. split; [|done]. destruct HXe; congruence. }
    apply elem_of_app in He as [[-> _]%elem_of_replicate|He].
    { cbn in HXe. split; [|done]. destruct HXe; congruence. }
    destruct (2100 <? o'); [|by apply not_elem_of_nil in He]. apply list_elem_of_singleton in He as ->.
    cbn in HXe. destruct HXe; congruence. }
  destruct (filter_parts_one X _ _ _ _ o Hpb) as (es' & (c & n & Hc & Hn' & ->) & ->).
  - lia.
  - intros o' es' _ Hne (c & n & _ & _ & ->). apply filter_nothing. intros e He HXe.
    destruct (Honly _ _ _ _ He HXe). done.
  - exists c, n. split_and!; [|lia|lia|].
    { apply list_elem_of_lookup_2 in Hc. rewrite Hperm, elem_of_seqZ in Hc. unfold is_cust. lia. }
    rewrite app_comm_cons, filter_app. rewrite (filter_nothing X (if 2100 <? o then [new_entry w d o] else [])); [by rewrite app_nil_r|].
    intros e He HXe. destruct (Honly o e c n) as [_ Hne]; [|done|].
    + rewrite elem_of_cons, elem_of_app. by right; right.
    + destruct (2100 <? o); [apply list_elem_of_singleton in He; done|by apply not_elem_of_nil in He].
Qed.

Lemma kind_order es w d o : loaded es -> is_wh w -> is_dist d -> 1 <= o <= g_cust_per_dist ->
  exists c, is_cust c /\ filter (of_kind (KO w d o)) es = [order_entry w d o c].
Proof using Type.
  intros Hl Hw Hd Ho. destruct (filter_order (of_kind (KO w d o)) es w d o Hl Hw Hd Ho) as (c & n & Hc & _ & ->).
  { intros w' od e Hne He HX. destruct He; cbn in HX; congruence. }
  { by left. }
  exists c. split; [done|]. rewrite filter_cons_True by done. rewrite filter_nothing; [done|].
  by intros e [-> _]%elem_of_replicate.
Qed.

Lemma kind_line es w d o : loaded es -> is_wh w -> is_dist d -> 1 <= o <= g_cust_per_dist ->
  exists n, (5 <= n <= 15)%nat /\ filter (of_kind (KL w d o)) es = replicate n (line_entry w d o).
Proof using Type.
  intros Hl Hw Hd Ho. destruct (filter_order (of_kind (KL w d o)) es w d o Hl Hw Hd Ho) as (c & n & _ & Hn & ->).
  { intros w' od e Hne He HX. destruct He; cbn in HX; congruence. }
  { by right. }
  exists n. split; [done|]. rewrite filter_cons_False by done. clear Hn.
  induction n as [|n IH]; [done|]. cbn [replicate]. rewrite filter_cons_True by done. by rewrite IH.
Qed.
(** The new orders of a district. *)
Definition is_new (w d : Z) (e : entry) : Prop :=
  match e_kind e with Some (KN w' d' _) => w' = w /\ d' = d | _ => False end.
#[local] Instance is_new_dec w d e : Decision (is_new w d e).
Proof using Type. unfold is_new. destruct (e_kind e) as [[]|]; apply _. Defined.

Lemma filter_parts_all X `{forall e, Decision (X e)} P (g : Z -> list entry) first n es : parts P first n es ->
  (forall i es', P i es' -> filter X es' = g i) -> filter X es = concat (map g (seqZ first n)).
Proof using Type.
  intros (ess & -> & Hp) Hg. induction Hp as [|i es js ess Hi Hp IH]; [done|]. cbn. by rewrite filter_app, (Hg i), IH.
Qed.

Lemma concat_new w d first n : (if 2100 <? first then 0 <= n else first + n = 2101) ->
  concat (map (fun o => if 2100 <? o then [new_entry w d o] else []) (seqZ first n)) =
  if 2100 <? first then map (new_entry w d) (seqZ first n) else [].
Proof using Type.
  destruct (Z_lt_dec n 0) as [Hn|Hn]; [intros _; rewrite seqZ_nil by lia; by destruct (2100 <? first)|].
  rewrite <- (Z2Nat.id n) by lia. generalize (Z.to_nat n). clear n Hn. intros n. revert first.
  induction n as [|n IH]; intros first H; [by destruct (2100 <? first)|].
  rewrite seqZ_cons by lia. replace (Z.pred (Z.of_nat (S n))) with (Z.of_nat n) by lia. cbn [map concat].
  destruct (2100 <? first) eqn:E; b2p.
  - rewrite IH by (rewrite (proj2 (Z.ltb_lt _ _)) by lia; lia). by rewrite (proj2 (Z.ltb_lt _ _)) by lia.
  - destruct (decide (first = 2100)) as [->|].
    + assert (n = 0)%nat as -> by lia. done.
    + rewrite IH by (rewrite (proj2 (Z.ltb_ge _ _)) by lia; lia). by rewrite (proj2 (Z.ltb_ge _ _)) by lia.
Qed.

Lemma kind_new es w d : loaded es -> is_wh w -> is_dist d -> g_cust_per_dist = 3000 ->
  filter (is_new w d) es = map (new_entry w d) (seqZ 2101 900).
Proof using Type.
  intros Hl Hw Hd Hcust. destruct (filter_in_district (is_new w d) es w d Hl Hw Hd) as (es' & Hes & ->).
  { intros w' od e Hne He HX. destruct He; try done. destruct HX as [-> ->]. done. }
  destruct (district_parts _ _ _ Hes) as (a & b & h & -> & Ha & _ & Hh & _ & perm & Hperm & Hpb).
  rewrite !filter_app, (filter_nothing (is_new w d) a), (filter_nothing (is_new w d) h), app_nil_l, app_nil_r.
  2: intros e He HX; unfold is_new in HX; by rewrite Hh in HX.
  2: intros e [? HK']%Ha HX; unfold is_new in HX; by rewrite HK' in HX.
  rewrite (filter_parts_all (is_new w d) _ (fun o => if 2100 <? o then [new_entry w d o] else []) _ _ _ Hpb).
  - rewrite Hcust. replace 3000 with (2100 + 900) by lia. rewrite seqZ_app by lia.
    rewrite map_app, concat_app, !concat_new by (cbn; lia). done.
  - intros o es' (c & n & _ & _ & ->). rewrite filter_cons_False by (by intros []). rewrite filter_app.
    rewrite (filter_nothing _ (replicate _ _)) by (by intros e [-> _]%elem_of_replicate []).
    destruct (2100 <? o); [|done]. by rewrite filter_cons_True.
Qed.

(** ** Keys and kinds

    An entry under a key is the entry of the row that the key belongs to. *)

Lemma filter_ext_elem X Y `{forall e, Decision (X e)} `{forall e, Decision (Y e)} (es : list entry) :
  (forall e, e ∈ es -> X e <-> Y e) -> filter X es = filter Y es.
Proof using Type.
  induction es as [|e es IH]; intros Hxy; [done|]. rewrite !filter_cons. rewrite IH by (intros ??; apply Hxy; by right).
  destruct (decide (X e)) as [Hx|Hx], (decide (Y e)) as [Hy|Hy]; try done; exfalso.
  - apply Hy, Hxy; [by left|done].
  - apply Hx, Hxy; [by left|done].
Qed.

(** The cases of an entry: [tac] is for those of the index, the others contradict. *)
#[local] Ltac other := first
  [ split; [intros Hx; repeat (destruct Hx as [Hx|Hx]; [discriminate Hx|]); done|discriminate || done]
  | idtac ].
#[local] Ltac ent_cases He :=
  destruct He; unfold cust_entry, order_entry, line_entry, new_entry; cbn [e_ops e_kind];
  rewrite ?elem_of_cons, ?elem_of_nil; other.

Context (Hparts : g_part_cnt = g_num_wh).

Lemma under_item i w' od e : ent w' od e -> under I_ITEM (0%nat, i) e <-> e_kind e = Some (KI i).
Proof using Type. intros He. ent_cases He. split; [by intros [[= ->]|[]]|intros [= ->]; by left]. Qed.

Lemma under_wh w w' od e : ent w' od e -> under I_WAREHOUSE (wp_of w, w) e <-> e_kind e = Some (KW w).
Proof using Type. intros He. ent_cases He. split; [by intros [[= _ ->]|[]]|intros [= ->]; by left]. Qed.

Lemma under_dist w d w' od e : is_wh w -> is_wh w' -> is_dist d -> ent w' od e ->
  under I_DISTRICT (wp_of w, distKey d w) e <-> e_kind e = Some (KD w d).
Proof using tok.
  intros Hw Hw' Hd He. ent_cases He. split.
  - intros [[= _ Hk]|[]]. by apply distKey_inj in Hk as [-> ->].
  - intros [= -> ->]. by left.
Qed.

Lemma under_stock w i w' od e : is_wh w -> is_wh w' -> is_item i -> ent w' od e ->
  under I_STOCK (wp_of w, stockKey i w) e <-> e_kind e = Some (KS w i).
Proof using tok.
  intros Hw Hw' Hi He. ent_cases He. split.
  - intros [[= _ Hk]|[]]. by apply stockKey_inj in Hk as [-> ->].
  - intros [= -> ->]. by left.
Qed.

Lemma under_cust w d c w' od e : is_wh w -> is_wh w' -> is_dist d -> is_cust c -> ent w' od e ->
  under I_CUSTOMER_ID (wp_of w, custKey c d w) e <-> e_kind e = Some (KC w d c).
Proof using tok.
  intros Hw Hw' Hd Hc He. ent_cases He. split.
  - intros [[= _ Hk]|[?|[]]]; [|done]. by apply custKey_inj in Hk as (-> & -> & ->).
  - intros [= -> -> ->]. by left.
Qed.

Lemma under_order w d o w' od e : is_wh w -> is_wh w' -> is_dist d -> 0 <= o < 2 ^ 62 -> g_cust_per_dist < 2 ^ 62 -> ent w' od e ->
  under I_ORDER (dp_of w d, orderPrimaryKey w d o) e <-> e_kind e = Some (KO w d o).
Proof using tok.
  intros Hw Hw' Hd Ho Hmax He. ent_cases He. split.
  - intros [?|[[= Hp Hk]|[]]]; [done|]. destruct (order_key_eq w d o w' d0 o0) as (-> & -> & ->); try done; [lia|].
    unfold orderPrimaryKey in Hk. congruence.
  - intros [= -> -> ->]. right. by left.
Qed.

Lemma under_line w d o w' od e : is_wh w -> is_wh w' -> is_dist d -> 0 <= o < 2 ^ 62 -> g_cust_per_dist < 2 ^ 62 -> ent w' od e ->
  under I_ORDERLINE (dp_of w d, orderlineKey w d o) e <-> e_kind e = Some (KL w d o).
Proof using tok.
  intros Hw Hw' Hd Ho Hmax He. ent_cases He. split.
  - intros [[= Hp Hk]|[]]. destruct (order_key_eq w d o w' d0 o0) as (-> & -> & ->); try done; [lia|]. congruence.
  - intros [= -> -> ->]. by left.
Qed.

Lemma under_new w d w' od e : is_wh w -> is_wh w' -> is_dist d -> ent w' od e ->
  under I_NEWORDER (wp_of w, distKey d w) e <-> is_new w d e.
Proof using tok.
  intros Hw Hw' Hd He. ent_cases He; unfold is_new; cbn [e_kind]. split.
  - intros [[= _ Hk]|[]]. by apply distKey_inj in Hk as [-> ->].
  - intros [-> ->]. by left.
Qed.

(** Several customers have a last name, and several orders may be of a customer. *)
Lemma under_last w d num name w' od e :
  DIST_PER_WARE <= 15 -> is_wh w -> is_wh w' -> is_dist d -> 0 <= num < 1000 -> Lastname num = Some name -> ent w' od e ->
  under I_CUSTOMER_LAST (wp_of w, custNPKey name d w) e -> exists c, is_cust c /\ e_kind e = Some (KC w d c).
Proof using tok Hparts.
  intros HD Hw Hw' Hd Hnum Hname He. destruct He; unfold cust_entry, order_entry, line_entry, new_entry; cbn [e_ops e_kind];
    rewrite ?elem_of_cons, ?elem_of_nil; try (by intros [?|[]]); [|by intros []].
  intros [?|[[= Hp Hk]|[]]]; [done|]. apply wp_of_inj in Hp as <-; [|done..].
  destruct (custNPKey_inj num num0 name name0 d d0 w) as [_ <-]; try done. by exists c.
Qed.

Lemma under_order_cust w d c w' od e : is_wh w -> is_wh w' -> is_dist d -> is_cust c -> ent w' od e ->
  under I_ORDER_CUST (wp_of w, orderCustKey d c) e -> exists o, 1 <= o <= g_cust_per_dist /\ e_kind e = Some (KO w d o).
Proof using tok Hparts.
  intros Hw Hw' Hd Hc He. destruct He; unfold cust_entry, order_entry, line_entry, new_entry; cbn [e_ops e_kind];
    rewrite ?elem_of_cons, ?elem_of_nil; try (by intros [?|[]]); [|by intros []].
  intros [[= Hp Hk]|[?|[]]]; [|done]. apply wp_of_inj in Hp as <-; [|done..].
  apply orderCustKey_inj in Hk as [<- <-]; [|done..]. by exists o.
Qed.
(** Every customer has an order. *)
Lemma cust_order es w d c : loaded es -> is_wh w -> is_dist d -> is_cust c -> exists o, order_entry w d o c ∈ es.
Proof using Type.
  intros Hl Hw Hd Hc. destruct (parts_sub _ _ _ _ (w - 1) Hl) as (es1 & Hes1 & Hs1); [unfold is_wh in Hw; lia|].
  replace (w - 1 + 1) with w in Hes1 by lia. destruct Hes1 as (i & a & b & l & ds & -> & _ & _ & _ & _ & Hds).
  destruct (parts_sub _ _ _ _ d Hds) as (es2 & Hes2 & Hs2); [unfold is_dist in Hd; lia|].
  destruct Hes2 as (x & y & z & -> & _ & (perm & Hperm & Hy) & _).
  assert (c ∈ perm) as [j Hj]%list_elem_of_lookup by (rewrite Hperm, elem_of_seqZ; unfold is_cust in Hc; lia).
  pose proof (lookup_lt_Some _ _ _ Hj) as Hlt. rewrite (Permutation_length Hperm), length_seqZ in Hlt.
  destruct (parts_sub _ _ _ _ (Z.of_nat j + 1) Hy) as (es3 & (c' & n & Hc' & _ & ->) & Hs3); [lia|].
  replace (Z.to_nat (Z.of_nat j + 1 - 1)) with j in Hc' by lia. assert (c' = c) as -> by congruence.
  exists (Z.of_nat j + 1). apply Hs1. rewrite !elem_of_app. right; right; right; right. apply Hs2. rewrite !elem_of_app.
  right; left. apply Hs3. by left.
Qed.

(** ** The relation holds after loading *)

Context {dd : Doubles}.
Context (HD : DIST_PER_WARE <= 15) (Hcust : g_cust_per_dist = 3000) (Hitems : g_max_items = 100000).
Context (s : lstate) (es : list entry) (Hl : loaded es) (Hlog : logged abs0 s es).

Definition kinds_of (l : list entry) : kinds := fun r => l !! r ≫= e_kind.
Notation K := (kinds_of es).

(** The rows under a key, by the entries under it. *)
Lemma rows_under i k fs : filter (under i k) es = fs ->
  Forall2 (fun r e => es !! r = Some e) (l_index s i k) (reverse fs).
Proof using Hlog.
  intros <-. rewrite (lg_index _ _ _ Hlog). apply Forall2_reverse.
  eapply Forall2_impl; [apply (positions_filter _ 0 es [])|]. cbn beta. intros r e [Hr _].
  by rewrite app_nil_r, Nat.sub_0_r in Hr.
Qed.

Lemma one_row i k e x : filter (under i k) es = [e] -> e_kind e = Some x ->
  exists r, l_index s i k = [r] /\ K r = Some x.
Proof using Hlog.
  intros Hf Hx. apply rows_under in Hf. apply Forall2_cons_inv_r in Hf as (r & l & Hr & ->%Forall2_nil_inv_r & ->).
  exists r. split; [done|]. unfold kinds_of. by rewrite Hr.
Qed.

(** A filter by a key, as one by a kind. *)
Lemma under_kind i k x : (forall w' od e, is_wh w' -> ent w' od e -> under i k e <-> e_kind e = Some x) ->
  filter (under i k) es = filter (of_kind x) es.
Proof using Hl.
  intros H. apply filter_ext_elem. intros e He. destruct (loaded_ent _ _ Hl He) as (w & od & Hw & Hent). by eapply H.
Qed.

Lemma rows_of_kinds i k (fs : list entry) (f : entry -> kind) : filter (under i k) es = fs ->
  (forall e, e ∈ fs -> e_kind e = Some (f e)) -> rows_are K (l_index s i k) (reverse (map f fs)).
Proof using Hlog.
  intros Hf Hk. apply rows_under in Hf. unfold rows_are. change (map f fs) with (f <$> fs). rewrite <- fmap_reverse.
  assert (forall e, e ∈ reverse fs -> e_kind e = Some (f e)) as Hk' by (intros e He; apply Hk; by rewrite elem_of_reverse in He).
  clear Hk. induction Hf as [|r e l es' Hr Hf IH]; constructor.
  - unfold kinds_of. rewrite Hr. apply Hk'. by left.
  - apply IH. intros e' ?. apply Hk'. by right.
Qed.

Lemma kind_unique x e : filter (of_kind x) es = [e] -> forall r r', K r = Some x -> K r' = Some x -> r = r'.
Proof using Type.
  intros Hf r r' Hr Hr'. unfold kinds_of in *.
  destruct (es !! r) as [a|] eqn:Ea; [|done]. destruct (es !! r') as [b|] eqn:Eb; [|done]. cbn in Hr, Hr'.
  assert (length (positions (of_kind x) 0 es) = 1%nat) as Hlen.
  { rewrite (Forall2_length _ _ _ (positions_filter (of_kind x) 0 es [])), Hf. done. }
  pose proof (positions_elem (of_kind x) 0 es r a Ea Hr) as H1. pose proof (positions_elem (of_kind x) 0 es r' b Eb Hr') as H2.
  destruct (positions _ 0 es) as [|p [|]]; try done. apply list_elem_of_singleton in H1, H2. cbn in *. congruence.
Qed.
(** An index with one row per key. *)
Lemma one_row_of i k x ops : (forall w' od e, is_wh w' -> ent w' od e -> under i k e <-> e_kind e = Some x) ->
  filter (of_kind x) es = [mkE (Some x) ops] -> exists r, l_index s i k = [r] /\ K r = Some x.
Proof using Hl Hlog. intros Hk Hf. eapply one_row; [by rewrite (under_kind _ _ _ Hk)|done]. Qed.

Lemma loaded_static : ix_static 0 (l_index s) K.
Proof using All.
  split.
  - intros r r' k Hk Hr Hr'. assert (exists e, es !! r = Some e /\ e_kind e = Some k) as (e & He & Hek).
    { unfold kinds_of in Hr. destruct (es !! r) as [e|]; [by exists e|done]. }
    destruct (loaded_ent es e Hl) as (w & od & Hw & Hent); [by eapply list_elem_of_lookup_2|].
    destruct k; try done; destruct Hent; cbn in Hek; simplify_eq; eapply kind_unique; try done;
      [by apply kind_wh|by apply kind_dist].
  - intros w Hw. eapply one_row_of; [|by apply kind_wh]. intros w' od e _ He. by eapply under_wh.
  - intros w d Hw Hd. eapply one_row_of; [|by apply kind_dist]. intros w' od e Hw' He. by eapply under_dist.
  - intros w d c Hw Hd Hc. destruct (kind_cust es w d c Hl Hw Hd Hc) as (num & name & _ & _ & _ & Hf).
    eapply one_row_of; [|exact Hf]. intros w' od e Hw' He. by eapply under_cust.
  - intros w d num name Hw Hd Hn Hname. pose proof (rows_under I_CUSTOMER_LAST (wp_of w, custNPKey name d w) _ eq_refl) as Hr.
    split.
    + intros Hnil. rewrite Hnil in Hr. apply Forall2_nil_inv_l in Hr. apply (f_equal reverse) in Hr.
      rewrite reverse_involutive in Hr.
      destruct (kind_cust es w d (num + 1) Hl Hw Hd) as (num' & name' & _ & Hname' & Hsmall & Hf); [unfold is_cust; lia|].
      assert (num' = num) as -> by lia. assert (name' = name) as -> by congruence.
      assert (cust_entry w d (num + 1) name ∈ filter (under I_CUSTOMER_LAST (wp_of w, custNPKey name d w)) es) as Hin.
      { apply list_elem_of_filter. split; [right; by left|].
        assert (cust_entry w d (num + 1) name ∈ filter (of_kind (KC w d (num + 1))) es) as [_ ?]%list_elem_of_filter; [|done].
        rewrite Hf. by left. }
      rewrite Hr in Hin. by apply not_elem_of_nil in Hin.
    + intros r [j Hj]%list_elem_of_lookup. destruct (Forall2_lookup_l _ _ _ _ _ Hr Hj) as (e & He & Hre).
      apply list_elem_of_lookup_2 in He. rewrite elem_of_reverse, list_elem_of_filter in He. destruct He as [Hu He].
      destruct (loaded_ent es e Hl He) as (w' & od & Hw' & Hent).
      destruct (under_last w d num name w' od e HD Hw Hw' Hd Hn Hname Hent Hu) as (c & Hc & HK).
      exists c. split; [done|]. unfold kinds_of. by rewrite Hre.
  - intros i Hi. eapply one_row_of; [|by apply kind_item]. intros w' od e _ He. by eapply under_item.
  - intros w i Hw Hi. eapply one_row_of; [|by apply kind_stock]. intros w' od e Hw' He. by eapply under_stock.
Qed.
Lemma loaded_orders : ix_orders (l_index s) abs0 K.
Proof using All.
  assert (g_cust_per_dist < 2 ^ 62) as Hmax by lia. split; cbn [a_next a_first abs0].
  - intros w d o Hw Hd Ho.
    assert (filter (under I_ORDER (dp_of w d, orderPrimaryKey w d o)) es = filter (of_kind (KO w d o)) es) as Hf.
    { apply under_kind. intros w' od e Hw' He. by eapply under_order. }
    case_bool_decide as Hon.
    + destruct (kind_order es w d o Hl Hw Hd) as (c & _ & Hk); [lia|]. rewrite Hk in Hf.
      eapply (rows_of_kinds _ _ _ (fun _ => KO w d o)) in Hf; [done|]. by intros e ->%list_elem_of_singleton.
    + rewrite (filter_nothing (of_kind (KO w d o))) in Hf.
      * eapply (rows_of_kinds _ _ _ (fun _ => KO w d o)) in Hf; [done|]. by intros e ?%not_elem_of_nil.
      * intros e He Hk. destruct (loaded_ent _ _ Hl He) as (w' & od & _ & Hent).
        destruct Hent; cbn in Hk; simplify_eq. lia.
  - intros w d o Hw Hd Ho. cbn zeta.
    assert (filter (under I_ORDERLINE (dp_of w d, orderlineKey w d o)) es = filter (of_kind (KL w d o)) es) as Hf.
    { apply under_kind. intros w' od e Hw' He. by eapply under_line. }
    destruct (decide (1 <= o < 3001)) as [Hon|Hon].
    + destruct (kind_line es w d o Hl Hw Hd) as (n & Hn & Hk); [lia|]. rewrite Hk in Hf.
      eapply (rows_of_kinds _ _ _ (fun _ => KL w d o)) in Hf; [|by intros e [-> _]%elem_of_replicate].
      change (map ?f ?l) with (f <$> l) in Hf. rewrite fmap_replicate, reverse_replicate in Hf.
      pose proof (Forall2_length _ _ _ Hf) as Hlen. rewrite length_replicate in Hlen. rewrite Hlen.
      split_and!; [done|lia|]. split; [done|]. intros _ Hnil. rewrite Hnil in Hlen. cbn in Hlen. lia.
    + rewrite (filter_nothing (of_kind (KL w d o))) in Hf.
      * apply rows_under, Forall2_nil_inv_r in Hf as ->. split_and!; [constructor|cbn; lia|]. split; [done|lia].
      * intros e He Hk. destruct (loaded_ent _ _ Hl He) as (w' & od & _ & Hent).
        destruct Hent; cbn in Hk; simplify_eq. lia.
  - intros w d Hw Hd.
    assert (filter (under I_NEWORDER (wp_of w, distKey d w)) es = map (new_entry w d) (seqZ 2101 900)) as Hf.
    { rewrite <- (kind_new es w d) by done. apply filter_ext_elem. intros e He.
      destruct (loaded_ent _ _ Hl He) as (w' & od & Hw' & Hent). by eapply under_new. }
    eapply (rows_of_kinds _ _ _ (fun e => match e_kind e with Some k => k | None => KW 0 end)) in Hf.
    + unfold open_orders. cbn [a_next a_first abs0]. rewrite map_map in Hf. cbn [e_kind new_entry] in Hf.
      change (map ?f (seqZ 2101 900)) with (f <$> seqZ 2101 900) in Hf. rewrite <- fmap_reverse in Hf. exact Hf.
    + intros e (o & <- & _)%list_elem_of_In%in_map_iff. done.
  - intros w d c Hw Hd Hc. pose proof (rows_under I_ORDER_CUST (wp_of w, orderCustKey d c) _ eq_refl) as Hr. split.
    + intros Hnil. rewrite Hnil in Hr. apply Forall2_nil_inv_l, (f_equal reverse) in Hr. rewrite reverse_involutive in Hr.
      destruct (cust_order es w d c Hl Hw Hd Hc) as [o Ho].
      assert (order_entry w d o c ∈ filter (under I_ORDER_CUST (wp_of w, orderCustKey d c)) es) as Hin.
      { apply list_elem_of_filter. split; [by left|done]. }
      rewrite Hr in Hin. by apply not_elem_of_nil in Hin.
    + intros r [j Hj]%list_elem_of_lookup. destruct (Forall2_lookup_l _ _ _ _ _ Hr Hj) as (e & He & Hre).
      apply list_elem_of_lookup_2 in He. rewrite elem_of_reverse, list_elem_of_filter in He. destruct He as [Hu He].
      destruct (loaded_ent es e Hl He) as (w' & od & Hw' & Hent).
      destruct (under_order_cust w d c w' od e Hw Hw' Hd Hc Hent Hu) as (o & Ho & HK).
      exists o. split; [lia|]. unfold kinds_of. by rewrite Hre.
Qed.

Lemma loaded_rep : rep 0 (mkDb (l_rows s) (l_index s) (l_next s) (fun _ => false)) abs0 K.
Proof using All.
  split; cbn [db_next db_rows db_index].
  - intros r Hr. unfold kinds_of. rewrite (lg_next _ _ _ Hlog) in Hr. by rewrite lookup_ge_None_2.
  - intros r. unfold kinds_of. destruct (es !! r) as [e|] eqn:E; [|done]. by eapply (lg_rows _ _ _ Hlog).
  - exact loaded_static.
  - exact loaded_orders.
  - cbn. lia.
  - cbn. lia.
Qed.
End loaded.

(** ** The theorem *)

(** C11. With the sizes of the benchmark and a partition per warehouse, loading with any
    number of threads never fails, whatever the random numbers, and from then on every sequence of valid
    queries, whatever rows are granted and whichever transactions commit, runs without
    a failed assertion and leaves a consistent database: the money of a warehouse is
    the sum of that of its districts; the orders of a district have the ids below its
    next order id, each once and with order lines; the new orders are the latest of
    the orders without a gap and in order. *)
Theorem tpcc_loaded_consistent `{tc : TpccConfig} {tok : TpccConfigOk} {dd : Doubles}
    (lrand48 : Z -> nat -> Z) (dquot : Z -> Z -> Z) (MAX_WRITE_SET : nat) (omp_num_threads : Z)
    (Hrand : forall b i, 0 <= lrand48 b i < 2 ^ 31)
    (Hdist : DIST_PER_WARE = 10) (Hcust : g_cust_per_dist = 3000) (Hitems : g_max_items = 100000)
    (Hparts : g_part_cnt = g_num_wh) (Hmax : (18 <= MAX_WRITE_SET)%nat) (Hthreads : 0 < omp_num_threads < 2 ^ 31) :
  exists d, init lrand48 false true dquot omp_num_threads = Some d /\
    forall ts, Forall (fun t => query_ok (x_query t)) ts -> 300000 + 5000 * Z.of_nat (length ts) <= 2 ^ 53 ->
    exists rcs d', run_seq true false MAX_WRITE_SET 0 ts d = Some (rcs, d') /\ consistent d'.
Proof.
  destruct (init_loads lrand48 Hrand dquot omp_num_threads) as (s & es & -> & Hl & Hlog); [lia|lia|done|].
  eexists. split; [done|]. intros ts Hts Hroom.
  assert (rep 0 (mkDb (l_rows s) (l_index s) (l_next s) (fun _ => false)) abs0 (kinds_of es)) as R.
  { apply loaded_rep; try done. lia. }
  destruct (run_seq_rep true false MAX_WRITE_SET 0 Hparts ltac:(lia) Hmax ltac:(lia) ts eq_refl _ abs0 (kinds_of es) R)
    as (rcs & d' & A' & K' & Hrun & R' & HB); [| |done|].
  - intros w _. unfold sum_dist. rewrite Hdist. reflexivity.
  - split; [intros w d; cbn; lia|]. intros w d _ _. cbn. lia.
  - exists rcs, d'. split; [exact Hrun|]. by eapply rep_consistent.
Qed.

(** Ten warehouses, and a payment, a delivery and a stock level at warehouse 1. *)
Lemma tpcc_loaded_consistent_witness :
  exists d, @init tpcc_example int_doubles (fun _ _ => 4) false true Z.div 4 = Some d /\
    exists rcs d', @run_seq tpcc_example int_doubles true false 64 0
      (map (fun t => mkTxn (mkQuery t 1 3 7 1 1 3 [] 50 false [] false false 0 0 2 2021 15 [1]) (fun _ => true) true)
        [TPCC_PAYMENT; TPCC_DELIVERY; TPCC_STOCK_LEVEL]) d = Some (rcs, d') /\
    @consistent tpcc_example int_doubles d'.
Proof.
  destruct (@tpcc_loaded_consistent tpcc_example tpcc_example_ok int_doubles (fun _ _ => 4) Z.div 64 4
    ltac:(lia) eq_refl eq_refl eq_refl eq_refl ltac:(lia) ltac:(lia)) as (d & Hd & Hrun).
  exists d. split; [exact Hd|]. apply Hrun; [|cbn; lia].
  assert (@parts_ok tpcc_example [1] [1]) as Hp by apply (@parts_one tpcc_example 1).
  assert (@parts_ok tpcc_example [1; 1] [1]) as Hp2.
  { split; [apply NoDup_singleton|]. intros p. rewrite list_elem_of_singleton. split.
    - intros ->. exists 1. split; [by left|done].
    - intros (w & Hw & ->). rewrite !elem_of_cons, elem_of_nil in Hw. by destruct Hw as [->|[->|[]]]. }
  cbn [map]. repeat (apply Forall_cons_2 || apply Forall_nil_2);
    (split; [cbn; unfold is_wh; cbn; lia|]); cbn; unfold is_wh, is_dist, is_cust, in_range; cbn; split_and!;
    try exact Hp; try exact Hp2; try done; try lia.
Defined.
