(* ===== verification/TpccRecords.v ===== *)
(** * The records and the schema files of TPC-C

    The enumerations and the packed structures of src/benchmarks/tpcc/tpcc_const.h, and the schema files beside it. With
    [BYPASS_CATALOG] a column is found at its place in the structure, otherwise where the catalog of the schema
    file has it; the theorem of this file says that the two are the same place. *)

From Stdlib Require Import Ascii String.
From stdpp Require Import list gmap strings.
From S2P Require Import Prelude Global Storage SchemaFile.
#[local] Open Scope string_scope.

(** ** Structures *)

Inductive ctype := Int64 | UInt64 | Double | Chars (n : Z).
Definition sizeof (t : ctype) : Z := match t with Chars n => n | _ => 8 end.

(** The members of a packed structure. *)
Notation record := (list (string * ctype)).

Definition sizeof_record (r : record) : Z := foldr (fun f n => sizeof f.2 + n) 0 r.
Fixpoint offsetof (name : string) (r : record) : option Z :=
  match r with
  | [] => None
  | (f, t) :: r => if decide (f = name) then Some 0 else (fun n => sizeof t + n) <$> offsetof name r
  end.
Definition sizeof_member (name : string) (r : record) : option Z :=
  (fun f => sizeof f.2) <$> find (fun f => bool_decide (f.1 = name)) r.

(** ** tpcc_const.h, with [TPCC_SMALL] and without *)

Definition w_columns_small : list string := [
  "W_ID"; "W_NAME"; "W_STREET_1"; "W_STREET_2"; "W_CITY"; "W_STATE"; "W_ZIP"; "W_TAX"; "W_YTD"].
Definition w_columns_full : list string := [
  "W_ID"; "W_NAME"; "W_STREET_1"; "W_STREET_2"; "W_CITY"; "W_STATE"; "W_ZIP"; "W_TAX"; "W_YTD"].
Definition w_record_small : record := [
  ("W_ID", Int64); ("W_NAME", Chars 10); ("W_STREET_1", Chars 20); ("W_STREET_2", Chars 20);
  ("W_CITY", Chars 20); ("W_STATE", Chars 2); ("W_ZIP", Chars 9); ("W_TAX", Double); ("W_YTD", Double)].
Definition w_record_full : record := [
  ("W_ID", Int64); ("W_NAME", Chars 10); ("W_STREET_1", Chars 20); ("W_STREET_2", Chars 20);
  ("W_CITY", Chars 20); ("W_STATE", Chars 2); ("W_ZIP", Chars 9); ("W_TAX", Double); ("W_YTD", Double)].
Definition d_columns_small : list string := [
  "D_ID"; "D_W_ID"; "D_NAME"; "D_STREET_1"; "D_STREET_2"; "D_CITY"; "D_STATE"; "D_ZIP"; "D_TAX"; "D_YTD";
  "D_NEXT_O_ID"].
Definition d_columns_full : list string := [
  "D_ID"; "D_W_ID"; "D_NAME"; "D_STREET_1"; "D_STREET_2"; "D_CITY"; "D_STATE"; "D_ZIP"; "D_TAX"; "D_YTD";
  "D_NEXT_O_ID"].
Definition d_record_small : record := [
  ("D_ID", Int64); ("D_W_ID", Int64); ("D_NAME", Chars 10); ("D_STREET_1", Chars 20);
  ("D_STREET_2", Chars 20); ("D_CITY", Chars 20); ("D_STATE", Chars 2); ("D_ZIP", Chars 9);
  ("D_TAX", Double); ("D_YTD", Double); ("D_NEXT_O_ID", Int64)].
Definition d_record_full : record := [
  ("D_ID", Int64); ("D_W_ID", Int64); ("D_NAME", Chars 10); ("D_STREET_1", Chars 20);
  ("D_STREET_2", Chars 20); ("D_CITY", Chars 20); ("D_STATE", Chars 2); ("D_ZIP", Chars 9);
  ("D_TAX", Double); ("D_YTD", Double); ("D_NEXT_O_ID", Int64)].
Definition c_columns_small : list string := [
  "C_ID"; "C_D_ID"; "C_W_ID"; "C_MIDDLE"; "C_LAST"; "C_STATE"; "C_CREDIT"; "C_DISCOUNT"; "C_BALANCE";
  "C_YTD_PAYMENT"; "C_PAYMENT_CNT"].
Definition c_columns_full : list string := [
  "C_ID"; "C_D_ID"; "C_W_ID"; "C_FIRST"; "C_MIDDLE"; "C_LAST"; "C_STREET_1"; "C_STREET_2"; "C_CITY";
  "C_STATE"; "C_ZIP"; "C_PHONE"; "C_SINCE"; "C_CREDIT"; "C_CREDIT_LIM"; "C_DISCOUNT"; "C_BALANCE";
  "C_YTD_PAYMENT"; "C_PAYMENT_CNT"; "C_DELIVERY_CNT"; "C_DATA"].
Definition c_record_small : record := [
  ("C_ID", Int64); ("C_D_ID", Int64); ("C_W_ID", Int64); ("C_MIDDLE", Chars 2); ("C_LAST", Chars 16);
  ("C_STATE", Chars 2); ("C_CREDIT", Chars 2); ("C_DISCOUNT", Int64); ("C_BALANCE", Double);
  ("C_YTD_PAYMENT", Double); ("C_PAYMENT_CNT", UInt64)].
Definition c_record_full : record := [
  ("C_ID", Int64); ("C_D_ID", Int64); ("C_W_ID", Int64); ("C_FIRST", Chars 16); ("C_MIDDLE", Chars 2);
  ("C_LAST", Chars 16); ("C_STREET_1", Chars 20); ("C_STREET_2", Chars 20); ("C_CITY", Chars 20);
  ("C_STATE", Chars 2); ("C_ZIP", Chars 9); ("C_PHONE", Chars 16); ("C_SINCE", Int64); ("C_CREDIT", Chars 2);
  ("C_CREDIT_LIM", Int64); ("C_DISCOUNT", Int64); ("C_BALANCE", Double); ("C_YTD_PAYMENT", Double);
  ("C_PAYMENT_CNT", UInt64); ("C_DELIVERY_CNT", UInt64); ("C_DATA", Chars 500)].
Definition h_columns_small : list string := [
  "H_C_ID"; "H_C_D_ID"; "H_C_W_ID"; "H_D_ID"; "H_W_ID"; "H_DATE"; "H_AMOUNT"].
Definition h_columns_full : list string := [
  "H_C_ID"; "H_C_D_ID"; "H_C_W_ID"; "H_D_ID"; "H_W_ID"; "H_DATE"; "H_AMOUNT"; "H_DATA"].
Definition h_record_small : record := [
  ("H_C_ID", Int64); ("H_C_D_ID", Int64); ("H_C_W_ID", Int64); ("H_D_ID", Int64); ("H_W_ID", Int64);
  ("H_DATE", Int64); ("H_AMOUNT", Double)].
Definition h_record_full : record := [
  ("H_C_ID", Int64); ("H_C_D_ID", Int64); ("H_C_W_ID", Int64); ("H_D_ID", Int64); ("H_W_ID", Int64);
  ("H_DATE", Int64); ("H_AMOUNT", Double); ("H_DATA", Chars 24)].
Definition no_columns_small : list string := [
  "NO_O_ID"; "NO_D_ID"; "NO_W_ID"].
Definition no_columns_full : list string := [
  "NO_O_ID"; "NO_D_ID"; "NO_W_ID"].
Definition no_record_small : record := [
  ("NO_O_ID", Int64); ("NO_D_ID", Int64); ("NO_W_ID", Int64)].
Definition no_record_full : record := [
  ("NO_O_ID", Int64); ("NO_D_ID", Int64); ("NO_W_ID", Int64)].
Definition o_columns_small : list string := [
  "O_ID"; "O_C_ID"; "O_D_ID"; "O_W_ID"; "O_ENTRY_D"; "O_CARRIER_ID"; "O_OL_CNT"; "O_ALL_LOCAL"].
Definition o_columns_full : list string := [
  "O_ID"; "O_C_ID"; "O_D_ID"; "O_W_ID"; "O_ENTRY_D"; "O_CARRIER_ID"; "O_OL_CNT"; "O_ALL_LOCAL"].
Definition o_record_small : record := [
  ("O_ID", Int64); ("O_C_ID", Int64); ("O_D_ID", Int64); ("O_W_ID", Int64); ("O_ENTRY_D", Int64);
  ("O_CARRIER_ID", Int64); ("O_OL_CNT", Int64); ("O_ALL_LOCAL", Int64)].
Definition o_record_full : record := [
  ("O_ID", Int64); ("O_C_ID", Int64); ("O_D_ID", Int64); ("O_W_ID", Int64); ("O_ENTRY_D", Int64);
  ("O_CARRIER_ID", Int64); ("O_OL_CNT", Int64); ("O_ALL_LOCAL", Int64)].
Definition ol_columns_small : list string := [
  "OL_O_ID"; "OL_D_ID"; "OL_W_ID"; "OL_NUMBER"; "OL_I_ID"].
Definition ol_columns_full : list string := [
  "OL_O_ID"; "OL_D_ID"; "OL_W_ID"; "OL_NUMBER"; "OL_I_ID"; "OL_SUPPLY_W_ID"; "OL_DELIVERY_D"; "OL_QUANTITY";
  "OL_AMOUNT"; "OL_DIST_INFO"].
Definition ol_record_small : record := [
  ("OL_O_ID", Int64); ("OL_D_ID", Int64); ("OL_W_ID", Int64); ("OL_NUMBER", Int64); ("OL_I_ID", Int64)].
Definition ol_record_full : record := [
  ("OL_O_ID", Int64); ("OL_D_ID", Int64); ("OL_W_ID", Int64); ("OL_NUMBER", Int64); ("OL_I_ID", Int64);
  ("OL_SUPPLY_W_ID", Int64); ("OL_DELIVERY_D", Int64); ("OL_QUANTITY", Int64); ("OL_AMOUNT", Double);
  ("OL_DIST_INFO", Int64)].
Definition i_columns_small : list string := [
  "I_ID"; "I_IM_ID"; "I_NAME"; "I_PRICE"; "I_DATA"].
Definition i_columns_full : list string := [
  "I_ID"; "I_IM_ID"; "I_NAME"; "I_PRICE"; "I_DATA"].
Definition i_record_small : record := [
  ("I_ID", Int64); ("I_IM_ID", Int64); ("I_NAME", Chars 24); ("I_PRICE", Int64); ("I_DATA", Chars 50)].
Definition i_record_full : record := [
  ("I_ID", Int64); ("I_IM_ID", Int64); ("I_NAME", Chars 24); ("I_PRICE", Int64); ("I_DATA", Chars 50)].
Definition s_columns_small : list string := [
  "S_I_ID"; "S_W_ID"; "S_QUANTITY"; "S_REMOTE_CNT"].
Definition s_columns_full : list string := [
  "S_I_ID"; "S_W_ID"; "S_QUANTITY"; "S_DIST_01"; "S_DIST_02"; "S_DIST_03"; "S_DIST_04"; "S_DIST_05";
  "S_DIST_06"; "S_DIST_07"; "S_DIST_08"; "S_DIST_09"; "S_DIST_10"; "S_YTD"; "S_ORDER_CNT"; "S_REMOTE_CNT";
  "S_DATA"].
Definition s_record_small : record := [
  ("S_I_ID", Int64); ("S_W_ID", Int64); ("S_QUANTITY", Int64); ("S_REMOTE_CNT", Int64)].
Definition s_record_full : record := [
  ("S_I_ID", Int64); ("S_W_ID", Int64); ("S_QUANTITY", Int64); ("S_DIST_01", Chars 24);
  ("S_DIST_02", Chars 24); ("S_DIST_03", Chars 24); ("S_DIST_04", Chars 24); ("S_DIST_05", Chars 24);
  ("S_DIST_06", Chars 24); ("S_DIST_07", Chars 24); ("S_DIST_08", Chars 24); ("S_DIST_09", Chars 24);
  ("S_DIST_10", Chars 24); ("S_YTD", Int64); ("S_ORDER_CNT", Int64); ("S_REMOTE_CNT", Int64);
  ("S_DATA", Chars 50)].

(** A table: its name in the schema file, its enumeration, its structure. *)
Definition tpcc_tables (TPCC_SMALL : bool) : list (string * list string * record) :=
  if TPCC_SMALL then [
    ("WAREHOUSE", w_columns_small, w_record_small);
    ("DISTRICT", d_columns_small, d_record_small);
    ("CUSTOMER", c_columns_small, c_record_small);
    ("HISTORY", h_columns_small, h_record_small);
    ("NEW-ORDER", no_columns_small, no_record_small);
    ("ORDER", o_columns_small, o_record_small);
    ("ORDER-LINE", ol_columns_small, ol_record_small);
    ("ITEM", i_columns_small, i_record_small);
    ("STOCK", s_columns_small, s_record_small)]
  else [
    ("WAREHOUSE", w_columns_full, w_record_full);
    ("DISTRICT", d_columns_full, d_record_full);
    ("CUSTOMER", c_columns_full, c_record_full);
    ("HISTORY", h_columns_full, h_record_full);
    ("NEW-ORDER", no_columns_full, no_record_full);
    ("ORDER", o_columns_full, o_record_full);
    ("ORDER-LINE", ol_columns_full, ol_record_full);
    ("ITEM", i_columns_full, i_record_full);
    ("STOCK", s_columns_full, s_record_full)].

(** ** The schema files *)

Definition full_tables : list string := [
  "//size,type,name"; "TABLE=WAREHOUSE"; "	8,int64_t,W_ID"; "	10,string,W_NAME"; "	20,string,W_STREET_1";
  "	20,string,W_STREET_2"; "	20,string,W_CITY"; "	2,string,W_STATE"; "	9,string,W_ZIP"; "	8,double,W_TAX";
  "	8,double,W_YTD"; ""; "TABLE=DISTRICT"; "	8,int64_t,D_ID"; "	8,int64_t,D_W_ID"; "	10,string,D_NAME";
  "	20,string,D_STREET_1"; "	20,string,D_STREET_2"; "	20,string,D_CITY"; "	2,string,D_STATE";
  "	9,string,D_ZIP"; "	8,double,D_TAX"; "	8,double,D_YTD"; "	8,int64_t,D_NEXT_O_ID"; ""; "TABLE=CUSTOMER";
  "	8,int64_t,C_ID"; "	8,int64_t,C_D_ID"; "	8,int64_t,C_W_ID"; "	16,string,C_FIRST"; "	2,string,C_MIDDLE";
  "	16,string,C_LAST"; "	20,string,C_STREET_1"; "	20,string,C_STREET_2"; "	20,string,C_CITY";
  "	2,string,C_STATE"; "	9,string,C_ZIP"; "	16,string,C_PHONE"; "	8,int64_t,C_SINCE"; "	2,string,C_CREDIT";
  "	8,int64_t,C_CREDIT_LIM"; "	8,int64_t,C_DISCOUNT"; "	8,double,C_BALANCE"; "	8,double,C_YTD_PAYMENT";
  "	8,uint64_t,C_PAYMENT_CNT"; "	8,uint64_t,C_DELIVERY_CNT"; "	500,string,C_DATA"; "	"; "TABLE=HISTORY";
  "	8,int64_t,H_C_ID"; "	8,int64_t,H_C_D_ID"; "	8,int64_t,H_C_W_ID"; "	8,int64_t,H_D_ID";
  "	8,int64_t,H_W_ID"; "	8,int64_t,H_DATE"; "	8,double,H_AMOUNT"; "	24,string,H_DATA"; ""; "TABLE=NEW-ORDER";
  "	8,int64_t,NO_O_ID"; "	8,int64_t,NO_D_ID"; "	8,int64_t,NO_W_ID"; ""; "TABLE=ORDER"; "	8,int64_t,O_ID";
  "	8,int64_t,O_C_ID"; "	8,int64_t,O_D_ID"; "	8,int64_t,O_W_ID"; "	8,int64_t,O_ENTRY_D";
  "	8,int64_t,O_CARRIER_ID"; "	8,int64_t,O_OL_CNT"; "	8,int64_t,O_ALL_LOCAL"; ""; "TABLE=ORDER-LINE";
  "	8,int64_t,OL_O_ID"; "	8,int64_t,OL_D_ID"; "	8,int64_t,OL_W_ID"; "	8,int64_t,OL_NUMBER";
  "	8,int64_t,OL_I_ID"; "	8,int64_t,OL_SUPPLY_W_ID"; "	8,int64_t,OL_DELIVERY_D"; "	8,int64_t,OL_QUANTITY";
  "	8,double,OL_AMOUNT"; "	8,int64_t,OL_DIST_INFO"; ""; "TABLE=ITEM"; "	8,int64_t,I_ID";
  "	8,int64_t,I_IM_ID"; "	24,string,I_NAME"; "	8,int64_t,I_PRICE"; "	50,string,I_DATA"; ""; "TABLE=STOCK";
  "	8,int64_t,S_I_ID"; "	8,int64_t,S_W_ID"; "	8,int64_t,S_QUANTITY"; "	24,string,S_DIST_01";
  "	24,string,S_DIST_02"; "	24,string,S_DIST_03"; "	24,string,S_DIST_04"; "	24,string,S_DIST_05";
  "	24,string,S_DIST_06"; "	24,string,S_DIST_07"; "	24,string,S_DIST_08"; "	24,string,S_DIST_09";
  "	24,string,S_DIST_10"; "	8,int64_t,S_YTD"; "	8,int64_t,S_ORDER_CNT"; "	8,int64_t,S_REMOTE_CNT";
  "	50,string,S_DATA"; ""].
Definition full_indexes : list string := [
  "INDEX=ITEM_IDX"; "ITEM,400000"; ""; "INDEX=WAREHOUSE_IDX"; "WAREHOUSE,100"; ""; "INDEX=DISTRICT_IDX";
  "DISTRICT,1000"; ""; "INDEX=CUSTOMER_ID_IDX"; "CUSTOMER,120000"; ""; "INDEX=CUSTOMER_LAST_IDX";
  "CUSTOMER,120000"; ""; "INDEX=STOCK_IDX"; "STOCK,400000"].
Definition full_indexes_all_txn : list string := [
  "INDEX=ITEM_IDX"; "ITEM,110000"; ""; "INDEX=WAREHOUSE_IDX"; "WAREHOUSE,100"; ""; "INDEX=DISTRICT_IDX";
  "DISTRICT,1000"; ""; "INDEX=CUSTOMER_ID_IDX"; "CUSTOMER,33000"; ""; "INDEX=CUSTOMER_LAST_IDX";
  "CUSTOMER,33000"; ""; "INDEX=STOCK_IDX"; "STOCK,110000"; ""; "INDEX=ORDER_IDX"; "ORDER,24000"; "";
  "INDEX=ORDER_CUST_IDX"; "ORDER,240000"; ""; "INDEX=ORDER-LINE_IDX"; "ORDER-LINE,240000"; "";
  "INDEX=NEW-ORDER_IDX"; "NEW-ORDER,240000"].
Definition short_schema : list string := [
  "//size,type,name"; "TABLE=WAREHOUSE"; "	8,int64_t,W_ID"; "	10,string,W_NAME"; "	20,string,W_STREET_1";
  "	20,string,W_STREET_2"; "	20,string,W_CITY"; "	2,string,W_STATE"; "	9,string,W_ZIP"; "	8,double,W_TAX";
  "	8,double,W_YTD"; ""; "TABLE=DISTRICT"; "	8,int64_t,D_ID"; "	8,int64_t,D_W_ID"; "	10,string,D_NAME";
  "	20,string,D_STREET_1"; "	20,string,D_STREET_2"; "	20,string,D_CITY"; "	2,string,D_STATE";
  "	9,string,D_ZIP"; "	8,double,D_TAX"; "	8,double,D_YTD"; "	8,int64_t,D_NEXT_O_ID"; ""; "TABLE=CUSTOMER";
  "	8,int64_t,C_ID"; "	8,int64_t,C_D_ID"; "	8,int64_t,C_W_ID"; "	2,string,C_MIDDLE"; "	16,string,C_LAST";
  "	2,string,C_STATE"; "	2,string,C_CREDIT"; "	8,int64_t,C_DISCOUNT"; "	8,double,C_BALANCE";
  "	8,double,C_YTD_PAYMENT"; "	8,uint64_t,C_PAYMENT_CNT"; "	"; "TABLE=HISTORY"; "	8,int64_t,H_C_ID";
  "	8,int64_t,H_C_D_ID"; "	8,int64_t,H_C_W_ID"; "	8,int64_t,H_D_ID"; "	8,int64_t,H_W_ID";
  "	8,int64_t,H_DATE"; "	8,double,H_AMOUNT"; ""; "TABLE=NEW-ORDER"; "	8,int64_t,NO_O_ID";
  "	8,int64_t,NO_D_ID"; "	8,int64_t,NO_W_ID"; ""; "TABLE=ORDER"; "	8,int64_t,O_ID"; "	8,int64_t,O_C_ID";
  "	8,int64_t,O_D_ID"; "	8,int64_t,O_W_ID"; "	8,int64_t,O_ENTRY_D"; "	8,int64_t,O_CARRIER_ID";
  "	8,int64_t,O_OL_CNT"; "	8,int64_t,O_ALL_LOCAL"; ""; "TABLE=ORDER-LINE"; "	8,int64_t,OL_O_ID";
  "	8,int64_t,OL_D_ID"; "	8,int64_t,OL_W_ID"; "	8,int64_t,OL_NUMBER"; "	8,int64_t,OL_I_ID"; ""; "TABLE=ITEM";
  "	8,int64_t,I_ID"; "	8,int64_t,I_IM_ID"; "	24,string,I_NAME"; "	8,int64_t,I_PRICE"; "	50,string,I_DATA";
  ""; "TABLE=STOCK"; "	8,int64_t,S_I_ID"; "	8,int64_t,S_W_ID"; "	8,int64_t,S_QUANTITY";
  "	8,int64_t,S_REMOTE_CNT"; ""; "INDEX=ITEM_IDX"; "ITEM,10000"; ""; "INDEX=WAREHOUSE_IDX"; "WAREHOUSE,1";
  ""; "INDEX=DISTRICT_IDX"; "DISTRICT,10"; ""; "INDEX=CUSTOMER_ID_IDX"; "CUSTOMER,40000"; "";
  "INDEX=CUSTOMER_LAST_IDX"; "CUSTOMER,40000"; ""; "INDEX=STOCK_IDX"; "STOCK,10000"; ""; "INDEX=ORDER_IDX";
  "ORDER,200000"; ""; "INDEX=ORDER_CUST_IDX"; "ORDER,200000"; ""; "INDEX=ORDER-LINE_IDX";
  "ORDER-LINE,2000000"; ""; "INDEX=NEW-ORDER_IDX"; "NEW-ORDER,2000000"].

(** The file that [tpcc_wl::init] reads. *)
Definition schema_file (TPCC_SMALL TPCC_ALL_TXN : bool) : list str :=
  map text (if TPCC_SMALL then short_schema
            else full_tables ++ (if TPCC_ALL_TXN then full_indexes_all_txn else full_indexes))%list.

(** ** The places agree *)

(** Column [k] of the enumeration. *)
Definition column_agrees (cat : Catalog) (r : record) (k : nat) (name : string) : bool :=
  bool_decide (Schema.get_field_id (text name) cat = Some k) &&
  bool_decide (is_Some (offsetof name r)) && bool_decide (Schema.get_field_index k cat = offsetof name r) &&
  bool_decide (Schema.get_field_size k cat = sizeof_member name r).
Definition table_agrees (tables : gmap str Catalog) (t : string * list string * record) : bool :=
  match tables !! text t.1.1 with
  | Some cat =>
      bool_decide (field_cnt cat = length t.1.2) && bool_decide (tuple_size cat = sizeof_record t.2) &&
      forallb (fun x => column_agrees cat t.2 x.1 x.2) (imap pair t.1.2)
  | None => false
  end.

(** [tpcc_wl::init] up to the schema. *)
Definition tpcc_schema (INDEX_STRUCT : IndexStruct) (TPCC_SMALL TPCC_ALL_TXN REPLICATE_ITEM CENTRAL_INDEX : bool)
    (g_part_cnt DIST_PER_WARE MAX_SOCKETS g_synth_table_size : Z) : option Workload :=
  load_schema INDEX_STRUCT true TPCC_ALL_TXN REPLICATE_ITEM CENTRAL_INDEX g_part_cnt DIST_PER_WARE MAX_SOCKETS g_synth_table_size
    (schema_file TPCC_SMALL TPCC_ALL_TXN).

Definition schema_agrees (TPCC_SMALL : bool) (w : option Workload) : bool :=
  match w with Some w => forallb (table_agrees (tables w)) (tpcc_tables TPCC_SMALL) | None => false end.

Lemma tpcc_schema_agrees IS small all rep central parts dist sockets size :
  schema_agrees small (tpcc_schema IS small all rep central parts dist sockets size) = true.
Proof. destruct IS, small, all; vm_compute; reflexivity. Qed.

Lemma column_agrees_spec cat r k name : column_agrees cat r k name = true ->
  exists off, offsetof name r = Some off /\ Schema.get_field_index k cat = Some off /\
    Schema.get_field_size k cat = sizeof_member name r /\ Schema.get_field_id (text name) cat = Some k.
Proof.
  unfold column_agrees. intros [[[H1 [off H2]%bool_decide_eq_true]%andb_prop H3]%andb_prop H4]%andb_prop.
  apply bool_decide_eq_true in H1, H3, H4. exists off. split_and!; try done. congruence.
Qed.

Lemma table_agrees_spec tables t : table_agrees tables t = true ->
  exists cat, tables !! text t.1.1 = Some cat /\ field_cnt cat = length t.1.2 /\ tuple_size cat = sizeof_record t.2 /\
    forall k name, t.1.2 !! k = Some name -> column_agrees cat t.2 k name = true.
Proof.
  unfold table_agrees. destruct (tables !! text t.1.1) as [cat|]; [|done].
  intros [[H1 H2]%andb_prop H3]%andb_prop. apply bool_decide_eq_true in H1, H2. exists cat. split_and!; try done.
  intros k name Hk. rewrite forallb_forall in H3. apply (H3 (k, name)), list_elem_of_In, list_elem_of_lookup. exists k.
  by rewrite list_lookup_imap, Hk.
Qed.

(** With [BYPASS_CATALOG] the rows of TPC-C are read, written and copied as without it. *)
Theorem tpcc_bypass_catalog IS small all rep central parts dist sockets size :
  exists w, tpcc_schema IS small all rep central parts dist sockets size = Some w /\
  forall tname columns r, In (tname, columns, r) (tpcc_tables small) ->
  exists cat, tables w !! text tname = Some cat /\ tuple_size cat = sizeof_record r /\
  (forall src data, Row.copy true cat src (sizeof_record r) data = Row.copy false cat src (sizeof_record r) data) /\
  forall k name, columns !! k = Some name ->
  exists pos n, offsetof name r = Some pos /\ sizeof_member name r = Some n /\
    (forall ptr data, Row.set_value true cat k ptr pos n data = Row.set_value false cat k ptr pos n data) /\
    (forall ptr data, Row.set_value_name true cat (text name) ptr pos n data = Row.set_value_name false cat (text name) ptr pos n data) /\
    (forall len data, Row.get_value true cat k len pos data = Row.get_value false cat k len pos data).
Proof.
  pose proof (tpcc_schema_agrees IS small all rep central parts dist sockets size) as H.
  destruct (tpcc_schema _ _ _ _ _ _ _ _ _) as [w|]; [|done]. exists w. split; [done|]. intros tname cs r Ht.
  cbn in H. rewrite forallb_forall in H. specialize (H _ Ht). apply table_agrees_spec in H as (cat & Hc & Hn & Hs & Hcol).
  cbn in *. exists cat. split_and!; try done; [intros; unfold Row.copy; by rewrite Hs|]. intros k name Hk.
  destruct (column_agrees_spec cat r k name (Hcol k name Hk)) as (pos & Ho & Hi & Hsz & Hnm).
  assert (exists n, Schema.get_field_size k cat = Some n) as [n Hn'].
  { unfold Schema.get_field_index, Schema.get_field_size in *. destruct (columns cat !! k); [by eexists|done]. }
  assert (forall ptr data, Row.set_value true cat k ptr pos n data = Row.set_value false cat k ptr pos n data) as Hset.
  { intros ptr data. unfold Row.set_value. by rewrite Hi, Hn'. }
  exists pos, n. split_and!; try done; [congruence| |].
  - intros ptr data. unfold Row.set_value_name. rewrite Hnm. exact (Hset ptr data).
  - intros len data. unfold Row.get_value. by rewrite Hi.
Qed.
