(* ===== verification/TpccSize.v ===== *)
(** * The size of a TPC-C database

    src/benchmarks/tpcc/tpcc_wl_size.cpp: with [g_calc_size_only] the loader only adds up the bytes of the rows that it would
    create. A draw of the generator gives the number of lines of each order. The threads add
    their warehouses to [workload_size], an atomic counter (tpcc.h), so the order of the threads does not matter. *)

From Stdlib Require Import String.
From stdpp Require Import list.
From S2P Require Import Prelude Global TpccKeys TpccQuery TpccLoad TpccLoadLog TpccRecords.

(** [for (i = first; ...; i++)] with [n] turns, on [thread_workload_size] or [workload_size]. *)
Fixpoint rloop (n : nat) (first : Z) (f : Z -> Z -> Rand Z) (acc : Z) : Rand Z :=
  match n with
  | O => rret acc
  | S n => let! acc <- f first acc;; rloop n (first + 1) f acc
  end.

Definition check (b : bool) : Rand unit := fun r => assert! b;; Some (tt, r).

Section size.
Context {tc : TpccConfig}.
Context (lrand48 : Z -> nat -> Z).
Context (TPCC_SMALL REPLICATE_ITEM : bool).

(** The structures of the configuration. *)
Definition size_of (small full : list (string * ctype)) : Z := sizeof_record (if TPCC_SMALL then small else full).
Notation i_size := (size_of i_record_small i_record_full).
Notation w_size := (size_of w_record_small w_record_full).
Notation d_size := (size_of d_record_small d_record_full).
Notation s_size := (size_of s_record_small s_record_full).
Notation c_size := (size_of c_record_small c_record_full).
Notation h_size := (size_of h_record_small h_record_full).
Notation o_size := (size_of o_record_small o_record_full).
Notation ol_size := (size_of ol_record_small ol_record_full).
Notation no_size := (size_of no_record_small no_record_full).

Definition size_tab_item (acc : Z) : Z := u64 (acc + u64 (g_max_items * i_size)).
Definition size_tab_wh (wid acc : Z) : option Z :=
  assert! (1 <=? wid) && (wid <=? g_num_wh);; Some (u64 (acc + w_size)).
Definition size_tab_dist (acc : Z) : Z := u64 (acc + u64 (DIST_PER_WARE * d_size)).
Definition size_tab_stock (acc : Z) : Z := u64 (acc + u64 (g_max_items * s_size)).
Definition size_tab_cust (acc : Z) : option Z :=
  assert! 1000 <=? g_cust_per_dist;; Some (u64 (acc + u64 (g_cust_per_dist * c_size))).
Definition size_tab_hist (acc : Z) : Z := u64 (acc + h_size).

Definition size_order (wid oid acc : Z) : Rand Z :=
  let! o_ol_cnt <- URand lrand48 5 15 (wid - 1);;
  let acc := if TPCC_SMALL then acc else u64 (acc + u64 (o_ol_cnt * ol_size)) in
  rret (if 2100 <? oid then u64 (acc + no_size) else acc).
Definition size_tab_order (wid acc : Z) : Rand Z :=
  let! acc <- rloop (Z.to_nat g_cust_per_dist) 1 (size_order wid) acc;;
  rret (u64 (acc + u64 (g_cust_per_dist * o_size))).

Definition lift (o : option Z) : Rand Z := fun r => do! x <- o;; Some (x, r).

(** The turn of district [did]. *)
Definition size_district (wid did acc : Z) : Rand Z :=
  let! acc <- lift (size_tab_cust acc);;
  let! acc <- size_tab_order wid acc;;
  rloop (Z.to_nat g_cust_per_dist) 1 (fun _ acc => rret (size_tab_hist acc)) acc.

(** The bytes of a warehouse, which are printed and added to [workload_size]. *)
Definition threadSizeWarehouse (tid : Z) : Rand Z :=
  let wid := tid + 1 in
  let! _ok <- check (tid <? g_num_wh);;
  let acc := if REPLICATE_ITEM then 0 else if tid =? 0 then size_tab_item 0 else 0 in
  let! acc <- lift (size_tab_wh wid acc);;
  let acc := size_tab_stock (size_tab_dist acc) in
  rloop (Z.to_nat DIST_PER_WARE) 1 (size_district wid) acc.

(** The loop over the warehouses of the OpenMP threads; a replica of the items for each of [sockets] nodes. *)
Definition size_table (omp_num_threads : Z) (sockets : nat) : Rand Z :=
  let! acc <- rloop (Z.to_nat omp_num_threads) 0 (fun t acc =>
    let share := thread_share omp_num_threads t in
    rloop (Z.to_nat share.1) share.2 (fun tid acc => let! n <- threadSizeWarehouse tid;; rret (u64 (acc + n))) acc) 0;;
  rret (if REPLICATE_ITEM then Nat.iter sockets (fun acc => u64 (acc + u64 (g_max_items * i_size))) acc else acc).

(** ** What is added *)

(** [m] adds an amount that satisfies [P]. *)
Definition adds (m : Z -> Rand Z) (P : Z -> Prop) : Prop :=
  forall acc, is_u64 acc -> yields (m acc) (fun acc' => exists d, P d /\ acc' = u64 (acc + d)).

Lemma u64_add_l a b : u64 (u64 a + b) = u64 (a + b).
Proof. unfold u64. by rewrite Z.add_mod_idemp_l. Qed.
Lemma u64_add_r a b : u64 (a + u64 b) = u64 (a + b).
Proof. unfold u64. by rewrite Z.add_mod_idemp_r. Qed.

Lemma adds_seq m1 (m2 : Z -> Rand Z) P1 P2 P : adds m1 P1 -> adds m2 P2 -> (forall d1 d2, P1 d1 -> P2 d2 -> P (d1 + d2)) ->
  adds (fun acc => let! acc <- m1 acc;; m2 acc) P.
Proof.
  intros H1 H2 HP acc Hacc. eapply yields_bind; [by apply H1|]. intros a (d1 & Hd1 & ->).
  eapply yields_weaken; [|apply H2, u64_range]. intros a (d2 & Hd2 & ->). exists (d1 + d2). split; [auto|].
  rewrite u64_add_l. f_equal. lia.
Qed.

Lemma adds_const n : adds (fun acc => rret (u64 (acc + u64 n))) (fun d => d = n).
Proof. intros acc _. apply yields_ret. exists n. by rewrite u64_add_r. Qed.

Definition sum (l : list Z) : Z := foldr Z.add 0 l.

Lemma sum_app l1 l2 : sum (l1 ++ l2) = sum l1 + sum l2.
Proof. unfold sum. induction l1 as [|x l1 IH]; cbn; [done|]. rewrite IH. lia. Qed.

(** A loop adds what its turns add. *)
Lemma adds_loop (f : Z -> Z -> Rand Z) (P : Z -> Z -> Prop) n first :
  (forall i, first <= i < first + Z.of_nat n -> adds (f i) (P i)) ->
  adds (rloop n first f) (fun d => exists ds, Forall2 P (seqZ first (Z.of_nat n)) ds /\ d = sum ds).
Proof.
  revert first. induction n as [|n IH]; intros first H acc Hacc; cbn [rloop].
  - apply yields_ret. exists 0. split; [by exists []|]. by rewrite Z.add_0_r, u64_small.
  - eapply yields_bind; [apply H; [lia|done]|]. intros a (d & Hd & ->).
    eapply yields_weaken; [|apply IH; [intros i Hi; apply H; lia|apply u64_range]].
    intros a (? & (ds & Hds & ->) & ->). exists (d + sum ds). split; [|rewrite u64_add_l; f_equal; lia].
    exists (d :: ds). split; [|done]. rewrite (seqZ_cons first) by lia.
    replace (Z.pred (Z.of_nat (S n))) with (Z.of_nat n) by lia. replace (Z.succ first) with (first + 1) by lia. by constructor.
Qed.

Lemma adds_weaken m (P Q : Z -> Prop) : (forall d, P d -> Q d) -> adds m P -> adds m Q.
Proof. intros HPQ Hm acc Hacc. eapply yields_weaken; [|by apply Hm]. intros a (d & ? & ->). eauto. Qed.

(** ** The amounts *)

Context {tok : TpccConfigOk} (Hrand : forall b i, 0 <= lrand48 b i < 2 ^ 31).

Definition new_order_bytes (oid : Z) : Z := if 2100 <? oid then no_size else 0.
Definition line_bytes (lines : Z) : Z := if TPCC_SMALL then 0 else lines * ol_size.

(** One order has five to fifteen lines. *)
Definition order_bytes (oid d : Z) : Prop := exists lines, 5 <= lines <= 15 /\ d = line_bytes lines + new_order_bytes oid.

Lemma size_order_adds wid oid : adds (size_order wid oid) (order_bytes oid).
Proof using Hrand.
  intros acc Hacc. eapply yields_bind; [apply (URand_yields lrand48 Hrand 5 15); lia|]. intros lines Hl. apply yields_ret.
  eexists. split; [exists lines; split; [exact Hl|reflexivity]|]. unfold line_bytes, new_order_bytes.
  assert (forall a, is_u64 a -> u64 (a + 0) = a) as H0 by (intros a Ha; rewrite Z.add_0_r; by apply u64_small).
  destruct TPCC_SMALL, (2100 <? oid); cbn [Z.add]; rewrite ?u64_add_l, ?u64_add_r, ?Z.add_0_r; try done.
  - rewrite u64_small; done.
  - rewrite <- Z.add_assoc, (Z.add_comm (u64 _)), Z.add_assoc, u64_add_r. f_equal. lia.
Qed.

Lemma line_bytes_add a b : line_bytes a + line_bytes b = line_bytes (a + b).
Proof using Type. unfold line_bytes. destruct TPCC_SMALL; lia. Qed.

(** The orders [first], ..., of which those above 2100 are new. *)
Lemma orders_sum n first ds : Forall2 order_bytes (seqZ first (Z.of_nat n)) ds ->
  exists lines, length lines = n /\ Forall (fun l => 5 <= l <= 15) lines /\
    sum ds = line_bytes (sum lines) + no_size * (Z.max 0 (first + Z.of_nat n - 2101) - Z.max 0 (first - 2101)).
Proof using Type.
  revert first ds. induction n as [|n IH]; intros first ds H.
  - apply Forall2_nil_inv_l in H as ->. exists []. split_and!; [done|done|]. rewrite Z.add_0_r, Z.sub_diag, Z.mul_0_r.
    unfold line_bytes. by destruct TPCC_SMALL.
  - rewrite (seqZ_cons first) in H by lia. apply Forall2_cons_inv_l in H as (d & ds' & (l & Hl & ->) & H & ->).
    replace (Z.pred (Z.of_nat (S n))) with (Z.of_nat n) in H by lia.
    destruct (IH _ _ H) as (lines & <- & Hf & Hs). exists (l :: lines). split_and!; [done|by constructor|].
    change (sum (line_bytes l + new_order_bytes first :: ds')) with (line_bytes l + new_order_bytes first + sum ds').
    change (sum (l :: lines)) with (l + sum lines). rewrite <- line_bytes_add, Hs. unfold new_order_bytes. cbn [length].
    assert (Z.max 0 (first + Z.of_nat (S (length lines)) - 2101) - Z.max 0 (first - 2101) = (if 2100 <? first then 1 else 0) +
      (Z.max 0 (Z.succ first + Z.of_nat (length lines) - 2101) - Z.max 0 (Z.succ first - 2101))) as -> by (destruct (Z.ltb_spec 2100 first); lia).
    rewrite Z.mul_add_distr_l. destruct (2100 <? first); lia.
Qed.

Definition orders_ok (n : Z) (lines : list Z) : Prop := Z.of_nat (length lines) = n /\ Forall (fun l => 5 <= l <= 15) lines.

Lemma size_tab_order_adds wid : adds (size_tab_order wid) (fun d => exists lines, orders_ok g_cust_per_dist lines /\
  d = line_bytes (sum lines) + no_size * Z.max 0 (g_cust_per_dist - 2100) + g_cust_per_dist * o_size).
Proof using Hrand tok.
  eapply adds_seq; [apply adds_loop; intros i _; apply (size_order_adds wid i)|apply adds_const|].
  intros d1 d2 (ds & Hds & ->) ->. destruct (orders_sum _ _ _ Hds) as (lines & Hlen & Hf & ->). pose proof cust_ok.
  exists lines. split; [split; [lia|done]|]. rewrite Z2Nat.id by lia. f_equal. f_equal. f_equal. lia.
Qed.

Definition district_bytes (lines : list Z) : Z :=
  g_cust_per_dist * (c_size + o_size + h_size) + no_size * Z.max 0 (g_cust_per_dist - 2100) + line_bytes (sum lines).

Lemma adds_lift (o : Z -> option Z) n : (forall acc, o acc = Some (u64 (acc + u64 n))) -> adds (fun acc => lift (o acc)) (fun d => d = n).
Proof using Type.
  intros Ho acc _ r Hr. unfold lift. rewrite Ho. eexists _, r. split; [done|]. split; [|done]. exists n. by rewrite u64_add_r.
Qed.

Lemma sum_const {A} (l : list A) n ds : Forall2 (fun _ d => d = n) l ds -> sum ds = Z.of_nat (length l) * n.
Proof using Type. induction 1 as [|x d l ds -> _ IH]; [done|]. change (sum (n :: ds)) with (n + sum ds). rewrite IH. cbn [length]. lia. Qed.

Lemma size_district_adds wid did : 1000 <= g_cust_per_dist ->
  adds (size_district wid did) (fun d => exists lines, orders_ok g_cust_per_dist lines /\ d = district_bytes lines).
Proof using Hrand tok.
  intros Hc. eapply adds_seq; [apply (adds_lift _ (g_cust_per_dist * c_size))| |].
  - intros acc. unfold size_tab_cust. by rewrite (proj2 (Z.leb_le _ _)).
  - eapply (adds_seq _ _ _ _ (fun d => exists lines, orders_ok g_cust_per_dist lines /\ d = district_bytes lines - g_cust_per_dist * c_size));
      [apply size_tab_order_adds|apply (adds_loop _ (fun _ d => d = h_size))|].
    + intros _ _ acc _. apply yields_ret. by exists h_size.
    + intros d1 d2 (lines & Hl & ->) (ds & Hds & ->). exists lines. split; [done|]. apply sum_const in Hds as ->.
      rewrite length_seqZ. unfold district_bytes. pose proof cust_ok. rewrite !Z2Nat.id by lia. lia.
  - intros d1 d2 -> (lines & Hl & ->). exists lines. split; [done|lia].
Qed.
(** The items, in the share of warehouse 1, and the bytes of a warehouse. *)
Definition item_bytes (tid : Z) : Z := if negb REPLICATE_ITEM && (tid =? 0) then g_max_items * i_size else 0.
Definition warehouse_bytes (tid d : Z) : Prop := exists lines, orders_ok (DIST_PER_WARE * g_cust_per_dist) lines /\
  d = item_bytes tid + w_size + g_max_items * s_size +
      DIST_PER_WARE * (d_size + g_cust_per_dist * (c_size + o_size + h_size) + no_size * Z.max 0 (g_cust_per_dist - 2100)) +
      line_bytes (sum lines).

Lemma districts_sum (n : nat) first ds :
  Forall2 (fun _ d => exists lines, orders_ok g_cust_per_dist lines /\ d = district_bytes lines) (seqZ first (Z.of_nat n)) ds ->
  exists lines, orders_ok (Z.of_nat n * g_cust_per_dist) lines /\
    sum ds = Z.of_nat n * (g_cust_per_dist * (c_size + o_size + h_size) + no_size * Z.max 0 (g_cust_per_dist - 2100)) + line_bytes (sum lines).
Proof using Type.
  revert first ds. induction n as [|n IH]; intros first ds H.
  - apply Forall2_nil_inv_l in H as ->. exists []. split; [by split|]. unfold line_bytes. by destruct TPCC_SMALL.
  - rewrite (seqZ_cons first) in H by lia. apply Forall2_cons_inv_l in H as (d & ds' & (l & [Hl Hlf] & ->) & H & ->).
    replace (Z.pred (Z.of_nat (S n))) with (Z.of_nat n) in H by lia.
    destruct (IH _ _ H) as (lines & [Hn Hf] & Hs). exists (l ++ lines). split.
    + split; [rewrite length_app; lia|by apply Forall_app].
    + change (sum (district_bytes l :: ds')) with (district_bytes l + sum ds'). rewrite sum_app, <- line_bytes_add, Hs.
      unfold district_bytes. replace (Z.of_nat (S n)) with (Z.of_nat n + 1) by lia. ring.
Qed.

(** What is counted before the loop over the districts. *)
Lemma warehouse_start tid : 0 <= tid < g_num_wh ->
  size_tab_wh (tid + 1) (if REPLICATE_ITEM then 0 else if tid =? 0 then size_tab_item 0 else 0) = Some (u64 (item_bytes tid + w_size)).
Proof using Type.
  intros Ht. unfold size_tab_wh, item_bytes. rewrite (proj2 (Z.leb_le 1 _)), (proj2 (Z.leb_le _ g_num_wh)) by lia. cbn [andb].
  f_equal. destruct REPLICATE_ITEM; [done|]. cbn [negb andb]. destruct (tid =? 0); [|done].
  unfold size_tab_item. by rewrite u64_add_l, Z.add_0_l, u64_add_l.
Qed.

Lemma threadSizeWarehouse_yields tid : 1000 <= g_cust_per_dist -> 0 <= tid < g_num_wh ->
  yields (threadSizeWarehouse tid) (fun n => exists d, warehouse_bytes tid d /\ n = u64 d).
Proof using Hrand tok.
  intros Hc Ht r Hr. unfold threadSizeWarehouse, check, rbind. rewrite (proj2 (Z.ltb_lt _ _)) by lia. cbn [andb].
  unfold lift. rewrite warehouse_start by done.
  destruct (adds_loop (size_district (tid + 1)) _ (Z.to_nat DIST_PER_WARE) 1 (fun did _ => size_district_adds (tid + 1) did Hc)
    (size_tab_stock (size_tab_dist (u64 (item_bytes tid + w_size)))) (u64_range _) r Hr) as (n & r' & E & (d & (ds & Hds & ->) & ->) & Hr').
  exists (u64 (size_tab_stock (size_tab_dist (u64 (item_bytes tid + w_size))) + sum ds)), r'. split; [exact E|]. split; [|done].
  destruct (districts_sum _ _ _ Hds) as (lines & Hl & Hs). pose proof dist_ok. rewrite Z2Nat.id in Hl, Hs by lia.
  eexists. split; [exists lines; split; [exact Hl|reflexivity]|]. rewrite Hs. unfold size_tab_stock, size_tab_dist.
  rewrite !u64_add_r, u64_add_l, <- Z.add_assoc, u64_add_l, <- Z.add_assoc, u64_add_l. f_equal. ring.
Qed.

Definition one (P : Z -> Z -> Prop) (i : Z) (es : list Z) : Prop := exists d, es = [d] /\ P i d.

Lemma parts_singletons P first n es : parts (one P) first n es <-> Forall2 P (seqZ first n) es.
Proof using Type.
  split.
  - intros (ess & -> & H). induction H as [|i e l ess (d & -> & Hd) _ IH]; [done|]. by constructor.
  - intros H. exists ((fun d => [d]) <$> es). split; [|apply Forall2_fmap_r; eapply Forall2_impl; [done|]; intros i d Hd; by exists d].
    clear H. induction es as [|e es IH]; [done|]. cbn. by f_equal.
Qed.

Lemma shares_adds T t : 1000 <= g_cust_per_dist -> 0 < T < 2 ^ 31 -> 0 <= t < T ->
  adds (fun acc => rloop (Z.to_nat (thread_share T t).1) (thread_share T t).2
    (fun tid acc => let! n <- threadSizeWarehouse tid;; rret (u64 (acc + n))) acc)
    (fun d => exists es, parts (one warehouse_bytes) (thread_share T t).2 (thread_share T t).1 es /\ d = sum es).
Proof using Hrand tok.
  intros Hc HT Ht. destruct (share_value T t HT Ht) as (E & Hq & Hrest & Hsum). rewrite E. cbn [fst snd].
  eapply adds_weaken; [|apply (adds_loop _ warehouse_bytes)].
  - intros d (ds & Hds & ->). exists ds. split; [|done]. apply parts_singletons. rewrite Z2Nat.id in Hds by (destruct (_ <? _); lia). done.
  - intros tid Htid acc _. eapply yields_bind; [apply (threadSizeWarehouse_yields tid Hc)|].
    + destruct (t <? _); nia.
    + intros n (d & Hd & ->). apply yields_ret. exists d. by rewrite u64_add_r.
Qed.

(** The shares of the threads together. *)
Lemma shares_total T ds : 0 < T < 2 ^ 31 ->
  Forall2 (fun t d => exists es, parts (one warehouse_bytes) (thread_share T t).2 (thread_share T t).1 es /\ d = sum es) (seqZ 0 (Z.of_nat (Z.to_nat T))) ds ->
  exists es, Forall2 warehouse_bytes (seqZ 0 g_num_wh) es /\ sum ds = sum es.
Proof using tok.
  intros HT H. assert (exists ess, Forall2 (fun t es => parts (one warehouse_bytes) (thread_share T t).2 (thread_share T t).1 es)
    (seqZ 0 (Z.of_nat (Z.to_nat T))) ess /\ sum ds = sum (concat ess)) as (ess & Hess & Hs).
  { clear HT. induction H as [|t d l ds (es & Hes & ->) _ (ess & Hess & IH)]; [by exists []|]. exists (es :: ess). split; [by constructor|].
    cbn [concat]. rewrite sum_app, <- IH. done. }
  exists (concat ess). split; [|done]. apply parts_singletons.
  assert (parts (fun t => parts (one warehouse_bytes) (thread_share T t).2 (thread_share T t).1) 0 (Z.of_nat (Z.to_nat T)) (concat ess)) as Hp by (by exists ess).
  apply (shares_parts (one warehouse_bytes) T (Z.to_nat T) (concat ess) HT) in Hp; [|lia]. rewrite Z2Nat.id in Hp by lia.
  replace (g_num_wh / T * T + _) with g_num_wh in Hp; [done|]. pose proof wh_ok.
  pose proof (Z.mul_div_le g_num_wh T ltac:(lia)). pose proof (Z.mul_succ_div_gt g_num_wh T ltac:(lia)). nia.
Qed.
End size.

(** The size of the database: whatever the number of threads every warehouse is counted once, with five to fifteen
    lines per order, one row of every other table per key, and the items once or once per node. *)
Theorem tpcc_size_correct {tc : TpccConfig} {tok : TpccConfigOk} lrand48 (TPCC_SMALL REPLICATE_ITEM : bool) T sockets :
  (forall b i, 0 <= lrand48 b i < 2 ^ 31) -> 1000 <= g_cust_per_dist -> 0 < T < 2 ^ 31 ->
  yields (size_table lrand48 TPCC_SMALL REPLICATE_ITEM T sockets) (fun n => exists ds,
    Forall2 (warehouse_bytes TPCC_SMALL REPLICATE_ITEM) (seqZ 0 g_num_wh) ds /\
    n = u64 (sum ds + (if REPLICATE_ITEM then Z.of_nat sockets * (g_max_items * size_of TPCC_SMALL i_record_small i_record_full) else 0))).
Proof.
  intros Hrand Hc HT. unfold size_table.
  eapply yields_bind; [apply (adds_loop _ (fun t d => exists es,
    parts (one (warehouse_bytes TPCC_SMALL REPLICATE_ITEM)) (thread_share T t).2 (thread_share T t).1 es /\ d = sum es))|].
  { intros t Ht. apply (shares_adds lrand48 TPCC_SMALL REPLICATE_ITEM Hrand T t Hc HT). lia. }
  { unfold is_u64. lia. }
  intros n (d & (ds & Hds & ->) & ->). apply yields_ret.
  destruct (shares_total TPCC_SMALL REPLICATE_ITEM T ds HT Hds) as (es & Hes & ->).
  exists es. split; [done|]. rewrite Z.add_0_l. destruct REPLICATE_ITEM; [|by rewrite Z.add_0_r].
  generalize (g_max_items * size_of TPCC_SMALL i_record_small i_record_full) as m, (sum es) as a. intros m a.
  clear. induction sockets as [|k IH]; [cbn; by rewrite Z.add_0_r|].
  rewrite Nat.iter_succ, IH, u64_add_r, u64_add_l. f_equal. lia.
Qed.
