(* ===== verification/Vll.v ===== *)
(** * VLL: very lightweight locking

    [Row_vll] of src/concurrency_control/row_vll.cpp, two counters per row, and
    [VLLMan] of src/concurrency_control/vll/vll.cpp, the queue of transactions.
    The critical sections under [_mutex] are the steps; [execute] only reads and
    writes the rows of the transaction.  The queue is a list, the [LIST_*] macros
    being those of DList.v.

    The functions do not compile as they are ([mutex->unlock()] names no variable);
    the model unlocks [_mutex]. *)

From stdpp Require Import list gmap.
From S2P Require Import Prelude Global.

Inductive TxnType := VLL_Blocked | VLL_Free.

#[export] Instance TxnType_eq_dec : EqDecision TxnType.
Proof. solve_decision. Defined.

Record Row_vll := mkRow_vll { cs : Z; cx : Z }.

Definition Row_vll_init : Row_vll := mkRow_vll 0 0.

Definition insert_access (type : access_t) (r : Row_vll) : bool * Row_vll :=
  if bool_decide (type = RD) then
    let r := mkRow_vll (cs r + 1) (cx r) in (0 <? cx r, r)
  else
    let r := mkRow_vll (cs r) (cx r + 1) in ((1 <? cx r) || (0 <? cs r), r).

Definition remove_access (type : access_t) (r : Row_vll) : option Row_vll :=
  if bool_decide (type = RD) then assert! 0 <? cs r;; Some (mkRow_vll (cs r - 1) (cx r))
  else assert! 0 <? cx r;; Some (mkRow_vll (cs r) (cx r - 1)).

(** An entry of the queue; [q_txn] is the pointer [entry->txn].  Ghost state: the
    number of the entry, the accesses of its transaction and the
    [vll_txn_type] it got. *)
Record TxnQEntry := mkQEntry {
  q_txn : option nat;
  q_id : nat;
  q_accesses : list (access_t * nat);
  q_type : TxnType }.

Record VLLMan := mkVLL {
  rows : nat -> Row_vll;
  txn_queue_size : Z;
  txn_queue : list TxnQEntry;
  next_id : nat }.

Definition set_row (r : nat) (x : Row_vll) (f : nat -> Row_vll) : nat -> Row_vll :=
  fun r' => if decide (r' = r) then x else f r'.

Section vll.
Context (TXN_QUEUE_SIZE_LIMIT : Z).

Definition init : VLLMan := mkVLL (fun _ => Row_vll_init) 0 [] 0.

(** [getQEntry]. *)
Definition getQEntry (id : nat) (accs : list (access_t * nat)) (type : TxnType) : TxnQEntry :=
  mkQEntry None id accs type.

(** The loop of [beginTxn] over the accesses. *)
Fixpoint insert_accesses (accs : list (access_t * nat)) (type : TxnType) (f : nat -> Row_vll) :
    TxnType * (nat -> Row_vll) :=
  match accs with
  | [] => (type, f)
  | (t, r) :: accs =>
      let '(blocked, x) := insert_access t (f r) in
      insert_accesses accs (if blocked then VLL_Blocked else type) (set_row r x f)
  end.

(** The return code, the entry, and the state; [ret = 3] of a full queue is
    overwritten. *)
Definition beginTxn (accs : list (access_t * nat)) (s : VLLMan) : Z * TxnQEntry * VLLMan :=
  let ret := if TXN_QUEUE_SIZE_LIMIT <=? txn_queue_size s then 3 else -1 in
  let '(type, f) := insert_accesses accs VLL_Free (rows s) in
  let entry := getQEntry (next_id s) accs type in
  let ret := match type with VLL_Blocked => 1 | VLL_Free => 2 end in
  (ret, entry, mkVLL f (txn_queue_size s) (txn_queue s ++ [entry]) (S (next_id s))).

Fixpoint remove_accesses (accs : list (access_t * nat)) (f : nat -> Row_vll) :
    option (nat -> Row_vll) :=
  match accs with
  | [] => Some f
  | (t, r) :: accs => do! x <- remove_access t (f r);; remove_accesses accs (set_row r x f)
  end.

(** [finishTxn]; [LIST_REMOVE_HT] takes the entry out of the queue. *)
Definition finishTxn (entry : TxnQEntry) (s : VLLMan) : option VLLMan :=
  do! f <- remove_accesses (q_accesses entry) (rows s);;
  match remove_first (fun e => bool_decide (q_id e = q_id entry)) (txn_queue s) with
  | Some (_, q) => Some (mkVLL f (txn_queue_size s) q (next_id s))
  | None => None
  end.

(** One turn of [vllMainLoop] under [_mutex]: the entry to execute, when the front
    transaction is there and blocked (it is free from then on), or else the
    transaction of the caller. *)
Inductive Turn := RunFront (entry : TxnQEntry) (s : VLLMan) | Begun (ret : Z) (entry : TxnQEntry) (s : VLLMan).

Definition main_turn (accs : list (access_t * nat)) (s : VLLMan) : Turn :=
  match txn_queue s with
  | front :: q =>
      match q_txn front with
      | Some _ =>
          if bool_decide (q_type front = VLL_Blocked) then
            let front := mkQEntry (q_txn front) (q_id front) (q_accesses front) VLL_Free in
            RunFront front (mkVLL (rows s) (txn_queue_size s) (front :: q) (next_id s))
          else let '(ret, e, s') := beginTxn accs s in Begun ret e s'
      | None => let '(ret, e, s') := beginTxn accs s in Begun ret e s'
      end
  | [] => let '(ret, e, s') := beginTxn accs s in Begun ret e s'
  end.

(** [running] lists the entries that are being executed. *)
Record State := mkState { man : VLLMan; running : list TxnQEntry }.

Inductive step : State -> State -> Prop :=
  | step_front accs s e m :
      main_turn accs (man s) = RunFront e m ->
      step s (mkState m (running s ++ [e]))
  | step_begin accs s ret e m :
      main_turn accs (man s) = Begun ret e m ->
      step s (mkState m (if ret =? 2 then running s ++ [e] else running s))
  | step_finish s e m l1 l2 :
      running s = l1 ++ e :: l2 -> finishTxn e (man s) = Some m ->
      step s (mkState m (l1 ++ l2)).

Definition reachable : State -> Prop := rtc step (mkState init []).

(** ** The counters *)

Definition count (t : access_t) (r : nat) (accs : list (access_t * nat)) : Z :=
  Z.of_nat (length (List.filter
    (fun a => bool_decide (snd a = r) && Bool.eqb (bool_decide (fst a = RD)) (bool_decide (t = RD))) accs)).

Definition counted (f : nat -> Row_vll) (accs : list (access_t * nat)) : Prop :=
  forall r, cs (f r) = count RD r accs /\ cx (f r) = count WR r accs.

Definition all_accesses (q : list TxnQEntry) : list (access_t * nat) := concat (map q_accesses q).

(** Two transactions conflict when one writes a row that the other accesses. *)
Definition conflict (l l' : list (access_t * nat)) : Prop :=
  exists t t' r, (t, r) ∈ l /\ (t', r) ∈ l' /\ (t <> RD \/ t' <> RD).

Lemma count_nonneg t r l : 0 <= count t r l.
Proof using Type. unfold count. lia. Qed.

Lemma count_app t r l l' : count t r (l ++ l') = count t r l + count t r l'.
Proof using Type. unfold count. rewrite List.filter_app, length_app. lia. Qed.

Lemma count_cons t r a l : count t r (a :: l) =
  (if bool_decide (snd a = r) && Bool.eqb (bool_decide (fst a = RD)) (bool_decide (t = RD)) then 1 else 0) +
  count t r l.
Proof using Type. unfold count. simpl. destruct (_ && _); simpl; lia. Qed.

Lemma count_perm t r l l' : l ≡ₚ l' -> count t r l = count t r l'.
Proof using Type.
  induction 1 as [|a l l' _ IH|a b l|l1 l2 l3 _ IH1 _ IH2]; rewrite ?count_cons; try lia.
Qed.

Lemma count_pos t t' r l : (t', r) ∈ l -> (t' = RD <-> t = RD) -> 0 < count t r l.
Proof using Type.
  intros Hin Ht. induction l as [|a l IH]; [by apply not_elem_of_nil in Hin|]. rewrite count_cons.
  apply elem_of_cons in Hin as [<-|Hin]; [|specialize (IH Hin)]; simpl.
  - rewrite bool_decide_true by done. pose proof (count_nonneg t r l).
    assert (bool_decide (t' = RD) = bool_decide (t = RD)) as -> by (by apply bool_decide_ext).
    rewrite eqb_reflx. simpl. lia.
  - destruct (_ && _); lia.
Qed.

(** The counters after the accesses of a transaction were added, and when the
    transaction is free none of its rows is used by others in conflict. *)
Lemma insert_accesses_spec accs type f l :
  counted f l ->
  let '(type', f') := insert_accesses accs type f in
  counted f' (accs ++ l) /\ (type' = VLL_Free -> type = VLL_Free /\ ~ conflict accs l).
Proof using Type.
  revert type f l. induction accs as [|[t r] accs IH]; intros type f l Hc; simpl.
  { split; [done|]. intros ->. split; [done|]. by intros (t & t' & r & ?%not_elem_of_nil & _). }
  destruct (insert_access t (f r)) as [b x] eqn:Ei.
  assert (counted (set_row r x f) ((t, r) :: l)) as Hc'.
  { intros r'. specialize (Hc r'). rewrite !count_cons. unfold set_row. simpl.
    unfold insert_access in Ei. destruct (decide (r' = r)) as [->|Hne].
    - rewrite (bool_decide_true (r = r)) by done.
      destruct (bool_decide (t = RD)); injection Ei as <- <-; simpl; lia.
    - rewrite (bool_decide_false (r = r')) by done. simpl. lia. }
  specialize (IH (if b then VLL_Blocked else type) _ _ Hc').
  destruct (insert_accesses accs _ _) as [type' f']. destruct IH as [Hcnt Hfree]. split.
  - intros r'. destruct (Hcnt r') as [-> ->]. split; apply count_perm; by rewrite Permutation_middle.
  - intros Ht. destruct (Hfree Ht) as [Hb Hnc]. destruct b; [done|]. split; [done|].
    intros (u & u' & r' & [[= -> ->]|Hu]%elem_of_cons & Hu' & Hx).
    + specialize (Hc r). unfold insert_access in Ei.
      destruct (bool_decide (t = RD)) eqn:Et; b2p; injection Ei as Hb' _; simpl in Hb'; b2p.
      * destruct Hx as [?|Hx]; [done|].
        pose proof (count_pos WR u' r l Hu' ltac:(done)). lia.
      * destruct (decide (u' = RD)) as [->|].
        -- pose proof (count_pos RD RD r l Hu' ltac:(done)). lia.
        -- pose proof (count_pos WR u' r l Hu' ltac:(done)). lia.
    + apply Hnc. exists u, u', r'. split_and!; [done|by right|done].
Qed.

Lemma remove_accesses_spec accs f l :
  counted f (accs ++ l) -> exists f', remove_accesses accs f = Some f' /\ counted f' l.
Proof using Type.
  revert f. induction accs as [|[t r] accs IH]; intros f Hc; simpl; [by exists f|].
  assert (exists x, remove_access t (f r) = Some x /\ counted (set_row r x f) (accs ++ l)) as (x & -> & Hx).
  { assert (forall r', r' <> r -> cs (f r') = count RD r' (accs ++ l) /\ cx (f r') = count WR r' (accs ++ l))
      as Hne.
    { intros r' Hr. destruct (Hc r') as [H1 H2]. simpl in H1, H2. rewrite count_cons in H1, H2. simpl in H1, H2.
      rewrite (bool_decide_false (r = r')) in H1, H2 by done. simpl in H1, H2. lia. }
    destruct (Hc r) as [H1 H2]. simpl in H1, H2. rewrite count_cons in H1, H2. simpl in H1, H2.
    rewrite (bool_decide_true (r = r)) in H1, H2 by done.
    pose proof (count_nonneg RD r (accs ++ l)). pose proof (count_nonneg WR r (accs ++ l)).
    unfold remove_access. destruct (bool_decide (t = RD)); simpl in H1, H2;
      (rewrite c_assert_true by lia); (eexists; split; [done|]); intros r'; unfold set_row;
      (destruct (decide (r' = r)) as [->|]; [simpl; lia|auto]). }
  apply IH, Hx.
Qed.

(** ** The invariant *)

Definition no_conflict_before (e e' : TxnQEntry) : Prop :=
  q_type e' = VLL_Free -> ~ conflict (q_accesses e') (q_accesses e).

Record inv (s : State) : Prop := {
  vi_counted : counted (rows (man s)) (all_accesses (txn_queue (man s)));
  vi_nodup : NoDup (map q_id (txn_queue (man s)));
  vi_fresh : forall e, e ∈ txn_queue (man s) -> (q_id e < next_id (man s))%nat;
  vi_null : forall e, e ∈ txn_queue (man s) -> q_txn e = None;
  vi_order : StronglySorted no_conflict_before (txn_queue (man s));
  vi_running : forall e, e ∈ running s -> e ∈ txn_queue (man s) /\ q_type e = VLL_Free;
  vi_run_nodup : NoDup (map q_id (running s)) }.

Lemma conflict_sym l l' : conflict l l' -> conflict l' l.
Proof using Type. intros (t & t' & r & ? & ? & ?). exists t', t, r. split_and!; [done|done|tauto]. Qed.

Lemma all_accesses_elem e q : e ∈ q -> forall a, a ∈ q_accesses e -> a ∈ all_accesses q.
Proof using Type.
  intros He a Ha. unfold all_accesses. rewrite list_elem_of_In, in_concat.
  exists (q_accesses e). rewrite <- !list_elem_of_In. split; [|done].
  apply list_elem_of_In, in_map, list_elem_of_In, He.
Qed.

(** The front entry has no transaction, so every turn begins the caller's. *)
Lemma main_turn_begin accs s :
  (forall e, e ∈ txn_queue s -> q_txn e = None) ->
  main_turn accs s = let '(ret, e, s') := beginTxn accs s in Begun ret e s'.
Proof using Type.
  intros Hn. unfold main_turn. destruct (txn_queue s) as [|e q]; [done|]. rewrite (Hn e) by (by left). done.
Qed.

Lemma beginTxn_spec accs s ret e s' :
  counted (rows s) (all_accesses (txn_queue s)) -> beginTxn accs s = (ret, e, s') ->
  e = mkQEntry None (next_id s) accs (q_type e) /\ ret = (if bool_decide (q_type e = VLL_Free) then 2 else 1) /\
  txn_queue s' = txn_queue s ++ [e] /\ next_id s' = S (next_id s) /\
  counted (rows s') (all_accesses (txn_queue s')) /\
  (q_type e = VLL_Free -> ~ conflict accs (all_accesses (txn_queue s))).
Proof using Type.
  intros Hc. unfold beginTxn. pose proof (insert_accesses_spec accs VLL_Free _ _ Hc) as Hi.
  destruct (insert_accesses _ _ _) as [type f]. destruct Hi as [Hcnt Hfree].
  intros [= <- <- <-]. simpl. split_and!; [done|by destruct type|done|done| |].
  - intros r. unfold all_accesses. rewrite map_app, concat_app. simpl. rewrite app_nil_r.
    destruct (Hcnt r) as [-> ->]. split; apply count_perm, Permutation_app_comm.
  - intros Ht. by destruct (Hfree Ht).
Qed.

Lemma StronglySorted_snoc (q : list TxnQEntry) e :
  StronglySorted no_conflict_before q -> (forall e', e' ∈ q -> no_conflict_before e' e) ->
  StronglySorted no_conflict_before (q ++ [e]).
Proof using Type.
  intros Hq. induction Hq as [|a q Hq IH Ha]; intros HR; simpl; [by repeat constructor|].
  constructor; [apply IH; intros y Hy; apply HR; by right|].
  rewrite Forall_app. split; [done|]. constructor; [apply HR; by left|done].
Qed.

(** A running transaction can always finish. *)
Lemma finish_spec s e :
  inv s -> e ∈ running s ->
  exists m l1 l2, finishTxn e (man s) = Some m /\ txn_queue (man s) = l1 ++ e :: l2 /\
    txn_queue m = l1 ++ l2 /\ next_id m = next_id (man s) /\
    counted (rows m) (all_accesses (l1 ++ l2)).
Proof using Type.
  intros I He. destruct (vi_running _ I _ He) as [Hq _].
  destruct (remove_first (fun e' => bool_decide (q_id e' = q_id e)) (txn_queue (man s))) as [[e' q]|] eqn:Er.
  - apply remove_first_Some in Er as (l1 & l2 & Eq & -> & Hid & _). b2p.
    assert (e' = e) as ->.
    { pose proof (vi_nodup _ I) as Hnd. apply list_elem_of_lookup in Hq as [i Hi].
      assert (txn_queue (man s) !! length l1 = Some e') as Hi' by (rewrite Eq; by apply list_lookup_middle).
      assert (i = length l1) as ->; [|congruence].
      eapply NoDup_lookup; [exact Hnd| |]; rewrite lookup_map; [by rewrite Hi|]. rewrite Hi'. simpl. by f_equal. }
    assert (counted (rows (man s)) (q_accesses e ++ all_accesses (l1 ++ l2))) as Hc.
    { intros r. destruct (vi_counted _ I r) as [-> ->]. rewrite Eq. unfold all_accesses.
      rewrite !map_app, !concat_app. simpl.
      split; apply count_perm; rewrite (assoc_L (++)), (Permutation_app_comm (concat _)), <- (assoc_L (++)); done. }
    destruct (remove_accesses_spec _ _ _ Hc) as (f & Hf & Hcf).
    eexists _, l1, l2. unfold finishTxn. rewrite Hf.
    assert (remove_first (fun e' => bool_decide (q_id e' = q_id e)) (txn_queue (man s)) = Some (e, l1 ++ l2)) as ->.
    { apply remove_first_Some. exists l1, l2. split_and!; [done|done|by rewrite bool_decide_true|].
      apply Forall_forall. intros x Hx. apply bool_decide_eq_false. intros Hxe.
      pose proof (vi_nodup _ I) as Hnd. rewrite Eq, map_app in Hnd. simpl in Hnd.
      apply NoDup_app in Hnd as (_ & Hd & _). apply (Hd (q_id x)).
      - apply list_elem_of_In, in_map, list_elem_of_In, Hx.
      - rewrite Hxe. by left. }
    split_and!; done.
  - apply remove_first_None in Er. rewrite Forall_forall in Er. specialize (Er e Hq). simpl in Er. b2p. done.
Qed.

Lemma vll_step s s' : step s s' -> inv s -> inv s'.
Proof using Type.
  intros [accs s0 e m Ht|accs s0 ret e m Ht|s0 e m l1 l2 Er Hf] I.
  - rewrite main_turn_begin in Ht by apply (vi_null _ I). by destruct (beginTxn _ _) as [[??]?].
  - rewrite main_turn_begin in Ht by apply (vi_null _ I).
    destruct (beginTxn accs (man s0)) as [[ret0 e0] m0] eqn:Eb. injection Ht as -> -> ->.
    destruct (beginTxn_spec _ _ _ _ _ (vi_counted _ I) Eb) as (He & Hret & Hq & Hn & Hc & Hfree).
    assert (q_id e = next_id (man s0)) as Hid by (by rewrite He).
    assert (forall x, x ∈ txn_queue (man s0) -> q_id x <> q_id e) as Hne.
    { intros x Hx. pose proof (vi_fresh _ I x Hx). lia. }
    destruct I as [Hcnt Hnd Hfr Hnull Hord Hrun Hrnd]. constructor; simpl; rewrite ?Hq, ?Hn.
    + rewrite <- Hq. done.
    + rewrite map_app. apply NoDup_app. split_and!; [done| |apply NoDup_singleton].
      intros i Hi ->%list_elem_of_singleton. apply list_elem_of_In, in_map_iff in Hi as (x & Hx & Hin).
      by apply (Hne x); [apply list_elem_of_In|].
    + intros x [Hx| ->%list_elem_of_singleton]%elem_of_app; [specialize (Hfr x Hx)|]; lia.
    + intros x [Hx| ->%list_elem_of_singleton]%elem_of_app; [by apply Hnull|by rewrite He].
    + apply StronglySorted_snoc; [done|]. intros x Hx Hfr' Hcf. apply (Hfree Hfr').
      rewrite He in Hcf. simpl in Hcf. destruct Hcf as (t & t' & r & ? & ? & ?). exists t, t', r.
      split_and!; [done|by eapply all_accesses_elem|done].
    + intros x Hx. destruct (ret =? 2) eqn:E2; [|destruct (Hrun x Hx); split; [apply elem_of_app; by left|done]].
      apply elem_of_app in Hx as [Hx| ->%list_elem_of_singleton].
      * destruct (Hrun x Hx). split; [apply elem_of_app; by left|done].
      * split; [apply elem_of_app; right; by left|]. b2p. subst ret.
        destruct (bool_decide (q_type e = VLL_Free)) eqn:Ef; b2p; [done|lia].
    + destruct (ret =? 2); [|done]. rewrite map_app. apply NoDup_app. split_and!; [done| |apply NoDup_singleton].
      intros i Hi ->%list_elem_of_singleton. apply list_elem_of_In, in_map_iff in Hi as (x & Hx & Hin).
      apply list_elem_of_In in Hin. by apply (Hne x); [apply Hrun|].
  - assert (e ∈ running s0) as He by (rewrite Er; apply elem_of_app; right; by left).
    destruct (finish_spec s0 e I He) as (m' & k1 & k2 & Hf' & Hq & Hq' & Hn & Hc).
    rewrite Hf in Hf'. injection Hf' as <-.
    destruct I as [Hcnt Hnd Hfr Hnull Hord Hrun Hrnd].
    assert (k1 ++ k2 `sublist_of` txn_queue (man s0)) as Hsub.
    { rewrite Hq. apply sublist_app; [done|]. by apply sublist_cons. }
    assert (forall x, x ∈ k1 ++ k2 -> x ∈ txn_queue (man s0)) as Hin.
    { intros x Hx. eapply elem_of_submseteq; [done|by apply sublist_submseteq]. }
    assert (NoDup (map q_id (l1 ++ l2)) /\ forall x, x ∈ l1 ++ l2 -> q_id x <> q_id e) as [Hr1 Hr2].
    { rewrite Er, map_app in Hrnd. simpl in Hrnd. rewrite <- Permutation_middle in Hrnd.
      apply NoDup_cons in Hrnd as [Hni Hrnd]. rewrite <- map_app in Hrnd, Hni. split; [done|].
      intros x Hx Hxe. apply Hni. rewrite <- Hxe. apply list_elem_of_In, in_map, list_elem_of_In, Hx. }
    constructor; simpl; rewrite ?Hq', ?Hn; [done| |by auto|by auto|by eapply StronglySorted_sublist| |done].
    + rewrite Hq, map_app in Hnd. simpl in Hnd. rewrite <- Permutation_middle in Hnd.
      apply NoDup_cons in Hnd as [_ Hnd]. by rewrite map_app.
    + intros x Hx. assert (x ∈ running s0) as Hx' by (rewrite Er; set_solver).
      destruct (Hrun x Hx') as [Hxq ?]. split; [|done]. rewrite Hq in Hxq.
      apply elem_of_app in Hxq as [?|[->|?]%elem_of_cons]; [apply elem_of_app; by left| |apply elem_of_app; by right].
      by destruct (Hr2 e Hx).
Qed.

Lemma vll_init : inv (mkState init []).
Proof using Type.
  constructor; simpl; [by intros r|apply NoDup_nil_2| | |apply SSorted_nil| |apply NoDup_nil_2];
    by intros e ?%not_elem_of_nil.
Qed.

Lemma vll_inv s s' : rtc step s s' -> inv s -> inv s'.
Proof using Type. induction 1; eauto using vll_step. Qed.

Lemma blocked_stays s s' e :
  step s s' -> inv s -> e ∈ txn_queue (man s) -> q_type e = VLL_Blocked -> e ∈ txn_queue (man s').
Proof using Type.
  intros [accs s0 e0 m Ht|accs s0 ret e0 m Ht|s0 e0 m l1 l2 Er Hf] I He Hb; simpl.
  - rewrite main_turn_begin in Ht by apply (vi_null _ I). by destruct (beginTxn _ _) as [[??]?].
  - rewrite main_turn_begin in Ht by apply (vi_null _ I).
    destruct (beginTxn accs (man s0)) as [[ret0 e1] m0] eqn:Eb. injection Ht as -> -> ->.
    destruct (beginTxn_spec _ _ _ _ _ (vi_counted _ I) Eb) as (_ & _ & -> & _).
    apply elem_of_app. by left.
  - assert (e0 ∈ running s0) as He0 by (rewrite Er; apply elem_of_app; right; by left).
    destruct (finish_spec s0 e0 I He0) as (m' & k1 & k2 & Hf' & Hq & Hq' & _).
    rewrite Hf in Hf'. injection Hf' as <-. rewrite Hq'. rewrite Hq in He.
    apply elem_of_app in He as [?|[->|?]%elem_of_cons]; [apply elem_of_app; by left| |apply elem_of_app; by right].
    destruct (vi_running _ I _ He0). congruence.
Qed.
End vll.

(** ** What VLL guarantees *)

(** C8. Transactions that VLL executes at the same time do not conflict: in every
    reachable state no two of them access a row that one of them writes, the
    counters of every row are the numbers of read and of write accesses in the
    queue, and a running transaction can finish: no assertion on the counters or
    the queue fails. *)
Theorem vll_no_conflict limit s (Hr : reachable limit s) :
  (forall e e', e ∈ running s -> e' ∈ running s -> q_id e <> q_id e' ->
     ~ conflict (q_accesses e) (q_accesses e')) /\
  counted (rows (man s)) (all_accesses (txn_queue (man s))) /\
  (forall e, e ∈ running s -> is_Some (finishTxn e (man s))).
Proof.
  pose proof (vll_inv limit _ _ Hr vll_init) as I. split_and!; [|apply (vi_counted _ I)|].
  - intros e e' He He' Hid Hc.
    destruct (vi_running _ I _ He) as [Hq Hf], (vi_running _ I _ He') as [Hq' Hf'].
    apply list_elem_of_lookup in Hq as [i Hi], Hq' as [j Hj].
    pose proof (vi_order _ I) as Hs.
    assert (forall a b x y, (a < b)%nat -> txn_queue (man s) !! a = Some x -> txn_queue (man s) !! b = Some y ->
      no_conflict_before x y) as Hord.
    { intros a b x y Hab Hx Hy. clear -Hs Hab Hx Hy. revert a b Hab Hx Hy.
      induction Hs as [|z l Hl IH Hz]; intros [|a] [|b] Hab Hx Hy; simplify_eq/=; try lia.
      - rewrite Forall_forall in Hz. by eapply Hz, list_elem_of_lookup_2.
      - eapply (IH a b); [lia|done|done]. }
    destruct (decide (i < j)%nat) as [Hij|Hij].
    + apply (Hord i j e e' Hij Hi Hj Hf'). by apply conflict_sym.
    + assert (j < i)%nat as Hji.
      { destruct (decide (i = j)) as [->|]; [|lia]. rewrite Hi in Hj. injection Hj as ->. done. }
      by apply (Hord j i e' e Hji Hj Hi Hf).
  - intros e He. destruct (finish_spec _ _ I He) as (m & _ & _ & -> & _). eauto.
Qed.

Lemma vll_no_conflict_witness : exists s e e',
  reachable 4 s /\ running s = [e; e'] /\ ~ conflict (q_accesses e) (q_accesses e').
Proof.
  destruct (beginTxn 4 [(RD, 0%nat); (WR, 1%nat)] init) as [[r1 e1] m1] eqn:E1.
  destruct (beginTxn 4 [(RD, 0%nat); (WR, 2%nat)] m1) as [[r2 e2] m2] eqn:E2.
  assert (r1 = 2 /\ r2 = 2 /\ q_id e1 <> q_id e2 /\ main_turn 4 [(RD, 0%nat); (WR, 1%nat)] init = Begun r1 e1 m1 /\
    main_turn 4 [(RD, 0%nat); (WR, 2%nat)] m1 = Begun r2 e2 m2) as (-> & -> & Hid & H1 & H2).
  { vm_compute in E1. injection E1 as <- <- <-. vm_compute in E2. injection E2 as <- <- <-. done. }
  assert (reachable 4 (mkState m2 [e1; e2])) as Hr.
  { eapply rtc_l; [eapply step_begin, H1|]. eapply rtc_l; [eapply step_begin, H2|]. apply rtc_refl. }
  exists (mkState m2 [e1; e2]), e1, e2. split; [exact Hr|]. split; [done|].
  refine (proj1 (vll_no_conflict 4 _ Hr) e1 e2 _ _ Hid); [by left|right; by left].
Defined.

(** A blocked transaction is never executed: [entry->txn] is not set, so the
    test of the front entry in [vllMainLoop] always fails.  The transaction stays
    in the queue for ever, its counters stay raised, and every later transaction
    that conflicts with it is blocked too. *)
Theorem vll_blocked_never_runs limit s s' e
  (Hr : reachable limit s) (He : e ∈ txn_queue (man s)) (Hb : q_type e = VLL_Blocked)
  (Hs : rtc (step limit) s s') :
  e ∈ txn_queue (man s') /\ e ∉ running s' /\
  forall accs, conflict accs (q_accesses e) ->
    exists e' m, main_turn limit accs (man s') = Begun 1 e' m /\ q_type e' = VLL_Blocked.
Proof.
  pose proof (vll_inv limit _ _ Hr vll_init) as I. clear Hr.
  assert (inv s' /\ e ∈ txn_queue (man s')) as [I' He'].
  { induction Hs as [s|s s1 s2 Hs1 _ IH]; [done|]. apply IH; [by eapply blocked_stays|by eapply vll_step]. }
  split_and!; [done|intros Hrun; destruct (vi_running _ I' _ Hrun); congruence|].
  intros accs Hc. rewrite main_turn_begin by apply (vi_null _ I').
  destruct (beginTxn limit accs (man s')) as [[ret e'] m] eqn:Eb.
  destruct (beginTxn_spec _ _ _ _ _ _ (vi_counted _ I') Eb) as (_ & Hret & _ & _ & _ & Hfree).
  assert (q_type e' = VLL_Blocked) as Ht.
  { destruct (q_type e'); [done|]. exfalso. apply (Hfree eq_refl).
    destruct Hc as (t & t' & r & ? & ? & ?). exists t, t', r. split_and!; [done|by eapply all_accesses_elem|done]. }
  rewrite Ht in Hret. simpl in Hret. subst ret. eauto.
Qed.

Lemma vll_blocked_never_runs_witness : exists s e,
  reachable 4 s /\ e ∈ txn_queue (man s) /\ running s = [] /\ e ∉ running s /\
  exists e' m, main_turn 4 [(WR, 0%nat)] (man s) = Begun 1 e' m /\ q_type e' = VLL_Blocked.
Proof.
  destruct (beginTxn 4 [(WR, 0%nat)] init) as [[r1 e1] m1] eqn:E1.
  destruct (beginTxn 4 [(RD, 0%nat)] m1) as [[r2 e2] m2] eqn:E2.
  destruct (finishTxn e1 m2) as [m3|] eqn:E3; [|vm_compute in E1; injection E1 as <- <- <-;
    vm_compute in E2; injection E2 as <- <- <-; by vm_compute in E3].
  assert (r1 = 2 /\ r2 = 1 /\ main_turn 4 [(WR, 0%nat)] init = Begun r1 e1 m1 /\
    main_turn 4 [(RD, 0%nat)] m1 = Begun r2 e2 m2 /\ q_type e2 = VLL_Blocked /\ txn_queue m2 = [e1; e2] /\
    q_accesses e2 = [(RD, 0%nat)]) as (-> & -> & H1 & H2 & Hb & Hq & Ha).
  { vm_compute in E1. injection E1 as <- <- <-. vm_compute in E2. injection E2 as <- <- <-. done. }
  assert (reachable 4 (mkState m2 [e1])) as Hr.
  { eapply rtc_l; [eapply step_begin, H1|]. eapply rtc_l; [eapply step_begin, H2|]. apply rtc_refl. }
  assert (rtc (step 4) (mkState m2 [e1]) (mkState m3 [])) as Hs.
  { apply rtc_once, (step_finish 4 _ e1 m3 [] []); [done|exact E3]. }
  destruct (vll_blocked_never_runs 4 _ (mkState m3 []) e2 Hr ltac:(simpl; rewrite Hq; right; by left) Hb Hs)
    as (Hin & Hrun & Hc).
  exists (mkState m3 []), e2. split; [unfold reachable in *; etrans; [exact Hr|exact Hs]|]. split_and!; [exact Hin|done|exact Hrun|].
  apply Hc. rewrite Ha. exists WR, RD, 0%nat. split_and!; [by left|by left|by left].
Defined.
