(* ===== verification/BTree.v ===== *)
(** * The B+-tree index

    [index_btree] of src/storage/index_btree.cpp: the nodes are in a heap, with
    their arrays of keys and pointers, their parents and the chain of the leaves.
    [ENABLE_LATCH] is false, as in the configuration file, so [latch_node],
    [upgrade_latch] and [release_latch] succeed at once; the latches themselves
    are in BTreeLatch.v.  A C pointer that is followed although it is
    null, or a write outside an array, stops the program ([None]). *)

From S2P Require Import Prelude Global Arrays.

(** A value of [void *]: a node, an item, or anything else. *)
Inductive ptr := PNode (n : nat) | PItem (it : nat) | PNull.

#[export] Instance ptr_eq_dec : EqDecision ptr.
Proof. solve_decision. Defined.

Record bt_node := mkNode {
  pointers : list ptr;
  is_leaf : bool;
  keys : list Z;
  parent : option nat;
  num_keys : nat;
  bt_next : option nat }.

(** The heap, the [next] fields of the items, the root of each partition and
    the last access of each thread. *)
Record index_btree := mkBtree {
  nodes : gmap nat bt_node;
  fresh_node : nat;
  item_next : gmap nat ptr;
  roots : list nat;
  cur_leaf : list (option nat);
  cur_idx : list nat }.

Section operations.
(** [order] is [BTREE_ORDER]; [junk_key] is what uninitialised memory holds. *)
Context (order : nat) (junk_key : Z).
Implicit Types (s : index_btree) (nd : bt_node).

(** The size of [ex_list], which bounds the depth of the tree. *)
Definition MAX_DEPTH : nat := 100.

Definition key_at nd (i : nat) : Z := rd junk_key (keys nd) i.
Definition ptr_at nd (i : nat) : ptr := rd PNull (pointers nd) i.

Definition node_of (p : ptr) : option nat := match p with PNode n => Some n | _ => None end.
Definition item_of (p : ptr) : option nat := match p with PItem i => Some i | _ => None end.

Definition set_nodes (m : gmap nat bt_node) s : index_btree :=
  mkBtree m (fresh_node s) (item_next s) (roots s) (cur_leaf s) (cur_idx s).
Definition set_node (n : nat) nd s : index_btree := set_nodes (<[n := nd]> (nodes s)) s.
Definition set_roots (l : list nat) s : index_btree :=
  mkBtree (nodes s) (fresh_node s) (item_next s) l (cur_leaf s) (cur_idx s).
Definition set_item_next (it : nat) (p : ptr) s : index_btree :=
  mkBtree (nodes s) (fresh_node s) (<[it := p]> (item_next s)) (roots s) (cur_leaf s) (cur_idx s).
Definition set_cur (thd_id : nat) (leaf : option nat) (idx : nat) s : index_btree :=
  mkBtree (nodes s) (fresh_node s) (item_next s) (roots s)
    (<[thd_id := leaf]> (cur_leaf s)) (<[thd_id := idx]> (cur_idx s)).

Definition set_arrays (ks : list Z) (ps : list ptr) (n : nat) nd : bt_node :=
  mkNode ps (is_leaf nd) ks (parent nd) n (bt_next nd).
Definition set_parent (p : option nat) nd : bt_node :=
  mkNode (pointers nd) (is_leaf nd) (keys nd) p (num_keys nd) (bt_next nd).
Definition set_next (p : option nat) nd : bt_node :=
  mkNode (pointers nd) (is_leaf nd) (keys nd) (parent nd) (num_keys nd) p.

(** *** Nodes *)

Definition make_node (leaf : bool) s : nat * index_btree :=
  let nd := mkNode (replicate order PNull) leaf (replicate (order - 1) junk_key) None 0 None in
  (fresh_node s,
   mkBtree (<[fresh_node s := nd]> (nodes s)) (S (fresh_node s)) (item_next s) (roots s)
     (cur_leaf s) (cur_idx s)).

Definition make_lf s : nat * index_btree := make_node true s.
Definition make_nl s : nat * index_btree := make_node false s.

(** [init]: one empty leaf per partition. *)
Fixpoint init_roots (part_cnt : nat) s : index_btree :=
  match part_cnt with
  | O => s
  | S part_cnt => let '(r, s) := make_lf s in init_roots part_cnt (set_roots (roots s ++ [r]) s)
  end.

Definition init (part_cnt g_thread_cnt : nat) : index_btree :=
  init_roots part_cnt
    (mkBtree ∅ 0 ∅ [] (replicate g_thread_cnt None) (replicate g_thread_cnt 0%nat)).

Definition find_root (part_id : nat) s : option nat := roots s !! part_id.

Definition cut (length : nat) : nat :=
  if Nat.even length then Nat.div length 2 else S (Nat.div length 2).

Definition leaf_has_key nd (key : Z) : option nat :=
  let i := scan junk_key (fun k => negb (k =? key)) (keys nd) (num_keys nd) in
  if (i <? num_keys nd)%nat then Some i else None.

(** The child that [find_leaf] follows. *)
Definition child_index nd (key : Z) : nat :=
  scan junk_key (fun k => negb (key <? k)) (keys nd) (num_keys nd).

(** *** Search

    [last_ex] is the highest node that an insertion has to keep latched. *)

(** [cleanup] walks from [node] to [last_ex]. *)
Fixpoint cleanup (fuel : nat) s (node last_ex : nat) : option unit :=
  match fuel with
  | O => None
  | S fuel =>
      do! nd <- nodes s !! node;;
      do! p <- parent nd;;
      if (p =? last_ex)%nat then Some tt else cleanup fuel s p last_ex
  end.

Fixpoint find_leaf_from (fuel : nat) s (insert : bool) (key : Z) (c : nat) (last_ex : option nat)
    : option (nat * option nat) :=
  match fuel with
  | O => None
  | S fuel =>
      do! nd <- nodes s !! c;;
      if is_leaf nd then Some (c, last_ex)
      else
        do! child <- node_of (ptr_at nd (child_index nd key));;
        do! cnd <- nodes s !! child;;
        if insert then
          if (num_keys cnd =? order - 1)%nat then
            find_leaf_from fuel s insert key child
              (match last_ex with None => Some c | Some _ => last_ex end)
          else
            do! _ok <- match last_ex with Some e => cleanup MAX_DEPTH s c e | None => Some tt end;;
            find_leaf_from fuel s insert key child None
        else find_leaf_from fuel s insert key child last_ex
  end.

Definition find_leaf s (insert : bool) (key : Z) (part_id : nat) : option (nat * option nat) :=
  do! root <- find_root part_id s;; find_leaf_from MAX_DEPTH s insert key root None.

(** The item of the key, if the key is there; the code asserts that it is. *)
Definition index_read (key : Z) (thd_id part_id : nat) s : option (nat * index_btree) :=
  do! p <- find_leaf s false key part_id;;
  do! nd <- nodes s !! p.1;;
  do! i <- leaf_has_key nd key;;
  do! item <- item_of (ptr_at nd i);;
  Some (item, set_cur thd_id (Some p.1) i s).

(** The next item of the scan of a thread; [Some (None, _)] is a null item. *)
Definition index_next (thd_id : nat) (samekey : bool) s : option (option nat * index_btree) :=
  do! idx <- cur_idx s !! thd_id;;
  do! oleaf <- cur_leaf s !! thd_id;;
  do! leaf <- oleaf;;
  do! nd <- nodes s !! leaf;;
  let cur_key := key_at nd idx in
  let s :=
    if (num_keys nd <=? S idx)%nat then set_cur thd_id (bt_next nd) 0 s
    else set_cur thd_id (Some leaf) (S idx) s in
  let idx' := if (num_keys nd <=? S idx)%nat then 0%nat else S idx in
  let oleaf' := if (num_keys nd <=? S idx)%nat then bt_next nd else Some leaf in
  match oleaf' with
  | None => Some (None, s)
  | Some leaf' =>
      do! nd' <- nodes s !! leaf';;
      assert! is_leaf nd';;
      if samekey && negb (key_at nd' idx' =? cur_key) then Some (None, s)
      else do! item <- item_of (ptr_at nd' idx');; Some (Some item, s)
  end.

(** *** Insertion *)

Definition insert_into_leaf (leaf : nat) (key : Z) (item : nat) s : option index_btree :=
  do! nd <- nodes s !! leaf;;
  match leaf_has_key nd key with
  | Some idx =>
      do! ps <- wr (pointers nd) idx (PItem item);;
      Some (set_node leaf (set_arrays (keys nd) ps (num_keys nd) nd)
              (set_item_next item (ptr_at nd idx) s))
  | None =>
      let insertion_point := scan junk_key (fun k => k <? key) (keys nd) (num_keys nd) in
      do! ks <- shift_up junk_key (keys nd) insertion_point (num_keys nd);;
      do! ps <- shift_up PNull (pointers nd) insertion_point (num_keys nd);;
      do! ks <- wr ks insertion_point key;;
      do! ps <- wr ps insertion_point (PItem item);;
      assert! (S (num_keys nd) <? order)%nat;;
      Some (set_node leaf (set_arrays ks ps (S (num_keys nd)) nd) s)
  end.

Definition insert_into_new_root (part_id left : nat) (key : Z) (right : nat) s : option index_btree :=
  let '(new_root, s) := make_nl s in
  do! nd <- nodes s !! new_root;;
  do! ks <- wr (keys nd) 0 key;;
  do! ps <- wr (pointers nd) 0 (PNode left);;
  do! ps <- wr ps 1 (PNode right);;
  assert! (1 <? order)%nat;;
  let s := set_node new_root (set_parent None (set_arrays ks ps 1 nd)) s in
  do! lnd <- nodes s !! left;;
  let s := set_node left (set_parent (Some new_root) lnd) s in
  do! rnd <- nodes s !! right;;
  let s := set_node right (set_parent (Some new_root) rnd) s in
  do! lnd <- nodes s !! left;;
  let s := set_node left (set_next (Some right) lnd) s in
  assert! (part_id <? length (roots s))%nat;;
  Some (set_roots (<[part_id := new_root]> (roots s)) s).

(** A read with a 32-bit index, which stops the program outside the array. *)
Definition read_at {A} (l : list A) (i : Z) : option A :=
  if i <? Z.of_nat (length l) then l !! Z.to_nat i else None.

(** [for (UInt32 i = num_keys - 1; i >= insert_idx; i--) l[i + o + 1] = l[i + o];] *)
Fixpoint shift_down_to {A} (fuel : nat) (l : list A) (o insert_idx i : Z) : option (list A) :=
  match fuel with
  | O => None
  | S fuel =>
      if insert_idx <=? i then
        do! x <- read_at l (u32 (i + o));;
        do! _ok <- read_at l (u32 (i + o + 1));;
        do! l <- wr l (Z.to_nat (u32 (i + o + 1))) x;;
        shift_down_to fuel l o insert_idx (u32 (i - 1))
      else Some l
  end.

(** The loop that gives the children of [new_node] their parent. *)
Fixpoint adopt (new_node : nat) (children : list ptr) s : option index_btree :=
  match children with
  | [] => Some s
  | p :: children =>
      do! c <- node_of p;;
      do! nd <- nodes s !! c;;
      adopt new_node children (set_node c (set_parent (Some new_node) nd) s)
  end.

(** The first part of [split_nl_insert]: the state after the split, the key that
    goes up and the new node. *)
Definition split_nl (old_node left_index : nat) (key : Z) (right : nat) s
    : option (Z * nat * index_btree) :=
  let '(new_node, s) := make_node false s in
  do! od <- nodes s !! old_node;;
  let n := num_keys od in
  do! tp <- spread PNull (S left_index) (pointers od) 0 0 (S n) (replicate (S order) PNull);;
  do! tk <- spread junk_key left_index (keys od) 0 0 n (replicate order junk_key);;
  do! tp <- wr tp (S left_index) (PNode right);;
  do! tk <- wr tk left_index key;;
  let split := cut order in
  do! ops <- copy_cells PNull tp 0 0 (split - 1) (pointers od);;
  do! oks <- copy_cells junk_key tk 0 0 (split - 1) (keys od);;
  assert! (split - 1 <? order)%nat;;
  do! nd <- nodes s !! new_node;;
  let next := bt_next od in
  do! ops <- wr ops (split - 1) (rd PNull tp (split - 1));;
  let k_prime := rd junk_key tk (split - 1) in
  do! nps <- copy_cells PNull tp split 0 (order - split) (pointers nd);;
  do! nks <- copy_cells junk_key tk split 0 (order - split) (keys nd);;
  do! nps <- wr nps (order - split) (rd PNull tp order);;
  let s := set_node old_node (set_next (Some new_node) (set_arrays oks ops (split - 1) od)) s in
  let nd := set_parent (parent od) (set_next next (set_arrays nks nps (order - split) nd)) in
  let s := set_node new_node nd s in
  do! s <- adopt new_node (take (S (num_keys nd)) (pointers nd)) s;;
  Some (k_prime, new_node, s).

Fixpoint insert_into_parent (fuel : nat) (part_id left : nat) (key : Z) (right : nat) s
    : option index_btree :=
  match fuel with
  | O => None
  | S fuel =>
      do! lnd <- nodes s !! left;;
      match parent lnd with
      | None => insert_into_new_root part_id left key right s
      | Some p =>
          do! nd <- nodes s !! p;;
          let insert_idx := scan junk_key (fun k => k <? key) (keys nd) (num_keys nd) in
          if (num_keys nd <? order - 1)%nat then
            let i := u32 (Z.of_nat (num_keys nd) - 1) in
            do! ks <- shift_down_to (S (num_keys nd)) (keys nd) 0 (Z.of_nat insert_idx) i;;
            do! ps <- shift_down_to (S (num_keys nd)) (pointers nd) 1 (Z.of_nat insert_idx) i;;
            do! ks <- wr ks insert_idx key;;
            do! ps <- wr ps (S insert_idx) (PNode right);;
            Some (set_node p (set_arrays ks ps (S (num_keys nd)) nd) s)
          else
            do! r <- split_nl p insert_idx key right s;;
            insert_into_parent fuel part_id p r.1.1 r.1.2 r.2
      end
  end.

Definition split_nl_insert (part_id old_node left_index : nat) (key : Z) (right : nat) s
    : option index_btree :=
  do! r <- split_nl old_node left_index key right s;;
  insert_into_parent MAX_DEPTH part_id old_node r.1.1 r.1.2 r.2.

(** The first part of [split_lf_insert]. *)
Definition split_lf (leaf : nat) (key : Z) (item : nat) s : option (Z * nat * index_btree) :=
  let '(new_leaf, s) := make_lf s in
  do! ld <- nodes s !! leaf;;
  assert! (num_keys ld =? order - 1)%nat;;
  let insertion_index := scan junk_key (fun k => k <? key) (keys ld) (order - 1) in
  let n := num_keys ld in
  do! tk <- spread junk_key insertion_index (keys ld) 0 0 n (replicate order junk_key);;
  do! tp <- spread PNull insertion_index (pointers ld) 0 0 n (replicate order PNull);;
  do! tk <- wr tk insertion_index key;;
  do! tp <- wr tp insertion_index (PItem item);;
  let split := cut (order - 1) in
  do! lps <- copy_cells PNull tp 0 0 split (pointers ld);;
  do! lks <- copy_cells junk_key tk 0 0 split (keys ld);;
  assert! (split <? order)%nat;;
  do! nd <- nodes s !! new_leaf;;
  do! nps <- copy_cells PNull tp split 0 (order - split) (pointers nd);;
  do! nks <- copy_cells junk_key tk split 0 (order - split) (keys nd);;
  do! lps <- copy_cells PNull (replicate order PNull) split split (order - 1 - split) lps;;
  do! nps <- copy_cells PNull (replicate order PNull) (order - split) (order - split)
               (order - 1 - (order - split)) nps;;
  let s := set_node leaf (set_next (Some new_leaf) (set_arrays lks lps split ld)) s in
  let nd := set_parent (parent ld) (set_next (bt_next ld) (set_arrays nks nps (order - split) nd)) in
  Some (rd junk_key nks 0, new_leaf, set_node new_leaf nd s).

Definition split_lf_insert (part_id leaf : nat) (key : Z) (item : nat) s : option index_btree :=
  do! r <- split_lf leaf key item s;;
  insert_into_parent MAX_DEPTH part_id leaf r.1.1 r.1.2 r.2.

(** The nodes that are latched for the insertion, from the leaf to [last_ex]. *)
Fixpoint ex_list (fuel : nat) s (node last_ex : nat) : option (list nat) :=
  match fuel with
  | O => None
  | S fuel =>
      if (node =? last_ex)%nat then Some [node]
      else
        do! nd <- nodes s !! node;;
        do! p <- parent nd;;
        do! l <- ex_list fuel s p last_ex;;
        Some (node :: l)
  end.

Definition index_insert (key : Z) (item part_id : nat) s : option index_btree :=
  do! p <- find_leaf s true key part_id;;
  let leaf := p.1 in
  do! _held <- match p.2 with Some e => ex_list MAX_DEPTH s leaf e | None => Some [leaf] end;;
  do! nd <- nodes s !! leaf;;
  if (num_keys nd <? order - 1)%nat || bool_decide (is_Some (leaf_has_key nd key)) then
    insert_into_leaf leaf key item s
  else split_lf_insert part_id leaf key item s.

Fixpoint index_inserts (l : list (Z * nat)) (part_id : nat) s : option index_btree :=
  match l with
  | [] => Some s
  | (key, item) :: l => do! s <- index_insert key item part_id s;; index_inserts l part_id s
  end.
End operations.
