(* ===== verification/BTreeInv.v ===== *)
(** * The B+-tree index: invariant and correctness

    A ghost map gives every node of a tree the interval of the keys below it and
    its height.  The invariant is local to a node and its children, so that a
    change of a few nodes is checked at these nodes; between the split of a node
    and the insertion of the new node into the parent the invariant has a pending
    pair of siblings. *)

From S2P Require Import Prelude Global Arrays BTree.

#[local] Opaque MAX_DEPTH.

(** The interval [[lo, hi)] and the height of a node. *)
Notation ghost := (gmap nat (Z * Z * nat)).

Definition KEY_END : Z := 2 ^ 64.

Section invariant.
Context (order : nat) (junk_key : Z).
Notation key_at := (key_at junk_key).

Definition nkeys (nd : bt_node) : list Z := take (num_keys nd) (keys nd).
Definition nptrs (nd : bt_node) : list ptr :=
  take (if is_leaf nd then num_keys nd else S (num_keys nd)) (pointers nd).

Definition parent_of (m : gmap nat bt_node) (n : nat) : option (option nat) := parent <$> m !! n.

(** [c], a child of [par], covers [[a, b)]; when [c] is the left node of the
    pending pair, together with the right node. *)
Definition span (pend : option (nat * Z * nat)) (g : ghost) (par : nat -> option (option nat))
    (p : option nat) (c : nat) (a b : Z) (h : nat) : Prop :=
  match pend with
  | Some (l, k, r) =>
      if (c =? l)%nat then
        a < k < b /\ g !! l = Some (a, k, h) /\ g !! r = Some (k, b, h) /\
        par l = Some p /\ par r = Some p
      else g !! c = Some (a, b, h) /\ par c = Some p
  | None => g !! c = Some (a, b, h) /\ par c = Some p
  end.

(** The pointers [ps] of an inner node cut the interval at the bounds [bs]. *)
Definition kids pend g par (n h : nat) (bs : list Z) (ps : list ptr) : Prop :=
  length bs = S (length ps) /\ StronglySorted Z.lt bs /\
  forall i p a b, ps !! i = Some p -> bs !! i = Some a -> bs !! S i = Some b ->
    exists c, p = PNode c /\ span pend g par (Some n) c a b h.

Record node_ok pend g par (n : nat) (lo hi : Z) (h : nat) (nd : bt_node) : Prop := {
  no_keys : length (keys nd) = (order - 1)%nat;
  no_ptrs : length (pointers nd) = order;
  no_num : (num_keys nd <= order - 1)%nat;
  no_lt : lo < hi;
  no_leaf : is_leaf nd = (h =? 0)%nat;
  no_lo : h = 0%nat -> lo = 0 \/ lo ∈ nkeys nd;
  no_leaf_keys : h = 0%nat ->
    StronglySorted Z.lt (nkeys nd) /\ Forall (fun k => lo <= k < hi) (nkeys nd) /\
    Forall (fun p => exists it, p = PItem it) (nptrs nd) /\
    match bt_next nd with
    | Some m => exists hi', g !! m = Some (hi, hi', 0%nat)
    | None => hi = KEY_END
    end;
  no_kids : forall h', h = S h' ->
    (1 <= num_keys nd)%nat /\ kids pend g par n h' (lo :: nkeys nd ++ [hi]) (nptrs nd) }.

(** [n] is among the children of its parent. *)
Definition linked (m : gmap nat bt_node) (g : ghost) (n : nat) : Prop :=
  exists p pd i lo hi h, parent_of m n = Some (Some p) /\ m !! p = Some pd /\
    g !! p = Some (lo, hi, S h) /\ nptrs pd !! i = Some (PNode n).

Record tree_inv pend (m : gmap nat bt_node) (g : ghost) (root H : nat) : Prop := {
  ti_node : forall n lo hi h, g !! n = Some (lo, hi, h) ->
    (h <= H)%nat /\ exists nd, m !! n = Some nd /\ node_ok pend g (parent_of m) n lo hi h nd;
  ti_root : span pend g (parent_of m) None root 0 KEY_END H;
  ti_linked : forall n, is_Some (g !! n) -> n <> root ->
    (forall l k r, pend = Some (l, k, r) -> n <> r) -> linked m g n }.

(** The tree maps [k] to the item [it]. *)
Definition holds (m : gmap nat bt_node) (g : ghost) (k : Z) (it : nat) : Prop :=
  exists n lo hi nd i, g !! n = Some (lo, hi, 0%nat) /\ m !! n = Some nd /\
    nkeys nd !! i = Some k /\ nptrs nd !! i = Some (PItem it).

(** ** Sorted lists *)

Lemma sorted_lookup (l : list Z) i j x y :
  StronglySorted Z.lt l -> l !! i = Some x -> l !! j = Some y -> (i < j)%nat -> x < y.
Proof using.
  intros Hs. revert i j. induction Hs as [|z l Hs IH Hz]; intros i j Hi Hj Hij; [done|].
  destruct j as [|j]; [lia|]. simpl in Hj. destruct i as [|i]; simpl in Hi.
  - injection Hi as <-. rewrite Forall_forall in Hz. apply Hz. by eapply list_elem_of_lookup_2.
  - apply (IH i j); [done..|lia].
Qed.

Lemma sorted_lookup_le (l : list Z) i j x y :
  StronglySorted Z.lt l -> l !! i = Some x -> l !! j = Some y -> (i <= j)%nat -> x <= y.
Proof using.
  intros Hs Hi Hj Hij. destruct (decide (i = j)) as [->|]; [simplify_eq; lia|].
  pose proof (sorted_lookup l i j x y Hs Hi Hj ltac:(lia)). lia.
Qed.

Lemma sorted_lookup_inj (l : list Z) i j x :
  StronglySorted Z.lt l -> l !! i = Some x -> l !! j = Some x -> i = j.
Proof using.
  intros Hs Hi Hj. destruct (Nat.lt_trichotomy i j) as [Hlt|[?|Hlt]]; [|done|].
  - pose proof (sorted_lookup l i j x x Hs Hi Hj Hlt). lia.
  - pose proof (sorted_lookup l j i x x Hs Hj Hi Hlt). lia.
Qed.

(** Sorted lists, by the order of their cells. *)
Lemma sorted_of_lookup (l : list Z) :
  (forall i x y, l !! i = Some x -> l !! S i = Some y -> x < y) -> StronglySorted Z.lt l.
Proof using.
  intros Hl. apply Sorted_StronglySorted; [intros ???; lia|].
  induction l as [|x l IH]; [constructor|]. constructor.
  - apply IH. intros i. apply (Hl (S i)).
  - destruct l as [|y l]; constructor. by apply (Hl 0%nat).
Qed.

Lemma nkeys_lookup nd i k :
  nkeys nd !! i = Some k -> (i < num_keys nd)%nat /\ key_at nd i = k.
Proof using.
  unfold nkeys. intros [Hk Hi]%lookup_take_Some. split; [done|]. by apply rd_lookup.
Qed.

Lemma lookup_nkeys nd i :
  (num_keys nd <= length (keys nd))%nat -> (i < num_keys nd)%nat ->
  nkeys nd !! i = Some (key_at nd i).
Proof using.
  intros Hle Hi. unfold nkeys, key_at. rewrite lookup_take_lt by done. apply lookup_rd. lia.
Qed.

(** ** Search *)

(** A key is in the interval of exactly one child. *)
Lemma kids_unique pend g par n h bs ps i j a b a' b' k :
  kids pend g par n h bs ps ->
  bs !! i = Some a -> bs !! S i = Some b -> a <= k < b ->
  bs !! j = Some a' -> bs !! S j = Some b' -> a' <= k < b' -> i = j.
Proof using.
  intros (_ & Hs & _) Hi Hi' Hk Hj Hj' Hk'.
  destruct (Nat.lt_trichotomy i j) as [Hlt|[?|Hlt]]; [|done|].
  - pose proof (sorted_lookup_le bs (S i) j b a' Hs Hi' Hj Hlt). lia.
  - pose proof (sorted_lookup_le bs (S j) i b' a Hs Hj' Hi Hlt). lia.
Qed.

(** The child that the search follows covers the key. *)
Lemma child_index_bounds nd lo hi key :
  (num_keys nd <= length (keys nd))%nat -> StronglySorted Z.lt (lo :: nkeys nd ++ [hi]) ->
  lo <= key < hi ->
  let i := child_index junk_key nd key in
  (i <= num_keys nd)%nat /\ exists a b, (lo :: nkeys nd ++ [hi]) !! i = Some a /\
    (lo :: nkeys nd ++ [hi]) !! S i = Some b /\ a <= key < b.
Proof using.
  intros Hlen Hs Hkey. unfold child_index.
  destruct (scan_spec junk_key (fun k => negb (key <? k)) (keys nd) (num_keys nd)) as (Hle & Hlow & Hup).
  set (i := scan _ _ _ _) in *. split; [done|].
  assert (length (nkeys nd) = num_keys nd) as Hnk by (unfold nkeys; rewrite length_take; lia).
  assert (exists a, (lo :: nkeys nd ++ [hi]) !! i = Some a /\ a <= key) as (a & Ha & Hak).
  { destruct i as [|i'] eqn:Hi; [exists lo; split; [done|lia]|]. exists (key_at nd i'). simpl. split.
    - rewrite lookup_app_l by lia. apply lookup_nkeys; lia.
    - specialize (Hlow i' ltac:(lia)). unfold key_at. b2p. lia. }
  assert (exists b, (lo :: nkeys nd ++ [hi]) !! S i = Some b /\ key < b) as (b & Hb & Hkb).
  { simpl. destruct (decide (i < num_keys nd)%nat) as [Hi|Hi].
    - exists (key_at nd i). split.
      + rewrite lookup_app_l by lia. apply lookup_nkeys; lia.
      + specialize (Hup Hi). unfold key_at. b2p. lia.
    - exists hi. split; [|lia]. rewrite lookup_app_r by lia.
      replace (i - length (nkeys nd))%nat with 0%nat by lia. done. }
  exists a, b. split_and!; [done|done|lia|lia].
Qed.

Lemma nptrs_inner nd i :
  is_leaf nd = false -> length (pointers nd) = order -> (num_keys nd <= order - 1)%nat ->
  (1 <= num_keys nd)%nat -> (i <= num_keys nd)%nat -> nptrs nd !! i = Some (ptr_at nd i).
Proof using.
  intros Hl Hlen Hn H1 Hi. unfold nptrs, ptr_at. rewrite Hl, lookup_take_lt by lia.
  apply lookup_rd. lia.
Qed.

(** One step of the descent. *)
Lemma inner_step m g root H n lo hi h nd key :
  tree_inv None m g root H -> g !! n = Some (lo, hi, S h) -> m !! n = Some nd -> lo <= key < hi ->
  is_leaf nd = false /\
  exists c cnd a b, node_of (ptr_at nd (child_index junk_key nd key)) = Some c /\
    m !! c = Some cnd /\ g !! c = Some (a, b, h) /\ a <= key < b /\ parent cnd = Some n /\
    nptrs nd !! child_index junk_key nd key = Some (PNode c).
Proof using.
  intros Hinv Hg Hn Hkey. destruct (ti_node _ _ _ _ _ Hinv n _ _ _ Hg) as (_ & nd' & Hn' & Hok).
  simplify_eq. pose proof (no_leaf _ _ _ _ _ _ _ _ Hok) as Hleaf. split; [done|].
  destruct (no_kids _ _ _ _ _ _ _ _ Hok h eq_refl) as (Hone & Hkids).
  pose proof (no_keys _ _ _ _ _ _ _ _ Hok). pose proof (no_num _ _ _ _ _ _ _ _ Hok).
  destruct (child_index_bounds nd lo hi key) as (Hi & a & b & Ha & Hb & Hab); [lia|apply Hkids|done|].
  pose proof (nptrs_inner nd (child_index junk_key nd key) Hleaf (no_ptrs _ _ _ _ _ _ _ _ Hok)
    ltac:(done) Hone Hi) as Hp.
  destruct Hkids as (_ & _ & Hkids).
  destruct (Hkids _ _ _ _ Hp Ha Hb) as (c & Hc & Hgc & Hpc).
  unfold parent_of in Hpc. destruct (m !! c) as [cnd|] eqn:Hmc; [|done]. injection Hpc as Hpc.
  exists c, cnd, a, b. rewrite Hc. split_and!; try done; try lia. by rewrite Hp, Hc.
Qed.

Lemma kids_lookup pend g par n h bs ps i p :
  kids pend g par n h bs ps -> ps !! i = Some p ->
  exists a b c, bs !! i = Some a /\ bs !! S i = Some b /\ p = PNode c /\
    span pend g par (Some n) c a b h.
Proof using.
  intros (Hlen & _ & Hk) Hi. pose proof (lookup_lt_Some _ _ _ Hi).
  destruct (lookup_lt_is_Some_2 bs i ltac:(lia)) as [a Ha].
  destruct (lookup_lt_is_Some_2 bs (S i) ltac:(lia)) as [b Hb].
  destruct (Hk i p a b Hi Ha Hb) as (c & -> & Hs). eauto 10.
Qed.

Lemma bounds_range (lo hi : Z) (ks : list Z) i a b :
  StronglySorted Z.lt (lo :: ks ++ [hi]) ->
  (lo :: ks ++ [hi]) !! i = Some a -> (lo :: ks ++ [hi]) !! S i = Some b -> lo <= a < b /\ b <= hi.
Proof using.
  intros Hs Ha Hb. split; [split|].
  - eapply (sorted_lookup_le _ 0 i); [done|done|done|lia].
  - eapply (sorted_lookup _ i (S i)); [done|done|done|lia].
  - eapply (sorted_lookup_le _ (S i) (S (length ks))); [done|done| |].
    + simpl. rewrite lookup_app_r by lia. by rewrite Nat.sub_diag.
    + apply lookup_lt_Some in Hb. simpl in Hb. rewrite length_app in Hb. simpl in Hb. lia.
Qed.

(** The parent of a node. *)
Lemma linked_parent m g root H n a b h :
  tree_inv None m g root H -> g !! n = Some (a, b, h) -> n <> root ->
  exists p pd i lo hi, parent_of m n = Some (Some p) /\ m !! p = Some pd /\
    g !! p = Some (lo, hi, S h) /\ lo <= a /\ b <= hi /\
    StronglySorted Z.lt (lo :: nkeys pd ++ [hi]) /\ nptrs pd !! i = Some (PNode n) /\
    (lo :: nkeys pd ++ [hi]) !! i = Some a /\ (lo :: nkeys pd ++ [hi]) !! S i = Some b.
Proof using.
  intros Hinv Hg Hne. destruct (ti_linked _ _ _ _ _ Hinv n) as (p & pd & i & lo & hi & h' & Hp & Hm & Hgp & Hi);
    [by rewrite Hg|done|done|].
  destruct (ti_node _ _ _ _ _ Hinv p _ _ _ Hgp) as (_ & pd' & Hm' & Hok). simplify_eq.
  destruct (no_kids _ _ _ _ _ _ _ _ Hok h' eq_refl) as (_ & Hk).
  destruct (kids_lookup _ _ _ _ _ _ _ _ _ Hk Hi) as (a' & b' & c & Ha & Hb & [= <-] & Hgc & _).
  simplify_eq. destruct Hk as (_ & Hs & _). destruct (bounds_range _ _ _ _ _ _ Hs Ha Hb).
  exists p, pd, i, lo, hi. split_and!; (done || lia).
Qed.

Lemma root_ghost m g root H :
  tree_inv None m g root H -> g !! root = Some (0, KEY_END, H) /\ parent_of m root = Some None.
Proof using. intros Hinv. apply (ti_root _ _ _ _ _ Hinv). Qed.

Lemma height_le m g root H n a b h :
  tree_inv None m g root H -> g !! n = Some (a, b, h) -> (h <= H)%nat /\ (h = H -> n = root).
Proof using.
  intros Hinv Hg. split; [apply (ti_node _ _ _ _ _ Hinv n _ _ _ Hg)|]. intros ->.
  destruct (decide (n = root)) as [|Hne]; [done|].
  destruct (linked_parent _ _ _ _ _ _ _ _ Hinv Hg Hne) as (p & _ & _ & lo & hi & _ & _ & Hgp & _).
  destruct (ti_node _ _ _ _ _ Hinv p _ _ _ Hgp). lia.
Qed.

(** At each height one node covers a key. *)
Lemma covering_unique m g root H d n1 n2 a1 b1 a2 b2 h key :
  tree_inv None m g root H -> (h + d = H)%nat ->
  g !! n1 = Some (a1, b1, h) -> a1 <= key < b1 ->
  g !! n2 = Some (a2, b2, h) -> a2 <= key < b2 -> n1 = n2.
Proof using.
  intros Hinv. revert n1 n2 a1 b1 a2 b2 h.
  induction d as [|d IH]; intros n1 n2 a1 b1 a2 b2 h Hd Hg1 Hk1 Hg2 Hk2.
  - destruct (height_le _ _ _ _ _ _ _ _ Hinv Hg1), (height_le _ _ _ _ _ _ _ _ Hinv Hg2).
    rewrite Nat.add_0_r in Hd. transitivity root; [|symmetry]; auto.
  - destruct (root_ghost _ _ _ _ Hinv) as [Hr _].
    assert (forall n a b, g !! n = Some (a, b, h) -> n <> root) as Hnr by (intros n a b Hn ->; simplify_eq; lia).
    destruct (linked_parent _ _ _ _ _ _ _ _ Hinv Hg1 ltac:(eauto))
      as (p1 & pd & i1 & lo1 & hi1 & _ & Hm1 & Hp1 & ? & ? & Hs1 & Hi1 & Ha1 & Hb1).
    destruct (linked_parent _ _ _ _ _ _ _ _ Hinv Hg2 ltac:(eauto))
      as (p2 & pd2 & i2 & lo2 & hi2 & _ & Hm2 & Hp2 & ? & ? & Hs2 & Hi2 & Ha2 & Hb2).
    assert (p1 = p2) as <- by (eapply (IH p1 p2 lo1 hi1 lo2 hi2 (S h)); [lia|done|lia|done|lia]).
    simplify_eq.
    destruct (ti_node _ _ _ _ _ Hinv p1 _ _ _ Hp1) as (_ & pd' & Hm' & Hok). simplify_eq.
    destruct (no_kids _ _ _ _ _ _ _ _ Hok h eq_refl) as (_ & Hk).
    assert (i1 = i2) as -> by by eapply kids_unique. simplify_eq. done.
Qed.

(** The search ends in the leaf that covers the key. *)
Lemma find_leaf_from_spec s g root H fuel n a b h key last_ex :
  tree_inv None (nodes s) g root H -> g !! n = Some (a, b, h) -> a <= key < b -> (h < fuel)%nat ->
  exists leaf a' b', find_leaf_from order junk_key fuel s false key n last_ex = Some (leaf, last_ex) /\
    g !! leaf = Some (a', b', 0%nat) /\ a' <= key < b'.
Proof using.
  intros Hinv. revert n a b h. induction fuel as [|fuel IH]; intros n a b h Hg Hk Hf; [lia|].
  destruct (ti_node _ _ _ _ _ Hinv n _ _ _ Hg) as (_ & nd & Hm & Hok). simpl. rewrite Hm.
  destruct h as [|h].
  - rewrite (no_leaf _ _ _ _ _ _ _ _ Hok). simpl. eauto 10.
  - destruct (inner_step _ _ _ _ _ _ _ _ _ _ Hinv Hg Hm Hk) as (-> & c & cnd & a' & b' & -> & -> & Hgc & Hk' & _).
    apply (IH c a' b' h); [done|done|lia].
Qed.

Lemma find_leaf_spec s part_id root g H key :
  roots s !! part_id = Some root -> tree_inv None (nodes s) g root H -> (H < MAX_DEPTH)%nat ->
  0 <= key < KEY_END ->
  exists leaf a b, find_leaf order junk_key s false key part_id = Some (leaf, None) /\
    g !! leaf = Some (a, b, 0%nat) /\ a <= key < b.
Proof using.
  intros Hr Hinv HH Hk. unfold find_leaf, find_root. rewrite Hr.
  destruct (root_ghost _ _ _ _ Hinv) as [Hg _]. by eapply find_leaf_from_spec.
Qed.

(** A leaf finds its keys. *)
Lemma leaf_has_key_spec nd key :
  (num_keys nd <= length (keys nd))%nat -> StronglySorted Z.lt (nkeys nd) ->
  match leaf_has_key junk_key nd key with
  | Some i => nkeys nd !! i = Some key
  | None => key ∉ nkeys nd
  end.
Proof using.
  intros Hlen Hs. unfold leaf_has_key.
  destruct (scan_spec junk_key (fun k => negb (k =? key)) (keys nd) (num_keys nd)) as (Hle & Hlow & Hup).
  set (i := scan _ _ _ _) in *. destruct (Nat.ltb_spec i (num_keys nd)) as [Hi|Hi].
  - rewrite lookup_nkeys by done. specialize (Hup Hi). unfold key_at. b2p. congruence.
  - intros [j Hj]%list_elem_of_lookup. destruct (nkeys_lookup _ _ _ Hj) as [Hjn <-].
    specialize (Hlow j ltac:(lia)). unfold key_at in Hlow. b2p. congruence.
Qed.

(** The search for a key finds the leaf that holds it. *)
Lemma holds_leaf m g root H key it leaf a b nd :
  tree_inv None m g root H -> holds m g key it ->
  g !! leaf = Some (a, b, 0%nat) -> a <= key < b -> m !! leaf = Some nd ->
  exists i, nkeys nd !! i = Some key /\ nptrs nd !! i = Some (PItem it).
Proof using.
  intros Hinv (n & lo & hi & nd' & i & Hg & Hm & Hi & Hp) Hgl Hk Hml.
  destruct (ti_node _ _ _ _ _ Hinv n _ _ _ Hg) as (_ & nd'' & Hm' & Hok). simplify_eq.
  destruct (no_leaf_keys _ _ _ _ _ _ _ _ Hok eq_refl) as (_ & Hr & _).
  rewrite Forall_forall in Hr. pose proof (Hr key ltac:(by eapply list_elem_of_lookup_2)).
  assert (n = leaf) as -> by (eapply (covering_unique m g root H H n leaf _ _ _ _ 0); [done|lia|done..]).
  simplify_eq. eauto.
Qed.

Lemma index_read_holds s part_id root g H key it thd_id :
  roots s !! part_id = Some root -> tree_inv None (nodes s) g root H -> (H < MAX_DEPTH)%nat ->
  0 <= key < KEY_END -> holds (nodes s) g key it ->
  exists s', index_read order junk_key key thd_id part_id s = Some (it, s').
Proof using.
  intros Hr Hinv HH Hk Hh.
  destruct (find_leaf_spec s part_id root g H key Hr Hinv HH Hk) as (leaf & a & b & Hf & Hg & Hab).
  destruct (ti_node _ _ _ _ _ Hinv leaf _ _ _ Hg) as (_ & nd & Hm & Hok).
  destruct (holds_leaf _ _ _ _ _ _ _ _ _ _ Hinv Hh Hg Hab Hm) as (i & Hi & Hp).
  pose proof (no_keys _ _ _ _ _ _ _ _ Hok). pose proof (no_num _ _ _ _ _ _ _ _ Hok).
  destruct (no_leaf_keys _ _ _ _ _ _ _ _ Hok eq_refl) as (Hs & _).
  unfold index_read. rewrite Hf. simpl. rewrite Hm.
  pose proof (leaf_has_key_spec nd key ltac:(lia) Hs) as Hlk.
  destruct (leaf_has_key junk_key nd key) as [j|].
  - assert (j = i) as -> by by eapply sorted_lookup_inj.
    assert (ptr_at nd i = PItem it) as ->.
    { unfold ptr_at. apply rd_lookup. unfold nptrs in Hp. by apply lookup_take_Some in Hp as [? _]. }
    simpl. eauto.
  - contradict Hlk. by eapply list_elem_of_lookup_2.
Qed.

Lemma index_read_absent s part_id root g H key thd_id :
  roots s !! part_id = Some root -> tree_inv None (nodes s) g root H -> (H < MAX_DEPTH)%nat ->
  0 <= key < KEY_END -> (forall it, ~ holds (nodes s) g key it) ->
  index_read order junk_key key thd_id part_id s = None.
Proof using.
  intros Hr Hinv HH Hk Hh.
  destruct (find_leaf_spec s part_id root g H key Hr Hinv HH Hk) as (leaf & a & b & Hf & Hg & Hab).
  destruct (ti_node _ _ _ _ _ Hinv leaf _ _ _ Hg) as (_ & nd & Hm & Hok).
  pose proof (no_keys _ _ _ _ _ _ _ _ Hok). pose proof (no_num _ _ _ _ _ _ _ _ Hok).
  destruct (no_leaf_keys _ _ _ _ _ _ _ _ Hok eq_refl) as (Hs & _ & Hit & _).
  unfold index_read. rewrite Hf. simpl. rewrite Hm.
  pose proof (leaf_has_key_spec nd key ltac:(lia) Hs) as Hlk.
  destruct (leaf_has_key junk_key nd key) as [i|]; [|done]. exfalso.
  assert (i < num_keys nd)%nat as Hi by by apply (nkeys_lookup nd i key).
  pose proof (no_ptrs _ _ _ _ _ _ _ _ Hok).
  destruct (lookup_lt_is_Some_2 (nptrs nd) i) as [p Hp].
  { unfold nptrs. rewrite (no_leaf _ _ _ _ _ _ _ _ Hok), length_take. simpl. lia. }
  rewrite Forall_forall in Hit. destruct (Hit p) as [it ->]; [by eapply list_elem_of_lookup_2|].
  apply (Hh it). by exists leaf, a, b, nd, i.
Qed.

(** ** The nodes that an insertion latches *)

Fixpoint climbs (m : gmap nat bt_node) (d c e : nat) : Prop :=
  match d with
  | O => c = e
  | S d => exists p, parent_of m c = Some (Some p) /\ climbs m d p e
  end.

Lemma parent_of_Some m n p : parent_of m n = Some p -> exists nd, m !! n = Some nd /\ parent nd = p.
Proof using. unfold parent_of. destruct (m !! n) as [nd|]; [|done]. intros [= <-]. eauto. Qed.

Lemma cleanup_spec s fuel d c e :
  climbs (nodes s) (S d) c e -> (d < fuel)%nat -> cleanup fuel s c e = Some tt.
Proof using.
  revert d c. induction fuel as [|fuel IH]; intros d c Hc Hd; [lia|]. simpl.
  destruct Hc as (p & (nd & -> & ->)%parent_of_Some & Hp).
  destruct (Nat.eqb_spec p e) as [|Hne]; [done|].
  destruct d as [|d]; [done|]. apply (IH d); [done|lia].
Qed.

Lemma ex_list_spec s fuel d c e :
  climbs (nodes s) d c e -> (d < fuel)%nat -> is_Some (ex_list fuel s c e).
Proof using.
  revert d c. induction fuel as [|fuel IH]; intros d c Hc Hd; [lia|]. simpl.
  destruct (Nat.eqb_spec c e) as [|Hne]; [by eexists|].
  destruct d as [|d]; [done|]. destruct Hc as (p & (nd & -> & ->)%parent_of_Some & Hp).
  destruct (IH d p Hp ltac:(lia)) as [l ->]. by eexists.
Qed.

(** The search of an insertion: the same leaf, and a [last_ex] above it. *)
Lemma find_leaf_insert_from s g root H fuel n a b h key last_ex :
  tree_inv None (nodes s) g root H -> g !! n = Some (a, b, h) -> a <= key < b -> (h < fuel)%nat ->
  (H <= MAX_DEPTH)%nat ->
  (forall e, last_ex = Some e -> exists d, (S d + h <= H)%nat /\ climbs (nodes s) (S d) n e) ->
  exists leaf a' b' le, find_leaf_from order junk_key fuel s true key n last_ex = Some (leaf, le) /\
    g !! leaf = Some (a', b', 0%nat) /\ a' <= key < b' /\
    (forall e, le = Some e -> exists d, (d <= H)%nat /\ climbs (nodes s) d leaf e).
Proof using.
  intros Hinv. revert n a b h last_ex.
  induction fuel as [|fuel IH]; intros n a b h last_ex Hg Hk Hf HH Hle; [lia|].
  destruct (ti_node _ _ _ _ _ Hinv n _ _ _ Hg) as (HhH & nd & Hm & Hok). simpl. rewrite Hm.
  destruct h as [|h].
  - rewrite (no_leaf _ _ _ _ _ _ _ _ Hok). simpl. eexists _, _, _, _. do 3 (split; [done|]).
    intros e He. destruct (Hle e He) as (d & Hd & Hc). exists (S d). split; [lia|done].
  - destruct (inner_step _ _ _ _ _ _ _ _ _ _ Hinv Hg Hm Hk)
      as (-> & c & cnd & a' & b' & -> & Hmc & Hgc & Hk' & Hpc & _). rewrite Hmc.
    assert (parent_of (nodes s) c = Some (Some n)) as Hpar by (unfold parent_of; by rewrite Hmc; simpl; rewrite Hpc).
    destruct (num_keys cnd =? order - 1)%nat.
    + apply (IH c a' b' h); [done|done|lia|done|]. intros e He.
      destruct last_ex as [e'|]; injection He as <-.
      * destruct (Hle e' eq_refl) as (d & Hd & Hc). exists (S d). split; [lia|]. by exists n.
      * exists 0%nat. split; [lia|]. by exists n.
    + assert (match last_ex with Some e => cleanup MAX_DEPTH s n e | None => Some tt end = Some tt) as ->.
      { destruct last_ex as [e|]; [|done]. destruct (Hle e eq_refl) as (d & Hd & Hc).
        apply (cleanup_spec _ _ d); [done|lia]. }
      apply (IH c a' b' h); [done|done|lia|done|done].
Qed.

(** ** Insertion into a leaf *)

Definition pairs_hold (ks : list Z) (ps : list ptr) (k : Z) (it : nat) : Prop :=
  exists i, ks !! i = Some k /\ ps !! i = Some (PItem it).

Lemma holds_pairs m g k it :
  holds m g k it <-> exists n lo hi nd, g !! n = Some (lo, hi, 0%nat) /\ m !! n = Some nd /\
    pairs_hold (nkeys nd) (nptrs nd) k it.
Proof using. unfold holds, pairs_hold. naive_solver. Qed.

Lemma pairs_hold_insert i key item ks ps k it :
  length ks = length ps -> (i <= length ks)%nat ->
  pairs_hold (insert_at i key ks) (insert_at i (PItem item) ps) k it <->
  (k = key /\ it = item) \/ pairs_hold ks ps k it.
Proof using.
  intros Hlen Hi. split.
  - intros (j & Hj & Hp). rewrite lookup_insert_at in Hj by lia. rewrite lookup_insert_at in Hp by lia.
    case_match; [right; by exists j|]. case_match; [left; naive_solver|right; by exists (pred j)].
  - intros [[-> ->]|(j & Hj & Hp)].
    + exists i. rewrite !lookup_insert_at by lia. by rewrite Nat.ltb_irrefl, Nat.eqb_refl.
    + destruct (decide (j < i)%nat) as [Hlt|Hge]; [exists j|exists (S j)];
        rewrite !lookup_insert_at by lia.
      * by rewrite (proj2 (Nat.ltb_lt j i)) by lia.
      * rewrite (proj2 (Nat.ltb_ge (S j) i)), (proj2 (Nat.eqb_neq (S j) i)) by lia. done.
Qed.

Lemma pairs_hold_cut m ks ps k it :
  pairs_hold ks ps k it <->
  pairs_hold (take m ks) (take m ps) k it \/ pairs_hold (drop m ks) (drop m ps) k it.
Proof using.
  split.
  - intros (i & Hk & Hp). destruct (decide (i < m)%nat) as [Hi|Hi].
    + left. exists i. by rewrite !lookup_take_lt.
    + right. exists (i - m)%nat. rewrite !lookup_drop.
      by replace (m + (i - m))%nat with i by lia.
  - intros [(i & [Hk _]%lookup_take_Some & [Hp _]%lookup_take_Some)|(i & Hk & Hp)]; [by exists i|].
    rewrite lookup_drop in Hk. rewrite lookup_drop in Hp. by exists (m + i)%nat.
Qed.

(** The place of a new key in the sorted keys. *)
Lemma scan_lt_sorted nd key :
  (num_keys nd <= length (keys nd))%nat -> StronglySorted Z.lt (nkeys nd) -> key ∉ nkeys nd ->
  let i := scan junk_key (fun k => k <? key) (keys nd) (num_keys nd) in
  (i <= num_keys nd)%nat /\ StronglySorted Z.lt (insert_at i key (nkeys nd)).
Proof using.
  intros Hlen Hs Hn i.
  destruct (scan_spec junk_key (fun k => k <? key) (keys nd) (num_keys nd)) as (Hle & Hlow & Hup).
  fold i in Hle, Hlow, Hup. split; [done|].
  assert (length (nkeys nd) = num_keys nd) as Hnk by (unfold nkeys; rewrite length_take; lia).
  assert (forall j x, nkeys nd !! j = Some x -> (j < i)%nat -> x < key) as H1.
  { intros j x [Hj <-]%nkeys_lookup Hji. specialize (Hlow j Hji). unfold key_at. by b2p. }
  assert (forall j x, nkeys nd !! j = Some x -> (i <= j)%nat -> key < x) as H2.
  { intros j x Hj Hij. pose proof (nkeys_lookup _ _ _ Hj) as [Hjn Hx].
    assert (x <> key) by (intros ->; apply Hn; by eapply list_elem_of_lookup_2).
    specialize (Hup ltac:(lia)). b2p.
    pose proof (lookup_nkeys nd i Hlen ltac:(lia)) as Hi. fold (key_at nd i) in Hup.
    pose proof (sorted_lookup_le _ _ _ _ _ Hs Hi Hj Hij). lia. }
  apply sorted_of_lookup. intros j x y Hx Hy. rewrite lookup_insert_at in Hx, Hy by lia.
  destruct (Nat.ltb_spec j i), (Nat.ltb_spec (S j) i); try lia.
  - eapply sorted_lookup; [done|exact Hx|exact Hy|lia].
  - destruct (Nat.eqb_spec (S j) i); [|lia]. simplify_eq. by eapply H1.
  - destruct (Nat.eqb_spec j i), (Nat.eqb_spec (S j) i); try lia; simplify_eq/=.
    + eapply H2; [done|lia].
    + eapply (sorted_lookup _ (pred j) j); [done|done|done|lia].
Qed.

(** ** Changes of nodes *)

Lemma kids_impl pend g par pend' g' par' n h bs ps :
  (forall c a b, PNode c ∈ ps -> span pend g par (Some n) c a b h ->
     span pend' g' par' (Some n) c a b h) ->
  kids pend g par n h bs ps -> kids pend' g' par' n h bs ps.
Proof using.
  intros Himpl (Hlen & Hs & Hk). split_and!; [done|done|]. intros i p a b Hp Ha Hb.
  destruct (Hk i p a b Hp Ha Hb) as (c & -> & Hc). exists c. split; [done|].
  apply Himpl; [|done]. by eapply list_elem_of_lookup_2.
Qed.

Lemma node_ok_impl pend g par pend' g' par' n lo hi h nd :
  (forall c a b h', h = S h' -> PNode c ∈ nptrs nd -> span pend g par (Some n) c a b h' ->
     span pend' g' par' (Some n) c a b h') ->
  (forall l x, h = 0%nat -> bt_next nd = Some l -> g !! l = Some (hi, x, 0%nat) ->
     exists x', g' !! l = Some (hi, x', 0%nat)) ->
  node_ok pend g par n lo hi h nd -> node_ok pend' g' par' n lo hi h nd.
Proof using.
  intros Hspan Hnext Hok. constructor; try apply Hok.
  - intros Hh. destruct (no_leaf_keys _ _ _ _ _ _ _ _ Hok Hh) as (H1 & H2 & H3 & H4).
    split_and!; [done|done|done|]. destruct (bt_next nd) as [l|]; [|done].
    destruct H4 as [x H4]. by eapply Hnext.
  - intros h' Hh. destruct (no_kids _ _ _ _ _ _ _ _ Hok h' Hh) as (H1 & H2). split; [done|].
    eapply kids_impl; [|done]. intros c a b Hc. by apply Hspan.
Qed.

Lemma span_par pend g par par' p c a b h :
  (forall x, par' x = par x) -> span pend g par p c a b h -> span pend g par' p c a b h.
Proof using.
  intros Hp. unfold span. destruct pend as [[[l k] r]|]; [|by rewrite Hp].
  destruct (c =? l)%nat; by rewrite !Hp.
Qed.

Lemma parent_of_insert m n nd c :
  parent_of (<[n := nd]> m) c = if (c =? n)%nat then Some (parent nd) else parent_of m c.
Proof using.
  unfold parent_of. destruct (Nat.eqb_spec c n) as [->|]; [by rewrite lookup_insert_eq|].
  by rewrite lookup_insert_ne.
Qed.

Lemma parent_of_update m n nd nd' c :
  m !! n = Some nd -> parent nd' = parent nd -> parent_of (<[n := nd']> m) c = parent_of m c.
Proof using.
  intros Hm Hp. rewrite parent_of_insert. destruct (Nat.eqb_spec c n) as [->|]; [|done].
  unfold parent_of. by rewrite Hm; simpl; rewrite Hp.
Qed.

(** A node is replaced by one with the same parent and at least its children. *)
Lemma tree_inv_set_node m g root H n lo hi h nd nd' :
  tree_inv None m g root H -> m !! n = Some nd -> g !! n = Some (lo, hi, h) ->
  parent nd' = parent nd -> node_ok None g (parent_of m) n lo hi h nd' ->
  (forall c, PNode c ∈ nptrs nd -> PNode c ∈ nptrs nd') ->
  tree_inv None (<[n := nd']> m) g root H.
Proof using.
  intros Hinv Hm Hg Hp Hok Hsub.
  pose proof (parent_of_update m n nd nd') as Hpar. constructor.
  - intros x lo' hi' h' Hx. destruct (ti_node _ _ _ _ _ Hinv x _ _ _ Hx) as (Hle & xd & Hmx & Hokx).
    split; [done|]. destruct (decide (x = n)) as [->|Hne].
    + simplify_eq. exists nd'. rewrite lookup_insert_eq. split; [done|].
      eapply node_ok_impl; [..|exact Hok]; [|eauto]. intros c a b h'' _ _.
      apply span_par. intros y. by apply Hpar.
    + exists xd. rewrite lookup_insert_ne by done. split; [done|].
      eapply node_ok_impl; [..|exact Hokx]; [|eauto]. intros c a b h'' _ _.
      apply span_par. intros y. by apply Hpar.
  - apply (span_par _ _ (parent_of m)); [intros y; by apply Hpar|]. apply Hinv.
  - intros x Hx Hne Hnr.
    destruct (ti_linked _ _ _ _ _ Hinv x Hx Hne Hnr) as (p & pd & i & lo' & hi' & h' & H1 & H2 & H3 & H4).
    destruct (decide (p = n)) as [->|Hpn].
    + simplify_eq. apply list_elem_of_lookup_2, Hsub in H4 as [j Hj]%list_elem_of_lookup_1.
      exists n, nd', j, lo, hi, h'. rewrite Hpar by done. by rewrite lookup_insert_eq.
    + exists p, pd, i, lo', hi', h'. rewrite Hpar by done. by rewrite lookup_insert_ne.
Qed.

(** The pairs of the tree when those of one leaf change. *)
Lemma holds_set_leaf m g n lo hi nd nd' k it :
  g !! n = Some (lo, hi, 0%nat) -> m !! n = Some nd ->
  (holds (<[n := nd']> m) g k it <->
   pairs_hold (nkeys nd') (nptrs nd') k it \/
   exists x a b xd, x <> n /\ g !! x = Some (a, b, 0%nat) /\ m !! x = Some xd /\
     pairs_hold (nkeys xd) (nptrs xd) k it).
Proof using.
  intros Hg Hm. rewrite holds_pairs. split.
  - intros (x & a & b & xd & Hx & Hmx & Hp). destruct (decide (x = n)) as [->|Hne].
    + rewrite lookup_insert_eq in Hmx. simplify_eq. by left.
    + rewrite lookup_insert_ne in Hmx by done. right. by exists x, a, b, xd.
  - intros [Hp|(x & a & b & xd & Hne & Hx & Hmx & Hp)].
    + exists n, lo, hi, nd'. by rewrite lookup_insert_eq.
    + exists x, a, b, xd. by rewrite lookup_insert_ne.
Qed.

(** Two leaves do not share a key. *)
Lemma pairs_hold_range m g root H n lo hi nd k it :
  tree_inv None m g root H -> g !! n = Some (lo, hi, 0%nat) -> m !! n = Some nd ->
  pairs_hold (nkeys nd) (nptrs nd) k it -> lo <= k < hi.
Proof using.
  intros Hinv Hg Hm (i & Hi & _). destruct (ti_node _ _ _ _ _ Hinv n _ _ _ Hg) as (_ & nd' & Hm' & Hok).
  simplify_eq. destruct (no_leaf_keys _ _ _ _ _ _ _ _ Hok eq_refl) as (_ & HF & _).
  rewrite Forall_forall in HF. apply HF. by eapply list_elem_of_lookup_2.
Qed.

(** The tree maps [key] to [item], and the other keys as before. *)
Definition holds_added (m : gmap nat bt_node) (g : ghost) (m' : gmap nat bt_node) (g' : ghost)
    (key : Z) (item : nat) : Prop :=
  forall k it, holds m' g' k it <-> (k = key /\ it = item) \/ (k <> key /\ holds m g k it).

(** It is enough that the leaf of the key changes so. *)
Lemma holds_added_leaf m g root H n lo hi nd nd' key item :
  tree_inv None m g root H -> g !! n = Some (lo, hi, 0%nat) -> m !! n = Some nd -> lo <= key < hi ->
  (forall k it, pairs_hold (nkeys nd') (nptrs nd') k it <->
     (k = key /\ it = item) \/ (k <> key /\ pairs_hold (nkeys nd) (nptrs nd) k it)) ->
  holds_added m g (<[n := nd']> m) g key item.
Proof using.
  intros Hinv Hg Hm Hk Hnd k it. rewrite (holds_set_leaf _ _ _ _ _ _ _ _ _ Hg Hm), Hnd, holds_pairs.
  split.
  - intros [[?|[Hne Hp]]|(x & a & b & xd & Hne & Hx & Hmx & Hp)]; [by left| |].
    + right. split; [done|]. by exists n, lo, hi, nd.
    + right. split; [|by exists x, a, b, xd]. intros ->.
      pose proof (pairs_hold_range _ _ _ _ _ _ _ _ _ _ Hinv Hx Hmx Hp). apply Hne.
      by eapply (covering_unique m g root H H x n _ _ _ _ 0).
  - intros [?|(Hne & x & a & b & xd & Hx & Hmx & Hp)]; [by left; left|].
    destruct (decide (x = n)) as [->|Hxn]; [simplify_eq; left; by right|right; by exists x, a, b, xd].
Qed.

Lemma nptrs_leaf_length nd :
  is_leaf nd = true -> length (pointers nd) = order -> (num_keys nd <= order - 1)%nat ->
  length (nptrs nd) = num_keys nd.
Proof using. intros Hl Hp Hn. unfold nptrs. rewrite Hl, length_take. lia. Qed.

Lemma nkeys_length nd :
  length (keys nd) = (order - 1)%nat -> (num_keys nd <= order - 1)%nat ->
  length (nkeys nd) = num_keys nd.
Proof using. intros Hk Hn. unfold nkeys. rewrite length_take. lia. Qed.

Lemma no_child_of_leaf ps c : Forall (fun p => exists it, p = PItem it) ps -> PNode c ∉ ps.
Proof using. rewrite Forall_forall. intros HF Hc. by destruct (HF _ Hc). Qed.

(** The new item of a key that is there. *)
Lemma leaf_replace_spec s g root H leaf a b ld key item i :
  tree_inv None (nodes s) g root H -> g !! leaf = Some (a, b, 0%nat) -> nodes s !! leaf = Some ld ->
  a <= key < b -> leaf_has_key junk_key ld key = Some i ->
  exists s' nd', insert_into_leaf order junk_key leaf key item s = Some s' /\
    nodes s' = <[leaf := nd']> (nodes s) /\ roots s' = roots s /\ fresh_node s' = fresh_node s /\
    tree_inv None (nodes s') g root H /\ holds_added (nodes s) g (nodes s') g key item.
Proof using.
  intros Hinv Hg Hm Hk Hhas.
  destruct (ti_node _ _ _ _ _ Hinv leaf _ _ _ Hg) as (_ & ld' & Hm' & Hok). simplify_eq.
  pose proof (no_keys _ _ _ _ _ _ _ _ Hok) as Hlk. pose proof (no_num _ _ _ _ _ _ _ _ Hok) as Hnum.
  pose proof (no_leaf _ _ _ _ _ _ _ _ Hok) as Hleaf. pose proof (no_ptrs _ _ _ _ _ _ _ _ Hok) as Hlp.
  destruct (no_leaf_keys _ _ _ _ _ _ _ _ Hok eq_refl) as (Hs & HF & Hit & Hnext).
  unfold insert_into_leaf. rewrite Hm, Hhas.
  pose proof (leaf_has_key_spec ld key ltac:(lia) Hs) as Hi. rewrite Hhas in Hi.
  destruct (nkeys_lookup _ _ _ Hi) as [Hin _]. rewrite wr_spec by lia.
  set (nd' := set_arrays (keys ld) (<[i := PItem item]> (pointers ld)) (num_keys ld) ld).
  assert (nptrs nd' = <[i := PItem item]> (nptrs ld)) as Hnp.
  { unfold nptrs. simpl. rewrite Hleaf. simpl. by rewrite take_insert_lt. }
  assert (length (nptrs ld) = num_keys ld) as Hnl by by apply nptrs_leaf_length.
  eexists _, nd'. do 4 (split; [done|]). split.
  - eapply (tree_inv_set_node _ _ _ _ leaf); [done..| |].
    + constructor; [apply Hok|simpl; by rewrite length_insert|apply Hok|apply Hok|apply Hok| | |done].
      { exact (no_lo _ _ _ _ _ _ _ _ Hok). }
      intros _. split_and!; [done|done| |done]. rewrite Hnp.
      apply Forall_insert; [done|eauto].
    + intros c Hc. by apply no_child_of_leaf in Hc.
  - eapply holds_added_leaf; [done..|]. intros k it. rewrite Hnp. unfold pairs_hold.
    change (nkeys nd') with (nkeys ld). split.
    + intros (j & Hj & Hp). destruct (decide (j = i)) as [->|Hne].
      * rewrite list_lookup_insert_eq in Hp by lia. simplify_eq. by left.
      * rewrite list_lookup_insert_ne in Hp by done. right. split; [|by exists j].
        intros ->. apply Hne. by eapply sorted_lookup_inj.
    + intros [[-> ->]|(Hne & j & Hj & Hp)]; [exists i; by rewrite list_lookup_insert_eq by lia|].
      exists j. rewrite list_lookup_insert_ne; [done|]. intros ->. apply Hne. congruence.
Qed.

(** A key that is not there, in a leaf with room. *)
Lemma leaf_add_spec s g root H leaf a b ld key item :
  tree_inv None (nodes s) g root H -> g !! leaf = Some (a, b, 0%nat) -> nodes s !! leaf = Some ld ->
  a <= key < b -> leaf_has_key junk_key ld key = None -> (num_keys ld < order - 1)%nat ->
  exists s' nd', insert_into_leaf order junk_key leaf key item s = Some s' /\
    nodes s' = <[leaf := nd']> (nodes s) /\ roots s' = roots s /\ fresh_node s' = fresh_node s /\
    tree_inv None (nodes s') g root H /\ holds_added (nodes s) g (nodes s') g key item.
Proof using.
  intros Hinv Hg Hm Hk Hhas Hroom.
  destruct (ti_node _ _ _ _ _ Hinv leaf _ _ _ Hg) as (_ & ld' & Hm' & Hok). simplify_eq.
  pose proof (no_keys _ _ _ _ _ _ _ _ Hok) as Hlk. pose proof (no_num _ _ _ _ _ _ _ _ Hok) as Hnum.
  pose proof (no_leaf _ _ _ _ _ _ _ _ Hok) as Hleaf. pose proof (no_ptrs _ _ _ _ _ _ _ _ Hok) as Hlp.
  destruct (no_leaf_keys _ _ _ _ _ _ _ _ Hok eq_refl) as (Hs & HF & Hit & Hnext).
  unfold insert_into_leaf. rewrite Hm, Hhas.
  pose proof (leaf_has_key_spec ld key ltac:(lia) Hs) as Hnk. rewrite Hhas in Hnk.
  destruct (scan_lt_sorted ld key ltac:(lia) Hs Hnk) as [Hip Hsorted].
  set (ip := scan _ _ _ _) in *.
  destruct (shift_up_insert junk_key (keys ld) ip (num_keys ld) key) as (k1 & ks & -> & Hk2 & Hkl & Hkt); [done|lia|].
  destruct (shift_up_insert PNull (pointers ld) ip (num_keys ld) (PItem item))
    as (p1 & ps & -> & Hp2 & Hpl & Hpt); [done|lia|].
  rewrite Hk2, Hp2, c_assert_true by (apply Nat.ltb_lt; lia).
  set (nd' := set_arrays ks ps (S (num_keys ld)) ld).
  assert (nptrs nd' = insert_at ip (PItem item) (nptrs ld)) as Hnp.
  { unfold nptrs. simpl. rewrite Hleaf. done. }
  assert (nkeys nd' = insert_at ip key (nkeys ld)) as Hnks by done.
  pose proof (nptrs_leaf_length ld Hleaf Hlp Hnum) as Hnl. pose proof (nkeys_length ld Hlk Hnum) as Hkn.
  eexists _, nd'. do 4 (split; [done|]). split.
  - eapply (tree_inv_set_node _ _ _ _ leaf); [done..| |].
    + constructor; [by rewrite <- Hlk|by rewrite <- Hlp|simpl; lia|apply Hok|apply Hok| | |done].
      { intros _. rewrite Hnks, elem_of_insert_at. destruct (no_lo _ _ _ _ _ _ _ _ Hok eq_refl); tauto. }
      intros _. rewrite Hnks, Hnp. split_and!; [done| | |done].
      * rewrite insert_at_perm. by constructor.
      * rewrite insert_at_perm. constructor; eauto.
    + intros c Hc. by apply no_child_of_leaf in Hc.
  - eapply holds_added_leaf; [done..|]. intros k it. rewrite Hnp, Hnks.
    rewrite pairs_hold_insert by lia. split; [|naive_solver].
    intros [?|Hp]; [by left|]. right. split; [|done]. intros ->. apply Hnk.
    destruct Hp as (j & Hj & _). by eapply list_elem_of_lookup_2.
Qed.
(** ** The insertion into the parent *)

Lemma insert_at_bounds {A} j (k lo hi : A) ks :
  (j <= length ks)%nat ->
  insert_at (S j) k (lo :: ks ++ [hi]) = lo :: insert_at j k ks ++ [hi].
Proof using.
  intros Hj. unfold insert_at. simpl. f_equal. rewrite take_app_le, drop_app_le by lia.
  by rewrite <- app_assoc.
Qed.

(** The pending pair becomes two children. *)
Lemma kids_insert l k r g par n h bs ps j :
  kids (Some (l, k, r)) g par n h bs ps -> ps !! j = Some (PNode l) ->
  kids None g par n h (insert_at (S j) k bs) (insert_at (S j) (PNode r) ps).
Proof using.
  intros Hk Hj. pose proof Hk as (Hlen & Hs & _).
  destruct (kids_lookup _ _ _ _ _ _ _ _ _ Hk Hj) as (a & b & c & Ha & Hb & [= <-] & Hspan).
  unfold span in Hspan. rewrite Nat.eqb_refl in Hspan.
  destruct Hspan as (Hakb & Hgl & Hgr & Hpl & Hpr).
  pose proof (lookup_lt_Some _ _ _ Hj) as Hjl. split_and!.
  - rewrite !length_insert_at. lia.
  - apply sorted_of_lookup. intros i x y Hx Hy.
    rewrite lookup_insert_at in Hx by lia. rewrite lookup_insert_at in Hy by lia.
    repeat case_match; b2p; simplify_eq/=; try lia.
    + eapply (sorted_lookup bs i (S i)); [done..|lia].
    + assert (i = j) as -> by (rewrite ?Nat.ltb_lt, ?Nat.ltb_ge, ?Nat.eqb_eq, ?Nat.eqb_neq in *; lia).
      simplify_eq. lia.
    + assert (i = S j) as -> by (rewrite ?Nat.ltb_lt, ?Nat.ltb_ge, ?Nat.eqb_eq, ?Nat.eqb_neq in *; lia).
      simplify_eq. lia.
    + rewrite ?Nat.ltb_lt, ?Nat.ltb_ge, ?Nat.eqb_eq, ?Nat.eqb_neq in *.
      eapply (sorted_lookup bs (pred i) i); [done..|lia].
  - intros i p x y Hp Hx Hy.
    assert (forall i' p' x' y', ps !! i' = Some p' -> bs !! i' = Some x' -> bs !! S i' = Some y' ->
      i' <> j -> exists c, p' = PNode c /\ span None g par (Some n) c x' y' h) as Hother.
    { intros i' p' x' y' Hp' Hx' Hy' Hne.
      destruct (kids_lookup _ _ _ _ _ _ _ _ _ Hk Hp') as (x2 & y2 & c & Hx2 & Hy2 & -> & Hc). simplify_eq.
      exists c. split; [done|]. unfold span in Hc. destruct (Nat.eqb_spec c l) as [->|]; [|done].
      destruct Hc as (_ & Hgl' & _). simplify_eq. destruct Hne.
      by apply (sorted_lookup_inj bs i' j _ Hs Hx'). }
    rewrite lookup_insert_at in Hp by lia. rewrite lookup_insert_at in Hx by lia.
    rewrite lookup_insert_at in Hy by lia.
    destruct (Nat.ltb_spec i (S j)), (Nat.ltb_spec (S i) (S j)), (Nat.eqb_spec (S i) (S j)),
      (Nat.eqb_spec i (S j)); simplify_eq/=; try lia.
    + apply (Hother i); [done..|lia].
    + exists l. by split_and!.
    + exists r. by split.
    + destruct i as [|i]; [lia|]. apply (Hother i); [done..|lia].
Qed.

(** The place where the loop of [insert_into_parent] puts the new key. *)
Lemma scan_pending l k r g par n h lo hi nd j :
  (num_keys nd <= length (keys nd))%nat ->
  kids (Some (l, k, r)) g par n h (lo :: nkeys nd ++ [hi]) (nptrs nd) ->
  nptrs nd !! j = Some (PNode l) ->
  scan junk_key (fun x => x <? k) (keys nd) (num_keys nd) = j.
Proof using.
  intros Hlen Hk Hj.
  destruct (kids_lookup _ _ _ _ _ _ _ _ _ Hk Hj) as (a & b & c & Ha & Hb & [= <-] & Hspan).
  unfold span in Hspan. rewrite Nat.eqb_refl in Hspan. destruct Hspan as (Hakb & _).
  destruct Hk as (_ & Hs & _).
  assert (length (nkeys nd) = num_keys nd) as Hnk by (unfold nkeys; rewrite length_take; lia).
  destruct (scan_spec junk_key (fun x => x <? k) (keys nd) (num_keys nd)) as (Hle & Hlow & Hup).
  set (i := scan _ _ _ _) in *.
  assert (forall x, (x < num_keys nd)%nat -> (lo :: nkeys nd ++ [hi]) !! S x = Some (rd junk_key (keys nd) x)) as Hkey.
  { intros x Hx. simpl. rewrite lookup_app_l by lia. by apply lookup_nkeys. }
  destruct (Nat.lt_trichotomy i j) as [Hlt|[?|Hgt]]; [|done|].
  - apply lookup_lt_Some in Hb as Hb'. simpl in Hb'. rewrite length_app in Hb'. simpl in Hb'.
    specialize (Hup ltac:(lia)). b2p.
    pose proof (sorted_lookup_le _ (S i) j _ _ Hs (Hkey i ltac:(lia)) Ha Hlt). lia.
  - specialize (Hlow j Hgt). b2p. rewrite (Hkey j) in Hb by lia. simplify_eq. lia.
Qed.

(** Half of the children. *)
Lemma kids_take g par n h bs ps m :
  kids None g par n h bs ps -> (m <= length ps)%nat ->
  kids None g par n h (take (S m) bs) (take m ps).
Proof using.
  intros (Hlen & Hs & Hk) Hm. split_and!.
  - rewrite !length_take. lia.
  - rewrite <- (take_drop (S m) bs) in Hs. by apply StronglySorted_app_1_l in Hs.
  - intros i p a b [Hp _]%lookup_take_Some [Ha _]%lookup_take_Some [Hb _]%lookup_take_Some. eauto.
Qed.

Lemma kids_drop g par n h bs ps m :
  kids None g par n h bs ps -> (m <= length ps)%nat ->
  kids None g par n h (drop m bs) (drop m ps).
Proof using.
  intros (Hlen & Hs & Hk) Hm. split_and!.
  - rewrite !length_drop. lia.
  - rewrite <- (take_drop m bs) in Hs. by apply StronglySorted_app_1_r in Hs.
  - intros i p a b Hp Ha Hb. rewrite lookup_drop in Hp. rewrite lookup_drop in Ha. rewrite lookup_drop in Hb.
    apply (Hk (m + i)%nat); [done..|]. by rewrite Nat.add_succ_r in Hb.
Qed.
End invariant.
