(* ===== verification/BTreeSplit.v ===== *)
(** * The B+-tree index: splits

    What [split_lf] and [split_nl] do to the nodes, and that they keep the
    invariant with the two halves as the pending pair. *)

From S2P Require Import Prelude Global Arrays BTree BTreeInv.

#[local] Opaque MAX_DEPTH.

Lemma cut_bounds n : (2 <= n)%nat -> (1 <= cut n <= n - 1)%nat /\ ((3 <= n)%nat -> (2 <= cut n)%nat).
Proof.
  intros Hn. unfold cut. destruct (Nat.even n) eqn:He.
  - apply Nat.even_spec in He as [m ->]. rewrite Nat.mul_comm, Nat.div_mul by done. lia.
  - assert (Nat.odd n = true) as Ho by (unfold Nat.odd; by rewrite He).
    apply Nat.odd_spec in Ho as [m ->].
    replace (2 * m + 1)%nat with (1 + m * 2)%nat by lia. rewrite Nat.div_add by done. simpl. lia.
Qed.

(** Writing past the cells in use leaves these. *)
Lemma copy_cells_past {A} (junk : A) src i j k dst n :
  (n <= j)%nat -> (j + k <= length dst)%nat ->
  exists dst', copy_cells junk src i j k dst = Some dst' /\ length dst' = length dst /\
    take n dst' = take n dst.
Proof.
  intros Hn Hk. destruct (copy_cells_spec junk src i j k dst Hk) as (dst' & -> & Hlen & Hd).
  exists dst'. split_and!; [done|done|]. apply list_eq. intros m.
  destruct (decide (m < n)%nat) as [Hm|Hm]; [|by rewrite !lookup_take_ge by lia].
  rewrite !lookup_take_lt, Hd by done. by destruct (Nat.leb_spec j m); [lia|].
Qed.

Section splits.
Context (order : nat) (junk_key : Z).
Hypothesis Horder : (3 <= order)%nat.
Notation node_ok := (node_ok order).
Notation tree_inv := (tree_inv order).

(** The state of [nd] after a split, with the keys [ks] and the pointers [ps]. *)
Record half (nd : bt_node) (leaf : bool) (ks : list Z) (ps : list ptr) (p next : option nat) : Prop := {
  hf_keys : length (keys nd) = (order - 1)%nat;
  hf_ptrs : length (pointers nd) = order;
  hf_num : (1 <= num_keys nd <= order - 1)%nat;
  hf_leaf : is_leaf nd = leaf;
  hf_nkeys : nkeys nd = ks;
  hf_nptrs : nptrs nd = ps;
  hf_parent : parent nd = p;
  hf_next : bt_next nd = next }.

Lemma split_lf_eq s leaf ld key item :
  nodes s !! leaf = Some ld -> leaf <> fresh_node s ->
  length (keys ld) = (order - 1)%nat -> length (pointers ld) = order ->
  num_keys ld = (order - 1)%nat -> is_leaf ld = true ->
  let ip := scan junk_key (fun k => k <? key) (keys ld) (order - 1) in
  let tk := insert_at ip key (nkeys ld) in
  let tp := insert_at ip (PItem item) (nptrs ld) in
  let sp := cut (order - 1) in
  exists lnd rnd k s', split_lf order junk_key leaf key item s = Some (k, fresh_node s, s') /\
    nodes s' = <[fresh_node s := rnd]> (<[leaf := lnd]> (nodes s)) /\
    fresh_node s' = S (fresh_node s) /\ roots s' = roots s /\
    half lnd true (take sp tk) (take sp tp) (parent ld) (Some (fresh_node s)) /\
    half rnd true (drop sp tk) (drop sp tp) (parent ld) (bt_next ld) /\
    tk !! sp = Some k.
Proof using Horder.
  intros Hm Hne Hlk Hlp Hnum Hleaf ip tk tp sp.
  destruct (cut_bounds (order - 1) ltac:(lia)) as [Hsp _]. fold sp in Hsp.
  assert (ip <= order - 1)%nat as Hip.
  { apply scan_spec. }
  assert (nptrs ld = take (order - 1) (pointers ld)) as Hnp by (unfold nptrs; by rewrite Hleaf, Hnum).
  assert (nkeys ld = take (order - 1) (keys ld)) as Hnk by (unfold nkeys; by rewrite Hnum).
  unfold split_lf. cbn [make_lf make_node nodes set_node set_nodes fst snd].
  rewrite lookup_insert_ne, Hm by done. rewrite Hnum, Nat.eqb_refl. cbn [c_assert].
  fold ip.
  destruct (spread_insert junk_key ip (keys ld) (order - 1) (replicate order junk_key) key)
    as (k1 & ck & Hk1 & Hk2 & Hckl & Hck); [lia|lia|rewrite length_replicate; lia|].
  destruct (spread_insert PNull ip (pointers ld) (order - 1) (replicate order PNull) (PItem item))
    as (p1 & cp & Hp1 & Hp2 & Hcpl & Hcp); [lia|lia|rewrite length_replicate; lia|].
  rewrite length_replicate in Hckl. rewrite length_replicate in Hcpl.
  replace (S (order - 1)) with order in Hck, Hcp by lia.
  rewrite take_ge in Hck by lia. rewrite take_ge in Hcp by lia. rewrite <- Hnk in Hck. rewrite <- Hnp in Hcp.
  fold tk in Hck. fold tp in Hcp. subst ck cp.
  rewrite Hk1, Hp1, Hk2, Hp2. fold sp.
  destruct (copy_cells_take PNull tp 0 sp (pointers ld)) as (lp1 & -> & Hlp1 & Hlp1t & _); [lia|lia|].
  destruct (copy_cells_take junk_key tk 0 sp (keys ld)) as (lk1 & -> & Hlk1 & Hlk1t & _); [lia|lia|].
  rewrite c_assert_true by (apply Nat.ltb_lt; lia). rewrite lookup_insert_eq. cbn [keys pointers].
  destruct (copy_cells_take PNull tp sp (order - sp) (replicate order PNull))
    as (rp1 & -> & Hrp1 & Hrp1t & _); [rewrite length_replicate; lia|lia|].
  destruct (copy_cells_take junk_key tk sp (order - sp) (replicate (order - 1) junk_key))
    as (rk1 & -> & Hrk1 & Hrk1t & _); [rewrite length_replicate; lia|lia|].
  rewrite length_replicate in Hrp1. rewrite length_replicate in Hrk1.
  destruct (copy_cells_past PNull (replicate order PNull) sp sp (order - 1 - sp) lp1 sp)
    as (lp2 & -> & Hlp2 & Hlp2t); [lia|lia|].
  destruct (copy_cells_past PNull (replicate order PNull) (order - sp) (order - sp)
    (order - 1 - (order - sp)) rp1 (order - sp)) as (rp2 & -> & Hrp2 & Hrp2t); [lia|lia|].
  eexists _, _, _, _. split; [done|]. cbn [nodes fresh_node roots set_node set_nodes]. split.
  { rewrite (insert_insert_ne _ leaf) by done. by rewrite insert_insert_eq. }
  do 2 (split; [done|]). rewrite drop_0 in Hlp1t. rewrite drop_0 in Hlk1t. split; [|split].
  - constructor; cbn; try done; try lia. unfold nptrs. cbn. rewrite Hleaf. congruence.
  - constructor; cbn; try done; try lia.
    + unfold nkeys. cbn. rewrite Hrk1t. apply take_ge. rewrite length_drop. lia.
    + unfold nptrs. cbn. rewrite Hrp2t, Hrp1t. apply take_ge. rewrite length_drop. lia.
  - rewrite <- (Nat.add_0_r sp), <- lookup_drop, <- (lookup_take_lt _ (order - sp)), <- Hrk1t by lia.
    rewrite lookup_take_lt by lia. apply lookup_rd. lia.
Qed.

(** The children of the new node get it as their parent. *)
Lemma adopt_spec new ps s :
  (forall p, p ∈ ps -> exists c, p = PNode c /\ is_Some (nodes s !! c)) ->
  exists s', adopt new ps s = Some s' /\ fresh_node s' = fresh_node s /\ roots s' = roots s /\
    forall x, nodes s' !! x =
      if decide (PNode x ∈ ps) then set_parent (Some new) <$> nodes s !! x else nodes s !! x.
Proof using.
  revert s. induction ps as [|p ps IH]; intros s Hps; cbn [adopt].
  - exists s. do 3 (split; [done|]). intros x. rewrite decide_False; [done|]. apply not_elem_of_nil.
  - destruct (Hps p) as (c & -> & [cd Hc]); [by left|]. cbn [node_of]. rewrite Hc.
    set (s1 := set_node c _ s).
    assert (forall x, nodes s1 !! x =
      if decide (x = c) then Some (set_parent (Some new) cd) else nodes s !! x) as Hs1.
    { intros x. unfold s1. simpl. destruct (decide (x = c)) as [->|]; [by rewrite lookup_insert_eq|].
      by rewrite lookup_insert_ne. }
    destruct (IH s1) as (s' & -> & Hf & Hr & Hx).
    { intros q Hq. destruct (Hps q) as (c' & -> & Hc'); [by right|]. exists c'. split; [done|].
      rewrite Hs1. case_decide; [by eexists|done]. }
    exists s'. do 3 (split; [done|]). intros x. rewrite Hx, Hs1.
    destruct (decide (x = c)) as [->|Hne].
    + rewrite Hc. rewrite (decide_True (P := PNode c ∈ PNode c :: ps)) by by left.
      by case_decide.
    + destruct (decide (PNode x ∈ ps)) as [Hin|Hin].
      * by rewrite decide_True by by right.
      * rewrite decide_False; [done|]. intros [[=]|?]%elem_of_cons; done.
Qed.

Lemma split_nl_eq s n od li key right :
  nodes s !! n = Some od -> n <> fresh_node s ->
  length (keys od) = (order - 1)%nat -> length (pointers od) = order ->
  num_keys od = (order - 1)%nat -> is_leaf od = false -> (li <= order - 1)%nat ->
  let tk := insert_at li key (nkeys od) in
  let tp := insert_at (S li) (PNode right) (nptrs od) in
  let sp := cut order in
  (forall p, p ∈ drop sp tp -> exists c, p = PNode c /\ c <> n /\ c <> fresh_node s /\
     is_Some (nodes s !! c)) ->
  exists lnd rnd k s', split_nl order junk_key n li key right s = Some (k, fresh_node s, s') /\
    fresh_node s' = S (fresh_node s) /\ roots s' = roots s /\
    half lnd false (take (sp - 1) tk) (take sp tp) (parent od) (Some (fresh_node s)) /\
    half rnd false (drop sp tk) (drop sp tp) (parent od) (bt_next od) /\
    tk !! (sp - 1)%nat = Some k /\
    nodes s' !! fresh_node s = Some rnd /\ nodes s' !! n = Some lnd /\
    forall x, x <> fresh_node s -> x <> n -> nodes s' !! x =
      if decide (PNode x ∈ drop sp tp) then set_parent (Some (fresh_node s)) <$> nodes s !! x
      else nodes s !! x.
Proof using Horder.
  intros Hm Hne Hlk Hlp Hnum Hleaf Hli tk tp sp Hch.
  destruct (cut_bounds order ltac:(lia)) as [Hsp Hsp2]. fold sp in Hsp, Hsp2. specialize (Hsp2 Horder).
  assert (nptrs od = take order (pointers od)) as Hnp.
  { unfold nptrs. rewrite Hleaf, Hnum. f_equal. lia. }
  assert (nkeys od = take (order - 1) (keys od)) as Hnk by (unfold nkeys; by rewrite Hnum).
  assert (length tk = order) as Htkl.
  { unfold tk. rewrite length_insert_at, Hnk, length_take. lia. }
  assert (length tp = S order) as Htpl.
  { unfold tp. rewrite length_insert_at, Hnp, length_take. lia. }
  unfold split_nl. cbn [make_node nodes set_node set_nodes fst snd].
  rewrite lookup_insert_ne, Hm by done. rewrite Hnum. replace (S (order - 1)) with order by lia.
  destruct (spread_insert PNull (S li) (pointers od) order (replicate (S order) PNull) (PNode right))
    as (p1 & cp & -> & Hp2 & Hcpl & Hcp); [lia|lia|rewrite length_replicate; lia|].
  destruct (spread_insert junk_key li (keys od) (order - 1) (replicate order junk_key) key)
    as (k1 & ck & -> & Hk2 & Hckl & Hck); [lia|lia|rewrite length_replicate; lia|].
  rewrite length_replicate in Hckl. rewrite length_replicate in Hcpl.
  replace (S (order - 1)) with order in Hck by lia.
  rewrite take_ge in Hck by lia. rewrite take_ge in Hcp by lia. rewrite <- Hnk in Hck. rewrite <- Hnp in Hcp.
  fold tk in Hck. fold tp in Hcp. subst ck cp. rewrite Hp2, Hk2. fold sp.
  destruct (copy_cells_take PNull tp 0 (sp - 1) (pointers od)) as (lp1 & -> & Hlp1 & Hlp1t & _); [lia|lia|].
  destruct (copy_cells_take junk_key tk 0 (sp - 1) (keys od)) as (lk1 & -> & Hlk1 & Hlk1t & _); [lia|lia|].
  rewrite drop_0 in Hlp1t. rewrite drop_0 in Hlk1t.
  rewrite c_assert_true by (apply Nat.ltb_lt; lia). rewrite lookup_insert_eq. cbn [keys pointers].
  rewrite wr_spec by lia.
  destruct (copy_cells_take PNull tp sp (order - sp) (replicate order PNull))
    as (rp1 & -> & Hrp1 & Hrp1t & _); [rewrite length_replicate; lia|lia|].
  destruct (copy_cells_take junk_key tk sp (order - sp) (replicate (order - 1) junk_key))
    as (rk1 & -> & Hrk1 & Hrk1t & _); [rewrite length_replicate; lia|lia|].
  rewrite length_replicate in Hrp1. rewrite length_replicate in Hrk1.
  rewrite wr_spec by lia.
  set (lnd := set_next _ (set_arrays lk1 _ _ od)). set (rnd := set_parent _ _).
  assert (nptrs rnd = drop sp tp) as Hrnp.
  { unfold nptrs. cbn [is_leaf rnd set_parent set_next set_arrays num_keys pointers].
    rewrite (take_S_r _ _ (rd PNull tp order)).
    - rewrite take_insert_ge, Hrp1t by lia.
      transitivity (take (S (order - sp)) (drop sp tp)); [|apply take_ge; rewrite length_drop; lia].
      symmetry. apply take_S_r. rewrite lookup_drop. replace (sp + (order - sp))%nat with order by lia.
      apply lookup_rd. lia.
    - apply list_lookup_insert_eq. lia. }
  change (take (S (num_keys rnd)) (pointers rnd)) with (nptrs rnd). rewrite Hrnp.
  match goal with |- context [adopt _ _ ?st] =>
    destruct (adopt_spec (fresh_node s) (drop sp tp) st) as (s' & -> & Hf & Hr & Hx) end.
  { intros p Hp. destruct (Hch p Hp) as (c & -> & Hc1 & Hc2 & Hc3). exists c. split; [done|].
    cbn [nodes set_node set_nodes]. by rewrite !lookup_insert_ne. }
  cbn [nodes set_node set_nodes fresh_node roots] in Hx, Hf, Hr.
  exists lnd, rnd, (rd junk_key tk (sp - 1)), s'. split; [done|]. do 2 (split; [done|]).
  split_and!.
  - constructor; cbn; try done; try lia.
    + rewrite length_insert. lia.
    + unfold nptrs. cbn. rewrite Hleaf.
      rewrite (take_S_r _ _ (rd PNull tp (sp - 1))) by (apply list_lookup_insert_eq; lia).
      rewrite take_insert_ge, Hlp1t by lia. replace sp with (S (sp - 1)) at 3 by lia.
      symmetry. apply take_S_r. apply lookup_rd. lia.
  - constructor; cbn; try done; try lia.
    + rewrite length_insert. lia.
    + unfold nkeys. cbn. rewrite Hrk1t. apply take_ge. rewrite length_drop. lia.
  - apply lookup_rd. lia.
  - rewrite Hx, lookup_insert_eq. rewrite decide_False; [done|].
    intros Hin. by destruct (Hch _ Hin) as (c & [= <-] & _ & ? & _).
  - rewrite Hx, lookup_insert_ne, lookup_insert_eq by done. rewrite decide_False; [done|].
    intros Hin. by destruct (Hch _ Hin) as (c & [= <-] & ? & _).
  - intros x Hx1 Hx2. by rewrite Hx, !lookup_insert_ne by done.
Qed.
End splits.
