(* ===== verification/BTreeInsert.v ===== *)
(** * The B+-tree index: insertion

    The split of a node and the insertion into the parent keep the invariant and
    the pairs of the tree; [index_insert] succeeds exactly when it does not have
    to shift the keys of an inner node from index 0. *)

From S2P Require Import Prelude Global Arrays BTree BTreeInv BTreeSplit.

#[local] Opaque MAX_DEPTH.

(** ** The loop with the 32-bit counter *)

Section shift_down.
Context {A : Type} (junk : A).
Implicit Types (l : list A).

Lemma read_at_spec l i :
  0 <= i < Z.of_nat (length l) -> read_at l i = Some (rd junk l (Z.to_nat i)).
Proof using.
  intros Hi. unfold read_at. rewrite (proj2 (Z.ltb_lt _ _)) by lia. apply lookup_rd. lia.
Qed.

Lemma shift_down_to_spec l o ip n fuel :
  (1 <= ip <= n)%nat -> (n + o < length l)%nat -> Z.of_nat (length l) < 2 ^ 32 -> (n < fuel)%nat ->
  shift_down_to fuel l (Z.of_nat o) (Z.of_nat ip) (u32 (Z.of_nat n - 1)) =
    shift_up junk l (ip + o) (n + o).
Proof using.
  intros Hip Hn Hlen Hf. revert n l Hip Hn Hlen Hf. induction fuel as [|fuel IH]; intros n l Hip Hn Hlen Hf; [lia|].
  destruct n as [|n]; [lia|]. cbn [shift_down_to]. rewrite u32_small by (unfold is_u32; lia).
  replace (Z.of_nat (S n) - 1) with (Z.of_nat n) by lia.
  rewrite !u32_small by (unfold is_u32; lia).
  destruct (Z.leb_spec (Z.of_nat ip) (Z.of_nat n)) as [Hle|Hgt]; cbn [shift_up Nat.add].
  - rewrite !read_at_spec by lia. destruct (Nat.ltb_spec (ip + o) (S (n + o))); [|lia].
    replace (Z.to_nat (Z.of_nat n + Z.of_nat o)) with (n + o)%nat by lia.
    replace (Z.to_nat (Z.of_nat n + Z.of_nat o + 1)) with (S (n + o)) by lia.
    rewrite wr_spec by lia.
    apply IH; rewrite ?length_insert; lia.
  - destruct (Nat.ltb_spec (ip + o) (S (n + o))); [lia|done].
Qed.

(** From index 0 the counter wraps around and the loop leaves the array. *)
Lemma shift_down_zero l fuel i :
  Z.of_nat (length l) < 2 ^ 32 - 1 -> 0 <= i < Z.of_nat (length l) ->
  shift_down_to fuel l 0 0 i = None.
Proof using junk.
  revert i l. induction fuel as [|fuel IH]; intros i l Hlen Hi; [done|]. cbn [shift_down_to].
  rewrite (proj2 (Z.leb_le 0 i)), Z.add_0_r, u32_small by (unfold is_u32; lia).
  rewrite read_at_spec by lia. destruct (read_at l (u32 (i + 1))); [|done].
  destruct (wr l _ _) as [l'|] eqn:Hw; [|done]. apply wr_inv in Hw as [_ ->].
  destruct (decide (i = 0)) as [->|Hne].
  - change (u32 (0 - 1)) with (2 ^ 32 - 1). destruct fuel as [|fuel]; [done|]. cbn [shift_down_to].
    rewrite (proj2 (Z.leb_le 0 (2 ^ 32 - 1))) by lia.
    unfold read_at at 1. rewrite length_insert, Z.add_0_r, u32_small by (unfold is_u32; lia).
    by rewrite (proj2 (Z.ltb_ge _ _)) by lia.
  - rewrite (u32_small (i - 1)) by (unfold is_u32; lia). apply IH; rewrite length_insert; lia.
Qed.
End shift_down.

Section insertion.
Context (order : nat) (junk_key : Z).
Hypothesis Horder : (3 <= order)%nat.
Notation node_ok := (node_ok order).
Notation tree_inv := (tree_inv order).

(** ** The split of a node *)

Section split_inv.
Context (pend : option (nat * Z * nat)) (m : gmap nat bt_node) (g : ghost) (root H : nat).
Context (n : nat) (nd : bt_node) (a b kk : Z) (h new : nat) (m' : gmap nat bt_node).
Context (lnd rnd : bt_node).
Notation g' := (<[new := (kk, b, h)]> (<[n := (a, kk, h)]> g)).
Hypothesis Hinv : tree_inv pend m g root H.
Hypothesis Hg : g !! n = Some (a, b, h).
Hypothesis Hm : m !! n = Some nd.
Hypothesis Hkk : a < kk < b.
Hypothesis Hnew : g !! new = None.
Hypothesis Hpend : forall l k r, pend = Some (l, k, r) ->
  parent_of m l = Some (Some n) /\ parent_of m r = Some (Some n).
Hypothesis Hml : m' !! n = Some lnd.
Hypothesis Hmr : m' !! new = Some rnd.
Hypothesis Hpl : parent lnd = parent nd.
Hypothesis Hpr : parent rnd = parent nd.
Hypothesis Hm' : forall x xd, x <> n -> is_Some (g !! x) -> m !! x = Some xd ->
  exists xd', m' !! x = Some xd' /\
    (xd' = xd \/ (xd' = set_parent (Some new) xd /\ parent xd = Some n)).
Hypothesis Hokl : node_ok None g' (parent_of m') n a kk h lnd.
Hypothesis Hokr : node_ok None g' (parent_of m') new kk b h rnd.
Hypothesis Hkids : forall y, is_Some (g !! y) -> y <> root -> parent_of m y = Some (Some n) ->
  linked m' g' y.

Lemma split_n_new : n <> new.
Proof using Hg Hnew. intros Heq. rewrite <- Heq, Hg in Hnew. discriminate. Qed.

Lemma split_ghost_old x : x <> n -> is_Some (g !! x) -> g' !! x = g !! x.
Proof using Hnew.
  intros Hx [y Hy]. rewrite lookup_insert_ne; [apply lookup_insert_ne; congruence|]. intros Heq.
  rewrite <- Heq, Hnew in Hy. discriminate.
Qed.

Lemma split_ghost_n : g' !! n = Some (a, kk, h).
Proof using Hg Hnew. rewrite lookup_insert_ne, lookup_insert_eq; [done|]. apply not_eq_sym, split_n_new. Qed.

Lemma split_parent_old x p :
  x <> n -> is_Some (g !! x) -> parent_of m x = Some p -> p <> Some n -> parent_of m' x = Some p.
Proof using Hm'.
  intros Hx Hgx (xd & Hmx & <-)%parent_of_Some Hp.
  destruct (Hm' x xd Hx Hgx Hmx) as (xd' & Hmx' & [->|[-> ?]]); [|done]. unfold parent_of. by rewrite Hmx'.
Qed.

Lemma split_span p c x y h' :
  p <> Some n -> span pend g (parent_of m) p c x y h' ->
  span (Some (n, kk, new)) g' (parent_of m') p c x y h'.
Proof using Hinv Hg Hkk Hm Hm' Hml Hmr Hnew Hpend Hpl Hpr.
  intros Hp Hs.
  assert (g !! c = Some (x, y, h') /\ parent_of m c = Some p) as [Hgc Hpc].
  { unfold span in Hs. destruct pend as [[[l k] r]|]; [|done].
    destruct (Nat.eqb_spec c l) as [->|]; [|done].
    destruct (Hpend l k r eq_refl) as [Hl _]. destruct Hs as (_ & _ & _ & Hl' & _). congruence. }
  unfold span. destruct (Nat.eqb_spec c n) as [->|Hne].
  - rewrite split_ghost_n, lookup_insert_eq. simplify_eq. unfold parent_of in Hpc |- *.
    rewrite Hm in Hpc. rewrite Hml, Hmr. simpl in *. rewrite Hpl, Hpr. split; [done|]. by split_and!.
  - rewrite split_ghost_old by eauto. split; [done|]. apply split_parent_old; eauto.
Qed.

Lemma split_node_ok x lo hi h' xd :
  x <> n -> node_ok pend g (parent_of m) x lo hi h' xd ->
  node_ok (Some (n, kk, new)) g' (parent_of m') x lo hi h' xd.
Proof using Hinv Hg Hkk Hm Hm' Hml Hmr Hnew Hpend Hpl Hpr.
  intros Hx. apply node_ok_impl.
  - intros c u v h'' _ _. apply split_span. congruence.
  - intros l u _ _ Hl. destruct (decide (l = n)) as [->|Hne].
    + rewrite Hg in Hl. injection Hl as Ha _ Hh. exists kk. rewrite split_ghost_n. congruence.
    + rewrite split_ghost_old by eauto. eauto.
Qed.

Lemma half_node_ok x lo hi xd :
  node_ok None g' (parent_of m') x lo hi h xd ->
  node_ok (Some (n, kk, new)) g' (parent_of m') x lo hi h xd.
Proof using Horder Hg Hnew.
  apply node_ok_impl; [|eauto]. intros c u v h' Hh _ [Hc Hpc]. unfold span.
  destruct (Nat.eqb_spec c n) as [->|]; [|done]. rewrite split_ghost_n in Hc.
  injection Hc as _ _ Heq. lia.
Qed.

Lemma node_ok_parent x lo hi h' xd p :
  node_ok (Some (n, kk, new)) g' (parent_of m') x lo hi h' xd ->
  node_ok (Some (n, kk, new)) g' (parent_of m') x lo hi h' (set_parent p xd).
Proof using. intros Hok. constructor; apply Hok. Qed.

Lemma split_inv : tree_inv (Some (n, kk, new)) m' g' root H.
Proof using All.
  pose proof split_n_new as Hnn.
  constructor.
  - intros x lo hi h' Hx. destruct (decide (x = new)) as [->|Hxn].
    { rewrite lookup_insert_eq in Hx. injection Hx as <- <- <-. split; [apply (ti_node _ _ _ _ _ _ Hinv n _ _ _ Hg)|].
      exists rnd. split; [done|]. by apply half_node_ok. }
    destruct (decide (x = n)) as [->|Hx'].
    { rewrite split_ghost_n in Hx. injection Hx as <- <- <-. split; [apply (ti_node _ _ _ _ _ _ Hinv n _ _ _ Hg)|].
      exists lnd. split; [done|]. by apply half_node_ok. }
    rewrite !lookup_insert_ne in Hx by done.
    destruct (ti_node _ _ _ _ _ _ Hinv x _ _ _ Hx) as (Hh & xd & Hmx & Hok). split; [done|].
    destruct (Hm' x xd Hx' ltac:(eauto) Hmx) as (xd' & Hmx' & Heq). exists xd'. split; [done|].
    apply split_node_ok in Hok; [|done]. destruct Heq as [->|[-> _]]; [done|]. by apply node_ok_parent.
  - apply split_span; [done|]. apply Hinv.
  - intros y Hy Hyr Hyn. specialize (Hyn n kk new eq_refl).
    assert (is_Some (g !! y)) as Hgy.
    { destruct (decide (y = n)) as [->|Hn']; [eauto|]. by rewrite !lookup_insert_ne in Hy by done. }
    destruct (decide (parent_of m y = Some (Some n))) as [Hpy|Hpy]; [by apply Hkids|].
    destruct (ti_linked _ _ _ _ _ _ Hinv y Hgy Hyr) as (p & pd & i & lo & hi & h' & H1 & H2 & H3 & H4).
    { intros l k r Hp ->. apply Hpy. eapply Hpend, Hp. }
    assert (p <> n) as Hpn by congruence.
    destruct (Hm' p pd Hpn ltac:(eauto) H2) as (pd' & Hpd' & Heq).
    exists p, pd', i, lo, hi, h'. split_and!.
    + destruct (decide (y = n)) as [->|Hy']; [|apply split_parent_old; [done|done|done|congruence]].
      unfold parent_of in H1 |- *. rewrite Hm in H1. rewrite Hml. simpl in *. congruence.
    + done.
    + by rewrite split_ghost_old by eauto.
    + by destruct Heq as [->|[-> _]].
Qed.
End split_inv.


(** ** The pending pair and its parent *)

Section pending.
Context (m : gmap nat bt_node) (g : ghost) (root H l r : nat) (k : Z).
Hypothesis Hinv : tree_inv (Some (l, k, r)) m g root H.

(** What the invariant says of the pair when it has the parent [p]. *)
Record pending_parent (p : nat) (pd : bt_node) (j : nat) (lo hi : Z) (h : nat) : Prop := {
  pp_node : m !! p = Some pd;
  pp_ghost : g !! p = Some (lo, hi, S h);
  pp_child : nptrs pd !! j = Some (PNode l);
  pp_ok : node_ok (Some (l, k, r)) g (parent_of m) p lo hi (S h) pd;
  pp_kids : kids (Some (l, k, r)) g (parent_of m) p h (lo :: nkeys pd ++ [hi]) (nptrs pd);
  pp_num : (1 <= num_keys pd <= order - 1)%nat;
  pp_left : exists a, g !! l = Some (a, k, h) /\ parent_of m l = Some (Some p);
  pp_right : exists b, g !! r = Some (k, b, h) /\ parent_of m r = Some (Some p) }.

Lemma root_not_pending p : parent_of m l = Some (Some p) -> l <> root.
Proof using Hinv.
  intros Hp ->. pose proof (ti_root _ _ _ _ _ _ Hinv) as Hr. unfold span in Hr.
  rewrite Nat.eqb_refl in Hr. destruct Hr as (_ & _ & _ & Hpr & _). congruence.
Qed.

Lemma pending_parent_of p a h :
  l <> r -> g !! l = Some (a, k, h) -> parent_of m l = Some (Some p) ->
  exists pd j lo hi, pending_parent p pd j lo hi h.
Proof using Hinv.
  intros Hlr Hg Hp.
  destruct (ti_linked _ _ _ _ _ _ Hinv l) as (p' & pd & j & lo & hi & h' & H1 & H2 & H3 & H4).
  { eauto. } { by eapply root_not_pending. } { intros ? ? ? [= <- <- <-]. done. }
  simplify_eq. destruct (ti_node _ _ _ _ _ _ Hinv _ _ _ _ H3) as (_ & pd' & Hm & Hok). simplify_eq.
  destruct (no_kids _ _ _ _ _ _ _ _ _ Hok h' eq_refl) as (Hone & Hk).
  destruct (kids_lookup _ _ _ _ _ _ _ _ _ Hk H4) as (a' & b' & c & _ & _ & [= <-] & Hs).
  unfold span in Hs. rewrite Nat.eqb_refl in Hs. destruct Hs as (_ & Hgl & Hgr & Hpl & Hpr). simplify_eq.
  eexists _, j, lo, hi. constructor; try done.
  - split; [done|]. apply Hok.
  - eauto.
  - eauto.
Qed.

(** The other nodes do not see the pair. *)
Lemma node_ok_unpend p x lo hi h xd :
  parent_of m l = Some (Some p) -> x <> p ->
  node_ok (Some (l, k, r)) g (parent_of m) x lo hi h xd -> node_ok None g (parent_of m) x lo hi h xd.
Proof using.
  intros Hp Hx. apply node_ok_impl; [|eauto]. intros c a b h' _ _ Hs. unfold span in Hs.
  destruct (Nat.eqb_spec c l) as [->|]; [|done]. destruct Hs as (_ & _ & _ & Hpl & _). congruence.
Qed.

(** [p] has room: it gets the new key and the right node. *)
Lemma join_inv p pd j lo hi h pd' :
  pending_parent p pd j lo hi h ->
  length (keys pd') = (order - 1)%nat -> length (pointers pd') = order ->
  (num_keys pd' <= order - 1)%nat -> (1 <= num_keys pd')%nat ->
  parent pd' = parent pd -> is_leaf pd' = is_leaf pd ->
  nkeys pd' = insert_at j k (nkeys pd) -> nptrs pd' = insert_at (S j) (PNode r) (nptrs pd) ->
  tree_inv None (<[p := pd']> m) g root H.
Proof using Horder Hinv.
  intros Hpp Hlk Hlp Hn1 Hn2 Hpar Hleaf Hnk Hnp.
  pose proof (pp_node _ _ _ _ _ _ Hpp) as Hm. pose proof (pp_ok _ _ _ _ _ _ Hpp) as Hok.
  destruct (pp_left _ _ _ _ _ _ Hpp) as (a & Hgl & Hpl).
  destruct (pp_right _ _ _ _ _ _ Hpp) as (b & Hgr & Hpr).
  pose proof (pp_child _ _ _ _ _ _ Hpp) as Hj.
  assert (forall y, parent_of (<[p := pd']> m) y = parent_of m y) as Hpo.
  { intros y. by apply (parent_of_update m p pd). }
  constructor.
  - intros x lo' hi' h' Hx. destruct (ti_node _ _ _ _ _ _ Hinv x _ _ _ Hx) as (Hh & xd & Hmx & Hokx).
    split; [done|]. destruct (decide (x = p)) as [->|Hne].
    + exists pd'. rewrite lookup_insert_eq. split; [done|].
      rewrite (pp_ghost _ _ _ _ _ _ Hpp) in Hx. injection Hx as <- <- <-.
      constructor; [done|done|done|apply Hok|rewrite Hleaf; apply Hok|done|done|].
      intros h'' [= <-]. split; [done|]. rewrite Hnk, Hnp.
      rewrite <- insert_at_bounds.
      * eapply kids_impl; [|eapply kids_insert; [exact (pp_kids _ _ _ _ _ _ Hpp)|done]].
        intros c u v _. by apply span_par.
      * apply lookup_lt_Some in Hj.
        destruct (pp_kids _ _ _ _ _ _ Hpp) as (Hlen & _). simpl in Hlen. rewrite length_app in Hlen.
        simpl in Hlen. lia.
    + exists xd. rewrite lookup_insert_ne by done. split; [done|].
      apply (node_ok_unpend p) in Hokx; [|done|done].
      eapply node_ok_impl; [..|exact Hokx]; [|eauto]. intros c u v h'' _ _. by apply span_par.
  - pose proof (ti_root _ _ _ _ _ _ Hinv) as Hr. apply (span_par _ _ (parent_of m)); [done|].
    unfold span in Hr. destruct (Nat.eqb_spec root l) as [->|]; [|done].
    destruct Hr as (_ & _ & _ & Hr & _). congruence.
  - intros y Hy Hyr _. destruct (decide (y = r)) as [->|Hne].
    + exists p, pd', (S j), lo, hi, h. rewrite Hpo, lookup_insert_eq. split_and!; [done|done|apply Hpp|].
      rewrite Hnp, lookup_insert_at by (apply lookup_lt_Some in Hj; lia).
      by rewrite Nat.ltb_irrefl, Nat.eqb_refl.
    + destruct (ti_linked _ _ _ _ _ _ Hinv y Hy Hyr) as (q & qd & i & lo' & hi' & h' & H1 & H2 & H3 & H4).
      { by intros ? ? ? [= <- <- <-]. }
      destruct (decide (q = p)) as [->|Hq].
      * rewrite Hm in H2. injection H2 as <-.
        assert (PNode y ∈ nptrs pd') as [i' Hi']%list_elem_of_lookup_1.
        { rewrite Hnp. apply elem_of_insert_at. right. by eapply list_elem_of_lookup_2. }
        exists p, pd', i', lo', hi', h'. rewrite Hpo, lookup_insert_eq. done.
      * exists q, qd, i, lo', hi', h'. rewrite Hpo, lookup_insert_ne by done. done.
Qed.

(** A full [p] is split: the pointers after the insertion, before the cut. *)
Lemma full_kids p pd j lo hi h :
  pending_parent p pd j lo hi h ->
  kids None g (parent_of m) p h (lo :: insert_at j k (nkeys pd) ++ [hi])
    (insert_at (S j) (PNode r) (nptrs pd)).
Proof using Horder.
  intros Hpp. pose proof (pp_kids _ _ _ _ _ _ Hpp) as Hk. pose proof (pp_child _ _ _ _ _ _ Hpp) as Hj.
  rewrite <- insert_at_bounds; [by eapply kids_insert|].
  apply lookup_lt_Some in Hj. destruct Hk as (Hlen & _). simpl in Hlen. rewrite length_app in Hlen.
  simpl in Hlen. lia.
Qed.

(** A child stands at one place. *)
Lemma kids_index_inj g0 par n h bs ps i i' c :
  kids None g0 par n h bs ps -> ps !! i = Some (PNode c) -> ps !! i' = Some (PNode c) -> i = i'.
Proof using.
  intros Hk Hi Hi'. destruct (kids_lookup _ _ _ _ _ _ _ _ _ Hk Hi) as (a & b & c1 & Ha & _ & [= <-] & Hg1 & _).
  destruct (kids_lookup _ _ _ _ _ _ _ _ _ Hk Hi') as (a' & b' & c1 & Ha' & _ & [= <-] & Hg2 & _).
  simplify_eq. destruct Hk as (_ & Hs & _). by eapply sorted_lookup_inj.
Qed.

Lemma kids_elem g0 par n h bs ps p :
  kids None g0 par n h bs ps -> p ∈ ps ->
  exists c a b, p = PNode c /\ g0 !! c = Some (a, b, h) /\ par c = Some (Some n).
Proof using.
  intros Hk [i Hi]%list_elem_of_lookup_1.
  destruct (kids_lookup _ _ _ _ _ _ _ _ _ Hk Hi) as (a & b & c & _ & _ & -> & Hc). exists c, a, b. by split.
Qed.
End pending.

(** The pairs of the tree depend on the cells of the leaves only. *)
Lemma holds_same m g m' g' :
  (forall n a b, g' !! n = Some (a, b, 0%nat) <-> g !! n = Some (a, b, 0%nat)) ->
  (forall n a b, g !! n = Some (a, b, 0%nat) ->
     exists nd nd', m !! n = Some nd /\ m' !! n = Some nd' /\ nkeys nd' = nkeys nd /\ nptrs nd' = nptrs nd) ->
  forall k it, holds m' g' k it <-> holds m g k it.
Proof using.
  intros Hg Hm k it. split; intros (n & a & b & nd & i & Hn & Hmn & Hi & Hp).
  - apply Hg in Hn. destruct (Hm n a b Hn) as (xd & xd' & H1 & H2 & H3 & H4). simplify_eq.
    exists n, a, b, xd, i. by rewrite <- H3, <- H4.
  - destruct (Hm n a b Hn) as (xd & xd' & H1 & H2 & H3 & H4). simplify_eq.
    exists n, a, b, xd', i. apply Hg in Hn. by rewrite H3, H4.
Qed.

(** ** One step up the tree *)

Section split_step.
Context (s : index_btree) (g : ghost) (root H l r : nat) (k : Z).
Context (p : nat) (pd : bt_node) (j : nat) (lo hi : Z) (h : nat).
Notation m := (nodes s).
Hypothesis Hinv : tree_inv (Some (l, k, r)) m g root H.
Hypothesis Hpp : pending_parent m g l r k p pd j lo hi h.
Hypothesis Hfull : num_keys pd = (order - 1)%nat.
Hypothesis Hfresh : g !! fresh_node s = None.
Notation tk := (insert_at j k (nkeys pd)).
Notation tp := (insert_at (S j) (PNode r) (nptrs pd)).
Notation sp := (cut order).
Notation new := (fresh_node s).

Lemma full_lengths :
  (2 <= sp <= order - 1)%nat /\ length tk = order /\ length tp = S order /\ (j <= order - 1)%nat /\
  p <> new.
Proof using Horder Hpp Hfull Hfresh.
  pose proof (pp_ok _ _ _ _ _ _ _ _ _ _ _ Hpp) as Hok.
  destruct (cut_bounds order ltac:(lia)) as [? Hc]. specialize (Hc Horder).
  pose proof (no_keys _ _ _ _ _ _ _ _ _ Hok). pose proof (no_ptrs _ _ _ _ _ _ _ _ _ Hok).
  pose proof (no_leaf _ _ _ _ _ _ _ _ _ Hok) as Hleaf.
  pose proof (pp_child _ _ _ _ _ _ _ _ _ _ _ Hpp) as Hj. apply lookup_lt_Some in Hj.
  assert (length (nptrs pd) = order) as Hnp.
  { simpl in Hleaf. unfold nptrs. rewrite Hleaf, length_take. lia. }
  rewrite !length_insert_at. unfold nkeys. rewrite length_take.
  split_and!; try lia. intros Heq. pose proof (pp_ghost _ _ _ _ _ _ _ _ _ _ _ Hpp). congruence.
Qed.

Lemma full_sorted : StronglySorted Z.lt (lo :: tk ++ [hi]) /\
  forall kk, tk !! (sp - 1)%nat = Some kk -> lo < kk < hi /\
    take (S sp) (lo :: tk ++ [hi]) = lo :: take (sp - 1) tk ++ [kk] /\
    drop sp (lo :: tk ++ [hi]) = kk :: drop sp tk ++ [hi].
Proof using Horder Hpp Hfull Hfresh.
  destruct full_lengths as (Hsp & Htk & _). destruct (full_kids _ _ _ _ _ _ _ _ _ _ _ Hpp) as (_ & Hs & _).
  split; [done|]. intros kk Hkk.
  assert ((lo :: tk ++ [hi]) !! sp = Some kk) as Hk1.
  { replace sp with (S (sp - 1)) by lia. simpl. rewrite lookup_app_l by lia. done. }
  split_and!.
  - by apply (sorted_lookup _ 0 sp _ _ Hs eq_refl Hk1); lia.
  - eapply (sorted_lookup _ sp (S order) _ _ Hs Hk1); [|lia].
    simpl. rewrite lookup_app_r by lia. by rewrite Htk, Nat.sub_diag.
  - cbn [take]. f_equal. rewrite take_app_le by lia.
    replace sp with (S (sp - 1)) at 1 by lia. by apply take_S_r.
  - replace sp with (S (sp - 1)) at 1 by lia. cbn [drop]. rewrite drop_app_le by lia.
    rewrite (drop_S _ kk) by done. by replace (S (sp - 1)) with sp by lia.
Qed.

(** The nodes after the split, and what [split_inv] asks of them. *)
Section halves.
Context (kk : Z) (m' : gmap nat bt_node) (lnd rnd : bt_node).
Hypothesis Hkk : tk !! (sp - 1)%nat = Some kk.
Hypothesis Hlnd : half order lnd false (take (sp - 1) tk) (take sp tp) (parent pd) (Some new).
Hypothesis Hrnd : half order rnd false (drop sp tk) (drop sp tp) (parent pd) (bt_next pd).
Hypothesis Hmr : m' !! new = Some rnd.
Hypothesis Hml : m' !! p = Some lnd.
Hypothesis Hm' : forall x, x <> new -> x <> p -> m' !! x =
  if decide (PNode x ∈ drop sp tp) then set_parent (Some new) <$> m !! x else m !! x.
Notation g' := (<[new := (kk, hi, S h)]> (<[p := (lo, kk, S h)]> g)).

Lemma half_child c :
  PNode c ∈ tp -> exists a b, g !! c = Some (a, b, h) /\ parent_of m c = Some (Some p) /\
    c <> p /\ c <> new /\ g' !! c = Some (a, b, h).
Proof using All.
  intros Hc. destruct (kids_elem _ _ _ _ _ _ _ (full_kids _ _ _ _ _ _ _ _ _ _ _ Hpp) Hc)
    as (c' & a & b & [= <-] & Hgc & Hpc).
  pose proof (pp_ghost _ _ _ _ _ _ _ _ _ _ _ Hpp) as Hgp.
  assert (c <> p) by (intros ->; rewrite Hgp in Hgc; injection Hgc; lia).
  assert (c <> new) by congruence.
  exists a, b. split_and!; [done..|]. by rewrite !lookup_insert_ne by done.
Qed.

Lemma half_parent c :
  PNode c ∈ tp ->
  parent_of m' c = Some (Some (if decide (PNode c ∈ drop sp tp) then new else p)).
Proof using All.
  intros Hc. destruct (half_child c Hc) as (a & b & _ & Hp & Hcp & Hcn & _).
  unfold parent_of in Hp |- *. rewrite (Hm' c Hcn Hcp).
  case_decide; [|done]. destruct (m !! c); [done|discriminate Hp].
Qed.

Lemma take_not_drop c : PNode c ∈ take sp tp -> PNode c ∉ drop sp tp.
Proof using All.
  intros [i Hi]%list_elem_of_lookup_1 [i' Hi']%list_elem_of_lookup_1.
  apply lookup_take_Some in Hi as [Hi Hlt]. rewrite lookup_drop in Hi'.
  pose proof (kids_index_inj _ _ _ _ _ _ _ _ _ (full_kids _ _ _ _ _ _ _ _ _ _ _ Hpp) Hi Hi'). lia.
Qed.

Lemma left_half_ok : node_ok None g' (parent_of m') p lo kk (S h) lnd.
Proof using All.
  destruct full_lengths as (Hsp & Htk & Htp & _). destruct full_sorted as (_ & Hs).
  destruct (Hs kk Hkk) as (Hlt & Htake & _).
  constructor; [apply Hlnd|apply Hlnd|apply Hlnd|lia|rewrite (hf_leaf _ _ _ _ _ _ _ Hlnd); done|done|done|].
  intros h' [= <-]. split; [apply Hlnd|].
  rewrite (hf_nkeys _ _ _ _ _ _ _ Hlnd), (hf_nptrs _ _ _ _ _ _ _ Hlnd), <- Htake.
  eapply kids_impl; [|apply kids_take; [eapply full_kids, Hpp|lia]].
  intros c a b Hc [Hgc Hpc].
  assert (PNode c ∈ tp) as Hctp by (rewrite <- (take_drop sp tp); apply elem_of_app; by left).
  destruct (half_child c Hctp) as (a' & b' & Hgc' & _ & _ & _ & Hg'). simplify_eq.
  split; [done|]. rewrite half_parent by done. rewrite decide_False; [done|]. by apply take_not_drop.
Qed.

Lemma right_half_ok : node_ok None g' (parent_of m') new kk hi (S h) rnd.
Proof using All.
  destruct full_lengths as (Hsp & Htk & Htp & _). destruct full_sorted as (_ & Hs).
  destruct (Hs kk Hkk) as (Hlt & _ & Hdrop).
  constructor; [apply Hrnd|apply Hrnd|apply Hrnd|lia|rewrite (hf_leaf _ _ _ _ _ _ _ Hrnd); done|done|done|].
  intros h' [= <-]. split; [apply Hrnd|].
  rewrite (hf_nkeys _ _ _ _ _ _ _ Hrnd), (hf_nptrs _ _ _ _ _ _ _ Hrnd), <- Hdrop.
  pose proof (kids_drop _ _ _ _ _ _ sp (full_kids _ _ _ _ _ _ _ _ _ _ _ Hpp) ltac:(lia)) as Hk.
  destruct Hk as (Hlen & Hsort & Hk). split_and!; [done|done|].
  intros i q a b Hq Ha Hb. destruct (Hk i q a b Hq Ha Hb) as (c & -> & Hgc & Hpc).
  exists c. split; [done|]. apply list_elem_of_lookup_2 in Hq.
  assert (PNode c ∈ tp) as Hctp by (rewrite <- (take_drop sp tp); apply elem_of_app; by right).
  destruct (half_child c Hctp) as (a' & b' & Hgc' & _ & _ & _ & Hg'). simplify_eq.
  split; [done|]. rewrite half_parent by done. by rewrite decide_True.
Qed.

Lemma halves_linked y :
  is_Some (g !! y) -> y <> root -> parent_of m y = Some (Some p) -> linked m' g' y.
Proof using All.
  intros Hy Hyr Hyp. pose proof full_lengths as (_ & _ & _ & _ & Hpn).
  assert (PNode y ∈ tp) as Hin.
  { apply elem_of_insert_at. destruct (decide (y = r)) as [->|Hne]; [by left|right].
    destruct (ti_linked _ _ _ _ _ _ Hinv y Hy Hyr) as (q & qd & i & lo' & hi' & h' & H1 & H2 & H3 & H4).
    { by intros ? ? ? [= <- <- <-]. }
    assert (q = p) as -> by congruence. rewrite (pp_node _ _ _ _ _ _ _ _ _ _ _ Hpp) in H2.
    injection H2 as <-. by eapply list_elem_of_lookup_2. }
  pose proof (half_parent y Hin) as Hpar.
  destruct (decide (PNode y ∈ drop sp tp)) as [Hd|Hd].
  - apply list_elem_of_lookup_1 in Hd as [i Hi].
    exists new, rnd, i, kk, hi, h. rewrite (hf_nptrs _ _ _ _ _ _ _ Hrnd).
    split_and!; [done|done|by rewrite lookup_insert_eq|done].
  - rewrite <- (take_drop sp tp) in Hin. apply elem_of_app in Hin as [Hin|?]; [|done].
    apply list_elem_of_lookup_1 in Hin as [i Hi].
    exists p, lnd, i, lo, kk, h. rewrite (hf_nptrs _ _ _ _ _ _ _ Hlnd).
    split_and!; [done|done| |done]. by rewrite lookup_insert_ne, lookup_insert_eq by done.
Qed.

Lemma halves_inv : tree_inv (Some (p, kk, new)) m' g' root H.
Proof using All.
  destruct full_sorted as (_ & Hs). destruct (Hs kk Hkk) as (Hlt & _).
  apply (split_inv (Some (l, k, r)) m g root H p pd lo hi kk (S h) new m' lnd rnd); try done.
  - apply Hpp.
  - apply Hpp.
  - intros ? ? ? [= <- <- <-].
    destruct (pp_left _ _ _ _ _ _ _ _ _ _ _ Hpp) as (? & _ & ?).
    by destruct (pp_right _ _ _ _ _ _ _ _ _ _ _ Hpp) as (? & _ & ?).
  - apply Hlnd.
  - apply Hrnd.
  - intros x xd Hx [y Hgx] Hmx. rewrite Hm', Hmx by congruence. case_decide as Hd; [|by eauto].
    eexists. split; [done|]. right. split; [done|].
    assert (PNode x ∈ tp) as Htp by (rewrite <- (take_drop sp tp); apply elem_of_app; by right).
    destruct (half_child x Htp) as (_ & _ & _ & Hp & _). unfold parent_of in Hp. rewrite Hmx in Hp.
    by injection Hp.
  - apply left_half_ok.
  - apply right_half_ok.
  - apply halves_linked.
Qed.
End halves.

Lemma split_step :
  exists kk s', split_nl order junk_key p j k r s = Some (kk, new, s') /\
    fresh_node s' = S new /\ roots s' = roots s /\ lo < kk < hi /\
    tree_inv (Some (p, kk, new)) (nodes s') (<[new := (kk, hi, S h)]> (<[p := (lo, kk, S h)]> g)) root H /\
    (forall x, x <> new -> x <> p -> g !! x = None \/ parent_of m x <> Some (Some p) ->
       nodes s' !! x = m !! x) /\
    parent_of (nodes s') p = parent_of m p /\
    (forall key it, holds (nodes s') (<[new := (kk, hi, S h)]> (<[p := (lo, kk, S h)]> g)) key it <->
                    holds m g key it).
Proof using Horder Hinv Hpp Hfull Hfresh.
  destruct full_lengths as (Hsp & Htk & Htp & Hj & Hpn). destruct full_sorted as (_ & Hs).
  pose proof (pp_ok _ _ _ _ _ _ _ _ _ _ _ Hpp) as Hok. pose proof (pp_node _ _ _ _ _ _ _ _ _ _ _ Hpp) as Hmp.
  pose proof (pp_ghost _ _ _ _ _ _ _ _ _ _ _ Hpp) as Hgp.
  destruct (split_nl_eq order junk_key Horder s p pd j k r)
    as (lnd & rnd & kk & s' & Hrun & Hf & Hr & Hl & Hrn & Hkk & Hmr & Hml & Hmx);
    [done|done|apply Hok|apply Hok|done|apply (no_leaf _ _ _ _ _ _ _ _ _ Hok)|done| |].
  { intros q Hq. assert (q ∈ tp) as Hqt by (rewrite <- (take_drop sp tp); apply elem_of_app; by right).
    destruct (kids_elem _ _ _ _ _ _ _ (full_kids _ _ _ _ _ _ _ _ _ _ _ Hpp) Hqt) as (c & a & b & -> & Hgc & Hpc).
    exists c. split_and!; [done| |congruence|].
    - intros ->. rewrite Hgp in Hgc. injection Hgc. lia.
    - unfold parent_of in Hpc. by destruct (m !! c). }
  exists kk, s'. do 3 (split; [done|]). destruct (Hs kk Hkk) as (Hlt & _). split; [done|].
  split; [by eapply halves_inv|]. split_and!.
  - intros x Hx Hxp Hpx. rewrite Hmx by done. case_decide as Hd; [|done]. exfalso.
    assert (PNode x ∈ tp) as Hxt by (rewrite <- (take_drop sp tp); apply elem_of_app; by right).
    destruct (kids_elem _ _ _ _ _ _ _ (full_kids _ _ _ _ _ _ _ _ _ _ _ Hpp) Hxt) as (c & a & b & [= <-] & Hgc & Hpc).
    destruct Hpx as [Hpx|Hpx]; congruence.
  - unfold parent_of. rewrite Hml, Hmp. simpl. by rewrite (hf_parent _ _ _ _ _ _ _ Hl).
  - apply holds_same.
    + intros n a b. destruct (decide (n = new)) as [->|Hn]; [by rewrite lookup_insert_eq, Hfresh|].
      rewrite lookup_insert_ne by done. destruct (decide (n = p)) as [->|Hnp]; [by rewrite lookup_insert_eq, Hgp|].
      by rewrite lookup_insert_ne.
    + intros n a b Hn. destruct (ti_node _ _ _ _ _ _ Hinv n _ _ _ Hn) as (_ & xd & Hxd & _).
      assert (n <> p) by congruence. assert (n <> new) by congruence.
      rewrite Hmx, Hxd by done. case_decide; by eexists _, _.
Qed.
End split_step.

(** ** A new root *)

Section new_root.
Context (s : index_btree) (g : ghost) (root H l r : nat) (k : Z).
Notation m := (nodes s).
Notation new := (fresh_node s).
Hypothesis Hinv : tree_inv (Some (l, k, r)) m g root H.
Hypothesis Hlr : l <> r.
Hypothesis Hl : parent_of m l = Some None.
Hypothesis Hgl : is_Some (g !! l).
Hypothesis Hfresh : g !! new = None.

Lemma top_pair :
  l = root /\ 0 < k < KEY_END /\ g !! l = Some (0, k, H) /\ g !! r = Some (k, KEY_END, H) /\
  parent_of m r = Some None.
Proof using Horder Hinv Hlr Hl Hgl.
  assert (l = root) as Heq.
  { destruct (decide (l = root)) as [|Hne]; [done|].
    destruct (ti_linked _ _ _ _ _ _ Hinv l Hgl Hne) as (p & _ & _ & _ & _ & _ & Hp & _); [|congruence].
    by intros ? ? ? [= <- <- <-]. }
  pose proof (ti_root _ _ _ _ _ _ Hinv) as Hr. unfold span in Hr.
  rewrite (proj2 (Nat.eqb_eq _ _)) in Hr by done. tauto.
Qed.

Lemma new_root_eq part_id :
  (part_id < length (roots s))%nat ->
  exists s' ld rd nd, insert_into_new_root order junk_key part_id l k r s = Some s' /\
    fresh_node s' = S new /\ roots s' = <[part_id := new]> (roots s) /\
    m !! l = Some ld /\ m !! r = Some rd /\
    half order nd false [k] [PNode l; PNode r] None None /\
    nodes s' = <[l := set_next (Some r) (set_parent (Some new) ld)]>
      (<[r := set_parent (Some new) rd]> (<[new := nd]> m)).
Proof using Horder Hinv Hlr Hl Hgl Hfresh.
  intros Hpart. destruct top_pair as (_ & _ & Hgl' & Hgr & _).
  destruct (ti_node _ _ _ _ _ _ Hinv l _ _ _ Hgl') as (_ & ld & Hml & _).
  destruct (ti_node _ _ _ _ _ _ Hinv r _ _ _ Hgr) as (_ & rd & Hmr & _).
  assert (l <> new) as Hln by congruence. assert (r <> new) as Hrn by congruence.
  unfold insert_into_new_root. cbn [make_nl make_node nodes set_node set_nodes fst snd roots set_roots].
  rewrite lookup_insert_eq. cbn [keys pointers].
  rewrite wr_spec by (rewrite length_replicate; lia). rewrite wr_spec by (rewrite length_replicate; lia).
  rewrite wr_spec by (rewrite length_insert, length_replicate; lia).
  rewrite c_assert_true by (apply Nat.ltb_lt; lia).
  rewrite insert_insert_eq, lookup_insert_ne, Hml by done.
  rewrite lookup_insert_ne, lookup_insert_ne, Hmr by done.
  rewrite lookup_insert_ne, lookup_insert_eq by done.
  rewrite c_assert_true by (by apply Nat.ltb_lt).
  eexists _, ld, rd, _. split; [done|]. cbn [nodes fresh_node roots set_node set_nodes set_roots].
  do 2 (split; [done|]). do 2 (split; [done|]). split; cycle 1.
  { rewrite (insert_insert_ne _ r l) by done. rewrite !insert_insert_eq. reflexivity. }
  constructor; cbn; try done; try lia.
  - by rewrite length_insert, length_replicate.
  - by rewrite !length_insert, length_replicate.
  - unfold nkeys. cbn. by destruct (order - 1)%nat eqn:Ho; [lia|].
  - unfold nptrs. cbn. by destruct order as [|[|o]] eqn:Ho; [lia|lia|].
Qed.

Section root_nodes.
Context (ld rd nd : bt_node) (m' : gmap nat bt_node).
Hypothesis Hml : m !! l = Some ld.
Hypothesis Hmr : m !! r = Some rd.
Hypothesis Hnd : half order nd false [k] [PNode l; PNode r] None None.
Hypothesis Hm' : m' = <[l := set_next (Some r) (set_parent (Some new) ld)]>
  (<[r := set_parent (Some new) rd]> (<[new := nd]> m)).
Notation g' := (<[new := (0, KEY_END, S H)]> g).

Lemma root_lookup x :
  m' !! x = if decide (x = l) then Some (set_next (Some r) (set_parent (Some new) ld))
            else if decide (x = r) then Some (set_parent (Some new) rd)
            else if decide (x = new) then Some nd else m !! x.
Proof using Hm'.
  rewrite Hm'. repeat case_decide; simplify_map_eq; done.
Qed.

Lemma root_span x c a b h :
  span (Some (l, k, r)) g (parent_of m) (Some x) c a b h -> span None g' (parent_of m') (Some x) c a b h.
Proof using All.
  destruct top_pair as (_ & _ & Hg1 & Hg2 & Hpr). intros Hs. unfold span in Hs.
  destruct (Nat.eqb_spec c l) as [->|Hcl].
  { destruct Hs as (_ & _ & _ & Hp & _). congruence. }
  destruct Hs as [Hgc Hpc].
  assert (c <> r) by congruence. assert (c <> new) by congruence. split.
  - by rewrite lookup_insert_ne.
  - unfold parent_of. rewrite root_lookup, !decide_False by done. done.
Qed.

Lemma root_node_ok x lo hi h xd p :
  node_ok (Some (l, k, r)) g (parent_of m) x lo hi h xd ->
  node_ok None g' (parent_of m') x lo hi h (set_parent p xd).
Proof using All.
  intros Hok. assert (node_ok None g' (parent_of m') x lo hi h xd) as Hok'.
  { eapply node_ok_impl; [..|exact Hok].
    - intros c a b h' _ _. apply root_span.
    - intros y u _ _ Hy. exists u. rewrite lookup_insert_ne; [done|congruence]. }
  constructor; apply Hok'.
Qed.

Lemma root_tree_inv : tree_inv None m' g' new (S H).
Proof using All.
  destruct top_pair as (_ & Hk & Hg1 & Hg2 & Hpr).
  assert (l <> new) as Hln by congruence. assert (r <> new) as Hrn by congruence.
  assert (parent_of m' l = Some (Some new)) as Hpl'.
  { unfold parent_of. by rewrite root_lookup, decide_True. }
  assert (parent_of m' r = Some (Some new)) as Hpr'.
  { unfold parent_of. by rewrite root_lookup, decide_False, decide_True. }
  assert (m' !! new = Some nd) as Hmn by (rewrite root_lookup; repeat case_decide; congruence).
  constructor.
  - intros x lo hi h Hx. destruct (decide (x = new)) as [->|Hxn].
    { rewrite lookup_insert_eq in Hx. injection Hx as <- <- <-. split; [done|]. exists nd. split; [done|].
      constructor; [apply Hnd|apply Hnd|apply Hnd|done|by rewrite (hf_leaf _ _ _ _ _ _ _ Hnd)|done|done|].
      intros h' [= <-]. split; [apply Hnd|].
      rewrite (hf_nkeys _ _ _ _ _ _ _ Hnd), (hf_nptrs _ _ _ _ _ _ _ Hnd). split_and!; [done| |].
      - repeat constructor; lia.
      - intros [|[|i]] q a b; simpl; intros; simplify_eq; [exists l|exists r]; split; try done;
          (split; [by rewrite lookup_insert_ne|done]). }
    rewrite lookup_insert_ne in Hx by done.
    destruct (ti_node _ _ _ _ _ _ Hinv x _ _ _ Hx) as (Hh & xd & Hmx & Hok). split; [lia|].
    rewrite root_lookup, (decide_False (P := x = new)) by done.
    destruct (decide (x = l)) as [->|Hxl]; [|destruct (decide (x = r)) as [->|Hxr]].
    + eexists. split; [done|]. rewrite Hml in Hmx. injection Hmx as <-.
      rewrite Hg1 in Hx. injection Hx as <- <- <-. apply (root_node_ok _ _ _ _ _ (Some new)) in Hok.
      constructor; try apply Hok. intros Hh0.
      destruct (no_leaf_keys _ _ _ _ _ _ _ _ _ Hok Hh0) as (? & ? & ? & _). split_and!; [done..|].
      simpl. exists KEY_END. rewrite lookup_insert_ne by done. congruence.
    + eexists. split; [done|]. rewrite Hmr in Hmx. injection Hmx as <-. by apply root_node_ok.
    + exists xd. split; [done|]. apply (root_node_ok _ _ _ _ _ (parent xd)) in Hok. by destruct xd.
  - split; [by rewrite lookup_insert_eq|]. unfold parent_of. rewrite Hmn. simpl.
    by rewrite (hf_parent _ _ _ _ _ _ _ Hnd).
  - intros y Hy Hyn _. rewrite lookup_insert_ne in Hy by done.
    destruct (decide (y = l)) as [->|Hyl].
    { exists new, nd, 0%nat, 0, KEY_END, H. rewrite (hf_nptrs _ _ _ _ _ _ _ Hnd), lookup_insert_eq. done. }
    destruct (decide (y = r)) as [->|Hyr].
    { exists new, nd, 1%nat, 0, KEY_END, H. rewrite (hf_nptrs _ _ _ _ _ _ _ Hnd), lookup_insert_eq. done. }
    destruct (ti_linked _ _ _ _ _ _ Hinv y Hy) as (q & qd & i & lo & hi & h & H1 & H2 & H3 & H4);
      [pose proof (proj1 top_pair); congruence|by intros ? ? ? [= <- <- <-]|].
    assert (q <> new) by congruence.
    assert (exists qd', m' !! q = Some qd' /\ nptrs qd' = nptrs qd) as (qd' & Hq' & Hnp).
    { rewrite root_lookup, (decide_False (P := q = new)) by done.
      destruct (decide (q = l)) as [->|]; [|destruct (decide (q = r)) as [->|]].
      - rewrite Hml in H2. injection H2 as <-. by eexists.
      - rewrite Hmr in H2. injection H2 as <-. by eexists.
      - by eexists. }
    exists q, qd', i, lo, hi, h. rewrite lookup_insert_ne, Hnp by done. split_and!; try done.
    unfold parent_of. by rewrite root_lookup, !decide_False.
Qed.

Lemma root_holds key it : holds m' g' key it <-> holds m g key it.
Proof using All.
  destruct top_pair as (_ & _ & Hg1 & Hg2 & _). revert key it. apply holds_same.
  - intros n a b. destruct (decide (n = new)) as [->|Hn]; [by rewrite lookup_insert_eq, Hfresh|].
    by rewrite lookup_insert_ne.
  - intros n a b Hn. destruct (ti_node _ _ _ _ _ _ Hinv n _ _ _ Hn) as (_ & xd & Hxd & _).
    rewrite root_lookup, (decide_False (P := n = new)) by congruence. exists xd.
    destruct (decide (n = l)) as [->|]; [|destruct (decide (n = r)) as [->|]].
    + rewrite Hml in Hxd |- *. injection Hxd as <-. by eexists.
    + rewrite Hmr in Hxd |- *. injection Hxd as <-. by eexists.
    + by eexists.
Qed.
End root_nodes.

Lemma new_root_spec part_id :
  (part_id < length (roots s))%nat ->
  exists s', insert_into_new_root order junk_key part_id l k r s = Some s' /\
    fresh_node s' = S new /\ roots s' = <[part_id := new]> (roots s) /\
    tree_inv None (nodes s') (<[new := (0, KEY_END, S H)]> g) new (S H) /\
    (forall x, g !! x = None -> x <> new -> nodes s' !! x = m !! x) /\
    (forall key it, holds (nodes s') (<[new := (0, KEY_END, S H)]> g) key it <-> holds m g key it).
Proof using Horder Hinv Hlr Hl Hgl Hfresh.
  intros Hpart. destruct (new_root_eq part_id Hpart) as (s' & ld & rd & nd & Hrun & Hf & Hr & Hml & Hmr & Hnd & Hm').
  exists s'. do 3 (split; [done|]). split; [by eapply root_tree_inv|]. split; [|by eapply root_holds].
  intros x Hx Hxn. rewrite (root_lookup _ _ _ _ Hm'). destruct top_pair as (_ & _ & Hg1 & Hg2 & _).
  by rewrite !decide_False by congruence.
Qed.
End new_root.

(** ** Up to the root *)

(** The keys of an inner node have to be shifted from index 0: some node above,
    reached through full nodes only, has room and its first child is on the way. *)
Inductive shift_fault (m : gmap nat bt_node) : nat -> Prop :=
| sf_here n p pd :
    parent_of m n = Some (Some p) -> m !! p = Some pd -> (num_keys pd < order - 1)%nat ->
    ptr_at pd 0 = PNode n -> shift_fault m n
| sf_up n p pd :
    parent_of m n = Some (Some p) -> m !! p = Some pd -> num_keys pd = (order - 1)%nat ->
    shift_fault m p -> shift_fault m n.

Hypothesis Horder_small : Z.of_nat order < 2 ^ 32 - 1.

Lemma nonfull_arrays pd j k r :
  length (keys pd) = (order - 1)%nat -> length (pointers pd) = order -> is_leaf pd = false ->
  (1 <= j <= num_keys pd)%nat -> (num_keys pd < order - 1)%nat ->
  exists k1 p1 ks ps,
    shift_down_to (S (num_keys pd)) (keys pd) 0 (Z.of_nat j) (u32 (Z.of_nat (num_keys pd) - 1)) = Some k1 /\
    shift_down_to (S (num_keys pd)) (pointers pd) 1 (Z.of_nat j) (u32 (Z.of_nat (num_keys pd) - 1)) = Some p1 /\
    wr k1 j k = Some ks /\ wr p1 (S j) (PNode r) = Some ps /\
    let pd' := set_arrays ks ps (S (num_keys pd)) pd in
    length ks = (order - 1)%nat /\ length ps = order /\
    nkeys pd' = insert_at j k (nkeys pd) /\ nptrs pd' = insert_at (S j) (PNode r) (nptrs pd).
Proof using Horder Horder_small junk_key.
  intros Hlk Hlp Hleaf Hj Hn.
  destruct (shift_up_insert junk_key (keys pd) j (num_keys pd) k) as (k1 & ks & Hk1 & Hks & Hkl & Hkt); [lia|lia|].
  destruct (shift_up_insert PNull (pointers pd) (S j) (S (num_keys pd)) (PNode r))
    as (p1 & ps & Hp1 & Hps & Hpl & Hpt); [lia|lia|].
  exists k1, p1, ks, ps. cbv zeta. split_and!.
  - rewrite (shift_down_to_spec junk_key _ 0) by lia. by rewrite !Nat.add_0_r.
  - rewrite (shift_down_to_spec PNull _ 1) by lia. by rewrite !Nat.add_1_r.
  - done.
  - done.
  - lia.
  - lia.
  - done.
  - unfold nptrs. cbn. by rewrite Hleaf.
Qed.

Section climb.
Context (m0 : gmap nat bt_node) (g0 : ghost) (root0 H0 : nat).
Hypothesis Hinv0 : tree_inv None m0 g0 root0 H0.

(** The parent of a node in the tree before the insertion. *)
Lemma old_parent n a b h p :
  g0 !! n = Some (a, b, h) -> parent_of m0 n = Some (Some p) ->
  exists lo hi, g0 !! p = Some (lo, hi, S h).
Proof using Hinv0.
  intros Hg Hp. destruct (root_ghost _ _ _ _ _ Hinv0) as [_ Hr].
  destruct (linked_parent _ _ _ _ _ _ _ _ _ Hinv0 Hg) as (p' & _ & _ & lo & hi & Hp' & _ & Hg' & _).
  { intros ->. congruence. }
  exists lo, hi. congruence.
Qed.

(** What the insertion into the parents promises. *)
Definition inserted (part_id : nat) (s : index_btree) (g : ghost) (H : nat) (s' : index_btree) : Prop :=
  exists g' root' H', tree_inv None (nodes s') g' root' H' /\
    roots s' = <[part_id := root']> (roots s) /\ (H' <= S H)%nat /\ (fresh_node s <= fresh_node s')%nat /\
    (forall x, is_Some (g' !! x) -> is_Some (g !! x) \/ (fresh_node s <= x < fresh_node s')%nat) /\
    (forall x, g !! x = None -> (x < fresh_node s)%nat -> nodes s' !! x = nodes s !! x) /\
    (forall key it, holds (nodes s') g' key it <-> holds (nodes s) g key it).

(** The parent has room. *)
Lemma insert_room fuel part_id s g root H l r k p pd j lo hi h :
  tree_inv (Some (l, k, r)) (nodes s) g root H ->
  pending_parent (nodes s) g l r k p pd j lo hi h -> (num_keys pd < order - 1)%nat ->
  roots s !! part_id = Some root ->
  (j = 0%nat -> insert_into_parent order junk_key (S fuel) part_id l k r s = None) /\
  (j <> 0%nat -> exists s',
     insert_into_parent order junk_key (S fuel) part_id l k r s = Some s' /\ inserted part_id s g H s').
Proof using Horder Horder_small.
  intros Hinv Hpp Hroom Hroot.
  pose proof (pp_ok _ _ _ _ _ _ _ _ _ _ _ Hpp) as Hok. pose proof (pp_node _ _ _ _ _ _ _ _ _ _ _ Hpp) as Hmp.
  pose proof (pp_num _ _ _ _ _ _ _ _ _ _ _ Hpp) as Hnum.
  destruct (pp_left _ _ _ _ _ _ _ _ _ _ _ Hpp) as (a & _ & (ld & Hml & Hpl)%parent_of_Some).
  pose proof (no_keys _ _ _ _ _ _ _ _ _ Hok) as Hlk. pose proof (no_ptrs _ _ _ _ _ _ _ _ _ Hok) as Hlp.
  pose proof (no_leaf _ _ _ _ _ _ _ _ _ Hok) as Hleaf. simpl in Hleaf.
  assert (j <= num_keys pd)%nat as Hj.
  { pose proof (pp_child _ _ _ _ _ _ _ _ _ _ _ Hpp) as Hj. apply lookup_lt_Some in Hj.
    unfold nptrs in Hj. rewrite Hleaf, length_take in Hj. lia. }
  cbn [insert_into_parent]. rewrite Hml, Hpl, Hmp. cbv zeta.
  rewrite (scan_pending junk_key l k r g (parent_of (nodes s)) p h lo hi pd j)
    by first [lia | exact (pp_kids _ _ _ _ _ _ _ _ _ _ _ Hpp) | exact (pp_child _ _ _ _ _ _ _ _ _ _ _ Hpp)].
  rewrite (proj2 (Nat.ltb_lt _ _) Hroom). split.
  - intros ->. change (Z.of_nat 0) with 0.
    rewrite u32_small, (shift_down_zero junk_key) by (unfold is_u32; lia). done.
  - intros Hj0. destruct (nonfull_arrays pd j k r Hlk Hlp Hleaf ltac:(lia) Hroom)
      as (k1 & p1 & ks & ps & -> & -> & -> & -> & Hkl & Hpl' & Hnk & Hnp).
    eexists. split; [done|]. exists g, root, H. cbn [nodes roots fresh_node set_node set_nodes].
    split_and!.
    + eapply (join_inv (nodes s) g root H l r k Hinv); [exact Hpp|done|done|simpl; lia|simpl; lia|done..].
    + by rewrite list_insert_id.
    + lia.
    + lia.
    + by left.
    + intros x Hx _. apply lookup_insert_ne. intros <-. pose proof (pp_ghost _ _ _ _ _ _ _ _ _ _ _ Hpp). congruence.
    + apply holds_same; [done|]. intros n u v Hn.
      destruct (ti_node _ _ _ _ _ _ Hinv n _ _ _ Hn) as (_ & nd & Hnd & _). exists nd, nd.
      rewrite lookup_insert_ne; [done|]. intros <-.
      pose proof (pp_ghost _ _ _ _ _ _ _ _ _ _ _ Hpp). congruence.
Qed.

(** The split of a full parent, followed by what the rest of the climb does. *)
Lemma insert_full fuel part_id s g root H l r k p pd j lo hi h s1 kk :
  tree_inv (Some (l, k, r)) (nodes s) g root H ->
  pending_parent (nodes s) g l r k p pd j lo hi h -> num_keys pd = (order - 1)%nat ->
  split_nl order junk_key p j k r s = Some (kk, fresh_node s, s1) ->
  insert_into_parent order junk_key (S fuel) part_id l k r s =
    insert_into_parent order junk_key fuel part_id p kk (fresh_node s) s1.
Proof using Horder.
  intros Hinv Hpp Hfull Hsplit.
  pose proof (pp_ok _ _ _ _ _ _ _ _ _ _ _ Hpp) as Hok. pose proof (pp_node _ _ _ _ _ _ _ _ _ _ _ Hpp) as Hmp.
  destruct (pp_left _ _ _ _ _ _ _ _ _ _ _ Hpp) as (a & _ & (ld & Hml & Hpl)%parent_of_Some).
  pose proof (no_keys _ _ _ _ _ _ _ _ _ Hok) as Hlk.
  cbn [insert_into_parent]. rewrite Hml, Hpl, Hmp. cbv zeta.
  rewrite (scan_pending junk_key l k r g (parent_of (nodes s)) p h lo hi pd j)
    by first [lia | exact (pp_kids _ _ _ _ _ _ _ _ _ _ _ Hpp) | exact (pp_child _ _ _ _ _ _ _ _ _ _ _ Hpp)].
  rewrite (proj2 (Nat.ltb_ge _ _)) by lia. by rewrite Hsplit.
Qed.

Lemma insert_into_parent_spec fuel part_id s g root H h l k r a b a0 b0 :
  tree_inv (Some (l, k, r)) (nodes s) g root H -> l <> r ->
  g !! l = Some (a, k, h) -> g !! r = Some (k, b, h) ->
  g0 !! l = Some (a0, b0, h) -> parent_of (nodes s) l = parent_of m0 l ->
  (forall x u v h', g0 !! x = Some (u, v, h') -> (x < fresh_node s)%nat /\
     ((h < h')%nat -> nodes s !! x = m0 !! x)) ->
  (forall x, (fresh_node s <= x)%nat -> g !! x = None) ->
  roots s !! part_id = Some root -> (H < h + fuel)%nat ->
  (shift_fault m0 l -> insert_into_parent order junk_key fuel part_id l k r s = None) /\
  (~ shift_fault m0 l -> exists s',
     insert_into_parent order junk_key fuel part_id l k r s = Some s' /\ inserted part_id s g H s').
Proof using Horder Horder_small Hinv0.
  revert s g h l k r a b a0 b0.
  induction fuel as [|fuel IH]; intros s g h l k r a b a0 b0 Hinv Hlr Hgl Hgr Hg0 Hpar Hsame Hfr Hroot Hfuel.
  { destruct (ti_node _ _ _ _ _ _ Hinv l _ _ _ Hgl). lia. }
  cbn [insert_into_parent].
  destruct (ti_node _ _ _ _ _ _ Hinv l _ _ _ Hgl) as (_ & ld & Hml & _). rewrite Hml.
  assert (parent_of (nodes s) l = Some (parent ld)) as Hpl by (unfold parent_of; by rewrite Hml).
  pose proof (Hfr (fresh_node s) ltac:(lia)) as Hfresh.
  destruct (parent ld) as [p|] eqn:Hp.
  - rewrite Hpar in Hpl.
    destruct (old_parent _ _ _ _ _ Hg0 Hpl) as (lo0 & hi0 & Hg0p).
    rewrite <- Hpar in Hpl.
    destruct (pending_parent_of _ _ _ _ _ _ _ Hinv p a h Hlr Hgl Hpl) as (pd & j & lo & hi & Hpp).
    pose proof (pp_num _ _ _ _ _ _ _ _ _ _ _ Hpp) as Hnum.
    pose proof (pp_ghost _ _ _ _ _ _ _ _ _ _ _ Hpp) as Hgp.
    assert (m0 !! p = Some pd) as Hm0p.
    { destruct (Hsame p _ _ _ Hg0p) as [_ <-]; [apply Hpp|lia]. }
    assert (parent_of m0 l = Some (Some p)) as Hpl0 by congruence.
    destruct (decide (num_keys pd < order - 1)%nat) as [Hroom|Hroom].
    + destruct (insert_room fuel part_id s g root H l r k p pd j lo hi h Hinv Hpp Hroom Hroot) as [Hz Hnz].
      cbn [insert_into_parent] in Hz, Hnz. rewrite Hml, Hp in Hz, Hnz.
      assert (j = 0%nat <-> ptr_at pd 0 = PNode l) as Hj0.
      { pose proof (pp_child _ _ _ _ _ _ _ _ _ _ _ Hpp) as Hj. split.
        - intros ->. apply rd_lookup. unfold nptrs in Hj. by apply lookup_take_Some in Hj as [? _].
        - intros Hp0. pose proof (pp_ok _ _ _ _ _ _ _ _ _ _ _ Hpp) as Hok.
          pose proof (nptrs_inner order pd 0 (no_leaf _ _ _ _ _ _ _ _ _ Hok)
            (no_ptrs _ _ _ _ _ _ _ _ _ Hok) ltac:(lia) ltac:(lia) ltac:(lia)) as Hn0.
          rewrite Hp0 in Hn0.
          pose proof (full_kids _ _ _ _ _ _ _ _ _ _ _ Hpp) as Hk.
          symmetry. eapply (kids_index_inj _ _ _ _ _ _ 0 j l Hk).
          + by rewrite lookup_insert_at by (apply lookup_lt_Some in Hj; lia).
          + rewrite lookup_insert_at by (apply lookup_lt_Some in Hj; lia).
            by rewrite (proj2 (Nat.ltb_lt j (S j))) by lia. }
      split.
      * intros Hf. apply Hz, Hj0. inversion Hf as [n q qd Hq Hqd Hqn Hq0|n q qd Hq Hqd Hqn _];
          simplify_eq; [done|lia].
      * intros Hnf. apply Hnz. rewrite Hj0. intros Hp0. apply Hnf. by eapply sf_here.
    + destruct (split_step s g root H l r k p pd j lo hi h Hinv Hpp ltac:(lia) Hfresh)
        as (kk & s1 & Hsplit & Hf1 & Hr1 & Hkk & Hinv1 & Hold & Hpp1 & Hholds).
      pose proof (insert_full fuel part_id s g root H l r k p pd j lo hi h s1 kk Hinv Hpp ltac:(lia) Hsplit) as Heq.
      cbn [insert_into_parent] in Heq. rewrite Hml, Hp in Heq. rewrite Heq.
      assert (p <> fresh_node s) as Hpn by congruence.
      destruct (IH s1 _ (S h) p kk (fresh_node s) lo hi lo0 hi0 Hinv1 Hpn) as [Hfault Hok].
      { by rewrite lookup_insert_ne, lookup_insert_eq. }
      { by rewrite lookup_insert_eq. }
      { done. }
      { rewrite Hpp1. unfold parent_of. by rewrite Hm0p, (pp_node _ _ _ _ _ _ _ _ _ _ _ Hpp). }
      { intros x u v h' Hx. destruct (Hsame x _ _ _ Hx) as [Hlt Heqx]. rewrite Hf1. split; [lia|].
        intros Hh'. rewrite <- Heqx by lia.
        apply Hold; [lia|intros ->; rewrite Hg0p in Hx; injection Hx; lia|right].
        unfold parent_of. rewrite Heqx by lia. intros Hxp.
        destruct (old_parent x u v h' p Hx Hxp) as (? & ? & Hg'). simplify_eq. lia. }
      { intros x Hx. rewrite Hf1 in Hx. destruct (Hsame p _ _ _ Hg0p) as [Hpf _].
        rewrite !lookup_insert_ne by lia. apply Hfr. lia. }
      { by rewrite Hr1. }
      { lia. }
      split.
      * intros Hf. apply Hfault. inversion Hf as [n q qd Hq Hqd Hqn Hq0|n q qd Hq Hqd Hqn Hq'];
          simplify_eq; try lia; done.
      * intros Hnf. destruct Hok as (s' & Hrun & g' & root' & H' & Hi' & Hr' & HH' & Hf' & Hdom & Hframe & Hh').
        { intros Hf. apply Hnf. eapply sf_up; [done|done|lia|done]. }
        exists s'. split; [done|]. exists g', root', H'. rewrite Hf1, Hr1 in *. split_and!; try done; try lia.
        -- intros x Hx. destruct (Hdom x Hx) as [Hgx|?]; [|right; lia].
           destruct (decide (x = fresh_node s)) as [->|Hxn]; [right; lia|].
           rewrite lookup_insert_ne in Hgx by done.
           destruct (decide (x = p)) as [->|Hxp]; [left; eauto|]. rewrite lookup_insert_ne in Hgx by done. by left.
        -- intros x Hx Hlt. rewrite Hframe; [|rewrite !lookup_insert_ne by (congruence || lia); done|lia].
           apply Hold; [lia|congruence|by left].
        -- intros key it. by rewrite Hh', Hholds.
  - split.
    { intros Hf. inversion Hf; congruence. }
    intros _. destruct (new_root_spec s g root H l r k Hinv Hlr Hpl ltac:(eauto) Hfresh part_id)
      as (s' & Hrun & Hf' & Hr' & Hi' & Hframe & Hholds); [by eapply lookup_lt_Some|].
    exists s'. split; [done|]. exists (<[fresh_node s := (0, KEY_END, S H)]> g), (fresh_node s), (S H).
    split_and!; [done|done|lia|lia| | |done].
    + intros x Hx. destruct (decide (x = fresh_node s)) as [->|Hxn]; [right; lia|].
      rewrite lookup_insert_ne in Hx by done. by left.
    + intros x Hx Hlt. apply Hframe; [done|lia].
Qed.
End climb.

(** ** The split of a leaf *)

Section leaf_split.
Context (s : index_btree) (g : ghost) (root H leaf : nat) (a b key : Z) (item : nat) (ld : bt_node).
Notation m := (nodes s).
Notation new := (fresh_node s).
Hypothesis Hinv : tree_inv None m g root H.
Hypothesis Hg : g !! leaf = Some (a, b, 0%nat).
Hypothesis Hm : m !! leaf = Some ld.
Hypothesis Hkey : a <= key < b.
Hypothesis Hfull : num_keys ld = (order - 1)%nat.
Hypothesis Hhas : leaf_has_key junk_key ld key = None.
Hypothesis Hfresh : g !! new = None.

Lemma sorted_cut (ks : list Z) (sp : nat) kk lo hi :
  StronglySorted Z.lt ks -> Forall (fun k => lo <= k < hi) ks -> ks !! sp = Some kk -> (1 <= sp)%nat ->
  lo < kk < hi /\ StronglySorted Z.lt (take sp ks) /\ StronglySorted Z.lt (drop sp ks) /\
  Forall (fun k => lo <= k < kk) (take sp ks) /\ Forall (fun k => kk <= k < hi) (drop sp ks).
Proof using.
  intros Hs HF Hk Hsp. rewrite Forall_lookup in HF.
  destruct (lookup_lt_is_Some_2 ks 0) as [k0 Hk0]; [apply lookup_lt_Some in Hk; destruct ks; simpl in *; [inversion Hk|apply Nat.lt_0_succ]|].
  pose proof (sorted_lookup ks 0 sp k0 kk Hs Hk0 Hk Hsp). pose proof (HF _ _ Hk0) as [? _].
  pose proof (HF _ _ Hk) as [_ ?].
  split; [split; [eapply Z.le_lt_trans; eauto|done]|].
  pose proof Hs as Hs'. rewrite <- (take_drop sp ks) in Hs'.
  split; [by apply StronglySorted_app_1_l in Hs'|]. split; [by apply StronglySorted_app_1_r in Hs'|].
  split; apply Forall_lookup; intros i x Hx.
  - apply lookup_take_Some in Hx as [Hx Hi]. split; [apply (HF _ _ Hx)|].
    exact (sorted_lookup ks i sp x kk Hs Hx Hk Hi).
  - rewrite lookup_drop in Hx. split; [|apply (HF _ _ Hx)].
    exact (sorted_lookup_le ks sp _ kk x Hs Hk Hx (Nat.le_add_r _ _)).
Qed.

Lemma leaf_split_spec :
  exists kk s', split_lf order junk_key leaf key item s = Some (kk, new, s') /\
    fresh_node s' = S new /\ roots s' = roots s /\ a < kk < b /\
    let g' := <[new := (kk, b, 0%nat)]> (<[leaf := (a, kk, 0%nat)]> g) in
    tree_inv (Some (leaf, kk, new)) (nodes s') g' root H /\
    (forall x, x <> new -> x <> leaf -> nodes s' !! x = m !! x) /\
    parent_of (nodes s') leaf = parent_of m leaf /\
    holds_added m g (nodes s') g' key item.
Proof using Horder Horder_small Hinv Hg Hm Hkey Hfull Hhas Hfresh.
  destruct (ti_node _ _ _ _ _ _ Hinv leaf _ _ _ Hg) as (_ & ld' & Hm' & Hok).
  assert (ld' = ld) as -> by congruence. clear Hm'.
  pose proof (no_leaf _ _ _ _ _ _ _ _ _ Hok) as Hleaf. simpl in Hleaf.
  destruct (no_leaf_keys _ _ _ _ _ _ _ _ _ Hok eq_refl) as (Hs & HF & Hit & Hnext).
  assert (leaf <> new) as Hne by congruence.
  pose proof (no_keys _ _ _ _ _ _ _ _ _ Hok) as Hlk. pose proof (no_ptrs _ _ _ _ _ _ _ _ _ Hok) as Hlp.
  pose proof (leaf_has_key_spec junk_key ld key ltac:(lia) Hs) as Hnk. rewrite Hhas in Hnk.
  destruct (split_lf_eq order junk_key Horder s leaf ld key item Hm Hne Hlk Hlp Hfull Hleaf)
    as (lnd & rnd & kk & s' & Hrun & Hns & Hf & Hr & Hl & Hrn & Hkk).
  destruct (scan_lt_sorted junk_key ld key ltac:(lia) Hs Hnk) as [Hip Hsorted].
  rewrite Hfull in Hip, Hsorted. set (ip := scan _ _ _ _) in *.
  set (tk := insert_at ip key (nkeys ld)) in *. set (tp := insert_at ip (PItem item) (nptrs ld)) in *.
  destruct (cut_bounds (order - 1) ltac:(lia)) as [Hsp _]. set (sp := cut (order - 1)) in *.
  assert (Forall (fun k => a <= k < b) tk) as HFtk.
  { unfold tk. rewrite insert_at_perm. by constructor. }
  assert (Forall (fun p => exists it, p = PItem it) tp) as HFtp.
  { unfold tp. rewrite insert_at_perm. constructor; eauto. }
  destruct (sorted_cut tk sp kk a b Hsorted HFtk Hkk ltac:(lia)) as (Hlt & Hs1 & Hs2 & HF1 & HF2).
  rewrite <- (take_drop sp tp) in HFtp. apply Forall_app in HFtp as [Hit1 Hit2].
  exists kk, s'. do 3 (split; [done|]). split; [done|]. intros g'.
  assert (nodes s' !! leaf = Some lnd) as Hml by (rewrite Hns; by simplify_map_eq).
  assert (nodes s' !! new = Some rnd) as Hmr by (rewrite Hns; by simplify_map_eq).
  assert (forall x, x <> new -> x <> leaf -> nodes s' !! x = m !! x) as Hold.
  { intros x ??. rewrite Hns. by rewrite !lookup_insert_ne. }
  split_and!; [|done| |].
  - apply (split_inv None m g root H leaf ld a b kk 0 new (nodes s') lnd rnd); try done.
    + apply Hl.
    + apply Hrn.
    + intros x xd Hx [y Hgx] Hmx. exists xd. split; [|by left]. rewrite Hold; [done|congruence|done].
    + constructor; [apply Hl|apply Hl|apply Hl|lia|apply Hl| | |done]; intros _.
      { rewrite (hf_nkeys _ _ _ _ _ _ _ Hl).
        destruct (no_lo _ _ _ _ _ _ _ _ _ Hok eq_refl) as [?|Hlo]; [by left|right].
        assert (a ∈ tk) as [i Hi]%list_elem_of_lookup_1 by (apply elem_of_insert_at; by right).
        destruct i as [|i]; [apply (list_elem_of_lookup_2 _ 0); rewrite lookup_take_lt by lia; done|].
        destruct (lookup_lt_is_Some_2 tk 0) as [k0 Hk0]; [apply lookup_lt_Some in Hi; lia|].
        pose proof (sorted_lookup _ 0 (S i) _ _ Hsorted Hk0 Hi ltac:(lia)).
        rewrite Forall_lookup in HFtk. pose proof (HFtk _ _ Hk0). lia. }
      rewrite (hf_nkeys _ _ _ _ _ _ _ Hl), (hf_nptrs _ _ _ _ _ _ _ Hl), (hf_next _ _ _ _ _ _ _ Hl).
      split_and!; [done..|]. exists b. by rewrite lookup_insert_eq.
    + constructor; [apply Hrn|apply Hrn|apply Hrn|lia|apply Hrn| | |done]; intros _.
      { right. rewrite (hf_nkeys _ _ _ _ _ _ _ Hrn). apply (list_elem_of_lookup_2 _ 0).
        by rewrite lookup_drop, Nat.add_0_r. }
      rewrite (hf_nkeys _ _ _ _ _ _ _ Hrn), (hf_nptrs _ _ _ _ _ _ _ Hrn), (hf_next _ _ _ _ _ _ _ Hrn).
      split_and!; [done..|]. destruct (bt_next ld) as [y|]; [|done]. destruct Hnext as [hi' Hy].
      exists hi'. rewrite !lookup_insert_ne; [done| |]; intros <-; [|congruence].
      rewrite Hg in Hy. injection Hy. lia.
    + intros y Hy Hyr Hyp. exfalso. destruct Hy as [[[u v] hy] Hy].
      destruct (linked_parent _ _ _ _ _ _ _ _ _ Hinv Hy Hyr) as (p & _ & _ & lo & hi & Hp & _ & Hgp & _).
      assert (p = leaf) as -> by congruence. congruence.
  - unfold parent_of. rewrite Hml, Hm. simpl. by rewrite (hf_parent _ _ _ _ _ _ _ Hl).
  - assert (forall k it, pairs_hold tk tp k it <->
      (k = key /\ it = item) \/ (k <> key /\ pairs_hold (nkeys ld) (nptrs ld) k it)) as Hpairs.
    { intros k it. unfold tk, tp. rewrite pairs_hold_insert.
      - split; [|tauto]. intros [?|Hp]; [by left|]. right. split; [|done]. intros ->. apply Hnk.
        destruct Hp as (i & Hi & _). by eapply list_elem_of_lookup_2.
      - unfold nkeys, nptrs. rewrite Hleaf, !length_take. lia.
      - unfold nkeys. rewrite length_take. lia. }
    intros k it. rewrite !holds_pairs. split.
    + intros (x & u & v & xd & Hx & Hmx & Hp).
      assert (pairs_hold tk tp k it \/ (x <> leaf /\ x <> new)) as [Hp'|[Hxl Hxn]].
      { rewrite (pairs_hold_cut sp).
        destruct (decide (x = leaf)) as [->|]; [|destruct (decide (x = new)) as [->|]; [|by right]].
        - rewrite Hml in Hmx. injection Hmx as <-. left. left.
          by rewrite (hf_nkeys _ _ _ _ _ _ _ Hl), (hf_nptrs _ _ _ _ _ _ _ Hl) in Hp.
        - rewrite Hmr in Hmx. injection Hmx as <-. left. right.
          by rewrite (hf_nkeys _ _ _ _ _ _ _ Hrn), (hf_nptrs _ _ _ _ _ _ _ Hrn) in Hp. }
      * apply Hpairs in Hp' as [?|[? Hp']]; [by left|]. right. split; [done|]. by exists leaf, a, b, ld.
      * right. unfold g' in Hx. rewrite !lookup_insert_ne in Hx by done. rewrite Hold in Hmx by done.
        split; [|by exists x, u, v, xd]. intros ->.
        pose proof (pairs_hold_range _ _ _ _ _ _ _ _ _ _ _ Hinv Hx Hmx Hp). apply Hxl.
        by eapply (covering_unique order m g root H H x leaf _ _ _ _ 0).
    + intros Hk.
      assert (pairs_hold tk tp k it \/ exists x u v xd, x <> leaf /\ g !! x = Some (u, v, 0%nat) /\
        m !! x = Some xd /\ pairs_hold (nkeys xd) (nptrs xd) k it) as [Hp|(x & u & v & xd & Hxl & Hx & Hmx & Hp)].
      { rewrite Hpairs. destruct Hk as [?|(Hkk' & x & u & v & xd & Hx & Hmx & Hp)]; [by left; left|].
        destruct (decide (x = leaf)) as [->|]; [|right; by exists x, u, v, xd].
        left. right. split; [done|]. congruence. }
      * apply (pairs_hold_cut sp) in Hp as [Hp|Hp].
        -- exists leaf, a, kk, lnd. unfold g'. rewrite lookup_insert_ne, lookup_insert_eq by done.
           by rewrite (hf_nkeys _ _ _ _ _ _ _ Hl), (hf_nptrs _ _ _ _ _ _ _ Hl).
        -- exists new, kk, b, rnd. unfold g'. rewrite lookup_insert_eq.
           by rewrite (hf_nkeys _ _ _ _ _ _ _ Hrn), (hf_nptrs _ _ _ _ _ _ _ Hrn).
      * assert (x <> new) by congruence. exists x, u, v, xd. unfold g'.
        rewrite !lookup_insert_ne by done. by rewrite Hold.
Qed.
End leaf_split.

(** ** The whole insertion *)

(** Every node of height [h] covers at least [2 ^ h] keys. *)
Lemma height_width m g root H n a b h :
  tree_inv None m g root H -> g !! n = Some (a, b, h) -> 2 ^ Z.of_nat h <= b - a.
Proof using Horder.
  intros Hinv. revert n a b. induction h as [|h IH]; intros n a b Hg.
  - destruct (ti_node _ _ _ _ _ _ Hinv n _ _ _ Hg) as (_ & nd & _ & Hok).
    pose proof (no_lt _ _ _ _ _ _ _ _ _ Hok). simpl. lia.
  - destruct (ti_node _ _ _ _ _ _ Hinv n _ _ _ Hg) as (_ & nd & _ & Hok).
    destruct (no_kids _ _ _ _ _ _ _ _ _ Hok h eq_refl) as (Hone & Hk).
    pose proof (no_leaf _ _ _ _ _ _ _ _ _ Hok) as Hleaf. simpl in Hleaf.
    pose proof (no_ptrs _ _ _ _ _ _ _ _ _ Hok) as Hlp. pose proof (no_num _ _ _ _ _ _ _ _ _ Hok) as Hn.
    pose proof (nptrs_inner order nd 0 Hleaf Hlp Hn Hone (Nat.le_0_l _)) as H0.
    pose proof (nptrs_inner order nd 1 Hleaf Hlp Hn Hone Hone) as H1.
    destruct (kids_lookup _ _ _ _ _ _ _ _ _ Hk H0) as (x0 & y0 & c0 & Hx0 & Hy0 & _ & Hg0 & _).
    destruct (kids_lookup _ _ _ _ _ _ _ _ _ Hk H1) as (x1 & y1 & c1 & Hx1 & Hy1 & _ & Hg1 & _).
    destruct Hk as (_ & Hs & _). destruct (bounds_range _ _ _ _ _ _ Hs Hx1 Hy1) as [_ Hb].
    rewrite Hx1 in Hy0. injection Hy0 as <-. simpl in Hx0. injection Hx0 as <-.
    pose proof (IH _ _ _ Hg0). pose proof (IH _ _ _ Hg1).
    rewrite Nat2Z.inj_succ, Z.pow_succ_r by apply Nat2Z.is_nonneg. nia.
Qed.

Lemma height_bound m g root H : tree_inv None m g root H -> (H < 65)%nat.
Proof using Horder.
  intros Hinv. destruct (root_ghost _ _ _ _ _ Hinv) as [Hg _].
  pose proof (height_width _ _ _ _ _ _ _ _ Hinv Hg) as Hw. unfold KEY_END in Hw.
  destruct (Nat.lt_ge_cases H 65) as [|Hge]; [done|].
  pose proof (Z.pow_le_mono_r 2 65 (Z.of_nat H) ltac:(done) ltac:(apply (inj_le 65 H Hge))) as Hp.
  exfalso. assert (2 ^ 65 <= 2 ^ 64 - 0) as Hc by (etrans; [apply Hp|apply Hw]). by vm_compute in Hc.
Qed.

(** The insertion of [key] would have to shift from index 0. *)
Definition insert_fault (s : index_btree) (leaf : nat) (key : Z) : Prop :=
  exists ld, nodes s !! leaf = Some ld /\ num_keys ld = (order - 1)%nat /\
    leaf_has_key junk_key ld key = None /\ shift_fault (nodes s) leaf.

(** What an insertion promises: of the tree, of the pairs, and of the rest. *)
Definition insert_post (part_id : nat) (s : index_btree) (g : ghost) (key : Z) (item : nat)
    (s' : index_btree) : Prop :=
  exists g' root' H', tree_inv None (nodes s') g' root' H' /\
    roots s' = <[part_id := root']> (roots s) /\ (fresh_node s <= fresh_node s')%nat /\
    (forall x, is_Some (g' !! x) -> is_Some (g !! x) \/ (fresh_node s <= x < fresh_node s')%nat) /\
    (forall x, g !! x = None -> (x < fresh_node s)%nat -> nodes s' !! x = nodes s !! x) /\
    holds_added (nodes s) g (nodes s') g' key item.

Lemma split_lf_insert_spec part_id s g root H leaf a b ld key item :
  tree_inv None (nodes s) g root H -> roots s !! part_id = Some root ->
  (forall x, is_Some (g !! x) -> (x < fresh_node s)%nat) ->
  g !! leaf = Some (a, b, 0%nat) -> nodes s !! leaf = Some ld -> a <= key < b ->
  num_keys ld = (order - 1)%nat -> leaf_has_key junk_key ld key = None ->
  (shift_fault (nodes s) leaf -> split_lf_insert order junk_key part_id leaf key item s = None) /\
  (~ shift_fault (nodes s) leaf -> exists s',
     split_lf_insert order junk_key part_id leaf key item s = Some s' /\
     insert_post part_id s g key item s').
Proof using Horder Horder_small.
  intros Hinv Hroot Hdom Hg Hm Hkey Hfull Hhas.
  assert (forall x, (fresh_node s <= x)%nat -> g !! x = None) as Hfr.
  { intros x Hx. destruct (g !! x) eqn:Hgx; [|done]. specialize (Hdom x ltac:(eauto)). lia. }
  destruct (leaf_split_spec s g root H leaf a b key item ld Hinv Hg Hm Hkey Hfull Hhas (Hfr _ (Nat.le_refl _)))
    as (kk & s1 & Hrun & Hf1 & Hr1 & Hkk & Hinv1 & Hold & Hpar & Hadd).
  unfold split_lf_insert. rewrite Hrun. cbn [fst snd].
  assert (leaf <> fresh_node s) as Hne by (specialize (Hdom leaf ltac:(eauto)); lia).
  pose proof (height_bound _ _ _ _ Hinv) as HH.
  destruct (insert_into_parent_spec (nodes s) g root H Hinv MAX_DEPTH part_id s1 _ root H 0 leaf kk
    (fresh_node s) a b a b Hinv1 Hne) as [Hfault Hok].
  { by rewrite lookup_insert_ne, lookup_insert_eq. }
  { by rewrite lookup_insert_eq. }
  { done. }
  { done. }
  { intros x u v h' Hx. specialize (Hdom x ltac:(eauto)). rewrite Hf1. split; [lia|].
    intros Hh. apply Hold; [lia|]. intros ->. rewrite Hg in Hx. injection Hx. lia. }
  { intros x Hx. rewrite Hf1 in Hx. specialize (Hdom leaf ltac:(eauto)).
    rewrite !lookup_insert_ne by lia. apply Hfr. lia. }
  { by rewrite Hr1. }
  { change MAX_DEPTH with 100%nat. lia. }
  split; [done|]. intros Hnf.
  destruct (Hok Hnf) as (s' & -> & g' & root' & H' & Hi' & Hr' & _ & Hf' & Hdom' & Hframe & Hh').
  exists s'. split; [done|]. exists g', root', H'. rewrite Hf1, Hr1 in *. split_and!; try done; try lia.
  - intros x Hx. destruct (Hdom' x Hx) as [Hgx|?]; [|right; lia].
    destruct (decide (x = fresh_node s)) as [->|Hxn]; [right; lia|].
    rewrite lookup_insert_ne in Hgx by done.
    destruct (decide (x = leaf)) as [->|Hxl]; [left; eauto|]. rewrite lookup_insert_ne in Hgx by done. by left.
  - intros x Hx Hlt. assert (x <> leaf) by congruence.
    rewrite Hframe; [|by rewrite !lookup_insert_ne by lia|lia]. apply Hold; [lia|done].
  - intros k it. by rewrite Hh'.
Qed.

Lemma index_insert_spec part_id s g root H key item :
  tree_inv None (nodes s) g root H -> roots s !! part_id = Some root ->
  (forall x, is_Some (g !! x) -> (x < fresh_node s)%nat) -> 0 <= key < KEY_END ->
  exists leaf a b, find_leaf order junk_key s false key part_id = Some (leaf, None) /\
    g !! leaf = Some (a, b, 0%nat) /\ a <= key < b /\
    (insert_fault s leaf key -> index_insert order junk_key key item part_id s = None) /\
    (~ insert_fault s leaf key -> exists s',
       index_insert order junk_key key item part_id s = Some s' /\ insert_post part_id s g key item s').
Proof using Horder Horder_small.
  intros Hinv Hroot Hdom Hkey. pose proof (height_bound _ _ _ _ Hinv) as HH.
  assert (H < MAX_DEPTH)%nat as HM by (change MAX_DEPTH with 100%nat; lia).
  destruct (find_leaf_spec order junk_key s part_id root g H key Hroot Hinv HM Hkey) as (leaf & a & b & Hf & Hg & Hab).
  exists leaf, a, b. do 2 (split; [done|]). split; [done|].
  destruct (root_ghost _ _ _ _ _ Hinv) as [Hgr _].
  destruct (find_leaf_insert_from order junk_key s g root H MAX_DEPTH root 0 KEY_END H key None Hinv Hgr Hkey HM)
    as (leaf' & a' & b' & le & Hfi & Hg' & Hab' & Hle); [lia|done|].
  assert (leaf' = leaf) as -> by by eapply (covering_unique order (nodes s) g root H H leaf' leaf _ _ _ _ 0).
  destruct (ti_node _ _ _ _ _ _ Hinv leaf _ _ _ Hg) as (_ & ld & Hm & Hok).
  pose proof (no_num _ _ _ _ _ _ _ _ _ Hok) as Hnum.
  unfold index_insert, find_leaf, find_root. rewrite Hroot, Hfi. cbn [fst snd].
  assert (exists l, match le with Some e => ex_list MAX_DEPTH s leaf e | None => Some [leaf] end = Some l) as (lx & ->).
  { destruct le as [e|]; [|eauto]. destruct (Hle e eq_refl) as (d & Hd & Hc).
    destruct (ex_list_spec s MAX_DEPTH d leaf e Hc) as [lx ->]; [lia|eauto]. }
  rewrite Hm.
  destruct (leaf_has_key junk_key ld key) as [i|] eqn:Hhas.
  { rewrite (bool_decide_eq_true_2 (is_Some (Some i))), orb_true_r by eauto. split.
    - intros (ld' & Hm' & _ & Hno & _). congruence.
    - intros _. destruct (leaf_replace_spec order junk_key s g root H leaf a b ld key item i Hinv Hg Hm Hab Hhas)
        as (s' & nd' & Hrun & Hns & Hr & Hfr & Hi' & Hadd).
      exists s'. split; [done|]. exists g, root, H. rewrite Hr, Hfr. split_and!; [done| |lia|by left| |done].
      + by rewrite list_insert_id.
      + intros x Hx _. rewrite Hns. apply lookup_insert_ne. intros <-. congruence. }
  rewrite bool_decide_eq_false_2 by (intros [? ?]; done). rewrite orb_false_r.
  destruct (Nat.ltb_spec (num_keys ld) (order - 1)) as [Hroom|Hfull].
  - split.
    + intros (ld' & Hm' & Hno & _). rewrite Hm in Hm'. injection Hm' as <-. lia.
    + intros _. destruct (leaf_add_spec order junk_key s g root H leaf a b ld key item Hinv Hg Hm Hab Hhas Hroom)
        as (s' & nd' & Hrun & Hns & Hr & Hfr & Hi' & Hadd).
      exists s'. split; [done|]. exists g, root, H. rewrite Hr, Hfr. split_and!; [done| |lia|by left| |done].
      * by rewrite list_insert_id.
      * intros x Hx _. rewrite Hns. apply lookup_insert_ne. intros <-. congruence.
  - destruct (split_lf_insert_spec part_id s g root H leaf a b ld key item) as [Hfault Hgood];
      [done|done|done|done|done|done|lia|done|]. split.
    + intros (ld' & _ & _ & _ & Hf'). by apply Hfault.
    + intros Hnf. apply Hgood. intros Hf'. apply Hnf. exists ld. split_and!; [done|lia|done|done].
Qed.
End insertion.
