(* ===== verification/BTreeIndex.v ===== *)
(** * The B+-tree index: what the index promises

    The invariant of the whole index, with one tree per partition, and the
    properties of [init], [index_insert], [index_read] and [index_next]. *)

From S2P Require Import Prelude Global Arrays BTree BTreeInv BTreeSplit BTreeInsert.

#[local] Opaque MAX_DEPTH.

Section index.
Context (order : nat) (junk_key : Z).
Hypothesis Horder : (3 <= order)%nat.
Hypothesis Horder_small : Z.of_nat order < 2 ^ 32 - 1.
Notation tree_inv := (tree_inv order).
Notation index_read := (index_read order junk_key).
Notation index_insert := (index_insert order junk_key).

(** The trees of the partitions, with disjoint nodes. *)
Record index_ok (s : index_btree) (gs : list ghost) : Prop := {
  io_len : length gs = length (roots s);
  io_tree : forall p root g, roots s !! p = Some root -> gs !! p = Some g ->
    exists H, tree_inv None (nodes s) g root H;
  io_dom : forall p g x, gs !! p = Some g -> is_Some (g !! x) -> (x < fresh_node s)%nat;
  io_disj : forall p q g g' x, p <> q -> gs !! p = Some g -> gs !! q = Some g' ->
    is_Some (g !! x) -> g' !! x = None }.

Definition index_inv (s : index_btree) : Prop := exists gs, index_ok s gs.

(** The item of a key. *)
Definition read (k : Z) (thd_id part_id : nat) (s : index_btree) : option nat :=
  fst <$> index_read k thd_id part_id s.

Lemma tree_inv_frame m m' g root H :
  (forall x, is_Some (g !! x) -> m' !! x = m !! x) ->
  tree_inv None m g root H -> tree_inv None m' g root H.
Proof using.
  intros Hm Hinv.
  assert (forall p c a b h, span None g (parent_of m) p c a b h -> span None g (parent_of m') p c a b h) as Hspan.
  { intros p c a b h [Hc Hp]. split; [done|]. unfold parent_of in *. by rewrite Hm by eauto. }
  constructor.
  - intros n lo hi h Hn. destruct (ti_node _ _ _ _ _ _ Hinv n _ _ _ Hn) as (Hh & nd & Hnd & Hok).
    split; [done|]. exists nd. split; [by rewrite Hm by eauto|].
    eapply node_ok_impl; [..|exact Hok]; [|eauto]. intros c a b h' _ _. apply Hspan.
  - apply Hspan, Hinv.
  - intros n Hn Hr Hp.
    destruct (ti_linked _ _ _ _ _ _ Hinv n Hn Hr Hp) as (p & pd & i & lo & hi & h & H1 & H2 & H3 & H4).
    exists p, pd, i, lo, hi, h. unfold parent_of in *. by rewrite !Hm by eauto.
Qed.

Lemma holds_frame m m' g k it :
  (forall x, is_Some (g !! x) -> m' !! x = m !! x) -> holds m' g k it <-> holds m g k it.
Proof using.
  intros Hm. split; intros (n & lo & hi & nd & i & Hg & Hn & ?); exists n, lo, hi, nd, i;
    (split; [done|]); [rewrite <- Hm by eauto|rewrite Hm by eauto]; done.
Qed.

(** A read returns the item that the tree maps the key to. *)
Lemma read_holds s part_id root g H key thd_id it :
  roots s !! part_id = Some root -> tree_inv None (nodes s) g root H -> 0 <= key < KEY_END ->
  read key thd_id part_id s = Some it <-> holds (nodes s) g key it.
Proof using Horder.
  intros Hr Hinv Hk. pose proof (height_bound order Horder _ _ _ _ Hinv) as HH.
  assert (H < MAX_DEPTH)%nat as HM by (change MAX_DEPTH with 100%nat; lia). unfold read. split.
  - destruct (find_leaf_spec order junk_key s part_id root g H key Hr Hinv HM Hk) as (leaf & a & b & Hf & Hg & Hab).
    destruct (ti_node _ _ _ _ _ _ Hinv leaf _ _ _ Hg) as (_ & nd & Hm & Hok).
    pose proof (no_keys _ _ _ _ _ _ _ _ _ Hok). pose proof (no_num _ _ _ _ _ _ _ _ _ Hok).
    destruct (no_leaf_keys _ _ _ _ _ _ _ _ _ Hok eq_refl) as (Hs & _).
    unfold BTree.index_read. rewrite Hf. cbn [fst snd]. rewrite Hm.
    pose proof (leaf_has_key_spec junk_key nd key ltac:(lia) Hs) as Hlk.
    destruct (leaf_has_key junk_key nd key) as [i|]; [|done].
    destruct (ptr_at nd i) as [|it'|] eqn:Hp; [done| |done]. intros [= ->].
    exists leaf, a, b, nd, i. do 3 (split; [done|]).
    destruct (nkeys_lookup junk_key _ _ _ Hlk) as [Hi _]. unfold nptrs.
    rewrite (no_leaf _ _ _ _ _ _ _ _ _ Hok). simpl. rewrite lookup_take_lt by done.
    rewrite <- Hp. apply lookup_rd. rewrite (no_ptrs _ _ _ _ _ _ _ _ _ Hok). lia.
  - intros Hh. destruct (index_read_holds order junk_key s part_id root g H key it thd_id Hr Hinv HM Hk Hh)
      as [s' ->]. done.
Qed.

(** The promises of one insertion, for the whole index. *)
Definition inserted_index (part_id : nat) (key : Z) (item : nat) (s s' : index_btree) : Prop :=
  index_inv s' /\ length (roots s') = length (roots s) /\
  forall q k thd thd', (q < length (roots s))%nat -> 0 <= k < KEY_END ->
    read k thd q s' = if decide (q = part_id /\ k = key) then Some item else read k thd' q s.

Lemma insert_post_index part_id s gs g root H key item s' :
  index_ok s gs -> roots s !! part_id = Some root -> gs !! part_id = Some g ->
  tree_inv None (nodes s) g root H -> insert_post order part_id s g key item s' ->
  inserted_index part_id key item s s'.
Proof using Horder.
  intros Hok Hroot Hg Hinv (g' & root' & H' & Hi' & Hr' & Hf' & Hdom & Hframe & Hadd).
  assert (part_id < length (roots s))%nat as Hlt by by eapply lookup_lt_Some.
  assert (part_id < length gs)%nat as Hltg by by eapply lookup_lt_Some.
  assert (forall q gq x, q <> part_id -> gs !! q = Some gq -> is_Some (gq !! x) -> nodes s' !! x = nodes s !! x) as Hother.
  { intros q gq x Hq Hgq Hx. apply Hframe; [by apply (io_disj _ _ Hok q part_id gq g)|by apply (io_dom _ _ Hok q gq)]. }
  split; [|split; [by rewrite Hr', length_insert|]].
  - exists (<[part_id := g']> gs). constructor.
    + rewrite Hr', !length_insert. apply Hok.
    + intros p rt gp Hp Hgp. rewrite Hr' in Hp. destruct (decide (p = part_id)) as [->|Hne].
      * rewrite list_lookup_insert_eq in Hp by done. rewrite list_lookup_insert_eq in Hgp by done.
        simplify_eq. by exists H'.
      * rewrite list_lookup_insert_ne in Hp by done. rewrite list_lookup_insert_ne in Hgp by done.
        destruct (io_tree _ _ Hok p rt gp Hp Hgp) as [Hh Hti]. exists Hh.
        eapply tree_inv_frame; [|done]. intros x Hx. by eapply Hother.
    + intros p gp x Hgp Hx. destruct (decide (p = part_id)) as [->|Hne].
      * rewrite list_lookup_insert_eq in Hgp by done. simplify_eq.
        destruct (Hdom x Hx) as [Hgx|?]; [|lia]. pose proof (io_dom _ _ Hok _ _ _ Hg Hgx). lia.
      * rewrite list_lookup_insert_ne in Hgp by done. pose proof (io_dom _ _ Hok _ _ _ Hgp Hx). lia.
    + assert (forall q gq x, q <> part_id -> gs !! q = Some gq -> is_Some (g' !! x) -> gq !! x = None) as Hd.
      { intros q gq x Hq Hgq Hx. destruct (Hdom x Hx) as [Hgx|?].
        - by apply (io_disj _ _ Hok part_id q g gq).
        - destruct (gq !! x) eqn:E; [|done]. pose proof (io_dom _ _ Hok q gq x Hgq ltac:(eauto)). lia. }
      intros p q gp gq x Hpq Hgp Hgq Hx.
      destruct (decide (p = part_id)) as [->|Hne].
      * rewrite list_lookup_insert_eq in Hgp by done. rewrite list_lookup_insert_ne in Hgq by done. simplify_eq.
        by apply (Hd q).
      * rewrite list_lookup_insert_ne in Hgp by done. destruct (decide (q = part_id)) as [->|Hq].
        -- rewrite list_lookup_insert_eq in Hgq by done. simplify_eq.
           destruct (gq !! x) eqn:E; [|done]. pose proof (Hd p gp x Hne Hgp ltac:(eauto)) as Hno.
           destruct Hx. congruence.
        -- rewrite list_lookup_insert_ne in Hgq by done. by apply (io_disj _ _ Hok p q gp gq).
  - intros q k thd thd' Hq Hk. apply option_eq. intros it.
    destruct (decide (q = part_id)) as [->|Hne].
    + rewrite (read_holds s' part_id root' g' H') by (rewrite ?Hr', ?list_lookup_insert_eq; done).
      rewrite (Hadd k it). destruct (decide (part_id = part_id /\ k = key)) as [[_ ->]|Hkk].
      * split; [intros [[_ ->]|[? _]]; done|]. intros [= ->]. by left.
      * rewrite (read_holds s part_id root g H) by done.
        split; [intros [[-> _]|[_ ?]]; [by destruct Hkk|done]|]. intros ?. right. split; [|done].
        intros ->. by apply Hkk.
    + rewrite decide_False by tauto.
      destruct (lookup_lt_is_Some_2 (roots s) q Hq) as [rt Hrt].
      destruct (lookup_lt_is_Some_2 gs q) as [gq Hgq]; [by rewrite (io_len _ _ Hok)|].
      destruct (io_tree _ _ Hok q rt gq Hrt Hgq) as [Hh Hti].
      rewrite (read_holds s q rt gq Hh) by done.
      rewrite (read_holds s' q rt gq Hh); [|by rewrite Hr', list_lookup_insert_ne| |done].
      * apply holds_frame. intros x Hx. by eapply Hother.
      * eapply tree_inv_frame; [|done]. intros x Hx. by eapply Hother.
Qed.

Lemma index_insert_index part_id key item s :
  index_inv s -> (part_id < length (roots s))%nat -> 0 <= key < KEY_END ->
  exists leaf, find_leaf order junk_key s false key part_id = Some (leaf, None) /\
    (insert_fault order junk_key s leaf key -> index_insert key item part_id s = None) /\
    (~ insert_fault order junk_key s leaf key ->
       exists s', index_insert key item part_id s = Some s' /\ inserted_index part_id key item s s').
Proof using Horder Horder_small.
  intros [gs Hok] Hlt Hk.
  destruct (lookup_lt_is_Some_2 _ _ Hlt) as [root Hr].
  destruct (lookup_lt_is_Some_2 gs part_id) as [g Hg]; [by rewrite (io_len _ _ Hok)|].
  destruct (io_tree _ _ Hok _ _ _ Hr Hg) as [H Hinv].
  destruct (index_insert_spec order junk_key Horder Horder_small part_id s g root H key item Hinv Hr)
    as (leaf & a & b & Hf & _ & _ & Hfault & Hgood); [intros x; by apply (io_dom _ _ Hok part_id)|done|].
  exists leaf. split; [done|]. split; [done|]. intros Hnf. destruct (Hgood Hnf) as (s' & Hrun & Hpost).
  exists s'. split; [done|]. by eapply insert_post_index.
Qed.

(** ** The empty index *)

Lemma empty_leaf_ok n m :
  tree_inv None (<[n := mkNode (replicate order PNull) true (replicate (order - 1) junk_key) None 0 None]> m)
    {[n := (0, KEY_END, 0%nat)]} n 0.
Proof using Horder.
  set (nd := mkNode _ _ _ _ _ _). constructor.
  - intros x lo hi h Hx. apply lookup_singleton_Some in Hx as [<- Hx]. injection Hx as <- <- <-.
    split; [done|]. exists nd. split; [by rewrite lookup_insert_eq|].
    constructor; simpl; try done; try (by rewrite length_replicate); try lia.
    intros _. unfold nkeys, nptrs. simpl. split_and!; try done; constructor.
  - split; [by rewrite lookup_singleton_eq|]. unfold parent_of. by rewrite lookup_insert_eq.
  - intros x [? Hx] Hne _. apply lookup_singleton_Some in Hx as [-> _]. done.
Qed.

Lemma init_roots_ok part_cnt s gs :
  index_ok s gs -> (forall g p, gs !! p = Some g -> forall k it, ~ holds (nodes s) g k it) ->
  exists gs', index_ok (init_roots order junk_key part_cnt s) gs' /\
    length (roots (init_roots order junk_key part_cnt s)) = (length (roots s) + part_cnt)%nat /\
    (forall g p, gs' !! p = Some g -> forall k it, ~ holds (nodes (init_roots order junk_key part_cnt s)) g k it).
Proof using Horder.
  revert s gs. induction part_cnt as [|n IH]; intros s gs Hok Hemp; cbn [init_roots make_lf make_node].
  - exists gs. split_and!; [done|lia|done].
  - set (nd := mkNode _ _ _ _ _ _). set (s1 := set_roots _ _).
    assert (forall q gq x, gs !! q = Some gq -> is_Some (gq !! x) -> nodes s1 !! x = nodes s !! x) as Hold.
    { intros q gq x Hq Hx. pose proof (io_dom _ _ Hok q gq x Hq Hx). simpl. apply lookup_insert_ne. lia. }
    destruct (IH s1 (gs ++ [{[fresh_node s := (0, KEY_END, 0%nat)]}])) as (gs' & Hok' & Hlen & Hemp').
    + assert (forall p g, (gs ++ [{[fresh_node s := (0, KEY_END, 0%nat)]}]) !! p = Some g ->
        gs !! p = Some g \/ (p = length gs /\ g = {[fresh_node s := (0, KEY_END, 0%nat)]})) as Happ.
      { intros p g Hp. apply lookup_app_Some in Hp as [?|[Hle Hp]]; [by left|right].
        apply list_lookup_singleton_Some in Hp as [Heq ->]. split; [lia|done]. }
      constructor.
      * simpl. rewrite !length_app, (io_len _ _ Hok). done.
      * intros p root g Hr Hg. simpl in Hr. destruct (Happ p g Hg) as [Hg'|[-> ->]].
        -- rewrite lookup_app_l in Hr by (rewrite <- (io_len _ _ Hok); by eapply lookup_lt_Some).
           destruct (io_tree _ _ Hok p root g Hr Hg') as [H Hinv]. exists H.
           eapply tree_inv_frame; [|done]. intros x. by apply (Hold p).
        -- rewrite (io_len _ _ Hok), list_lookup_middle in Hr by done. injection Hr as <-.
           exists 0%nat. by apply empty_leaf_ok.
      * intros p g x Hg [y Hx]. simpl. destruct (Happ p g Hg) as [Hg'|[_ ->]].
        -- pose proof (io_dom _ _ Hok p g x Hg' ltac:(eauto)). lia.
        -- apply lookup_singleton_Some in Hx as [<- _]. lia.
      * intros p q gp gq x Hpq Hgp Hgq [y Hx].
        destruct (Happ p gp Hgp) as [Hp|[-> ->]], (Happ q gq Hgq) as [Hq|[-> ->]]; [| | |done].
        -- apply (io_disj _ _ Hok p q gp gq x Hpq Hp Hq). eauto.
        -- apply lookup_singleton_ne. pose proof (io_dom _ _ Hok p gp x Hp ltac:(eauto)). lia.
        -- apply lookup_singleton_Some in Hx as [<- _]. destruct (gq !! fresh_node s) eqn:E; [|done].
           pose proof (io_dom _ _ Hok q gq _ Hq ltac:(eauto)). lia.
    + intros g p Hp k it Hh. apply lookup_app_Some in Hp as [Hp|[_ Hp]].
      * apply (Hemp g p Hp k it). eapply holds_frame; [|done]. intros x Hx. symmetry. by apply (Hold p g).
      * apply list_lookup_singleton_Some in Hp as [_ <-].
        destruct Hh as (x & lo & hi & xd & i & Hx & Hxd & Hi & _).
        apply lookup_singleton_Some in Hx as [<- _]. simpl in Hxd. rewrite lookup_insert_eq in Hxd.
        injection Hxd as <-. done.
    + exists gs'. split; [done|]. split; [|done]. rewrite Hlen. simpl. rewrite length_app. simpl. lia.
Qed.

Lemma init_ok part_cnt g_thread_cnt :
  let s := init order junk_key part_cnt g_thread_cnt in
  index_inv s /\ length (roots s) = part_cnt /\
  forall k thd q, (q < part_cnt)%nat -> 0 <= k < KEY_END -> read k thd q s = None.
Proof using Horder.
  intros s. destruct (init_roots_ok part_cnt
    (mkBtree ∅ 0 ∅ [] (replicate g_thread_cnt None) (replicate g_thread_cnt 0%nat)) []) as (gs & Hok & Hlen & Hemp).
  - constructor; simpl; done.
  - done.
  - fold (init order junk_key part_cnt g_thread_cnt) in Hok, Hlen, Hemp. fold s in Hok, Hlen, Hemp.
    simpl in Hlen. split_and!; [by exists gs|done|]. intros k thd q Hq Hk.
    destruct (lookup_lt_is_Some_2 (roots s) q) as [root Hr]; [by rewrite Hlen|].
    destruct (lookup_lt_is_Some_2 gs q) as [g Hg]; [by rewrite (io_len _ _ Hok), Hlen|].
    destruct (io_tree _ _ Hok _ _ _ Hr Hg) as [H Hinv].
    destruct (read k thd q s) as [it|] eqn:Hread; [|done].
    apply (read_holds s q root g H k thd it Hr Hinv Hk) in Hread. by destruct (Hemp g q Hg k it).
Qed.

(** ** Keys in ascending order *)

Lemma node_bounds m g root H d n a b h :
  tree_inv None m g root H -> (h + d = H)%nat -> g !! n = Some (a, b, h) -> 0 <= a /\ b <= KEY_END.
Proof using Horder.
  intros Hinv. revert n a b h. induction d as [|d IH]; intros n a b h Hd Hg.
  - destruct (height_le _ _ _ _ _ _ _ _ _ Hinv Hg) as [_ Hr]. rewrite Nat.add_0_r in Hd.
    rewrite (Hr Hd) in Hg. destruct (root_ghost _ _ _ _ _ Hinv) as [Hg' _]. simplify_eq. done.
  - destruct (root_ghost _ _ _ _ _ Hinv) as [Hr _].
    destruct (linked_parent _ _ _ _ _ _ _ _ _ Hinv Hg) as (p & pd & i & lo & hi & _ & _ & Hp & ? & ? & _).
    { intros ->. rewrite Hr in Hg. injection Hg. lia. }
    destruct (IH p lo hi (S h)); [lia|done|lia].
Qed.

(** The rightmost path has no first child. *)
Lemma rightmost_no_fault m g root H n a h :
  tree_inv None m g root H -> g !! n = Some (a, KEY_END, h) -> ~ shift_fault order m n.
Proof using Horder.
  intros Hinv Hg Hf. revert a h Hg.
  assert (forall n p pd a h, parent_of m n = Some (Some p) -> m !! p = Some pd ->
    g !! n = Some (a, KEY_END, h) -> ptr_at pd 0 <> PNode n /\ exists lo, g !! p = Some (lo, KEY_END, S h)) as Hstep.
  { intros x p pd a h Hp Hpd Hg.
    destruct (linked_parent _ _ _ _ _ _ _ _ _ Hinv Hg)
      as (p' & pd' & i & lo & hi & Hp' & Hpd' & Hgp & _ & Hhi & Hs & Hi & _ & Hb).
    { intros ->. destruct (root_ghost _ _ _ _ _ Hinv) as [_ Hr]. congruence. }
    assert (p' = p) as -> by congruence. assert (pd' = pd) as -> by congruence.
    destruct (ti_node _ _ _ _ _ _ Hinv p _ _ _ Hgp) as (HhH & pd' & Hpd'' & Hok).
    assert (pd' = pd) as -> by congruence.
    destruct (node_bounds m g root H (H - S h) p lo hi (S h) Hinv) as [_ Hle]; [lia|done|].
    assert (hi = KEY_END) as -> by lia. split; [|by exists lo].
    destruct (no_kids _ _ _ _ _ _ _ _ _ Hok h eq_refl) as (Hone & Hk).
    pose proof (no_keys _ _ _ _ _ _ _ _ _ Hok) as Hkl. pose proof (no_num _ _ _ _ _ _ _ _ _ Hok) as Hnum.
    assert (S i = S (num_keys pd)) as Hlast.
    { eapply (sorted_lookup_inj _ _ _ _ Hs Hb). simpl.
      rewrite lookup_app_r by (unfold nkeys; rewrite length_take; lia).
      unfold nkeys. rewrite length_take, Nat.min_l, Nat.sub_diag by lia. done. }
    intros H0. pose proof (nptrs_inner order pd 0 (no_leaf _ _ _ _ _ _ _ _ _ Hok)
      (no_ptrs _ _ _ _ _ _ _ _ _ Hok) Hnum Hone ltac:(lia)) as Hp0. rewrite H0 in Hp0.
    assert (i = 0%nat); [|lia].
    destruct (kids_lookup _ _ _ _ _ _ _ _ _ Hk Hi) as (a1 & b1 & c1 & Ha1 & Hb1 & [= <-] & Hg1 & _).
    destruct (kids_lookup _ _ _ _ _ _ _ _ _ Hk Hp0) as (a2 & b2 & c1 & Ha2 & Hb2 & [= <-] & Hg2 & _).
    eapply (sorted_lookup_inj _ _ _ a1 Hs Ha1). congruence. }
  induction Hf as [n p pd Hp Hpd Hn H0|n p pd Hp Hpd Hn Hf IH]; intros a h Hg;
    destruct (Hstep n p pd a h Hp Hpd Hg) as [Hne [lo Hgp]]; [done|by eapply IH].
Qed.

(** The leaf of a key above all keys is the last one. *)
Lemma append_leaf m g root H leaf a b key :
  tree_inv None m g root H -> g !! leaf = Some (a, b, 0%nat) -> a <= key < b -> 0 <= key ->
  (forall k it, holds m g k it -> k < key) -> b = KEY_END.
Proof using Horder junk_key.
  intros Hinv Hg Hab Hkey Hmax.
  destruct (ti_node _ _ _ _ _ _ Hinv leaf _ _ _ Hg) as (_ & ld & Hm & Hok).
  destruct (no_leaf_keys _ _ _ _ _ _ _ _ _ Hok eq_refl) as (_ & _ & _ & Hnext).
  destruct (bt_next ld) as [l2|]; [|done]. destruct Hnext as [hi' Hg2]. exfalso.
  destruct (ti_node _ _ _ _ _ _ Hinv l2 _ _ _ Hg2) as (_ & ld2 & Hm2 & Hok2).
  destruct (no_lo _ _ _ _ _ _ _ _ _ Hok2 eq_refl) as [?|[i Hi]%list_elem_of_lookup_1]; [lia|].
  destruct (no_leaf_keys _ _ _ _ _ _ _ _ _ Hok2 eq_refl) as (_ & _ & Hit & _).
  destruct (nkeys_lookup junk_key _ _ _ Hi) as [Hin _].
  pose proof (nptrs_leaf_length order ld2 (no_leaf _ _ _ _ _ _ _ _ _ Hok2) (no_ptrs _ _ _ _ _ _ _ _ _ Hok2)
    (no_num _ _ _ _ _ _ _ _ _ Hok2)) as Hlen.
  destruct (lookup_lt_is_Some_2 (nptrs ld2) i) as [p Hp]; [lia|].
  rewrite Forall_forall in Hit. destruct (Hit p) as [it ->]; [by eapply list_elem_of_lookup_2|].
  pose proof (Hmax b it ltac:(by exists l2, b, hi', ld2, i)). lia.
Qed.

Lemma append_insert part_id key item s :
  index_inv s -> (part_id < length (roots s))%nat -> 0 <= key < KEY_END ->
  (forall k it, 0 <= k < KEY_END -> read k 0 part_id s = Some it -> k < key) ->
  exists s', index_insert key item part_id s = Some s' /\ inserted_index part_id key item s s'.
Proof using Horder Horder_small.
  intros Hinv Hlt Hk Hmax.
  destruct (index_insert_index part_id key item s Hinv Hlt Hk) as (leaf & Hf & _ & Hgood).
  apply Hgood. intros (ld & _ & _ & _ & Hfault).
  destruct Hinv as [gs Hok]. destruct (lookup_lt_is_Some_2 _ _ Hlt) as [root Hr].
  destruct (lookup_lt_is_Some_2 gs part_id) as [g Hg]; [by rewrite (io_len _ _ Hok)|].
  destruct (io_tree _ _ Hok _ _ _ Hr Hg) as [H Hinv].
  pose proof (height_bound order Horder _ _ _ _ Hinv) as HH.
  assert (H < MAX_DEPTH)%nat as HM by (change MAX_DEPTH with 100%nat; lia).
  destruct (find_leaf_spec order junk_key s part_id root g H key Hr Hinv HM Hk) as (leaf' & a & b & Hf' & Hgl & Hab).
  assert (leaf' = leaf) as -> by congruence.
  assert (b = KEY_END) as ->.
  { eapply (append_leaf (nodes s) g root H leaf a b key Hinv Hgl Hab); [lia|].
    intros k it Hh. assert (0 <= k < KEY_END) as Hkr.
    { destruct Hh as (n & lo & hi & nd & i & Hn & Hnd & Hi & Hp).
      destruct (node_bounds _ _ _ _ H n lo hi 0 Hinv ltac:(done) Hn).
      assert (lo <= k < hi); [|lia]. eapply (pairs_hold_range order); [exact Hinv|done|done|by exists i]. }
    apply (Hmax k it Hkr). by apply (read_holds s part_id root g H k 0 it Hr Hinv Hkr). }
  by eapply rightmost_no_fault.
Qed.

Lemma index_inserts_append part_id l s :
  index_inv s -> (part_id < length (roots s))%nat ->
  StronglySorted Z.lt (map fst l) -> Forall (fun k => 0 <= k < KEY_END) (map fst l) ->
  (forall k it, 0 <= k < KEY_END -> read k 0 part_id s = Some it -> Forall (fun k' => k < k') (map fst l)) ->
  exists s', index_inserts order junk_key l part_id s = Some s' /\ index_inv s' /\
    forall k, 0 <= k < KEY_END -> forall thd thd',
      read k thd part_id s' =
        match find (fun p => fst p =? k) l with Some p => Some (snd p) | None => read k thd' part_id s end.
Proof using Horder Horder_small.
  revert s. induction l as [|[key item] l IH]; intros s Hinv Hlt Hs HF Hmax; cbn [index_inserts].
  - exists s. split_and!; [done|done|]. intros k Hk thd thd'. simpl.
    destruct Hinv as [gs Hok]. destruct (lookup_lt_is_Some_2 _ _ Hlt) as [root Hr].
    destruct (lookup_lt_is_Some_2 gs part_id) as [g Hg]; [by rewrite (io_len _ _ Hok)|].
    destruct (io_tree _ _ Hok _ _ _ Hr Hg) as [H Hinv]. apply option_eq. intros it.
    by rewrite !(read_holds s part_id root g H).
  - simpl in Hs, HF. apply StronglySorted_inv in Hs as [Hs Hlt1]. apply Forall_cons in HF as [Hkey HF].
    destruct (append_insert part_id key item s Hinv Hlt Hkey) as (s1 & -> & Hinv1 & Hlen1 & Hread).
    { intros k it Hk Hrd. specialize (Hmax k it Hk Hrd). simpl in Hmax. by apply Forall_cons in Hmax as [? _]. }
    destruct (IH s1 Hinv1) as (s' & -> & Hinv' & Hread'); [by rewrite Hlen1|done|done| |].
    { intros k it Hk. rewrite (Hread part_id k 0%nat 0%nat Hlt Hk). case_decide as Hd.
      - destruct Hd as [_ ->]. done.
      - intros Hrd. specialize (Hmax k it Hk Hrd). simpl in Hmax. by apply Forall_cons in Hmax as [_ ?]. }
    exists s'. split_and!; [done|done|]. intros k Hk thd thd'. rewrite (Hread' k Hk thd 0%nat). cbn [find fst snd].
    destruct (Z.eqb_spec key k) as [->|Hne].
    + rewrite (Hread part_id k 0%nat 0%nat Hlt Hk), decide_True by done.
      destruct (find (fun p => fst p =? k) l) as [q|] eqn:Hfind; [|done]. exfalso.
      apply find_some in Hfind as [Hin Hq]. b2p.
      rewrite Forall_forall in Hlt1. assert (k < fst q); [|lia].
      apply Hlt1, list_elem_of_fmap_2, list_elem_of_In. done.
    + destruct (find (fun p => fst p =? k) l); [done|].
      rewrite (Hread part_id k 0%nat thd' Hlt Hk). by rewrite decide_False by (intros [_ ?]; congruence).
Qed.

(** ** Scans *)

Lemma index_read_leaf s part_id root g H key thd_id leaf a b nd i it :
  roots s !! part_id = Some root -> tree_inv None (nodes s) g root H ->
  g !! leaf = Some (a, b, 0%nat) -> nodes s !! leaf = Some nd -> 0 <= key < KEY_END -> a <= key < b ->
  nkeys nd !! i = Some key -> ptr_at nd i = PItem it ->
  index_read key thd_id part_id s = Some (it, set_cur thd_id (Some leaf) i s).
Proof using Horder.
  intros Hr Hinv Hg Hm Hk Hab Hi Hp. pose proof (height_bound order Horder _ _ _ _ Hinv) as HH.
  assert (H < MAX_DEPTH)%nat as HM by (change MAX_DEPTH with 100%nat; lia).
  destruct (find_leaf_spec order junk_key s part_id root g H key Hr Hinv HM Hk) as (leaf' & a' & b' & Hf & Hg' & Hab').
  assert (leaf' = leaf) as -> by by eapply (covering_unique order (nodes s) g root H H leaf' leaf _ _ _ _ 0).
  destruct (ti_node _ _ _ _ _ _ Hinv leaf _ _ _ Hg) as (_ & nd' & Hm' & Hok). simplify_eq.
  destruct (no_leaf_keys _ _ _ _ _ _ _ _ _ Hok eq_refl) as (Hs & _).
  pose proof (no_keys _ _ _ _ _ _ _ _ _ Hok). pose proof (no_num _ _ _ _ _ _ _ _ _ Hok).
  unfold BTree.index_read. rewrite Hf. cbn [fst snd]. rewrite Hm.
  pose proof (leaf_has_key_spec junk_key nd key ltac:(lia) Hs) as Hlk.
  destruct (leaf_has_key junk_key nd key) as [j|].
  - assert (j = i) as -> by by eapply sorted_lookup_inj. by rewrite Hp.
  - contradict Hlk. by eapply list_elem_of_lookup_2.
Qed.

(** The item of a cell of a leaf. *)
Lemma leaf_item pend g par n lo hi nd i k :
  node_ok order pend g par n lo hi 0 nd -> nkeys nd !! i = Some k ->
  lo <= k < hi /\ exists it, ptr_at nd i = PItem it.
Proof using junk_key.
  intros Hok Hi. destruct (no_leaf_keys _ _ _ _ _ _ _ _ _ Hok eq_refl) as (_ & HF & Hit & _).
  rewrite Forall_lookup in HF. split; [by apply (HF i)|].
  destruct (nkeys_lookup junk_key _ _ _ Hi) as [Hin _].
  pose proof (no_ptrs _ _ _ _ _ _ _ _ _ Hok) as Hp. pose proof (no_num _ _ _ _ _ _ _ _ _ Hok) as Hn.
  pose proof (nptrs_leaf_length order nd (no_leaf _ _ _ _ _ _ _ _ _ Hok) Hp Hn) as Hlen.
  destruct (lookup_lt_is_Some_2 (nptrs nd) i) as [p Hpi]; [by rewrite Hlen|].
  rewrite Forall_lookup in Hit. destruct (Hit i p Hpi) as [it ->]. exists it.
  unfold nptrs in Hpi. apply lookup_take_Some in Hpi as [Hpi _]. by apply rd_lookup.
Qed.

(** No key lies between two neighbours of a leaf, nor after its last key. *)
Lemma leaf_gap s part_id root g H leaf a b nd i k k2 thd :
  roots s !! part_id = Some root -> tree_inv None (nodes s) g root H ->
  g !! leaf = Some (a, b, 0%nat) -> nodes s !! leaf = Some nd -> nkeys nd !! i = Some k ->
  (forall k', nkeys nd !! S i = Some k' -> k2 < k') -> 0 <= k < k2 -> k2 < b -> b <= KEY_END ->
  read k2 thd part_id s = None.
Proof using Horder.
  intros Hr Hinv Hg Hm Hi Hnext Hk Hb HbE.
  destruct (ti_node _ _ _ _ _ _ Hinv leaf _ _ _ Hg) as (_ & nd' & Hm' & Hok). simplify_eq.
  destruct (leaf_item _ _ _ _ _ _ _ _ _ Hok Hi) as [Hak _].
  destruct (read k2 thd part_id s) as [it|] eqn:Hrd; [|done]. exfalso.
  apply (read_holds s part_id root g H) in Hrd; [|done|done|lia].
  destruct (holds_leaf order _ _ _ _ _ _ _ _ _ _ Hinv Hrd Hg ltac:(lia) Hm) as (j & Hj & _).
  destruct (no_leaf_keys _ _ _ _ _ _ _ _ _ Hok eq_refl) as (Hs & _).
  destruct (Nat.lt_trichotomy j (S i)) as [Hlt|[->|Hgt]].
  - pose proof (sorted_lookup_le _ j i _ _ Hs Hj Hi ltac:(lia)). lia.
  - specialize (Hnext _ Hj). lia.
  - destruct (lookup_lt_is_Some_2 (nkeys nd) (S i)) as [k' Hk']; [apply lookup_lt_Some in Hj; lia|].
    specialize (Hnext _ Hk'). pose proof (sorted_lookup _ (S i) j _ _ Hs Hk' Hj Hgt). lia.
Qed.

(** A read and the following step of the scan. *)
Lemma index_next_spec s part_id key thd_id it s1 :
  index_inv s -> (part_id < length (roots s))%nat -> 0 <= key < KEY_END ->
  (thd_id < length (cur_leaf s))%nat -> length (cur_idx s) = length (cur_leaf s) ->
  index_read key thd_id part_id s = Some (it, s1) ->
  exists r s2, index_next junk_key thd_id false s1 = Some (r, s2) /\
    match r with
    | None => forall k, key < k < KEY_END -> read k thd_id part_id s = None
    | Some it' => exists k', key < k' < KEY_END /\ index_read k' thd_id part_id s1 = Some (it', s2) /\
        forall k, key < k < k' -> read k thd_id part_id s = None
    end.
Proof using Horder.
  intros [gs Hok] Hlt Hk Hthd Hcur Hrd.
  destruct (lookup_lt_is_Some_2 _ _ Hlt) as [root Hr].
  destruct (lookup_lt_is_Some_2 gs part_id) as [g Hg]; [by rewrite (io_len _ _ Hok)|].
  destruct (io_tree _ _ Hok _ _ _ Hr Hg) as [H Hinv].
  assert (holds (nodes s) g key it) as (leaf & a & b & nd & i & Hgl & Hm & Hi & Hp).
  { apply (read_holds s part_id root g H key thd_id it Hr Hinv Hk). unfold read. by rewrite Hrd. }
  destruct (ti_node _ _ _ _ _ _ Hinv leaf _ _ _ Hgl) as (_ & nd' & Hm' & Hnok).
  assert (nd' = nd) as -> by congruence.
  destruct (leaf_item _ _ _ _ _ _ _ _ _ Hnok Hi) as [Hab [it' Hpi]].
  destruct (node_bounds _ _ _ _ H leaf a b 0 Hinv ltac:(done) Hgl) as [Ha Hb].
  rewrite (index_read_leaf s part_id root g H key thd_id leaf a b nd i it') in Hrd by done.
  injection Hrd as -> <-.
  pose proof (no_leaf _ _ _ _ _ _ _ _ _ Hnok) as Hleaf. simpl in Hleaf.
  destruct (nkeys_lookup junk_key _ _ _ Hi) as [Hin _].
  pose proof (no_keys _ _ _ _ _ _ _ _ _ Hnok) as Hkl. pose proof (no_num _ _ _ _ _ _ _ _ _ Hnok) as Hn.
  unfold index_next. cbn [cur_idx cur_leaf set_cur nodes].
  rewrite !list_lookup_insert_eq by lia. rewrite Hm. cbv zeta.
  destruct (Nat.leb_spec (num_keys nd) (S i)) as [Hlast|Hmore].
  - assert (forall k', nkeys nd !! S i = Some k' -> forall x, x < k') as Hno.
    { intros k' [? _]%(nkeys_lookup junk_key). lia. }
    destruct (no_leaf_keys _ _ _ _ _ _ _ _ _ Hnok eq_refl) as (_ & _ & _ & Hnext).
    destruct (bt_next nd) as [l2|].
    + destruct Hnext as [hi' Hg2].
      destruct (ti_node _ _ _ _ _ _ Hinv l2 _ _ _ Hg2) as (_ & nd2 & Hm2 & Hok2).
      destruct (no_lo _ _ _ _ _ _ _ _ _ Hok2 eq_refl) as [?|[j Hj]%list_elem_of_lookup_1]; [lia|].
      destruct (no_leaf_keys _ _ _ _ _ _ _ _ _ Hok2 eq_refl) as (Hs2 & HF2 & _).
      assert (j = 0%nat) as ->.
      { destruct j as [|j]; [done|]. destruct (lookup_lt_is_Some_2 (nkeys nd2) 0) as [k0 Hk0];
          [apply lookup_lt_Some in Hj; lia|].
        rewrite Forall_lookup in HF2. pose proof (HF2 _ _ Hk0).
        pose proof (sorted_lookup _ 0 (S j) _ _ Hs2 Hk0 Hj ltac:(lia)). lia. }
      destruct (leaf_item _ _ _ _ _ _ _ _ _ Hok2 Hj) as [Hb2 [it2 Hp2]].
      destruct (node_bounds _ _ _ _ H l2 b hi' 0 Hinv ltac:(done) Hg2) as [_ Hhi].
      change (nodes (set_cur thd_id (Some l2) 0 (set_cur thd_id (Some leaf) i s))) with (nodes s).
      rewrite Hm2, (no_leaf _ _ _ _ _ _ _ _ _ Hok2). cbn [Nat.eqb c_assert andb]. rewrite Hp2. cbn [item_of].
      eexists (Some it2), _. split; [done|]. exists b. split; [lia|]. split.
      * eapply (index_read_leaf (set_cur thd_id (Some leaf) i s) part_id root g H b thd_id l2 b hi' nd2 0); try done; lia.
      * intros k Hk2. eapply (leaf_gap s part_id root g H leaf a b nd i key); try done; [|lia..].
        intros k' Hk'. by apply Hno.
    + eexists None, _. split; [done|]. intros k Hk2.
      eapply (leaf_gap s part_id root g H leaf a b nd i key); try done; [|lia..].
      intros k' Hk'. by apply Hno.
  - pose proof (lookup_nkeys junk_key nd (S i) ltac:(lia) Hmore) as Hi2.
    destruct (leaf_item _ _ _ _ _ _ _ _ _ Hnok Hi2) as [Hab2 [it2 Hp2]].
    change (nodes (set_cur thd_id (Some leaf) (S i) (set_cur thd_id (Some leaf) i s))) with (nodes s).
    rewrite Hm, Hleaf. cbn [c_assert andb]. rewrite Hp2. cbn [item_of].
    destruct (no_leaf_keys _ _ _ _ _ _ _ _ _ Hnok eq_refl) as (Hs & _).
    pose proof (sorted_lookup _ i (S i) _ _ Hs Hi Hi2 ltac:(lia)).
    eexists (Some it2), _. split; [done|]. exists (key_at junk_key nd (S i)). split; [lia|]. split.
    + eapply (index_read_leaf (set_cur thd_id (Some leaf) i s) part_id root g H _ thd_id leaf a b nd (S i)); try done; lia.
    + intros k Hk2. eapply (leaf_gap s part_id root g H leaf a b nd i key); try done; [|lia..].
      intros k' Hk'. rewrite Hi2 in Hk'. injection Hk' as <-. lia.
Qed.
End index.

(** ** Properties *)

(** C22. One insertion, for an index that satisfies the invariant: the search
    ends in the leaf of the key; the insertion stops the program exactly when the
    leaf is full, does not have the key, and the first node with room above it is
    reached through its first child (the loop with the 32-bit counter runs past
    index 0); otherwise it ends, the invariant holds again, the key reads as the
    new item and every other key of every partition reads as before. *)
Theorem btree_insert_correct order junk_key part_id key item s
  (Horder : (3 <= order)%nat) (Hsmall : Z.of_nat order < 2 ^ 32 - 1)
  (Hinv : index_inv order s) (Hpart : (part_id < length (roots s))%nat) (Hkey : 0 <= key < 2 ^ 64) :
  exists leaf, find_leaf order junk_key s false key part_id = Some (leaf, None) /\
    (insert_fault order junk_key s leaf key ->
       index_insert order junk_key key item part_id s = None) /\
    (~ insert_fault order junk_key s leaf key ->
       exists s', index_insert order junk_key key item part_id s = Some s' /\
         index_inv order s' /\ length (roots s') = length (roots s) /\
         forall q k thd thd', (q < length (roots s))%nat -> 0 <= k < 2 ^ 64 ->
           read order junk_key k thd q s' =
             if decide (q = part_id /\ k = key) then Some item else read order junk_key k thd' q s).
Proof. by apply index_insert_index. Qed.

Lemma btree_insert_correct_witness :
  exists leaf, find_leaf 4 0 (init 4 0 2 1) false 7 1 = Some (leaf, None) /\
    (insert_fault 4 0 (init 4 0 2 1) leaf 7 -> index_insert 4 0 7 70 1 (init 4 0 2 1) = None) /\
    (~ insert_fault 4 0 (init 4 0 2 1) leaf 7 ->
       exists s', index_insert 4 0 7 70 1 (init 4 0 2 1) = Some s' /\
         index_inv 4 s' /\ length (roots s') = length (roots (init 4 0 2 1)) /\
         forall q k thd thd', (q < length (roots (init 4 0 2 1)))%nat -> 0 <= k < 2 ^ 64 ->
           read 4 0 k thd q s' =
             if decide (q = 1%nat /\ k = 7) then Some 70%nat else read 4 0 k thd' q (init 4 0 2 1)).
Proof.
  apply (btree_insert_correct 4 0 1 7 70 (init 4 0 2 1)).
  - lia.
  - lia.
  - apply (init_ok 4 0 ltac:(lia) 2 1).
  - simpl. lia.
  - lia.
Defined.

(** Building an index by insertions in ascending order of the keys, however
    many: from [init] every insertion ends, and afterwards each key reads as the
    item it was inserted with and the other keys are absent. *)
Theorem btree_ascending order junk_key part_cnt g_thread_cnt part_id l
  (Horder : (3 <= order)%nat) (Hsmall : Z.of_nat order < 2 ^ 32 - 1)
  (Hpart : (part_id < part_cnt)%nat)
  (Hsorted : StronglySorted Z.lt (map fst l)) (Hrange : Forall (fun k => 0 <= k < 2 ^ 64) (map fst l)) :
  exists s', index_inserts order junk_key l part_id (init order junk_key part_cnt g_thread_cnt) = Some s' /\
    index_inv order s' /\
    forall k thd, 0 <= k < 2 ^ 64 ->
      read order junk_key k thd part_id s' = option_map snd (find (fun p => fst p =? k) l).
Proof.
  destruct (init_ok order junk_key Horder part_cnt g_thread_cnt) as (Hinv & Hlen & Hemp).
  destruct (index_inserts_append order junk_key Horder Hsmall part_id l
    (init order junk_key part_cnt g_thread_cnt)) as (s' & -> & Hinv' & Hread); [done|by rewrite Hlen|done|done| |].
  { intros k it Hk. by rewrite Hemp. }
  exists s'. split; [done|]. split; [done|]. intros k thd Hk.
  rewrite (Hread k Hk thd 0%nat), Hemp by done. by destruct (find _ l).
Qed.

Definition ascending (n : nat) : list (Z * nat) := map (fun i => (Z.of_nat i, i)) (seq 0 n).

Lemma btree_ascending_witness :
  exists s', index_inserts 3 0 (ascending 5) 0 (init 3 0 1 1) = Some s' /\
    index_inv 3 s' /\
    forall k thd, 0 <= k < 2 ^ 64 ->
      read 3 0 k thd 0 s' = option_map snd (find (fun p => fst p =? k) (ascending 5)).
Proof.
  apply (btree_ascending 3 0 1 1 0 (ascending 5)).
  - lia.
  - lia.
  - lia.
  - repeat constructor.
  - repeat constructor; simpl; lia.
Defined.

(** A scan: after a read of [key], [index_next] ends and returns the item of
    the next larger key of the partition, leaving the thread where a read of that
    key leaves it; at the end of the index it returns a null item. *)
Theorem btree_scan order junk_key s part_id key thd_id it s1
  (Horder : (3 <= order)%nat) (Hinv : index_inv order s) (Hpart : (part_id < length (roots s))%nat)
  (Hkey : 0 <= key < 2 ^ 64) (Hthd : (thd_id < length (cur_leaf s))%nat)
  (Hcur : length (cur_idx s) = length (cur_leaf s))
  (Hread : index_read order junk_key key thd_id part_id s = Some (it, s1)) :
  exists r s2, index_next junk_key thd_id false s1 = Some (r, s2) /\
    match r with
    | None => forall k, key < k < 2 ^ 64 -> read order junk_key k thd_id part_id s = None
    | Some it' => exists k', key < k' < 2 ^ 64 /\
        index_read order junk_key k' thd_id part_id s1 = Some (it', s2) /\
        forall k, key < k < k' -> read order junk_key k thd_id part_id s = None
    end.
Proof. by eapply index_next_spec. Qed.

(** The index that the insertions of [ascending 5] build. *)
Definition index_ex : index_btree :=
  default (init 3 0 1 1) (index_inserts 3 0 (ascending 5) 0 (init 3 0 1 1)).

Lemma index_ex_inv : index_inv 3 index_ex.
Proof.
  destruct (init_ok 3 0 ltac:(lia) 1 1) as (Hinv & Hlen & Hemp).
  destruct (index_inserts_append 3 0 ltac:(lia) ltac:(lia) 0 (ascending 5) (init 3 0 1 1))
    as (s' & Hrun & Hinv' & _).
  - done.
  - rewrite Hlen. lia.
  - repeat constructor.
  - unfold KEY_END. repeat constructor; simpl; lia.
  - intros k it Hk. rewrite Hemp by (done || lia). done.
  - unfold index_ex. by rewrite Hrun.
Qed.

Definition scan_ex : index_btree :=
  match index_read 3 0 2 0 0 index_ex with Some p => snd p | None => index_ex end.

Lemma btree_scan_witness :
  exists r s2, index_next 0 0 false scan_ex = Some (r, s2) /\
    match r with
    | None => forall k, 2 < k < 2 ^ 64 -> read 3 0 k 0 0 index_ex = None
    | Some it' => exists k', 2 < k' < 2 ^ 64 /\
        index_read 3 0 k' 0 0 scan_ex = Some (it', s2) /\
        forall k, 2 < k < k' -> read 3 0 k 0 0 index_ex = None
    end.
Proof.
  apply (btree_scan 3 0 index_ex 0 2 0 2 scan_ex).
  - lia.
  - exact index_ex_inv.
  - vm_compute. lia.
  - lia.
  - vm_compute. lia.
  - vm_compute. reflexivity.
  - vm_compute. reflexivity.
Defined.

(** Building an index in descending order of the keys stops the program: with
    [BTREE_ORDER] 16, as configured, at the 24th key, where the keys of the root
    would be shifted from index 0; so do, for instance, keys below those of an
    index built in ascending order. *)
Theorem btree_descending_fails :
  is_Some (index_inserts 16 0 (reverse (ascending 23)) 0 (init 16 0 1 1)) /\
  index_inserts 16 0 (reverse (ascending 24)) 0 (init 16 0 1 1) = None /\
  index_inserts 16 0 (map (fun p => (fst p + 100, snd p)) (ascending 16) ++ ascending 8) 0
    (init 16 0 1 1) = None.
Proof. split_and!; [eexists; vm_compute; reflexivity|vm_compute; reflexivity..]. Qed.
