(* ===== verification/BTreeLatch.v ===== *)
(** * The latches of the B+-tree nodes

    [latch_node], [release_latch] and [upgrade_latch] of
    src/storage/index_btree.cpp with [ENABLE_LATCH]: the fields [latch_type] and
    [share_cnt] of a node, each function being one atomic step under the spin lock
    [latch].  They implement a lock with shared holders or one exclusive holder. *)

From S2P Require Import Prelude Global.

Record bt_latch := mkLatch {
  latch_type : latch_t;
  share_cnt : Z }.

Definition latch_node (lt : latch_t) (l : bt_latch) : option (bool * bt_latch) :=
  if bool_decide (latch_type l = LATCH_NONE) ||
     (bool_decide (latch_type l = LATCH_SH) && bool_decide (lt = LATCH_SH)) then
    assert! negb (bool_decide (latch_type l = LATCH_NONE)) || (share_cnt l =? 0);;
    Some (true, mkLatch lt (if bool_decide (lt = LATCH_SH) then u32 (share_cnt l + 1) else share_cnt l))
  else Some (false, l).

Definition release_latch (l : bt_latch) : option bt_latch :=
  assert! negb (bool_decide (latch_type l = LATCH_NONE));;
  match latch_type l with
  | LATCH_SH =>
      let cnt := u32 (share_cnt l - 1) in
      Some (mkLatch (if cnt =? 0 then LATCH_NONE else LATCH_SH) cnt)
  | _ => Some (mkLatch LATCH_NONE (share_cnt l))
  end.

Definition upgrade_latch (l : bt_latch) : option (RC * bt_latch) :=
  assert! bool_decide (latch_type l = LATCH_SH);;
  if 1 <? share_cnt l then Some (Abort, l) else Some (RCOK, mkLatch LATCH_EX 0).

(** ** The lock they implement *)

(** [n] shared holders, or an exclusive one. *)
Inductive rw_state := Shared (n : nat) | Exclusive.

Definition rw_latch (lt : latch_t) (a : rw_state) : bool * rw_state :=
  match lt, a with
  | LATCH_SH, Shared n => (true, Shared (S n))
  | LATCH_EX, Shared O => (true, Exclusive)
  | _, _ => (false, a)
  end.

(** The caller holds the latch. *)
Definition rw_release (a : rw_state) : rw_state :=
  match a with Shared n => Shared (pred n) | Exclusive => Shared 0 end.

Definition rw_upgrade (a : rw_state) : RC * rw_state :=
  match a with Shared 1 => (RCOK, Exclusive) | _ => (Abort, a) end.

(** The fields of a node in a state of the lock. *)
Definition rw_repr (l : bt_latch) (a : rw_state) : Prop :=
  match a with
  | Shared O => l = mkLatch LATCH_NONE 0
  | Shared n => l = mkLatch LATCH_SH (Z.of_nat n) /\ Z.of_nat n < 2 ^ 32
  | Exclusive => l = mkLatch LATCH_EX 0
  end.

Lemma latch_node_refines lt l a :
  rw_repr l a -> lt <> LATCH_NONE -> (forall n, a = Shared n -> Z.of_nat n + 1 < 2 ^ 32) ->
  exists l', latch_node lt l = Some ((rw_latch lt a).1, l') /\ rw_repr l' (rw_latch lt a).2.
Proof.
  intros Hr Hlt Hn. destruct lt, a as [[|n]|]; simpl in Hr; try done; subst; simpl;
    try (eexists; split; [reflexivity|]; done).
  - destruct Hr as [-> Hb]. eexists. split; [reflexivity|]. done.
  - destruct Hr as [-> Hb]. specialize (Hn (S n) eq_refl). eexists. split; [reflexivity|].
    simpl. rewrite u32_small by (unfold is_u32; lia). split; [f_equal; lia|lia].
Qed.

Lemma release_latch_refines l a :
  rw_repr l a -> a <> Shared 0 -> exists l', release_latch l = Some l' /\ rw_repr l' (rw_release a).
Proof.
  intros Hr Ha. destruct a as [[|n]|]; simpl in Hr; [done| |subst; by eexists].
  destruct Hr as [-> Hb]. unfold release_latch. cbn [latch_type share_cnt].
  rewrite u32_small by (unfold is_u32; lia). eexists. split; [reflexivity|]. simpl.
  destruct n as [|n].
  - by replace (Z.of_nat 1 - 1) with 0 by lia.
  - destruct (Z.eqb_spec (Z.of_nat (S (S n)) - 1) 0); [lia|]. split; [f_equal; lia|lia].
Qed.

Lemma upgrade_latch_refines l n :
  rw_repr l (Shared (S n)) ->
  exists l', upgrade_latch l = Some ((rw_upgrade (Shared (S n))).1, l') /\
    rw_repr l' (rw_upgrade (Shared (S n))).2.
Proof.
  intros [-> Hb]. unfold upgrade_latch. cbn [latch_type share_cnt].
  rewrite c_assert_true by by apply bool_decide_eq_true_2.
  destruct n as [|n]; [by eexists|]. destruct (Z.ltb_spec 1 (Z.of_nat (S (S n)))); [|lia].
  by eexists.
Qed.
