(* ===== verification/Sort.v ===== *)
(** * Bubble sort

    The loops with which the validation procedures order the rows they lock:
    OptCC::per_row_validate (occ/occ.cpp), txn_man::validate_silo
    (silo/silo.cpp) and txn_man::validate_tictoc (tictoc/tictoc.cpp). *)

From S2P Require Import Prelude.

Section sort.
Context {A : Type} (gt : A -> A -> bool).

(** The inner loop, [j] from 0 to [i - 1]. *)
Fixpoint bubble_pass (i : nat) (l : list A) : list A :=
  match i, l with
  | S i, a :: b :: l' =>
      if gt a b then b :: bubble_pass i (a :: l') else a :: bubble_pass i (b :: l')
  | _, _ => l
  end.

(** The outer loop, from [i] down to 1. *)
Fixpoint bubble_sort (i : nat) (l : list A) : list A :=
  match i with
  | O => l
  | S i' => bubble_sort i' (bubble_pass i l)
  end.

Context (gt_total : forall a b, gt a b = true -> gt b a = false).
Context (gt_trans : forall a b c, gt a b = false -> gt b c = false -> gt a c = false).

Lemma bubble_pass_spec i l1 l2 : length l1 = S i ->
  exists l1' m, bubble_pass i (l1 ++ l2) = l1' ++ m :: l2 /\
    l1 ≡ₚ l1' ++ [m] /\ forall x, x ∈ l1 -> gt x m = false.
Proof using gt_total gt_trans.
  assert (forall a, gt a a = false) as Hrefl.
  { intros a. destruct (gt a a) eqn:E; [|done]. rewrite <- E. by apply gt_total. }
  revert l1. induction i as [|i IH]; intros [|a [|b l1]] Hlen; simpl in *; try lia.
  { exists [], a. split_and!; [done|done|]. by intros x ->%list_elem_of_singleton. }
  destruct (gt a b) eqn:Hab.
  - destruct (IH (a :: l1)) as (l1' & m & Hp & Hperm & Hmax); [simpl; lia|].
    simpl in Hp. rewrite Hp. exists (b :: l1'), m. split_and!; [done| |].
    + rewrite Permutation_swap, Hperm. done.
    + intros x Hx. assert (gt a m = false) by (apply Hmax; left).
      rewrite !elem_of_cons in Hx. destruct Hx as [->|[->|Hx]]; [done| |].
      * eapply gt_trans; [by apply gt_total|done].
      * apply Hmax. by right.
  - destruct (IH (b :: l1)) as (l1' & m & Hp & Hperm & Hmax); [simpl; lia|].
    simpl in Hp. rewrite Hp. exists (a :: l1'), m. split_and!; [done| |].
    + rewrite Hperm. done.
    + intros x Hx. rewrite elem_of_cons in Hx. destruct Hx as [->|Hx]; [|by apply Hmax].
      eapply gt_trans; [done|]. apply Hmax. left.
Qed.

Definition not_after (a b : A) : Prop := gt a b = false.

Lemma bubble_sort_spec i l1 l2 : length l1 = S i \/ (i = 0%nat /\ l1 = []) ->
  StronglySorted not_after l2 -> (forall x y, x ∈ l1 -> y ∈ l2 -> not_after x y) ->
  StronglySorted not_after (bubble_sort i (l1 ++ l2)) /\ bubble_sort i (l1 ++ l2) ≡ₚ l1 ++ l2.
Proof using gt_total gt_trans.
  revert l1 l2. induction i as [|i IH]; intros l1 l2 Hlen Hs Hle; cbn [bubble_sort].
  - split; [|done]. destruct Hlen as [Hlen|[_ ->]]; [|done].
    destruct l1 as [|a [|??]]; try done. simpl. constructor; [done|].
    apply Forall_forall. intros y Hy. apply Hle; [left|done].
  - destruct Hlen as [Hlen|[? _]]; [|done].
    destruct (bubble_pass_spec (S i) l1 l2 Hlen) as (l1' & m & -> & Hperm & Hmax).
    destruct (IH l1' (m :: l2)) as [Hso Hpe].
    + left. apply Permutation_length in Hperm. rewrite length_app in Hperm. simpl in Hperm. lia.
    + constructor; [done|]. apply Forall_forall. intros y Hy. apply Hle; [|done].
      rewrite Hperm. set_solver.
    + intros x y Hx Hy. assert (x ∈ l1) by (rewrite Hperm; set_solver).
      apply elem_of_cons in Hy as [->|Hy]; [by apply Hmax|by apply Hle].
    + split; [done|]. rewrite Hpe, Hperm, <- app_assoc. done.
Qed.
End sort.

Lemma bubble_pass_perm {A} (gt : A -> A -> bool) i l : bubble_pass gt i l ≡ₚ l.
Proof.
  revert l. induction i as [|i IH]; intros [|a [|b l]]; simpl; try done.
  destruct (gt a b); rewrite IH; [apply Permutation_swap|done].
Qed.

Lemma bubble_sort_perm {A} (gt : A -> A -> bool) i l : bubble_sort gt i l ≡ₚ l.
Proof.
  revert l. induction i as [|i IH]; intros l; cbn [bubble_sort]; [done|].
  rewrite IH. apply bubble_pass_perm.
Qed.

(** ** The write set and the read set

    The loop [for (rid = 0; rid < row_cnt; rid++)] that splits the indices of
    the accesses. *)

Section rw_sets.
Context {A : Type} (is_wr : A -> bool).

Fixpoint rw_sets (rid : nat) (accesses : list A) : list nat * list nat :=
  match accesses with
  | [] => ([], [])
  | a :: rest =>
      let '(write_set, read_set) := rw_sets (S rid) rest in
      if is_wr a then (rid :: write_set, read_set) else (write_set, rid :: read_set)
  end.

Lemma elem_of_rw_sets rid accs j :
  (j ∈ (rw_sets rid accs).1 <-> exists i a, j = (rid + i)%nat /\ accs !! i = Some a /\ is_wr a = true) /\
  (j ∈ (rw_sets rid accs).2 <-> exists i a, j = (rid + i)%nat /\ accs !! i = Some a /\ is_wr a = false).
Proof.
  revert rid. induction accs as [|a accs IH]; intros rid; simpl.
  { split; (split; [by intros ?%not_elem_of_nil|by intros (i & b & _ & Hb & _)]). }
  specialize (IH (S rid)). destruct (rw_sets (S rid) accs) as [w r]. simpl in IH.
  assert (forall x, (exists i b, j = (rid + i)%nat /\ (a :: accs) !! i = Some b /\ is_wr b = x) <->
    (j = rid /\ is_wr a = x) \/ exists i b, j = (S rid + i)%nat /\ accs !! i = Some b /\ is_wr b = x) as Hx.
  { intros x. split.
    - intros ([|i] & b & -> & Hb & Hw); simpl in Hb.
      + simplify_eq. left. split; [lia|done].
      + right. exists i, b. split_and!; [lia|done|done].
    - intros [[-> Hw]|(i & b & -> & Hb & Hw)].
      + exists 0%nat, a. split_and!; [lia|done|done].
      + exists (S i), b. split_and!; [lia|done|done]. }
  rewrite !Hx. destruct IH as [<- <-].
  destruct (is_wr a) eqn:Hw; simpl; rewrite !elem_of_cons; naive_solver congruence.
Qed.

Lemma rw_sets_NoDup rid accs : NoDup (rw_sets rid accs).1 /\ NoDup (rw_sets rid accs).2.
Proof.
  revert rid. induction accs as [|a accs IH]; intros rid; simpl; [split; constructor|].
  specialize (IH (S rid)). pose proof (elem_of_rw_sets (S rid) accs rid) as [Hw Hr].
  destruct (rw_sets (S rid) accs) as [w r]. simpl in *. destruct IH as [Hnw Hnr].
  destruct (is_wr a); simpl; (split; [|try done]); try done; apply NoDup_cons; (split; [|done]).
  - rewrite Hw. intros (i & b & Hi & _). lia.
  - rewrite Hr. intros (i & b & Hi & _). lia.
Qed.
End rw_sets.
