(* ===== verification/Serial.v ===== *)
(** * Serial executions

    Committed transactions, with what they read and wrote, replayed one after
    the other: the specification of the concurrency control schemes. *)

From S2P Require Import Prelude.

Record commit (V : Type) := mkCommit {
  c_ts : Z;
  c_reads : list (nat * V);
  c_writes : list (nat * V) }.
Arguments mkCommit {V}.
Arguments c_ts {V}.
Arguments c_reads {V}.
Arguments c_writes {V}.

Section serial.
Context {V : Type}.
Implicit Types (c : commit V) (cs : list (commit V)) (db : gmap nat V).

Definition apply_writes (ws : list (nat * V)) (db : gmap nat V) : gmap nat V :=
  fold_left (fun db w => <[w.1 := w.2]> db) ws db.

(** The committed transactions one after the other: each reads what the ones
    before it left. *)
Fixpoint replay (db : gmap nat V) (cs : list (commit V)) : Prop :=
  match cs with
  | [] => True
  | c :: cs => (forall r v, (r, v) ∈ c_reads c -> db !! r = Some v) /\
               replay (apply_writes (c_writes c) db) cs
  end.

Definition serial_db (db : gmap nat V) (cs : list (commit V)) : gmap nat V :=
  fold_left (fun db c => apply_writes (c_writes c) db) cs db.

Lemma replay_snoc db cs c : replay db (cs ++ [c]) <->
  replay db cs /\ forall r v, (r, v) ∈ c_reads c -> serial_db db cs !! r = Some v.
Proof.
  revert db. induction cs as [|c' cs IH]; intros db; simpl; [tauto|]. rewrite IH. tauto.
Qed.

Lemma serial_db_snoc db cs c :
  serial_db db (cs ++ [c]) = apply_writes (c_writes c) (serial_db db cs).
Proof. unfold serial_db. by rewrite fold_left_app. Qed.

Lemma apply_writes_other ws db r : (forall v, (r, v) ∉ ws) -> apply_writes ws db !! r = db !! r.
Proof.
  unfold apply_writes. revert db. induction ws as [|[r' v'] ws IH]; intros db Hni; simpl; [done|].
  rewrite IH; [|intros v ?; apply (Hni v); by right].
  rewrite lookup_insert_ne; [done|]. intros ->. apply (Hni v'). left.
Qed.

Lemma apply_writes_in ws db r v : NoDup ws.*1 -> (r, v) ∈ ws -> apply_writes ws db !! r = Some v.
Proof.
  unfold apply_writes. revert db. induction ws as [|[r' v'] ws IH]; intros db Hnd; simpl.
  { by intros ?%not_elem_of_nil. }
  apply NoDup_cons in Hnd as [Hni Hnd]. rewrite elem_of_cons. intros [[= -> ->]|Hin].
  - change (apply_writes ws (<[r':=v']> db) !! r' = Some v').
    rewrite apply_writes_other, lookup_insert_eq; [done|].
    intros u Hu%(list_elem_of_fmap_2 fst). done.
  - by apply IH.
Qed.

Lemma replay_app db cs cs' : replay db (cs ++ cs') <-> replay db cs /\ replay (serial_db db cs) cs'.
Proof.
  revert db. induction cs as [|c cs IH]; intros db; simpl; [tauto|]. rewrite IH. tauto.
Qed.

(** What is read is what the last writer before wrote. *)
Lemma replay_reads_from db pre c mid c' post r v v' :
  replay db (pre ++ c :: mid ++ c' :: post) ->
  NoDup (c_writes c).*1 -> (r, v) ∈ c_writes c -> (r, v') ∈ c_reads c' ->
  (forall m, m ∈ mid -> c_writes m = []) -> v' = v.
Proof.
  intros [_ [_ Hrep]]%replay_app Hnd Hw Hr Hmid.
  assert (serial_db (apply_writes (c_writes c) (serial_db db pre)) mid =
    apply_writes (c_writes c) (serial_db db pre)) as Hs.
  { clear Hrep. induction mid as [|m mid IH] using rev_ind; [done|].
    rewrite serial_db_snoc, (Hmid m) by set_solver. apply IH. set_solver. }
  apply replay_app in Hrep as [_ [Hc _]]. rewrite Hs in Hc. specialize (Hc r v' Hr).
  rewrite (apply_writes_in _ _ r v Hnd Hw) in Hc. congruence.
Qed.
End serial.

(** The orders of three. *)
Lemma perm3_inv {A} (a b c : A) l : l ≡ₚ [a; b; c] ->
  l = [a; b; c] \/ l = [a; c; b] \/ l = [b; a; c] \/ l = [b; c; a] \/ l = [c; a; b] \/ l = [c; b; a].
Proof.
  intros Hp. destruct l as [|x l]; [by apply Permutation_nil_l in Hp|].
  assert (forall y z, l ≡ₚ [y; z] -> l = [y; z] \/ l = [z; y]) as H2.
  { intros y z H. symmetry in H. by apply Permutation_length_2_inv in H. }
  assert (x ∈ [a; b; c]) as Hx by (rewrite <- Hp; left).
  rewrite !elem_of_cons in Hx. destruct Hx as [->|[->|[->|[]%not_elem_of_nil]]].
  - apply Permutation_cons_inv, H2 in Hp. naive_solver.
  - rewrite (Permutation_swap b a) in Hp. apply Permutation_cons_inv, H2 in Hp. naive_solver.
  - assert (a :: [b; c] ≡ₚ c :: [a; b]) as Hc by (by rewrite <- (Permutation_app_comm [a; b] [c])).
    rewrite Hc in Hp. apply Permutation_cons_inv, H2 in Hp. naive_solver.
Qed.
