(* ===== verification/History.v ===== *)
(** * Histories of rows

    Concurrency controls that order transactions by timestamps that are not handed out
    in the order of the commits: the versions that a log of commits made of a row, and
    when the log in the order of its timestamps is a serial execution. *)

From S2P Require Import Prelude Serial.

Lemma sorted_weaken {A} (R R' : A -> A -> Prop) l : (forall a b, R a b -> R' a b) ->
  StronglySorted R l -> StronglySorted R' l.
Proof. intros HR. induction 1 as [|a l _ IH HF]; constructor; [done|]. eapply Forall_impl; [exact HF|]. apply HR. Qed.

Section history.
Context {V : Type} (db0 : gmap nat V).
Implicit Types (c d : commit V) (cs : list (commit V)) (db : gmap nat V).

(** The versions that the commits [cs] make of row [r]: timestamp and contents. *)
Definition writes_in (r : nat) cs : list (Z * V) :=
  flat_map (fun c => map (fun w => (c_ts c, w.2)) (filter (fun w => w.1 = r) (c_writes c))) cs.

(** All versions of a row, the one of [db0] with timestamp 0. *)
Definition history (r : nat) cs : list (Z * V) :=
  match db0 !! r with Some v0 => (0, v0) :: writes_in r cs | None => [] end.

Lemma writes_in_app r cs cs' : writes_in r (cs ++ cs') = writes_in r cs ++ writes_in r cs'.
Proof using Type. apply flat_map_app. Qed.

Lemma writes_in_snoc r cs c : writes_in r (cs ++ [c]) =
  writes_in r cs ++ map (fun w => (c_ts c, w.2)) (filter (fun w => w.1 = r) (c_writes c)).
Proof using Type. rewrite writes_in_app. cbn. by rewrite app_nil_r. Qed.

Lemma writes_in_elem r cs h : h ∈ writes_in r cs <-> exists c, c ∈ cs /\ h.1 = c_ts c /\ (r, h.2) ∈ c_writes c.
Proof using Type.
  unfold writes_in. rewrite list_elem_of_In, in_flat_map. split.
  - intros (c & Hc & Hh). exists c. apply in_map_iff in Hh as ([r' u] & <- & Hw). apply list_elem_of_In, list_elem_of_filter in Hw as [Hr Hw].
    cbn in *. subst r'. by split; [apply list_elem_of_In|].
  - destruct h as [b u]. intros (c & Hc & Hb & Hw). cbn in *. subst b. exists c. split; [by apply list_elem_of_In|].
    apply in_map_iff. exists (r, u). split; [done|]. apply list_elem_of_In, list_elem_of_filter. done.
Qed.

Lemma writes_in_sorted r cs : StronglySorted (fun c d => c_ts c <= c_ts d) cs ->
  StronglySorted (fun a b : Z * V => a.1 <= b.1) (writes_in r cs).
Proof using Type.
  induction 1 as [|c cs _ IH HF]; [constructor|]. change (c :: cs) with ([c] ++ cs). rewrite writes_in_app.
  apply StronglySorted_app. split_and!; [| |done].
  - intros x y Hx Hy. apply writes_in_elem in Hx as (c' & ->%list_elem_of_singleton & -> & _), Hy as (d & Hin & -> & _).
    rewrite Forall_forall in HF. by apply HF.
  - unfold writes_in. cbn. rewrite app_nil_r. induction (filter _ _) as [|w ws IHw]; constructor; [done|].
    apply Forall_forall. intros x (w' & -> & _)%list_elem_of_fmap. done.
Qed.

Lemma sorted_NoDup (l : list Z) : StronglySorted Z.lt l -> NoDup l.
Proof using Type.
  induction 1 as [|a l Hs IH HF]; constructor; [|done]. intros Hin. rewrite Forall_forall in HF.
  specialize (HF _ Hin). lia.
Qed.

(** In the order of the timestamps the commits make the same versions of a row. *)
Lemma writes_in_unique r cs cs' : cs ≡ₚ cs' -> StronglySorted (fun c d => c_ts c <= c_ts d) cs' ->
  StronglySorted Z.lt (map fst (writes_in r cs)) -> writes_in r cs = writes_in r cs'.
Proof using Type.
  intros HP HL' Hs. assert (writes_in r cs ≡ₚ writes_in r cs') as HW by (by apply Permutation_flat_map).
  assert (NoDup (map fst (writes_in r cs'))) as Hnd by (rewrite <- HW; by apply sorted_NoDup).
  assert (AntiSymm eq (fun a b : Z * V => a.1 < b.1)) as Hanti by (intros a b ? ?; lia).
  apply (StronglySorted_unique (fun a b : Z * V => a.1 < b.1)); [| |done].
  - revert Hs. generalize (writes_in r cs). clear. intros l Hs. induction l as [|a l IH]; [constructor|].
    cbn in Hs. apply StronglySorted_inv in Hs as [Hs HF]. constructor; [by apply IH|]. by rewrite List.Forall_map in HF.
  - pose proof (writes_in_sorted r cs' HL') as Hs'. revert Hs' Hnd. generalize (writes_in r cs'). clear. intros l Hs Hnd.
    induction Hs as [|a l Hs IH HF]; [constructor|]. cbn in Hnd. apply NoDup_cons in Hnd as [Hni Hnd]. constructor; [by apply IH|].
    rewrite Forall_forall in *. intros x Hx. specialize (HF x Hx). assert (a.1 <> x.1); [|lia].
    intros E. apply Hni. rewrite E. apply list_elem_of_fmap. by exists x.
Qed.

Lemma history_snoc r cs c : is_Some (db0 !! r) -> history r (cs ++ [c]) =
  history r cs ++ map (fun w => (c_ts c, w.2)) (filter (fun w => w.1 = r) (c_writes c)).
Proof using Type. intros [v0 Hv]. unfold history. rewrite Hv. by rewrite writes_in_snoc. Qed.

Lemma history_after r cs cs' : is_Some (db0 !! r) -> history r (cs ++ cs') = history r cs ++ writes_in r cs'.
Proof using Type. intros [v0 Hv]. unfold history. rewrite Hv. by rewrite writes_in_app. Qed.

Lemma history_db r cs h : h ∈ history r cs -> is_Some (db0 !! r).
Proof using Type. unfold history. destruct (db0 !! r); [by eexists|set_solver]. Qed.

Lemma apply_writes_last (ws : list (nat * V)) db r : apply_writes ws db !! r =
  match last (filter (fun w => w.1 = r) ws) with Some w => Some w.2 | None => db !! r end.
Proof using Type.
  induction ws as [|[r' v] ws IH] using rev_ind; [done|]. unfold apply_writes in *. rewrite fold_left_app, filter_app. cbn [fold_left fst snd].
  destruct (decide (r' = r)) as [->|Hne].
  - rewrite lookup_insert_eq, filter_cons_True by done. cbn. by rewrite last_snoc.
  - rewrite lookup_insert_ne, filter_cons_False by done. by rewrite filter_nil, app_nil_r.
Qed.

(** What a serial execution leaves in a row is the last version. *)
Lemma serial_last cs r : is_Some (db0 !! r) -> serial_db db0 cs !! r = last (map snd (history r cs)).
Proof using Type.
  intros [v0 H0]. induction cs as [|c cs IH] using rev_ind; [unfold history; by rewrite H0|].
  rewrite history_snoc by done. rewrite serial_db_snoc, apply_writes_last, IH.
  generalize (filter (fun w : nat * V => w.1 = r) (c_writes c)) as ws. intros ws. rewrite map_app.
  destruct ws as [|w ws _] using rev_ind; [cbn; by rewrite app_nil_r|].
  rewrite last_snoc, !map_app. cbn [map snd]. by rewrite app_assoc, last_snoc.
Qed.

Lemma replay_intro cs : (forall cs1 c cs2, cs = cs1 ++ c :: cs2 ->
  forall r v, (r, v) ∈ c_reads c -> serial_db db0 cs1 !! r = Some v) -> replay db0 cs.
Proof using Type.
  induction cs as [|c cs IH] using rev_ind; intros H; [done|]. apply replay_snoc. split.
  - apply IH. intros cs1 c' cs2 ->. apply (H cs1 c' (cs2 ++ [c])). by rewrite <- app_assoc.
  - by apply (H cs c []).
Qed.

Lemma app_split_unique (l1 l2 k1 k2 : list (Z * V)) : l1 ++ l2 = k1 ++ k2 ->
  (forall x, x ∈ l1 -> x ∉ k2) -> (forall x, x ∈ l2 -> x ∉ k1) -> l1 = k1.
Proof using Type.
  revert k1. induction l1 as [|a l1 IH]; intros [|b k1] E H1 H2; cbn in E.
  - done.
  - destruct l2 as [|x l2]; [done|]. injection E as -> _. exfalso. apply (H2 b); left.
  - destruct k2 as [|x k2]; [done|]. injection E as -> _. exfalso. apply (H1 x); left.
  - injection E as -> E. f_equal. apply IH; [done| |]; intros x Hx; [apply H1; by right|].
    intros Hk. apply (H2 x Hx). by right.
Qed.

(** When the commits in the order [cs'] of their timestamps are a serial execution: what a
    transaction read is a version such that the transactions before it in this order
    made no later version, and the ones from it on no earlier one. *)
Lemma replay_history cs cs' : cs ≡ₚ cs' -> StronglySorted (fun c d => c_ts c <= c_ts d) cs' ->
  (forall r, StronglySorted Z.lt (map fst (history r cs))) ->
  (forall cs1 d cs2, cs' = cs1 ++ d :: cs2 -> forall r u, (r, u) ∈ c_reads d ->
     exists old b new, history r cs = old ++ (b, u) :: new /\
       (forall h, h ∈ writes_in r cs1 -> h ∉ new) /\ (forall h, h ∈ writes_in r (d :: cs2) -> h ∉ old ++ [(b, u)])) ->
  replay db0 cs'.
Proof using Type.
  intros HP Hsort Hs Hr. apply replay_intro. intros cs1 d cs2 -> r u Hu.
  destruct (Hr cs1 d cs2 eq_refl r u Hu) as (old & b & new & Hh & H1 & H2).
  assert (is_Some (db0 !! r)) as Hdb by (apply (history_db r cs (b, u)); rewrite Hh; set_solver).
  rewrite serial_last by done. destruct Hdb as [v0 H0]. specialize (Hs r).
  assert (history r cs = history r (cs1 ++ d :: cs2)) as E.
  { unfold history in *. rewrite H0 in *. f_equal. apply writes_in_unique; [done|done|].
    cbn in Hs. by apply StronglySorted_inv in Hs as [Hs _]. }
  rewrite E, (history_after r cs1) in Hh by (by eexists). rewrite E, (history_after r cs1) in Hs by (by eexists).
  assert (history r cs1 = old ++ [(b, u)]) as ->.
  { apply (app_split_unique _ (writes_in r (d :: cs2)) _ new); [by rewrite <- app_assoc| |done].
    intros h Hin Hnew. unfold history in Hin, Hh. rewrite H0 in Hin, Hh. apply elem_of_cons in Hin as [->|Hin]; [|by apply (H1 h)].
    apply sorted_NoDup in Hs. unfold history in Hs. rewrite H0, Hh in Hs.
    rewrite map_app in Hs. apply NoDup_app in Hs as (_ & Hdis & Hnd). destruct old as [|o old].
    - cbn in Hh, Hnd. injection Hh as <- <- _. apply NoDup_cons in Hnd as [Hni _]. apply Hni.
      apply list_elem_of_fmap. by exists (0, v0).
    - cbn in Hh. injection Hh as <- _. apply (Hdis 0); [by left|]. right. apply list_elem_of_fmap. by exists (0, v0). }
  rewrite map_app. cbn [map snd]. by rewrite last_snoc.
Qed.
End history.
