(* ===== verification/TwoPL.v ===== *)
(** * Transactions under two-phase locking

    [txn_man::get_row], [finish] and [cleanup] of src/system/txn.cpp with
    [row_t::get_row] and [row_t::return_row] of src/storage/row.cpp, compiled for
    DL_DETECT, NO_WAIT and WAIT_DIE, on top of the row locks of RowLock.v.  Every
    worker runs one transaction at a time; an event is one call on a row lock, one
    read or write through the pointer that [get_row] returned, or one copy of
    [cleanup], and the events of the workers interleave freely.

    A row lock hands out the row itself, so a write changes the row in place and
    an abort copies [orig_data] back. *)

From S2P Require Import Prelude Global RowLock Serial.

Notation bytes := (list Z).

Record Access := mkAccess { a_type : access_t; a_row : nat; orig_data : bytes }.

(** Where a transaction is: between two calls; in [row_t::get_row] with the lock
    granted, waiting for it, or giving up after [lock_abort]; after [get_row]
    returned NULL; in the loop of [cleanup], with or without the row of the
    access at hand copied back. *)
Inductive pc :=
  | Running
  | Locked (type : access_t) (row : nat)
  | Waiting (type : access_t) (row : nat)
  | GivingUp (type : access_t) (row : nat)
  | Failed
  | Cleaning (rc : RC) (restored : bool).

(** [accesses] up to [row_cnt]; [t_reads] is ghost state: what the transaction
    read, a write access reading the row when it is recorded. *)
Record Txn := mkTxn {
  t_pc : pc;
  accesses : list Access;
  wr_cnt : Z;
  t_reads : list (nat * bytes) }.

Definition row_cnt (x : Txn) : nat := length (accesses x).
Definition set_pc (p : pc) (x : Txn) : Txn := mkTxn p (accesses x) (wr_cnt x) (t_reads x).
Definition idle : Txn := mkTxn Running [] 0 [].

(** [log] is ghost state: the transactions that entered [cleanup] with RCOK, with
    what they read and wrote, in that order. *)
Record State := mkState {
  sys : lock_sys;
  db : gmap nat bytes;
  tx : nat -> Txn;
  log : list (commit bytes) }.

Definition upd (f : nat -> Txn) (t : nat) (x : Txn) : nat -> Txn :=
  fun t' => if decide (t' = t) then x else f t'.

Definition set_tx (t : nat) (x : Txn) (s : State) : State :=
  mkState (sys s) (db s) (upd (tx s) t x) (log s).
Definition set_row (r : nat) (l : Row_lock) (fl : gmap nat bool) (s : State) : State :=
  mkState (mkLockSys (<[r := l]> (sys_rows (sys s))) fl (sys_ts (sys s))) (db s) (tx s) (log s).
Definition set_db (r : nat) (v : bytes) (s : State) : State :=
  mkState (sys s) (<[r := v]> (db s)) (tx s) (log s).

Definition lock_of (type : access_t) : lock_t :=
  if bool_decide (type = RD) || bool_decide (type = SCAN) then LOCK_SH else LOCK_EX.

Section two_phase_locking.
Context (g_thread_cnt : nat) (get_txn_id : nat -> Z) (CC_ALG : lock_alg).
Context (MAX_ROW_PER_TXN : nat).
(** [ISOLATION_LEVEL == REPEATABLE_READ]. *)
Context (REPEATABLE_READ : bool).

Definition early_release : bool :=
  (bool_decide (CC_ALG = NO_WAIT) || bool_decide (CC_ALG = DL_DETECT)) && REPEATABLE_READ.

(** The writes of a transaction: what is now in the rows it accessed for writing. *)
Definition is_wr (a : Access) : bool := bool_decide (a_type a = WR).
Definition writes_of (db : gmap nat bytes) (x : Txn) : list (nat * bytes) :=
  map (fun a => (a_row a, db !!! a_row a)) (List.filter is_wr (accesses x)).

Definition release (t r : nat) (s : State) : option State :=
  do! l <- sys_rows (sys s) !! r;;
  match lock_release t l (sys_ready (sys s)) with
  | Some (_, l', fl') => Some (set_row r l' fl' s)
  | None => None
  end.

(** [txn_man::get_row] to the return of [lock_get].  A transaction asks for a row
    once. *)
Definition get_row (t : nat) (type : access_t) (r : nat) (s : State) : option State :=
  let x := tx s t in
  match t_pc x with
  | Running =>
      if (MAX_ROW_PER_TXN <=? row_cnt x)%nat then Some (set_tx t (set_pc Failed x) s)
      else
        assert! (t <? g_thread_cnt)%nat && (bool_decide (type = RD) || bool_decide (type = WR) ||
          bool_decide (type = SCAN)) && bool_decide (r ∉ map a_row (accesses x));;
        do! l <- sys_rows (sys s) !! r;;
        match lock_get g_thread_cnt (sys_ts (sys s)) get_txn_id CC_ALG (lock_of type) t l
                (sys_ready (sys s)) with
        | Some (RCOK, _, l', fl') => Some (set_tx t (set_pc (Locked type r) x) (set_row r l' fl' s))
        | Some (WAIT, _, l', fl') => Some (set_tx t (set_pc (Waiting type r) x) (set_row r l' fl' s))
        | Some (Abort, _, l', fl') => Some (set_tx t (set_pc Failed x) (set_row r l' fl' s))
        | _ => None
        end
  | _ => None
  end.

(** The loop of [row_t::get_row] ends: [lock_ready] is set, or [lock_abort] by the
    deadlock detector or the time-out and [lock_ready] was not. *)
Definition wait_ready (t : nat) (s : State) : option State :=
  match t_pc (tx s t) with
  | Waiting type r =>
      if bool_decide (sys_ready (sys s) !! t = Some true)
      then Some (set_tx t (set_pc (Locked type r) (tx s t)) s) else None
  | _ => None
  end.

Definition wait_abort (t : nat) (s : State) : option State :=
  match t_pc (tx s t) with
  | Waiting type r =>
      if bool_decide (CC_ALG = DL_DETECT) && negb (bool_decide (sys_ready (sys s) !! t = Some true))
      then Some (set_tx t (set_pc (GivingUp type r) (tx s t)) s) else None
  | _ => None
  end.

(** [return_row(type, txn, NULL, ...)] of a transaction told to abort. *)
Definition leave_queue (t : nat) (s : State) : option State :=
  match t_pc (tx s t) with
  | GivingUp _ r => do! s' <- release t r s;; Some (set_tx t (set_pc Failed (tx s t)) s')
  | _ => None
  end.

(** The end of [txn_man::get_row]: the access is recorded, [orig_data] is the copy
    that [ROLL_BACK] makes of a row to be written; with early release the shared
    lock goes back at once. *)
Definition record_access (t : nat) (s : State) : option State :=
  let x := tx s t in
  match t_pc x with
  | Locked type r =>
      let wr := bool_decide (type = WR) in
      let x' := mkTxn Running (accesses x ++ [mkAccess type r (if wr then db s !!! r else [])])
                  (if wr then wr_cnt x + 1 else wr_cnt x)
                  (t_reads x ++ (if wr then [(r, db s !!! r)] else [])) in
      if early_release && bool_decide (type = RD)
      then do! s' <- release t r s;; Some (set_tx t x' s')
      else Some (set_tx t x' s)
  | _ => None
  end.

(** A read and a write through the pointer of access [i]. *)
Definition read_data (t i : nat) (s : State) : option State :=
  let x := tx s t in
  match t_pc x, accesses x !! i with
  | Running, Some a =>
      if is_wr a then None
      else Some (set_tx t (mkTxn Running (accesses x) (wr_cnt x)
                             (t_reads x ++ [(a_row a, db s !!! a_row a)])) s)
  | _, _ => None
  end.

Definition write_data (t i : nat) (v : bytes) (s : State) : option State :=
  let x := tx s t in
  match t_pc x, accesses x !! i with
  | Running, Some a => if is_wr a then Some (set_db (a_row a) v s) else None
  | _, _ => None
  end.

(** [finish]: a transaction whose [get_row] failed ends with Abort. *)
Definition finish (t : nat) (rc : RC) (s : State) : option State :=
  let x := tx s t in
  match t_pc x, rc with
  | Running, RCOK =>
      Some (mkState (sys s) (db s) (upd (tx s) t (set_pc (Cleaning RCOK false) x))
              (log s ++ [mkCommit 0 (t_reads x) (writes_of (db s) x)]))
  | Running, Abort | Failed, Abort => Some (set_tx t (set_pc (Cleaning Abort false) x) s)
  | _, _ => None
  end.

(** [type = XP] for a write access of an aborted transaction. *)
Definition to_restore (rc : RC) (a : Access) : bool := bool_decide (rc = Abort) && is_wr a.

(** One pass of the loop of [cleanup], from the last access to the first: the copy
    of [return_row], then the release of the lock. *)
Definition cleanup_copy (t : nat) (s : State) : option State :=
  let x := tx s t in
  match t_pc x, last (accesses x) with
  | Cleaning rc false, Some a =>
      if to_restore rc a
      then Some (set_tx t (set_pc (Cleaning rc true) x) (set_db (a_row a) (orig_data a) s))
      else None
  | _, _ => None
  end.

Definition cleanup_release (t : nat) (s : State) : option State :=
  let x := tx s t in
  match t_pc x, last (accesses x) with
  | Cleaning rc restored, Some a =>
      assert! negb (to_restore rc a) || restored;;
      let x' := mkTxn (Cleaning rc false) (removelast (accesses x)) (wr_cnt x) (t_reads x) in
      if early_release && bool_decide (a_type a = RD) then Some (set_tx t x' s)
      else do! s' <- release t (a_row a) s;; Some (set_tx t x' s')
  | _, _ => None
  end.

Definition cleanup_end (t : nat) (s : State) : option State :=
  match t_pc (tx s t), accesses (tx s t) with
  | Cleaning _ _, [] => Some (set_tx t idle s)
  | _, _ => None
  end.

(** A worker takes a new timestamp between two transactions. *)
Definition new_ts (t : nat) (v : Z) (s : State) : State :=
  mkState (mkLockSys (sys_rows (sys s)) (sys_ready (sys s)) (RowLock.set_ts (sys_ts (sys s)) t v))
    (db s) (tx s) (log s).

Inductive step : State -> State -> Prop :=
  | step_ts t v s : tx s t = idle -> (forall t', sys_ts (sys s) t' <> v) -> step s (new_ts t v s)
  | step_get_row t type r s s' : get_row t type r s = Some s' -> step s s'
  | step_ready t s s' : wait_ready t s = Some s' -> step s s'
  | step_abort t s s' : wait_abort t s = Some s' -> step s s'
  | step_leave_queue t s s' : leave_queue t s = Some s' -> step s s'
  | step_record t s s' : record_access t s = Some s' -> step s s'
  | step_read t i s s' : read_data t i s = Some s' -> step s s'
  | step_write t i v s s' : write_data t i v s = Some s' -> step s s'
  | step_finish t rc s s' : finish t rc s = Some s' -> step s s'
  | step_copy t s s' : cleanup_copy t s = Some s' -> step s s'
  | step_release t s s' : cleanup_release t s = Some s' -> step s s'
  | step_end t s s' : cleanup_end t s = Some s' -> step s s'.

(** No lock is held, no transaction has started, and every row has contents. *)
Definition init (s : State) : Prop :=
  lock_init (sys s) /\ (forall t, tx s t = idle) /\ log s = [] /\
  forall r l, sys_rows (sys s) !! r = Some l -> is_Some (db s !! r).
End two_phase_locking.

(** ** Row locks, seen from one transaction *)

Section row_locks.
Context (g_thread_cnt : nat) (get_ts : nat -> Z) (get_txn_id : nat -> Z) (CC_ALG : lock_alg).
Context (Hg : Z.of_nat g_thread_cnt < 2 ^ 32).

Lemma entry_unique l fl e e' :
  row_ok g_thread_cnt l fl -> e ∈ entries l -> e' ∈ entries l -> le_txn e = le_txn e' -> e = e'.
Proof using Type.
  intros [Hp _] He He' Heq. pose proof (ok_nodup _ _ _ Hp) as Hnd. unfold txns in Hnd.
  revert He He' Hnd. generalize (entries l). intros k. induction k as [|e0 k IH]; intros He He' Hnd.
  { by apply not_elem_of_nil in He. }
  simpl in Hnd. apply NoDup_cons in Hnd as [Hni Hnd].
  apply elem_of_cons in He as [->|He], He' as [->|He']; [done| | |by apply IH].
  - destruct Hni. rewrite Heq. by apply elem_of_txns; eauto.
  - destruct Hni. rewrite <- Heq. by apply elem_of_txns; eauto.
Qed.

Lemma owner_not_waiter l fl e :
  row_ok g_thread_cnt l fl -> e ∈ owners l -> le_txn e ∉ txns (waiters l).
Proof using Type.
  intros [Hp _] He Hw. pose proof (ok_nodup _ _ _ Hp) as Hnd. unfold entries in Hnd.
  rewrite txns_app in Hnd. apply NoDup_app in Hnd as (_ & Hd & _).
  apply (Hd (le_txn e)); [|done]. apply elem_of_txns. eauto.
Qed.

(** An exclusive owner is alone. *)
Lemma exclusive_alone l fl t t' lt :
  row_ok g_thread_cnt l fl -> mkLockEntry LOCK_EX t ∈ owners l -> mkLockEntry lt t' ∈ owners l ->
  t' = t /\ lt = LOCK_EX.
Proof using Type.
  intros [Hp _] He He'. pose proof (ok_owners _ _ _ Hp) as Ho.
  destruct (owners l) as [|o own]; [by apply not_elem_of_nil in He|].
  destruct Ho as (_ & HF & Hex). rewrite Forall_forall in HF.
  pose proof (HF _ He) as E. simpl in E. specialize (Hex (eq_sym E)).
  destruct own; [|done]. apply list_elem_of_singleton in He, He'. split; congruence.
Qed.

Definition keeps (l l' : Row_lock) (t : nat) : Prop :=
  (forall e, le_txn e <> t -> e ∈ owners l -> e ∈ owners l') /\
  (forall e, le_txn e <> t -> e ∈ entries l <-> e ∈ entries l').

Lemma get_keeps type t l fl rc ids l' fl' :
  row_ok g_thread_cnt l fl -> type <> LOCK_NONE -> (t < g_thread_cnt)%nat -> t ∉ txns (entries l) ->
  lock_get g_thread_cnt get_ts get_txn_id CC_ALG type t l fl = Some (rc, ids, l', fl') ->
  keeps l l' t /\
  match rc with
  | RCOK => mkLockEntry type t ∈ owners l'
  | WAIT => mkLockEntry type t ∈ entries l'
  | Abort => l' = l
  | _ => False
  end.
Proof using Hg.
  intros Hok Hty Ht Hni Hget.
  destruct (lock_get_total g_thread_cnt get_ts get_txn_id CC_ALG type t l fl Hok Hg Hty Ht Hni)
    as (rc' & ids' & l'' & fl'' & Hget' & _ & Hpost).
  rewrite Hget in Hget'. injection Hget' as <- <- <- <-. unfold keeps, entries.
  destruct rc; try done.
  - destruct Hpost as (_ & _ & -> & -> & _). split; [|by left]. set_solver.
  - by destruct Hpost as (-> & _).
  - pose proof (lock_get_post_waiters _ _ _ _ _ _ _ _ _ _ Hpost) as Hw.
    destruct Hpost as (_ & -> & _). split; [|rewrite Hw; set_solver].
    split; [done|]. intros e He. rewrite !elem_of_app, Hw, elem_of_cons. naive_solver.
Qed.

Lemma release_keeps t l fl :
  row_ok g_thread_cnt l fl -> t ∈ txns (entries l) ->
  exists rc l' fl', lock_release t l fl = Some (rc, l', fl') /\ keeps l l' t /\
    t ∉ txns (entries l').
Proof using Hg.
  clear get_ts get_txn_id CC_ALG.
  intros Hok Hin.
  destruct (lock_release_total g_thread_cnt (fun _ => 0) (fun _ => 0) t l fl Hok Hg Hin)
    as (l1 & e & g & l' & fl' & -> & Hok' & He & HP & Hso & Hsw & Hw & Ho & _).
  eexists _, l', fl'. split; [done|].
  assert (forall e', e' ∈ entries l' <-> e' ∈ entries l1) as Hent.
  { intros e'. unfold entries. rewrite Ho, Hw, <- (Permutation_rev g), !elem_of_app. tauto. }
  assert (forall e', le_txn e' <> t -> e' ∈ entries l <-> e' ∈ entries l') as Hkeep.
  { intros e' Hne. rewrite Hent, HP, elem_of_cons. split; [|by right].
    intros [->|?]; [done|done]. }
  split; [split; [|done]|].
  - intros e' Hne Hown. assert (e' ∈ entries l1) as Hin1.
    { apply Hent, Hkeep; [done|]. unfold entries. set_solver. }
    rewrite Ho, elem_of_app. right. unfold entries in Hin1. apply elem_of_app in Hin1 as [?|Hw1]; [done|].
    exfalso. eapply (owner_not_waiter _ _ _ Hok Hown). apply elem_of_txns. exists e'. split; [|done].
    eapply elem_of_submseteq; [exact Hw1|by apply sublist_submseteq].
  - intros (e' & He' & Et)%elem_of_txns. apply Hent in He'.
    pose proof (ok_nodup _ _ _ (proj1 Hok)) as Hnd. unfold txns in Hnd.
    rewrite HP in Hnd. simpl in Hnd. apply NoDup_cons in Hnd as [Hnd _].
    apply Hnd, elem_of_txns. exists e'. split; [done|]. by rewrite Et, He.
Qed.
End row_locks.

(** ** The invariant *)

Section invariant.
Context (g_thread_cnt : nat) (get_txn_id : nat -> Z) (CC_ALG : lock_alg).
Context (MAX_ROW_PER_TXN : nat).
Context (Hg : Z.of_nat g_thread_cnt < 2 ^ 32).
Context (db0 : gmap nat bytes).

(** The locks a transaction holds, and the one it waits for. *)
Definition held (x : Txn) : list (nat * lock_t) :=
  map (fun a => (a_row a, lock_of (a_type a))) (accesses x) ++
  match t_pc x with Locked type r => [(r, lock_of type)] | _ => [] end.

Definition wanted (x : Txn) : list (nat * lock_t) :=
  match t_pc x with Waiting type r | GivingUp type r => [(r, lock_of type)] | _ => [] end.

(** A write access whose row holds uncommitted contents; [orig] is the copy. *)
Definition dirty (x : Txn) (r : nat) (orig : bytes) : Prop :=
  exists i a, accesses x !! i = Some a /\ a_type a = WR /\ a_row a = r /\ orig_data a = orig /\
    match t_pc x with
    | Cleaning rc restored =>
        rc = Abort /\ (restored = true -> i <> pred (length (accesses x)))
    | _ => True
    end.

Definition cleaning (x : Txn) : bool :=
  match t_pc x with Cleaning _ _ => true | _ => false end.

Record locks_ok (sy : lock_sys) (f : nat -> Txn) : Prop := {
  i_sys : sys_ok g_thread_cnt CC_ALG sy;
  i_held : forall t r lt, (r, lt) ∈ held (f t) ->
    exists l, sys_rows sy !! r = Some l /\ mkLockEntry lt t ∈ owners l;
  i_wanted : forall t r lt, (r, lt) ∈ wanted (f t) ->
    exists l, sys_rows sy !! r = Some l /\ mkLockEntry lt t ∈ entries l;
  i_only : forall t r l, sys_rows sy !! r = Some l -> t ∈ txns (entries l) ->
    r ∈ map fst (held (f t) ++ wanted (f t));
  i_nodup : forall t, NoDup (map fst (held (f t) ++ wanted (f t))) }.

Record data_ok (sy : lock_sys) (d : gmap nat bytes) (f : nat -> Txn) (lg : list (commit bytes)) : Prop := {
  i_dom : forall r l, sys_rows sy !! r = Some l -> is_Some (d !! r);
  i_replay : replay db0 lg;
  i_clean : forall r, (forall t orig, ~ dirty (f t) r orig) -> d !! r = serial_db db0 lg !! r;
  i_dirty : forall t r orig, dirty (f t) r orig -> serial_db db0 lg !! r = Some orig;
  i_reads : forall t r v, cleaning (f t) = false -> (r, v) ∈ t_reads (f t) ->
    r ∈ map a_row (accesses (f t)) /\ serial_db db0 lg !! r = Some v }.

Definition inv (s : State) : Prop :=
  locks_ok (sys s) (tx s) /\ data_ok (sys s) (db s) (tx s) (log s).

Lemma upd_eq f t x : upd f t x t = x.
Proof using Type. unfold upd. by rewrite decide_True. Qed.
Lemma upd_ne f t t' x : t' <> t -> upd f t x t' = f t'.
Proof using Type. intros. unfold upd. by rewrite decide_False. Qed.

(** A dirty row is locked exclusively by its writer. *)
Lemma dirty_held x r orig : dirty x r orig -> (r, LOCK_EX) ∈ held x.
Proof using Type.
  intros (i & a & Ha & Hw & <- & _). unfold held. apply elem_of_app. left.
  apply list_elem_of_lookup_2 in Ha. apply list_elem_of_In, in_map_iff. exists a.
  split; [by rewrite Hw|by apply list_elem_of_In].
Qed.

Lemma held_exclusive sy f t t' r lt :
  locks_ok sy f -> (r, LOCK_EX) ∈ held (f t) -> (r, lt) ∈ held (f t') -> t' = t /\ lt = LOCK_EX.
Proof using Type.
  intros I H H'. destruct (i_held _ _ I _ _ _ H) as (l & Hl & Ho).
  destruct (i_held _ _ I _ _ _ H') as (l' & Hl' & Ho'). rewrite Hl in Hl'. injection Hl' as <-.
  eapply exclusive_alone; [by eapply sys_row_ok, Hl; apply (i_sys _ _ I)|done|done].
Qed.

(** A row that a transaction holds is dirty only by a write access of its own. *)
Lemma held_clean sy d f lg t r lt :
  locks_ok sy f -> data_ok sy d f lg -> (r, lt) ∈ held (f t) ->
  (forall orig, ~ dirty (f t) r orig) -> d !! r = serial_db db0 lg !! r.
Proof using Type.
  intros I J H Hnd. apply (i_clean _ _ _ _ J). intros t' orig Hd.
  destruct (held_exclusive sy f t' t r lt I (dirty_held _ _ _ Hd) H) as [<- _]. by apply (Hnd orig).
Qed.

(** *** Updates of one transaction *)

Lemma locks_tx sy f t x' :
  locks_ok sy f ->
  (forall r lt, (r, lt) ∈ held x' -> exists l, sys_rows sy !! r = Some l /\ mkLockEntry lt t ∈ owners l) ->
  (forall r lt, (r, lt) ∈ wanted x' -> (r, lt) ∈ wanted (f t)) ->
  map fst (held x' ++ wanted x') ≡ₚ map fst (held (f t) ++ wanted (f t)) ->
  locks_ok sy (upd f t x').
Proof using Type.
  intros [Hs Hh Hw Ho Hn] Hh' Hw' Hp. constructor; [done| | | |].
  - intros t' r lt. destruct (decide (t' = t)) as [->|]; [rewrite upd_eq; auto|].
    rewrite upd_ne by done. auto.
  - intros t' r lt. destruct (decide (t' = t)) as [->|]; [rewrite upd_eq; auto|].
    rewrite upd_ne by done. auto.
  - intros t' r l Hl Hin. destruct (decide (t' = t)) as [->|]; [rewrite upd_eq, Hp; eauto|].
    rewrite upd_ne by done. eauto.
  - intros t'. destruct (decide (t' = t)) as [->|]; [rewrite upd_eq, Hp; eauto|].
    rewrite upd_ne by done. eauto.
Qed.

Lemma locks_row sy f t x' r l l' fl' :
  locks_ok sy f -> sys_rows sy !! r = Some l -> keeps l l' t ->
  sys_ok g_thread_cnt CC_ALG (mkLockSys (<[r := l']> (sys_rows sy)) fl' (sys_ts sy)) ->
  (forall r0 lt, (r0, lt) ∈ held x' ->
     (r0 <> r /\ (r0, lt) ∈ held (f t)) \/ (r0 = r /\ mkLockEntry lt t ∈ owners l')) ->
  (forall r0 lt, (r0, lt) ∈ wanted x' -> r0 = r /\ mkLockEntry lt t ∈ entries l') ->
  (t ∈ txns (entries l') -> r ∈ map fst (held x' ++ wanted x')) ->
  (forall r0, r0 <> r -> r0 ∈ map fst (held (f t) ++ wanted (f t)) -> r0 ∈ map fst (held x' ++ wanted x')) ->
  NoDup (map fst (held x' ++ wanted x')) ->
  locks_ok (mkLockSys (<[r := l']> (sys_rows sy)) fl' (sys_ts sy)) (upd f t x').
Proof using Type.
  intros [Hs Hh Hw Ho Hn] Hl [Hko Hke] Hs' Hh' Hw' Ho' Hoo' Hn'.
  assert (forall r0 l0, r0 <> r -> <[r := l']> (sys_rows sy) !! r0 = Some l0 <-> sys_rows sy !! r0 = Some l0)
    as Hne by (intros; by rewrite lookup_insert_ne).
  constructor; simpl; [done| | | |].
  - intros t' r0 lt. destruct (decide (t' = t)) as [->|Ht].
    + rewrite upd_eq. intros [[Hr H]|[-> H]]%Hh'.
      * destruct (Hh _ _ _ H) as (l0 & ? & ?). exists l0. by rewrite Hne.
      * exists l'. by rewrite lookup_insert_eq.
    + rewrite upd_ne by done. intros H. destruct (Hh _ _ _ H) as (l0 & Hl0 & Hin).
      destruct (decide (r0 = r)) as [->|Hr]; [|exists l0; by rewrite Hne].
      rewrite Hl in Hl0. injection Hl0 as <-. exists l'. rewrite lookup_insert_eq. split; [done|].
      by apply Hko.
  - intros t' r0 lt. destruct (decide (t' = t)) as [->|Ht].
    + rewrite upd_eq. intros [-> H]%Hw'. exists l'. by rewrite lookup_insert_eq.
    + rewrite upd_ne by done. intros H. destruct (Hw _ _ _ H) as (l0 & Hl0 & Hin).
      destruct (decide (r0 = r)) as [->|Hr]; [|exists l0; by rewrite Hne].
      rewrite Hl in Hl0. injection Hl0 as <-. exists l'. rewrite lookup_insert_eq. split; [done|].
      by apply Hke.
  - intros t' r0 l0 Hl0 Hin. destruct (decide (r0 = r)) as [->|Hr].
    + rewrite lookup_insert_eq in Hl0. injection Hl0 as <-.
      destruct (decide (t' = t)) as [->|Ht]; [rewrite upd_eq; auto|]. rewrite upd_ne by done.
      eapply Ho; [done|]. apply elem_of_txns in Hin as (e & He & <-). apply elem_of_txns.
      exists e. split; [by apply Hke|done].
    + apply Hne in Hl0; [|done]. destruct (decide (t' = t)) as [->|Ht]; [rewrite upd_eq; eauto|].
      rewrite upd_ne by done. eauto.
  - intros t'. destruct (decide (t' = t)) as [->|Ht]; [by rewrite upd_eq|by rewrite upd_ne].
Qed.

Lemma data_tx sy d f lg t x' :
  data_ok sy d f lg ->
  (forall r o, dirty x' r o <-> dirty (f t) r o) ->
  (cleaning x' = false -> forall r v, (r, v) ∈ t_reads x' ->
     r ∈ map a_row (accesses x') /\ serial_db db0 lg !! r = Some v) ->
  data_ok sy d (upd f t x') lg.
Proof using Type.
  intros [Hd Hr Hc Hdi Hre] Hdx Hrx. constructor; [done|done| | |].
  - intros r Hn. apply Hc. intros t' o Ho. apply (Hn t' o).
    destruct (decide (t' = t)) as [->|]; [by rewrite upd_eq; apply Hdx|by rewrite upd_ne].
  - intros t' r o. destruct (decide (t' = t)) as [->|]; [rewrite upd_eq, Hdx; eauto|].
    rewrite upd_ne by done. eauto.
  - intros t' r v. destruct (decide (t' = t)) as [->|]; [rewrite upd_eq; auto|].
    rewrite upd_ne by done. eauto.
Qed.

Lemma data_sys sy sy' d f lg :
  data_ok sy d f lg -> (forall r l, sys_rows sy' !! r = Some l -> is_Some (sys_rows sy !! r)) ->
  data_ok sy' d f lg.
Proof using Type.
  intros [Hd Hr Hc Hdi Hre] Hs. constructor; [|done..].
  intros r l Hl. destruct (Hs r l Hl) as [l0 Hl0]. eauto.
Qed.

Lemma insert_row_dom (sy : lock_sys) r l l' fl ts :
  sys_rows sy !! r = Some l -> forall r0 l0,
  sys_rows (mkLockSys (<[r := l']> (sys_rows sy)) fl ts) !! r0 = Some l0 -> is_Some (sys_rows sy !! r0).
Proof using Type.
  intros Hl r0 l0. simpl. destruct (decide (r0 = r)) as [->|]; [eauto|]. rewrite lookup_insert_ne; eauto.
Qed.

(** Between two calls a transaction waits nowhere. *)
Lemma not_waiting sy f t :
  locks_ok sy f -> wanted (f t) = [] -> forall r, ~ waits_at sy r t.
Proof using Type.
  intros I Hw r (l & Hl & Hin).
  assert (t ∈ txns (entries l)) as He.
  { unfold entries. rewrite txns_app, elem_of_app. by right. }
  pose proof (i_only _ _ I _ _ _ Hl He) as Ho. rewrite Hw, app_nil_r in Ho.
  apply list_elem_of_In, in_map_iff in Ho as ([r' lt] & <- & Ho%list_elem_of_In).
  destruct (i_held _ _ I _ _ _ Ho) as (l' & Hl' & Hown). simpl in Hl. rewrite Hl in Hl'. injection Hl' as <-.
  eapply (owner_not_waiter g_thread_cnt l _ _); [|exact Hown|exact Hin].
  eapply sys_row_ok; [apply (i_sys _ _ I)|done].
Qed.

(** *** The steps *)

Lemma lock_of_ne type : lock_of type <> LOCK_NONE.
Proof using Type. unfold lock_of. by destruct (_ || _). Qed.

Lemma dirty_pc x p r o :
  cleaning x = false -> cleaning (set_pc p x) = false -> dirty (set_pc p x) r o <-> dirty x r o.
Proof using Type.
  intros Hc Hp. unfold dirty, cleaning in *. simpl in *. destruct (t_pc x), p; try done; tauto.
Qed.

Lemma data_pc sy d f lg t p :
  data_ok sy d f lg -> cleaning (f t) = false -> cleaning (set_pc p (f t)) = false ->
  data_ok sy d (upd f t (set_pc p (f t))) lg.
Proof using Type.
  intros J Hc Hp. apply data_tx; [done|intros; by apply dirty_pc|].
  intros _ r v Hin. by apply (i_reads _ _ _ _ J).
Qed.

Lemma release_ok sy f t r lt :
  locks_ok sy f -> (r, lt) ∈ held (f t) \/ (r, lt) ∈ wanted (f t) ->
  exists l rc l' fl', sys_rows sy !! r = Some l /\ lock_release t l (sys_ready sy) = Some (rc, l', fl') /\
    keeps l l' t /\ t ∉ txns (entries l') /\
    sys_ok g_thread_cnt CC_ALG (mkLockSys (<[r := l']> (sys_rows sy)) fl' (sys_ts sy)).
Proof using Hg.
  intros I Hin.
  assert (exists l, sys_rows sy !! r = Some l /\ t ∈ txns (entries l)) as (l & Hl & He).
  { destruct Hin as [(l & Hl & Ho)%(i_held _ _ I)|(l & Hl & Ho)%(i_wanted _ _ I)]; exists l; (split; [done|]);
      apply elem_of_txns; exists (mkLockEntry lt t); (split; [|done]); [|exact Ho].
    unfold entries. apply elem_of_app. by left. }
  destruct (release_keeps g_thread_cnt Hg t l (sys_ready sy)) as (rc & l' & fl' & Hr & Hk & Hni);
    [eapply sys_row_ok; [apply (i_sys _ _ I)|done]|done|].
  exists l, rc, l', fl'. split_and!; [done..|].
  eapply (lock_step_ok g_thread_cnt (fun _ => 0) CC_ALG); [done|apply (i_sys _ _ I)|].
  eapply RowLock.step_release; [done| |done]. by exists l.
Qed.

Lemma get_ok sy f t r lt l rc ids l' fl' :
  locks_ok sy f -> t_pc (f t) = Running -> r ∉ map a_row (accesses (f t)) ->
  (t < g_thread_cnt)%nat -> lt <> LOCK_NONE -> sys_rows sy !! r = Some l ->
  lock_get g_thread_cnt (sys_ts sy) get_txn_id CC_ALG lt t l (sys_ready sy) = Some (rc, ids, l', fl') ->
  t ∉ txns (entries l) /\ keeps l l' t /\
  sys_ok g_thread_cnt CC_ALG (mkLockSys (<[r := l']> (sys_rows sy)) fl' (sys_ts sy)) /\
  match rc with
  | RCOK => mkLockEntry lt t ∈ owners l'
  | WAIT => mkLockEntry lt t ∈ entries l'
  | Abort => l' = l
  | _ => False
  end.
Proof using Hg.
  intros I Hpc Hr Ht Hlt Hl Hget.
  assert (t ∉ txns (entries l)) as Hni.
  { intros He. pose proof (i_only _ _ I _ _ _ Hl He) as Ho. unfold held, wanted in Ho.
    rewrite Hpc, !app_nil_r, map_map in Ho. by apply Hr. }
  destruct (get_keeps g_thread_cnt _ _ _ Hg _ _ _ _ _ _ _ _
    (sys_row_ok _ _ _ (i_sys _ _ I) _ _ Hl) Hlt Ht Hni Hget) as [Hk Hrc].
  split_and!; [done|done| |done].
  eapply (lock_step_ok g_thread_cnt get_txn_id CC_ALG); [done|apply (i_sys _ _ I)|].
  eapply RowLock.step_get; [done..| |by intros (l0 & Hl0 & ?); simplify_eq|done].
  eapply not_waiting; [done|]. unfold wanted. by rewrite Hpc.
Qed.

Lemma tpl_get_row t type r s s' :
  get_row g_thread_cnt get_txn_id CC_ALG MAX_ROW_PER_TXN t type r s = Some s' -> inv s -> inv s'.
Proof using Hg.
  unfold get_row. intros H [I J]. destruct (t_pc (tx s t)) eqn:Ep; try done.
  assert (cleaning (tx s t) = false) as Hcl by (unfold cleaning; by rewrite Ep).
  assert (held (tx s t) = map (fun a => (a_row a, lock_of (a_type a))) (accesses (tx s t)))
    as Hheld by (unfold held; by rewrite Ep, app_nil_r).
  assert (wanted (tx s t) = []) as Hw by (unfold wanted; by rewrite Ep).
  destruct (_ <=? _)%nat.
  { injection H as <-. split; [|by apply data_pc]. apply locks_tx; [done| | |].
    - intros r0 lt. unfold held. simpl. rewrite app_nil_r, <- Hheld. apply (i_held _ _ I).
    - unfold wanted. simpl. by intros r0 lt ?%not_elem_of_nil.
    - rewrite Hw, Hheld. unfold held, wanted. simpl. by rewrite !app_nil_r. }
  inv_assert. destruct (sys_rows (sys s) !! r) as [l|] eqn:Hl; [|done].
  destruct (lock_get _ _ _ _ _ _ _ _) as [[[[rc ids] l'] fl']|] eqn:Hget; [|done].
  rename H1 into Hr. apply Nat.ltb_lt in H0 as Ht.
  destruct (get_ok _ _ _ _ _ _ _ _ _ _ I Ep Hr Ht (lock_of_ne type) Hl Hget) as (Hni & Hk & Hs & Hrc).
  assert (NoDup (map fst (held (tx s t)))) as Hnd.
  { pose proof (i_nodup _ _ I t) as Hn. by rewrite Hw, app_nil_r in Hn. }
  assert (r ∉ map fst (held (tx s t))) as Hrh by (by rewrite Hheld, map_map).
  assert (forall r0 lt, (r0, lt) ∈ held (tx s t) -> r0 <> r) as Hne.
  { intros r0 lt Hin ->. apply Hrh. apply list_elem_of_In, in_map_iff. exists (r, lt).
    split; [done|by apply list_elem_of_In]. }
  assert (forall sy' p, (forall r0 l0, sys_rows sy' !! r0 = Some l0 -> is_Some (sys_rows (sys s) !! r0)) ->
    cleaning (set_pc p (tx s t)) = false -> data_ok sy' (db s) (upd (tx s) t (set_pc p (tx s t))) (log s))
    as Hdata by (intros sy' p ? ?; apply (data_sys (sys s)); [by apply data_pc|done]).
  assert (forall p, held (set_pc p (tx s t)) =
    held (tx s t) ++ match p with Locked type r => [(r, lock_of type)] | _ => [] end) as Hset
    by (intros p; by rewrite Hheld).
  assert (forall p, wanted (set_pc p (tx s t)) =
    match p with Waiting type r | GivingUp type r => [(r, lock_of type)] | _ => [] end) as Hwset by done.
  assert (NoDup (map fst (held (tx s t)) ++ [r])) as Hnd'.
  { apply NoDup_app. split_and!; [done| |apply NoDup_singleton]. by intros r0 Hin ->%list_elem_of_singleton. }
  destruct rc; try done; injection H as <-; (split; [|apply Hdata; [by apply insert_row_dom with l|done]]);
    (apply locks_row with l; simpl; [done..| | | | |]); rewrite ?Hset, ?Hwset, ?Hw, ?app_nil_r, ?map_app; simpl.
  - intros r0 lt. rewrite elem_of_app, list_elem_of_singleton.
    intros [Hin|[= -> ->]]; [left; eauto|by right].
  - by intros r0 lt ?%not_elem_of_nil.
  - intros _. apply elem_of_app. right. by left.
  - intros r0 _ Hin. apply elem_of_app. by left.
  - done.
  - intros r0 lt Hin. left. eauto.
  - by intros r0 lt ?%not_elem_of_nil.
  - by subst l'.
  - done.
  - done.
  - intros r0 lt Hin. left. eauto.
  - intros r0 lt [= -> ->]%list_elem_of_singleton. done.
  - intros _. apply elem_of_app. right. by left.
  - intros r0 _ Hin. apply elem_of_app. by left.
  - done.
Qed.

(** A transaction whose lock was granted is an owner. *)
Lemma ready_owner sy r l e :
  sys_ok g_thread_cnt CC_ALG sy -> sys_rows sy !! r = Some l -> e ∈ entries l ->
  sys_ready sy !! le_txn e = Some true -> e ∈ owners l.
Proof using Type.
  intros Hs Hl He Hr. unfold entries in He. apply elem_of_app in He as [?|Hw]; [done|].
  destruct (sys_row_ok _ _ _ Hs _ _ Hl) as [Hp _]. pose proof (ok_ready _ _ _ Hp) as HF.
  rewrite Forall_forall in HF. specialize (HF e Hw). congruence.
Qed.

Lemma tpl_wait_ready t s s' : wait_ready t s = Some s' -> inv s -> inv s'.
Proof using Type.
  unfold wait_ready. intros H [I J]. destruct (t_pc (tx s t)) as [| |type r| | |] eqn:Ep; try done.
  destruct (bool_decide _) eqn:Er; [|done]. b2p. injection H as <-.
  split; [|apply data_pc; [done|unfold cleaning; by rewrite Ep|done]].
  assert ((r, lock_of type) ∈ wanted (tx s t)) as Hw by (unfold wanted; rewrite Ep; by left).
  apply locks_tx; [done| | |].
  - intros r0 lt. unfold held. simpl. rewrite elem_of_app, list_elem_of_singleton.
    intros [Hin|[= -> ->]].
    + apply (i_held _ _ I). unfold held. apply elem_of_app. by left.
    + destruct (i_wanted _ _ I _ _ _ Hw) as (l & Hl & He). exists l. split; [done|].
      by eapply ready_owner; [apply (i_sys _ _ I)|..].
  - by intros r0 lt ?%not_elem_of_nil.
  - unfold held, wanted. simpl. by rewrite Ep, !app_nil_r.
Qed.

Lemma tpl_wait_abort t s s' : wait_abort CC_ALG t s = Some s' -> inv s -> inv s'.
Proof using Type.
  unfold wait_abort. intros H [I J]. destruct (t_pc (tx s t)) as [| |type r| | |] eqn:Ep; try done.
  destruct (_ && _); [|done]. injection H as <-.
  split; [|apply data_pc; [done|unfold cleaning; by rewrite Ep|done]].
  apply locks_tx; [done| | |].
  - intros r0 lt Hin. apply (i_held _ _ I). unfold held in *. by rewrite Ep.
  - intros r0 lt Hin. unfold wanted in *. by rewrite Ep.
  - unfold held, wanted. by rewrite Ep.
Qed.

Lemma tpl_leave_queue t s s' : leave_queue t s = Some s' -> inv s -> inv s'.
Proof using Hg.
  unfold leave_queue, release. intros H [I J]. destruct (t_pc (tx s t)) as [| | |type r| |] eqn:Ep; try done.
  assert (wanted (tx s t) = [(r, lock_of type)]) as Hw by (unfold wanted; by rewrite Ep).
  destruct (release_ok (sys s) (tx s) t r (lock_of type) I) as (l & rc & l' & fl' & Hl & Hrel & Hk & Hni & Hs);
    [right; rewrite Hw; by left|].
  rewrite Hl, Hrel in H. injection H as <-.
  assert (held (set_pc Failed (tx s t)) = held (tx s t)) as Hh
    by (unfold held; simpl; by rewrite Ep).
  pose proof (i_nodup _ _ I t) as Hnd. rewrite Hw, map_app in Hnd. apply NoDup_app in Hnd as (Hnd & Hd & _).
  split.
  - apply locks_row with l; simpl; [done..| | | | |];
      rewrite ?Hh; change (wanted (set_pc Failed (tx s t))) with (@nil (nat * lock_t));
      rewrite ?Hw, ?app_nil_r.
    + intros r0 lt Hin. left. split; [|done]. intros ->. apply (Hd r); [|by left].
      apply list_elem_of_In, in_map_iff. exists (r, lt). split; [done|by apply list_elem_of_In].
    + by intros r0 lt ?%not_elem_of_nil.
    + done.
    + intros r0 Hr0. rewrite map_app, elem_of_app. intros [?|?%list_elem_of_singleton]; done.
    + done.
  - apply (data_sys (sys s)); [|by apply insert_row_dom with l].
    apply data_pc; [done|unfold cleaning; by rewrite Ep|done].
Qed.

(** The recorded access. *)
Lemma dirty_snoc x type r o r' o' wr rd :
  t_pc x = Locked type r ->
  dirty (mkTxn Running (accesses x ++ [mkAccess type r o]) wr rd) r' o' <->
  dirty x r' o' \/ (type = WR /\ r' = r /\ o' = o).
Proof using Type.
  intros Ep. unfold dirty. rewrite Ep. simpl. split.
  - intros (i & a & Ha & Hty & <- & <- & _).
    apply lookup_app_Some in Ha as [Ha|[Hlen Ha]].
    + left. eauto 10.
    + right. apply list_lookup_singleton_Some in Ha as [_ <-]. done.
  - intros [(i & a & Ha & Hty & <- & <- & _)|(-> & -> & ->)].
    + exists i, a. split; [by apply lookup_app_l_Some|done].
    + exists (length (accesses x)), (mkAccess WR r o). split_and!; [|done..].
      by apply list_lookup_middle.
Qed.

Lemma total_Some (d : gmap nat bytes) r : is_Some (d !! r) -> d !! r = Some (d !!! r).
Proof using Type. intros [v Hv]. by rewrite Hv, (lookup_total_correct _ _ _ Hv). Qed.

Lemma held_dom sy d f lg t r lt :
  locks_ok sy f -> data_ok sy d f lg -> (r, lt) ∈ held (f t) -> d !! r = Some (d !!! r).
Proof using Type.
  intros I J (l & Hl & _)%(i_held _ _ I). by eapply total_Some, (i_dom _ _ _ _ J).
Qed.

Context (REPEATABLE_READ : bool) (Hearly : early_release CC_ALG REPEATABLE_READ = false).

Lemma tpl_record t s s' : record_access CC_ALG REPEATABLE_READ t s = Some s' -> inv s -> inv s'.
Proof using Hearly.
  unfold record_access. rewrite Hearly. simpl. intros H [I J].
  destruct (t_pc (tx s t)) as [|type r| | | |] eqn:Ep; try done. injection H as <-.
  set (o := if bool_decide (type = WR) then db s !!! r else []).
  set (x' := mkTxn _ _ _ _).
  assert (held x' = held (tx s t)) as Hh
    by (unfold held; simpl; by rewrite Ep, app_nil_r, map_app).
  assert (wanted x' = wanted (tx s t)) as Hw by (unfold wanted; simpl; by rewrite Ep).
  assert ((r, lock_of type) ∈ held (tx s t)) as Hr
    by (unfold held; rewrite Ep; apply elem_of_app; right; by left).
  assert (forall o, ~ dirty (tx s t) r o) as Hnd.
  { intros o0 Hd. pose proof (i_nodup _ _ I t) as Hn. unfold held in Hn.
    rewrite Ep, !map_app, map_map in Hn. simpl in Hn.
    apply NoDup_app in Hn as (Hn & _ & _). apply NoDup_app in Hn as (_ & Hn & _).
    apply (Hn r); [|by left]. destruct Hd as (i & a & Ha & _ & <- & _).
    apply list_elem_of_In, in_map_iff. exists a. split; [done|].
    by apply list_elem_of_In, list_elem_of_lookup_2 with i. }
  pose proof (held_clean _ _ _ _ _ _ _ I J Hr Hnd) as Hcl.
  pose proof (held_dom _ _ _ _ _ _ _ I J Hr) as Hdom. rewrite Hdom in Hcl.
  split; simpl.
  { apply locks_tx; [done| | |by rewrite Hh, Hw].
    - intros r0 lt. rewrite Hh. apply (i_held _ _ I).
    - intros r0 lt. by rewrite Hw. }
  destruct J as [Hd Hre Hc Hdi Hrd]. constructor; simpl; [done|done| | |].
  - intros r0 Hn. apply Hc. intros t' o' Ho'. apply (Hn t' o').
    destruct (decide (t' = t)) as [->|]; [|by rewrite upd_ne].
    rewrite upd_eq. apply dirty_snoc; [done|]. by left.
  - intros t' r0 o'. destruct (decide (t' = t)) as [->|]; [|rewrite upd_ne by done; eauto].
    rewrite upd_eq. intros [?|(-> & -> & ->)]%dirty_snoc; [eauto| |done].
    subst o. by rewrite bool_decide_true.
  - intros t' r0 v. destruct (decide (t' = t)) as [->|]; [|rewrite upd_ne by done; eauto].
    rewrite upd_eq. intros _. simpl. rewrite map_app, !elem_of_app. simpl.
    intros [Hin|Hin].
    + destruct (Hrd t r0 v) as [? ?]; [unfold cleaning; by rewrite Ep|done|]. split; [by left|done].
    + destruct (bool_decide (type = WR)); [|by apply not_elem_of_nil in Hin].
      apply list_elem_of_singleton in Hin as [= -> ->]. split; [right; by left|done].
Qed.

Lemma tpl_read t i s s' : read_data t i s = Some s' -> inv s -> inv s'.
Proof using Type.
  unfold read_data. intros H [I J]. destruct (t_pc (tx s t)) eqn:Ep; try done.
  destruct (accesses (tx s t) !! i) as [a|] eqn:Ea; [|done].
  destruct (is_wr a) eqn:Ew; [done|]. unfold is_wr in Ew. b2p. injection H as <-.
  set (x' := mkTxn _ _ _ _).
  assert (held x' = held (tx s t)) as Hh by (unfold held; simpl; by rewrite Ep).
  assert (wanted x' = wanted (tx s t)) as Hw by (unfold wanted; simpl; by rewrite Ep).
  assert ((a_row a, lock_of (a_type a)) ∈ held (tx s t)) as Hr.
  { unfold held. apply elem_of_app. left. apply list_elem_of_In, in_map_iff. exists a. split; [done|].
    by apply list_elem_of_In, list_elem_of_lookup_2 with i. }
  split; simpl.
  { apply locks_tx; [done| | |by rewrite Hh, Hw].
    - intros r0 lt. rewrite Hh. apply (i_held _ _ I).
    - intros r0 lt. by rewrite Hw. }
  assert (forall o, ~ dirty (tx s t) (a_row a) o) as Hnd.
  { intros o (j & a' & Ha' & Hty & Hrow & _). pose proof (i_nodup _ _ I t) as Hn. unfold held in Hn.
    rewrite Ep, app_nil_r, map_app, map_map in Hn. apply NoDup_app in Hn as (Hn & _ & _). simpl in Hn.
    assert (i = j) as <-.
    { eapply NoDup_lookup; [exact Hn| |]; rewrite lookup_map; [by rewrite Ea|]. rewrite Ha'. simpl. by f_equal. }
    rewrite Ea in Ha'. injection Ha' as <-. done. }
  pose proof (held_clean _ _ _ _ _ _ _ I J Hr Hnd) as Hcl.
  rewrite (held_dom _ _ _ _ _ _ _ I J Hr) in Hcl.
  apply data_tx; [done| |].
  - intros r0 o. unfold dirty. simpl. by rewrite Ep.
  - intros _ r0 v. simpl. rewrite elem_of_app, list_elem_of_singleton. intros [Hin|[= -> ->]].
    + apply (i_reads _ _ _ _ J t); [unfold cleaning; by rewrite Ep|done].
    + split; [|done]. apply list_elem_of_In, in_map_iff. exists a. split; [done|].
      by apply list_elem_of_In, list_elem_of_lookup_2 with i.
Qed.

Lemma tpl_write t i v s s' : write_data t i v s = Some s' -> inv s -> inv s'.
Proof using Type.
  unfold write_data. intros H [I J]. destruct (t_pc (tx s t)) eqn:Ep; try done.
  destruct (accesses (tx s t) !! i) as [a|] eqn:Ea; [|done].
  destruct (is_wr a) eqn:Ew; [|done]. unfold is_wr in Ew. b2p. injection H as <-.
  split; simpl; [done|]. destruct J as [Hd Hre Hc Hdi Hrd]. constructor; try done.
  - intros r l Hl. destruct (decide (r = a_row a)) as [->|]; [rewrite lookup_insert_eq; eauto|].
    rewrite lookup_insert_ne by done. eauto.
  - intros r Hn. rewrite lookup_insert_ne; [auto|]. intros <-. apply (Hn t (orig_data a)).
    exists i, a. rewrite Ep. done.
Qed.

Lemma tpl_finish t rc s s' : finish t rc s = Some s' -> inv s -> inv s'.
Proof using Type.
  clear get_txn_id MAX_ROW_PER_TXN.
  intros H [I J].
  assert (forall p, cleaning (set_pc p (tx s t)) = true -> wanted (tx s t) = [] ->
    held (tx s t) = map (fun a => (a_row a, lock_of (a_type a))) (accesses (tx s t)) ->
    locks_ok (sys s) (upd (tx s) t (set_pc p (tx s t)))) as Hlocks.
  { intros p Hp Hw Hh.
    assert (held (set_pc p (tx s t)) = held (tx s t)) as Hh'
      by (rewrite Hh; unfold held; simpl; destruct p; try done; by rewrite app_nil_r).
    assert (wanted (set_pc p (tx s t)) = []) as Hw' by (by destruct p).
    apply locks_tx; [done| | |by rewrite Hh', Hw', Hw].
    - intros r0 lt. rewrite Hh'. apply (i_held _ _ I).
    - intros r0 lt. by rewrite Hw', Hw. }
  unfold finish in H.
  destruct (t_pc (tx s t)) eqn:Ep; try done; destruct rc; try done; injection H as <-.
  - (* commit *)
    assert (held (tx s t) = map (fun a => (a_row a, lock_of (a_type a))) (accesses (tx s t))) as Hh
      by (unfold held; by rewrite Ep, app_nil_r).
    split; simpl; [apply Hlocks; [done|unfold wanted; by rewrite Ep|done]|].
    assert (NoDup (writes_of (db s) (tx s t)).*1) as Hnw.
    { unfold writes_of. change (@fmap list _ _ _ fst) with (@map (nat * bytes) nat fst).
      rewrite map_map. simpl. pose proof (i_nodup _ _ I t) as Hn. rewrite Hh, map_app, map_map in Hn.
      apply NoDup_app in Hn as (Hn & _ & _). simpl in Hn. revert Hn. generalize (accesses (tx s t)).
      intros k. induction k as [|a k IH]; simpl; [done|]. intros [Hni Hn]%NoDup_cons.
      destruct (is_wr a); simpl; [|by apply IH]. apply NoDup_cons. split; [|by apply IH].
      intros Hin. apply Hni. apply list_elem_of_In, in_map_iff in Hin as (b & <- & Hb).
      apply List.filter_In in Hb as [Hb _]. apply list_elem_of_In, in_map_iff. eauto. }
    assert (forall r v, (r, v) ∈ writes_of (db s) (tx s t) <->
      v = db s !!! r /\ exists i a, accesses (tx s t) !! i = Some a /\ a_type a = WR /\ a_row a = r) as Hwr.
    { intros r v. unfold writes_of. rewrite list_elem_of_In, in_map_iff. split.
      - intros (a & [= <- <-] & [Ha Hwa]%List.filter_In). split; [done|].
        apply list_elem_of_In, list_elem_of_lookup in Ha as [i Hi]. exists i, a.
        unfold is_wr in Hwa. b2p. done.
      - intros (-> & i & a & Ha & Hwa & <-). exists a. split; [done|]. apply List.filter_In.
        split; [by apply list_elem_of_In, list_elem_of_lookup_2 with i|].
        unfold is_wr. by apply bool_decide_eq_true. }
    assert (forall r i a, accesses (tx s t) !! i = Some a -> a_type a = WR -> a_row a = r ->
      (r, LOCK_EX) ∈ held (tx s t)) as Hex.
    { intros r i a Ha Hwa <-. rewrite Hh. apply list_elem_of_In, in_map_iff. exists a.
      split; [by rewrite Hwa|by apply list_elem_of_In, list_elem_of_lookup_2 with i]. }
    pose proof J as [Hd Hre Hc Hdi Hrd]. constructor; simpl.
    + done.
    + apply replay_snoc. split; [done|]. simpl. intros r v Hin.
      apply (Hrd t); [unfold cleaning; by rewrite Ep|done].
    + intros r Hn. rewrite serial_db_snoc. simpl.
      destruct (decide (r ∈ (writes_of (db s) (tx s t)).*1)) as [Hin|Hin].
      * apply list_elem_of_fmap in Hin as ([r' v] & -> & Hin).
        rewrite (apply_writes_in _ _ _ _ Hnw Hin). simpl. apply Hwr in Hin as (-> & i & a & Ha & Hwa & Hrow).
        eapply held_dom; [done|exact J|by eapply Hex].
      * rewrite apply_writes_other by (intros v Hv; apply Hin; by apply (list_elem_of_fmap_2 fst) in Hv).
        apply Hc. intros t' o Ho. destruct (decide (t' = t)) as [->|Hne].
        -- destruct Ho as (i & a & Ha & Hwa & Hrow & _). apply Hin.
           apply (list_elem_of_fmap_2 fst _ (r, db s !!! r)). apply Hwr. eauto 10.
        -- apply (Hn t' o). by rewrite upd_ne.
    + intros t' r o. destruct (decide (t' = t)) as [->|Hne].
      * rewrite upd_eq. by intros (i & a & _ & _ & _ & _ & ? & _).
      * rewrite upd_ne by done. intros Ho. rewrite serial_db_snoc. simpl.
        rewrite apply_writes_other; [by eapply Hdi|].
        intros v (_ & i & a & Ha & Hwa & Hrow)%Hwr.
        destruct (held_exclusive _ _ t t' r LOCK_EX I) as [-> _]; [by eapply Hex|by eapply dirty_held|done].
    + intros t' r v Hcl Hin. destruct (decide (t' = t)) as [->|Hne]; [by rewrite upd_eq in Hcl|].
      rewrite upd_ne in Hcl, Hin |- * by done. destruct (Hrd t' r v Hcl Hin) as [Hrow Hv].
      split; [done|]. rewrite serial_db_snoc. simpl. rewrite apply_writes_other; [done|].
      intros v' (_ & i & a & Ha & Hwa & Hrow')%Hwr.
      apply list_elem_of_In, in_map_iff in Hrow as (b & Hb & Hin').
      destruct (held_exclusive _ _ t t' r (lock_of (a_type b)) I) as [-> _]; [by eapply Hex| |done].
      unfold held. apply elem_of_app. left. apply list_elem_of_In, in_map_iff. exists b. by rewrite Hb.
  - split; simpl; [apply Hlocks; [done|unfold wanted; by rewrite Ep|unfold held; by rewrite Ep, app_nil_r]|].
    apply data_tx; [done| |done]. intros r o. unfold dirty. simpl. rewrite Ep. naive_solver.
  - split; simpl; [apply Hlocks; [done|unfold wanted; by rewrite Ep|unfold held; by rewrite Ep, app_nil_r]|].
    apply data_tx; [done| |done]. intros r o. unfold dirty. simpl. rewrite Ep. naive_solver.
Qed.

Lemma last_Some_app {A} (l : list A) a : last l = Some a -> exists k, l = k ++ [a].
Proof using Type. intros H. apply last_Some in H as [k ->]. eauto. Qed.

Lemma tpl_copy t s s' : cleanup_copy t s = Some s' -> inv s -> inv s'.
Proof using Type.
  clear Hearly REPEATABLE_READ.
  unfold cleanup_copy. intros H [I J]. destruct (t_pc (tx s t)) as [| | | | |rc [|]] eqn:Ep; try done.
  destruct (last (accesses (tx s t))) as [a|] eqn:El; [|done].
  unfold to_restore, is_wr in H. destruct (_ && _) eqn:Er; [|done]. b2p. injection H as <-. subst rc.
  apply last_Some_app in El as [k Ek].
  set (x' := set_pc _ _).
  assert (held x' = held (tx s t)) as Hh by (unfold held; simpl; by rewrite Ep).
  assert (wanted x' = wanted (tx s t)) as Hw by (unfold wanted; simpl; by rewrite Ep).
  split; simpl.
  { apply locks_tx; [done| | |by rewrite Hh, Hw].
    - intros r0 lt. rewrite Hh. apply (i_held _ _ I).
    - intros r0 lt. by rewrite Hw. }
  assert (accesses (tx s t) !! length k = Some a) as Ha by (rewrite Ek; by apply list_lookup_middle).
  assert (pred (length (accesses (tx s t))) = length k) as Hlen by (rewrite Ek, length_app; simpl; lia).
  assert (forall r o, dirty x' r o <-> dirty (tx s t) r o /\ r <> a_row a) as Hdx.
  { intros r o. unfold dirty. simpl. rewrite Ep. split.
    - intros (i & b & Hb & Hty & <- & <- & _ & Hi). specialize (Hi eq_refl). rewrite Hlen in Hi.
      split; [eauto 10|]. intros Hrow. apply Hi.
      pose proof (i_nodup _ _ I t) as Hn. unfold held in Hn.
      rewrite !map_app, map_map in Hn. apply NoDup_app in Hn as (Hn & _ & _).
      apply NoDup_app in Hn as (Hn & _ & _). simpl in Hn.
      eapply NoDup_lookup; [exact Hn| |]; rewrite lookup_map; [by rewrite Hb|]. rewrite Ha. simpl. by f_equal.
    - intros [(i & b & Hb & Hty & <- & <- & _) Hrow]. exists i, b. split_and!; [done..|].
      intros _. rewrite Hlen. intros ->. rewrite Ha in Hb. injection Hb as <-. done. }
  assert (dirty (tx s t) (a_row a) (orig_data a)) as Hda
    by (exists (length k), a; rewrite Ep; done).
  destruct J as [Hd Hre Hc Hdi Hrd]. constructor; simpl; [|done| | |].
  - intros r l Hl. destruct (decide (r = a_row a)) as [->|]; [rewrite lookup_insert_eq; eauto|].
    rewrite lookup_insert_ne by done. eauto.
  - intros r Hn. destruct (decide (r = a_row a)) as [->|Hne].
    + rewrite lookup_insert_eq. symmetry. eauto.
    + rewrite lookup_insert_ne by done. apply Hc. intros t' o Ho. apply (Hn t' o).
      destruct (decide (t' = t)) as [->|]; [rewrite upd_eq; by apply Hdx|by rewrite upd_ne].
  - intros t' r o. destruct (decide (t' = t)) as [->|]; [|rewrite upd_ne by done; eauto].
    rewrite upd_eq. intros [Ho _]%Hdx. eauto.
  - intros t' r v. destruct (decide (t' = t)) as [->|]; [by rewrite upd_eq|rewrite upd_ne by done; eauto].
Qed.

Lemma tpl_release t s s' : cleanup_release CC_ALG REPEATABLE_READ t s = Some s' -> inv s -> inv s'.
Proof using Hg Hearly.
  unfold cleanup_release, release. rewrite Hearly. simpl. intros H [I J].
  destruct (t_pc (tx s t)) as [| | | | |rc restored] eqn:Ep; try done.
  destruct (last (accesses (tx s t))) as [a|] eqn:El; [|done]. inv_assert.
  apply last_Some_app in El as [k Ek].
  assert (accesses (tx s t) !! length k = Some a) as Ha by (rewrite Ek; by apply list_lookup_middle).
  assert (held (tx s t) = map (fun a => (a_row a, lock_of (a_type a))) k ++ [(a_row a, lock_of (a_type a))])
    as Hh by (unfold held; by rewrite Ep, app_nil_r, Ek, map_app).
  assert (wanted (tx s t) = []) as Hw by (unfold wanted; by rewrite Ep).
  destruct (release_ok (sys s) (tx s) t (a_row a) (lock_of (a_type a)) I)
    as (l & rc' & l' & fl' & Hl & Hrel & Hk & Hni & Hs); [left; rewrite Hh; apply elem_of_app; right; by left|].
  rewrite Hl, Hrel in H. injection H as <-. rewrite Ek, removelast_last.
  set (x' := mkTxn _ _ _ _).
  assert (held x' = map (fun a => (a_row a, lock_of (a_type a))) k) as Hh' by (unfold held; simpl; by rewrite app_nil_r).
  assert (wanted x' = []) as Hw' by done.
  pose proof (i_nodup _ _ I t) as Hnd. rewrite Hw, Hh, app_nil_r, map_app in Hnd.
  apply NoDup_app in Hnd as (Hnd & Hdis & _). simpl in Hdis.
  split; simpl.
  - apply locks_row with l; simpl; [done..| | | | |]; rewrite ?Hh', ?Hw', ?Hh, ?Hw, ?app_nil_r; try done.
    + intros r0 lt Hin. left. split; [|apply elem_of_app; by left]. intros ->.
      apply (Hdis (a_row a)); [|by left]. apply list_elem_of_In, in_map_iff. exists (a_row a, lt).
      split; [done|by apply list_elem_of_In].
    + by intros r0 lt ?%not_elem_of_nil.
    + intros r0 Hr0. rewrite map_app, elem_of_app. intros [?|?%list_elem_of_singleton]; done.
  - apply (data_sys (sys s)); [|by apply insert_row_dom with l]. apply data_tx; [done| |done].
    intros r o. unfold dirty. simpl. rewrite Ep, Ek. split.
    + intros (i & b & Hb & Hty & <- & <- & -> & _). pose proof (lookup_lt_Some _ _ _ Hb).
      exists i, b. split_and!; [by apply lookup_app_l_Some|done..|].
      intros _. rewrite length_app. simpl. lia.
    + intros (i & b & Hb & Hty & <- & <- & -> & Hi). apply lookup_app_Some in Hb as [Hb|[Hlen Hb]].
      * exists i, b. done.
      * exfalso. apply list_lookup_singleton_Some in Hb as [Hi0 <-].
        unfold to_restore, is_wr in H0. rewrite Hty, !bool_decide_true in H0 by done. simpl in H0.
        apply Hi; [done|]. rewrite length_app. simpl. lia.
Qed.

Lemma tpl_end t s s' : cleanup_end t s = Some s' -> inv s -> inv s'.
Proof using Type.
  unfold cleanup_end. intros H [I J].
  destruct (t_pc (tx s t)) as [| | | | |rc restored] eqn:Ep; try done.
  destruct (accesses (tx s t)) eqn:Ea; [|done]. injection H as <-. split; simpl.
  - apply locks_tx; [done| | |]; unfold held, wanted; rewrite ?Ep, ?Ea; simpl;
      [by intros r lt ?%not_elem_of_nil..|done].
  - apply data_tx; [done| |].
    + intros r o. unfold dirty. rewrite Ep, Ea. simpl. split; intros (i & b & Hb & _); done.
    + intros _ r v ?%not_elem_of_nil. done.
Qed.

Lemma tpl_new_ts t v s :
  tx s t = idle -> (forall t', sys_ts (sys s) t' <> v) -> inv s -> inv (new_ts t v s).
Proof using Hg.
  intros Hi Hv [I J]. split; simpl; [|by apply (data_sys (sys s)); eauto].
  assert (forall r, ~ holds_at (sys s) r t) as Hnh.
  { intros r (l & Hl & Hin). pose proof (i_only _ _ I _ _ _ Hl Hin) as Ho. rewrite Hi in Ho.
    unfold held, wanted in Ho. simpl in Ho. by apply not_elem_of_nil in Ho. }
  pose proof (lock_step_ok g_thread_cnt (fun _ => 0) CC_ALG _ _ Hg (i_sys _ _ I)
    (RowLock.step_set_ts g_thread_cnt (fun _ => 0) CC_ALG t v (sys s) Hnh Hv)) as Hs.
  destruct I. by constructor.
Qed.

Lemma tpl_step s s' :
  step g_thread_cnt get_txn_id CC_ALG MAX_ROW_PER_TXN REPEATABLE_READ s s' -> inv s -> inv s'.
Proof using Hg Hearly.
  intros []; eauto using tpl_new_ts, tpl_get_row, tpl_wait_ready, tpl_wait_abort, tpl_leave_queue,
    tpl_record, tpl_read, tpl_write, tpl_finish, tpl_copy, tpl_release, tpl_end.
Qed.

Lemma tpl_init s : init s -> db s = db0 -> inv s.
Proof using Type.
  intros (Hl & Ht & Hlog & Hdom) Hdb.
  assert (forall r o, ~ dirty idle r o) as Hnd by (by intros r o (i & a & ? & _)).
  pose proof (lock_init_ok g_thread_cnt CC_ALG _ Hl) as Hs. destruct Hl as [Hrow _].
  split; constructor; try done.
  - intros t r lt. rewrite Ht. by intros ?%not_elem_of_nil.
  - intros t r lt. rewrite Ht. by intros ?%not_elem_of_nil.
  - intros t r l Hr. rewrite (Hrow r l Hr). by intros ?%not_elem_of_nil.
  - intros t. rewrite Ht. constructor.
  - by rewrite Hlog.
  - by rewrite Hlog, Hdb.
  - intros t r o. rewrite Ht. by intros ?%Hnd.
  - intros t r v. rewrite Ht. by intros _ ?%not_elem_of_nil.
Qed.
End invariant.

(** ** What two-phase locking guarantees *)

(** The events of a schedule, for concrete runs. *)
Inductive Op :=
  | OGet (t : nat) (type : access_t) (r : nat)
  | ORecord (t : nat)
  | ORead (t i : nat)
  | OWrite (t i : nat) (v : bytes)
  | OFinish (t : nat) (rc : RC)
  | OCopy (t : nat)
  | ORelease (t : nat)
  | OEnd (t : nat).

Section schedules.
Context (g_thread_cnt : nat) (get_txn_id : nat -> Z) (CC_ALG : lock_alg).
Context (MAX_ROW_PER_TXN : nat) (REPEATABLE_READ : bool).

Definition exec (o : Op) (s : State) : option State :=
  match o with
  | OGet t type r => get_row g_thread_cnt get_txn_id CC_ALG MAX_ROW_PER_TXN t type r s
  | ORecord t => record_access CC_ALG REPEATABLE_READ t s
  | ORead t i => read_data t i s
  | OWrite t i v => write_data t i v s
  | OFinish t rc => finish t rc s
  | OCopy t => cleanup_copy t s
  | ORelease t => cleanup_release CC_ALG REPEATABLE_READ t s
  | OEnd t => cleanup_end t s
  end.

Fixpoint exec_all (os : list Op) (s : State) : option State :=
  match os with
  | [] => Some s
  | o :: os => do! s' <- exec o s;; exec_all os s'
  end.

Notation step := (step g_thread_cnt get_txn_id CC_ALG MAX_ROW_PER_TXN REPEATABLE_READ).

Lemma exec_steps os s s' : exec_all os s = Some s' -> rtc step s s'.
Proof using Type.
  revert s. induction os as [|o os IH]; intros s; simpl; [intros [= ->]; apply rtc_refl|].
  destruct (exec o s) as [s1|] eqn:E; [|done]. intros H. apply rtc_l with s1; [|by apply IH].
  destruct o; [eapply step_get_row|eapply step_record|eapply step_read|eapply step_write|
    eapply step_finish|eapply step_copy|eapply step_release|eapply step_end]; exact E.
Qed.

Lemma tpl_reachable s0 s :
  Z.of_nat g_thread_cnt < 2 ^ 32 -> early_release CC_ALG REPEATABLE_READ = false ->
  init s0 -> rtc step s0 s -> inv g_thread_cnt CC_ALG (db s0) s.
Proof using Type.
  intros Hg He Hi Hr.
  refine (rtc_ind_r (R := step) (inv g_thread_cnt CC_ALG (db s0)) s0 _ _ s Hr); [by apply tpl_init|].
  intros s1 s2 _ Hs. by eapply tpl_step.
Qed.

(** The loop of [cleanup] from any point of it. *)
Lemma cleanup_ends k t s db0 rc restored :
  Z.of_nat g_thread_cnt < 2 ^ 32 -> early_release CC_ALG REPEATABLE_READ = false ->
  inv g_thread_cnt CC_ALG db0 s -> accesses (tx s t) = k -> t_pc (tx s t) = Cleaning rc restored ->
  exists s', rtc step s s' /\ tx s' t = idle /\ log s' = log s /\ forall t', t' <> t -> tx s' t' = tx s t'.
Proof using Type.
  intros Hg He. revert s restored. induction k as [|a k IH] using rev_ind; intros s restored I Ha Ep.
  { eexists. split; [apply rtc_once, (step_end _ _ _ _ _ t); unfold cleanup_end; by rewrite Ep, Ha|].
    simpl. rewrite upd_eq. split_and!; [done|done|]. intros. by rewrite upd_ne. }
  assert (exists s1, rtc step s s1 /\ inv g_thread_cnt CC_ALG db0 s1 /\ log s1 = log s /\
    (forall t', t' <> t -> tx s1 t' = tx s t') /\ accesses (tx s1 t) = k ++ [a] /\
    exists b, t_pc (tx s1 t) = Cleaning rc b /\ (to_restore rc a = true -> b = true))
    as (s1 & Hs1 & I1 & Hl1 & Ho1 & Ha1 & b & Ep1 & Hb).
  { destruct (to_restore rc a && negb restored) eqn:Er.
    - b2p. subst restored.
      set (s1 := set_tx t (set_pc (Cleaning rc true) (tx s t)) (set_db (a_row a) (orig_data a) s)).
      assert (cleanup_copy t s = Some s1) as Hc
        by (unfold cleanup_copy; by rewrite Ep, Ha, last_snoc, H).
      exists s1. split_and!; [by eapply rtc_once, step_copy|by eapply tpl_copy|done| | |].
      + intros. simpl. by rewrite upd_ne.
      + simpl. by rewrite upd_eq.
      + exists true. simpl. by rewrite upd_eq.
    - exists s. split_and!; [apply rtc_refl|done|done|done|done|]. exists restored. split; [done|].
      intros Hr. rewrite Hr in Er. by destruct restored. }
  destruct (release_ok g_thread_cnt CC_ALG Hg (sys s1) (tx s1) t (a_row a) (lock_of (a_type a)) (proj1 I1))
    as (l & rc' & l' & fl' & Hl & Hrel & _).
  { left. unfold held. rewrite Ha1, map_app. apply elem_of_app. left. apply elem_of_app. right. by left. }
  assert (exists s2, cleanup_release CC_ALG REPEATABLE_READ t s1 = Some s2 /\ log s2 = log s1 /\
    accesses (tx s2 t) = k /\ t_pc (tx s2 t) = Cleaning rc false /\ forall t', t' <> t -> tx s2 t' = tx s1 t')
    as (s2 & Hc2 & Hl2 & Ha2 & Ep2 & Ho2).
  { unfold cleanup_release, release. rewrite Ep1, Ha1, last_snoc, He. simpl. rewrite Hl, Hrel.
    rewrite c_assert_true by (destruct (to_restore rc a); simpl; auto).
    eexists. split; [done|]. simpl. rewrite upd_eq, removelast_last.
    split_and!; [done..|]. intros. by rewrite upd_ne. }
  destruct (IH s2 false) as (s' & Hs' & Hi' & Hl' & Ho'); [by eapply tpl_release|done|done|].
  exists s'. split_and!; [|done|congruence|].
  - etrans; [exact Hs1|]. eapply rtc_l; [by eapply step_release|done].
  - intros t' Ht. rewrite Ho', Ho2, Ho1 by done. done.
Qed.
End schedules.

(** C1. Two-phase locking is serializable: under DL_DETECT, NO_WAIT and WAIT_DIE,
    in every interleaving of the workers' calls, copies, reads and writes, the
    committed transactions, in the order in which they enter [cleanup], read
    exactly what the ones before them wrote; every row without an unfinished
    write access has the contents that the committed transactions left, so an
    abort undoes every write; and also a transaction that has not ended has read
    nothing but committed values that are still current. *)
Theorem two_phase_serializable g_thread_cnt get_txn_id CC_ALG MAX_ROW_PER_TXN REPEATABLE_READ s0 s
  (Hg : Z.of_nat g_thread_cnt < 2 ^ 32)
  (He : early_release CC_ALG REPEATABLE_READ = false)
  (Hi : init s0)
  (Hr : rtc (step g_thread_cnt get_txn_id CC_ALG MAX_ROW_PER_TXN REPEATABLE_READ) s0 s) :
  replay (db s0) (log s) /\
  (forall r, (forall t a, a ∈ accesses (tx s t) -> a_row a = r -> a_type a <> WR) ->
     db s !! r = serial_db (db s0) (log s) !! r) /\
  (forall t r v, (forall rc b, t_pc (tx s t) <> Cleaning rc b) -> (r, v) ∈ t_reads (tx s t) ->
     serial_db (db s0) (log s) !! r = Some v).
Proof.
  destruct (tpl_reachable _ _ _ _ _ _ _ Hg He Hi Hr) as [I J]. split_and!.
  - apply (i_replay _ _ _ _ _ J).
  - intros r Hn. apply (i_clean _ _ _ _ _ J). intros t o (i & a & Ha & Hw & Hrow & _).
    by eapply (Hn t a); [by eapply list_elem_of_lookup_2|..].
  - intros t r v Hc Hin. apply (i_reads _ _ _ _ _ J t); [|done]. unfold cleaning.
    destruct (t_pc (tx s t)) eqn:Ep; try done. by destruct (Hc rc restored).
Qed.

(** C34. [cleanup] ends: in every reachable state a transaction in the loop of
    [cleanup] can finish it without waiting for any other, none of its calls on
    the row locks fails an assertion, and nothing else changes its state. *)
Theorem two_phase_cleanup_ends g_thread_cnt get_txn_id CC_ALG MAX_ROW_PER_TXN REPEATABLE_READ s0 s t rc b
  (Hg : Z.of_nat g_thread_cnt < 2 ^ 32)
  (He : early_release CC_ALG REPEATABLE_READ = false)
  (Hi : init s0)
  (Hr : rtc (step g_thread_cnt get_txn_id CC_ALG MAX_ROW_PER_TXN REPEATABLE_READ) s0 s)
  (Hc : t_pc (tx s t) = Cleaning rc b) :
  exists s', rtc (step g_thread_cnt get_txn_id CC_ALG MAX_ROW_PER_TXN REPEATABLE_READ) s s' /\
    tx s' t = idle /\ log s' = log s /\ forall t', t' <> t -> tx s' t' = tx s t'.
Proof. eapply cleanup_ends; [done|done| |done|done]. by eapply tpl_reachable. Qed.

(** ** Concrete runs: two rows, two workers *)

Definition start : State :=
  mkState (mkLockSys {[ 0%nat := Row_lock_init; 1%nat := Row_lock_init ]} ∅ Z.of_nat)
    {[ 0%nat := [1]; 1%nat := [2] ]} (fun _ => idle) [].

Lemma start_init : init start.
Proof.
  split_and!; [|done|done|].
  - split; [|simpl; lia]. intros r l. unfold start. simpl.
    intros [[_ <-]|[_ [_ <-]%lookup_singleton_Some]]%lookup_insert_Some; done.
  - intros r l. unfold start. simpl.
    intros [[<- _]|[_ [<- _]%lookup_singleton_Some]]%lookup_insert_Some; eauto.
Qed.

(** Worker 0 reads row 0 and writes row 1, and is aborted; worker 1 reads row 0,
    writes row 1 and is in [cleanup]. *)
Definition run_ex : list Op :=
  [OGet 0 RD 0; ORecord 0; ORead 0 0; OGet 0 WR 1; ORecord 0; OWrite 0 1 [7]; OFinish 0 Abort;
   OCopy 0; ORelease 0; OGet 1 WR 1; ORecord 1; OWrite 1 0 [9]; ORelease 0; OEnd 0; OFinish 1 RCOK].

Lemma two_phase_serializable_witness : exists s,
  rtc (step 2 Z.of_nat NO_WAIT 64 false) start s /\
  log s = [mkCommit 0 [(1%nat, [2])] [(1%nat, [9])]] /\ replay (db start) (log s).
Proof.
  destruct (exec_all 2 Z.of_nat NO_WAIT 64 false run_ex start) as [s|] eqn:E; [|by vm_compute in E].
  assert (rtc (step 2 Z.of_nat NO_WAIT 64 false) start s) as Hr by (by eapply exec_steps).
  exists s. split; [done|]. split.
  - assert (log <$> exec_all 2 Z.of_nat NO_WAIT 64 false run_ex start =
      Some [mkCommit 0 [(1%nat, [2])] [(1%nat, [9])]]) as El by (vm_compute; reflexivity).
    rewrite E in El. by injection El.
  - refine (proj1 (two_phase_serializable 2 Z.of_nat NO_WAIT 64 false start s _ eq_refl start_init Hr)).
    lia.
Defined.

Lemma two_phase_cleanup_ends_witness : exists s s',
  rtc (step 2 Z.of_nat NO_WAIT 64 false) start s /\ t_pc (tx s 1%nat) = Cleaning RCOK false /\
  rtc (step 2 Z.of_nat NO_WAIT 64 false) s s' /\ tx s' 1%nat = idle.
Proof.
  destruct (exec_all 2 Z.of_nat NO_WAIT 64 false run_ex start) as [s|] eqn:E; [|by vm_compute in E].
  assert (rtc (step 2 Z.of_nat NO_WAIT 64 false) start s) as Hr by (by eapply exec_steps).
  assert (t_pc (tx s 1%nat) = Cleaning RCOK false) as Hp.
  { assert ((fun s => t_pc (tx s 1%nat)) <$> exec_all 2 Z.of_nat NO_WAIT 64 false run_ex start =
      Some (Cleaning RCOK false)) as El by (vm_compute; reflexivity).
    rewrite E in El. by injection El. }
  destruct (two_phase_cleanup_ends 2 Z.of_nat NO_WAIT 64 false start s 1 RCOK false ltac:(lia) eq_refl
    start_init Hr Hp) as (s' & Hs' & Hi & _).
  exists s, s'. split; [exact Hr|]. split; [exact Hp|]. split; [exact Hs'|exact Hi].
Defined.

(** With [ISOLATION_LEVEL == REPEATABLE_READ] the shared lock goes back before
    [get_row] returns, and the pointer stays in use: worker 0 reads row 0 twice and
    gets 1 and then the 5 that worker 1 has written and takes back, and worker 0
    commits: no serial execution reads that. *)
Theorem repeatable_read_dirty_read : exists s,
  rtc (step 2 Z.of_nat NO_WAIT 64 true) start s /\
  log s = [mkCommit 0 [(0%nat, [1]); (0%nat, [5])] []] /\ db s !! 0%nat = Some [1] /\
  ~ replay (db start) (log s).
Proof.
  set (ops := [OGet 0 RD 0; ORecord 0; ORead 0 0; OGet 1 WR 0; ORecord 1; OWrite 1 0 [5]; ORead 0 0;
    OFinish 1 Abort; OCopy 1; ORelease 1; OEnd 1; OFinish 0 RCOK]).
  destruct (exec_all 2 Z.of_nat NO_WAIT 64 true ops start) as [s|] eqn:E; [|by vm_compute in E].
  assert ((fun s => (log s, db s !! 0%nat)) <$> exec_all 2 Z.of_nat NO_WAIT 64 true ops start =
    Some ([mkCommit 0 [(0%nat, [1]); (0%nat, [5])] []], Some [1])) as El by (vm_compute; reflexivity).
  rewrite E in El. injection El as Hlog Hdb.
  exists s. split_and!; [by eapply exec_steps|done|done|]. rewrite Hlog. intros [Hrep _].
  specialize (Hrep 0%nat [5]). simpl in Hrep. unfold start in Hrep. simpl in Hrep.
  rewrite lookup_insert_eq in Hrep. specialize (Hrep ltac:(right; by left)). done.
Qed.
