(* ===== verification/Occ.v ===== *)
(** * Optimistic concurrency control

    [Row_occ] of src/concurrency_control/row_occ.cpp and [OptCC] of
    src/concurrency_control/occ/occ.cpp: the timestamped copy and validation of
    a row, the validation of a transaction with per-row latches as a system of
    interleaved steps, and the centralised validation with its history and
    active set. *)

From Stdlib Require Import String.
From S2P Require Import Prelude Global Sort Serial.

(** ** Rows *)

Record Row_occ (V : Type) := mkRow_occ {
  ro_row : V;                  (* the contents of _row *)
  ro_wts : Z;                  (* the last update time *)
  ro_latch : option nat }.     (* the transaction that holds the latch *)
Arguments mkRow_occ {V}.
Arguments ro_row {V}.
Arguments ro_wts {V}.
Arguments ro_latch {V}.

Definition Row_occ_init {V} (v : V) : Row_occ V := mkRow_occ v 0 None.

(** [access]: the copy into [cur_row], under the latch. *)
Definition occ_access {V} (start_ts : Z) (type : TsType) (r : Row_occ V)
    : option (RC * option V) :=
  match type with
  | R_REQ => if start_ts <? ro_wts r then Some (Abort, None)
             else Some (RCOK, Some (ro_row r))
  | _ => None
  end.

Definition occ_validate {V} (ts : Z) (r : Row_occ V) : bool :=
  if ts <? ro_wts r then false else true.

(** [write], with [PER_ROW_VALID]. *)
Definition occ_write {V} (PER_ROW_VALID : bool) (data : V) (ts : Z) (r : Row_occ V)
    : option (Row_occ V) :=
  if PER_ROW_VALID then
    assert! ro_wts r <? ts;; Some (mkRow_occ data ts (ro_latch r))
  else Some (mkRow_occ data (ro_wts r) (ro_latch r)).

(** An entry of [accesses]; [oa_read] is the value [access] copied, before the
    transaction changed its copy [oa_data]. *)
Record oacc (V : Type) := mkOacc {
  oa_type : access_t;
  oa_row : nat;
  oa_data : V;
  oa_read : V }.
Arguments mkOacc {V}.
Arguments oa_type {V}.
Arguments oa_row {V}.
Arguments oa_data {V}.
Arguments oa_read {V}.

(** ** The order of latching

    [Sort.bubble_sort] with the comparison at the start of
    [per_row_validate]. *)

(** The comparison of two accesses: by table name ([strcmp]), then by primary
    key. *)
Section order.
Context {V : Type} (table_name : nat -> string) (primary_key : nat -> Z).

Definition access_gt (a b : oacc V) : bool :=
  let tabcmp := String.compare (table_name (oa_row a)) (table_name (oa_row b)) in
  match tabcmp with
  | Gt => true
  | Eq => primary_key (oa_row b) <? primary_key (oa_row a)
  | Lt => false
  end.

Definition sort_accesses (l : list (oacc V)) : list (oacc V) :=
  bubble_sort access_gt (length l - 1) l.

Lemma string_compare_trans (a b c : string) :
  String.compare a b <> Gt -> String.compare b c <> Gt ->
  String.compare a c <> Gt /\
  (String.compare a c = Eq -> String.compare a b = Eq /\ String.compare b c = Eq).
Proof.
  revert b c. induction a as [|x a IH]; intros [|y b] [|z c]; simpl; try done.
  unfold Ascii.compare.
  destruct (N.compare_spec (Ascii.N_of_ascii x) (Ascii.N_of_ascii y)) as [Hxy|Hxy|Hxy],
    (N.compare_spec (Ascii.N_of_ascii y) (Ascii.N_of_ascii z)) as [Hyz|Hyz|Hyz],
    (N.compare_spec (Ascii.N_of_ascii x) (Ascii.N_of_ascii z)) as [Hxz|Hxz|Hxz];
    try lia; try done; intros H1 H2; by apply IH.
Qed.

Lemma access_gt_total a b : access_gt a b = true -> access_gt b a = false.
Proof.
  unfold access_gt. rewrite (String.compare_antisym (table_name (oa_row b))).
  destruct (String.compare _ _); simpl; [|done|done]. lia.
Qed.

Lemma access_gt_trans a b c :
  access_gt a b = false -> access_gt b c = false -> access_gt a c = false.
Proof.
  unfold access_gt.
  pose proof (string_compare_trans (table_name (oa_row a)) (table_name (oa_row b))
    (table_name (oa_row c))) as Ht.
  destruct (String.compare (table_name (oa_row a)) (table_name (oa_row b))),
    (String.compare (table_name (oa_row b)) (table_name (oa_row c))),
    (String.compare (table_name (oa_row a)) (table_name (oa_row c)));
    try done; intros; destruct Ht as [Hng Heq]; try done;
    try (destruct (Heq eq_refl); congruence). lia.
Qed.

Lemma sort_accesses_ok l :
  StronglySorted (not_after access_gt) (sort_accesses l) /\ sort_accesses l ≡ₚ l.
Proof.
  unfold sort_accesses.
  destruct (bubble_sort_spec access_gt access_gt_total access_gt_trans (length l - 1) l [])
    as [Hs Hp]; [|constructor|by intros x y _ ?%not_elem_of_nil|].
  - destruct l; [right; done|left; simpl; lia].
  - rewrite app_nil_r in Hs, Hp. done.
Qed.
End order.

(** ** Per-row validation

    The life of a transaction: it runs, latches and validates its rows one by
    one, takes its commit timestamp, writes its rows from the last access to
    the first ([cleanup]) and releases its latches. *)

Inductive phase :=
| Running
| Latching (k : nat)        (* [k] rows are latched and valid *)
| Failed (lock_cnt : nat)   (* ok is false *)
| Writing (end_ts : Z) (k : nat)  (* accesses [k-1 .. 0] are still to be cleaned up *)
| Releasing (i lock_cnt : nat)
| Finished.

Section per_row.
Context {V : Type} (table_name : nat -> string) (primary_key : nat -> Z).
Context (BOUNDED_SPINNING : bool).

Record otxn := mkOtxn {
  ot_start : Z;
  ot_accs : list (oacc V);
  ot_phase : phase }.

(** [os_ts] is the counter of [Manager::get_ts]; [os_commits] is ghost state,
    the committed transactions with what they read and wrote. *)
Record occ_sys := mkOccSys {
  os_ts : Z;
  os_rows : gmap nat (Row_occ V);
  os_txns : gmap nat otxn;
  os_commits : list (commit V) }.

Definition reads_of (accs : list (oacc V)) : list (nat * V) :=
  map (fun a => (oa_row a, oa_read a)) accs.
Definition writes_of (accs : list (oacc V)) : list (nat * V) :=
  map (fun a => (oa_row a, oa_data a))
    (List.filter (fun a => bool_decide (oa_type a = WR)) accs).

Definition set_phase (t : otxn) (p : phase) : otxn := mkOtxn (ot_start t) (ot_accs t) p.
Definition set_latch (l : option nat) (r : Row_occ V) : Row_occ V :=
  mkRow_occ (ro_row r) (ro_wts r) l.

(** Sorting happens only when the latches are waited for. *)
Definition latch_order (accs : list (oacc V)) : list (oacc V) :=
  if BOUNDED_SPINNING then accs else sort_accesses table_name primary_key accs.

Definition new_data (v : V) (a : oacc V) : oacc V := mkOacc (oa_type a) (oa_row a) v (oa_read a).

Inductive occ_step : occ_sys -> occ_sys -> Prop :=
(* m_txn->start_ts = get_next_ts() *)
| occ_begin ts rows txns cs t :
    txns !! t = None ->
    occ_step (mkOccSys ts rows txns cs)
      (mkOccSys (ts + 1) rows (<[t := mkOtxn ts [] Running]> txns) cs)
(* get_row: a latched copy of the row *)
| occ_read ts rows txns cs t tx type r row v :
    txns !! t = Some tx -> ot_phase tx = Running ->
    rows !! r = Some row -> ro_latch row = None ->
    occ_access (ot_start tx) R_REQ row = Some (RCOK, Some v) ->
    occ_step (mkOccSys ts rows txns cs)
      (mkOccSys ts rows
         (<[t := mkOtxn (ot_start tx) (ot_accs tx ++ [mkOacc type r v v]) Running]> txns) cs)
| occ_read_abort ts rows txns cs t tx r row :
    txns !! t = Some tx -> ot_phase tx = Running ->
    rows !! r = Some row -> ro_latch row = None ->
    occ_access (ot_start tx) R_REQ row = Some (Abort, None) ->
    occ_step (mkOccSys ts rows txns cs)
      (mkOccSys ts rows (<[t := set_phase tx Finished]> txns) cs)
(* the transaction changes its copy of a row *)
| occ_modify ts rows txns cs t tx i v :
    txns !! t = Some tx -> ot_phase tx = Running ->
    occ_step (mkOccSys ts rows txns cs)
      (mkOccSys ts rows
         (<[t := mkOtxn (ot_start tx) (alter (new_data v) i (ot_accs tx)) Running]> txns) cs)
| occ_start_validation ts rows txns cs t tx :
    txns !! t = Some tx -> ot_phase tx = Running ->
    occ_step (mkOccSys ts rows txns cs)
      (mkOccSys ts rows
         (<[t := mkOtxn (ot_start tx) (latch_order (ot_accs tx)) (Latching 0)]> txns) cs)
(* latch (or try_latch), then validate *)
| occ_latch ts rows txns cs t tx k a row :
    txns !! t = Some tx -> ot_phase tx = Latching k -> ot_accs tx !! k = Some a ->
    rows !! oa_row a = Some row -> ro_latch row = None ->
    occ_step (mkOccSys ts rows txns cs)
      (mkOccSys ts (<[oa_row a := set_latch (Some t) row]> rows)
         (<[t := set_phase tx (if occ_validate (ot_start tx) row then Latching (S k)
                               else Failed (S k))]> txns) cs)
(* try_latch gives up *)
| occ_latch_fails ts rows txns cs t tx k a row t' :
    BOUNDED_SPINNING = true ->
    txns !! t = Some tx -> ot_phase tx = Latching k -> ot_accs tx !! k = Some a ->
    rows !! oa_row a = Some row -> ro_latch row = Some t' ->
    occ_step (mkOccSys ts rows txns cs)
      (mkOccSys ts rows (<[t := set_phase tx (Failed k)]> txns) cs)
(* all rows are latched and valid: end_ts = get_ts() *)
| occ_commit ts rows txns cs t tx :
    txns !! t = Some tx -> ot_phase tx = Latching (length (ot_accs tx)) ->
    occ_step (mkOccSys ts rows txns cs)
      (mkOccSys (ts + 1) rows
         (<[t := set_phase tx (Writing ts (length (ot_accs tx)))]> txns)
         (cs ++ [mkCommit ts (reads_of (ot_accs tx)) (writes_of (ot_accs tx))]))
(* cleanup(RCOK): return_row of access [k], which writes if its type is WR *)
| occ_cleanup ts rows txns cs t tx e k a row row' :
    txns !! t = Some tx -> ot_phase tx = Writing e (S k) -> ot_accs tx !! k = Some a ->
    rows !! oa_row a = Some row ->
    (if bool_decide (oa_type a = WR) then occ_write true (oa_data a) e row
     else Some row) = Some row' ->
    occ_step (mkOccSys ts rows txns cs)
      (mkOccSys ts (<[oa_row a := row']> rows)
         (<[t := set_phase tx (Writing e k)]> txns) cs)
| occ_written ts rows txns cs t tx e :
    txns !! t = Some tx -> ot_phase tx = Writing e 0 ->
    occ_step (mkOccSys ts rows txns cs)
      (mkOccSys ts rows
         (<[t := set_phase tx (Releasing 0 (length (ot_accs tx)))]> txns) cs)
(* cleanup(Abort) writes nothing *)
| occ_fail ts rows txns cs t tx k :
    txns !! t = Some tx -> ot_phase tx = Failed k ->
    occ_step (mkOccSys ts rows txns cs)
      (mkOccSys ts rows (<[t := set_phase tx (Releasing 0 k)]> txns) cs)
| occ_release ts rows txns cs t tx i n a row :
    txns !! t = Some tx -> ot_phase tx = Releasing i n -> (i < n)%nat ->
    ot_accs tx !! i = Some a -> rows !! oa_row a = Some row ->
    occ_step (mkOccSys ts rows txns cs)
      (mkOccSys ts (<[oa_row a := set_latch None row]> rows)
         (<[t := set_phase tx (Releasing (S i) n)]> txns) cs)
| occ_finish ts rows txns cs t tx n :
    txns !! t = Some tx -> ot_phase tx = Releasing n n ->
    occ_step (mkOccSys ts rows txns cs)
      (mkOccSys ts rows (<[t := set_phase tx Finished]> txns) cs).

(** The start: rows with timestamp 0 and no latch, no transaction. *)
Definition occ_init (s : occ_sys) : Prop :=
  0 < os_ts s /\ os_txns s = ∅ /\ os_commits s = [] /\
  forall r row, os_rows s !! r = Some row -> ro_wts row = 0 /\ ro_latch row = None.

Definition contents (rows : gmap nat (Row_occ V)) : gmap nat V := ro_row <$> rows.

(** *** The invariant *)

(** The indices of the accesses whose rows the transaction has latched. *)
Definition held (tx : otxn) (i : nat) : Prop :=
  match ot_phase tx with
  | Latching k | Failed k => (i < k)%nat
  | Writing _ _ => (i < length (ot_accs tx))%nat
  | Releasing j n => (j <= i < n)%nat
  | _ => False
  end.

(** The rows it has committed and not written yet. *)
Definition unwritten (tx : otxn) (r : nat) (v : V) : Prop :=
  match ot_phase tx with
  | Writing _ k => exists i a, (i < k)%nat /\ ot_accs tx !! i = Some a /\
      oa_type a = WR /\ oa_row a = r /\ oa_data a = v
  | _ => False
  end.

Definition precommit (tx : otxn) : Prop :=
  match ot_phase tx with Running | Latching _ | Failed _ => True | _ => False end.

(** The phase fits the list of accesses. *)
Definition phase_ok (tx : otxn) : Prop :=
  match ot_phase tx with
  | Latching k | Failed k | Writing _ k => (k <= length (ot_accs tx))%nat
  | Releasing i n => (i <= n <= length (ot_accs tx))%nat
  | _ => True
  end.

Record txn_ok (ts : Z) (rows : gmap nat (Row_occ V)) (t : nat) (tx : otxn)
    : Prop := mkTxnOk {
  to_start : 0 < ot_start tx < ts;
  to_phase : phase_ok tx;
  to_held : forall i a, held tx i -> ot_accs tx !! i = Some a ->
    exists row, rows !! oa_row a = Some row /\ ro_latch row = Some t;
  to_inj : forall i j a b, held tx i -> held tx j -> ot_accs tx !! i = Some a ->
    ot_accs tx !! j = Some b -> oa_row a = oa_row b -> i = j;
  to_read : precommit tx -> forall i a, ot_accs tx !! i = Some a ->
    exists row, rows !! oa_row a = Some row /\
      (ro_wts row <= ot_start tx -> ro_row row = oa_read a);
  to_valid : forall k i a, ot_phase tx = Latching k -> (i < k)%nat -> ot_accs tx !! i = Some a ->
    exists row, rows !! oa_row a = Some row /\ ro_wts row <= ot_start tx;
  to_end : forall e k, ot_phase tx = Writing e k -> ot_start tx < e < ts /\
    forall i a, (i < k)%nat -> ot_accs tx !! i = Some a ->
      exists row, rows !! oa_row a = Some row /\ ro_wts row <= ot_start tx }.

Record occ_inv (db0 : gmap nat V) (s : occ_sys) : Prop := mkOccInv {
  oi_pos : 0 < os_ts s;
  oi_txn : forall t tx, os_txns s !! t = Some tx ->
    txn_ok (os_ts s) (os_rows s) t tx;
  oi_latch : forall r row t, os_rows s !! r = Some row -> ro_latch row = Some t ->
    exists tx i a, os_txns s !! t = Some tx /\ held tx i /\ ot_accs tx !! i = Some a /\
      oa_row a = r;
  oi_pending : forall t tx e k i a t' tx' j b, os_txns s !! t = Some tx ->
    ot_phase tx = Writing e k -> (i < k)%nat -> ot_accs tx !! i = Some a -> oa_type a = WR ->
    os_txns s !! t' = Some tx' -> precommit tx' -> ot_accs tx' !! j = Some b ->
    oa_row b = oa_row a -> ot_start tx' < e;
  oi_row : forall r row, os_rows s !! r = Some row ->
    (forall t tx v, os_txns s !! t = Some tx -> unwritten tx r v ->
       serial_db db0 (os_commits s) !! r = Some v) /\
    ((forall t tx v, os_txns s !! t = Some tx -> ~ unwritten tx r v) ->
       serial_db db0 (os_commits s) !! r = Some (ro_row row));
  oi_replay : replay db0 (os_commits s);
  oi_sorted : StronglySorted Z.lt (map c_ts (os_commits s));
  oi_commits : Forall (fun c => c_ts c < os_ts s) (os_commits s) }.

(** The same rows with other latches of [t]. *)
Definition same_but_latches (t : nat) (rows rows' : gmap nat (Row_occ V)) : Prop :=
  forall r, match rows !! r, rows' !! r with
            | None, None => True
            | Some a, Some b => ro_row b = ro_row a /\ ro_wts b = ro_wts a /\
                forall t2, t2 <> t -> (ro_latch b = Some t2 <-> ro_latch a = Some t2)
            | _, _ => False
            end.

Lemma same_refl t rows : same_but_latches t rows rows.
Proof. intros r. by destruct (rows !! r). Qed.

Lemma same_set_latch t rows r row l : rows !! r = Some row ->
  ro_latch row = None \/ ro_latch row = Some t -> l = None \/ l = Some t ->
  same_but_latches t rows (<[r := set_latch l row]> rows).
Proof.
  intros Hr Hl Hl' r'. destruct (decide (r = r')) as [<-|Hne].
  - rewrite lookup_insert_eq, Hr. simpl. split_and!; [done..|]. intros t2 Hne.
    destruct Hl as [->| ->], Hl' as [->| ->]; split; congruence.
  - rewrite lookup_insert_ne by done. by destruct (rows !! r').
Qed.

Lemma same_lookup t rows rows' r row : same_but_latches t rows rows' -> rows !! r = Some row ->
  exists row', rows' !! r = Some row' /\ ro_row row' = ro_row row /\ ro_wts row' = ro_wts row /\
    forall t2, t2 <> t -> (ro_latch row' = Some t2 <-> ro_latch row = Some t2).
Proof.
  intros Hs Hr. specialize (Hs r). rewrite Hr in Hs. destruct (rows' !! r); [eauto|done].
Qed.

Lemma same_lookup' t rows rows' r row' : same_but_latches t rows rows' -> rows' !! r = Some row' ->
  exists row, rows !! r = Some row /\ ro_row row' = ro_row row /\ ro_wts row' = ro_wts row /\
    forall t2, t2 <> t -> (ro_latch row' = Some t2 <-> ro_latch row = Some t2).
Proof.
  intros Hs Hr. specialize (Hs r). rewrite Hr in Hs. destruct (rows !! r); [eauto|done].
Qed.

Lemma txn_ok_mono t ts ts' rows rows' t2 tx : ts <= ts' -> t2 <> t ->
  same_but_latches t rows rows' -> txn_ok ts rows t2 tx -> txn_ok ts' rows' t2 tx.
Proof.
  intros Hts Hne Hs [Hst Hph Hheld Hinj Hread Hval Hend]. constructor; try done; [lia|..].
  - intros i a Hh Ha. destruct (Hheld i a Hh Ha) as (row & Hr & Hl).
    destruct (same_lookup _ _ _ _ _ Hs Hr) as (row' & ? & _ & _ & Hl'). exists row'.
    split; [done|]. by apply Hl'.
  - intros Hp i a Ha. destruct (Hread Hp i a Ha) as (row & Hr & Hv).
    destruct (same_lookup _ _ _ _ _ Hs Hr) as (row' & ? & Hd & Hw & _). exists row'.
    rewrite Hd, Hw. done.
  - intros k i a Hk Hi Ha. destruct (Hval k i a Hk Hi Ha) as (row & Hr & Hv).
    destruct (same_lookup _ _ _ _ _ Hs Hr) as (row' & ? & Hd & Hw & _). exists row'.
    by rewrite Hw.
  - intros e k Hk. destruct (Hend e k Hk) as [? He]. split; [lia|]. intros i a Hi Ha.
    destruct (He i a Hi Ha) as (row & Hr & Hv).
    destruct (same_lookup _ _ _ _ _ Hs Hr) as (row' & ? & Hd & Hw & _). exists row'.
    by rewrite Hw.
Qed.

Lemma unwritten_intro tx e k i a : ot_phase tx = Writing e k -> (i < k)%nat ->
  ot_accs tx !! i = Some a -> oa_type a = WR -> unwritten tx (oa_row a) (oa_data a).
Proof. unfold unwritten. intros -> ???. eauto 10. Qed.

(** A step of one transaction that commits and writes nothing. *)
Lemma inv_update_txn db0 ts rows txns cs t tx' ts' rows' :
  occ_inv db0 (mkOccSys ts rows txns cs) -> ts <= ts' -> same_but_latches t rows rows' ->
  txn_ok ts' rows' t tx' ->
  (forall r row, rows' !! r = Some row -> ro_latch row = Some t ->
     exists i a, held tx' i /\ ot_accs tx' !! i = Some a /\ oa_row a = r) ->
  (forall r v, ~ unwritten tx' r v) ->
  (forall tx r v, txns !! t = Some tx -> ~ unwritten tx r v) ->
  (precommit tx' -> forall j b, ot_accs tx' !! j = Some b ->
     (exists row, rows !! oa_row b = Some row /\ ro_latch row = None) \/
     (exists tx j' b', txns !! t = Some tx /\ precommit tx /\ ot_start tx = ot_start tx' /\
        ot_accs tx !! j' = Some b' /\ oa_row b' = oa_row b)) ->
  occ_inv db0 (mkOccSys ts' rows' (<[t := tx']> txns) cs).
Proof.
  intros [Hpos Htxn Hlatch Hpend Hrow Hrep Hsort Hcs] Hts Hs Hok Hown Hnu Hnu' Hacc.
  simpl in *. constructor; simpl; try done.
  - lia.
  - intros t2 tx2. rewrite lookup_insert_Some. intros [[<- <-]|[Hne H2]]; [done|].
    eapply (txn_ok_mono t); [exact Hts|congruence|exact Hs|eauto].
  - intros r row' t2 Hr Hl. destruct (decide (t2 = t)) as [->|Hne].
    + destruct (Hown r row' Hr Hl) as (i & a & ?). exists tx', i, a.
      by rewrite lookup_insert_eq.
    + destruct (same_lookup' _ _ _ _ _ Hs Hr) as (row & Hr0 & _ & _ & Hll).
      destruct (Hlatch r row t2 Hr0) as (tx & i & a & ? & ?); [by apply Hll|].
      exists tx, i, a. by rewrite lookup_insert_ne.
  - intros t1 tx1 e k i a t2 tx2 j b. rewrite !lookup_insert_Some.
    intros [[<- <-]|[Hne1 H1]] Hph Hi Ha Hw H2 Hp Hb Heq.
    { exfalso. eapply Hnu. by eapply unwritten_intro. }
    destruct H2 as [[<- <-]|[Hne2 H2]]; [|by eapply (Hpend t1 tx1 e k i a t2 tx2 j b)].
    destruct (Hacc Hp j b Hb) as [(row & Hr & Hl)|(tx & j' & b' & Ht & Hp' & <- & Hb' & Heq')].
    + exfalso. destruct (to_held _ _ _ _ (Htxn _ _ H1) i a) as (row2 & Hr2 & Hl2); [|done|].
      * unfold held. rewrite Hph. by eapply lookup_lt_Some.
      * rewrite <- Heq in Hr2. congruence.
    + eapply (Hpend t1 tx1 e k i a t tx j' b'); eauto. congruence.
  - intros r row' Hr. destruct (same_lookup' _ _ _ _ _ Hs Hr) as (row & Hr0 & -> & _).
    destruct (Hrow r row Hr0) as [Hu Hn]. split.
    + intros t2 tx2 v. rewrite lookup_insert_Some. intros [[<- <-]|[Hne H2]] Hun;
        [by destruct (Hnu _ _ Hun)|eauto].
    + intros Hall. apply Hn. intros t2 tx2 v H2 Hun. destruct (decide (t2 = t)) as [->|Hne].
      * by eapply Hnu'.
      * eapply (Hall t2 tx2); [|done]. by rewrite lookup_insert_ne.
  - eapply Forall_impl; [exact Hcs|]. simpl. lia.
Qed.

(** The latches of a transaction that changes its phase only. *)
Lemma own_latches db0 ts rows txns cs t tx tx' :
  occ_inv db0 (mkOccSys ts rows txns cs) -> txns !! t = Some tx ->
  ot_accs tx' = ot_accs tx -> (forall i, held tx i -> held tx' i) ->
  forall r row, rows !! r = Some row -> ro_latch row = Some t ->
    exists i a, held tx' i /\ ot_accs tx' !! i = Some a /\ oa_row a = r.
Proof.
  intros Hinv Ht Hac Hh r row Hr Hl.
  destruct (oi_latch _ _ Hinv r row t Hr Hl) as (tx0 & i & a & Ht0 & Hhe & Ha & Hra).
  simpl in *. simplify_eq. exists i, a. rewrite Hac. auto.
Qed.

(** Nothing is latched by a transaction that holds nothing. *)
Lemma no_latches db0 ts rows txns cs t tx :
  occ_inv db0 (mkOccSys ts rows txns cs) -> txns !! t = Some tx \/ txns !! t = None ->
  (txns !! t = Some tx -> forall i, ~ held tx i) ->
  forall r row, rows !! r = Some row -> ro_latch row = Some t -> False.
Proof.
  intros Hinv Ht Hh r row Hr Hl.
  destruct (oi_latch _ _ Hinv r row t Hr Hl) as (tx0 & i & a & Ht0 & Hhe & Ha & Hra).
  simpl in *. destruct Ht as [Ht|Ht]; simplify_eq. by eapply Hh.
Qed.

Lemma latch_order_perm accs : latch_order accs ≡ₚ accs.
Proof. unfold latch_order. destruct BOUNDED_SPINNING; [done|]. apply sort_accesses_ok. Qed.

Lemma elem_of_writes accs r v : (r, v) ∈ writes_of accs <->
  exists i a, accs !! i = Some a /\ oa_type a = WR /\ oa_row a = r /\ oa_data a = v.
Proof.
  unfold writes_of. rewrite list_elem_of_In, in_map_iff. split.
  - intros (a & [= <- <-] & [Hin Hw]%filter_In). apply list_elem_of_In, list_elem_of_lookup in Hin as [i Hi].
    b2p. eauto 10.
  - intros (i & a & Ha & Hw & <- & <-). exists a. split; [done|]. apply filter_In.
    split; [by apply list_elem_of_In, list_elem_of_lookup; eauto|by apply bool_decide_eq_true].
Qed.

Lemma elem_of_reads accs r v : (r, v) ∈ reads_of accs <->
  exists i a, accs !! i = Some a /\ oa_row a = r /\ oa_read a = v.
Proof.
  unfold reads_of. rewrite list_elem_of_In, in_map_iff. split.
  - intros (a & [= <- <-] & Hin). apply list_elem_of_In, list_elem_of_lookup in Hin as [i Hi].
    eauto 10.
  - intros (i & a & Ha & <- & <-). exists a. split; [done|].
    apply list_elem_of_In, list_elem_of_lookup; eauto.
Qed.

Lemma writes_NoDup accs :
  (forall i j a b, accs !! i = Some a -> accs !! j = Some b -> oa_row a = oa_row b -> i = j) ->
  NoDup (writes_of accs).*1.
Proof.
  intros Hinj. assert ((writes_of accs).*1 `sublist_of` map oa_row accs) as Hsub.
  { clear Hinj. unfold writes_of. induction accs as [|a accs IH]; simpl; [constructor|].
    destruct (bool_decide _); simpl; by constructor. }
  eapply sublist_NoDup; [|exact Hsub]. apply NoDup_alt. intros i j r.
  rewrite !lookup_map. intros (a & Ha & ->)%fmap_Some (b & Hb & Heq)%fmap_Some. eauto.
Qed.

(** Taking the commit timestamp. *)
Section commit_step.
Context (db0 : gmap nat V) (ts : Z) (rows : gmap nat (Row_occ V)) (txns : gmap nat otxn).
Context (cs : list (commit V)) (t : nat) (tx : otxn).
Context (Hinv : occ_inv db0 (mkOccSys ts rows txns cs)) (Ht : txns !! t = Some tx).
Context (Hph : ot_phase tx = Latching (length (ot_accs tx))).

Lemma commit_held i : held tx i <-> (i < length (ot_accs tx))%nat.
Proof using Hph. unfold held. by rewrite Hph. Qed.

(** Its rows are latched by it, valid, and as it read them. *)
Lemma commit_rows i a : ot_accs tx !! i = Some a -> exists row, rows !! oa_row a = Some row /\
  ro_latch row = Some t /\ ro_wts row <= ot_start tx /\ ro_row row = oa_read a.
Proof using Hinv Ht Hph.
  intros Ha. pose proof (oi_txn _ _ Hinv t tx Ht) as [Hst Hpok Hheld Hinj Hread Hval Hend].
  simpl in *. pose proof (lookup_lt_Some _ _ _ Ha) as Hi.
  destruct (Hheld i a) as (row & Hr & Hl); [by apply commit_held|done|].
  destruct (Hval _ i a Hph Hi Ha) as (row2 & Hr2 & Hw).
  destruct (Hread ltac:(unfold precommit; by rewrite Hph) i a Ha) as (row3 & Hr3 & Hv).
  assert (row2 = row) as -> by congruence. assert (row3 = row) as -> by congruence.
  exists row. auto.
Qed.

Lemma commit_inj i j a b : ot_accs tx !! i = Some a -> ot_accs tx !! j = Some b ->
  oa_row a = oa_row b -> i = j.
Proof using Hinv Ht Hph.
  intros Ha Hb. pose proof (oi_txn _ _ Hinv t tx Ht) as [_ _ _ Hinj _ _ _].
  apply (Hinj i j a b); try done; apply commit_held; by eapply lookup_lt_Some.
Qed.

(** No committed write on them is outstanding. *)
Lemma commit_not_pending i a t2 tx2 v : ot_accs tx !! i = Some a -> txns !! t2 = Some tx2 ->
  ~ unwritten tx2 (oa_row a) v.
Proof using Hinv Ht Hph.
  intros Ha Ht2 Hun. destruct (commit_rows i a Ha) as (row & Hr & Hl & _).
  unfold unwritten in Hun. destruct (ot_phase tx2) as [| | |e k| |] eqn:Hph2; try done.
  destruct Hun as (j & b & Hj & Hb & _ & Heq & _).
  destruct (to_held _ _ _ _ (oi_txn _ _ Hinv _ _ Ht2) j b) as (row2 & Hr2 & Hl2); [|done|].
  - unfold held. rewrite Hph2. by eapply lookup_lt_Some.
  - simpl in *. rewrite Heq in Hr2. assert (t2 = t) as -> by congruence. congruence.
Qed.

Lemma commit_serial i a : ot_accs tx !! i = Some a ->
  serial_db db0 cs !! oa_row a = Some (oa_read a).
Proof using Hinv Ht Hph.
  intros Ha. destruct (commit_rows i a Ha) as (row & Hr & _ & _ & <-).
  apply (oi_row _ _ Hinv (oa_row a) row Hr). intros t2 tx2 v Ht2. by eapply commit_not_pending.
Qed.

Lemma inv_commit :
  occ_inv db0 (mkOccSys (ts + 1) rows
    (<[t := set_phase tx (Writing ts (length (ot_accs tx)))]> txns)
    (cs ++ [mkCommit ts (reads_of (ot_accs tx)) (writes_of (ot_accs tx))])).
Proof using Hinv Ht Hph.
  pose proof (writes_NoDup _ commit_inj) as Hnd.
  pose proof Hinv as [Hpos Htxn Hlatch Hpend Hrow Hrep Hsort Hcs].
  simpl in *. pose proof (Htxn t tx Ht) as [Hst Hpok Hheld Hinj Hread Hval Hend].
  constructor; simpl.
  - lia.
  - intros t2 tx2. rewrite lookup_insert_Some. intros [[<- <-]|[Hne H2]].
    + constructor; simpl; try done; [lia|unfold phase_ok; simpl; lia|..].
      * intros i a Hi Ha. destruct (commit_rows i a Ha) as (row & ? & ? & _). eauto.
      * intros i j a b _ _. apply commit_inj.
      * intros e k [= <- <-]. split; [lia|]. intros i a _ Ha.
        destruct (commit_rows i a Ha) as (row & ? & _ & ? & _). eauto.
    + eapply (txn_ok_mono t); [|congruence|apply same_refl|eauto]. lia.
  - intros r row t2 Hr Hl. destruct (Hlatch r row t2 Hr Hl) as (tx2 & i & a & H2 & Hh & Ha & Heq).
    destruct (decide (t2 = t)) as [->|Hne].
    + simplify_eq. eexists _, i, a. rewrite lookup_insert_eq. split; [done|].
      split; [by apply commit_held|done].
    + exists tx2, i, a. by rewrite lookup_insert_ne.
  - intros t1 tx1 e k i a t2 tx2 j b. rewrite !lookup_insert_Some.
    intros [[<- <-]|[Hne1 H1]] Hph1 Hi Ha Hw [[<- <-]|[Hne2 H2]] Hp Hb Heq; simpl in *; try done.
    + simplify_eq. apply (Htxn _ _ H2).
    + by eapply (Hpend t1 tx1 e k i a t2 tx2 j b).
  - intros r row Hr. rewrite serial_db_snoc. simpl. destruct (Hrow r row Hr) as [Hu Hn]. split.
    + intros t2 tx2 v. rewrite lookup_insert_Some. intros [[<- <-]|[Hne H2]] Hun.
      * destruct Hun as (i & a & _ & Ha & Hw & Hra & Hda). apply apply_writes_in; [done|].
        apply elem_of_writes. eauto 10.
      * rewrite apply_writes_other; [by eapply Hu|]. intros u Hin.
        apply elem_of_writes in Hin as (i & a & Ha & _ & <- & _).
        by eapply commit_not_pending.
    + intros Hall. rewrite apply_writes_other.
      * apply Hn. intros t2 tx2 v H2 Hun. destruct (decide (t2 = t)) as [->|Hne].
        -- simplify_eq. unfold unwritten in Hun. rewrite Hph in Hun. done.
        -- eapply (Hall t2 tx2 v); [by rewrite lookup_insert_ne|done].
      * intros u Hin. apply elem_of_writes in Hin as (i & a & Ha & Hw & <- & <-).
        eapply (Hall t); [by rewrite lookup_insert_eq|].
        eapply unwritten_intro; [done|by eapply lookup_lt_Some|exact Ha|done].
  - apply replay_snoc. split; [done|]. simpl. intros r v Hin.
    apply elem_of_reads in Hin as (i & a & Ha & <- & <-). by eapply commit_serial.
  - rewrite map_app. apply StronglySorted_app. split_and!; [|done|by repeat constructor].
    intros x y Hx Hy. simpl in Hy. apply list_elem_of_singleton in Hy as ->.
    apply list_elem_of_In, in_map_iff in Hx as (c & <- & Hc).
    rewrite Forall_forall in Hcs. apply Hcs. by apply list_elem_of_In.
  - apply Forall_app. split; [|by repeat constructor; simpl; lia].
    eapply Forall_impl; [exact Hcs|]. simpl. lia.
Qed.
End commit_step.

(** Cleaning up one access. *)
Section cleanup_step.
Context (db0 : gmap nat V) (ts : Z) (rows : gmap nat (Row_occ V)) (txns : gmap nat otxn).
Context (cs : list (commit V)) (t : nat) (tx : otxn) (e : Z) (k : nat) (a : oacc V) (row row' : Row_occ V).
Context (Hinv : occ_inv db0 (mkOccSys ts rows txns cs)) (Ht : txns !! t = Some tx).
Context (Hph : ot_phase tx = Writing e (S k)) (Ha : ot_accs tx !! k = Some a).
Context (Hr : rows !! oa_row a = Some row).
Context (Hw : (if bool_decide (oa_type a = WR) then occ_write true (oa_data a) e row
               else Some row) = Some row').

Lemma cleanup_row : ro_latch row' = ro_latch row /\ ro_latch row = Some t /\
  (oa_type a = WR -> ro_row row' = oa_data a /\ ro_wts row' = e) /\
  (oa_type a <> WR -> row' = row).
Proof using Hinv Ht Hph Ha Hr Hw.
  destruct (to_held _ _ _ _ (oi_txn _ _ Hinv t tx Ht) k a) as (row2 & Hr2 & Hl); [|done|].
  { unfold held. rewrite Hph. by eapply lookup_lt_Some. }
  simpl in *. assert (row2 = row) as -> by congruence.
  destruct (bool_decide (oa_type a = WR)) eqn:Hb; b2p.
  - unfold occ_write in Hw. apply c_assert_Some in Hw as [_ [= <-]]. done.
  - injection Hw as <-. done.
Qed.

Lemma inv_cleanup : occ_inv db0 (mkOccSys ts (<[oa_row a := row']> rows)
  (<[t := set_phase tx (Writing e k)]> txns) cs).
Proof using Hinv Ht Hph Ha Hr Hw.
  destruct cleanup_row as (Hll & Hl & Hwr & Hnw).
  pose proof Hinv as [Hpos Htxn Hlatch Hpend Hrow Hrep Hsort Hcs].
  simpl in *. pose proof (Htxn t tx Ht) as [Hst Hpok Hheld Hinj Hread Hval Hend].
  destruct (Hend e (S k) Hph) as [Hse Hwts].
  assert (forall i, held tx i <-> (i < length (ot_accs tx))%nat) as Hhe
    by (intros i; unfold held; by rewrite Hph).
  assert (forall i b, ot_accs tx !! i = Some b -> oa_row b = oa_row a -> i = k) as Hone.
  { intros i b Hb Heq. apply (Hinj i k b a); try done; apply Hhe; by eapply lookup_lt_Some. }
  assert (forall t2 tx2 i b, t2 <> t -> txns !! t2 = Some tx2 -> held tx2 i ->
    ot_accs tx2 !! i = Some b -> oa_row b <> oa_row a) as Hoth.
  { intros t2 tx2 i b Hne H2 Hh Hb Heq.
    destruct (to_held _ _ _ _ (Htxn _ _ H2) i b Hh Hb) as (row2 & Hr2 & Hl2).
    rewrite Heq in Hr2. congruence. }
  constructor; simpl; try done.
  - intros t2 tx2. rewrite lookup_insert_Some. intros [[<- <-]|[Hne H2]].
    + constructor; simpl; try done.
      * unfold phase_ok in *. simpl. rewrite Hph in Hpok. lia.
      * intros i b Hi Hb. destruct (Hheld i b) as (row2 & Hr2 & Hl2); [by apply Hhe|done|].
        destruct (decide (oa_row b = oa_row a)) as [->|].
        -- rewrite lookup_insert_eq. exists row'. by rewrite Hll.
        -- rewrite lookup_insert_ne by done. eauto.
      * intros i j b c Hi Hj. apply Hinj; by apply Hhe.
      * intros e' k' [= <- <-]. split; [done|]. intros i b Hi Hb.
        rewrite lookup_insert_ne; [by apply (Hwts i); [lia|]|].
        intros Heq. symmetry in Heq. apply (Hone i b Hb) in Heq. lia.
    + destruct (Htxn t2 tx2 H2) as [Hst2 Hpok2 Hheld2 Hinj2 Hread2 Hval2 Hend2].
      constructor; try done.
      * intros i b Hi Hb. rewrite lookup_insert_ne; [eauto|].
        intros Heq. eapply (Hoth t2 tx2 i b); [congruence|done..].
      * intros Hp i b Hb. destruct (Hread2 Hp i b Hb) as (row2 & Hr2 & Hv2).
        destruct (decide (oa_row a = oa_row b)) as [Heq|].
        -- rewrite <- Heq, lookup_insert_eq. exists row'. split; [done|].
           destruct (decide (oa_type a = WR)) as [HW|HW].
           ++ destruct (Hwr HW) as [_ ->]. intros Hle. exfalso.
              assert (ot_start tx2 < e); [|lia].
              eapply (Hpend t tx e (S k) k a t2 tx2 i b); try done. lia.
           ++ rewrite (Hnw HW). rewrite <- Heq, Hr in Hr2. by simplify_eq.
        -- rewrite lookup_insert_ne by done. eauto.
      * intros k2 i b Hk2 Hi Hb. destruct (Hval2 k2 i b Hk2 Hi Hb) as (row2 & Hr2 & Hv2).
        rewrite lookup_insert_ne; [eauto|]. intros Heq.
        eapply (Hoth t2 tx2 i b); [congruence|done| |done|done].
        unfold held. by rewrite Hk2.
      * intros e2 k2 Hk2. destruct (Hend2 e2 k2 Hk2) as [? Hw2]. split; [done|].
        intros i b Hi Hb. rewrite lookup_insert_ne; [by apply (Hw2 i)|]. intros Heq.
        eapply (Hoth t2 tx2 i b); [congruence|done| |done|done].
        unfold held. rewrite Hk2. by eapply lookup_lt_Some.
  - intros r row2 t2. rewrite lookup_insert_Some. intros [[<- <-]|[Hne H2]] Hl2.
    + rewrite Hll, Hl in Hl2. injection Hl2 as <-. eexists _, k, a.
      rewrite lookup_insert_eq. split; [done|]. split; [|done].
      unfold held. simpl. by eapply lookup_lt_Some.
    + destruct (Hlatch r row2 t2 H2 Hl2) as (tx2 & i & b & Ht2 & Hh & Hb & Heq).
      destruct (decide (t2 = t)) as [->|].
      * simplify_eq. eexists _, i, b. rewrite lookup_insert_eq. split; [done|].
        split; [|done]. unfold held. simpl. by eapply lookup_lt_Some.
      * exists tx2, i, b. by rewrite lookup_insert_ne.
  - intros t1 tx1 e1 k1 i b t2 tx2 j c. rewrite !lookup_insert_Some.
    intros [[<- <-]|[Hne1 H1]] Hph1 Hi Hb HW [[<- <-]|[Hne2 H2]] Hp Hc Heq; simpl in *; try done.
    + simplify_eq. eapply (Hpend t tx e1 (S k1) i b t2 tx2 j c); try done. lia.
    + by eapply (Hpend t1 tx1 e1 k1 i b t2 tx2 j c).
  - assert (forall r v, unwritten (set_phase tx (Writing e k)) r v ->
      unwritten tx r v /\ r <> oa_row a) as Hun1.
    { intros r v (i & b & Hi & Hb & HW & Hrb & Hd). split.
      - unfold unwritten. rewrite Hph. exists i, b. split; [lia|done].
      - subst r. intros Heq. apply (Hone i b Hb) in Heq. lia. }
    assert (forall t2 tx2 v, t2 <> t -> txns !! t2 = Some tx2 -> ~ unwritten tx2 (oa_row a) v)
      as Hun2.
    { intros t2 tx2 v Hne H2 Hun. unfold unwritten in Hun.
      destruct (ot_phase tx2) as [| | |e2 k2| |] eqn:Hph2; try done.
      destruct Hun as (j & b & Hj & Hb & _ & Heq & _).
      eapply (Hoth t2 tx2 j b); try done. unfold held. rewrite Hph2. by eapply lookup_lt_Some. }
    intros r row2. rewrite lookup_insert_Some. intros [[<- <-]|[Hne H2]].
    + destruct (Hrow (oa_row a) row Hr) as [Hu Hn]. split.
      * intros t2 tx2 v. rewrite lookup_insert_Some. intros [[<- <-]|[Hne H2]] Hun.
        -- by destruct (Hun1 _ _ Hun).
        -- exfalso. eapply Hun2; [|exact H2|exact Hun]. congruence.
      * intros _. destruct (decide (oa_type a = WR)) as [HW|HW].
        -- destruct (Hwr HW) as [-> _]. apply (Hu t tx); [done|].
           eapply unwritten_intro; [exact Hph| |exact Ha|done]. lia.
        -- rewrite (Hnw HW). apply Hn. intros t2 tx2 v H2 Hun.
           destruct (decide (t2 = t)) as [->|]; [|by eapply Hun2].
           assert (tx2 = tx) as -> by congruence. unfold unwritten in Hun. rewrite Hph in Hun.
           destruct Hun as (i & b & Hi & Hb & HWb & Heq & _).
           apply (Hone i b Hb) in Heq as ->. congruence.
    + destruct (Hrow r row2 H2) as [Hu Hn]. split.
      * intros t2 tx2 v. rewrite lookup_insert_Some. intros [[<- <-]|[Hne2 Ht2]] Hun; [|eauto].
        apply (Hu t tx); [done|]. by apply Hun1.
      * intros Hall. apply Hn. intros t2 tx2 v Ht2 Hun. destruct (decide (t2 = t)) as [->|].
        -- assert (tx2 = tx) as -> by congruence. unfold unwritten in Hun. rewrite Hph in Hun.
           destruct Hun as (i & b & Hi & Hb & HWb & Heq & Hd).
           eapply (Hall t); [by rewrite lookup_insert_eq|]. exists i, b. split_and!; try done.
           destruct (decide (i = k)) as [->|]; [|lia]. congruence.
        -- eapply (Hall t2 tx2 v); [by rewrite lookup_insert_ne|done].
Qed.
End cleanup_step.

(** *** Every step *)

Lemma running_pre tx : ot_phase tx = Running -> precommit tx.
Proof. unfold precommit. by intros ->. Qed.

Lemma running_holds tx i : ot_phase tx = Running -> ~ held tx i.
Proof. unfold held. intros ->. tauto. Qed.

Lemma running_wrote tx r v : ot_phase tx = Running -> ~ unwritten tx r v.
Proof. unfold unwritten. intros ->. tauto. Qed.

Section steps.
Context (db0 : gmap nat V) (ts : Z) (rows : gmap nat (Row_occ V)) (txns : gmap nat otxn).
Context (cs : list (commit V)) (t : nat).
Context (Hinv : occ_inv db0 (mkOccSys ts rows txns cs)).

Lemma inv_begin : txns !! t = None ->
  occ_inv db0 (mkOccSys (ts + 1) rows (<[t := mkOtxn ts [] Running]> txns) cs).
Proof using All.
  intros Ht. pose proof (oi_pos _ _ Hinv) as Hpos. simpl in Hpos.
  apply (inv_update_txn db0 ts rows txns cs t); try done; [lia|apply same_refl|..].
  - constructor; simpl; try done; lia.
  - intros r row Hr Hl. exfalso.
    eapply (no_latches db0 ts rows txns cs t (mkOtxn ts [] Running)); eauto.
  - by intros ?? [].
  - intros tx r v ?. congruence.
Qed.

Section known.
Context (tx : otxn) (Ht : txns !! t = Some tx).

Lemma known_ok : txn_ok ts rows t tx.
Proof using All. apply (oi_txn _ _ Hinv t tx Ht). Qed.

(** A transaction that is not writing stops, or goes on with the same rows. *)
Lemma inv_phase tx' : ot_start tx' = ot_start tx ->
  (forall e k, ot_phase tx <> Writing e k) -> (forall e k, ot_phase tx' <> Writing e k) ->
  (forall i, held tx i -> held tx' i) ->
  ot_accs tx' = ot_accs tx -> txn_ok ts rows t tx' -> (precommit tx' -> precommit tx) ->
  occ_inv db0 (mkOccSys ts rows (<[t := tx']> txns) cs).
Proof using All.
  intros Hst Hnw Hnw' Hh Hac Hok Hpre.
  assert (forall u r v, (forall e k, ot_phase u <> Writing e k) -> ~ unwritten u r v) as Hun.
  { intros u r v Hu. unfold unwritten. destruct (ot_phase u) eqn:E; try tauto.
    by destruct (Hu end_ts k). }
  apply (inv_update_txn db0 ts rows txns cs t); try done; [apply same_refl|..].
  - by eapply own_latches.
  - intros r v. by apply Hun.
  - intros tx0 r v H0. simplify_eq. by apply Hun.
  - intros Hp j b Hb. right. rewrite Hac in Hb. exists tx, j, b. auto.
Qed.

Lemma inv_read type r row v : ot_phase tx = Running -> rows !! r = Some row ->
  ro_latch row = None -> occ_access (ot_start tx) R_REQ row = Some (RCOK, Some v) ->
  occ_inv db0 (mkOccSys ts rows
    (<[t := mkOtxn (ot_start tx) (ot_accs tx ++ [mkOacc type r v v]) Running]> txns) cs).
Proof using All.
  intros Hph Hr Hl Hacc. destruct known_ok as [Hst _ _ _ Hread _ _].
  assert (ro_row row = v) as Hv.
  { unfold occ_access in Hacc. by destruct (_ <? _); simplify_eq. }
  apply (inv_update_txn db0 ts rows txns cs t); try done; [apply same_refl|..].
  - constructor; simpl; try done. intros _ i a.
    rewrite lookup_app_Some, list_lookup_singleton_Some. intros [Ha|(Hi & _ & <-)]; simpl; [|eauto].
    apply (Hread (running_pre _ Hph) i a Ha).
  - intros r2 row2 Hr2 Hl2. exfalso. eapply (no_latches db0 ts rows txns cs t tx); eauto.
    intros _ i. by apply running_holds.
  - by intros ?? [].
  - intros tx0 r0 v0 H0. simplify_eq. by apply running_wrote.
  - intros _ j b. simpl. rewrite lookup_app_Some, list_lookup_singleton_Some.
    intros [Hb|(_ & _ & <-)]; [|left; eauto]. right. exists tx, j, b. split_and!; try done.
    by apply running_pre.
Qed.

Lemma inv_modify i v : ot_phase tx = Running ->
  occ_inv db0 (mkOccSys ts rows
    (<[t := mkOtxn (ot_start tx) (alter (new_data v) i (ot_accs tx)) Running]> txns) cs).
Proof using All.
  intros Hph. destruct known_ok as [Hst _ _ _ Hread _ _].
  assert (forall j b, alter (new_data v) i (ot_accs tx) !! j = Some b ->
    exists b', ot_accs tx !! j = Some b' /\ oa_row b' = oa_row b /\ oa_read b' = oa_read b) as Hal.
  { intros j b. rewrite list_lookup_alter. destruct (decide (i = j)) as [->|].
    - intros (b' & Hb & ->)%fmap_Some. by exists b'.
    - eauto. }
  apply (inv_update_txn db0 ts rows txns cs t); try done; [apply same_refl|..].
  - constructor; simpl; try done. intros _ j b (b' & Hb & <- & <-)%Hal.
    apply (Hread (running_pre _ Hph) j b' Hb).
  - intros r2 row2 Hr2 Hl2. exfalso. eapply (no_latches db0 ts rows txns cs t tx); eauto.
    intros _ j. by apply running_holds.
  - by intros ?? [].
  - intros tx0 r0 v0 H0. simplify_eq. by apply running_wrote.
  - intros _ j b (b' & Hb & <- & _)%Hal. right. exists tx, j, b'. split_and!; try done.
    by apply running_pre.
Qed.

Lemma inv_start_validation : ot_phase tx = Running ->
  occ_inv db0 (mkOccSys ts rows
    (<[t := mkOtxn (ot_start tx) (latch_order (ot_accs tx)) (Latching 0)]> txns) cs).
Proof using All.
  intros Hph. destruct known_ok as [Hst _ _ _ Hread _ _].
  assert (forall j b, latch_order (ot_accs tx) !! j = Some b ->
    exists j', ot_accs tx !! j' = Some b) as Hal.
  { intros j b Hb. apply list_elem_of_lookup. rewrite <- latch_order_perm.
    apply list_elem_of_lookup. eauto. }
  apply (inv_update_txn db0 ts rows txns cs t); try done; [apply same_refl|..].
  - constructor; simpl; try done; unfold phase_ok, held; simpl; try lia;
      try (intros; exfalso; simplify_eq; lia).
    intros _ j b (j' & Hb)%Hal.
    apply (Hread (running_pre _ Hph) j' b Hb).
  - intros r2 row2 Hr2 Hl2. exfalso. eapply (no_latches db0 ts rows txns cs t tx); eauto.
    intros _ j. by apply running_holds.
  - by intros ?? [].
  - intros tx0 r0 v0 H0. simplify_eq. by apply running_wrote.
  - intros _ j b (j' & Hb)%Hal. right. exists tx, j', b. split_and!; try done.
    by apply running_pre.
Qed.

(** A phase without latches. *)
Lemma inv_stop : (ot_phase tx = Running \/ exists n, ot_phase tx = Releasing n n) ->
  occ_inv db0 (mkOccSys ts rows (<[t := set_phase tx Finished]> txns) cs).
Proof using All.
  intros Hph. destruct known_ok as [Hst _ _ _ _ _ _].
  apply inv_phase; simpl; try done.
  - intros e k. destruct Hph as [->|[n ->]]; done.
  - intros i. unfold held. destruct Hph as [->|[n ->]]; lia.
Qed.

Lemma inv_failed k : ot_phase tx = Latching k ->
  occ_inv db0 (mkOccSys ts rows (<[t := set_phase tx (Failed k)]> txns) cs).
Proof using All.
  intros Hph. pose proof known_ok as [Hst Hpok Hheld Hinj Hread _ _].
  assert (forall i, held (set_phase tx (Failed k)) i -> held tx i) as Hh
    by (intros i; unfold held; by rewrite Hph).
  apply inv_phase; simpl; try done.
  - intros e k'. by rewrite Hph.
  - intros i. unfold held. by rewrite Hph.
  - constructor; simpl; eauto; try done.
    + unfold phase_ok in *. rewrite Hph in Hpok. done.
    + intros _. apply Hread. unfold precommit. by rewrite Hph.
  - intros _. unfold precommit. by rewrite Hph.
Qed.

Lemma inv_latch k a row : ot_phase tx = Latching k -> ot_accs tx !! k = Some a ->
  rows !! oa_row a = Some row -> ro_latch row = None ->
  occ_inv db0 (mkOccSys ts (<[oa_row a := set_latch (Some t) row]> rows)
    (<[t := set_phase tx (if occ_validate (ot_start tx) row then Latching (S k)
                          else Failed (S k))]> txns) cs).
Proof using All.
  intros Hph Ha Hr Hl. pose proof known_ok as [Hst Hpok Hheld Hinj Hread Hval _].
  set (tx' := set_phase tx _).
  assert (forall i, held tx' i <-> (i < S k)%nat) as Hh'
    by (intros i; unfold held, tx'; simpl; by destruct (occ_validate _ _)).
  assert (forall i, held tx i <-> (i < k)%nat) as Hh by (intros i; unfold held; by rewrite Hph).
  assert (precommit tx) as Hp by (unfold precommit; by rewrite Hph).
  assert (same_but_latches t rows (<[oa_row a := set_latch (Some t) row]> rows)) as Hs
    by (apply same_set_latch; auto).
  assert (forall i b, ot_accs tx !! i = Some b -> held tx i -> oa_row b <> oa_row a) as Hne.
  { intros i b Hb Hi Heq. destruct (Hheld i b Hi Hb) as (row2 & Hr2 & Hl2). congruence. }
  apply (inv_update_txn db0 ts rows txns cs t); try done.
  - constructor; simpl; try done.
    + apply lookup_lt_Some in Ha. unfold phase_ok, tx'. simpl. destruct (occ_validate _ _); lia.
    + intros i b Hi Hb. apply Hh' in Hi. destruct (decide (i = k)) as [->|].
      * simplify_eq. rewrite lookup_insert_eq. eauto.
      * assert (held tx i) as Hi' by (apply Hh; lia).
        rewrite lookup_insert_ne; [eauto|]. intros Heq. by eapply Hne.
    + intros i j b c Hi Hj Hb Hc Heq. apply Hh' in Hi, Hj.
      destruct (decide (i = k)) as [->|], (decide (j = k)) as [->|]; [done|exfalso..|].
      * simplify_eq. apply (Hne j c Hc); [apply Hh; lia|congruence].
      * simplify_eq. apply (Hne i b Hb); [apply Hh; lia|congruence].
      * eapply Hinj; try done; apply Hh; lia.
    + intros _ i b Hb. destruct (Hread Hp i b Hb) as (row2 & Hr2 & Hv).
      destruct (same_lookup _ _ _ _ _ Hs Hr2) as (row' & ? & Hd & Hw & _).
      exists row'. by rewrite Hd, Hw.
    + intros k' i b. unfold occ_validate. destruct (_ <? _) eqn:Hlt; [done|]. intros [= <-] Hi Hb.
      destruct (decide (i = k)) as [->|].
      * simplify_eq. rewrite lookup_insert_eq. eexists. split; [done|]. simpl. lia.
      * destruct (Hval k i b Hph) as (row2 & Hr2 & Hv); [lia|done|].
        destruct (same_lookup _ _ _ _ _ Hs Hr2) as (row' & ? & _ & Hw & _).
        exists row'. by rewrite Hw.
    + intros e k'. by destruct (occ_validate _ _).
  - intros r2 row2. rewrite lookup_insert_Some. intros [[<- _]|[Hne2 Hr2]] Hl2.
    + exists k, a. split_and!; [apply Hh'; lia|done|done].
    + eapply (own_latches db0 ts rows txns cs t tx tx'); eauto. intros i. rewrite Hh, Hh'. lia.
  - intros r v. unfold unwritten, tx'. simpl. destruct (occ_validate _ _); tauto.
  - intros tx0 r v H0. simplify_eq. unfold unwritten. rewrite Hph. tauto.
  - intros _ j b Hb. right. exists tx, j, b. auto.
Qed.

(** After the last write nothing is outstanding. *)
Lemma inv_releasing ph n : ot_phase tx = ph ->
  (exists e, ph = Writing e 0 /\ n = length (ot_accs tx)) \/ ph = Failed n ->
  occ_inv db0 (mkOccSys ts rows (<[t := set_phase tx (Releasing 0 n)]> txns) cs).
Proof using All.
  intros Hph Hn. pose proof known_ok as [Hst Hpok Hheld Hinj _ _ _].
  assert (forall i, held (set_phase tx (Releasing 0 n)) i <-> held tx i) as Hh.
  { intros i. unfold held. simpl. rewrite Hph. destruct Hn as [(e & -> & ->)| ->]; lia. }
  assert (forall r v, ~ unwritten tx r v) as Hu.
  { intros r v. unfold unwritten. rewrite Hph. destruct Hn as [(e & -> & ->)| ->]; [|tauto].
    intros (i & b & Hi & _). lia. }
  apply (inv_update_txn db0 ts rows txns cs t); try done; [apply same_refl|..].
  - constructor; simpl; try done.
    + unfold phase_ok in *. simpl. rewrite Hph in Hpok. destruct Hn as [(e & -> & ->)| ->]; lia.
    + intros i b Hi%Hh Hb. eauto.
    + intros i j b c Hi%Hh Hj%Hh. eauto.
  - eapply own_latches; eauto. intros i. apply Hh.
  - by intros ?? [].
  - intros tx0 r v H0. simplify_eq. apply Hu.
Qed.

Lemma inv_release i n a row : ot_phase tx = Releasing i n -> (i < n)%nat ->
  ot_accs tx !! i = Some a -> rows !! oa_row a = Some row ->
  occ_inv db0 (mkOccSys ts (<[oa_row a := set_latch None row]> rows)
    (<[t := set_phase tx (Releasing (S i) n)]> txns) cs).
Proof using All.
  intros Hph Hi Ha Hr. pose proof known_ok as [Hst Hpok Hheld Hinj _ _ _].
  assert (forall j, held (set_phase tx (Releasing (S i) n)) j <-> held tx j /\ j <> i) as Hh.
  { intros j. unfold held. simpl. rewrite Hph. lia. }
  assert (held tx i) as Hhi by (unfold held; rewrite Hph; lia).
  destruct (Hheld i a Hhi Ha) as (row2 & Hr2 & Hl). simplify_eq.
  apply (inv_update_txn db0 ts rows txns cs t); try done.
  - apply same_set_latch; auto.
  - constructor; simpl; try done.
    + unfold phase_ok in *. simpl. rewrite Hph in Hpok. lia.
    + intros j b [Hj Hne]%Hh Hb. rewrite lookup_insert_ne; [eauto|]. intros Heq.
      apply Hne. by eapply Hinj.
    + intros j1 j2 b c [Hj1 _]%Hh [Hj2 _]%Hh. eauto.
  - intros r row2. rewrite lookup_insert_Some. intros [[_ <-]|[Hne Hr2]] Hl2; [done|].
    destruct (oi_latch _ _ Hinv r row2 t Hr2 Hl2) as (tx0 & j & b & Ht0 & Hj & Hb & Hrb).
    simpl in *. simplify_eq. exists j, b. split_and!; [|done|done]. apply Hh. split; [done|].
    intros ->. congruence.
  - by intros ?? [].
  - intros tx0 r v H0. simplify_eq. unfold unwritten. rewrite Hph. tauto.
Qed.
End known.
End steps.

Lemma occ_step_inv db0 s s' : occ_inv db0 s -> occ_step s s' -> occ_inv db0 s'.
Proof.
  intros Hinv Hst. revert Hinv. destruct Hst; intros Hinv.
  - by apply inv_begin.
  - by eapply inv_read.
  - apply inv_stop; auto.
  - by apply inv_modify.
  - by apply inv_start_validation.
  - by apply inv_latch.
  - by apply inv_failed.
  - by apply inv_commit.
  - by eapply inv_cleanup.
  - eapply inv_releasing; eauto.
  - eapply inv_releasing; eauto.
  - by apply inv_release.
  - apply inv_stop; eauto.
Qed.

Lemma occ_init_inv s : occ_init s -> occ_inv (contents (os_rows s)) s.
Proof.
  destruct s as [ts rows txns cs]. unfold occ_init. simpl. intros (Hpos & -> & -> & Hrows).
  constructor; simpl; try done; try by constructor.
  - intros r row t Hr Hl. destruct (Hrows r row Hr). congruence.
  - intros r row Hr. split; [done|]. intros _. unfold serial_db, contents. simpl.
    by rewrite lookup_fmap, Hr.
Qed.

Lemma occ_reach_inv s s' : occ_init s -> rtc occ_step s s' ->
  occ_inv (contents (os_rows s)) s'.
Proof.
  intros Hi Hsteps. assert (forall u u', rtc occ_step u u' ->
    occ_inv (contents (os_rows s)) u -> occ_inv (contents (os_rows s)) u') as H.
  { induction 1; eauto using occ_step_inv. }
  by apply (H s s' Hsteps), occ_init_inv.
Qed.
End per_row.

(** ** Centralised validation

    [OptCC] with its history of committed write sets and the list of the write
    sets that are being validated or written.  The members of [set_ent] other
    than [tn] and [next] do not change once it is shared, so the lists hold
    entries instead of pointers. *)

Record set_ent := mkSetEnt {
  se_tn : Z;
  se_txn : nat;
  se_rows : list nat }.

Definition set_size (e : set_ent) : nat := length (se_rows e).

Record OptCC := mkOptCC {
  oc_history : list set_ent;   (* from the head *)
  oc_active : list set_ent;
  oc_his_len : Z;
  oc_active_len : Z;
  oc_tnc : Z }.

(** The history pointer of the global [occ_man] is zero before [init]. *)
Definition OptCC_init : OptCC := mkOptCC [] [] 0 0 0.

(** The row sets of a transaction: (rset, wset). *)
Definition get_rw_set {V} (txn : nat) (accesses : list (oacc V)) (row_cnt wr_cnt : nat)
    : option (set_ent * set_ent) :=
  let accs := take row_cnt accesses in
  let w := map oa_row (List.filter (fun a => bool_decide (oa_type a = WR)) accs) in
  let r := map oa_row (List.filter (fun a => negb (bool_decide (oa_type a = WR))) accs) in
  assert! (length w =? wr_cnt)%nat;;
  assert! (length r =? row_cnt - wr_cnt)%nat;;
  Some (mkSetEnt 0 txn r, mkSetEnt 0 txn w).

Definition test_valid (set1 set2 : set_ent) : bool :=
  forallb (fun a => forallb (fun b => negb (a =? b)%nat) (se_rows set2)) (se_rows set1).

(** The first critical section: [finish_tn], [finish_active], [his]. *)
Definition central_enter (wset : set_ent) (s : OptCC)
    : (Z * list set_ent * list set_ent) * OptCC :=
  let readonly := (set_size wset =? 0)%nat in
  ((oc_tnc s, oc_active s, oc_history s),
   if readonly then s
   else mkOptCC (oc_history s) (wset :: oc_active s) (oc_his_len s) (oc_active_len s + 1)
          (oc_tnc s)).

(** [while (his && his->tn > finish_tn) his = his->next]. *)
Fixpoint skip_newer (finish_tn : Z) (his : list set_ent) : list set_ent :=
  match his with
  | e :: his' => if finish_tn <? se_tn e then skip_newer finish_tn his' else his
  | [] => []
  end.

Fixpoint check_history (start_tn : Z) (rset : set_ent) (his : list set_ent) : bool :=
  match his with
  | e :: his' =>
      if start_tn <? se_tn e then
        if test_valid e rset then check_history start_tn rset his' else false
      else true
  | [] => true
  end.

(** Between the critical sections. *)
Definition central_check (start_tn finish_tn : Z) (finish_active his : list set_ent)
    (rset wset : set_ent) : bool :=
  (if start_tn <? finish_tn then check_history start_tn rset (skip_newer finish_tn his)
   else true) &&
  forallb (fun wact => test_valid wact rset && test_valid wact wset) finish_active.

(** Unlinking the first entry of [txn]; the search runs past the end of the
    list when there is none. *)
Fixpoint unlink (txn : nat) (active : list set_ent) : option (list set_ent) :=
  match active with
  | [] => None
  | e :: act => if (se_txn e =? txn)%nat then Some act
                else do! act' <- unlink txn act;; Some (e :: act')
  end.

(** The second critical section. *)
Definition central_leave (valid : bool) (wset : set_ent) (s : OptCC) : option OptCC :=
  if (set_size wset =? 0)%nat then Some s
  else
    do! active <- unlink (se_txn wset) (oc_active s);;
    let active_len := oc_active_len s - 1 in
    if valid then
      assert! match oc_history s with e :: _ => se_tn e =? oc_tnc s | [] => true end;;
      let tnc := oc_tnc s + 1 in
      Some (mkOptCC (mkSetEnt tnc (se_txn wset) (se_rows wset) :: oc_history s) active
              (oc_his_len s + 1) active_len tnc)
    else Some (mkOptCC (oc_history s) active (oc_his_len s) active_len (oc_tnc s)).

Lemma test_valid_disjoint e1 e2 :
  test_valid e1 e2 = true <-> forall r, r ∈ se_rows e1 -> r ∉ se_rows e2.
Proof.
  unfold test_valid. rewrite forallb_forall. split.
  - intros H r H1%list_elem_of_In H2%list_elem_of_In. specialize (H r H1).
    rewrite forallb_forall in H. specialize (H r H2). rewrite Nat.eqb_refl in H. done.
  - intros H a Ha%list_elem_of_In. apply forallb_forall. intros b Hb%list_elem_of_In.
    apply negb_true_iff, Nat.eqb_neq. intros ->. by apply (H b).
Qed.

(** The transactions, with the copy of the rows they work on. *)
Inductive cphase :=
| CRun
| CCheck (finish_tn : Z) (finish_active his : list set_ent) (rset wset : set_ent)
| CWrite (finish_active : list set_ent) (rset wset : set_ent) (k : nat)
| CLeave (valid : bool) (finish_active : list set_ent) (rset wset : set_ent)
| CDone (rc : RC).

Section central.
Context {V : Type}.

Record ctxn := mkCtxn {
  ct_start : Z;
  ct_accs : list (oacc V);
  ct_phase : cphase }.

(** [cs_ts] is the counter of [Manager::get_ts]. *)
Record cc_sys := mkCcSys {
  cs_ts : Z;
  cs_rows : gmap nat (Row_occ V);
  cs_txns : gmap nat ctxn;
  cs_man : OptCC }.

Definition set_cphase (t : ctxn) (p : cphase) : ctxn := mkCtxn (ct_start t) (ct_accs t) p.

(** [wr_cnt], which [get_row] counts. *)
Definition count_writes (accs : list (oacc V)) : nat :=
  length (List.filter (fun a => bool_decide (oa_type a = WR)) accs).

Inductive cc_step : cc_sys -> cc_sys -> Prop :=
| cc_begin ts rows txns m t :
    txns !! t = None ->
    cc_step (mkCcSys ts rows txns m)
      (mkCcSys (ts + 1) rows (<[t := mkCtxn ts [] CRun]> txns) m)
| cc_read ts rows txns m t tx type r row v :
    txns !! t = Some tx -> ct_phase tx = CRun -> rows !! r = Some row ->
    occ_access (ct_start tx) R_REQ row = Some (RCOK, Some v) ->
    cc_step (mkCcSys ts rows txns m)
      (mkCcSys ts rows
         (<[t := mkCtxn (ct_start tx) (ct_accs tx ++ [mkOacc type r v v]) CRun]> txns) m)
| cc_modify ts rows txns m t tx i v :
    txns !! t = Some tx -> ct_phase tx = CRun ->
    cc_step (mkCcSys ts rows txns m)
      (mkCcSys ts rows
         (<[t := mkCtxn (ct_start tx) (alter (new_data v) i (ct_accs tx)) CRun]> txns) m)
| cc_enter ts rows txns m m' t tx rset wset fin fact his :
    txns !! t = Some tx -> ct_phase tx = CRun ->
    get_rw_set t (ct_accs tx) (length (ct_accs tx)) (count_writes (ct_accs tx))
      = Some (rset, wset) ->
    central_enter wset m = ((fin, fact, his), m') ->
    cc_step (mkCcSys ts rows txns m)
      (mkCcSys ts rows (<[t := set_cphase tx (CCheck fin fact his rset wset)]> txns) m')
| cc_check ts rows txns m t tx fin fact his rset wset :
    txns !! t = Some tx -> ct_phase tx = CCheck fin fact his rset wset ->
    cc_step (mkCcSys ts rows txns m)
      (mkCcSys ts rows
         (<[t := set_cphase tx
              (if central_check (ct_start tx) fin fact his rset wset
               then CWrite fact rset wset (length (ct_accs tx))
               else CLeave false fact rset wset)]> txns) m)
(* cleanup(RCOK) *)
| cc_cleanup ts rows txns m t tx fact rset wset k a row row' :
    txns !! t = Some tx -> ct_phase tx = CWrite fact rset wset (S k) ->
    ct_accs tx !! k = Some a -> rows !! oa_row a = Some row ->
    (if bool_decide (oa_type a = WR) then occ_write false (oa_data a) 0 row
     else Some row) = Some row' ->
    cc_step (mkCcSys ts rows txns m)
      (mkCcSys ts (<[oa_row a := row']> rows)
         (<[t := set_cphase tx (CWrite fact rset wset k)]> txns) m)
| cc_written ts rows txns m t tx fact rset wset :
    txns !! t = Some tx -> ct_phase tx = CWrite fact rset wset 0 ->
    cc_step (mkCcSys ts rows txns m)
      (mkCcSys ts rows (<[t := set_cphase tx (CLeave true fact rset wset)]> txns) m)
| cc_leave ts rows txns m m' t tx valid fact rset wset :
    txns !! t = Some tx -> ct_phase tx = CLeave valid fact rset wset ->
    central_leave valid wset m = Some m' ->
    cc_step (mkCcSys ts rows txns m)
      (mkCcSys ts rows
         (<[t := set_cphase tx (CDone (if valid then RCOK else Abort))]> txns) m').

Definition cc_init (s : cc_sys) : Prop :=
  0 < cs_ts s /\ cs_txns s = ∅ /\ cs_man s = OptCC_init /\
  forall r row, cs_rows s !! r = Some row -> ro_wts row = 0.

(** The sets of a transaction between the critical sections. *)
Definition entered (tx : ctxn) : option (list set_ent * set_ent * set_ent) :=
  match ct_phase tx with
  | CCheck _ fact _ rset wset | CWrite fact rset wset _ | CLeave _ fact rset wset =>
      Some (fact, rset, wset)
  | _ => None
  end.

(** It passed its checks. *)
Definition passed (tx : ctxn) : bool :=
  match ct_phase tx with CWrite _ _ _ _ | CLeave true _ _ _ => true | _ => false end.

(** The history holds the transaction numbers from [tnc] down to 1. *)
Fixpoint his_ok (tnc : nat) (his : list set_ent) : Prop :=
  match tnc, his with
  | O, [] => True
  | S n, e :: his => se_tn e = Z.of_nat (S n) /\ his_ok n his
  | _, _ => False
  end.

Record man_ok (m : OptCC) : Prop := mkManOk {
  mo_his : exists n, oc_tnc m = Z.of_nat n /\ oc_his_len m = Z.of_nat n /\ his_ok n (oc_history m);
  mo_len : oc_active_len m = Z.of_nat (length (oc_active m));
  mo_nodup : NoDup (map se_txn (oc_active m)) }.

Record cc_inv (s : cc_sys) : Prop := mkCcInv {
  ci_man : man_ok (cs_man s);
  ci_active : forall e, e ∈ oc_active (cs_man s) -> set_size e <> 0%nat /\ exists tx f r,
    cs_txns s !! se_txn e = Some tx /\ entered tx = Some (f, r, e);
  ci_entered : forall t tx f r w, cs_txns s !! t = Some tx -> entered tx = Some (f, r, w) ->
    se_txn w = t /\ (set_size w <> 0%nat -> w ∈ oc_active (cs_man s));
  ci_order : forall t1 tx1 f1 r1 w1 t2 tx2 f2 r2 w2, t1 <> t2 ->
    cs_txns s !! t1 = Some tx1 -> entered tx1 = Some (f1, r1, w1) ->
    cs_txns s !! t2 = Some tx2 -> entered tx2 = Some (f2, r2, w2) ->
    set_size w1 <> 0%nat -> set_size w2 <> 0%nat -> w1 ∈ f2 \/ w2 ∈ f1;
  ci_passed : forall t tx f r w e, cs_txns s !! t = Some tx -> entered tx = Some (f, r, w) ->
    passed tx = true -> e ∈ f -> test_valid e r = true /\ test_valid e w = true }.

Lemma unlink_Some t l l' : unlink t l = Some l' -> exists e, se_txn e = t /\ l ≡ₚ e :: l'.
Proof.
  revert l'. induction l as [|e l IH]; intros l'; simpl; [done|].
  destruct (se_txn e =? t)%nat eqn:He.
  - intros [= ->]. exists e. split; [by apply Nat.eqb_eq|done].
  - destruct (unlink t l) as [l2|]; simpl; [|done]. intros [= <-].
    destruct (IH l2 eq_refl) as (e' & ? & Hp). exists e'. split; [done|].
    rewrite Hp. apply Permutation_swap.
Qed.

Lemma unlink_in e l : e ∈ l -> unlink (se_txn e) l <> None.
Proof.
  induction l as [|e' l IH]; simpl; [by intros ?%not_elem_of_nil|].
  rewrite elem_of_cons. destruct (se_txn e' =? se_txn e)%nat eqn:He; [done|].
  intros [->|Hin]; [by rewrite Nat.eqb_refl in He|]. specialize (IH Hin).
  by destruct (unlink _ l).
Qed.

Lemma get_rw_set_spec t (accs : list (oacc V)) n k r w :
  get_rw_set t accs n k = Some (r, w) ->
  se_txn w = t /\ length (take n accs) = (set_size w + set_size r)%nat /\
  (forall i a, take n accs !! i = Some a ->
     oa_row a ∈ if bool_decide (oa_type a = WR) then se_rows w else se_rows r).
Proof.
  unfold get_rw_set, set_size. intros (_ & (_ & [= <- <-])%c_assert_Some)%c_assert_Some. simpl.
  rewrite !length_map. split; [done|]. split.
  - induction (take n accs) as [|a l IH]; simpl; [done|].
    destruct (bool_decide _); simpl; lia.
  - intros i a Ha%list_elem_of_lookup_2%list_elem_of_In.
    destruct (bool_decide (oa_type a = WR)) eqn:Hb; apply list_elem_of_In, in_map, filter_In;
      by rewrite Hb.
Qed.

(** A step that leaves the manager alone and keeps the sets of the
    transaction. *)
Lemma inv_same_entered ts rows txns m t tx tx' ts' rows' :
  cc_inv (mkCcSys ts rows txns m) -> txns !! t = Some tx \/ txns !! t = None /\ tx = tx' ->
  entered tx' = entered tx -> (txns !! t = None -> entered tx' = None) ->
  (forall f r w e, entered tx' = Some (f, r, w) -> passed tx' = true -> e ∈ f ->
     test_valid e r = true /\ test_valid e w = true) ->
  cc_inv (mkCcSys ts' rows' (<[t := tx']> txns) m).
Proof.
  intros [Hm Hac Hen Hor Hpa] Ht He Hnone Hpass. simpl in *.
  assert (forall t2 tx2 s, <[t:=tx']> txns !! t2 = Some tx2 -> entered tx2 = Some s ->
    exists tx0, txns !! t2 = Some tx0 /\ entered tx0 = Some s) as Hback.
  { intros t2 tx2 s. rewrite lookup_insert_Some. intros [[<- <-]|[Hne H2]] Hs; [|eauto].
    destruct Ht as [Ht|[Ht ->]]; [exists tx; split; congruence|]. rewrite Hnone in Hs; done. }
  constructor; simpl; try done.
  - intros e Hin. destruct (Hac e Hin) as (Hz & tx0 & f & r & Ht0 & He0). split; [done|].
    destruct (decide (se_txn e = t)) as [Heq|]; [|exists tx0, f, r; by rewrite lookup_insert_ne].
    subst t. rewrite lookup_insert_eq. exists tx', f, r. split; [done|].
    destruct Ht as [Ht|[Ht _]]; congruence.
  - intros t2 tx2 f r w H2 He2. destruct (Hback _ _ _ H2 He2) as (tx0 & ? & ?). eauto.
  - intros t1 tx1 f1 r1 w1 t2 tx2 f2 r2 w2 Hne H1 He1 H2 He2.
    destruct (Hback _ _ _ H1 He1) as (tx3 & ? & ?), (Hback _ _ _ H2 He2) as (tx4 & ? & ?).
    by eapply (Hor t1 tx3 f1 r1 w1 t2 tx4).
  - intros t2 tx2 f r w e. rewrite lookup_insert_Some. intros [[<- <-]|[Hne H2]]; eauto.
Qed.

Lemma central_check_ok start fin f his r w e :
  central_check start fin f his r w = true -> e ∈ f ->
  test_valid e r = true /\ test_valid e w = true.
Proof.
  unfold central_check. intros [_ H]%andb_true_iff Hin%list_elem_of_In.
  rewrite forallb_forall in H. by apply andb_true_iff, H.
Qed.

Lemma inv_enter ts rows txns m m' t tx rset wset fin f his :
  cc_inv (mkCcSys ts rows txns m) -> txns !! t = Some tx -> ct_phase tx = CRun ->
  get_rw_set t (ct_accs tx) (length (ct_accs tx)) (count_writes (ct_accs tx))
    = Some (rset, wset) ->
  central_enter wset m = ((fin, f, his), m') ->
  cc_inv (mkCcSys ts rows (<[t := set_cphase tx (CCheck fin f his rset wset)]> txns) m').
Proof.
  intros [[Hhis Hlen Hnd] Hac Hen Hor Hpa] Ht Hph (Htw & _ & _)%get_rw_set_spec. simpl in *.
  unfold central_enter. intros [= <- <- <- Hm'].
  assert (forall e, e ∈ oc_active m -> se_txn e <> t) as Hfresh.
  { intros e Hin Heq. destruct (Hac e Hin) as (_ & tx0 & f0 & r0 & Ht0 & He0).
    rewrite Heq, Ht in Ht0. simplify_eq. unfold entered in He0. by rewrite Hph in He0. }
  assert (forall e, e ∈ oc_active m' <-> e ∈ oc_active m \/ (e = wset /\ set_size wset <> 0%nat)) as Hin'.
  { intros e. rewrite <- Hm'. destruct (set_size wset =? 0)%nat eqn:Hz; simpl.
    - apply Nat.eqb_eq in Hz. rewrite Hz. tauto.
    - apply Nat.eqb_neq in Hz. rewrite elem_of_cons. tauto. }
  constructor; simpl.
  - rewrite <- Hm'. destruct (_ =? _)%nat; constructor; simpl; try done; [lia|].
    apply NoDup_cons. split; [|done]. rewrite Htw, list_elem_of_In, in_map_iff.
    intros (e & Heq & Hin%list_elem_of_In). by apply (Hfresh e).
  - intros e [Hin|[-> Hz]]%Hin'.
    + rewrite lookup_insert_ne by (symmetry; by apply Hfresh). by apply Hac.
    + split; [done|]. rewrite Htw, lookup_insert_eq. eauto 10.
  - intros t2 tx2 f2 r2 w2. rewrite lookup_insert_Some. intros [[<- <-]|[Hne H2]] He.
    + injection He as <- <- <-. split; [done|]. intros Hz. apply Hin'. auto.
    + destruct (Hen _ _ _ _ _ H2 He). split; [done|]. intros Hz. apply Hin'. auto.
  - intros t1 tx1 f1 r1 w1 t2 tx2 f2 r2 w2 Hne. rewrite !lookup_insert_Some.
    intros [[<- <-]|[Hne1 H1]] He1 [[<- <-]|[Hne2 H2]] He2 Hz1 Hz2; [done|..].
    + right. injection He1 as <- <- <-. by apply (Hen _ _ _ _ _ H2 He2).
    + left. injection He2 as <- <- <-. by apply (Hen _ _ _ _ _ H1 He1).
    + by eapply (Hor t1 tx1 f1 r1 w1 t2 tx2).
  - intros t2 tx2 f2 r2 w2 e. rewrite lookup_insert_Some. intros [[<- <-]|[Hne H2]]; [done|eauto].
Qed.

Lemma his_ok_head n his : his_ok n his ->
  match his with e :: _ => se_tn e =? Z.of_nat n | [] => true end = true.
Proof. destruct n, his; simpl; try done. intros [-> _]. lia. Qed.

Lemma leave_spec m valid w m' : man_ok m -> central_leave valid w m = Some m' ->
  man_ok m' /\ forall e, e ∈ oc_active m' <->
    e ∈ oc_active m /\ (set_size w <> 0%nat -> se_txn e <> se_txn w).
Proof.
  intros [Hhis Hlen Hnd]. unfold central_leave. destruct (set_size w =? 0)%nat eqn:Hz.
  { intros [= <-]. apply Nat.eqb_eq in Hz. rewrite Hz. split; [by constructor|]. tauto. }
  apply Nat.eqb_neq in Hz.
  destruct (unlink (se_txn w) (oc_active m)) as [act|] eqn:Hu; simpl; [|done].
  destruct (unlink_Some _ _ _ Hu) as (e & He & Hperm).
  assert (NoDup (map se_txn act) /\ se_txn e ∉ map se_txn act) as [Hnd' Hni].
  { rewrite Hperm in Hnd. simpl in Hnd. apply NoDup_cons in Hnd. tauto. }
  assert (length (oc_active m) = S (length act)) as Hl by (by rewrite Hperm).
  assert (forall e', e' ∈ act <->
    e' ∈ oc_active m /\ (set_size w <> 0%nat -> se_txn e' <> se_txn w)) as Hin.
  { intros e'. rewrite Hperm, elem_of_cons. split; [|naive_solver].
    intros Hin. split; [by right|]. intros _ Heq. apply Hni. rewrite He, <- Heq.
    by apply list_elem_of_In, in_map, list_elem_of_In. }
  destruct valid.
  - intros [_ [= <-]]%c_assert_Some. split; [|done]. constructor; simpl; [|lia|done].
    destruct Hhis as (n & Hn & Hhl & Hh). exists (S n). split_and!; [lia|lia|].
    split; [simpl; lia|done].
  - intros [= <-]. split; [|done]. constructor; simpl; [done|lia|done].
Qed.

Lemma leave_defined m valid w : man_ok m -> (set_size w <> 0%nat -> w ∈ oc_active m) ->
  central_leave valid w m <> None.
Proof.
  intros [(n & Hn & _ & Hh) _ _] Hw. unfold central_leave.
  destruct (set_size w =? 0)%nat eqn:Hz; [done|]. apply Nat.eqb_neq in Hz.
  pose proof (unlink_in w _ (Hw Hz)). destruct (unlink _ _) as [act|]; [|done]. simpl.
  destruct valid; [|done]. rewrite Hn. pose proof (his_ok_head _ _ Hh) as ->. done.
Qed.

Lemma inv_leave ts rows txns m m' t tx valid f r w :
  cc_inv (mkCcSys ts rows txns m) -> txns !! t = Some tx -> ct_phase tx = CLeave valid f r w ->
  central_leave valid w m = Some m' ->
  cc_inv (mkCcSys ts rows
    (<[t := set_cphase tx (CDone (if valid then RCOK else Abort))]> txns) m').
Proof.
  intros [Hm Hac Hen Hor Hpa] Ht Hph Hl. simpl in *.
  destruct (leave_spec _ _ _ _ Hm Hl) as [Hm' Hin].
  assert (entered tx = Some (f, r, w)) as He by (unfold entered; by rewrite Hph).
  destruct (Hen _ _ _ _ _ Ht He) as [Htw _].
  constructor; simpl; [done|..].
  - intros e [Hin0 Hne]%Hin. destruct (Hac e Hin0) as (Hz & tx0 & f0 & r0 & Ht0 & He0).
    split; [done|]. exists tx0, f0, r0. split; [|done]. rewrite lookup_insert_ne; [done|]. intros Heq.
    rewrite <- Heq, Ht in Ht0. simplify_eq. by apply Hne.
  - intros t2 tx2 f2 r2 w2. rewrite lookup_insert_Some. intros [[<- <-]|[Hne H2]] He2; [done|].
    destruct (Hen _ _ _ _ _ H2 He2) as [Htw2 Hw2]. split; [done|]. intros Hz. apply Hin.
    split; [by apply Hw2|]. congruence.
  - intros t1 tx1 f1 r1 w1 t2 tx2 f2 r2 w2 Hne. rewrite !lookup_insert_Some.
    intros [[<- <-]|[Hne1 H1]] He1; [done|]. intros [[<- <-]|[Hne2 H2]] He2; [done|].
    by eapply (Hor t1 tx1 f1 r1 w1 t2 tx2).
  - intros t2 tx2 f2 r2 w2 e. rewrite lookup_insert_Some. intros [[<- <-]|[Hne H2]]; [done|eauto].
Qed.

Lemma cc_step_inv s s' : cc_inv s -> cc_step s s' -> cc_inv s'.
Proof.
  intros Hinv Hst. revert Hinv. destruct Hst as
    [ts rows txns m t Ht|ts rows txns m t tx type r row v Ht Hph|ts rows txns m t tx i v Ht Hph
    |ts rows txns m m' t tx r w fin f his Ht Hph Hrw Hen|ts rows txns m t tx fin f his r w Ht Hph
    |ts rows txns m t tx f r w k a row row' Ht Hph|ts rows txns m t tx f r w Ht Hph
    |ts rows txns m m' t tx valid f r w Ht Hph Hl]; intros Hinv.
  - by eapply inv_same_entered; [exact Hinv|by right|..].
  - eapply inv_same_entered; [exact Hinv|by left| |done|done]. unfold entered. by rewrite Hph.
  - eapply inv_same_entered; [exact Hinv|by left| |done|done]. unfold entered. by rewrite Hph.
  - by eapply inv_enter.
  - eapply inv_same_entered; [exact Hinv|by left| |congruence|].
    + unfold entered. rewrite Hph. simpl. by destruct (central_check _ _ _ _ _ _).
    + unfold entered, passed. simpl. intros f0 r0 w0 e.
      destruct (central_check _ _ _ _ _ _) eqn:Hc; [|done]. intros [= <- <- <-] _.
      by eapply central_check_ok.
  - assert (entered tx = Some (f, r, w)) as He by (unfold entered; by rewrite Hph).
    eapply inv_same_entered; [exact Hinv|by left|done|congruence|].
    intros f0 r0 w0 e [= <- <- <-] _. apply (ci_passed _ Hinv t tx f r w e Ht He).
    unfold passed. by rewrite Hph.
  - assert (entered tx = Some (f, r, w)) as He by (unfold entered; by rewrite Hph).
    eapply inv_same_entered; [exact Hinv|by left|done|congruence|].
    intros f0 r0 w0 e [= <- <- <-] _. apply (ci_passed _ Hinv t tx f r w e Ht He).
    unfold passed. by rewrite Hph.
  - by eapply inv_leave.
Qed.

Lemma cc_reach_inv s s' : cc_init s -> rtc cc_step s s' -> cc_inv s'.
Proof.
  intros (_ & Ht & Hm & _) Hsteps. revert Ht Hm.
  assert (cs_txns s = ∅ -> cs_man s = OptCC_init -> cc_inv s) as Hi.
  { intros Ht Hm. constructor; rewrite ?Ht, ?Hm; simpl; try done.
    - constructor; simpl; [exists 0%nat; done|done|constructor].
    - by intros e ?%not_elem_of_nil. }
  intros Ht Hm. specialize (Hi Ht Hm). clear Ht Hm. revert Hi.
  induction Hsteps; eauto using cc_step_inv.
Qed.
End central.

(** ** Correctness *)

(** C2. Per-row validation gives serializable histories ordered by the commit
    timestamp: in every interleaving, the committed transactions in the order
    of their [end_ts] read exactly what the ones before them wrote, the rows
    hold the result of that serial execution once no write is outstanding, and
    the assertion of [Row_occ::write] never fires. *)
Theorem occ_serializable {V} table_name primary_key bounded (s s' : @occ_sys V) :
  occ_init s -> rtc (occ_step table_name primary_key bounded) s s' ->
  let db0 := contents (os_rows s) in
  replay db0 (os_commits s') /\
  StronglySorted Z.lt (map c_ts (os_commits s')) /\
  (forall t tx e k a row, os_txns s' !! t = Some tx -> ot_phase tx = Writing e (S k) ->
     ot_accs tx !! k = Some a -> os_rows s' !! oa_row a = Some row ->
     occ_write true (oa_data a) e row <> None) /\
  ((forall t tx e k, os_txns s' !! t = Some tx -> ot_phase tx <> Writing e k) ->
   forall r row, os_rows s' !! r = Some row ->
     serial_db db0 (os_commits s') !! r = Some (ro_row row)).
Proof.
  intros Hi Hr. pose proof (occ_reach_inv _ _ _ s s' Hi Hr) as Hinv.
  split_and!; [apply Hinv|apply Hinv|..].
  - intros t tx e k a row Ht Hph Ha Hrow.
    destruct (to_end _ _ _ _ (oi_txn _ _ Hinv t tx Ht) e (S k) Hph) as [? He].
    destruct (He k a) as (row2 & Hr2 & ?); [lia|done|]. simplify_eq.
    unfold occ_write, c_assert. destruct (_ <? _) eqn:Hlt; [done|lia].
  - intros Hnw r row Hrow. apply (oi_row _ _ Hinv r row Hrow).
    intros t tx v Ht. unfold unwritten. destruct (ot_phase tx) eqn:Hph; try tauto.
    by destruct (Hnw t tx end_ts k Ht).
Qed.

Lemma demo_rows r (row : Row_occ Z) :
  ({[ 7%nat := Row_occ_init 100 ]} : gmap nat (Row_occ Z)) !! r = Some row ->
  ro_wts row = 0 /\ ro_latch row = None.
Proof. by intros [<- <-]%lookup_singleton_Some. Qed.

Definition occ_demo : @occ_sys Z := mkOccSys 1 {[ 7%nat := Row_occ_init 100 ]} ∅ [].

Ltac occ_run c := eapply rtc_l; [eapply c; reflexivity|cbn].

Lemma occ_demo_run : exists s', rtc (occ_step (fun _ => "T"%string) Z.of_nat false) occ_demo s' /\
  os_commits s' = [mkCommit 2 [(7%nat, 100)] [(7%nat, 110)]].
Proof.
  eexists. split.
  - occ_run (occ_begin (fun _ => "T"%string) Z.of_nat false 1 {[ 7%nat := Row_occ_init 100 ]} ∅ [] 0%nat).
    eapply rtc_l; [eapply (occ_read _ _ _ _ _ _ _ 0%nat _ WR 7%nat); reflexivity|cbn].
    eapply rtc_l; [eapply (occ_modify _ _ _ _ _ _ _ 0%nat _ 0%nat 110); reflexivity|cbn].
    eapply rtc_l; [eapply (occ_start_validation _ _ _ _ _ _ _ 0%nat); reflexivity|cbn].
    eapply rtc_l; [eapply (occ_latch _ _ _ _ _ _ _ 0%nat); reflexivity|cbn].
    eapply rtc_l; [eapply (occ_commit _ _ _ _ _ _ _ 0%nat); reflexivity|cbn].
    apply rtc_refl.
  - reflexivity.
Qed.

Lemma occ_serializable_witness : exists s' : @occ_sys Z,
  replay (contents (os_rows occ_demo)) (os_commits s') /\ os_commits s' <> [].
Proof.
  destruct occ_demo_run as (s' & Hrun & Hc). exists s'. split; [|by rewrite Hc].
  refine (proj1 (occ_serializable (fun _ => "T"%string) Z.of_nat false occ_demo s' _ Hrun)).
  split_and!; [done|done|done|]. intros r row. by apply demo_rows.
Defined.

(** The order of latching: [per_row_validate] sorts the accesses by table
    name and primary key and keeps them all. *)
Theorem occ_accesses_sorted {V} table_name primary_key (accs : list (oacc V)) :
  let l := sort_accesses table_name primary_key accs in
  l ≡ₚ accs /\
  forall i j a b, (i < j)%nat -> l !! i = Some a -> l !! j = Some b ->
    match String.compare (table_name (oa_row a)) (table_name (oa_row b)) with
    | Lt => True
    | Eq => primary_key (oa_row a) <= primary_key (oa_row b)
    | Gt => False
    end.
Proof.
  intros l. destruct (sort_accesses_ok table_name primary_key accs) as [Hs Hp].
  split; [done|]. intros i j a b Hij Ha Hb. fold l in Hs.
  assert (not_after (access_gt table_name primary_key) a b) as Hna.
  { clearbody l. clear Hp. revert i j Hij Ha Hb.
    induction Hs as [|x l' Hs IH Hall]; intros [|i] [|j] Hij; simpl; try done; try lia.
    - intros [= ->] Hb. rewrite Forall_forall in Hall. apply Hall.
      by apply list_elem_of_lookup_2 in Hb.
    - apply IH. lia. }
  revert Hna. unfold not_after, access_gt.
  destruct (String.compare _ _); [|done|done]. lia.
Qed.

(** Centralised validation keeps conflicting transactions apart while they
    write: of two transactions that have both passed their checks and have not
    left, one writes nothing the other reads or writes.  The history numbers
    its entries from [tnc] down to 1, the lengths are right, and leaving never
    runs past the end of the active list or fails its assertion. *)
Theorem occ_central_writers {V} (s s' : @cc_sys V) :
  cc_init s -> rtc cc_step s s' ->
  (forall t1 tx1 f1 r1 w1 t2 tx2 f2 r2 w2, t1 <> t2 ->
     cs_txns s' !! t1 = Some tx1 -> entered tx1 = Some (f1, r1, w1) -> passed tx1 = true ->
     cs_txns s' !! t2 = Some tx2 -> entered tx2 = Some (f2, r2, w2) -> passed tx2 = true ->
     (forall r, r ∈ se_rows w1 -> r ∉ se_rows r2 /\ r ∉ se_rows w2) \/
     (forall r, r ∈ se_rows w2 -> r ∉ se_rows r1 /\ r ∉ se_rows w1)) /\
  man_ok (cs_man s') /\
  (forall t tx valid f r w, cs_txns s' !! t = Some tx -> ct_phase tx = CLeave valid f r w ->
     central_leave valid w (cs_man s') <> None).
Proof.
  intros Hi Hr. pose proof (cc_reach_inv s s' Hi Hr) as Hinv. split_and!; [|apply Hinv|].
  - intros t1 tx1 f1 r1 w1 t2 tx2 f2 r2 w2 Hne H1 He1 Hp1 H2 He2 Hp2.
    destruct (decide (set_size w1 = 0%nat)) as [Hz|Hz1].
    { left. intros r. apply nil_length_inv in Hz. rewrite Hz. by intros ?%not_elem_of_nil. }
    destruct (decide (set_size w2 = 0%nat)) as [Hz|Hz2].
    { right. intros r. apply nil_length_inv in Hz. rewrite Hz. by intros ?%not_elem_of_nil. }
    destruct (ci_order _ Hinv t1 tx1 f1 r1 w1 t2 tx2 f2 r2 w2) as [Hin|Hin]; try done;
      [left|right]; intros r Hr1.
    + destruct (ci_passed _ Hinv t2 tx2 f2 r2 w2 w1) as [Hv1 Hv2]; try done.
      rewrite test_valid_disjoint in Hv1, Hv2. auto.
    + destruct (ci_passed _ Hinv t1 tx1 f1 r1 w1 w2) as [Hv1 Hv2]; try done.
      rewrite test_valid_disjoint in Hv1, Hv2. auto.
  - intros t tx valid f r w Ht Hph. apply leave_defined; [apply Hinv|].
    eapply (ci_entered _ Hinv t tx f r w); [done|]. unfold entered. by rewrite Hph.
Qed.

Definition cc_demo : @cc_sys Z := mkCcSys 1 {[ 7%nat := Row_occ_init 100 ]} ∅ OptCC_init.

Lemma occ_central_writers_witness : man_ok (cs_man cc_demo).
Proof.
  apply (occ_central_writers cc_demo cc_demo); [|apply rtc_refl].
  split_and!; [done|done|done|]. intros r row. by apply demo_rows.
Defined.

Ltac cc_run c := eapply rtc_l; [eapply c; reflexivity|cbn].

(** Centralised validation loses updates.  The start of a transaction is a
    timestamp of the global counter, which also advances when a transaction
    begins, while [tnc] counts commits only; a transaction whose start
    timestamp is not below [tnc] skips the history.  Two transactions add 10
    and 20 to a row that holds 100, both commit, and the row holds 120. *)
Theorem occ_central_lost_update : exists s' start1 start2,
  cc_init cc_demo /\ rtc cc_step cc_demo s' /\
  cs_txns s' !! 1%nat = Some (mkCtxn start1 [mkOacc WR 7 110 100] (CDone RCOK)) /\
  cs_txns s' !! 2%nat = Some (mkCtxn start2 [mkOacc WR 7 120 100] (CDone RCOK)) /\
  ro_row <$> cs_rows s' !! 7%nat = Some 120.
Proof.
  eexists _, _, _. split.
  { split_and!; [done|done|done|]. intros r row. by apply demo_rows. }
  split.
  - cc_run (cc_begin (V:=Z) 1 {[ 7%nat := Row_occ_init 100 ]} ∅ OptCC_init 1%nat).
    cc_run (cc_begin (V:=Z) 2 {[ 7%nat := Row_occ_init 100 ]}
      (<[1%nat:=mkCtxn 1 [] CRun]> ∅) OptCC_init 2%nat).
    eapply rtc_l; [eapply (cc_read _ _ _ _ 1%nat _ WR 7%nat); reflexivity|cbn].
    eapply rtc_l; [eapply (cc_read _ _ _ _ 2%nat _ WR 7%nat); reflexivity|cbn].
    eapply rtc_l; [eapply (cc_modify _ _ _ _ 1%nat _ 0%nat 110); reflexivity|cbn].
    eapply rtc_l; [eapply (cc_modify _ _ _ _ 2%nat _ 0%nat 120); reflexivity|cbn].
    eapply rtc_l; [eapply (cc_enter _ _ _ _ _ 1%nat); reflexivity|cbn].
    eapply rtc_l; [eapply (cc_check _ _ _ _ 1%nat); reflexivity|cbn].
    eapply rtc_l; [eapply (cc_cleanup _ _ _ _ 1%nat); reflexivity|cbn].
    eapply rtc_l; [eapply (cc_written _ _ _ _ 1%nat); reflexivity|cbn].
    eapply rtc_l; [eapply (cc_leave _ _ _ _ _ 1%nat); reflexivity|cbn].
    eapply rtc_l; [eapply (cc_enter _ _ _ _ _ 2%nat); reflexivity|cbn].
    eapply rtc_l; [eapply (cc_check _ _ _ _ 2%nat); reflexivity|cbn].
    eapply rtc_l; [eapply (cc_cleanup _ _ _ _ 2%nat); reflexivity|cbn].
    eapply rtc_l; [eapply (cc_written _ _ _ _ 2%nat); reflexivity|cbn].
    eapply rtc_l; [eapply (cc_leave _ _ _ _ _ 2%nat); reflexivity|cbn].
    apply rtc_refl.
  - split_and!; reflexivity.
Qed.
