(* ===== verification/Words.v ===== *)
(** * Machine words with a lock bit

    Facts on the bit operations of [LOCK_BIT], the top bit of the 64-bit words
    of row_silo.h and row_tictoc.h, and on fields of a word. *)

From S2P Require Import Prelude.

Definition LOCK_BIT : Z := Z.shiftl 1 63.

(** [v & LOCK_BIT] as a condition. *)
Definition is_locked (v : Z) : bool := negb (Z.land v LOCK_BIT =? 0).

(** [v & (~LOCK_BIT)]. *)
Definition clear_lock (v : Z) : Z := Z.land v (u64 (Z.lnot LOCK_BIT)).

(** [v | LOCK_BIT]. *)
Definition set_lock (v : Z) : Z := Z.lor v LOCK_BIT.

(** A compare-and-swap of the word [w]: success and the new word. *)
Definition cas (expected desired w : Z) : bool * Z :=
  if w =? expected then (true, desired) else (false, w).

(** The enumerator [std::memory_order_relaxed]; as a condition it is false. *)
Definition memory_order_relaxed : Z := 0.

Lemma lock_bit_value : LOCK_BIT = 2 ^ 63.
Proof. reflexivity. Qed.

(** Shifting a field into its place. *)
Lemma lor_field a b n : 0 <= n -> 0 <= a < 2 ^ n -> Z.lor a (b * 2 ^ n) = a + b * 2 ^ n.
Proof.
  intros Hn Ha. symmetry. apply Z.add_nocarry_lor. apply Z.bits_inj'. intros i Hi.
  rewrite Z.land_spec, Z.bits_0. destruct (Z.lt_ge_cases i n) as [Hlt|Hge].
  - rewrite (Z.mul_pow2_bits_low b n i) by done. apply andb_false_r.
  - destruct (decide (a = 0)) as [->|Hne]; [by rewrite Z.bits_0|].
    rewrite (Z.bits_above_log2 a i); [done|lia|].
    assert (Z.log2 a < n); [|lia]. apply Z.log2_lt_pow2; lia.
Qed.

Lemma clear_lock_mod v : clear_lock v = v mod 2 ^ 63.
Proof.
  unfold clear_lock. replace (u64 (Z.lnot LOCK_BIT)) with (Z.ones 63) by reflexivity.
  by apply Z.land_ones.
Qed.

Lemma is_locked_lt v : 0 <= v < 2 ^ 64 -> is_locked v = negb (v <? 2 ^ 63).
Proof.
  intros Hv. unfold is_locked. f_equal. rewrite lock_bit_value.
  assert (Z.land v (2 ^ 63) = v / 2 ^ 63 * 2 ^ 63) as ->.
  { apply Z.bits_inj'. intros i Hi. rewrite Z.land_spec, Z.pow2_bits_eqb by lia.
    destruct (Z.lt_ge_cases i 63) as [Hlt|Hge].
    - rewrite Z.mul_pow2_bits_low by done. replace (63 =? i) with false by lia. apply andb_false_r.
    - rewrite Z.mul_pow2_bits, Z.div_pow2_bits by lia. replace (i - 63 + 63) with i by lia.
      destruct (Z.eqb_spec 63 i) as [<-|Hne]; [by rewrite andb_true_r|]. rewrite andb_false_r.
      destruct (decide (v = 0)) as [->|Hv0]; [by rewrite Z.bits_0|].
      rewrite Z.bits_above_log2; [done|lia|].
      assert (Z.log2 v < 64); [|lia]. apply Z.log2_lt_pow2; lia. }
  assert (v / 2 ^ 63 = 0 <-> v < 2 ^ 63) as Hd.
  { split; intros H; [|apply Z.div_small; lia].
    pose proof (Z.div_mod v (2 ^ 63)). pose proof (Z.mod_pos_bound v (2 ^ 63)). lia. }
  apply eq_true_iff_eq. rewrite Z.eqb_eq, Z.ltb_lt, <- Hd. lia.
Qed.

(** A word is a number below the lock bit with the lock bit set or not. *)
Definition enc_lock (tid : Z) (b : bool) : Z := if b then tid + 2 ^ 63 else tid.

Lemma enc_lock_range tid b : 0 <= tid < 2 ^ 63 -> 0 <= enc_lock tid b < 2 ^ 64.
Proof. unfold enc_lock. destruct b; lia. Qed.

Lemma is_locked_enc tid b : 0 <= tid < 2 ^ 63 -> is_locked (enc_lock tid b) = b.
Proof.
  intros Ht. rewrite is_locked_lt by by apply enc_lock_range. unfold enc_lock.
  destruct b; apply eq_true_iff_eq; rewrite negb_true_iff, Z.ltb_ge; lia.
Qed.

Lemma clear_lock_enc tid b : 0 <= tid < 2 ^ 63 -> clear_lock (enc_lock tid b) = tid.
Proof.
  intros Ht. rewrite clear_lock_mod. unfold enc_lock. destruct b.
  - rewrite Z.add_mod, Z.mod_same, Z.add_0_r, Z.mod_mod by lia. by apply Z.mod_small.
  - by apply Z.mod_small.
Qed.

Lemma set_lock_enc tid : 0 <= tid < 2 ^ 63 -> set_lock tid = enc_lock tid true.
Proof. intros Ht. unfold set_lock. by apply (lor_field tid 1 63). Qed.

Lemma enc_lock_inj tid b tid' b' : 0 <= tid < 2 ^ 63 -> 0 <= tid' < 2 ^ 63 ->
  enc_lock tid b = enc_lock tid' b' -> tid = tid' /\ b = b'.
Proof. unfold enc_lock. destruct b, b'; intros; split; try done; lia. Qed.

Lemma word_enc v : 0 <= v < 2 ^ 64 -> v = enc_lock (clear_lock v) (is_locked v).
Proof.
  intros Hv. rewrite clear_lock_mod, is_locked_lt by done. unfold enc_lock.
  destruct (Z.ltb_spec v (2 ^ 63)); simpl; [rewrite Z.mod_small; lia|].
  rewrite <- (Z.mod_unique v (2 ^ 63) 1 (v - 2 ^ 63)); lia.
Qed.
