(* ===== verification/Silo.v ===== *)
(** * Silo

    [Row_silo] of src/concurrency_control/row_silo.cpp with [ATOMIC_WORD], and
    [txn_man::validate_silo] of silo/silo.cpp: every load, compare-and-swap and
    store of a row's word is a step, and a row is copied one word at a time, so
    that readers run alongside a writer. *)

From S2P Require Import Prelude Global Words Sort Serial.

(** ** The operations on a row's word *)

(** [get_tid]. *)
Definition silo_get_tid (w : Z) : Z := clear_lock w.

(** [validate], [w] being the word it loads. *)
Definition silo_validate (tid : Z) (in_write_set : bool) (w : Z) : bool :=
  if in_write_set then tid =? clear_lock w
  else if is_locked w then false
  else if negb (tid =? clear_lock w) then false
  else true.

(** [try_lock]; [v] is the word at the load, [w] at the compare-and-swap. *)
Definition silo_try_lock (v w : Z) : bool * Z :=
  if is_locked v then (false, w) else cas v (set_lock v) w.

(** [lock]: the value of its loop condition, a comma expression, is its right
    operand [memory_order_relaxed], which is 0. *)
Definition silo_lock_iter (v w : Z) : bool * Z :=
  let '(left_operand, w') :=
    if is_locked v then (true, w)
    else let '(success, w') := cas v (set_lock v) w in (negb success, w') in
  (negb (memory_order_relaxed =? 0), w').

(** The loop; [v] is not loaded again by a failed check of [LOCK_BIT]. *)
Fixpoint silo_lock (fuel : nat) (v w : Z) : option Z :=
  match fuel with
  | O => None
  | S fuel =>
      let '(again, w') := silo_lock_iter v w in
      if again then silo_lock fuel v w' else Some w'
  end.

(** [release]. *)
Definition silo_release (w : Z) : option Z := assert! is_locked w;; Some (clear_lock w).

(** The part of [write] on the word. *)
Definition silo_write_word (tid w : Z) : option Z :=
  assert! (clear_lock w <? tid) && is_locked w;; Some (set_lock tid).

Lemma silo_try_lock_spec tid b v w' : 0 <= tid < 2 ^ 63 -> 0 <= v < 2 ^ 64 ->
  silo_try_lock v (enc_lock tid b) = (true, w') -> b = false /\ w' = enc_lock tid true.
Proof.
  intros Ht Hv. unfold silo_try_lock, cas. destruct (is_locked v) eqn:Hl; [done|].
  destruct (_ =? v) eqn:Heq; [|done]. intros [= <-]. b2p. subst v.
  rewrite is_locked_enc in Hl by done. subst b. split; [done|]. by apply set_lock_enc.
Qed.

Lemma silo_write_word_spec tid t' b w : 0 <= tid < 2 ^ 63 -> 0 <= t' < 2 ^ 63 ->
  silo_write_word t' (enc_lock tid b) = Some w <-> tid < t' /\ b = true /\ w = enc_lock t' true.
Proof.
  intros Ht Ht'. unfold silo_write_word. rewrite clear_lock_enc, is_locked_enc by done.
  rewrite c_assert_Some, andb_true_iff, Z.ltb_lt, set_lock_enc by done. naive_solver.
Qed.

Lemma silo_release_spec tid b w : 0 <= tid < 2 ^ 63 ->
  silo_release (enc_lock tid b) = Some w <-> b = true /\ w = enc_lock tid false.
Proof.
  intros Ht. unfold silo_release. rewrite is_locked_enc, clear_lock_enc by done.
  rewrite c_assert_Some. unfold enc_lock. naive_solver.
Qed.

(** ** Transactions *)

(** [g_params] and [BOUNDED_SPINNING]. *)
Record silo_cfg := mkSiloCfg {
  sc_pre_abort : bool;
  sc_no_wait : bool;
  sc_bounded : bool }.

Section silo.
Context {W : Type} (primary_key : nat -> Z) (cfg : silo_cfg).

Record Row_silo := mkRow_silo {
  rs_word : Z;          (* _tid_word *)
  rs_data : list W }.   (* the tuple of _row *)

(** [sa_data] is the local copy, [sa_read] what [access] copied into it. *)
Record sacc := mkSacc {
  sa_type : access_t;
  sa_row : nat;
  sa_data : list W;
  sa_read : list W;
  sa_tid : Z }.

Inductive sphase :=
| SRun
| SLoad (type : access_t) (r : nat)   (* in [access], before the load of [v] *)
| SCopy (type : access_t) (r : nat) (v : Z) (buf : list W)  (* [v] loaded *)
| SPre (i : nat)             (* the pre-abort checks, [i] done *)
| STry (i : nat)             (* [i] locks taken, the next is tried *)
| SCheck (i : nat)           (* [i + 1] locks taken, the tid of the last is compared *)
| SUndo (i n : nat)          (* a try failed: of [n] locks [i] are released *)
| SSpin (num_locks : nat)    (* after that *)
| SSpinPre (i : nat)         (* the pre-abort checks there *)
| SWait (i : nat)            (* [i] locks taken, the next is waited for *)
| SWaitCheck (i : nat)
| SReadVal (i : nat) (max_tid : Z)
| SWriteVal (i : nat) (max_tid : Z)
| SWrite (tid : Z) (i j : nat)   (* writes word [j] of access [i] of the write set *)
| SRelease (tid : Z) (i : nat)
| SAbort (i num_locks : nat)
| SDone (rc : RC).

(** [st_cur] is [_cur_tid]. *)
Record stxn := mkStxn {
  st_cur : Z;
  st_accs : list sacc;
  st_phase : sphase }.

(** [ss_log] is ghost state: the transactions in the order in which they had
    locked their write sets. *)
Record silo_sys := mkSiloSys {
  ss_rows : gmap nat Row_silo;
  ss_txns : gmap nat stxn;
  ss_log : list nat }.

Definition set_sphase (tx : stxn) (p : sphase) : stxn := mkStxn (st_cur tx) (st_accs tx) p.
Definition set_word (w : Z) (row : Row_silo) : Row_silo := mkRow_silo w (rs_data row).

Definition is_wr (a : sacc) : bool := bool_decide (sa_type a = WR).

(** The comparison of the bubble sort, on indices of accesses. *)
Definition key_gt (accs : list sacc) (i j : nat) : bool :=
  match accs !! i, accs !! j with
  | Some a, Some b => primary_key (sa_row b) <? primary_key (sa_row a)
  | _, _ => false
  end.

Definition write_set (accs : list sacc) : list nat :=
  let ws := (rw_sets is_wr 0 accs).1 in
  if sc_bounded cfg then ws else bubble_sort (key_gt accs) (length ws - 1) ws.
Definition read_set (accs : list sacc) : list nat := (rw_sets is_wr 0 accs).2.

Definition wr_cnt (tx : stxn) : nat := length (write_set (st_accs tx)).
Definition rd_cnt (tx : stxn) : nat := length (read_set (st_accs tx)).

(** [accesses[write_set[i]]] and [accesses[read_set[i]]]. *)
Definition wacc (tx : stxn) (i : nat) : option sacc :=
  do! j <- write_set (st_accs tx) !! i;; st_accs tx !! j.
Definition racc (tx : stxn) (i : nat) : option sacc :=
  do! j <- read_set (st_accs tx) !! i;; st_accs tx !! j.

(** The accesses in the order of the pre-abort checks. *)
Definition pacc (tx : stxn) (i : nat) : option sacc :=
  if (i <? wr_cnt tx)%nat then wacc tx i else racc tx (i - wr_cnt tx).

(** [if (tid > max_tid) max_tid = tid]. *)
Definition upd_max (tid max_tid : Z) : Z := if max_tid <? tid then tid else max_tid.

(** The new [_cur_tid]. *)
Definition commit_tid (max_tid cur_tid : Z) : Z :=
  if cur_tid <? max_tid then u64 (max_tid + 1) else u64 (cur_tid + 1).

Definition new_sdata (d : list W) (a : sacc) : sacc :=
  mkSacc (sa_type a) (sa_row a) d (sa_read a) (sa_tid a).

(** Where validation goes to lock the write set. *)
Definition lock_start : sphase := if sc_no_wait cfg then STry 0 else SWait 0.

(** [Row_silo::access]: the word is loaded until it is not locked, the tuple is
    copied, and the word is loaded again. *)
Inductive access_step (rows : gmap nat Row_silo) (tx : stxn) : stxn -> Prop :=
| silo_access ty r :
    st_phase tx = SRun ->
    access_step rows tx (set_sphase tx (SLoad ty r))
| silo_load ty r row :
    st_phase tx = SLoad ty r -> rows !! r = Some row -> is_locked (rs_word row) = false ->
    access_step rows tx (set_sphase tx (SCopy ty r (rs_word row) []))
| silo_copy ty r v buf row x :
    st_phase tx = SCopy ty r v buf -> rows !! r = Some row ->
    rs_data row !! length buf = Some x ->
    access_step rows tx (set_sphase tx (SCopy ty r v (buf ++ [x])))
| silo_copied ty r v buf row :
    st_phase tx = SCopy ty r v buf -> rows !! r = Some row -> length buf = length (rs_data row) ->
    access_step rows tx
      (if rs_word row =? v
       then mkStxn (st_cur tx) (st_accs tx ++ [mkSacc ty r buf buf (clear_lock v)]) SRun
       else set_sphase tx (SLoad ty r)).

(** The steps of a transaction [t] in its phase; the rows change through one
    word or the tuple of one row. *)
Inductive txn_step (t : nat) (rows : gmap nat Row_silo) (tx : stxn)
    : gmap nat Row_silo -> stxn -> Prop :=
(* run_txn: accesses, changes of a local copy, finish *)
| silo_reads tx' : access_step rows tx tx' -> txn_step t rows tx rows tx'
| silo_modify i d :
    st_phase tx = SRun ->
    (forall a, st_accs tx !! i = Some a -> length d = length (sa_data a)) ->
    txn_step t rows tx rows (mkStxn (st_cur tx) (alter (new_sdata d) i (st_accs tx)) SRun)
| silo_start_validation :
    st_phase tx = SRun ->
    txn_step t rows tx rows
      (set_sphase tx (if sc_pre_abort cfg then SPre 0 else lock_start))
(* if (_pre_abort) ... *)
| silo_pre i a row :
    st_phase tx = SPre i -> pacc tx i = Some a -> rows !! sa_row a = Some row ->
    txn_step t rows tx rows
      (set_sphase tx (if negb (silo_get_tid (rs_word row) =? sa_tid a) then SAbort 0 0
                      else SPre (S i)))
| silo_pre_done :
    st_phase tx = SPre (wr_cnt tx + rd_cnt tx) ->
    txn_step t rows tx rows (set_sphase tx lock_start)
(* if (_validation_no_wait) while (!done) ... *)
| silo_try i a row v w' :
    st_phase tx = STry i -> wacc tx i = Some a -> rows !! sa_row a = Some row ->
    is_u64 v -> silo_try_lock v (rs_word row) = (true, w') ->
    txn_step t rows tx (<[sa_row a := set_word w' row]> rows) (set_sphase tx (SCheck i))
| silo_try_fails i a row v w' :
    st_phase tx = STry i -> wacc tx i = Some a -> rows !! sa_row a = Some row ->
    is_u64 v -> silo_try_lock v (rs_word row) = (false, w') ->
    txn_step t rows tx rows (set_sphase tx (SUndo 0 i))
| silo_check i a row :
    st_phase tx = SCheck i -> wacc tx i = Some a -> rows !! sa_row a = Some row ->
    txn_step t rows tx rows
      (set_sphase tx (if negb (silo_get_tid (rs_word row) =? sa_tid a) then SAbort 0 (S i)
                      else STry (S i)))
| silo_undo i n a row w' :
    st_phase tx = SUndo i n -> (i < n)%nat -> wacc tx i = Some a ->
    rows !! sa_row a = Some row -> silo_release (rs_word row) = Some w' ->
    txn_step t rows tx (<[sa_row a := set_word w' row]> rows) (set_sphase tx (SUndo (S i) n))
| silo_undone n :
    st_phase tx = SUndo n n ->
    txn_step t rows tx rows (set_sphase tx (if sc_pre_abort cfg then SSpinPre 0 else SSpin n))
| silo_spin_pre i a row :
    st_phase tx = SSpinPre i -> pacc tx i = Some a -> rows !! sa_row a = Some row ->
    txn_step t rows tx rows
      (set_sphase tx (if negb (silo_get_tid (rs_word row) =? sa_tid a) then SAbort 0 0
                      else SSpinPre (S i)))
| silo_spin_pre_done :
    st_phase tx = SSpinPre (wr_cnt tx + rd_cnt tx) ->
    txn_step t rows tx rows (set_sphase tx (SSpin 0))
| silo_spin n :
    st_phase tx = SSpin n ->
    txn_step t rows tx rows (set_sphase tx (STry 0))
| silo_spin_gives_up n :
    sc_bounded cfg = true -> st_phase tx = SSpin n ->
    txn_step t rows tx rows (set_sphase tx (SAbort 0 n))
(* else: lock(...) *)
| silo_wait i a row fuel v w' :
    st_phase tx = SWait i -> wacc tx i = Some a -> rows !! sa_row a = Some row ->
    is_u64 v -> silo_lock fuel v (rs_word row) = Some w' ->
    txn_step t rows tx (<[sa_row a := set_word w' row]> rows) (set_sphase tx (SWaitCheck i))
| silo_wait_check i a row :
    st_phase tx = SWaitCheck i -> wacc tx i = Some a -> rows !! sa_row a = Some row ->
    txn_step t rows tx rows
      (set_sphase tx (if negb (silo_get_tid (rs_word row) =? sa_tid a) then SAbort 0 (S i)
                      else SWait (S i)))
(* validation of the read set and the write set *)
| silo_read_val i m a row :
    st_phase tx = SReadVal i m -> racc tx i = Some a -> rows !! sa_row a = Some row ->
    txn_step t rows tx rows
      (set_sphase tx (if silo_validate (sa_tid a) false (rs_word row)
                      then SReadVal (S i) (upd_max (sa_tid a) m)
                      else SAbort 0 (wr_cnt tx)))
| silo_reads_ok m :
    st_phase tx = SReadVal (rd_cnt tx) m ->
    txn_step t rows tx rows (set_sphase tx (SWriteVal 0 m))
| silo_write_val i m a row :
    st_phase tx = SWriteVal i m -> wacc tx i = Some a -> rows !! sa_row a = Some row ->
    txn_step t rows tx rows
      (set_sphase tx (if silo_validate (sa_tid a) true (rs_word row)
                      then SWriteVal (S i) (upd_max (sa_tid a) m)
                      else SAbort 0 (wr_cnt tx)))
(* the new tid, for fewer than 2^63 of them *)
| silo_commit m :
    st_phase tx = SWriteVal (wr_cnt tx) m -> commit_tid m (st_cur tx) < 2 ^ 63 ->
    txn_step t rows tx rows
      (mkStxn (commit_tid m (st_cur tx)) (st_accs tx) (SWrite (commit_tid m (st_cur tx)) 0 0))
(* write: the tuple, then the word; release *)
| silo_write_data tid i j a row x :
    st_phase tx = SWrite tid i j -> wacc tx i = Some a -> rows !! sa_row a = Some row ->
    sa_data a !! j = Some x ->
    txn_step t rows tx
      (<[sa_row a := mkRow_silo (rs_word row) (<[j := x]> (rs_data row))]> rows)
      (set_sphase tx (SWrite tid i (S j)))
| silo_write_tid tid i j a row w' :
    st_phase tx = SWrite tid i j -> wacc tx i = Some a -> rows !! sa_row a = Some row ->
    j = length (sa_data a) -> silo_write_word tid (rs_word row) = Some w' ->
    txn_step t rows tx (<[sa_row a := set_word w' row]> rows) (set_sphase tx (SRelease tid i))
| silo_release_row tid i a row w' :
    st_phase tx = SRelease tid i -> wacc tx i = Some a -> rows !! sa_row a = Some row ->
    silo_release (rs_word row) = Some w' ->
    txn_step t rows tx (<[sa_row a := set_word w' row]> rows) (set_sphase tx (SWrite tid (S i) 0))
| silo_committed tid :
    st_phase tx = SWrite tid (wr_cnt tx) 0 ->
    txn_step t rows tx rows (set_sphase tx (SDone RCOK))
| silo_abort_release i n a row w' :
    st_phase tx = SAbort i n -> (i < n)%nat -> wacc tx i = Some a ->
    rows !! sa_row a = Some row -> silo_release (rs_word row) = Some w' ->
    txn_step t rows tx (<[sa_row a := set_word w' row]> rows) (set_sphase tx (SAbort (S i) n))
| silo_aborted n :
    st_phase tx = SAbort n n ->
    txn_step t rows tx rows (set_sphase tx (SDone Abort)).

Inductive silo_step : silo_sys -> silo_sys -> Prop :=
| silo_begin rows txns log t cur :
    txns !! t = None -> 0 <= cur < 2 ^ 63 ->
    silo_step (mkSiloSys rows txns log)
      (mkSiloSys rows (<[t := mkStxn cur [] SRun]> txns) log)
| silo_txn rows txns log t tx rows' tx' :
    txns !! t = Some tx -> txn_step t rows tx rows' tx' ->
    silo_step (mkSiloSys rows txns log) (mkSiloSys rows' (<[t := tx']> txns) log)
(* all of the write set is locked *)
| silo_locked rows txns log t tx :
    txns !! t = Some tx -> st_phase tx = STry (wr_cnt tx) \/ st_phase tx = SWait (wr_cnt tx) ->
    silo_step (mkSiloSys rows txns log)
      (mkSiloSys rows (<[t := set_sphase tx (SReadVal 0 0)]> txns) (log ++ [t])).

Definition silo_init (s : silo_sys) : Prop :=
  ss_txns s = ∅ /\ ss_log s = [] /\ forall r row, ss_rows s !! r = Some row -> rs_word row = 0.

(** *** What a committed transaction read and wrote *)

Definition committed (tx : stxn) : bool :=
  match st_phase tx with SWrite _ _ _ | SRelease _ _ | SDone RCOK => true | _ => false end.

Definition commit_of (tx : stxn) : commit (list W) :=
  mkCommit (st_cur tx)
    (map (fun a => (sa_row a, sa_read a)) (st_accs tx))
    (map (fun a => (sa_row a, sa_data a)) (List.filter is_wr (st_accs tx))).

(** The committed transactions in the order of the log. *)
Definition silo_commits (txns : gmap nat stxn) (log : list nat) : list (commit (list W)) :=
  omap (fun t => do! tx <- txns !! t;; if committed tx then Some (commit_of tx) else None) log.

(** *** Observations of a transaction *)

Definition find_write (accs : list sacc) (r : nat) : option (list W) :=
  do! a <- List.find (fun a => is_wr a && (sa_row a =? r)%nat) accs;; Some (sa_data a).

(** What it has committed to write to [r]. *)
Definition wr (tx : stxn) (r : nat) : option (list W) :=
  if committed tx then find_write (st_accs tx) r else None.

Definition pending (tx : stxn) : bool :=
  match st_phase tx with SReadVal _ _ | SWriteVal _ _ => true | _ => false end.

(** It may commit to write to [r]. *)
Definition pend (tx : stxn) (r : nat) : Prop := pending tx = true /\ find_write (st_accs tx) r <> None.

(** Past the locking of its write set and not aborted. *)
Definition past (tx : stxn) : bool := pending tx || committed tx.

Definition loggable (tx : stxn) : bool :=
  past tx || match st_phase tx with SAbort _ _ | SDone _ => true | _ => false end.

(** The indices of the write set whose rows it has locked, has found with the
    tid it read, and has committed and not written completely. *)
Definition held (tx : stxn) (i : nat) : Prop :=
  match st_phase tx with
  | STry k => (i < k)%nat
  | SCheck k => (i <= k)%nat
  | SUndo a n | SAbort a n => (a <= i < n)%nat
  | SReadVal _ _ | SWriteVal _ _ => (i < wr_cnt tx)%nat
  | SWrite _ k _ | SRelease _ k => (k <= i < wr_cnt tx)%nat
  | _ => False
  end.

Definition checked (tx : stxn) (i : nat) : Prop :=
  match st_phase tx with
  | STry k | SCheck k => (i < k)%nat
  | SReadVal _ _ | SWriteVal _ _ => True
  | SWrite _ k _ => (k <= i)%nat
  | SRelease _ k => (k < i)%nat
  | _ => False
  end.

Definition unapplied (tx : stxn) (i : nat) : Prop :=
  match st_phase tx with
  | SWrite _ k _ => (k <= i)%nat
  | SRelease _ k => (k < i)%nat
  | _ => False
  end.

Definition unapp (tx : stxn) (r : nat) : Prop :=
  exists i a, unapplied tx i /\ wacc tx i = Some a /\ sa_row a = r.

(** The accesses that are known to be valid. *)
Definition validated (tx : stxn) (a : sacc) : Prop :=
  match st_phase tx with
  | SReadVal k _ => (exists i, (i < k)%nat /\ racc tx i = Some a) \/ exists i, wacc tx i = Some a
  | SWriteVal _ _ | SWrite _ _ _ | SRelease _ _ | SDone RCOK => exists i, st_accs tx !! i = Some a
  | _ => False
  end.

Lemma elem_of_write_set accs j :
  j ∈ write_set accs <-> exists a, accs !! j = Some a /\ is_wr a = true.
Proof.
  assert (j ∈ write_set accs <-> j ∈ (rw_sets is_wr 0 accs).1) as ->.
  { unfold write_set. destruct (sc_bounded cfg); [done|]. by rewrite bubble_sort_perm. }
  destruct (elem_of_rw_sets is_wr 0 accs j) as [-> _]. simpl. split.
  - intros (i & a & -> & ? & ?). eauto.
  - intros (a & ? & ?). eauto.
Qed.

Lemma write_set_NoDup accs : NoDup (write_set accs).
Proof.
  assert (write_set accs ≡ₚ (rw_sets is_wr 0 accs).1) as ->.
  { unfold write_set. destruct (sc_bounded cfg); [done|]. by rewrite bubble_sort_perm. }
  apply rw_sets_NoDup.
Qed.

Lemma elem_of_read_set accs j :
  j ∈ read_set accs <-> exists a, accs !! j = Some a /\ is_wr a = false.
Proof.
  destruct (elem_of_rw_sets is_wr 0 accs j) as [_ H]. unfold read_set. rewrite H. simpl. split.
  - intros (i & a & -> & ? & ?). eauto.
  - intros (a & ? & ?). eauto.
Qed.

Lemma wacc_Some tx i a : wacc tx i = Some a ->
  (i < wr_cnt tx)%nat /\ is_wr a = true /\
  exists j, write_set (st_accs tx) !! i = Some j /\ st_accs tx !! j = Some a.
Proof.
  unfold wacc. destruct (write_set (st_accs tx) !! i) as [j|] eqn:Hj; [|done]. intros Ha.
  split; [by eapply lookup_lt_Some|]. split; [|eauto].
  assert (j ∈ write_set (st_accs tx)) as Hin by (apply list_elem_of_lookup; eauto).
  apply elem_of_write_set in Hin as (b & Hb & Hw). congruence.
Qed.

Lemma wacc_lt tx i : (i < wr_cnt tx)%nat -> exists a, wacc tx i = Some a.
Proof.
  intros Hi. destruct (lookup_lt_is_Some_2 _ _ Hi) as [j Hj]. unfold wacc. rewrite Hj.
  assert (j ∈ write_set (st_accs tx)) as Hin by (apply list_elem_of_lookup; eauto).
  apply elem_of_write_set in Hin as (b & Hb & Hw). eauto.
Qed.

Lemma wacc_of_access tx j a : st_accs tx !! j = Some a -> is_wr a = true ->
  exists i, (i < wr_cnt tx)%nat /\ wacc tx i = Some a.
Proof.
  intros Ha Hw. assert (j ∈ write_set (st_accs tx)) as Hin by (apply elem_of_write_set; eauto).
  apply list_elem_of_lookup in Hin as [i Hi]. exists i. split; [by eapply lookup_lt_Some|].
  unfold wacc. by rewrite Hi.
Qed.

Lemma racc_Some tx i a : racc tx i = Some a -> exists j, st_accs tx !! j = Some a.
Proof. unfold racc. destruct (read_set _ !! i); [eauto|done]. Qed.

Lemma racc_of_access tx j a : st_accs tx !! j = Some a -> is_wr a = false ->
  exists i, (i < rd_cnt tx)%nat /\ racc tx i = Some a.
Proof.
  intros Ha Hw. assert (j ∈ read_set (st_accs tx)) as Hin by (apply elem_of_read_set; eauto).
  apply list_elem_of_lookup in Hin as [i Hi]. exists i. split; [by eapply lookup_lt_Some|].
  unfold racc. by rewrite Hi.
Qed.

(** No row is twice in the write set. *)
Definition writes_distinct (tx : stxn) : Prop := forall i j a b,
  wacc tx i = Some a -> wacc tx j = Some b -> sa_row a = sa_row b -> i = j.

Lemma find_write_Some accs r d : find_write accs r = Some d ->
  exists j a, accs !! j = Some a /\ is_wr a = true /\ sa_row a = r /\ sa_data a = d.
Proof.
  unfold find_write. destruct (List.find _ _) as [a|] eqn:Hf; [|done]. intros [= <-].
  apply find_some in Hf as [Hin%list_elem_of_In Hb]. apply andb_true_iff in Hb as [Hw Hr].
  apply list_elem_of_lookup in Hin as [j Hj]. apply Nat.eqb_eq in Hr. eauto 10.
Qed.

Lemma find_write_wacc tx i a : writes_distinct tx -> wacc tx i = Some a ->
  find_write (st_accs tx) (sa_row a) = Some (sa_data a).
Proof.
  intros Hd Ha. destruct (wacc_Some _ _ _ Ha) as (_ & Hw & j & Hj & Haj).
  destruct (find_write (st_accs tx) (sa_row a)) as [d|] eqn:Hf.
  - apply find_write_Some in Hf as (j' & b & Hb & Hwb & Hr & <-).
    destruct (wacc_of_access _ _ _ Hb Hwb) as (i' & _ & Hi').
    assert (i' = i) as -> by by eapply (Hd i' i b a). congruence.
  - unfold find_write in Hf. destruct (List.find _ _) eqn:Hfi; [done|].
    eapply (List.find_none _ _) in Hfi; [|by apply list_elem_of_In, list_elem_of_lookup; eauto].
    rewrite Hw, Nat.eqb_refl in Hfi. done.
Qed.

Lemma find_write_row tx r : find_write (st_accs tx) r <> None ->
  exists i a, (i < wr_cnt tx)%nat /\ wacc tx i = Some a /\ sa_row a = r.
Proof.
  destruct (find_write _ r) as [d|] eqn:Hf; [|done]. intros _.
  apply find_write_Some in Hf as (j & a & Ha & Hw & Hr & _).
  destruct (wacc_of_access _ _ _ Ha Hw) as (i & ? & ?). eauto.
Qed.

(** *** The value of a row after the committed transactions of a log *)

Definition wr_of (txns : gmap nat stxn) (t r : nat) : option (list W) :=
  do! tx <- txns !! t;; wr tx r.

Definition val (db0 : gmap nat (list W)) (txns : gmap nat stxn) (log : list nat) (r : nat)
    : option (list W) :=
  fold_left (fun cur t => match wr_of txns t r with Some d => Some d | None => cur end)
    log (db0 !! r).

Lemma val_ext db0 txns txns' log r :
  (forall t, t ∈ log -> wr_of txns' t r = wr_of txns t r) -> val db0 txns' log r = val db0 txns log r.
Proof.
  unfold val. generalize (db0 !! r). induction log as [|t log IH]; intros o Hall; simpl; [done|].
  rewrite (Hall t) by left. apply IH. intros t' Ht'. apply Hall. by right.
Qed.

Lemma val_app db0 txns l1 l2 r : (forall t, t ∈ l2 -> wr_of txns t r = None) ->
  val db0 txns (l1 ++ l2) r = val db0 txns l1 r.
Proof.
  unfold val. rewrite fold_left_app. generalize (fold_left (fun cur t =>
    match wr_of txns t r with Some d => Some d | None => cur end) l1 (db0 !! r)).
  induction l2 as [|t l2 IH]; intros o Hall; simpl; [done|].
  rewrite (Hall t) by left. apply IH. intros t' Ht'. apply Hall. by right.
Qed.

Lemma val_snoc db0 txns l t r d : wr_of txns t r = Some d -> val db0 txns (l ++ [t]) r = Some d.
Proof. intros Ht. unfold val. rewrite fold_left_app. simpl. by rewrite Ht. Qed.

(** The last writer. *)
Lemma val_last db0 txns log p t r d : log !! p = Some t -> wr_of txns t r = Some d ->
  (forall q t', (p < q)%nat -> log !! q = Some t' -> wr_of txns t' r = None) ->
  val db0 txns log r = Some d.
Proof.
  intros Hp Ht Hafter. rewrite <- (take_drop (S p) log), val_app.
  - rewrite (take_S_r log p t Hp). by apply val_snoc.
  - intros t' Hin. apply list_elem_of_lookup in Hin as [q Hq]. rewrite lookup_drop in Hq.
    eapply Hafter; [|exact Hq]. lia.
Qed.

(** *** The invariant *)

Section invariant.
Context (len : nat -> nat) (db0 : gmap nat (list W)).

(** The lock bit and the tid of a row. *)
Definition rlock (row : Row_silo) : bool := is_locked (rs_word row).
Definition rtid (row : Row_silo) : Z := clear_lock (rs_word row).

Definition row_ok (r : nat) (row : Row_silo) : Prop :=
  is_u64 (rs_word row) /\ length (rs_data row) = len r.

Definition phase_ok (tx : stxn) : Prop :=
  match st_phase tx with
  | STry k => (k <= wr_cnt tx)%nat
  | SCheck k => (k < wr_cnt tx)%nat
  | SUndo a n | SAbort a n => (a <= n <= wr_cnt tx)%nat
  | SSpin n => n = 0%nat \/ sc_bounded cfg = false
  | SWait _ | SWaitCheck _ => False
  | SReadVal k m => 0 <= m < 2 ^ 63
  | SWriteVal k m => 0 <= m < 2 ^ 63 /\
      forall i a, (i < k)%nat -> wacc tx i = Some a -> sa_tid a <= m
  | SWrite tid k _ => 0 <= tid < 2 ^ 63 /\ (k <= wr_cnt tx)%nat /\
      forall i a, (k <= i)%nat -> wacc tx i = Some a -> sa_tid a < tid
  | SRelease tid k => 0 <= tid < 2 ^ 63 /\ (k < wr_cnt tx)%nat /\
      forall i a, (k < i)%nat -> wacc tx i = Some a -> sa_tid a < tid
  | _ => True
  end.

(** [U r]: some committed transaction has not completely written [r]. *)
Record tok (rows : gmap nat Row_silo) (U : nat -> Prop) (tx : stxn) : Prop := mkTok {
  tk_cur : 0 <= st_cur tx < 2 ^ 63;
  tk_acc : forall i a, st_accs tx !! i = Some a -> exists row, rows !! sa_row a = Some row /\
    0 <= sa_tid a <= rtid row /\ length (sa_data a) = len (sa_row a) /\
    (rtid row = sa_tid a -> ~ U (sa_row a) -> rs_data row = sa_read a);
  tk_copy : forall ty r v buf, st_phase tx = SCopy ty r v buf -> 0 <= v < 2 ^ 63 /\
    exists row, rows !! r = Some row /\ v <= rtid row /\
    (rtid row = v -> ~ U r -> buf = take (length buf) (rs_data row));
  tk_checked : forall i a, checked tx i -> wacc tx i = Some a ->
    exists row, rows !! sa_row a = Some row /\ rtid row = sa_tid a;
  tk_phase : phase_ok tx;
  tk_data : forall tid k j a, st_phase tx = SWrite tid k j -> wacc tx k = Some a ->
    exists row, rows !! sa_row a = Some row /\ take j (rs_data row) = take j (sa_data a);
  tk_distinct : past tx = true -> writes_distinct tx }.

Definition U_of (txns : gmap nat stxn) (r : nat) : Prop :=
  exists t tx, txns !! t = Some tx /\ unapp tx r.

Definition holds (txns : gmap nat stxn) (t i r : nat) : Prop :=
  exists tx a, txns !! t = Some tx /\ held tx i /\ wacc tx i = Some a /\ sa_row a = r.

(** The lock bits are those of the holders, and a row has one. *)
Record locks_ok (rows : gmap nat Row_silo) (H : nat -> nat -> nat -> Prop) : Prop := mkLocksOk {
  lk_bit : forall r row, rows !! r = Some row ->
    (rlock row = true <-> exists t i, H t i r);
  lk_excl : forall t t' i j r, H t i r -> H t' j r -> t = t' /\ i = j }.

(** What the log says about the entry [t] at [p]. *)
Definition reads_ok (txns : gmap nat stxn) (log : list nat) (p : nat) (a : sacc) : Prop :=
  val db0 txns (take p log) (sa_row a) = Some (sa_read a) /\
  forall q t' tx', (q < p)%nat -> log !! q = Some t' -> txns !! t' = Some tx' ->
    ~ pend tx' (sa_row a).

Record log_ok (rows : gmap nat Row_silo) (txns : gmap nat stxn) (log : list nat) : Prop := mkLogOk {
  lg_nodup : NoDup log;
  lg_in : forall t, t ∈ log -> exists tx, txns !! t = Some tx /\ loggable tx = true;
  lg_past : forall t tx, txns !! t = Some tx -> past tx = true -> t ∈ log;
  lg_read : forall p t tx a, log !! p = Some t -> txns !! t = Some tx -> validated tx a ->
    reads_ok txns log p a;
  lg_after : forall p q t tx t' tx' r, (p < q)%nat -> log !! p = Some t -> log !! q = Some t' ->
    txns !! t = Some tx -> txns !! t' = Some tx' -> pend tx r \/ unapp tx r -> wr tx' r = None;
  lg_tid : forall p q t tx t' tx' i a row, (p < q)%nat -> log !! p = Some t ->
    log !! q = Some t' -> txns !! t = Some tx -> txns !! t' = Some tx' ->
    pending tx = true -> st_accs tx !! i = Some a -> rows !! sa_row a = Some row ->
    rtid row = sa_tid a -> wr tx' (sa_row a) <> None -> unapp tx' (sa_row a);
  lg_content : forall r row, rows !! r = Some row ->
    (forall t tx, txns !! t = Some tx -> unapp tx r -> val db0 txns log r = wr tx r) /\
    (~ U_of txns r -> val db0 txns log r = Some (rs_data row)) }.

Record sinv (s : silo_sys) : Prop := mkSinv {
  si_rows : forall r row, ss_rows s !! r = Some row -> row_ok r row;
  si_txn : forall t tx, ss_txns s !! t = Some tx -> tok (ss_rows s) (U_of (ss_txns s)) tx;
  si_locks : locks_ok (ss_rows s) (holds (ss_txns s));
  si_log : log_ok (ss_rows s) (ss_txns s) (ss_log s) }.

(** *** Steps that change lock bits only *)

Definition same_rows (rows rows' : gmap nat Row_silo) : Prop := forall r,
  match rows !! r, rows' !! r with
  | None, None => True
  | Some a, Some b => rs_data b = rs_data a /\ rtid b = rtid a /\ is_u64 (rs_word b)
  | _, _ => False
  end.

Lemma same_rows_refl rows : (forall r row, rows !! r = Some row -> row_ok r row) -> same_rows rows rows.
Proof. intros H r. destruct (rows !! r) eqn:Hr; [|done]. split_and!; [done..|by apply (H r)]. Qed.

Lemma same_rows_fw rows rows' r row : same_rows rows rows' -> rows !! r = Some row ->
  exists row', rows' !! r = Some row' /\ rs_data row' = rs_data row /\ rtid row' = rtid row.
Proof.
  intros Hs Hr. specialize (Hs r). rewrite Hr in Hs. destruct (rows' !! r); [|done].
  destruct Hs as (? & ? & _). eauto.
Qed.

Lemma same_rows_bw rows rows' r row' : same_rows rows rows' -> rows' !! r = Some row' ->
  exists row, rows !! r = Some row /\ rs_data row' = rs_data row /\ rtid row' = rtid row /\
    is_u64 (rs_word row').
Proof.
  intros Hs Hr. specialize (Hs r). rewrite Hr in Hs. destruct (rows !! r); [|done].
  destruct Hs as (? & ? & ?). eauto.
Qed.

Lemma tok_same rows rows' (U U' : nat -> Prop) tx : same_rows rows rows' ->
  (forall r, U r -> U' r) -> tok rows U tx -> tok rows' U' tx.
Proof.
  intros Hs HU [Hcur Hacc Hcopy Hch Hph Hdat Hdis]. constructor; try done.
  - intros i a Ha. destruct (Hacc i a Ha) as (row & Hr & ? & ? & Hd).
    destruct (same_rows_fw _ _ _ _ Hs Hr) as (row' & Hr' & Hd' & Ht'). exists row'.
    rewrite Hd', Ht'. auto 10.
  - intros ty r v buf Hp. destruct (Hcopy ty r v buf Hp) as (? & row & Hr & ? & Hd).
    split; [done|]. destruct (same_rows_fw _ _ _ _ Hs Hr) as (row' & Hr' & Hd' & Ht').
    exists row'. rewrite Hd', Ht'. auto 10.
  - intros i a Hc Ha. destruct (Hch i a Hc Ha) as (row & Hr & ?).
    destruct (same_rows_fw _ _ _ _ Hs Hr) as (row' & Hr' & Hd' & Ht'). exists row'.
    by rewrite Ht'.
  - intros tid k j a Hp Ha. destruct (Hdat tid k j a Hp Ha) as (row & Hr & ?).
    destruct (same_rows_fw _ _ _ _ Hs Hr) as (row' & Hr' & Hd' & Ht'). exists row'.
    by rewrite Hd'.
Qed.

(** The step of a transaction that commits nothing, finishes no write and
    keeps what it may commit. *)
Record quiet (txns : gmap nat stxn) (t : nat) (tx' : stxn) : Prop := mkQuiet {
  qu_wr : forall r, wr tx' r = wr_of txns t r;
  qu_unapp : forall r, unapp tx' r <-> exists tx, txns !! t = Some tx /\ unapp tx r;
  qu_pend : pending tx' = true ->
    exists tx, txns !! t = Some tx /\ pending tx = true /\ st_accs tx = st_accs tx' }.

Section quiet.
Context (rows rows' : gmap nat Row_silo) (txns : gmap nat stxn) (log : list nat).
Context (t : nat) (tx' : stxn).
Context (Hq : quiet txns t tx').

Lemma quiet_wr_of t2 r : wr_of (<[t := tx']> txns) t2 r = wr_of txns t2 r.
Proof using Hq len db0.
  unfold wr_of at 1. destruct (decide (t2 = t)) as [->|Hne].
  - rewrite lookup_insert_eq. apply (qu_wr _ _ _ Hq).
  - by rewrite lookup_insert_ne.
Qed.

Lemma quiet_val l r : val db0 (<[t := tx']> txns) l r = val db0 txns l r.
Proof using Hq len db0. apply val_ext. intros t2 _. apply quiet_wr_of. Qed.

Lemma quiet_U r : U_of (<[t := tx']> txns) r <-> U_of txns r.
Proof using Hq len db0.
  split.
  - intros (t2 & tx2 & [[<- <-]|[Hne H2]]%lookup_insert_Some & Hu).
    + apply (qu_unapp _ _ _ Hq) in Hu as (tx & ? & ?). by exists t, tx.
    + by exists t2, tx2.
  - intros (t2 & tx2 & H2 & Hu). destruct (decide (t2 = t)) as [->|Hne].
    + exists t, tx'. rewrite lookup_insert_eq. split; [done|]. apply (qu_unapp _ _ _ Hq). eauto.
    + exists t2, tx2. by rewrite lookup_insert_ne.
Qed.

(** The same transaction before the step. *)
Lemma quiet_back t2 tx2 : <[t := tx']> txns !! t2 = Some tx2 ->
  (forall r, wr tx2 r <> None -> exists tx, txns !! t2 = Some tx) /\
  (pending tx2 = true -> exists tx, txns !! t2 = Some tx /\ pending tx = true /\
     st_accs tx = st_accs tx2) /\
  (forall tx, txns !! t2 = Some tx -> (forall r, wr tx2 r = wr tx r) /\
     (forall r, unapp tx2 r <-> unapp tx r)) /\
  (forall r, unapp tx2 r -> exists tx, txns !! t2 = Some tx /\ unapp tx r).
Proof using Hq len db0.
  intros [[<- <-]|[Hne H2]]%lookup_insert_Some; [|naive_solver].
  destruct Hq as [Hw Hu Hp]. split_and!.
  - intros r. rewrite Hw. unfold wr_of. destruct (txns !! t); [eauto|done].
  - done.
  - intros tx Ht. split; intros r; [rewrite Hw; unfold wr_of; by rewrite Ht|].
    rewrite Hu. naive_solver.
  - intros r. apply Hu.
Qed.

Lemma quiet_log : log_ok rows txns log -> same_rows rows rows' ->
  (t ∈ log -> loggable tx' = true) -> (past tx' = true -> t ∈ log) ->
  (forall p a, log !! p = Some t -> validated tx' a -> reads_ok txns log p a) ->
  log_ok rows' (<[t := tx']> txns) log.
Proof using Hq len db0.
  intros [Hnd Hin Hpast Hread Hafter Htid Hcont] Hs Hlo Hpa Hva.
  assert (forall p a, reads_ok txns log p a -> reads_ok (<[t := tx']> txns) log p a) as Hro.
  { intros p a [Hv Hnp]. split; [by rewrite quiet_val|]. intros q t2 tx2 Hlt Hq2 H2 [Hp Hf].
    destruct (quiet_back _ _ H2) as (_ & Hb & _). destruct (Hb Hp) as (tx & H3 & Hp3 & He).
    apply (Hnp q t2 tx Hlt Hq2 H3). split; [done|]. by rewrite He. }
  constructor; try done.
  - intros t2 H2. destruct (decide (t2 = t)) as [->|Hne].
    + rewrite lookup_insert_eq. eauto.
    + rewrite lookup_insert_ne by done. auto.
  - intros t2 tx2 [[<- <-]|[Hne H2]]%lookup_insert_Some; eauto.
  - intros p t2 tx2 a Hp [[<- <-]|[Hne H2]]%lookup_insert_Some Hvd; eauto.
  - intros p q t1 tx1 t2 tx2 r Hlt Hp Hq2 H1 H2 Hor.
    destruct (wr tx2 r) as [d|] eqn:Hw; [exfalso|done].
    destruct (quiet_back _ _ H2) as (Hb1 & _ & Hb3 & _).
    destruct (Hb1 r) as [tx4 H4]; [congruence|]. destruct (Hb3 _ H4) as [Hb3' _].
    destruct (quiet_back _ _ H1) as (_ & Hc2 & _ & Hc4).
    rewrite Hb3' in Hw. destruct Hor as [[Hpe Hf]|Hu].
    + destruct (Hc2 Hpe) as (tx3 & H3 & Hp3 & He).
      rewrite (Hafter p q t1 tx3 t2 tx4 r Hlt Hp Hq2 H3 H4) in Hw; [done|].
      left. split; [done|]. by rewrite He.
    + destruct (Hc4 r Hu) as (tx3 & H3 & Hu3).
      rewrite (Hafter p q t1 tx3 t2 tx4 r Hlt Hp Hq2 H3 H4) in Hw; [done|by right].
  - intros p q t1 tx1 t2 tx2 i a row' Hlt Hp Hq2 H1 H2 Hpe Ha Hr' Ht Hw.
    destruct (same_rows_bw _ _ _ _ Hs Hr') as (row & Hr & _ & Ht' & _).
    destruct (quiet_back _ _ H2) as (Hb1 & _ & Hb3 & _).
    destruct (Hb1 _ Hw) as [tx4 H4]. destruct (Hb3 _ H4) as [Hb3' Hb3''].
    destruct (quiet_back _ _ H1) as (_ & Hc2 & _ & _).
    destruct (Hc2 Hpe) as (tx3 & H3 & Hp3 & He). apply Hb3''.
    eapply (Htid p q t1 tx3 t2 tx4 i a row); try done; [by rewrite He|congruence|by rewrite <- Hb3'].
  - intros r row' Hr'. destruct (same_rows_bw _ _ _ _ Hs Hr') as (row & Hr & Hd & _ & _).
    destruct (Hcont r row Hr) as [Hc1 Hc2]. rewrite quiet_val, quiet_U, Hd. split; [|done].
    intros t2 tx2 H2 Hu. destruct (quiet_back _ _ H2) as (_ & _ & Hb3 & Hb4).
    destruct (Hb4 r Hu) as (tx3 & H3 & Hu3). destruct (Hb3 _ H3) as [-> _]. by apply (Hc1 t2).
Qed.

Lemma inv_quiet : sinv (mkSiloSys rows txns log) -> same_rows rows rows' ->
  tok rows' (U_of txns) tx' -> locks_ok rows' (holds (<[t := tx']> txns)) ->
  (t ∈ log -> loggable tx' = true) -> (past tx' = true -> t ∈ log) ->
  (forall p a, log !! p = Some t -> validated tx' a -> reads_ok txns log p a) ->
  sinv (mkSiloSys rows' (<[t := tx']> txns) log).
Proof using Hq len db0.
  intros [Hrows Htxn Hlk Hlog] Hs Htok Hlk' Hlo Hpa Hva. simpl in *. constructor; simpl.
  - intros r row' Hr'. destruct (same_rows_bw _ _ _ _ Hs Hr') as (row & Hr & Hd & _ & Hw).
    split; [done|]. rewrite Hd. by apply (Hrows r).
  - intros t2 tx2 [[<- <-]|[Hne H2]]%lookup_insert_Some.
    + eapply tok_same; [apply same_rows_refl|intros r; apply quiet_U|done].
      intros r row' Hr'. destruct (same_rows_bw _ _ _ _ Hs Hr') as (row & Hr & Hd & _ & Hw).
      split; [done|]. rewrite Hd. by apply (Hrows r).
    + eapply tok_same; [exact Hs|intros r; apply quiet_U|by eapply Htxn].
  - done.
  - by apply quiet_log.
Qed.
End quiet.

Lemma inert_wr tx r : committed tx = false -> wr tx r = None.
Proof. unfold wr. by intros ->. Qed.

Lemma inert_unapp tx r : committed tx = false -> ~ unapp tx r.
Proof.
  unfold committed, unapp, unapplied. intros Hc (i & a & Hu & _). by destruct (st_phase tx).
Qed.

Lemma inert_validated tx a : past tx = false -> ~ validated tx a.
Proof.
  unfold past, pending, committed, validated. intros Hp Hv.
  destruct (st_phase tx) as [| | | | | | | | | | | | | | | |[]]; done.
Qed.

Lemma past_false tx : past tx = false <-> pending tx = false /\ committed tx = false.
Proof. unfold past. apply orb_false_iff. Qed.

(** A step that ends in no or an aborted validation. *)
Lemma inv_to_inert rows rows' txns log t tx tx' :
  sinv (mkSiloSys rows txns log) -> txns !! t = Some tx ->
  committed tx = false -> past tx' = false -> (loggable tx = true -> loggable tx' = true) ->
  same_rows rows rows' -> tok rows' (U_of txns) tx' ->
  locks_ok rows' (holds (<[t := tx']> txns)) ->
  sinv (mkSiloSys rows' (<[t := tx']> txns) log).
Proof.
  intros Hinv Ht Hc Hp' Hlo Hs Htok Hlk. pose proof Hp' as [Hpe' Hc']%past_false.
  eapply inv_quiet; try done.
  - constructor.
    + intros r. unfold wr_of. rewrite Ht. by rewrite !inert_wr.
    + intros r. split; [by intros ?%inert_unapp|]. intros (tx0 & Ht0 & Hu). simplify_eq.
      by apply inert_unapp in Hu.
    + by rewrite Hpe'.
  - intros Hin. apply Hlo. destruct (lg_in _ _ _ (si_log _ Hinv) t Hin) as (tx0 & Ht0 & ?).
    simpl in Ht0. by simplify_eq.
  - by rewrite Hp'.
  - intros p a _ Hv. by apply inert_validated in Hv.
Qed.

(** A step within validation, or past the decision. *)
Lemma inv_in_past rows rows' txns log t tx tx' :
  sinv (mkSiloSys rows txns log) -> txns !! t = Some tx -> past tx = true ->
  pending tx' = pending tx -> committed tx' = committed tx -> st_accs tx' = st_accs tx ->
  (forall r, unapp tx' r <-> unapp tx r) ->
  (forall p a, log !! p = Some t -> validated tx' a -> validated tx a \/ reads_ok txns log p a) ->
  same_rows rows rows' -> tok rows' (U_of txns) tx' ->
  locks_ok rows' (holds (<[t := tx']> txns)) ->
  sinv (mkSiloSys rows' (<[t := tx']> txns) log).
Proof.
  intros Hinv Ht Hp Hpe Hc Hac Hu Hv Hs Htok Hlk.
  assert (past tx' = true) as Hp' by (unfold past in *; by rewrite Hpe, Hc).
  pose proof (si_log _ Hinv) as Hlog. simpl in Hlog.
  eapply inv_quiet; try done.
  - constructor.
    + intros r. unfold wr_of. rewrite Ht. unfold wr. by rewrite Hc, Hac.
    + intros r. rewrite Hu. naive_solver.
    + intros Hpp. exists tx. split_and!; [done|congruence|done].
  - intros _. unfold loggable. by rewrite Hp'.
  - intros _. by eapply (lg_past _ _ _ Hlog).
  - intros p a Hlp Hva. destruct (Hv p a Hlp Hva); [|done]. by eapply (lg_read _ _ _ Hlog).
Qed.

(** *** The locks *)

Lemma holds_other txns t tx' t2 i r : t2 <> t ->
  holds (<[t := tx']> txns) t2 i r <-> holds txns t2 i r.
Proof. intros Hne. unfold holds. by rewrite lookup_insert_ne. Qed.

Lemma holds_own txns t tx' i r : holds (<[t := tx']> txns) t i r <->
  exists a, held tx' i /\ wacc tx' i = Some a /\ sa_row a = r.
Proof. unfold holds. rewrite lookup_insert_eq. naive_solver. Qed.

Lemma holds_tx txns t tx i r : txns !! t = Some tx ->
  holds txns t i r <-> exists a, held tx i /\ wacc tx i = Some a /\ sa_row a = r.
Proof. unfold holds. naive_solver. Qed.

Lemma locks_equiv rows H H' : (forall t i r, H' t i r <-> H t i r) -> locks_ok rows H -> locks_ok rows H'.
Proof.
  intros He [Hb Hx]. constructor.
  - intros r row Hr. rewrite (Hb r row Hr). setoid_rewrite He. done.
  - intros t t' i j r. rewrite !He. apply Hx.
Qed.

(** The transaction holds the same locks. *)
Lemma locks_keep rows txns t tx tx' : locks_ok rows (holds txns) -> txns !! t = Some tx ->
  (forall i, held tx' i <-> held tx i) -> st_accs tx' = st_accs tx ->
  locks_ok rows (holds (<[t := tx']> txns)).
Proof.
  intros Hlk Ht Hh Ha. eapply locks_equiv; [|exact Hlk]. intros t2 i r.
  destruct (decide (t2 = t)) as [->|Hne]; [|by apply holds_other].
  rewrite holds_own, (holds_tx _ _ _ _ _ Ht). unfold wacc. rewrite Ha. by setoid_rewrite Hh.
Qed.

Lemma locks_none rows txns t tx tx' : locks_ok rows (holds txns) -> txns !! t = Some tx ->
  (forall i, ~ held tx' i) -> (forall i, ~ held tx i) -> locks_ok rows (holds (<[t := tx']> txns)).
Proof.
  intros Hlk Ht Hh' Hh. eapply locks_equiv; [|exact Hlk]. intros t2 i r.
  destruct (decide (t2 = t)) as [->|Hne]; [|by apply holds_other].
  rewrite holds_own, (holds_tx _ _ _ _ _ Ht). naive_solver.
Qed.

(** It takes the lock of a row. *)
Lemma locks_add rows txns t tx tx' k a row row' : locks_ok rows (holds txns) ->
  txns !! t = Some tx -> st_accs tx' = st_accs tx -> wacc tx k = Some a ->
  rows !! sa_row a = Some row -> rlock row = false -> rlock row' = true ->
  (forall i, held tx' i <-> held tx i \/ i = k) ->
  locks_ok (<[sa_row a := row']> rows) (holds (<[t := tx']> txns)).
Proof.
  intros [Hb Hx] Ht Hac Ha Hr Hl Hl' Hh.
  assert (forall t2 i r, holds (<[t := tx']> txns) t2 i r <->
    holds txns t2 i r \/ (t2 = t /\ i = k /\ r = sa_row a)) as He.
  { intros t2 i r. destruct (decide (t2 = t)) as [->|Hne].
    - rewrite holds_own, (holds_tx _ _ _ _ _ Ht). setoid_rewrite Hh.
      unfold wacc in *. rewrite Hac. naive_solver.
    - rewrite holds_other by done. naive_solver. }
  assert (forall t2 i, ~ holds txns t2 i (sa_row a)) as Hfree.
  { intros t2 i Hh2. assert (rlock row = true); [apply (Hb _ _ Hr); eauto|congruence]. }
  constructor.
  - intros r row2. rewrite lookup_insert_Some. setoid_rewrite He. intros [[<- <-]|[Hne H2]].
    + rewrite Hl'. split; [|done]. intros _. exists t, k. auto.
    + rewrite (Hb r row2 H2). naive_solver.
  - intros t1 t2 i j r. rewrite !He. intros [H1|(-> & -> & ->)] [H2|(-> & -> & H2)]; try done.
    + by eapply Hx.
    + subst r. by destruct (Hfree _ _ H1).
    + by destruct (Hfree _ _ H2).
Qed.

(** It gives up the lock of a row. *)
Lemma locks_del rows txns t tx tx' k a row' : locks_ok rows (holds txns) ->
  txns !! t = Some tx -> st_accs tx' = st_accs tx -> wacc tx k = Some a -> held tx k ->
  rlock row' = false -> (forall i, held tx' i <-> held tx i /\ i <> k) ->
  locks_ok (<[sa_row a := row']> rows) (holds (<[t := tx']> txns)).
Proof.
  intros [Hb Hx] Ht Hac Ha Hk Hl' Hh.
  assert (holds txns t k (sa_row a)) as Hold by (apply (holds_tx _ _ _ _ _ Ht); eauto).
  assert (forall t2 i r, holds (<[t := tx']> txns) t2 i r <->
    holds txns t2 i r /\ ~ (t2 = t /\ i = k)) as He.
  { intros t2 i r. destruct (decide (t2 = t)) as [->|Hne].
    - rewrite holds_own, (holds_tx _ _ _ _ _ Ht). setoid_rewrite Hh.
      unfold wacc in *. rewrite Hac. naive_solver.
    - rewrite holds_other by done. naive_solver. }
  constructor.
  - intros r row2. rewrite lookup_insert_Some. setoid_rewrite He. intros [[<- <-]|[Hne H2]].
    + rewrite Hl'. split; [done|]. intros (t2 & i & H2 & Hn).
      destruct (Hx _ _ _ _ _ H2 Hold) as [-> ->]. tauto.
    + rewrite (Hb r row2 H2). split; [|naive_solver]. intros (t2 & i & Hh2). exists t2, i.
      split; [done|]. intros [-> ->]. apply Hne.
      apply (holds_tx _ _ _ _ _ Ht) in Hh2 as (b & _ & Hb2 & <-). congruence.
  - intros t1 t2 i j r. rewrite !He. intros [H1 _] [H2 _]. by eapply Hx.
Qed.

(** Only the lock bit changes. *)
Lemma same_rows_word rows r row w : rows !! r = Some row ->
  (forall r row, rows !! r = Some row -> row_ok r row) ->
  clear_lock w = rtid row -> is_u64 w -> same_rows rows (<[r := set_word w row]> rows).
Proof.
  intros Hr Hok Ht Hw r2. destruct (decide (r2 = r)) as [->|Hne].
  - rewrite Hr, lookup_insert_eq. done.
  - rewrite lookup_insert_ne by done. by apply same_rows_refl.
Qed.

(** *** The steps before and after validation *)

Lemma tok_phase_step rows U tx p : tok rows U tx ->
  (forall ty r v buf, p <> SCopy ty r v buf) -> (forall tid k j, p <> SWrite tid k j) ->
  (forall i a, checked (set_sphase tx p) i -> wacc tx i = Some a ->
     checked tx i \/ exists row, rows !! sa_row a = Some row /\ rtid row = sa_tid a) ->
  phase_ok (set_sphase tx p) -> (past (set_sphase tx p) = true -> writes_distinct tx) ->
  tok rows U (set_sphase tx p).
Proof.
  intros [Hcur Hacc Hcopy Hch Hph Hdat Hdis] Hnc Hnw Hc Hpok Hd. constructor; try done.
  - intros ty r v buf Hp. by destruct (Hnc ty r v buf).
  - intros i a Hci Ha. destruct (Hc i a Hci Ha); eauto.
  - intros tid k j a Hp. by destruct (Hnw tid k j).
Qed.

Section steps.
Context (Hgood : sc_pre_abort cfg = true \/ sc_bounded cfg = false).
Context (Hnowait : sc_no_wait cfg = true).
Context (rows : gmap nat Row_silo) (txns : gmap nat stxn) (log : list nat) (t : nat) (tx : stxn).
Context (Hinv : sinv (mkSiloSys rows txns log)) (Ht : txns !! t = Some tx).

Lemma own_tok : tok rows (U_of txns) tx.
Proof using Hgood Hnowait Hinv Ht. apply (si_txn _ Hinv t tx Ht). Qed.

Lemma all_rows_ok : forall r row, rows !! r = Some row -> row_ok r row.
Proof using Hgood Hnowait Hinv Ht. apply (si_rows _ Hinv). Qed.

Lemma all_locks : locks_ok rows (holds txns).
Proof using Hgood Hnowait Hinv Ht. apply (si_locks _ Hinv). Qed.

(** A new phase without new locks, checks or copies. *)
Lemma inv_new_phase p : committed tx = false -> past (set_sphase tx p) = false ->
  (loggable tx = true -> loggable (set_sphase tx p) = true) ->
  (forall i, held (set_sphase tx p) i <-> held tx i) ->
  (forall ty r v buf, p <> SCopy ty r v buf) -> (forall tid k j, p <> SWrite tid k j) ->
  (forall i a, checked (set_sphase tx p) i -> wacc tx i = Some a ->
     checked tx i \/ exists row, rows !! sa_row a = Some row /\ rtid row = sa_tid a) ->
  phase_ok (set_sphase tx p) ->
  sinv (mkSiloSys rows (<[t := set_sphase tx p]> txns) log).
Proof using Hgood Hnowait Hinv Ht.
  intros Hc Hp Hlo Hh Hnc Hnw Hch Hpok.
  eapply inv_to_inert; [exact Hinv|exact Ht|done..|apply same_rows_refl, all_rows_ok| |].
  - apply tok_phase_step; try done; [apply own_tok|]. by rewrite Hp.
  - eapply locks_keep; [apply all_locks|exact Ht|done|done].
Qed.

Lemma inv_load ty r row : st_phase tx = SLoad ty r -> rows !! r = Some row ->
  is_locked (rs_word row) = false ->
  sinv (mkSiloSys rows (<[t := set_sphase tx (SCopy ty r (rs_word row) [])]> txns) log).
Proof using Hgood Hnowait Hinv Ht.
  intros Hph Hr Hl. destruct (all_rows_ok _ _ Hr) as [Hw _].
  pose proof own_tok as [Hcur Hacc _ _ _ _ _].
  assert (rtid row = rs_word row /\ 0 <= rs_word row < 2 ^ 63) as [Htid Hrange].
  { unfold rtid. rewrite clear_lock_mod. rewrite is_locked_lt in Hl by done.
    apply negb_false_iff, Z.ltb_lt in Hl. unfold is_u64 in Hw. rewrite Z.mod_small; lia. }
  eapply inv_to_inert; [exact Hinv|exact Ht| |done| |apply same_rows_refl, all_rows_ok| |].
  - unfold committed. by rewrite Hph.
  - unfold loggable, past, pending, committed. by rewrite Hph.
  - constructor; simpl; try done. intros ty' r' v buf [= <- <- <- <-]. split; [lia|].
    exists row. split; [done|]. split; [lia|done].
  - eapply locks_none; [apply all_locks|exact Ht|intros i []|].
    intros i. unfold held. rewrite Hph. tauto.
Qed.

Lemma inv_copy ty r v buf row x : st_phase tx = SCopy ty r v buf -> rows !! r = Some row ->
  rs_data row !! length buf = Some x ->
  sinv (mkSiloSys rows (<[t := set_sphase tx (SCopy ty r v (buf ++ [x]))]> txns) log).
Proof using Hgood Hnowait Hinv Ht.
  intros Hph Hr Hx. pose proof own_tok as [Hcur Hacc Hcopy _ _ _ _].
  destruct (Hcopy _ _ _ _ Hph) as (Hv & row2 & Hr2 & Hle & Hbuf). simplify_eq.
  eapply inv_to_inert; [exact Hinv|exact Ht| |done| |apply same_rows_refl, all_rows_ok| |].
  - unfold committed. by rewrite Hph.
  - unfold loggable, past, pending, committed. by rewrite Hph.
  - constructor; simpl; try done. intros ty' r' v' buf' [= <- <- <- <-]. split; [lia|].
    exists row. split_and!; [done|done|]. intros Hv' HU. rewrite length_app. simpl.
    rewrite Nat.add_1_r, (take_S_r _ _ x Hx). f_equal. auto.
  - eapply locks_none; [apply all_locks|exact Ht|intros i []|].
    intros i. unfold held. rewrite Hph. tauto.
Qed.

Lemma inv_copied ty r v buf row : st_phase tx = SCopy ty r v buf -> rows !! r = Some row ->
  length buf = length (rs_data row) -> rs_word row = v ->
  sinv (mkSiloSys rows (<[t := mkStxn (st_cur tx)
    (st_accs tx ++ [mkSacc ty r buf buf (clear_lock v)]) SRun]> txns) log).
Proof using Hgood Hnowait Hinv Ht.
  intros Hph Hr Hlen Hv. pose proof own_tok as [Hcur Hacc Hcopy _ _ _ _].
  destruct (Hcopy _ _ _ _ Hph) as (Hvr & row2 & Hr2 & Hle & Hbuf). assert (row2 = row) as -> by congruence. subst v.
  destruct (all_rows_ok _ _ Hr) as [Hw Hl].
  assert (clear_lock (rs_word row) = rs_word row) as Hcl
    by (rewrite clear_lock_mod; by apply Z.mod_small).
  eapply inv_to_inert; [exact Hinv|exact Ht| |done| |apply same_rows_refl, all_rows_ok| |].
  - unfold committed. by rewrite Hph.
  - unfold loggable, past, pending, committed. by rewrite Hph.
  - constructor; simpl; try done. intros i a.
    rewrite lookup_app_Some, list_lookup_singleton_Some. intros [Ha|(_ & _ & <-)]; [eauto|].
    simpl. exists row. unfold rtid. rewrite Hcl. split_and!; [done|lia|lia|congruence|].
    intros _ HU. rewrite (Hbuf Hcl HU), Hlen. by rewrite firstn_all.
  - eapply locks_none; [apply all_locks|exact Ht|intros i []|].
    intros i. unfold held. rewrite Hph. tauto.
Qed.

Lemma inv_smodify i d : st_phase tx = SRun ->
  (forall a, st_accs tx !! i = Some a -> length d = length (sa_data a)) ->
  sinv (mkSiloSys rows
    (<[t := mkStxn (st_cur tx) (alter (new_sdata d) i (st_accs tx)) SRun]> txns) log).
Proof using Hgood Hnowait Hinv Ht.
  intros Hph Hd. pose proof own_tok as [Hcur Hacc _ _ _ _ _].
  eapply inv_to_inert; [exact Hinv|exact Ht| |done| |apply same_rows_refl, all_rows_ok| |].
  - unfold committed. by rewrite Hph.
  - unfold loggable, past, pending, committed. by rewrite Hph.
  - constructor; simpl; try done. intros j a. rewrite list_lookup_alter.
    destruct (decide (i = j)) as [->|]; [|by apply Hacc].
    intros (b & Hb & ->)%fmap_Some. simpl. rewrite (Hd b Hb). by apply Hacc in Hb.
  - eapply locks_none; [apply all_locks|exact Ht|intros j []|].
    intros j. unfold held. rewrite Hph. tauto.
Qed.

(** A held lock of a row is set. *)
Lemma held_locked i a row : held tx i -> wacc tx i = Some a -> rows !! sa_row a = Some row ->
  rlock row = true.
Proof using Hgood Hnowait Hinv Ht.
  intros Hh Ha Hr. apply (lk_bit _ _ all_locks _ _ Hr). exists t, i. exists tx, a. done.
Qed.

(** Releasing a lock. *)
Lemma inv_unlock p k a row w' : committed tx = false -> past (set_sphase tx p) = false ->
  (loggable tx = true -> loggable (set_sphase tx p) = true) ->
  held tx k -> wacc tx k = Some a -> rows !! sa_row a = Some row ->
  silo_release (rs_word row) = Some w' ->
  (forall i, held (set_sphase tx p) i <-> held tx i /\ i <> k) ->
  (forall i, ~ checked (set_sphase tx p) i) ->
  (forall ty r v buf, p <> SCopy ty r v buf) -> (forall tid k j, p <> SWrite tid k j) ->
  phase_ok (set_sphase tx p) ->
  sinv (mkSiloSys (<[sa_row a := set_word w' row]> rows) (<[t := set_sphase tx p]> txns) log).
Proof using Hgood Hnowait Hinv Ht.
  intros Hc Hp Hlo Hk Ha Hr Hw Hh Hch Hnc Hnw Hpok.
  destruct (all_rows_ok _ _ Hr) as [Hu _]. pose proof (clear_lock_mod (rs_word row)) as Hm.
  rewrite (word_enc _ Hu) in Hw.
  assert (0 <= clear_lock (rs_word row) < 2 ^ 63) as Hrange
    by (rewrite Hm; apply Z.mod_pos_bound; lia).
  apply silo_release_spec in Hw as [Hl ->]; [|done].
  assert (same_rows rows (<[sa_row a := set_word (enc_lock (clear_lock (rs_word row)) false) row]> rows)) as Hs.
  { apply same_rows_word; [done|apply all_rows_ok|by apply clear_lock_enc|].
    by apply enc_lock_range. }
  eapply inv_to_inert; [exact Hinv|exact Ht|done..| |].
  - eapply tok_same; [exact Hs|done|]. apply tok_phase_step; try done; [apply own_tok|..].
    + intros i b Hci. by apply Hch in Hci.
    + by rewrite Hp.
  - eapply locks_del; try done; [apply all_locks|]. by apply is_locked_enc.
Qed.

Lemma inv_try i a row v w' : st_phase tx = STry i -> wacc tx i = Some a ->
  rows !! sa_row a = Some row -> is_u64 v -> silo_try_lock v (rs_word row) = (true, w') ->
  sinv (mkSiloSys (<[sa_row a := set_word w' row]> rows)
    (<[t := set_sphase tx (SCheck i)]> txns) log).
Proof using Hgood Hnowait Hinv Ht.
  intros Hph Ha Hr Hv Hw. destruct (all_rows_ok _ _ Hr) as [Hu _].
  pose proof (clear_lock_mod (rs_word row)) as Hm. rewrite (word_enc _ Hu) in Hw.
  assert (0 <= clear_lock (rs_word row) < 2 ^ 63) as Hrange
    by (rewrite Hm; apply Z.mod_pos_bound; lia).
  apply silo_try_lock_spec in Hw as [Hl ->]; [|done..].
  pose proof own_tok as Htok. pose proof (tk_phase _ _ _ Htok) as Hpok.
  unfold phase_ok in Hpok. rewrite Hph in Hpok.
  eapply inv_to_inert; [exact Hinv|exact Ht| |done| | | |].
  - unfold committed. by rewrite Hph.
  - unfold loggable, past, pending, committed. by rewrite Hph.
  - apply same_rows_word; [done|apply all_rows_ok|by apply clear_lock_enc|].
    by apply enc_lock_range.
  - eapply tok_same; [|done|apply tok_phase_step; [exact Htok|done|done| | |done]].
    + apply same_rows_word; [done|apply all_rows_ok|by apply clear_lock_enc|].
      by apply enc_lock_range.
    + intros i' b. unfold checked. rewrite Hph. simpl. auto.
    + unfold phase_ok. simpl. by apply wacc_Some in Ha as [? _].
  - eapply locks_add; try done; [apply all_locks|by apply is_locked_enc|].
    intros i'. unfold held. rewrite Hph. simpl. lia.
Qed.

(** *** Validation *)

Lemma holds_intro txns' t2 tx2 i a : txns' !! t2 = Some tx2 -> held tx2 i -> wacc tx2 i = Some a ->
  holds txns' t2 i (sa_row a).
Proof. intros. by exists tx2, a. Qed.

Lemma pend_holds txns' t2 tx2 r : txns' !! t2 = Some tx2 -> pend tx2 r -> exists i, holds txns' t2 i r.
Proof.
  intros H2 [Hp Hf]. apply find_write_row in Hf as (i & a & Hi & Ha & <-). exists i.
  eapply holds_intro; [done| |done]. unfold pending in Hp. unfold held.
  by destruct (st_phase tx2).
Qed.

Lemma unapp_holds txns' t2 tx2 r : txns' !! t2 = Some tx2 -> unapp tx2 r ->
  exists i, unapplied tx2 i /\ holds txns' t2 i r.
Proof.
  intros H2 (i & a & Hu & Ha & <-). exists i. split; [done|]. eapply holds_intro; [done| |done].
  apply wacc_Some in Ha as [Hi _]. unfold unapplied in Hu. unfold held.
  destruct (st_phase tx2); try done; lia.
Qed.

Lemma checked_held tx2 i a : checked tx2 i -> wacc tx2 i = Some a -> held tx2 i.
Proof.
  intros Hc [Hi _]%wacc_Some. unfold checked in Hc. unfold held.
  destruct (st_phase tx2); try done; lia.
Qed.

(** A row whose lock [t] holds is not waiting for another's write. *)
Lemma own_not_U i a : held tx i -> wacc tx i = Some a -> committed tx = false ->
  ~ U_of txns (sa_row a).
Proof using Hgood Hnowait Hinv Ht.
  intros Hh Ha Hc (t2 & tx2 & H2 & Hu).
  destruct (unapp_holds _ _ _ _ H2 Hu) as (j & _ & Hj).
  destruct (lk_excl _ _ all_locks _ _ _ _ _ Hj (holds_intro _ _ _ _ _ Ht Hh Ha)) as [-> _].
  simplify_eq. by eapply inert_unapp.
Qed.

Lemma unlocked_not_holds r row : rows !! r = Some row -> rlock row = false ->
  forall t2 i, ~ holds txns t2 i r.
Proof using Hgood Hnowait Hinv Ht.
  intros Hr Hl t2 i Hh. assert (rlock row = true); [|congruence].
  apply (lk_bit _ _ all_locks _ _ Hr). eauto.
Qed.

Section locked.
Context (Hph : st_phase tx = STry (wr_cnt tx)).

Lemma locked_not_in : t ∉ log.
Proof using Hgood Hnowait Hinv Ht Hph.
  intros Hin. destruct (lg_in _ _ _ (si_log _ Hinv) t Hin) as (tx0 & Ht0 & Hl).
  simpl in Ht0. simplify_eq. unfold loggable, past, pending, committed in Hl. by rewrite Hph in Hl.
Qed.

Lemma locked_committed : committed tx = false.
Proof using Hph. unfold committed. by rewrite Hph. Qed.

Lemma locked_held i : held tx i <-> (i < wr_cnt tx)%nat.
Proof using Hph. unfold held. by rewrite Hph. Qed.

Lemma locked_reads a : validated (set_sphase tx (SReadVal 0 0)) a ->
  reads_ok txns log (length log) a.
Proof using Hgood Hnowait Hinv Ht Hph.
  intros [(i & Hi & _)|[i Ha]]; [lia|]. change (wacc tx i = Some a) in Ha.
  assert (held tx i) as Hh by (apply locked_held; by apply wacc_Some in Ha as [? _]).
  pose proof own_tok as Htok. pose proof (own_not_U i a Hh Ha locked_committed) as HU.
  destruct (tk_checked _ _ _ Htok i a) as (row & Hr & Htid); [|done|].
  { unfold checked. rewrite Hph. by apply wacc_Some in Ha as [? _]. }
  destruct (wacc_Some _ _ _ Ha) as (_ & _ & j & _ & Hj).
  destruct (tk_acc _ _ _ Htok j a Hj) as (row2 & Hr2 & _ & _ & Hd).
  assert (row2 = row) as -> by congruence. split.
  - rewrite firstn_all. destruct (lg_content _ _ _ (si_log _ Hinv) _ _ Hr) as [_ Hv].
    simpl in Hv. rewrite (Hv HU). by rewrite (Hd Htid HU).
  - intros q t2 tx2 _ Hq H2 Hp. destruct (pend_holds _ _ _ _ H2 Hp) as [k Hk].
    destruct (lk_excl _ _ all_locks _ _ _ _ _ Hk (holds_intro _ _ _ _ _ Ht Hh Ha)) as [-> _].
    apply locked_not_in, list_elem_of_lookup. eauto.
Qed.

Lemma locked_distinct : writes_distinct tx.
Proof using Hgood Hnowait Hinv Ht Hph.
  intros i j a b Ha Hb Heq.
  assert (holds txns t i (sa_row a)) as H1.
  { eapply holds_intro; [done| |done]. apply locked_held. by apply wacc_Some in Ha as [? _]. }
  assert (holds txns t j (sa_row a)) as H2.
  { rewrite Heq. eapply holds_intro; [done| |done]. apply locked_held. by apply wacc_Some in Hb as [? _]. }
  apply (lk_excl _ _ all_locks _ _ _ _ _ H1 H2).
Qed.

Lemma locked_wr_of t2 r :
  wr_of (<[t := set_sphase tx (SReadVal 0 0)]> txns) t2 r = wr_of txns t2 r.
Proof using Ht Hph.
  unfold wr_of at 1. destruct (decide (t2 = t)) as [->|Hne]; [|by rewrite lookup_insert_ne].
  rewrite lookup_insert_eq. unfold wr_of. rewrite Ht. by rewrite !inert_wr; [|apply locked_committed|].
Qed.

Lemma locked_U r : U_of (<[t := set_sphase tx (SReadVal 0 0)]> txns) r <-> U_of txns r.
Proof using Ht Hph.
  split; intros (t2 & tx2 & H2 & Hu).
  - apply lookup_insert_Some in H2 as [[<- <-]|[Hne H2]]; [by apply inert_unapp in Hu|].
    by exists t2, tx2.
  - exists t2, tx2. rewrite lookup_insert_ne; [done|]. intros <-. simplify_eq.
    by apply inert_unapp in Hu; [|apply locked_committed].
Qed.

Lemma locked_old p t2 tx2 : log !! p = Some t2 ->
  <[t := set_sphase tx (SReadVal 0 0)]> txns !! t2 = Some tx2 -> txns !! t2 = Some tx2.
Proof using Hgood Hnowait Hinv Ht Hph.
  intros Hp. rewrite lookup_insert_ne; [done|]. intros <-.
  apply locked_not_in, list_elem_of_lookup. eauto.
Qed.

Lemma locked_log : log_ok rows (<[t := set_sphase tx (SReadVal 0 0)]> txns) (log ++ [t]).
Proof using Hgood Hnowait Hinv Ht Hph.
  pose proof (si_log _ Hinv) as [Hnd Hin Hpast Hread Hafter Htid Hcont]. simpl in *.
  assert (forall p t2, (log ++ [t]) !! p = Some t2 ->
    (log !! p = Some t2 /\ (p < length log)%nat) \/ (p = length log /\ t2 = t)) as Hlk.
  { intros p t2. rewrite lookup_app_Some, list_lookup_singleton_Some.
    intros [?|(? & ? & <-)]; [left; split; [done|by eapply lookup_lt_Some]|right; lia]. }
  assert (forall p a, (p <= length log)%nat -> reads_ok txns log p a ->
    reads_ok (<[t := set_sphase tx (SReadVal 0 0)]> txns) (log ++ [t]) p a) as Hro.
  { intros p a Hple [Hv Hnp]. split.
    - rewrite take_app_le by done. rewrite <- Hv. apply val_ext. intros. apply locked_wr_of.
    - intros q t2 tx2 Hlt Hq H2. apply Hlk in Hq as [[Hq _]|[-> _]]; [|lia].
      apply (Hnp q t2 tx2 Hlt Hq). by eapply locked_old. }
  constructor.
  - apply NoDup_app. split_and!; [done| |apply NoDup_singleton].
    intros x Hx ->%list_elem_of_singleton. by apply locked_not_in.
  - intros t2 [H2| ->%list_elem_of_singleton]%elem_of_app.
    + rewrite lookup_insert_ne; [by apply Hin|]. intros <-. by apply locked_not_in.
    + rewrite lookup_insert_eq. eauto.
  - intros t2 tx2 [[<- <-]|[Hne H2]]%lookup_insert_Some Hp; apply elem_of_app;
      [right; apply list_elem_of_singleton; done|left; eauto].
  - intros p t2 tx2 a [[Hp Hlt]|[-> ->]]%Hlk H2 Hv; apply Hro; try lia.
    + eapply Hread; [exact Hp|by eapply locked_old|done].
    + rewrite lookup_insert_eq in H2. simplify_eq. by apply locked_reads.
  - intros p q t1 tx1 t2 tx2 r Hlt [[Hp Hp']|[-> ->]]%Hlk [[Hq Hq']|[-> ->]]%Hlk H1 H2 Hor; try lia.
    + eapply Hafter; [exact Hlt|exact Hp|exact Hq|by eapply locked_old|by eapply locked_old|done].
    + rewrite lookup_insert_eq in H2. by simplify_eq.
  - intros p q t1 tx1 t2 tx2 i a row Hlt [[Hp Hp']|[-> ->]]%Hlk [[Hq Hq']|[-> ->]]%Hlk H1 H2; try lia.
    + eapply Htid; [exact Hlt|exact Hp|exact Hq|by eapply locked_old|by eapply locked_old].
    + rewrite lookup_insert_eq in H2. by simplify_eq.
  - intros r row Hr. destruct (Hcont r row Hr) as [Hc1 Hc2].
    assert (val db0 (<[t := set_sphase tx (SReadVal 0 0)]> txns) (log ++ [t]) r = val db0 txns log r) as ->.
    { rewrite val_app; [apply val_ext; intros; apply locked_wr_of|].
      intros t2 ->%list_elem_of_singleton. rewrite locked_wr_of. unfold wr_of. rewrite Ht.
      apply inert_wr, locked_committed. }
    rewrite locked_U. split; [|done].
    intros t2 tx2 [[<- <-]|[Hne H2]]%lookup_insert_Some Hu; [by apply inert_unapp in Hu|eauto].
Qed.

Lemma inv_locked :
  sinv (mkSiloSys rows (<[t := set_sphase tx (SReadVal 0 0)]> txns) (log ++ [t])).
Proof using Hgood Hnowait Hinv Ht Hph.
  constructor; simpl.
  - apply all_rows_ok.
  - intros t2 tx2 [[<- <-]|[Hne H2]]%lookup_insert_Some;
      (eapply tok_same; [apply same_rows_refl, all_rows_ok|intros r; apply locked_U|]).
    + apply tok_phase_step; try done; [apply own_tok| |intros _; apply locked_distinct].
      intros i a _ Ha. left. unfold checked. rewrite Hph. by apply wacc_Some in Ha as [? _].
    + by apply (si_txn _ Hinv t2).
  - eapply locks_keep; [apply all_locks|exact Ht| |done]. intros i. by rewrite locked_held.
  - apply locked_log.
Qed.
End locked.

Section validating.
Context (Hpe : pending tx = true).

Lemma val_committed : committed tx = false.
Proof using Hpe. unfold pending, committed in *. by destruct (st_phase tx). Qed.

Lemma val_past : past tx = true.
Proof using Hpe. unfold past. by rewrite Hpe. Qed.

Lemma val_held i : held tx i <-> (i < wr_cnt tx)%nat.
Proof using Hpe. unfold held, pending in *. by destruct (st_phase tx). Qed.

(** An unlocked row with the tid that was read holds what was read, at the
    place of [t] in the log. *)
Lemma val_read_ok p j a row : log !! p = Some t -> st_accs tx !! j = Some a ->
  rows !! sa_row a = Some row -> rlock row = false -> rtid row = sa_tid a ->
  reads_ok txns log p a.
Proof using Hgood Hnowait Hinv Ht Hpe.
  intros Hp Hj Hr Hl Htid. pose proof (unlocked_not_holds _ _ Hr Hl) as Hno.
  assert (~ U_of txns (sa_row a)) as HU.
  { intros (t2 & tx2 & H2 & (i & _ & Hi)%(unapp_holds _ _ _ _ H2)). by eapply Hno. }
  destruct (tk_acc _ _ _ own_tok j a Hj) as (row2 & Hr2 & _ & _ & Hd).
  assert (row2 = row) as -> by congruence. split.
  - rewrite <- (Hd Htid HU).
    destruct (lg_content _ _ _ (si_log _ Hinv) _ _ Hr) as [_ Hv]. rewrite <- (Hv HU). simpl.
    rewrite <- (take_drop p log) at 2. rewrite val_app; [done|].
    intros t2 Hin. apply list_elem_of_lookup in Hin as [q Hq]. rewrite lookup_drop in Hq.
    unfold wr_of. destruct (txns !! t2) as [tx2|] eqn:H2; [|done].
    destruct (decide (q = 0%nat)) as [->|Hq0].
    { rewrite Nat.add_0_r in Hq. assert (t2 = t) as -> by congruence.
      assert (tx2 = tx) as -> by congruence. by apply inert_wr, val_committed. }
    destruct (wr tx2 (sa_row a)) eqn:Hw; [exfalso|done]. apply HU. exists t2, tx2. split; [done|].
    eapply (lg_tid _ _ _ (si_log _ Hinv) p (p + q) t tx t2 tx2 j a row); try done; [lia|congruence].
  - intros q t2 tx2 _ _ H2 Hpe2. destruct (pend_holds _ _ _ _ H2 Hpe2) as [i Hi]. by eapply Hno.
Qed.

Lemma inv_val_next p : pending (set_sphase tx p) = true ->
  (forall q a, log !! q = Some t -> validated (set_sphase tx p) a ->
     validated tx a \/ reads_ok txns log q a) ->
  phase_ok (set_sphase tx p) ->
  sinv (mkSiloSys rows (<[t := set_sphase tx p]> txns) log).
Proof using Hgood Hnowait Hinv Ht Hpe.
  intros Hpe' Hv Hpok.
  assert (committed (set_sphase tx p) = false) as Hc'
    by (unfold pending, committed in *; simpl in *; by destruct p).
  eapply inv_in_past; [exact Hinv|exact Ht|apply val_past|congruence| |done| |exact Hv|..].
  - by rewrite Hc', val_committed.
  - intros r. split; intros Hu; by apply inert_unapp in Hu; [|try apply val_committed].
  - apply same_rows_refl, all_rows_ok.
  - apply tok_phase_step; [apply own_tok| | | |done|].
    + intros ty r v buf ->. done.
    + intros tid k j ->. done.
    + intros i a _ _. left. unfold checked, pending in *. by destruct (st_phase tx).
    + intros _. apply (tk_distinct _ _ _ own_tok), val_past.
  - eapply locks_keep; [apply all_locks|exact Ht| |done]. intros i. rewrite val_held.
    unfold held, pending in *. simpl in *. by destruct p.
Qed.

Lemma inv_val_abort : sinv (mkSiloSys rows (<[t := set_sphase tx (SAbort 0 (wr_cnt tx))]> txns) log).
Proof using Hgood Hnowait Hinv Ht Hpe.
  apply inv_new_phase; try done; [apply val_committed| |].
  - intros i. rewrite val_held. unfold held. simpl. lia.
  - unfold phase_ok. simpl. change (wr_cnt (set_sphase tx (SAbort 0 (wr_cnt tx)))) with (wr_cnt tx). lia.
Qed.

Lemma upd_max_le tid m : tid <= upd_max tid m /\ m <= upd_max tid m /\
  (0 <= tid < 2 ^ 63 -> 0 <= m < 2 ^ 63 -> 0 <= upd_max tid m < 2 ^ 63).
Proof. unfold upd_max. destruct (Z.ltb_spec m tid); lia. Qed.

Lemma acc_tid_range j a : st_accs tx !! j = Some a -> 0 <= sa_tid a < 2 ^ 63.
Proof using Hgood Hnowait Hinv Ht Hpe.
  intros Ha. destruct (tk_acc _ _ _ own_tok j a Ha) as (row & _ & Hle & _).
  unfold rtid in Hle. rewrite clear_lock_mod in Hle.
  pose proof (Z.mod_pos_bound (rs_word row) (2 ^ 63)). lia.
Qed.

Lemma inv_read_val i m a row : st_phase tx = SReadVal i m -> racc tx i = Some a ->
  rows !! sa_row a = Some row ->
  sinv (mkSiloSys rows (<[t := set_sphase tx
    (if silo_validate (sa_tid a) false (rs_word row) then SReadVal (S i) (upd_max (sa_tid a) m)
     else SAbort 0 (wr_cnt tx))]> txns) log).
Proof using Hgood Hnowait Hinv Ht Hpe.
  intros Hph Ha Hr. destruct (silo_validate _ _ _) eqn:Hv; [|apply inv_val_abort].
  destruct (racc_Some _ _ _ Ha) as [j Hj].
  pose proof (tk_phase _ _ _ own_tok) as Hm. unfold phase_ok in Hm. rewrite Hph in Hm.
  apply inv_val_next; [done| |by apply upd_max_le; [eapply acc_tid_range|]].
  intros q b Hq [(k & Hk & Hb)|Hb].
  - change (racc tx k = Some b) in Hb. destruct (decide (k = i)) as [->|].
    + right. assert (b = a) as -> by congruence. unfold silo_validate in Hv.
      destruct (is_locked (rs_word row)) eqn:Hl; [done|].
      destruct (_ =? _) eqn:Htid; [|done]. b2p. by eapply val_read_ok.
    + left. unfold validated. rewrite Hph. left. exists k. split; [lia|done].
  - left. unfold validated. rewrite Hph. by right.
Qed.

Lemma inv_reads_ok m : st_phase tx = SReadVal (rd_cnt tx) m ->
  sinv (mkSiloSys rows (<[t := set_sphase tx (SWriteVal 0 m)]> txns) log).
Proof using Hgood Hnowait Hinv Ht Hpe.
  intros Hph. pose proof (tk_phase _ _ _ own_tok) as Hm. unfold phase_ok in Hm. rewrite Hph in Hm.
  apply inv_val_next; [done| |split; [done|lia]].
  intros q b _ [j Hj]. left. unfold validated. rewrite Hph. change (st_accs tx !! j = Some b) in Hj.
  destruct (is_wr b) eqn:Hw.
  - right. destruct (wacc_of_access _ _ _ Hj Hw) as (i & _ & ?). eauto.
  - left. by apply (racc_of_access _ j).
Qed.

Lemma inv_write_val i m a row : st_phase tx = SWriteVal i m -> wacc tx i = Some a ->
  rows !! sa_row a = Some row ->
  sinv (mkSiloSys rows (<[t := set_sphase tx
    (if silo_validate (sa_tid a) true (rs_word row) then SWriteVal (S i) (upd_max (sa_tid a) m)
     else SAbort 0 (wr_cnt tx))]> txns) log).
Proof using Hgood Hnowait Hinv Ht Hpe.
  intros Hph Ha Hr. destruct (silo_validate _ _ _) eqn:Hv; [|apply inv_val_abort].
  destruct (wacc_Some _ _ _ Ha) as (_ & _ & j & _ & Hj).
  pose proof (tk_phase _ _ _ own_tok) as Hm. unfold phase_ok in Hm. rewrite Hph in Hm.
  destruct Hm as [Hm Hle]. pose proof (upd_max_le (sa_tid a) m) as (Hu1 & Hu2 & Hu3).
  apply inv_val_next; [done| |].
  - intros q b _ Hb. left. unfold validated in *. rewrite Hph. exact Hb.
  - split; [apply Hu3; [by eapply acc_tid_range|done]|].
    intros k b Hk Hb. change (wacc tx k = Some b) in Hb.
    destruct (decide (k = i)) as [->|]; [assert (b = a) as -> by congruence; done|].
    assert (sa_tid b <= m); [|lia]. apply (Hle k); [lia|done].
Qed.
End validating.

(** *** The commit *)
Section committing.
Context (m : Z) (Hph : st_phase tx = SWriteVal (wr_cnt tx) m).
Context (Hsmall : commit_tid m (st_cur tx) < 2 ^ 63).

Let tid := commit_tid m (st_cur tx).
Let tx' := mkStxn tid (st_accs tx) (SWrite tid 0 0).
Let txns' := <[t := tx']> txns.

Lemma com_pending : pending tx = true.
Proof using Hph. unfold pending. by rewrite Hph. Qed.

Lemma com_tid : 0 <= tid < 2 ^ 63 /\ forall i a, wacc tx i = Some a -> sa_tid a < tid.
Proof using Hgood Hnowait Hinv Ht Hph Hsmall.
  pose proof own_tok as Htok. pose proof (tk_phase _ _ _ Htok) as Hm.
  unfold phase_ok in Hm. rewrite Hph in Hm. destruct Hm as [Hm Hle].
  pose proof (tk_cur _ _ _ Htok) as Hcur. subst tid. unfold commit_tid in *.
  assert (forall z, 0 <= z < 2 ^ 63 -> u64 (z + 1) = z + 1) as Hu
    by (intros; apply u64_small; unfold is_u64; lia).
  destruct (Z.ltb_spec (st_cur tx) m); rewrite Hu in * by lia; (split; [lia|]);
    intros i a Ha; (assert (sa_tid a <= m); [apply (Hle i); [by apply wacc_Some in Ha as [? _]|done]|lia]).
Qed.

Lemma com_pend r : find_write (st_accs tx) r <> None -> pend tx r.
Proof using Hph. intros Hf. split; [apply com_pending|done]. Qed.

Lemma com_unapp r : unapp tx' r <-> find_write (st_accs tx) r <> None.
Proof using Hgood Hnowait Hinv Ht Hph.
  split.
  - intros (i & a & _ & Ha & <-). rewrite (find_write_wacc tx i a); [done| |done].
    apply (tk_distinct _ _ _ own_tok), val_past, com_pending.
  - intros (i & a & _ & Ha & <-)%find_write_row. exists i, a. split; [|done].
    unfold unapplied. simpl. lia.
Qed.

Lemma com_wr_of t2 r : (t2 = t -> find_write (st_accs tx) r = None) ->
  wr_of txns' t2 r = wr_of txns t2 r.
Proof using Ht Hph.
  intros Hf. unfold wr_of. destruct (decide (t2 = t)) as [->|Hne].
  - subst txns'. rewrite lookup_insert_eq, Ht, (inert_wr tx).
    + unfold wr. simpl. by apply Hf.
    + by apply val_committed, com_pending.
  - subst txns'. by rewrite lookup_insert_ne.
Qed.

Lemma com_back t2 tx2 : txns' !! t2 = Some tx2 ->
  (t2 = t /\ tx2 = tx') \/ (t2 <> t /\ txns !! t2 = Some tx2).
Proof. intros [[<- <-]|[Hne H2]]%lookup_insert_Some; auto. Qed.

Lemma com_pend_back t2 tx2 r : txns' !! t2 = Some tx2 -> pend tx2 r -> t2 <> t /\ txns !! t2 = Some tx2.
Proof. intros [[-> ->]|[??]]%com_back Hp; [by destruct Hp|done]. Qed.

(** A row [t] writes is not held by another. *)
Lemma com_excl t2 i r : find_write (st_accs tx) r <> None -> holds txns t2 i r -> t2 = t.
Proof using Hgood Hnowait Hinv Ht Hph.
  intros Hf Hh. destruct (pend_holds _ _ _ _ Ht (com_pend r Hf)) as [j Hj].
  by destruct (lk_excl _ _ all_locks _ _ _ _ _ Hh Hj).
Qed.

Lemma com_reads_ok p a : reads_ok txns log p a -> reads_ok txns' log p a.
Proof using Hgood Hnowait Hinv Ht Hph.
  intros [Hv Hnp]. split.
  - rewrite <- Hv. apply val_ext. intros t2 Hin. apply com_wr_of. intros ->.
    apply list_elem_of_lookup in Hin as [q Hq]. apply lookup_take_Some in Hq as [Hq Hlt].
    destruct (find_write (st_accs tx) (sa_row a)) eqn:Hf; [|done]. exfalso.
    apply (Hnp q t tx Hlt Hq Ht). apply com_pend. congruence.
  - intros q t2 tx2 Hlt Hq H2 Hp. destruct (com_pend_back _ _ _ H2 Hp) as [_ H3]. by eapply Hnp.
Qed.

Lemma com_after p q t1 tx1 t2 tx2 r : (p < q)%nat -> log !! p = Some t1 -> log !! q = Some t2 ->
  txns' !! t1 = Some tx1 -> txns' !! t2 = Some tx2 -> pend tx1 r \/ unapp tx1 r -> wr tx2 r = None.
Proof using Hgood Hnowait Hinv Ht Hph.
  intros Hlt Hp Hq H1 H2 Hor. pose proof (si_log _ Hinv) as Hlog. simpl in Hlog.
  assert (t1 <> t2) as Hne.
  { intros ->. pose proof (proj1 (NoDup_alt _) (lg_nodup _ _ _ Hlog) _ _ _ Hp Hq). lia. }
  apply com_back in H2 as [[-> ->]|[Hne2 H2]].
  - apply com_back in H1 as [[-> ->]|[Hne1 H1]]; [done|].
    destruct (wr tx' r) as [d|] eqn:Hw; [exfalso|done]. unfold wr in Hw. simpl in Hw.
    apply Hne1. assert (exists i, holds txns t1 i r) as [i Hi].
    { destruct Hor as [Hor|Hor]; [by eapply pend_holds|].
      destruct (unapp_holds _ _ _ _ H1 Hor) as (i & _ & ?). eauto. }
    eapply com_excl; [|exact Hi]. congruence.
  - apply com_back in H1 as [[-> ->]|[Hne1 H1]].
    + eapply (lg_after _ _ _ Hlog p q t tx t2 tx2); try done.
      left. destruct Hor as [[]|Hu]; [done|]. by apply com_pend, com_unapp.
    + by eapply (lg_after _ _ _ Hlog p q t1 tx1 t2 tx2).
Qed.

Lemma com_log : log_ok rows txns' log.
Proof using Hgood Hnowait Hinv Ht Hph.
  pose proof (si_log _ Hinv) as [Hnd Hin Hpast Hread Hafter Htid Hcont]. simpl in *.
  assert (t ∈ log) as Htl by (apply (Hpast t tx Ht), val_past, com_pending).
  constructor.
  - done.
  - intros t2 H2. destruct (decide (t2 = t)) as [->|Hne].
    + subst txns'. rewrite lookup_insert_eq. eauto.
    + subst txns'. rewrite lookup_insert_ne by done. auto.
  - intros t2 tx2 [[-> _]|[_ H2]]%com_back Hp; eauto.
  - intros p t2 tx2 a Hp [[-> ->]|[_ H2]]%com_back Hv; apply com_reads_ok; [|eauto].
    eapply Hread; [done..|]. unfold validated. rewrite Hph. exact Hv.
  - intros p q t1 tx1 t2 tx2 r. apply com_after.
  - intros p q t1 tx1 t2 tx2 i a row Hlt Hp Hq [[-> ->]|[_ H1]]%com_back H2 Hpe Ha Hr Hti Hw; [done|].
    apply com_back in H2 as [[-> ->]|[_ H2]]; [by apply com_unapp|].
    by eapply (Htid p q t1 tx1 t2 tx2).
  - intros r row Hr. destruct (Hcont r row Hr) as [Hc1 Hc2]. split.
    + intros t2 tx2 [[-> ->]|[Hne H2]]%com_back Hu.
      * apply com_unapp in Hu as Hf. unfold wr. simpl.
        destruct (find_write (st_accs tx) r) as [d|] eqn:Hfd; [|done].
        pose proof Htl as [p Hp]%list_elem_of_lookup.
        eapply val_last; [exact Hp| |].
        -- unfold wr_of. subst txns'. rewrite lookup_insert_eq. done.
        -- intros q t2 Hlt Hq. unfold wr_of.
           destruct (txns' !! t2) as [tx2|] eqn:H2; [|done].
           eapply (com_after p q t tx' t2 tx2); try done; [apply lookup_insert_eq|by right].
      * rewrite <- (Hc1 t2 tx2 H2 Hu). apply val_ext. intros t3 _. apply com_wr_of. intros ->.
        destruct (find_write (st_accs tx) r) eqn:Hf; [exfalso|done].
        destruct (unapp_holds _ _ _ _ H2 Hu) as (i & _ & Hi). apply Hne.
        eapply com_excl; [|exact Hi]. congruence.
    + intros HU. assert (find_write (st_accs tx) r = None) as Hf.
      { destruct (find_write (st_accs tx) r) eqn:Hf; [exfalso|done]. apply HU. exists t, tx'.
        split; [apply lookup_insert_eq|]. apply com_unapp. congruence. }
      rewrite <- Hc2.
      * apply val_ext. intros t2 _. by apply com_wr_of.
      * intros (t2 & tx2 & H2 & Hu). apply HU. exists t2, tx2. split; [|done].
        subst txns'. rewrite lookup_insert_ne; [done|]. intros <-. simplify_eq.
        by apply inert_unapp in Hu; [|apply val_committed, com_pending].
Qed.

Lemma inv_commit_silo : sinv (mkSiloSys rows txns' log).
Proof using Hgood Hnowait Hinv Ht Hph Hsmall.
  pose proof com_tid as [Htr Htlt].
  assert (forall r, U_of txns r -> U_of txns' r) as HU.
  { intros r (t2 & tx2 & H2 & Hu). exists t2, tx2. split; [|done].
    subst txns'. rewrite lookup_insert_ne; [done|]. intros <-. simplify_eq.
    by apply inert_unapp in Hu; [|apply val_committed, com_pending]. }
  constructor; simpl.
  - apply all_rows_ok.
  - intros t2 tx2 [[-> ->]|[Hne H2]]%com_back;
      (eapply tok_same; [apply same_rows_refl, all_rows_ok|exact HU|]).
    + destruct own_tok as [Hcur Hacc _ Hch _ _ Hdis]. constructor; try done.
      * intros i a _. apply Hch. unfold checked. by rewrite Hph.
      * split; [done|]. split; [simpl; lia|]. intros i a _ Ha. by apply (Htlt i).
      * intros tid' k j a [= <- <- <-] Ha. destruct (wacc_Some _ _ _ Ha) as (_ & _ & i & _ & Hi).
        destruct (Hacc i a Hi) as (row & Hr & _). by exists row.
      * intros _. apply Hdis, val_past, com_pending.
    + by apply (si_txn _ Hinv t2).
  - eapply locks_keep; [apply all_locks|exact Ht| |done]. intros i.
    rewrite (val_held com_pending). unfold held. simpl.
    change (wr_cnt tx') with (wr_cnt tx). lia.
  - apply com_log.
Qed.
End committing.

(** *** The writes *)
Section writing.
Context (tid : Z) (k : nat) (a : sacc) (row : Row_silo).
Context (Hac : wacc tx k = Some a) (Hr : rows !! sa_row a = Some row).

Lemma writing_distinct : committed tx = true -> writes_distinct tx.
Proof using Hgood Hnowait Hinv Ht.
  intros Hc. apply (tk_distinct _ _ _ own_tok). unfold past. by rewrite Hc, orb_true_r.
Qed.

(** Only [t] works on a row it holds. *)
Lemma writing_excl t2 tx2 i b : held tx k -> txns !! t2 = Some tx2 -> held tx2 i ->
  wacc tx2 i = Some b -> sa_row b = sa_row a -> t2 = t /\ i = k.
Proof using Hgood Hnowait Hinv Ht Hac.
  intros Hk H2 Hh Hb Heq. eapply (lk_excl _ _ all_locks t2 t i k (sa_row a)).
  - rewrite <- Heq. by eapply holds_intro.
  - by eapply holds_intro.
Qed.

Section data.
Context (j : nat) (x : W) (Hph : st_phase tx = SWrite tid k j) (Hx : sa_data a !! j = Some x).

Let row' := mkRow_silo (rs_word row) (<[j := x]> (rs_data row)).
Let rows' := <[sa_row a := row']> rows.
Let tx' := set_sphase tx (SWrite tid k (S j)).

Lemma data_held : held tx k.
Proof using Hph Hac. unfold held. rewrite Hph. by apply wacc_Some in Hac as [? _]. Qed.

Lemma data_U : U_of txns (sa_row a).
Proof using Hph Hac Ht.
  exists t, tx. split; [done|]. exists k, a. split; [|done]. unfold unapplied. by rewrite Hph.
Qed.

Lemma data_fw r row2 : rows !! r = Some row2 -> exists row3, rows' !! r = Some row3 /\
  rs_word row3 = rs_word row2 /\ (r <> sa_row a -> row3 = row2).
Proof using Hr.
  intros H2. subst rows'. destruct (decide (r = sa_row a)) as [->|Hne].
  - rewrite lookup_insert_eq. exists row'. assert (row2 = row) as -> by congruence. done.
  - rewrite lookup_insert_ne by done. eauto.
Qed.

Lemma data_quiet : quiet txns t tx'.
Proof using Ht Hph.
  constructor.
  - intros r. unfold wr_of. rewrite Ht. unfold wr, committed. by rewrite Hph.
  - intros r. split.
    + intros (i & b & Hu & Hb). exists tx. split; [done|]. exists i, b. split; [|done].
      unfold unapplied in *. by rewrite Hph.
    + intros (tx0 & Ht0 & i & b & Hu & Hb). simplify_eq. exists i, b. split; [|done].
      unfold unapplied in *. by rewrite Hph in Hu.
  - done.
Qed.

(** Nothing that is known of the contents of the row depends on it now. *)
Lemma data_tok tx2 : tok rows (U_of txns) tx2 ->
  (forall tid2 k2 j2 b, st_phase tx2 = SWrite tid2 k2 j2 -> wacc tx2 k2 = Some b ->
     sa_row b = sa_row a -> j2 = 0%nat) ->
  tok rows' (U_of txns) tx2.
Proof using Hgood Hnowait Hinv Ht Hac Hr Hph.
  intros [Hcur Hacc Hcopy Hch Hpok Hdat Hdis] Hj2. constructor; try done.
  - intros i b Hb. destruct (Hacc i b Hb) as (row2 & Hr2 & ? & ? & Hd).
    destruct (data_fw _ _ Hr2) as (row3 & Hr3 & Hw & Hsame). exists row3. unfold rtid in *.
    rewrite Hw. split_and!; [done|lia|lia|done|]. intros Hti HU. rewrite Hsame; [by apply Hd|].
    intros Heq. apply HU. rewrite Heq. apply data_U.
  - intros ty r v buf Hp. destruct (Hcopy ty r v buf Hp) as (? & row2 & Hr2 & ? & Hd).
    split; [done|]. destruct (data_fw _ _ Hr2) as (row3 & Hr3 & Hw & Hsame). exists row3.
    unfold rtid in *. rewrite Hw. split_and!; [done|lia|]. intros Hti HU.
    rewrite Hsame; [by apply Hd|]. intros ->. apply HU, data_U.
  - intros i b Hc Hb. destruct (Hch i b Hc Hb) as (row2 & Hr2 & Hti).
    destruct (data_fw _ _ Hr2) as (row3 & Hr3 & Hw & _). exists row3. unfold rtid in *.
    by rewrite Hw.
  - intros tid2 k2 j2 b Hp Hb. destruct (Hdat tid2 k2 j2 b Hp Hb) as (row2 & Hr2 & Htk).
    destruct (data_fw _ _ Hr2) as (row3 & Hr3 & Hw & Hsame). exists row3. split; [done|].
    destruct (decide (sa_row b = sa_row a)) as [Heq|Hne]; [|by rewrite Hsame].
    by rewrite (Hj2 _ _ _ _ Hp Hb Heq).
Qed.

Lemma tok_write_phase rows0 U0 tx0 j0 : tok rows0 U0 tx0 ->
  (exists j1, st_phase tx0 = SWrite tid k j1) ->
  (forall b, wacc tx0 k = Some b -> exists row, rows0 !! sa_row b = Some row /\
     take j0 (rs_data row) = take j0 (sa_data b)) ->
  tok rows0 U0 (set_sphase tx0 (SWrite tid k j0)).
Proof.
  intros [Hcur Hacc _ Hch Hpok _ Hdis] [j1 Hp] Hd. constructor; try done.
  - intros i b Hc. apply Hch. unfold checked in *. by rewrite Hp.
  - unfold phase_ok in *. rewrite Hp in Hpok. exact Hpok.
  - intros tid' k' j' b [= <- <- <-]. apply Hd.
  - intros _. apply Hdis. unfold past, committed. by rewrite Hp, orb_true_r.
Qed.

Lemma data_own_tok : tok rows' (U_of txns) tx'.
Proof using Hgood Hnowait Hinv Ht Hac Hr Hph Hx.
  pose proof own_tok as Htok.
  destruct (tk_data _ _ _ Htok tid k j a Hph Hac) as (row2 & Hr2 & Htk).
  assert (row2 = row) as -> by congruence.
  change tx' with (set_sphase (set_sphase tx (SWrite tid k 0)) (SWrite tid k (S j))).
  apply tok_write_phase; [|by eexists|].
  - apply data_tok; [|by intros ? ? ? ? [= <- <- <-]].
    apply tok_write_phase; [done|eauto|]. intros b Hb. change (wacc tx k = Some b) in Hb.
    assert (b = a) as -> by congruence. by exists row.
  - intros b Hb. change (wacc tx k = Some b) in Hb. assert (b = a) as -> by congruence.
    subst rows'. rewrite lookup_insert_eq. exists row'. split; [done|]. simpl.
    destruct (wacc_Some _ _ _ Hac) as (_ & _ & i & _ & Hi).
    destruct (tk_acc _ _ _ Htok i a Hi) as (row2 & Hr3 & _ & Hlen & _).
    assert (row2 = row) as -> by congruence. pose proof (all_rows_ok _ _ Hr) as [_ Hl].
    assert (j < length (rs_data row))%nat as Hjl.
    { apply lookup_lt_Some in Hx. lia. }
    rewrite (take_S_r (sa_data a) j x Hx), <- Htk.
    rewrite (take_S_r _ j x) by by apply list_lookup_insert_eq.
    by rewrite take_insert_ge.
Qed.

Lemma inv_write_data : sinv (mkSiloSys rows' (<[t := tx']> txns) log).
Proof using Hgood Hnowait Hinv Ht Hac Hr Hph Hx.
  pose proof data_quiet as Hq. pose proof (si_log _ Hinv) as Hlog. simpl in Hlog.
  assert (forall r, U_of (<[t := tx']> txns) r <-> U_of txns r) as HU
    by (intros r; apply (quiet_U _ _ _ Hq)).
  assert (t ∈ log) as Hin.
  { apply (lg_past _ _ _ Hlog t tx Ht). unfold past, committed. by rewrite Hph, orb_true_r. }
  assert (forall rows0 U0 U1 tx0, (forall r, U0 r <-> U1 r) -> tok rows0 U0 tx0 -> tok rows0 U1 tx0)
    as Hiff.
  { intros rows0 U0 U1 tx0 H01 [Hcur Hacc Hcopy Hch Hpok Hdat Hdis]. constructor; try done.
    - intros i b Hb. destruct (Hacc i b Hb) as (r0 & ? & ? & ? & ?). exists r0.
      split_and!; try done; [lia|lia|]. rewrite <- H01. done.
    - intros ty r v buf Hp. destruct (Hcopy ty r v buf Hp) as (? & r0 & ? & ? & ?).
      split; [done|]. exists r0. rewrite <- H01. done. }
  constructor; simpl.
  - intros r row2 [[<- <-]|[Hne H2]]%lookup_insert_Some; [|by apply all_rows_ok].
    destruct (all_rows_ok _ _ Hr) as [Hw Hl]. split; [done|]. simpl. by rewrite length_insert.
  - intros t2 tx2 [[<- <-]|[Hne H2]]%lookup_insert_Some; (eapply Hiff; [intros r; symmetry; apply HU|]).
    + apply data_own_tok.
    + apply data_tok; [by apply (si_txn _ Hinv t2)|]. intros tid2 k2 j2 b Hp Hb Heq. exfalso.
      destruct (writing_excl t2 tx2 k2 b data_held H2) as [-> _]; try done.
      unfold held. rewrite Hp. by apply wacc_Some in Hb as [? _].
  - assert (locks_ok rows (holds (<[t := tx']> txns))) as [Hb Hx'].
    { eapply locks_keep; [apply all_locks|exact Ht| |done]. intros i. unfold held.
      by rewrite Hph. }
    constructor; [|done]. intros r row2 [[<- <-]|[Hne H2]]%lookup_insert_Some; [|by apply Hb].
    apply (Hb _ _ Hr).
  - assert (log_ok rows (<[t := tx']> txns) log) as [Hnd Hi Hpast Hread Hafter Htid Hcont].
    { eapply quiet_log; [exact Hq|exact Hlog|apply same_rows_refl, all_rows_ok|done|done|].
      intros p b Hp Hv. apply (lg_read _ _ _ Hlog p t tx b Hp Ht). unfold validated.
      by rewrite Hph. }
    constructor; try done.
    + intros p q t1 tx1 t2 tx2 i b row2 Hlt Hp Hq2 H1 H2 Hpe Hb [[Heq <-]|[Hne Hr2]]%lookup_insert_Some.
      * eapply (Htid p q t1 tx1 t2 tx2 i b row); try done. by rewrite <- Heq.
      * by eapply (Htid p q t1 tx1 t2 tx2 i b row2).
    + intros r row2 [[<- <-]|[Hne Hr2]]%lookup_insert_Some; [|by apply Hcont].
      destruct (Hcont _ _ Hr) as [Hc1 _]. split; [done|]. intros Hn. destruct Hn. apply HU, data_U.
Qed.
End data.

(** The word is written: the write is complete. *)
Section tid.
Context (j : nat) (Hph : st_phase tx = SWrite tid k j) (Hj : j = length (sa_data a)).
Context (w' : Z) (Hw : silo_write_word tid (rs_word row) = Some w').

Let rows' := <[sa_row a := set_word w' row]> rows.
Let tx' := set_sphase tx (SRelease tid k).
Let txns' := <[t := tx']> txns.

Lemma tid_facts : rtid row < tid /\ w' = enc_lock tid true /\ 0 <= tid < 2 ^ 63 /\
  rs_data row = sa_data a /\ rlock row = true.
Proof using Hgood Hnowait Hinv Ht Hac Hr Hph Hj Hw.
  pose proof own_tok as Htok. pose proof (tk_phase _ _ _ Htok) as Hpok.
  unfold phase_ok in Hpok. rewrite Hph in Hpok. destruct Hpok as [Htr _].
  destruct (all_rows_ok _ _ Hr) as [Hu Hl]. pose proof (clear_lock_mod (rs_word row)) as Hm.
  pose proof (word_enc _ Hu) as Henc. rewrite Henc in Hw.
  assert (0 <= clear_lock (rs_word row) < 2 ^ 63) as Hrange
    by (rewrite Hm; apply Z.mod_pos_bound; lia).
  apply silo_write_word_spec in Hw as (Hlt & Hlk & ->); [|done..].
  split_and!; try done; [lia|lia|].
  destruct (tk_data _ _ _ Htok tid k j a Hph Hac) as (row2 & Hr2 & Htk).
  assert (row2 = row) as -> by congruence.
  destruct (wacc_Some _ _ _ Hac) as (_ & _ & i & _ & Hi).
  destruct (tk_acc _ _ _ Htok i a Hi) as (row2 & Hr3 & _ & Hlen & _).
  rewrite Hj, firstn_all, firstn_all2 in Htk by lia. done.
Qed.

Lemma tid_new : rtid (set_word w' row) = tid.
Proof using Hgood Hnowait Hinv Ht Hac Hr Hph Hj Hw.
  destruct tid_facts as (_ & -> & Htr & _). by apply clear_lock_enc.
Qed.

Lemma tid_unapp i : unapplied tx' i <-> unapplied tx i /\ i <> k.
Proof using Hgood Hnowait Hph Hj. unfold unapplied. rewrite Hph. simpl. lia. Qed.

Lemma tid_U r : U_of txns' r <-> U_of txns r /\ r <> sa_row a.
Proof using Hgood Hnowait Hinv Ht Hac Hph Hj.
  assert (committed tx = true) as Hc by (unfold committed; by rewrite Hph).
  assert (held tx k) as Hk.
  { unfold held. rewrite Hph. by apply wacc_Some in Hac as [? _]. }
  split.
  - intros (t2 & tx2 & [[<- <-]|[Hne H2]]%lookup_insert_Some & Hu).
    + destruct Hu as (i & b & [Hi Hik]%tid_unapp & Hb & <-). split; [exists t, tx; split; [done|]; by exists i, b|].
      intros Heq. apply Hik. by eapply (writing_distinct Hc i k b a).
    + split; [by exists t2, tx2|]. intros ->. destruct (unapp_holds _ _ _ _ H2 Hu) as (i & _ & Hi).
      destruct (lk_excl _ _ all_locks _ _ _ _ _ Hi (holds_intro _ _ _ _ _ Ht Hk Hac)). congruence.
  - intros [(t2 & tx2 & H2 & Hu) Hne]. destruct (decide (t2 = t)) as [->|].
    + assert (tx2 = tx) as -> by congruence. destruct Hu as (i & b & Hi & Hb & <-).
      exists t, tx'. split; [apply lookup_insert_eq|]. exists i, b. split; [|done].
      apply tid_unapp. split; [done|]. intros ->. congruence.
    + exists t2, tx2. split; [|done]. subst txns'. by rewrite lookup_insert_ne.
Qed.

Lemma tid_fw r row2 : rows !! r = Some row2 -> exists row3, rows' !! r = Some row3 /\
  rs_data row3 = rs_data row2 /\ rtid row2 <= rtid row3 /\
  (r = sa_row a -> rtid row3 = tid /\ rtid row2 < tid) /\ (r <> sa_row a -> row3 = row2).
Proof using Hgood Hnowait Hinv Ht Hac Hr Hph Hj Hw.
  intros H2. pose proof tid_facts as [Hlt _]. pose proof tid_new as Hnew. subst rows'.
  destruct (decide (r = sa_row a)) as [->|Hne].
  - rewrite lookup_insert_eq. exists (set_word w' row). assert (row2 = row) as -> by congruence.
    split_and!; try done. lia.
  - rewrite lookup_insert_ne by done. exists row2. split_and!; done.
Qed.

Lemma tid_tok tx2 : tok rows (U_of txns) tx2 ->
  (forall i b, checked tx2 i -> wacc tx2 i = Some b -> sa_row b <> sa_row a) ->
  tok rows' (U_of txns') tx2.
Proof using Hgood Hnowait Hinv Ht Hac Hr Hph Hj Hw.
  intros [Hcur Hacc Hcopy Hch Hpok Hdat Hdis] Hne. constructor; try done.
  - intros i b Hb. destruct (Hacc i b Hb) as (row2 & Hr2 & ? & ? & Hd).
    destruct (tid_fw _ _ Hr2) as (row3 & Hr3 & Hda & Hle & Hnew & Hsame). exists row3.
    rewrite Hda. split_and!; [done|lia|lia|done|]. intros Hti HU.
    destruct (decide (sa_row b = sa_row a)) as [Heq|Hn]; [destruct (Hnew Heq); lia|].
    rewrite (Hsame Hn) in Hti. apply Hd; [done|]. intros HU'. apply HU, tid_U. done.
  - intros ty r v buf Hp. destruct (Hcopy ty r v buf Hp) as (? & row2 & Hr2 & ? & Hd).
    split; [done|]. destruct (tid_fw _ _ Hr2) as (row3 & Hr3 & Hda & Hle & Hnew & Hsame).
    exists row3. rewrite Hda. split_and!; [done|lia|]. intros Hti HU.
    destruct (decide (r = sa_row a)) as [Heq|Hn]; [destruct (Hnew Heq); lia|].
    rewrite (Hsame Hn) in Hti. apply Hd; [done|]. intros HU'. apply HU, tid_U. done.
  - intros i b Hc Hb. destruct (Hch i b Hc Hb) as (row2 & Hr2 & Hti).
    destruct (tid_fw _ _ Hr2) as (row3 & Hr3 & _ & _ & _ & Hsame). exists row3.
    split; [done|]. rewrite (Hsame (Hne i b Hc Hb)). done.
  - intros tid2 k2 j2 b Hp Hb. destruct (Hdat tid2 k2 j2 b Hp Hb) as (row2 & Hr2 & Htk).
    destruct (tid_fw _ _ Hr2) as (row3 & Hr3 & Hda & _). exists row3. by rewrite Hda.
Qed.

Lemma tid_own_tok : tok rows' (U_of txns') tx'.
Proof using Hgood Hnowait Hinv Ht Hac Hr Hph Hj Hw.
  assert (committed tx = true) as Hc by (unfold committed; by rewrite Hph).
  apply tid_tok.
  - apply tok_phase_step; try done; [apply own_tok|..].
    + intros i b Hi _. left. unfold checked in *. rewrite Hph. simpl in Hi. lia.
    + pose proof (tk_phase _ _ _ own_tok) as Hpok. unfold phase_ok in *. rewrite Hph in Hpok.
      destruct Hpok as (? & ? & Hlt). split; [done|]. split.
      * by apply wacc_Some in Hac as [? _].
      * intros i b Hi. apply Hlt. lia.
    + intros _. by apply writing_distinct.
  - intros i b Hi Hb Heq. unfold checked in Hi. simpl in Hi.
    assert (i = k); [|lia]. by eapply (writing_distinct Hc i k b a).
Qed.

Lemma tid_wr_of t2 r : wr_of txns' t2 r = wr_of txns t2 r.
Proof using Ht Hph.
  unfold wr_of. destruct (decide (t2 = t)) as [->|Hne]; subst txns'.
  - rewrite lookup_insert_eq, Ht. unfold wr, committed. by rewrite Hph.
  - by rewrite lookup_insert_ne.
Qed.

Lemma tid_back t2 tx2 : txns' !! t2 = Some tx2 -> exists tx0, txns !! t2 = Some tx0 /\
  (forall r, wr tx2 r = wr tx0 r) /\ pending tx2 = pending tx0 /\ past tx2 = past tx0 /\
  st_accs tx2 = st_accs tx0 /\ (forall r, unapp tx2 r -> unapp tx0 r) /\
  (forall r, r <> sa_row a -> unapp tx0 r -> unapp tx2 r) /\
  (forall b, validated tx2 b -> validated tx0 b).
Proof using Hgood Hnowait Ht Hac Hph Hj.
  intros [[<- <-]|[Hne H2]]%lookup_insert_Some; [|exists tx2; split_and!; done].
  exists tx. split_and!; try done.
  - intros r. unfold wr, committed. by rewrite Hph.
  - unfold pending. by rewrite Hph.
  - unfold past, pending, committed. by rewrite Hph.
  - intros r (i & b & [Hi _]%tid_unapp & Hb). by exists i, b.
  - intros r Hne (i & b & Hi & Hb & <-). exists i, b. split; [|done]. apply tid_unapp.
    split; [done|]. intros ->. assert (b = a) by congruence. by subst.
  - intros b. unfold validated. by rewrite Hph.
Qed.

Lemma tid_log : log_ok rows' txns' log.
Proof using Hgood Hnowait Hinv Ht Hac Hr Hph Hj Hw.
  pose proof (si_log _ Hinv) as [Hnd Hin Hpast Hread Hafter Htid Hcont]. simpl in *.
  assert (forall l r, val db0 txns' l r = val db0 txns l r) as Hval
    by (intros; apply val_ext; intros; apply tid_wr_of).
  constructor; try done.
  - intros t2 H2. destruct (decide (t2 = t)) as [->|]; subst txns'.
    + rewrite lookup_insert_eq. eauto.
    + rewrite lookup_insert_ne by done. auto.
  - intros t2 tx2 (tx0 & H0 & _ & _ & Hp & _)%tid_back. rewrite Hp. eauto.
  - intros p t2 tx2 b Hp (tx0 & H0 & _ & _ & _ & _ & _ & _ & Hv)%tid_back Hvb.
    destruct (Hread p t2 tx0 b Hp H0 (Hv b Hvb)) as [Hv1 Hv2]. split; [by rewrite Hval|].
    intros q t3 tx3 Hlt Hq (tx4 & H4 & _ & Hp4 & _ & Ha4 & _)%tid_back [Hp3 Hf3].
    apply (Hv2 q t3 tx4 Hlt Hq H4). split; [congruence|by rewrite <- Ha4].
  - intros p q t1 tx1 t2 tx2 r Hlt Hp Hq (tx3 & H3 & _ & Hpe & _ & Ha & Hu & _)%tid_back
      (tx4 & H4 & Hwr & _)%tid_back Hor. rewrite Hwr.
    eapply (Hafter p q t1 tx3 t2 tx4); try done. destruct Hor as [[Hp1 Hf1]|Hu1]; [left|right; auto].
    split; [congruence|by rewrite <- Ha].
  - intros p q t1 tx1 t2 tx2 i b row3 Hlt Hp Hq (tx3 & H3 & _ & Hpe & _ & Ha & _)%tid_back
      (tx4 & H4 & Hwr & _ & _ & _ & _ & Hu & _)%tid_back Hpe1 Hb Hr3 Hti Hw2.
    rewrite Ha in Hb. rewrite Hpe in Hpe1. rewrite Hwr in Hw2.
    destruct (tk_acc _ _ _ (si_txn _ Hinv t1 tx3 H3) i b Hb) as (row2 & Hr2 & Hle & _).
    destruct (tid_fw _ _ Hr2) as (row4 & Hr4 & _ & _ & Hnew & Hsame).
    assert (row4 = row3) as -> by congruence.
    destruct (decide (sa_row b = sa_row a)) as [Heq|Hne].
    { destruct (Hnew Heq). simpl in Hle. lia. }
    rewrite (Hsame Hne) in Hti. apply Hu; [done|].
    by eapply (Htid p q t1 tx3 t2 tx4 i b row2).
  - intros r row3 Hr3. assert (exists row2, rows !! r = Some row2 /\ rs_data row3 = rs_data row2)
      as (row2 & Hr2 & ->).
    { subst rows'. apply lookup_insert_Some in Hr3 as [[<- <-]|[Hne Hr3]]; eauto. }
    destruct (Hcont r row2 Hr2) as [Hc1 Hc2]. rewrite Hval. split.
    + intros t2 tx2 (tx4 & H4 & Hwr & _ & _ & _ & Hu & _)%tid_back Hu2. rewrite Hwr. eauto.
    + intros HU. destruct (decide (r = sa_row a)) as [->|Hne].
      * assert (row2 = row) as -> by congruence. destruct tid_facts as (_ & _ & _ & -> & _).
        assert (committed tx = true) as Hc by (unfold committed; by rewrite Hph).
        rewrite (Hc1 t tx Ht).
        -- unfold wr. rewrite Hc. by apply (find_write_wacc tx k a); [apply writing_distinct|].
        -- exists k, a. split; [|done]. unfold unapplied. by rewrite Hph.
      * apply Hc2. intros HU'. apply HU, tid_U. done.
Qed.

Lemma inv_write_tid : sinv (mkSiloSys rows' txns' log).
Proof using Hgood Hnowait Hinv Ht Hac Hr Hph Hj Hw.
  destruct tid_facts as (Hlt & Hw' & Htr & _ & Hlk).
  assert (held tx k) as Hk.
  { unfold held. rewrite Hph. by apply wacc_Some in Hac as [? _]. }
  constructor; simpl.
  - intros r row2 [[<- <-]|[Hne H2]]%lookup_insert_Some; [|by apply all_rows_ok].
    destruct (all_rows_ok _ _ Hr) as [_ Hl]. split; [|done]. simpl. rewrite Hw'.
    by apply enc_lock_range.
  - intros t2 tx2 [[<- <-]|[Hne H2]]%lookup_insert_Some; [apply tid_own_tok|].
    apply tid_tok; [by apply (si_txn _ Hinv t2)|]. intros i b Hc Hb Heq.
    destruct (writing_excl t2 tx2 i b Hk H2) as [-> _]; try done. by eapply checked_held.
  - assert (locks_ok rows (holds txns')) as [Hb Hx'].
    { eapply locks_keep; [apply all_locks|exact Ht| |done]. intros i. unfold held.
      by rewrite Hph. }
    constructor; [|done]. intros r row2 [[<- <-]|[Hne H2]]%lookup_insert_Some; [|by apply Hb].
    rewrite <- (Hb _ _ Hr), Hlk. unfold rlock. simpl. rewrite Hw', is_locked_enc by done. done.
  - apply tid_log.
Qed.
End tid.

(** The row is released. *)
Lemma inv_release_row w' : st_phase tx = SRelease tid k -> silo_release (rs_word row) = Some w' ->
  sinv (mkSiloSys (<[sa_row a := set_word w' row]> rows)
    (<[t := set_sphase tx (SWrite tid (S k) 0)]> txns) log).
Proof using Hgood Hnowait Hinv Ht Hac Hr.
  intros Hph Hw. assert (committed tx = true) as Hc by (unfold committed; by rewrite Hph).
  assert (held tx k) as Hk.
  { unfold held. rewrite Hph. by apply wacc_Some in Hac as [? _]. }
  destruct (all_rows_ok _ _ Hr) as [Hu _]. pose proof (clear_lock_mod (rs_word row)) as Hm.
  rewrite (word_enc _ Hu) in Hw.
  assert (0 <= clear_lock (rs_word row) < 2 ^ 63) as Hrange
    by (rewrite Hm; apply Z.mod_pos_bound; lia).
  apply silo_release_spec in Hw as [Hl ->]; [|done].
  assert (same_rows rows (<[sa_row a := set_word (enc_lock (clear_lock (rs_word row)) false) row]> rows)) as Hs.
  { apply same_rows_word; [done|apply all_rows_ok|by apply clear_lock_enc|].
    by apply enc_lock_range. }
  pose proof own_tok as Htok. pose proof (tk_phase _ _ _ Htok) as Hpok.
  unfold phase_ok in Hpok. rewrite Hph in Hpok. destruct Hpok as (Htr & Hkw & Htl).
  eapply inv_in_past; [exact Hinv|exact Ht| | | |done| | |exact Hs| |].
  - unfold past. by rewrite Hc, orb_true_r.
  - unfold pending. by rewrite Hph.
  - unfold committed. by rewrite Hph.
  - intros r. unfold unapp, unapplied. rewrite Hph. done.
  - intros p b _ Hv. left. unfold validated in *. by rewrite Hph.
  - eapply tok_same; [exact Hs|done|]. destruct Htok as [Hcur Hacc _ Hch _ _ Hdis].
    constructor; try done.
    + intros i b Hi. apply Hch. unfold checked in *. by rewrite Hph.
    + intros tid' k' j b [= <- <- <-] Hb. destruct (wacc_Some _ _ _ Hb) as (_ & _ & i & _ & Hi).
      destruct (Hacc i b Hi) as (row2 & Hr2 & _). by exists row2.
    + intros _. by apply writing_distinct.
  - eapply locks_del; try done; [apply all_locks|by apply is_locked_enc|].
    intros i. unfold held. rewrite Hph. simpl.
    change (wr_cnt (set_sphase tx (SWrite tid (S k) 0))) with (wr_cnt tx). lia.
Qed.
End writing.

Lemma inv_committed tid : st_phase tx = SWrite tid (wr_cnt tx) 0 ->
  sinv (mkSiloSys rows (<[t := set_sphase tx (SDone RCOK)]> txns) log).
Proof using Hgood Hnowait Hinv Ht.
  intros Hph. assert (committed tx = true) as Hc by (unfold committed; by rewrite Hph).
  eapply inv_in_past; [exact Hinv|exact Ht| | | |done| | | | |].
  - unfold past. by rewrite Hc, orb_true_r.
  - unfold pending. by rewrite Hph.
  - unfold committed. by rewrite Hph.
  - intros r. split; [by intros (i & b & [] & _)|]. intros (i & b & Hi & Hb & _).
    unfold unapplied in Hi. rewrite Hph in Hi. apply wacc_Some in Hb as [? _]. lia.
  - intros p b _ Hv. left. unfold validated in *. by rewrite Hph.
  - apply same_rows_refl, all_rows_ok.
  - apply tok_phase_step; try done; [apply own_tok|]. intros _. by apply writing_distinct.
  - eapply locks_keep; [apply all_locks|exact Ht| |done]. intros i. unfold held. rewrite Hph.
    simpl. lia.
Qed.
End steps.

(** *** All steps *)

(** Discharges what [inv_new_phase] asks of a step from a phase given by
    [Hph] that neither locks nor commits. *)
Ltac new_phase Hph :=
  eapply inv_new_phase; try eassumption; try done;
  try (unfold loggable, past, pending, committed; by rewrite Hph);
  try (intros ?; unfold held; rewrite Hph; simpl; lia);
  try (intros ? ? ?; by left);
  try (intros ? ? Hc; unfold checked in Hc; simpl in Hc; lia);
  try (unfold phase_ok, wr_cnt in *; simpl; lia).

Lemma access_step_inv rows txns log t tx tx' :
  sc_pre_abort cfg = true \/ sc_bounded cfg = false -> sc_no_wait cfg = true ->
  sinv (mkSiloSys rows txns log) -> txns !! t = Some tx -> access_step rows tx tx' ->
  sinv (mkSiloSys rows (<[t := tx']> txns) log).
Proof.
  intros Hgood Hnw Hinv Ht [ty r Hph|ty r row Hph|ty r v buf row x Hph|ty r v buf row Hph Hr].
  - new_phase Hph.
  - by eapply inv_load.
  - by eapply inv_copy.
  - destruct (Z.eqb_spec (rs_word row) v) as [Hv|Hv]; [by eapply inv_copied|new_phase Hph].
Qed.

Lemma txn_step_inv rows txns log t tx rows' tx' :
  sc_pre_abort cfg = true \/ sc_bounded cfg = false -> sc_no_wait cfg = true ->
  sinv (mkSiloSys rows txns log) -> txns !! t = Some tx -> txn_step t rows tx rows' tx' ->
  sinv (mkSiloSys rows' (<[t := tx']> txns) log).
Proof.
  intros Hgood Hnw Hinv Ht Hst.
  pose proof (tk_phase _ _ _ (si_txn _ Hinv t tx Ht)) as Hpok. unfold phase_ok in Hpok.
  destruct Hst as
    [tx' Hac|i d Hph|Hph
    |i a row Hph Ha Hr|Hph|i a row v w' Hph|i a row v w' Hph|i a row Hph Ha Hr
    |i n a row w' Hph Hi Ha Hr Hw|n Hph|i a row Hph Ha Hr|Hph|n Hph|n Hb Hph
    |i a row fuel v w' Hph|i a row Hph|i m a row Hph|m Hph|i m a row Hph|m Hph
    |tid i j a row x Hph|tid i j a row w' Hph|tid i a row w' Hph|tid Hph
    |i n a row w' Hph Hi Ha Hr Hw|n Hph];
    [by eapply access_step_inv|rewrite Hph in Hpok..].
  all: try (assert (pending tx = true) as Hpe by (unfold pending; by rewrite Hph)).
  - by apply inv_smodify.
  - unfold lock_start. rewrite Hnw. case (sc_pre_abort cfg); new_phase Hph.
  - destruct (negb _); new_phase Hph.
  - unfold lock_start. rewrite Hnw. new_phase Hph.
  - by eapply inv_try.
  - new_phase Hph.
  - pose proof (proj1 (wacc_Some _ _ _ Ha)) as Hlt.
    destruct (silo_get_tid (rs_word row) =? sa_tid a) eqn:He; simpl; new_phase Hph.
    + intros j b Hj Hb. unfold checked in Hj. simpl in Hj. destruct (decide (j = i)) as [->|].
      * right. assert (b = a) as -> by congruence. b2p. by exists row.
      * left. unfold checked. rewrite Hph. lia.
  - assert (held tx i) as Hh by (unfold held; rewrite Hph; lia).
    eapply inv_unlock; try done; [unfold committed; by rewrite Hph
      |unfold loggable, past, pending, committed; by rewrite Hph| |intros ? []|].
    + intros j. unfold held. rewrite Hph. simpl. lia.
    + unfold phase_ok. simpl. change (wr_cnt (set_sphase tx (SUndo (S i) n))) with (wr_cnt tx). lia.
  - assert (sc_pre_abort cfg = false -> sc_bounded cfg = false) as Hnb
      by (intros; destruct Hgood; congruence).
    revert Hnb. case (sc_pre_abort cfg); intros Hnb; new_phase Hph.
  - destruct (negb _); new_phase Hph.
  - new_phase Hph.
  - new_phase Hph.
  - destruct Hpok as [->|]; [|congruence]. new_phase Hph.
  - done.
  - done.
  - by apply inv_read_val.
  - by apply inv_reads_ok.
  - by apply inv_write_val.
  - by eapply inv_commit_silo.
  - by eapply inv_write_data.
  - by eapply inv_write_tid.
  - by eapply inv_release_row.
  - by eapply inv_committed.
  - assert (held tx i) as Hh by (unfold held; rewrite Hph; lia).
    eapply inv_unlock; try done; [unfold committed; by rewrite Hph| |intros ? []|].
    + intros j. unfold held. rewrite Hph. simpl. lia.
    + unfold phase_ok. simpl. change (wr_cnt (set_sphase tx (SAbort (S i) n))) with (wr_cnt tx). lia.
  - new_phase Hph.
Qed.

Lemma inv_sbegin rows txns log t cur : sinv (mkSiloSys rows txns log) -> txns !! t = None ->
  0 <= cur < 2 ^ 63 -> sinv (mkSiloSys rows (<[t := mkStxn cur [] SRun]> txns) log).
Proof.
  intros Hinv Ht Hcur. pose proof (si_rows _ Hinv) as Hrows. simpl in Hrows.
  eapply inv_quiet; try done; [|by apply same_rows_refl|..].
  - constructor; [..|done].
    + intros r. unfold wr_of. by rewrite Ht.
    + intros r. split; [by intros (i & a & [] & _)|]. intros (tx & Htx & _). congruence.
  - eapply locks_equiv; [|apply (si_locks _ Hinv)]. intros t2 i r.
    destruct (decide (t2 = t)) as [->|Hne]; [|by apply holds_other]. rewrite holds_own. split.
    + by intros (a & [] & _).
    + intros (tx & a & Htx & _). simpl in Htx. congruence.
  - intros Hin. destruct (lg_in _ _ _ (si_log _ Hinv) t Hin) as (tx & Htx & _). simpl in Htx. congruence.
Qed.

Lemma silo_step_inv s s' : sc_pre_abort cfg = true \/ sc_bounded cfg = false ->
  sc_no_wait cfg = true -> sinv s -> silo_step s s' -> sinv s'.
Proof.
  intros Hgood Hnw Hinv Hst. revert Hinv. destruct Hst as
    [rows txns log t cur Ht Hc|rows txns log t tx rows' tx' Ht Hst|rows txns log t tx Ht [Hph|Hph]];
    intros Hinv.
  - by apply inv_sbegin.
  - by eapply txn_step_inv.
  - by apply inv_locked.
  - pose proof (tk_phase _ _ _ (si_txn _ Hinv t tx Ht)) as Hpok. unfold phase_ok in Hpok.
    by rewrite Hph in Hpok.
Qed.

(** *** The log as a serial execution *)

Lemma accs_distinct tx : writes_distinct tx -> forall i j a b, st_accs tx !! i = Some a ->
  st_accs tx !! j = Some b -> is_wr a = true -> is_wr b = true -> sa_row a = sa_row b -> i = j.
Proof.
  intros Hd i j a b Ha Hb Hwa Hwb Heq.
  assert (forall i a, st_accs tx !! i = Some a -> is_wr a = true ->
    exists k, write_set (st_accs tx) !! k = Some i) as Hpos.
  { intros i' a' Ha' Hw'. apply list_elem_of_lookup, elem_of_write_set. eauto. }
  destruct (Hpos i a Ha Hwa) as [k Hk], (Hpos j b Hb Hwb) as [l Hl].
  assert (k = l) as ->; [|congruence]. apply (Hd k l a b); [| |done]; unfold wacc.
  - by rewrite Hk.
  - by rewrite Hl.
Qed.

Lemma writes_NoDup_accs accs : (forall i j a b, accs !! i = Some a -> accs !! j = Some b ->
    is_wr a = true -> is_wr b = true -> sa_row a = sa_row b -> i = j) ->
  NoDup (map (fun a => (sa_row a, sa_data a)) (List.filter is_wr accs)).*1.
Proof.
  induction accs as [|a accs IH]; intros Hd; simpl; [constructor|].
  assert (NoDup (map (fun a => (sa_row a, sa_data a)) (List.filter is_wr accs)).*1) as Hnd.
  { apply IH. intros i j b c Hb Hc Hwb Hwc Heq. by specialize (Hd (S i) (S j) b c Hb Hc Hwb Hwc Heq) as [=]. }
  destruct (is_wr a) eqn:Hw; [|done]. simpl. apply NoDup_cons. split; [|done].
  intros ([r d] & Hr & Hin)%list_elem_of_fmap. simpl in Hr. subst r.
  apply list_elem_of_In, in_map_iff in Hin as (b & [= Hb <-] & [Hinb Hwb]%filter_In).
  apply list_elem_of_In, list_elem_of_lookup in Hinb as [j Hj].
  by specialize (Hd 0%nat (S j) a b eq_refl Hj Hw Hwb (eq_sym Hb)).
Qed.

Lemma apply_commit_of tx db r : writes_distinct tx -> committed tx = true ->
  apply_writes (c_writes (commit_of tx)) db !! r =
  match wr tx r with Some d => Some d | None => db !! r end.
Proof.
  intros Hd Hc. unfold wr. rewrite Hc. simpl.
  destruct (find_write (st_accs tx) r) as [d|] eqn:Hf.
  - apply apply_writes_in; [by apply writes_NoDup_accs, accs_distinct|].
    apply find_write_Some in Hf as (j & a & Ha & Hw & <- & <-).
    apply list_elem_of_In, in_map_iff. exists a. split; [done|]. apply filter_In.
    split; [apply list_elem_of_In, list_elem_of_lookup; eauto|done].
  - apply apply_writes_other. intros v Hin%list_elem_of_In.
    apply in_map_iff in Hin as (a & [= <- <-] & [Hin Hw]%filter_In).
    unfold find_write in Hf. destruct (List.find _ _) eqn:Hfi; [done|].
    eapply (List.find_none _ _) in Hfi; [|exact Hin]. by rewrite Hw, Nat.eqb_refl in Hfi.
Qed.

Section final.
Context (s : silo_sys) (Hinv : sinv s).

Lemma final_distinct t tx : ss_txns s !! t = Some tx -> committed tx = true -> writes_distinct tx.
Proof using Hinv.
  intros Ht Hc. apply (tk_distinct _ _ _ (si_txn _ Hinv t tx Ht)). unfold past.
  by rewrite Hc, orb_true_r.
Qed.

Lemma silo_commits_snoc txns l t : silo_commits txns (l ++ [t]) =
  silo_commits txns l ++ silo_commits txns [t].
Proof. apply omap_app. Qed.

Lemma serial_val l r : serial_db db0 (silo_commits (ss_txns s) l) !! r = val db0 (ss_txns s) l r.
Proof using Hinv.
  induction l as [|t l IH] using rev_ind; [done|]. rewrite silo_commits_snoc.
  unfold silo_commits at 2. simpl. unfold val in *. rewrite fold_left_app. simpl. unfold wr_of at 1.
  destruct (ss_txns s !! t) as [tx|] eqn:Ht; [|by rewrite app_nil_r].
  destruct (committed tx) eqn:Hc.
  - rewrite serial_db_snoc, apply_commit_of, IH; [done|by eapply final_distinct|done].
  - rewrite app_nil_r, inert_wr; done.
Qed.

Lemma final_replay p : replay db0 (silo_commits (ss_txns s) (take p (ss_log s))).
Proof using Hinv.
  induction p as [|p IH]; [done|]. destruct (ss_log s !! p) as [t|] eqn:Hp.
  - rewrite (take_S_r _ _ t Hp), silo_commits_snoc. unfold silo_commits at 2. simpl.
    destruct (ss_txns s !! t) as [tx|] eqn:Ht; [|by rewrite app_nil_r].
    destruct (committed tx) eqn:Hc; [|by rewrite app_nil_r].
    apply replay_snoc. split; [done|]. simpl. intros r v Hin%list_elem_of_In.
    apply in_map_iff in Hin as (a & [= <- <-] & Hin). rewrite serial_val.
    apply list_elem_of_In, list_elem_of_lookup in Hin as [i Hi].
    apply (lg_read _ _ _ (si_log _ Hinv) p t tx a Hp Ht). unfold validated, committed in *.
    destruct (st_phase tx) as [| | | | | | | | | | | | | | | |[]]; try done; eauto.
  - apply lookup_ge_None_1 in Hp. rewrite firstn_all2 by lia. by rewrite firstn_all2 in IH by lia.
Qed.

Lemma final_content r row : ss_rows s !! r = Some row ->
  (forall t tx, ss_txns s !! t = Some tx -> committed tx = true -> st_phase tx = SDone RCOK) ->
  serial_db db0 (silo_commits (ss_txns s) (ss_log s)) !! r = Some (rs_data row).
Proof using Hinv.
  intros Hr Hdone. rewrite serial_val.
  apply (lg_content _ _ _ (si_log _ Hinv) r row Hr). intros (t & tx & Ht & i & a & Hu & _).
  unfold unapplied in Hu. destruct (committed tx) eqn:Hc.
  - by rewrite (Hdone t tx Ht Hc) in Hu.
  - unfold committed in Hc. by destruct (st_phase tx).
Qed.

Lemma final_release t tx i a row : ss_txns s !! t = Some tx -> held tx i -> wacc tx i = Some a ->
  ss_rows s !! sa_row a = Some row -> silo_release (rs_word row) <> None.
Proof using Hinv.
  intros Ht Hh Ha Hr. assert (rlock row = true) as Hl.
  { apply (lk_bit _ _ (si_locks _ Hinv) _ _ Hr). exists t, i. by exists tx, a. }
  unfold silo_release, c_assert. unfold rlock in Hl. by rewrite Hl.
Qed.

Lemma final_write t tx tid i j a row : ss_txns s !! t = Some tx -> st_phase tx = SWrite tid i j ->
  wacc tx i = Some a -> ss_rows s !! sa_row a = Some row ->
  silo_write_word tid (rs_word row) <> None.
Proof using Hinv.
  intros Ht Hph Ha Hr. pose proof (si_txn _ Hinv t tx Ht) as Htok.
  assert (rlock row = true) as Hl.
  { apply (lk_bit _ _ (si_locks _ Hinv) _ _ Hr). exists t, i. exists tx, a.
    split_and!; try done. unfold held. rewrite Hph. by apply wacc_Some in Ha as [? _]. }
  destruct (tk_checked _ _ _ Htok i a) as (row2 & Hr2 & Hti); [|done|].
  { unfold checked. by rewrite Hph. }
  assert (row2 = row) as -> by congruence. pose proof (tk_phase _ _ _ Htok) as Hpok.
  unfold phase_ok in Hpok. rewrite Hph in Hpok. destruct Hpok as (_ & _ & Hlt).
  assert (sa_tid a < tid) by (apply (Hlt i); [lia|done]).
  unfold silo_write_word, c_assert. unfold rlock, rtid in *. rewrite Hl.
  replace (clear_lock (rs_word row) <? tid) with true by lia. done.
Qed.
End final.
End invariant.

Definition row_len (rows : gmap nat Row_silo) (r : nat) : nat :=
  match rows !! r with Some row => length (rs_data row) | None => 0%nat end.

Lemma silo_init_inv s : silo_init s -> sinv (row_len (ss_rows s)) (rs_data <$> ss_rows s) s.
Proof.
  destruct s as [rows txns log]. unfold silo_init. simpl. intros (-> & -> & Hw).
  constructor; simpl; try done.
  - intros r row Hr. split; [by rewrite (Hw r row Hr)|]. unfold row_len. by rewrite Hr.
  - constructor.
    + intros r row Hr. unfold rlock. rewrite (Hw r row Hr). split; [done|].
      by intros (t & i & tx & a & Ht & _).
    + by intros t t' i j r (tx & a & Ht & _).
  - constructor; try done; [constructor|by intros t ?%not_elem_of_nil|].
    intros r row Hr. split; [done|]. intros _. unfold val. simpl. by rewrite lookup_fmap, Hr.
Qed.

Lemma silo_reach_inv s s' : sc_pre_abort cfg = true \/ sc_bounded cfg = false ->
  sc_no_wait cfg = true -> silo_init s -> rtc silo_step s s' ->
  sinv (row_len (ss_rows s)) (rs_data <$> ss_rows s) s'.
Proof.
  intros Hgood Hnw Hi Hsteps. pose proof (silo_init_inv s Hi) as Hinv. revert Hinv.
  generalize (row_len (ss_rows s)) (rs_data <$> ss_rows s). clear Hi. intros len db0.
  induction Hsteps; [done|]. intros Hinv. apply IHHsteps. by eapply silo_step_inv.
Qed.
End silo.

(** ** Correctness *)

(** C3. Silo's validation gives serializable histories, in the order in which
    the transactions had locked their write sets, in every interleaving of the
    accesses to the rows' words and tuples: every committed transaction read,
    untorn, exactly what the ones before it left; when no write is outstanding
    the rows hold the result of the serial execution; and the assertions of
    [write] and [release] never fail.  The locks are tried without waiting, and
    the back-off gives up only together with the pre-abort checks. *)
Theorem silo_serializable {W} primary_key cfg (s s' : @silo_sys W) :
  sc_pre_abort cfg = true \/ sc_bounded cfg = false -> sc_no_wait cfg = true ->
  silo_init s -> rtc (silo_step primary_key cfg) s s' ->
  let db0 := rs_data <$> ss_rows s in
  let cs := silo_commits (ss_txns s') (ss_log s') in
  replay db0 cs /\
  ((forall t tx, ss_txns s' !! t = Some tx -> committed tx = true -> st_phase tx = SDone RCOK) ->
   forall r row, ss_rows s' !! r = Some row -> serial_db db0 cs !! r = Some (rs_data row)) /\
  (forall t tx tid i j a row, ss_txns s' !! t = Some tx -> st_phase tx = SWrite tid i j ->
     wacc primary_key cfg tx i = Some a -> ss_rows s' !! sa_row a = Some row ->
     silo_write_word tid (rs_word row) <> None) /\
  (forall t tx i a row, ss_txns s' !! t = Some tx -> held primary_key cfg tx i ->
     wacc primary_key cfg tx i = Some a -> ss_rows s' !! sa_row a = Some row ->
     silo_release (rs_word row) <> None).
Proof.
  intros Hgood Hnw Hi Hr. pose proof (silo_reach_inv _ _ s s' Hgood Hnw Hi Hr) as Hinv.
  split_and!.
  - rewrite <- (firstn_all (ss_log s')). by eapply final_replay.
  - intros Hd r row Hrow. by eapply final_content.
  - intros t tx tid i j a row. by eapply final_write.
  - intros t tx i a row. by eapply final_release.
Qed.

(** The demonstrations: rows 7 and 8 of one word each, read and changed. *)
Definition silo_demo : @silo_sys Z :=
  mkSiloSys {[ 7%nat := mkRow_silo 0 [100]; 8%nat := mkRow_silo 0 [100] ]} ∅ [].

Lemma silo_demo_init : silo_init silo_demo.
Proof.
  split_and!; [done|done|]. simpl. intros r row.
  intros [[_ <-]|[_ [_ <-]%lookup_singleton_Some]]%lookup_insert_Some; done.
Qed.

Ltac silo_side :=
  first [ reflexivity
        | intros ? [= <-]; reflexivity
        | split; [by vm_compute|by vm_compute]
        | left; reflexivity | right; reflexivity ].

(** One step of transaction [t] by the constructor [c]. *)
Tactic Notation "silo_go" constr(t) uconstr(c) :=
  eapply rtc_l;
  [eapply (silo_txn _ _ _ _ _ t); [reflexivity|eapply c; silo_side]|cbn].

Tactic Notation "silo_ac" constr(t) uconstr(c) :=
  eapply rtc_l;
  [eapply (silo_txn _ _ _ _ _ t); [reflexivity|eapply silo_reads; eapply c; silo_side]|cbn].

(** [t] reads row [r] and changes its copy number [i] to [d]. *)
Ltac silo_rmw t r i d :=
  silo_ac t (silo_access _ _ WR r); silo_ac t silo_load; silo_ac t silo_copy;
  silo_ac t silo_copied; silo_go t (silo_modify Z.of_nat _ t _ _ i [d]).

Ltac silo_new t cur :=
  eapply rtc_l; [eapply (silo_begin _ _ _ _ _ t cur); [reflexivity|lia]|cbn].

Ltac silo_lockpoint t :=
  eapply rtc_l; [eapply (silo_locked _ _ _ _ _ t); [reflexivity|silo_side]|cbn].

Lemma silo_demo_run : exists s',
  rtc (silo_step Z.of_nat (mkSiloCfg true true true)) silo_demo s' /\
  silo_commits (ss_txns s') (ss_log s') = [mkCommit 1 [(7%nat, [100])] [(7%nat, [110])]].
Proof.
  eexists. split.
  - silo_new 1%nat 0. silo_rmw 1%nat 7%nat 0%nat 110.
    silo_go 1%nat silo_start_validation.
    silo_go 1%nat silo_pre. silo_go 1%nat silo_pre_done.
    silo_go 1%nat (silo_try Z.of_nat _ 1%nat _ _ 0%nat _ _ 0). silo_go 1%nat silo_check.
    silo_lockpoint 1%nat. silo_go 1%nat silo_reads_ok. silo_go 1%nat silo_write_val.
    silo_go 1%nat silo_commit. apply rtc_refl.
  - reflexivity.
Qed.

Lemma silo_serializable_witness : exists s' : @silo_sys Z,
  replay (rs_data <$> ss_rows silo_demo) (silo_commits (ss_txns s') (ss_log s')) /\
  silo_commits (ss_txns s') (ss_log s') <> [].
Proof.
  destruct silo_demo_run as (s' & Hrun & Hc). exists s'. split; [|by rewrite Hc].
  refine (proj1 (silo_serializable Z.of_nat (mkSiloCfg true true true) silo_demo s' _ _ _ Hrun)).
  - by left.
  - done.
  - apply silo_demo_init.
Defined.

(** [Row_silo::lock] does not lock.  Its loop condition is the right operand
    of a comma, so the loop ends after one evaluation whatever the word holds;
    the word of a locked row is left as it is. *)
Theorem silo_lock_returns fuel v w :
  exists w', silo_lock (S fuel) v w = Some w' /\
    (is_locked v = true -> w' = w) /\ (w <> v -> w' = w).
Proof.
  unfold silo_lock, silo_lock_iter, cas. simpl. destruct (is_locked v) eqn:Hl; [by exists w|].
  destruct (w =? v) eqn:Heq; b2p; eexists; by split_and!.
Qed.

(** With waiting validation an update is lost: two transactions that both
    read 100 are past their commit, one has finished, and the assertion of the
    other's [release] fails. *)
Theorem silo_waiting_lost_update : exists s' cur1 cur2 row,
  rtc (silo_step Z.of_nat (mkSiloCfg true false false)) silo_demo s' /\
  ss_txns s' !! 1%nat = Some (mkStxn cur1 [mkSacc WR 7 [110] [100] 0] (SDone RCOK)) /\
  ss_txns s' !! 2%nat = Some (mkStxn cur2 [mkSacc WR 7 [120] [100] 0] (SRelease cur2 0)) /\
  ss_rows s' !! 7%nat = Some row /\ rs_data row = [120] /\ silo_release (rs_word row) = None.
Proof.
  eexists _, _, _, _. split.
  - silo_new 1%nat 0. silo_new 2%nat 1.
    silo_rmw 1%nat 7%nat 0%nat 110. silo_rmw 2%nat 7%nat 0%nat 120.
    silo_go 1%nat silo_start_validation. silo_go 1%nat silo_pre. silo_go 1%nat silo_pre_done.
    silo_go 2%nat silo_start_validation. silo_go 2%nat silo_pre. silo_go 2%nat silo_pre_done.
    silo_go 1%nat (silo_wait Z.of_nat _ 1%nat _ _ 0%nat _ _ 1%nat 0).
    silo_go 1%nat silo_wait_check. silo_lockpoint 1%nat.
    silo_go 2%nat (silo_wait Z.of_nat _ 2%nat _ _ 0%nat _ _ 1%nat LOCK_BIT).
    silo_go 2%nat silo_wait_check. silo_lockpoint 2%nat.
    silo_go 1%nat silo_reads_ok. silo_go 1%nat silo_write_val. silo_go 1%nat silo_commit.
    silo_go 2%nat silo_reads_ok. silo_go 2%nat silo_write_val. silo_go 2%nat silo_commit.
    silo_go 1%nat silo_write_data. silo_go 2%nat silo_write_data.
    silo_go 1%nat silo_write_tid. silo_go 2%nat silo_write_tid.
    silo_go 1%nat silo_release_row. silo_go 1%nat silo_committed. apply rtc_refl.
  - split_and!; reflexivity.
Qed.

(** With bounded spinning and without the pre-abort checks an aborting
    transaction releases its locks a second time: transaction 3 has locked row
    7, and transaction 1, which had released it, unlocks it again. *)
Theorem silo_double_release : exists s' tx1 tx3 a row,
  rtc (silo_step Z.of_nat (mkSiloCfg false true true)) silo_demo s' /\
  ss_txns s' !! 1%nat = Some tx1 /\ st_phase tx1 = SAbort 1 1 /\
  ss_txns s' !! 3%nat = Some tx3 /\ held Z.of_nat (mkSiloCfg false true true) tx3 0 /\
  wacc Z.of_nat (mkSiloCfg false true true) tx3 0 = Some a /\
  ss_rows s' !! sa_row a = Some row /\ is_locked (rs_word row) = false.
Proof.
  eexists _, _, _, _, _. split.
  - silo_new 1%nat 0. silo_new 2%nat 0. silo_new 3%nat 0.
    silo_rmw 1%nat 7%nat 0%nat 110. silo_rmw 1%nat 8%nat 1%nat 110.
    silo_rmw 2%nat 8%nat 0%nat 120. silo_rmw 3%nat 7%nat 0%nat 130.
    silo_go 2%nat silo_start_validation.
    silo_go 2%nat (silo_try Z.of_nat _ 2%nat _ _ 0%nat _ _ 0). silo_go 2%nat silo_check.
    silo_go 1%nat silo_start_validation.
    silo_go 1%nat (silo_try Z.of_nat _ 1%nat _ _ 0%nat _ _ 0). silo_go 1%nat silo_check.
    silo_go 1%nat (silo_try_fails Z.of_nat _ 1%nat _ _ 1%nat _ _ LOCK_BIT).
    silo_go 1%nat silo_undo. silo_go 1%nat silo_undone.
    silo_go 3%nat silo_start_validation.
    silo_go 3%nat (silo_try Z.of_nat _ 3%nat _ _ 0%nat _ _ 0). silo_go 3%nat silo_check.
    silo_go 1%nat silo_spin_gives_up. silo_go 1%nat silo_abort_release. apply rtc_refl.
  - split; [reflexivity|]. split; [reflexivity|]. split; [reflexivity|].
    split; [vm_compute; lia|]. split; [reflexivity|]. split; reflexivity.
Qed.
