(* ===== verification/Hekaton.v ===== *)
(** * Hekaton: the versions of one row

    [Row_hekaton] of src/concurrency_control/row_hekaton.h and row_hekaton.cpp: the
    circular buffer of versions, reads, prewrites, the validation of a read and the
    end of a prewrite. The three loops on [blatch] do not compile as they are written
    ([compare_exchange_weak] on a constant); they are taken for what they are meant
    to be, the acquisition of the latch, which makes each function one step, and
    [txn->cur_row(...)] in the loop of [access] for a store to [cur_row]. *)

From S2P Require Import Prelude Global.

(** ** Data *)

(** A [row_t*] is [Some p], [NULL] is [None]. *)
Record WriteHisEntry := mkHis {
  begin_txn : bool;
  end_txn : bool;
  h_begin : Z;
  h_end : Z;
  h_row : option nat }.

Definition INF : Z := UINT64_MAX.

(** [_his_len] is the length of [_write_history]. *)
Record Row_hekaton := mkHekaton {
  _his_latest : nat;
  _his_oldest : nat;
  _write_history : list WriteHisEntry;
  _exists_prewrite : bool }.

Definition _his_len (m : Row_hekaton) : nat := length (_write_history m).

Definition set_row (r : option nat) (e : WriteHisEntry) : WriteHisEntry :=
  mkHis (begin_txn e) (end_txn e) (h_begin e) (h_end e) r.
(** [end_txn = b; end = v] and [begin_txn = true; begin = v]. *)
Definition set_end (b : bool) (v : Z) (e : WriteHisEntry) : WriteHisEntry :=
  mkHis (begin_txn e) b (h_begin e) v (h_row e).
Definition set_begin_txn (v : Z) (e : WriteHisEntry) : WriteHisEntry :=
  mkHis true (end_txn e) v (h_end e) (h_row e).

Definition set_history (h : list WriteHisEntry) (m : Row_hekaton) : Row_hekaton :=
  mkHekaton (_his_latest m) (_his_oldest m) h (_exists_prewrite m).
Definition set_oldest (i : nat) (m : Row_hekaton) : Row_hekaton :=
  mkHekaton (_his_latest m) i (_write_history m) (_exists_prewrite m).

(** [(i == 0) ? _his_len - 1 : i - 1] and [(i + 1) % _his_len]. *)
Definition prev_idx (m : Row_hekaton) (i : nat) : nat :=
  if (i =? 0)%nat then (_his_len m - 1)%nat else (i - 1)%nat.
Definition next_idx (m : Row_hekaton) (i : nat) : nat := ((i + 1) mod _his_len m)%nat.

Section row_hekaton.
(** The contents of a row, and those of a freshly allocated one. [junk]: what a
    fresh array of versions holds. *)
Context {V : Type} (garbage : V) (junk : nat -> WriteHisEntry) (g_thread_cnt : nat).

(** The manager of a row and the rows of its versions. *)
Record hrow := mkHrow { h_man : Row_hekaton; h_heap : gmap nat V }.

Definition set_man (m : Row_hekaton) (w : hrow) : hrow := mkHrow m (h_heap w).

Definition init (row : nat) : Row_hekaton :=
  mkHekaton 0 0
    (mkHis false false 0 INF (Some row) :: map (fun i => set_row None (junk i)) (seq 1 3)) false.

Definition doubleHistory (m : Row_hekaton) : Row_hekaton :=
  let n := _his_len m in
  mkHekaton (n - 1) 0
    (rotate (_his_oldest m) (_write_history m) ++
     map (fun i => mkHis false false (h_begin (junk i)) (h_end (junk i)) None) (seq n n))
    (_exists_prewrite m).

(** The loop of the garbage collection in [reserveRow]; [fuel]: [_his_len]. *)
Fixpoint collect_loop (fuel : nat) (min_ts : Z) (m : Row_hekaton) : option Row_hekaton :=
  do! e <- _write_history m !! _his_oldest m;;
  if h_end e <? min_ts then
    match fuel with
    | O => None
    | S fuel =>
        assert! negb (_his_oldest m =? _his_latest m)%nat;;
        collect_loop fuel min_ts (set_oldest (next_idx m (_his_oldest m)) m)
    end
  else Some m.

Definition full (m : Row_hekaton) : bool := (next_idx m (_his_latest m) =? _his_oldest m)%nat.

Definition collect (min_ts : Z) (m : Row_hekaton) : option Row_hekaton :=
  do! e <- _write_history m !! _his_oldest m;;
  if full m && (h_end e <? min_ts) then collect_loop (_his_len m) min_ts m else Some m.

(** The slot of the next version. *)
Definition pick (m : Row_hekaton) : nat * Row_hekaton :=
  if negb (full m) then (next_idx m (_his_latest m), m)
  else if (_his_len m <? g_thread_cnt)%nat then
    let m := doubleHistory m in (next_idx m (_his_latest m), m)
  else (_his_oldest m, set_oldest (next_idx m (_his_oldest m)) m).

(** [_mm_malloc(sizeof(row_t), 64)] and [init(MAX_TUPLE_SIZE)]. *)
Definition alloc_row (w : hrow) : nat * hrow :=
  let p := fresh (dom (h_heap w)) in (p, mkHrow (h_man w) (<[p := garbage]> (h_heap w))).

(** [reserveRow]; [min_ts] is the result of [glob_manager->get_min_ts]. *)
Definition reserveRow (min_ts : Z) (w : hrow) : option (nat * hrow) :=
  do! m <- collect min_ts (h_man w);;
  let idxm := pick m in
  do! e <- _write_history idxm.2 !! idxm.1;;
  match h_row e with
  | Some _ => Some (idxm.1, set_man idxm.2 w)
  | None =>
      let pw := alloc_row w in
      Some (idxm.1, set_man (set_history (<[idxm.1 := set_row (Some pw.1) e]> (_write_history idxm.2)) idxm.2) pw.2)
  end.

(** The search of an older version: down from [i], which is not looked at, to
    [_his_oldest]. *)
Fixpoint find_version (fuel : nat) (ts : Z) (m : Row_hekaton) (i : nat) : option (option nat) :=
  match fuel with
  | O => None
  | S fuel =>
      let i := prev_idx m i in
      do! e <- _write_history m !! i;;
      if h_begin e <? ts then
        assert! ts <? h_end e;;
        Some (h_row e)
      else if (i =? _his_oldest m)%nat then None (* assert(find) *)
      else find_version fuel ts m i
  end.

(** [access] of a R_REQ; the result is the return code with [cur_row]. *)
Definition access_read (REPEATABLE_READ : bool) (ts : Z) (w : hrow) : option (RC * option nat) :=
  let m := h_man w in
  do! latest <- _write_history m !! _his_latest m;;
  do! oldest <- _write_history m !! _his_oldest m;;
  if REPEATABLE_READ then Some (RCOK, h_row latest)
  else if ts <? h_begin oldest then Some (Abort, None)
  else if h_begin latest <? ts then Some (RCOK, h_row latest)
  else
    do! r <- find_version (_his_len m) ts m (_his_latest m);;
    Some (RCOK, r).

(** [access] of a P_REQ. *)
Definition access_prewrite (ts txn_id min_ts : Z) (w : hrow) : option (RC * option nat * hrow) :=
  do! latest <- _write_history (h_man w) !! _his_latest (h_man w);;
  if _exists_prewrite (h_man w) || (ts <? h_begin latest) then Some (Abort, None, w)
  else
    do! idw <- reserveRow min_ts w;;
    let id := idw.1 in
    let m := h_man idw.2 in
    let pre_id := prev_idx m id in
    let h := alter (set_begin_txn txn_id) id (_write_history m) in
    let h := alter (set_end true txn_id) pre_id h in
    do! e <- h !! id;;
    do! l <- h !! _his_latest m;;
    do! res_row <- h_row e;;
    do! src <- h_row l;;
    do! v <- h_heap idw.2 !! src;;
    Some (RCOK, Some res_row,
      mkHrow (mkHekaton (_his_latest m) (_his_oldest m) h true) (<[res_row := v]> (h_heap idw.2))).

(** [access]. *)
Definition access (REPEATABLE_READ : bool) (ts txn_id min_ts : Z) (type : TsType) (w : hrow)
    : option (RC * option nat * hrow) :=
  let m := h_man w in
  do! latest <- _write_history m !! _his_latest m;;
  assert! (h_end latest =? INF) || end_txn latest;;
  match type with
  | R_REQ =>
      do! r <- access_read REPEATABLE_READ ts w;;
      Some (r.1, r.2, w)
  | P_REQ => access_prewrite ts txn_id min_ts w
  | _ => None
  end.

(** The verdict of [prepare_read] on the version it finds. *)
Definition verdict (ts commit_ts : Z) (e : WriteHisEntry) : RC :=
  if ts <? h_begin e then Abort
  else if negb (end_txn e) && (commit_ts <? h_end e) then RCOK
  else if negb (end_txn e) && (h_end e <? commit_ts) then Abort
  else RCOK.

(** The search of a version by its row: down from [_his_latest] to [_his_oldest]. *)
Fixpoint find_row (fuel : nat) (row : nat) (m : Row_hekaton) (idx : nat) : option (option WriteHisEntry) :=
  match fuel with
  | O => None
  | S fuel =>
      do! e <- _write_history m !! idx;;
      if bool_decide (h_row e = Some row) then Some (Some e)
      else if (idx =? _his_oldest m)%nat then Some None
      else find_row fuel row m (prev_idx m idx)
  end.

Definition prepare_read (ts : Z) (row : nat) (commit_ts : Z) (w : hrow) : option RC :=
  let m := h_man w in
  do! found <- find_row (_his_len m) row m (_his_latest m);;
  match found with
  | Some e => Some (verdict ts commit_ts e)
  | None => Some Abort
  end.

Definition post_process (txn_id commit_ts : Z) (rc : RC) (w : hrow) : option hrow :=
  let m := h_man w in
  let id := next_idx m (_his_latest m) in
  do! e <- _write_history m !! id;;
  do! latest <- _write_history m !! _his_latest m;;
  assert! begin_txn e && (h_begin e =? txn_id);;
  if bool_decide (rc = RCOK) then
    assert! h_begin latest <? commit_ts;;
    let h := <[_his_latest m := set_end false commit_ts latest]> (_write_history m) in
    let h := <[id := mkHis (begin_txn e) (end_txn e) commit_ts INF (h_row e)]> h in
    assert! negb (id =? _his_oldest m)%nat;;
    Some (set_man (mkHekaton id (_his_oldest m) h false) w)
  else
    Some (set_man (mkHekaton (_his_latest m) (_his_oldest m)
      (<[_his_latest m := set_end false INF latest]> (_write_history m)) false) w).
End row_hekaton.

(** ** The circular buffer

    The versions [W] from [_his_oldest] to [_his_latest], and the free slots [F]
    behind them. *)

Definition slot (m : Row_hekaton) (j : nat) : nat := rotate_nat_add (_his_oldest m) j (_his_len m).

Record ring (m : Row_hekaton) (W F : list WriteHisEntry) : Prop := {
  rg_ne : W <> [];
  rg_oldest : (_his_oldest m < _his_len m)%nat;
  rg_rotate : rotate (_his_oldest m) (_write_history m) = W ++ F;
  rg_latest : _his_latest m = slot m (length W - 1) }.

Section ring_lemmas.
Context (m : Row_hekaton) (W F : list WriteHisEntry) (R : ring m W F).

Lemma ring_len : _his_len m = length (W ++ F).
Proof using R. unfold _his_len. rewrite <- (rg_rotate _ _ _ R). by rewrite length_rotate. Qed.

Lemma ring_W : (1 <= length W)%nat.
Proof using R. pose proof (rg_ne _ _ _ R). destruct W; [done|]. cbn. lia. Qed.

Lemma slot_alt j : (j < _his_len m)%nat -> slot m j = (if decide (_his_oldest m + j < _his_len m)%nat
  then _his_oldest m + j else _his_oldest m + j - _his_len m)%nat.
Proof using R. intros. apply rotate_nat_add_alt; [apply R|done]. Qed.

Lemma hk_slot_lt j : (slot m j < _his_len m)%nat.
Proof using R. apply rotate_nat_add_lt. pose proof (rg_oldest _ _ _ R). lia. Qed.

Lemma slot_0 : slot m 0 = _his_oldest m.
Proof using R. apply rotate_nat_add_0, R. Qed.

Lemma hk_slot_inj i j : (i < _his_len m)%nat -> (j < _his_len m)%nat -> slot m i = slot m j -> i = j.
Proof using R. intros Hi Hj. pose proof (rg_oldest _ _ _ R). rewrite !slot_alt by done. repeat case_decide; lia. Qed.

Lemma slot_oldest j : (j < _his_len m)%nat -> (slot m j =? _his_oldest m)%nat = bool_decide (j = 0%nat).
Proof using R.
  intros Hj. rewrite <- slot_0. case_bool_decide as Hc; [subst; by apply Nat.eqb_eq|].
  apply Nat.eqb_neq. intros E. apply Hc, hk_slot_inj; [done|lia|done].
Qed.

Lemma ring_lookup j : (j < _his_len m)%nat -> _write_history m !! slot m j = (W ++ F) !! j.
Proof using R. intros Hj. rewrite <- (rg_rotate _ _ _ R). unfold slot, _his_len. by rewrite lookup_rotate_r. Qed.

Lemma ring_insert j e : (j < _his_len m)%nat ->
  rotate (_his_oldest m) (<[slot m j := e]> (_write_history m)) = <[j := e]> (W ++ F).
Proof using R. intros Hj. rewrite <- (rg_rotate _ _ _ R). by apply rotate_insert_l. Qed.

Lemma next_slot j : (S j < _his_len m)%nat -> next_idx m (slot m j) = slot m (S j).
Proof using R.
  intros Hj. unfold next_idx. pose proof (rg_oldest _ _ _ R). rewrite !slot_alt by lia.
  repeat case_decide; try lia.
  - rewrite Nat.mod_small; lia.
  - symmetry. apply (Nat.mod_unique _ _ 1); lia.
  - rewrite Nat.mod_small; lia.
Qed.

Lemma next_slot_wrap j : S j = _his_len m -> next_idx m (slot m j) = slot m 0.
Proof using R.
  intros Hj. unfold next_idx. pose proof (rg_oldest _ _ _ R). rewrite !slot_alt by lia.
  repeat case_decide; try lia.
  - assert (_his_oldest m = 0)%nat as Ho by lia. rewrite Ho. symmetry. apply (Nat.mod_unique _ _ 1); lia.
  - rewrite Nat.mod_small; lia.
Qed.

Lemma prev_slot j : (S j < _his_len m)%nat -> prev_idx m (slot m (S j)) = slot m j.
Proof using R.
  intros Hj. unfold prev_idx. pose proof (rg_oldest _ _ _ R). rewrite !slot_alt by lia.
  repeat case_decide; match goal with |- context [(?a =? 0)%nat] => destruct (Nat.eqb_spec a 0) end; lia.
Qed.

Lemma ring_full : full m = bool_decide (F = []).
Proof using R.
  unfold full. rewrite (rg_latest _ _ _ R). pose proof ring_len as Hl. rewrite length_app in Hl. pose proof ring_W.
  case_bool_decide as HF.
  - apply (f_equal length) in HF. cbn in HF. rewrite next_slot_wrap by lia. by rewrite slot_oldest by lia.
  - assert (length F <> 0)%nat by (by intros ?%nil_length_inv). rewrite next_slot by lia. rewrite slot_oldest by lia.
    apply bool_decide_eq_false. lia.
Qed.

(** The next slot is the first free one. *)
Lemma ring_next f F' : F = f :: F' -> next_idx m (_his_latest m) = slot m (length W).
Proof using R.
  intros HF%(f_equal length). rewrite (rg_latest _ _ _ R). pose proof ring_len as Hl. rewrite length_app in Hl.
  pose proof ring_W. cbn in HF.
  rewrite next_slot by lia. f_equal. lia.
Qed.

Lemma ring_pop e W' : W = e :: W' -> W' <> [] ->
  ring (set_oldest (next_idx m (_his_oldest m)) m) W' (F ++ [e]).
Proof using R.
  intros HW Hne. pose proof ring_len as Hl. rewrite HW in Hl. cbn in Hl. rewrite length_app in Hl.
  assert (1 <= length W')%nat by (destruct W'; [done|cbn; lia]).
  assert (next_idx m (_his_oldest m) = slot m 1) as Hn by (rewrite <- slot_0; apply next_slot; lia).
  assert (_his_len (set_oldest (next_idx m (_his_oldest m)) m) = _his_len m) as El by done.
  split; [done| | |].
  - rewrite El, Hn. apply hk_slot_lt.
  - cbn. rewrite Hn. apply list_eq. intros i. destruct (decide (i < _his_len m)%nat) as [Hi|Hi].
    2:{ rewrite !lookup_ge_None_2; [done| |rewrite length_rotate; unfold _his_len in *; lia].
        rewrite !length_app. cbn. lia. }
    rewrite lookup_rotate_r by done. fold (_his_len m).
    assert (rotate_nat_add (slot m 1) i (_his_len m) = slot m (if decide (S i < _his_len m) then S i else 0)%nat) as ->.
    { rewrite rotate_nat_add_alt; [|apply hk_slot_lt|done]. pose proof (rg_oldest _ _ _ R).
      rewrite slot_alt by lia. repeat case_decide; rewrite slot_alt by lia; repeat case_decide; lia. }
    rewrite ring_lookup, HW by (case_decide; lia). case_decide; cbn.
    + rewrite (app_assoc W' F [e]), (lookup_app_l (W' ++ F)) by (rewrite length_app; lia). done.
    + rewrite app_assoc, lookup_app_r by (rewrite length_app; lia). rewrite length_app.
      by replace (i - (length W' + length F))%nat with 0%nat by lia.
  - cbn. rewrite (rg_latest _ _ _ R), HW. cbn. unfold slot at 2. rewrite El. cbn. rewrite Hn.
    rewrite rotate_nat_add_alt by (apply hk_slot_lt || lia). pose proof (rg_oldest _ _ _ R).
    rewrite !slot_alt by lia. repeat case_decide; lia.
Qed.
End ring_lemmas.

(** ** The versions of a row *)

(** A version: its timestamp, its row and the contents of that row. *)
Record version (V : Type) := mkVersion { v_ts : Z; v_ptr : nat; v_val : V }.
Arguments mkVersion {V}.
Arguments v_ts {V}.
Arguments v_ptr {V}.
Arguments v_val {V}.

(** Each version ends where the next one begins. *)
Fixpoint chain (W : list WriteHisEntry) : Prop :=
  match W with
  | e :: ((e' :: _) as W') => end_txn e = false /\ h_end e = h_begin e' /\ chain W'
  | _ => True
  end.

Lemma chain_cons e W : chain (e :: W) -> chain W.
Proof. destruct W; [done|]. by intros (_ & _ & ?). Qed.

Lemma chain_last W e e' : h_begin e' = h_begin e -> chain (W ++ [e]) -> chain (W ++ [e']).
Proof.
  intros He. induction W as [|x W IH]; [done|]. destruct W as [|y W]; cbn in *.
  - intros (? & ? & _). split_and!; [done|congruence|done].
  - intros (? & ? & ?). split_and!; [done|done|by apply IH].
Qed.

Lemma chain_snoc W e e' : end_txn e = false -> h_end e = h_begin e' -> chain (W ++ [e]) -> chain (W ++ [e] ++ [e']).
Proof.
  intros Hf He. induction W as [|x W IH]; [done|]. destruct W as [|y W]; cbn in *.
  - intros (? & ? & _). done.
  - intros (? & ? & ?). split_and!; [done|done|by apply IH].
Qed.

Lemma chain_mid W1 e e' W2 : chain (W1 ++ e :: e' :: W2) -> end_txn e = false /\ h_end e = h_begin e'.
Proof. induction W1 as [|x W1 IH]; [cbn; tauto|]. intros H%chain_cons. by apply IH. Qed.

Section versions.
Context {V : Type}.
Implicit Types (w : @hrow V) (vs : list (version V)) (pre : option (Z * nat)).

Definition ver_ok (heap : gmap nat V) (e : WriteHisEntry) (v : version V) : Prop :=
  h_begin e = v_ts v /\ h_row e = Some (v_ptr v) /\ heap !! v_ptr v = Some (v_val v).

(** The versions [vs] of a row, the oldest first, and the transaction and the row of
    the prewrite, if there is one. *)
Record rep w vs pre W0 (l : WriteHisEntry) F : Prop := {
  rp_ring : ring (h_man w) (W0 ++ [l]) F;
  rp_len : (2 <= _his_len (h_man w))%nat;
  rp_ver : Forall2 (ver_ok (h_heap w)) (W0 ++ [l]) vs;
  rp_chain : chain (W0 ++ [l]);
  rp_last : match pre with None => h_end l = INF | Some (id, _) => end_txn l = true /\ h_end l = id end;
  rp_pre : match pre with
           | None => True
           | Some (id, p) => exists f F', F = f :: F' /\ begin_txn f = true /\ h_begin f = id /\ h_row f = Some p
           end;
  rp_flag : _exists_prewrite (h_man w) = bool_decide (pre <> None);
  rp_rows : NoDup (omap h_row (W0 ++ [l] ++ F));
  rp_heap : forall p, p ∈ omap h_row (W0 ++ [l] ++ F) -> is_Some (h_heap w !! p);
  rp_sorted : StronglySorted Z.lt (map v_ts vs);
  rp_bound : Forall (fun v => 0 <= v_ts v < INF) vs }.

Definition vers w vs pre : Prop := exists W0 l F, rep w vs pre W0 l F.

Lemma rep_ne w vs pre W0 l F : rep w vs pre W0 l F -> exists vs0 x, vs = vs0 ++ [x] /\
  Forall2 (ver_ok (h_heap w)) W0 vs0 /\ ver_ok (h_heap w) l x.
Proof.
  intros R. pose proof (rp_ver _ _ _ _ _ _ R) as Hv. apply Forall2_app_inv_l in Hv as (vs0 & vs1 & H0 & H1 & ->).
  apply Forall2_cons_inv_l in H1 as (x & vs2 & Hx & Hn%Forall2_nil_inv_l & ->). subst vs2. by exists vs0, x.
Qed.

Lemma rep_latest w vs pre W0 l F : rep w vs pre W0 l F ->
  _write_history (h_man w) !! _his_latest (h_man w) = Some l.
Proof.
  intros R. pose proof (rp_ring _ _ _ _ _ _ R) as Rg. rewrite (rg_latest _ _ _ Rg).
  pose proof (ring_len _ _ _ Rg) as Hl. rewrite !length_app in Hl. cbn in Hl.
  rewrite (ring_lookup _ _ _ Rg) by (rewrite length_app; cbn; lia). rewrite length_app. cbn.
  rewrite <- app_assoc. apply list_lookup_middle. lia.
Qed.

Lemma rep_oldest w vs pre W0 l F : rep w vs pre W0 l F -> exists e x,
  _write_history (h_man w) !! _his_oldest (h_man w) = Some e /\ head (W0 ++ [l]) = Some e /\
  head vs = Some x /\ ver_ok (h_heap w) e x.
Proof.
  intros R. pose proof (rp_ring _ _ _ _ _ _ R) as Rg. rewrite <- (slot_0 _ _ _ Rg).
  rewrite (ring_lookup _ _ _ Rg) by (pose proof (rp_len _ _ _ _ _ _ R); lia).
  pose proof (rp_ver _ _ _ _ _ _ R) as Hv. destruct (W0 ++ [l]) as [|e W'] eqn:E; [by destruct W0|].
  apply Forall2_cons_inv_l in Hv as (x & vs' & Hx & _ & ->). by exists e, x.
Qed.

Lemma find_version_ok m W F ts : ring m W F -> chain W -> Forall (fun e => h_begin e <> ts) W ->
  (forall e, head W = Some e -> h_begin e < ts) ->
  forall W1 e W2 fuel, W = W1 ++ e :: W2 -> W1 <> [] -> ts < h_begin e -> (length W1 <= fuel)%nat ->
  exists Wa a b Wb, W = Wa ++ a :: b :: Wb /\ h_begin a < ts < h_begin b /\
    find_version fuel ts m (slot m (length W1)) = Some (h_row a).
Proof.
  intros R Hc Hne Hhd W1. induction W1 as [|a W1 IH] using rev_ind; intros e W2 fuel HW H1 Hts Hf; [done|].
  rewrite length_app in *. cbn in Hf. destruct fuel as [|fuel]; [lia|]. cbn [find_version length].
  replace (length W1 + 1)%nat with (S (length W1)) by lia.
  rewrite <- app_assoc in HW. cbn in HW.
  pose proof (ring_len _ _ _ R) as Hl. rewrite length_app, HW, length_app in Hl. cbn in Hl.
  rewrite (prev_slot _ _ _ R), (ring_lookup _ _ _ R), lookup_app_l by (rewrite ?HW, ?length_app; cbn; lia).
  rewrite HW, list_lookup_middle by done.
  assert (h_begin a <> ts) as Ha by (rewrite Forall_forall in Hne; apply Hne; rewrite HW; set_solver).
  destruct (Z.ltb_spec (h_begin a) ts).
  - rewrite HW in Hc. apply chain_mid in Hc as [_ He]. rewrite c_assert_true by lia.
    exists W1, a, e, W2. done.
  - rewrite (slot_oldest _ _ _ R) by lia. case_bool_decide as H0.
    + apply nil_length_inv in H0 as ->. specialize (Hhd a). rewrite HW in Hhd. specialize (Hhd eq_refl). lia.
    + destruct (IH a (e :: W2) fuel HW) as (Wa & a' & b & Wb & E & Hb & Hfv); [by intros ->|lia|lia|].
      exists Wa, a', b, Wb. rewrite <- HW. done.
Qed.

(** A read returns the version of its timestamp, if it is still there. *)
Lemma hk_access_read_ok w vs pre RR ts : vers w vs pre -> Forall (fun v => v_ts v <> ts) vs ->
  (exists v0 vs', vs = v0 :: vs' /\ ts < v_ts v0 /\ RR = false /\ access_read RR ts w = Some (Abort, None)) \/
  exists vs1 v vs2, vs = vs1 ++ v :: vs2 /\ access_read RR ts w = Some (RCOK, Some (v_ptr v)) /\
    (if RR then vs2 = [] else v_ts v < ts /\ Forall (fun v' => ts < v_ts v') vs2).
Proof.
  intros (W0 & l & F & R) Hne. pose proof (rp_ring _ _ _ _ _ _ R) as Rg.
  unfold access_read. rewrite (rep_latest _ _ _ _ _ _ R).
  destruct (rep_oldest _ _ _ _ _ _ R) as (e0 & x0 & -> & Hhd & Hhx & Hx0).
  destruct (rep_ne _ _ _ _ _ _ R) as (vs0 & x & Hvs & Hv0 & Hx).
  destruct vs as [|x1 vs']; [done|]. injection Hhx as ->.
  destruct RR.
  { right. exists vs0, x, []. split; [done|]. destruct Hx as (_ & -> & _). done. }
  destruct (Z.ltb_spec ts (h_begin e0)) as [Hlt|Hge].
  { left. exists x0, vs'. split; [done|]. destruct Hx0 as (<- & _). done. }
  right. destruct (Z.ltb_spec (h_begin l) ts) as [Hl|Hl].
  { exists vs0, x, []. split; [done|]. destruct Hx as (Hb & -> & _). split; [done|]. split; [lia|done]. }
  pose proof (rp_ver _ _ _ _ _ _ R) as Hver. pose proof (rp_sorted _ _ _ _ _ _ R) as Hs.
  assert (Forall (fun e => h_begin e <> ts) (W0 ++ [l])) as Hnb.
  { apply Forall_forall. intros e (i & Hi)%list_elem_of_lookup. destruct (Forall2_lookup_l _ _ _ _ _ Hver Hi) as (v & Hv & Hb & _).
    rewrite Hb. rewrite Forall_forall in Hne. apply Hne. by eapply list_elem_of_lookup_2. }
  assert (h_begin l <> ts) by (rewrite Forall_forall in Hnb; apply Hnb; set_solver).
  assert (h_begin e0 <> ts) as Hne0.
  { rewrite Forall_forall in Hnb. apply Hnb. destruct (W0 ++ [l]); [done|]. injection Hhd as ->. by left. }
  destruct (find_version_ok (h_man w) (W0 ++ [l]) F ts Rg (rp_chain _ _ _ _ _ _ R) Hnb) with
    (W1 := W0) (e := l) (W2 := @nil WriteHisEntry) (fuel := _his_len (h_man w)) as (Wa & a & b & Wb & HW & Hb & Hf).
  - intros e He. rewrite Hhd in He. injection He as <-. lia.
  - done.
  - intros ->. cbn in Hhd. injection Hhd as ->. lia.
  - lia.
  - pose proof (ring_len _ _ _ Rg) as Hlen. rewrite !length_app in Hlen. lia.
  - rewrite (rg_latest _ _ _ Rg), length_app. cbn [length]. replace (length W0 + 1 - 1)%nat with (length W0) by lia.
    rewrite Hf. rewrite HW in Hver. apply Forall2_app_inv_l in Hver as (va & vb & _ & Hvb & Evs).
    apply Forall2_cons_inv_l in Hvb as (y & vb' & Hy & Hvb & ->). apply Forall2_cons_inv_l in Hvb as (z & vb'' & Hz & _ & ->).
    exists va, y, (z :: vb''). split; [done|]. destruct Hy as (Hyb & -> & _), Hz as (Hzb & _). split; [done|].
    rewrite Evs, map_app in Hs. apply StronglySorted_app in Hs as (_ & _ & Hs). cbn in Hs.
    apply StronglySorted_inv in Hs as [Hs _]. apply StronglySorted_inv in Hs as [_ Hs].
    split; [lia|]. constructor; [lia|]. rewrite List.Forall_map in Hs. eapply Forall_impl; [exact Hs|]. cbn. lia.
Qed.

(** *** Reserving a slot *)

Lemma omap_NoDup_perm (l l' : list WriteHisEntry) : l ≡ₚ l' -> NoDup (omap h_row l) -> NoDup (omap h_row l').
Proof. intros H. by rewrite H. Qed.

Lemma rep_pop w vs e W0 l F : rep w vs None (e :: W0) l F ->
  rep (set_man (set_oldest (next_idx (h_man w) (_his_oldest (h_man w))) (h_man w)) w) (tail vs) None W0 l (F ++ [e]).
Proof.
  intros [Rg Hlen Hv Hc Hl Hp Hf Hr Hh Hs Hb]. cbn [app] in *.
  apply Forall2_cons_inv_l in Hv as (v & vs' & Hev & Hv & ->). cbn [tail map] in *.
  assert (e :: W0 ++ [l] ++ F ≡ₚ W0 ++ [l] ++ F ++ [e]) as HP by (rewrite !app_assoc; apply Permutation_cons_append).
  split; cbn [h_man h_heap set_man]; try done.
  - by eapply ring_pop; [done|done|destruct W0].
  - by apply chain_cons in Hc.
  - by eapply omap_NoDup_perm, Hr.
  - intros p. rewrite <- HP. apply Hh.
  - by apply StronglySorted_inv in Hs as [? _].
  - by apply Forall_cons in Hb as [_ ?].
Qed.

Lemma hk_collect_ok w vs W0 l F min_ts : rep w vs None W0 l F -> min_ts <= INF ->
  exists m' W1 W0' F', collect min_ts (h_man w) = Some m' /\ W0 = W1 ++ W0' /\
    rep (set_man m' w) (drop (length W1) vs) None W0' l F'.
Proof.
  intros R Hm. unfold collect. destruct (rep_oldest _ _ _ _ _ _ R) as (e & _ & He & _). rewrite He.
  destruct (full _ && _).
  2:{ exists (h_man w), [], W0, F. split; [done|]. split; [done|]. rewrite drop_0. by destruct w. }
  clear e He. pose proof (ring_len _ _ _ (rp_ring _ _ _ _ _ _ R)) as Hl. rewrite !length_app in Hl.
  assert (length W0 <= _his_len (h_man w))%nat as Hf by lia. clear Hl. revert Hf R.
  generalize (_his_len (h_man w)) as fuel. intros fuel. revert w vs W0 F.
  induction fuel as [|fuel IH]; intros w vs W0 F Hf R;
    destruct (rep_oldest _ _ _ _ _ _ R) as (e & _ & He & Hhd & _); cbn [collect_loop]; rewrite He.
  - destruct W0; [|cbn in Hf; lia]. injection Hhd as ->. pose proof (rp_last _ _ _ _ _ _ R) as Hi. cbn in Hi.
    replace (h_end e <? min_ts) with false by lia.
    exists (h_man w), [], [], F. split_and!; [done|done|]. rewrite drop_0. by destruct w.
  - destruct (Z.ltb_spec (h_end e) min_ts) as [Hlt|].
    2:{ exists (h_man w), [], W0, F. split_and!; [done|done|]. rewrite drop_0. by destruct w. }
    destruct W0 as [|e' W0].
    { injection Hhd as ->. pose proof (rp_last _ _ _ _ _ _ R) as Hi. cbn in Hi. lia. }
    injection Hhd as ->. rewrite c_assert_true.
    2:{ pose proof (rp_ring _ _ _ _ _ _ R) as Rg. rewrite (rg_latest _ _ _ Rg), Nat.eqb_sym, (slot_oldest _ _ _ Rg).
        - rewrite length_app. by rewrite bool_decide_eq_false_2 by (cbn; lia).
        - rewrite (ring_len _ _ _ Rg), !length_app. cbn. lia. }
    cbn in Hf. destruct (IH (set_man (set_oldest (next_idx (h_man w) (_his_oldest (h_man w))) (h_man w)) w) (tail vs) W0 (F ++ [e]))
      as (m' & W1 & W0' & F' & Hcl & -> & R'); [lia|by apply rep_pop|].
    exists m', (e :: W1), W0', F'. split_and!; [exact Hcl|done|]. cbn [length drop]. by destruct vs; rewrite ?drop_nil in *.
Qed.

Lemma rep_double (junk : nat -> WriteHisEntry) w vs W0 l : rep w vs None W0 l [] ->
  exists f F, rep (set_man (doubleHistory junk (h_man w)) w) vs None W0 l (f :: F).
Proof.
  intros [Rg Hlen Hv Hc Hl Hp Hf Hr Hh Hs Hb]. pose proof (ring_len _ _ _ Rg) as Hn. rewrite app_nil_r in Hn.
  set (n := _his_len (h_man w)) in *.
  set (F := map (fun i => mkHis false false (h_begin (junk i)) (h_end (junk i)) None) (seq n n)).
  assert (length F = n) as HlF by (unfold F; by rewrite length_map, length_seq).
  destruct F as [|f F'] eqn:EF; [cbn in HlF; lia|]. exists f, F'. rewrite <- EF in *.
  assert (omap h_row F = []) as HF.
  { unfold F. clear. induction (seq n n) as [|i k IH]; [done|]. cbn. apply IH. }
  assert (omap h_row (W0 ++ [l] ++ F) = omap h_row (W0 ++ [l] ++ [])) as Ho.
  { by rewrite !omap_app, HF. }
  assert (_his_len (doubleHistory junk (h_man w)) = (n + n)%nat) as Hlen2.
  { unfold _his_len, doubleHistory. cbn [_write_history]. fold n. fold F. by rewrite length_app, length_rotate, HlF. }
  split; cbn [h_man h_heap set_man]; rewrite ?Ho; try done.
  - split; [by destruct W0| | |].
    + rewrite Hlen2. cbn. lia.
    + cbn [doubleHistory _his_oldest _write_history]. fold n. fold F.
      rewrite (rg_rotate _ _ _ Rg), app_nil_r. unfold rotate. by rewrite Nat.Div0.mod_0_l, take_0, drop_0, app_nil_r.
    + unfold slot. rewrite Hlen2. cbn [doubleHistory _his_latest _his_oldest]. fold n. rewrite Hn.
      rewrite rotate_nat_add_alt by lia. rewrite decide_True by lia. lia.
  - rewrite Hlen2. lia.
Qed.

(** The slot that [pick] finds is the first free one. *)
Lemma pick_ok (junk : nat -> WriteHisEntry) (g_thread_cnt : nat) w vs W0 l F : rep w vs None W0 l F ->
  exists m' W1 W0' f F', pick junk g_thread_cnt (h_man w) = (slot m' (length (W0' ++ [l])), m') /\ W0 = W1 ++ W0' /\
    rep (set_man m' w) (drop (length W1) vs) None W0' l (f :: F').
Proof.
  intros R. pose proof (rp_ring _ _ _ _ _ _ R) as Rg. unfold pick. rewrite (ring_full _ _ _ Rg).
  assert (forall m' f F', rep (set_man m' w) vs None W0 l (f :: F') ->
    next_idx m' (_his_latest m') = slot m' (length (W0 ++ [l]))) as Hnext.
  { intros m' f F' R'. by eapply ring_next; [apply (rp_ring _ _ _ _ _ _ R')|]. }
  destruct F as [|f F]; cbn [bool_decide].
  2:{ rewrite bool_decide_eq_false_2 by done. exists (h_man w), [], W0, f, F. rewrite drop_0.
      assert (rep (set_man (h_man w) w) vs None W0 l (f :: F)) as R' by by destruct w.
      cbn [negb]. rewrite (Hnext _ _ _ R'). done. }
  rewrite bool_decide_eq_true_2 by done. cbn [negb]. destruct (_ <? _)%nat.
  - destruct (rep_double junk w vs W0 l R) as (f & F & R'). exists (doubleHistory junk (h_man w)), [], W0, f, F. rewrite drop_0.
    by rewrite (Hnext _ _ _ R').
  - pose proof (rp_len _ _ _ _ _ _ R) as Hl2. pose proof (ring_len _ _ _ Rg) as Hl. rewrite app_nil_r, length_app in Hl. cbn in Hl.
    destruct W0 as [|e W0]; [cbn in Hl; lia|]. pose proof (rep_pop _ _ _ _ _ _ R) as R'.
    exists (set_oldest (next_idx (h_man w) (_his_oldest (h_man w))) (h_man w)), [e], W0, e, [].
    split; [|split; [done|]; cbn; by destruct vs].
    f_equal. cbn [length] in Hl. unfold slot. cbn [set_oldest _his_oldest]. change (_his_len (set_oldest _ ?m)) with (_his_len m).
    rewrite <- (slot_0 _ _ _ Rg), (next_slot _ _ _ Rg) by lia.
    pose proof (hk_slot_lt _ _ _ Rg 1). pose proof (rg_oldest _ _ _ Rg). rewrite length_app. cbn [length].
    rewrite rotate_nat_add_alt by lia. rewrite !(slot_alt _ _ _ Rg) by lia. repeat case_decide; lia.
Qed.

Lemma ring_set_free m W f F e b : ring m W (f :: F) ->
  ring (mkHekaton (_his_latest m) (_his_oldest m) (<[slot m (length W) := e]> (_write_history m)) b) W (e :: F).
Proof.
  intros Rg. pose proof (ring_len _ _ _ Rg) as Hl. rewrite length_app in Hl. cbn in Hl.
  split; cbn [_his_oldest _his_latest _write_history]; [by apply Rg| | |].
  - unfold _his_len. cbn [_write_history]. rewrite length_insert. apply Rg.
  - rewrite (ring_insert _ _ _ Rg) by lia. by rewrite insert_app_r_alt, Nat.sub_diag by lia.
  - rewrite (rg_latest _ _ _ Rg). unfold slot, _his_len. cbn [_write_history _his_oldest]. by rewrite length_insert.
Qed.

Lemma ring_set_latest m W0 l F e b : ring m (W0 ++ [l]) F ->
  ring (mkHekaton (_his_latest m) (_his_oldest m) (<[_his_latest m := e]> (_write_history m)) b) (W0 ++ [e]) F.
Proof.
  intros Rg. pose proof (ring_len _ _ _ Rg) as Hl. rewrite !length_app in Hl. cbn in Hl.
  pose proof (rg_latest _ _ _ Rg) as Hlat. rewrite length_app in Hlat. cbn in Hlat.
  replace (length W0 + 1 - 1)%nat with (length W0) in Hlat by lia.
  split; cbn [_his_oldest _his_latest _write_history]; [by destruct W0| | |].
  - unfold _his_len. cbn [_write_history]. rewrite length_insert. apply Rg.
  - rewrite Hlat, (ring_insert _ _ _ Rg) by lia. rewrite <- !app_assoc.
    by rewrite insert_app_r_alt, Nat.sub_diag by lia.
  - rewrite Hlat, length_app. unfold slot, _his_len. cbn [_write_history _his_oldest length]. rewrite length_insert. f_equal. lia.
Qed.

Lemma Forall2_ver_heap (h h' : gmap nat V) W (vs : list (version V)) : (forall e p, e ∈ W -> h_row e = Some p -> h' !! p = h !! p) ->
  Forall2 (ver_ok h) W vs -> Forall2 (ver_ok h') W vs.
Proof.
  intros Hh Hv. induction Hv as [|e v W vs (Hb & Hr & Hp) _ IH]; constructor.
  - split; [done|]. split; [done|]. rewrite (Hh e); [done|by left|done].
  - apply IH. intros e' p He'. apply Hh. by right.
Qed.

Lemma omap_in (W : list WriteHisEntry) e p : e ∈ W -> h_row e = Some p -> p ∈ omap h_row W.
Proof. intros. apply list_elem_of_omap. eauto. Qed.

(** The row of a free slot belongs to no version. *)
Lemma rep_free_row w vs pre W0 l f F p : rep w vs pre W0 l (f :: F) -> h_row f = Some p ->
  (forall e, e ∈ W0 ++ [l] -> h_row e <> Some p) /\ (forall e, e ∈ F -> h_row e <> Some p) /\ p ∉ map v_ptr vs.
Proof.
  intros R Hp. pose proof (rp_rows _ _ _ _ _ _ R) as Hnd. rewrite app_assoc, omap_app in Hnd. cbn in Hnd. rewrite Hp in Hnd.
  apply NoDup_app in Hnd as (_ & Hd & Hnd). apply NoDup_cons in Hnd as [Hni _].
  assert (forall e, e ∈ W0 ++ [l] -> h_row e <> Some p) as HW.
  { intros e He Hr. apply (Hd p); [by eapply omap_in|by left]. }
  split_and!; [done| |].
  - intros e He Hr. apply Hni. by eapply omap_in.
  - intros (v & -> & (i & Hi)%list_elem_of_lookup)%list_elem_of_fmap.
    destruct (Forall2_lookup_r _ _ _ _ _ (rp_ver _ _ _ _ _ _ R) Hi) as (e & He & _ & Hr & _).
    eapply HW; [by eapply list_elem_of_lookup_2|done].
Qed.

Context (garbage : V) (junk : nat -> WriteHisEntry) (g_thread_cnt : nat).

Lemma hk_reserve_ok w vs W0 l F min_ts : rep w vs None W0 l F -> min_ts <= INF ->
  exists w' W1 W0' f F' p, reserveRow garbage junk g_thread_cnt min_ts w = Some (slot (h_man w') (length (W0' ++ [l])), w') /\
    W0 = W1 ++ W0' /\ rep w' (drop (length W1) vs) None W0' l (f :: F') /\ h_row f = Some p /\
    (forall q, is_Some (h_heap w !! q) -> h_heap w' !! q = h_heap w !! q).
Proof.
  intros R Hm. destruct (hk_collect_ok w vs W0 l F min_ts R Hm) as (m1 & W1 & W2 & F1 & Hc & -> & R1).
  destruct (pick_ok junk g_thread_cnt _ _ _ _ _ R1) as (m2 & W3 & W0' & f & F' & Hp & -> & R2). cbn [h_man set_man] in Hp.
  unfold reserveRow. rewrite Hc, Hp. cbn [fst snd].
  rewrite drop_drop in R2. change (set_man m2 (set_man m1 w)) with (set_man m2 w) in R2.
  replace (length W1 + length W3)%nat with (length (W1 ++ W3)) in R2 by (rewrite length_app; lia).
  pose proof (rp_ring _ _ _ _ _ _ R2) as Rg. cbn [h_man set_man] in Rg.
  pose proof (ring_len _ _ _ Rg) as Hl. rewrite length_app in Hl. cbn in Hl.
  rewrite (ring_lookup _ _ _ Rg), list_lookup_middle by lia.
  destruct (h_row f) as [p|] eqn:Hf.
  { exists (set_man m2 w), (W1 ++ W3), W0', f, F', p. split_and!; [done|by rewrite app_assoc|done|done|done]. }
  cbn [alloc_row fst snd]. set (p := fresh (dom (h_heap w))).
  assert (h_heap w !! p = None) as Hfr by (apply not_elem_of_dom, is_fresh).
  exists (set_man (set_history (<[slot m2 (length (W0' ++ [l])) := set_row (Some p) f]> (_write_history m2)) m2)
    (mkHrow (h_man w) (<[p := garbage]> (h_heap w)))), (W1 ++ W3), W0', (set_row (Some p) f), F', p.
  split; [unfold slot, _his_len; cbn; by rewrite length_insert|]. split; [by rewrite app_assoc|]. split_and!; [|done|].
  2:{ intros q [v Hq]. cbn. rewrite lookup_insert_ne; [done|]. intros ->. congruence. }
  assert (forall e, e ∈ W0' ++ [l] ++ (f :: F') -> h_row e <> Some p) as Hpn.
  { intros e He Hr. destruct (rp_heap _ _ _ _ _ _ R2 p) as [v Hv]; [by eapply omap_in|]. cbn in Hv. congruence. }
  destruct R2 as [_ Hlen Hv Hch Hla _ Hfl Hr Hh Hs Hb]. cbn [h_man h_heap set_man] in *.
  assert (omap h_row (W0' ++ [l] ++ set_row (Some p) f :: F') ≡ₚ p :: omap h_row (W0' ++ [l] ++ f :: F')) as HP.
  { rewrite !app_assoc, !omap_app. cbn. rewrite Hf. by rewrite Permutation_middle. }
  split; cbn [h_man h_heap set_man set_history].
  - by apply (ring_set_free m2 _ f).
  - unfold _his_len. cbn. by rewrite length_insert.
  - eapply Forall2_ver_heap, Hv. intros e q He Hq. rewrite lookup_insert_ne; [done|]. intros <-.
    eapply Hpn; [|exact Hq]. rewrite app_assoc. apply elem_of_app. by left.
  - done.
  - done.
  - done.
  - done.
  - rewrite HP. constructor; [|done]. intros (e & He & Hq)%list_elem_of_omap. by eapply Hpn.
  - intros q. rewrite HP. intros [->|Hq]%elem_of_cons; [rewrite lookup_insert_eq; by eexists|].
    destruct (decide (p = q)) as [<-|]; [rewrite lookup_insert_eq; by eexists|]. rewrite lookup_insert_ne by done. by apply Hh.
  - done.
  - done.
Qed.

(** *** Prewrites *)

Lemma list_alter_insert (h : list WriteHisEntry) i e g : h !! i = Some e -> alter g i h = <[i := g e]> h.
Proof.
  intros He. apply list_eq. intros j. destruct (decide (i = j)) as [<-|Hne].
  - rewrite list_lookup_alter_eq, He. rewrite list_lookup_insert_eq; [done|]. by eapply lookup_lt_Some.
  - by rewrite list_lookup_alter_ne, list_lookup_insert_ne.
Qed.

(** A prewrite copies the latest version to a row that no version uses. *)
Lemma hk_access_prewrite_ok w vs pre ts id min_ts : vers w vs pre -> min_ts <= INF ->
  (exists vs0 v, vs = vs0 ++ [v] /\ (pre <> None \/ ts < v_ts v) /\
    access_prewrite garbage junk g_thread_cnt ts id min_ts w = Some (Abort, None, w)) \/
  exists p w' vs1 vs0 v, pre = None /\ vs = vs1 ++ vs0 ++ [v] /\ v_ts v <= ts /\
    access_prewrite garbage junk g_thread_cnt ts id min_ts w = Some (RCOK, Some p, w') /\
    vers w' (vs0 ++ [v]) (Some (id, p)) /\ h_heap w' !! p = Some (v_val v) /\ p ∉ map v_ptr (vs0 ++ [v]) /\
    (forall q, q <> p -> is_Some (h_heap w !! q) -> h_heap w' !! q = h_heap w !! q).
Proof.
  intros (W0 & l & F & R) Hm. destruct (rep_ne _ _ _ _ _ _ R) as (vs0 & v & -> & Hv0 & Hl).
  unfold access_prewrite. rewrite (rep_latest _ _ _ _ _ _ R), (rp_flag _ _ _ _ _ _ R).
  assert (h_begin l = v_ts v) as Hlb by apply Hl.
  destruct (bool_decide (pre <> None) || (ts <? h_begin l)) eqn:Hc.
  { left. exists vs0, v. split; [done|]. split; [|done]. apply orb_true_iff in Hc as [Hc|Hc]; b2p; [by left|right; lia]. }
  right. b2p. assert (pre = None) as -> by (destruct pre; [by destruct H|done]).
  destruct (hk_reserve_ok w _ W0 l F min_ts R Hm) as (w' & W1 & W0' & f & F' & p & -> & -> & R' & Hp & Hheap). cbn [fst snd].
  pose proof (rp_ring _ _ _ _ _ _ R') as Rg. pose proof (ring_len _ _ _ Rg) as Hlen. rewrite !length_app in Hlen. cbn in Hlen.
  pose proof (rep_latest _ _ _ _ _ _ R') as Hlat. pose proof (rg_latest _ _ _ Rg) as Els. rewrite length_app in Els. cbn in Els.
  replace (length W0' + 1 - 1)%nat with (length W0') in Els by lia.
  set (m := h_man w') in *. set (id' := slot m (length (W0' ++ [l]))).
  assert (prev_idx m id' = _his_latest m) as ->.
  { unfold id'. rewrite length_app. cbn. replace (length W0' + 1)%nat with (S (length W0')) by lia.
    rewrite (prev_slot _ _ _ Rg) by lia. done. }
  assert (_write_history m !! id' = Some f) as Hf.
  { unfold id'. rewrite (ring_lookup _ _ _ Rg) by (rewrite length_app; cbn; lia). by apply list_lookup_middle. }
  assert (_his_latest m <> id') as Hne.
  { rewrite Els. unfold id'. intros E%(hk_slot_inj _ _ _ Rg); rewrite ?length_app in *; cbn in *; lia. }
  rewrite (list_alter_insert (_write_history m) id' f) by done.
  rewrite (list_alter_insert _ (_his_latest m) l) by (by rewrite list_lookup_insert_ne).
  rewrite list_lookup_insert_ne, list_lookup_insert_eq by (done || by eapply lookup_lt_Some).
  rewrite list_lookup_insert_eq by (rewrite length_insert; by eapply lookup_lt_Some).
  cbn [h_row set_begin_txn set_end]. rewrite Hp.
  destruct (rep_ne _ _ _ _ _ _ R') as (vs0' & v' & Evs & Hv0' & Hl'). destruct Hl' as (Hb' & Hr' & Hh'). rewrite Hr', Hh'.
  destruct Hl as (_ & Hr & _).
  assert (length W1 <= length vs0)%nat as Hle by (apply Forall2_length in Hv0; rewrite length_app in Hv0; lia).
  rewrite drop_app_le in Evs by done. apply app_inj_tail in Evs as [<- <-].
  eexists p, _, (take (length W1) vs0), (drop (length W1) vs0), v.
  split; [done|]. split; [by rewrite app_assoc, take_drop|]. split; [lia|]. split; [reflexivity|].
  destruct (rep_free_row _ _ _ _ _ _ _ p R' Hp) as (HW & HF & Hpv).
  rewrite drop_app_le in R', Hpv by done. split_and!; [|cbn; by rewrite lookup_insert_eq|done|].
  2:{ intros q Hq Hs. cbn. rewrite lookup_insert_ne by done. by apply Hheap. }
  exists W0', (set_end true id l), (set_begin_txn id f :: F').
  destruct R' as [_ Hlen2 Hv Hch Hla _ Hfl Hrows Hh Hs Hbd].
  assert (omap h_row (W0' ++ [set_end true id l] ++ set_begin_txn id f :: F') = omap h_row (W0' ++ [l] ++ f :: F')) as Ho.
  { rewrite !omap_app. done. }
  split; cbn [h_man h_heap]; rewrite ?Ho; try done.
  - pose proof (ring_set_free m _ f F' (set_begin_txn id f) true Rg) as Rg1. fold id' in Rg1.
    apply (ring_set_latest _ _ l _ (set_end true id l) true) in Rg1. exact Rg1.
  - unfold _his_len. cbn. by rewrite !length_insert.
  - apply (Forall2_ver_heap (h_heap w')).
    { intros e q He Hq. rewrite lookup_insert_ne; [done|]. intros <-.
      apply elem_of_app in He as [He|He]; [eapply (HW e); [apply elem_of_app; by left|done]|].
      apply list_elem_of_singleton in He as ->. eapply (HW l); [apply elem_of_app; right; by left|done]. }
    apply Forall2_app; [done|]. constructor; [done|constructor].
  - by eapply chain_last, Hch.
  - by exists (set_begin_txn id f), F'.
  - intros q Hq. destruct (decide (p = q)) as [<-|]; [rewrite lookup_insert_eq; by eexists|].
    rewrite lookup_insert_ne by done. by apply Hh.
Qed.

(** The assertion at the start of [access] holds. *)
Lemma access_eq w vs pre RR ts id min_ts type : vers w vs pre ->
  access garbage junk g_thread_cnt RR ts id min_ts type w =
  match type with
  | R_REQ => do! r <- access_read RR ts w;; Some (r.1, r.2, w)
  | P_REQ => access_prewrite garbage junk g_thread_cnt ts id min_ts w
  | _ => None
  end.
Proof.
  intros (W0 & l & F & R). unfold access. rewrite (rep_latest _ _ _ _ _ _ R), c_assert_true; [done|].
  pose proof (rp_last _ _ _ _ _ _ R) as Hl. destruct pre as [[? ?]|]; [destruct Hl as [-> _]; apply orb_true_r|].
  by rewrite Hl, Z.eqb_refl.
Qed.

Lemma vers_ne w vs pre : vers w vs pre -> exists vs0 v, vs = vs0 ++ [v].
Proof. clear garbage junk g_thread_cnt. intros (W0 & l & F & R). destruct (rep_ne _ _ _ _ _ _ R) as (vs0 & v & -> & _). by exists vs0, v. Qed.

(** A write to the row of the prewrite. *)
Lemma write_pre_ok w vs id p v : vers w vs (Some (id, p)) ->
  vers (mkHrow (h_man w) (<[p := v]> (h_heap w))) vs (Some (id, p)) /\ p ∉ map v_ptr vs.
Proof.
  intros (W0 & l & F & R). destruct (rp_pre _ _ _ _ _ _ R) as (f & F' & -> & Hbt & Hbe & Hp).
  destruct (rep_free_row _ _ _ _ _ _ _ p R Hp) as (HW & HF & Hpv). split; [|done].
  exists W0, l, (f :: F'). destruct R as [Rg Hlen2 Hv Hch Hla Hpre Hfl Hrows Hh Hs Hbd]. split; cbn [h_man h_heap]; try done.
  - eapply Forall2_ver_heap, Hv. intros e q He Hq. rewrite lookup_insert_ne; [done|]. intros <-. by eapply HW.
  - intros q Hq. destruct (decide (p = q)) as [<-|]; [rewrite lookup_insert_eq; by eexists|].
    rewrite lookup_insert_ne by done. by apply Hh.
Qed.

(** *** Validation *)

Lemma find_row_ok m W F p : ring m W F -> forall W1 e W2 fuel, W = W1 ++ e :: W2 -> (length W1 < fuel)%nat ->
  (exists Wa a Wb, W1 ++ [e] = Wa ++ a :: Wb /\ h_row a = Some p /\
     find_row fuel p m (slot m (length W1)) = Some (Some a)) \/
  Forall (fun a => h_row a <> Some p) (W1 ++ [e]) /\ find_row fuel p m (slot m (length W1)) = Some None.
Proof.
  clear garbage junk g_thread_cnt. intros Rg W1. induction W1 as [|a W1 IH] using rev_ind; intros e W2 fuel HW Hf;
    (destruct fuel as [|fuel]; [lia|]); cbn [find_row];
    pose proof (ring_len _ _ _ Rg) as Hl; rewrite HW, !length_app in Hl; cbn in Hl;
    rewrite (ring_lookup _ _ _ Rg), HW, lookup_app_l, list_lookup_middle by (rewrite ?length_app; cbn; lia);
    (case_bool_decide as Hp; [left|]).
  - by exists [], e, [].
  - right. rewrite (slot_oldest _ _ _ Rg) by (cbn; lia). split; [by constructor|done].
  - by exists (W1 ++ [a]), e, [].
  - rewrite (slot_oldest _ _ _ Rg) by (rewrite ?length_app; cbn; lia). rewrite length_app. rewrite bool_decide_eq_false_2 by (cbn; lia).
    rewrite length_app in Hf. cbn in Hf. cbn [length]. replace (length W1 + 1)%nat with (S (length W1)) by lia.
    rewrite (prev_slot _ _ _ Rg) by lia. rewrite <- app_assoc in HW.
    destruct (IH a (e :: W2) fuel HW) as [(Wa & b & Wb & E & Hb & Hfr)|[Hn Hfr]]; [lia| |].
    + left. exists Wa, b, (Wb ++ [e]). split_and!; [|done|done]. rewrite E. by rewrite <- app_assoc.
    + right. split; [|done]. apply Forall_app. by split; [|constructor].
Qed.

(** The verdict on a read: the version has to be there, not to be younger than the
    transaction, and not to end before [commit_ts]; a version about to be replaced is
    taken for valid. *)
Lemma prepare_read_ok w vs pre ts p c : vers w vs pre -> c < INF ->
  p ∉ map v_ptr vs /\ prepare_read ts p c w = Some Abort \/
  exists vs1 v vs2, vs = vs1 ++ v :: vs2 /\ v_ptr v = p /\
    prepare_read ts p c w = Some (if ts <? v_ts v then Abort else
      match vs2 with [] => RCOK | v' :: _ => if v_ts v' <? c then Abort else RCOK end).
Proof.
  clear garbage junk g_thread_cnt. intros (W0 & l & F & R) Hc. pose proof (rp_ring _ _ _ _ _ _ R) as Rg. unfold prepare_read.
  rewrite (rg_latest _ _ _ Rg), length_app. cbn [length]. replace (length W0 + 1 - 1)%nat with (length W0) by lia.
  pose proof (ring_len _ _ _ Rg) as Hl. rewrite !length_app in Hl. cbn in Hl. pose proof (rp_ver _ _ _ _ _ _ R) as Hv.
  destruct (find_row_ok (h_man w) (W0 ++ [l]) F p Rg W0 l [] (_his_len (h_man w)) eq_refl) as
    [(Wa & a & Wb & E & Ha & ->)|[Hn ->]]; [lia| |].
  2:{ left. split; [|done]. intros (v & -> & (i & Hi)%list_elem_of_lookup)%list_elem_of_fmap.
      destruct (Forall2_lookup_r _ _ _ _ _ Hv Hi) as (e & He & _ & Hr & _). rewrite Forall_forall in Hn.
      eapply Hn; [by eapply list_elem_of_lookup_2|done]. }
  right. rewrite E in Hv. apply Forall2_app_inv_l in Hv as (va & vb & _ & Hvb & ->).
  apply Forall2_cons_inv_l in Hvb as (v & vs2 & (Hb & Hr & _) & Hvb & ->). rewrite Ha in Hr. injection Hr as ->.
  exists va, v, vs2. split; [done|]. split; [done|]. f_equal. unfold verdict. rewrite Hb. destruct (ts <? v_ts v); [done|].
  pose proof (rp_chain _ _ _ _ _ _ R) as Hch. rewrite E in Hch. destruct Hvb as [|b v' Wb' vs2' (Hb' & _) _].
  - apply app_inj_tail in E as [<- <-]. pose proof (rp_last _ _ _ _ _ _ R) as Hla. destruct pre as [[id q]|].
    + destruct Hla as [-> _]. done.
    + rewrite Hla. destruct (end_txn l); [done|]. cbn. by replace (c <? INF) with true by lia.
  - apply chain_mid in Hch as [-> ->]. rewrite Hb'. cbn [negb andb]. destruct (Z.ltb_spec c (v_ts v')), (Z.ltb_spec (v_ts v') c); done || lia.
Qed.

(** The latest version during a prewrite. *)
Lemma find_latest w vs0 v id q : vers w (vs0 ++ [v]) (Some (id, q)) -> exists e,
  find_row (_his_len (h_man w)) (v_ptr v) (h_man w) (_his_latest (h_man w)) = Some (Some e) /\
  end_txn e = true /\ h_end e = id /\ _exists_prewrite (h_man w) = true.
Proof.
  clear garbage junk g_thread_cnt. intros (W0 & l & F & R).
  destruct (rep_ne _ _ _ _ _ _ R) as (vs0' & v' & Evs & _ & Hb & Hr & _). apply app_inj_tail in Evs as [<- <-].
  destruct (rp_last _ _ _ _ _ _ R) as [Ht He]. exists l. split_and!; [|done|done|by rewrite (rp_flag _ _ _ _ _ _ R)].
  pose proof (rp_len _ _ _ _ _ _ R). destruct (_his_len (h_man w)) eqn:El; [lia|]. cbn [find_row].
  rewrite (rep_latest _ _ _ _ _ _ R), Hr. by rewrite bool_decide_eq_true_2.
Qed.

(** No two versions share a row. *)
Lemma vers_ptr_inj w vs pre v v' : vers w vs pre -> v ∈ vs -> v' ∈ vs -> v_ptr v = v_ptr v' -> v = v'.
Proof.
  clear garbage junk g_thread_cnt. intros (W0 & l & F & R) (i & Hi)%list_elem_of_lookup (j & Hj)%list_elem_of_lookup E.
  pose proof (rp_ver _ _ _ _ _ _ R) as Hv. pose proof (rp_rows _ _ _ _ _ _ R) as Hnd. rewrite app_assoc, omap_app in Hnd.
  apply NoDup_app in Hnd as (Hnd & _ & _). assert (omap h_row (W0 ++ [l]) = map v_ptr vs) as Ho.
  { clear -Hv. induction Hv as [|e x W vs (_ & Hr & _) _ IH]; [done|]. cbn. rewrite Hr. by f_equal. }
  rewrite Ho in Hnd. assert (i = j) as ->; [|congruence].
  eapply NoDup_lookup; [exact Hnd|rewrite list_lookup_fmap, Hi; done|rewrite list_lookup_fmap, Hj; cbn; by rewrite E].
Qed.

Lemma vers_heap w vs pre v : vers w vs pre -> v ∈ vs -> h_heap w !! v_ptr v = Some (v_val v).
Proof.
  clear garbage junk g_thread_cnt. intros (W0 & l & F & R) (i & Hi)%list_elem_of_lookup.
  by destruct (Forall2_lookup_r _ _ _ _ _ (rp_ver _ _ _ _ _ _ R) Hi) as (e & _ & _ & _ & Hh).
Qed.

(** *** The end of a prewrite *)

Lemma ring_push m W f F b : ring m W (f :: F) ->
  ring (mkHekaton (slot m (length W)) (_his_oldest m) (_write_history m) b) (W ++ [f]) F.
Proof.
  intros Rg. split; cbn; [by destruct W|by apply Rg|rewrite <- app_assoc; by apply Rg|].
  rewrite length_app. cbn. unfold slot, _his_len. cbn. f_equal. lia.
Qed.

Lemma post_process_slots w vs id p W0 l F : rep w vs (Some (id, p)) W0 l F ->
  exists f F', F = f :: F' /\ begin_txn f = true /\ h_begin f = id /\ h_row f = Some p /\
    next_idx (h_man w) (_his_latest (h_man w)) = slot (h_man w) (length (W0 ++ [l])) /\
    _write_history (h_man w) !! slot (h_man w) (length (W0 ++ [l])) = Some f /\
    (slot (h_man w) (length (W0 ++ [l])) =? _his_oldest (h_man w))%nat = false /\
    _his_latest (h_man w) <> slot (h_man w) (length (W0 ++ [l])).
Proof.
  clear garbage junk g_thread_cnt. intros R. destruct (rp_pre _ _ _ _ _ _ R) as (f & F' & -> & Hbt & Hbe & Hp).
  pose proof (rp_ring _ _ _ _ _ _ R) as Rg. pose proof (ring_len _ _ _ Rg) as Hl. rewrite !length_app in Hl. cbn in Hl.
  exists f, F'. split_and!; [done..| | | |].
  - by eapply ring_next.
  - rewrite (ring_lookup _ _ _ Rg) by (rewrite length_app; cbn; lia). by apply list_lookup_middle.
  - rewrite (slot_oldest _ _ _ Rg) by (rewrite length_app; cbn; lia). apply bool_decide_eq_false. rewrite length_app. cbn. lia.
  - rewrite (rg_latest _ _ _ Rg). intros E%(hk_slot_inj _ _ _ Rg); rewrite ?length_app in *; cbn in *; lia.
Qed.

Lemma post_commit_ok w vs0 v id p c x : vers w (vs0 ++ [v]) (Some (id, p)) -> h_heap w !! p = Some x ->
  v_ts v < c < INF -> exists w', post_process id c RCOK w = Some w' /\ h_heap w' = h_heap w /\
    vers w' ((vs0 ++ [v]) ++ [mkVersion c p x]) None.
Proof.
  clear garbage junk g_thread_cnt. intros (W0 & l & F & R) Hx Hc.
  destruct (post_process_slots _ _ _ _ _ _ _ R) as (f & F' & -> & Hbt & Hbe & Hp & Hnx & Hf & Hno & Hne).
  destruct (rep_ne _ _ _ _ _ _ R) as (vs0' & v' & Evs & _ & Hlv). apply app_inj_tail in Evs as [<- <-].
  unfold post_process. rewrite Hnx, Hf, (rep_latest _ _ _ _ _ _ R), Hbt, Hbe, Z.eqb_refl. cbn [andb].
  rewrite c_assert_true by done. rewrite bool_decide_eq_true_2 by done.
  assert (h_begin l = v_ts v) as Hlb by apply Hlv. rewrite Hlb, c_assert_true by lia.
  rewrite Hno, c_assert_true by done. eexists. split; [reflexivity|]. split; [done|].
  destruct R as [Rg Hlen2 Hv Hch Hla Hpre Hfl Hrows Hh Hs Hbd].
  exists (W0 ++ [set_end false c l]), (mkHis true (end_txn f) c INF (h_row f)), F'.
  assert (omap h_row ((W0 ++ [set_end false c l]) ++ [mkHis true (end_txn f) c INF (h_row f)] ++ F') =
    omap h_row (W0 ++ [l] ++ f :: F')) as Ho.
  { rewrite <- app_assoc, !omap_app. cbn. by rewrite Hp. }
  split; cbn [h_man h_heap set_man]; rewrite ?Ho; try done.
  - apply (ring_set_latest _ _ l _ (set_end false c l) false) in Rg as Rg1.
    apply (ring_set_free _ _ f _ (mkHis true (end_txn f) c INF (h_row f)) false) in Rg1.
    apply (ring_push _ _ _ _ false) in Rg1. cbn [_his_oldest _write_history _his_latest] in Rg1.
    assert (forall h b, length h = length (_write_history (h_man w)) ->
      slot (mkHekaton (_his_latest (h_man w)) (_his_oldest (h_man w)) h b) (length (W0 ++ [set_end false c l])) =
      slot (h_man w) (length (W0 ++ [l]))) as Hsl.
    { intros h b Hh'. unfold slot, _his_len. cbn. rewrite Hh', !length_app. done. }
    rewrite !Hsl in Rg1 by (by rewrite ?length_insert). exact Rg1.
  - unfold _his_len. cbn. by rewrite !length_insert.
  - rewrite <- app_assoc. apply Forall2_app_inv_l in Hv as (va & vb & Hva & Hvb & E).
    apply Forall2_cons_inv_l in Hvb as (y & vn & Hy & Hn%Forall2_nil_inv_l & ->). subst vn. apply app_inj_tail in E as [<- <-].
    rewrite <- app_assoc. apply Forall2_app; [done|]. constructor; [done|]. constructor; [|constructor].
    split_and!; [done|done|done].
  - rewrite <- app_assoc. apply chain_snoc; [done|done|]. by eapply chain_last, Hch.
  - rewrite map_app. apply StronglySorted_app. split_and!; [| done| by repeat constructor].
    intros a b Ha Hb. cbn in Hb. apply list_elem_of_singleton in Hb as ->. rewrite map_app in Ha, Hs.
    apply elem_of_app in Ha as [Ha|Ha].
    + apply StronglySorted_app in Hs as (Hs & _). specialize (Hs a (v_ts v) Ha). cbn in Hs. assert (a < v_ts v) by (apply Hs; by left). lia.
    + cbn in Ha. apply list_elem_of_singleton in Ha as ->. lia.
  - apply Forall_app. split; [done|]. constructor; [|constructor]. cbn. apply Forall_app in Hbd as [_ Hbd].
    apply Forall_cons in Hbd as [Hbd _]. lia.
Qed.

Lemma post_abort_ok w vs id p c rc : vers w vs (Some (id, p)) -> rc <> RCOK ->
  exists w', post_process id c rc w = Some w' /\ h_heap w' = h_heap w /\ vers w' vs None.
Proof.
  clear garbage junk g_thread_cnt. intros (W0 & l & F & R) Hrc.
  destruct (post_process_slots _ _ _ _ _ _ _ R) as (f & F' & -> & Hbt & Hbe & Hp & Hnx & Hf & Hno & Hne).
  unfold post_process. rewrite Hnx, Hf, (rep_latest _ _ _ _ _ _ R), Hbt, Hbe, Z.eqb_refl. cbn [andb].
  rewrite c_assert_true by done. rewrite bool_decide_eq_false_2 by done. eexists. split; [reflexivity|]. split; [done|].
  destruct R as [Rg Hlen2 Hv Hch Hla Hpre Hfl Hrows Hh Hs Hbd]. exists W0, (set_end false INF l), (f :: F').
  assert (omap h_row (W0 ++ [set_end false INF l] ++ f :: F') = omap h_row (W0 ++ [l] ++ f :: F')) as Ho.
  { rewrite !omap_app. done. }
  split; cbn [h_man h_heap set_man]; rewrite ?Ho; try done.
  - by apply (ring_set_latest _ _ l _ (set_end false INF l) false) in Rg.
  - unfold _his_len. cbn. by rewrite length_insert.
  - apply Forall2_app_inv_l in Hv as (va & vb & Hva & Hvb & ->).
    apply Forall2_cons_inv_l in Hvb as (y & vn & Hy & Hn & ->). apply Forall2_app; [done|]. by constructor.
  - by eapply chain_last, Hch.
Qed.

(** The manager that [init] makes. *)
Lemma hk_init_ok (p : nat) (x : V) : vers (mkHrow (init junk p) {[ p := x ]}) [mkVersion 0 p x] None.
Proof.
  exists [], (mkHis false false 0 INF (Some p)), (map (fun i => set_row None (junk i)) (seq 1 3)).
  split; cbn; try done.
  - split; cbn; [done|unfold _his_len; cbn; lia|done|done].
  - lia.
  - constructor; [|constructor]. split_and!; [done|done|]. apply lookup_singleton_eq.
  - apply NoDup_singleton.
  - intros q ->%list_elem_of_singleton. rewrite lookup_singleton_eq. by eexists.
  - repeat constructor.
  - constructor; [|constructor]. cbn. unfold INF, UINT64_MAX. lia.
Qed.
End versions.
