(* ===== verification/HekatonTxn.v ===== *)
(** * Hekaton: transactions

    The transactions of src/system/txn.cpp under HEKATON on the rows of Hekaton.v:
    [get_row], the accesses through the pointers it returns, [validate_hekaton] of
    concurrency_control/hekaton/hekaton.cpp. Any number of workers interleave; a step is
    one call on a row, one access to data, or the choice of a timestamp. *)

From stdpp Require Import functions.
From S2P Require Import Prelude Global Serial History Hekaton.

(** An entry of [accesses]: [a_data] is the row of the version. *)
Record Acc := mkAcc { a_type : access_t; a_row : nat; a_data : nat }.

#[global] Instance Acc_eq_dec : EqDecision Acc.
Proof. solve_decision. Defined.

(** [Validating rc rid commit_ts] and [Post rc rid commit_ts]: in the first and in the
    second loop of [validate_hekaton]. *)
Inductive pc :=
  | Idle
  | Running
  | Failed
  | Validating (rc : RC) (rid : nat) (commit_ts : Z)
  | Post (rc : RC) (rid : nat) (commit_ts : Z).

Section transactions.
Context {V : Type} (garbage : V) (junk : nat -> WriteHisEntry) (g_thread_cnt : nat).
Context (MAX_ROW_PER_TXN : nat).
(** [ISOLATION_LEVEL]. *)
Context (SERIALIZABLE REPEATABLE_READ : bool).

(** [x_next] is [thd_txn_id]. Ghost state: [x_reads], what was read through the pointer of
    an access, a prewrite reading its copy; [x_spec], the accesses that the validation let
    pass although another transaction was about to replace their version. *)
Record Txn := mkTxn {
  x_pc : pc;
  x_ts : Z;
  x_id : Z;
  x_next : nat;
  accesses : list Acc;
  x_reads : list (Acc * V);
  x_spec : list Acc }.

(** [clock]: the next timestamp of [glob_manager->get_ts] (without batches, timestamps
    are handed out in order). [log] is ghost state: the transactions whose validation
    ended with RCOK, in that order, each with those of its reads that were not exempted
    ([x_spec]). *)
Record State := mkState {
  rows : gmap nat (@hrow V);
  txs : nat -> Txn;
  clock : Z;
  log : list (commit V * list (nat * V)) }.

Definition idle (n : nat) : Txn := mkTxn Idle 0 0 n [] [] [].
Definition set_pc (p : pc) (x : Txn) : Txn :=
  mkTxn p (x_ts x) (x_id x) (x_next x) (accesses x) (x_reads x) (x_spec x).
Definition set_tx (t : nat) (x : Txn) (s : State) : State :=
  mkState (rows s) (<[t := x]> (txs s)) (clock s) (log s).
Definition set_hrow (r : nat) (w : @hrow V) (s : State) : State :=
  mkState (<[r := w]> (rows s)) (txs s) (clock s) (log s).
Definition tick (s : State) : State := mkState (rows s) (txs s) (clock s + 1) (log s).

(** A worker takes a transaction: [set_txn_id], [set_ts]. *)
Definition begin (t : nat) (s : State) : option State :=
  let x := txs s t in
  match x_pc x with
  | Idle =>
      assert! (t <? g_thread_cnt)%nat && (clock s + 1 <? INF);;
      let id := Z.of_nat (t + x_next x * g_thread_cnt) in
      Some (tick (set_tx t (mkTxn Running (clock s) id (S (x_next x)) [] [] []) s))
  | _ => None
  end.

(** [txn_man::get_row] and [row_t::get_row]. *)
Definition get_row (t : nat) (type : access_t) (r : nat) (min_ts : Z) (s : State) : option State :=
  let x := txs s t in
  match x_pc x with
  | Running =>
      if (MAX_ROW_PER_TXN <=? length (accesses x))%nat then Some (set_tx t (set_pc Failed x) s)
      else
        assert! bool_decide (type = RD) || bool_decide (type = WR);;
        assert! min_ts <=? INF;;
        do! w <- rows s !! r;;
        let ts_type := if bool_decide (type = RD) then R_REQ else P_REQ in
        match access garbage junk g_thread_cnt REPEATABLE_READ (x_ts x) (x_id x) min_ts ts_type w with
        | Some (RCOK, Some p, w') =>
            let a := mkAcc type r p in
            let reads :=
              if bool_decide (type = RD) then x_reads x
              else match h_heap w' !! p with Some v => x_reads x ++ [(a, v)] | None => x_reads x end in
            Some (set_tx t (mkTxn Running (x_ts x) (x_id x) (x_next x) (accesses x ++ [a]) reads (x_spec x)) (set_hrow r w' s))
        | Some (Abort, _, w') => Some (set_tx t (set_pc Failed x) (set_hrow r w' s))
        | _ => None
        end
  | _ => None
  end.

(** A read and a write through the pointer of access [i]. *)
Definition read_data (t i : nat) (s : State) : option State :=
  let x := txs s t in
  match x_pc x, accesses x !! i with
  | Running, Some a =>
      if bool_decide (a_type a = RD) then
        do! w <- rows s !! a_row a;;
        do! v <- h_heap w !! a_data a;;
        Some (set_tx t (mkTxn Running (x_ts x) (x_id x) (x_next x) (accesses x) (x_reads x ++ [(a, v)]) (x_spec x)) s)
      else None
  | _, _ => None
  end.

Definition write_data (t i : nat) (v : V) (s : State) : option State :=
  let x := txs s t in
  match x_pc x, accesses x !! i with
  | Running, Some a =>
      if bool_decide (a_type a = WR) then
        do! w <- rows s !! a_row a;;
        Some (set_hrow (a_row a) (mkHrow (h_man w) (<[a_data a := v]> (h_heap w))) s)
      else None
  | _, _ => None
  end.

(** [finish] up to the choice of [commit_ts]. *)
Definition finish (t : nat) (rc : RC) (s : State) : option State :=
  let x := txs s t in
  match x_pc x, rc with
  | Running, RCOK | Running, Abort | Failed, Abort =>
      assert! clock s + 1 <? INF;;
      Some (tick (set_tx t (set_pc (Validating rc 0 (clock s)) x) s))
  | _, _ => None
  end.

(** The version that a validation found is about to be replaced by another transaction. *)
Definition speculative (id : Z) (row : nat) (w : @hrow V) : bool :=
  match find_row (_his_len (h_man w)) row (h_man w) (_his_latest (h_man w)) with
  | Some (Some e) => _exists_prewrite (h_man w) && end_txn e && negb (h_end e =? id)
  | _ => false
  end.

(** What a transaction writes: the contents of its prewrites. *)
Definition written (s : State) (x : Txn) : list (nat * V) :=
  omap (fun a => if bool_decide (a_type a = WR) then
                   match rows s !! a_row a with
                   | Some w => match h_heap w !! a_data a with Some v => Some (a_row a, v) | None => None end
                   | None => None
                   end
                 else None) (accesses x).

(** The rows and values of some reads. *)
Definition rows_read (rs : list (Acc * V)) : list (nat * V) := map (fun av => (a_row av.1, av.2)) rs.

(** The reads through the accesses that are not in [x_spec]. *)
Definition checked_reads (x : Txn) : list (Acc * V) := filter (fun av => av.1 ∉ x_spec x) (x_reads x).

(** The end of the first loop. *)
Definition decide_commit (t : nat) (c : Z) (s : State) : State :=
  let x := txs s t in
  mkState (rows s) (<[t := set_pc (Post RCOK 0 c) x]> (txs s)) (clock s)
    (log s ++ [(mkCommit c (rows_read (x_reads x)) (written s x), rows_read (checked_reads x))]).

(** One pass of the first loop of [validate_hekaton]. *)
Definition validate (t : nat) (s : State) : option State :=
  let x := txs s t in
  match x_pc x with
  | Validating rc rid c =>
      if bool_decide (rc = RCOK) then
        match (if SERIALIZABLE then accesses x !! rid else None) with
        | None => Some (decide_commit t c s)
        | Some a =>
            if bool_decide (a_type a = WR) then Some (set_tx t (set_pc (Validating rc (S rid) c) x) s)
            else
              do! w <- rows s !! a_row a;;
              do! rc <- prepare_read (x_ts x) (a_data a) c w;;
              if bool_decide (rc = Abort) then Some (set_tx t (set_pc (Post Abort 0 c) x) s)
              else Some (set_tx t (mkTxn (Validating rc (S rid) c) (x_ts x) (x_id x) (x_next x) (accesses x) (x_reads x)
                                     (if speculative (x_id x) (a_data a) w then x_spec x ++ [a] else x_spec x)) s)
        end
      else Some (set_tx t (set_pc (Post rc 0 c) x) s)
  | _ => None
  end.

(** One pass of the second loop, and [cleanup]. *)
Definition postprocess (t : nat) (s : State) : option State :=
  let x := txs s t in
  match x_pc x with
  | Post rc rid c =>
      match accesses x !! rid with
      | None => Some (set_tx t (idle (x_next x)) s)
      | Some a =>
          if bool_decide (a_type a = RD) then Some (set_tx t (set_pc (Post rc (S rid) c) x) s)
          else
            do! w <- rows s !! a_row a;;
            do! w' <- post_process (x_id x) c rc w;;
            Some (set_tx t (set_pc (Post rc (S rid) c) x) (set_hrow (a_row a) w' s))
      end
  | _ => None
  end.

Inductive op :=
  | OBegin (t : nat)
  | OGet (t : nat) (type : access_t) (r : nat) (min_ts : Z)
  | ORead (t i : nat)
  | OWrite (t i : nat) (v : V)
  | OFinish (t : nat) (rc : RC)
  | OValidate (t : nat)
  | OPost (t : nat).

Definition run_op (o : op) (s : State) : option State :=
  match o with
  | OBegin t => begin t s
  | OGet t type r min_ts => get_row t type r min_ts s
  | ORead t i => read_data t i s
  | OWrite t i v => write_data t i v s
  | OFinish t rc => finish t rc s
  | OValidate t => validate t s
  | OPost t => postprocess t s
  end.

Definition step (s s' : State) : Prop := exists o, run_op o s = Some s'.

Fixpoint run (os : list op) (s : State) : option State :=
  match os with
  | [] => Some s
  | o :: os => do! s' <- run_op o s;; run os s'
  end.

(** Every row has one version, and no transaction has started. *)
Definition start (db0 : gmap nat V) : State :=
  mkState ((fun v => mkHrow (Hekaton.init junk 0) {[ 0%nat := v ]}) <$> db0) (fun _ => idle 0) 1 [].
End transactions.

Arguments Txn V : clear implicits.
Arguments State V : clear implicits.

(** ** The invariant *)

Section invariant.
Context {V : Type} (garbage : V) (junk : nat -> WriteHisEntry) (g_thread_cnt : nat).
Context (MAX_ROW_PER_TXN : nat) (db0 : gmap nat V).
Implicit Types (s : State V) (x : Txn V) (VS : nat -> list (version V)) (PRE : nat -> option (Z * nat)).

(** The versions that the committed transactions made of row [r], and the first one. *)
Definition hist s (r : nat) : list (Z * V) := history db0 r (map fst (log s)).

Definition vpair (v : version V) : Z * V := (v_ts v, v_val v).

(** Transaction [x] has a prewrite on row [r] that has not ended. *)
Definition holdsx x (r p : nat) : Prop := exists i a, accesses x !! i = Some a /\ a_type a = WR /\ a_row a = r /\
  a_data a = p /\ forall rc rid c, x_pc x = Post rc rid c -> (rid <= i)%nat.
Notation holds s t r p := (holdsx (txs s t) r p).

Definition cts x : option Z := match x_pc x with Validating _ _ c | Post _ _ c => Some c | _ => None end.
Definition committed x : option Z := match x_pc x with Post RCOK _ c => Some c | _ => None end.
Definition live x : bool := match x_pc x with Running | Failed | Validating _ _ _ => true | _ => false end.

(** What a validated read saw is the latest version before [c], and no transaction that
    may still write the row comes before [c]. *)
Definition read_ok s (c : Z) (r : nat) (u : V) : Prop :=
  (exists old b new, hist s r = old ++ (b, u) :: new /\ b < c /\ Forall (fun h => c <= h.1) new) /\
  forall t p rc rid c', holds s t r p -> x_pc (txs s t) = Validating rc rid c' -> c <= c'.

(** The version that an access for reading got: as long as its row belongs to a version
    that is not younger than the transaction, it is that one. *)
Definition rd_ok s VS x (a : Acc) : Prop := exists b v0,
  (b, v0) ∈ hist s (a_row a) /\ b < x_ts x /\
  (forall v, v ∈ VS (a_row a) -> v_ptr v = a_data a -> v_ts v = b \/ x_ts x < v_ts v) /\
  (forall t' c, holds s t' (a_row a) (a_data a) -> cts (txs s t') = Some c -> x_ts x < c) /\
  (forall u v, (a, u) ∈ x_reads x -> v ∈ VS (a_row a) -> v_ptr v = a_data a -> v_ts v = b -> u = v0).

Record txn_ok s VS (t : nat) x : Prop := {
  ok_ts : x_pc x <> Idle -> 0 < x_ts x < clock s /\ forall r, Forall (fun h => h.1 <> x_ts x) (hist s r);
  ok_id : x_pc x <> Idle -> (t < g_thread_cnt)%nat /\ exists n, x_id x = Z.of_nat (t + n * g_thread_cnt);
  ok_idle : x_pc x = Idle -> accesses x = [];
  ok_cts : forall c, cts x = Some c -> x_ts x < c < clock s;
  ok_acc : forall a, a ∈ accesses x -> (a_type a = RD \/ a_type a = WR) /\
    exists w, rows s !! a_row a = Some w /\ is_Some (h_heap w !! a_data a);
  ok_wr : forall i j a b, accesses x !! i = Some a -> accesses x !! j = Some b -> a_type a = WR -> a_type b = WR ->
    a_row a = a_row b -> i = j;
  ok_reads : forall a u, (a, u) ∈ x_reads x -> a ∈ accesses x;
  ok_rd : live x = true -> forall a, a ∈ accesses x -> a_type a = RD -> rd_ok s VS x a;
  ok_wrd : live x = true -> forall a u, (a, u) ∈ x_reads x -> a_type a = WR -> exists old b, hist s (a_row a) = old ++ [(b, u)];
  ok_will : forall rc rid c, x_pc x = Validating rc rid c -> forall a, a ∈ accesses x -> a_type a = WR ->
    Forall (fun h => h.1 < c) (hist s (a_row a));
  ok_valid : forall rc rid c, x_pc x = Validating rc rid c ->
    forall i a u, (i < rid)%nat -> accesses x !! i = Some a -> a_type a = RD -> (a, u) ∈ x_reads x -> a ∉ x_spec x ->
      read_ok s c (a_row a) u }.

(** The rest of the history of a row that its manager does not have yet. *)
Definition tail_ok s (r : nat) (w : @hrow V) (tl : list (Z * V)) : Prop :=
  (tl = [] /\ forall t p, holds s t r p -> committed (txs s t) = None) \/
  exists t p c u, holds s t r p /\ committed (txs s t) = Some c /\ h_heap w !! p = Some u /\ tl = [(c, u)].

Definition pre_ok s (r : nat) (pre : option (Z * nat)) : Prop :=
  match pre with
  | None => forall t p, ~ holds s t r p
  | Some (id, p) => exists t, holds s t r p /\ x_id (txs s t) = id /\ forall t' p', holds s t' r p' -> t' = t /\ p' = p
  end.

Definition log_ts s : list Z := map (fun e => c_ts e.1) (log s).

Record inv s VS PRE : Prop := {
  iv_clock : 1 <= clock s <= INF;
  iv_dom : forall r, is_Some (rows s !! r) <-> is_Some (db0 !! r);
  iv_row : forall r w, rows s !! r = Some w -> vers w (VS r) (PRE r);
  iv_hist : forall r w, rows s !! r = Some w -> exists old tl, hist s r = old ++ map vpair (VS r) ++ tl /\ tail_ok s r w tl;
  iv_pre : forall r w, rows s !! r = Some w -> pre_ok s r (PRE r);
  iv_sorted : forall r, StronglySorted Z.lt (map fst (hist s r)) /\ Forall (fun h => 0 <= h.1 < clock s) (hist s r);
  iv_txn : forall t, txn_ok s VS t (txs s t);
  iv_ts : forall t t' c, x_pc (txs s t) <> Idle -> cts (txs s t') = Some c -> c <> x_ts (txs s t);
  iv_cts : forall t t' c, cts (txs s t) = Some c -> cts (txs s t') = Some c -> t = t';
  iv_log : NoDup (log_ts s) /\ Forall (fun c => 0 < c < clock s) (log_ts s) /\
    forall t rc rid c, x_pc (txs s t) = Validating rc rid c -> c ∉ log_ts s;
  iv_reads : forall e, e ∈ log s -> forall r u, (r, u) ∈ e.2 -> read_ok s (c_ts e.1) r u }.

(** ** Steps of other transactions *)

(** What a step may change as far as another transaction is concerned. *)
Record evolves s s' VS VS' : Prop := {
  e_clock : clock s <= clock s';
  e_rows : forall r w, rows s !! r = Some w -> exists w', rows s' !! r = Some w' /\
    forall q, is_Some (h_heap w !! q) -> is_Some (h_heap w' !! q);
  e_vs : forall r v, v ∈ VS' r -> v ∈ VS r \/ exists t, holds s t r (v_ptr v) /\ cts (txs s t) = Some (v_ts v);
  e_hist : forall r, hist s' r = hist s r \/ exists t p rc rid c u, holds s t r p /\
    x_pc (txs s t) = Validating rc rid c /\ hist s' r = hist s r ++ [(c, u)];
  e_cts : forall t r p c, holds s' t r p -> cts (txs s' t) = Some c -> holds s t r p /\ cts (txs s t) = Some c \/ clock s <= c;
  e_will : forall t r p rc rid c, holds s' t r p -> x_pc (txs s' t) = Validating rc rid c ->
    (exists rc rid, holds s t r p /\ x_pc (txs s t) = Validating rc rid c) \/ clock s <= c }.

Lemma read_ok_evolves s s' VS VS' c r u : evolves s s' VS VS' -> c < clock s -> read_ok s c r u -> read_ok s' c r u.
Proof using Type.
  intros E Hc [(old & b & new & Hh & Hb & Hn) Hr]. split.
  - destruct (e_hist _ _ _ _ E r) as [->|(t & p & rc & rid & c' & u' & Ht & Hpc & ->)]; [by exists old, b, new|].
    exists old, b, (new ++ [(c', u')]). rewrite Hh. split; [by rewrite <- app_assoc|]. split; [done|].
    apply Forall_app. split; [done|]. constructor; [|constructor]. cbn. by eapply Hr.
  - intros t p rc rid c' Ht Hpc. destruct (e_will _ _ _ _ E _ _ _ _ _ _ Ht Hpc) as [(rc' & rid' & Ht' & Hpc')|]; [by eapply Hr|lia].
Qed.

Lemma hist_evolves s s' VS VS' r h : evolves s s' VS VS' -> h ∈ hist s r -> h ∈ hist s' r.
Proof using Type.
  intros E Hh. destruct (e_hist _ _ _ _ E r) as [->|(t & p & rc & rid & c' & u' & Ht & Hpc & ->)]; [done|].
  apply elem_of_app. by left.
Qed.

(** A transaction that the step does not concern; [t] is the only one with a prewrite on
    a row. *)
Lemma txn_ok_evolves s s' VS VS' t x : evolves s s' VS VS' -> txn_ok s VS t x ->
  (forall r p t' p', holdsx x r p -> holds s t' r p' -> t' = t) -> txs s t = x ->
  (forall t' c, t' <> t -> x_pc x <> Idle -> cts (txs s t') = Some c -> c <> x_ts x) ->
  (forall r, hist s' r = hist s r \/ exists t' p rc rid c u, t' <> t /\ holds s t' r p /\
    x_pc (txs s t') = Validating rc rid c /\ hist s' r = hist s r ++ [(c, u)]) ->
  txn_ok s' VS' t x.
Proof using Type.
  intros E [Hts Hid Hidle Hcts Hacc Hwr Hreads Hrd Hwrd Hwill Hvalid] Huniq Htx Hne Hh. split; try done.
  - intros Hp. destruct (Hts Hp) as [H1 H2]. pose proof (e_clock _ _ _ _ E). split; [lia|]. intros r.
    destruct (Hh r) as [->|(t' & p & rc & rid & c & u & Hn & _ & Hpc & ->)]; [done|]. apply Forall_app. split; [done|].
    constructor; [|constructor]. cbn. apply (Hne t'); [done|done|]. unfold cts. by rewrite Hpc.
  - intros c Hc. pose proof (Hcts c Hc). pose proof (e_clock _ _ _ _ E). lia.
  - intros a Ha. destruct (Hacc a Ha) as (Hty & w & Hw & Hd). split; [done|].
    destruct (e_rows _ _ _ _ E _ _ Hw) as (w' & Hw' & Hq). exists w'. eauto.
  - intros Hl a Ha Hty. destruct (Hrd Hl a Ha Hty) as (b & v0 & H1 & H2 & H3 & H4 & H5). exists b, v0.
    split; [by eapply hist_evolves|]. split; [done|]. split; [|split].
    + intros v Hv Hp. destruct (e_vs _ _ _ _ E _ _ Hv) as [|(t' & Ht' & Hc)]; [by apply H3|]. right. rewrite Hp in Ht'. by eapply H4.
    + intros t' c Ht' Hc. destruct (e_cts _ _ _ _ E _ _ _ _ Ht' Hc) as [[Ht2 Hc2]|]; [by eapply H4|].
      assert (x_pc x <> Idle) as Hp by (intros Hp; unfold live in Hl; by rewrite Hp in Hl). destruct (Hts Hp). lia.
    + intros u v Hu Hv Hp Hb. destruct (e_vs _ _ _ _ E _ _ Hv) as [|(t' & Ht' & Hc)]; [by eapply H5|].
      rewrite Hp in Ht'. specialize (H4 _ _ Ht' Hc). lia.
  - intros Hl a u Hu Hty. destruct (Hwrd Hl a u Hu Hty) as (old & b & Ho).
    destruct (Hh (a_row a)) as [->|(t' & p & rc & rid & c & u' & Hn & Ht' & _)]; [by exists old, b|]. destruct Hn.
    apply (Huniq (a_row a) (a_data a) t' p); [|done]. apply Hreads in Hu. apply list_elem_of_lookup in Hu as (i & Hi).
    exists i, a. split_and!; try done. intros rc' rid' c' Hp. unfold live in Hl. by rewrite Hp in Hl.
  - intros rc rid c Hp a Ha Hty. specialize (Hwill rc rid c Hp a Ha Hty).
    destruct (Hh (a_row a)) as [->|(t' & p & rc' & rid' & c' & u' & Hn & Ht' & _)]; [done|]. destruct Hn.
    apply (Huniq (a_row a) (a_data a) t' p); [|done]. apply list_elem_of_lookup in Ha as (i & Hi).
    exists i, a. split_and!; try done. intros rc2 rid2 c2 Hp2. congruence.
  - intros rc rid c Hp i a u Hi Ha Hty Hu Hsp. eapply read_ok_evolves; [exact E| |by eapply Hvalid].
    assert (cts x = Some c) as Hc by (unfold cts; by rewrite Hp). pose proof (Hcts c Hc). lia.
Qed.
(** ** Steps that change one transaction *)


Record tx_change s s' (t : nat) x' : Prop := {
  tc_rows : rows s' = rows s;
  tc_log : log s' = log s;
  tc_txs : forall t', txs s' t' = (<[t := x']> (txs s)) t';
  tc_clock : clock s <= clock s' <= INF;
  tc_holds : forall r p, holdsx x' r p <-> holdsx (txs s t) r p;
  tc_cts : forall c, cts x' = Some c -> cts (txs s t) = Some c \/ c = clock s /\ clock s < clock s';
  tc_val : forall rc rid c, x_pc x' = Validating rc rid c ->
    (exists rc rid, x_pc (txs s t) = Validating rc rid c) \/ c = clock s;
  tc_com : forall r p, holdsx x' r p -> committed x' = committed (txs s t) /\ x_id x' = x_id (txs s t);
  tc_ts : x_pc x' <> Idle -> x_ts x' = x_ts (txs s t) /\ x_pc (txs s t) <> Idle \/
    x_ts x' = clock s /\ clock s < clock s' /\ cts x' = None }.

Lemma txs_eq s s' t x' : (forall t', txs s' t' = (<[t := x']> (txs s)) t') -> txs s' t = x'.
Proof using Type. intros H. rewrite H. apply fn_lookup_insert. Qed.
Lemma txs_ne s s' t x' t' : (forall t', txs s' t' = (<[t := x']> (txs s)) t') -> t' <> t -> txs s' t' = txs s t'.
Proof using Type. intros H ?. rewrite H. by apply fn_lookup_insert_ne. Qed.

Lemma tx_change_hist s s' t x' r : tx_change s s' t x' -> hist s' r = hist s r.
Proof using Type. intros C. unfold hist. by rewrite (tc_log _ _ _ _ C). Qed.

Lemma tx_change_holds s s' t x' t' r p : tx_change s s' t x' -> holds s' t' r p <-> holds s t' r p.
Proof using Type.
  intros C. destruct (decide (t' = t)) as [->|Hne].
  - rewrite (txs_eq _ _ _ _ (tc_txs _ _ _ _ C)). apply (tc_holds _ _ _ _ C).
  - by rewrite (txs_ne _ _ _ _ _ (tc_txs _ _ _ _ C) Hne).
Qed.

Lemma tx_change_evolves s s' t x' VS : tx_change s s' t x' -> evolves s s' VS VS.
Proof using Type.
  intros C. split.
  - apply (tc_clock _ _ _ _ C).
  - intros r w Hw. rewrite (tc_rows _ _ _ _ C). by exists w.
  - by left.
  - intros r. left. by eapply tx_change_hist.
  - intros t' r p c Ht' Hc. rewrite (tx_change_holds _ _ _ _ _ _ _ C) in Ht'. destruct (decide (t' = t)) as [->|Hne].
    + rewrite (txs_eq _ _ _ _ (tc_txs _ _ _ _ C)) in Hc. destruct (tc_cts _ _ _ _ C c Hc) as [|[-> _]]; [by left|right; lia].
    + rewrite (txs_ne _ _ _ _ _ (tc_txs _ _ _ _ C) Hne) in Hc. by left.
  - intros t' r p rc rid c Ht' Hc. rewrite (tx_change_holds _ _ _ _ _ _ _ C) in Ht'. destruct (decide (t' = t)) as [->|Hne].
    + rewrite (txs_eq _ _ _ _ (tc_txs _ _ _ _ C)) in Hc.
      destruct (tc_val _ _ _ _ C _ _ _ Hc) as [(rc' & rid' & Hv)| ->]; [left; by exists rc', rid'|right; lia].
    + rewrite (txs_ne _ _ _ _ _ (tc_txs _ _ _ _ C) Hne) in Hc. left. by exists rc, rid.
Qed.

Lemma holds_unique s VS PRE t t' r p p' : inv s VS PRE -> holds s t r p -> holds s t' r p' -> t' = t /\ p' = p.
Proof using Type.
  intros I Ht Ht'. pose proof Ht as (i & a & Ha & _ & <- & _).
  destruct (ok_acc _ _ _ _ (iv_txn _ _ _ I t) a) as (_ & w & Hw & _); [by eapply list_elem_of_lookup_2|].
  pose proof (iv_pre _ _ _ I _ _ Hw) as Hp. destruct (PRE (a_row a)) as [[id q]|].
  - destruct Hp as (t0 & _ & _ & Hu). destruct (Hu _ _ Ht) as [-> ->], (Hu _ _ Ht') as [-> ->]. done.
  - by destruct (Hp t p).
Qed.

(** Every transaction as it was, in the new state. *)
Lemma txn_ok_same_hist s s' VS VS' PRE t : inv s VS PRE -> evolves s s' VS VS' -> (forall r, hist s' r = hist s r) ->
  txn_ok s' VS' t (txs s t).
Proof using Type.
  intros I E Hh. eapply txn_ok_evolves; [exact E|apply (iv_txn _ _ _ I)| |done| |].
  - intros r p t' p' H1 H2. by destruct (holds_unique _ _ _ _ _ _ _ _ I H1 H2).
  - intros t' c _ Hp Hc. by eapply iv_ts.
  - intros r. left. apply Hh.
Qed.

Lemma tx_change_inv s s' t x' VS PRE : inv s VS PRE -> tx_change s s' t x' -> txn_ok s' VS t x' -> inv s' VS PRE.
Proof using Type.
  intros I C Hok. pose proof (tx_change_evolves _ _ _ _ VS C) as E. pose proof (tc_txs _ _ _ _ C) as Hx.
  pose proof (fun r => tx_change_hist _ _ _ _ r C) as Hh. pose proof (tc_clock _ _ _ _ C) as Hck.
  assert (forall t' r p, holds s' t' r p -> committed (txs s' t') = committed (txs s t') /\ x_id (txs s' t') = x_id (txs s t')) as Hcom.
  { intros t' r p Ht'. destruct (decide (t' = t)) as [->|Hne]; [|by rewrite (txs_ne _ _ _ _ _ Hx Hne)].
    rewrite (txs_eq _ _ _ _ Hx) in *. by eapply (tc_com _ _ _ _ C). }
  split.
  - pose proof (iv_clock _ _ _ I). lia.
  - rewrite (tc_rows _ _ _ _ C). apply (iv_dom _ _ _ I).
  - rewrite (tc_rows _ _ _ _ C). apply (iv_row _ _ _ I).
  - rewrite (tc_rows _ _ _ _ C). intros r w Hw. destruct (iv_hist _ _ _ I r w Hw) as (old & tl & Ho & Ht). rewrite Hh.
    exists old, tl. split; [done|]. destruct Ht as [[-> Ht]|(t' & p & c & u & Ht' & Hc & Hu & ->)]; [left|right].
    + split; [done|]. intros t' p Ht'. destruct (Hcom _ _ _ Ht') as [-> _]. rewrite (tx_change_holds _ _ _ _ _ _ _ C) in Ht'.
      by eapply Ht.
    + rewrite <- (tx_change_holds _ _ _ _ _ _ _ C) in Ht'. destruct (Hcom _ _ _ Ht') as [Hc' _].
      exists t', p, c, u. by rewrite Hc'.
  - rewrite (tc_rows _ _ _ _ C). intros r w Hw. pose proof (iv_pre _ _ _ I r w Hw) as Hp. unfold pre_ok in *.
    destruct (PRE r) as [[id p]|].
    + destruct Hp as (t' & Ht' & <- & Hu). rewrite <- (tx_change_holds _ _ _ _ _ _ _ C) in Ht'.
      destruct (Hcom _ _ _ Ht') as [_ Hid]. exists t'. split_and!; [done|done|]. intros t2 p2 Ht2.
      apply Hu. by rewrite <- (tx_change_holds _ _ _ _ _ _ _ C).
    + intros t' p Ht'. rewrite (tx_change_holds _ _ _ _ _ _ _ C) in Ht'. by eapply Hp.
  - intros r. rewrite Hh. destruct (iv_sorted _ _ _ I r) as [Hs Hb]. split; [done|]. eapply Forall_impl; [exact Hb|]. cbn. lia.
  - intros t'. destruct (decide (t' = t)) as [->|Hne]; [by rewrite (txs_eq _ _ _ _ Hx)|].
    rewrite (txs_ne _ _ _ _ _ Hx Hne). by eapply txn_ok_same_hist.
  - assert (forall t' c, cts (txs s' t') = Some c -> cts (txs s t') = Some c \/ t' = t /\ c = clock s /\ clock s < clock s') as Hc.
    { intros t' c Hc. destruct (decide (t' = t)) as [->|Hne]; [|rewrite (txs_ne _ _ _ _ _ Hx Hne) in Hc; by left].
      rewrite (txs_eq _ _ _ _ Hx) in Hc. destruct (tc_cts _ _ _ _ C c Hc) as [|[-> ?]]; [by left|by right]. }
    intros t1 t2 c Hp Hc2. destruct (decide (t1 = t)) as [->|Hne].
    + rewrite (txs_eq _ _ _ _ Hx) in *. destruct (tc_ts _ _ _ _ C Hp) as [[-> Hp']|(Hts & Hlt & Hnone)].
      * destruct (Hc _ _ Hc2) as [Hc2'|(-> & -> & _)]; [by eapply iv_ts|].
        destruct (ok_ts _ _ _ _ (iv_txn _ _ _ I t) Hp'). lia.
      * rewrite Hts. destruct (Hc _ _ Hc2) as [Hc2'|(-> & _ & _)]; [|rewrite (txs_eq _ _ _ _ Hx) in Hc2; congruence].
        pose proof (ok_cts _ _ _ _ (iv_txn _ _ _ I t2) _ Hc2'). lia.
    + rewrite (txs_ne _ _ _ _ _ Hx Hne) in *. destruct (Hc _ _ Hc2) as [Hc2'|(-> & -> & _)]; [by eapply iv_ts|].
      destruct (ok_ts _ _ _ _ (iv_txn _ _ _ I t1) Hp). lia.
  - assert (forall t' c, cts (txs s' t') = Some c -> cts (txs s t') = Some c \/ t' = t /\ c = clock s) as Hc.
    { intros t' c Hc. destruct (decide (t' = t)) as [->|Hne]; [|rewrite (txs_ne _ _ _ _ _ Hx Hne) in Hc; by left].
      rewrite (txs_eq _ _ _ _ Hx) in Hc. destruct (tc_cts _ _ _ _ C c Hc) as [|[-> ?]]; [by left|by right]. }
    intros t1 t2 c Hc1 Hc2. destruct (Hc _ _ Hc1) as [H1|[-> ->]], (Hc _ _ Hc2) as [H2|[-> E2]].
    + by eapply iv_cts.
    + subst. pose proof (ok_cts _ _ _ _ (iv_txn _ _ _ I t1) _ H1). lia.
    + pose proof (ok_cts _ _ _ _ (iv_txn _ _ _ I t2) _ H2). lia.
    + done.
  - unfold log_ts. rewrite (tc_log _ _ _ _ C). destruct (iv_log _ _ _ I) as (Hnd & Hb & Hv). split_and!; [done| |].
    + eapply Forall_impl; [exact Hb|]. cbn. lia.
    + intros t' rc rid c Hp. destruct (decide (t' = t)) as [->|Hne].
      * rewrite (txs_eq _ _ _ _ Hx) in Hp. destruct (tc_val _ _ _ _ C _ _ _ Hp) as [(rc' & rid' & Hp')| ->]; [by eapply Hv|].
        intros Hin. unfold log_ts in Hb. rewrite Forall_forall in Hb. specialize (Hb _ Hin). cbn in Hb. lia.
      * rewrite (txs_ne _ _ _ _ _ Hx Hne) in Hp. by eapply Hv.
  - rewrite (tc_log _ _ _ _ C). intros e He r u Hu. eapply read_ok_evolves; [exact E| |by eapply iv_reads].
    destruct (iv_log _ _ _ I) as (_ & Hb & _). rewrite Forall_forall in Hb.
    assert (c_ts e.1 ∈ log_ts s) as Hin by (apply list_elem_of_fmap; by exists e). specialize (Hb _ Hin). cbn in Hb. lia.
Qed.
(** ** The steps *)

Lemma hist_fun s VS PRE r b u v : inv s VS PRE -> (b, u) ∈ hist s r -> (b, v) ∈ hist s r -> u = v.
Proof using Type.
  intros I Hu Hv. destruct (iv_sorted _ _ _ I r) as [Hs _].
  apply list_elem_of_lookup in Hu as (i & Hi), Hv as (j & Hj). assert (i = j) as ->; [|congruence].
  assert (NoDup (map fst (hist s r))) as Hnd.
  { clear -Hs. induction Hs as [|a l Hs IH HF]; constructor; [|done]. intros Hin. rewrite Forall_forall in HF. specialize (HF _ Hin). lia. }
  eapply NoDup_lookup; [exact Hnd|rewrite list_lookup_fmap, Hi; done|by rewrite list_lookup_fmap, Hj].
Qed.

Lemma vers_hist s VS PRE r w v : inv s VS PRE -> rows s !! r = Some w -> v ∈ VS r -> vpair v ∈ hist s r.
Proof using Type.
  intros I Hw Hv. destruct (iv_hist _ _ _ I r w Hw) as (old & tl & -> & _). rewrite !elem_of_app. right; left.
  apply list_elem_of_fmap. eauto.
Qed.

Lemma held_pre s VS PRE t r p w : inv s VS PRE -> holds s t r p -> rows s !! r = Some w -> PRE r = Some (x_id (txs s t), p).
Proof using Type.
  intros I Ht Hw. pose proof (iv_pre _ _ _ I _ _ Hw) as Hp. destruct (PRE r) as [[id q]|].
  - destruct Hp as (t0 & _ & <- & Hu). by destruct (Hu _ _ Ht) as [<- <-].
  - by destruct (Hp t p).
Qed.

Lemma id_inj s VS PRE t t' : inv s VS PRE -> x_pc (txs s t) <> Idle -> x_pc (txs s t') <> Idle ->
  x_id (txs s t) = x_id (txs s t') -> t = t'.
Proof using Type.
  intros I Hp Hp' E. destruct (ok_id _ _ _ _ (iv_txn _ _ _ I t) Hp) as [Hlt (n & En)], (ok_id _ _ _ _ (iv_txn _ _ _ I t') Hp') as [Hlt' (n' & En')].
  rewrite En, En' in E. apply Nat2Z.inj in E. apply (f_equal (fun a => a mod g_thread_cnt)%nat) in E.
  rewrite !Nat.Div0.mod_add, !Nat.mod_small in E by done. done.
Qed.

Lemma holds_pc s VS PRE t r p : inv s VS PRE -> holds s t r p -> x_pc (txs s t) <> Idle.
Proof using Type. intros I (i & a & Ha & _) Hp. rewrite (ok_idle _ _ _ _ (iv_txn _ _ _ I t) Hp) in Ha. done. Qed.

(** A change of [pc] alone. *)
Lemma set_pc_change s t p ck : clock s <= ck <= INF -> x_pc (txs s t) <> Idle ->
  (forall r q, holdsx (set_pc p (txs s t)) r q <-> holdsx (txs s t) r q) ->
  (forall c, cts (set_pc p (txs s t)) = Some c -> cts (txs s t) = Some c \/ c = clock s /\ clock s < ck) ->
  (forall rc rid c, p = Validating rc rid c -> (exists rc rid, x_pc (txs s t) = Validating rc rid c) \/ c = clock s) ->
  committed (set_pc p (txs s t)) = committed (txs s t) ->
  tx_change s (mkState (rows s) (<[t := set_pc p (txs s t)]> (txs s)) ck (log s)) t (set_pc p (txs s t)).
Proof using Type. intros. split; cbn; try done. by left. Qed.

Lemma holds_no_post x y r p : accesses y = accesses x -> (forall rc rid c, x_pc x <> Post rc (S rid) c) ->
  (forall rc rid c, x_pc y <> Post rc (S rid) c) -> holdsx y r p <-> holdsx x r p.
Proof using Type.
  intros Ha Hx Hy. unfold holdsx. rewrite Ha. split; intros (i & a & H1 & H2 & H3 & H4 & _); exists i, a; split_and!; try done;
    (intros rc [|rid] c Hp; [lia|]); exfalso; first [apply (Hx _ _ _ Hp)|apply (Hy _ _ _ Hp)].
Qed.

Lemma begin_ok s s' VS PRE t : inv s VS PRE -> begin g_thread_cnt t s = Some s' -> inv s' VS PRE.
Proof using Type.
  intros I H. unfold begin in H. destruct (x_pc (txs s t)) eqn:Hpc; try done. inv_assert. injection H as <-.
  match goal with |- inv (tick (set_tx t ?x s)) _ _ => set (x' := x) end.
  pose proof (ok_idle _ _ _ _ (iv_txn _ _ _ I t) Hpc) as Ha. pose proof (iv_clock _ _ _ I).
  eapply (tx_change_inv s _ t x'); [done| |].
  - split; cbn; try done.
    + lia.
    + intros r p. split; intros (i & a & Hi & _); [done|by rewrite Ha in Hi].
    + by intros r p (i & a & Hi & _).
    + intros _. right. split_and!; [done|lia|done].
  - split; cbn; try done; try (by intros ? ?%not_elem_of_nil); try (by intros ? ? ?%not_elem_of_nil).
    + intros _. split; [lia|]. intros r. destruct (iv_sorted _ _ _ I r) as [_ Hb]. eapply Forall_impl; [exact Hb|]. cbn. lia.
    + intros _. split; [by apply Nat.ltb_lt|]. by eexists.
    + by intros _ a u ?%not_elem_of_nil.
Qed.

Lemma finish_ok s s' VS PRE t rc : inv s VS PRE -> finish t rc s = Some s' -> inv s' VS PRE.
Proof using Type.
  intros I H. unfold finish in H.
  assert ((x_pc (txs s t) = Running \/ x_pc (txs s t) = Failed) /\ clock s + 1 < INF /\
    s' = tick (set_tx t (set_pc (Validating rc 0 (clock s)) (txs s t)) s)) as (Hpc & Hck & ->).
  { destruct (x_pc (txs s t)), rc; try done; inv_assert; injection H as <-; auto. }
  clear H. set (x' := set_pc _ _). pose proof (iv_clock _ _ _ I).
  assert (tx_change s (tick (set_tx t x' s)) t x') as C.
  { refine (set_pc_change s t (Validating rc 0 (clock s)) (clock s + 1) _ _ _ _ _ _); try done.
    - lia.
    - by destruct Hpc as [-> | ->].
    - intros r q. apply holds_no_post; [done|by destruct Hpc as [-> | ->]|done].
    - cbn. intros c [= <-]. right. split; [done|lia].
    - intros rc' rid c [= <- <- <-]. by right.
    - unfold committed. cbn. by destruct Hpc as [-> | ->]. }
  pose proof (txn_ok_same_hist _ _ _ _ _ t I (tx_change_evolves _ _ _ _ VS C) (fun r => tx_change_hist _ _ _ _ r C))
    as [Hts Hid Hidle Hcts Hacc Hwr Hreads Hrd Hwrd Hwill Hvalid].
  assert (x_pc (txs s t) <> Idle) as Hpc' by (by destruct Hpc as [-> | ->]).
  assert (live (txs s t) = true) as Hlive by (unfold live; by destruct Hpc as [-> | ->]).
  eapply tx_change_inv; [done|exact C|]. split; cbn; try done; auto.
  - intros c [= <-]. destruct (ok_ts _ _ _ _ (iv_txn _ _ _ I t) Hpc'). lia.
  - intros _ a Ha Hty. exact (Hrd Hlive a Ha Hty).
  - intros rc' rid c [= <- <- <-] a _ _. destruct (iv_sorted _ _ _ I (a_row a)) as [_ Hb]. eapply Forall_impl; [exact Hb|]. cbn. lia.
  - intros rc' rid c [= <- <- <-]. intros. lia.
Qed.
(** The same accesses and reads in another phase. *)
Lemma txn_ok_phase s VS t x x' : txn_ok s VS t x ->
  accesses x' = accesses x -> x_reads x' = x_reads x -> x_ts x' = x_ts x -> x_id x' = x_id x ->
  x_pc x <> Idle -> x_pc x' <> Idle -> (live x' = true -> live x = true) ->
  (forall c, cts x' = Some c -> cts x = Some c) ->
  (forall rc rid c, x_pc x' = Validating rc rid c -> (exists rc rid, x_pc x = Validating rc rid c) /\
     forall i a u, (i < rid)%nat -> accesses x !! i = Some a -> a_type a = RD ->
        (a, u) ∈ x_reads x -> a ∉ x_spec x' -> read_ok s c (a_row a) u) ->
  txn_ok s VS t x'.
Proof using Type.
  intros [Hts Hid Hidle Hcts Hacc Hwr Hreads Hrd Hwrd Hwill Hvalid] Ea Er Et Ei Hp Hp' Hl Hc Hv.
  split; rewrite ?Ea, ?Er, ?Et, ?Ei; auto; try done.
  - intros Hl' a Ha Hty. unfold rd_ok. rewrite Et, Er. apply Hrd; auto.
  - intros rc rid c Hpc. destruct (Hv _ _ _ Hpc) as [(rc' & rid' & Hpc') _]. by eapply Hwill.
  - intros rc rid c Hpc. by destruct (Hv _ _ _ Hpc) as [_ ?].
Qed.

(** The row of a validated read: its version is the latest one before [c]. *)
Lemma validated_read s VS PRE t rc rid c a w : inv s VS PRE -> x_pc (txs s t) = Validating rc rid c ->
  a ∈ accesses (txs s t) -> a_type a = RD -> rows s !! a_row a = Some w ->
  prepare_read (x_ts (txs s t)) (a_data a) c w = Some RCOK -> speculative (x_id (txs s t)) (a_data a) w = false ->
  forall u, (a, u) ∈ x_reads (txs s t) -> read_ok s c (a_row a) u.
Proof using All.
  intros I Hpc Ha Hty Hw Hp Hsp u Hu. set (x := txs s t) in *. set (r := a_row a) in *.
  pose proof (iv_txn _ _ _ I t) as Ok. fold x in Ok.
  assert (live x = true) as Hlive by (unfold live; by rewrite Hpc).
  assert (cts x = Some c) as Hc by (unfold cts; by rewrite Hpc).
  pose proof (ok_cts _ _ _ _ Ok c Hc) as Hcb. pose proof (iv_clock _ _ _ I) as Hck.
  destruct (ok_rd _ _ _ _ Ok Hlive a Ha Hty) as (b & v0 & Hb & Hbt & Hwin & _ & Hread). fold r in Hb, Hwin, Hread.
  destruct (prepare_read_ok w (VS r) (PRE r) (x_ts x) (a_data a) c (iv_row _ _ _ I r w Hw)) as
    [[_ Hab]|(vs1 & v & vs2 & Evs & Hvp & Hprep)]; [lia|congruence|].
  rewrite Hp in Hprep. injection Hprep as Hrc.
  destruct (Z.ltb_spec (x_ts x) (v_ts v)) as [|Hle]; [done|].
  assert (v ∈ VS r) as Hin by (rewrite Evs; set_solver).
  assert (v_ts v = b) as Evb by (destruct (Hwin v Hin Hvp); [done|lia]).
  assert (u = v0) as -> by (by eapply Hread).
  pose proof (vers_hist _ _ _ _ _ _ I Hw Hin) as Hvh. unfold vpair in Hvh. rewrite Evb in Hvh.
  assert (v_val v = v0) as Ev by (by eapply hist_fun).
  destruct (iv_hist _ _ _ I r w Hw) as (old & tl & Hh & Htl). rewrite Evs, map_app in Hh. cbn [map] in Hh.
  unfold vpair at 2 in Hh. rewrite Evb, Ev, <- !app_assoc in Hh. cbn [app] in Hh. rewrite app_assoc in Hh.
  destruct (iv_sorted _ _ _ I r) as [Hs _]. rewrite Hh in Hs. rewrite map_app in Hs. cbn [map] in Hs.
  apply StronglySorted_app in Hs as (_ & _ & Hs). apply StronglySorted_inv in Hs as [Hs _].
  destruct vs2 as [|v' vs2].
  - (* the latest version *)
    assert (forall t' p, holds s t' r p -> t' = t) as Hown.
    { intros t' p Ht'. pose proof (held_pre _ _ _ _ _ _ _ I Ht' Hw) as Hpre.
      pose proof (iv_row _ _ _ I r w Hw) as Hv. rewrite Hpre, Evs in Hv.
      destruct (find_latest _ _ _ _ _ Hv) as (e & Hf & He1 & He2 & He3). rewrite Hvp in Hf.
      unfold speculative in Hsp. rewrite Hf, He1, He2, He3 in Hsp. cbn in Hsp. apply negb_false_iff, Z.eqb_eq in Hsp.
      eapply id_inj; [done|by eapply holds_pc|by fold x; rewrite Hpc|done]. }
    split.
    + exists (old ++ map vpair vs1), b, tl. split; [exact Hh|]. split; [lia|].
      destruct Htl as [[-> _]|(t' & p & c' & u & Ht' & Hcm & _)]; [done|]. rewrite (Hown _ _ Ht') in Hcm. fold x in Hcm.
      unfold committed in Hcm. by rewrite Hpc in Hcm.
    + intros t' p rc' rid' c' Ht' Hpc'. rewrite (Hown _ _ Ht') in Hpc'. fold x in Hpc'. assert (c = c') as -> by congruence. lia.
  - destruct (Z.ltb_spec (v_ts v') c) as [|Hvc]; [done|]. split.
    + exists (old ++ map vpair vs1), b, (map vpair (v' :: vs2) ++ tl). split; [exact Hh|]. split; [lia|].
      cbn [map app] in Hs |- *. apply StronglySorted_inv in Hs as [_ HF]. constructor; [done|].
      rewrite List.Forall_map in HF. eapply Forall_impl; [exact HF|]. cbn. lia.
    + intros t' p rc' rid' c' Ht' Hpc'. destruct Ht' as (j & a' & Ha' & Hty' & Hr' & _).
      pose proof (ok_will _ _ _ _ (iv_txn _ _ _ I t') _ _ _ Hpc' a') as Hw'. rewrite Hr', Forall_forall in Hw'.
      specialize (Hw' ltac:(by eapply list_elem_of_lookup_2) Hty' (vpair v')). cbn in Hw'.
      assert (vpair v' ∈ hist s r) as Hv' by (eapply vers_hist; [done|done|]; rewrite Evs; set_solver). specialize (Hw' Hv'). lia.
Qed.

Notation validate := (validate true).

Lemma validate_ok s s' VS PRE t : inv s VS PRE -> (forall rid c, x_pc (txs s t) = Validating RCOK rid c -> accesses (txs s t) !! rid <> None) ->
  validate t s = Some s' -> inv s' VS PRE.
Proof using All.
  intros I Hn H. unfold HekatonTxn.validate in H. destruct (x_pc (txs s t)) as [| | |rc rid c|] eqn:Hpc; try done.
  set (x := txs s t) in *. pose proof (iv_clock _ _ _ I) as Hck.
  assert (cts x = Some c) as Hc by (unfold cts; by rewrite Hpc).
  assert (committed x = None) as Hcm by (unfold committed; by rewrite Hpc).
  (* a step to [x'] *)
  assert (forall x', accesses x' = accesses x -> x_reads x' = x_reads x -> x_ts x' = x_ts x -> x_id x' = x_id x ->
    cts x' = Some c -> committed x' = None -> (forall rc rid c, x_pc x' <> Post rc (S rid) c) ->
    (forall rc rid' c', x_pc x' = Validating rc rid' c' -> c' = c /\ forall i a u, (i < rid')%nat ->
        accesses x !! i = Some a -> a_type a = RD -> (a, u) ∈ x_reads x -> a ∉ x_spec x' -> read_ok s c (a_row a) u) ->
    inv (set_tx t x' s) VS PRE) as Hgo.
  { intros x' Ea Er Et Ei Ec Em Hpost Hv.
    assert (tx_change s (set_tx t x' s) t x') as C.
    { split; cbn; try done.
      - lia.
      - intros r p. apply holds_no_post; [done| |done]. fold x. by rewrite Hpc.
      - intros c' Hc'. left. fold x. congruence.
      - intros rc' rid' c' Hp'. left. destruct (Hv _ _ _ Hp') as [-> _]. exists rc, rid. done.
      - intros r p _. fold x. by rewrite Em, Hcm.
      - intros _. left. split; [done|]. fold x. by rewrite Hpc. }
    eapply tx_change_inv; [done|exact C|]. pose proof (tx_change_evolves _ _ _ _ VS C) as E.
    eapply txn_ok_phase; [eapply txn_ok_same_hist; [done|exact E|done]|done..| | | | |]; fold x.
    - by rewrite Hpc.
    - intros Hp'. unfold cts in Ec. by rewrite Hp' in Ec.
    - intros _. unfold live. by rewrite Hpc.
    - intros c' Hc'. congruence.
    - intros rc' rid' c' Hp'. destruct (Hv _ _ _ Hp') as [-> Hv']. split; [by exists rc, rid|]. intros i a u Hi Ha Hty Hu Hsp.
      eapply read_ok_evolves; [exact E| |by eapply Hv']. destruct (ok_cts _ _ _ _ (iv_txn _ _ _ I t) c Hc). lia. }
  case_bool_decide as Hrc.
  2:{ injection H as <-. apply Hgo; try done. unfold committed. cbn. by destruct rc. }
  subst rc. cbn [HekatonTxn.validate] in H. destruct (accesses x !! rid) as [a|] eqn:Ha; [|by destruct (Hn rid c)].
  case_bool_decide as Hty.
  - injection H as <-. apply Hgo; try done. intros rc' rid' c' [= <- <- <-]. split; [done|]. intros i b u Hi Hb Hb2 Hu Hsp.
    destruct (decide (i = rid)) as [->|]; [congruence|].
    eapply (ok_valid _ _ _ _ (iv_txn _ _ _ I t)); [exact Hpc| |exact Hb|done|done|done]. lia.
  - destruct (rows s !! a_row a) as [w|] eqn:Hw; [|done]. destruct (prepare_read _ _ _ _) as [rc|] eqn:Hp; [|done].
    case_bool_decide as Hrc; injection H as <-; [by apply Hgo|].
    assert (a ∈ accesses x) as Hina by (by eapply list_elem_of_lookup_2).
    assert (rc = RCOK) as ->.
    { destruct (prepare_read_ok w (VS (a_row a)) (PRE (a_row a)) (x_ts x) (a_data a) c) as [[_ Hab]|(vs1 & v & vs2 & _ & _ & Hprep)].
      - by eapply iv_row.
      - pose proof (ok_cts _ _ _ _ (iv_txn _ _ _ I t) c Hc). lia.
      - congruence.
      - rewrite Hp in Hprep. injection Hprep as ->. repeat case_match; done. }
    apply Hgo; try done. intros rc' rid' c' [= <- <- <-]. split; [done|]. cbn [x_spec]. intros i b u Hi Hb Hb2 Hu Hsp.
    destruct (decide (i = rid)) as [->|].
    + assert (b = a) as -> by congruence. destruct (speculative _ _ _) eqn:Hspec; [set_solver|]. by eapply validated_read.
    + assert (b ∉ x_spec x) by (destruct (speculative _ _ _); set_solver). eapply (ok_valid _ _ _ _ (iv_txn _ _ _ I t)); [exact Hpc| |exact Hb|done|done|done]. lia.
Qed.
(** *** The end of the first loop *)

Definition write_of s (a : Acc) : option (nat * V) :=
  if bool_decide (a_type a = WR) then
    match rows s !! a_row a with
    | Some w => match h_heap w !! a_data a with Some v => Some (a_row a, v) | None => None end
    | None => None
    end
  else None.

Lemma writes_none s l r : (forall a, a ∈ l -> a_type a = WR -> a_row a <> r) ->
  filter (fun w => w.1 = r) (omap (write_of s) l) = [].
Proof using Type.
  intros Hn. induction l as [|a l IH]; [done|]. cbn. assert (filter (fun w => w.1 = r) (omap (write_of s) l) = []) as IH'.
  { apply IH. intros b Hb. apply Hn. by right. }
  destruct (write_of s a) as [[r' v]|] eqn:Ha; [|done]. rewrite filter_cons_False; [done|]. cbn. intros ->.
  unfold write_of in Ha. case_bool_decide as Hty; [|done]. repeat case_match; try done. injection Ha as <- <-.
  apply (Hn a); [by left|done|done].
Qed.

Lemma writes_one s l r i a v :
  (forall i j a b, l !! i = Some a -> l !! j = Some b -> a_type a = WR -> a_type b = WR -> a_row a = a_row b -> i = j) ->
  l !! i = Some a -> a_type a = WR -> a_row a = r -> write_of s a = Some (r, v) ->
  filter (fun w => w.1 = r) (omap (write_of s) l) = [(r, v)].
Proof using Type.
  intros Hu Hi Hty Hr Hw. destruct (list_elem_of_split_length _ _ _ Hi) as (l1 & l2 & -> & Hl).
  assert (forall j b, (l1 ++ a :: l2) !! j = Some b -> j <> i -> a_type b = WR -> a_row b <> r) as Hother.
  { intros j b Hj Hne Hb Hbr. apply Hne. eapply (Hu j i b a); [done|done|done|done|congruence]. }
  assert (omap (write_of s) (a :: l2) = (r, v) :: omap (write_of s) l2) as Ho by (cbn; by rewrite Hw).
  rewrite omap_app, filter_app, Ho.
  rewrite filter_cons_True by done. rewrite !writes_none; [done| |].
  - intros b (j & Hj)%list_elem_of_lookup. apply (Hother (length l1 + S j)%nat); [|lia].
    rewrite lookup_app_r by lia. by replace (length l1 + S j - length l1)%nat with (S j) by lia.
  - intros b (j & Hj)%list_elem_of_lookup. pose proof (lookup_lt_Some _ _ _ Hj).
    apply (Hother j); [|lia]. by rewrite lookup_app_l by lia.
Qed.

(** The history of a row gets one version if the transaction has a prewrite on it. *)
Lemma decide_hist s VS PRE t rc rid c r : inv s VS PRE -> x_pc (txs s t) = Validating rc rid c ->
  (forall p, holds s t r p -> exists w u, rows s !! r = Some w /\ h_heap w !! p = Some u /\
     hist (decide_commit t c s) r = hist s r ++ [(c, u)]) /\
  ((forall p, ~ holds s t r p) -> hist (decide_commit t c s) r = hist s r).
Proof using All.
  intros I Hpc. pose proof (iv_txn _ _ _ I t) as Ok. set (x := txs s t) in *.
  assert (forall i a, accesses x !! i = Some a -> a_type a = WR -> holdsx x (a_row a) (a_data a)) as Hheld.
  { intros i a Hi Hty. exists i, a. split_and!; try done. intros rc' rid' c' Hp'. congruence. }
  unfold hist, history, decide_commit. cbn [log]. fold x. rewrite map_app. cbn [map fst]. rewrite writes_in_snoc. cbn [c_ts c_writes]. change (written s x) with (omap (write_of s) (accesses x)).
  split.
  - intros p (i & a & Hi & Hty & <- & <- & _).
    destruct (ok_acc _ _ _ _ Ok a) as (_ & w & Hw & [u Hu]); [by eapply list_elem_of_lookup_2|].
    exists w, u. split_and!; [done|done|].
    assert (is_Some (db0 !! a_row a)) as [v0 ->] by (apply (iv_dom _ _ _ I); by eexists).
    rewrite (writes_one _ _ _ i a u); [done|apply (ok_wr _ _ _ _ Ok)|done|done|done|].
    unfold write_of. rewrite bool_decide_eq_true_2 by done. by rewrite Hw, Hu.
  - intros Hn. destruct (db0 !! r); [|done]. rewrite writes_none; [by rewrite app_nil_r|].
    intros a (i & Hi)%list_elem_of_lookup Hty Hr. apply (Hn (a_data a)). rewrite <- Hr. by eapply Hheld.
Qed.

Lemma decide_ok s VS PRE t rid c : inv s VS PRE -> x_pc (txs s t) = Validating RCOK rid c ->
  accesses (txs s t) !! rid = None -> inv (decide_commit t c s) VS PRE.
Proof using All.
  intros I Hpc Hnone. pose proof (iv_txn _ _ _ I t) as Ok. set (x := txs s t) in *. set (s' := decide_commit t c s).
  set (x' := set_pc (Post RCOK 0 c) x). assert (forall t', txs s' t' = (<[t := x']> (txs s)) t') as Hx by done.
  assert (cts x = Some c) as Hc by (unfold cts; by rewrite Hpc).
  assert (live x = true) as Hlive by (unfold live; by rewrite Hpc).
  pose proof (ok_cts _ _ _ _ Ok c Hc) as Hcb.
  assert (x_pc x <> Idle) as Hp by (by rewrite Hpc).
  assert (forall t' r p, holds s' t' r p <-> holds s t' r p) as Hholds.
  { intros t' r p. destruct (decide (t' = t)) as [->|Hne]; [|by rewrite (txs_ne _ _ _ _ _ Hx Hne)].
    rewrite (txs_eq _ _ _ _ Hx). apply holds_no_post; [done| |done]. fold x. by rewrite Hpc. }
  assert (forall t', cts (txs s' t') = cts (txs s t')) as Hctse.
  { intros t'. destruct (decide (t' = t)) as [->|Hne]; [|by rewrite (txs_ne _ _ _ _ _ Hx Hne)].
    rewrite (txs_eq _ _ _ _ Hx). fold x. by rewrite Hc. }
  assert (forall t' rc rid c', x_pc (txs s' t') = Validating rc rid c' -> t' <> t /\ x_pc (txs s t') = Validating rc rid c') as Hval.
  { intros t' rc' rid' c' Hp'. destruct (decide (t' = t)) as [->|Hne]; [by rewrite (txs_eq _ _ _ _ Hx) in Hp'|].
    by rewrite (txs_ne _ _ _ _ _ Hx Hne) in Hp'. }
  assert (forall r, hist s' r = hist s r \/ exists p u, holds s t r p /\ hist s' r = hist s r ++ [(c, u)]) as Hh.
  { intros r. destruct (decide_hist s VS PRE t _ _ c r I Hpc) as [H1 H2].
    destruct (decide (Exists (fun a => a_type a = WR /\ a_row a = r) (accesses x))) as
      [(a & (i & Hi)%list_elem_of_lookup & Hty & Hr)%Exists_exists|Hn].
    - right. assert (holds s t r (a_data a)) as Hd.
      { exists i, a. split_and!; try done. intros rc' rid' c' Hp'. fold x in Hp'. congruence. }
      destruct (H1 _ Hd) as (w & u & _ & _ & E). exists (a_data a), u. done.
    - left. apply H2. intros p (i & a & Hi & Hty & Hr & _). apply Hn, Exists_exists. exists a. split; [by eapply list_elem_of_lookup_2|done]. }
  assert (evolves s s' VS VS) as E.
  { split; [done|intros r w Hw; by exists w|by left| | |].
    - intros r. destruct (Hh r) as [|(p & u & Hp' & Eh)]; [by left|]. right. exists t, p, RCOK, rid, c, u. done.
    - intros t' r p c'. rewrite Hholds, Hctse. by left.
    - intros t' r p rc' rid' c'. rewrite Hholds. intros Ht' [_ Hv]%Hval. left. by exists rc', rid'. }
  split.
  - apply (iv_clock _ _ _ I).
  - apply (iv_dom _ _ _ I).
  - apply (iv_row _ _ _ I).
  - intros r w Hw. change (rows s !! r = Some w) in Hw. destruct (iv_hist _ _ _ I r w Hw) as (old & tl & Ho & Htl).
    destruct (decide_hist s VS PRE t _ _ c r I Hpc) as [H1 H2].
    assert (tl = [] \/ forall p, ~ holds s t r p) as Ht0.
    { destruct Htl as [[-> _]|(t' & p' & c' & u & Ht' & Hcm & _)]; [by left|right]. intros p Hp'.
      destruct (holds_unique _ _ _ _ _ _ _ _ I Ht' Hp') as [<- _]. fold x in Hcm. unfold committed in Hcm. by rewrite Hpc in Hcm. }
    destruct (Hh r) as [Eh|(p & u & Hp' & Eh)].
    + rewrite Eh. exists old, tl. split; [done|]. assert (forall p, ~ holds s t r p) as Hnh.
      { intros p Hp'. destruct (H1 p Hp') as (? & ? & _ & _ & E1). fold s' in E1. rewrite Eh in E1. apply (f_equal length) in E1.
        rewrite length_app in E1. cbn in E1. lia. }
      assert (forall t' p, holds s' t' r p -> committed (txs s' t') = committed (txs s t')) as Hcm.
      { intros t' p Ht'. rewrite Hholds in Ht'. destruct (decide (t' = t)) as [->|Hne]; [by destruct (Hnh p)|].
        by rewrite (txs_ne _ _ _ _ _ Hx Hne). }
      destruct Htl as [[-> Ht]|(t' & p & c' & u & Ht' & Hc' & Hu & ->)]; [left|right].
      * split; [done|]. intros t' p Ht'. rewrite (Hcm _ _ Ht'). rewrite Hholds in Ht'. by eapply Ht.
      * rewrite <- Hholds in Ht'. exists t', p, c', u. by rewrite (Hcm _ _ Ht').
    + destruct Ht0 as [->|Hn]; [|by destruct (Hn p)]. rewrite app_nil_r in Ho.
      destruct (H1 p Hp') as (w' & u' & Hw' & Hu' & E1). rewrite Hw in Hw'. injection Hw' as <-.
      exists old, [(c, u')]. fold s' in E1. rewrite E1, Ho, app_assoc. split; [done|]. right.
      exists t, p, c, u'. rewrite Hholds, (txs_eq _ _ _ _ Hx). done.
  - intros r w Hw. pose proof (iv_pre _ _ _ I r w Hw) as Hpr. unfold pre_ok in *. destruct (PRE r) as [[id p]|].
    + destruct Hpr as (t' & Ht' & Hid & Hu). exists t'. rewrite Hholds. split; [done|]. split.
      * destruct (decide (t' = t)) as [->|Hne]; [by rewrite (txs_eq _ _ _ _ Hx)|by rewrite (txs_ne _ _ _ _ _ Hx Hne)].
      * intros t2 p2. rewrite Hholds. apply Hu.
    + intros t' p. rewrite Hholds. apply Hpr.
  - intros r. destruct (iv_sorted _ _ _ I r) as [Hs Hb]. destruct (Hh r) as [->|(p & u & (i & a & Hi & Hty & <- & _) & ->)]; [done|].
    assert (Forall (fun h => h.1 < c) (hist s (a_row a))) as Hw by (eapply (ok_will _ _ _ _ Ok); [exact Hpc|by eapply list_elem_of_lookup_2|done]).
    split.
    + rewrite map_app. apply StronglySorted_app. split_and!; [|done|by repeat constructor].
      intros b1 b2 (h & -> & Hin)%list_elem_of_fmap ->%list_elem_of_singleton. rewrite Forall_forall in Hw. by apply Hw.
    + apply Forall_app. split; [done|]. constructor; [|constructor]. cbn.
      destruct (ok_ts _ _ _ _ Ok Hp). lia.
  - intros t'. destruct (decide (t' = t)) as [->|Hne].
    + rewrite (txs_eq _ _ _ _ Hx). destruct Ok as [Hts Hid Hidle Hcts Hacc Hwr Hreads Hrd Hwrd Hwill Hvalid]. split; try done; auto.
      * intros _. destruct (Hts Hp) as [H1 H2]. split; [done|]. intros r. destruct (Hh r) as [->|(p & u & _ & ->)]; [apply H2|].
        apply Forall_app. split; [apply H2|]. constructor; [|constructor]. cbn. lia.
      * intros c' [= <-]. auto.
    + rewrite (txs_ne _ _ _ _ _ Hx Hne). eapply txn_ok_evolves; [exact E|apply (iv_txn _ _ _ I)| |done| |].
      * intros r p t2 p' H1 H2. by destruct (holds_unique _ _ _ _ _ _ _ _ I H1 H2).
      * intros t2 c' _ Hp' Hc'. by eapply iv_ts.
      * intros r. destruct (Hh r) as [|(p & u & Hp' & Eh)]; [by left|]. right. exists t, p, RCOK, rid, c, u. done.
  - intros t1 t2 c' Hp1. rewrite Hctse. intros Hc2. destruct (decide (t1 = t)) as [->|Hne].
    + rewrite (txs_eq _ _ _ _ Hx). by eapply iv_ts.
    + rewrite (txs_ne _ _ _ _ _ Hx Hne) in *. by eapply iv_ts.
  - intros t1 t2 c'. rewrite !Hctse. apply (iv_cts _ _ _ I).
  - destruct (iv_log _ _ _ I) as (Hnd & Hb & Hv).
    assert (log_ts s' = log_ts s ++ [c]) as El by (unfold log_ts, s', decide_commit; cbn; by rewrite map_app).
    rewrite El. split_and!.
    + apply NoDup_app. split_and!; [done| |apply NoDup_singleton]. intros c' Hin ->%list_elem_of_singleton. by eapply Hv.
    + apply Forall_app. split; [done|]. constructor; [|constructor]. destruct (ok_ts _ _ _ _ Ok Hp). change (0 < c < clock s). lia.
    + intros t' rc' rid' c' [Hne Hp']%Hval. rewrite elem_of_app, list_elem_of_singleton. intros [Hin| ->]; [by eapply Hv|].
      apply Hne. eapply (iv_cts _ _ _ I); [|exact Hc]. unfold cts. by rewrite Hp'.
  - intros e He r u Hu. cbn [log decide_commit] in He. apply elem_of_app in He as [He|He].
    { eapply read_ok_evolves; [exact E| |by eapply iv_reads]. destruct (iv_log _ _ _ I) as (_ & Hb & _). rewrite Forall_forall in Hb.
      assert (c_ts e.1 ∈ log_ts s) as Hin by (apply list_elem_of_fmap; by exists e). specialize (Hb _ Hin). cbn in Hb. lia. }
    apply list_elem_of_singleton in He as ->. cbn [fst snd c_ts] in Hu |- *. fold x in Hu.
    apply list_elem_of_fmap in Hu as ([a u'] & [= -> ->] & [Hsp Hin]%list_elem_of_filter).
    cbn [fst snd] in Hsp |- *. pose proof (ok_reads _ _ _ _ Ok _ _ Hin) as Ha.
    destruct (ok_acc _ _ _ _ Ok a Ha) as ([Hty|Hty] & _).
    + eapply read_ok_evolves; [exact E|lia|]. apply list_elem_of_lookup in Ha as (i & Hi).
      eapply (ok_valid _ _ _ _ Ok); [exact Hpc| |exact Hi|done|done|done].
      pose proof (lookup_lt_Some _ _ _ Hi). apply lookup_ge_None in Hnone. lia.
    + assert (holds s t (a_row a) (a_data a)) as Hd.
      { apply list_elem_of_lookup in Ha as (i & Hi). exists i, a. split_and!; try done. intros rc' rid' c' Hp'. fold x in Hp'. congruence. }
      destruct (ok_wrd _ _ _ _ Ok Hlive a _ Hin Hty) as (old & b & Ho).
      destruct (decide_hist s VS PRE t _ _ c (a_row a) I Hpc) as [H1 _]. destruct (H1 _ Hd) as (w & u2 & _ & _ & Eh). split.
      * exists old, b, [(c, u2)]. fold s' in Eh. rewrite Eh, Ho, <- app_assoc. split; [done|].
        pose proof (ok_will _ _ _ _ Ok _ _ _ Hpc a Ha Hty) as Hw. rewrite Ho in Hw. apply Forall_app in Hw as [_ Hw].
        apply Forall_cons in Hw as [Hw _]. split; [done|]. constructor; [cbn; lia|constructor].
      * intros t' p rc' rid' c'. rewrite Hholds. intros Ht' [Hne _]%Hval. by destruct (holds_unique _ _ _ _ _ _ _ _ I Hd Ht').
Qed.
(** *** Steps that change a row *)

Record row_change s s' (t : nat) x' (r : nat) (w w' : @hrow V) VS (vs' : list (version V)) (pre' : option (Z * nat)) : Prop := {
  rc_rows : rows s' = <[r := w']> (rows s);
  rc_txs : forall t', txs s' t' = (<[t := x']> (txs s)) t';
  rc_rest : log s' = log s /\ clock s' = clock s;
  rc_row : rows s !! r = Some w;
  rc_vers : vers w' vs' pre';
  rc_heap : forall q, is_Some (h_heap w !! q) -> is_Some (h_heap w' !! q);
  rc_vs : forall v, v ∈ vs' -> v ∈ VS r \/ holds s t r (v_ptr v) /\ cts (txs s t) = Some (v_ts v);
  rc_hist : exists old tl, hist s r = old ++ map vpair vs' ++ tl /\ tail_ok s' r w' tl;
  rc_pre : pre_ok s' r pre';
  rc_other : forall r' p, r' <> r -> holdsx x' r' p <-> holdsx (txs s t) r' p;
  rc_held : forall p c, holdsx x' r p -> cts x' = Some c -> holdsx (txs s t) r p;
  rc_tx : cts x' = cts (txs s t) /\ committed x' = committed (txs s t) /\ x_ts x' = x_ts (txs s t) /\ x_id x' = x_id (txs s t);
  rc_pc : x_pc (txs s t) <> Idle /\ forall rc rid c, x_pc x' = Validating rc rid c -> x_pc (txs s t) = Validating rc rid c }.

Lemma row_change_evolves s s' t x' r w w' VS vs' pre' : row_change s s' t x' r w w' VS vs' pre' ->
  evolves s s' VS (<[r := vs']> VS) /\ (forall r, hist s' r = hist s r).
Proof using Type.
  intros C. destruct (rc_rest _ _ _ _ _ _ _ _ _ _ C) as [El Ec]. pose proof (rc_txs _ _ _ _ _ _ _ _ _ _ C) as Hx.
  assert (forall r, hist s' r = hist s r) as Hh by (intros r'; unfold hist; by rewrite El). split; [|done].
  destruct (rc_tx _ _ _ _ _ _ _ _ _ _ C) as (Hcts & _).
  assert (forall t' r' p c, holds s' t' r' p -> cts (txs s' t') = Some c -> holds s t' r' p /\ cts (txs s t') = Some c) as Hhc.
  { intros t' r' p c Ht' Hc. destruct (decide (t' = t)) as [->|Hne]; [|by rewrite (txs_ne _ _ _ _ _ Hx Hne) in *].
    rewrite (txs_eq _ _ _ _ Hx) in *. split; [|by rewrite <- Hcts]. destruct (decide (r' = r)) as [->|].
    - by eapply (rc_held _ _ _ _ _ _ _ _ _ _ C).
    - by apply (rc_other _ _ _ _ _ _ _ _ _ _ C). }
  split.
  - lia.
  - intros r' w0 Hw. rewrite (rc_rows _ _ _ _ _ _ _ _ _ _ C). destruct (decide (r' = r)) as [->|].
    + rewrite lookup_insert_eq. exists w'. split; [done|]. rewrite (rc_row _ _ _ _ _ _ _ _ _ _ C) in Hw. injection Hw as <-.
      apply (rc_heap _ _ _ _ _ _ _ _ _ _ C).
    + rewrite lookup_insert_ne by done. by exists w0.
  - intros r' v Hv. destruct (decide (r' = r)) as [->|].
    + rewrite fn_lookup_insert in Hv. destruct (rc_vs _ _ _ _ _ _ _ _ _ _ C v Hv) as [|[? ?]]; [by left|right; by exists t].
    + rewrite fn_lookup_insert_ne in Hv by done. by left.
  - intros r'. left. apply Hh.
  - intros t' r' p c H1 H2. left. by apply Hhc.
  - intros t' r' p rc rid c H1 H2. left. assert (cts (txs s' t') = Some c) as H3 by (unfold cts; by rewrite H2).
    destruct (Hhc _ _ _ _ H1 H3) as [H4 _]. exists rc, rid. split; [done|].
    destruct (decide (t' = t)) as [->|Hne]; [|by rewrite (txs_ne _ _ _ _ _ Hx Hne) in *]. rewrite (txs_eq _ _ _ _ Hx) in *.
    by apply (rc_pc _ _ _ _ _ _ _ _ _ _ C).
Qed.

Lemma row_change_inv s s' t x' r w w' VS PRE vs' pre' : inv s VS PRE -> row_change s s' t x' r w w' VS vs' pre' ->
  txn_ok s' (<[r := vs']> VS) t x' -> inv s' (<[r := vs']> VS) (<[r := pre']> PRE).
Proof using Type.
  intros I C Hok. destruct (row_change_evolves _ _ _ _ _ _ _ _ _ _ C) as [E Hh].
  destruct (rc_rest _ _ _ _ _ _ _ _ _ _ C) as [El Eck]. pose proof (rc_txs _ _ _ _ _ _ _ _ _ _ C) as Hx.
  destruct (rc_tx _ _ _ _ _ _ _ _ _ _ C) as (Hcts & Hcom & Hts & Hid). pose proof (rc_rows _ _ _ _ _ _ _ _ _ _ C) as Hrows.
  assert (forall t', cts (txs s' t') = cts (txs s t') /\ committed (txs s' t') = committed (txs s t') /\
    x_ts (txs s' t') = x_ts (txs s t') /\ x_id (txs s' t') = x_id (txs s t')) as Htx.
  { intros t'. destruct (decide (t' = t)) as [->|Hne]; [by rewrite (txs_eq _ _ _ _ Hx)|by rewrite (txs_ne _ _ _ _ _ Hx Hne)]. }
  assert (forall t' r' p, r' <> r -> holds s' t' r' p <-> holds s t' r' p) as Hholds.
  { intros t' r' p Hne. destruct (decide (t' = t)) as [->|Hne']; [|by rewrite (txs_ne _ _ _ _ _ Hx Hne')].
    rewrite (txs_eq _ _ _ _ Hx). by apply (rc_other _ _ _ _ _ _ _ _ _ _ C). }
  assert (forall t' rc rid c, x_pc (txs s' t') = Validating rc rid c -> x_pc (txs s t') = Validating rc rid c) as Hval.
  { intros t' rc rid c H. destruct (decide (t' = t)) as [->|Hne]; [|by rewrite (txs_ne _ _ _ _ _ Hx Hne) in H].
    rewrite (txs_eq _ _ _ _ Hx) in H. by apply (rc_pc _ _ _ _ _ _ _ _ _ _ C). }
  assert (forall t', x_pc (txs s' t') <> Idle -> x_pc (txs s t') <> Idle) as Hact.
  { intros t' H. destruct (decide (t' = t)) as [->|Hne]; [apply (rc_pc _ _ _ _ _ _ _ _ _ _ C)|by rewrite (txs_ne _ _ _ _ _ Hx Hne) in H]. }
  split.
  - rewrite Eck. apply (iv_clock _ _ _ I).
  - intros r'. rewrite Hrows, <- (iv_dom _ _ _ I). destruct (decide (r' = r)) as [->|]; [|by rewrite lookup_insert_ne].
    rewrite lookup_insert_eq, (rc_row _ _ _ _ _ _ _ _ _ _ C). split; intros; by eexists.
  - intros r' w0. rewrite Hrows. destruct (decide (r' = r)) as [->|].
    + rewrite lookup_insert_eq, !fn_lookup_insert. intros [= <-]. apply (rc_vers _ _ _ _ _ _ _ _ _ _ C).
    + rewrite lookup_insert_ne, !fn_lookup_insert_ne by done. apply (iv_row _ _ _ I).
  - intros r' w0. rewrite Hrows, Hh. destruct (decide (r' = r)) as [->|Hne].
    + rewrite lookup_insert_eq, fn_lookup_insert. intros [= <-]. apply (rc_hist _ _ _ _ _ _ _ _ _ _ C).
    + rewrite lookup_insert_ne, fn_lookup_insert_ne by done. intros Hw.
      destruct (iv_hist _ _ _ I _ _ Hw) as (old & tl & Ho & Ht). exists old, tl. split; [done|].
      destruct Ht as [[-> Ht]|(t' & p & c & u & Ht' & Hc & Hu & ->)]; [left|right].
      * split; [done|]. intros t' p. rewrite Hholds by done. intros Ht'. destruct (Htx t') as (_ & -> & _). by eapply Ht.
      * exists t', p, c, u. rewrite Hholds by done. destruct (Htx t') as (_ & -> & _). done.
  - intros r' w0. rewrite Hrows. destruct (decide (r' = r)) as [->|Hne].
    + rewrite fn_lookup_insert. intros _. apply (rc_pre _ _ _ _ _ _ _ _ _ _ C).
    + rewrite lookup_insert_ne, fn_lookup_insert_ne by done. intros Hw. pose proof (iv_pre _ _ _ I _ _ Hw) as Hp.
      unfold pre_ok in *. destruct (PRE r') as [[id p]|].
      * destruct Hp as (t' & Ht' & Hi & Hu). exists t'. rewrite Hholds by done. destruct (Htx t') as (_ & _ & _ & ->).
        split_and!; [done|done|]. intros t2 p2. rewrite Hholds by done. apply Hu.
      * intros t' p. rewrite Hholds by done. apply Hp.
  - intros r'. rewrite Hh, Eck. apply (iv_sorted _ _ _ I).
  - intros t'. destruct (decide (t' = t)) as [->|Hne]; [by rewrite (txs_eq _ _ _ _ Hx)|].
    rewrite (txs_ne _ _ _ _ _ Hx Hne). by eapply txn_ok_same_hist.
  - intros t1 t2 c Hp. destruct (Htx t1) as (_ & _ & -> & _), (Htx t2) as (-> & _). apply (iv_ts _ _ _ I). by apply Hact.
  - intros t1 t2 c. destruct (Htx t1) as (-> & _), (Htx t2) as (-> & _). apply (iv_cts _ _ _ I).
  - unfold log_ts. rewrite El, Eck. destruct (iv_log _ _ _ I) as (Hnd & Hb & Hv). split_and!; [done|done|].
    intros t' rc rid c Hp%Hval. by eapply Hv.
  - rewrite El. intros e He r' u Hu. eapply read_ok_evolves; [exact E| |by eapply iv_reads].
    destruct (iv_log _ _ _ I) as (_ & Hb & _). rewrite Forall_forall in Hb.
    assert (c_ts e.1 ∈ log_ts s) as Hin by (apply list_elem_of_fmap; by exists e). specialize (Hb _ Hin). cbn in Hb. lia.
Qed.
Lemma tail_held s VS PRE t r p w tl : inv s VS PRE -> holds s t r p -> committed (txs s t) = None ->
  tail_ok s r w tl -> tl = [].
Proof using Type.
  intros I Ht Hc [[-> _]|(t' & p' & c & u & Ht' & Hc' & _)]; [done|].
  destruct (holds_unique _ _ _ _ _ _ _ _ I Ht Ht') as [-> _]. congruence.
Qed.

Lemma acc_holds s VS PRE t a : inv s VS PRE -> live (txs s t) = true -> a ∈ accesses (txs s t) -> a_type a = WR ->
  holds s t (a_row a) (a_data a).
Proof using Type.
  intros I Hl (i & Hi)%list_elem_of_lookup Hty. exists i, a. split_and!; try done.
  intros rc rid c Hp. unfold live in Hl. by rewrite Hp in Hl.
Qed.

Lemma write_ok s s' VS PRE t i v : inv s VS PRE -> write_data t i v s = Some s' -> exists VS' PRE', inv s' VS' PRE'.
Proof using All.
  intros I H. unfold write_data in H. set (x := txs s t) in *. destruct (x_pc x) eqn:Hpc; try done.
  destruct (accesses x !! i) as [a|] eqn:Ha; [|done]. case_bool_decide as Hty; [|done].
  destruct (rows s !! a_row a) as [w|] eqn:Hw; [|done]. injection H as <-.
  apply list_elem_of_lookup_2 in Ha as Hina.
  assert (holds s t (a_row a) (a_data a)) as Hd by (eapply acc_holds; [done|unfold live; fold x; by rewrite Hpc|done|done]).
  pose proof (held_pre _ _ _ _ _ _ _ I Hd Hw) as Hpre. pose proof (iv_row _ _ _ I _ _ Hw) as Hv. rewrite Hpre in Hv.
  destruct (write_pre_ok _ _ _ _ v Hv) as [Hv' Hnp]. set (w' := mkHrow _ _) in *. set (s' := set_hrow _ _ _).
  assert (forall t', txs s' t' = (<[t := x]> (txs s)) t') as Hx.
  { intros t'. destruct (decide (t' = t)) as [->|]; [by rewrite fn_lookup_insert|by rewrite fn_lookup_insert_ne]. }
  assert (committed x = None) as Hcm by (unfold committed; by rewrite Hpc).
  assert (row_change s s' t x (a_row a) w w' VS (VS (a_row a)) (Some (x_id x, a_data a))) as C.
  { split; try done.
    - intros q Hq. cbn. destruct (decide (a_data a = q)) as [<-|]; [rewrite lookup_insert_eq; by eexists|by rewrite lookup_insert_ne].
    - by left.
    - destruct (iv_hist _ _ _ I _ _ Hw) as (old & tl & Ho & Ht). assert (tl = []) as -> by by eapply tail_held.
      exists old, []. split; [exact Ho|]. left. split; [done|]. intros t' p Ht'.
      by destruct (holds_unique _ _ _ _ _ _ _ _ I Hd Ht') as [-> _].
    - exists t. split_and!; [done|done|]. intros t' p' Ht'. by eapply holds_unique.
    - fold x. by rewrite Hpc. }
  exists (<[a_row a := VS (a_row a)]> VS), (<[a_row a := Some (x_id x, a_data a)]> PRE).
  eapply row_change_inv; [exact I|exact C|]. destruct (row_change_evolves _ _ _ _ _ _ _ _ _ _ C) as [E Hh].
  by eapply txn_ok_same_hist.
Qed.

(** The version that the pointer of an access for reading belongs to. *)
Lemma rd_value s VS PRE (u : V) a w b v0 v : inv s VS PRE -> rows s !! a_row a = Some w -> (b, v0) ∈ hist s (a_row a) ->
  v ∈ VS (a_row a) -> v_ptr v = a_data a -> v_ts v = b -> h_heap w !! a_data a = Some u -> u = v0.
Proof using All.
  intros I Hw Hb Hv Hp Ht Hx. rewrite <- Hp in Hx. rewrite (vers_heap _ _ _ _ (iv_row _ _ _ I _ _ Hw) Hv) in Hx. injection Hx as <-.
  pose proof (vers_hist _ _ _ _ _ _ I Hw Hv) as Hh. unfold vpair in Hh. rewrite Ht in Hh. by eapply hist_fun.
Qed.

Lemma read_data_ok s s' VS PRE t i : inv s VS PRE -> read_data t i s = Some s' -> inv s' VS PRE.
Proof using All.
  intros I H. unfold read_data in H. set (x := txs s t) in *. destruct (x_pc x) eqn:Hpc; try done.
  destruct (accesses x !! i) as [a|] eqn:Ha; [|done]. case_bool_decide as Hty; [|done].
  destruct (rows s !! a_row a) as [w|] eqn:Hw; [|done]. destruct (h_heap w !! a_data a) as [u|] eqn:Hu; [|done]. injection H as <-.
  set (x' := mkTxn _ _ _ _ _ _ _). set (s' := set_tx t x' s). apply list_elem_of_lookup_2 in Ha as Hina.
  pose proof (iv_clock _ _ _ I) as Hck.
  assert (tx_change s s' t x') as C.
  { split; cbn; try done.
    - lia.
    - intros r p. apply holds_no_post; [done| |done]. fold x. by rewrite Hpc.
    - intros r p _. fold x. unfold committed. by rewrite Hpc.
    - intros _. left. fold x. by rewrite Hpc. }
  eapply tx_change_inv; [done|exact C|]. pose proof (tx_change_evolves _ _ _ _ VS C) as E.
  pose proof (txn_ok_same_hist _ _ _ _ _ t I E (fun r => tx_change_hist _ _ _ _ r C)) as Ok. fold x in Ok.
  pose proof (tx_change_hist s s' t x' (a_row a) C) as Hh.
  destruct Ok as [Hts Hid Hidle Hcts Hacc Hwr Hreads Hrd Hwrd Hwill Hvalid].
  assert (live x = true) as Hlive by (unfold live; by rewrite Hpc).
  assert (x_pc x <> Idle) as Hp by (by rewrite Hpc).
  split; cbn [x_pc x_ts x_id accesses x_reads x_spec x']; auto; try done.
  - intros b u' [Hin|Hin]%elem_of_app; [by eapply Hreads|]. apply list_elem_of_singleton in Hin as [= -> ->]. done.
  - intros _ b Hb Hbt. destruct (Hrd Hlive b Hb Hbt) as (ts & v0 & H1 & H2 & H3 & H4 & H5). exists ts, v0. split_and!; try done.
    intros u' v [Hin|Hin]%elem_of_app Hv Hvp Hvt; [by eapply H5|]. apply list_elem_of_singleton in Hin as [= -> ->].
    rewrite Hh in H1. by eapply rd_value.
  - intros _ b u' [Hin|Hin]%elem_of_app Hbt; [by eapply Hwrd|]. apply list_elem_of_singleton in Hin as [= -> ->]. congruence.
Qed.
(** *** [get_row] *)

Lemma fail_ok s VS PRE t s' : inv s VS PRE -> x_pc (txs s t) = Running -> rows s' = rows s -> log s' = log s -> clock s' = clock s ->
  txs s' = <[t := set_pc Failed (txs s t)]> (txs s) -> inv s' VS PRE.
Proof using All.
  intros I Hpc Hrows Hlog Hclock Htxs. pose proof (iv_clock _ _ _ I) as Hck.
  assert (tx_change s s' t (set_pc Failed (txs s t))) as C.
  { split; cbn; try done.
    - intros t'. by rewrite Htxs.
    - lia.
    - intros r q. apply holds_no_post; [done|by rewrite Hpc|done].
    - intros r q _. unfold committed. by rewrite Hpc.
    - intros _. left. by rewrite Hpc. }
  eapply tx_change_inv; [done|exact C|]. pose proof (tx_change_evolves _ _ _ _ VS C) as E.
  eapply txn_ok_phase; [eapply txn_ok_same_hist; [done|exact E|]|done..| |done| |done|done].
  - intros r. by eapply tx_change_hist.
  - by rewrite Hpc.
  - intros _. unfold live. by rewrite Hpc.
Qed.

Lemma holdsx_snoc x x' a r p : accesses x' = accesses x ++ [a] -> x_pc x = Running -> x_pc x' = Running ->
  holdsx x' r p <-> holdsx x r p \/ (a_type a = WR /\ a_row a = r /\ a_data a = p).
Proof using Type.
  intros Ea Hp Hp'. unfold holdsx. rewrite Ea. split.
  - intros (i & b & Hi & Hty & Hr & Hd & _). apply lookup_app_Some in Hi as [Hi|[_ Hi]].
    + left. exists i, b. split_and!; try done. intros. congruence.
    + right. apply list_lookup_singleton_Some in Hi as [_ <-]. done.
  - intros [(i & b & Hi & Hty & Hr & Hd & _)|(Hty & Hr & Hd)].
    + exists i, b. split_and!; try done; [by apply lookup_app_l_Some|intros; congruence].
    + exists (length (accesses x)), a. split_and!; try done; [by apply list_lookup_middle|intros; congruence].
Qed.

Lemma get_read_ok s VS PRE t r w p : inv s VS PRE -> x_pc (txs s t) = Running -> rows s !! r = Some w ->
  access_read false (x_ts (txs s t)) w = Some (RCOK, Some p) ->
  inv (set_tx t (mkTxn Running (x_ts (txs s t)) (x_id (txs s t)) (x_next (txs s t)) (accesses (txs s t) ++ [mkAcc RD r p])
         (x_reads (txs s t)) (x_spec (txs s t))) (set_hrow r w s)) VS PRE.
Proof using All.
  intros I Hpc Hw Hacc. set (x := txs s t) in *. set (a := mkAcc RD r p). set (x' := mkTxn _ _ _ _ _ _ _). set (s' := set_tx _ _ _).
  pose proof (iv_clock _ _ _ I) as Hck. pose proof (iv_txn _ _ _ I t) as Ok0. fold x in Ok0.
  assert (x_pc x <> Idle) as Hp by (by rewrite Hpc). assert (live x = true) as Hlive by (unfold live; by rewrite Hpc).
  assert (tx_change s s' t x') as C.
  { split; cbn; try done.
    - by apply insert_id.
    - lia.
    - intros r' q. rewrite (holdsx_snoc x x' a) by done. cbn. split; [intros [?|[? _]]; done|by left].
    - intros r' q _. fold x. unfold committed. by rewrite Hpc.
    - intros _. left. fold x. by rewrite Hpc. }
  eapply tx_change_inv; [done|exact C|]. pose proof (tx_change_evolves _ _ _ _ VS C) as E.
  pose proof (txn_ok_same_hist _ _ _ _ _ t I E (fun r => tx_change_hist _ _ _ _ r C)) as Ok. fold x in Ok.
  pose proof (vers_heap w (VS r) (PRE r)) as Hheap. pose proof (iv_row _ _ _ I _ _ Hw) as Hv.
  assert (exists vs1 v vs2, VS r = vs1 ++ v :: vs2 /\ v_ptr v = p /\ v_ts v < x_ts x) as (vs1 & v & vs2 & Evs & Hvp & Hvt).
  { destruct (hk_access_read_ok w (VS r) (PRE r) false (x_ts x) Hv) as [(v0 & vs' & _ & _ & _ & Hr)|(vs1 & v & vs2 & Evs & Hr & H1 & _)].
    - apply Forall_forall. intros v Hin. destruct (ok_ts _ _ _ _ Ok0 Hp) as [_ Hne]. specialize (Hne r). rewrite Forall_forall in Hne.
      apply (Hne (vpair v)). by eapply vers_hist.
    - congruence.
    - rewrite Hr in Hacc. injection Hacc as Hvp. by exists vs1, v, vs2. }
  assert (v ∈ VS r) as Hin by (rewrite Evs; set_solver).
  assert (a ∉ accesses x -> rd_ok s' VS x' a) as Hnew.
  { intros Hna. exists (v_ts v), (v_val v). cbn [a_row a_data a]. split_and!.
    - rewrite (tx_change_hist _ _ _ _ _ C). by eapply (vers_hist s VS PRE r w v).
    - done.
    - intros v' Hv' Hp'. left. f_equal. eapply vers_ptr_inj; [exact Hv|done|done|]. cbn in Hp'. congruence.
    - intros t' c Ht' _. rewrite (tx_change_holds _ _ _ _ _ _ _ C) in Ht'. pose proof (held_pre _ _ _ _ _ _ _ I Ht' Hw) as Hpre.
      rewrite Hpre in Hv. destruct (write_pre_ok _ _ _ _ (v_val v) Hv) as [_ Hnp]. destruct Hnp. cbn.
      apply list_elem_of_fmap. exists v. done.
    - intros u v' Hu. cbn in Hu. by apply (ok_reads _ _ _ _ Ok0) in Hu. }
  destruct Ok as [Hts Hid Hidle Hcts Hac Hwr Hreads Hrd Hwrd Hwill Hvalid].
  split; cbn [x_pc x_ts x_id accesses x_reads x_spec x']; auto; try done.
  - intros b [Hb|Hb]%elem_of_app; [by apply Hac|]. apply list_elem_of_singleton in Hb as ->. split; [by left|].
    exists w. cbn [rows s' set_tx set_hrow a a_row a_data]. rewrite lookup_insert_eq. split; [done|]. rewrite <- Hvp.
    rewrite (vers_heap _ _ _ _ Hv Hin). by eexists.
  - intros i j b1 b2 H1 H2 Ht1 Ht2. apply lookup_app_Some in H1 as [H1|[_ H1]], H2 as [H2|[_ H2]].
    + by eapply Hwr.
    + apply list_lookup_singleton_Some in H2 as [_ <-]. done.
    + apply list_lookup_singleton_Some in H1 as [_ <-]. done.
    + apply list_lookup_singleton_Some in H1 as [_ <-]. done.
  - intros b u Hb. apply elem_of_app. left. by eapply Hreads.
  - intros _ b Hb Hbt. destruct (decide (b ∈ accesses x)) as [Hold|Hno]; [exact (Hrd Hlive b Hold Hbt)|].
    apply elem_of_app in Hb as [Hb|Hb]; [done|]. apply list_elem_of_singleton in Hb as ->. by apply Hnew.
Qed.
Lemma get_write_ok s VS PRE t r w w' p vs1 vs0 v : inv s VS PRE -> x_pc (txs s t) = Running -> rows s !! r = Some w ->
  PRE r = None -> VS r = vs1 ++ vs0 ++ [v] -> vers w' (vs0 ++ [v]) (Some (x_id (txs s t), p)) ->
  h_heap w' !! p = Some (v_val v) -> (forall q, q <> p -> is_Some (h_heap w !! q) -> h_heap w' !! q = h_heap w !! q) ->
  exists VS' PRE', inv (set_tx t (mkTxn Running (x_ts (txs s t)) (x_id (txs s t)) (x_next (txs s t))
    (accesses (txs s t) ++ [mkAcc WR r p]) (x_reads (txs s t) ++ [(mkAcc WR r p, v_val v)]) (x_spec (txs s t))) (set_hrow r w' s)) VS' PRE'.
Proof using All.
  intros I Hpc Hw Hpre Evs Hv Hhp Hheap. set (x := txs s t) in *. set (a := mkAcc WR r p). set (x' := mkTxn _ _ _ _ _ _ _).
  set (s' := set_tx _ _ _). pose proof (iv_txn _ _ _ I t) as Ok0. fold x in Ok0.
  assert (x_pc x <> Idle) as Hp by (by rewrite Hpc). assert (live x = true) as Hlive by (unfold live; by rewrite Hpc).
  pose proof (iv_pre _ _ _ I _ _ Hw) as Hnone. rewrite Hpre in Hnone. cbn in Hnone.
  assert (forall t', t' <> t -> txs s' t' = txs s t') as Hne by (intros t' ?; by apply fn_lookup_insert_ne).
  assert (txs s' t = x') as Heq by apply fn_lookup_insert.
  assert (forall t' q, holds s' t' r q -> t' = t /\ q = p) as Hown.
  { intros t' q Ht'. destruct (decide (t' = t)) as [->|Hn]; [|rewrite Hne in Ht' by done; by destruct (Hnone t' q)].
    rewrite Heq, (holdsx_snoc x x' a) in Ht' by done. destruct Ht' as [Ht'|(_ & _ & <-)]; [by destruct (Hnone t q)|done]. }
  assert (holds s' t r p) as Hd.
  { rewrite Heq, (holdsx_snoc x x' a) by done. by right. }
  assert (row_change s s' t x' r w w' VS (vs0 ++ [v]) (Some (x_id x, p))) as C.
  { split; try done.
    - intros q Hq. destruct (decide (q = p)) as [->|]; [rewrite Hhp; by eexists|]. by rewrite Hheap.
    - intros u Hu. left. rewrite Evs. apply elem_of_app. by right.
    - destruct (iv_hist _ _ _ I _ _ Hw) as (old & tl & Ho & Ht). assert (tl = []) as ->.
      { destruct Ht as [[-> _]|(t' & p' & c & u & Ht' & _)]; [done|]. by destruct (Hnone t' p'). }
      rewrite Evs, map_app in Ho. exists (old ++ map vpair vs1), []. split; [by rewrite Ho, <- !app_assoc|].
      left. split; [done|]. intros t' q [-> _]%Hown. by rewrite Heq.
    - exists t. split_and!; [done|by rewrite Heq|done].
    - intros r' q Hr'. fold x. rewrite (holdsx_snoc x x' a) by done. cbn. split; [intros [?|(_ & ? & _)]; congruence|by left].
    - split_and!; try done; fold x; unfold cts, committed; by rewrite Hpc. }
  exists (<[r := vs0 ++ [v]]> VS), (<[r := Some (x_id x, p)]> PRE).
  eapply row_change_inv; [exact I|exact C|]. destruct (row_change_evolves _ _ _ _ _ _ _ _ _ _ C) as [E Hh].
  pose proof (txn_ok_same_hist _ _ _ _ _ t I E Hh) as Ok. fold x in Ok.
  assert (forall b, b ∈ accesses x -> a_type b = WR -> a_row b <> r) as Hnw.
  { intros b Hb Hbt Hbr. apply (Hnone t (a_data b)). rewrite <- Hbr. by eapply acc_holds. }
  destruct Ok as [Hts Hid Hidle Hcts Hac Hwr Hreads Hrd Hwrd Hwill Hvalid].
  split; cbn [x_pc x_ts x_id accesses x_reads x_spec x']; auto; try done.
  - intros b [Hb|Hb]%elem_of_app; [by apply Hac|]. apply list_elem_of_singleton in Hb as ->. split; [by right|].
    exists w'. cbn [rows s' set_tx set_hrow a a_row a_data]. rewrite lookup_insert_eq. split; [done|]. rewrite Hhp. by eexists.
  - intros i j b1 b2 H1 H2 Ht1 Ht2 Hr. apply lookup_app_Some in H1 as [H1|[Hl1 H1]], H2 as [H2|[Hl2 H2]].
    + by eapply Hwr.
    + apply list_lookup_singleton_Some in H2 as [_ <-]. apply list_elem_of_lookup_2 in H1. by destruct (Hnw b1 H1 Ht1).
    + apply list_lookup_singleton_Some in H1 as [_ <-]. apply list_elem_of_lookup_2 in H2. by destruct (Hnw b2 H2 Ht2).
    + apply list_lookup_singleton_Some in H1 as [? _]. apply list_lookup_singleton_Some in H2 as [? _]. lia.
  - intros b u [Hb|Hb]%elem_of_app; apply elem_of_app; [left; by eapply Hreads|].
    apply list_elem_of_singleton in Hb as [= -> ->]. right. by left.
  - intros _ b Hb Hbt. apply elem_of_app in Hb as [Hb|Hb]; [|by apply list_elem_of_singleton in Hb as ->].
    destruct (Hrd Hlive b Hb Hbt) as (ts & v0 & H1 & H2 & H3 & H4 & H5). exists ts, v0. split_and!; try done.
    intros u v' [Hu|Hu]%elem_of_app; [by apply H5|]. apply list_elem_of_singleton in Hu as [= -> _]. done.
  - intros _ b u [Hb|Hb]%elem_of_app Hbt; [by eapply Hwrd|]. apply list_elem_of_singleton in Hb as [= -> ->]. cbn [a_row a].
    rewrite Hh. destruct (rc_hist _ _ _ _ _ _ _ _ _ _ C) as (old & tl & Ho & Ht).
    assert (tl = []) as ->.
    { destruct Ht as [[-> _]|(t' & p' & c & u & Ht' & Hc & _)]; [done|]. destruct (Hown _ _ Ht') as [-> _]. by rewrite Heq in Hc. }
    exists (old ++ map vpair vs0), (v_ts v). rewrite Ho, map_app. cbn. by rewrite app_nil_r, <- !app_assoc.
Qed.

Notation get_row := (get_row garbage junk g_thread_cnt MAX_ROW_PER_TXN false).

(** Every [get_row] of a running transaction has one of these outcomes. *)
Lemma get_row_cases s VS PRE t type r w min_ts : inv s VS PRE -> x_pc (txs s t) = Running -> rows s !! r = Some w ->
  type = RD \/ type = WR -> min_ts <= INF -> exists s', get_row t type r min_ts s = Some s' /\ exists VS' PRE', inv s' VS' PRE'.
Proof using All.
  intros I Hpc Hw Hty Hm. unfold HekatonTxn.get_row. set (x := txs s t) in *. rewrite Hpc.
  destruct (_ <=? _)%nat.
  { eexists. split; [reflexivity|]. exists VS, PRE. by eapply fail_ok. }
  rewrite c_assert_true by (destruct Hty as [-> | ->]; done). rewrite c_assert_true by lia. rewrite Hw.
  pose proof (iv_row _ _ _ I _ _ Hw) as Hv. rewrite (access_eq garbage junk g_thread_cnt _ _ _ _ _ _ _ _ Hv).
  assert (set_hrow r w s = mkState (rows s) (txs s) (clock s) (log s)) as Hsame.
  { unfold set_hrow. by rewrite insert_id. }
  destruct Hty as [-> | ->]; cbn [bool_decide decide_rel].
  - rewrite bool_decide_eq_true_2 by done.
    destruct (hk_access_read_ok w (VS r) (PRE r) false (x_ts x) Hv) as [(v0 & vs' & _ & _ & _ & Hr)|(vs1 & v & vs2 & Evs & Hr & _ & _)].
    + apply Forall_forall. intros v Hin. destruct (ok_ts _ _ _ _ (iv_txn _ _ _ I t)) as [_ Hne]; [fold x; by rewrite Hpc|].
      specialize (Hne r). rewrite Forall_forall in Hne. apply (Hne (vpair v)). by eapply vers_hist.
    + rewrite Hr. cbn [fst snd]. eexists. split; [reflexivity|]. exists VS, PRE. rewrite Hsame. by eapply fail_ok.
    + rewrite Hr. cbn [fst snd]. eexists. split; [reflexivity|]. exists VS, PRE. by eapply get_read_ok.
  - rewrite bool_decide_eq_false_2 by done.
    destruct (hk_access_prewrite_ok garbage junk g_thread_cnt w (VS r) (PRE r) (x_ts x) (x_id x) min_ts Hv Hm) as
      [(vs0 & v & _ & _ & ->)|(p & w' & vs1 & vs0 & v & Hpre & Evs & _ & -> & Hv' & Hhp & _ & Hheap)].
    + eexists. split; [reflexivity|]. exists VS, PRE. rewrite Hsame. by eapply fail_ok.
    + rewrite Hhp. eexists. split; [reflexivity|]. by eapply get_write_ok.
Qed.

Lemma get_row_ok s s' VS PRE t type r min_ts : inv s VS PRE -> get_row t type r min_ts s = Some s' -> exists VS' PRE', inv s' VS' PRE'.
Proof using All.
  intros I H. pose proof H as Hg. unfold HekatonTxn.get_row in H. destruct (x_pc (txs s t)) eqn:Hpc; try done.
  destruct (_ <=? _)%nat.
  { injection H as <-. exists VS, PRE. by eapply fail_ok. }
  inv_assert. destruct (rows s !! r) as [w|] eqn:Hw; [|done].
  destruct (get_row_cases s VS PRE t type r w min_ts I Hpc Hw) as (s2 & Hs2 & Hinv); [|lia|].
  - apply orb_true_iff in H0 as [?|?]; b2p; auto.
  - rewrite Hs2 in Hg. by injection Hg as <-.
Qed.

Lemma validate_some s VS PRE t rc rid c : inv s VS PRE -> x_pc (txs s t) = Validating rc rid c -> is_Some (validate t s).
Proof using All.
  intros I Hpc. unfold HekatonTxn.validate. rewrite Hpc. case_bool_decide; [|by eexists]. cbn.
  destruct (accesses (txs s t) !! rid) as [a|] eqn:Ha; [|by eexists]. case_bool_decide; [by eexists|].
  destruct (ok_acc _ _ _ _ (iv_txn _ _ _ I t) a) as (_ & w & Hw & _); [by eapply list_elem_of_lookup_2|]. rewrite Hw.
  assert (c < clock s) as Hc by (apply (ok_cts _ _ _ _ (iv_txn _ _ _ I t)); unfold cts; by rewrite Hpc).
  destruct (prepare_read_ok w _ _ (x_ts (txs s t)) (a_data a) c (iv_row _ _ _ I _ _ Hw)) as [[_ ->]|(vs1 & v & vs2 & _ & _ & ->)].
  - pose proof (iv_clock _ _ _ I). lia.
  - by eexists.
  - by case_bool_decide; eexists.
Qed.

(** *** The second loop *)

Lemma holds_post x x' rc rid c a r p : x_pc x = Post rc rid c -> x_pc x' = Post rc (S rid) c -> accesses x' = accesses x ->
  accesses x !! rid = Some a -> a_type a <> WR \/ a_row a <> r -> holdsx x' r p <-> holdsx x r p.
Proof using Type.
  intros Hp Hp' Ea Ha Hn. unfold holdsx. rewrite Ea. split; intros (i & b & Hi & Hty & Hr & Hd & Hi'); exists i, b; split_and!; try done.
  - intros rc' rid' c' E. rewrite Hp in E. injection E as <- <- <-. specialize (Hi' _ _ _ Hp'). lia.
  - intros rc' rid' c' E. rewrite Hp' in E. injection E as <- <- <-. specialize (Hi' _ _ _ Hp).
    destruct (decide (i = rid)) as [->|]; [|lia]. assert (a = b) as -> by congruence. destruct Hn; congruence.
Qed.

Lemma post_phase_ok s VS t x rc rid c rid' : txn_ok s VS t x -> x_pc x = Post rc rid c -> txn_ok s VS t (set_pc (Post rc rid' c) x).
Proof using All.
  intros Ok Hpc. eapply txn_ok_phase; [exact Ok|done..| | |done| |done].
  - by rewrite Hpc.
  - done.
  - intros c' Hc'. cbn in Hc'. injection Hc' as <-. unfold cts. by rewrite Hpc.
Qed.

Lemma post_write_ok s VS PRE t rc rid c a w : inv s VS PRE -> x_pc (txs s t) = Post rc rid c ->
  accesses (txs s t) !! rid = Some a -> a_type a = WR -> rows s !! a_row a = Some w ->
  exists w', post_process (x_id (txs s t)) c rc w = Some w' /\ exists VS' PRE',
    inv (set_tx t (set_pc (Post rc (S rid) c) (txs s t)) (set_hrow (a_row a) w' s)) VS' PRE'.
Proof using All.
  intros I Hpc Ha Hty Hw. set (x := txs s t) in *. set (r := a_row a) in *. set (p := a_data a). set (x' := set_pc _ x).
  pose proof (iv_txn _ _ _ I t) as Ok. fold x in Ok.
  assert (holds s t r p) as Hd.
  { exists rid, a. split_and!; try done. intros rc' rid' c' E. fold x in E. rewrite Hpc in E. injection E as <- <- <-. lia. }
  pose proof (held_pre _ _ _ _ _ _ _ I Hd Hw) as Hpre. fold x in Hpre. pose proof (iv_row _ _ _ I _ _ Hw) as Hv. rewrite Hpre in Hv.
  assert (cts x = Some c) as Hc by (unfold cts; by rewrite Hpc).
  pose proof (ok_cts _ _ _ _ Ok c Hc) as Hcb. pose proof (iv_clock _ _ _ I) as Hck.
  destruct (iv_hist _ _ _ I _ _ Hw) as (old & tl & Ho & Ht).
  assert (forall w' vs', let s' := set_tx t x' (set_hrow r w' s) in h_heap w' = h_heap w -> vers w' vs' None ->
    (forall v, v ∈ vs' -> v ∈ VS r \/ v_ptr v = p /\ v_ts v = c) -> (exists old, hist s r = old ++ map vpair vs') ->
    exists VS' PRE', inv s' VS' PRE') as Hgo.
  { intros w' vs' s' Hheap Hv' Hvs [old' Ho'].
    assert (forall t' q, ~ holds s' t' r q) as Hno.
    { intros t' q Ht'. unfold s' in Ht'. cbn [txs set_tx set_hrow] in Ht'. destruct (decide (t' = t)) as [->|Hne].
      - rewrite fn_lookup_insert in Ht'. destruct Ht' as (i & b & Hi & Hbt & Hbr & _ & Hle). specialize (Hle _ _ _ eq_refl).
        assert (rid = i) by (eapply (ok_wr _ _ _ _ Ok); done). lia.
      - rewrite fn_lookup_insert_ne in Ht' by done. by destruct (holds_unique _ _ _ _ _ _ _ _ I Hd Ht'). }
    assert (row_change s s' t x' r w w' VS vs' None) as C.
    { split; try done.
      - by rewrite Hheap.
      - intros v Hin. destruct (Hvs v Hin) as [|[-> ->]]; [by left|by right].
      - exists old', []. rewrite app_nil_r. split; [done|]. left. split; [done|]. intros t' q Ht'. by destruct (Hno t' q).
      - intros r' q Hr'. eapply holds_post; [exact Hpc|done|done|exact Ha|right; by intros E; apply Hr'].
      - intros q c' Hq _. destruct (Hno t q). unfold s'. cbn [txs set_tx]. by rewrite fn_lookup_insert.
      - fold x. split_and!; try done; unfold cts, committed; rewrite Hpc; done.
      - fold x. by rewrite Hpc. }
    exists (<[r := vs']> VS), (<[r := None]> PRE). eapply row_change_inv; [exact I|exact C|].
    destruct (row_change_evolves _ _ _ _ _ _ _ _ _ _ C) as [E Hh]. eapply post_phase_ok; [|exact Hpc]. by eapply txn_ok_same_hist. }
  destruct (decide (rc = RCOK)) as [->|Hrc].
  - assert (committed x = Some c) as Hcm by (unfold committed; by rewrite Hpc).
    destruct Ht as [[-> Ht]|(t' & p' & c' & u & Ht' & Hc' & Hu & ->)]; [specialize (Ht _ _ Hd); fold x in Ht; congruence|].
    destruct (holds_unique _ _ _ _ _ _ _ _ I Hd Ht') as [-> ->]. fold x in Hc'. assert (c' = c) as -> by congruence.
    destruct (vers_ne _ _ _ Hv) as (vs0 & v & Evs). rewrite Evs in Hv.
    destruct (post_commit_ok w vs0 v (x_id x) p c u Hv Hu) as (w' & Hw' & Hheap & Hv').
    { destruct (iv_sorted _ _ _ I r) as [Hs _]. rewrite Ho, Evs, app_assoc, map_app in Hs.
      apply StronglySorted_app in Hs as (Hs & _). cbn in Hs. specialize (Hs (v_ts v) c).
      assert (v_ts v < c); [|lia]. apply Hs; [|by left]. rewrite !map_app. apply elem_of_app. right. apply elem_of_app. right. by left. }
    exists w'. split; [exact Hw'|]. eapply Hgo; [done|exact Hv'| |].
    + intros v' [Hin|Hin]%elem_of_app; [left; by rewrite Evs|]. apply list_elem_of_singleton in Hin as ->. by right.
    + exists old. by rewrite Ho, Evs, (map_app _ (vs0 ++ [v])).
  - assert (committed x = None) as Hcm by (unfold committed; rewrite Hpc; by destruct rc).
    assert (tl = []) as -> by (by eapply tail_held). rewrite app_nil_r in Ho.
    destruct (post_abort_ok w (VS r) (x_id x) p c rc Hv Hrc) as (w' & Hw' & Hheap & Hv').
    exists w'. split; [exact Hw'|]. eapply Hgo; [done|exact Hv'|by left|]. by exists old.
Qed.

Lemma post_cases s VS PRE t rc rid c : inv s VS PRE -> x_pc (txs s t) = Post rc rid c ->
  exists s', postprocess t s = Some s' /\ exists VS' PRE', inv s' VS' PRE'.
Proof using All.
  intros I Hpc. unfold postprocess. rewrite Hpc. set (x := txs s t) in *. pose proof (iv_clock _ _ _ I) as Hck.
  destruct (accesses x !! rid) as [a|] eqn:Ha.
  2:{ eexists. split; [reflexivity|]. exists VS, PRE.
      assert (forall r p, ~ holdsx x r p) as Hno.
      { intros r p (i & b & Hi & _ & _ & _ & Hle). specialize (Hle _ _ _ Hpc). apply lookup_lt_Some in Hi. apply lookup_ge_None in Ha. lia. }
      eapply (tx_change_inv s _ t (idle (x_next x))); [exact I| |].
      - split; cbn; try done; [lia| |].
        + intros r p. fold x. split; [intros (i & b & Hi & _); done|by intros ?%Hno].
        + by intros r p (i & b & Hi & _).
      - split; cbn; try done; try (by intros ? ?%not_elem_of_nil); try (by intros ? ? ?%not_elem_of_nil). }
  case_bool_decide as Hty.
  - eexists. split; [reflexivity|]. exists VS, PRE.
    assert (tx_change s (set_tx t (set_pc (Post rc (S rid) c) x) s) t (set_pc (Post rc (S rid) c) x)) as C.
    { split; cbn; try done.
      - lia.
      - intros r p. eapply holds_post; [exact Hpc|done|done|exact Ha|left; congruence].
      - intros c' Hc'. left. fold x. unfold cts. by rewrite Hpc.
      - intros r p _. fold x. unfold committed. by rewrite Hpc.
      - intros _. left. fold x. by rewrite Hpc. }
    eapply tx_change_inv; [exact I|exact C|]. eapply post_phase_ok; [|exact Hpc].
    eapply txn_ok_same_hist; [exact I|by eapply tx_change_evolves|]. intros r. by eapply tx_change_hist.
  - destruct (ok_acc _ _ _ _ (iv_txn _ _ _ I t) a) as (Hty2 & w & Hw & _); [by eapply list_elem_of_lookup_2|].
    rewrite Hw. destruct (post_write_ok s VS PRE t rc rid c a w I Hpc Ha) as (w' & Hw' & Hinv); [by destruct Hty2|done|].
    fold x in Hw'. rewrite Hw'. eexists. split; [reflexivity|]. exact Hinv.
Qed.

(** *** All steps *)

Lemma run_op_inv s s' o VS PRE : inv s VS PRE ->
  run_op garbage junk g_thread_cnt MAX_ROW_PER_TXN true false o s = Some s' -> exists VS' PRE', inv s' VS' PRE'.
Proof using All.
  intros I H. destruct o as [t|t type r min_ts|t i|t i v|t rc|t|t]; cbn [run_op] in H.
  - exists VS, PRE. by eapply begin_ok.
  - by eapply get_row_ok.
  - exists VS, PRE. by eapply read_data_ok.
  - by eapply write_ok.
  - exists VS, PRE. by eapply finish_ok.
  - destruct (x_pc (txs s t)) as [| | |rc rid c|] eqn:Hpc; try (unfold HekatonTxn.validate in H; by rewrite Hpc in H).
    destruct (decide (rc = RCOK /\ accesses (txs s t) !! rid = None)) as [[-> Hn]|Hn].
    + unfold HekatonTxn.validate in H. rewrite Hpc, Hn in H. cbn in H. injection H as <-. exists VS, PRE. by eapply decide_ok.
    + exists VS, PRE. eapply validate_ok; [exact I| |exact H]. intros rid' c' E. rewrite Hpc in E. injection E as -> -> ->.
      intros Hnone. by apply Hn.
  - destruct (x_pc (txs s t)) as [| | | |rc rid c] eqn:Hpc; try (unfold postprocess in H; by rewrite Hpc in H).
    destruct (post_cases s VS PRE t rc rid c I Hpc) as (s2 & Hs2 & Hinv). rewrite H in Hs2. by injection Hs2 as <-.
Qed.

Lemma hk_start_inv : inv (start junk db0) (fun r => match db0 !! r with Some v => [mkVersion 0 0%nat v] | None => [] end) (fun _ => None).
Proof using All.
  assert (forall r, hist (start junk db0) r = match db0 !! r with Some v => [(0, v)] | None => [] end) as Hh.
  { intros r. unfold hist, history. by destruct (db0 !! r). }
  assert (forall t r p, ~ holds (start junk db0) t r p) as Hno by (by intros t r p (i & a & Hi & _)).
  split; try done.
  - intros r. cbn. by rewrite lookup_fmap, fmap_is_Some.
  - intros r w Hw. cbn in Hw. rewrite lookup_fmap in Hw. destruct (db0 !! r) as [v|]; [|done]. injection Hw as <-. apply hk_init_ok.
  - intros r w Hw. cbn in Hw. rewrite lookup_fmap in Hw. rewrite Hh. destruct (db0 !! r) as [v|]; [|done].
    exists [], []. split; [done|]. left. done.
  - by intros r w _ t p ?%Hno.
  - intros r. rewrite Hh. destruct (db0 !! r); [|split; constructor]. cbn. split; repeat constructor; cbn; lia.
  - intros t. split; cbn; try done; try (by intros ? ?%not_elem_of_nil); try (by intros ? ? ?%not_elem_of_nil). 
  - split_and!; [constructor|constructor|done].
  - by intros cm ?%not_elem_of_nil.
Qed.

Lemma hk_reachable_inv s : rtc (step garbage junk g_thread_cnt MAX_ROW_PER_TXN true false) (start junk db0) s ->
  exists VS PRE, inv s VS PRE.
Proof using All.
  intros Hr. refine (rtc_ind_r (fun s => exists VS PRE, inv s VS PRE) _ _ _ s Hr).
  - eexists _, _. apply hk_start_inv.
  - intros s1 s2 _ [o Ho] (VS & PRE & I). by eapply run_op_inv.
Qed.
End invariant.

(** ** Serial order *)

Section serial.
Context {V : Type} (db0 : gmap nat V).
Implicit Types (L : list (commit V * list (nat * V))).

(** The reads that the theorem speaks of: those through an access that the validation did
    not let pass on speculation. *)
Definition validated (cb : commit V * list (nat * V)) : commit V :=
  mkCommit (c_ts cb.1) cb.2 (c_writes cb.1).

Lemma serial_validated L : serial_db db0 (map validated L) = serial_db db0 (map fst L).
Proof using Type.
  induction L as [|[c b] L IH] using rev_ind; [done|]. rewrite !map_app. cbn. by rewrite !serial_db_snoc, IH.
Qed.

Lemma history_validated r L : history db0 r (map validated L) = history db0 r (map fst L).
Proof using Type.
  unfold history. destruct (db0 !! r); [|done]. f_equal. unfold writes_in. rewrite !flat_map_concat_map, !map_map.
  done.
Qed.

Context (g_thread_cnt : nat).
Notation inv := (inv g_thread_cnt db0).

(** The log in the order of the commit timestamps. *)
Definition ts_le (a b : commit V * list (nat * V)) : Prop := c_ts a.1 <= c_ts b.1.
#[local] Instance ts_le_dec a b : Decision (ts_le a b).
Proof using Type. apply Z_le_dec. Defined.
#[local] Instance ts_le_trans : Transitive ts_le.
Proof using Type. intros a b c. apply Z.le_trans. Qed.
#[local] Instance ts_le_total : Total ts_le.
Proof using Type. intros a b. apply Z.le_ge_cases. Qed.
Definition by_ts (s : State V) : list (commit V * list (nat * V)) := merge_sort ts_le (log s).

Lemma by_ts_perm s : by_ts s ≡ₚ log s.
Proof using Type. apply merge_sort_Permutation. Qed.

Lemma by_ts_sorted s VS PRE : inv s VS PRE -> StronglySorted (fun a b => c_ts a.1 < c_ts b.1) (by_ts s).
Proof using Type.
  intros I. assert (StronglySorted ts_le (by_ts s)) as Hs by (apply (StronglySorted_merge_sort _ _)).
  assert (NoDup (map (fun e => c_ts e.1) (by_ts s))) as Hnd.
  { rewrite by_ts_perm. apply (iv_log _ _ _ _ _ I). }
  induction Hs as [|a l Hs IH HF]; [constructor|]. cbn in Hnd. apply NoDup_cons in Hnd as [Hni Hnd]. constructor; [by apply IH|].
  rewrite Forall_forall in *. intros x Hx. specialize (HF x Hx). unfold ts_le in HF. assert (c_ts a.1 <> c_ts x.1); [|lia].
  intros E. apply Hni. rewrite E. apply list_elem_of_fmap. by exists x.
Qed.

Lemma hist_validated s r : hist db0 s r = history db0 r (map validated (log s)).
Proof using Type. by rewrite history_validated. Qed.

Lemma hist_sorted s VS PRE r : inv s VS PRE -> StronglySorted Z.lt (map fst (history db0 r (map validated (log s)))).
Proof using Type. intros I. rewrite <- hist_validated. apply (iv_sorted _ _ _ _ _ I r). Qed.

Lemma by_ts_validated s VS PRE : inv s VS PRE -> StronglySorted (fun c d => c_ts c < c_ts d) (map validated (by_ts s)).
Proof using Type.
  intros I%by_ts_sorted. induction I as [|[c b] L Hs IH HF]; constructor; [done|]. apply List.Forall_map.
  eapply Forall_impl; [exact HF|]. done.
Qed.

(** The contents of the latest version of a row. *)
Definition latest_value (w : @hrow V) : option V :=
  match _write_history (h_man w) !! _his_latest (h_man w) with
  | Some e => match h_row e with Some p => h_heap w !! p | None => None end
  | None => None
  end.

Lemma inv_latest s VS PRE r w : inv s VS PRE -> rows s !! r = Some w -> _exists_prewrite (h_man w) = false ->
  latest_value w = serial_db db0 (map validated (by_ts s)) !! r.
Proof using Type.
  intros I Hw Hex. destruct (iv_row _ _ _ _ _ I r w Hw) as (W0 & l & F & R).
  assert (is_Some (db0 !! r)) as Hdb by (apply (iv_dom _ _ _ _ _ I); by rewrite Hw).
  destruct (iv_hist _ _ _ _ _ I r w Hw) as (old & tl & Hh & Ht).
  assert (PRE r = None) as Hp.
  { pose proof (rp_flag _ _ _ _ _ _ R) as Hf. rewrite Hex in Hf. symmetry in Hf. apply bool_decide_eq_false in Hf. destruct (PRE r); [by destruct Hf|done]. }
  assert (tl = []) as ->.
  { pose proof (iv_pre _ _ _ _ _ I r w Hw) as Hpre. rewrite Hp in Hpre. destruct Ht as [[-> _]|(t & p & c & u & Ht & _)]; [done|].
    by destruct (Hpre t p). }
  destruct (rep_ne _ _ _ _ _ _ R) as (vs0 & x & Hvs & _ & Hx).
  assert (serial_db db0 (map validated (by_ts s)) !! r = last (map snd (hist db0 s r))) as ->.
  { rewrite serial_last, hist_validated by done. f_equal. f_equal. destruct Hdb as [v0 H0]. unfold history. rewrite H0. f_equal.
    symmetry. eapply writes_in_unique; [by rewrite by_ts_perm| |].
    - eapply sorted_weaken; [|by eapply by_ts_validated]. cbn. lia.
    - pose proof (hist_sorted s VS PRE r I) as Hs. unfold history in Hs. rewrite H0 in Hs. by apply StronglySorted_inv in Hs as [Hs _]. }
  rewrite Hh, app_nil_r, Hvs, !map_app. cbn [map snd].
  rewrite app_assoc, last_snoc. unfold latest_value. rewrite (rep_latest _ _ _ _ _ _ R). destruct Hx as (_ & -> & ->). done.
Qed.

Lemma inv_replay s VS PRE : inv s VS PRE -> replay db0 (map validated (by_ts s)).
Proof using Type.
  intros I. pose proof (by_ts_validated _ _ _ I) as Hsort. apply (replay_history db0 (map validated (log s))).
  { by rewrite by_ts_perm. }
  { eapply sorted_weaken; [|exact Hsort]. cbn. lia. }
  { intros r. by eapply hist_sorted. }
  intros cs1 c cs2 E r u Hu. rewrite E in Hsort. apply StronglySorted_app in Hsort as (H12 & _ & Hs2).
  assert (exists e, e ∈ log s /\ c = validated e) as (e & Hin & ->).
  { assert (c ∈ map validated (by_ts s)) as Hc by (rewrite E; set_solver). apply list_elem_of_fmap in Hc as (e & -> & Hin).
    rewrite by_ts_perm in Hin. by exists e. }
  destruct (iv_reads _ _ _ _ _ I e Hin r u Hu) as [(old & bb & new & Hh & Hb & Hn) _].
  exists old, bb, new. rewrite <- hist_validated. split; [done|]. rewrite Forall_forall in Hn. split.
  - intros h (c' & Hc' & Ets & _)%writes_in_elem Hnew. apply Hn in Hnew. specialize (H12 c' (validated e) Hc' ltac:(by left)). cbn in H12. lia.
  - intros h (c' & Hc' & Ets & _)%writes_in_elem Hold.
    assert (c_ts e.1 <= h.1) as Hge.
    { rewrite Ets. apply elem_of_cons in Hc' as [->|Hc']; [done|]. apply StronglySorted_inv in Hs2 as [_ HF].
      rewrite Forall_forall in HF. specialize (HF _ Hc'). cbn in HF. lia. }
    apply elem_of_app in Hold as [Hold| ->%list_elem_of_singleton]; [|cbn in Hge; lia].
    destruct (iv_sorted _ _ _ _ _ I r) as [Hs _]. rewrite Hh, map_app in Hs. apply StronglySorted_app in Hs as (Ho & _).
    specialize (Ho h.1 bb). assert (h.1 < bb); [|lia]. apply Ho; [apply list_elem_of_fmap; by exists h|by left].
Qed.
End serial.

(** ** Theorems *)

Section theorems.
Context {V : Type} (garbage : V) (junk : nat -> WriteHisEntry) (g_thread_cnt MAX_ROW_PER_TXN : nat) (db0 : gmap nat V).

Notation step := (step garbage junk g_thread_cnt MAX_ROW_PER_TXN true false).

Lemma run_rtc os s s' : run garbage junk g_thread_cnt MAX_ROW_PER_TXN true false os s = Some s' -> rtc step s s'.
Proof.
  revert s. induction os as [|o os IH]; intros s H; cbn in H; [injection H as ->; apply rtc_refl|].
  destruct (run_op _ _ _ _ _ _ o s) as [s1|] eqn:E; [|done]. eapply rtc_l; [by exists o|by apply IH].
Qed.

(** C5. Hekaton, with any number of workers whose calls interleave in any way, each
    version made with the contents the code gives it: in every reachable state of the
    SERIALIZABLE level the committed transactions have different commit timestamps, and run
    one after the other in the order of these every transaction reads the values it read
    and writes what it wrote. Left out are the reads through an access that validation let
    pass although another transaction was about to replace its version, and no other
    read: there the code speculates that this transaction aborts, see [hekaton_write_skew]. The latest version of each row
    without a prewrite holds what the serial run leaves in the row. *)
Theorem hekaton_serializable s : rtc step (start junk db0) s ->
  exists L, L ≡ₚ log s /\ StronglySorted (fun a b => c_ts a.1 < c_ts b.1) L /\ replay db0 (map validated L) /\
    forall r w, rows s !! r = Some w -> _exists_prewrite (h_man w) = false ->
      latest_value w = serial_db db0 (map validated L) !! r.
Proof.
  intros (VS & PRE & I)%hk_reachable_inv. exists (by_ts s). split; [apply by_ts_perm|].
  split; [by eapply by_ts_sorted|]. split; [by eapply inv_replay|]. intros r w. by eapply inv_latest.
Qed.

(** C17. No assertion of the scheme fails and no slot out of range is touched, in any
    reachable state: a running transaction's request for a row returns, validation goes on
    with the next access or decides, and the second loop and the cleanup run to the end. *)
Theorem hekaton_no_failure s t : rtc step (start junk db0) s ->
  match x_pc (txs s t) with
  | Running => forall type r min_ts, is_Some (rows s !! r) -> type = RD \/ type = WR -> min_ts <= INF ->
      is_Some (get_row garbage junk g_thread_cnt MAX_ROW_PER_TXN false t type r min_ts s)
  | Validating _ _ _ => is_Some (validate true t s)
  | Post _ _ _ => is_Some (postprocess t s)
  | Idle | Failed => True
  end.
Proof.
  intros (VS & PRE & I)%hk_reachable_inv. destruct (x_pc (txs s t)) as [| | |rc rid c|rc rid c] eqn:Hpc; try done.
  - intros type r min_ts [w Hw] Hty Hm.
    destruct (get_row_cases garbage junk g_thread_cnt MAX_ROW_PER_TXN db0 s VS PRE t type r w min_ts I Hpc Hw Hty Hm) as (s' & -> & _).
    by eexists.
  - by eapply validate_some.
  - destruct (post_cases garbage junk g_thread_cnt MAX_ROW_PER_TXN db0 s VS PRE t rc rid c I Hpc) as (s' & -> & _). by eexists.
Qed.
End theorems.

(** ** Concrete runs *)

Definition ex_junk (i : nat) : WriteHisEntry := mkHis true true 7 7 (Some 9%nat).
Definition ex_db : gmap nat Z := {[ 0%nat := 10; 1%nat := 20 ]}.
Definition ex_start : State Z := start ex_junk ex_db.
Notation ex_run := (run 0 ex_junk 2 10 true false).

(** A writer of row 0 that ends, then a reader of row 0 that writes row 1. *)
Definition ex_ops : list (@op Z) :=
  [OBegin 0; OGet 0 WR 0 0; OWrite 0 0 11; OFinish 0 RCOK; OValidate 0; OValidate 0; OPost 0; OPost 0;
   OBegin 1; OGet 1 RD 0 0; ORead 1 0; OGet 1 WR 1 0; OWrite 1 1 21; OFinish 1 RCOK;
   OValidate 1; OValidate 1; OValidate 1; OPost 1; OPost 1; OPost 1].

(** A property of the state after a run, by evaluation. *)
Lemma ex_reach os (P : State Z -> Prop) : match ex_run os ex_start with Some s => P s | None => False end ->
  exists s, rtc (step 0 ex_junk 2 10 true false) ex_start s /\ P s.
Proof. destruct (ex_run os ex_start) as [s|] eqn:E; [|done]. intros H. exists s. split; [by eapply run_rtc|done]. Qed.

Definition ex_log : list (commit Z * list (nat * Z)) :=
  [(mkCommit 2 [(0%nat, 10)] [(0%nat, 11)], [(0%nat, 10)]);
   (mkCommit 4 [(0%nat, 11); (1%nat, 20)] [(1%nat, 21)], [(0%nat, 11); (1%nat, 20)])].

Lemma hekaton_serializable_witness : exists s, log s = ex_log /\
  exists L, L ≡ₚ log s /\ replay ex_db (map validated L).
Proof.
  destruct (ex_reach ex_ops (fun s => log s = ex_log)) as (s & Hr & Hl); [vm_compute; reflexivity|].
  exists s. split; [exact Hl|].
  destruct (hekaton_serializable 0 ex_junk 2 10 ex_db s Hr) as (L & HP & _ & HR & _). exists L. split; assumption.
Defined.

(** Worker 1 asks for row 0 while the prewrite of worker 0 has not ended. *)
Definition ex_busy : list (@op Z) := [OBegin 0; OGet 0 WR 0 0; OWrite 0 0 11; OBegin 1].

Lemma hekaton_no_failure_witness : exists s, x_pc (txs s 1%nat) = Running /\
  is_Some (get_row 0 ex_junk 2 10 false 1 RD 0 0 s).
Proof.
  destruct (ex_reach ex_busy (fun s => x_pc (txs s 1%nat) = Running /\ bool_decide (is_Some (rows s !! 0%nat)) = true))
    as (s & Hr & Hpc & Hrow); [vm_compute; split; reflexivity|].
  exists s. split; [exact Hpc|]. pose proof (hekaton_no_failure 0 ex_junk 2 10 ex_db s 1 Hr) as H. rewrite Hpc in H.
  apply H; [exact (bool_decide_eq_true_1 _ Hrow)|left; reflexivity|vm_compute; discriminate].
Defined.

(** Worker 0 reads row 0 and writes row 1, worker 1 reads row 1 and writes row 0; both
    validate before either ends its prewrite. *)
Definition skew_ops : list (@op Z) :=
  [OBegin 0; OBegin 1; OGet 0 RD 0 0; OGet 0 WR 1 0; OGet 1 RD 1 0; OGet 1 WR 0 0; ORead 0 0; ORead 1 0;
   OWrite 0 1 11; OWrite 1 1 21; OFinish 0 RCOK; OFinish 1 RCOK;
   OValidate 0; OValidate 0; OValidate 0; OValidate 1; OValidate 1; OValidate 1;
   OPost 0; OPost 0; OPost 0; OPost 1; OPost 1; OPost 1].

(** The speculation is not sound: when the end of a version is the id of a
    transaction, [prepare_read] returns RCOK without a look at that transaction, which may
    commit with an earlier timestamp. Two transactions that each read the row the other one writes both
    commit at the SERIALIZABLE level, and in neither order they read what they read. *)
Theorem hekaton_write_skew : exists s, rtc (step 0 ex_junk 2 10 true false) ex_start s /\
  length (log s) = 2%nat /\ forall L, L ≡ₚ log s -> ~ replay ex_db (map fst L).
Proof.
  destruct (ex_reach skew_ops (fun s => log s =
    [(mkCommit 3 [(1%nat, 20); (0%nat, 10)] [(1%nat, 11)], [(1%nat, 20)]);
     (mkCommit 4 [(0%nat, 10); (1%nat, 20)] [(0%nat, 21)], [(0%nat, 10)])])) as (s & Hr & Hl); [vm_compute; reflexivity|].
  exists s. split; [exact Hr|]. rewrite Hl. split; [reflexivity|].
  intros L HP HR. symmetry in HP. apply Permutation_length_2_inv in HP as [-> | ->]; cbn [map fst] in HR.
  - destruct HR as (_ & HR & _). specialize (HR 1%nat 20). cbn [c_reads c_writes] in HR.
    specialize (HR ltac:(set_solver)). vm_compute in HR. discriminate.
  - destruct HR as (_ & HR & _). specialize (HR 0%nat 10). cbn [c_reads c_writes] in HR.
    specialize (HR ltac:(set_solver)). vm_compute in HR. discriminate.
Qed.
