(* ===== verification/TicToc.v ===== *)
(** * TicToc

    [Row_tictoc] of src/concurrency_control/row_tictoc.cpp and
    [txn_man::validate_tictoc] of tictoc/tictoc.cpp, with [ATOMIC_WORD],
    [WR_VALIDATION_SEPARATE], [SERIALIZABLE], without [WRITE_PERMISSION_LOCK]
    and [TICTOC_MV].  The system of transactions is an executable function of
    the scheduler's actions, each one access to a word or a tuple. *)

From S2P Require Import Prelude Global Words Sort Serial.

(** ** The timestamp word *)

Definition RTS_LEN : Z := 15.
Definition WTS_LEN : Z := 63 - RTS_LEN.
Definition WTS_MASK : Z := Z.shiftl 1 WTS_LEN - 1.
Definition RTS_MASK : Z := Z.shiftl (Z.shiftl 1 RTS_LEN - 1) WTS_LEN.

(** [v & WTS_MASK] and [(v & RTS_MASK) >> WTS_LEN]. *)
Definition wts_of (v : Z) : Z := Z.land v WTS_MASK.
Definition delta_of (v : Z) : Z := Z.shiftr (Z.land v RTS_MASK) WTS_LEN.

Definition get_wts (v : Z) : Z := wts_of v.
Definition get_rts (v : Z) : Z := u64 (delta_of v + wts_of v).
Definition get_ts_word (v : Z) : bool * Z * Z := (is_locked v, get_rts v, get_wts v).

(** The word that [write_data] stores. *)
Definition write_ts_word (wts v : Z) : Z :=
  Z.lor (Z.land v (u64 (Z.lnot (Z.lor RTS_MASK WTS_MASK)))) wts.

(** The word of a lock bit, a lease and a write timestamp. *)
Definition pack (lock : bool) (delta wts : Z) : Z := enc_lock (wts + delta * 2 ^ WTS_LEN) lock.

Definition ts_range (delta wts : Z) : Prop := 0 <= delta < 2 ^ RTS_LEN /\ 0 <= wts < 2 ^ WTS_LEN.

Lemma pack_low delta wts : ts_range delta wts -> 0 <= wts + delta * 2 ^ WTS_LEN < 2 ^ 63.
Proof. unfold ts_range, WTS_LEN, RTS_LEN. simpl Z.sub. intros [Hd Hw]. lia. Qed.

Lemma pack_u64 lock delta wts : ts_range delta wts -> is_u64 (pack lock delta wts).
Proof. intros H. by apply enc_lock_range, pack_low. Qed.

Lemma pack_locked lock delta wts : ts_range delta wts -> is_locked (pack lock delta wts) = lock.
Proof. intros H. by apply is_locked_enc, pack_low. Qed.

Lemma wts_of_mod v : wts_of v = v mod 2 ^ WTS_LEN.
Proof.
  unfold wts_of. replace WTS_MASK with (Z.ones WTS_LEN) by reflexivity. by apply Z.land_ones.
Qed.

Lemma delta_of_div v : delta_of v = (v / 2 ^ WTS_LEN) mod 2 ^ RTS_LEN.
Proof.
  unfold delta_of. rewrite Z.shiftr_land.
  replace (Z.shiftr RTS_MASK WTS_LEN) with (Z.ones RTS_LEN) by reflexivity.
  by rewrite Z.land_ones, Z.shiftr_div_pow2.
Qed.

Lemma pack_lock_split lock delta wts : pack lock delta wts =
  wts + (delta + (if lock then 2 ^ RTS_LEN else 0)) * 2 ^ WTS_LEN.
Proof. unfold pack, enc_lock, WTS_LEN, RTS_LEN. destruct lock; simpl Z.sub; lia. Qed.

Lemma pack_wts lock delta wts : ts_range delta wts -> wts_of (pack lock delta wts) = wts.
Proof.
  intros [_ Hw]. rewrite wts_of_mod, pack_lock_split, Z.mod_add by done. by apply Z.mod_small.
Qed.

Lemma pack_delta lock delta wts : ts_range delta wts -> delta_of (pack lock delta wts) = delta.
Proof.
  intros [Hd Hw]. rewrite delta_of_div, pack_lock_split, Z.div_add, Z.div_small by done.
  rewrite Z.add_0_l. destruct lock; rewrite ?Z.add_0_r; [|by apply Z.mod_small].
  rewrite <- (Z.mul_1_l (2 ^ RTS_LEN)) at 1. rewrite Z.mod_add by done. by apply Z.mod_small.
Qed.

(** Every word is one. *)
Lemma word_pack v : is_u64 v -> v = pack (is_locked v) (delta_of v) (wts_of v) /\
  ts_range (delta_of v) (wts_of v).
Proof.
  intros Hv. rewrite delta_of_div, wts_of_mod. split; [|split; by apply Z.mod_pos_bound].
  unfold pack. rewrite (word_enc v Hv) at 1. f_equal. rewrite clear_lock_mod.
  replace (2 ^ 63) with (2 ^ WTS_LEN * 2 ^ RTS_LEN) by reflexivity.
  rewrite Z.rem_mul_r by done. lia.
Qed.

Lemma lor_pack wts delta : ts_range delta wts ->
  Z.lor wts (Z.shiftl delta WTS_LEN) = pack false delta wts.
Proof.
  intros [Hd Hw]. rewrite Z.shiftl_mul_pow2 by done. by apply lor_field.
Qed.

Lemma write_ts_word_pack lock delta wts wts' : ts_range delta wts -> 0 <= wts' < 2 ^ WTS_LEN ->
  write_ts_word wts' (pack lock delta wts) = pack lock 0 wts'.
Proof.
  intros Hr Hw. unfold write_ts_word.
  replace (u64 (Z.lnot (Z.lor RTS_MASK WTS_MASK))) with LOCK_BIT by reflexivity.
  pose proof (pack_locked lock delta wts Hr) as Hl. unfold is_locked in Hl.
  destruct (Z.land (pack lock delta wts) LOCK_BIT =? 0) eqn:He; simpl in Hl; subst lock; b2p.
  - rewrite He, Z.lor_0_l. unfold pack, enc_lock. lia.
  - assert (Z.land (pack true delta wts) LOCK_BIT = LOCK_BIT) as ->.
    { unfold pack. rewrite <- set_lock_enc by by apply pack_low. unfold set_lock.
      apply Z.bits_inj'. intros i _. rewrite Z.land_spec, Z.lor_spec.
      by destruct (Z.testbit LOCK_BIT i), (Z.testbit (wts + delta * 2 ^ WTS_LEN) i). }
    rewrite Z.lor_comm. change (Z.lor wts' LOCK_BIT) with (set_lock wts').
    rewrite set_lock_enc; [unfold pack; f_equal; lia|].
    unfold WTS_LEN, RTS_LEN in Hw. simpl in Hw. lia.
Qed.

(** ** try_renew *)

(** The state of a call after the load: finished, or about to do a
    compare-and-swap of the expected [v] with [v2]; [wts] may have been
    rebased. *)
Inductive renew :=
| RenewDone (success : bool)
| RenewCas (wts rts : Z) (rebase : bool) (v v2 : Z).

Definition RTS_MAX : Z := Z.shiftl 1 RTS_LEN - 1.

Definition renew_load (wts rts v : Z) : renew :=
  if (wts_of v =? wts) && (u64 (rts - wts) <=? delta_of v) then RenewDone true
  else if is_locked v then RenewDone false
  else if negb (wts =? wts_of v) then RenewDone false
  else
    let delta_rts := u64 (rts - wts) in
    if delta_rts <? delta_of v then RenewDone true
    else
      let rebase := Z.shiftl 1 RTS_LEN <=? delta_rts in
      let wts' := if rebase then u64 (wts + Z.land delta_rts (u64 (Z.lnot RTS_MAX))) else wts in
      let delta_rts' := if rebase then Z.land delta_rts RTS_MAX else delta_rts in
      RenewCas wts' rts rebase v (Z.lor wts' (u64 (Z.shiftl delta_rts' WTS_LEN))).

(** One turn of the loop on the word [w]: the new state and word.
    [compare_exchange_weak] may fail although the word is the expected one. *)
Definition renew_cas (spurious : bool) (wts rts : Z) (rebase : bool) (v v2 w : Z) : renew * Z :=
  let '(success, w') := if spurious then (false, w) else cas v v2 w in
  if success then (RenewDone true, w')
  else
    let v := w in
    if rebase || is_locked v || negb (wts =? wts_of v) then (RenewDone false, w')
    else if rts <? delta_of v then (RenewDone true, w')
    else (RenewCas wts rts rebase v v2, w').

(** The call with nobody else at the word. *)
Definition try_renew_alone (wts rts w : Z) : option (bool * Z) :=
  match renew_load wts rts w with
  | RenewDone b => Some (b, w)
  | RenewCas wts' rts' rebase v v2 =>
      match renew_cas false wts' rts' rebase v v2 w with
      | (RenewDone b, w') => Some (b, w')
      | _ => None
      end
  end.

(** What the call is to do with a lease, as a specification on fields. *)
Definition lease_renewed (lock : bool) (delta wts rts : Z) : bool * Z :=
  if rts - wts <=? delta then (true, pack lock delta wts)
  else if lock then (false, pack lock delta wts)
  else
    let base := (rts - wts) / 2 ^ RTS_LEN * 2 ^ RTS_LEN in
    (true, pack false ((rts - wts) mod 2 ^ RTS_LEN) (wts + base)).

Lemma renew_rebase wts rts : 0 <= wts -> wts <= rts < 2 ^ WTS_LEN ->
  let d := u64 (rts - wts) in
  d = rts - wts /\ Z.land d RTS_MAX = (rts - wts) mod 2 ^ RTS_LEN /\
  Z.land d (u64 (Z.lnot RTS_MAX)) = (rts - wts) / 2 ^ RTS_LEN * 2 ^ RTS_LEN.
Proof.
  intros Hw Hr. unfold WTS_LEN, RTS_LEN in Hr. simpl in Hr. intros d.
  assert (d = rts - wts) as Hd by (apply u64_small; unfold is_u64; lia).
  assert (Z.land d RTS_MAX = d mod 2 ^ RTS_LEN) as Hm.
  { replace RTS_MAX with (Z.ones RTS_LEN) by reflexivity. by apply Z.land_ones. }
  split_and!; [done|by rewrite Hm, Hd|]. rewrite <- Hd.
  pose proof (Z.div_mod d (2 ^ RTS_LEN) ltac:(done)) as Hdm. rewrite <- Hm in Hdm. clearbody d.
  assert (Z.land d RTS_MAX + Z.land d (u64 (Z.lnot RTS_MAX)) = d) as Hs; [|lia].
  assert (Z.land (Z.land d RTS_MAX) (Z.land d (u64 (Z.lnot RTS_MAX))) = 0) as H0.
  { rewrite <- Z.land_assoc, (Z.land_assoc RTS_MAX), (Z.land_comm RTS_MAX), <- !Z.land_assoc.
    replace (Z.land RTS_MAX (u64 (Z.lnot RTS_MAX))) with 0 by reflexivity.
    by rewrite !Z.land_0_r. }
  rewrite Z.add_nocarry_lor by done. rewrite <- Z.land_lor_distr_r.
  replace (Z.lor RTS_MAX (u64 (Z.lnot RTS_MAX))) with (Z.ones 64) by reflexivity.
  rewrite Z.land_ones by done. apply Z.mod_small. lia.
Qed.

Lemma try_renew_alone_spec lock delta wts rts :
  ts_range delta wts -> wts <= rts < 2 ^ WTS_LEN ->
  try_renew_alone wts rts (pack lock delta wts) = Some (lease_renewed lock delta wts rts).
Proof.
  intros Hr Hrts. pose proof (renew_rebase wts rts) as (Hd & Hm & Hb); [apply Hr|done|].
  rewrite Hd in Hm, Hb. pose proof Hr as [Hdr Hwr]. unfold try_renew_alone, renew_load.
  rewrite pack_wts, pack_delta, pack_locked, Z.eqb_refl, Hd by done. simpl.
  unfold lease_renewed. destruct (Z.leb_spec (rts - wts) delta); [done|].
  destruct lock; [done|]. destruct (Z.ltb_spec (rts - wts) delta); [lia|].
  unfold renew_cas, cas. rewrite Z.eqb_refl. do 2 f_equal.
  assert (0 <= (rts - wts) mod 2 ^ RTS_LEN < 2 ^ RTS_LEN) as Hmod by by apply Z.mod_pos_bound.
  assert (rts - wts = (rts - wts) / 2 ^ RTS_LEN * 2 ^ RTS_LEN + (rts - wts) mod 2 ^ RTS_LEN) as Hdm.
  { pose proof (Z.div_mod (rts - wts) (2 ^ RTS_LEN)). unfold RTS_LEN in *. lia. }
  assert (0 <= (rts - wts) / 2 ^ RTS_LEN) by (apply Z.div_pos; [lia|done]).
  change (Z.shiftl 1 RTS_LEN) with (2 ^ RTS_LEN).
  assert (forall d, 0 <= d < 2 ^ RTS_LEN -> u64 (Z.shiftl d WTS_LEN) = Z.shiftl d WTS_LEN) as Hsh.
  { intros d Hdb. apply u64_small. rewrite Z.shiftl_mul_pow2 by done.
    unfold is_u64, WTS_LEN, RTS_LEN in *. simpl Z.sub. lia. }
  destruct (Z.leb_spec (2 ^ RTS_LEN) (rts - wts)) as [Hge|Hlt].
  - rewrite Hb, Hm, Hsh by done. rewrite u64_small.
    + apply lor_pack. split; [done|lia].
    + unfold is_u64, WTS_LEN, RTS_LEN in *. simpl Z.sub in *. lia.
  - rewrite Hsh by lia. rewrite lor_pack by (split; lia).
    rewrite Z.div_small, Z.mod_small by lia. f_equal; lia.
Qed.

(** One evaluation of the loop condition of [lock], a comma expression, and the
    word after it; [spurious] is a failure of the weak compare-and-swap. *)
Definition tt_lock_iter (spurious : bool) (w : Z) : bool * Z :=
  let '(left_operand, w') :=
    if is_locked w then (true, w) else if spurious then (true, w) else (false, set_lock w) in
  (negb (memory_order_relaxed =? 0), w').

(** ** Transactions *)

Section tictoc.
Context {V : Type} (primary_key : nat -> Z).
Context (pre_abort no_wait bounded : bool).

Record Row_tictoc := mkRow_tictoc {
  rt_word : Z;     (* _ts_word *)
  rt_row : V }.    (* the tuple *)

Definition Row_tictoc_init (v : V) : Row_tictoc := mkRow_tictoc 0 v.

Record tacc := mkTacc {
  ta_type : access_t;
  ta_row : nat;
  ta_data : V;
  ta_read : V;      (* what [access] copied *)
  ta_wts : Z;
  ta_rts : Z }.

Inductive tphase :=
| TRun
| TLoad (type : access_t) (r : nat)                    (* in [access] *)
| TCopy (type : access_t) (r : nat) (v : Z)
| TReload (type : access_t) (r : nat) (v : Z) (d : V)
| TPre (i : nat) (spinning : bool)                     (* the pre-abort checks *)
| TTry (i : nat)
| TCheck (i : nat)
| TUndo (i num_locks : nat)
| TSpin (num_locks : nat)
| TWait (i : nat)                                      (* lock(), without no-wait *)
| TWaitCheck (i : nat)
| TRts (i : nat)                                       (* commit_wts above the leases *)
| TRead (i : nat)                                      (* validation of the read set *)
| TRenew (i : nat) (wts rts : Z) (rebase : bool) (v v2 : Z)
| TStore (i : nat)                                     (* write_data: the word *)
| TData (i : nat)                                      (* write_data: the tuple *)
| TRelease (i : nat)
| TAbort (i num_locks : nat)
| TDone (rc : RC).

(** [tx_max] is [_max_wts], [tx_wts] is [commit_wts]. *)
Record ttxn := mkTtxn {
  tx_accs : list tacc;
  tx_wts : Z;
  tx_max : Z;
  tx_phase : tphase }.

Definition set_tphase (p : tphase) (tx : ttxn) : ttxn :=
  mkTtxn (tx_accs tx) (tx_wts tx) (tx_max tx) p.

Definition ta_is_wr (a : tacc) : bool := bool_decide (ta_type a = WR).

Definition tkey_gt (accs : list tacc) (i j : nat) : bool :=
  match accs !! i, accs !! j with
  | Some a, Some b => primary_key (ta_row b) <? primary_key (ta_row a)
  | _, _ => false
  end.

Definition tt_write_set (accs : list tacc) : list nat :=
  let ws := (rw_sets ta_is_wr 0 accs).1 in
  if negb bounded || negb no_wait then bubble_sort (tkey_gt accs) (length ws - 1) ws else ws.
Definition tt_read_set (accs : list tacc) : list nat := (rw_sets ta_is_wr 0 accs).2.

Definition tt_wr_cnt (tx : ttxn) : nat := length (tt_write_set (tx_accs tx)).
Definition tt_rd_cnt (tx : ttxn) : nat := length (tt_read_set (tx_accs tx)).
Definition twacc (tx : ttxn) (i : nat) : option tacc :=
  do! j <- tt_write_set (tx_accs tx) !! i;; tx_accs tx !! j.
Definition tracc (tx : ttxn) (i : nat) : option tacc :=
  do! j <- tt_read_set (tx_accs tx) !! i;; tx_accs tx !! j.

(** The loop over the accesses: (commit_rts, commit_wts). *)
Fixpoint commit_ts (accs : list tacc) (commit_rts commit_wts : Z) : Z * Z :=
  match accs with
  | [] => (commit_rts, commit_wts)
  | a :: accs =>
      if bool_decide (ta_type a = RD) && (commit_rts <? ta_wts a) then commit_ts accs (ta_wts a) commit_wts
      else if bool_decide (ta_type a = WR) && (commit_wts <? u64 (ta_rts a + 1))
      then commit_ts accs commit_rts (u64 (ta_rts a + 1))
      else commit_ts accs commit_rts commit_wts
  end.

(** With [SERIALIZABLE] both become their maximum. *)
Definition commit_wts_of (accs : list tacc) : Z :=
  let '(commit_rts, commit_wts) := commit_ts accs 0 0 in
  if commit_wts <? commit_rts then commit_rts else commit_wts.

(** A pre-abort check fails. *)
Definition pre_fails (commit_wts : Z) (a : tacc) (w : Z) : bool :=
  if ta_is_wr a then negb (get_wts w =? ta_wts a)
  else let '(lock, rts, wts) := get_ts_word w in (rts <? commit_wts) && negb (wts =? ta_wts a).

Record tt_sys := mkTtSys {
  tt_rows : gmap nat Row_tictoc;
  tt_txns : gmap nat ttxn }.

(** What the scheduler does: start transaction [t], let it access a row,
    change its copy of a row or finish, let it go on with its next atomic
    access, let a compare-and-swap in it fail, or let its back-off give up. *)
Inductive action :=
| ABegin (t : nat)
| AAccess (t : nat) (type : access_t) (r : nat)
| AModify (t i : nat) (d : V)
| AFinish (t : nat)
| AStep (t : nat)
| AFail (t : nat)
| AGiveUp (t : nat).

Definition lock_first : tphase := if no_wait then TTry 0 else TWait 0.

(** The word of row [r] becomes [w]. *)
Definition put_word (r : nat) (w : Z) (row : Row_tictoc) (rows : gmap nat Row_tictoc)
    : gmap nat Row_tictoc := <[r := mkRow_tictoc w (rt_row row)]> rows.

(** [access]. *)
Definition exec_access (rows : gmap nat Row_tictoc) (tx : ttxn) : option tphase :=
  match tx_phase tx with
  | TLoad type r =>
      do! row <- rows !! r;;
      Some (if is_locked (rt_word row) then TLoad type r else TCopy type r (rt_word row))
  | TCopy type r v => do! row <- rows !! r;; Some (TReload type r v (rt_row row))
  | TReload type r v d =>
      do! row <- rows !! r;;
      Some (if Z.lor (rt_word row) RTS_MASK =? Z.lor v RTS_MASK then TRun else TLoad type r)
  | _ => None
  end.

(** The access it has made when [exec_access] leads back to [TRun]. *)
Definition new_access (type : access_t) (r : nat) (v : Z) (d : V) : tacc :=
  let last_wts := wts_of v in mkTacc type r d d last_wts (u64 (delta_of v + last_wts)).

(** Locking the write set. *)
Definition exec_lock (rows : gmap nat Row_tictoc) (tx : ttxn) (spurious : bool)
    : option (gmap nat Row_tictoc * tphase) :=
  match tx_phase tx with
  | TPre i spinning =>
      if (i =? tt_wr_cnt tx + tt_rd_cnt tx)%nat then Some (rows, if spinning then TSpin 0 else lock_first)
      else
        do! a <- (if (i <? tt_wr_cnt tx)%nat then twacc tx i else tracc tx (i - tt_wr_cnt tx));;
        do! row <- rows !! ta_row a;;
        Some (rows, if pre_fails (tx_wts tx) a (rt_word row) then TAbort 0 0 else TPre (S i) spinning)
  | TTry i =>
      if (i =? tt_wr_cnt tx)%nat then Some (rows, TRts 0)
      else
        do! a <- twacc tx i;;
        do! row <- rows !! ta_row a;;
        Some (if is_locked (rt_word row) || spurious then (rows, TUndo 0 i)
              else (put_word (ta_row a) (set_lock (rt_word row)) row rows, TCheck i))
  | TCheck i =>
      do! a <- twacc tx i;;
      do! row <- rows !! ta_row a;;
      Some (rows, if negb (get_wts (rt_word row) =? ta_wts a) then TAbort 0 (S i) else TTry (S i))
  | TUndo i n =>
      if (i =? n)%nat then Some (rows, if pre_abort then TPre 0 true else TSpin n)
      else
        do! a <- twacc tx i;;
        do! row <- rows !! ta_row a;;
        Some (put_word (ta_row a) (clear_lock (rt_word row)) row rows, TUndo (S i) n)
  | TSpin n => Some (rows, TTry 0)
  | TWait i =>
      if (i =? tt_wr_cnt tx)%nat then Some (rows, TRts 0)
      else
        do! a <- twacc tx i;;
        do! row <- rows !! ta_row a;;
        let '(again, w') := tt_lock_iter spurious (rt_word row) in
        Some (put_word (ta_row a) w' row rows, if again then TWait i else TWaitCheck i)
  | TWaitCheck i =>
      do! a <- twacc tx i;;
      do! row <- rows !! ta_row a;;
      Some (rows, if negb (get_wts (rt_word row) =? ta_wts a) then TAbort 0 (S i) else TWait (S i))
  | _ => None
  end.

(** [commit_wts] above the leases of the write set. *)
Definition exec_rts (rows : gmap nat Row_tictoc) (tx : ttxn) (i : nat) : option ttxn :=
  if (i =? tt_wr_cnt tx)%nat then Some (set_tphase (TRead 0) tx)
  else
    do! a <- twacc tx i;;
    do! row <- rows !! ta_row a;;
    let rts := u64 (get_rts (rt_word row) + 1) in
    Some (mkTtxn (tx_accs tx) (if tx_wts tx <? rts then rts else tx_wts tx) (tx_max tx) (TRts (S i))).

(** What a state of [try_renew] means for the validation. *)
Definition renew_phase (i : nat) (tx : ttxn) (rn : renew) : tphase :=
  match rn with
  | RenewDone true => TRead (S i)
  | RenewDone false => TAbort 0 (tt_wr_cnt tx)
  | RenewCas wts rts rebase v v2 => TRenew i wts rts rebase v v2
  end.

(** Validation of the read set. *)
Definition exec_read (rows : gmap nat Row_tictoc) (tx : ttxn) (spurious : bool)
    : option (gmap nat Row_tictoc * ttxn) :=
  match tx_phase tx with
  | TRead i =>
      if (i =? tt_rd_cnt tx)%nat then
        Some (rows, mkTtxn (tx_accs tx) (tx_wts tx)
                (if tx_max tx <? tx_wts tx then tx_wts tx else tx_max tx) (TStore 0))
      else
        do! a <- tracc tx i;;
        if ta_rts a <? tx_wts tx then
          do! row <- rows !! ta_row a;;
          Some (rows, set_tphase (renew_phase i tx (renew_load (ta_wts a) (tx_wts tx) (rt_word row))) tx)
        else Some (rows, set_tphase (TRead (S i)) tx)
  | TRenew i wts rts rebase v v2 =>
      do! a <- tracc tx i;;
      do! row <- rows !! ta_row a;;
      let '(rn, w') := renew_cas spurious wts rts rebase v v2 (rt_word row) in
      Some (put_word (ta_row a) w' row rows, set_tphase (renew_phase i tx rn) tx)
  | _ => None
  end.

(** Writing, releasing and aborting. *)
Definition exec_write (rows : gmap nat Row_tictoc) (tx : ttxn)
    : option (gmap nat Row_tictoc * tphase) :=
  match tx_phase tx with
  | TStore i =>
      if (i =? tt_wr_cnt tx)%nat then Some (rows, TDone RCOK)
      else
        do! a <- twacc tx i;;
        do! row <- rows !! ta_row a;;
        Some (put_word (ta_row a) (write_ts_word (tx_wts tx) (rt_word row)) row rows, TData i)
  | TData i =>
      do! a <- twacc tx i;;
      do! row <- rows !! ta_row a;;
      Some (<[ta_row a := mkRow_tictoc (rt_word row) (ta_data a)]> rows, TRelease i)
  | TRelease i =>
      do! a <- twacc tx i;;
      do! row <- rows !! ta_row a;;
      Some (put_word (ta_row a) (clear_lock (rt_word row)) row rows, TStore (S i))
  | TAbort i n =>
      if (i =? n)%nat then Some (rows, TDone Abort)
      else
        do! a <- twacc tx i;;
        do! row <- rows !! ta_row a;;
        Some (put_word (ta_row a) (clear_lock (rt_word row)) row rows, TAbort (S i) n)
  | _ => None
  end.

Definition new_tdata (d : V) (a : tacc) : tacc :=
  mkTacc (ta_type a) (ta_row a) d (ta_read a) (ta_wts a) (ta_rts a).

Definition with_txn (s : tt_sys) (t : nat) (rows : gmap nat Row_tictoc) (tx : ttxn) : tt_sys :=
  mkTtSys rows (<[t := tx]> (tt_txns s)).

(** The next atomic access of [t]. *)
Definition exec_step (s : tt_sys) (t : nat) (spurious : bool) : option tt_sys :=
  do! tx <- tt_txns s !! t;;
  let rows := tt_rows s in
  match tx_phase tx with
  | TLoad _ _ | TCopy _ _ _ =>
      do! p <- exec_access rows tx;; Some (with_txn s t rows (set_tphase p tx))
  | TReload type r v d =>
      do! p <- exec_access rows tx;;
      Some (with_txn s t rows
        (match p with
         | TRun => mkTtxn (tx_accs tx ++ [new_access type r v d]) (tx_wts tx) (tx_max tx) TRun
         | _ => set_tphase p tx
         end))
  | TPre _ _ | TTry _ | TCheck _ | TUndo _ _ | TSpin _ | TWait _ | TWaitCheck _ =>
      do! q <- exec_lock rows tx spurious;; Some (with_txn s t q.1 (set_tphase q.2 tx))
  | TRts i => do! tx' <- exec_rts rows tx i;; Some (with_txn s t rows tx')
  | TRead _ | TRenew _ _ _ _ _ _ =>
      do! q <- exec_read rows tx spurious;; Some (with_txn s t q.1 q.2)
  | TStore _ | TData _ | TRelease _ | TAbort _ _ =>
      do! q <- exec_write rows tx;; Some (with_txn s t q.1 (set_tphase q.2 tx))
  | TRun | TDone _ => None
  end.

Definition tt_exec (s : tt_sys) (a : action) : option tt_sys :=
  match a with
  | ABegin t =>
      match tt_txns s !! t with
      | None => Some (with_txn s t (tt_rows s) (mkTtxn [] 0 0 TRun))
      | Some _ => None
      end
  | AAccess t type r =>
      do! tx <- tt_txns s !! t;;
      match tx_phase tx with
      | TRun => Some (with_txn s t (tt_rows s) (set_tphase (TLoad type r) tx))
      | _ => None
      end
  | AModify t i d =>
      do! tx <- tt_txns s !! t;;
      match tx_phase tx with
      | TRun => Some (with_txn s t (tt_rows s)
                  (mkTtxn (alter (new_tdata d) i (tx_accs tx)) (tx_wts tx) (tx_max tx) TRun))
      | _ => None
      end
  | AFinish t =>
      do! tx <- tt_txns s !! t;;
      match tx_phase tx with
      | TRun => Some (with_txn s t (tt_rows s)
                  (mkTtxn (tx_accs tx) (commit_wts_of (tx_accs tx)) (tx_max tx)
                     (if pre_abort then TPre 0 false else lock_first)))
      | _ => None
      end
  | AStep t => exec_step s t false
  | AFail t =>
      do! tx <- tt_txns s !! t;;
      match tx_phase tx with
      | TTry _ | TWait _ | TRenew _ _ _ _ _ _ => exec_step s t true
      | _ => None
      end
  | AGiveUp t =>
      do! tx <- tt_txns s !! t;;
      match tx_phase tx with
      | TSpin n => if bounded then Some (with_txn s t (tt_rows s) (set_tphase (TAbort 0 n) tx)) else None
      | _ => None
      end
  end.

Fixpoint tt_run (s : tt_sys) (l : list action) : option tt_sys :=
  match l with
  | [] => Some s
  | a :: l => do! s' <- tt_exec s a;; tt_run s' l
  end.

Definition tt_init (s : tt_sys) : Prop :=
  tt_txns s = ∅ /\ forall r row, tt_rows s !! r = Some row -> rt_word row = 0.
End tictoc.

(** What a committed transaction read and wrote. *)
Definition tt_commit_of {V} (tx : @ttxn V) : commit V :=
  mkCommit (tx_wts tx) (map (fun a => (ta_row a, ta_read a)) (tx_accs tx))
    (map (fun a => (ta_row a, ta_data a)) (List.filter ta_is_wr (tx_accs tx))).

(** *** A lease that shrinks

    Rows 1, 2 and 3 hold 100.  Transactions 11 and 12 write row 1, 21 to 24
    row 2, and 30 reads rows 3 and 2; then 1, 2 and 3 interleave. *)

Definition steps {V} (t n : nat) : list (@action V) := repeat (AStep t) n.

(** [t] reads row [r] into its access number [i]. *)
Definition reads {V} (t r : nat) : list (@action V) := AAccess t RD r :: steps t 3.
Definition writes (t r i : nat) (d : Z) : list action :=
  AAccess t WR r :: steps t 3 ++ [AModify t i d].

(** A transaction that writes row [r] alone. *)
Definition writer (t r : nat) (d : Z) : list action :=
  ABegin t :: writes t r 0 d ++ AFinish t :: steps t 12.

Definition tt_demo : @tt_sys Z :=
  mkTtSys {[ 1%nat := Row_tictoc_init 100; 2%nat := Row_tictoc_init 100;
             3%nat := Row_tictoc_init 100 ]} ∅.

Definition tt_schedule : list action :=
  writer 11 1 11 ++ writer 12 1 12 ++ writer 21 2 21 ++ writer 22 2 22 ++ writer 23 2 23 ++
  (* 1 reads rows 1 and 2 *)
  ABegin 1 :: reads 1 1 ++ reads 1 2 ++
  writer 24 2 24 ++
  ABegin 30 :: reads 30 3 ++ reads 30 2 ++ AFinish 30 :: steps 30 10 ++
  (* 3 reads row 3, 2 reads row 1 and writes row 3 *)
  ABegin 3 :: reads 3 3 ++ ABegin 2 :: reads 2 1 ++ writes 2 3 1 77 ++
  (* 1 has loaded the word of row 1 when 2 extends its lease *)
  AFinish 1 :: steps 1 6 ++ AFinish 2 :: steps 2 10 ++
  (* 1 puts the lease back, and both commit *)
  steps 1 5 ++ steps 2 5 ++
  (* 3 writes row 1 within the lease of 2 *)
  writes 3 1 1 55 ++ AFinish 3 :: steps 3 14.

(** ** Correctness *)

(** The timestamp word packs a lock bit, a lease of 15 bits and a write
    timestamp of 48 bits: unpacking gives them back, every word is the packing
    of its fields, and the word [write_data] stores keeps the lock bit, clears
    the lease and holds the new timestamp. *)
Theorem tictoc_word_roundtrip lock delta wts v wts' :
  ts_range delta wts -> is_u64 v -> 0 <= wts' < 2 ^ WTS_LEN ->
  get_ts_word (pack lock delta wts) = (lock, delta + wts, wts) /\
  pack (is_locked v) (delta_of v) (wts_of v) = v /\
  get_ts_word (write_ts_word wts' (pack lock delta wts)) = (lock, wts', wts').
Proof.
  intros Hr Hv Hw. assert (ts_range 0 wts') as Hr' by (split; [done|done]).
  assert (forall d w, ts_range d w -> u64 (d + w) = d + w) as Hu.
  { intros d w [Hd Hw2]. apply u64_small. unfold is_u64, WTS_LEN, RTS_LEN in *. simpl Z.sub in *. lia. }
  unfold get_ts_word, get_rts, get_wts. split_and!.
  - by rewrite pack_locked, pack_wts, pack_delta, Hu.
  - symmetry. by apply word_pack.
  - by rewrite write_ts_word_pack, pack_locked, pack_wts, pack_delta, Hu.
Qed.

Lemma tictoc_word_roundtrip_witness :
  get_ts_word (write_ts_word 9 (pack true 3 5)) = (true, 9, 9).
Proof.
  refine (proj2 (proj2 (tictoc_word_roundtrip true 3 5 0 9 _ _ _))); by repeat split.
Defined.

(** [try_renew] undisturbed: it fails and changes nothing when the version
    is not the one that was read, or when the row is locked and its lease does
    not reach [rts]; otherwise it succeeds, a lease that reaches [rts] is left
    as it is, another is extended to exactly [rts], the write timestamp being
    rebased when the lease outgrows its 15 bits. *)
Theorem tictoc_try_renew lock delta wts rts wts0 :
  ts_range delta wts -> wts <= rts < 2 ^ WTS_LEN -> 0 <= wts0 < 2 ^ WTS_LEN ->
  (wts0 <> wts -> try_renew_alone wts0 rts (pack lock delta wts) = Some (false, pack lock delta wts)) /\
  exists b w, try_renew_alone wts rts (pack lock delta wts) = Some (b, w) /\
    (b = true <-> rts <= wts + delta \/ lock = false) /\
    (b = false -> w = pack lock delta wts) /\
    (b = true -> is_locked w = lock /\ get_rts w = Z.max rts (wts + delta) /\ wts <= get_wts w).
Proof.
  intros Hr Hrts Hw0. split.
  - intros Hne. unfold try_renew_alone, renew_load.
    rewrite pack_wts, pack_delta, pack_locked by done.
    replace (wts =? wts0) with false by lia. simpl. destruct lock; [done|].
    by replace (wts0 =? wts) with false by lia.
  - rewrite try_renew_alone_spec by done. unfold lease_renewed.
    pose proof Hr as [Hd Hw]. unfold get_rts, get_wts.
    assert (forall z, 0 <= z < 2 ^ 63 -> u64 z = z) as Hu
      by (intros; apply u64_small; unfold is_u64; lia).
    destruct (Z.leb_spec (rts - wts) delta) as [Hle|Hgt].
    + eexists _, _. split; [done|]. split; [split; [left; lia|done]|]. split; [done|]. intros _.
      rewrite pack_locked, pack_wts, pack_delta, Hu by
        (done || (unfold WTS_LEN, RTS_LEN in *; simpl Z.sub in *; lia)). split; [done|]. lia.
    + destruct lock.
      * eexists _, _. split; [done|]. split; [split; [done|lia]|]. done.
      * eexists _, _. split; [done|]. split; [split; [by right|done]|]. split; [done|]. intros _.
        pose proof (Z.div_mod (rts - wts) (2 ^ RTS_LEN) ltac:(done)).
        pose proof (Z.mod_pos_bound (rts - wts) (2 ^ RTS_LEN) ltac:(done)).
        assert (0 <= (rts - wts) / 2 ^ RTS_LEN) by (apply Z.div_pos; [lia|done]).
        assert (ts_range ((rts - wts) mod 2 ^ RTS_LEN)
          (wts + (rts - wts) / 2 ^ RTS_LEN * 2 ^ RTS_LEN)) as Hr' by (split; [done|lia]).
        rewrite pack_locked, pack_wts, pack_delta, Hu by
          (done || (unfold WTS_LEN, RTS_LEN in *; simpl Z.sub in *; lia)). split; [done|]. lia.
Qed.

Lemma tictoc_try_renew_witness : exists b w, try_renew_alone 5 9 (pack false 3 5) = Some (b, w).
Proof.
  destruct (tictoc_try_renew false 3 5 9 0) as [_ (b & w & H & _)]; [by repeat split..|eauto].
Defined.

(** A lease can shrink, and with it serializability is lost.  When the
    compare-and-swap of [try_renew] fails, the new lease is compared with [rts]
    instead of with [rts - wts], and a word with a longer lease is overwritten.
    Transactions 2 and 3 then commit although each read a row before the other
    wrote it: no serial order of the three explains what they read. *)
Theorem tictoc_lease_shrinks : exists s tx1 tx2 tx3,
  tt_init tt_demo /\ tt_run Z.of_nat true true false tt_demo tt_schedule = Some s /\
  tt_txns s !! 1%nat = Some tx1 /\ tx_phase tx1 = TDone RCOK /\
  tt_txns s !! 2%nat = Some tx2 /\ tx_phase tx2 = TDone RCOK /\
  tt_txns s !! 3%nat = Some tx3 /\ tx_phase tx3 = TDone RCOK /\
  forall db cs, cs ≡ₚ [tt_commit_of tx1; tt_commit_of tx2; tt_commit_of tx3] -> ~ replay db cs.
Proof.
  assert (((fun s => (tt_txns s !! 1%nat, tt_txns s !! 2%nat, tt_txns s !! 3%nat)) <$>
    tt_run Z.of_nat true true false tt_demo tt_schedule) = Some (
      Some (mkTtxn [mkTacc RD 1 12 12 2 2; mkTacc RD 2 23 23 3 3] 3 3 (TDone RCOK)),
      Some (mkTtxn [mkTacc RD 1 12 12 2 2; mkTacc WR 3 77 100 0 4] 5 5 (TDone RCOK)),
      Some (mkTtxn [mkTacc RD 3 100 100 0 4; mkTacc WR 1 55 12 2 3] 4 4 (TDone RCOK)))) as H
    by (vm_compute; reflexivity).
  destruct (tt_run _ _ _ _ _ _) as [s|] eqn:Hrun; [|done].
  simpl in H. injection H as H1 H2 H3. exists s. do 3 eexists.
  split; [split; [done|]|].
  { simpl. intros r row. rewrite !lookup_insert_Some, lookup_singleton_Some.
    by intros [[_ <-]|[_ [[_ <-]|[_ [_ <-]]]]]. }
  split; [reflexivity|]. clear Hrun. do 3 (split; [eassumption|]; split; [reflexivity|]).
  intros db cs Hp.
  set (c1 := tt_commit_of _) in Hp. set (c2 := tt_commit_of _) in Hp. set (c3 := tt_commit_of _) in Hp.
  (* 3 reads row 3 as it was before 2, and 2 reads row 1 as it was before 3 *)
  assert (forall db pre mid post, (forall m, m ∈ mid -> m = c1) ->
    ~ replay db (pre ++ c2 :: mid ++ c3 :: post)) as H23.
  { intros db' pre mid post Hm Hrep. cut (100 = 77); [done|].
    eapply (replay_reads_from db' pre c2 mid c3 post 3%nat); [exact Hrep|apply NoDup_singleton|left|left|].
    intros m ->%Hm. done. }
  assert (forall db pre mid post, (forall m, m ∈ mid -> m = c1) ->
    ~ replay db (pre ++ c3 :: mid ++ c2 :: post)) as H32.
  { intros db' pre mid post Hm Hrep. cut (12 = 55); [done|].
    eapply (replay_reads_from db' pre c3 mid c2 post 1%nat); [exact Hrep|apply NoDup_singleton|left|left|].
    intros m ->%Hm. done. }
  assert (forall m, m ∈ [c1] -> m = c1) as Hone by (by intros m ?%list_elem_of_singleton).
  assert (forall m, m ∈ [] -> m = c1) as Hnone by (by intros m ?%not_elem_of_nil).
  clearbody c1 c2 c3. apply perm3_inv in Hp as [->|[->|[->|[->|[->| ->]]]]].
  - exact (H23 db [c1] [] [] Hnone).
  - exact (H32 db [c1] [] [] Hnone).
  - exact (H23 db [] [c1] [] Hone).
  - exact (H23 db [] [] [c1] Hnone).
  - exact (H32 db [] [c1] [] Hone).
  - exact (H32 db [] [] [c1] Hnone).
Qed.
