(* ===== verification/TicTocTxn.v ===== *)
(** * TicToc: serializability

    The transactions of TicToc.v, any number of them interleaved by atomic accesses: the
    ones that pass validation are serializable in the order of their commit timestamps, as
    long as no compare-and-swap shortens a lease. *)

From S2P Require Import Prelude Global Serial History Words Sort TicToc.

(** ** Timestamp words *)

(** The end of the lease, without wrap-around. *)
Definition lease (w : Z) : Z := delta_of w + wts_of w.

Lemma word_range w : is_u64 w -> 0 <= delta_of w < 2 ^ 15 /\ 0 <= wts_of w < 2 ^ 48.
Proof. intros H. destruct (word_pack w H) as [_ [? ?]]. done. Qed.

Lemma wts_le_lease w : is_u64 w -> wts_of w <= lease w.
Proof. intros H%word_range. unfold lease. lia. Qed.

Lemma get_rts_lease w : is_u64 w -> get_rts w = lease w.
Proof. intros H%word_range. unfold get_rts, lease. apply u64_small. unfold is_u64. lia. Qed.

Lemma u64_lease w : is_u64 w -> u64 (delta_of w + wts_of w) = lease w.
Proof. intros H. by rewrite <- get_rts_lease. Qed.

(** [w'] has the fields of [w] and the lock bit [b]. *)
Definition relocked (b : bool) (w w' : Z) : Prop :=
  is_u64 w' /\ is_locked w' = b /\ wts_of w' = wts_of w /\ lease w' = lease w.

Lemma pack_relocked b w : is_u64 w -> relocked b w (pack b (delta_of w) (wts_of w)).
Proof.
  intros H. destruct (word_pack w H) as [_ Hr]. split; [by apply pack_u64|]. unfold lease.
  by rewrite pack_locked, pack_wts, pack_delta.
Qed.

Lemma set_lock_relocked w : is_u64 w -> is_locked w = false -> relocked true w (set_lock w).
Proof.
  intros H Hl. destruct (word_pack w H) as [E Hr]. rewrite E at 2. rewrite Hl. unfold pack at 1. cbn [enc_lock].
  rewrite set_lock_enc by by apply pack_low. by apply pack_relocked.
Qed.

Lemma clear_lock_relocked w : is_u64 w -> relocked false w (clear_lock w).
Proof.
  intros H. destruct (word_pack w H) as [E Hr]. rewrite E at 2. unfold pack at 1.
  rewrite clear_lock_enc by by apply pack_low. by apply (pack_relocked false).
Qed.

Lemma write_word c w : is_u64 w -> 0 <= c < 2 ^ 48 ->
  is_u64 (write_ts_word c w) /\ is_locked (write_ts_word c w) = is_locked w /\
  wts_of (write_ts_word c w) = c /\ lease (write_ts_word c w) = c.
Proof.
  intros H Hc. destruct (word_pack w H) as [E Hr]. rewrite E at 1 2 4 5. rewrite write_ts_word_pack by done.
  assert (ts_range 0 c) as Hr' by done. unfold lease. rewrite pack_locked, pack_wts, pack_delta by done. split; [by apply pack_u64|done].
Qed.

(** The comparison at the end of [access]. *)
Lemma same_version v w : Z.lor w RTS_MASK = Z.lor v RTS_MASK -> is_locked w = is_locked v /\ wts_of w = wts_of v.
Proof.
  intros H. assert (forall m, Z.land RTS_MASK m = 0 -> Z.land w m = Z.land v m) as Hm.
  { intros m Hm. apply (f_equal (fun z => Z.land z m)) in H. by rewrite !Z.land_lor_distr_l, Hm, !Z.lor_0_r in H. }
  split; [unfold is_locked; by rewrite (Hm LOCK_BIT)|unfold wts_of; by rewrite (Hm WTS_MASK)].
Qed.

(** A read of version [x] is renewed up to [c]. *)
Lemma renew_load_done x c v : is_u64 v -> 0 <= x <= c -> c < 2 ^ 48 -> renew_load x c v = RenewDone true ->
  wts_of v = x /\ c <= lease v.
Proof.
  intros Hv Hx Hc. pose proof (word_range v Hv) as [Hd Hw]. unfold renew_load, lease.
  rewrite (u64_small (c - x)) by (unfold is_u64; lia).
  destruct (Z.eqb_spec (wts_of v) x) as [E|E]; [|destruct (is_locked v); [done|]; by replace (x =? wts_of v) with false by lia].
  destruct (Z.leb_spec (c - x) (delta_of v)); [intros _; lia|]. cbn [andb]. destruct (is_locked v); [done|].
  replace (x =? wts_of v) with true by lia. cbn [negb]. destruct (Z.ltb_spec (c - x) (delta_of v)); [lia|done].
Qed.

(** What holds of a compare-and-swap that [try_renew] is about to do. *)
Definition renewing (x c wts rts : Z) (rebase : bool) (v v2 : Z) : Prop :=
  (rebase = false -> wts = x) /\ rts = c /\ is_u64 v /\ is_locked v = false /\ wts_of v = x /\
  is_u64 v2 /\ is_locked v2 = false /\ lease v2 = c /\ x <= wts_of v2.

Lemma renew_load_cas x c v wts rts rebase v' v2 : is_u64 v -> 0 <= x <= c -> c < 2 ^ 48 ->
  renew_load x c v = RenewCas wts rts rebase v' v2 -> renewing x c wts rts rebase v' v2 /\ v' = v /\ lease v <= c.
Proof.
  intros Hv Hx Hc. pose proof (word_range v Hv) as [Hd Hw].
  pose proof (renew_rebase x c ltac:(lia) ltac:(unfold WTS_LEN, RTS_LEN; cbn; lia)) as (Hu & Hm & Hb). rewrite Hu in Hm, Hb.
  unfold renew_load. rewrite Hu.
  destruct (Z.eqb_spec (wts_of v) x) as [E|E]; [|destruct (is_locked v); [done|]; by replace (x =? wts_of v) with false by lia].
  destruct (Z.leb_spec (c - x) (delta_of v)) as [|Hgt]; [done|]. cbn [andb]. destruct (is_locked v) eqn:Hl; [done|].
  replace (x =? wts_of v) with true by lia. cbn [negb]. destruct (Z.ltb_spec (c - x) (delta_of v)) as [|_]; [done|].
  change (Z.shiftl 1 RTS_LEN) with (2 ^ RTS_LEN). rewrite Hb, Hm. intros H. injection H as <- <- <- <- <-.
  assert (0 <= (c - x) mod 2 ^ RTS_LEN < 2 ^ RTS_LEN) as Hmod by by apply Z.mod_pos_bound.
  pose proof (Z.div_mod (c - x) (2 ^ RTS_LEN) ltac:(done)) as Hdm.
  assert (0 <= (c - x) / 2 ^ RTS_LEN) by (apply Z.div_pos; [lia|done]).
  assert (forall d, 0 <= d < 2 ^ RTS_LEN -> u64 (Z.shiftl d WTS_LEN) = Z.shiftl d WTS_LEN) as Hsh.
  { intros d Hdb. apply u64_small. rewrite Z.shiftl_mul_pow2 by done.
    unfold is_u64, WTS_LEN, RTS_LEN in *. cbn [Z.sub] in *. lia. }
  assert (forall d w, ts_range d w -> d + w = c -> x <= w -> is_u64 (pack false d w) /\ is_locked (pack false d w) = false /\
    lease (pack false d w) = c /\ x <= wts_of (pack false d w)) as Hpack.
  { intros d w Hr Hdw Hxw. unfold lease. rewrite pack_locked, pack_wts, pack_delta by done. split; [by apply pack_u64|done]. }
  split; [|split; [done|unfold lease; lia]].
  destruct (Z.leb_spec (2 ^ RTS_LEN) (c - x)) as [Hge|Hlt].
  - rewrite Hsh by done. rewrite u64_small by (unfold is_u64; lia).
    rewrite lor_pack by (split; [done|unfold WTS_LEN, RTS_LEN in *; cbn in *; lia]).
    repeat (split; [done|]). apply Hpack; [split; [done|unfold WTS_LEN, RTS_LEN in *; cbn in *; lia]|lia|lia].
  - rewrite Hsh by lia. rewrite lor_pack by (split; [lia|unfold WTS_LEN, RTS_LEN in *; cbn in *; lia]).
    repeat (split; [done|]). apply Hpack; [split; [lia|unfold WTS_LEN, RTS_LEN in *; cbn in *; lia]|lia|lia].
Qed.

(** One turn of its loop: the new lease is in the word, or the word has one that is long
    enough, or [try_renew] fails or goes on, without a change. *)
Lemma renew_cas_cases sp x c wts rts rebase v v2 w rn w' : renewing x c wts rts rebase v v2 -> is_u64 w ->
  renew_cas sp wts rts rebase v v2 w = (rn, w') ->
  w' = v2 /\ w = v /\ rn = RenewDone true \/
  w' = w /\ (rn = RenewDone true -> wts_of w = x /\ c <= lease w) /\
    (forall a b r v' v2', rn = RenewCas a b r v' v2' -> renewing x c a b r v' v2').
Proof.
  intros (Hre & -> & Hv & Hl & Hx & H2 & Hl2 & Hc & Hx2) Hw H. unfold renew_cas, cas in H.
  assert (forall z, z = w -> (if rebase || is_locked w || negb (wts =? wts_of w) then (RenewDone false, z)
    else if c <? delta_of w then (RenewDone true, z) else (RenewCas wts c rebase w v2, z)) = (rn, w') ->
    w' = v2 /\ w = v /\ rn = RenewDone true \/
    w' = w /\ (rn = RenewDone true -> wts_of w = x /\ c <= lease w) /\
    (forall a b r v' v2', rn = RenewCas a b r v' v2' -> renewing x c a b r v' v2')) as Hfail.
  { intros z -> Hz. right. destruct rebase; [injection Hz as <- <-; done|]. specialize (Hre eq_refl). subst wts. cbn [orb] in Hz.
    destruct (is_locked w) eqn:Hlw; [injection Hz as <- <-; done|]. cbn [orb] in Hz.
    destruct (Z.eqb_spec x (wts_of w)) as [Ew|]; [|injection Hz as <- <-; done]. cbn [negb] in Hz.
    pose proof (word_range w Hw) as [Hd Hww].
    destruct (Z.ltb_spec c (delta_of w)); injection Hz as <- <-; (split; [done|]); split; try done.
    - intros _. unfold lease. lia.
    - intros a b r v' v2' E. injection E as <- <- <- <- <-. repeat (split; [done|]). done. }
  destruct sp; [by apply (Hfail w)|]. destruct (Z.eqb_spec w v) as [->|].
  - injection H as <- <-. by left.
  - by apply (Hfail w).
Qed.

(** ** Write sets and read sets *)

Section serial.
Context {V : Type} (primary_key : nat -> Z) (pre_abort bounded : bool).
Context (db0 : gmap nat V).

Notation twacc := (@twacc V primary_key true bounded).
Notation wr_cnt := (@tt_wr_cnt V primary_key true bounded).
Notation rd_cnt := (@tt_rd_cnt V).
Notation write_set := (@tt_write_set V primary_key true bounded).
Notation step_exec := (@exec_step V primary_key pre_abort true bounded).
Notation exec := (@tt_exec V primary_key pre_abort true bounded).

Implicit Types (tx : @ttxn V) (rows : gmap nat (@Row_tictoc V)) (txns : gmap nat (@ttxn V)).
Implicit Types (log : list (nat * commit V)) (a : @tacc V).

Lemma tt_write_set_perm (accs : list tacc) : write_set accs ≡ₚ (rw_sets ta_is_wr 0 accs).1.
Proof using Type. unfold tt_write_set. destruct (negb bounded || negb true); [by rewrite bubble_sort_perm|done]. Qed.

Lemma twacc_Some tx i a : twacc tx i = Some a -> ta_is_wr a = true /\ (i < wr_cnt tx)%nat /\
  exists j, write_set (tx_accs tx) !! i = Some j /\ tx_accs tx !! j = Some a.
Proof using Type.
  unfold TicToc.twacc. destruct (write_set (tx_accs tx) !! i) as [j|] eqn:Hj; [|done]. intros Ha.
  assert (j ∈ write_set (tx_accs tx)) as Hin by (apply list_elem_of_lookup; eauto).
  rewrite tt_write_set_perm in Hin. apply elem_of_rw_sets in Hin as (k & b & -> & Hb & Hw). cbn in Ha.
  split; [congruence|]. split; [by eapply lookup_lt_Some|]. by exists k.
Qed.

Lemma twacc_in tx i a : twacc tx i = Some a -> a ∈ tx_accs tx.
Proof using Type. intros (_ & _ & j & _ & Hj)%twacc_Some. by eapply list_elem_of_lookup_2. Qed.

Lemma twacc_type tx i a : twacc tx i = Some a -> ta_type a = WR.
Proof using Type. intros [H _]%twacc_Some. unfold ta_is_wr in H. by b2p. Qed.

Lemma twacc_of tx j a : tx_accs tx !! j = Some a -> ta_type a = WR -> exists i, twacc tx i = Some a /\ write_set (tx_accs tx) !! i = Some j.
Proof using Type.
  intros Ha Hw. assert (j ∈ write_set (tx_accs tx)) as Hin.
  { rewrite tt_write_set_perm. apply elem_of_rw_sets. exists j, a. unfold ta_is_wr. by rewrite Hw. }
  apply list_elem_of_lookup in Hin as [i Hi]. exists i. unfold TicToc.twacc. by rewrite Hi.
Qed.

Lemma tracc_Some tx i a : tracc tx i = Some a -> ta_is_wr a = false /\ (i < rd_cnt tx)%nat /\ a ∈ tx_accs tx.
Proof using Type.
  unfold tracc, tt_rd_cnt. destruct (tt_read_set (tx_accs tx) !! i) as [j|] eqn:Hj; [|done]. intros Ha.
  assert (j ∈ tt_read_set (tx_accs tx)) as Hin by (apply list_elem_of_lookup; eauto).
  apply elem_of_rw_sets in Hin as (k & b & -> & Hb & Hw). cbn in Ha.
  split; [congruence|]. split; [by eapply lookup_lt_Some|by eapply list_elem_of_lookup_2].
Qed.

Lemma tracc_of tx a : a ∈ tx_accs tx -> ta_type a <> WR -> exists i, (i < rd_cnt tx)%nat /\ tracc tx i = Some a.
Proof using Type.
  intros (j & Ha)%list_elem_of_lookup Hw. assert (j ∈ tt_read_set (tx_accs tx)) as Hin.
  { apply elem_of_rw_sets. exists j, a. unfold ta_is_wr. by rewrite bool_decide_eq_false_2. }
  apply list_elem_of_lookup in Hin as [i Hi]. exists i. split; [by eapply lookup_lt_Some|]. unfold tracc. by rewrite Hi.
Qed.

(** ** The invariant *)

(** The versions of a row: what the validated transactions wrote, in the order of
    their validation. *)
Notation hist log r := (history db0 r (map snd log)).

(** [validate_tictoc] has passed. *)
Definition committed tx : bool :=
  match tx_phase tx with TStore _ | TData _ | TRelease _ | TDone RCOK => true | _ => false end.

(** Access [i] of the write set: locked by the transaction; its word not written, its
    tuple not written. *)
Definition held tx (i : nat) : Prop :=
  match tx_phase tx with
  | TTry k => (i < k)%nat
  | TCheck k => (i <= k)%nat
  | TUndo j n | TAbort j n => (j <= i < n)%nat
  | TRts _ | TRead _ | TRenew _ _ _ _ _ _ => True
  | TStore j | TData j | TRelease j => (j <= i)%nat
  | _ => False
  end.
Definition unstored tx (i : nat) : Prop :=
  match tx_phase tx with TStore j => (j <= i)%nat | TData j | TRelease j => (j < i)%nat | _ => False end.
Definition unwritten tx (i : nat) : Prop :=
  match tx_phase tx with TStore j | TData j => (j <= i)%nat | TRelease j => (j < i)%nat | _ => False end.

(** What validation knows of access [i] of the write set: its version is current, its lease
    ends before [commit_wts]; and of access [j] of the read set. *)
Definition checked tx (i : nat) : Prop :=
  match tx_phase tx with
  | TTry k | TCheck k => (i < k)%nat
  | TRts _ | TRead _ | TRenew _ _ _ _ _ _ => True
  | _ => False
  end.
Definition topped tx (i : nat) : Prop :=
  match tx_phase tx with
  | TRts k => (i < k)%nat
  | TRead _ | TRenew _ _ _ _ _ _ => True
  | _ => unstored tx i
  end.
Definition renewed tx (j : nat) : Prop :=
  match tx_phase tx with TRead k | TRenew k _ _ _ _ _ => (j < k)%nat | _ => False end.

(** [commit_wts] has been chosen. *)
Definition chosen tx : Prop :=
  match tx_phase tx with TRun | TLoad _ _ | TCopy _ _ _ | TReload _ _ _ _ => False | _ => True end.

Definition at_row txns (P : @ttxn V -> nat -> Prop) (t i r : nat) : Prop :=
  exists tx a, txns !! t = Some tx /\ P tx i /\ twacc tx i = Some a /\ ta_row a = r.
Notation holds txns := (at_row txns held).

(** The word of the row has been written and its tuple has not. *)
Definition torn txns (r : nat) : Prop := exists t i, at_row txns (fun tx i => tx_phase tx = TData i) t i r.

(** A version of row [r] with contents [u] that was read when its word said it is valid from
    [x] to [y]. *)
Definition lease_ok rows log (r : nat) (x y : Z) (u : V) : Prop := exists old b new row,
  rows !! r = Some row /\ hist log r = old ++ (b, u) :: new /\ b <= x /\ 0 <= x <= y /\ Forall (fun h => y < h.1) new /\
  x <= wts_of (rt_word row) /\ y <= lease (rt_word row) /\
  (x = wts_of (rt_word row) -> Forall (fun h => lease (rt_word row) < h.1) new).

(** It is the version at time [c], and will be. *)
Definition read_ok rows log (r : nat) (c : Z) (u : V) : Prop := exists old b new row,
  rows !! r = Some row /\ hist log r = old ++ (b, u) :: new /\ b <= c /\ Forall (fun h => c < h.1) new /\
  c <= lease (rt_word row).

(** [access] has loaded the word [v]. *)
Definition loaded rows (C : nat -> Prop) (r : nat) (v : Z) (P : V -> Prop) : Prop := exists row,
  rows !! r = Some row /\ is_u64 v /\ is_locked v = false /\ wts_of v <= wts_of (rt_word row) /\
  (wts_of v = wts_of (rt_word row) -> ~ C r /\ lease v <= lease (rt_word row) /\ P (rt_row row)).

Definition rd_or_wr (type : access_t) : Prop := type = RD \/ type = WR.

Definition phase_ok rows (C : nat -> Prop) tx : Prop :=
  match tx_phase tx with
  | TLoad type r => rd_or_wr type
  | TCopy type r v => rd_or_wr type /\ loaded rows C r v (fun _ => True)
  | TReload type r v d => rd_or_wr type /\ loaded rows C r v (fun u => u = d)
  | TUndo j m | TAbort j m => (j <= m)%nat
  | TSpin n => n = 0%nat \/ bounded = false
  | TWait _ | TWaitCheck _ => False
  | TRenew i wts rts rebase v v2 => exists a, tracc tx i = Some a /\ renewing (ta_wts a) (tx_wts tx) wts rts rebase v v2
  | _ => True
  end.

Record tok rows log (C : nat -> Prop) tx : Prop := {
  t_accs : forall a, a ∈ tx_accs tx -> rd_or_wr (ta_type a) /\ lease_ok rows log (ta_row a) (ta_wts a) (ta_rts a) (ta_read a);
  t_phase : phase_ok rows C tx;
  t_ts : 0 <= tx_wts tx /\ (chosen tx -> forall a, a ∈ tx_accs tx ->
    (ta_type a = RD -> ta_wts a <= tx_wts tx) /\ (ta_type a = WR -> ta_rts a < tx_wts tx));
  t_checked : forall i a row, checked tx i -> twacc tx i = Some a -> rows !! ta_row a = Some row -> wts_of (rt_word row) = ta_wts a;
  t_top : forall i a row, topped tx i -> twacc tx i = Some a -> rows !! ta_row a = Some row -> lease (rt_word row) < tx_wts tx;
  t_read : forall j a, renewed tx j -> tracc tx j = Some a -> read_ok rows log (ta_row a) (tx_wts tx) (ta_read a) }.

(** The tuple of a row is the latest version, or the one before it while a validated
    transaction has not written it. *)
Definition tuple_ok txns log (r : nat) (row : @Row_tictoc V) : Prop := exists old b tl,
  hist log r = old ++ (b, rt_row row) :: tl /\
  ((tl = [] /\ b <= wts_of (rt_word row) /\ forall t i, ~ at_row txns unwritten t i r) \/
   exists t i tx a, tl = [(tx_wts tx, ta_data a)] /\ txns !! t = Some tx /\ unwritten tx i /\ twacc tx i = Some a /\ ta_row a = r /\
     (unstored tx i /\ b <= wts_of (rt_word row) /\ lease (rt_word row) < tx_wts tx \/
      tx_phase tx = TData i /\ wts_of (rt_word row) = tx_wts tx /\ lease (rt_word row) = tx_wts tx)).

Record row_ok (n : Z) txns log (r : nat) (row : @Row_tictoc V) : Prop := {
  r_word : is_u64 (rt_word row) /\ lease (rt_word row) <= n;
  r_tuple : tuple_ok txns log r row }.

Record locks_ok rows (H : nat -> nat -> nat -> Prop) : Prop := {
  l_locked : forall t i r row, H t i r -> rows !! r = Some row -> is_locked (rt_word row) = true;
  l_unique : forall t i t' i' r, H t i r -> H t' i' r -> t = t' /\ i = i' }.

Record log_ok rows txns log : Prop := {
  g_nodup : NoDup (map fst log);
  g_txns : forall t c, (t, c) ∈ log <-> exists tx, txns !! t = Some tx /\ committed tx = true /\ c = tt_commit_of tx;
  g_sorted : forall r, StronglySorted Z.lt (map fst (hist log r));
  g_reads : forall l1 t d l2, log = l1 ++ (t, d) :: l2 -> forall r u, (r, u) ∈ c_reads d -> exists old b new,
    hist l1 r = old ++ (b, u) :: new /\ b <= c_ts d /\ Forall (fun h => c_ts d < h.1) new /\
    Forall (fun h => c_ts d < h.1) (writes_in r (map snd l2));
  g_top : forall t d, (t, d) ∈ log -> forall r u row, (r, u) ∈ c_reads d -> rows !! r = Some row ->
    c_ts d <= lease (rt_word row) \/ exists i, at_row txns unstored t i r }.

Record inv (n : Z) (s : @tt_sys V) log : Prop := {
  i_dom : forall r, is_Some (tt_rows s !! r) <-> is_Some (db0 !! r);
  i_rows : forall r row, tt_rows s !! r = Some row -> row_ok n (tt_txns s) log r row;
  i_txns : forall t tx, tt_txns s !! t = Some tx -> tok (tt_rows s) log (torn (tt_txns s)) tx /\ tx_wts tx <= n;
  i_locks : locks_ok (tt_rows s) (holds (tt_txns s));
  i_log : log_ok (tt_rows s) (tt_txns s) log }.

(** ** Steps *)

Lemma hist_app r log l : is_Some (db0 !! r) -> hist (log ++ l) r = hist log r ++ writes_in r (map snd l).
Proof using Type. intros H. rewrite map_app. by apply history_after. Qed.

(** What every step does to the rows. *)
Definition forward log (C C' : nat -> Prop) rows rows' : Prop := forall r row, rows !! r = Some row ->
  exists row', rows' !! r = Some row' /\ wts_of (rt_word row) <= wts_of (rt_word row') /\
    lease (rt_word row) <= lease (rt_word row') /\
    (wts_of (rt_word row) = wts_of (rt_word row') -> (C' r -> C r) /\ (C r \/ rt_row row = rt_row row') /\
       forall h, h ∈ hist log r -> lease (rt_word row) < h.1 -> lease (rt_word row') < h.1).

Lemma forward_refl log (C C' : nat -> Prop) rows : (forall r, C' r -> C r) -> forward log C C' rows rows.
Proof using Type.
  intros HC r row Hr. exists row. split; [done|]. split; [lia|]. split; [lia|]. intros _. split; [apply HC|]. split; [by right|done].
Qed.

Section fw.
Context (log : list (nat * commit V)) (C C' : nat -> Prop) (rows rows' : gmap nat (@Row_tictoc V)).
Context (F : forward log C C' rows rows').

Lemma lease_ok_fw r x y u : lease_ok rows log r x y u -> lease_ok rows' log r x y u.
Proof using All.
  intros (old & b & new & row & Hr & Hh & Hb & Hxy & Hn & Hx & Hy & Hl). destruct (F r row Hr) as (row' & Hr' & Hw & Hls & Heq).
  exists old, b, new, row'. split_and!; try done; try lia. intros E.
  destruct Heq as (_ & _ & Ht); [lia|]. rewrite Forall_forall in *. intros h Hin. apply Ht; [rewrite Hh; set_solver|].
  apply Hl; [lia|done].
Qed.

Lemma read_ok_fw r c u : read_ok rows log r c u -> read_ok rows' log r c u.
Proof using All.
  intros (old & b & new & row & Hr & Hh & Hb & Hn & Hc). destruct (F r row Hr) as (row' & Hr' & Hw & Hls & _).
  exists old, b, new, row'. split_and!; try done. lia.
Qed.

Lemma loaded_fw r v (P : V -> Prop) : loaded rows C r v P -> loaded rows' C' r v P.
Proof using All.
  intros (row & Hr & Hv & Hl & Hw & Heq). destruct (F r row Hr) as (row' & Hr' & Hw' & Hls & Heq').
  exists row'. split_and!; try done; [lia|]. intros E. destruct Heq' as (HC & Hd & _); [lia|]. destruct Heq as (HnC & Hle & HP); [lia|].
  split_and!; [auto|lia|]. destruct Hd as [|<-]; [done|done].
Qed.

Lemma phase_ok_fw tx : phase_ok rows C tx -> phase_ok rows' C' tx.
Proof using All.
  unfold phase_ok. destruct (tx_phase tx); try done; intros [Ht H]; (split; [done|]); by apply loaded_fw.
Qed.

Lemma tok_fw tx : tok rows log C tx ->
  (forall i a, held tx i -> twacc tx i = Some a -> rows' !! ta_row a = rows !! ta_row a) -> tok rows' log C' tx.
Proof using All.
  intros T Hheld. assert (forall i, checked tx i -> held tx i) as Hch.
  { intros i. unfold checked, held. destruct (tx_phase tx); try done; lia. }
  assert (forall i, topped tx i -> held tx i) as Hto.
  { intros i. unfold topped, unstored, held. destruct (tx_phase tx); try done; lia. }
  split.
  - intros a Ha. destruct (t_accs _ _ _ _ T a Ha) as [? ?]. split; [done|]. by apply lease_ok_fw.
  - apply phase_ok_fw, T.
  - apply T.
  - intros i a row Hc Ha Hr. rewrite (Hheld i) in Hr by auto. by apply (t_checked _ _ _ _ T i).
  - intros i a row Hc Ha Hr. rewrite (Hheld i) in Hr by auto. by apply (t_top _ _ _ _ T i a).
  - intros j a Hj Ha. apply read_ok_fw. by apply (t_read _ _ _ _ T j).
Qed.
End fw.

Lemma at_row_intro txns (P : @ttxn V -> nat -> Prop) t tx i a : txns !! t = Some tx -> P tx i -> twacc tx i = Some a ->
  at_row txns P t i (ta_row a).
Proof using Type. intros. by exists tx, a. Qed.

Lemma at_row_impl txns (P Q : @ttxn V -> nat -> Prop) t i r : (forall tx, P tx i -> Q tx i) -> at_row txns P t i r -> at_row txns Q t i r.
Proof using Type. intros H (tx & a & ? & ? & ? & ?). exists tx, a. auto. Qed.

Lemma unwritten_held tx i : unwritten tx i -> held tx i.
Proof using Type. unfold unwritten, held. destruct (tx_phase tx); try done; lia. Qed.

Lemma unstored_unwritten tx i : unstored tx i -> unwritten tx i.
Proof using Type. unfold unstored, unwritten. destruct (tx_phase tx); try done; lia. Qed.

Lemma unstored_committed tx i : unstored tx i -> committed tx = true.
Proof using Type. unfold unstored, committed. by destruct (tx_phase tx). Qed.

Lemma unwritten_committed tx i : unwritten tx i -> committed tx = true.
Proof using Type. unfold unwritten, committed. by destruct (tx_phase tx). Qed.

(** A step of transaction [t], from [tx] to [tx'], that does not end its validation. *)
Section step.
Context (n n' : Z) (rows rows' : gmap nat (@Row_tictoc V)) (txns : gmap nat (@ttxn V)) (log : list (nat * commit V)).
Context (t : nat) (tx tx' : @ttxn V).
Notation txns' := (<[t := tx']> txns).
Context (I : inv n (mkTtSys rows txns) log) (Ht : txns !! t = Some tx).

Lemma other_at_row (P : @ttxn V -> nat -> Prop) t2 i r : t2 <> t -> at_row txns' P t2 i r <-> at_row txns P t2 i r.
Proof using Type.
  intros Hne. unfold at_row. by setoid_rewrite (lookup_insert_ne txns t t2 tx' ltac:(done)).
Qed.

Lemma own_at_row (P : @ttxn V -> nat -> Prop) i r : at_row txns' P t i r <-> exists a, P tx' i /\ twacc tx' i = Some a /\ ta_row a = r.
Proof using Type.
  unfold at_row. rewrite lookup_insert_eq. split; [intros (? & a & [= <-] & ?); by exists a|intros (a & ?); by exists tx', a].
Qed.

Lemma tx_at_row (P : @ttxn V -> nat -> Prop) i r : at_row txns P t i r <-> exists a, P tx i /\ twacc tx i = Some a /\ ta_row a = r.
Proof using Ht.
  unfold at_row. rewrite Ht. split; [intros (? & a & [= <-] & ?); by exists a|intros (a & ?); by exists tx, a].
Qed.

Context (Hn : n <= n').
(** The step may only touch rows that no other transaction has locked. *)
Context (Hother : forall r t2 i, t2 <> t -> holds txns t2 i r -> rows' !! r = rows !! r).
Context (Hdom : forall r, is_Some (rows' !! r) <-> is_Some (rows !! r)).
Context (F : forward log (torn txns) (torn txns') rows rows').
Context (Htx : tok rows' log (torn txns') tx' /\ tx_wts tx' <= n').
Context (Hrows : forall r row, rows' !! r = Some row -> row_ok n' txns' log r row).
Context (Hlocks : locks_ok rows' (holds txns')).
Context (Hcom : committed tx' = committed tx /\ (committed tx = true -> tt_commit_of tx' = tt_commit_of tx)).
Context (Hst : forall i a, unstored tx i -> twacc tx i = Some a ->
  unstored tx' i /\ twacc tx' i = Some a \/ forall row, rows' !! ta_row a = Some row -> tx_wts tx <= lease (rt_word row)).

Lemma tt_step_inv : inv n' (mkTtSys rows' txns') log.
Proof using All.
  split; cbn [tt_rows tt_txns] in *.
  - intros r. rewrite Hdom. apply (i_dom _ _ _ I).
  - done.
  - intros t2 tx2. destruct (decide (t2 = t)) as [->|Hne]; [rewrite lookup_insert_eq; by intros [= <-]|].
    rewrite lookup_insert_ne by done. intros H2. destruct (i_txns _ _ _ I t2 tx2 H2) as [T2 Hn2]. split; [|lia].
    eapply tok_fw; [exact F|exact T2|]. intros i a Hi Ha. apply (Hother _ t2 i Hne). by exists tx2, a.
  - done.
  - pose proof (i_log _ _ _ I) as G. cbn [tt_rows tt_txns] in G. split; try apply G.
    + intros t2 c. rewrite (g_txns _ _ _ G). destruct (decide (t2 = t)) as [->|Hne]; [|by rewrite lookup_insert_ne].
      rewrite lookup_insert_eq, Ht. destruct Hcom as [Hc Hcc]. split; intros (? & [= <-] & Hcm & ->).
      * exists tx'. split; [done|]. split; [congruence|]. by rewrite Hcc.
      * exists tx. split; [done|]. split; [congruence|]. rewrite Hcc; [done|congruence].
    + intros t2 d Hd r u row' Hru Hr'. assert (exists row, rows !! r = Some row) as [row Hr] by (apply Hdom; by eexists).
      destruct (F r row Hr) as (row2 & Hr2 & _ & Hle & _). assert (row2 = row') as -> by congruence.
      destruct (g_top _ _ _ G t2 d Hd r u row Hru Hr) as [|[i Hi]]; [left; lia|].
      destruct (decide (t2 = t)) as [->|Hne]; [|right; exists i; by apply other_at_row].
      apply tx_at_row in Hi as (a & Hu & Ha & <-). destruct (Hst i a Hu Ha) as [[Hu' Ha']|Hdone].
      * right. exists i. apply own_at_row. by exists a.
      * left. specialize (Hdone row' Hr'). apply (g_txns _ _ _ G) in Hd as (tx2 & E & _ & ->). rewrite Ht in E. injection E as <-. done.
Qed.
End step.

(** *** Steps before the end of the validation *)

Lemma locks_change rows (H H' : nat -> nat -> nat -> Prop) r0 row' t0 k : locks_ok rows H ->
  (forall t i r, H' t i r -> H t i r /\ r <> r0 \/ t = t0 /\ i = k /\ r = r0 /\ is_locked (rt_word row') = true) ->
  locks_ok (<[r0 := row']> rows) H'.
Proof using Type.
  intros L HH. split.
  - intros t i r row Hh Hr. destruct (HH t i r Hh) as [[Hold Hne]|(-> & -> & -> & Hl)].
    + rewrite lookup_insert_ne in Hr by done. by eapply (l_locked _ _ L).
    + rewrite lookup_insert_eq in Hr. by injection Hr as <-.
  - intros t i t' i' r H1 H2. destruct (HH _ _ _ H1) as [[O1 N1]|(-> & -> & -> & _)], (HH _ _ _ H2) as [[O2 N2]|(-> & -> & E & _)]; try done.
    by apply (l_unique _ _ L t i t' i' r).
Qed.

Lemma locks_less rows (H H' : nat -> nat -> nat -> Prop) : locks_ok rows H -> (forall t i r, H' t i r -> H t i r) -> locks_ok rows H'.
Proof using Type. intros L HH. split; intros; [eapply (l_locked _ _ L); eauto|eapply (l_unique _ _ L); eauto]. Qed.

Lemma row_ok_txns n n' txns txns' log r row : row_ok n txns log r row -> n <= n' ->
  (forall t tx i a, txns !! t = Some tx -> unwritten tx i -> twacc tx i = Some a -> ta_row a = r -> txns' !! t = Some tx) ->
  (forall t i, at_row txns' unwritten t i r -> at_row txns unwritten t i r) -> row_ok n' txns' log r row.
Proof using Type.
  intros [[Hw Hl] (old & b & tl & Hh & Ht)] Hn Hk Hb. split; [split; [done|lia]|]. exists old, b, tl. split; [done|].
  destruct Ht as [(-> & Hbw & Hno)|(t & i & tx & a & -> & Htx & Hu & Ha & Hr & Hs)].
  - left. split_and!; try done. intros t i Hi. by apply (Hno t i), Hb.
  - right. exists t, i, tx, a. split_and!; try done. by eapply Hk.
Qed.

Section before.
Context (n n' : Z) (rows : gmap nat (@Row_tictoc V)) (txns : gmap nat (@ttxn V)) (log : list (nat * commit V)).
Context (t : nat) (tx tx' : @ttxn V).
Notation txns' := (<[t := tx']> txns).
Context (I : inv n (mkTtSys rows txns) log) (Ht : txns !! t = Some tx) (Hn : n <= n').
Context (Hc : committed tx = false) (Hc' : committed tx' = false).

Lemma before_none (P : @ttxn V -> nat -> Prop) x i r : (forall x i, P x i -> committed x = true) -> committed x = false ->
  forall txs, txs !! t = Some x -> ~ at_row txs P t i r.
Proof using Type. intros HP Hx txs E (x2 & a & E2 & Hu & _). rewrite E in E2. injection E2 as <-. apply HP in Hu. congruence. Qed.

Lemma before_at_row (P : @ttxn V -> nat -> Prop) t2 i r : (forall x i, P x i -> committed x = true) ->
  at_row txns' P t2 i r <-> at_row txns P t2 i r.
Proof using Ht Hc Hc'.
  intros HP. destruct (decide (t2 = t)) as [->|Hne]; [|by apply other_at_row].
  split; intros H; exfalso; [eapply (before_none P tx')|eapply (before_none P tx)]; eauto. apply lookup_insert_eq.
Qed.

Lemma before_torn r : torn txns' r <-> torn txns r.
Proof using Ht Hc Hc'.
  unfold torn. assert (forall x i, tx_phase x = TData i -> committed x = true) as HP by (unfold committed; intros x i ->; done).
  split; intros (t2 & i & H); exists t2, i; revert H; by rewrite (before_at_row (fun x i => tx_phase x = TData i) t2 i r HP).
Qed.

Lemma before_row_ok r row : row_ok n txns log r row -> row_ok n' txns' log r row.
Proof using Ht Hc Hc' Hn.
  intros R. eapply row_ok_txns; [exact R|done| |].
  - intros t2 tx2 i a H2 Hu _ _. destruct (decide (t2 = t)) as [->|Hne]; [|by rewrite lookup_insert_ne].
    apply unwritten_committed in Hu. congruence.
  - intros t2 i H. rewrite before_at_row in H; [done|apply unwritten_committed].
Qed.

(** The rows stay as they are. *)
Lemma quiet_inv : (forall i a, held tx' i -> twacc tx' i = Some a -> held tx i /\ twacc tx i = Some a) ->
  tok rows log (torn txns) tx' -> tx_wts tx' <= n' -> inv n' (mkTtSys rows txns') log.
Proof using All.
  intros Hh T Hw. eapply (tt_step_inv n n' rows rows txns log t tx tx'); try done.
  - apply forward_refl. intros r. apply before_torn.
  - split; [|done]. eapply tok_fw; [|exact T|done]. apply forward_refl. intros r. apply before_torn.
  - intros r row Hr. apply before_row_ok. by apply (i_rows _ _ _ I).
  - eapply locks_less; [apply (i_locks _ _ _ I)|]. intros t2 i r. destruct (decide (t2 = t)) as [->|Hne]; [|by apply other_at_row].
    rewrite own_at_row, (tx_at_row txns t tx Ht). intros (a & Hi & Ha & Hr). exists a. destruct (Hh i a Hi Ha). done.
  - split; congruence.
  - intros i a Hu. apply unstored_committed in Hu. congruence.
Qed.

(** The word of one row changes. *)
Lemma word_inv r0 row w' k : rows !! r0 = Some row -> is_u64 w' -> lease w' <= n' ->
  wts_of (rt_word row) <= wts_of w' -> lease (rt_word row) <= lease w' ->
  (wts_of (rt_word row) = wts_of w' -> lease w' = lease (rt_word row) \/ is_locked (rt_word row) = false) ->
  (forall t2 i, t2 <> t -> ~ holds txns t2 i r0) ->
  (forall i a, held tx' i -> twacc tx' i = Some a -> held tx i /\ twacc tx i = Some a /\ ta_row a <> r0 \/
     i = k /\ ta_row a = r0 /\ is_locked w' = true) ->
  (forall rows', rows' = put_word r0 w' row rows -> forward log (torn txns) (torn txns) rows rows' -> tok rows' log (torn txns) tx') ->
  tx_wts tx' <= n' -> inv n' (mkTtSys (put_word r0 w' row rows) txns') log.
Proof using All.
  intros Hr Hu Hl Hw Hls Heq Hno Hh T Hwts.
  assert (forall i a r, unwritten tx i -> twacc tx i = Some a -> ta_row a = r -> False) as Hno'.
  { intros i a r Hi%unwritten_committed. congruence. }
  destruct (i_rows _ _ _ I r0 row Hr) as [[Hu0 _] (old & b & tl & Hhist & Htl)].
  assert (tl = [] /\ b <= wts_of (rt_word row)) as [-> Hb].
  { destruct Htl as [(-> & ? & _)|(t2 & i & tx2 & a & _ & H2 & Hui & Ha & Hra & _)]; [done|]. exfalso.
    destruct (decide (t2 = t)) as [->|Hne]; [cbn in H2; rewrite Ht in H2; injection H2 as ->; by eapply Hno'|].
    apply (Hno t2 i Hne). exists tx2, a. split_and!; try done. by apply unwritten_held. }
  assert (forward log (torn txns) (torn txns) rows (put_word r0 w' row rows)) as F.
  { intros r row1 Hr1. unfold put_word. destruct (decide (r = r0)) as [->|Hne].
    - rewrite lookup_insert_eq. exists (mkRow_tictoc w' (rt_row row)). assert (row1 = row) as -> by congruence. cbn [rt_word rt_row].
      split_and!; try done. intros E. split_and!; [done|by right|]. intros h Hin Hlt. destruct (Heq E) as [->|Hul]; [done|]. exfalso.
      rewrite Hhist in Hin. pose proof (g_sorted _ _ _ (i_log _ _ _ I) r0) as Hs. rewrite Hhist, map_app in Hs.
      apply StronglySorted_app in Hs as (Ho & _ & _). pose proof (wts_le_lease _ Hu0).
      apply elem_of_app in Hin as [Hin| ->%list_elem_of_singleton]; [|cbn in Hlt; lia].
      specialize (Ho h.1 b ltac:(apply list_elem_of_fmap; by exists h) ltac:(by left)). lia.
    - rewrite lookup_insert_ne by done. exists row1. split_and!; try done. intros _. split_and!; [done|by right|done]. }
  eapply (tt_step_inv n n' rows _ txns log t tx tx'); try done.
  - intros r t2 i Hne Hi. unfold put_word. apply lookup_insert_ne. intros <-. by apply (Hno t2 i Hne).
  - intros r. unfold put_word. destruct (decide (r = r0)) as [->|]; [rewrite lookup_insert_eq, Hr; split; by eexists|by rewrite lookup_insert_ne].
  - intros r row1 Hr1. destruct (F r row1 Hr1) as (row2 & H2 & ? & ? & Hx). exists row2. split_and!; try done. intros E.
    destruct (Hx E) as (? & ? & ?). split; [|done]. rewrite before_torn. done.
  - split; [|done]. eapply tok_fw; [|by apply T|done]. apply forward_refl. intros r. apply before_torn.
  - intros r row1. unfold put_word. destruct (decide (r = r0)) as [->|Hne].
    + rewrite lookup_insert_eq. intros [= <-]. split; [done|]. exists old, b, []. split; [done|]. left. cbn [rt_word].
      split_and!; [done|lia|]. intros t2 i Hi. rewrite before_at_row in Hi by apply unwritten_committed.
      destruct (decide (t2 = t)) as [->|Hne]; [apply (tx_at_row txns t tx Ht) in Hi as (a & ? & ? & ?); by eapply Hno'|].
      apply (Hno t2 i Hne). eapply at_row_impl; [|exact Hi]. intros ?; apply unwritten_held.
    + rewrite lookup_insert_ne by done. intros Hr1. apply before_row_ok. by apply (i_rows _ _ _ I).
  - unfold put_word. eapply (locks_change _ _ _ _ _ t k); [apply (i_locks _ _ _ I)|]. intros t2 i r.
    destruct (decide (t2 = t)) as [->|Hne].
    + rewrite own_at_row. cbn [tt_txns]. rewrite (tx_at_row txns t tx Ht). intros (a & Hi & Ha & <-).
      destruct (Hh i a Hi Ha) as [(? & ? & ?)|(-> & -> & ?)]; [left; split; [by exists a|done]|by right].
    + rewrite other_at_row by done. intros Hi. left. split; [done|]. intros ->. by apply (Hno t2 i Hne).
  - split; congruence.
  - intros i a Hui. apply unstored_committed in Hui. congruence.
Qed.
End before.

(** The transaction goes on with the same accesses and the same [commit_wts]. *)
Lemma tok_next rows log C tx tx' : tok rows log C tx -> tx_accs tx' = tx_accs tx -> tx_wts tx' = tx_wts tx ->
  phase_ok rows C tx' -> (chosen tx' -> chosen tx) ->
  (forall i a row, checked tx' i -> ~ checked tx i -> twacc tx i = Some a -> rows !! ta_row a = Some row -> wts_of (rt_word row) = ta_wts a) ->
  (forall i a row, topped tx' i -> ~ topped tx i -> twacc tx i = Some a -> rows !! ta_row a = Some row -> lease (rt_word row) < tx_wts tx) ->
  (forall j a, renewed tx' j -> ~ renewed tx j -> tracc tx j = Some a -> read_ok rows log (ta_row a) (tx_wts tx) (ta_read a)) ->
  (forall i, checked tx i \/ ~ checked tx i) -> (forall i, topped tx i \/ ~ topped tx i) -> (forall j, renewed tx j \/ ~ renewed tx j) ->
  tok rows log C tx'.
Proof using All.
  intros T Ea Ew Hp Hch Hc Ht Hr Dc Dt Dr.
  assert (forall i, twacc tx' i = twacc tx i) as Etw by (intros i; unfold TicToc.twacc; by rewrite Ea).
  assert (forall i, tracc tx' i = tracc tx i) as Etr by (intros i; unfold tracc; by rewrite Ea).
  split; rewrite ?Ea, ?Ew; try done.
  - apply T.
  - split; [apply T|]. intros H a Ha. apply (t_ts _ _ _ _ T); auto.
  - intros i a row H. rewrite Etw. destruct (Dc i); [by apply (t_checked _ _ _ _ T)|by apply Hc].
  - intros i a row H. rewrite Etw. destruct (Dt i); [by apply (t_top _ _ _ _ T)|by apply Ht].
  - intros j a H. rewrite Etr. destruct (Dr j); [by apply (t_read _ _ _ _ T)|by apply Hr].
Qed.

Lemma phases_decided tx : (forall i, checked tx i \/ ~ checked tx i) /\ (forall i, topped tx i \/ ~ topped tx i) /\
  (forall j, renewed tx j \/ ~ renewed tx j).
Proof using All.
  split; [|split]; intros i; unfold checked, topped, unstored, renewed; destruct (tx_phase tx); try tauto; lia.
Qed.

Section at_state.
Context (n : Z) (rows : gmap nat (@Row_tictoc V)) (txns : gmap nat (@ttxn V)) (log : list (nat * commit V)).
Context (I : inv n (mkTtSys rows txns) log).

Lemma row_word r row : rows !! r = Some row -> is_u64 (rt_word row) /\ lease (rt_word row) <= n.
Proof using I. intros Hr. apply (i_rows _ _ _ I r row Hr). Qed.

Lemma holds_locked t tx i a row : txns !! t = Some tx -> held tx i -> twacc tx i = Some a -> rows !! ta_row a = Some row ->
  is_locked (rt_word row) = true.
Proof using I. intros Ht Hi Ha Hr. eapply (l_locked _ _ (i_locks _ _ _ I)); [|exact Hr]. by apply (at_row_intro txns held t tx). Qed.

Lemma unlocked_free r row t i : rows !! r = Some row -> is_locked (rt_word row) = false -> ~ holds txns t i r.
Proof using I. intros Hr Hl Hh. pose proof (l_locked _ _ (i_locks _ _ _ I) _ _ _ _ Hh Hr). congruence. Qed.

Lemma torn_held r : torn txns r -> exists t i, holds txns t i r.
Proof using Type.
  intros (t & i & H). exists t, i. eapply at_row_impl; [|exact H]. cbn. intros tx Hp. unfold held. by rewrite Hp.
Qed.

Lemma unlocked_latest r row : rows !! r = Some row -> is_locked (rt_word row) = false ->
  ~ torn txns r /\ exists old b, hist log r = old ++ [(b, rt_row row)] /\ b <= wts_of (rt_word row).
Proof using I.
  intros Hr Hl. split; [intros (t & i & H)%torn_held; by eapply unlocked_free|].
  destruct (i_rows _ _ _ I r row Hr) as [_ (old & b & tl & Hh & [(-> & Hb & _)|(t & i & tx & a & _ & Ht & Hu & Ha & Hra & _)])].
  - by exists old, b.
  - exfalso. apply (unlocked_free r row t i Hr Hl). exists tx, a. split_and!; try done. by apply unwritten_held.
Qed.

Context (t : nat) (tx : @ttxn V) (Ht : txns !! t = Some tx) (n' : Z) (Hn : n <= n').

Lemma tt_own_tok : tok rows log (torn txns) tx /\ tx_wts tx <= n.
Proof using I Ht. by apply (i_txns _ _ _ I t). Qed.

Lemma own_unique i j a b : held tx i -> held tx j -> twacc tx i = Some a -> twacc tx j = Some b -> ta_row a = ta_row b -> i = j.
Proof using I Ht.
  intros Hi Hj Ha Hb E. destruct (l_unique _ _ (i_locks _ _ _ I) t i t j (ta_row a)); [by apply (at_row_intro txns held t tx)| |done].
  rewrite E. by apply (at_row_intro txns held t tx).
Qed.

Lemma own_other i a t2 j : held tx i -> twacc tx i = Some a -> t2 <> t -> ~ holds txns t2 j (ta_row a).
Proof using I Ht.
  intros Hi Ha Hne Hj. apply Hne. destruct (l_unique _ _ (i_locks _ _ _ I) t2 j t i (ta_row a) Hj); [|done].
  by apply (at_row_intro txns held t tx).
Qed.

Lemma acc_in_rows a : a ∈ tx_accs tx -> exists row, rows !! ta_row a = Some row.
Proof using I Ht. intros Ha. destruct tt_own_tok as [T _]. destruct (t_accs _ _ _ _ T a Ha) as (_ & _ & _ & _ & row & Hr & _). by exists row. Qed.

Notation next p := (inv n' (mkTtSys rows (<[t := set_tphase p tx]> txns)) log).

(** A step to phase [p] that changes no row. *)
Lemma phase_inv p : committed tx = false -> committed (set_tphase p tx) = false ->
  (forall i a, held (set_tphase p tx) i -> twacc tx i = Some a -> held tx i) ->
  phase_ok rows (torn txns) (set_tphase p tx) -> (chosen (set_tphase p tx) -> chosen tx) ->
  (forall i a row, checked (set_tphase p tx) i -> ~ checked tx i -> twacc tx i = Some a -> rows !! ta_row a = Some row ->
     wts_of (rt_word row) = ta_wts a) ->
  (forall i a row, topped (set_tphase p tx) i -> ~ topped tx i -> twacc tx i = Some a -> rows !! ta_row a = Some row ->
     lease (rt_word row) < tx_wts tx) ->
  (forall j a, renewed (set_tphase p tx) j -> ~ renewed tx j -> tracc tx j = Some a -> read_ok rows log (ta_row a) (tx_wts tx) (ta_read a)) ->
  next p.
Proof using All.
  intros Hc Hc' Hh Hp Hch Hck Htop Hrd. destruct tt_own_tok as [T Hw]. eapply (quiet_inv n n' rows txns log t tx); try done.
  - intros i a Hi Ha. split; [by eapply Hh|done].
  - destruct (phases_decided tx) as (? & ? & ?). by eapply (tok_next rows log _ tx).
  - cbn. lia.
Qed.

(** A step to phase [p] that releases the lock of access [i]. *)
Lemma unlock_inv p i a row : committed tx = false -> committed (set_tphase p tx) = false ->
  held tx i -> twacc tx i = Some a -> rows !! ta_row a = Some row ->
  (forall j b, held (set_tphase p tx) j -> twacc tx j = Some b -> held tx j /\ j <> i) ->
  phase_ok rows (torn txns) (set_tphase p tx) -> (chosen (set_tphase p tx) -> chosen tx) ->
  (forall i, ~ checked (set_tphase p tx) i /\ ~ topped (set_tphase p tx) i /\ ~ renewed (set_tphase p tx) i) ->
  inv n' (mkTtSys (put_word (ta_row a) (clear_lock (rt_word row)) row rows) (<[t := set_tphase p tx]> txns)) log.
Proof using All.
  intros Hc Hc' Hi Ha Hr Hh Hp Hch Hno. destruct (row_word _ _ Hr) as [Hu Hl]. destruct tt_own_tok as [T Hwts].
  destruct (clear_lock_relocked _ Hu) as (Hu' & _ & Ew & El).
  eapply (word_inv n n' rows txns log t tx _ I Ht Hn Hc Hc' _ _ _ 0%nat); try done; try lia.
  - intros t2 j Hne. by eapply own_other.
  - intros j b Hj Hb. left. destruct (Hh j b Hj Hb) as [Hj' Hne]. split_and!; try done.
    intros E. apply Hne. by eapply own_unique.
  - intros rows' Erows F. destruct (phases_decided tx) as (? & ? & ?).
    assert (tok rows log (torn txns) (set_tphase p tx)) as T'.
    { eapply (tok_next rows log _ tx); try done; intros j b; by destruct (Hno j) as (? & ? & ?). }
    eapply tok_fw; [exact F|exact T'|]. intros j b Hj Hb. rewrite Erows. unfold put_word. apply lookup_insert_ne. intros E.
    destruct (Hh j b Hj Hb) as [Hj' Hne]. apply Hne. symmetry. by eapply own_unique.
  - cbn. lia.
Qed.
End at_state.

(** *** Locking the write set *)

Context (Hspin : pre_abort = true \/ bounded = false).

Ltac phases Hp := unfold committed, held, checked, topped, unstored, renewed, chosen, phase_ok; cbn [tx_phase set_tphase]; rewrite ?Hp.

Section locking.
Context (n n' : Z) (rows : gmap nat (@Row_tictoc V)) (txns : gmap nat (@ttxn V)) (log : list (nat * commit V)).
Context (I : inv n (mkTtSys rows txns) log) (t : nat) (tx : @ttxn V) (Ht : txns !! t = Some tx) (Hn : n <= n').
Notation next rows' p := (inv n' (mkTtSys rows' (<[t := set_tphase p tx]> txns)) log).

(** A row is locked by a compare-and-swap. *)
Lemma try_inv i a row : tx_phase tx = TTry i -> twacc tx i = Some a -> rows !! ta_row a = Some row ->
  is_locked (rt_word row) = false -> next (put_word (ta_row a) (set_lock (rt_word row)) row rows) (TCheck i).
Proof using All.
  intros Hp Ha Hr Hl. destruct (row_word _ _ _ _ I _ _ Hr) as [Hu Hle]. destruct (tt_own_tok _ _ _ _ I t tx Ht) as [T Hwts].
  destruct (set_lock_relocked _ Hu Hl) as (Hu' & Hl' & Ew & El).
  assert (forall j b, held tx j -> twacc tx j = Some b -> ta_row b <> ta_row a) as Hfree.
  { intros j b Hj Hb E. apply (unlocked_free _ _ _ _ I _ _ t j Hr Hl). rewrite <- E. by apply (at_row_intro txns held t tx). }
  eapply (word_inv n n' rows txns log t tx _ I Ht Hn _ _ _ _ _ i); try done; try lia.
  - intros t2 j _. by eapply unlocked_free.
  - intros j b Hj Hb. assert ((j < i)%nat \/ j = i) as [Hlt| ->] by (revert Hj; phases Hp; lia).
    + left. assert (held tx j) as Hj' by (by phases Hp). split_and!; try done. by eapply Hfree.
    + right. split; [done|]. split; [|done]. change (twacc (set_tphase _ tx) i) with (twacc tx i) in Hb. congruence.
  - intros rows' Erows F.
    assert (tok rows' log (torn txns) tx) as T'.
    { eapply tok_fw; [exact F|exact T|]. intros j b Hj Hb. rewrite Erows. apply lookup_insert_ne. intros E. by eapply Hfree. }
    destruct (phases_decided tx) as (? & ? & ?). eapply (tok_next rows' log _ tx); try done.
    + by phases Hp.
    + intros j b row2. phases Hp. done.
  - cbn. lia.
Unshelve.
  all: by phases Hp.
Qed.

Lemma lock_inv sp rows' p : exec_lock primary_key pre_abort true bounded rows tx sp = Some (rows', p) -> next rows' p.
Proof using All.
  unfold exec_lock. destruct (tt_own_tok _ _ _ _ I t tx Ht) as [T Hwts]. pose proof (t_phase _ _ _ _ T) as P.
  destruct (tx_phase tx) as [| | | |i spin|i|i|i m|m|i|i|i|i|i wts rts rb v v2|i|i|i|i m|rc] eqn:Hp; try done.
  - (* TPre *) intros H. assert (rows' = rows /\ (p = TSpin 0 \/ p = TTry 0 \/ p = TAbort 0 0 \/ p = TPre (S i) spin)) as [-> Hcase].
    { destruct (i =? _)%nat; [injection H as <- <-; destruct spin; tauto|].
      destruct (if (i <? _)%nat then _ else _) as [a|]; [|done]. cbn in H. destruct (rows !! ta_row a) as [row|]; [|done]. cbn in H.
      injection H as <- <-. destruct (pre_fails _ _ _); tauto. }
    destruct Hcase as [->|[->|[->| ->]]]; eapply phase_inv; try done; try (by phases Hp); try (phases Hp; intros; lia).
  - (* TTry *) destruct (i =? wr_cnt tx)%nat eqn:Hi; b2p.
    + intros [= <- <-]. eapply phase_inv; try done; phases Hp; try done.
      * intros j a _ (_ & Hj & _)%twacc_Some. lia.
      * intros j a row _ Hj (_ & Hlt & _)%twacc_Some. exfalso. lia.
      * intros; lia.
    + destruct (twacc tx i) as [a|] eqn:Ha; [|done]. cbn. destruct (rows !! ta_row a) as [row|] eqn:Hr; [|done]. cbn.
      destruct (is_locked (rt_word row) || sp) eqn:Hl; intros [= <- <-].
      * eapply phase_inv; try done; phases Hp; try done; try lia.
      * apply orb_false_iff in Hl as [Hl _]. by apply try_inv.
  - (* TCheck *) destruct (twacc tx i) as [a|] eqn:Ha; [|done]. cbn. destruct (rows !! ta_row a) as [row|] eqn:Hr; [|done]. cbn.
    destruct (Z.eqb_spec (get_wts (rt_word row)) (ta_wts a)) as [E|]; cbn; intros [= <- <-].
    + eapply phase_inv; try done; phases Hp; try done; try lia. intros j b row2 H1 H2 Hb Hr2. assert (j = i) as -> by lia.
      assert (b = a) as -> by congruence. assert (row2 = row) as -> by congruence. exact E.
    + eapply phase_inv; try done; phases Hp; try done; try lia.
  - (* TUndo *) unfold phase_ok in P. rewrite Hp in P. destruct (i =? m)%nat eqn:Hi; b2p.
    + intros [= <- <-]. destruct pre_abort eqn:Hpre; eapply phase_inv; try done; phases Hp; try done.
      destruct Hspin as [|Hb]; [done|by right].
    + destruct (twacc tx i) as [a|] eqn:Ha; [|done]. cbn. destruct (rows !! ta_row a) as [row|] eqn:Hr; [|done]. cbn.
      intros [= <- <-]. eapply (unlock_inv n rows txns log I t tx Ht n' Hn _ i); try done; phases Hp; try done; try lia.
  - (* TSpin *) intros [= <- <-]. eapply phase_inv; try done; phases Hp; try done; intros; lia.
  - unfold phase_ok in P. by rewrite Hp in P.
  - unfold phase_ok in P. by rewrite Hp in P.
Qed.

Lemma give_up_inv m : tx_phase tx = TSpin m -> bounded = true -> next rows (TAbort 0 m).
Proof using All.
  intros Hp Hb. destruct (tt_own_tok _ _ _ _ I t tx Ht) as [T _]. pose proof (t_phase _ _ _ _ T) as P. unfold phase_ok in P. rewrite Hp in P.
  destruct P as [->|]; [|congruence]. eapply phase_inv; try done; phases Hp; try done; intros; lia.
Qed.
End locking.

(** *** Before the validation *)

Section running.
Context (n n' : Z) (rows : gmap nat (@Row_tictoc V)) (txns : gmap nat (@ttxn V)) (log : list (nat * commit V)).
Context (I : inv n (mkTtSys rows txns) log) (t : nat) (tx : @ttxn V) (Ht : txns !! t = Some tx) (Hn : n <= n').
Notation next tx' := (inv n' (mkTtSys rows (<[t := tx']> txns)) log).


(** A transaction before its validation holds nothing. *)
Lemma running_inv tx' : ~ chosen tx -> ~ chosen tx' ->
  (forall a, a ∈ tx_accs tx' -> rd_or_wr (ta_type a) /\ lease_ok rows log (ta_row a) (ta_wts a) (ta_rts a) (ta_read a)) ->
  phase_ok rows (torn txns) tx' -> tx_wts tx' = tx_wts tx -> next tx'.
Proof using All.
  intros Hc Hc' Ha Hp Hw. destruct (tt_own_tok _ _ _ _ I t tx Ht) as [T Hwts].
  assert (forall x, ~ chosen x -> committed x = false) as Hcm.
  { intros x. unfold chosen, committed. by destruct (tx_phase x). }
  assert (forall x i, ~ chosen x -> ~ held x i /\ ~ checked x i /\ ~ topped x i /\ ~ renewed x i) as Hno.
  { intros x i. unfold chosen, held, checked, topped, unstored, renewed. destruct (tx_phase x); tauto. }
  eapply (quiet_inv n n' rows txns log t tx); try done; auto.
  - intros i a Hi. by destruct (Hno tx' i Hc').
  - split; try done.
    + rewrite Hw. split; [apply T|done].
    + intros i a row Hi. by destruct (Hno tx' i Hc') as (_ & ? & _).
    + intros i a row Hi. by destruct (Hno tx' i Hc') as (_ & _ & ? & _).
    + intros i a Hi. by destruct (Hno tx' i Hc') as (_ & _ & _ & ?).
  - rewrite Hw. lia.
Qed.

Lemma begin_access_inv type r : tx_phase tx = TRun -> rd_or_wr type -> next (set_tphase (TLoad type r) tx).
Proof using All.
  intros Hp Hty. destruct (tt_own_tok _ _ _ _ I t tx Ht) as [T Hwts]. apply running_inv; try done; try (phases Hp; tauto). apply T.
Qed.

Lemma modify_inv i d : tx_phase tx = TRun ->
  next (mkTtxn (alter (new_tdata d) i (tx_accs tx)) (tx_wts tx) (tx_max tx) TRun).
Proof using All.
  intros Hp. destruct (tt_own_tok _ _ _ _ I t tx Ht) as [T Hwts]. apply running_inv; try done; try (phases Hp; tauto).
  cbn. intros a (j & Hj)%list_elem_of_lookup. rewrite list_lookup_alter in Hj. case_decide.
  - apply fmap_Some in Hj as (b & Hb & ->). apply (t_accs _ _ _ _ T b). by eapply list_elem_of_lookup_2.
  - apply (t_accs _ _ _ _ T a). by eapply list_elem_of_lookup_2.
Qed.

Lemma load_inv type r row : tx_phase tx = TLoad type r -> rows !! r = Some row -> is_locked (rt_word row) = false ->
  next (set_tphase (TCopy type r (rt_word row)) tx).
Proof using All.
  intros Hp Hr Hl. destruct (tt_own_tok _ _ _ _ I t tx Ht) as [T Hwts]. pose proof (t_phase _ _ _ _ T) as P. unfold phase_ok in P. rewrite Hp in P.
  apply running_inv; try done; try (phases Hp; tauto); [apply T|]. phases Hp. split; [done|]. exists row.
  destruct (row_word _ _ _ _ I _ _ Hr) as [Hu _]. split_and!; try done. intros _. destruct (unlocked_latest _ _ _ _ I _ _ Hr Hl). done.
Qed.

Lemma copy_inv type r v row : tx_phase tx = TCopy type r v -> rows !! r = Some row ->
  next (set_tphase (TReload type r v (rt_row row)) tx).
Proof using All.
  intros Hp Hr. destruct (tt_own_tok _ _ _ _ I t tx Ht) as [T Hwts]. pose proof (t_phase _ _ _ _ T) as P. unfold phase_ok in P. rewrite Hp in P.
  destruct P as (Hty & row2 & Hr2 & Hv & Hl & Hw & Heq). assert (row2 = row) as -> by congruence.
  apply running_inv; try done; try (phases Hp; tauto); [apply T|]. phases Hp. split; [done|]. exists row. split_and!; try done.
  intros E. destruct (Heq E) as (? & ? & _). done.
Qed.

Lemma reload_inv type r v d row : tx_phase tx = TReload type r v d -> rows !! r = Some row ->
  Z.lor (rt_word row) RTS_MASK = Z.lor v RTS_MASK ->
  next (mkTtxn (tx_accs tx ++ [new_access type r v d]) (tx_wts tx) (tx_max tx) TRun).
Proof using All.
  intros Hp Hr E. destruct (tt_own_tok _ _ _ _ I t tx Ht) as [T Hwts]. pose proof (t_phase _ _ _ _ T) as P. unfold phase_ok in P. rewrite Hp in P.
  destruct P as (Hty & row2 & Hr2 & Hv & Hl & Hw & Heq). assert (row2 = row) as -> by congruence. clear Hr2.
  destruct (same_version _ _ E) as [El Ew]. destruct Heq as (_ & Hle & <-); [done|]. rewrite Hl in El.
  destruct (unlocked_latest _ _ _ _ I _ _ Hr El) as [_ (old & b & Hh & Hb)]. pose proof (word_range v Hv) as [_ Hrange].
  apply running_inv; try done; try (phases Hp; tauto). cbn [tx_accs]. intros a [Ha| ->%list_elem_of_singleton]%elem_of_app; [by apply T|].
  split; [done|]. unfold new_access. cbn. rewrite u64_lease by done. exists old, b, [], row. pose proof (wts_le_lease v Hv).
  split_and!; try done; lia.
Qed.

(** The choice of [commit_wts]. *)
Lemma commit_ts_spec (accs : list (@tacc V)) (N cr cw : Z) : N + 1 < 2 ^ 64 -> 0 <= cr <= N + 1 -> 0 <= cw <= N + 1 ->
  (forall a, a ∈ accs -> 0 <= ta_wts a <= N /\ 0 <= ta_rts a <= N) ->
  let c := commit_ts accs cr cw in
  cr <= c.1 <= N + 1 /\ cw <= c.2 <= N + 1 /\
  forall a, a ∈ accs -> (ta_type a = RD -> ta_wts a <= c.1) /\ (ta_type a = WR -> ta_rts a < c.2).
Proof using Type.
  clear Hspin I Ht Hn. intros HN. revert cr cw. induction accs as [|a accs IH]; intros cr cw Hr Hw Hb; cbn [commit_ts].
  { cbn. split_and!; try lia. intros a Ha. by apply not_elem_of_nil in Ha. }
  destruct (Hb a ltac:(by left)) as [Hx Hy]. rewrite (u64_small (ta_rts a + 1)) by (unfold is_u64; lia).
  assert (forall a, a ∈ accs -> 0 <= ta_wts a <= N /\ 0 <= ta_rts a <= N) as Hb' by (intros b ?; apply Hb; by right).
  destruct (bool_decide (ta_type a = RD) && (cr <? ta_wts a)) eqn:E1; [|destruct (bool_decide (ta_type a = WR) && (cw <? ta_rts a + 1)) eqn:E2].
  - b2p. destruct (IH (ta_wts a) cw) as (H1 & H2 & H3); try lia; [done|]. split_and!; try lia.
    intros b [->|Hin]%elem_of_cons; [|by apply H3]. split; [lia|congruence].
  - b2p. destruct (IH cr (ta_rts a + 1)) as (H1 & H2 & H3); try lia; [done|]. split_and!; try lia.
    intros b [->|Hin]%elem_of_cons; [|by apply H3]. split; [congruence|lia].
  - destruct (IH cr cw) as (H1 & H2 & H3); try lia; [done|]. split_and!; try lia.
    intros b [->|Hin]%elem_of_cons; [|by apply H3]. split; intros Ety.
    + rewrite bool_decide_eq_true_2 in E1 by done. cbn in E1. b2p. lia.
    + rewrite (bool_decide_eq_true_2 (ta_type a = WR)) in E2 by done. cbn in E2. b2p. lia.
Qed.

Lemma finish_inv : tx_phase tx = TRun -> n + 1 <= n' -> n' < 2 ^ 48 ->
  next (mkTtxn (tx_accs tx) (commit_wts_of (tx_accs tx)) (tx_max tx) (if pre_abort then TPre 0 false else TTry 0)).
Proof using All.
  intros Hp Hn1 Hlim. destruct (tt_own_tok _ _ _ _ I t tx Ht) as [T Hwts].
  assert (forall a, a ∈ tx_accs tx -> 0 <= ta_wts a <= n /\ 0 <= ta_rts a <= n) as Hb.
  { intros a Ha. destruct (t_accs _ _ _ _ T a Ha) as (_ & old & b & new & row & Hr & _ & _ & Hxy & _ & Hx & Hy & _).
    destruct (row_word _ _ _ _ I _ _ Hr) as [Hu Hl]. pose proof (wts_le_lease _ Hu). lia. }
  assert (0 <= n) as Hn0 by (pose proof (t_ts _ _ _ _ T); lia).
  pose proof (commit_ts_spec (tx_accs tx) n 0 0 ltac:(lia) ltac:(lia) ltac:(lia) Hb) as Hc. cbn zeta in Hc.
  set (tx' := mkTtxn _ _ _ _).
  assert (0 <= tx_wts tx' <= n + 1 /\ forall a, a ∈ tx_accs tx -> (ta_type a = RD -> ta_wts a <= tx_wts tx') /\ (ta_type a = WR -> ta_rts a < tx_wts tx')) as [Hw Hts].
  { subst tx'. cbn [tx_wts]. unfold commit_wts_of. destruct (commit_ts (tx_accs tx) 0 0) as [cr cw]. cbn in Hc. destruct Hc as (H1 & H2 & H3).
    split; [destruct (Z.ltb_spec cw cr); lia|]. intros a Ha. destruct (H3 a Ha) as [Hrd Hwr].
    split; intros E; [specialize (Hrd E)|specialize (Hwr E)]; destruct (Z.ltb_spec cw cr); lia. }
  assert (tx_phase tx' = TPre 0 false \/ tx_phase tx' = TTry 0) as Hp' by (subst tx'; cbn; destruct pre_abort; tauto).
  eapply (quiet_inv n n' rows txns log t tx); try done; try lia.
  - by phases Hp.
  - unfold committed. by destruct Hp' as [-> | ->].
  - intros i a Hi. exfalso. revert Hi. unfold held. destruct Hp' as [-> | ->]; lia.
  - split.
    + apply T.
    + unfold phase_ok. by destruct Hp' as [-> | ->].
    + split; [lia|]. intros _. apply Hts.
    + intros i a row Hi. exfalso. revert Hi. unfold checked. destruct Hp' as [-> | ->]; lia.
    + intros i a row Hi. exfalso. revert Hi. unfold topped, unstored. destruct Hp' as [-> | ->]; lia.
    + intros i a Hi. exfalso. revert Hi. unfold renewed. destruct Hp' as [-> | ->]; lia.
Qed.
End running.

(** *** Validation *)

Section validating.
Context (n n' : Z) (rows : gmap nat (@Row_tictoc V)) (txns : gmap nat (@ttxn V)) (log : list (nat * commit V)).
Context (I : inv n (mkTtSys rows txns) log) (t : nat) (tx : @ttxn V) (Ht : txns !! t = Some tx).
Context (Hn : n <= n') (Hlim : n' < 2 ^ 48).
Notation next rows' tx' := (inv n' (mkTtSys rows' (<[t := tx']> txns)) log).

(** [commit_wts] is raised above the lease of a row of the write set. *)
Lemma rts_inv i tx' : tx_phase tx = TRts i -> n + 1 <= n' -> exec_rts primary_key true bounded rows tx i = Some tx' -> next rows tx'.
Proof using All.
  intros Hp Hn1. unfold exec_rts. destruct (tt_own_tok _ _ _ _ I t tx Ht) as [T Hwts]. destruct (i =? wr_cnt tx)%nat eqn:Hi; b2p.
  { intros [= <-]. eapply phase_inv; try done; phases Hp; try done.
    - intros j a row _ Hj (_ & Hlt & _)%twacc_Some. exfalso. lia.
    - intros; lia. }
  destruct (twacc tx i) as [a|] eqn:Ha; [|done]. cbn. destruct (rows !! ta_row a) as [row|] eqn:Hr; [|done]. cbn.
  destruct (row_word _ _ _ _ I _ _ Hr) as [Hu Hl]. rewrite get_rts_lease by done.
  pose proof (word_range _ Hu). rewrite u64_small by (unfold is_u64, lease in *; lia).
  set (c := if tx_wts tx <? _ then _ else _). assert (tx_wts tx <= c <= n + 1 /\ lease (rt_word row) < c) as [Hc Hlc].
  { subst c. destruct (Z.ltb_spec (tx_wts tx) (lease (rt_word row) + 1)); lia. }
  clearbody c. intros [= <-]. destruct (t_ts _ _ _ _ T) as [H0 Hts]. unfold chosen in Hts. rewrite Hp in Hts. specialize (Hts Logic.I).
  eapply (quiet_inv n n' rows txns log t tx); try done; try (by phases Hp).
  - split; cbn [tx_accs tx_wts].
    + apply T.
    + done.
    + split; [lia|]. intros _ b Hb. destruct (Hts b Hb) as [Hrd Hwr]. split; intros E; [specialize (Hrd E)|specialize (Hwr E)]; lia.
    + intros j b row2 _ Hb. apply (t_checked _ _ _ _ T j b); [by phases Hp|done].
    + intros j b row2. unfold topped. cbn [tx_phase]. intros Hj Hb Hr2. destruct (decide (j = i)) as [->|Hne].
      * assert (b = a) as -> by (change (twacc tx i = Some b) in Hb; congruence). congruence.
      * assert (lease (rt_word row2) < tx_wts tx); [|lia]. apply (t_top _ _ _ _ T j b); [phases Hp; lia|done|done].
    + intros j b Hj. exfalso. exact Hj.
  - cbn. lia.
Qed.

Lemma read_acc j a : tracc tx j = Some a -> chosen tx -> exists row, rows !! ta_row a = Some row /\ is_u64 (rt_word row) /\
  0 <= ta_wts a <= tx_wts tx /\ lease_ok rows log (ta_row a) (ta_wts a) (ta_rts a) (ta_read a) /\ tx_wts tx <= n.
Proof using All.
  intros (Hw & _ & Ha)%tracc_Some Hc. destruct (tt_own_tok _ _ _ _ I t tx Ht) as [T Hwts].
  destruct (t_accs _ _ _ _ T a Ha) as [Hty L]. pose proof L as (old & b & new & row & Hr & _ & _ & Hxy & _).
  exists row. destruct (row_word _ _ _ _ I _ _ Hr) as [Hu _]. split_and!; try done; try lia.
  destruct (t_ts _ _ _ _ T) as [_ Hts]. apply (Hts Hc a Ha). destruct Hty as [|E]; [done|].
  unfold ta_is_wr in Hw. by rewrite bool_decide_eq_true_2 in Hw.
Qed.

(** The version that was read is valid until [c]. *)
Lemma lease_read r x y u row c : rows !! r = Some row -> lease_ok rows log r x y u -> x <= c ->
  c <= y \/ wts_of (rt_word row) = x /\ c <= lease (rt_word row) -> read_ok rows log r c u.
Proof using Type.
  clear Hspin. intros Hr (old & b & new & row2 & Hr2 & Hh & Hb & Hxy & Hnew & Hx & Hy & Heq) Hxc Hc. assert (row2 = row) as -> by congruence.
  exists old, b, new, row. rewrite Forall_forall in Hnew. destruct Hc as [Hc|[E Hc]].
  - split_and!; try done; try lia. apply Forall_forall. intros h Hin. specialize (Hnew h Hin). lia.
  - split_and!; try done; try lia. specialize (Heq (eq_sym E)). rewrite Forall_forall in Heq. apply Forall_forall.
    intros h Hin. specialize (Heq h Hin). lia.
Qed.

(** What was read of the version in the word is the latest version, when no validated
    transaction is about to write the row. *)
Lemma no_later r row y u : rows !! r = Some row -> (forall t i, ~ at_row txns unwritten t i r) ->
  lease_ok rows log r (wts_of (rt_word row)) y u ->
  exists old b, hist log r = old ++ [(b, u)] /\ b <= wts_of (rt_word row).
Proof using I.
  clear Hspin Hn Hlim Ht. intros Hr Hno (old & b & new & row2 & Hr2 & Hh & Hb & _ & _ & _ & _ & Heq). assert (row2 = row) as -> by congruence.
  specialize (Heq eq_refl). exists old, b. split; [|done]. rewrite Hh. do 2 f_equal.
  destruct (row_word _ _ _ _ I _ _ Hr) as [Hu _]. pose proof (wts_le_lease _ Hu) as Hwl.
  destruct (i_rows _ _ _ I r row Hr) as [_ (old' & b' & tl & Hh' & [(-> & Hb' & _)|(t2 & i & tx2 & a & _ & H2 & Hui & Ha & Hra & _)])].
  2:{ exfalso. apply (Hno t2 i). by exists tx2, a. }
  destruct new as [|h new _] using rev_ind; [done|]. exfalso.
  rewrite Hh, app_comm_cons, app_assoc in Hh'. apply app_inj_tail in Hh' as [_ ->]. apply Forall_app in Heq as [_ Heq].
  apply Forall_cons in Heq as [Heq _]. cbn in Heq. lia.
Qed.

(** [try_renew] on access [j] of the read set has come to [rn] and changed nothing. *)
Lemma renew_step j a rn : tracc tx j = Some a -> (tx_phase tx = TRead j \/ exists wts rts rb v v2, tx_phase tx = TRenew j wts rts rb v v2) ->
  (rn = RenewDone true -> forall row, rows !! ta_row a = Some row -> wts_of (rt_word row) = ta_wts a /\ tx_wts tx <= lease (rt_word row)) ->
  (forall wts rts rb v v2, rn = RenewCas wts rts rb v v2 -> renewing (ta_wts a) (tx_wts tx) wts rts rb v v2) ->
  next rows (set_tphase (renew_phase primary_key true bounded j tx rn) tx).
Proof using All.
  intros Ha Hp Hdone Hcas.
  assert (chosen tx /\ committed tx = false /\ (forall i, held tx i /\ checked tx i /\ topped tx i) /\ forall k, renewed tx k <-> (k < j)%nat) as (Hch & Hcm & Hall & Hren).
  { unfold chosen, committed, held, checked, topped, renewed. destruct Hp as [-> |(? & ? & ? & ? & ? & ->)]; tauto. }
  destruct (read_acc j a Ha Hch) as (row & Hr & Hu & Hx & L & Hwts).
  eapply phase_inv; try done.
  - unfold committed. destruct rn as [[]|]; done.
  - intros i b _ _. apply Hall.
  - unfold phase_ok. destruct rn as [[]|wts rts rb v v2]; cbn; [done|lia|]. exists a. split; [done|by apply Hcas].
  - intros i b row2 _ []. apply Hall.
  - intros i b row2 _ []. apply Hall.
  - intros k b Hk Hnk Hb. rewrite Hren in Hnk. unfold renewed in Hk. destruct rn as [[]|]; cbn in Hk; try done; try lia.
    assert (k = j) as -> by lia. assert (b = a) as -> by congruence. eapply lease_read; [exact Hr|exact L|lia|]. right. by apply Hdone.
Qed.

Lemma read_inv j a rows' tx' sp : tx_phase tx = TRead j -> j <> rd_cnt tx -> tracc tx j = Some a ->
  exec_read primary_key true bounded rows tx sp = Some (rows', tx') -> next rows' tx'.
Proof using All.
  intros Hp Hj Ha. unfold exec_read. rewrite Hp, Ha. destruct (Nat.eqb_spec j (rd_cnt tx)) as [|_]; [done|]. cbn.
  assert (chosen tx) as Hch by (by phases Hp). destruct (read_acc j a Ha Hch) as (row & Hr & Hu & Hx & L & Hwts).
  destruct (Z.ltb_spec (ta_rts a) (tx_wts tx)) as [Hlt|Hge].
  - rewrite Hr. cbn. intros [= <- <-]. apply (renew_step j a); [done|by left| |].
    + intros E row2 Hr2. assert (row2 = row) as -> by congruence. apply renew_load_done; try done; lia.
    + intros wts rts rb v v2 E. by apply renew_load_cas in E as (? & _); [|done|lia|lia].
  - intros [= <- <-]. eapply phase_inv; try done; phases Hp; try done; try lia.
    intros k b Hk Hnk Hb. assert (k = j) as -> by lia. assert (b = a) as -> by congruence.
    eapply lease_read; [exact Hr|exact L|lia|by left].
Qed.

Lemma put_same r row : rows !! r = Some row -> put_word r (rt_word row) row rows = rows.
Proof using Type. intros Hr. unfold put_word. destruct row. by rewrite insert_id. Qed.

(** The compare-and-swap of [try_renew]; it does not shorten the lease. *)
Lemma renew_inv j wts rts rb v v2 rows' tx' sp : tx_phase tx = TRenew j wts rts rb v v2 ->
  exec_read primary_key true bounded rows tx sp = Some (rows', tx') ->
  (forall r row row', rows !! r = Some row -> rows' !! r = Some row' -> get_rts (rt_word row) <= get_rts (rt_word row')) -> next rows' tx'.
Proof using All.
  intros Hp. unfold exec_read. rewrite Hp. destruct (tt_own_tok _ _ _ _ I t tx Ht) as [T Hwts]. pose proof (t_phase _ _ _ _ T) as P.
  unfold phase_ok in P. rewrite Hp in P. destruct P as (a & Ha & Hren). rewrite Ha. cbn.
  assert (chosen tx) as Hch by (by phases Hp). destruct (read_acc j a Ha Hch) as (row & Hr & Hu & Hx & L & _). rewrite Hr. cbn.
  destruct (renew_cas sp wts rts rb v v2 (rt_word row)) as [rn w'] eqn:E. intros [= <- <-] Hgrow.
  destruct (renew_cas_cases _ _ _ _ _ _ _ _ _ _ _ Hren Hu E) as [(-> & Ew & ->)|(-> & Hdone & Hcas)].
  2:{ rewrite put_same by done. apply (renew_step j a); [done|right; by eexists _, _, _, _, _| |done].
      intros -> row2 Hr2. assert (row2 = row) as -> by congruence. by apply Hdone. }
  destruct Hren as (_ & -> & _ & Hl & Hxv & Hu2 & Hl2 & Hc & Hx2). rewrite <- Ew in Hl, Hxv.
  specialize (Hgrow (ta_row a) row (mkRow_tictoc v2 (rt_row row)) Hr ltac:(apply lookup_insert_eq)). cbn [rt_word] in Hgrow. rewrite !get_rts_lease in Hgrow by done.
  cbn [renew_phase]. eapply (word_inv n n' rows txns log t tx _ I Ht Hn _ _ _ _ _ 0%nat); try done; try lia; try (by phases Hp).
  - intros t2 i Hne. by eapply unlocked_free.
  - intros i b Hi Hb. left. assert (held tx i) as Hi' by (by phases Hp). split_and!; try done.
    intros E2. apply (unlocked_free _ _ _ _ I _ _ t i Hr Hl). rewrite <- E2. by apply (at_row_intro txns held t tx).
  - intros rows' Erows F. assert (tok rows' log (torn txns) tx) as T'.
    { eapply tok_fw; [exact F|exact T|]. intros i b Hi Hb. rewrite Erows. apply lookup_insert_ne. intros E2.
      apply (unlocked_free _ _ _ _ I _ _ t i Hr Hl). rewrite E2. by apply (at_row_intro txns held t tx). }
    destruct (phases_decided tx) as (? & ? & ?). eapply (tok_next rows' log _ tx); try done; try (by phases Hp).
    intros k b. phases Hp. intros Hk Hnk Hb. assert (k = j) as -> by lia. assert (b = a) as -> by congruence.
    destruct (no_later (ta_row a) row (ta_rts a) (ta_read a) Hr) as (old & b0 & Hh & Hb0).
    { intros t2 i Hi. apply (unlocked_free _ _ _ _ I _ _ t2 i Hr Hl). eapply at_row_impl; [|exact Hi]. intros ?; apply unwritten_held. }
    { by rewrite Hxv. }
    exists old, b0, [], (mkRow_tictoc v2 (rt_row row)). rewrite Erows. split_and!; try done; [apply lookup_insert_eq|lia|cbn; lia].
  - cbn. lia.
Unshelve.
  all: by phases Hp.
Qed.
End validating.

Lemma abort_inv n n' rows txns log t tx i m rows' p : inv n (mkTtSys rows txns) log -> txns !! t = Some tx -> n <= n' ->
  tx_phase tx = TAbort i m -> exec_write primary_key true bounded rows tx = Some (rows', p) ->
  inv n' (mkTtSys rows' (<[t := set_tphase p tx]> txns)) log.
Proof using All.
  intros I Ht Hn Hp. unfold exec_write. rewrite Hp. destruct (tt_own_tok _ _ _ _ I t tx Ht) as [T _].
  pose proof (t_phase _ _ _ _ T) as P. unfold phase_ok in P. rewrite Hp in P.
  destruct (i =? m)%nat eqn:Hi; b2p.
  - intros [= <- <-]. eapply phase_inv; try done; phases Hp; done.
  - destruct (twacc tx i) as [a|] eqn:Ha; [|done]. cbn. destruct (rows !! ta_row a) as [row|] eqn:Hr; [|done]. cbn.
    intros [= <- <-]. eapply (unlock_inv n rows txns log I t tx Ht n' Hn _ i); try done; phases Hp; try done; try lia.
Qed.

(** *** The end of the validation *)

Definition row_writes (r : nat) (accs : list (@tacc V)) : list (nat * V) :=
  filter (fun w => w.1 = r) (map (fun a => (ta_row a, ta_data a)) (List.filter ta_is_wr accs)).

Lemma row_writes_app r l1 l2 : row_writes r (l1 ++ l2) = row_writes r l1 ++ row_writes r l2.
Proof using Type. unfold row_writes. by rewrite List.filter_app, map_app, filter_app. Qed.

Lemma row_writes_none r accs : (forall a, a ∈ accs -> ta_type a = WR -> ta_row a <> r) -> row_writes r accs = [].
Proof using Type.
  induction accs as [|a accs IH]; [done|]. intros H. change (a :: accs) with ([a] ++ accs). rewrite row_writes_app, IH.
  - rewrite app_nil_r. unfold row_writes. cbn. unfold ta_is_wr. case_bool_decide as E; [|done]. cbn.
    rewrite decide_False; [done|]. apply H; [by left|done].
  - intros b Hb. apply H. by right.
Qed.

Lemma row_writes_one accs j a : accs !! j = Some a -> ta_type a = WR ->
  (forall k b, accs !! k = Some b -> ta_type b = WR -> ta_row b = ta_row a -> k = j) ->
  row_writes (ta_row a) accs = [(ta_row a, ta_data a)].
Proof using Type.
  clear Hspin. intros Hj Hw Hu. destruct (list_elem_of_split_length _ _ _ Hj) as (l1 & l2 & -> & Hlen).
  assert (forall b k, (l1 ++ a :: l2) !! k = Some b -> k <> j -> ta_type b = WR -> ta_row b <> ta_row a) as Hother.
  { intros b k Hk Hne Hb E. apply Hne. by apply (Hu k b). }
  change (a :: l2) with ([a] ++ l2). rewrite !row_writes_app, (row_writes_none _ l1), (row_writes_none _ l2).
  - unfold row_writes. cbn. unfold ta_is_wr. rewrite bool_decide_eq_true_2 by done. cbn. by rewrite decide_True.
  - intros b (k & Hk)%list_elem_of_lookup. apply (Hother b (length l1 + S k)%nat); [|lia].
    rewrite lookup_app_r by lia. by replace (length l1 + S k - length l1)%nat with (S k) by lia.
  - intros b (k & Hk)%list_elem_of_lookup. pose proof (lookup_lt_Some _ _ _ Hk).
    apply (Hother b k); [|lia]. by rewrite lookup_app_l by lia.
Qed.

(** The log gets an entry that writes rows only after their leases. *)
Lemma tok_log rows log C tx e : tok rows log C tx ->
  (forall r row h, rows !! r = Some row -> h ∈ writes_in r [e.2] -> lease (rt_word row) < h.1) -> tok rows (log ++ [e]) C tx.
Proof using All.
  clear Hspin. intros T Hw.
  assert (forall r, is_Some (db0 !! r) -> hist (log ++ [e]) r = hist log r ++ writes_in r [e.2]) as Hh.
  { intros r Hdb. by apply (hist_app r log [e]). }
  split; try apply T.
  - intros a Ha. destruct (t_accs _ _ _ _ T a Ha) as (Hty & old & b & new & row & Hr & Hhist & Hb & Hxy & Hn & Hx & Hy & Heq).
    split; [done|]. exists old, b, (new ++ writes_in (ta_row a) [e.2]), row.
    rewrite Hh by (apply (history_db db0 _ (map snd log) (b, ta_read a)); rewrite Hhist; apply elem_of_app; right; left). rewrite Hhist.
    split_and!; try done; try lia; [by rewrite <- app_assoc| |].
    + apply Forall_app. split; [done|]. apply Forall_forall. intros h Hin. specialize (Hw _ _ _ Hr Hin). lia.
    + intros E. apply Forall_app. split; [by apply Heq|]. apply Forall_forall. intros h Hin. by apply (Hw _ _ _ Hr Hin).
  - intros j a Hj Ha. destruct (t_read _ _ _ _ T j a Hj Ha) as (old & b & new & row & Hr & Hhist & Hb & Hn & Hc).
    exists old, b, (new ++ writes_in (ta_row a) [e.2]), row.
    rewrite Hh by (apply (history_db db0 _ (map snd log) (b, ta_read a)); rewrite Hhist; apply elem_of_app; right; left). rewrite Hhist.
    split_and!; try done; [by rewrite <- app_assoc|]. apply Forall_app. split; [done|]. apply Forall_forall. intros h Hin.
    specialize (Hw _ _ _ Hr Hin). lia.
Qed.

Section committing.
Context (n n' : Z) (rows : gmap nat (@Row_tictoc V)) (txns : gmap nat (@ttxn V)) (log : list (nat * commit V)).
Context (I : inv n (mkTtSys rows txns) log) (t : nat) (tx : @ttxn V) (Ht : txns !! t = Some tx) (Hn : n <= n').
Context (max : Z) (Hp : tx_phase tx = TRead (rd_cnt tx)).
Notation tx' := (mkTtxn (tx_accs tx) (tx_wts tx) max (TStore 0)).
Notation txns' := (<[t := tx']> txns).
Notation entry := (t, tt_commit_of tx).

Lemma com_tok : tok rows log (torn txns) tx /\ tx_wts tx <= n.
Proof using I Ht. exact (tt_own_tok _ _ _ _ I t tx Ht). Qed.

Lemma com_not_logged c : (t, c) ∉ log.
Proof using I Ht Hp.
  intros Hin. apply (g_txns _ _ _ (i_log _ _ _ I)) in Hin as (tx2 & E & Hc & _). cbn in E. assert (tx2 = tx) as -> by congruence.
  unfold committed in Hc. by rewrite Hp in Hc.
Qed.

(** The rows that the transaction has in its write set. *)
Lemma com_held i : held tx i.
Proof using Hp. by phases Hp. Qed.

Lemma com_write_row i a : twacc tx i = Some a -> exists row, rows !! ta_row a = Some row /\ is_u64 (rt_word row) /\
  wts_of (rt_word row) = ta_wts a /\ lease (rt_word row) < tx_wts tx.
Proof using I Ht Hp.
  intros Ha. destruct com_tok as [T _]. destruct (acc_in_rows _ _ _ _ I t tx Ht a) as [row Hr]; [by eapply twacc_in|].
  exists row. destruct (row_word _ _ _ _ I _ _ Hr) as [Hu _]. split_and!; try done.
  - apply (t_checked _ _ _ _ T i a); [by phases Hp|done|done].
  - apply (t_top _ _ _ _ T i a); [by phases Hp|done|done].
Qed.

Lemma com_unwritten i a t2 j : twacc tx i = Some a -> ~ at_row txns unwritten t2 j (ta_row a).
Proof using I Ht Hp.
  intros Ha Hj. destruct (decide (t2 = t)) as [->|Hne].
  - destruct Hj as (tx2 & b & E & Hu & _). assert (tx2 = tx) as -> by congruence. unfold unwritten in Hu. by rewrite Hp in Hu.
  - apply (own_other _ _ _ _ I t tx Ht i a t2 j (com_held i) Ha Hne). eapply at_row_impl; [|exact Hj]. intros ?; apply unwritten_held.
Qed.

(** What its entry adds to the history of a row. *)
Lemma com_writes_in r : writes_in r [tt_commit_of tx] = map (fun w => (tx_wts tx, w.2)) (row_writes r (tx_accs tx)).
Proof using Type. unfold writes_in. cbn. by rewrite app_nil_r. Qed.

Lemma com_written i a : twacc tx i = Some a -> writes_in (ta_row a) [tt_commit_of tx] = [(tx_wts tx, ta_data a)].
Proof using I Ht Hp.
  intros Ha. rewrite com_writes_in. destruct (twacc_Some _ _ _ Ha) as (_ & _ & j & Hj & Haj).
  rewrite (row_writes_one _ j a); [done|done|by eapply twacc_type|].
  intros k b Hk Hb E. destruct (twacc_of tx k b Hk Hb) as (i2 & Hi2 & Hk2).
  assert (i2 = i) as ->; [|congruence].
  eapply (own_unique _ _ _ _ I t tx Ht i2 i b a); [apply com_held|apply com_held|done|done|done].
Qed.

Lemma com_not_written r : (forall i a, twacc tx i = Some a -> ta_row a <> r) -> writes_in r [tt_commit_of tx] = [].
Proof using Type.
  intros Hno. rewrite com_writes_in, row_writes_none; [done|]. intros a (k & Hk)%list_elem_of_lookup Hb.
  destruct (twacc_of tx k a Hk Hb) as (i & Hi & _). by eapply Hno.
Qed.

Lemma com_row_cases r : (exists i a, twacc tx i = Some a /\ ta_row a = r) \/ (forall i a, twacc tx i = Some a -> ta_row a <> r).
Proof using Type.
  destruct (decide (Exists (fun a => ta_type a = WR /\ ta_row a = r) (tx_accs tx))) as [Hy|Hno].
  - left. apply Exists_exists in Hy as (a & (k & Hk)%list_elem_of_lookup & Hw & Hr).
    destruct (twacc_of tx k a Hk Hw) as (i & Hi & _). by exists i, a.
  - right. intros i a Ha E. apply Hno. apply Exists_exists. exists a. split; [by eapply twacc_in|]. split; [by eapply twacc_type|done].
Qed.

Lemma tt_com_after r row h : rows !! r = Some row -> h ∈ writes_in r [tt_commit_of tx] -> lease (rt_word row) < h.1.
Proof using I Ht Hp.
  intros Hr Hin. destruct (com_row_cases r) as [(i & a & Ha & <-)|Hno]; [|rewrite com_not_written in Hin by done; by apply not_elem_of_nil in Hin].
  rewrite (com_written i a Ha) in Hin. apply list_elem_of_singleton in Hin as ->. cbn.
  destruct (com_write_row i a Ha) as (row2 & Hr2 & _ & _ & Hl). congruence.
Qed.

Lemma com_at_row (P : @ttxn V -> nat -> Prop) t2 i r : (forall x i, P x i -> committed x = true) ->
  at_row txns P t2 i r -> t2 <> t /\ at_row txns' P t2 i r.
Proof using I Ht Hp.
  intros HP H. assert (t2 <> t) as Hne.
  { intros ->. destruct H as (tx2 & a & E & Hu & _). assert (tx2 = tx) as -> by congruence. apply HP in Hu.
    unfold committed in Hu. by rewrite Hp in Hu. }
  split; [done|]. by apply other_at_row.
Qed.

Lemma com_torn r : torn txns' r -> torn txns r.
Proof using Type.
  intros (t2 & i & H). destruct (decide (t2 = t)) as [->|Hne].
  - apply own_at_row in H as (a & Hph & _). done.
  - exists t2, i. by apply other_at_row in H.
Qed.

Lemma com_hist r : is_Some (db0 !! r) -> hist (log ++ [entry]) r = hist log r ++ writes_in r [tt_commit_of tx].
Proof using Type. apply (hist_app r log [entry]). Qed.

Lemma com_rows r row : rows !! r = Some row -> row_ok n' txns' (log ++ [entry]) r row.
Proof using I Ht Hp Hn.
  clear Hspin. intros Hr. pose proof (i_rows _ _ _ I r row Hr) as R. cbn [tt_txns] in R.
  assert (is_Some (db0 !! r)) as Hdb by (apply (i_dom _ _ _ I); by eexists).
  destruct (com_row_cases r) as [(i & a & Ha & <-)|Hno].
  - destruct R as [[Hu Hl] (old & b & tl & Hh & [(-> & Hb & _)|(t2 & j & tx2 & a2 & _ & H2 & Hui & Ha2 & Hra & _)])].
    2:{ exfalso. apply (com_unwritten i a t2 j Ha). by exists tx2, a2. }
    split; [split; [done|lia]|]. exists old, b, [(tx_wts tx, ta_data a)]. rewrite com_hist, Hh, (com_written i a Ha) by done.
    split; [by rewrite <- app_assoc|]. right. exists t, i, tx', a. split_and!; try done; [apply lookup_insert_eq|by phases Hp; cbn; lia|].
    left. split_and!; [by phases Hp; cbn; lia|done|]. destruct (com_write_row i a Ha) as (row2 & Hr2 & _ & _ & Hlt). cbn. congruence.
  - assert (hist (log ++ [entry]) r = hist log r) as Hh by (by rewrite com_hist, com_not_written, app_nil_r).
    assert (row_ok n' txns' log r row) as [Hw Htu].
    { eapply row_ok_txns; [exact R|done| |].
      - intros t2 tx2 i a H2 Hu _ _. rewrite lookup_insert_ne; [done|]. intros <-. assert (tx2 = tx) as -> by congruence.
        unfold unwritten in Hu. by rewrite Hp in Hu.
      - intros t2 i Hi. destruct (decide (t2 = t)) as [->|Hne]; [|by apply other_at_row in Hi].
        apply own_at_row in Hi as (a & _ & Ha & E). exfalso. by eapply (Hno i a). }
    split; [done|]. unfold tuple_ok. rewrite Hh. exact Htu.
Qed.

Lemma com_read a : a ∈ tx_accs tx -> exists old b new, hist log (ta_row a) = old ++ (b, ta_read a) :: new /\
  b <= tx_wts tx /\ Forall (fun h => tx_wts tx < h.1) new /\
  forall row, rows !! ta_row a = Some row -> tx_wts tx <= lease (rt_word row) \/ exists i, at_row txns' unstored t i (ta_row a).
Proof using All.
  intros Ha. destruct com_tok as [T _]. destruct (t_accs _ _ _ _ T a Ha) as [Hty L]. destruct (decide (ta_type a = WR)) as [E|E].
  - apply list_elem_of_lookup in Ha as [k Hk]. destruct (twacc_of tx k a Hk E) as (i & Hi & _).
    destruct (com_write_row i a Hi) as (row & Hr & Hu & Hw & Hl). rewrite <- Hw in L.
    destruct (no_later _ _ _ _ I _ row _ _ Hr (fun t2 j => com_unwritten i a t2 j Hi) L) as (old & b & Hh & Hb).
    exists old, b, []. pose proof (wts_le_lease _ Hu). split_and!; [done|lia|done|]. intros row2 _. right. exists i.
    apply own_at_row. exists a. split; [by phases Hp; cbn; lia|done].
  - destruct (tracc_of tx a Ha E) as (j & Hj & Haj). destruct (t_read _ _ _ _ T j a) as (old & b & new & row & Hr & Hh & Hb & Hnew & Hc); [by phases Hp|done|].
    exists old, b, new. split_and!; try done. intros row2 Hr2. left. congruence.
Qed.

Lemma com_reads r u : (r, u) ∈ c_reads (tt_commit_of tx) -> exists a, a ∈ tx_accs tx /\ ta_row a = r /\ ta_read a = u.
Proof using Type. cbn. intros (a & [= -> ->] & Ha)%list_elem_of_fmap. by exists a. Qed.

Lemma tt_com_log : log_ok rows txns' (log ++ [entry]).
Proof using All.
  pose proof (i_log _ _ _ I) as G. cbn [tt_rows tt_txns] in G. split.
  - rewrite map_app. apply NoDup_app. split; [apply G|]. split; [|apply NoDup_singleton]. intros t2 Hin ->%list_elem_of_singleton.
    apply list_elem_of_fmap in Hin as ([t3 c] & E & Hin). cbn in E. subst t3. by apply (com_not_logged c).
  - intros t2 c. rewrite elem_of_app, (g_txns _ _ _ G), list_elem_of_singleton. destruct (decide (t2 = t)) as [->|Hne].
    + rewrite lookup_insert_eq. split.
      * intros [(tx2 & E & Hc & _)|[= ->]]; [|by exists tx']. assert (tx2 = tx) as -> by congruence. unfold committed in Hc. by rewrite Hp in Hc.
      * intros (tx2 & [= <-] & _ & ->). by right.
    + rewrite lookup_insert_ne by done. split; [intros [?|[= ->]]; done|by left].
  - intros r. destruct (db0 !! r) as [v0|] eqn:Hdb; [|unfold history; rewrite Hdb; constructor].
    rewrite com_hist by (by rewrite Hdb). destruct (com_row_cases r) as [(i & a & Ha & <-)|Hno]; [|rewrite com_not_written, app_nil_r by done; apply G].
    rewrite (com_written i a Ha), map_app. apply StronglySorted_app. split; [|split; [apply G|repeat constructor]].
    intros x y Hx ->%list_elem_of_singleton. cbn. destruct (com_write_row i a Ha) as (row & Hr & Hu & Hw & Hl).
    pose proof (wts_le_lease _ Hu). assert (x <= wts_of (rt_word row)); [|lia].
    destruct (i_rows _ _ _ I _ _ Hr) as [_ (old & b & tl & Hh & [(-> & Hb & _)|(t2 & j & tx2 & a2 & _ & H2 & Hui & Ha2 & Hra & _)])].
    2:{ exfalso. apply (com_unwritten i a t2 j Ha). by exists tx2, a2. }
    pose proof (g_sorted _ _ _ G (ta_row a)) as Hs. rewrite Hh in Hs, Hx. rewrite map_app in Hs, Hx. apply StronglySorted_app in Hs as (Ho & _).
    apply elem_of_app in Hx as [Hx| ->%list_elem_of_singleton]; [|done]. specialize (Ho x b Hx ltac:(by left)). lia.
  - intros l1 t2 d l2 E r u Hru. destruct l2 as [|e l2 _] using rev_ind.
    + apply app_inj_tail in E as [<- [= <- <-]]. destruct (com_reads r u Hru) as (a & Ha & <- & <-).
      destruct (com_read a Ha) as (old & b & new & Hh & Hb & Hnew & _). exists old, b, new. split_and!; try done.
    + rewrite app_comm_cons, app_assoc in E. apply app_inj_tail in E as [E <-].
      destruct (g_reads _ _ _ G l1 t2 d l2 E r u Hru) as (old & b & new & Hh & Hb & Hnew & Hl2).
      exists old, b, new. split_and!; try done. rewrite map_app, writes_in_app. apply Forall_app. split; [done|].
      apply Forall_forall. intros h Hin. assert (is_Some (rows !! r)) as [row Hr].
      { apply (i_dom _ _ _ I), (history_db db0 r (map snd l1) (b, u)). rewrite Hh. apply elem_of_app. right; left. }
      destruct (g_top _ _ _ G t2 d) with (r := r) (u := u) (row := row) as [Hle|[i Hi]]; [rewrite E; apply elem_of_app; right; left|done|done| |].
      * pose proof (tt_com_after r row h Hr Hin). lia.
      * exfalso. destruct (com_row_cases r) as [(k & a & Ha & <-)|Hno]; [|cbn [map snd] in Hin; rewrite com_not_written in Hin by done; by apply not_elem_of_nil in Hin].
        apply (com_unwritten k a t2 i Ha). eapply at_row_impl; [|exact Hi]. intros ?; apply unstored_unwritten.
  - intros t2 d Hin r u row Hru Hr. apply elem_of_app in Hin as [Hin|[= -> ->]%list_elem_of_singleton].
    + destruct (g_top _ _ _ G t2 d Hin r u row Hru Hr) as [|[i Hi]]; [by left|right]. exists i.
      by apply (com_at_row unstored t2 i r unstored_committed).
    + destruct (com_reads r u Hru) as (a & Ha & <- & _). destruct (com_read a Ha) as (_ & _ & _ & _ & _ & _ & Htop). by apply Htop.
Qed.

Lemma commit_inv : inv n' (mkTtSys rows txns') (log ++ [entry]).
Proof using All.
  split; cbn [tt_rows tt_txns].
  - apply I.
  - apply com_rows.
  - intros t2 tx2. assert (forall tx2, tok rows log (torn txns) tx2 -> tok rows (log ++ [entry]) (torn txns') tx2) as Hlog.
    { intros tx3 T3. apply tok_log; [|intros r row h; apply tt_com_after].
      eapply tok_fw; [|exact T3|done]. apply forward_refl. apply com_torn. }
    destruct (decide (t2 = t)) as [->|Hne]; [|rewrite lookup_insert_ne by done; intros H2; destruct (i_txns _ _ _ I t2 tx2 H2); split; [auto|lia]].
    rewrite lookup_insert_eq. intros [= <-]. destruct com_tok as [T Hw]. split; [|cbn; lia]. destruct (phases_decided tx) as (? & ? & ?).
    eapply (tok_next rows _ _ tx); [by apply Hlog|done..| | | | | | |]; try done; try (by phases Hp).
  - eapply locks_less; [apply (i_locks _ _ _ I)|]. intros t2 i r. destruct (decide (t2 = t)) as [->|Hne]; [|by apply other_at_row].
    rewrite own_at_row. cbn [tt_txns]. rewrite (tx_at_row txns t tx Ht). intros (a & _ & ? & ?). exists a. split; [apply com_held|done].
  - apply tt_com_log.
Qed.
End committing.

(** *** The writes *)

Section writing.
Context (n n' : Z) (rows : gmap nat (@Row_tictoc V)) (txns : gmap nat (@ttxn V)) (log : list (nat * commit V)).
Context (I : inv n (mkTtSys rows txns) log) (t : nat) (tx : @ttxn V) (Ht : txns !! t = Some tx) (Hn : n <= n').
Context (p : @tphase V).
Notation tx' := (set_tphase p tx).
Notation txns' := (<[t := tx']> txns).
Context (Hc : committed tx = true) (Hc' : committed tx' = true).

(** A row other than the one of access [k], which is the access that the step deals with. *)
Lemma writing_row_ok k r row : row_ok n txns log r row -> (forall a, twacc tx k = Some a -> ta_row a <> r) ->
  (forall j b, twacc tx j = Some b -> j <> k -> (unwritten tx j <-> unwritten tx' j) /\ (unstored tx j -> unstored tx' j) /\
     (tx_phase tx = TData j -> tx_phase tx' = TData j)) -> row_ok n' txns' log r row.
Proof using All.
  intros [[Hu Hl] (old & b & tl & Hh & Htl)] Hk Hj. split; [split; [done|lia]|]. exists old, b, tl. split; [done|].
  destruct Htl as [(-> & Hb & Hno)|(t2 & j & tx2 & a & -> & H2 & Hui & Ha & Hr & Hs)].
  - left. split_and!; try done. intros t2 j Hj2. destruct (decide (t2 = t)) as [->|Hne]; [|apply (Hno t2 j); by apply other_at_row in Hj2].
    apply own_at_row in Hj2 as (a & Hua & Ha & Hra). change (twacc tx j = Some a) in Ha. apply (Hno t j).
    apply (tx_at_row txns t tx Ht). exists a. split_and!; try done. apply (Hj j a Ha); [|done]. intros ->. by eapply Hk.
  - right. destruct (decide (t2 = t)) as [->|Hne].
    + assert (tx2 = tx) as -> by congruence. exists t, j, tx', a. assert (j <> k) as Hjk by (intros ->; by eapply Hk).
      destruct (Hj j a Ha Hjk) as (Hw & Hst & Hd). split_and!; try done; [apply lookup_insert_eq|by apply Hw|].
      destruct Hs as [(? & ? & ?)|(? & ? & ?)]; [left|right]; auto.
    + exists t2, j, tx2, a. rewrite lookup_insert_ne by done. split_and!; done.
Qed.

Context (k : nat) (a : @tacc V) (row row' : @Row_tictoc V).
Notation rows' := (<[ta_row a := row']> rows).
Context (Ha : twacc tx k = Some a) (Hk : held tx k) (Hr : rows !! ta_row a = Some row).

(** The step changes the row of access [k]. *)
Lemma writing_inv : wts_of (rt_word row) <= wts_of (rt_word row') -> lease (rt_word row) <= lease (rt_word row') ->
  (wts_of (rt_word row) = wts_of (rt_word row') ->
     lease (rt_word row) = lease (rt_word row') /\ (tx_phase tx = TData k \/ rt_row row = rt_row row') /\ tx_phase tx' <> TData k) ->
  row_ok n' txns' log (ta_row a) row' ->
  (forall j, j <> k -> (unwritten tx j <-> unwritten tx' j) /\ (unstored tx j -> unstored tx' j) /\
     (tx_phase tx = TData j -> tx_phase tx' = TData j)) ->
  (forall j, tx_phase tx' = TData j -> j = k) ->
  (forall j, held tx' j -> held tx j /\ (j = k -> is_locked (rt_word row') = true)) ->
  (unstored tx k -> unstored tx' k \/ tx_wts tx <= lease (rt_word row')) ->
  (forall j, unstored tx' j -> unstored tx j /\ j <> k) ->
  inv n' (mkTtSys rows' txns') log.
Proof using All.
  intros Hw Hl Heq Hro Hj Hd Hheld Hst Hun. destruct (tt_own_tok _ _ _ _ I t tx Ht) as [T Hwts].
  assert (forall b j, twacc tx j = Some b -> held tx j -> j <> k -> ta_row b <> ta_row a) as Hother.
  { intros b j Hb Hjh Hne E. apply Hne. by eapply (own_unique _ _ _ _ I t tx Ht j k b a). }
  assert (forward log (torn txns) (torn txns') rows rows') as F.
  { intros r row1 Hr1. destruct (decide (r = ta_row a)) as [->|Hne].
    - assert (row1 = row) as -> by congruence. exists row'. rewrite lookup_insert_eq. split_and!; try done. intros E.
      destruct (Heq E) as (El & Hdat & Hnd). split_and!.
      + intros (t2 & j & H). destruct (decide (t2 = t)) as [->|Hne]; [|exists t2, j; by apply other_at_row in H].
        apply own_at_row in H as (b & Hph & _). pose proof (Hd j Hph) as ->. done.
      + destruct Hdat as [Hph|]; [left|by right]. exists t, k. apply (tx_at_row txns t tx Ht). by exists a.
      + intros h _. by rewrite El.
    - exists row1. rewrite lookup_insert_ne by done. split_and!; try done. intros _. split_and!; [|by right|done].
      intros (t2 & j & H). destruct (decide (t2 = t)) as [->|Hne2]; [|exists t2, j; by apply other_at_row in H].
      apply own_at_row in H as (b & Hph & Hb & E). pose proof (Hd j Hph) as ->. change (twacc tx k = Some b) in Hb. congruence. }
  eapply (tt_step_inv n n' rows _ txns log t tx tx'); try done.
  - intros r t2 j Hne H. apply lookup_insert_ne. intros <-. by apply (own_other _ _ _ _ I t tx Ht k a t2 j).
  - intros r. destruct (decide (r = ta_row a)) as [->|]; [rewrite lookup_insert_eq, Hr; split; by eexists|by rewrite lookup_insert_ne].
  - split; [|cbn; lia].
    assert (forall j, unstored tx' j -> topped tx j) as Hto.
    { intros j Hu. destruct (Hun j Hu) as [Hu' _]. revert Hu'. unfold topped, unstored. by destruct (tx_phase tx). }
    assert (forall j, topped tx' j -> unstored tx' j) as Hto' by (intros j; revert Hc'; unfold topped, unstored, committed; cbn; destruct p; try done).
    assert (forall j, ~ checked tx' j) as Hnck by (intros j; revert Hc'; unfold checked, committed; cbn; destruct p; (done || tauto)).
    assert (forall j, ~ renewed tx' j) as Hnrd by (intros j; revert Hc'; unfold renewed, committed; cbn; destruct p; (done || tauto)).
    assert (chosen tx) as Hch by (revert Hc; unfold chosen, committed; by destruct (tx_phase tx)).
    split.
    + intros b Hb. destruct (t_accs _ _ _ _ T b Hb). split; [done|]. eapply lease_ok_fw; [exact F|done].
    + revert Hc'. unfold phase_ok, committed. cbn. destruct p; done.
    + split; [apply T|]. intros _. by apply T.
    + intros j b row2 Hckj. by destruct (Hnck j).
    + intros j b row2 Htj Hb. assert (unstored tx' j) as Hu by auto. destruct (Hun j Hu) as [Hu' Hne].
      rewrite lookup_insert_ne; [intros Hr2; apply (t_top _ _ _ _ T j b row2); auto|]. intros E.
      apply (Hother b j Hb); [by apply unwritten_held, unstored_unwritten|done|done].
    + intros j b Hrd. by destruct (Hnrd j).
  - intros r row1. destruct (decide (r = ta_row a)) as [->|Hne]; [rewrite lookup_insert_eq; by intros [= <-]|].
    rewrite lookup_insert_ne by done. intros Hr1. apply (writing_row_ok k); [by apply (i_rows _ _ _ I)| |auto]. intros b Hb. congruence.
  - eapply (locks_change _ _ _ _ _ t k); [apply (i_locks _ _ _ I)|]. intros t2 j r. destruct (decide (t2 = t)) as [->|Hne].
    + rewrite own_at_row. cbn [tt_txns]. rewrite (tx_at_row txns t tx Ht). intros (b & Hjh & Hb & <-).
      destruct (Hheld j Hjh) as [Hjh' Hlk]. change (twacc tx j = Some b) in Hb. destruct (decide (j = k)) as [->|Hne].
      * right. assert (b = a) as -> by congruence. auto.
      * left. split; [by exists b|]. by eapply Hother.
    + rewrite other_at_row by done. intros H. left. split; [done|]. intros ->. by apply (own_other _ _ _ _ I t tx Ht k a t2 j).
  - split; [congruence|]. done.
  - intros j b Hu Hb. destruct (decide (j = k)) as [->|Hne]; [|left; split; [by apply Hj|done]].
    assert (b = a) as -> by congruence. destruct (Hst Hu) as [|Hle]; [by left|right]. intros row2. rewrite lookup_insert_eq. by intros [= <-].
Qed.
End writing.

Lemma own_pending n rows txns log t tx k a row : inv n (mkTtSys rows txns) log -> txns !! t = Some tx ->
  unwritten tx k -> twacc tx k = Some a -> rows !! ta_row a = Some row ->
  exists old b, hist log (ta_row a) = old ++ [(b, rt_row row); (tx_wts tx, ta_data a)] /\
    (unstored tx k /\ b <= wts_of (rt_word row) /\ lease (rt_word row) < tx_wts tx \/
     tx_phase tx = TData k /\ wts_of (rt_word row) = tx_wts tx /\ lease (rt_word row) = tx_wts tx).
Proof using All.
  intros I Ht Hk Ha Hr.
  destruct (i_rows _ _ _ I _ _ Hr) as [_ (old & b & tl & Hh & [(-> & Hb & Hno)|(t2 & j & tx2 & a2 & -> & H2 & Hui & Ha2 & Hra & Hs)])].
  - exfalso. apply (Hno t k). by apply (at_row_intro txns unwritten t tx).
  - exists old, b. destruct (l_unique _ _ (i_locks _ _ _ I) t2 j t k (ta_row a)) as [-> ->].
    + exists tx2, a2. split_and!; try done. by apply unwritten_held.
    + apply (at_row_intro txns held t tx); [done|by apply unwritten_held|done].
    + cbn in H2. assert (tx2 = tx) as -> by congruence. assert (a2 = a) as -> by congruence. done.
Qed.

Section writes.
Context (n n' : Z) (rows : gmap nat (@Row_tictoc V)) (txns : gmap nat (@ttxn V)) (log : list (nat * commit V)).
Context (I : inv n (mkTtSys rows txns) log) (t : nat) (tx : @ttxn V) (Ht : txns !! t = Some tx).
Context (Hn : n <= n') (Hlim : n' < 2 ^ 48).

Lemma done_inv i : tx_phase tx = TStore i -> i = wr_cnt tx -> inv n' (mkTtSys rows (<[t := set_tphase (TDone RCOK) tx]> txns)) log.
Proof using All.
  intros Hp Hi. destruct (tt_own_tok _ _ _ _ I t tx Ht) as [T Hwts].
  assert (forall j b, twacc tx j = Some b -> (j < i)%nat) as Hlt by (intros j b (_ & ? & _)%twacc_Some; lia).
  assert (forall (P : @ttxn V -> nat -> Prop) t2 j r, (forall i, ~ P (set_tphase (TDone RCOK) tx) i) ->
    at_row (<[t := set_tphase (TDone RCOK) tx]> txns) P t2 j r -> at_row txns P t2 j r) as Hat.
  { intros P t2 j r Hno H. destruct (decide (t2 = t)) as [->|Hne]; [|by apply other_at_row in H].
    apply own_at_row in H as (b & Hb & _). by apply Hno in Hb. }
  assert (forall r, torn (<[t := set_tphase (TDone RCOK) tx]> txns) r -> torn txns r) as Htorn.
  { intros r (t2 & j & H). exists t2, j. by apply (Hat (fun tx i => tx_phase tx = TData i)). }
  assert (forward log (torn txns) (torn (<[t := set_tphase (TDone RCOK) tx]> txns)) rows rows) as F by by apply forward_refl.
  eapply (tt_step_inv n n' rows rows txns log t tx); try done.
  - split; [|cbn; lia]. assert (tok rows log (torn txns) (set_tphase (TDone RCOK) tx)) as T'.
    { destruct (phases_decided tx) as (? & ? & ?). eapply (tok_next rows log _ tx); try done; try (by phases Hp). }
    eapply tok_fw; [exact F|exact T'|done].
  - intros r row Hr. apply (writing_row_ok n n' rows txns log I t tx Ht Hn (TDone RCOK) ltac:(by phases Hp) eq_refl i).
    + by apply (i_rows _ _ _ I).
    + intros b Hb. apply Hlt in Hb. lia.
    + intros j b Hb _. apply Hlt in Hb. unfold unwritten, unstored. rewrite Hp. cbn. split; [lia|]. split; [lia|done].
  - eapply locks_less; [apply (i_locks _ _ _ I)|]. intros t2 j r. apply Hat. intros k; cbn; tauto.
  - split; [by phases Hp|done].
  - intros j b Hu Hb. apply Hlt in Hb. unfold unstored in Hu. rewrite Hp in Hu. lia.
Qed.

(** [_ts_word.store]. *)
Lemma store_inv i a row : tx_phase tx = TStore i -> twacc tx i = Some a -> rows !! ta_row a = Some row ->
  inv n' (mkTtSys (put_word (ta_row a) (write_ts_word (tx_wts tx) (rt_word row)) row rows) (<[t := set_tphase (TData i) tx]> txns)) log.
Proof using All.
  intros Hp Ha Hr. destruct (tt_own_tok _ _ _ _ I t tx Ht) as [T Hwts]. destruct (row_word _ _ _ _ I _ _ Hr) as [Hu Hl].
  assert (0 <= tx_wts tx < 2 ^ 48) as Hc by (pose proof (t_ts _ _ _ _ T); lia).
  destruct (write_word _ _ Hu Hc) as (Hu' & Hlk' & Ew & El). pose proof (wts_le_lease _ Hu) as Hwl.
  destruct (own_pending n rows txns log t tx i a row I Ht) as (old & b & Hh & [(_ & Hb & Hlt)|(Hd & _)]); try done; [by unfold unwritten; rewrite Hp| |congruence].
  assert (held tx i) as Hheld by (by phases Hp).
  eapply (writing_inv n n' rows txns log I t tx Ht Hn (TData i) _ _ i a row); try done; cbn [rt_word rt_row]; try lia.
  - split; [split; [done|cbn; lia]|]. exists old, b, [(tx_wts tx, ta_data a)]. split; [done|]. right.
    exists t, i, (set_tphase (TData i) tx), a. split_and!; try done; [apply lookup_insert_eq|cbn; lia|]. right. done.
  - intros j Hne. unfold unwritten, unstored. rewrite Hp. cbn. split; [done|]. split; [lia|done].
  - intros j [= ->]. done.
  - intros j Hj. split; [revert Hj; phases Hp; lia|]. intros ->. rewrite Hlk'. by apply (holds_locked _ _ _ _ I t tx i a row).
  - intros j. unfold unstored. rewrite Hp. cbn. lia.
Unshelve.
  all: by phases Hp.
Qed.

(** [_row->copy]. *)
Lemma data_inv i a row : tx_phase tx = TData i -> twacc tx i = Some a -> rows !! ta_row a = Some row ->
  inv n' (mkTtSys (<[ta_row a := mkRow_tictoc (rt_word row) (ta_data a)]> rows) (<[t := set_tphase (TRelease i) tx]> txns)) log.
Proof using All.
  intros Hp Ha Hr. destruct (row_word _ _ _ _ I _ _ Hr) as [Hu Hl].
  destruct (own_pending n rows txns log t tx i a row I Ht) as (old & b & Hh & [(Hd & _)|(_ & Ew & El)]); try done; [by unfold unwritten; rewrite Hp| |].
  { unfold unstored in Hd. rewrite Hp in Hd. lia. }
  assert (held tx i) as Hheld by (by phases Hp).
  eapply (writing_inv n n' rows txns log I t tx Ht Hn (TRelease i) _ _ i a row); try done; cbn [rt_word rt_row].
  - intros _. split; [done|]. split; [by left|done].
  - split; [split; [done|cbn; lia]|]. exists (old ++ [(b, rt_row row)]), (tx_wts tx), []. split; [by rewrite Hh, <- app_assoc|]. left.
    split; [done|]. split; [cbn; lia|]. intros t2 j H. destruct (decide (t2 = t)) as [->|Hne].
    + apply own_at_row in H as (b2 & Hub & Hb2 & E). change (twacc tx j = Some b2) in Hb2. cbn in Hub.
      assert (j = i); [|lia]. eapply (own_unique _ _ _ _ I t tx Ht j i b2 a); try done. phases Hp. lia.
    + apply other_at_row in H; [|done]. apply (own_other _ _ _ _ I t tx Ht i a t2 j Hheld Ha Hne).
      eapply at_row_impl; [|exact H]. intros ?; apply unwritten_held.
  - intros j Hne. unfold unwritten, unstored. rewrite Hp. cbn. split; [lia|]. split; [lia|]. intros [= ->]. done.
  - intros j Hj. split; [revert Hj; phases Hp; lia|]. intros ->. by apply (holds_locked _ _ _ _ I t tx i a row).
  - unfold unstored. rewrite Hp. lia.
  - intros j. unfold unstored. rewrite Hp. cbn. lia.
Unshelve.
  all: by phases Hp.
Qed.

Lemma release_inv i a row : tx_phase tx = TRelease i -> twacc tx i = Some a -> rows !! ta_row a = Some row ->
  inv n' (mkTtSys (put_word (ta_row a) (clear_lock (rt_word row)) row rows) (<[t := set_tphase (TStore (S i)) tx]> txns)) log.
Proof using All.
  intros Hp Ha Hr. destruct (row_word _ _ _ _ I _ _ Hr) as [Hu Hl].
  destruct (clear_lock_relocked _ Hu) as (Hu' & _ & Ew & El).
  assert (held tx i) as Hheld by (by phases Hp).
  assert (forall j, (unwritten tx j <-> unwritten (set_tphase (TStore (S i)) tx) j) /\ (unstored tx j -> unstored (set_tphase (TStore (S i)) tx) j) /\
     (tx_phase tx = TData j -> tx_phase (set_tphase (TStore (S i)) tx) = TData j)) as Hj.
  { intros j. unfold unwritten, unstored. rewrite Hp. cbn. split; [lia|]. split; [lia|done]. }
  eapply (writing_inv n n' rows txns log I t tx Ht Hn (TStore (S i)) _ _ i a row); try done; cbn [rt_word rt_row]; try lia.
  - intros _. split; [lia|]. split; [by right|done].
  - destruct (i_rows _ _ _ I _ _ Hr) as [_ Htu]. cbn [tt_txns] in Htu.
    assert (row_ok n txns log (ta_row a) (mkRow_tictoc (clear_lock (rt_word row)) (rt_row row))) as R.
    { split; [split; [done|cbn; lia]|]. unfold tuple_ok. cbn [rt_word rt_row]. rewrite Ew, El. exact Htu. }
    destruct R as [[HuR HlR] (old & b & tl & Hh & [(-> & Hb & Hno)|(t2 & j & tx2 & a2 & -> & H2 & Hui & Ha2 & Hra & Hs)])].
    + split; [split; [done|cbn in *; lia]|]. exists old, b, []. split; [done|]. left. split_and!; try done. intros t2 j H.
      apply (Hno t2 j). destruct (decide (t2 = t)) as [->|Hne]; [|by apply other_at_row in H].
      apply own_at_row in H as (b2 & Hub & Hb2 & E). apply (tx_at_row txns t tx Ht). exists b2. split; [by apply Hj|done].
    + exfalso. destruct (decide (t2 = t)) as [->|Hne].
      * assert (tx2 = tx) as -> by congruence. assert (j = i) as ->.
        { eapply (own_unique _ _ _ _ I t tx Ht j i a2 a); try done. by apply unwritten_held. }
        unfold unwritten in Hui. rewrite Hp in Hui. lia.
      * apply (own_other _ _ _ _ I t tx Ht i a t2 j Hheld Ha Hne). exists tx2, a2. split_and!; try done. by apply unwritten_held.
  - intros j Hj2. split; [revert Hj2; phases Hp; lia|]. intros ->. revert Hj2. phases Hp. lia.
  - unfold unstored. rewrite Hp. lia.
  - intros j. unfold unstored. rewrite Hp. cbn. lia.
Unshelve.
  all: by phases Hp.
Qed.

Lemma write_inv rows' p : committed tx = true -> exec_write primary_key true bounded rows tx = Some (rows', p) ->
  inv n' (mkTtSys rows' (<[t := set_tphase p tx]> txns)) log.
Proof using All.
  intros Hc. unfold exec_write. destruct (tx_phase tx) as [| | | |i spin|i|i|i m|m|i|i|i|i|i wts rts rb v v2|i|i|i|i m|rc] eqn:Hp;
    unfold committed in Hc; rewrite Hp in Hc; try done.
  - destruct (i =? wr_cnt tx)%nat eqn:Hi; b2p; [intros [= <- <-]; apply (done_inv i); [done|lia]|].
    destruct (twacc tx i) as [a|] eqn:Ha; [|done]. cbn. destruct (rows !! ta_row a) as [row|] eqn:Hr; [|done]. cbn.
    intros [= <- <-]. by apply store_inv.
  - destruct (twacc tx i) as [a|] eqn:Ha; [|done]. cbn. destruct (rows !! ta_row a) as [row|] eqn:Hr; [|done]. cbn.
    intros [= <- <-]. by apply data_inv.
  - destruct (twacc tx i) as [a|] eqn:Ha; [|done]. cbn. destruct (rows !! ta_row a) as [row|] eqn:Hr; [|done]. cbn.
    intros [= <- <-]. by apply release_inv.
Qed.
End writes.

(** *** All steps *)

Definition fresh_txn : @ttxn V := mkTtxn [] 0 0 TRun.

Lemma begin_inv n n' rows txns log t : inv n (mkTtSys rows txns) log -> txns !! t = None -> n <= n' -> 0 <= n ->
  inv n' (mkTtSys rows (<[t := fresh_txn]> txns)) log.
Proof using All.
  intros I Ht Hn Hn0.
  assert (forall (P : @ttxn V -> nat -> Prop) t2 i r, ~ P fresh_txn i -> at_row (<[t := fresh_txn]> txns) P t2 i r -> at_row txns P t2 i r) as Hat.
  { intros P t2 i r Hno H. destruct (decide (t2 = t)) as [->|Hne]; [|by apply other_at_row in H].
    apply own_at_row in H as (b & Hb & _). done. }
  assert (forall r, torn (<[t := fresh_txn]> txns) r -> torn txns r) as Htorn.
  { intros r (t2 & i & H). exists t2, i. by apply (Hat (fun tx i => tx_phase tx = TData i)). }
  assert (forall t2 tx2, txns !! t2 = Some tx2 -> <[t := fresh_txn]> txns !! t2 = Some tx2) as Hkeep.
  { intros t2 tx2 H2. rewrite lookup_insert_ne; [done|]. intros <-. congruence. }
  pose proof (i_log _ _ _ I) as G. cbn [tt_rows tt_txns] in G.
  split; cbn [tt_rows tt_txns].
  - apply I.
  - intros r row Hr. eapply row_ok_txns; [by apply (i_rows _ _ _ I)|done| |].
    + intros t2 tx2 i a H2 _ _ _. by apply Hkeep.
    + intros t2 i. apply Hat. cbn. tauto.
  - intros t2 tx2. destruct (decide (t2 = t)) as [->|Hne].
    + rewrite lookup_insert_eq. intros [= <-]. split; [|cbn; lia]. split; cbn; try done. intros a Ha. by apply not_elem_of_nil in Ha.
    + rewrite lookup_insert_ne by done. intros H2. destruct (i_txns _ _ _ I t2 tx2 H2) as [T2 ?]. split; [|lia].
      eapply tok_fw; [apply forward_refl; exact Htorn|exact T2|done].
  - eapply locks_less; [apply (i_locks _ _ _ I)|]. intros t2 i r. apply Hat. cbn. tauto.
  - split; try apply G.
    + intros t2 c. rewrite (g_txns _ _ _ G). destruct (decide (t2 = t)) as [->|Hne]; [|by rewrite lookup_insert_ne].
      rewrite lookup_insert_eq, Ht. split; [intros (? & ? & _); done|]. intros (? & [= <-] & ? & _). done.
    + intros t2 d Hd r u row Hru Hr. destruct (g_top _ _ _ G t2 d Hd r u row Hru Hr) as [|[i (tx2 & a & H2 & Hrest)]]; [by left|right].
      exists i, tx2, a. split; [by apply Hkeep|done].
Qed.

(** The lease of no row is shorter after the step. *)
Definition leases_grow (s s' : @tt_sys V) : bool :=
  forallb (fun rr => match tt_rows s' !! rr.1 with
                     | Some row' => get_rts (rt_word rr.2) <=? get_rts (rt_word row')
                     | None => true
                     end) (map_to_list (tt_rows s)).

Lemma leases_grow_spec s s' r row row' : leases_grow s s' = true -> tt_rows s !! r = Some row -> tt_rows s' !! r = Some row' ->
  get_rts (rt_word row) <= get_rts (rt_word row').
Proof using Type.
  clear Hspin. unfold leases_grow. rewrite forallb_forall. intros H Hr Hr'. specialize (H (r, row)). cbn in H. rewrite Hr' in H.
  apply Z.leb_le, H, list_elem_of_In, elem_of_map_to_list. done.
Qed.

(** The next step of the transaction is the compare-and-swap of [try_renew]. *)
Definition renews (s : @tt_sys V) (t : nat) : bool :=
  match tt_txns s !! t with
  | Some tx => match tx_phase tx with TRenew _ _ _ _ _ _ => true | _ => false end
  | None => false
  end.

(** Reads and writes only. *)
Definition plain (a : @action V) : bool :=
  match a with AAccess _ type _ => bool_decide (type = RD) || bool_decide (type = WR) | _ => true end.

Section all_steps.
Context (n : Z) (rows : gmap nat (@Row_tictoc V)) (txns : gmap nat (@ttxn V)) (log : list (nat * commit V)).
Context (I : inv n (mkTtSys rows txns) log) (Hlim : n + 1 < 2 ^ 48).

Lemma tt_access_step_inv t tx p : txns !! t = Some tx -> exec_access rows tx = Some p -> p <> TRun ->
  inv (n + 1) (mkTtSys rows (<[t := set_tphase p tx]> txns)) log.
Proof using All.
  intros Ht H Hrun. assert (n <= n + 1) as Hn by lia. destruct (tt_own_tok _ _ _ _ I t tx Ht) as [T _]. pose proof (t_phase _ _ _ _ T) as P.
  unfold exec_access in H. unfold phase_ok in P.
  destruct (tx_phase tx) as [|type r|type r v|type r v d| | | | | | | | | | | | | | |] eqn:Hp; try done;
    destruct (rows !! r) as [row|] eqn:Hr; try done; cbn in H.
  - injection H as <-. destruct (is_locked (rt_word row)) eqn:Hl; [|by apply (load_inv n (n + 1) rows txns log I t tx Ht Hn type r row)].
    apply (running_inv n (n + 1) rows txns log I t tx Ht Hn); try done; try (phases Hp; tauto); apply T.
  - injection H as <-. by apply (copy_inv n (n + 1) rows txns log I t tx Ht Hn type r v).
  - destruct (_ =? _); injection H as <-; [done|].
    apply (running_inv n (n + 1) rows txns log I t tx Ht Hn); try done; try (phases Hp; tauto); apply T.
Qed.

Lemma read_step_inv t tx rows' tx' sp : txns !! t = Some tx ->
  (exists i, tx_phase tx = TRead i) \/ (exists i wts rts rb v v2, tx_phase tx = TRenew i wts rts rb v v2) ->
  exec_read primary_key true bounded rows tx sp = Some (rows', tx') ->
  ((exists i wts rts rb v v2, tx_phase tx = TRenew i wts rts rb v v2) ->
     forall r row row', rows !! r = Some row -> rows' !! r = Some row' -> get_rts (rt_word row) <= get_rts (rt_word row')) ->
  exists log', inv (n + 1) (mkTtSys rows' (<[t := tx']> txns)) log'.
Proof using All.
  intros Ht Hp H Hgrow. assert (n <= n + 1) as Hn by lia. destruct Hp as [[i Hp]|(i & wts & rts & rb & v & v2 & Hp)].
  - destruct (decide (i = rd_cnt tx)) as [Hi|Hi].
    + unfold exec_read in H. rewrite Hp in H. replace (i =? rd_cnt tx)%nat with true in H by lia. injection H as <- <-. rewrite Hi in Hp.
      exists (log ++ [(t, tt_commit_of tx)]). by apply commit_inv with (n := n).
    + exists log. destruct (tracc tx i) as [a|] eqn:Ha.
      * by apply (read_inv n (n + 1) rows txns log I t tx Ht Hn Hlim i a rows' tx' sp).
      * unfold exec_read in H. rewrite Hp, Ha in H. by replace (i =? rd_cnt tx)%nat with false in H by lia.
  - exists log. by apply (renew_inv n (n + 1) rows txns log I t tx Ht Hn Hlim i wts rts rb v v2 rows' tx' sp Hp H), Hgrow; eexists _, _, _, _, _, _.
Qed.

Lemma exec_step_inv t sp s' : step_exec (mkTtSys rows txns) t sp = Some s' ->
  (renews (mkTtSys rows txns) t = true -> leases_grow (mkTtSys rows txns) s' = true) -> exists log', inv (n + 1) s' log'.
Proof using All.
  intros H Hg. unfold exec_step in H. cbn [tt_txns tt_rows] in H. destruct (txns !! t) as [tx|] eqn:Ht; [|done]. cbn in H.
  assert (n <= n + 1) as Hn by lia. unfold with_txn in H. cbn [tt_txns] in H.
  destruct (tx_phase tx) as [|type r|type r v|type r v d|i spin|i|i|i m|m|i|i|i|i|i wts rts rb v v2|i|i|i|i m|rc] eqn:Hp; try done.
  1,2: destruct (exec_access rows tx) as [p|] eqn:E; [|done]; cbn in H; injection H as <-; exists log; apply tt_access_step_inv; try done;
       unfold exec_access in E; rewrite Hp in E; destruct (rows !! r); [|done]; cbn in E; injection E as <-; by try destruct (is_locked _).
  { destruct (exec_access rows tx) as [p|] eqn:E; [|done]; cbn in H; injection H as <-; exists log.
    unfold exec_access in E. rewrite Hp in E. destruct (rows !! r) as [row|] eqn:Hr; [|done]. cbn in E.
    destruct (Z.eqb_spec (Z.lor (rt_word row) RTS_MASK) (Z.lor v RTS_MASK)) as [Ev|Hne]; injection E as <-.
    - by apply (reload_inv n (n + 1) rows txns log I t tx Ht Hn type r v d row).
    - apply tt_access_step_inv; [done| |done]. unfold exec_access. rewrite Hp, Hr. cbn. by rewrite (proj2 (Z.eqb_neq _ _) Hne). }
  1-5: destruct (exec_lock primary_key pre_abort true bounded rows tx sp) as [[rows' p]|] eqn:E; [|done]; cbn in H; injection H as <-; exists log;
       by apply (lock_inv n (n + 1) rows txns log I t tx Ht Hn sp).
  1,2: destruct (tt_own_tok _ _ _ _ I t tx Ht) as [T _]; pose proof (t_phase _ _ _ _ T) as P; unfold phase_ok in P; by rewrite Hp in P.
  { destruct (exec_rts primary_key true bounded rows tx i) as [tx'|] eqn:E; [|done]. cbn in H. injection H as <-. exists log.
    by apply (rts_inv n (n + 1) rows txns log I t tx Ht Hn Hlim i). }
  1,2: destruct (exec_read primary_key true bounded rows tx sp) as [[rows' tx']|] eqn:E; [|done]; cbn in H; injection H as <-;
       apply (read_step_inv t tx rows' tx' sp); try done; [first [by left; eexists|by right; eexists _, _, _, _, _, _]|];
       intros (i2 & ? & ? & ? & ? & ? & Hp2) r2 row row' Hr Hr'; rewrite Hp in Hp2; try done;
       apply (leases_grow_spec _ _ r2 row row' (Hg ltac:(unfold renews; cbn; by rewrite Ht, Hp)) Hr Hr').
  1-3: destruct (exec_write primary_key true bounded rows tx) as [[rows' p]|] eqn:E; [|done]; cbn in H; injection H as <-; exists log;
       apply (write_inv n (n + 1) rows txns log I t tx Ht Hn Hlim); [by phases Hp|done].
  destruct (exec_write primary_key true bounded rows tx) as [[rows' p]|] eqn:E; [|done]; cbn in H; injection H as <-; exists log.
  by apply (abort_inv n (n + 1) rows txns log t tx i m).
Qed.
End all_steps.

Lemma exec_inv n s log (act : @action V) s' : inv n s log -> 0 <= n -> n + 1 < 2 ^ 48 -> plain act = true -> exec s act = Some s' ->
  (forall t, act = AStep t \/ act = AFail t -> renews s t = true -> leases_grow s s' = true) -> exists log', inv (n + 1) s' log'.
Proof using All.
  destruct s as [rows txns]. intros I Hn0 Hlim Hpl H Hg. assert (n <= n + 1) as Hn by lia.
  destruct act as [t|t type r|t i d|t|t|t|t]; cbn in H, Hpl.
  - destruct (txns !! t) eqn:Ht; [done|]. injection H as <-. exists log. by apply begin_inv with (n := n).
  - destruct (txns !! t) as [tx|] eqn:Ht; [|done]. cbn in H. destruct (tx_phase tx) eqn:Hp; try done. injection H as <-. exists log.
    apply (begin_access_inv n (n + 1) rows txns log I t tx Ht Hn); [done|].
    apply orb_true_iff in Hpl as [Hty|Hty]; apply bool_decide_eq_true in Hty; [by left|by right].
  - destruct (txns !! t) as [tx|] eqn:Ht; [|done]. cbn in H. destruct (tx_phase tx) eqn:Hp; try done. injection H as <-. exists log.
    by apply (modify_inv n (n + 1) rows txns log I t tx Ht Hn i d).
  - destruct (txns !! t) as [tx|] eqn:Ht; [|done]. cbn in H. destruct (tx_phase tx) eqn:Hp; try done. injection H as <-. exists log.
    by apply (finish_inv n (n + 1) rows txns log I t tx Ht Hn).
  - eapply exec_step_inv; [exact I|done|exact H|]. apply Hg. by left.
  - destruct (txns !! t) as [tx|] eqn:Ht; [|done]. cbn in H.
    destruct (tx_phase tx) eqn:Hp; try done; (eapply exec_step_inv; [exact I|done|exact H|]; apply Hg; by right).
  - destruct (txns !! t) as [tx|] eqn:Ht; [|done]. cbn in H. destruct (tx_phase tx) as [| | | | | | | |m| | | | | | | | | |] eqn:Hp; try done.
    assert (bounded = true) as Hb by (clear -H; destruct bounded; [done|discriminate]). rewrite Hb in H. injection H as <-. exists log.
    by apply (give_up_inv n (n + 1) rows txns log I t tx Ht Hn m).
Qed.
End serial.

(** ** The serial order *)

Section order.
Context {V : Type}.
Implicit Types (log : list (nat * commit V)).

(** By commit timestamp; equal ones in the order of the validations. *)
Definition before (x y : nat * (nat * commit V)) : Prop :=
  c_ts x.2.2 < c_ts y.2.2 \/ c_ts x.2.2 = c_ts y.2.2 /\ (x.1 <= y.1)%nat.
#[local] Instance before_dec x y : Decision (before x y).
Proof using Type. unfold before. apply _. Defined.
#[local] Instance before_trans : Transitive before.
Proof using Type. intros x y z [?|[? ?]] [?|[? ?]]; [left; lia|left; lia|left; lia|right; lia]. Qed.
#[local] Instance before_total : Total before.
Proof using Type.
  intros x y. destruct (Z.lt_trichotomy (c_ts x.2.2) (c_ts y.2.2)) as [?|[?|?]]; [by left; left| |by right; left].
  destruct (Nat.le_ge_cases x.1 y.1); [left|right]; right; split; congruence || done.
Qed.

Definition sorted log : list (nat * (nat * commit V)) := merge_sort before (imap pair log).
Definition serial log : list (nat * commit V) := map snd (sorted log).

Lemma sorted_perm log : sorted log ≡ₚ imap pair log.
Proof using Type. apply merge_sort_Permutation. Qed.

Lemma imap_pair_snd (A : Type) (l : list A) : map snd (imap pair l) = l.
Proof using Type.
  apply list_eq. intros i. change (map snd) with (fmap (M:=list) (A:=nat * A) snd). rewrite list_lookup_fmap, list_lookup_imap. by destruct (l !! i).
Qed.

Lemma serial_perm log : serial log ≡ₚ log.
Proof using Type. unfold serial. rewrite sorted_perm. by rewrite imap_pair_snd. Qed.

Lemma sorted_elem log i e : (i, e) ∈ sorted log <-> log !! i = Some e.
Proof using Type.
  rewrite sorted_perm, elem_of_lookup_imap. split.
  - by intros (j & y & [= -> ->] & H).
  - intros H. by exists i, e.
Qed.

Lemma sorted_sorted log : StronglySorted before (sorted log).
Proof using Type. apply (StronglySorted_merge_sort _ _). Qed.

Lemma sorted_NoDup_idx log : NoDup (map fst (sorted log)).
Proof using Type.
  rewrite sorted_perm. assert (map fst (imap pair log) = seq 0 (length log)) as ->; [|apply NoDup_seq].
  apply list_eq. intros i. change (map fst) with (fmap (M:=list) (A:=nat * (nat * commit V)) fst). rewrite list_lookup_fmap, list_lookup_imap.
  destruct (log !! i) eqn:E; cbn.
  - symmetry. apply lookup_seq. split; [lia|by eapply lookup_lt_Some].
  - symmetry. apply lookup_seq_ge. by apply lookup_ge_None.
Qed.

Lemma serial_sorted log : StronglySorted (fun c d => c_ts c <= c_ts d) (map snd (serial log)).
Proof using Type.
  unfold serial. rewrite map_map. induction (sorted_sorted log) as [|x l _ IH HF]; constructor; [done|].
  apply List.Forall_map. eapply Forall_impl; [exact HF|]. intros y [?|[? ?]]; cbn; lia.
Qed.

(** Around an entry of the sorted log. *)
Lemma sorted_split log L1 i t d L2 : sorted log = L1 ++ (i, (t, d)) :: L2 ->
  log = take i log ++ (t, d) :: drop (S i) log /\
  (forall x, x ∈ L1 -> c_ts x.2.2 <= c_ts d /\ (c_ts x.2.2 = c_ts d -> x.2 ∈ take i log)) /\
  (forall x, x ∈ L2 -> c_ts d <= c_ts x.2.2 /\ (c_ts x.2.2 = c_ts d -> x.2 ∈ drop (S i) log)).
Proof using Type.
  intros E. assert (log !! i = Some (t, d)) as Hi by (apply sorted_elem; rewrite E; apply elem_of_app; right; left).
  split; [symmetry; by apply take_drop_middle|]. pose proof (sorted_NoDup_idx log) as Hnd. pose proof (sorted_sorted log) as Hs.
  rewrite E in Hnd, Hs. rewrite map_app in Hnd. apply NoDup_app in Hnd as (_ & Hdis & Hnd). cbn in Hnd. apply NoDup_cons in Hnd as [Hni _].
  apply StronglySorted_app in Hs as (H12 & _ & Hs2). apply StronglySorted_inv in Hs2 as [_ HF]. rewrite Forall_forall in HF.
  assert (forall j e, (j, e) ∈ L1 ++ (i, (t, d)) :: L2 -> log !! j = Some e) as Hlk by (intros j e; rewrite <- E; apply sorted_elem).
  split; intros [j e] Hin; cbn.
  - assert (before (j, e) (i, (t, d))) as Hb by (apply H12; [done|by left]). assert (log !! j = Some e) as Hj by (apply Hlk, elem_of_app; by left).
    assert (j <> i) as Hne.
    { intros ->. apply (Hdis i); [apply list_elem_of_fmap; by exists (i, e)|by left]. }
    destruct Hb as [?|[? Hle]]; cbn in *; (split; [lia|]); intros Ets; [lia|].
    apply list_elem_of_lookup. exists j. rewrite lookup_take_lt by lia. done.
  - assert (before (i, (t, d)) (j, e)) as Hb by (by apply HF). assert (log !! j = Some e) as Hj by (apply Hlk, elem_of_app; right; by right).
    assert (j <> i) as Hne.
    { intros ->. apply Hni. apply list_elem_of_fmap. by exists (i, e). }
    destruct Hb as [?|[? Hle]]; cbn in *; (split; [lia|]); intros Ets; [lia|].
    apply list_elem_of_lookup. exists (j - S i)%nat. rewrite lookup_drop. by replace (S i + (j - S i))%nat with j by lia.
Qed.

Lemma writes_in_of r (c : commit V) cs (h : Z * V) : h.1 = c_ts c -> (r, h.2) ∈ c_writes c -> c ∈ cs -> h ∈ writes_in r cs.
Proof using Type. intros. apply writes_in_elem. by exists c. Qed.

Context (primary_key : nat -> Z) (bounded : bool) (db0 : gmap nat V).
Notation inv := (inv primary_key bounded db0).
Notation hist log r := (history db0 r (map snd log)).

Lemma tt_inv_replay n s log : inv n s log -> replay db0 (map snd (serial log)).
Proof using Type.
  intros I. pose proof (i_log _ _ _ _ _ _ I) as G. apply (replay_history db0 (map snd log)).
  { by rewrite serial_perm. }
  { apply serial_sorted. }
  { apply G. }
  intros cs1 d cs2 E r u Hru. unfold serial in E. rewrite map_map in E.
  apply fmap_app_inv in E as (L1 & L2' & -> & E2 & EL). symmetry in E2. apply fmap_cons_inv in E2 as ([i [t d']] & L2 & Ed & -> & ->).
  cbn in Ed. subst d'. destruct (sorted_split log L1 i t d L2 EL) as (Elog & HL1 & HL2).
  destruct (g_reads _ _ _ _ _ _ G _ _ _ _ Elog r u Hru) as (old & b & new & Hh & Hb & Hnew & Hl2).
  set (l1 := take i log) in *. set (l2 := drop (S i) log) in *.
  assert (is_Some (db0 !! r)) as Hdb.
  { apply (history_db db0 r (map snd l1) (b, u)). rewrite Hh. apply elem_of_app. right; left. }
  set (rest := writes_in r [d] ++ writes_in r (map snd l2)).
  assert (hist log r = hist l1 r ++ rest) as Hfull.
  { rewrite Elog. unfold rest. rewrite map_app. cbn [map snd]. rewrite history_after by done. f_equal. rewrite <- writes_in_app. done. }
  assert (forall h, h ∈ hist l1 r -> h ∈ rest -> False) as Hdis.
  { intros h H1 H2. pose proof (g_sorted _ _ _ _ _ _ G r) as Hs. apply sorted_NoDup in Hs. rewrite Hfull, map_app in Hs.
    apply NoDup_app in Hs as (_ & Hd & _). apply (Hd h.1); apply list_elem_of_fmap; by exists h. }
  assert (forall h, h ∈ writes_in r [d] -> h.1 = c_ts d) as Hown.
  { intros h (e & ->%list_elem_of_singleton & Eh & _)%writes_in_elem. done. }
  rewrite Forall_forall in Hnew, Hl2. exists old, b, (new ++ rest). split; [by rewrite Hfull, Hh, <- app_assoc|]. split.
  - intros h (c & Hc & Ets & Hw)%writes_in_elem Hin. apply list_elem_of_fmap in Hc as (x & -> & Hx). destruct (HL1 x Hx) as [Hle Heq].
    apply elem_of_app in Hin as [Hin|Hin]; [specialize (Hnew h Hin); lia|].
    assert (c_ts x.2.2 = c_ts d) as Ex.
    { apply elem_of_app in Hin as [Hin|Hin]; [apply Hown in Hin|apply Hl2 in Hin]; lia. }
    apply (Hdis h); [|done]. destruct Hdb as [v0 Hv0]. unfold history. rewrite Hv0. right.
    apply (writes_in_of r x.2.2); [done|done|]. apply list_elem_of_fmap. exists x.2. auto.
  - intros h (c & Hc & Ets & Hw)%writes_in_elem Hin.
    assert (h ∈ hist l1 r) as Hin1 by (rewrite Hh; apply elem_of_app in Hin as [?| ->%list_elem_of_singleton]; apply elem_of_app; [by left|right; left]).
    assert (h.1 <= b) as Hle.
    { apply elem_of_app in Hin as [Hin| ->%list_elem_of_singleton]; [|done].
      pose proof (g_sorted _ _ _ _ _ _ G r) as Hs. rewrite Hfull, Hh, <- app_assoc, map_app in Hs. apply StronglySorted_app in Hs as (Ho & _).
      assert (h.1 < b); [|lia]. apply Ho; [apply list_elem_of_fmap; by exists h|by left]. }
    apply (Hdis h Hin1). apply elem_of_app. apply elem_of_cons in Hc as [->|Hc].
    + left. apply (writes_in_of r d); [done|done|by left].
    + right. apply list_elem_of_fmap in Hc as (x & -> & Hx). destruct (HL2 x Hx) as [Hge Heq].
      apply (writes_in_of r x.2.2); [done|done|]. apply list_elem_of_fmap. exists x.2. split; [done|]. apply Heq. lia.
Qed.

(** An unlocked row holds what the serial run leaves in it. *)
Lemma inv_final n s log r row : inv n s log -> tt_rows s !! r = Some row -> is_locked (rt_word row) = false ->
  serial_db db0 (map snd (serial log)) !! r = Some (rt_row row).
Proof using Type.
  intros I Hr Hl. destruct s as [rows txns]. pose proof (i_log _ _ _ _ _ _ I) as G.
  destruct (unlocked_latest primary_key bounded db0 n rows txns log I r row Hr Hl) as (_ & old & b & Hh & _).
  assert (is_Some (db0 !! r)) as Hdb by (apply (i_dom _ _ _ _ _ _ I); by eexists).
  rewrite serial_last by done. assert (history db0 r (map snd (serial log)) = hist log r) as ->.
  { destruct Hdb as [v0 Hv0]. unfold history. rewrite Hv0. f_equal. symmetry. apply writes_in_unique.
    - by rewrite serial_perm.
    - apply serial_sorted.
    - pose proof (g_sorted _ _ _ _ _ _ G r) as Hs. unfold history in Hs. rewrite Hv0 in Hs. by apply StronglySorted_inv in Hs as [Hs _]. }
  rewrite Hh, map_app. cbn [map snd]. by rewrite last_snoc.
Qed.
End order.

(** ** Runs *)

Section runs.
Context {V : Type} (primary_key : nat -> Z) (pre_abort bounded : bool).
Notation exec := (@tt_exec V primary_key pre_abort true bounded).
Notation run := (@tt_run V primary_key pre_abort true bounded).

(** In the run [l] no compare-and-swap of [try_renew] shortens a lease. *)
Definition keeps_leases (s : @tt_sys V) (a : @action V) (s' : @tt_sys V) : bool :=
  match a with
  | AStep t | AFail t => negb (renews s t) || leases_grow s s'
  | _ => true
  end.
Fixpoint leases_kept (s : @tt_sys V) (l : list (@action V)) : bool :=
  match l with
  | [] => true
  | a :: l => match exec s a with Some s' => keeps_leases s a s' && leases_kept s' l | None => true end
  end.

Notation inv := (inv primary_key bounded).

Lemma run_inv db0 n s log l s' : pre_abort = true \/ bounded = false -> inv db0 n s log -> 0 <= n -> n + Z.of_nat (length l) < 2 ^ 48 ->
  forallb plain l = true -> leases_kept s l = true -> run s l = Some s' -> exists m log', inv db0 m s' log'.
Proof using Type.
  intros Hspin. revert n s log. induction l as [|a l IH]; intros n s log I Hn0 Hlim Hpl Hk H; cbn in H.
  { injection H as <-. by exists n, log. }
  cbn in Hpl, Hk, Hlim. apply andb_true_iff in Hpl as [Hpa Hpl]. destruct (exec s a) as [s1|] eqn:E; [|done]. cbn in H.
  apply andb_true_iff in Hk as [Hka Hk].
  destruct (exec_inv primary_key pre_abort bounded db0 Hspin n s log a s1 I Hn0 ltac:(lia) Hpa E) as [log' I'].
  { intros t Ht Hr. unfold keeps_leases in Hka. by destruct Ht as [-> | ->]; rewrite Hr in Hka. }
  apply (IH (n + 1) s1 log'); try done; lia.
Qed.

Lemma tt_init_inv (s : @tt_sys V) : tt_init s -> inv (rt_row <$> tt_rows s) 0 s [].
Proof using Type.
  destruct s as [rows txns]. intros [Ht Hw]. cbn [tt_rows tt_txns] in *. subst txns.
  assert (forall r row, rows !! r = Some row -> history (rt_row <$> rows) r [] = [(0, rt_row row)]) as Hh.
  { intros r row Hr. unfold history. by rewrite lookup_fmap, Hr. }
  split; cbn [tt_rows tt_txns].
  - intros r. by rewrite lookup_fmap, fmap_is_Some.
  - intros r row Hr. pose proof (Hw r row Hr) as E. split; [rewrite E; split; [unfold is_u64; lia|by vm_compute]|]. exists [], 0, []. cbn [map]. rewrite (Hh r row Hr).
    split; [done|]. left. split; [done|]. rewrite E. split; [by vm_compute|]. intros t i (tx & a & H & _). by rewrite lookup_empty in H.
  - intros t tx H. by rewrite lookup_empty in H.
  - split; [intros t i r row (tx & a & H & _)|intros t i t' i' r (tx & a & H & _)]; by rewrite lookup_empty in H.
  - split.
    + constructor.
    + intros t c. split; [by intros ?%not_elem_of_nil|]. intros (tx & H & _). by rewrite lookup_empty in H.
    + intros r. cbn [map]. unfold history. destruct ((rt_row <$> rows) !! r); repeat constructor.
    + intros l1 t d l2 E. by destruct l1.
    + intros t d H. by apply not_elem_of_nil in H.
Qed.
End runs.

(** ** Serializability *)

(** C4. TicToc, any number of transactions interleaved by their atomic accesses, with the
    locks tried without waiting ([lock] does not lock) and no back-off that gives up after
    an undo with stale counts: as long as no compare-and-swap of [try_renew] puts a shorter lease in the place of a
    longer one (see [tictoc_lease_shrinks]), the transactions that passed validation have an order, by
    their commit timestamps, in which one after the other they read what they read and
    write what they wrote; an unlocked row holds what this serial run leaves in it. *)
Theorem tictoc_serializable {V} primary_key pre_abort bounded (s s' : @tt_sys V) (l : list (@action V)) :
  pre_abort = true \/ bounded = false -> tt_init s -> Z.of_nat (length l) < 2 ^ 48 -> forallb plain l = true ->
  leases_kept primary_key pre_abort bounded s l = true -> tt_run primary_key pre_abort true bounded s l = Some s' ->
  exists order : list (nat * commit V), NoDup (map fst order) /\
    (forall t c, (t, c) ∈ order <-> exists tx, tt_txns s' !! t = Some tx /\ committed tx = true /\ c = tt_commit_of tx) /\
    StronglySorted (fun c d => c_ts c <= c_ts d) (map snd order) /\
    replay (rt_row <$> tt_rows s) (map snd order) /\
    forall r row, tt_rows s' !! r = Some row -> is_locked (rt_word row) = false ->
      serial_db (rt_row <$> tt_rows s) (map snd order) !! r = Some (rt_row row).
Proof.
  intros Hspin Hinit Hlen Hpl Hk Hrun.
  destruct (run_inv primary_key pre_abort bounded _ 0 s [] l s' Hspin (tt_init_inv primary_key bounded s Hinit)) as (m & log & I); try done.
  exists (serial log). pose proof (i_log _ _ _ _ _ _ I) as G. split; [|split; [|split; [|split]]].
  - rewrite serial_perm. apply G.
  - intros t c. rewrite serial_perm. apply G.
  - apply serial_sorted.
  - by eapply tt_inv_replay.
  - intros r row. by eapply inv_final.
Qed.

(** 1 and 2 read row 1 and write rows 2 and 3; both extend the lease of row 1. *)
Definition tt_two : list (@action Z) :=
  ABegin 1 :: reads 1 1 ++ writes 1 2 1 77 ++ ABegin 2 :: reads 2 1 ++ writes 2 3 1 55 ++
  AFinish 1 :: steps 1 9 ++ AFinish 2 :: steps 2 15 ++ steps 1 7.

Definition tt_committed (s : @tt_sys Z) (t : nat) : bool :=
  match tt_txns s !! t with Some tx => committed tx | None => false end.

Lemma tt_demo_init : tt_init tt_demo.
Proof.
  split; [done|]. cbn. intros r row. rewrite !lookup_insert_Some, lookup_singleton_Some. by intros [[_ <-]|[_ [[_ <-]|[_ [_ <-]]]]].
Qed.

Lemma tt_two_run : exists s', tt_run Z.of_nat true true false tt_demo tt_two = Some s' /\
  tt_committed s' 1 = true /\ tt_committed s' 2 = true.
Proof.
  assert (match tt_run Z.of_nat true true false tt_demo tt_two with
          | Some s' => tt_committed s' 1 = true /\ tt_committed s' 2 = true | None => False end) as H by (vm_compute; split; reflexivity).
  destruct (tt_run _ _ _ _ _ _) as [s'|]; [by exists s'|done].
Qed.

Lemma tictoc_serializable_witness : exists (s' : @tt_sys Z) order,
  tt_run Z.of_nat true true false tt_demo tt_two = Some s' /\
  (exists c, (1%nat, c) ∈ order) /\ (exists c, (2%nat, c) ∈ order) /\ replay (rt_row <$> tt_rows tt_demo) (map snd order).
Proof.
  destruct tt_two_run as (s' & Hrun & H1 & H2).
  destruct (tictoc_serializable Z.of_nat true false tt_demo s' tt_two (or_introl eq_refl) tt_demo_init eq_refl eq_refl
    ltac:(vm_compute; reflexivity) Hrun) as (order & _ & Hin & _ & Hrep & _).
  exists s', order. split; [exact Hrun|]. unfold tt_committed in H1, H2. split; [|split; [|exact Hrep]].
  - destruct (tt_txns s' !! 1%nat) as [tx|] eqn:E; [|discriminate]. exists (tt_commit_of tx). apply Hin. exists tx. split; [exact E|]. split; [exact H1|reflexivity].
  - destruct (tt_txns s' !! 2%nat) as [tx|] eqn:E; [|discriminate]. exists (tt_commit_of tx). apply Hin. exists tx. split; [exact E|]. split; [exact H2|reflexivity].
Defined.
