(* ===== verification/Zipf.v ===== *)
(** * Zipf's distribution over the real numbers

    The arithmetic of [zeta] and [zipf] of src/benchmarks/ycsb/ycsb_query.cpp when the
    doubles are exact: [pow], the conversion to an integer, and the range of the number
    that [zipf] computes from the tail of the distribution. *)

From Stdlib Require Import Reals Lra.
From S2P Require Import Prelude.
#[local] Open Scope R_scope.

(** [pow] for a base that is not negative, the only one that [zipf] uses. *)
Definition real_pow (x y : R) : R :=
  if Rlt_dec 0 x then Rpower x y else if Req_dec_T y 0 then 1 else 0.

(** [(uint64_t)]: rounds to zero. *)
Definition real_trunc (x : R) : Z := if Rle_dec 0 x then Int_part x else Z.opp (Int_part (- x)).

Lemma real_pow_pos x y : 0 < x -> real_pow x y = Rpower x y.
Proof. intros. unfold real_pow. by destruct (Rlt_dec 0 x). Qed.

Lemma Rpower_gt_0 x y : 0 < Rpower x y.
Proof. apply exp_pos. Qed.

Lemma Rpower_1_l y : Rpower 1 y = 1.
Proof. unfold Rpower. by rewrite ln_1, Rmult_0_r, exp_0. Qed.

Lemma real_trunc_bounds (a b : Z) x : (0 <= a)%Z -> IZR a <= x < IZR b -> (a <= real_trunc x < b)%Z.
Proof.
  intros Ha%IZR_le [Hax Hxb]. unfold real_trunc. destruct (Rle_dec 0 x); [|lra].
  destruct (base_Int_part x) as [H1 H2]. split.
  - assert (a < Int_part x + 1)%Z; [|lia]. apply lt_IZR. rewrite plus_IZR. lra.
  - apply lt_IZR. lra.
Qed.

Section tail.
Context (n : Z) (theta zetan u : R).
Context (Hn : (2 < n)%Z) (Htheta : 0 <= theta < 1) (Hu : u < 1).
(** [zeta_2_theta]. *)
Context (zeta2 : R) (H0 : 0 < zeta2) (Hz : zeta2 < zetan) (Huz : zeta2 <= u * zetan).

Let c := Rpower (2 / IZR n) (1 - theta).
Let eta := (1 - c) / (1 - zeta2 / zetan).

Lemma two_over_n : 0 < 2 / IZR n < 1.
Proof using Hn.
  apply IZR_lt in Hn. split; [apply Rdiv_lt_0_compat; lra|]. apply Rmult_lt_reg_r with (IZR n); [lra|].
  unfold Rdiv. rewrite Rmult_assoc, Rinv_l by lra. lra.
Qed.

Lemma tail_c : 0 < c < 1.
Proof using Hn Htheta.
  pose proof two_over_n. split; [apply Rpower_gt_0|]. unfold c. apply Rlt_le_trans with (Rpower 1 (1 - theta)); [apply Rlt_Rpower_l; lra|].
  rewrite Rpower_1_l. lra.
Qed.

(** The argument of the second [pow]. *)
Lemma tail_base : c <= eta * u - eta + 1 < 1.
Proof using All.
  pose proof tail_c. assert (zeta2 / zetan <= u) as Hq.
  { apply Rmult_le_reg_r with zetan; [lra|]. unfold Rdiv. rewrite Rmult_assoc, Rinv_l by lra. lra. }
  assert (0 < eta) as He by (apply Rdiv_lt_0_compat; lra).
  assert (eta * (1 - zeta2 / zetan) = 1 - c) as Hc by (unfold eta; field; lra).
  assert (eta * (1 - u) <= 1 - c) by (rewrite <- Hc; apply Rmult_le_compat_l; lra).
  assert (0 < eta * (1 - u)) by (apply Rmult_lt_0_compat; lra). lra.
Qed.

Lemma tail_bounds : (2 <= real_trunc (IZR n * real_pow ((1 - real_pow (2 / IZR n) (1 - theta)) / (1 - zeta2 / zetan) * u -
  (1 - real_pow (2 / IZR n) (1 - theta)) / (1 - zeta2 / zetan) + 1) (1 / (1 - theta))) < n)%Z.
Proof using All.
  pose proof two_over_n as H2. pose proof tail_c as Hc. pose proof tail_base as [Hb1 Hb2].
  rewrite (real_pow_pos (2 / IZR n)) by lra. fold c. fold eta. set (x := eta * u - eta + 1) in *.
  rewrite real_pow_pos by lra. assert (0 < 1 / (1 - theta)) as Ha by (apply Rdiv_lt_0_compat; lra).
  assert (2 / IZR n <= Rpower x (1 / (1 - theta)) < 1) as [Hl Hr].
  { split.
    - replace (2 / IZR n) with (Rpower c (1 / (1 - theta))); [apply Rle_Rpower_l; lra|]. unfold c. rewrite Rpower_mult.
      replace ((1 - theta) * (1 / (1 - theta))) with 1 by (field; lra). apply Rpower_1; lra.
    - apply Rlt_le_trans with (Rpower 1 (1 / (1 - theta))); [apply Rlt_Rpower_l; lra|]. rewrite Rpower_1_l. lra. }
  apply IZR_lt in Hn as Hn'. apply real_trunc_bounds; [lia|]. split.
  - replace 2 with (IZR n * (2 / IZR n)) by (field; lra). apply Rmult_le_compat_l; lra.
  - rewrite <- (Rmult_1_r (IZR n)) at 2. apply Rmult_lt_compat_l; lra.
Qed.
End tail.
