(* ===== verification/YcsbQuery.v ===== *)
(** * YCSB: the queries

    The generator of queries of src/benchmarks/ycsb/ycsb_query.cpp: the partitions of a
    query, its keys drawn from Zipf's distribution, the set of keys that keeps a
    row from being accessed twice, the order of the keys.  Floating point numbers
    and [pow] are those of a class, which the theorem takes to be the real numbers
    (Zipf.v); the numbers of [drand48_r] and [lrand48_r] come
    from the buffer of the thread, whose position is the state. *)

From Stdlib Require Import QArith Qround Reals Lra.
From stdpp Require Import list gmap.
From S2P Require Import Prelude Global Sort Zipf.
#[local] Open Scope Z_scope.

(** ** Settings (config-std.h, global.cpp) and doubles *)

Class YcsbConfig := {
  g_synth_table_size : Z;
  g_virtual_part_cnt : Z;
  g_part_cnt : Z;
  g_part_per_txn : Z;
  g_req_per_query : Z;
  SCAN_LEN : Z;
  FIRST_PART_LOCAL : bool;
  g_key_order : bool;
  HSTORE : bool }.

(** [d_trunc] is the conversion to [uint64_t]. *)
Class DoubleOps := {
  double : Type;
  d_lt : double -> double -> bool;
  d_le : double -> double -> bool;
  d_add : double -> double -> double;
  d_sub : double -> double -> double;
  d_mul : double -> double -> double;
  d_div : double -> double -> double;
  d_pow : double -> double -> double;
  d_of : Z -> double;
  d_trunc : double -> Z }.

Definition d_eq `{DoubleOps} (a b : double) : bool := d_le a b && d_le b a.
Definition udiv (a b : Z) : option Z := if b =? 0 then None else Some (a / b).

(** ** Data (ycsb_query.h) *)

(** [scan_len] is written for SCAN only; 0 stands for no value. *)
Record ycsb_request := mkRequest {
  rtype : access_t;
  key : Z;
  value : Z;
  scan_len : Z }.

(** [requests] up to [request_cnt], [part_to_access] up to [part_num]. *)
Record ycsb_query := mkQuery {
  requests : list ycsb_request;
  part_to_access : list Z }.

Definition request_cnt (q : ycsb_query) : Z := Z.of_nat (length (requests q)).
Definition part_num (q : ycsb_query) : Z := Z.of_nat (length (part_to_access q)).

(** ** Random numbers *)

(** [None]: a failed assertion, a division by zero or a read of memory that
    nothing has written. *)
Definition Y (A : Type) : Type := nat -> option (A * nat).
Definition yret {A} (a : A) : Y A := fun i => Some (a, i).
Definition ybind {A B} (m : Y A) (f : A -> Y B) : Y B :=
  fun i => match m i with Some (a, i') => f a i' | None => None end.
Definition ylift {A} (o : option A) : Y A := fun i => match o with Some a => Some (a, i) | None => None end.
Notation "'gen!' x <- m ;; k" := (ybind m (fun x => k))
  (at level 100, x name, m at next level, k at level 200, right associativity) : dbx_scope.

(** The static members of [ycsb_query]. *)
Record zipf_state `{DoubleOps} := mkZipf { the_n : Z; denom : double }.

Section generator.
Context {yc : YcsbConfig} {dd : DoubleOps}.
Context (g_zipf_theta g_perc_multi_part g_read_perc g_write_perc : double).
(** The [i]-th number drawn from the buffer. *)
Context (drand48 : nat -> double) (lrand48 : nat -> Z).

Definition drand : Y double := fun i => Some (drand48 i, S i).
Definition lrand : Y Z := fun i => Some (lrand48 i, S i).

(** *** Zipf's distribution *)

Fixpoint zeta_loop (n : nat) (i : Z) (theta sum : double) : double :=
  match n with
  | O => sum
  | S n => zeta_loop n (i + 1) theta (d_add sum (d_pow (d_div (d_of 1) (d_of i)) theta))
  end.
Definition zeta (n : Z) (theta : double) : double := zeta_loop (Z.to_nat n) 1 theta (d_of 0).

Definition zipf_start : zipf_state := mkZipf _ 0 (d_of 0).

Definition table_size : option Z := udiv g_synth_table_size g_virtual_part_cnt.

Definition calculateDenom (z : zipf_state) : option zipf_state :=
  assert! the_n z =? 0;;
  do! size <- table_size;;
  let n := u64 (size - 1) in
  Some (mkZipf _ n (zeta n g_zipf_theta)).

(** [(uint64_t)(n * pow(eta * u - eta + 1, alpha))]. *)
Definition zipf_tail (z : zipf_state) (n : Z) (theta zeta_2_theta u : double) : Z :=
  let alpha := d_div (d_of 1) (d_sub (d_of 1) theta) in
  let eta := d_div (d_sub (d_of 1) (d_pow (d_div (d_of 2) (d_of n)) (d_sub (d_of 1) theta)))
                   (d_sub (d_of 1) (d_div zeta_2_theta (denom z))) in
  d_trunc (d_mul (d_of n) (d_pow (d_add (d_sub (d_mul eta u) eta) (d_of 1)) alpha)).

Definition zipf (z : zipf_state) (zeta_2_theta : double) (n : Z) (theta : double) : Y Z :=
  gen! _ <- ylift (assert! (the_n z =? n) && d_eq theta g_zipf_theta;; Some tt);;
  gen! u <- drand;;
  let uz := d_mul u (denom z) in
  if d_lt uz (d_of 1) then yret 1
  else if d_lt uz (d_add (d_of 1) (d_pow (d_div (d_of 1) (d_of 2)) theta)) then yret 2
  else yret (u64 (1 + zipf_tail z n theta zeta_2_theta u)).

(** *** The partitions *)

(** The loop over [j]: the new element stays if it is not among those before. *)
Fixpoint part_known (p : Z) (parts : list Z) : bool :=
  match parts with
  | [] => false
  | p' :: parts => if p =? p' then true else part_known p parts
  end.

Fixpoint part_loop (n : nat) (i thd_id rint64 : Z) (parts : list Z) : option (list Z) :=
  match n with
  | O => Some parts
  | S n =>
      assert! negb (g_virtual_part_cnt =? 0);;
      let p := if (i =? 0) && FIRST_PART_LOCAL then thd_id mod g_virtual_part_cnt
               else u64 (Z.rem rint64 g_virtual_part_cnt) in
      part_loop n (i + 1) thd_id rint64 (if part_known p parts then parts else parts ++ [p])
  end.

Definition choose_parts (thd_id : Z) : Y (list Z) :=
  gen! r <- drand;;
  gen! rint64 <- lrand;;
  if d_lt r g_perc_multi_part then ylift (part_loop (Z.to_nat g_part_per_txn) 0 thd_id rint64 [])
  else
    ylift (assert! negb (g_part_cnt =? 0) && (1 <=? g_part_per_txn);;
           Some [if FIRST_PART_LOCAL then thd_id mod g_part_cnt else u64 (Z.rem rint64 g_part_cnt)]).

(** *** The requests *)

(** [rint64 % (1 << 8)] as a [char]. *)
Definition to_char (v : Z) : Z := (Z.rem v 256 + 128) mod 256 - 128.

Definition primary_key (row_id part_id : Z) : Z := u64 (u64 (row_id * g_virtual_part_cnt) + part_id).
Definition scan_key (row_id part_id i : Z) : Z := u64 (u64 (u64 (row_id + i) * g_part_cnt) + part_id).

Fixpoint scan_conflict (n : nat) (i row_id part_id : Z) (all_keys : gset Z) : bool :=
  match n with
  | O => false
  | S n => bool_decide (scan_key row_id part_id i ∈ all_keys) || scan_conflict n (i + 1) row_id part_id all_keys
  end.
Fixpoint scan_insert (n : nat) (i row_id part_id : Z) (all_keys : gset Z) : gset Z :=
  match n with
  | O => all_keys
  | S n => scan_insert n (i + 1) row_id part_id ({[scan_key row_id part_id i]} ∪ all_keys)
  end.

Definition choose_type (r : double) : access_t :=
  if d_lt r g_read_perc then RD
  else if d_le g_read_perc r && d_le r (d_add g_write_perc g_read_perc) then WR
  else SCAN.

(** The check of [all_keys] and [rid++]. *)
Definition keep_request (req : ycsb_request) (row_id part_id : Z) (st : list ycsb_request * gset Z) :
    list ycsb_request * gset Z :=
  if bool_decide (rtype req = SCAN) then
    if scan_conflict (Z.to_nat (scan_len req)) 0 row_id part_id st.2 then st
    else (st.1 ++ [req], scan_insert (Z.to_nat (scan_len req)) 0 row_id part_id st.2)
  else
    if decide (key req ∈ st.2) then st else (st.1 ++ [req], {[key req]} ∪ st.2).

Definition gen_request (z : zipf_state) (zeta_2_theta : double) (parts : list Z) (tmp : Z)
    (st : list ycsb_request * gset Z) : Y (list ycsb_request * gset Z) :=
  gen! r <- drand;;
  let type := choose_type r in
  let ith := u64 (tmp * Z.of_nat (length parts)) / g_req_per_query in
  gen! part_id <- ylift (parts !! Z.to_nat ith);;
  gen! size <- ylift table_size;;
  gen! row_id <- zipf z zeta_2_theta (u64 (size - 1)) g_zipf_theta;;
  gen! _ <- ylift (assert! row_id <? size;; Some tt);;
  gen! rint64 <- lrand;;
  let req := mkRequest type (primary_key row_id part_id) (to_char rint64)
               (if bool_decide (type = SCAN) then SCAN_LEN else 0) in
  yret (keep_request req row_id part_id st).

Fixpoint request_loop (n : nat) (tmp : Z) (z : zipf_state) (zeta_2_theta : double) (parts : list Z)
    (st : list ycsb_request * gset Z) : Y (list ycsb_request * gset Z) :=
  match n with
  | O => yret st
  | S n =>
      gen! st <- gen_request z zeta_2_theta parts tmp st;;
      request_loop n (tmp + 1) z zeta_2_theta parts st
  end.

(** *** The order of the keys *)

Definition key_gt (a b : ycsb_request) : bool := key b <? key a.

(** The assertions after the sort; [request_cnt - 1] wraps for no request. *)
Fixpoint keys_ascend (l : list ycsb_request) : bool :=
  match l with
  | a :: (b :: _) as l' => (key a <? key b) && keys_ascend l'
  | _ => true
  end.

Definition order_requests (l : list ycsb_request) : option (list ycsb_request) :=
  if g_key_order then
    let l := bubble_sort key_gt (length l - 1) l in
    assert! negb (length l =? 0)%nat && keys_ascend l;; Some l
  else Some l.

(** *** [gen_requests] and [init] *)

Definition gen_requests (z : zipf_state) (zeta_2_theta : double) (thd_id : Z) : Y ycsb_query :=
  gen! _ <- ylift (assert! negb HSTORE || (g_virtual_part_cnt =? g_part_cnt);; Some tt);;
  gen! parts <- choose_parts thd_id;;
  gen! st <- request_loop (Z.to_nat g_req_per_query) 0 z zeta_2_theta parts ([], ∅);;
  gen! l <- ylift (order_requests st.1);;
  yret (mkQuery l parts).

Definition query_init (z : zipf_state) (thd_id : Z) : Y ycsb_query :=
  gen! _ <- ylift (assert! negb (the_n z =? 0) && negb (d_eq (denom z) (d_of 0));; Some tt);;
  gen_requests z (zeta 2 g_zipf_theta) thd_id.
End generator.

(** ** What a generated query satisfies *)

(** The settings fit: there are three rows per partition at least, and the keys of
    scans past the end of the table do not wrap. *)
Class YcsbOk `{YcsbConfig} : Prop := {
  parts_ok : 1 <= g_virtual_part_cnt < 2 ^ 32;
  same_parts : g_part_cnt = g_virtual_part_cnt;
  size_ok : 3 * g_virtual_part_cnt <= g_synth_table_size <= 2 ^ 62;
  per_txn_ok : 1 <= g_part_per_txn < 2 ^ 32;
  per_query_ok : 1 <= g_req_per_query < 2 ^ 32;
  scan_ok : 1 <= SCAN_LEN < 2 ^ 30 }.

Section valid.
Context {yc : YcsbConfig}.

(** The keys that a request accesses. *)
Definition touched (r : ycsb_request) : list Z :=
  if decide (rtype r = SCAN) then map (fun i => key r + i * g_part_cnt) (seqZ 0 (scan_len r)) else [key r].

Record request_ok (parts : list Z) (r : ycsb_request) : Prop := {
  r_type : rtype r = RD \/ rtype r = WR \/ rtype r = SCAN;
  r_key : g_part_cnt <= key r < g_synth_table_size;
  r_part : key r mod g_part_cnt ∈ parts;
  r_scan : rtype r = SCAN -> scan_len r = SCAN_LEN }.

Record query_ok (q : ycsb_query) : Prop := {
  q_parts : NoDup (part_to_access q) /\ Forall (fun p => 0 <= p < g_part_cnt) (part_to_access q);
  q_part_num : 1 <= part_num q <= Z.min 2 g_part_per_txn;
  q_cnt : 1 <= request_cnt q <= g_req_per_query;
  q_reqs : Forall (request_ok (part_to_access q)) (requests q);
  q_once : NoDup (concat (map touched (requests q)));
  q_order : g_key_order = true -> StronglySorted (fun a b => key a < key b) (requests q) }.

Context {ok : YcsbOk}.

#[local] Ltac bounds := pose proof parts_ok; pose proof same_parts; pose proof size_ok; pose proof per_txn_ok;
  pose proof per_query_ok; pose proof scan_ok.

Lemma key_touched parts r : request_ok parts r -> key r ∈ touched r.
Proof using ok.
  bounds. intros [_ _ _ Hs]. unfold touched. destruct (decide _) as [E|]; [|by left].
  rewrite Hs by done. rewrite seqZ_cons by lia. cbn [map]. rewrite Z.mul_0_l, Z.add_0_r. left.
Qed.

Lemma keys_NoDup parts l : Forall (request_ok parts) l -> NoDup (concat (map touched l)) -> NoDup (map key l).
Proof using ok.
  induction 1 as [|r l Hr Hl IH]; cbn; [constructor|]. intros (_ & Hd & Hnd)%NoDup_app. constructor; [|by apply IH].
  intros (r' & Hk & Hin)%list_elem_of_fmap. apply (Hd (key r)); [by eapply key_touched|].
  rewrite Forall_forall in Hl. apply list_elem_of_In, in_concat. exists (touched r'). split.
  - apply in_map. by apply list_elem_of_In.
  - apply list_elem_of_In. rewrite Hk. by eapply key_touched, Hl.
Qed.

(** *** Partitions *)

Lemma part_known_spec p parts : part_known p parts = true <-> p ∈ parts.
Proof using Type.
  induction parts as [|p' parts IH]; cbn; [split; [done|by intros ?%not_elem_of_nil]|].
  rewrite elem_of_cons. destruct (p =? p') eqn:E; b2p; naive_solver.
Qed.

Lemma part_loop_ok n i thd r parts : 0 <= i ->
  let a := thd mod g_virtual_part_cnt in let b := u64 (Z.rem r g_virtual_part_cnt) in
  NoDup parts -> parts ⊆ [a; b] ->
  exists parts', part_loop n i thd r parts = Some parts' /\ NoDup parts' /\ parts' ⊆ [a; b] /\
    (length parts <= length parts' <= length parts + n)%nat /\ ((0 < n)%nat -> parts' <> []).
Proof using ok.
  bounds. intros Hi a b. revert i parts Hi. induction n as [|n IH]; intros i parts Hi Hnd Hsub; cbn [part_loop].
  { exists parts. split_and!; [done..|lia|lia|lia]. }
  rewrite c_assert_true by (apply negb_true_iff, Z.eqb_neq; lia).
  set (p := if _ && _ then _ else _).
  assert (p ∈ [a; b]) as Hp by (subst p; destruct (_ && _); [left|right; left]).
  destruct (part_known p parts) eqn:E.
  - apply part_known_spec in E. destruct (IH (i + 1) parts) as (parts' & -> & ? & ? & ? & ?); [lia|done|done|].
    exists parts'. split_and!; [done..|lia|lia|]. intros _ ->. cbn in *. destruct parts; [by apply not_elem_of_nil in E|cbn in *; lia].
  - assert (p ∉ parts) as Hni by (intros ?%part_known_spec; congruence).
    destruct (IH (i + 1) (parts ++ [p])) as (parts' & -> & ? & ? & Hl & ?).
    + lia.
    + apply NoDup_app. split_and!; [done| |by apply NoDup_singleton]. by intros x Hx ->%list_elem_of_singleton.
    + intros x [?|Hx]%elem_of_app; [by apply Hsub|]. apply list_elem_of_singleton in Hx as ->. done.
    + rewrite length_app in Hl. cbn in Hl. exists parts'. split_and!; [done..|lia|lia|]. intros _ ->. cbn in Hl. lia.
Qed.

Lemma rows_bound : 3 <= g_synth_table_size / g_virtual_part_cnt <= 2 ^ 62 /\
  g_synth_table_size / g_virtual_part_cnt * g_virtual_part_cnt <= g_synth_table_size.
Proof using ok.
  bounds. split_and!.
  - apply Z.div_le_lower_bound; lia.
  - apply Z.div_le_upper_bound; nia.
  - rewrite Z.mul_comm. apply Z.mul_div_le. lia.
Qed.

(** *** The keys of a request *)

Lemma primary_key_value row part : 1 <= row < g_synth_table_size / g_virtual_part_cnt -> 0 <= part < g_part_cnt ->
  primary_key row part = row * g_part_cnt + part /\ g_part_cnt <= primary_key row part < g_synth_table_size.
Proof using ok.
  bounds. pose proof rows_bound as [? ?]. intros Hr Hp. rewrite same_parts in *. unfold primary_key.
  assert (row * g_virtual_part_cnt + g_virtual_part_cnt <= g_synth_table_size) by nia.
  rewrite (u64_small (row * _)) by (unfold is_u64; nia). rewrite u64_small by (unfold is_u64; nia). nia.
Qed.

Lemma scan_key_value row part i : 1 <= row < g_synth_table_size / g_virtual_part_cnt -> 0 <= part < g_part_cnt ->
  0 <= i < SCAN_LEN -> scan_key row part i = primary_key row part + i * g_part_cnt.
Proof using ok.
  bounds. pose proof rows_bound as [? ?]. intros Hr Hp Hi. destruct (primary_key_value row part) as [-> ?]; [done..|].
  rewrite same_parts in *. unfold scan_key. rewrite same_parts.
  assert (row * g_virtual_part_cnt + g_virtual_part_cnt <= g_synth_table_size) by nia.
  assert (0 <= i * g_virtual_part_cnt <= 2 ^ 62) by nia.
  rewrite (u64_small (row + i)) by (unfold is_u64; lia). rewrite (u64_small (_ * _)) by (unfold is_u64; lia).
  rewrite u64_small by (unfold is_u64; lia). lia.
Qed.

Lemma scan_conflict_false n i row part keys : scan_conflict n i row part keys = false <->
  forall j, i <= j < i + Z.of_nat n -> scan_key row part j ∉ keys.
Proof using Type.
  revert i. induction n as [|n IH]; intros i; cbn [scan_conflict]; [split; [intros _ j; lia|done]|].
  rewrite orb_false_iff, bool_decide_eq_false, IH. split.
  - intros [Hi Hj] j ?. destruct (decide (j = i)) as [->|]; [done|]. apply Hj. lia.
  - intros H. split; [apply H; lia|]. intros j ?. apply H. lia.
Qed.

Lemma scan_insert_spec n i row part keys k : k ∈ scan_insert n i row part keys <->
  (exists j, i <= j < i + Z.of_nat n /\ k = scan_key row part j) \/ k ∈ keys.
Proof using Type.
  revert i keys. induction n as [|n IH]; intros i keys; cbn [scan_insert].
  { split; [by right|]. by intros [(j & ? & _)|?]; [lia|]. }
  rewrite IH, elem_of_union, elem_of_singleton. split.
  - intros [(j & ? & ->)|[->|?]]; [left; exists j; split; [lia|done]|left; exists i; split; [lia|done]|by right].
  - intros [(j & ? & ->)|?]; [|by right; right]. destruct (decide (j = i)) as [->|]; [by right; left|].
    left. exists j. split; [lia|done].
Qed.

(** *** The loop *)

Definition st_ok (parts : list Z) (st : list ycsb_request * gset Z) : Prop :=
  Forall (request_ok parts) st.1 /\ NoDup (concat (map touched st.1)) /\
  forall k, k ∈ st.2 <-> k ∈ concat (map touched st.1).

Lemma keep_request_ok parts row part req st : st_ok parts st -> request_ok parts req ->
  1 <= row < g_synth_table_size / g_virtual_part_cnt -> 0 <= part < g_part_cnt ->
  key req = primary_key row part ->
  st_ok parts (keep_request req row part st) /\
  (length st.1 <= length (keep_request req row part st).1 <= S (length st.1))%nat /\
  (st.1 = [] -> (keep_request req row part st).1 = [req]).
Proof using ok.
  bounds. intros (Hreqs & Hnd & Hset) Hok Hrow Hpart Hkey.
  assert (forall ks keys, touched req = ks -> NoDup ks -> (forall k, k ∈ ks -> k ∉ st.2) ->
    (forall k, k ∈ keys <-> k ∈ ks \/ k ∈ st.2) -> st_ok parts (st.1 ++ [req], keys)) as Hsnoc.
  { intros ks keys Ht Hks Hdis Hkeys. split_and!; cbn.
    - apply Forall_app. split; [done|by apply Forall_singleton].
    - rewrite map_app, concat_app. cbn. rewrite app_nil_r, Ht. apply NoDup_app. split_and!; [done| |done].
      intros k Hk Hin. apply (Hdis k Hin). by apply Hset.
    - intros k. rewrite map_app, concat_app. cbn. rewrite app_nil_r, Ht, elem_of_app, Hkeys, Hset. tauto. }
  unfold keep_request. case_bool_decide as E.
  - pose proof (r_scan _ _ Hok E) as Hlen. rewrite Hlen.
    destruct (scan_conflict _ _ _ _ _) eqn:Hc.
    { split_and!; [done|lia|lia|]. intros Hnil. exfalso.
      assert (scan_conflict (Z.to_nat SCAN_LEN) 0 row part st.2 = false) as Hf; [|congruence].
      apply scan_conflict_false. intros j _. rewrite Hset, Hnil. apply not_elem_of_nil. }
    split_and!; cbn; [|rewrite length_app; cbn; lia..|by intros ->].
    rewrite scan_conflict_false in Hc.
    assert (touched req = map (scan_key row part) (seqZ 0 SCAN_LEN)) as Ht.
    { unfold touched. rewrite decide_True, Hlen by done. apply map_ext_in. intros i Hi%list_elem_of_In%elem_of_seqZ.
      rewrite scan_key_value by (done || lia). by rewrite Hkey. }
    eapply Hsnoc; [exact Ht| | |].
    + apply NoDup_fmap_2_strong; [|apply NoDup_seqZ]. intros i j Hi%elem_of_seqZ Hj%elem_of_seqZ.
      rewrite !scan_key_value by (done || lia). nia.
    + intros k (j & -> & Hj%elem_of_seqZ)%list_elem_of_fmap. apply Hc. lia.
    + intros k. rewrite scan_insert_spec, list_elem_of_fmap. split.
      * intros [(j & ? & ->)|?]; [left; exists j; split; [done|apply elem_of_seqZ; lia]|by right].
      * intros [(j & -> & Hj%elem_of_seqZ)|?]; [left; exists j; split; [lia|done]|by right].
  - destruct (decide _) as [Hin|Hni].
    { split_and!; [done|lia|lia|]. intros Hnil. rewrite Hset, Hnil in Hin. by apply not_elem_of_nil in Hin. }
    split_and!; cbn; [|rewrite length_app; cbn; lia..|by intros ->].
    apply (Hsnoc [key req]); [unfold touched; by rewrite decide_False|apply NoDup_singleton| |].
    + by intros k ->%list_elem_of_singleton.
    + intros k. rewrite elem_of_union, elem_of_singleton, list_elem_of_singleton. tauto.
Qed.

(** *** The order *)

Lemma keys_ascend_sorted l : StronglySorted (not_after key_gt) l -> NoDup (map key l) ->
  keys_ascend l = true /\ StronglySorted (fun a b => key a < key b) l.
Proof using Type.
  induction 1 as [|a l Hs IH Ha]; [split; [done|constructor]|]. cbn. intros [Hni Hnd]%NoDup_cons.
  destruct (IH Hnd) as [IH1 IH2].
  assert (Forall (fun b => key a < key b) l) as Hlt.
  { rewrite Forall_forall in *. intros b Hb. specialize (Ha b Hb). unfold not_after, key_gt in Ha. b2p.
    assert (key a <> key b); [|lia]. intros Heq. apply Hni. rewrite Heq. by apply list_elem_of_fmap_2. }
  split; [|by constructor]. destruct l as [|b l]; [done|]. apply Forall_cons in Hlt as [Hlt _].
  apply andb_true_intro. split; [by apply Z.ltb_lt|done].
Qed.

Lemma order_requests_ok parts l : l <> [] -> Forall (request_ok parts) l -> NoDup (concat (map touched l)) ->
  exists l', order_requests l = Some l' /\ l' ≡ₚ l /\
    (g_key_order = true -> StronglySorted (fun a b => key a < key b) l').
Proof using ok.
  intros Hne Hl Hnd. unfold order_requests. destruct g_key_order eqn:E; [|exists l; split_and!; [done|done|congruence]].
  destruct (bubble_sort_spec key_gt) with (i := (length l - 1)%nat) (l1 := l) (l2 := @nil ycsb_request) as [Hs Hp].
  - unfold key_gt. intros a b ?. b2p. lia.
  - unfold key_gt. intros a b c ??. b2p. lia.
  - left. destruct l; [done|]. cbn. lia.
  - constructor.
  - by intros ? ? ? ?%not_elem_of_nil.
  - rewrite app_nil_r in *. destruct (keys_ascend_sorted _ Hs) as [Hasc Hlt].
    { rewrite Hp. by eapply keys_NoDup. }
    cbv zeta. rewrite Hasc. rewrite c_assert_true.
    + exists (bubble_sort key_gt (length l - 1) l). done.
    + rewrite (Permutation_length Hp). by destruct l.
Qed.


Context {dd : DoubleOps} (g_zipf_theta g_perc_multi_part g_read_perc g_write_perc : double).
Context (drand48 : nat -> double) (lrand48 : nat -> Z) (Hlrand : forall i, 0 <= lrand48 i).

Lemma choose_parts_ok thd i : 0 <= thd -> exists parts,
  choose_parts g_perc_multi_part drand48 lrand48 thd i = Some (parts, S (S i)) /\
  NoDup parts /\ Forall (fun p => 0 <= p < g_part_cnt) parts /\ 1 <= Z.of_nat (length parts) <= Z.min 2 g_part_per_txn.
Proof using ok Hlrand.
  bounds. intros Hthd. unfold choose_parts, ybind, drand, lrand. specialize (Hlrand (S i)).
  assert (0 < g_virtual_part_cnt) as Hpos by lia.
  assert (forall r, 0 <= r -> 0 <= u64 (Z.rem r g_virtual_part_cnt) < g_virtual_part_cnt) as Hrem.
  { intros r Hr. rewrite Z.rem_mod_nonneg by lia. pose proof (Z.mod_pos_bound r g_virtual_part_cnt Hpos) as [? ?].
    rewrite u64_small; [done|]. split; [done|]. etrans; [done|]. lia. }
  pose proof (Z.mod_pos_bound thd g_virtual_part_cnt Hpos) as Hmod. specialize (Hrem (lrand48 (S i)) Hlrand).
  destruct (d_lt _ _); unfold ylift.
  - destruct (part_loop_ok (Z.to_nat g_part_per_txn) 0 thd (lrand48 (S i)) []) as (parts & -> & Hnd & Hsub & Hl & Hne);
      [lia|constructor|by intros ? ?%not_elem_of_nil|].
    exists parts. split_and!; [done|done| | |].
    + apply Forall_forall. intros p Hp%Hsub. rewrite same_parts.
      apply elem_of_cons in Hp as [->|Hp]; [lia|]. apply list_elem_of_singleton in Hp as ->. lia.
    + destruct parts; [by destruct Hne; [lia|]|cbn; lia].
    + apply Z.min_glb; [|cbn in Hl; lia].
      pose proof (submseteq_length _ _ (NoDup_submseteq _ _ Hnd Hsub)). cbn in *. lia.
  - rewrite c_assert_true by (apply andb_true_intro; split; [apply negb_true_iff, Z.eqb_neq|apply Z.leb_le]; lia).
    rewrite same_parts. eexists. split_and!; [done|apply NoDup_singleton| |cbn; lia|cbn; lia].
    apply Forall_singleton. by destruct FIRST_PART_LOCAL.
Qed.

(** *** Row numbers *)

Context (z : zipf_state) (zeta_2_theta : double).
Context (Hn : the_n z = g_synth_table_size / g_virtual_part_cnt - 1).
Context (Htheta : d_eq g_zipf_theta g_zipf_theta = true).
(** What [zipf] needs of the doubles, where it comes to the last line. *)
Context (Htail : forall i,
  d_lt (d_mul (drand48 i) (denom z)) (d_add (d_of 1) (d_pow (d_div (d_of 1) (d_of 2)) g_zipf_theta)) = false ->
  0 <= zipf_tail z (the_n z) g_zipf_theta zeta_2_theta (drand48 i) < the_n z).

Lemma zipf_ok i : exists v, zipf g_zipf_theta drand48 z zeta_2_theta (the_n z) g_zipf_theta i = Some (v, S i) /\
  1 <= v <= the_n z.
Proof using ok Hn Htheta Htail.
  pose proof rows_bound as [Hb _]. unfold zipf, ybind, ylift, drand.
  rewrite c_assert_true by (by rewrite Z.eqb_refl, Htheta). cbv zeta.
  destruct (d_lt _ _); [exists 1; split; [done|lia]|].
  destruct (d_lt _ (d_add _ _)) eqn:Hlt; [exists 2; split; [done|lia]|].
  eexists. split; [done|]. specialize (Htail i Hlt). rewrite u64_small by (unfold is_u64; lia). lia.
Qed.


Lemma gen_request_ok parts tmp st i : st_ok parts st -> Forall (fun p => 0 <= p < g_part_cnt) parts ->
  1 <= Z.of_nat (length parts) <= 2 -> 0 <= tmp < g_req_per_query ->
  exists st', gen_request g_zipf_theta g_read_perc g_write_perc drand48 lrand48 z zeta_2_theta parts tmp st i =
      Some (st', S (S (S i))) /\ st_ok parts st' /\
    (length st.1 <= length st'.1 <= S (length st.1))%nat /\ (st.1 = [] -> st'.1 <> []).
Proof using ok Hn Htheta Htail.
  bounds. intros Hst Hparts Hlen Htmp. pose proof rows_bound as [Hrows _].
  unfold gen_request, ybind, drand, lrand.
  assert (u64 (tmp * Z.of_nat (length parts)) = tmp * Z.of_nat (length parts)) as -> by (apply u64_small; unfold is_u64; nia).
  destruct (lookup_lt_is_Some_2 parts (Z.to_nat (tmp * Z.of_nat (length parts) / g_req_per_query))) as [part Hpart].
  { assert (0 <= tmp * Z.of_nat (length parts) / g_req_per_query < Z.of_nat (length parts)); [|lia].
    split; [apply Z.div_pos; nia|apply Z.div_lt_upper_bound; nia]. }
  rewrite Hpart. unfold ylift at 1. unfold table_size, udiv.
  rewrite (proj2 (Z.eqb_neq g_virtual_part_cnt 0)) by lia. unfold ylift at 1.
  rewrite (u64_small (_ - 1)) by (unfold is_u64; lia). rewrite <- Hn.
  destruct (zipf_ok (S i)) as (row & -> & Hrow). unfold ylift.
  rewrite c_assert_true by (apply Z.ltb_lt; lia). cbv zeta. unfold yret.
  set (req := mkRequest _ _ _ _). rewrite Forall_forall in Hparts.
  assert (0 <= part < g_part_cnt) as Hp by by eapply Hparts, list_elem_of_lookup_2.
  assert (1 <= row < g_synth_table_size / g_virtual_part_cnt) as Hr by lia.
  destruct (keep_request_ok parts row part req st) as (Hst' & Hl & Hne); [done| |done|done|done|].
  - destruct (primary_key_value row part Hr Hp) as [Hk Hb]. split; subst req; cbn.
    + unfold choose_type. destruct (d_lt _ _); [by left|]. destruct (_ && _); tauto.
    + done.
    + rewrite Hk, Z.add_comm, Z_mod_plus_full, Z.mod_small by done. by eapply list_elem_of_lookup_2.
    + intros ->. by rewrite bool_decide_eq_true_2.
  - eexists. split_and!; [done|done|lia|lia|]. intros Hnil. by rewrite Hne.
Qed.

Lemma request_loop_ok n tmp parts st i : st_ok parts st -> Forall (fun p => 0 <= p < g_part_cnt) parts ->
  1 <= Z.of_nat (length parts) <= 2 -> 0 <= tmp -> tmp + Z.of_nat n <= g_req_per_query ->
  exists st' i', request_loop g_zipf_theta g_read_perc g_write_perc drand48 lrand48 n tmp z zeta_2_theta parts st i =
      Some (st', i') /\ st_ok parts st' /\
    (length st.1 <= length st'.1 <= n + length st.1)%nat /\ ((0 < n)%nat -> st'.1 <> []).
Proof using ok Hn Htheta Htail.
  intros Hst Hparts Hlen. revert tmp st i Hst. induction n as [|n IH]; intros tmp st i Hst H0 H1; cbn [request_loop].
  { eexists _, _. split_and!; [done|done|lia|lia|lia]. }
  unfold ybind. destruct (gen_request_ok parts tmp st i) as (st1 & -> & Hst1 & Hl & Hne); [done..|lia|].
  destruct (IH (tmp + 1) st1 (S (S (S i)))) as (st' & i' & -> & Hst' & Hl' & Hne'); [done|lia|lia|].
  eexists _, _. split_and!; [done|done|lia|lia|]. intros _ Hnil.
  rewrite Hnil in Hl'. cbn in Hl'. destruct (st1.1) eqn:E; cbn in *; [|lia]. destruct (st.1); cbn in *; [by destruct Hne|lia].
Qed.

(** *** [gen_requests] *)

Lemma gen_requests_ok thd i : 0 <= thd -> exists q i',
  gen_requests g_zipf_theta g_perc_multi_part g_read_perc g_write_perc drand48 lrand48 z zeta_2_theta thd i =
    Some (q, i') /\ query_ok q.
Proof using ok Hlrand Hn Htheta Htail.
  bounds. intros Hthd. unfold gen_requests, ybind. unfold ylift at 1.
  rewrite c_assert_true by (rewrite same_parts, Z.eqb_refl; apply orb_true_r).
  destruct (choose_parts_ok thd i Hthd) as (parts & -> & Hnd & Hparts & Hlen).
  destruct (request_loop_ok (Z.to_nat g_req_per_query) 0 parts ([], ∅) (S (S i))) as (st & i' & -> & Hst & Hl & Hne);
    [|done|lia|lia|lia|].
  { split_and!; cbn; [constructor|constructor|]. set_solver. }
  destruct Hst as (Hreqs & Honce & _).
  destruct (order_requests_ok parts st.1) as (l & -> & Hp & Hs); [apply Hne; lia|done|done|].
  cbn. eexists _, _. split; [done|]. split; unfold part_num, request_cnt; cbn.
  - done.
  - done.
  - rewrite (Permutation_length Hp). cbn in Hl. split; [|lia].
    destruct (st.1); cbn; [by destruct Hne; [lia|]|lia].
  - by rewrite Hp.
  - by rewrite Hp.
  - done.
Qed.
End valid.

(** For any doubles: with a denominator that is not zero and numbers from the tail that
    are below [the_n] the generator makes a valid query. *)
Lemma query_init_ok {yc : YcsbConfig} {ok : YcsbOk} {dd : DoubleOps} g_zipf_theta g_perc_multi_part
    g_read_perc g_write_perc drand48 lrand48 z thd_id i
  (Hlrand : forall i, 0 <= lrand48 i)
  (Htheta : d_eq g_zipf_theta g_zipf_theta = true)
  (Hn : the_n z = g_synth_table_size / g_virtual_part_cnt - 1)
  (Hdenom : d_eq (denom z) (d_of 0) = false)
  (Htail : forall i,
    d_lt (d_mul (drand48 i) (denom z)) (d_add (d_of 1) (d_pow (d_div (d_of 1) (d_of 2)) g_zipf_theta)) = false ->
    0 <= zipf_tail z (the_n z) g_zipf_theta (zeta 2 g_zipf_theta) (drand48 i) < the_n z)
  (Hthd : 0 <= thd_id) :
  exists q i', query_init g_zipf_theta g_perc_multi_part g_read_perc g_write_perc drand48 lrand48 z thd_id i =
    Some (q, i') /\ query_ok q.
Proof.
  pose proof rows_bound as [Hrows _]. unfold query_init, ybind, ylift.
  rewrite c_assert_true; [by apply gen_requests_ok|].
  rewrite Hdenom, Hn, (proj2 (Z.eqb_neq _ 0)) by lia. done.
Qed.

(** *** Exact arithmetic *)

Section exact.
#[local] Open Scope R_scope.

#[local] Instance real_doubles : DoubleOps := {|
  double := R;
  d_lt a b := if Rlt_dec a b then true else false;
  d_le a b := if Rle_dec a b then true else false;
  d_add := Rplus;
  d_sub := Rminus;
  d_mul := Rmult;
  d_div := Rdiv;
  d_pow := real_pow;
  d_of := IZR;
  d_trunc := real_trunc |}.

Lemma real_eq (a b : R) : d_eq a b = true <-> a = b.
Proof. unfold d_eq. cbn. destruct (Rle_dec a b), (Rle_dec b a); cbn; split; try done; intros; lra. Qed.

(** Every summand of [zeta] is positive. *)
Lemma zeta_loop_grows n i theta (sum : R) : (1 <= i)%Z -> sum <= zeta_loop n i theta sum /\
  ((0 < n)%nat -> sum < zeta_loop n i theta sum).
Proof.
  revert i sum. induction n as [|n IH]; intros i sum Hi; cbn [zeta_loop]; [split; [lra|lia]|].
  assert (0 < real_pow (1 / IZR i) theta) as Hp.
  { rewrite real_pow_pos; [apply Rpower_gt_0|]. apply Rdiv_lt_0_compat; [lra|]. apply IZR_lt. lia. }
  cbn [d_add d_pow d_div d_of real_doubles].
  destruct (IH (i + 1)%Z (sum + real_pow (1 / IZR i) theta)) as [H _]; [lia|]. split; [|intros _]; lra.
Qed.

Lemma zeta_2 theta : zeta 2 theta = 1 + real_pow (1 / 2) theta /\ 0 < zeta 2 theta.
Proof.
  assert (zeta 2 theta = 1 + real_pow (1 / 2) theta) as ->.
  { unfold zeta. change (Z.to_nat 2) with 2%nat. cbn. rewrite Rdiv_1_r, (real_pow_pos 1), Rpower_1_l by lra. change (1 + 1)%Z with 2%Z. lra. }
  split; [done|]. rewrite real_pow_pos by lra. pose proof (Rpower_gt_0 (1 / 2) theta). lra.
Qed.

Lemma zeta_grows n theta : ((2 <= n)%Z -> zeta 2 theta <= zeta n theta) /\ ((2 < n)%Z -> zeta 2 theta < zeta n theta).
Proof.
  assert (forall m, zeta_loop (S (S m)) 1 theta 0 = zeta_loop m 3 theta (zeta 2 theta)) as E by done.
  unfold zeta at 2 4. split; intros Hn; replace (Z.to_nat n) with (S (S (Z.to_nat (n - 2)))) by lia;
    change (d_of 0) with 0; rewrite E; apply zeta_loop_grows; lia.
Qed.

(** The numbers that [zipf] computes in its last line are row numbers. *)
Lemma zipf_tail_real n theta u : (2 <= n)%Z -> 0 <= theta < 1 -> 0 <= u < 1 ->
  d_lt (d_mul u (zeta n theta)) (d_add (d_of 1) (d_pow (d_div (d_of 1) (d_of 2)) theta)) = false ->
  (0 <= zipf_tail (mkZipf _ n (zeta n theta)) n theta (zeta 2 theta) u < n)%Z.
Proof.
  intros Hn Ht Hu. destruct (zeta_2 theta) as [E2 H2]. destruct (zeta_grows n theta) as [Hg Hg'].
  assert (d_add (d_of 1) (d_pow (d_div (d_of 1) (d_of 2)) theta) = zeta 2 theta) as -> by done.
  cbn [d_lt d_mul real_doubles]. destruct (Rlt_dec _ _) as [|Hlt]; [done|]. intros _. apply Rnot_lt_le in Hlt.
  specialize (Hg Hn). destruct (decide (n = 2%Z)) as [->|]; [nra|].
  assert (2 < n)%Z as Hn2 by lia. specialize (Hg' Hn2).
  destruct (tail_bounds n theta _ u Hn2 Ht (proj2 Hu) _ H2 Hg' Hlt) as [Hl Hr].
  unfold zipf_tail. cbn [d_lt d_mul d_add d_sub d_div d_pow d_of d_trunc denom real_doubles]. lia.
Qed.
End exact.
#[local] Existing Instance real_doubles.


(** *** A concrete generator: 16 rows, four partitions, no skew

    The doubles are rationals, and [pow] is exact for the exponents 0 and 1, the only
    ones that [g_zipf_theta = 0] leads to. *)

Definition q_pow (x y : Q) : Q := if Qeq_bool y 1 then x else 1%Q.
Definition q_doubles : DoubleOps := {|
  double := Q;
  d_lt a b := negb (Qle_bool b a);
  d_le := Qle_bool;
  d_add a b := Qred (Qplus a b);
  d_sub a b := Qred (Qminus a b);
  d_mul a b := Qred (Qmult a b);
  d_div a b := Qred (Qdiv a b);
  d_pow := q_pow;
  d_of := inject_Z;
  d_trunc := Qfloor |}.

Definition ex_config : YcsbConfig := {|
  g_synth_table_size := 16; g_virtual_part_cnt := 4; g_part_cnt := 4; g_part_per_txn := 3; g_req_per_query := 6;
  SCAN_LEN := 3; FIRST_PART_LOCAL := true; g_key_order := true; HSTORE := true |}.
Lemma ex_config_ok : @YcsbOk ex_config.
Proof. split; cbn; lia. Qed.

Definition ex_drand (i : nat) : Q := (Z.of_nat i * 7 mod 10) # 10.
Definition ex_lrand (i : nat) : Z := Z.of_nat i * 5.
Definition ex_zipf : @zipf_state q_doubles := @mkZipf q_doubles 3 3%Q.
#[local] Notation ex_query :=
  (query_init (yc := ex_config) (dd := q_doubles) 0%Q 1%Q (1 # 2) (4 # 10) ex_drand ex_lrand ex_zipf 2 0%nat).

(** What the generator returns for them, evaluated. *)
Lemma ycsb_query_example : exists q i', ex_query = Some (q, i') /\ query_ok (yc := ex_config) q /\ request_cnt q = 2.
Proof.
  destruct (query_init_ok (yc := ex_config) (ok := ex_config_ok) (dd := q_doubles) 0%Q 1%Q (1 # 2) (4 # 10)
    ex_drand ex_lrand ex_zipf 2 0%nat) as (q & i' & Hq & Hok); try done.
  - intros i. unfold ex_lrand. lia.
  - intros i _. unfold ex_drand. pose proof (Z.mod_pos_bound (Z.of_nat i * 7) 10 ltac:(lia)) as Hk.
    set (k := (Z.of_nat i * 7) mod 10) in *. clearbody k. cbn [the_n ex_zipf].
    assert (k = 0 \/ k = 1 \/ k = 2 \/ k = 3 \/ k = 4 \/ k = 5 \/ k = 6 \/ k = 7 \/ k = 8 \/ k = 9) as Hc by lia.
    destruct Hc as [->|[->|[->|[->|[->|[->|[->|[->|[->| ->]]]]]]]]]; vm_compute; split; congruence.
  - exists q, i'. split; [exact Hq|]. split; [exact Hok|].
    assert (match ex_query with Some (q, _) => request_cnt q | None => 0 end = 2) as Hc by (vm_compute; reflexivity).
    by rewrite Hq in Hc.
Qed.

(** The same table with a skewed distribution, exact. *)
Definition ex_real_drand (i : nat) : R := (if Nat.even i then 1 / 4 else 9 / 10)%R.

