(* ===== verification/YcsbLoad.v ===== *)
(** * YCSB: the loader

    [ycsb_wl::key_to_part] and [init_table_slice] of
    src/benchmarks/ycsb/ycsb_wl.cpp, run by g_init_parallelism threads at a time: each
    takes a number from [next_tid], waits for the others and loads its slice of the
    keys.  The steps of the threads interleave; the index is any that satisfies the
    interface of Index.v. *)

From Stdlib Require Import Ascii.
From stdpp Require Import list gmap functions.
From S2P Require Import Prelude Global Storage Index IndexHash YcsbQuery.

(** ** Partitions of keys *)

Section workload.
Context {yc : YcsbConfig}.

Definition key_to_part (key : Z) : option Z :=
  do! rows_per_part <- udiv g_synth_table_size g_part_cnt;;
  do! part <- udiv key rows_per_part;;
  Some (s32 part).

(** ** The contents of a row *)

Section row.
(** [after_key] and [after_value]: the bytes of the stack behind the two variables
    that [set_value] is called with, which are shorter than a field. *)
Context (schema : Catalog) (after_key after_value : list Z).

Definition hello : list Z := [104; 101; 108; 108; 111; 0].

Fixpoint fill_fields (n fid : nat) (data : list Z) : option (list Z) :=
  match n with
  | O => Some data
  | S n =>
      do! data <- Row.set_value false schema fid (hello ++ after_value) 0 0 data;;
      fill_fields n (S fid) data
  end.

Definition fill_row (primary_key : Z) (data : list Z) : option (list Z) :=
  do! data <- Row.set_value false schema 0 (Row.le_bytes 8 primary_key ++ after_key) 0 0 data;;
  fill_fields (field_cnt schema) 0 data.
End row.

(** ** The threads *)

(** At the fetch-and-add, in the loop that waits for the others, at the head of the
    loop over the keys, at the end. *)
Inductive pc :=
  | Start
  | Barrier (tid : Z)
  | Fill (tid key : Z)
  | Done (tid : Z).

#[export] Instance pc_eq_dec : EqDecision pc.
Proof. solve_decision. Defined.

(** [rows]: the primary key and the contents of every row. *)
Record lstate (St : Type) := mkLoad {
  next_tid : Z;
  pcs : list pc;
  index : St;
  rows : list (Z * list Z) }.
Arguments mkLoad {St}.
Arguments next_tid {St}.
Arguments pcs {St}.
Arguments index {St}.
Arguments rows {St}.

Context {St : Type} `{IndexOps St}.
Context (g_init_parallelism : Z) (schema : Catalog) (after_key after_value : list Z).
(** What [get_new_row] finds in the memory of a new row. *)
Context (fresh : Z -> list Z).

Definition slice_size : Z := g_synth_table_size / g_init_parallelism.

Definition start (ix : St) : lstate St := mkLoad 0 (replicate (Z.to_nat g_init_parallelism) Start) ix [].

Definition set_pc (t : nat) (p : pc) (s : lstate St) : lstate St :=
  mkLoad (next_tid s) (<[t := p]> (pcs s)) (index s) (rows s).

(** One row of the loop; a row is known by its position in [rows]. *)
Definition load_row (key : Z) (s : lstate St) : option (lstate St) :=
  do! part_id <- key_to_part key;;
  do! data <- fill_row schema after_key after_value key (fresh key);;
  assert! 0 <=? part_id;;
  do! ix <- ix_insert key (length (rows s)) (Z.to_nat part_id) true (index s);;
  Some (mkLoad (next_tid s) (pcs s) ix (rows s ++ [(key, data)])).

Definition thread_step (t : nat) (s : lstate St) : option (lstate St) :=
  match pcs s !! t with
  | Some Start =>
      let tid := next_tid s in
      assert! (g_synth_table_size mod g_init_parallelism =? 0) && (tid <? g_init_parallelism);;
      Some (set_pc t (Barrier tid) (mkLoad (u32 (tid + 1)) (pcs s) (index s) (rows s)))
  | Some (Barrier tid) =>
      if next_tid s <? g_init_parallelism then Some s
      else
        assert! next_tid s =? g_init_parallelism;;
        Some (set_pc t (Fill tid (u64 (slice_size * tid))) s)
  | Some (Fill tid key) =>
      if key <? u64 (slice_size * (tid + 1)) then
        do! s <- load_row key s;;
        Some (set_pc t (Fill tid (key + 1)) s)
      else Some (set_pc t (Done tid) s)
  | Some (Done _) | None => None
  end.

Definition step (s s' : lstate St) : Prop := exists t, thread_step t s = Some s'.

(** A schedule, for concrete runs. *)
Fixpoint exec (ts : list nat) (s : lstate St) : option (lstate St) :=
  match ts with
  | [] => Some s
  | t :: ts => do! s <- thread_step t s;; exec ts s
  end.

Definition finished (p : pc) : bool := match p with Done _ => true | _ => false end.
End workload.
Arguments mkLoad {St}.
Arguments next_tid {St}.
Arguments pcs {St}.
Arguments index {St}.
Arguments rows {St}.

(** ** [key_to_part] *)

Section parts.
Context {yc : YcsbConfig}.
Context (Hparts : 1 <= g_part_cnt <= 2 ^ 30) (Hsize : g_part_cnt <= g_synth_table_size).

Lemma rows_per_part_pos : 1 <= g_synth_table_size / g_part_cnt.
Proof using Hparts Hsize. apply Z.div_le_lower_bound; lia. Qed.

Lemma key_to_part_value key : 0 <= key < g_synth_table_size ->
  key_to_part key = Some (key / (g_synth_table_size / g_part_cnt)).
Proof using Hparts Hsize.
  pose proof rows_per_part_pos as Hr. intros Hk. unfold key_to_part, udiv.
  rewrite !(proj2 (Z.eqb_neq _ 0)) by lia. f_equal. apply s32_small.
  assert (g_part_cnt <> 0) as Hne by lia. assert (0 < g_part_cnt) as Hpos by lia.
  pose proof (Z.div_mod g_synth_table_size g_part_cnt Hne) as Hd.
  pose proof (Z.mod_pos_bound g_synth_table_size g_part_cnt Hpos) as Hm.
  set (r := g_synth_table_size / g_part_cnt) in *. split; [etrans; [|apply Z.div_pos; lia]; lia|].
  apply Z.div_lt_upper_bound; [lia|]. nia.
Qed.

Lemma key_to_part_below key : g_synth_table_size mod g_part_cnt = 0 -> 0 <= key < g_synth_table_size ->
  exists p, key_to_part key = Some p /\ 0 <= p < g_part_cnt.
Proof using Hparts Hsize.
  pose proof rows_per_part_pos as Hr. intros Hm Hk. rewrite key_to_part_value by done. eexists. split; [done|].
  assert (g_part_cnt <> 0) as Hne by lia. assert (0 < g_part_cnt) as Hpos by lia.
  pose proof (Z.div_mod g_synth_table_size g_part_cnt Hne) as Hd.
  split; [apply Z.div_pos; lia|]. apply Z.div_lt_upper_bound; [lia|]. lia.
Qed.
End parts.

(** [key_to_part] sends every key of the table to one of the partitions exactly if
    their number divides the size of the table: otherwise the last keys belong to a
    partition that the index does not have. *)
Theorem key_to_part_range {yc : YcsbConfig}
  (Hparts : 1 <= g_part_cnt <= 2 ^ 30) (Hsize : g_part_cnt <= g_synth_table_size) :
  (forall key, 0 <= key < g_synth_table_size -> exists p, key_to_part key = Some p /\ 0 <= p < g_part_cnt) <->
  g_synth_table_size mod g_part_cnt = 0.
Proof.
  split; [|by intros; apply key_to_part_below]. intros Hall.
  destruct (Hall (g_synth_table_size - 1)) as (p & Hp & Hb); [lia|].
  rewrite key_to_part_value in Hp by (done || lia). injection Hp as <-.
  pose proof (rows_per_part_pos Hparts Hsize) as Hr.
  assert (g_part_cnt <> 0) as Hne by lia. assert (0 < g_part_cnt) as Hpos by lia.
  pose proof (Z.div_mod g_synth_table_size g_part_cnt Hne) as Hd.
  pose proof (Z.mod_pos_bound g_synth_table_size g_part_cnt Hpos) as Hm.
  set (r := g_synth_table_size / g_part_cnt) in *.
  assert (r <> 0) as Hrne by lia. assert (0 < r) as Hrpos by lia.
  pose proof (Z.div_mod (g_synth_table_size - 1) r Hrne) as Hd2.
  pose proof (Z.mod_pos_bound (g_synth_table_size - 1) r Hrpos) as Hm2.
  set (q := (g_synth_table_size - 1) / r) in *. nia.
Qed.

(** ** The contents of a row *)

Section fill.
Context (schema : Catalog) (after_key after_value : list Z).

(** The columns are not longer than what is copied into them. *)
Record schema_ok : Prop := {
  sc_catalog : catalog_ok schema;
  sc_sizes : Forall (fun c => col_size c <= 6 + Z.of_nat (length after_value)) (columns schema);
  sc_first : exists c, columns schema !! 0%nat = Some c /\ col_size c <= 8 + Z.of_nat (length after_key) }.
Context (Hok : schema_ok).

Lemma set_value_some id col ptr data : columns schema !! id = Some col -> col_size col <= Z.of_nat (length ptr) ->
  tuple_size schema <= Z.of_nat (length data) ->
  exists data', Row.set_value false schema id ptr 0 0 data = Some data' /\ length data' = length data.
Proof using Hok.
  intros Hc Hptr Hdata. destruct Hok as [(Hl & _) _ _].
  destruct (layout_lookup _ _ _ _ _ _ Hl Hc) as (_ & ? & ? & ?).
  unfold Row.set_value, Schema.get_field_size, Schema.get_field_index. rewrite Hc. cbn.
  destruct (Row.memcpy _ _ _ _) as [data'|] eqn:E.
  - exists data'. split; [done|]. by eapply Row.memcpy_length.
  - exfalso. unfold Row.memcpy, Row.read in E. rewrite !(proj2 (Nat.leb_le _ _)) in E by lia. done.
Qed.

Lemma fill_fields_ok n fid data : (fid + n)%nat = field_cnt schema -> tuple_size schema <= Z.of_nat (length data) ->
  exists data', fill_fields schema after_value n fid data = Some data' /\ length data' = length data.
Proof using Hok.
  revert fid data. induction n as [|n IH]; intros fid data Hn Hlen; cbn [fill_fields]; [by exists data|].
  destruct (lookup_lt_is_Some_2 (columns schema) fid) as [c Hc]; [unfold field_cnt in Hn; lia|].
  destruct (set_value_some fid c (hello ++ after_value) data Hc) as (data1 & -> & Hl1).
  - pose proof (sc_sizes Hok) as Hs. rewrite Forall_forall in Hs. specialize (Hs c (list_elem_of_lookup_2 _ _ _ Hc)).
    rewrite length_app. cbn [hello length]. lia.
  - done.
  - destruct (IH (S fid) data1) as (data2 & -> & Hl2); [lia|by rewrite Hl1|]. exists data2. split; [done|lia].
Qed.

Lemma fill_row_ok k data : tuple_size schema <= Z.of_nat (length data) ->
  exists data', fill_row schema after_key after_value k data = Some data' /\ length data' = length data.
Proof using Hok.
  intros Hlen. destruct (sc_first Hok) as (c & Hc & Hs). unfold fill_row.
  destruct (set_value_some 0 c (Row.le_bytes 8 k ++ after_key) data Hc) as (data1 & -> & Hl1).
  - rewrite length_app, Row.le_bytes_length. lia.
  - done.
  - destruct (fill_fields_ok (field_cnt schema) 0 data1) as (data2 & -> & Hl2); [lia|by rewrite Hl1|].
    exists data2. split; [done|lia].
Qed.
End fill.

(** ** The threads together *)

Lemma omap_lookup_unique {A B} (f : A -> option B) (l : list A) i j x y b : NoDup (omap f l) ->
  l !! i = Some x -> l !! j = Some y -> f x = Some b -> f y = Some b -> i = j.
Proof.
  revert i j. induction l as [|a l IH]; intros i j; [done|]. cbn. intros Hnd Hi Hj Hx Hy.
  assert (forall k z, l !! k = Some z -> f z = Some b -> b ∈ omap f l) as Hin.
  { intros k z Hk Hz. apply list_elem_of_omap. exists z. split; [by eapply list_elem_of_lookup_2|done]. }
  destruct i as [|i], j as [|j]; cbn in Hi, Hj; simplify_eq.
  - done.
  - rewrite Hx in Hnd. apply NoDup_cons in Hnd as [Hni _]. by destruct Hni; eapply Hin.
  - rewrite Hy in Hnd. apply NoDup_cons in Hnd as [Hni _]. by destruct Hni; eapply Hin.
  - f_equal. apply IH; [|done..]. destruct (f a); [by apply NoDup_cons in Hnd as [_ ?]|done].
Qed.

Lemma length_omap_le {A B} (f : A -> option B) (l : list A) : (length (omap f l) <= length l)%nat.
Proof. induction l as [|a l IH]; cbn; [done|]. destruct (f a); cbn; lia. Qed.

(** A position of a list is replaced. *)
Lemma omap_insert_same {A B} (f : A -> option B) (l : list A) t x y : l !! t = Some x -> f y = f x ->
  omap f (<[t := y]> l) = omap f l.
Proof.
  revert t. induction l as [|a l IH]; intros [|t]; cbn; [done|done| |].
  - intros [= ->] ->. done.
  - intros Ht Hf. by rewrite IH.
Qed.

Lemma omap_insert_new {A B} (f : A -> option B) (l : list A) t x y b : l !! t = Some x -> f x = None ->
  f y = Some b -> omap f (<[t := y]> l) ≡ₚ b :: omap f l.
Proof.
  revert t. induction l as [|a l IH]; intros [|t]; cbn; [done|done| |].
  - intros [= ->] -> ->. done.
  - intros Ht Hx Hy. destruct (f a) as [b'|]; rewrite (IH t) by done; [apply Permutation_swap|done].
Qed.

Section loader.
Context {yc : YcsbConfig}.
Context {St : Type} {ops : IndexOps St} {laws : IndexLaws St}.
Context (g_init_parallelism : Z) (schema : Catalog) (after_key after_value : list Z) (fresh : Z -> list Z).

(** The settings and the schema fit, and the slots of the index tell the keys of
    the table apart. *)
Record load_ok (ix : St) : Prop := {
  lo_parts : 1 <= g_part_cnt <= 2 ^ 30;
  lo_size : g_part_cnt <= g_synth_table_size < 2 ^ 62;
  lo_divides : g_synth_table_size mod g_part_cnt = 0;
  lo_threads : 1 <= g_init_parallelism < 2 ^ 31;
  lo_slices : g_synth_table_size mod g_init_parallelism = 0;
  lo_schema : schema_ok schema after_key after_value;
  lo_fresh : forall k, tuple_size schema <= Z.of_nat (length (fresh k));
  lo_empty : ix_rep ix (fun _ => []);
  lo_ix_parts : forall p, (p < Z.to_nat g_part_cnt)%nat -> ix_part ix p;
  lo_slots : forall k k' p p', 0 <= k < g_synth_table_size -> 0 <= k' < g_synth_table_size ->
    key_to_part k = Some p -> key_to_part k' = Some p' ->
    ix_slot ix (Z.to_nat p) k = ix_slot ix (Z.to_nat p') k' -> k = k' }.

Context (ix0 : St) (ok : load_ok ix0).

Notation N := g_synth_table_size.
Notation slice := (slice_size g_init_parallelism).
Notation thread_step := (thread_step g_init_parallelism schema after_key after_value fresh).
Notation step := (step g_init_parallelism schema after_key after_value fresh).

Definition tid_of (p : pc) : option Z :=
  match p with Start => None | Barrier tid | Fill tid _ | Done tid => Some tid end.

(** The keys that a thread has loaded. *)
Definition range (p : pc) : Z * Z :=
  match p with
  | Fill tid key => (slice * tid, key)
  | Done tid => (slice * tid, slice * (tid + 1))
  | _ => (0, 0)
  end.

Definition loaded (ps : list pc) (k : Z) : Prop :=
  exists t p, ps !! t = Some p /\ (range p).1 <= k < (range p).2.

Definition slot_of (k : Z) : nat * Z :=
  match key_to_part k with Some p => ix_slot ix0 (Z.to_nat p) k | None => (0%nat, 0) end.

Record linv (s : lstate St) : Prop := {
  li_len : length (pcs s) = Z.to_nat g_init_parallelism;
  li_next : 0 <= next_tid s <= g_init_parallelism;
  li_tids : omap tid_of (pcs s) ≡ₚ seqZ 0 (next_tid s);
  li_fill : forall t tid key, pcs s !! t = Some (Fill tid key) -> slice * tid <= key <= slice * (tid + 1);
  li_slots : forall p k, ix_slot (index s) p k = ix_slot ix0 p k;
  li_parts : forall p, ix_part (index s) p <-> ix_part ix0 p;
  li_rows : forall k, k ∈ (rows s).*1 <-> loaded (pcs s) k;
  li_once : NoDup (rows s).*1;
  li_data : forall r k d, rows s !! r = Some (k, d) -> fill_row schema after_key after_value k (fresh k) = Some d;
  li_index : exists C, ix_rep (index s) C /\
    (forall r k d, rows s !! r = Some (k, d) -> C (slot_of k) = [r]) /\
    (forall k, 0 <= k < N -> ~ loaded (pcs s) k -> C (slot_of k) = []) }.

#[local] Ltac bounds := destruct ok as [? ? ? ? ? ? ? ? ? ?].

Lemma slice_value : slice * g_init_parallelism = N /\ 0 <= slice <= N.
Proof using ok.
  bounds. unfold slice_size. assert (g_init_parallelism <> 0) as Hne by lia.
  pose proof (Z.div_mod N g_init_parallelism Hne). split; [lia|]. split; [apply Z.div_pos; lia|].
  apply Z.div_le_upper_bound; nia.
Qed.

Lemma tid_bound s t p tid : linv s -> pcs s !! t = Some p -> tid_of p = Some tid -> 0 <= tid < next_tid s.
Proof using Type.
  intros I Hp Ht. assert (tid ∈ seqZ 0 (next_tid s)) as Hin.
  { rewrite <- (li_tids s I). apply list_elem_of_omap. exists p. split; [by eapply list_elem_of_lookup_2|done]. }
  apply elem_of_seqZ in Hin. lia.
Qed.

Lemma tid_unique s t t' p p' tid : linv s -> pcs s !! t = Some p -> pcs s !! t' = Some p' ->
  tid_of p = Some tid -> tid_of p' = Some tid -> t = t'.
Proof using Type.
  intros I. eapply omap_lookup_unique. rewrite (li_tids s I). apply NoDup_seqZ.
Qed.

Lemma range_slice p k : (range p).1 <= k < (range p).2 -> 
  (forall tid key, p = Fill tid key -> key <= slice * (tid + 1)) ->
  exists tid, tid_of p = Some tid /\ slice * tid <= k < slice * (tid + 1).
Proof using Type.
  destruct p as [|tid|tid key|tid]; cbn; intros Hk Hf; [lia|lia| |]; exists tid; (split; [done|]).
  - specialize (Hf _ _ eq_refl). lia.
  - lia.
Qed.

Lemma loaded_below s k : linv s -> loaded (pcs s) k -> 0 <= k < N.
Proof using ok.
  intros I (t & p & Hp & Hk). pose proof slice_value as [? ?]. pose proof (li_next s I).
  destruct (range_slice p k Hk) as (tid & Htid & ?); [intros ? ? ->; by apply (li_fill s I t)|].
  pose proof (tid_bound s t p tid I Hp Htid). nia.
Qed.

Lemma key_part k : 0 <= k < N -> exists p, key_to_part k = Some p /\ 0 <= p < g_part_cnt.
Proof using ok. bounds. intros. apply key_to_part_below; done || lia. Qed.

Lemma slot_of_inj k k' : 0 <= k < N -> 0 <= k' < N -> slot_of k = slot_of k' -> k = k'.
Proof using ok.
  intros Hk Hk'. unfold slot_of. destruct (key_part k Hk) as (p & Hp & _), (key_part k' Hk') as (p' & Hp' & _).
  rewrite Hp, Hp'. by apply (lo_slots ix0 ok).
Qed.

(** A key behind those of its thread has not been loaded. *)
Lemma next_not_loaded s t tid key : linv s -> pcs s !! t = Some (Fill tid key) -> key < slice * (tid + 1) ->
  ~ loaded (pcs s) key /\ 0 <= key < N.
Proof using ok.
  intros I Ht Hlt. pose proof (li_fill s I _ _ _ Ht) as Hf. pose proof slice_value as [? ?].
  pose proof (li_next s I). pose proof (tid_bound s t _ tid I Ht eq_refl) as Hb. split; [|nia].
  intros (t' & p & Hp & Hk).
  destruct (range_slice p key Hk) as (tid' & Htid' & ?); [intros ? ? ->; by apply (li_fill s I t')|].
  assert (tid' = tid) as -> by nia. rewrite (tid_unique s t t' _ p tid I Ht Hp eq_refl Htid') in Ht.
  rewrite Hp in Ht. injection Ht as ->. cbn in Hk. lia.
Qed.

(** Without a change of the rows. *)
Lemma linv_move s t p p' n : linv s -> pcs s !! t = Some p -> 0 <= n <= g_init_parallelism ->
  omap tid_of (<[t := p']> (pcs s)) ≡ₚ seqZ 0 n ->
  (forall tid key, p' = Fill tid key -> slice * tid <= key <= slice * (tid + 1)) ->
  (forall k, (range p').1 <= k < (range p').2 <-> (range p).1 <= k < (range p).2) ->
  linv (mkLoad n (<[t := p']> (pcs s)) (index s) (rows s)).
Proof using Type.
  intros I Hp Hn Hperm Hf Hr.
  assert (forall k, loaded (<[t := p']> (pcs s)) k <-> loaded (pcs s) k) as Hl.
  { intros k. split; intros (t' & q & Hq & Hk).
    - apply list_lookup_insert_Some in Hq as [(-> & -> & _)|[? ?]]; [|by exists t', q].
      exists t', p. split; [done|by apply Hr].
    - destruct (decide (t' = t)) as [->|].
      + exists t, p'. rewrite Hp in Hq. injection Hq as <-. split; [|by apply Hr].
        apply list_lookup_insert_eq. by eapply lookup_lt_Some.
      + exists t', q. by rewrite list_lookup_insert_ne. }
  destruct I as [? ? ? Hfill ? ? Hrows ? ? Hix]. split; cbn; try done.
  - by rewrite length_insert.
  - intros t' tid key [(-> & Heq & _)|[? ?]]%list_lookup_insert_Some; [by apply Hf|by eapply Hfill].
  - intros k. by rewrite Hrows, Hl.
  - destruct Hix as (C & ? & ? & Hnil). exists C. split_and!; [done|done|]. intros k Hk Hn'. apply Hnil; [done|].
    by rewrite <- Hl.
Qed.

Lemma load_row_ok s t tid key : linv s -> pcs s !! t = Some (Fill tid key) -> key < slice * (tid + 1) ->
  exists s1, load_row schema after_key after_value fresh key s = Some s1 /\ pcs s1 = pcs s /\
    linv (set_pc t (Fill tid (key + 1)) s1).
Proof using ok.
  intros I Ht Hlt. destruct (next_not_loaded s t tid key I Ht Hlt) as [Hni Hk].
  pose proof (li_fill s I _ _ _ Ht) as Hf. destruct (key_part key Hk) as (part & Hpart & Hp).
  unfold load_row. rewrite Hpart. destruct (fill_row_ok schema after_key after_value (lo_schema ix0 ok) key (fresh key))
    as (data & Hdata & _); [apply (lo_fresh ix0 ok)|]. rewrite Hdata, c_assert_true by (apply Z.leb_le; lia).
  destruct (li_index s I) as (C & Hrep & HC & Hnil).
  assert (ix_slot (index s) (Z.to_nat part) key = slot_of key) as Hslot.
  { rewrite (li_slots s I). unfold slot_of. by rewrite Hpart. }
  destruct (ix_insert_law (index s) C key (length (rows s)) (Z.to_nat part) true Hrep) as (ix & -> & Hrep' & Hs' & Hp').
  { apply (li_parts s I), (lo_ix_parts ix0 ok). lia. }
  { rewrite Hslot. intros Hne. by rewrite Hnil in Hne. }
  eexists. split; [done|]. split; [done|]. rewrite Hslot, (Hnil key Hk Hni) in Hrep'.
  assert (forall k, loaded (<[t := Fill tid (key + 1)]> (pcs s)) k <-> loaded (pcs s) k \/ k = key) as Hl.
  { intros k. split.
    - intros (t' & q & Hq & Hr). apply list_lookup_insert_Some in Hq as [(-> & <- & _)|[? ?]].
      + cbn in Hr. destruct (decide (k = key)); [by right|]. left. exists t', (Fill tid key). split; [done|]. cbn. lia.
      + left. by exists t', q.
    - intros [(t' & q & Hq & Hr)| ->].
      + destruct (decide (t' = t)) as [->|]; [|exists t', q; by rewrite list_lookup_insert_ne].
        exists t, (Fill tid (key + 1)). rewrite Ht in Hq. injection Hq as <-. split.
        * apply list_lookup_insert_eq. by eapply lookup_lt_Some.
        * cbn in *. lia.
      + exists t, (Fill tid (key + 1)). split; [apply list_lookup_insert_eq; by eapply lookup_lt_Some|cbn; lia]. }
  split; cbn.
  - rewrite length_insert. apply (li_len s I).
  - apply (li_next s I).
  - rewrite (omap_insert_same _ _ _ _ _ Ht); [apply (li_tids s I)|done].
  - intros t' tid' key' [(-> & [= <- <-] & _)|[? Hq]]%list_lookup_insert_Some; [lia|by eapply (li_fill s I)].
  - intros p k. rewrite Hs'. apply (li_slots s I).
  - intros p. rewrite Hp'. apply (li_parts s I).
  - intros k. rewrite fmap_app, elem_of_app, (li_rows s I), Hl. cbn. rewrite list_elem_of_singleton. tauto.
  - rewrite fmap_app. apply NoDup_app. split_and!; [apply (li_once s I)| |apply NoDup_singleton].
    intros k Hin ->%list_elem_of_singleton. by apply Hni, (li_rows s I).
  - intros r k d Hr. apply lookup_app_Some in Hr as [Hr|[_ Hr]]; [by eapply (li_data s I)|].
    apply list_lookup_singleton_Some in Hr as [_ [= <- <-]]. done.
  - eexists. split; [exact Hrep'|]. split.
    + intros r k d Hr. apply lookup_app_Some in Hr as [Hr|[Hge Hr]].
      * assert (loaded (pcs s) k) as Hld by (apply (li_rows s I), list_elem_of_fmap; exists (k, d); split; [done|by eapply list_elem_of_lookup_2]).
        rewrite fn_lookup_insert_ne; [by eapply HC|]. intros Heq%slot_of_inj; [congruence|done|by eapply loaded_below].
      * apply list_lookup_singleton_Some in Hr as [Hr [= <- <-]]. rewrite fn_lookup_insert. do 2 f_equal. lia.
    + intros k Hkb Hnl. rewrite Hl in Hnl. rewrite fn_lookup_insert_ne; [apply Hnil; tauto|].
      intros Heq%slot_of_inj; [apply Hnl; by right|done|done].
Qed.

Lemma u64_slice i : 0 <= i <= g_init_parallelism -> u64 (slice * i) = slice * i.
Proof using ok. pose proof slice_value. bounds. intros. apply u64_small. unfold is_u64. nia. Qed.

(** An unfinished thread takes a step, which keeps the invariant. *)
Lemma thread_step_ok s t p : linv s -> pcs s !! t = Some p -> finished p = false ->
  exists s', thread_step t s = Some s' /\ linv s'.
Proof using ok.
  intros I Hp Hf. pose proof (li_next s I) as Hnext. pose proof slice_value as [? ?].
  unfold YcsbLoad.thread_step. rewrite Hp. destruct p as [|tid|tid key|tid]; [| | |done].
  - assert (next_tid s < g_init_parallelism) as Hlt.
    { assert (length (omap tid_of (pcs s)) < length (pcs s))%nat as Hl.
      { clear -Hp. revert t Hp. induction (pcs s) as [|q l IH]; intros [|t] Hp; [done|done| |]; cbn in *.
        - injection Hp as ->. cbn. pose proof (length_omap_le tid_of l). lia.
        - specialize (IH t Hp). destruct (tid_of q); cbn; lia. }
      rewrite (li_tids s I), length_seqZ, (li_len s I) in Hl. lia. }
    rewrite c_assert_true by (bounds; b2p; rewrite lo_slices0; apply andb_true_intro; split; [done|by apply Z.ltb_lt]).
    eexists. split; [done|]. unfold set_pc. cbn. rewrite u32_small by (bounds; unfold is_u32; lia).
    apply (linv_move s t Start); [done|done|lia| |done|done].
    rewrite (omap_insert_new _ _ _ _ _ (next_tid s) Hp), (li_tids s I) by done.
    rewrite (seqZ_app 0 (next_tid s) 1) by lia. cbn. rewrite Z.add_0_l. apply Permutation_cons_append.
  - destruct (next_tid s <? g_init_parallelism) eqn:E; [by eexists|]. b2p.
    rewrite c_assert_true by (apply Z.eqb_eq; lia). eexists. split; [done|].
    pose proof (tid_bound s t _ tid I Hp eq_refl). rewrite u64_slice by lia.
    apply (linv_move s t (Barrier tid)); [done|done|lia| | |].
    + rewrite (omap_insert_same _ _ _ _ _ Hp); [apply (li_tids s I)|done].
    + intros ? ? [= <- <-]. lia.
    + cbn. lia.
  - pose proof (tid_bound s t _ tid I Hp eq_refl). rewrite u64_slice by lia.
    destruct (key <? slice * (tid + 1)) eqn:E; b2p.
    + destruct (load_row_ok s t tid key I Hp E) as (s1 & -> & _ & I'). by eexists.
    + eexists. split; [done|]. pose proof (li_fill s I _ _ _ Hp).
      apply (linv_move s t (Fill tid key)); [done|done|lia| |done|].
      * rewrite (omap_insert_same _ _ _ _ _ Hp); [apply (li_tids s I)|done].
      * cbn. lia.
Qed.

Lemma start_linv : linv (start g_init_parallelism ix0).
Proof using ok.
  assert (forall t p, replicate (Z.to_nat g_init_parallelism) Start !! t = Some p -> p = Start) as Hs
    by (intros t p [-> _]%lookup_replicate; done).
  assert (forall k, ~ loaded (replicate (Z.to_nat g_init_parallelism) Start) k) as Hn.
  { intros k (t & p & ->%Hs & Hk). cbn in Hk. lia. }
  bounds. split; cbn.
  - apply length_replicate.
  - lia.
  - clear. induction (Z.to_nat g_init_parallelism); done.
  - by intros t tid key ?%Hs.
  - done.
  - done.
  - intros k. split; [by intros ?%not_elem_of_nil|by intros ?%Hn].
  - constructor.
  - done.
  - exists (fun _ => []). split_and!; [done|done|]. done.
Qed.

Lemma step_linv s s' : linv s -> step s s' -> linv s'.
Proof using ok.
  intros I (t & Ht). destruct (pcs s !! t) as [p|] eqn:Hp; [|unfold YcsbLoad.thread_step in Ht; by rewrite Hp in Ht].
  destruct (finished p) eqn:Hf; [unfold YcsbLoad.thread_step in Ht; rewrite Hp in Ht; by destruct p|].
  destruct (thread_step_ok s t p I Hp Hf) as (s1 & Hs1 & ?). by simplify_eq.
Qed.

Lemma reachable_linv s : rtc step (start g_init_parallelism ix0) s -> linv s.
Proof using ok.
  intros Hr. refine (rtc_ind_r (R := step) linv _ _ _ s Hr); [apply start_linv|].
  intros s1 s2 _ Hs I. by eapply step_linv.
Qed.

(** *** The load ends *)

Definition work_of (p : pc) : nat :=
  match p with
  | Start => Z.to_nat slice + 3
  | Barrier _ => Z.to_nat slice + 2
  | Fill tid key => Z.to_nat (slice * (tid + 1) - key) + 1
  | Done _ => 0
  end.
Definition work (ps : list pc) : nat := sum_list_with work_of ps.

Lemma work_insert ps t p q : ps !! t = Some p -> (work_of q < work_of p)%nat -> (work (<[t := q]> ps) < work ps)%nat.
Proof using Type.
  intros Ht Hlt. unfold work. rewrite (insert_take_drop _ _ _ (lookup_lt_Some _ _ _ Ht)).
  rewrite <- (take_drop_middle ps t p Ht) at 3. rewrite !sum_list_with_app. cbn [sum_list_with]. lia.
Qed.

Lemma load_row_pcs key s s' : load_row schema after_key after_value fresh key s = Some s' -> pcs s' = pcs s.
Proof using Type.
  unfold load_row. intros H. destruct (key_to_part _); [|done]. destruct (fill_row _ _ _ _ _); [|done].
  inv_assert. destruct (ix_insert _ _ _ _ _); [|done]. by injection H as <-.
Qed.

Lemma thread_step_work s t p s' : linv s -> pcs s !! t = Some p -> thread_step t s = Some s' ->
  (forall tid, p = Barrier tid -> next_tid s = g_init_parallelism) -> (work (pcs s') < work (pcs s))%nat.
Proof using ok.
  intros I Hp Hs Hnext. unfold YcsbLoad.thread_step in Hs. rewrite Hp in Hs. pose proof slice_value as [? ?].
  pose proof (li_next s I). destruct p as [|tid|tid key|tid]; [| | |done].
  - inv_assert. injection Hs as <-. cbn. eapply work_insert; [done|]. cbn. lia.
  - rewrite (Hnext tid) in Hs by done. rewrite Z.ltb_irrefl, c_assert_true in Hs by apply Z.eqb_refl.
    injection Hs as <-. cbn. pose proof (tid_bound s t _ tid I Hp eq_refl). rewrite u64_slice by lia.
    eapply work_insert; [done|]. cbn. lia.
  - pose proof (tid_bound s t _ tid I Hp eq_refl). rewrite u64_slice in Hs by lia.
    destruct (key <? slice * (tid + 1)) eqn:E; b2p.
    + destruct (load_row _ _ _ _ _ _) as [s1|] eqn:El; [|done]. injection Hs as <-. apply load_row_pcs in El. cbn.
      rewrite El. eapply work_insert; [done|]. cbn. lia.
    + injection Hs as <-. cbn. eapply work_insert; [done|]. cbn. lia.
Qed.

Lemma all_started s : linv s -> (forall t, pcs s !! t <> Some Start) -> next_tid s = g_init_parallelism.
Proof using ok.
  intros I Hn. assert (length (omap tid_of (pcs s)) = length (pcs s)) as Hl.
  { clear -Hn. induction (pcs s) as [|q l IH]; [done|]. cbn.
    specialize (IH (fun t => Hn (S t))). specialize (Hn 0%nat). destruct q; cbn in *; [done|lia..]. }
  rewrite (li_tids s I), length_seqZ, (li_len s I) in Hl. pose proof (li_next s I). bounds. lia.
Qed.

Lemma load_progress s : linv s -> Exists (fun p => finished p = false) (pcs s) ->
  exists s', step s s' /\ (work (pcs s') < work (pcs s))%nat.
Proof using ok.
  intros I Hex.
  assert (exists t p, pcs s !! t = Some p /\ finished p = false /\
    (forall tid, p = Barrier tid -> next_tid s = g_init_parallelism)) as (t & p & Hp & Hf & Hb).
  { destruct (decide (Start ∈ pcs s)) as [Hin|Hni].
    - apply list_elem_of_lookup_1 in Hin as [t Ht]. by exists t, Start.
    - apply Exists_exists in Hex as (p & Hp & Hf). apply list_elem_of_lookup_1 in Hp as [t Ht].
      exists t, p. split_and!; [done|done|]. intros _ _. apply all_started; [done|].
      intros t' Ht'. by apply Hni, (list_elem_of_lookup_2 _ t'). }
  destruct (thread_step_ok s t p I Hp Hf) as (s' & Hs & _). exists s'. split; [by exists t|].
  by eapply thread_step_work.
Qed.

Lemma load_ends s : linv s -> exists s', rtc step s s' /\ Forall (fun p => finished p = true) (pcs s').
Proof using ok.
  remember (work (pcs s)) as n eqn:Hn. revert s Hn. induction n as [n IH] using lt_wf_ind. intros s -> I.
  destruct (decide (Forall (fun p => finished p = true) (pcs s))) as [|Hex]; [by exists s|].
  apply not_Forall_Exists in Hex; [|apply _].
  destruct (load_progress s I) as (s1 & Hs & Hlt).
  { eapply Exists_impl; [exact Hex|]. intros p Hp. by apply not_true_is_false. }
  destruct (IH _ Hlt s1 eq_refl (step_linv s s1 I Hs)) as (s' & Hr & ?).
  exists s'. split; [by eapply rtc_l|done].
Qed.

(** What the finished load leaves. *)
Lemma load_done s : linv s -> Forall (fun p => finished p = true) (pcs s) ->
  (forall k, k ∈ (rows s).*1 <-> 0 <= k < N) /\ (rows s).*1 ≡ₚ seqZ 0 N /\
  forall r k d, rows s !! r = Some (k, d) -> exists p, key_to_part k = Some p /\
    ix_first k (Z.to_nat p) (index s) = Some (Some r) /\ fill_row schema after_key after_value k (fresh k) = Some d.
Proof using ok.
  intros I Hf. pose proof slice_value as [Hsl ?].
  assert (next_tid s = g_init_parallelism) as Hnext.
  { apply all_started; [done|]. intros t Ht. rewrite Forall_forall in Hf.
    specialize (Hf Start (list_elem_of_lookup_2 _ _ _ Ht)). done. }
  assert (forall k, k ∈ (rows s).*1 <-> 0 <= k < N) as Hin.
  { intros k. rewrite (li_rows s I). split; [by apply loaded_below|]. intros Hk.
    assert (slice <> 0) as Hne by (intros E; rewrite E in Hsl; lia). assert (0 < slice) as Hpos by lia.
    pose proof (Z.div_mod k slice Hne) as Hd. pose proof (Z.mod_pos_bound k slice Hpos) as Hm.
    assert (k / slice ∈ omap tid_of (pcs s)) as Hx.
    { rewrite (li_tids s I), Hnext. apply elem_of_seqZ. split; [apply Z.div_pos; lia|].
      apply Z.div_lt_upper_bound; lia. }
    apply list_elem_of_omap in Hx as (p & Hp & Htid). pose proof Hp as Hp'. apply list_elem_of_lookup_1 in Hp as [t Ht].
    exists t, p. split; [done|]. rewrite Forall_forall in Hf. specialize (Hf p Hp'). destruct p; try done. cbn in *.
    injection Htid as ->. lia. }
  split_and!; [done| |].
  - apply NoDup_Permutation; [apply (li_once s I)|apply NoDup_seqZ|]. intros k. rewrite Hin, elem_of_seqZ. lia.
  - intros r k d Hr. assert (0 <= k < N) as Hk.
    { apply Hin, list_elem_of_fmap. exists (k, d). split; [done|by eapply list_elem_of_lookup_2]. }
    destruct (key_part k Hk) as (p & Hp & Hb). exists p. split; [done|]. split; [|by eapply (li_data s I)].
    destruct (li_index s I) as (C & Hrep & HC & _). specialize (HC r k d Hr). unfold slot_of in HC. rewrite Hp in HC.
    eapply ix_first_law; [exact Hrep| |].
    + apply (li_parts s I), (lo_ix_parts ix0 ok). lia.
    + by rewrite (li_slots s I).
Qed.
End loader.

(** C16. The parallel loader of YCSB: in every interleaving of the threads no thread
    fails an assertion or gets stuck, whatever state is reached the load can be
    completed, and once all threads are done there is one row for every key of
    the table, filled as the code fills it, which the index finds under its key in
    its partition. The index is any implementation of the interface. *)
Theorem ycsb_load_correct {yc : YcsbConfig} {St : Type} {ops : IndexOps St} {laws : IndexLaws St} g_init_parallelism
    schema after_key after_value fresh ix0 s
  (ok : load_ok g_init_parallelism schema after_key after_value fresh ix0)
  (Hr : rtc (step g_init_parallelism schema after_key after_value fresh) (start g_init_parallelism ix0) s) :
  (forall t p, pcs s !! t = Some p -> finished p = false ->
     is_Some (thread_step g_init_parallelism schema after_key after_value fresh t s)) /\
  (exists s', rtc (step g_init_parallelism schema after_key after_value fresh) s s' /\
     Forall (fun p => finished p = true) (pcs s')) /\
  (Forall (fun p => finished p = true) (pcs s) ->
     (rows s).*1 ≡ₚ seqZ 0 g_synth_table_size /\
     forall r k d, rows s !! r = Some (k, d) -> exists p, key_to_part k = Some p /\
       ix_first k (Z.to_nat p) (index s) = Some (Some r) /\
       fill_row schema after_key after_value k (fresh k) = Some d).
Proof.
  pose proof (reachable_linv _ _ _ _ _ _ ok s Hr) as I. split_and!.
  - intros t p Hp Hf. destruct (thread_step_ok _ _ _ _ _ _ ok s t p I Hp Hf) as (s' & -> & _). by eexists.
  - by eapply load_ends.
  - intros Hf. destruct (load_done _ _ _ _ _ _ ok s I Hf) as (_ & ? & ?). done.
Qed.

(** *** Two threads, 16 rows, four partitions of a hash index *)

Definition ex_schema : Catalog := default (Schema.init [] 2)
  (Schema.add_cols [(["F"%char; "0"%char], 10, ["s"%char]); (["F"%char; "1"%char], 10, ["s"%char])] (Schema.init [] 2)).
Definition ex_fresh (_ : Z) : list Z := replicate 20 0.

Lemma ex_schema_ok : schema_ok ex_schema [1; 2] [1; 2; 3; 4].
Proof.
  split.
  - vm_compute. split_and!; try done; lia.
  - repeat constructor; vm_compute; congruence.
  - eexists. split; [reflexivity|]. vm_compute. congruence.
Qed.

Lemma ex_load_ok : load_ok (yc := ex_config) 2 ex_schema [1; 2] [1; 2; 3; 4] ex_fresh (IndexHash_init 8 4).
Proof.
  split; try (cbn; lia); try done.
  - apply ex_schema_ok.
  - eexists. apply ih_init_rep. cbn. lia.
  - cbn. intros k k' p p' _ _ _ _. congruence.
Qed.

Lemma ycsb_load_correct_witness : exists s : lstate IndexHash,
  rtc (step (yc := ex_config) 2 ex_schema [1; 2] [1; 2; 3; 4] ex_fresh) (start 2 (IndexHash_init 8 4)) s /\
  (rows s).*1 ≡ₚ seqZ 0 16 /\ exists r d, rows s !! r = Some (9, d) /\ ix_first 9 2 (index s) = Some (Some r).
Proof.
  destruct (ycsb_load_correct (yc := ex_config) 2 ex_schema [1; 2] [1; 2; 3; 4] ex_fresh (IndexHash_init 8 4) _
    ex_load_ok (rtc_refl _ _)) as (_ & (s & Hr & Hf) & _).
  destruct (ycsb_load_correct (yc := ex_config) 2 ex_schema [1; 2] [1; 2; 3; 4] ex_fresh (IndexHash_init 8 4) s
    ex_load_ok Hr) as (_ & _ & Hdone).
  destruct (Hdone Hf) as [Hp Hrows]. exists s. split; [exact Hr|]. split; [exact Hp|].
  assert (9 ∈ (rows s).*1) as Hin by (rewrite Hp; apply elem_of_seqZ; cbn; lia).
  apply list_elem_of_fmap in Hin as ([k d] & Hk & Hin). cbn in Hk. subst k.
  apply list_elem_of_lookup_1 in Hin as [r Hr']. exists r, d. split; [exact Hr'|].
  destruct (Hrows r 9 d Hr') as (p & Hkp & Hix & _). assert (p = 2) as -> by (vm_compute in Hkp; congruence).
  exact Hix.
Defined.

Lemma key_to_part_range_witness :
  (forall key, 0 <= key < 16 -> exists p, key_to_part (yc := ex_config) key = Some p /\ 0 <= p < 4) <->
  16 mod 4 = 0.
Proof. apply (key_to_part_range (yc := ex_config)); vm_compute; repeat split; congruence. Defined.
