(* ===== verification/YcsbTxn.v ===== *)
(** * YCSB: the transactions

    [ycsb_txn_man::run_txn] of src/benchmarks/ycsb/ycsb_txn.cpp as a program: a tree of the
    calls of [get_row], the reads and writes of rows and the final [finish], built by
    the loops of the code.  Here it runs alone ([exec]); YcsbTwoPL.v runs many of them
    under two-phase locking. *)

From stdpp Require Import list gmap.
From S2P Require Import Prelude Global Storage YcsbQuery YcsbLoad.

(** ** The program of a transaction *)

(** [PGet] goes on with its first program when [get_row] returns a row, with the second
    one when it returns NULL; [PRead row] reads the first field of what [get_row]
    returned, [PZero row] sets the first eight bytes of the row; [PFail] follows a null
    pointer. *)
Inductive prog :=
  | PFinish (rc : RC)
  | PGet (type : access_t) (row : nat) (ok null : prog)
  | PRead (k : prog)
  | PZero (row : nat) (k : prog)
  | PFail.

Section program.
Context {yc : YcsbConfig}.
(** [index_read] of the index of the workload, to the location of the item (or
    NULL); with a B-tree [index_next] moves on to the item after it. *)
Context (index_read : Z -> nat -> option (option nat)).
Context (IDX_BTREE : bool) (index_next : nat -> option nat).

(** "Only do computation when there are more than 1 requests." *)
Definition computation (cnt : Z) (type : access_t) (row : nat) (k : prog) : prog :=
  if 1 <? cnt then
    if bool_decide (type = RD) || bool_decide (type = SCAN) then PRead k
    else if bool_decide (type = WR) then PZero row k else PFail
  else k.

(** The loop [while (!finish_req)]. *)
Fixpoint req_loop (fuel : nat) (cnt : Z) (req : ycsb_request) (part_id : nat) (iteration : Z) (m_item : option nat)
    (k : prog) : prog :=
  match fuel with
  | O => PFail
  | S fuel =>
      let m_item :=
        if iteration =? 0 then default None (index_read (key req) part_id)
        else if IDX_BTREE then m_item ≫= index_next else m_item in
      match m_item with
      | None => if (0 <? iteration) && IDX_BTREE then k else PFail
      | Some row =>
          let iteration := u32 (iteration + 1) in
          let finish_req := bool_decide (rtype req = RD) || bool_decide (rtype req = WR) || (iteration =? scan_len req) in
          PGet (rtype req) row
            (computation cnt (rtype req) row
               (if finish_req then k else req_loop fuel cnt req part_id iteration m_item k))
            (PFinish Abort)
      end
  end.

Fixpoint requests_prog (cnt : Z) (reqs : list ycsb_request) : prog :=
  match reqs with
  | [] => PFinish RCOK
  | req :: reqs =>
      match key_to_part (key req) with
      | Some part_id => req_loop (S (Z.to_nat (scan_len req))) cnt req (Z.to_nat part_id) 0 None (requests_prog cnt reqs)
      | None => PFail
      end
  end.

Definition run_txn (q : ycsb_query) : prog := requests_prog (request_cnt q) (requests q).
End program.

(** ** A transaction alone *)

(** [*(uint64_t* )(&data[0]) = 0]. *)
Definition zero8 (data : list Z) : option (list Z) := Row.memcpy 0 (replicate 8 0) 8 data.

(** The accesses with the data at the time of [get_row]: what is copied back when a
    transaction that works on the rows aborts, and, when [get_row] hands out copies
    ([private]), what a commit writes back. *)
Record run := mkRun {
  r_db : gmap nat (list Z);
  r_accesses : list (access_t * nat * list Z) }.

Section alone.
Context (private : bool) (granted : nat -> bool).

Definition copy_back (accs : list (access_t * nat * list Z)) (db : gmap nat (list Z)) : gmap nat (list Z) :=
  foldr (fun a db => if bool_decide (a.1.1 = WR) then <[a.1.2 := a.2]> db else db) db accs.

(** [finish] with the loop of [cleanup], which goes from the last access to the
    first. *)
Definition finish (rc : RC) (s : run) : gmap nat (list Z) :=
  if bool_decide (rc = RCOK) then if private then copy_back (r_accesses s) (r_db s) else r_db s
  else if private then r_db s else copy_back (r_accesses s) (r_db s).

Fixpoint exec (p : prog) (s : run) : option (RC * run) :=
  match p with
  | PFinish rc => Some (rc, mkRun (finish rc s) (r_accesses s))
  | PGet type row ok null =>
      do! data <- r_db s !! row;;
      if granted (length (r_accesses s)) then exec ok (mkRun (r_db s) (r_accesses s ++ [(type, row, data)]))
      else exec null s
  | PRead k =>
      do! a <- last (r_accesses s);;
      do! data <- (if private then Some a.2 else r_db s !! a.1.2);;
      do! fval <- Row.read 0 8 data;;
      exec k s
  | PZero row k =>
      do! data <- r_db s !! row;;
      do! data <- zero8 data;;
      exec k (mkRun (<[row := data]> (r_db s)) (r_accesses s))
  | PFail => None
  end.
End alone.

(** ** The calls of [get_row] *)

(** Rows one after the other, each with its computation. *)
Definition gets (cnt : Z) (l : list (access_t * nat)) (k : prog) : prog :=
  foldr (fun a k => PGet a.1 a.2 (computation cnt a.1 a.2 k) (PFinish Abort)) k l.

Section plan.
Context {yc : YcsbConfig}.
Context (index_read : Z -> nat -> option (option nat)) (IDX_BTREE : bool) (index_next : nat -> option nat).

Definition row_of (k : Z) : option nat :=
  match key_to_part k with Some p => default None (index_read k (Z.to_nat p)) | None => None end.

(** The rows of a scan: the next ones of a B-tree, the same one with a hash index. *)
Fixpoint scan_rows (n : nat) (r : nat) : list nat :=
  match n with
  | O => []
  | S n => r :: (if IDX_BTREE then match index_next r with Some r' => scan_rows n r' | None => [] end
                 else scan_rows n r)
  end.

Definition req_plan (req : ycsb_request) : list (access_t * nat) :=
  match row_of (key req) with
  | None => []
  | Some r => map (pair (rtype req)) (if decide (rtype req = SCAN) then scan_rows (Z.to_nat (scan_len req)) r else [r])
  end.
Definition plan (q : ycsb_query) : list (access_t * nat) := concat (map req_plan (requests q)).

(** The index finds the row of a request, and a scan is not empty. *)
Definition found (req : ycsb_request) : Prop :=
  is_Some (row_of (key req)) /\ (rtype req = RD \/ rtype req = WR \/ rtype req = SCAN) /\
  (rtype req = SCAN -> 1 <= scan_len req < 2 ^ 32).

Notation req_loop := (req_loop index_read IDX_BTREE index_next).

Lemma scan_loop_gets n fuel cnt req part i prev k : rtype req = SCAN -> scan_len req < 2 ^ 32 ->
  0 < i -> i + Z.of_nat n = scan_len req -> (1 <= n <= fuel)%nat ->
  req_loop fuel cnt req part i (Some prev) k =
  gets cnt (map (pair SCAN) (if IDX_BTREE then match index_next prev with Some r => scan_rows n r | None => [] end
                             else scan_rows n prev)) k.
Proof using Type.
  intros Ht Hlen. revert fuel i prev. induction n as [|n IH]; intros fuel i prev Hi Hn Hf; [lia|].
  destruct fuel as [|fuel]; [lia|]. cbn [YcsbTxn.req_loop]. rewrite (proj2 (Z.eqb_neq i 0)) by lia.
  rewrite Ht, u32_small by (unfold is_u32; lia). cbn [bool_decide orb].
  rewrite !(bool_decide_eq_false_2 (SCAN = _)) by done. cbn [orb].
  assert (forall r, (if i + 1 =? scan_len req then k else req_loop fuel cnt req part (i + 1) (Some r) k) =
    gets cnt (map (pair SCAN) (if IDX_BTREE then match index_next r with Some r => scan_rows n r | None => [] end
                               else scan_rows n r)) k) as Hrest.
  { intros r. destruct (i + 1 =? scan_len req) eqn:E; b2p.
    - assert (n = 0%nat) as -> by lia. by destruct IDX_BTREE, (index_next r).
    - apply IH; lia. }
  destruct IDX_BTREE eqn:Eb.
  - cbn [mbind option_bind]. destruct (index_next prev) as [r|]; cbn [option_bind].
    + rewrite Hrest. cbn [scan_rows]. by rewrite Eb.
    + by rewrite (proj2 (Z.ltb_lt 0 i)) by lia.
  - rewrite Hrest. cbn [scan_rows]. by rewrite Eb.
Qed.

Lemma request_gets cnt req part k : found req -> key_to_part (key req) = Some part ->
  req_loop (S (Z.to_nat (scan_len req))) cnt req (Z.to_nat part) 0 None k = gets cnt (req_plan req) k.
Proof using Type.
  intros ([r Hr] & Hty & Hlen) Hp. unfold req_plan. rewrite Hr. unfold row_of in Hr. rewrite Hp in Hr.
  cbn [YcsbTxn.req_loop]. rewrite Z.eqb_refl, Hr. change (u32 (0 + 1)) with 1.
  destruct (decide (rtype req = SCAN)) as [Es|Es].
  - specialize (Hlen Es). rewrite Es. rewrite !(bool_decide_eq_false_2 (SCAN = _)) by done. cbn [orb].
    destruct (Z.to_nat (scan_len req)) as [|n] eqn:En; [lia|]. cbn [scan_rows map gets foldr fst snd]. f_equal. f_equal.
    destruct (1 =? scan_len req) eqn:E1; b2p.
    + assert (n = 0%nat) as -> by lia. by destruct IDX_BTREE, (index_next r).
    + apply (scan_loop_gets n); [done|lia..].
  - assert (bool_decide (rtype req = RD) || bool_decide (rtype req = WR) = true) as ->; [|done].
    destruct Hty as [E|[E|E]]; [by rewrite E..|done].
Qed.

Lemma run_txn_gets q : Forall found (requests q) ->
  run_txn index_read IDX_BTREE index_next q = gets (request_cnt q) (plan q) (PFinish RCOK).
Proof using Type.
  unfold run_txn, plan. generalize (request_cnt q). intros cnt.
  induction 1 as [|req reqs Hf Hfs IH]; [done|]. cbn [requests_prog map concat]. destruct (key_to_part (key req)) as [part|] eqn:Ep.
  - rewrite (request_gets cnt req part _ Hf Ep), IH. unfold gets. by rewrite foldr_app.
  - exfalso. destruct Hf as ([r Hr] & _). unfold row_of in Hr. by rewrite Ep in Hr.
Qed.
End plan.

(** ** What a transaction does *)

Definition zeroed (data : list Z) : list Z := default data (zero8 data).

Lemma zero8_some data : (8 <= length data)%nat -> zero8 data = Some (replicate 8 0 ++ drop 8 data).
Proof. intros H. unfold zero8. exact (Row.memcpy_ok 0 (replicate 8 0) data H). Qed.

Lemma zeroed_value data :
  zeroed data = if decide (8 <= length data)%nat then replicate 8 0 ++ drop 8 data else data.
Proof.
  unfold zeroed. destruct (decide _) as [H|H]; [by rewrite zero8_some|].
  unfold zero8, Row.memcpy, Row.read. cbn [replicate length Nat.add].
  by rewrite (proj2 (Nat.leb_gt 8 (length data))) by lia.
Qed.

Lemma zeroed_idem data : zeroed (zeroed data) = zeroed data.
Proof.
  rewrite (zeroed_value data). destruct (decide _) as [H|H]; rewrite zeroed_value; [|by rewrite decide_False].
  rewrite decide_True by (rewrite length_app, length_replicate; lia). done.
Qed.

Section effect.
Context (cnt : Z).

Definition writes (a : access_t * nat) : bool := (1 <? cnt) && bool_decide (a.1 = WR).
Definition write_row (a : access_t * nat) (db : gmap nat (list Z)) : gmap nat (list Z) :=
  if writes a then alter zeroed a.2 db else db.
Definition effect (l : list (access_t * nat)) (db : gmap nat (list Z)) : gmap nat (list Z) :=
  fold_left (fun db a => write_row a db) l db.

(** The accesses with the contents of the rows at their time. *)
Fixpoint datas (l : list (access_t * nat)) (db : gmap nat (list Z)) : list (access_t * nat * list Z) :=
  match l with
  | [] => []
  | a :: l => (a, db !!! a.2) :: datas l (write_row a db)
  end.
Definition after (l : list (access_t * nat)) (s : run) : run :=
  mkRun (effect l (r_db s)) (r_accesses s ++ datas l (r_db s)).

Definition row_ok (db : gmap nat (list Z)) (r : nat) : Prop := exists data, db !! r = Some data /\ (8 <= length data)%nat.

Lemma row_ok_write db a r : row_ok db r -> row_ok (write_row a db) r.
Proof using Type.
  intros (data & Hr & Hl). unfold write_row. destruct (writes a); [|by exists data].
  destruct (decide (a.2 = r)) as [<-|]; [|exists data; by rewrite lookup_alter_ne].
  exists (zeroed data). rewrite lookup_alter_eq, Hr. split; [done|]. unfold zeroed. rewrite zero8_some by done. cbn. lia.
Qed.

Lemma map_fst_datas l db : map fst (datas l db) = l.
Proof using Type. revert db. induction l as [|a l IH]; intros db; cbn; [done|by rewrite IH]. Qed.

Lemma effect_lookup l db r : effect l db !! r =
  if (1 <? cnt) && bool_decide ((WR, r) ∈ l) then zeroed <$> db !! r else db !! r.
Proof using Type.
  revert db. induction l as [|[t r'] l IH]; intros db; cbn.
  { rewrite bool_decide_eq_false_2 by apply not_elem_of_nil. by rewrite andb_false_r. }
  rewrite IH. unfold write_row, writes. cbn. destruct (1 <? cnt); cbn; [|done].
  destruct (bool_decide (t = WR)) eqn:Et; b2p.
  - subst t. destruct (decide (r' = r)) as [->|Hne].
    + rewrite lookup_alter_eq. rewrite (bool_decide_eq_true_2 (_ ∈ (WR, r) :: l)) by by left.
      destruct (bool_decide _); [|done]. destruct (db !! r); [|done]. cbn [fmap option_fmap option_map]. by rewrite zeroed_idem.
    + rewrite lookup_alter_ne by done. erewrite bool_decide_ext; [done|]. rewrite elem_of_cons. naive_solver.
  - erewrite bool_decide_ext; [done|]. rewrite elem_of_cons. naive_solver.
Qed.

(** Copying back from the last access to the first undoes everything. *)
Lemma copy_back_datas l db : (forall a, a ∈ l -> row_ok db a.2) -> copy_back (datas l db) (effect l db) = db.
Proof using Type.
  revert db. induction l as [|a l IH]; intros db Hok; cbn; [done|].
  change (copy_back (datas l (write_row a db)) (effect l (write_row a db))) with
    (copy_back (datas l (write_row a db)) (effect l (write_row a db))).
  unfold copy_back in *. rewrite IH by (intros b Hb; apply row_ok_write, Hok; by right).
  destruct (Hok a) as (data & Hd & _); [by left|].
  unfold write_row, writes. destruct (bool_decide (a.1 = WR)); [|by rewrite andb_false_r].
  rewrite lookup_total_alt, Hd. cbn. destruct (1 <? cnt); cbn.
  - apply map_eq. intros r. destruct (decide (a.2 = r)) as [<-|]; [by rewrite lookup_insert_eq|].
    by rewrite lookup_insert_ne, lookup_alter_ne.
  - by apply insert_id.
Qed.

Lemma exec_read private granted k s t r : row_ok (r_db s) r ->
  let s := mkRun (r_db s) (r_accesses s ++ [(t, r, r_db s !!! r)]) in
  exec private granted (PRead k) s = exec private granted k s.
Proof using Type.
  intros (data & Hr & Hl) s'. subst s'. cbn [exec r_accesses r_db]. rewrite last_snoc. cbn [fst snd].
  rewrite lookup_total_alt, Hr. cbn [default from_option id].
  destruct private; unfold Row.read; by rewrite (proj2 (Nat.leb_le _ _)) by (cbn; lia).
Qed.

Lemma exec_zero private granted k s r : row_ok (r_db s) r ->
  exec private granted (PZero r k) s = exec private granted k (mkRun (alter zeroed r (r_db s)) (r_accesses s)).
Proof using Type.
  intros (data & Hr & Hl). cbn [exec]. rewrite Hr, zero8_some by done. do 2 f_equal. apply map_eq. intros r'.
  destruct (decide (r = r')) as [<-|]; [|by rewrite lookup_insert_ne, lookup_alter_ne].
  rewrite lookup_insert_eq, lookup_alter_eq, Hr. cbn [fmap option_fmap option_map]. unfold zeroed. by rewrite zero8_some.
Qed.

Lemma exec_get private granted a k s : granted (length (r_accesses s)) = true -> row_ok (r_db s) a.2 ->
  a.1 = RD \/ a.1 = WR \/ a.1 = SCAN ->
  exec private granted (gets cnt [a] k) s = exec private granted k (after [a] s).
Proof using Type.
  destruct a as [t r]. intros Hg Hok Ht. cbn [gets foldr exec fst snd]. destruct (Hok) as (data & Hr & _).
  cbn [snd] in Hr. rewrite Hr, Hg. unfold after. cbn [effect fold_left datas r_db r_accesses fst snd].
  replace data with (r_db s !!! r) by (by rewrite lookup_total_alt, Hr).
  unfold computation, write_row, writes. cbn [fst snd].
  destruct (1 <? cnt); [|done]. destruct Ht as [E|[E|E]]; cbn in E; subst t.
  - by apply exec_read.
  - by apply (exec_zero private granted k (mkRun (r_db s) (r_accesses s ++ [(WR, r, r_db s !!! r)]))).
  - by apply exec_read.
Qed.

Lemma exec_gets private granted l k s :
  (forall i, (length (r_accesses s) <= i < length (r_accesses s) + length l)%nat -> granted i = true) ->
  (forall a, a ∈ l -> row_ok (r_db s) a.2 /\ (a.1 = RD \/ a.1 = WR \/ a.1 = SCAN)) ->
  exec private granted (gets cnt l k) s = exec private granted k (after l s).
Proof using Type.
  revert s. induction l as [|a l IH]; intros s Hg Hok.
  { unfold after. cbn. rewrite app_nil_r. by destruct s. }
  destruct (Hok a) as [Ha Hty]; [by left|]. change (gets cnt (a :: l) k) with (gets cnt [a] (gets cnt l k)).
  rewrite exec_get by (done || (apply Hg; cbn; lia)). rewrite IH.
  - f_equal. unfold after. cbn. by rewrite <- (assoc_L (++)).
  - intros i Hi. apply Hg. cbn in *. rewrite length_app in Hi. cbn in Hi. lia.
  - intros b Hb. destruct (Hok b) as [? ?]; [by right|]. split; [|done]. cbn. by apply row_ok_write.
Qed.
End effect.

Lemma plan_types {yc : YcsbConfig} index_read IDX_BTREE index_next q a : Forall (found index_read) (requests q) ->
  a ∈ plan index_read IDX_BTREE index_next q -> a.1 = RD \/ a.1 = WR \/ a.1 = SCAN.
Proof.
  intros Hf (l & Hl & Ha)%list_elem_of_In%in_concat. apply in_map_iff in Hl as (req & <- & Hreq%list_elem_of_In).
  apply list_elem_of_In in Ha. rewrite Forall_forall in Hf. destruct (Hf req Hreq) as (_ & Ht & _).
  unfold req_plan in Ha. destruct (row_of _ _); [|by apply not_elem_of_nil in Ha].
  by apply list_elem_of_fmap in Ha as (r & -> & _).
Qed.

(** C13. [run_txn] alone, on an index that finds the rows of the query: it asks for the
    rows of the requests in order, those of a scan included.  If all are granted it
    commits and, working on the rows themselves, sets the first eight bytes of
    the rows of its writes to zero (only if it has more than one request); if one
    is refused it aborts and leaves every row as it was.  When [get_row] hands out
    copies (OCC, MVCC, timestamp ordering, Silo, TicToc) the write still goes to
    the row: a commit copies the unchanged copy over it, so that nothing is
    written, and an abort leaves it behind. *)
Theorem ycsb_run_txn_alone {yc : YcsbConfig} index_read IDX_BTREE index_next q db granted private
  (Hfound : Forall (found index_read) (requests q))
  (Hrows : forall a, a ∈ plan index_read IDX_BTREE index_next q -> row_ok db a.2) :
  let accs := plan index_read IDX_BTREE index_next q in
  let zero (l : list (access_t * nat)) r :=
    if (1 <? request_cnt q) && bool_decide ((WR, r) ∈ l) then zeroed <$> db !! r else db !! r in
  ((forall i, (i < length accs)%nat -> granted i = true) ->
   exists s, exec private granted (run_txn index_read IDX_BTREE index_next q) (mkRun db []) = Some (RCOK, s) /\
     map fst (r_accesses s) = accs /\ forall r, r_db s !! r = if private then db !! r else zero accs r) /\
  (forall n, (n < length accs)%nat -> granted n = false -> (forall i, (i < n)%nat -> granted i = true) ->
   exists s, exec private granted (run_txn index_read IDX_BTREE index_next q) (mkRun db []) = Some (Abort, s) /\
     map fst (r_accesses s) = take n accs /\ forall r, r_db s !! r = if private then zero (take n accs) r else db !! r).
Proof.
  intros accs zero. rewrite run_txn_gets by done. fold accs. pose proof (plan_types index_read IDX_BTREE index_next q) as Hty.
  assert (forall n, copy_back (datas (request_cnt q) (take n accs) db) (effect (request_cnt q) (take n accs) db) = db) as Hback.
  { intros n. apply copy_back_datas. intros a Ha. apply Hrows. apply elem_of_take in Ha as (i & ? & _). by eapply list_elem_of_lookup_2. }
  split.
  - intros Hg. rewrite exec_gets; [|intros i Hi; apply Hg; cbn in Hi; lia|]; [|intros a Ha; split; [by apply Hrows|by apply Hty]].
    eexists. split; [done|]. unfold after. cbn [r_db r_accesses]. rewrite app_nil_l. split; [apply map_fst_datas|].
    intros r. unfold finish. rewrite bool_decide_eq_true_2 by done. cbn [r_db r_accesses]. destruct private.
    + specialize (Hback (length accs)). rewrite take_ge in Hback by done. by rewrite Hback.
    + apply effect_lookup.
  - intros n Hn Hden Hg. destruct (lookup_lt_is_Some_2 accs n Hn) as [a Ha].
    assert (gets (request_cnt q) accs (PFinish RCOK) = gets (request_cnt q) (take n accs)
      (gets (request_cnt q) (a :: drop (S n) accs) (PFinish RCOK))) as ->.
    { unfold gets. rewrite <- foldr_app. by rewrite take_drop_middle. }
    assert (length (take n accs) = n) as Hlen by (rewrite length_take; lia).
    rewrite exec_gets.
    + cbn [gets foldr exec after r_db r_accesses]. rewrite app_nil_l.
      assert (length (datas (request_cnt q) (take n accs) db) = n) as Hld.
      { rewrite <- Hlen at 2. rewrite <- (map_fst_datas (request_cnt q) (take n accs) db) at 2. by rewrite length_map. }
      rewrite Hld, Hden. destruct (effect (request_cnt q) (take n accs) db !! a.2) as [data|] eqn:Ed.
      * eexists. split; [done|]. cbn [r_db r_accesses]. rewrite map_fst_datas. split; [done|].
        intros r. unfold finish. rewrite bool_decide_eq_false_2 by done. cbn [r_db r_accesses].
        destruct private; [apply effect_lookup|].
        unfold after. cbn [r_db r_accesses app]. by rewrite Hback.
      * exfalso. rewrite effect_lookup in Ed. destruct (Hrows a) as (d & Hd & _); [by eapply list_elem_of_lookup_2|].
        rewrite Hd in Ed. by destruct (_ && _).
    + cbn [r_accesses length]. intros i Hi. apply Hg. lia.
    + intros b Hb. apply elem_of_take in Hb as (i & Hb%list_elem_of_lookup_2 & _). split; [by apply Hrows|by apply Hty].
Qed.

Definition ex_read (k : Z) (_ : nat) : option (option nat) := Some (Some (Z.to_nat k)).
Definition ex_txn : ycsb_query := mkQuery [mkRequest WR 9 0 0; mkRequest RD 6 0 0] [1; 2].
Definition ex_rows : gmap nat (list Z) := {[ 9%nat := replicate 10 7; 6%nat := replicate 10 5 ]}.

(** On the rows the write is done; with copies it is lost, and stays after an abort. *)
Lemma ycsb_run_txn_alone_witness :
  (exists s, exec false (fun _ => true) (run_txn (yc := ex_config) ex_read false (fun _ => None) ex_txn) (mkRun ex_rows []) =
     Some (RCOK, s) /\ r_db s !! 9%nat = Some (replicate 8 0 ++ [7; 7])) /\
  (exists s, exec true (fun _ => true) (run_txn (yc := ex_config) ex_read false (fun _ => None) ex_txn) (mkRun ex_rows []) =
     Some (RCOK, s) /\ r_db s !! 9%nat = Some (replicate 10 7)) /\
  (exists s, exec true (fun i => bool_decide (i = 0%nat))
     (run_txn (yc := ex_config) ex_read false (fun _ => None) ex_txn) (mkRun ex_rows []) =
     Some (Abort, s) /\ r_db s !! 9%nat = Some (replicate 8 0 ++ [7; 7])).
Proof.
  assert (Forall (found (yc := ex_config) ex_read) (requests ex_txn)) as Hf.
  { repeat constructor; cbn; try done; try (by left); try (by right; left); by eexists. }
  assert (forall a, a ∈ plan (yc := ex_config) ex_read false (fun _ => None) ex_txn -> row_ok ex_rows a.2) as Hr.
  { intros a Ha. assert (a ∈ [(WR, 9%nat); (RD, 6%nat)]) as Ha' by exact Ha.
    rewrite !elem_of_cons in Ha'. destruct Ha' as [->|[->|[]%not_elem_of_nil]]; eexists; split; [reflexivity|cbn; lia|reflexivity|cbn; lia]. }
  split_and!.
  - destruct (ycsb_run_txn_alone (yc := ex_config) ex_read false (fun _ => None) ex_txn ex_rows (fun _ => true) false Hf Hr)
      as [Hc _]. destruct (Hc (fun _ _ => eq_refl)) as (s & Hs & _ & Hdb). exists s. split; [exact Hs|]. rewrite Hdb. reflexivity.
  - destruct (ycsb_run_txn_alone (yc := ex_config) ex_read false (fun _ => None) ex_txn ex_rows (fun _ => true) true Hf Hr)
      as [Hc _]. destruct (Hc (fun _ _ => eq_refl)) as (s & Hs & _ & Hdb). exists s. split; [exact Hs|]. rewrite Hdb. reflexivity.
  - destruct (ycsb_run_txn_alone (yc := ex_config) ex_read false (fun _ => None) ex_txn ex_rows
      (fun i => bool_decide (i = 0%nat)) true Hf Hr) as [_ Ha].
    destruct (Ha 1%nat) as (s & Hs & _ & Hdb); [vm_compute; lia|reflexivity|intros [|i] Hi; [reflexivity|lia]|].
    exists s. split; [exact Hs|]. rewrite Hdb. reflexivity.
Defined.
