(* ===== verification/YcsbTwoPL.v ===== *)
(** * YCSB under two-phase locking

    The programs of YcsbTxn.v, run by any number of workers on the row locks and
    transactions of TwoPL.v.  A query is executed as if it had been alone: see
    [ycsb_serializable]. *)

From stdpp Require Import list gmap functions.
From S2P Require Import Prelude Global RowLock Storage Serial TwoPL Index IndexHash YcsbQuery YcsbLoad YcsbTxn.

#[local] Notation set_pc := TwoPL.set_pc.

(** [wk]: the query a worker runs and what is left of its program; [committed] is ghost
    state: the queries that ended with RCOK, in the order of [log]. *)
Record ystate := mkY {
  tpl : TwoPL.State;
  wk : nat -> option (ycsb_query * prog);
  committed : list ycsb_query }.

Section system.
Context {yc : YcsbConfig}.
Context (g_thread_cnt : nat) (get_txn_id : nat -> Z) (CC_ALG : lock_alg) (MAX_ROW_PER_TXN : nat) (REPEATABLE_READ : bool).
Context (index_read : Z -> nat -> option (option nat)) (IDX_BTREE : bool) (index_next : nat -> option nat).
(** The queries that the queue hands out. *)
Context (queries : ycsb_query -> Prop).

Notation run_txn := (run_txn index_read IDX_BTREE index_next).
Notation get_row := (get_row g_thread_cnt get_txn_id CC_ALG MAX_ROW_PER_TXN).

Definition set_tpl (s' : TwoPL.State) (s : ystate) : ystate := mkY s' (wk s) (committed s).
Definition set_wk (t : nat) (w : option (ycsb_query * prog)) (s : ystate) : ystate :=
  mkY (tpl s) (<[t := w]> (wk s)) (committed s).
Definition last_access (t : nat) (s : ystate) : nat := pred (row_cnt (tx (tpl s) t)).

(** One step of worker [t] with a query. *)
Inductive work (t : nat) (s : ystate) : ystate -> Prop :=
  | work_get q type row ok null s' :
      wk s t = Some (q, PGet type row ok null) -> get_row t type row (tpl s) = Some s' -> work t s (set_tpl s' s)
  | work_ready q type row ok null s' :
      wk s t = Some (q, PGet type row ok null) -> wait_ready t (tpl s) = Some s' -> work t s (set_tpl s' s)
  | work_give_up q type row ok null s' :
      wk s t = Some (q, PGet type row ok null) -> wait_abort CC_ALG t (tpl s) = Some s' -> work t s (set_tpl s' s)
  | work_leave q type row ok null s' :
      wk s t = Some (q, PGet type row ok null) -> leave_queue t (tpl s) = Some s' -> work t s (set_tpl s' s)
  | work_row q type row ok null s' :
      wk s t = Some (q, PGet type row ok null) -> record_access CC_ALG REPEATABLE_READ t (tpl s) = Some s' ->
      work t s (set_wk t (Some (q, ok)) (set_tpl s' s))
  | work_null q type row ok null :
      wk s t = Some (q, PGet type row ok null) -> t_pc (tx (tpl s) t) = Failed ->
      work t s (set_wk t (Some (q, null)) s)
  | work_read q k s' :
      wk s t = Some (q, PRead k) -> read_data t (last_access t s) (tpl s) = Some s' ->
      work t s (set_wk t (Some (q, k)) (set_tpl s' s))
  | work_zero q row k data v s' :
      wk s t = Some (q, PZero row k) -> db (tpl s) !! row = Some data -> zero8 data = Some v ->
      write_data t (last_access t s) v (tpl s) = Some s' ->
      work t s (set_wk t (Some (q, k)) (set_tpl s' s))
  | work_finish q rc s' :
      wk s t = Some (q, PFinish rc) -> TwoPL.finish t rc (tpl s) = Some s' ->
      work t s (mkY s' (<[t := None]> (wk s)) (if bool_decide (rc = RCOK) then committed s ++ [q] else committed s)).

(** [finish] goes on in [cleanup]; a worker without a query takes the next one or a
    new timestamp. *)
Inductive ystep (s : ystate) : ystate -> Prop :=
  | y_start t q : wk s t = None -> tx (tpl s) t = idle -> (t < g_thread_cnt)%nat -> queries q ->
      ystep s (set_wk t (Some (q, run_txn q)) s)
  | y_work t s' : work t s s' -> ystep s s'
  | y_copy t s' : cleanup_copy t (tpl s) = Some s' -> ystep s (set_tpl s' s)
  | y_release t s' : cleanup_release CC_ALG REPEATABLE_READ t (tpl s) = Some s' -> ystep s (set_tpl s' s)
  | y_end t s' : cleanup_end t (tpl s) = Some s' -> ystep s (set_tpl s' s)
  | y_ts t v : wk s t = None -> tx (tpl s) t = idle -> (forall t', sys_ts (sys (tpl s)) t' <> v) ->
      ystep s (set_tpl (new_ts t v (tpl s)) s).

(** The queries one after the other, each alone. *)
Fixpoint run_serial (qs : list ycsb_query) (d : gmap nat bytes) : option (gmap nat bytes) :=
  match qs with
  | [] => Some d
  | q :: qs =>
      match exec false (fun _ => true) (run_txn q) (mkRun d []) with
      | Some (RCOK, s) => run_serial qs (r_db s)
      | _ => None
      end
  end.

(** ** The invariant *)

Notation plan := (plan index_read IDX_BTREE index_next).
Notation inv := (inv g_thread_cnt CC_ALG).

(** No query of the queue asks for a row twice; every row is in the table. *)
Record queries_ok (s0 : TwoPL.State) : Prop := {
  qs_found q : queries q -> Forall (found index_read) (requests q);
  qs_once q : queries q -> NoDup (map snd (plan q));
  qs_rows q a : queries q -> a ∈ plan q -> is_Some (sys_rows (sys s0) !! a.2) /\ row_ok (db s0) a.2 }.

Context (s0 : TwoPL.State) (Hqs : queries_ok s0).

Definition acc_of (a : Access) : access_t * nat := (a_type a, a_row a).

Definition done_ok (cnt : Z) (accs : list Access) (d : gmap nat bytes) : Prop :=
  forall a, a ∈ accs -> a_type a = WR ->
    d !! a_row a = Some (if 1 <? cnt then zeroed (orig_data a) else orig_data a).

(** Between two accesses, or in the next one. *)
Definition at_pc (p : TwoPL.pc) (rest : list (access_t * nat)) : Prop :=
  p = Running \/ exists a rest', rest = a :: rest' /\
    (p = Locked a.1 a.2 \/ p = Waiting a.1 a.2 \/ p = GivingUp a.1 a.2 \/ p = Failed).

Notation todo q rest := (gets (request_cnt q) rest (PFinish RCOK)).

Inductive worker_ok (q : ycsb_query) (x : Txn) (d : gmap nat bytes) : prog -> Prop :=
  | wo_next rest : map acc_of (accesses x) ++ rest = plan q -> at_pc (t_pc x) rest ->
      done_ok (request_cnt q) (accesses x) d -> worker_ok q x d (todo q rest)
  | wo_read rest accs a : map acc_of (accesses x) ++ rest = plan q -> t_pc x = Running ->
      done_ok (request_cnt q) (accesses x) d -> accesses x = accs ++ [a] -> a_type a <> WR ->
      worker_ok q x d (PRead (todo q rest))
  | wo_zero rest accs a : map acc_of (accesses x) ++ rest = plan q -> t_pc x = Running ->
      done_ok (request_cnt q) accs d -> accesses x = accs ++ [a] -> a_type a = WR ->
      d !! a_row a = Some (orig_data a) -> 1 < request_cnt q ->
      worker_ok q x d (PZero (a_row a) (todo q rest))
  | wo_abort : t_pc x = Failed -> worker_ok q x d (PFinish Abort).

Definition worker_inv (d : gmap nat bytes) (t : nat) (w : option (ycsb_query * prog)) (x : Txn) : Prop :=
  match w with
  | Some (q, p) => queries q /\ (t < g_thread_cnt)%nat /\ worker_ok q x d p
  | None => x = idle \/ cleaning x = true
  end.

Definition serial_effect (qs : list ycsb_query) (d : gmap nat bytes) : gmap nat bytes :=
  fold_left (fun d q => effect (request_cnt q) (plan q) d) qs d.

Record yinv (s : ystate) : Prop := {
  yi_tpl : inv (db s0) (tpl s);
  yi_dom : forall r, is_Some (sys_rows (sys (tpl s)) !! r) <-> is_Some (sys_rows (sys s0) !! r);
  yi_workers : forall t, worker_inv (db (tpl s)) t (wk s t) (tx (tpl s) t);
  yi_queries : Forall queries (committed s);
  yi_len : length (committed s) = length (log (tpl s));
  yi_serial : forall i, serial_effect (take i (committed s)) (db s0) = serial_db (db s0) (take i (log (tpl s))) }.

(** *** What the calls change *)

Definition same_dom (s s' : TwoPL.State) : Prop :=
  forall r, is_Some (sys_rows (sys s') !! r) <-> is_Some (sys_rows (sys s) !! r).
Definition local (t : nat) (s s' : TwoPL.State) : Prop :=
  log s' = log s /\ (forall t', t' <> t -> tx s' t' = tx s t') /\ same_dom s s'.

Lemma same_dom_insert (m : gmap nat Row_lock) r l l' k : m !! r = Some l -> is_Some (<[r := l']> m !! k) <-> is_Some (m !! k).
Proof using Type.
  intros Hl. destruct (decide (r = k)) as [<-|]; [|by rewrite lookup_insert_ne].
  rewrite lookup_insert_eq, Hl. split; eauto.
Qed.

Lemma release_local t r s s' : release t r s = Some s' -> db s' = db s /\ log s' = log s /\ tx s' = tx s /\ same_dom s s'.
Proof using Type.
  unfold release. intros H. destruct (sys_rows (sys s) !! r) as [l|] eqn:Hl; [|done].
  destruct (lock_release _ _ _) as [[[? ?] ?]|]; [|done]. injection H as <-. split_and!; try done.
  intros k. cbn. by eapply same_dom_insert.
Qed.

Lemma set_tx_local t x s : local t s (set_tx t x s) /\ tx (set_tx t x s) t = x /\ db (set_tx t x s) = db s.
Proof using Type.
  split_and!; [|cbn; by rewrite upd_eq|done]. split_and!; [done| |done]. intros t' ?. cbn. by rewrite upd_ne.
Qed.

Lemma get_row_local t type r s s' : get_row t type r s = Some s' -> t_pc (tx s t) = Running /\ local t s s' /\ db s' = db s /\
  exists p, tx s' t = set_pc p (tx s t) /\ (p = Locked type r \/ p = Waiting type r \/ p = Failed).
Proof using Type.
  unfold TwoPL.get_row. intros H. destruct (t_pc (tx s t)); try done. split; [done|].
  destruct (_ <=? _)%nat.
  { injection H as <-. destruct (set_tx_local t (set_pc Failed (tx s t)) s) as (? & ? & ?). split_and!; [done|done|]. eauto. }
  inv_assert. destruct (sys_rows (sys s) !! r) as [l|] eqn:Hl; [|done].
  destruct (lock_get _ _ _ _ _ _ _ _) as [[[[rc ids] l'] fl']|]; [|done].
  assert (forall p, local t s (set_tx t (set_pc p (tx s t)) (set_row r l' fl' s))) as Hloc.
  { intros p. split_and!; [done| |]; [intros t' ?; cbn; by rewrite upd_ne|]. intros k. cbn. by eapply same_dom_insert. }
  destruct rc; try done; injection H as <-; (split_and!; [first [apply Hloc|apply set_tx_local]|done|]);
    eexists; (split; [cbn; apply upd_eq|]); tauto.
Qed.

Lemma wait_ready_local t s s' : wait_ready t s = Some s' -> exists type r, t_pc (tx s t) = Waiting type r /\
  local t s s' /\ db s' = db s /\ tx s' t = set_pc (Locked type r) (tx s t).
Proof using Type.
  unfold wait_ready. intros H. destruct (t_pc (tx s t)) as [| |type r| | |]; try done. case_bool_decide; [|done].
  injection H as <-. exists type, r. destruct (set_tx_local t (set_pc (Locked type r) (tx s t)) s) as (? & ? & ?). done.
Qed.

Lemma wait_abort_local t s s' : wait_abort CC_ALG t s = Some s' -> exists type r, t_pc (tx s t) = Waiting type r /\
  local t s s' /\ db s' = db s /\ tx s' t = set_pc (GivingUp type r) (tx s t).
Proof using Type.
  unfold wait_abort. intros H. destruct (t_pc (tx s t)) as [| |type r| | |]; try done. destruct (_ && _); [|done].
  injection H as <-. exists type, r. destruct (set_tx_local t (set_pc (GivingUp type r) (tx s t)) s) as (? & ? & ?). done.
Qed.

Lemma leave_queue_local t s s' : leave_queue t s = Some s' -> exists type r, t_pc (tx s t) = GivingUp type r /\
  local t s s' /\ db s' = db s /\ tx s' t = set_pc Failed (tx s t).
Proof using Type.
  unfold leave_queue. intros H. destruct (t_pc (tx s t)) as [| | |type r| |]; try done.
  destruct (release t r s) as [s1|] eqn:Hr; [|done]. injection H as <-. apply release_local in Hr as (Hdb & Hlog & Htx & Hdom).
  exists type, r. destruct (set_tx_local t (set_pc Failed (tx s t)) s1) as ((? & Ho & ?) & ? & ?).
  split_and!; [done| |congruence|done]. split_and!; [congruence| |done]. intros t' ?. rewrite Ho by done. by rewrite Htx.
Qed.

Context (Hearly : early_release CC_ALG REPEATABLE_READ = false).

Lemma record_local t s s' : record_access CC_ALG REPEATABLE_READ t s = Some s' -> exists type r, t_pc (tx s t) = Locked type r /\
  local t s s' /\ db s' = db s /\ t_pc (tx s' t) = Running /\
  accesses (tx s' t) = accesses (tx s t) ++ [mkAccess type r (if bool_decide (type = WR) then db s !!! r else [])].
Proof using Hearly.
  unfold record_access. rewrite Hearly. cbn [andb]. intros H. destruct (t_pc (tx s t)) as [|type r| | | |]; try done.
  injection H as <-. exists type, r. split; [done|].
  match goal with |- context [set_tx t ?x s] => destruct (set_tx_local t x s) as (? & Hx & ?) end.
  split_and!; [done|done|by rewrite Hx|by rewrite Hx].
Qed.

Lemma read_local t i s s' : read_data t i s = Some s' -> t_pc (tx s t) = Running /\ local t s s' /\ db s' = db s /\
  t_pc (tx s' t) = Running /\ accesses (tx s' t) = accesses (tx s t).
Proof using Type.
  unfold read_data. intros H. destruct (t_pc (tx s t)); try done. destruct (accesses (tx s t) !! i); [|done].
  destruct (is_wr _); [done|]. injection H as <-.
  match goal with |- context [set_tx t ?x s] => destruct (set_tx_local t x s) as (? & Hx & ?) end.
  split_and!; [done|done|done|by rewrite Hx|by rewrite Hx].
Qed.

Lemma write_local t i v s s' : write_data t i v s = Some s' -> exists a, accesses (tx s t) !! i = Some a /\ a_type a = WR /\
  local t s s' /\ tx s' = tx s /\ db s' = <[a_row a := v]> (db s).
Proof using Type.
  unfold write_data. intros H. destruct (t_pc (tx s t)); try done. destruct (accesses (tx s t) !! i) as [a|]; [|done].
  destruct (is_wr a) eqn:Hw; [|done]. injection H as <-. exists a. unfold is_wr in Hw. apply bool_decide_eq_true in Hw. done.
Qed.

(** *** The other workers *)

Lemma write_held x a : a ∈ accesses x -> a_type a = WR -> (a_row a, LOCK_EX) ∈ held x.
Proof using Type.
  intros Ha Hw. unfold held. apply elem_of_app. left. apply list_elem_of_fmap. exists a. split; [by rewrite Hw|done].
Qed.

Lemma worker_ok_db q x d d' p : worker_ok q x d p -> (forall r, (r, LOCK_EX) ∈ held x -> d' !! r = d !! r) ->
  worker_ok q x d' p.
Proof using Type.
  intros Hw Hd.
  assert (forall accs, (forall a, a ∈ accs -> a ∈ accesses x) -> done_ok (request_cnt q) accs d -> done_ok (request_cnt q) accs d') as Hdone.
  { intros accs Hin Hok a Ha Hty. rewrite Hd; [by apply Hok|]. apply write_held; [by apply Hin|done]. }
  destruct Hw as [rest Hp Hpc Hok|rest accs a Hp Hpc Hok Ha Hty|rest accs a Hp Hpc Hok Ha Hty Hr Hc|Hpc].
  - by apply wo_next; [| |apply Hdone].
  - eapply wo_read; [done..|by apply Hdone|done|done].
  - eapply wo_zero; [done|done| |done|done| |done].
    + apply Hdone; [|done]. rewrite Ha. intros b ?. apply elem_of_app. by left.
    + rewrite Hd; [done|]. apply write_held; [|done]. rewrite Ha. apply elem_of_app. right. by left.
  - by apply wo_abort.
Qed.

Lemma yinv_frame s t s' ws : yinv s -> inv (db s0) s' -> local t (tpl s) s' ->
  (forall t', t' <> t -> ws t' = wk s t') ->
  (forall r, (forall lt t', t' <> t -> (r, lt) ∉ held (tx (tpl s) t')) \/ db s' !! r = db (tpl s) !! r) ->
  worker_inv (db s') t (ws t) (tx s' t) -> yinv (mkY s' ws (committed s)).
Proof using Type.
  intros [Hi Hdom Hws Hq Hlen Hser] Hi' (Hlog & Htx & Hd) Hw Hdb Ht. split; cbn; try done.
  - intros r. by rewrite (Hd r).
  - intros t'. destruct (decide (t' = t)) as [->|Hne]; [done|]. rewrite Hw, Htx by done. specialize (Hws t').
    unfold worker_inv in *. destruct (wk s t') as [[q p]|]; [|done]. destruct Hws as (? & ? & Hok). split_and!; [done..|].
    eapply worker_ok_db; [done|]. intros r Hr. destruct (Hdb r) as [Hn|]; [|done]. by destruct (Hn LOCK_EX t' Hne).
  - by rewrite Hlog.
  - by rewrite Hlog.
Qed.

(** The same rows: for the steps that change no contents. *)
Lemma yinv_frame_db s t s' ws : yinv s -> inv (db s0) s' -> local t (tpl s) s' -> db s' = db (tpl s) ->
  (forall t', t' <> t -> ws t' = wk s t') ->
  worker_inv (db (tpl s)) t (ws t) (tx s' t) -> yinv (mkY s' ws (committed s)).
Proof using Type.
  intros I Hi Hl Hdb Hw Ht. eapply yinv_frame; [done..| |by rewrite Hdb]. intros r. right. by rewrite Hdb.
Qed.

Lemma fn_insert_ne (ws : nat -> option (ycsb_query * prog)) t w t' : t' <> t -> (<[t := w]> ws) t' = ws t'.
Proof using Type. intros. by rewrite fn_lookup_insert_ne. Qed.

(** *** The steps of a worker *)

Context (Hg : Z.of_nat g_thread_cnt < 2 ^ 32).

Lemma worker_of s t q p : yinv s -> wk s t = Some (q, p) ->
  queries q /\ (t < g_thread_cnt)%nat /\ worker_ok q (tx (tpl s) t) (db (tpl s)) p.
Proof using Type. intros I Hw. pose proof (yi_workers s I t) as H. by rewrite Hw in H. Qed.

(** A worker in front of an access. *)
Lemma at_access q x d type row ok null : worker_ok q x d (PGet type row ok null) ->
  exists rest, map acc_of (accesses x) ++ (type, row) :: rest = plan q /\ at_pc (t_pc x) ((type, row) :: rest) /\
    done_ok (request_cnt q) (accesses x) d /\ ok = computation (request_cnt q) type row (todo q rest) /\
    null = PFinish Abort.
Proof using Type.
  intros Hw. inversion Hw as [rest Hp Hpc Hok Heq| | |]. destruct rest as [|[t r] rest]; [done|].
  cbn in Heq. injection Heq as -> -> <- <-. by exists rest.
Qed.

Lemma at_access_next q x d type row ok null x' : worker_ok q x d (PGet type row ok null) -> accesses x' = accesses x ->
  (t_pc x' = Locked type row \/ t_pc x' = Waiting type row \/ t_pc x' = GivingUp type row \/ t_pc x' = Failed) ->
  worker_ok q x' d (PGet type row ok null).
Proof using Type.
  intros Hw Ha Hpc. apply at_access in Hw as (rest & Hp & _ & Hok & -> & ->).
  apply (wo_next q x' d ((type, row) :: rest)); [by rewrite Ha| |by rewrite Ha].
  right. exists (type, row), rest. done.
Qed.

Lemma work_get_ok s t s' q type row ok null : yinv s -> wk s t = Some (q, PGet type row ok null) ->
  get_row t type row (tpl s) = Some s' -> yinv (set_tpl s' s).
Proof using All.
  intros I Hw Hs. destruct (worker_of s t q _ I Hw) as (Hq & Ht & Hok).
  pose proof (get_row_local t type row _ _ Hs) as (Hpc & Hl & Hdb & p & Hx & Hp).
  apply (yinv_frame_db s t s'); [done| |done|done|done|].
  - eapply tpl_get_row; [done|exact Hs|apply (yi_tpl s I)].
  - rewrite Hw. split_and!; [done..|]. rewrite Hx. eapply at_access_next; [done|done|]. cbn.
    destruct Hp as [->|[->| ->]]; tauto.
Qed.

Lemma pc_of_access q x d type row ok null ty r : worker_ok q x d (PGet type row ok null) ->
  t_pc x = Waiting ty r \/ t_pc x = GivingUp ty r \/ t_pc x = Locked ty r -> ty = type /\ r = row.
Proof using Type.
  intros Hw Hp. apply at_access in Hw as (rest & _ & Hpc & _).
  destruct Hpc as [Hpc|(a & rest' & [= <- <-] & Hpc)]; cbn in Hpc; destruct Hp as [Hp|[Hp|Hp]]; rewrite Hp in Hpc; destruct_or?; by simplify_eq.
Qed.

Lemma work_wait_ok s t s' q type row ok null : yinv s -> wk s t = Some (q, PGet type row ok null) ->
  wait_ready t (tpl s) = Some s' \/ wait_abort CC_ALG t (tpl s) = Some s' \/ leave_queue t (tpl s) = Some s' ->
  yinv (set_tpl s' s).
Proof using All.
  intros I Hw Hs. destruct (worker_of s t q _ I Hw) as (Hq & Ht & Hok).
  assert (inv (db s0) s') as Hi.
  { pose proof (yi_tpl s I). destruct Hs as [Hs|[Hs|Hs]];
      [eapply tpl_wait_ready|eapply tpl_wait_abort|eapply tpl_leave_queue]; (done || exact Hs). }
  assert (exists p, local t (tpl s) s' /\ db s' = db (tpl s) /\ tx s' t = set_pc p (tx (tpl s) t) /\
    (p = Locked type row \/ p = Waiting type row \/ p = GivingUp type row \/ p = Failed)) as (p & Hl & Hdb & Hx & Hp).
  { destruct Hs as [Hs|[Hs|Hs]];
      [apply wait_ready_local in Hs|apply wait_abort_local in Hs|apply leave_queue_local in Hs];
      destruct Hs as (ty & r & Hpc & ? & ? & ?);
      (destruct (pc_of_access _ _ _ _ _ _ _ ty r Hok) as [-> ->]; [tauto|]); eexists; split_and!; try done; tauto. }
  apply (yinv_frame_db s t s'); [done..|]. rewrite Hw. split_and!; [done..|]. rewrite Hx.
  eapply at_access_next; done.
Qed.

Lemma plan_type q a : queries q -> a ∈ plan q -> a.1 = RD \/ a.1 = WR \/ a.1 = SCAN.
Proof using Hqs. intros Hq. apply plan_types. by apply (qs_found s0 Hqs). Qed.

Lemma locked_row s t type r : yinv s -> t_pc (tx (tpl s) t) = Locked type r ->
  db (tpl s) !! r = Some (db (tpl s) !!! r).
Proof using All.
  intros I Hpc. destruct (yi_tpl s I) as [Il Id]. eapply (held_dom g_thread_cnt CC_ALG (db s0)); [done|done|].
  unfold held. rewrite Hpc. apply elem_of_app. right. by left.
Qed.

(** The row is granted and recorded; the computation follows. *)
Lemma work_row_ok s t s' q type row ok null : yinv s -> wk s t = Some (q, PGet type row ok null) ->
  record_access CC_ALG REPEATABLE_READ t (tpl s) = Some s' -> yinv (set_wk t (Some (q, ok)) (set_tpl s' s)).
Proof using All.
  intros I Hw Hs. destruct (worker_of s t q _ I Hw) as (Hq & Ht & Hok).
  pose proof (record_local t _ _ Hs) as (ty & r & Hpc & Hl & Hdb & Hpc' & Hacc).
  destruct (pc_of_access _ _ _ _ _ _ _ ty r Hok) as [-> ->]; [tauto|].
  pose proof (locked_row s t type row I Hpc) as Hrow.
  apply (yinv_frame_db s t s'); [done| |done|done|intros; cbn; by rewrite fn_lookup_insert_ne|].
  { eapply tpl_record; [exact Hearly|exact Hs|apply (yi_tpl s I)]. }
  rewrite fn_lookup_insert. split_and!; [done..|].
  destruct (at_access _ _ _ _ _ _ _ Hok) as (rest & Hp & _ & Hdone & -> & _).
  set (x' := tx s' t) in *.
  assert (map acc_of (accesses x') ++ rest = plan q) as Hp'.
  { rewrite Hacc, map_app. cbn. rewrite <- (assoc_L (++)). exact Hp. }
  assert (type = RD \/ type = WR \/ type = SCAN) as Hty.
  { apply (plan_type q (type, row) Hq). rewrite <- Hp. apply elem_of_app. right. by left. }
  assert (type <> WR -> done_ok (request_cnt q) (accesses x') (db (tpl s))) as Hdone'.
  { intros Hne b Hb Hbt. rewrite Hacc in Hb. apply elem_of_app in Hb as [Hb|Hb]; [by apply Hdone|].
    apply list_elem_of_singleton in Hb as ->. done. }
  unfold computation. destruct (1 <? request_cnt q) eqn:Hc; b2p.
  - destruct (decide (type = WR)) as [->|Hne].
    + eapply (wo_zero q x' (db (tpl s)) rest (accesses (tx (tpl s) t)) (mkAccess WR row _)); [done|done|done|exact Hacc|done| |done].
      exact Hrow.
    + assert (bool_decide (type = RD) || bool_decide (type = SCAN) = true) as -> by (destruct Hty as [->|[->| ->]]; done).
      eapply wo_read; [exact Hp'|exact Hpc'|by apply Hdone'|exact Hacc|done].
  - apply wo_next; [exact Hp'|by left|]. destruct (decide (type = WR)) as [->|Hne]; [|by apply Hdone'].
    intros b Hb Hbt. change (b ∈ accesses x') in Hb. rewrite Hacc in Hb. apply elem_of_app in Hb as [Hb|Hb]; [by apply Hdone|].
    apply list_elem_of_singleton in Hb as ->. cbn. rewrite (proj2 (Z.ltb_ge _ _)) by done. exact Hrow.
Qed.

Lemma work_null_ok s t q type row ok null : yinv s -> wk s t = Some (q, PGet type row ok null) ->
  t_pc (tx (tpl s) t) = Failed -> yinv (set_wk t (Some (q, null)) s).
Proof using All.
  intros I Hw Hpc. destruct (worker_of s t q _ I Hw) as (Hq & Ht & Hok).
  apply (yinv_frame_db s t (tpl s)); [done|apply (yi_tpl s I)|by split_and!|done|intros; cbn; by rewrite fn_lookup_insert_ne|].
  rewrite fn_lookup_insert. split_and!; [done..|].
  destruct (at_access _ _ _ _ _ _ _ Hok) as (rest & _ & _ & _ & _ & ->). by apply wo_abort.
Qed.

Lemma gets_shape cnt rest : gets cnt rest (PFinish RCOK) = PFinish RCOK /\ rest = [] \/
  exists a rest', rest = a :: rest' /\ gets cnt rest (PFinish RCOK) =
    PGet a.1 a.2 (computation cnt a.1 a.2 (gets cnt rest' (PFinish RCOK))) (PFinish Abort).
Proof using Type. destruct rest as [|a rest]; [by left|right]. by exists a, rest. Qed.

Lemma work_read_ok s t s' q k : yinv s -> wk s t = Some (q, PRead k) ->
  read_data t (last_access t s) (tpl s) = Some s' -> yinv (set_wk t (Some (q, k)) (set_tpl s' s)).
Proof using All.
  intros I Hw Hs. destruct (worker_of s t q _ I Hw) as (Hq & Ht & Hok).
  pose proof (read_local t _ _ _ Hs) as (Hpc & Hl & Hdb & Hpc' & Hacc).
  apply (yinv_frame_db s t s'); [done| |done|done|intros; cbn; by rewrite fn_lookup_insert_ne|].
  { eapply tpl_read; [exact Hs|apply (yi_tpl s I)]. }
  rewrite fn_lookup_insert. split_and!; [done..|].
  inversion Hok as [rest ? ? ? Heq|rest accs a Hp _ Hdone Ha Hne Heq| |].
  - destruct (gets_shape (request_cnt q) rest) as [[E _]|(b & rest' & _ & E)]; congruence.
  - apply wo_next; [by rewrite Hacc|by left|by rewrite Hacc].
Qed.

Lemma access_rows_NoDup q x rest : queries q -> map acc_of (accesses x) ++ rest = plan q -> NoDup (map a_row (accesses x)).
Proof using Hqs.
  intros Hq Hp. pose proof (qs_once s0 Hqs q Hq) as Hnd. rewrite <- Hp, map_app, map_map in Hnd.
  apply NoDup_app in Hnd as (Hnd & _). exact Hnd.
Qed.

Lemma work_zero_ok s t s' q row k data v : yinv s -> wk s t = Some (q, PZero row k) -> db (tpl s) !! row = Some data ->
  zero8 data = Some v -> write_data t (last_access t s) v (tpl s) = Some s' ->
  yinv (set_wk t (Some (q, k)) (set_tpl s' s)).
Proof using All.
  intros I Hw Hdata Hv Hs. destruct (worker_of s t q _ I Hw) as (Hq & Ht & Hok).
  pose proof (write_local t _ _ _ _ Hs) as (a & Ha & Hty & Hl & Hx & Hdb).
  pose proof (yi_tpl s I) as [Il Id].
  inversion Hok as [rest ? ? ? Heq| |rest accs b Hp Hpc Hdone Hb Hbt Hrow Hc Heq|].
  { destruct (gets_shape (request_cnt q) rest) as [[E _]|(c & rest' & _ & E)]; congruence. }
  subst row k.
  assert (a = b) as ->.
  { unfold last_access, row_cnt in Ha. rewrite Hb, length_app in Ha. cbn in Ha.
    rewrite lookup_app_r in Ha by lia. replace (pred (length accs + 1) - length accs)%nat with 0%nat in Ha by lia. by injection Ha. }
  pose proof (access_rows_NoDup q _ rest Hq Hp) as Hnd. rewrite Hb, map_app in Hnd.
  apply NoDup_app in Hnd as (_ & Hdis & _).
  apply (yinv_frame s t s'); [done| |done|intros; cbn; by rewrite fn_lookup_insert_ne| |].
  - eapply tpl_write; [exact Hs|apply (yi_tpl s I)].
  - intros r. rewrite Hdb. destruct (decide (a_row b = r)) as [<-|]; [left|right; by rewrite lookup_insert_ne].
    intros lt t' Hne Hin. destruct (held_exclusive g_thread_cnt CC_ALG _ _ t t' (a_row b) lt Il) as [? _]; [|done|done].
    apply write_held; [|done]. rewrite Hb. apply elem_of_app. right. by left.
  - rewrite fn_lookup_insert. split_and!; [done..|]. rewrite Hx. apply wo_next; [done|by left|].
    intros c Hcin Hct. rewrite Hb in Hcin. apply elem_of_app in Hcin as [Hcin|Hcin].
    + rewrite Hdb, lookup_insert_ne; [by apply Hdone|]. intros Heq2. apply (Hdis (a_row c)).
      * by apply list_elem_of_fmap_2.
      * rewrite <- Heq2. by left.
    + apply list_elem_of_singleton in Hcin as ->. rewrite Hdb, lookup_insert_eq, (proj2 (Z.ltb_lt _ _)) by done.
      rewrite Hdata in Hrow. injection Hrow as <-. unfold zeroed. by rewrite Hv.
Qed.

(** *** The end of a transaction *)

(** What a committed query has written. *)
Lemma commit_effect q x d sd : queries q -> map acc_of (accesses x) = plan q -> done_ok (request_cnt q) (accesses x) d ->
  (forall a, a ∈ accesses x -> a_type a = WR -> sd !! a_row a = Some (orig_data a)) ->
  apply_writes (writes_of d x) sd = effect (request_cnt q) (plan q) sd.
Proof using All.
  intros Hq Hp Hdone Horig. apply map_eq. intros r. rewrite effect_lookup.
  assert (forall v, (r, v) ∈ writes_of d x <-> exists a, a ∈ accesses x /\ a_type a = WR /\ a_row a = r /\ v = d !!! r) as Hin.
  { intros v. unfold writes_of. rewrite list_elem_of_fmap. split.
    - intros (a & [= -> ->] & Ha). apply list_elem_of_In, filter_In in Ha as [Ha Hw]. unfold is_wr in Hw.
      apply bool_decide_eq_true in Hw. exists a. split; [by apply list_elem_of_In|done].
    - intros (a & Ha & Hw & <- & ->). exists a. split; [done|]. apply list_elem_of_In, filter_In.
      split; [by apply list_elem_of_In|]. unfold is_wr. by apply bool_decide_eq_true. }
  destruct (decide ((WR, r) ∈ plan q)) as [Hwr|Hwr].
  - rewrite (bool_decide_eq_true_2 _ Hwr), andb_true_r. rewrite <- Hp in Hwr.
    apply list_elem_of_fmap in Hwr as (a & [= Hty Hr] & Ha). symmetry in Hty, Hr.
    pose proof (Hdone a Ha Hty) as Hd. pose proof (Horig a Ha Hty) as Ho. rewrite Hr in Hd, Ho.
    rewrite (apply_writes_in _ _ r (d !!! r)).
    + rewrite Ho, (lookup_total_correct _ _ _ Hd). by destruct (1 <? request_cnt q).
    + unfold writes_of. rewrite <- list_fmap_compose. 
      assert (NoDup (map a_row (accesses x))) as Hnd by (eapply (access_rows_NoDup q x []); [done|by rewrite app_nil_r]).
      clear -Hnd. induction (accesses x) as [|b l IH]; [constructor|]. cbn in Hnd. apply NoDup_cons in Hnd as [Hni Hnd].
      cbn. destruct (is_wr b); [|by apply IH]. cbn. apply NoDup_cons. split; [|by apply IH]. intros Hb. apply Hni.
      apply list_elem_of_fmap in Hb as (c & -> & Hc). apply list_elem_of_In, filter_In in Hc as [Hc _].
      apply list_elem_of_fmap. exists c. split; [done|by apply list_elem_of_In].
    + apply Hin. by exists a.
  - rewrite (bool_decide_eq_false_2 _ Hwr), andb_false_r. apply apply_writes_other. intros v (a & Ha & Hty & Hr & _)%Hin.
    apply Hwr. rewrite <- Hp, list_elem_of_fmap. exists a. split; [|done]. unfold acc_of. by rewrite Hty, Hr.
Qed.

Lemma no_cleaning s t q p : yinv s -> wk s t = Some (q, p) -> cleaning (tx (tpl s) t) = false.
Proof using Type.
  intros I Hw. destruct (worker_of s t q p I Hw) as (_ & _ & Hok). unfold cleaning.
  destruct Hok as [rest _ Hpc _|rest accs a _ Hpc _ _ _|rest accs a _ Hpc _ _ _ _ _|Hpc]; [|by rewrite Hpc..].
  destruct Hpc as [->|(a & rest' & _ & Hpc)]; [done|]. destruct (t_pc _); try done. destruct_or?; done.
Qed.

Lemma own_writes s t a : yinv s -> cleaning (tx (tpl s) t) = false -> a ∈ accesses (tx (tpl s) t) -> a_type a = WR ->
  serial_db (db s0) (log (tpl s)) !! a_row a = Some (orig_data a).
Proof using Type.
  intros I Hcl Ha Hty. pose proof (yi_tpl s I) as [_ Id]. apply (i_dirty _ _ _ _ _ Id t).
  apply list_elem_of_lookup_1 in Ha as [i Ha]. exists i, a. split_and!; [done..|].
  unfold cleaning in Hcl. by destruct (t_pc (tx (tpl s) t)).
Qed.

Lemma work_finish_ok s t s' q rc : yinv s -> wk s t = Some (q, PFinish rc) -> TwoPL.finish t rc (tpl s) = Some s' ->
  yinv (mkY s' (<[t := None]> (wk s)) (if bool_decide (rc = RCOK) then committed s ++ [q] else committed s)).
Proof using All.
  intros I Hw Hs. destruct (worker_of s t q _ I Hw) as (Hq & Ht & Hok).
  pose proof (no_cleaning s t q _ I Hw) as Hcl.
  assert (inv (db s0) s') as Hi by (eapply tpl_finish; [exact Hs|apply (yi_tpl s I)]).
  assert (db s' = db (tpl s) /\ (forall t', t' <> t -> tx s' t' = tx (tpl s) t') /\ same_dom (tpl s) s' /\
    cleaning (tx s' t) = true) as (Hdb & Htx & Hdom & Hcl').
  { unfold TwoPL.finish in Hs. destruct (t_pc (tx (tpl s) t)), rc; try done; injection Hs as <-; cbn;
      (split_and!; [done| |done|by rewrite upd_eq]); intros t' ?; by rewrite upd_ne. }
  destruct (decide (rc = RCOK)) as [->|Hrc].
  - rewrite bool_decide_eq_true_2 by done.
    assert (t_pc (tx (tpl s) t) = Running /\ map acc_of (accesses (tx (tpl s) t)) = plan q /\
      done_ok (request_cnt q) (accesses (tx (tpl s) t)) (db (tpl s))) as (Hpc & Hp & Hdone).
    { inversion Hok as [rest Hp Hpc Hdone Heq| | |]. destruct rest as [|a rest]; [|done].
      rewrite app_nil_r in Hp. split_and!; [|done|done]. destruct Hpc as [|(a & rest' & ? & _)]; done. }
    assert (log s' = log (tpl s) ++ [mkCommit 0 (t_reads (tx (tpl s) t)) (writes_of (db (tpl s)) (tx (tpl s) t))]) as Hlog.
    { unfold TwoPL.finish in Hs. rewrite Hpc in Hs. by injection Hs as <-. }
    pose proof I as [Hitpl Hidom Hws Hqs' Hlen Hser]. split; cbn.
    + done.
    + intros r. by rewrite (Hdom r).
    + intros t'. destruct (decide (t' = t)) as [->|Hne]; [rewrite fn_lookup_insert; by right|].
      rewrite fn_lookup_insert_ne, Htx, Hdb by done. apply Hws.
    + apply Forall_app. split; [done|by apply Forall_singleton].
    + rewrite Hlog, !length_app, Hlen. done.
    + intros i. rewrite Hlog. destruct (decide (i <= length (committed s))%nat) as [Hle|Hgt].
      * rewrite !take_app_le by lia. apply Hser.
      * rewrite !take_ge by (rewrite length_app; cbn; lia). unfold serial_effect. rewrite fold_left_app, serial_db_snoc. cbn.
        fold (serial_effect (committed s) (db s0)).
        specialize (Hser (length (committed s))). rewrite !take_ge in Hser by lia. rewrite Hser.
        symmetry. apply commit_effect; [done..|]. intros a Ha Hty. by eapply own_writes.
  - rewrite bool_decide_eq_false_2 by done. apply (yinv_frame_db s t s'); [done|done| |done| |].
    + split_and!; [|done|done]. unfold TwoPL.finish in Hs. destruct (t_pc (tx (tpl s) t)), rc; try done; by injection Hs as <-.
    + intros. by rewrite fn_lookup_insert_ne.
    + rewrite fn_lookup_insert. by right.
Qed.

(** *** [cleanup], the next query and the next timestamp *)

Lemma idle_worker s t : yinv s -> (exists rc b, t_pc (tx (tpl s) t) = Cleaning rc b) -> wk s t = None.
Proof using Type.
  intros I (rc & b & Hpc). destruct (wk s t) as [[q p]|] eqn:Hw; [|done].
  pose proof (no_cleaning s t q p I Hw) as Hcl. unfold cleaning in Hcl. by rewrite Hpc in Hcl.
Qed.

Lemma y_copy_ok s t s' : yinv s -> cleanup_copy t (tpl s) = Some s' -> yinv (set_tpl s' s).
Proof using All.
  intros I Hs. pose proof (yi_tpl s I) as [Il Id].
  assert (inv (db s0) s') as Hi by (eapply tpl_copy; [exact Hs|apply (yi_tpl s I)]).
  unfold cleanup_copy in Hs. destruct (t_pc (tx (tpl s) t)) as [| | | | |rc restored] eqn:Hpc; try done.
  destruct restored; [done|]. destruct (last (accesses (tx (tpl s) t))) as [a|] eqn:Ha; [|done].
  destruct (to_restore rc a) eqn:Hr; [|done]. injection Hs as <-.
  pose proof (idle_worker s t I ltac:(eauto)) as Hw.
  apply (yinv_frame s t _ (wk s)); [done|done| |done| |].
  - split_and!; [done| |done]. intros t' ?. cbn. by rewrite upd_ne.
  - intros r. cbn. destruct (decide (a_row a = r)) as [<-|]; [left|right; by rewrite lookup_insert_ne].
    intros lt t' Hne Hin. unfold to_restore, is_wr in Hr. apply andb_true_iff in Hr as [_ Hr].
    apply bool_decide_eq_true in Hr.
    destruct (held_exclusive g_thread_cnt CC_ALG _ _ t t' (a_row a) lt Il) as [? _]; [|done|done].
    apply write_held; [|done]. apply last_Some_app in Ha as [k ->]. apply elem_of_app. right. by left.
  - rewrite Hw. right. cbn. by rewrite upd_eq.
Qed.

Lemma y_release_ok s t s' : yinv s -> cleanup_release CC_ALG REPEATABLE_READ t (tpl s) = Some s' -> yinv (set_tpl s' s).
Proof using All.
  intros I Hs.
  assert (inv (db s0) s') as Hi by (eapply tpl_release; [done|exact Hearly|exact Hs|apply (yi_tpl s I)]).
  unfold cleanup_release in Hs. destruct (t_pc (tx (tpl s) t)) as [| | | | |rc restored] eqn:Hpc; try done.
  destruct (last (accesses (tx (tpl s) t))) as [a|] eqn:Ha; [|done]. inv_assert. rewrite Hearly in Hs. cbn [andb] in Hs.
  destruct (release t (a_row a) (tpl s)) as [s1|] eqn:Hr; [|done]. injection Hs as <-.
  apply release_local in Hr as (Hdb & Hlog & Htx & Hdom).
  pose proof (idle_worker s t I ltac:(eauto)) as Hw.
  apply (yinv_frame_db s t _ (wk s)); [done|done| |exact Hdb|done|].
  - split_and!; [exact Hlog| |exact Hdom]. intros t' ?. cbn. rewrite upd_ne by done. by rewrite Htx.
  - rewrite Hw. right. cbn. by rewrite upd_eq.
Qed.

Lemma y_end_ok s t s' : yinv s -> cleanup_end t (tpl s) = Some s' -> yinv (set_tpl s' s).
Proof using All.
  intros I Hs. assert (inv (db s0) s') as Hi by (eapply tpl_end; [exact Hs|apply (yi_tpl s I)]).
  unfold cleanup_end in Hs. destruct (t_pc (tx (tpl s) t)) as [| | | | |rc restored] eqn:Hpc; try done.
  destruct (accesses _); [|done]. injection Hs as <-. pose proof (idle_worker s t I ltac:(eauto)) as Hw.
  apply (yinv_frame_db s t _ (wk s)); [done|done|apply set_tx_local|done|done|].
  rewrite Hw. left. cbn. by rewrite upd_eq.
Qed.

Lemma y_ts_ok s t v : yinv s -> wk s t = None -> tx (tpl s) t = idle -> (forall t', sys_ts (sys (tpl s)) t' <> v) ->
  yinv (set_tpl (new_ts t v (tpl s)) s).
Proof using All.
  intros I Hw Hidle Hv. apply (yinv_frame_db s t _ (wk s)); [done| |by split_and!|done|done|].
  - eapply tpl_new_ts; [done|exact Hidle|exact Hv|apply (yi_tpl s I)].
  - rewrite Hw. by left.
Qed.

Lemma y_start_ok s t q : yinv s -> wk s t = None -> tx (tpl s) t = idle -> (t < g_thread_cnt)%nat -> queries q ->
  yinv (set_wk t (Some (q, run_txn q)) s).
Proof using All.
  intros I Hw Hidle Ht Hq.
  apply (yinv_frame_db s t (tpl s)); [done|apply (yi_tpl s I)|by split_and!|done|intros; by rewrite fn_lookup_insert_ne|].
  rewrite fn_lookup_insert. split_and!; [done..|]. rewrite Hidle.
  rewrite run_txn_gets by by apply (qs_found s0 Hqs). apply wo_next; [done|by left|].
  intros a Ha. cbn in Ha. by apply not_elem_of_nil in Ha.
Qed.

Lemma ystep_inv s s' : ystep s s' -> yinv s -> yinv s'.
Proof using All.
  intros Hs I. destruct Hs as [t q|t s' Hwork|t s' Hs|t s' Hs|t s' Hs|t v].
  - by apply y_start_ok.
  - destruct Hwork.
    + by eapply work_get_ok.
    + eapply work_wait_ok; [done..|by left].
    + eapply work_wait_ok; [done..|by right; left].
    + eapply work_wait_ok; [done..|by right; right].
    + by eapply work_row_ok.
    + by eapply work_null_ok.
    + by eapply work_read_ok.
    + by eapply work_zero_ok.
    + by eapply work_finish_ok.
  - by eapply y_copy_ok.
  - by eapply y_release_ok.
  - by eapply y_end_ok.
  - by apply y_ts_ok.
Qed.

Lemma start_inv s : TwoPL.init s0 -> tpl s = s0 -> (forall t, wk s t = None) -> committed s = [] -> yinv s.
Proof using All.
  intros Hi Ht Hw Hc. split; rewrite ?Ht, ?Hc.
  - by apply tpl_init.
  - done.
  - intros t. rewrite Hw. left. by apply Hi.
  - constructor.
  - destruct Hi as (_ & _ & -> & _). done.
  - destruct Hi as (_ & _ & -> & _). intros i. by rewrite !take_nil.
Qed.

(** *** Serial executions of the programs *)

Lemma row_ok_effect cnt l d r : row_ok d r -> row_ok (effect cnt l d) r.
Proof using Type. revert d. induction l as [|a l IH]; intros d H; cbn; [done|]. by apply IH, row_ok_write. Qed.

Lemma run_serial_effect qs d : Forall queries qs -> (forall q a, queries q -> a ∈ plan q -> row_ok d a.2) ->
  run_serial qs d = Some (serial_effect qs d).
Proof using All.
  intros Hall. revert d. induction Hall as [|q qs Hq Hall IH]; intros d Hok; [done|]. cbn [run_serial].
  rewrite run_txn_gets by by apply (qs_found s0 Hqs).
  rewrite exec_gets; [|done|]; [|intros a Ha; split; [by eapply Hok|by eapply plan_type]]. cbn [exec after r_db].
  rewrite IH; [done|]. intros q' a Hq' Ha. cbn. apply row_ok_effect. by eapply Hok.
Qed.

(** *** Progress *)

Lemma get_row_total s t type r : yinv s -> t_pc (tx (tpl s) t) = Running -> (t < g_thread_cnt)%nat ->
  type = RD \/ type = WR \/ type = SCAN -> r ∉ map a_row (accesses (tx (tpl s) t)) ->
  is_Some (sys_rows (sys s0) !! r) -> is_Some (get_row t type r (tpl s)).
Proof using All.
  intros I Hpc Ht Hty Hr Hrow. unfold TwoPL.get_row. rewrite Hpc. destruct (_ <=? _)%nat; [by eexists|].
  rewrite c_assert_true.
  2:{ rewrite (proj2 (Nat.ltb_lt _ _)) by done. rewrite (bool_decide_eq_true_2 (r ∉ _)) by done.
      by destruct Hty as [->|[->| ->]]. }
  apply (yi_dom s I) in Hrow as [l Hl]. rewrite Hl. pose proof (yi_tpl s I) as [Il _].
  pose proof (sys_row_ok _ _ _ (i_sys _ _ _ _ Il) _ _ Hl) as Hrok.
  assert (t ∉ txns (entries l)) as Hni.
  { intros He. pose proof (i_only _ _ _ _ Il _ _ _ Hl He) as Ho. unfold held, wanted in Ho.
    rewrite Hpc, !app_nil_r, map_map in Ho. by apply Hr. }
  destruct (lock_get_total g_thread_cnt (sys_ts (sys (tpl s))) get_txn_id CC_ALG (lock_of type) t l _ Hrok Hg)
    as (rc & ids & l' & fl' & -> & _ & Hpost); [apply lock_of_ne|done|done|].
  destruct rc; try done; by eexists.
Qed.

Lemma work_progress s t q p : yinv s -> wk s t = Some (q, p) -> (forall type r, t_pc (tx (tpl s) t) <> Waiting type r) ->
  exists s', work t s s'.
Proof using All.
  intros I Hw Hnw. destruct (worker_of s t q p I Hw) as (Hq & Ht & Hok). pose proof (yi_tpl s I) as [Il Id].
  destruct Hok as [rest Hp Hpc Hdone|rest accs a Hp Hpc Hdone Ha Hty|rest accs a Hp Hpc Hdone Ha Hty Hrow Hc|Hpc].
  - destruct rest as [|[ty r] rest].
    { destruct Hpc as [Hpc|(a & rest' & ? & _)]; [|done].
      eexists. eapply work_finish; [exact Hw|]. unfold TwoPL.finish. by rewrite Hpc. }
    cbn [gets foldr] in Hw. destruct Hpc as [Hpc|(a & rest' & [= <- <-] & Hpc)]; cbn [fst snd] in *.
    + assert ((ty, r) ∈ plan q) as Hin by (rewrite <- Hp; apply elem_of_app; right; by left).
      destruct (get_row_total s t ty r I Hpc Ht) as [s' Hs].
      * by apply (plan_type q (ty, r)).
      * pose proof (qs_once s0 Hqs q Hq) as Hnd. rewrite <- Hp, map_app, map_map in Hnd.
        apply NoDup_app in Hnd as (_ & Hd & _). intros Hin'. apply (Hd r Hin'). by left.
      * by apply (qs_rows s0 Hqs q (ty, r) Hq).
      * eexists. by eapply work_get.
    + destruct Hpc as [Hpc|[Hpc|[Hpc|Hpc]]].
      * eexists. eapply work_row; [exact Hw|]. unfold record_access. rewrite Hpc, Hearly. reflexivity.
      * by destruct (Hnw ty r).
      * destruct (release_ok g_thread_cnt CC_ALG Hg (sys (tpl s)) (tx (tpl s)) t r (lock_of ty) Il)
          as (l & rc & l' & fl' & Hl & Hrel & _); [right; unfold wanted; rewrite Hpc; by left|].
        eexists. eapply work_leave; [exact Hw|]. unfold leave_queue, release. rewrite Hpc, Hl, Hrel. reflexivity.
      * eexists. by eapply work_null.
  - eexists. eapply work_read; [exact Hw|]. unfold read_data, last_access, row_cnt. rewrite Hpc, Ha, length_app. cbn [length].
    rewrite lookup_app_r by lia. replace (pred (length accs + 1) - length accs)%nat with 0%nat by lia. cbn.
    unfold is_wr. by rewrite bool_decide_eq_false_2.
  - assert (row_ok (db s0) (a_row a)) as Hr0.
    { apply (qs_rows s0 Hqs q (WR, a_row a) Hq). rewrite <- Hp, Ha, map_app. apply elem_of_app. left. apply elem_of_app. right.
      cbn. unfold acc_of. rewrite Hty. by left. }
    assert (row_ok (serial_db (db s0) (log (tpl s))) (a_row a)) as (d & Hd & Hlen).
    { pose proof (yi_serial s I (length (committed s))) as Hser. rewrite !take_ge in Hser by (done || (rewrite (yi_len s I); done)).
      rewrite <- Hser. clear -Hr0. revert Hr0. generalize (db s0). induction (committed s) as [|q' qs IH]; intros m Hm; [done|].
      cbn. by apply IH, row_ok_effect. }
    rewrite (own_writes s t a I) in Hd; [|by eapply no_cleaning|rewrite Ha; apply elem_of_app; right; by left|done].
    injection Hd as <-. eexists. eapply work_zero; [exact Hw|exact Hrow|by apply zero8_some|].
    unfold write_data, last_access, row_cnt. rewrite Hpc, Ha, length_app. cbn [length].
    rewrite lookup_app_r by lia. replace (pred (length accs + 1) - length accs)%nat with 0%nat by lia. cbn.
    unfold is_wr. by rewrite bool_decide_eq_true_2.
  - eexists. eapply work_finish; [exact Hw|]. unfold TwoPL.finish. by rewrite Hpc.
Qed.
End system.

(** C12. YCSB under two-phase locking: in every interleaving of the workers, each of
    which runs [run_txn] on query after query, the committed queries, in the order
    in which they end, have exactly the effect of running each of them alone, and
    every value that one of them read is the one it would have read alone; rows
    that no unfinished transaction writes hold what they left. A worker that does
    not wait for a lock can go on: nothing it does fails an assertion or follows a
    null pointer. *)
Theorem ycsb_serializable {yc : YcsbConfig} g_thread_cnt get_txn_id CC_ALG MAX_ROW_PER_TXN REPEATABLE_READ
    index_read IDX_BTREE index_next queries s0 s
  (Hg : Z.of_nat g_thread_cnt < 2 ^ 32)
  (He : early_release CC_ALG REPEATABLE_READ = false)
  (Hi : TwoPL.init s0)
  (Hqs : queries_ok index_read IDX_BTREE index_next queries s0)
  (Hr : rtc (ystep g_thread_cnt get_txn_id CC_ALG MAX_ROW_PER_TXN REPEATABLE_READ index_read IDX_BTREE index_next queries)
          (mkY s0 (fun _ => None) []) s) :
  length (committed s) = length (log (tpl s)) /\ Forall queries (committed s) /\
  (forall i, run_serial index_read IDX_BTREE index_next (take i (committed s)) (db s0) =
     Some (serial_db (db s0) (take i (log (tpl s))))) /\
  replay (db s0) (log (tpl s)) /\
  (forall r, (forall t a, a ∈ accesses (tx (tpl s) t) -> a_row a = r -> a_type a <> WR) ->
     db (tpl s) !! r = serial_db (db s0) (log (tpl s)) !! r) /\
  (forall t q p, wk s t = Some (q, p) -> (forall type r, t_pc (tx (tpl s) t) <> Waiting type r) ->
     exists s', work g_thread_cnt get_txn_id CC_ALG MAX_ROW_PER_TXN REPEATABLE_READ t s s').
Proof.
  assert (yinv g_thread_cnt CC_ALG index_read IDX_BTREE index_next queries s0 s) as I.
  { refine (rtc_ind_r (yinv g_thread_cnt CC_ALG index_read IDX_BTREE index_next queries s0) _ _ _ s Hr).
    - eapply start_inv; done.
    - intros s1 s2 _ Hs I. eapply ystep_inv; done. }
  pose proof (yi_tpl _ _ _ _ _ _ _ _ I) as [Il Id]. split_and!.
  - apply (yi_len _ _ _ _ _ _ _ _ I).
  - apply (yi_queries _ _ _ _ _ _ _ _ I).
  - intros i. erewrite run_serial_effect; [by rewrite (yi_serial _ _ _ _ _ _ _ _ I)|..]; try done.
    + apply Forall_take, (yi_queries _ _ _ _ _ _ _ _ I).
    + intros q a Hq Ha. by apply (qs_rows _ _ _ _ _ Hqs q a).
  - apply (i_replay _ _ _ _ _ Id).
  - intros r Hn. apply (i_clean _ _ _ _ _ Id). intros t o (i & a & Ha & Hty & Hrow & _).
    by eapply (Hn t a); [eapply list_elem_of_lookup_2|..].
  - intros t q p Hw Hnw. by eapply work_progress.
Qed.

(** ** From the loader to the transactions *)

Section loaded.
Context {yc : YcsbConfig} {yok : YcsbOk}.
Context {St : Type} {ops : IndexOps St} {laws : IndexLaws St}.
Context (g_init_parallelism : Z) (schema : Catalog) (after_key after_value : list Z) (fresh : Z -> list Z).
Context (ix0 : St) (ok : load_ok g_init_parallelism schema after_key after_value fresh ix0).
Context (Hsize : forall k, (8 <= length (fresh k))%nat).

(** The rows of the loader, with their locks free. *)
Definition loaded_state (ls : lstate St) (ts : nat -> Z) : TwoPL.State :=
  mkState (mkLockSys (map_seq 0 (map (fun _ => Row_lock_init) (rows ls))) ∅ ts)
    (map_seq 0 (map snd (rows ls))) (fun _ => idle) [].

Definition loaded_read (ls : lstate St) (k : Z) (part : nat) : option (option nat) := ix_first k part (index ls).

(** The queries of the generator without scans. *)
Definition plain_query (q : ycsb_query) : Prop := query_ok q /\ Forall (fun r => rtype r <> SCAN) (requests q).

Lemma loaded_init ls ts : (forall t t', ts t = ts t' -> t = t') -> TwoPL.init (loaded_state ls ts).
Proof using Type.
  intros Hts. split_and!; [|done|done|].
  - split; [|exact Hts]. intros r l. cbn. rewrite lookup_map_seq_0, lookup_map. by destruct (rows ls !! r); intros [= <-].
  - intros r l. cbn. rewrite !lookup_map_seq_0, !lookup_map. destruct (rows ls !! r); [|done]. by eexists.
Qed.

Context (ls : lstate St).
Context (Hls : linv g_init_parallelism schema after_key after_value fresh ix0 ls).
Context (Hdone : Forall (fun p => finished p = true) (pcs ls)).

Lemma loaded_row k : 0 <= k < g_synth_table_size -> exists r d, row_of (loaded_read ls) k = Some r /\ rows ls !! r = Some (k, d).
Proof using All.
  intros Hk. destruct (load_done _ _ _ _ _ _ ok ls Hls Hdone) as (Hin & _ & Hrow).
  apply Hin, list_elem_of_fmap in Hk as ([k' d] & -> & Hr). apply list_elem_of_lookup_1 in Hr as [r Hr].
  destruct (Hrow r k' d Hr) as (p & Hp & Hix & _). exists r, d. split; [|done]. unfold row_of. cbn. rewrite Hp.
  unfold loaded_read. by rewrite Hix.
Qed.

Lemma plain_plan q : plain_query q -> plan (loaded_read ls) false (fun _ => None) q =
  map (fun r => (rtype r, default 0%nat (row_of (loaded_read ls) (key r)))) (requests q).
Proof using All.
  intros [Hok Hns]. unfold plan. pose proof (q_reqs q Hok) as Hreqs. clear Hok.
  induction Hns as [|r l Hr Hl IH]; [done|]. apply Forall_cons in Hreqs as [Hrq Hreqs]. cbn. rewrite IH by done.
  destruct (loaded_row (key r)) as (row & d & Hrow & _).
  { pose proof (r_key _ _ Hrq). pose proof parts_ok. pose proof same_parts. lia. }
  unfold req_plan. rewrite Hrow, decide_False by done. done.
Qed.

Lemma loaded_queries ts : queries_ok (loaded_read ls) false (fun _ => None) plain_query (loaded_state ls ts).
Proof using All.
  assert (forall q r, plain_query q -> r ∈ requests q -> 0 <= key r < g_synth_table_size) as Hkey.
  { intros q r [Hok _] Hr. pose proof (q_reqs q Hok) as Hreqs. rewrite Forall_forall in Hreqs.
    pose proof (r_key _ _ (Hreqs r Hr)). pose proof parts_ok. pose proof same_parts. lia. }
  split.
  - intros q Hq. pose proof Hq as [Hok Hns]. pose proof (q_reqs q Hok) as Hreqs. rewrite Forall_forall in *. intros r Hr.
    destruct (loaded_row (key r) (Hkey q r Hq Hr)) as (row & d & Hrow & _). split_and!; [by eexists|by eapply r_type, Hreqs|].
    intros E. by destruct (Hns r Hr).
  - intros q Hq. rewrite plain_plan, map_map by done. cbn. destruct (Hq) as [Hok _].
    pose proof (keys_NoDup _ _ (q_reqs q Hok) (q_once q Hok)) as Hnd.
    assert (forall r, r ∈ requests q -> 0 <= key r < g_synth_table_size) as Hk by by intros r; apply Hkey.
    revert Hnd Hk. generalize (requests q). intros l. induction l as [|r l IH]; intros Hnd Hk; [constructor|]. cbn in *.
    apply NoDup_cons in Hnd as [Hni Hnd]. constructor; [|apply IH; [done|]; intros; apply Hk; by right].
    intros (r' & Heq & Hr')%list_elem_of_fmap. apply Hni.
    destruct (loaded_row (key r)) as (row & d & Hrow & Hd); [apply Hk; by left|].
    destruct (loaded_row (key r')) as (row' & d' & Hrow' & Hd'); [apply Hk; by right|].
    rewrite Hrow, Hrow' in Heq. cbn in Heq. subst row'. rewrite Hd in Hd'. injection Hd' as E _. rewrite E.
    by apply list_elem_of_fmap_2.
  - intros q a Hq Ha. rewrite plain_plan in Ha by done. apply list_elem_of_fmap in Ha as (r & -> & Hr). cbn.
    destruct (loaded_row (key r) (Hkey q r Hq Hr)) as (row & d & Hrow & Hd). rewrite Hrow. cbn.
    rewrite lookup_map_seq_0, lookup_map, Hd. split; [by eexists|]. exists d. cbn. rewrite lookup_map_seq_0, lookup_map, Hd.
    split; [done|]. destruct (load_done _ _ _ _ _ _ ok ls Hls Hdone) as (_ & _ & Hall).
    destruct (Hall _ _ _ Hd) as (p & _ & _ & Hfill). destruct (fill_row_ok schema after_key after_value (lo_schema _ _ _ _ _ _ ok) (key r) (fresh (key r)))
      as (d' & Hd' & Hl); [apply (lo_fresh _ _ _ _ _ _ ok)|]. rewrite Hfill in Hd'. injection Hd' as <-. by rewrite Hl.
Qed.
End loaded.

(** After the load every valid query without scans finds the rows of all its keys,
    in the table and at least eight bytes long, and never asks for a row twice: what
    YCSB under two-phase locking relies on. *)
Theorem ycsb_loaded_queries {yc : YcsbConfig} {yok : YcsbOk} {St : Type} {ops : IndexOps St} {laws : IndexLaws St}
    g_init_parallelism schema after_key after_value fresh ix0 ls ts
  (ok : load_ok g_init_parallelism schema after_key after_value fresh ix0)
  (Hsize : forall k, (8 <= length (fresh k))%nat)
  (Hr : rtc (step g_init_parallelism schema after_key after_value fresh) (start g_init_parallelism ix0) ls)
  (Hdone : Forall (fun p => finished p = true) (pcs ls)) :
  queries_ok (loaded_read ls) false (fun _ => None) plain_query (loaded_state ls ts).
Proof. eapply loaded_queries; try done. by eapply reachable_linv. Qed.

Lemma ex_loaded : exists ls : lstate IndexHash,
  rtc (step (yc := ex_config) 2 ex_schema [1; 2] [1; 2; 3; 4] ex_fresh) (start 2 (IndexHash_init 8 4)) ls /\
  linv (yc := ex_config) 2 ex_schema [1; 2] [1; 2; 3; 4] ex_fresh (IndexHash_init 8 4) ls /\
  Forall (fun p => finished p = true) (pcs ls).
Proof.
  destruct (load_ends (yc := ex_config) 2 ex_schema [1; 2] [1; 2; 3; 4] ex_fresh (IndexHash_init 8 4) ex_load_ok
    (start 2 (IndexHash_init 8 4))) as (ls & Hr & Hf); [by apply start_linv, ex_load_ok|].
  exists ls. split_and!; [done| |done]. eapply reachable_linv; [apply ex_load_ok|done].
Qed.

Lemma ycsb_loaded_queries_witness : exists ls : lstate IndexHash,
  queries_ok (yc := ex_config) (loaded_read ls) false (fun _ => None) (plain_query (yc := ex_config)) (loaded_state ls Z.of_nat).
Proof.
  destruct ex_loaded as (ls & Hr & _ & Hf). exists ls.
  refine (ycsb_loaded_queries (yc := ex_config) (yok := ex_config_ok) 2 ex_schema [1; 2] [1; 2; 3; 4] ex_fresh
    (IndexHash_init 8 4) ls Z.of_nat ex_load_ok _ Hr Hf).
  intros k. cbn. lia.
Defined.

(** *** A concrete run: one query *)

Section steps.
Context (g_thread_cnt : nat) (get_txn_id : nat -> Z) (CC_ALG : lock_alg) (MAX_ROW_PER_TXN : nat) (REPEATABLE_READ : bool).

Definition wstep (t : nat) (s : ystate) : option ystate :=
  match wk s t with
  | None | Some (_, PFail) => None
  | Some (q, PGet type row ok null) =>
      match t_pc (tx (tpl s) t) with
      | Running => do! s' <- get_row g_thread_cnt get_txn_id CC_ALG MAX_ROW_PER_TXN t type row (tpl s);; Some (set_tpl s' s)
      | Waiting _ _ => do! s' <- wait_ready t (tpl s);; Some (set_tpl s' s)
      | Locked _ _ =>
          do! s' <- record_access CC_ALG REPEATABLE_READ t (tpl s);; Some (set_wk t (Some (q, ok)) (set_tpl s' s))
      | _ => None
      end
  | Some (q, PRead k) =>
      do! s' <- read_data t (last_access t s) (tpl s);; Some (set_wk t (Some (q, k)) (set_tpl s' s))
  | Some (q, PZero row k) =>
      do! data <- db (tpl s) !! row;;
      do! v <- zero8 data;;
      do! s' <- write_data t (last_access t s) v (tpl s);; Some (set_wk t (Some (q, k)) (set_tpl s' s))
  | Some (q, PFinish rc) =>
      do! s' <- TwoPL.finish t rc (tpl s);;
      Some (mkY s' (<[t := None]> (wk s)) (if bool_decide (rc = RCOK) then committed s ++ [q] else committed s))
  end.

Lemma wstep_work t s s' : wstep t s = Some s' -> work g_thread_cnt get_txn_id CC_ALG MAX_ROW_PER_TXN REPEATABLE_READ t s s'.
Proof.
  unfold wstep. intros H. destruct (wk s t) as [[q p]|] eqn:Hw; [|done]. destruct p as [rc|type row ok null|k|row k|]; try done.
  - destruct (TwoPL.finish _ _ _) eqn:E; [|done]. injection H as <-. by eapply work_finish.
  - destruct (t_pc _); try done.
    + destruct (get_row _ _ _ _ _ _ _) eqn:E; [|done]. injection H as <-. by eapply work_get.
    + destruct (record_access _ _ _) eqn:E; [|done]. injection H as <-. by eapply work_row.
    + destruct (wait_ready _ _) eqn:E; [|done]. injection H as <-. by eapply work_ready.
  - destruct (read_data _ _ _) eqn:E; [|done]. injection H as <-. by eapply work_read.
  - destruct (db (tpl s) !! row) eqn:Ed; [|done]. destruct (zero8 _) eqn:Ez; [|done].
    destruct (write_data _ _ _ _) eqn:E; [|done]. injection H as <-. by eapply work_zero.
Qed.

Fixpoint wsteps (n t : nat) (s : ystate) : option ystate :=
  match n with O => Some s | S n => do! s' <- wstep t s;; wsteps n t s' end.

Lemma wsteps_ystep {yc : YcsbConfig} index_read IDX_BTREE index_next queries n t s s' : wsteps n t s = Some s' ->
  rtc (ystep g_thread_cnt get_txn_id CC_ALG MAX_ROW_PER_TXN REPEATABLE_READ index_read IDX_BTREE index_next queries) s s'.
Proof.
  revert s. induction n as [|n IH]; intros s; cbn; [intros [= ->]; apply rtc_refl|].
  destruct (wstep t s) as [s1|] eqn:E; [|done]. intros H. eapply rtc_l; [|by apply IH]. eapply y_work. by apply wstep_work.
Qed.
End steps.

Definition ex_start : TwoPL.State :=
  mkState (mkLockSys {[ 9%nat := Row_lock_init; 6%nat := Row_lock_init ]} ∅ Z.of_nat) ex_rows (fun _ => idle) [].

Lemma ex_start_init : TwoPL.init ex_start.
Proof.
  split_and!; [|done|done|].
  - split; [|cbn; lia]. intros r l. cbn.
    intros [[_ <-]|[_ [_ <-]%lookup_singleton_Some]]%lookup_insert_Some; done.
  - intros r l. cbn. intros [[<- _]|[_ [<- _]%lookup_singleton_Some]]%lookup_insert_Some; eexists; reflexivity.
Qed.

Lemma ex_queries_ok : queries_ok (yc := ex_config) ex_read false (fun _ => None) (eq ex_txn) ex_start.
Proof.
  split.
  - intros q <-. repeat constructor; cbn; try done; try (by left); try (by right; left); by eexists.
  - intros q <-. cbn. by apply (bool_decide_unpack _).
  - intros q a <- Ha. assert (a ∈ [(WR, 9%nat); (RD, 6%nat)]) as Ha' by exact Ha.
    rewrite !elem_of_cons in Ha'. destruct Ha' as [->|[->|[]%not_elem_of_nil]]; (split; [by eexists|]);
      eexists; (split; [reflexivity|cbn; lia]).
Qed.

Lemma ycsb_serializable_witness : exists s,
  committed s = [ex_txn] /\
  run_serial (yc := ex_config) ex_read false (fun _ => None) [ex_txn] ex_rows = Some (serial_db ex_rows (log (tpl s))) /\
  db (tpl s) !! 9%nat = Some (replicate 8 0 ++ [7; 7]).
Proof.
  set (s1 := set_wk 0 (Some (ex_txn, run_txn (yc := ex_config) ex_read false (fun _ => None) ex_txn)) (mkY ex_start (fun _ => None) [])).
  destruct (wsteps 2 Z.of_nat NO_WAIT 64 false 7 0 s1) as [s|] eqn:E; [|by vm_compute in E].
  assert ((fun s => (committed s, db (tpl s) !! 9%nat)) <$> wsteps 2 Z.of_nat NO_WAIT 64 false 7 0 s1 =
    Some ([ex_txn], Some (replicate 8 0 ++ [7; 7]))) as Ec by (vm_compute; reflexivity).
  rewrite E in Ec. injection Ec as Hc Hd. exists s. split; [exact Hc|]. split; [|exact Hd].
  destruct (ycsb_serializable (yc := ex_config) 2 Z.of_nat NO_WAIT 64 false ex_read false (fun _ => None) (eq ex_txn) ex_start s)
    as (Hlen & _ & Hrun & _).
  - lia.
  - reflexivity.
  - apply ex_start_init.
  - apply ex_queries_ok.
  - eapply rtc_l; [|by eapply wsteps_ystep]. apply y_start; [reflexivity|reflexivity|lia|reflexivity].
  - specialize (Hrun 1%nat). rewrite Hc in Hlen, Hrun. rewrite take_ge in Hrun by (cbn; lia).
    rewrite take_ge in Hrun by (rewrite <- Hlen; cbn; lia). exact Hrun.
Defined.
