(* ===== verification/YcsbProgress.v ===== *)
(** * YCSB under two-phase locking does not stop

    Together with the locks of RowLock.v: in no interleaving do the workers of YcsbTwoPL.v
    all wait for each other. *)

From stdpp Require Import list gmap functions.
From S2P Require Import Prelude Global RowLock Storage Serial TwoPL YcsbQuery YcsbLoad YcsbTxn YcsbTwoPL.

#[local] Notation set_pc := TwoPL.set_pc.

(** ** A waiting transaction is in the queue or has been told *)

Section ready.
Context (g_thread_cnt : nat) (get_txn_id : nat -> Z) (CC_ALG : lock_alg).
Context (MAX_ROW_PER_TXN : nat) (REPEATABLE_READ : bool).
Context (Hg : Z.of_nat g_thread_cnt < 2 ^ 32) (Hearly : early_release CC_ALG REPEATABLE_READ = false).
Context (db0 : gmap nat bytes).

Notation step := (TwoPL.step g_thread_cnt get_txn_id CC_ALG MAX_ROW_PER_TXN REPEATABLE_READ).
Notation inv := (inv g_thread_cnt CC_ALG db0).

Definition told (s : TwoPL.State) : Prop := forall t type r, t_pc (tx s t) = Waiting type r ->
  CC_ALG <> NO_WAIT /\
  forall l, sys_rows (sys s) !! r = Some l -> t ∈ txns (waiters l) \/ sys_ready (sys s) !! t = Some true.

(** The rest of the system as it was; [t] does not wait now. *)
Lemma told_same s s' t : told s -> sys s' = sys s -> (forall t', t' <> t -> tx s' t' = tx s t') ->
  (forall type r, t_pc (tx s' t) <> Waiting type r) -> told s'.
Proof using Type.
  intros Ht Hs Hx Hn t' type r Hw. rewrite Hs. destruct (decide (t' = t)) as [->|Hne]; [by destruct (Hn type r)|].
  rewrite Hx in Hw by done. by eapply Ht.
Qed.

Lemma told_tx s t x : told s -> (forall type r, t_pc x <> Waiting type r) -> told (set_tx t x s).
Proof using Type.
  intros Ht Hn. apply (told_same s _ t); [done|done|intros; cbn; by rewrite upd_ne|cbn; by rewrite upd_eq].
Qed.

Lemma grant_flags_in g (fl : gmap nat bool) t : t ∈ txns g -> grant_flags g fl !! t = Some true.
Proof using get_txn_id.
  revert fl. induction g as [|e g IH]; intros fl Hin; [by apply not_elem_of_nil in Hin|].
  change (grant_flags (e :: g) fl) with (grant_flags g (<[le_txn e := true]> fl)).
  destruct (decide (t ∈ txns g)) as [|Hni]; [by apply IH|]. rewrite grant_flags_other by done.
  apply elem_of_cons in Hin as [->|?]; [|done]. by rewrite lookup_insert_eq.
Qed.

(** A release by another transaction. *)
Lemma told_release s s1 t r x : inv s -> told s -> release t r s = Some s1 ->
  (exists lt, (r, lt) ∈ held (tx s t) \/ (r, lt) ∈ wanted (tx s t)) ->
  tx s1 = tx s -> (forall type r, t_pc x <> Waiting type r) -> told (set_tx t x s1).
Proof using All.
  intros [Il _] Ht Hr [lt Hin] Hx Hn t' type r' Hw.
  destruct (decide (t' = t)) as [->|Hne]; [cbn in Hw; rewrite upd_eq in Hw; by destruct (Hn type r')|].
  cbn in Hw. rewrite upd_ne, Hx in Hw by done. destruct (Ht t' type r' Hw) as [Hcc Hold]. split; [done|].
  unfold release in Hr. destruct (sys_rows (sys s) !! r) as [l0|] eqn:Hl0; [|done].
  assert (t ∈ txns (entries l0)) as Ht0.
  { destruct Hin as [(l & Hl & Ho)%(i_held _ _ _ _ Il)|(l & Hl & Ho)%(i_wanted _ _ _ _ Il)];
      rewrite Hl0 in Hl; injection Hl as <-; apply elem_of_txns; exists (mkLockEntry lt t); (split; [|done]); [|done].
    unfold entries. apply elem_of_app. by left. }
  destruct (lock_release_total g_thread_cnt (sys_ts (sys s)) get_txn_id t l0 (sys_ready (sys s))) as
    (l1 & e & g & l0' & fl' & Hrel & _ & He & HP & Hso & _ & Hw1 & _ & Hfl); [by eapply sys_row_ok; [apply (i_sys _ _ _ _ Il)|]|done|done|].
  rewrite Hrel in Hr. injection Hr as <-. cbn. subst fl'.
  assert (sys_ready (sys s) !! t' = Some true -> grant_flags g (sys_ready (sys s)) !! t' = Some true) as Hkeep.
  { intros Hf. destruct (decide (t' ∈ txns g)); [by apply grant_flags_in|]. by rewrite grant_flags_other. }
  intros l Hl. destruct (decide (r = r')) as [->|Hner].
  - rewrite lookup_insert_eq in Hl. injection Hl as <-. destruct (Hold _ Hl0) as [Hwait|]; [|by right; apply Hkeep].
    apply elem_of_txns in Hwait as (e' & He' & Ee').
    assert (e' ∈ waiters l1) as Hin1.
    { assert (e' ∈ entries l0) as Hent by (unfold entries; apply elem_of_app; by right).
      rewrite HP in Hent. apply elem_of_cons in Hent as [->|Hent]; [congruence|].
      unfold entries in Hent. apply elem_of_app in Hent as [Hown|]; [|done]. exfalso.
      eapply (owner_not_waiter g_thread_cnt l0 (sys_ready (sys s)) e').
      - by eapply sys_row_ok; [apply (i_sys _ _ _ _ Il)|].
      - eapply elem_of_submseteq; [exact Hown|]. by apply sublist_submseteq.
      - apply elem_of_txns. by exists e'. }
    rewrite Hw1 in Hin1. apply elem_of_app in Hin1 as [Hg1|Hw2].
    + right. apply grant_flags_in, elem_of_txns. by exists e'.
    + left. apply elem_of_txns. by exists e'.
  - rewrite lookup_insert_ne in Hl by done. destruct (Hold _ Hl); [by left|right; by apply Hkeep].
Qed.

Lemma told_get_row s s' t type r : inv s -> told s ->
  TwoPL.get_row g_thread_cnt get_txn_id CC_ALG MAX_ROW_PER_TXN t type r s = Some s' -> told s'.
Proof using All.
  intros [Il _] Ht Hs. unfold TwoPL.get_row in Hs. destruct (t_pc (tx s t)) eqn:Hpc; try done.
  destruct (_ <=? _)%nat.
  { injection Hs as <-. apply (told_same s _ t); [done|done| |].
    - intros. cbn. by rewrite upd_ne.
    - cbn. rewrite upd_eq. done. }
  inv_assert. destruct (sys_rows (sys s) !! r) as [l|] eqn:Hl; [|done].
  destruct (lock_get _ _ _ _ _ _ _ _) as [[[[rc ids] l'] fl']|] eqn:Hget; [|done].
  assert (r ∉ map a_row (accesses (tx s t))) as Hr by done. assert (t < g_thread_cnt)%nat as Hlt by (by apply Nat.ltb_lt).
  pose proof (sys_row_ok _ _ _ (i_sys _ _ _ _ Il) _ _ Hl) as Hrok.
  assert (t ∉ txns (entries l)) as Hni.
  { intros He. pose proof (i_only _ _ _ _ Il _ _ _ Hl He) as Ho. unfold held, wanted in Ho.
    rewrite Hpc, !app_nil_r, map_map in Ho. by apply Hr. }
  destruct (lock_get_total g_thread_cnt (sys_ts (sys s)) get_txn_id CC_ALG (lock_of type) t l _ Hrok Hg)
    as (rc1 & ids1 & l1 & fl1 & Hget1 & _ & Hpost); [apply lock_of_ne|done|done|].
  rewrite Hget in Hget1. injection Hget1 as <- <- <- <-.
  assert (forall p t' type' r', t' <> t -> t_pc (upd (tx s) t (set_pc p (tx s t)) t') = Waiting type' r' ->
    t_pc (tx s t') = Waiting type' r') as Hother by (intros p t' type' r' Hne; by rewrite upd_ne).
  assert (forall t', t' <> t -> fl' !! t' = sys_ready (sys s) !! t') as Hfl.
  { intros t' Hne. destruct rc; try done.
    - by destruct Hpost as (_ & -> & _).
    - by destruct Hpost as (_ & -> & _).
    - destruct Hpost as (-> & _). by rewrite lookup_insert_ne. }
  assert (forall t', t' ∈ txns (waiters l) -> t' ∈ txns (waiters l')) as Hwait.
  { intros t' Hin. destruct rc; try done.
    - destruct Hpost as (_ & _ & _ & Hw & _). by rewrite Hw.
    - by destruct Hpost as (-> & _).
    - apply lock_get_post_waiters in Hpost. apply elem_of_txns in Hin as (e & He & <-). apply elem_of_txns.
      exists e. split; [|done]. rewrite Hpost. by right. }
  assert (forall p, (forall type' r', p = Waiting type' r' -> CC_ALG <> NO_WAIT /\ r' = r /\ t ∈ txns (waiters l')) ->
    told (set_tx t (set_pc p (tx s t)) (set_row r l' fl' s))) as Hgen.
  { intros p Hp t' type' r' Hw. cbn in Hw |- *. destruct (decide (t' = t)) as [->|Hne].
    - rewrite upd_eq in Hw. cbn in Hw. destruct (Hp _ _ Hw) as (? & -> & Hin). split; [done|].
      intros l2 Hl2. rewrite lookup_insert_eq in Hl2. injection Hl2 as <-. by left.
    - apply Hother in Hw; [|done]. destruct (Ht t' type' r' Hw) as [Hcc Hold]. split; [done|].
      intros l2 Hl2. rewrite Hfl by done. destruct (decide (r = r')) as [->|Hner].
      + rewrite lookup_insert_eq in Hl2. injection Hl2 as <-. destruct (Hold _ Hl); [left; by apply Hwait|by right].
      + rewrite lookup_insert_ne in Hl2 by done. by apply Hold. }
  destruct rc; try done; injection Hs as <-; apply Hgen; try done.
  intros type' r' [= <- <-]. split_and!; [|done|].
  - intros Hcc. unfold lock_get_post in Hpost. rewrite Hcc in Hpost. by destruct Hpost as (_ & _ & _ & []).
  - apply lock_get_post_waiters in Hpost. apply elem_of_txns. exists (mkLockEntry (lock_of type) t).
    split; [|done]. rewrite Hpost. by left.
Qed.

Lemma told_step s s' : inv s -> told s -> step s s' -> told s'.
Proof using All.
  intros I Ht Hs.
  destruct Hs as [t v s Hidle|t type r s s' Hs|t s s' Hs|t s s' Hs|t s s' Hs|t s s' Hs|t i s s' Hs|t i v s s' Hs|
    t rc s s' Hs|t s s' Hs|t s s' Hs|t s s' Hs].
  - done.
  - by eapply told_get_row.
  - unfold wait_ready in Hs. destruct (t_pc (tx s t)); try done. case_match; [|done]. injection Hs as <-.
    by apply (told_tx s t).
  - unfold wait_abort in Hs. destruct (t_pc (tx s t)); try done. case_match; [|done]. injection Hs as <-.
    by apply (told_tx s t).
  - unfold leave_queue in Hs. destruct (t_pc (tx s t)) as [| | |type r| |] eqn:Hpc; try done.
    destruct (release t r s) as [s1|] eqn:Hr; [|done]. injection Hs as <-.
    eapply told_release; [done|done|exact Hr| |by apply (release_local _ _ _ _ Hr)|done].
    exists (lock_of type). right. unfold wanted. rewrite Hpc. by left.
  - unfold record_access in Hs. rewrite Hearly in Hs. destruct (t_pc (tx s t)); try done. injection Hs as <-.
    by apply (told_tx s t).
  - unfold read_data in Hs. destruct (t_pc (tx s t)); try done. destruct (_ !! i); [|done].
    destruct (is_wr _); [done|]. injection Hs as <-. by apply (told_tx s t).
  - unfold write_data in Hs. destruct (t_pc (tx s t)); try done. destruct (_ !! i); [|done].
    destruct (is_wr _); [|done]. injection Hs as <-. done.
  - unfold TwoPL.finish in Hs. destruct (t_pc (tx s t)); try done; destruct rc; try done; injection Hs as <-;
      by apply (told_same s _ t); [| |intros; cbn; rewrite upd_ne|cbn; rewrite upd_eq].
  - unfold cleanup_copy in Hs. destruct (t_pc (tx s t)) as [| | | | |rc []]; try done. destruct (last _) as [a|]; [|done].
    destruct (to_restore rc a); [|done]. injection Hs as <-.
    by apply (told_same s _ t); [| |intros; cbn; rewrite upd_ne|cbn; rewrite upd_eq].
  - unfold cleanup_release in Hs. rewrite Hearly in Hs. destruct (t_pc (tx s t)) as [| | | | |rc b] eqn:Hpc; try done.
    destruct (last _) as [a|] eqn:Ha; [|done]. inv_assert. cbn [andb] in Hs.
    destruct (release t (a_row a) s) as [s1|] eqn:Hr; [|done]. injection Hs as <-.
    eapply told_release; [done|done|exact Hr| |by apply (release_local _ _ _ _ Hr)|done].
    exists (lock_of (a_type a)). left. unfold held. apply elem_of_app. left.
    apply list_elem_of_fmap. exists a. split; [done|]. by apply last_Some_elem_of.
  - unfold cleanup_end in Hs. destruct (t_pc (tx s t)); try done. destruct (accesses _); [|done]. injection Hs as <-.
    by apply (told_tx s t).
Qed.
End ready.

(** ** Somebody can always go on *)

Section progress.
Context {yc : YcsbConfig}.
Context (g_thread_cnt : nat) (get_txn_id : nat -> Z) (CC_ALG : lock_alg) (MAX_ROW_PER_TXN : nat) (REPEATABLE_READ : bool).
Context (index_read : Z -> nat -> option (option nat)) (IDX_BTREE : bool) (index_next : nat -> option nat).
Context (queries : ycsb_query -> Prop).
Context (s0 : TwoPL.State) (Hqs : queries_ok index_read IDX_BTREE index_next queries s0).
Context (Hg : Z.of_nat g_thread_cnt < 2 ^ 32) (Hearly : early_release CC_ALG REPEATABLE_READ = false).

Notation yinv := (yinv g_thread_cnt CC_ALG index_read IDX_BTREE index_next queries s0).
Notation ystep := (ystep g_thread_cnt get_txn_id CC_ALG MAX_ROW_PER_TXN REPEATABLE_READ index_read IDX_BTREE index_next queries).
Notation work := (work g_thread_cnt get_txn_id CC_ALG MAX_ROW_PER_TXN REPEATABLE_READ).
Notation told := (told CC_ALG).

(** A step of a worker with its query: of [run_txn] or of [cleanup]. *)
Definition moves (t : nat) (s s' : ystate) : Prop :=
  work t s s' \/
  exists s1, s' = set_tpl s1 s /\
    (cleanup_copy t (tpl s) = Some s1 \/ cleanup_release CC_ALG REPEATABLE_READ t (tpl s) = Some s1 \/
     cleanup_end t (tpl s) = Some s1).

(** A query that has not ended, or whose locks are not all released. *)
Definition busy (s : ystate) (t : nat) : Prop := wk s t <> None \/ tx (tpl s) t <> idle.

Definition queued (s : ystate) (t r : nat) (l : Row_lock) : Prop :=
  sys_rows (sys (tpl s)) !! r = Some l /\ t ∈ txns (waiters l).

Lemma moves_ystep t s s' : moves t s s' -> ystep s s'.
Proof using Type.
  intros [Hw|(s1 & -> & [H|[H|H]])]; [by eapply y_work|by eapply y_copy|by eapply y_release|by eapply y_end].
Qed.

Lemma ystep_tpl s s' : ystep s s' ->
  tpl s' = tpl s \/ TwoPL.step g_thread_cnt get_txn_id CC_ALG MAX_ROW_PER_TXN REPEATABLE_READ (tpl s) (tpl s').
Proof using Type.
  intros [t q|t s1 Hw|t s1 H|t s1 H|t s1 H|t v Hw Hi Hv]; [by left| |right..].
  - destruct Hw as [q ty r ok null s1 _ H|q ty r ok null s1 _ H|q ty r ok null s1 _ H|q ty r ok null s1 _ H|
      q ty r ok null s1 _ H|q ty r ok null _ H|q k s1 _ H|q r k d v s1 _ _ _ H|q rc s1 _ H]; [right..|by left|right|right|right].
    + by eapply step_get_row.
    + by eapply step_ready.
    + by eapply TwoPL.step_abort.
    + by eapply step_leave_queue.
    + by eapply step_record.
    + by eapply TwoPL.step_read.
    + by eapply step_write.
    + by eapply step_finish.
  - by eapply step_copy.
  - by eapply TwoPL.step_release.
  - by eapply step_end.
  - by apply step_ts.
Qed.

Lemma told_ystep s s' : yinv s -> told (tpl s) -> ystep s s' -> told (tpl s').
Proof using Hg Hearly.
  intros I Ht [->|Hs]%ystep_tpl; [done|]. by eapply told_step; [..|apply (yi_tpl _ _ _ _ _ _ _ _ I)|done|exact Hs].
Qed.

Lemma cleaning_moves s t rc b : yinv s -> t_pc (tx (tpl s) t) = Cleaning rc b -> exists s', moves t s s'.
Proof using Hg Hearly.
  intros I Hpc. destruct (yi_tpl _ _ _ _ _ _ _ _ I) as [Il _].
  destruct (last (accesses (tx (tpl s) t))) as [a|] eqn:Ha.
  - destruct (negb (to_restore rc a) || b) eqn:Hc.
    + destruct (release_ok g_thread_cnt CC_ALG Hg (sys (tpl s)) (tx (tpl s)) t (a_row a) (lock_of (a_type a)) Il)
        as (l & rc' & l' & fl' & Hl & Hrel & _).
      { left. unfold held. apply elem_of_app. left. apply list_elem_of_fmap. exists a. split; [done|]. by apply last_Some_elem_of. }
      eexists. right. eexists. split; [done|]. right; left. unfold cleanup_release. rewrite Hpc, Ha, Hearly, Hc.
      unfold release. cbn. rewrite Hl, Hrel. reflexivity.
    + apply orb_false_iff in Hc as [Hr ->]. apply negb_false_iff in Hr. eexists. right. eexists. split; [done|].
      left. unfold cleanup_copy. rewrite Hpc, Ha, Hr. reflexivity.
  - apply last_None in Ha. eexists. right. eexists. split; [done|]. right; right.
    unfold cleanup_end. rewrite Hpc, Ha. reflexivity.
Qed.

Lemma waiting_at s t q p type r : yinv s -> wk s t = Some (q, p) -> t_pc (tx (tpl s) t) = Waiting type r ->
  exists ty row ok null, p = PGet ty row ok null.
Proof using Type.
  intros I Hw Hpc. destruct (worker_of _ _ _ _ _ _ _ s t q p I Hw) as (_ & _ & Hok).
  destruct Hok as [rest Hp [Hr|(a & rest' & -> & _)] _|rest accs a _ Hr|rest accs a _ Hr|Hr]; try congruence.
  destruct a as [ty row]. by eexists _, _, _, _.
Qed.

(** A busy worker steps, unless it is queued for a row of WAIT_DIE. *)
Lemma busy_moves s t : yinv s -> told (tpl s) -> busy s t ->
  (exists s', moves t s s') \/ CC_ALG = WAIT_DIE /\ exists r l, queued s t r l.
Proof using Hg Hearly Hqs.
  intros I Ht Hb. pose proof (yi_workers _ _ _ _ _ _ _ _ I t) as Hwi. destruct (yi_tpl _ _ _ _ _ _ _ _ I) as [Il _].
  destruct (wk s t) as [[q p]|] eqn:Hw.
  2:{ left. destruct Hwi as [Hi|Hc]; [by destruct Hb|]. unfold cleaning in Hc.
      destruct (t_pc (tx (tpl s) t)) as [| | | | |rc b] eqn:Hpc; try done. by eapply cleaning_moves. }
  assert ((exists type r, t_pc (tx (tpl s) t) = Waiting type r) \/ forall type r, t_pc (tx (tpl s) t) <> Waiting type r)
    as [(type & r & Hpc)|Hn] by (destruct (t_pc (tx (tpl s) t)); eauto).
  2:{ left. destruct (work_progress g_thread_cnt get_txn_id CC_ALG MAX_ROW_PER_TXN REPEATABLE_READ _ _ _ _ _ Hqs Hearly Hg s t q p I Hw Hn) as [s' Hs']. exists s'. by left. }
  destruct (waiting_at s t q p type r I Hw Hpc) as (ty & row & ok & null & ->).
  destruct (i_wanted _ _ _ _ Il t r (lock_of type)) as (l & Hl & _); [unfold wanted; rewrite Hpc; by left|].
  destruct (decide (sys_ready (sys (tpl s)) !! t = Some true)) as [Hy|Hno].
  { left. eexists. left. eapply work_ready; [exact Hw|]. unfold wait_ready. rewrite Hpc, bool_decide_eq_true_2 by done. reflexivity. }
  destruct (Ht t type r Hpc) as [Hcc Hq]. destruct (Hq l Hl) as [Hin|]; [|done].
  assert (CC_ALG = WAIT_DIE \/ CC_ALG = DL_DETECT) as [Ha|Ha] by (clear -Hcc; destruct CC_ALG; (by destruct Hcc) || auto).
  { right. split; [done|]. by exists r, l. }
  left. eexists. left. eapply work_give_up; [exact Hw|]. unfold wait_abort. rewrite Hpc.
  rewrite (bool_decide_eq_true_2 (CC_ALG = _)), (bool_decide_eq_false_2 (sys_ready _ !! t = _)) by done. reflexivity.
Qed.

(** A queued worker waits for a younger one, which is busy. *)
Lemma queued_owner s t r l : CC_ALG = WAIT_DIE -> yinv s -> queued s t r l ->
  exists t', busy s t' /\ (t' < g_thread_cnt)%nat /\ sys_ts (sys (tpl s)) t < sys_ts (sys (tpl s)) t'.
Proof using get_txn_id Hg.
  intros Hcc I [Hl Hin]. destruct (yi_tpl _ _ _ _ _ _ _ _ I) as [Il _]. pose proof (i_sys _ _ _ _ Il) as Hs.
  destruct (sys_row_ok _ _ _ Hs _ _ Hl) as [Hp Hh]. pose proof (ok_owners _ _ _ Hp) as Ho.
  destruct (owners l) as [|o own] eqn:Eo.
  { cbn in Ho. rewrite Ho in Hh. apply elem_of_txns in Hin as (e & He & _).
    destruct (waiters l); [by apply not_elem_of_nil in He|done]. }
  assert (le_txn o ∈ txns (owners l)) as Hown by (rewrite Eo; by left).
  assert (le_txn o ∈ txns (entries l)) as Hent by (unfold entries; rewrite txns_app; apply elem_of_app; by left).
  exists (le_txn o). split_and!.
  - pose proof (i_only _ _ _ _ Il _ _ _ Hl Hent) as Hheld. destruct (wk s (le_txn o)) eqn:Hw; [left; by rewrite Hw|].
    right. intros Hi. rewrite Hi in Hheld. by apply not_elem_of_nil in Hheld.
  - pose proof (ok_threads _ _ _ Hp) as Hth. rewrite Forall_forall in Hth. by apply Hth.
  - eapply (waits_for_older g_thread_cnt get_txn_id); [exact Hcc|exact Hs|]. exists r, l. split; [done|]. by left.
Qed.

Lemma somebody_moves s t : yinv s -> told (tpl s) -> busy s t -> exists t' s', moves t' s s'.
Proof using Hg Hearly Hqs.
  intros I Ht. set (ts := sys_ts (sys (tpl s))).
  set (younger t := filter (fun t' => ts t < ts t') (list_to_set (seq 0 g_thread_cnt) : gset nat)).
  remember (younger t) as Y eqn:EY. revert t EY. induction (set_wf Y) as [Y _ IH]. intros t -> Hb.
  destruct (busy_moves s t I Ht Hb) as [[s' Hs]|(Hcc & r & l & Hq)]; [by exists t, s'|].
  destruct (queued_owner s t r l Hcc I Hq) as (t' & Hb' & Hlt & Hts).
  eapply (IH (younger t')); [|done|done]. fold ts in Hts. unfold younger. split; [set_solver by lia|].
  intros Hsub. assert (t' ∈ filter (fun u => ts t' < ts u) (list_to_set (seq 0 g_thread_cnt) : gset nat)) as Hin.
  { apply Hsub, elem_of_filter. split; [done|]. apply elem_of_list_to_set, elem_of_seq. lia. }
  apply elem_of_filter in Hin as [Hin _]. lia.
Qed.
End progress.

(** C14. YCSB under two-phase locking never deadlocks: in every interleaving of the
    workers, as long as some query has not ended or its locks are not all
    released, some worker can take the next step of [run_txn] or of [cleanup], even
    if no other query starts. Under NO_WAIT no transaction waits, under WAIT_DIE one
    that waits finds a younger owner to wait for and so on to one that runs, and under
    DL_DETECT one that waits can be told to abort. *)
Theorem ycsb_deadlock_free {yc : YcsbConfig} g_thread_cnt get_txn_id CC_ALG MAX_ROW_PER_TXN REPEATABLE_READ
    index_read IDX_BTREE index_next queries s0 s t
  (Hg : Z.of_nat g_thread_cnt < 2 ^ 32)
  (He : early_release CC_ALG REPEATABLE_READ = false)
  (Hi : TwoPL.init s0)
  (Hqs : queries_ok index_read IDX_BTREE index_next queries s0)
  (Hr : rtc (ystep g_thread_cnt get_txn_id CC_ALG MAX_ROW_PER_TXN REPEATABLE_READ index_read IDX_BTREE index_next queries)
          (mkY s0 (fun _ => None) []) s)
  (Hb : busy s t) :
  exists t' s', moves g_thread_cnt get_txn_id CC_ALG MAX_ROW_PER_TXN REPEATABLE_READ t' s s'.
Proof.
  assert (yinv g_thread_cnt CC_ALG index_read IDX_BTREE index_next queries s0 s /\ told CC_ALG (tpl s)) as [I Ht].
  { refine (rtc_ind_r (fun s => yinv g_thread_cnt CC_ALG index_read IDX_BTREE index_next queries s0 s /\ told CC_ALG (tpl s))
      _ _ _ s Hr).
    - split; [by eapply start_inv|]. intros t' ty r. cbn. destruct Hi as (_ & Hidle & _). by rewrite Hidle.
    - intros s1 s2 _ Hs [I Ht]. split; [by eapply ystep_inv|by eapply told_ystep]. }
  by eapply somebody_moves.
Qed.

(** Two workers run the same query; the older one waits for the row that it writes. *)
Lemma ycsb_deadlock_free_witness : exists s t' s',
  t_pc (tx (tpl s) 0%nat) = Waiting WR 9 /\ moves 2 Z.of_nat WAIT_DIE 64 false t' s s'.
Proof.
  set (p := run_txn (yc := ex_config) ex_read false (fun _ => None) ex_txn).
  set (s1 := set_wk 0 (Some (ex_txn, p)) (set_wk 1 (Some (ex_txn, p)) (mkY ex_start (fun _ => None) []))).
  destruct (do! s <- wsteps 2 Z.of_nat WAIT_DIE 64 false 1 1 s1;; wsteps 2 Z.of_nat WAIT_DIE 64 false 1 0 s) as [s|] eqn:E;
    [|by vm_compute in E].
  assert ((fun s => t_pc (tx (tpl s) 0%nat)) <$> (do! s <- wsteps 2 Z.of_nat WAIT_DIE 64 false 1 1 s1;;
    wsteps 2 Z.of_nat WAIT_DIE 64 false 1 0 s) = Some (Waiting WR 9)) as Ec by (vm_compute; reflexivity).
  rewrite E in Ec. injection Ec as Hpc. exists s.
  destruct (ycsb_deadlock_free (yc := ex_config) 2 Z.of_nat WAIT_DIE 64 false ex_read false (fun _ => None) (eq ex_txn) ex_start s 0)
    as (t' & s' & Hm).
  - lia.
  - reflexivity.
  - apply ex_start_init.
  - apply ex_queries_ok.
  - destruct (wsteps 2 Z.of_nat WAIT_DIE 64 false 1 1 s1) as [s2|] eqn:E1; [|done].
    eapply rtc_l; [by apply (y_start _ _ _ _ _ _ _ _ _ _ 1 ex_txn); [..|lia|]|].
    eapply rtc_l; [by apply (y_start _ _ _ _ _ _ _ _ _ _ 0 ex_txn); [..|lia|]|].
    etrans; [by eapply wsteps_ystep, E1|]. by eapply wsteps_ystep, E.
  - right. intros Hi. by rewrite Hi in Hpc.
  - exists t', s'. split; [exact Hpc|exact Hm].
Defined.
